(* ===== verification/_CoqProject ===== *)
-Q . S2P
Prelude.v
Floats.v
NodeId.v
Bucket.v
FwRule.v
ConnTrack.v
FwEngine.v
DhtRecord.v
DhtStore.v
DhtQuery.v
DhtRetry.v
DhtNetwork.v
DhtService.v
DhtHandler.v
DhtNode.v
CircuitBreaker.v
Limiter.v
Cancellation.v
Resilience.v
GossipDedup.v
ContentHash.v
Wantlist.v
Bitswap.v
NasPath.v
Namespace.v
Gc.v
EvmWallet.v
MailStore.v
Mailbox.v
BaoTree.v
Ranges.v
Multihash.v
Cid.v
Hamt.v
SecError.v
KeyStore.v
Intrusion.v
Acl.v
Session.v
VirtualIp.v
ExitNode.v
Mesh.v
Token.v
Coordinator.v
Peering.v
Transit.v
PairingText.v
Pairing.v
Stun.v
TunPacket.v
HolePunch.v
MagicDns.v
DnsForwarder.v
