(* ===== verification/Prelude.v ===== *)
(** * A3Net: a verification development

    A3Net is a peer-to-peer network in Rust: nodes with 256-bit identifiers find
    each other and content through a Kademlia DHT, exchange blobs whose chunks
    are authenticated by hash trees, spread announcements by gossip, and form a
    private mesh guarded by a packet filter. This development models the pure
    and stateful cores of those parts from the sources under [crates/] and proves
    what makes them correct. The parts around them (sockets, files, timers,
    HTTP, user interfaces) are not modelled; what they deliver to the modelled
    code is an argument of the definitions.

    ** The parts and the files

    - [Prelude]: Rust's [Result] and [?], machine integers, big-endian bytes,
      clocks, socket addresses, the stable sort, string operations, generic
      lemmas, the tactics [ncase], [nprop], [step_ok] and the hint database
      [adnet].
    - [Floats]: Rust's [f64] over the kernel-checked specification of binary64.
    - [NodeId] ([a3net-types/src/node.rs]): [NodeId] with its text and byte forms
      and [xor_distance].
    - [Bucket] ([a3net-dht/src/bucket.rs]): [Contact], [KBucket], [RoutingTable];
      the record fields are the source's, [KBucket_insert] is [KBucket::insert]
      and so on. [rt_step] is the relation of the table's operations, with the
      conditions on inserted contacts and on the identity as arguments.
    - [DhtRecord] ([a3net-dht/src/record.rs], [protocol.rs]): keys, provider and
      name records, the bytes that are signed, lifetimes, wire messages.
    - [DhtStore] ([a3net-dht/src/store.rs]): the trait [DhtStorage] as a class
      with three instances (in memory, RocksDB, tiered); [DhtSpec] is the documented
      contract, three maps, and [StorageLaws] the weaker one that queries rely on.
    - [DhtQuery] ([a3net-dht/src/query.rs]): the iterative lookups and
      publications of [DhtQuery], over [Bucket], [DhtRecord] and any instance of
      [DhtStorage].
    - [DhtRetry], [DhtNetwork], [DhtService] ([a3net-dht/src/retry.rs],
      [network.rs], [service.rs]): backoff and per-peer cooldowns with their
      double-precision arithmetic; the network sender, whose calls share a map of
      pending requests, as a transition system over every interleaving
      ([net_step], and the relation [net_trans]); announcements, refresh and the
      routing table that survives a restart.
    - [DhtHandler], [DhtNode] ([a3net-dht/src/handler.rs], [node.rs]): what a node
      answers to the messages of others, its table of pending requests, and the
      node that joins table, store, sender and handler, with its background tasks.
    - [FwRule], [ConnTrack], [FwEngine] ([a3net-mesh-firewall/src/]): rules and
      rule sets, connection tracking, and the engine that consults the
      connection table, then the rules in order, then the default policy;
      [FwEngine] also holds the loader of declarative specifications.
    - [ContentHash] ([a3net-types/src/content.rs]), [BaoTree]
      ([a3net-blobstore/src/bao_tree.rs]), [Ranges] ([a3net-types/src/range.rs]
      and the arithmetic of [a3net-blobstore/src/chunked.rs]): content hashes, the
      hash tree with its paths, range proofs and streaming builder, and byte
      ranges with their HTTP form and chunk numbers.
    - [Wantlist], [Bitswap] ([a3net-blobstore/src/bitswap_wantlist.rs],
      [bitswap.rs]): the wantlists of a Bitswap peer and their manager; the engine
      with its sessions, ledgers, rate limiters and pending wants.
    - [NasPath], [Namespace] ([a3net-blobstore/src/namespace.rs]): the decoding of
      paths, the tree of names over the blobs, and every operation of [Nas] with its
      audit line, manifest, trash and versions.
    - [Gc] ([a3net-blobstore/src/pin_set.rs], [gc_scheduler.rs], the collector of
      [store.rs], the pin command of [a3net-cli/src/file_ops.rs]): pins, collectors,
      sweeps and the loop of the scheduler.
    - [GossipDedup] ([a3net-gossip/src/dedup.rs]): the duplicate cache, filter and
      lifetime tracker of gossip.
    - [CircuitBreaker], [Limiter], [Cancellation], [Resilience]
      ([a3net-resilience/src/]): the breaker's state machine, the resource limiter
      ([limiter_step] interleaves its tasks over an interface of semaphores), tokens
      and scopes of cancellation, and retries with the HTTP client that composes them
      with the breaker.
    - [Multihash], [Cid] ([a3net-types/src/multihash_local.rs], [cid.rs]):
      varints, self-describing hashes and content identifiers with their binary,
      base58 and base32 forms.
    - [Hamt] ([a3net-blobstore/src/hamt/]): the sharded directory, its nodes, the
      shard manager, the bulk importers and the iterators.
    - [SecError], [Acl], [Session] ([a3net-security/src/error.rs], [acl.rs],
      [session.rs]): the errors of the security crate, access-control policies
      and their evaluation, and the encrypted sessions with skipped message keys.
    - [KeyStore] ([a3net-security/src/key_management.rs]): rotating keys, policies
      and the store; [key_run] is a sequence of its operations ([KeyOp]).
    - [Intrusion] ([a3net-security/src/intrusion.rs]): the detector, whose
      operations run in a monad [Locked] that tracks the locks they take, and the
      tasks ([task_step]) that interleave over those locks.
    - [VirtualIp], [Mesh] ([a3net-types/src/virtual_ip.rs], [mesh.rs]) and
      [Coordinator] ([a3net-mesh-coordinator/src/store.rs]): addresses derived
      from node ids, rosters with the bytes their signature covers, invite URLs,
      and the coordinator that admits members; [run] is the relation of its
      operations.
    - [Peering] ([a3net-mesh-coordinator/src/peering.rs], [peering_sign.rs]): the
      grants between meshes, their store ([peer_step] interleaves the two halves
      of [issue]), signer and verifier.
    - [Stun] ([a3net-nat-traversal/src/stun_codec.rs]), [TunPacket]
      ([a3net-tun/src/packet.rs]): the STUN codec and the view of IP packets.
    - [EvmWallet] ([a3net-identity/src/address.rs], [signing.rs], [wallet.rs]):
      addresses, their texts and personal signatures.
    - [MailStore], [Mailbox] ([a3net-mailbox/src/]): the two storage backends behind
      the interface [MailboxStore] with its laws ([InboxLaws], [SequenceLaws],
      [QuotaLaws]); the signed requests, the policies, the handlers of the server
      ([mail_step] is a request or a sweep at once, [server_step] interleaves their steps)
      and the paging client, proved against the laws.
    - [Token] ([a3net-token/src/], [a3net-relay/src/billing.rs],
      [a3net-mailbox/src/billing.rs]): pledges, receipts and claims over [EvmWallet],
      the ledger of a relay ([relay_step]) and the quota a mailbox grants.
    - [Transit] ([a3net-exit-node/src/transit.rs], [transit_gossip.rs]): the decision
      of a transit node against the interface [TransitTopology] and the topology fed by
      the grants of [Peering]; [held_grants] is its specification.
    - [ExitNode] (the other files of [a3net-exit-node/src/]): gateway, client, router,
      meters, billing and the packet handler ([exit_step]).
    - [PairingText], [Pairing] ([a3net-pairing/src/]): capability sets, base64url and
      invitation codes; invitations, requests and responses with the bytes they sign,
      and the store of trusted devices with its nonces and file ([device_step]).
    - [HolePunch] ([a3net-hole-punch/src/]): configuration, strategies, counters and
      the planner, whose race over the strategies is the transition [race_step].
    - [MagicDns], [DnsForwarder] ([a3net-magicdns/src/]): names, the resolver over
      the rosters of [Mesh], the forwarder over the packets of [TunPacket], and the
      handling of a message by the DNS server.

    A type of the sources is a record or an inductive type with the source's
    fields and constructors; a method is a definition named after its type and
    itself. A method with [&mut self] returns the new value, first in a pair when
    it has a result. A method that holds its lock for the whole body is one
    transition; one that commits after releasing it, like those of [Nas], takes what
    other tasks do in between as an argument. [HashMap] and [HashSet] are [gmap] and [gset]; [Vec] is [list].

    ** What the theorems show

    - Routing: the XOR distance is a metric; the table refines a bounded finite
      map; its invariant holds in every reachable state; [closest] returns the
      nearest contacts; [remove_dead_contacts] drops exactly the dead ones.
    - Lookups: [find_node] ends within [max_iterations] rounds of bounded width,
      never asks itself nor asks a peer in two rounds, and returns the nearest of
      what it learned; [get_providers] merges store and replies without
      duplicates; what a node publishes it reads back.
    - Requests: a call returns only the content of a response to a request of its
      own; a response completes the call that waits for it; every call ends within
      a bounded number of steps; a peer is left alone exactly for its cooldown; a
      saved routing table comes back bucket by bucket.
    - Handler and node: what one node announces or puts another one finds over the
      wire; a request of the pending table is answered once and the table stays
      bounded; what a node does with the answers of its peers, and that its query
      engine starts from an empty table.
    - Records and stores: the signed bytes determine the signed fields; lifetimes
      saturate; the store in memory refines the documented maps of providers, names and
      values, and its name records never roll back; the three stores meet what the
      queries are proved against.
    - Firewall: [decide] implements the first-match specification; nothing inbound
      passes by default without a rule or a live flow; return traffic of an
      opened flow passes unless the scan meets an expired entry like it; the tables stay bounded, rule identifiers dense and the
      counters balanced over every run; the loader installs exactly its
      specification or changes nothing.
    - Blobs: every range of a blob has a proof that verifies and covers it; a
      chunk that verifies along a path of the right shape is the blob's unless two
      of the inputs hashed on its path collide; the streaming builder equals the direct one; range
      headers round trip; chunk arithmetic is exact up to 64 TiB.
    - Identifiers: multihashes, content identifiers, base58 and URLs round trip;
      the base32 encoder equals the RFC 4648 definition; the identifier of
      content verifies it.
    - Directories: a shard refines a map from names to queues of entries, and the
      bulk importers agree with one-by-one insertion.
    - Security: a policy is evaluated first-match; what the access-control system
      grants is characterised, and where its two evaluators agree; sessions decrypt
      in any order of delivery, up to the configured number of messages, and in turns; what each failure leaves behind, and
      what a terminated session can still do; the history of a key in the key store and
      what a rotation changes; which operations of the intrusion detector can deadlock and
      which cannot.
    - Mesh: nobody enters a roster but by the rules; an invite is redeemed once; the
      coordinator's invariants hold in every reachable state; the signed bytes of a roster
      or a grant determine its contents, so that its signature passes for others only if
      the key's signature over one text is accepted for another; derived addresses lie in the mesh ranges.
    - Wire formats: STUN messages round trip and what is decoded is well-typed;
      IP packets are read within their bounds.
    - Hole punching: a race ends, records one attempt for each strategy and has an
      endpoint exactly when one attempt hit; what a configuration accepts; counters
      that add up.
    - Name service: the resolver answers from the rosters in force, the server turns
      that into DNS answers, a response is a well-formed packet whose checksum
      verifies, and the forwarder never answers with an address.
    - Wantlists, gossip: the global want set is the union of the lists; a block that
      is asked for and sent between registered peers is stored by the engine, whose
      invariant holds in every run; a message is accepted once in its lifetime unless it is pushed out by the
      capacity.
    - Resilience: the breaker trips and recovers as its counters say; the permits of
      the limiter are conserved in every interleaving; no wake-up is lost and a join
      is bounded; the sleeps of a retry, and the client that its breaker locks out when
      a single probe does not close it.
    - Names and collection: a decoded path stays below the root; every operation of
      the namespace acts as on a map from paths to files, and what a failure leaves
      behind; a file comes back from the trash; the collectors remove exactly what is
      not pinned, and a blob pinned recursively survives every run in which no removal
      names it, its chunks or another root with one of them.
    - Mailbox: what a signature binds and who can write to and read an inbox; inboxes
      stay within their quota, up to the requests in progress; over a backend whose
      sequences never go back an accepted message is delivered, from any watermark below
      it and with any page size, until it is acknowledged or expires; the two
      backends agree until something is removed.
    - Payments: the URL of a pledge reads back; a pledge that is signed, sent, charged
      and redeemed passes every step; of pledges that are sent once a relay never redeems more than was signed.
    - Exit and transit: packets between meshes follow a grant that is held, packets to the
      Internet the gateway the client chose; meters and bills hold exactly what was
      forwarded for a client.
    - Pairing: the messages of a ceremony verify; a request proves the key of its node
      and is accepted once until its nonce is cleared; the devices come back from their file, and a revoked one
      stays revoked.

    Where the code departs from its comments, the file says so at the definition
    and a theorem exhibits it (for instance [lookup_inbound_order_dependent],
    [rocksdb_ipns_rolls_back], [inner_node_passes_as_leaf]).

    ** Parameters

    Code outside the repository is an argument: the [hex] crate (class [Hex],
    laws [HexLaws]), BLAKE3 ([Blake3]; only the digest length is assumed, never
    collision freedom), SHA-256 ([Sha256]), base32 decoding ([Base32]), AES-GCM
    ([Aead]) and HKDF ([Hkdf]), RocksDB ([Kv], [KvLaws]) and [serde_json] ([Serde],
    [SerdeLaws]; [JsonCodec], [JsonCodecLaws]), the conversion from seconds of [chrono] ([Chrono]), the textual
    form of socket addresses, signers and verifiers, Ed25519
    ([Ed25519]) and the JSON of a grant ([GrantJson]), the order in which
    [select_all] returns the tasks of a race, lower case beyond ASCII and the
    [Debug] form of a string, the exchange with an upstream DNS server, the order
    in which a heap gives up equal wants and in which sessions are visited, the
    semaphores of tokio ([Semaphores], [SemaphoreLaws]), the HTTP stack and the
    random numbers of a retry, the order of [read_dir] and the outcomes of the
    writes to a disk or database, Keccak ([Keccak]), the curve ([Secp256k1],
    [Secp256k1Laws]), base64 ([Base64], [Base64Laws]) and the JSON of the payment
    tokens ([TokenJson]) and of the pairing records ([PairingJson],
    [PairingJsonLaws]).
    Each class of laws has an instance, so the theorems apply to something. The
    clock, the replies and timeouts of peers, the peer resolver and the visiting
    order of a hash map are arguments as well, so a theorem holds for every
    behaviour of them.

    ** Bounds and recursion

    Widths are written out where a result depends on them: wrapping counters of
    the firewall, saturating additions of the records, [u32] chunk numbers, [u8]
    to [u64] parsers, message counters, 16-bit lengths of STUN. Recursion is structural on what bounds the loop in the
    source: [max_iterations] for the lookups, the list visited by a [for] loop,
    the insertion order of the cache. The two loops of [BaoTree] that halve a
    level take its length as fuel, which is enough because a level of more than
    one node shrinks, and [write_loop] takes the length of the input, of which
    every round consumes a byte; [merkle_path_root] and [write_loop_inv] show it.
    The varint loops take the number of seven-bit groups of 64 bits, base58 the
    length of its input, the skipping loop of a session the number of keys to skip
    ([skip_keys_spec]), the STUN body its length, the name of a DNS message its
    length ([take_labels_wire]), the carries of a checksum two rounds
    ([fold_carry_spec]). The join of a scope takes the number of tasks and time
    slices ([join_bounded]), the paging client any number above that of the pending
    messages ([pull_all_pages]).

    ** Not modelled

    Transports, relays, most file stores, RPC and HTTP servers, the chat
    applications, the front ends and the cryptographic primitives are I/O or calls
    into libraries. The [adnet-*] crates are earlier copies of the [a3net-*]
    crates. Of the crates with logic of their own these are left: erasure coding
    and swarm downloads ([a3net-blobstore]), the rate limiter of the mailbox, PCP and NAT-PMP messages ([a3net-nat-traversal]), the
    chat stores. *)
From stdpp Require Import prelude strings gmap sorting list.
From Stdlib Require Import NArith Lia Ascii.
From Stdlib Require String.
From Stdlib Require Import DecimalString DecimalN DecimalPos.

#[export] Set Default Goal Selector "!".

(** ** Fallible results: Rust's [Result<T, E>] *)

Inductive result (E A : Type) : Type :=
| Ok (a : A)
| Err (e : E).
Arguments Ok {E A} a.
Arguments Err {E A} e.

Declare Scope adnet_scope.
Delimit Scope adnet_scope with adnet.
Open Scope adnet_scope.

(** The [?] operator: stop at the first error. *)
Notation "'let?' x ':=' c 'in' k" :=
  (match c with Ok x => k | Err e => Err e end)
  (at level 10, x pattern, c at level 100, k at level 200) : adnet_scope.

Definition is_ok {E A} (r : result E A) : bool :=
  match r with Ok _ => true | Err _ => false end.

(** [Option::ok_or_else]. *)
Definition ok_or {E A} (e : E) (o : option A) : result E A :=
  match o with Some a => Ok a | None => Err e end.

#[global] Instance result_eq_dec `{EqDecision E, EqDecision A} : EqDecision (result E A).
Proof. solve_decision. Defined.

(** ** Automation

    [ncase] decides the first numeric comparison of the goal and closes the
    branches that contradict the hypotheses; [nprop] turns the comparisons among
    the hypotheses into propositions. The hint database [adnet] collects the
    preservation lemmas of the components' invariants and the shared closure
    lemmas; [step_ok] closes an invariant goal with it. *)

Create HintDb adnet.

Ltac ncase :=
  match goal with
  | |- context [N.leb ?a ?b] => destruct (N.leb_spec a b)
  | |- context [N.ltb ?a ?b] => destruct (N.ltb_spec a b)
  | |- context [N.eqb ?a ?b] => destruct (N.eqb_spec a b)
  | |- context [Nat.leb ?a ?b] => destruct (Nat.leb_spec a b)
  | |- context [Nat.ltb ?a ?b] => destruct (Nat.ltb_spec a b)
  end; try (exfalso; lia).

Ltac nprop :=
  repeat match goal with
  | H : andb _ _ = true |- _ => apply andb_true_iff in H as [? ?]
  | H : N.leb _ _ = true |- _ => apply N.leb_le in H
  | H : N.leb _ _ = false |- _ => apply N.leb_gt in H
  | H : N.ltb _ _ = true |- _ => apply N.ltb_lt in H
  | H : N.ltb _ _ = false |- _ => apply N.ltb_ge in H
  | H : N.eqb _ _ = true |- _ => apply N.eqb_eq in H
  | H : N.eqb _ _ = false |- _ => apply N.eqb_neq in H
  end.

Ltac step_ok := solve [eauto with adnet].

(** ** Machine integers

    Unsigned integers are [N]; the width is written at the operation that
    depends on it. *)

Definition u8_max : N := 255%N.
Definition u16_max : N := 65535%N.
Definition u32_max : N := 4294967295%N.
Definition u64_max : N := 18446744073709551615%N.

(** [saturating_add] on an integer whose largest value is [mx]. *)
Definition sat_add (mx a b : N) : N := N.min (a + b) mx.

(** A byte vector holds values below 256. *)
Definition byte_ok (b : N) : Prop := (b < 256)%N.
Definition bytes_ok (bs : list N) : Prop := Forall byte_ok bs.

#[global] Instance byte_ok_dec b : Decision (byte_ok b).
Proof. unfold byte_ok. apply _. Defined.
#[global] Instance bytes_ok_dec bs : Decision (bytes_ok bs).
Proof. unfold bytes_ok. apply _. Defined.

(** [uN::to_be_bytes]: [w] bytes, most significant first. *)
Fixpoint be_bytes (w : nat) (n : N) : list N :=
  match w with
  | O => []
  | S w' => be_bytes w' (n / 256)%N ++ [(n mod 256)%N]
  end.

(** The number a big-endian byte vector denotes. *)
Definition be_value (bs : list N) : N :=
  foldl (λ acc b, (acc * 256 + b)%N) 0%N bs.

(** ** Instants and durations

    An [Instant] and a [Duration] are natural numbers of the same unit;
    [Instant::elapsed] and [duration_since] saturate at zero, which is the
    truncated subtraction of [N]. *)

Definition elapsed (now t : N) : N := (now - t)%N.

(** ** Network addresses: [std::net::IpAddr] and [SocketAddr] *)

Inductive IpAddr : Type :=
| IpV4 (a : N)
| IpV6 (a : N).

Record SocketAddr : Type := mkSocketAddr { sock_ip : IpAddr; sock_port : N }.

#[global] Instance IpAddr_eq_dec : EqDecision IpAddr.
Proof. solve_decision. Defined.
#[global] Instance SocketAddr_eq_dec : EqDecision SocketAddr.
Proof. solve_decision. Defined.
#[global] Instance IpAddr_countable : Countable IpAddr.
Proof.
  apply (inj_countable' (λ i, match i with IpV4 a => inl a | IpV6 a => inr a end)
           (λ s, match s with inl a => IpV4 a | inr a => IpV6 a end)); by intros [].
Defined.
#[global] Instance SocketAddr_countable : Countable SocketAddr.
Proof.
  by apply (inj_countable' (λ s, (sock_ip s, sock_port s)) (λ p, mkSocketAddr p.1 p.2)); intros [].
Defined.

(** ** Ordering of byte vectors: [Vec<u8>::cmp] *)

Fixpoint bytes_cmp (a b : list N) : comparison :=
  match a, b with
  | [], [] => Eq
  | [], _ :: _ => Lt
  | _ :: _, [] => Gt
  | x :: a', y :: b' =>
      match (x ?= y)%N with
      | Eq => bytes_cmp a' b'
      | c => c
      end
  end.

Definition bytes_leb (a b : list N) : bool :=
  match bytes_cmp a b with Gt => false | _ => true end.

(** ** [slice::sort_by]: the stable sort *)

Section StableSort.
Context {A : Type} (leb : A → A → bool).

Fixpoint insert_sorted (x : A) (l : list A) : list A :=
  match l with
  | [] => [x]
  | y :: l' => if leb x y then x :: l else y :: insert_sorted x l'
  end.

Definition sort_by (l : list A) : list A := foldr insert_sorted [] l.

(** Equivalence of keys under the comparison. *)
Definition key_eqb (x y : A) : bool := leb x y && leb y x.

Lemma insert_sorted_perm x l : insert_sorted x l ≡ₚ x :: l.
Proof.
  induction l as [|y l IH]; simpl; [done|].
  destruct (leb x y); [done|]. rewrite IH. apply Permutation_swap.
Qed.

Lemma sort_by_perm l : sort_by l ≡ₚ l.
Proof.
  induction l as [|x l IH]; simpl; [done|]. by rewrite insert_sorted_perm, IH.
Qed.

Lemma elem_of_sort_by x l : x ∈ sort_by l ↔ x ∈ l.
Proof. by rewrite sort_by_perm. Qed.

Lemma length_sort_by l : length (sort_by l) = length l.
Proof. by rewrite sort_by_perm. Qed.

Context (Htotal : ∀ x y, leb x y = true ∨ leb y x = true).
Context (Htrans : ∀ x y z, leb x y = true → leb y z = true → leb x z = true).

Lemma insert_sorted_sorted x l :
  StronglySorted (λ a b, leb a b = true) l →
  StronglySorted (λ a b, leb a b = true) (insert_sorted x l).
Proof.
  induction 1 as [|y l Hl IH Hy]; simpl; [by repeat constructor|].
  destruct (leb x y) eqn:E.
  - constructor; [by constructor|]. constructor; [done|].
    eapply Forall_impl; [exact Hy|]. simpl. eauto.
  - constructor; [done|]. rewrite insert_sorted_perm. constructor; [|done].
    destruct (Htotal x y); congruence.
Qed.

Lemma sort_by_sorted l : StronglySorted (λ a b, leb a b = true) (sort_by l).
Proof. induction l; simpl; [constructor|]. by apply insert_sorted_sorted. Qed.

(** Stability: the elements with a given key keep their relative order. *)
Lemma insert_sorted_stable k x l :
  filter (λ y, key_eqb k y) (insert_sorted x l) = filter (λ y, key_eqb k y) (x :: l).
Proof.
  induction l as [|y l IH]; simpl; [done|].
  destruct (leb x y) eqn:E; [done|].
  rewrite !filter_cons. rewrite filter_cons in IH. rewrite IH.
  repeat case_decide; try done. exfalso.
  unfold key_eqb in *.
  repeat match goal with
  | H : Is_true (_ && _) |- _ => apply andb_prop_elim in H as [?%Is_true_true ?%Is_true_true]
  end.
  assert (leb x y = true) by eauto. congruence.
Qed.

Lemma sort_by_stable k l :
  filter (λ y, key_eqb k y) (sort_by l) = filter (λ y, key_eqb k y) l.
Proof.
  induction l as [|x l IH]; simpl; [done|].
  rewrite insert_sorted_stable, !filter_cons. by rewrite IH.
Qed.
End StableSort.

(** ** Lists *)

Lemma sort_by_id {A} (leb : A → A → bool) l : StronglySorted (λ a b, leb a b = true) l → sort_by leb l = l.
Proof.
  unfold sort_by. induction 1 as [|x l Hl IH Hx]; [done|]. cbn [foldr]. rewrite IH. destruct l as [|y l]; [done|]. cbn.
  apply Forall_cons in Hx as [-> _]. done.
Qed.

Lemma StronglySorted_filter {A} (R : A → A → Prop) (P : A → Prop) `{∀ x, Decision (P x)} l : StronglySorted R l → StronglySorted R (filter P l).
Proof.
  induction 1 as [|x l Hl IH Hx]; [constructor|]. rewrite filter_cons. destruct (decide (P x)); [|done]. constructor; [done|].
  apply Forall_forall. intros y [_ Hy]%list_elem_of_filter. by eapply Forall_forall in Hx.
Qed.

Lemma StronglySorted_weaken {A} (R Q : A → A → Prop) l : (∀ a b, R a b → Q a b) → StronglySorted R l → StronglySorted Q l.
Proof. intros HRQ. induction 1 as [|x l Hl IH Hx]; constructor; [done|]. eapply Forall_impl; [exact Hx|]. eauto. Qed.

Lemma length_filter_compl {A} (P : A → Prop) `{∀ x, Decision (P x)} l : (length l - length (filter (λ x, ¬ P x) l) = length (filter P l))%nat.
Proof.
  pose proof (length_filter (λ x, ¬ P x) l) as Hle. assert (length (filter P l) + length (filter (λ x, ¬ P x) l) = length l)%nat; [|lia].
  clear Hle. induction l as [|x l IH]; [done|]. rewrite !filter_cons. destruct (decide (P x)), (decide (¬ P x)); cbn [length]; try done; lia.
Qed.

Lemma Forall_filter_sub {A} (P Q : A → Prop) `{∀ x, Decision (Q x)} l : Forall P l → Forall P (filter Q l).
Proof. intros Hl. apply Forall_forall. intros x [_ Hx]%list_elem_of_filter. by eapply Forall_forall in Hl. Qed.

Section ListLemmas.
Context {A : Type}.
Implicit Types (l : list A) (R : A → A → Prop).

Lemma StronglySorted_delete R l i : StronglySorted R l → StronglySorted R (delete i l).
Proof.
  intros H. revert i. induction H as [|x l Hl IH Hx]; intros [|i]; simpl; try done; try constructor.
  - apply IH.
  - by apply Forall_delete.
Qed.

Lemma StronglySorted_snoc R l x :
  StronglySorted R l → Forall (λ y, R y x) l → StronglySorted R (l ++ [x]).
Proof.
  intros Hl Hx. apply StronglySorted_app_2; [|done|by repeat constructor].
  intros y z Hy ->%list_elem_of_singleton. rewrite Forall_forall in Hx. by apply Hx.
Qed.

Lemma StronglySorted_fmap_elem {B} (f : A → B) R (R' : B → B → Prop) l :
  (∀ x y, x ∈ l → y ∈ l → R x y → R' (f x) (f y)) →
  StronglySorted R l → StronglySorted R' (f <$> l).
Proof.
  intros Hf H. induction H as [|x l Hl IH Hx]; simpl; constructor.
  - apply IH. intros y z Hy Hz. by apply Hf; right.
  - rewrite Forall_fmap. rewrite Forall_forall in Hx |- *. intros y Hy.
    apply Hf; [by left|by right|by apply Hx].
Qed.

Lemma take_drop_sorted R l k x y :
  StronglySorted R l → x ∈ take k l → y ∈ drop k l → R x y.
Proof.
  intros Hs. rewrite <- (take_drop k l) in Hs.
  intros ? ?. by eapply StronglySorted_app_1_elem_of.
Qed.

(** Filters that agree on the members of the list. *)
Lemma filter_ext_elem (P Q : A → Prop) `{!∀ x, Decision (P x), !∀ x, Decision (Q x)} l :
  (∀ x, x ∈ l → P x ↔ Q x) → filter P l = filter Q l.
Proof.
  induction l as [|x l IH]; intros HPQ; [done|].
  rewrite !filter_cons, IH by (intros y Hy; apply HPQ; by right).
  pose proof (HPQ x ltac:(by left)). repeat case_decide; naive_solver.
Qed.

Lemma filter_all (P : A → Prop) `{!∀ x, Decision (P x)} l :
  (∀ x, x ∈ l → P x) → filter P l = l.
Proof.
  induction l as [|x l IH]; intros HPQ; [done|].
  rewrite filter_cons, decide_True by (apply HPQ; by left).
  f_equal. apply IH. intros y Hy. apply HPQ. by right.
Qed.

Lemma filter_none (P : A → Prop) `{!∀ x, Decision (P x)} l : (∀ x, x ∈ l → ¬ P x) → filter P l = [].
Proof.
  intros Hn. destruct (filter P l) as [|x xs'] eqn:Hx; [done|].
  assert (x ∈ filter P l) as [Hp Hi]%list_elem_of_filter by (rewrite Hx; left). by destruct (Hn x Hi).
Qed.

Lemma filter_same_length (P : A → Prop) `{!∀ x, Decision (P x)} l :
  length (filter P l) = length l → filter P l = l.
Proof.
  induction l as [|x l IH]; [done|]. rewrite filter_cons. case_decide; simpl; intros Hl.
  - f_equal. apply IH. lia.
  - pose proof (length_filter P l). lia.
Qed.

Lemma NoDup_fmap_filter {B} (f : A → B) (P : A → Prop) `{!∀ x, Decision (P x)} l :
  NoDup (f <$> l) → NoDup (f <$> filter P l).
Proof.
  induction l as [|x l IH]; [done|]. rewrite fmap_cons. intros [Hx Hn]%NoDup_cons.
  rewrite filter_cons. case_decide; [|by apply IH]. rewrite fmap_cons. constructor; [|by apply IH].
  intros (y & He & [_ Hy]%list_elem_of_filter)%list_elem_of_fmap.
  apply Hx. rewrite He. by apply list_elem_of_fmap_2.
Qed.

Lemma elem_of_take_in l k x : x ∈ take k l → x ∈ l.
Proof. intros H. rewrite <- (take_drop k l). apply elem_of_app. by left. Qed.

Lemma elem_of_drop_in l k x : x ∈ drop k l → x ∈ l.
Proof. intros H. rewrite <- (take_drop k l). apply elem_of_app. by right. Qed.

Lemma NoDup_fmap_delete {B} (f : A → B) l i x :
  l !! i = Some x → NoDup (f <$> l) → f x ∉ f <$> delete i l ∧ NoDup (f <$> delete i l).
Proof.
  intros Hi Hn. rewrite (delete_Permutation l i x Hi) in Hn. by inversion Hn.
Qed.
End ListLemmas.

Lemma elem_of_concat_fmap {A B} (f : A → list B) (l : list A) x :
  x ∈ concat (f <$> l) ↔ ∃ a, a ∈ l ∧ x ∈ f a.
Proof.
  induction l as [|y l IH]; simpl; [set_solver|]. rewrite elem_of_app, IH. set_solver.
Qed.

(** ** Lemmas on byte vectors *)

Section BytesCmp.
Implicit Types a b c : list N.

Lemma bytes_cmp_refl a : bytes_cmp a a = Eq.
Proof. induction a as [|x a IH]; simpl; [done|]. by rewrite N.compare_refl. Qed.

Lemma bytes_cmp_antisym a b : bytes_cmp b a = CompOpp (bytes_cmp a b).
Proof.
  revert b. induction a as [|x a IH]; intros [|y b]; simpl; try done.
  rewrite (N.compare_antisym x y). destruct (x ?= y)%N; simpl; auto.
Qed.

Lemma bytes_cmp_eq a b : bytes_cmp a b = Eq ↔ a = b.
Proof.
  split; [|intros ->; apply bytes_cmp_refl].
  revert b. induction a as [|x a IH]; intros [|y b]; simpl; try done.
  destruct (N.compare_spec x y) as [->| |]; try done. intros ?. f_equal. eauto.
Qed.

Lemma bytes_cmp_lt_trans a b c :
  bytes_cmp a b = Lt → bytes_cmp b c = Lt → bytes_cmp a c = Lt.
Proof.
  revert b c. induction a as [|x a IH]; intros [|y b] [|z c]; simpl; try done.
  destruct (N.compare_spec x y) as [->|Hxy|], (N.compare_spec y z) as [->|Hyz|]; try done.
  - eauto.
  - intros. by rewrite (proj2 (N.compare_lt_iff _ _) Hxy).
  - intros. by rewrite (proj2 (N.compare_lt_iff x z) ltac:(lia)).
Qed.

Lemma bytes_leb_le a b : bytes_leb a b = true ↔ bytes_cmp a b = Lt ∨ a = b.
Proof.
  unfold bytes_leb. rewrite <- bytes_cmp_eq. destruct (bytes_cmp a b); naive_solver.
Qed.

Lemma bytes_leb_total a b : bytes_leb a b = true ∨ bytes_leb b a = true.
Proof. unfold bytes_leb. rewrite (bytes_cmp_antisym a b). destruct (bytes_cmp a b); auto. Qed.

Lemma bytes_leb_trans a b c :
  bytes_leb a b = true → bytes_leb b c = true → bytes_leb a c = true.
Proof.
  rewrite !bytes_leb_le. intros [?| ->] [?| ->]; eauto using bytes_cmp_lt_trans.
Qed.

Lemma bytes_leb_antisym a b : bytes_leb a b = true → bytes_leb b a = true → a = b.
Proof.
  rewrite !bytes_leb_le. intros [H| ->] [H'| ?]; try done.
  pose proof (bytes_cmp_lt_trans _ _ _ H H') as Hr. by rewrite bytes_cmp_refl in Hr.
Qed.
End BytesCmp.

(** Big-endian encoding. *)

Lemma length_be_bytes w n : length (be_bytes w n) = w.
Proof. revert n. induction w; intros n; simpl; [done|]. rewrite length_app, IHw. simpl. lia. Qed.

Lemma be_bytes_ok w n : bytes_ok (be_bytes w n).
Proof.
  revert n. induction w; intros n; simpl; [constructor|].
  apply Forall_app. split; [apply IHw|]. constructor; [|constructor].
  unfold byte_ok. apply N.mod_lt. lia.
Qed.

Lemma be_value_snoc bs b : be_value (bs ++ [b]) = (be_value bs * 256 + b)%N.
Proof. unfold be_value. by rewrite foldl_app. Qed.

Lemma be_value_cons b bs : be_value (b :: bs) = (b * 256 ^ N.of_nat (length bs) + be_value bs)%N.
Proof.
  induction bs as [|x bs IH] using rev_ind; [unfold be_value; simpl; lia|].
  change (b :: bs ++ [x]) with ((b :: bs) ++ [x]). rewrite !be_value_snoc, IH, length_app.
  simpl. replace (N.of_nat (length bs + 1)) with (N.succ (N.of_nat (length bs))) by lia.
  rewrite N.pow_succ_r'. lia.
Qed.

Lemma be_value_bound bs : bytes_ok bs → (be_value bs < 256 ^ N.of_nat (length bs))%N.
Proof.
  induction 1 as [|b bs Hb _ IH]; [done|]. rewrite be_value_cons. simpl length.
  rewrite Nat2N.inj_succ, N.pow_succ_r'. unfold byte_ok in Hb. nia.
Qed.

Lemma bytes_cmp_be_value a b :
  length a = length b → bytes_ok a → bytes_ok b → bytes_cmp a b = (be_value a ?= be_value b)%N.
Proof.
  intros Hl Ha. revert b Hl.
  induction Ha as [|x a Hx Ha IH]; intros [|y b] Hl Hb; simpl in Hl; try done; try lia.
  inversion Hb as [|? ? Hy Hb']; subst. rewrite !be_value_cons. simpl.
  assert (length a = length b) as Hlab by lia. rewrite Hlab.
  pose proof (be_value_bound a Ha) as Ba. pose proof (be_value_bound b Hb') as Bb.
  rewrite Hlab in Ba. set (k := (256 ^ N.of_nat (length b))%N) in *.
  destruct (N.compare_spec x y) as [->|Hlt|Hgt].
  - rewrite IH by done. destruct (N.compare_spec (be_value a) (be_value b)) as [->| |].
    + by rewrite N.compare_refl.
    + symmetry. apply N.compare_lt_iff. lia.
    + symmetry. apply N.compare_gt_iff. lia.
  - symmetry. apply N.compare_lt_iff. nia.
  - symmetry. apply N.compare_gt_iff. nia.
Qed.

Lemma be_value_be_bytes w n : be_value (be_bytes w n) = (n mod 256 ^ N.of_nat w)%N.
Proof.
  revert n. induction w as [|w IH]; intros n; [simpl; by rewrite N.mod_1_r|].
  cbn [be_bytes]. rewrite be_value_snoc, IH.
  replace (N.of_nat (S w)) with (N.succ (N.of_nat w)) by lia.
  rewrite N.pow_succ_r'. rewrite (N.Div0.mod_mul_r n). lia.
Qed.

Lemma be_bytes_inj w n m :
  (n < 256 ^ N.of_nat w)%N → (m < 256 ^ N.of_nat w)%N → be_bytes w n = be_bytes w m → n = m.
Proof.
  intros Hn Hm H%(f_equal be_value). rewrite !be_value_be_bytes in H.
  by rewrite !N.mod_small in H.
Qed.

Lemma be_value_inj (a b : list N) :
  length a = length b → bytes_ok a → bytes_ok b → be_value a = be_value b → a = b.
Proof.
  revert b. induction a as [|x a IH] using rev_ind; intros b Hl Ha Hb He.
  { by destruct b. }
  destruct b as [|y b _] using rev_ind; rewrite !length_app in Hl; simpl in Hl; [lia|].
  apply Forall_app in Ha as [Ha Hx], Hb as [Hb Hy].
  inversion Hx; inversion Hy; subst. unfold byte_ok in *.
  rewrite !be_value_snoc in He. f_equal; [apply IH; try done; lia|].
  f_equal. lia.
Qed.

(** Bit fields: a value below [2^s] and one shifted above it do not overlap. *)
Lemma land_shiftl_small a x s : (a < 2 ^ s)%N → N.land a (N.shiftl x s) = 0%N.
Proof.
  intros Ha. destruct (N.eq_dec a 0) as [->|Hz]; [apply N.land_0_l|].
  apply N.bits_inj. intros i. rewrite N.land_spec, N.bits_0.
  destruct (N.lt_ge_cases i s) as [Hi|Hi].
  - by rewrite N.shiftl_spec_low, andb_false_r.
  - rewrite N.bits_above_log2; [done|]. apply N.log2_lt_pow2; [lia|].
    eapply N.lt_le_trans; [done|]. apply N.pow_le_mono_r; lia.
Qed.

Lemma lor_shiftl_add a x s : (a < 2 ^ s)%N → N.lor a (N.shiftl x s) = (a + x * 2 ^ s)%N.
Proof.
  intros Ha. pose proof (land_shiftl_small a x s Ha) as Hl.
  by rewrite <- N.lxor_lor, <- N.add_nocarry_lxor, N.shiftl_mul_pow2 by done.
Qed.

(** A fixed-length prefix splits an append uniquely. *)
Lemma app_inj_length {A} (a b c d : list A) :
  length a = length c → a ++ b = c ++ d → a = c ∧ b = d.
Proof. intros Hl H. by apply app_inj_1 in H. Qed.

(** A length-prefixed field determines the field and the rest. *)
Lemma prefixed_inj {A} (pre : nat → list A) (w : nat) (bound : nat) (a b c d : list A) :
  (∀ n, length (pre n) = w) →
  (∀ n m, n < bound → m < bound → pre n = pre m → n = m) →
  length a < bound → length c < bound →
  pre (length a) ++ a ++ b = pre (length c) ++ c ++ d → a = c ∧ b = d.
Proof.
  intros Hw Hinj Ha Hc H.
  apply app_inj_length in H as [Hl H]; [|by rewrite !Hw].
  apply app_inj_length in H as [-> ->]; [done|]. by apply Hinj.
Qed.

(** ** Maps *)

Section DeleteAll.
Context {K V : Type} `{Countable K}.
Implicit Types (ids : list K) (m : gmap K V).

(** A loop that removes the given keys. *)
Definition delete_all ids m : gmap K V := foldl (λ m id, delete id m) m ids.

Lemma lookup_delete_all ids m id :
  delete_all ids m !! id = if decide (id ∈ ids) then None else m !! id.
Proof.
  unfold delete_all. revert m. induction ids as [|x ids IH]; intros m; simpl; [done|]. rewrite IH.
  destruct (decide (id ∈ ids)) as [Hi|Hi]; [by rewrite decide_True by (by right)|].
  destruct (decide (id = x)) as [->|Hx].
  - rewrite lookup_delete_eq, decide_True; [done|left].
  - rewrite lookup_delete_ne by done. rewrite decide_False; [done|]. rewrite elem_of_cons. tauto.
Qed.
End DeleteAll.

#[export] Hint Resolve elem_of_take_in elem_of_drop_in NoDup_fmap_filter Forall_delete : adnet.
#[export] Hint Resolve be_bytes_ok length_be_bytes : adnet.

(** ** Strings

    A Rust [str] is its sequence of bytes, a [string] of 8-bit characters. The
    operations below are those of the standard library the sources call.
    [trim] removes the ASCII white space characters (9 to 13 and 32); the
    non-ASCII white space of Unicode is several bytes long and is not
    modelled. *)

Fixpoint str_forallb (p : ascii → bool) (s : string) : bool :=
  match s with
  | EmptyString => true
  | String a s' => p a && str_forallb p s'
  end.

Definition str_bytes (s : string) : list N := N_of_ascii <$> String.list_ascii_of_string s.

#[global] Instance N_of_ascii_inj : Inj (=) (=) N_of_ascii.
Proof. intros a b H. by rewrite <- (ascii_N_embedding a), H, ascii_N_embedding. Qed.

#[global] Instance str_bytes_inj : Inj (=) (=) str_bytes.
Proof.
  intros s t H. unfold str_bytes in H. apply (inj (fmap N_of_ascii)) in H.
  by rewrite <- (String.string_of_list_ascii_of_string s), H, String.string_of_list_ascii_of_string.
Qed.

Lemma length_str_bytes s : length (str_bytes s) = String.length s.
Proof. unfold str_bytes. rewrite length_fmap. induction s; simpl; auto. Qed.

(** [str::strip_prefix]. *)
Fixpoint str_strip_prefix (p s : string) : option string :=
  match p, s with
  | EmptyString, _ => Some s
  | String a p', String b s' => if Ascii.eqb a b then str_strip_prefix p' s' else None
  | String _ _, EmptyString => None
  end.

(** [str::starts_with]. *)
Fixpoint str_starts_with (p s : string) : bool :=
  match p, s with
  | EmptyString, _ => true
  | String a p', String b s' => Ascii.eqb a b && str_starts_with p' s'
  | String _ _, EmptyString => false
  end.

(** [str::split] at a character: never empty. *)
Fixpoint str_split (c : ascii) (s : string) : list string :=
  match s with
  | EmptyString => [EmptyString]
  | String a s' =>
      if Ascii.eqb a c then EmptyString :: str_split c s'
      else match str_split c s' with
           | [] => [String a EmptyString]
           | h :: t => String a h :: t
           end
  end.

(** [str::split_once]: the parts around the first occurrence. *)
Fixpoint str_split_once (c : ascii) (s : string) : option (string * string) :=
  match s with
  | EmptyString => None
  | String a s' =>
      if Ascii.eqb a c then Some (EmptyString, s')
      else match str_split_once c s' with
           | Some (h, t) => Some (String a h, t)
           | None => None
           end
  end.

(** [[String]::join]. *)
Fixpoint str_join (c : ascii) (l : list string) : string :=
  match l with
  | [] => EmptyString
  | [s] => s
  | s :: l' => String.append s (String c (str_join c l'))
  end.

Definition is_ws (a : ascii) : bool :=
  let n := N_of_ascii a in ((9 <=? n) && (n <=? 13) || (n =? 32))%N.

Fixpoint str_trim_start (s : string) : string :=
  match s with
  | EmptyString => EmptyString
  | String a s' => if is_ws a then str_trim_start s' else s
  end.

Fixpoint str_trim_end (s : string) : string :=
  match s with
  | EmptyString => EmptyString
  | String a s' =>
      match str_trim_end s' with
      | EmptyString => if is_ws a then EmptyString else String a EmptyString
      | t => String a t
      end
  end.

Definition str_trim (s : string) : string := str_trim_end (str_trim_start s).

Definition is_digit (a : ascii) : bool :=
  let n := N_of_ascii a in ((48 <=? n) && (n <=? 57))%N.

(** [Display] of an unsigned integer. *)
Definition show_N (n : N) : string := NilZero.string_of_uint (N.to_uint n).
(** [Display] of a signed one. *)
Definition show_Z (z : Z) : string :=
  if (z <? 0)%Z then String "-" (show_N (Z.to_N (- z))) else show_N (Z.to_N z).

(** [str::parse] at an unsigned integer type with largest value [mx]: an
    optional [+], then at least one digit, within the range. *)
Definition parse_uint (mx : N) (s : string) : option N :=
  let body := match s with
              | String "+" s' => s'
              | _ => s
              end in
  match NilZero.uint_of_string body with
  | Some d => let v := N.of_uint d in if (v <=? mx)%N then Some v else None
  | None => None
  end.

(** A decidable fact about the numbers below a bound, by evaluation. *)
Lemma N_check (P : N → bool) (b : nat) :
  forallb P (N.of_nat <$> seq 0 b) = true → ∀ n, (n < N.of_nat b)%N → P n = true.
Proof.
  intros H n Hn. rewrite forallb_forall in H. apply H, list_elem_of_In, list_elem_of_fmap.
  exists (N.to_nat n). rewrite N2Nat.id. split; [done|]. apply elem_of_seq. lia.
Qed.

(** A decidable fact about characters holds when it holds of the 256 of them. *)
Definition all_ascii : list ascii := (λ n, ascii_of_N (N.of_nat n)) <$> seq 0 256.

Lemma ascii_check (P : ascii → bool) : forallb P all_ascii = true → ∀ a, P a = true.
Proof.
  intros H a. rewrite forallb_forall in H. apply H, list_elem_of_In, list_elem_of_fmap.
  exists (N.to_nat (N_of_ascii a)). rewrite N2Nat.id, ascii_N_embedding. split; [done|].
  apply elem_of_seq. pose proof (N_ascii_bounded a). lia.
Qed.

(** Text from bytes. [str::from_utf8] accepts exactly the well-formed sequences. *)
Definition string_of_bytes (bs : list N) : string := String.string_of_list_ascii (ascii_of_N <$> bs).

Definition within (lo hi b : N) : bool := ((lo <=? b) && (b <=? hi))%N.
Definition cont : N → bool := within 128%N 191%N.

Fixpoint utf8_valid (bs : list N) : bool :=
  match bs with
  | [] => true
  | b :: t =>
      if (b <? 128)%N then utf8_valid t
      else match t with
      | [] => false
      | c :: t =>
          if within 194%N 223%N b then cont c && utf8_valid t
          else match t with
          | [] => false
          | d :: t =>
              if (b =? 224)%N then within 160%N 191%N c && cont d && utf8_valid t
              else if (b =? 237)%N then within 128%N 159%N c && cont d && utf8_valid t
              else if within 225%N 239%N b then cont c && cont d && utf8_valid t
              else match t with
              | [] => false
              | e :: t =>
                  if (b =? 240)%N then within 144%N 191%N c && cont d && cont e && utf8_valid t
                  else if (b =? 244)%N then within 128%N 143%N c && cont d && cont e && utf8_valid t
                  else within 241%N 243%N b && cont c && cont d && cont e && utf8_valid t
              end
          end
      end
  end.

Lemma str_bytes_ok s : bytes_ok (str_bytes s).
Proof. apply Forall_fmap, Forall_true. intros a. apply N_ascii_bounded. Qed.

Lemma length_string_of_list l : String.length (String.string_of_list_ascii l) = length l.
Proof. induction l; simpl; auto. Qed.

Lemma string_of_str_bytes l : string_of_bytes (str_bytes l) = l.
Proof.
  unfold string_of_bytes, str_bytes. rewrite <- list_fmap_compose.
  rewrite (list_fmap_ext _ id); [rewrite list_fmap_id; apply String.string_of_list_ascii_of_string|].
  intros i a _. apply ascii_N_embedding.
Qed.

Section StringLemmas.
Implicit Types (s t : string) (c : ascii).

Definition str_lacks c s : bool := str_forallb (λ a, negb (Ascii.eqb a c)) s.

Lemma str_forallb_impl (p q : ascii → bool) s :
  (∀ a, p a = true → q a = true) → str_forallb p s = true → str_forallb q s = true.
Proof.
  intros Hpq. induction s as [|a s IH]; simpl; [done|].
  rewrite !andb_true_iff. naive_solver.
Qed.

Lemma str_forallb_app (p : ascii → bool) s t :
  str_forallb p (String.append s t) = str_forallb p s && str_forallb p t.
Proof. induction s as [|a s IH]; simpl; [done|]. by rewrite IH, andb_assoc. Qed.

Lemma str_split_once_app c s t :
  str_lacks c s = true → str_split_once c (String.append s (String c t)) = Some (s, t).
Proof.
  unfold str_lacks. induction s as [|a s IH]; simpl.
  - by rewrite Ascii.eqb_refl.
  - destruct (Ascii.eqb a c); [done|]. simpl. intros H. by rewrite IH.
Qed.

Lemma str_split_lacks c s : str_lacks c s = true → str_split c s = [s].
Proof.
  unfold str_lacks. induction s as [|a s IH]; simpl; [done|].
  destruct (Ascii.eqb a c); [done|]. simpl. intros H. by rewrite IH.
Qed.

Lemma str_split_app c s t :
  str_lacks c s = true →
  str_split c (String.append s (String c t)) = s :: str_split c t.
Proof.
  unfold str_lacks. induction s as [|a s IH]; simpl.
  - by rewrite Ascii.eqb_refl.
  - destruct (Ascii.eqb a c); [done|]. simpl. intros H. by rewrite IH.
Qed.

Lemma str_split_join c l :
  l ≠ [] → Forall (λ s, str_lacks c s = true) l → str_split c (str_join c l) = l.
Proof.
  intros Hl H. induction H as [|s l Hs Hrest IH]; [done|].
  destruct l as [|s' l'].
  - by apply str_split_lacks.
  - cbn [str_join]. rewrite str_split_app by done. f_equal. by apply IH.
Qed.

Lemma str_join_split c s : str_join c (str_split c s) = s.
Proof.
  induction s as [|a s IH]; [done|]. cbn [str_split]. destruct (Ascii.eqb_spec a c) as [->|Ha].
  - assert (str_split c s ≠ []) as Hne by (destruct s; cbn; repeat case_match; done).
    destruct (str_split c s) as [|h t]; [done|]. change (String c (str_join c (h :: t)) = String c s). by rewrite IH.
  - destruct (str_split c s) as [|h [|h' t]]; cbn in *; by rewrite <- IH.
Qed.

Lemma str_length_app s t : String.length (String.append s t) = (String.length s + String.length t)%nat.
Proof.
  induction s as [|a s IH]; [done|].
  change (S (String.length (String.append s t)) = S (String.length s + String.length t)). by rewrite IH.
Qed.

Lemma str_trim_id s : str_forallb (λ a, negb (is_ws a)) s = true → str_trim s = s.
Proof.
  intros H. unfold str_trim.
  assert (str_trim_start s = s) as ->.
  { destruct s as [|a s]; simpl in *; [done|]. by destruct (is_ws a). }
  induction s as [|a s IH]; simpl in *; [done|].
  apply andb_true_iff in H as [Ha Hs]. rewrite IH by done.
  destruct s; [|done]. by destruct (is_ws a).
Qed.

Lemma string_of_uint_digits d : str_forallb is_digit (NilZero.string_of_uint d) = true.
Proof.
  assert (∀ d, str_forallb is_digit (NilEmpty.string_of_uint d) = true) as H.
  { clear d. intros d. induction d; simpl; auto. }
  destruct d; [done|..]; apply (H (_ d)).
Qed.

Lemma show_N_digits n : str_forallb is_digit (show_N n) = true.
Proof. apply string_of_uint_digits. Qed.

Lemma show_N_lacks c n : is_digit c = false → str_lacks c (show_N n) = true.
Proof.
  intros Hc. eapply str_forallb_impl; [|apply show_N_digits].
  intros a Ha. destruct (Ascii.eqb_spec a c) as [->|]; [congruence|done].
Qed.

Lemma show_N_no_ws n : str_forallb (λ a, negb (is_ws a)) (show_N n) = true.
Proof.
  eapply str_forallb_impl; [|apply show_N_digits].
  unfold is_digit, is_ws. intros a.
  rewrite !andb_true_iff, negb_true_iff, orb_false_iff, andb_false_iff, !N.leb_le.
  intros [? ?]. split; [right; apply N.leb_gt|apply N.eqb_neq]; lia.
Qed.

Lemma show_N_cons n : ∃ a s, show_N n = String a s ∧ is_digit a = true.
Proof.
  pose proof (show_N_digits n) as H. unfold show_N in *.
  destruct (N.to_uint n); simpl in *; eauto;
    apply andb_true_iff in H as [_ _]; eauto.
Qed.

Lemma parse_show mx n : (n ≤ mx)%N → parse_uint mx (show_N n) = Some n.
Proof.
  intros Hn. unfold parse_uint.
  assert (match show_N n with String "+" s' => s' | _ => show_N n end = show_N n) as ->.
  { destruct (show_N_cons n) as (a & s & -> & Ha).
    destruct a as [[] [] [] [] [] [] [] []]; done. }
  unfold show_N. rewrite NilZero.usu.
  - rewrite DecimalN.Unsigned.of_to. by rewrite (proj2 (N.leb_le _ _) Hn).
  - destruct n as [|p]; [done|]. simpl.
    apply DecimalPos.Unsigned.to_uint_nonnil.
Qed.

Lemma show_N_inj n m : show_N n = show_N m → n = m.
Proof.
  intros He. pose proof (parse_show (N.max n m) n ltac:(lia)) as Hn. pose proof (parse_show (N.max n m) m ltac:(lia)) as Hm.
  rewrite He, Hm in Hn. congruence.
Qed.

Lemma show_Z_inj x y : show_Z x = show_Z y → x = y.
Proof.
  assert (∀ n m, String "-" (show_N n) ≠ show_N m) as Hne.
  { intros n m He. destruct (show_N_cons m) as (a & s & Hm & Ha). rewrite Hm in He. injection He as <- _. by vm_compute in Ha. }
  unfold show_Z. destruct (Z.ltb_spec x 0), (Z.ltb_spec y 0); intros He.
  - injection He as He%show_N_inj. lia.
  - by destruct (Hne _ _ He).
  - by destruct (Hne _ _ (eq_sym He)).
  - apply show_N_inj in He. lia.
Qed.

Lemma parse_uint_bound mx s n : parse_uint mx s = Some n → (n ≤ mx)%N.
Proof.
  unfold parse_uint. destruct (NilZero.uint_of_string _) as [d|]; [|done].
  destruct (N.leb_spec (N.of_uint d) mx); naive_solver.
Qed.
End StringLemmas.
