(* ===== verification/Floats.v ===== *)
(** * Double-precision numbers

    [f64] as the IEEE 754 specification of the Standard Library at precision 53
    and exponent bound 1024, with the conversions and functions of Rust that the
    modelled code uses. Every operation rounds as the machine does. *)
From stdpp Require Import prelude.
From Stdlib Require Import NArith ZArith Lia SpecFloat.
From S2P Require Import Prelude.

#[local] Open Scope N_scope.

Definition f64 : Type := spec_float.

(** [n as f64] on an unsigned integer. *)
Definition f64_of (n : N) : f64 := binary_normalize 53 1024 (Z.of_N n) 0 false.

(** [x as u64]: truncation that saturates; a NaN becomes zero. *)
Definition f64_as_u64 (x : f64) : N :=
  match x with
  | S754_finite false m e => N.min u64_max (Z.to_N (Z.shiftl (Zpos m) e))
  | S754_infinity false => u64_max
  | _ => 0
  end.

Definition f64_mul (a b : f64) : f64 := SFmul 53 1024 a b.
Definition f64_add (a b : f64) : f64 := SFadd 53 1024 a b.
Definition f64_sub (a b : f64) : f64 := SFsub 53 1024 a b.
Definition f64_div (a b : f64) : f64 := SFdiv 53 1024 a b.

(** [Duration::as_secs_f64]. *)
Definition as_secs_f64 (d : N) : f64 :=
  f64_add (f64_of (d / 1000000000)) (f64_div (f64_of (d mod 1000000000)) (f64_of 1000000000)).

(** [f64::min] and [f64::max] return the other operand when one is a NaN. *)
Definition f64_is_nan (a : f64) : bool := match a with S754_nan => true | _ => false end.

Definition f64_min (a b : f64) : f64 :=
  if f64_is_nan a then b else if f64_is_nan b then a else if SFltb b a then b else a.

Definition f64_max (a b : f64) : f64 :=
  if f64_is_nan a then b else if f64_is_nan b then a else if SFltb a b then b else a.

(** [f64::powi] for a non-negative exponent: repeated squaring. *)
Fixpoint powi_pos (a : f64) (n : positive) (r : f64) : f64 :=
  match n with
  | xH => f64_mul r a
  | xO n' => powi_pos (f64_mul a a) n' r
  | xI n' => powi_pos (f64_mul a a) n' (f64_mul r a)
  end.

Definition f64_powi (a : f64) (n : N) : f64 :=
  match n with N0 => f64_of 1 | Npos p => powi_pos a p (f64_of 1) end.

(** The literal [0.2] and [f64::EPSILON], which is two to the power of -52. *)
Definition f64_one_fifth : f64 := f64_div (f64_of 1) (f64_of 5).
Definition f64_EPSILON : f64 := f64_div (f64_of 1) (f64_of (2 ^ 52)).

(** [a > b]; false when either is a NaN. *)
Definition f64_gtb (a b : f64) : bool := SFltb b a.

(** [f64::clamp]: a NaN stays a NaN. *)
Definition f64_clamp (x lo hi : f64) : f64 :=
  let x := if SFltb x lo then lo else x in if SFltb hi x then hi else x.
