(* ===== verification/NodeId.v ===== *)
(** * Node identifiers ([crates/a3net-types/src/node.rs])

    [NodeId] wraps the hexadecimal text of 32 bytes. The [hex] crate is outside
    the repository: its two functions are the operations of the class [Hex] and
    what the sources rely on is the class [HexLaws]; [hex_ref] is an instance.
    The theorems show the text/bytes round trips and that [xor_distance] is the
    Kademlia metric. *)
From stdpp Require Import prelude strings gmap list.
From Stdlib Require Import NArith Lia Ascii.
From Stdlib Require String.
From S2P Require Import Prelude.

#[local] Open Scope N_scope.

(** The errors of [a3net_types::AdnetError] the modelled code returns; the
    message text they carry is not modelled. *)
Inductive AdnetError : Type :=
| InvalidTicket
| InvalidContentHash
| InvalidNodeId
| UnknownContentKind
| Validation
| Serialization.

#[global] Instance AdnetError_eq_dec : EqDecision AdnetError.
Proof. solve_decision. Defined.

Definition NODE_ID_BYTES : nat := 32%nat.
Definition NODE_ID_HEX_LEN : nat := (NODE_ID_BYTES * 2)%nat.

Record NodeId : Type := mkNodeId { node_hex : string }.

#[global] Instance NodeId_eq_dec : EqDecision NodeId.
Proof. solve_decision. Defined.
#[global] Instance NodeId_countable : Countable NodeId.
Proof. by apply (inj_countable' node_hex mkNodeId); intros []. Defined.

(** ** Characters *)

(** [char::is_ascii_hexdigit]. *)
Definition is_hexdigit (a : ascii) : bool :=
  let n := N_of_ascii a in
  ((48 <=? n) && (n <=? 57) || (65 <=? n) && (n <=? 70) || (97 <=? n) && (n <=? 102)).

Definition is_lower_hex (a : ascii) : bool :=
  let n := N_of_ascii a in ((48 <=? n) && (n <=? 57) || (97 <=? n) && (n <=? 102)).

(** [str::to_ascii_lowercase]. *)
Definition ascii_lower (a : ascii) : ascii :=
  let n := N_of_ascii a in
  if ((65 <=? n) && (n <=? 90)) then ascii_of_N (n + 32) else a.

Fixpoint str_lower (s : string) : string :=
  match s with
  | EmptyString => EmptyString
  | String a s' => String (ascii_lower a) (str_lower s')
  end.

(** ** The [hex] crate *)

Class Hex : Type := {
  hex_encode : list N → string;
  hex_decode : string → option (list N)
}.

(** Documented behaviour: encoding writes two lower-case digits per byte;
    decoding inverts it, accepts either case and yields bytes. *)
Class HexLaws (H : Hex) : Prop := {
  hex_decode_encode bs : bytes_ok bs → hex_decode (hex_encode bs) = Some bs;
  hex_encode_length bs : String.length (hex_encode bs) = (2 * length bs)%nat;
  hex_encode_lower bs : bytes_ok bs → str_forallb is_lower_hex (hex_encode bs) = true;
  hex_decode_hexdigits s :
    str_forallb is_hexdigit s = true → Nat.even (String.length s) = true →
    ∃ bs, hex_decode s = Some bs ∧ hex_encode bs = str_lower s;
  hex_decode_bytes s bs : hex_decode s = Some bs → bytes_ok bs
}.

Section NodeIdOps.
Context `{HX : Hex}.

(** [NodeId::from_bytes]. *)
Definition NodeId_from_bytes (bytes : list N) : result AdnetError NodeId :=
  if negb (Nat.eqb (length bytes) NODE_ID_BYTES) then Err InvalidNodeId
  else Ok (mkNodeId (hex_encode bytes)).

(** [NodeId::from_hex]. *)
Definition NodeId_from_hex (s : string) : result AdnetError NodeId :=
  if negb (Nat.eqb (String.length s) NODE_ID_HEX_LEN) then Err InvalidNodeId
  else if negb (str_forallb is_hexdigit s) then Err InvalidNodeId
  else Ok (mkNodeId (str_lower s)).

(** [NodeId::as_bytes]: [None] is the panic of [expect("valid hex")]. *)
Definition NodeId_as_bytes (id : NodeId) : option (list N) := hex_decode (node_hex id).

(** [NodeId::short]: the first twelve characters. *)
Definition NodeId_short (id : NodeId) : string :=
  String.substring 0 (Nat.min 12 (String.length (node_hex id))) (node_hex id).

(** [hex::decode(..).unwrap_or_default()]. *)
Definition decode_or_empty (s : string) : list N := default [] (hex_decode s).

(** [NodeId::xor_distance]: missing bytes count as zero. *)
Definition NodeId_xor_distance (self other : NodeId) : list N :=
  let a := decode_or_empty (node_hex self) in
  let b := decode_or_empty (node_hex other) in
  let len := Nat.max (Nat.max (length a) (length b)) NODE_ID_BYTES in
  (λ i, N.lxor (default 0 (a !! i)) (default 0 (b !! i))) <$> seq 0 len.

(** An identifier built by [from_bytes] or [from_hex]. *)
Definition node_ok (id : NodeId) : Prop :=
  ∃ bs, length bs = NODE_ID_BYTES ∧ bytes_ok bs ∧ id = mkNodeId (hex_encode bs).
End NodeIdOps.

(** ** Text and bytes *)

Section NodeIdLemmas.
Context `{HX : Hex} {HL : HexLaws HX}.
Implicit Types id a b c : NodeId.

Lemma length_str_lower s : String.length (str_lower s) = String.length s.
Proof. induction s; simpl; auto. Qed.

Lemma NodeId_from_bytes_ok bs :
  bytes_ok bs → length bs = NODE_ID_BYTES →
  NodeId_from_bytes bs = Ok (mkNodeId (hex_encode bs)) ∧ node_ok (mkNodeId (hex_encode bs)).
Proof. intros Hb Hl. unfold NodeId_from_bytes, node_ok. rewrite Hl. simpl. eauto. Qed.

Lemma NodeId_from_hex_ok s id : NodeId_from_hex s = Ok id → node_ok id.
Proof.
  unfold NodeId_from_hex.
  destruct (Nat.eqb_spec (String.length s) NODE_ID_HEX_LEN) as [Hl|]; [|done]. simpl.
  destruct (str_forallb is_hexdigit s) eqn:Hh; [|done]. intros [= <-].
  destruct (hex_decode_hexdigits s Hh) as (bs & Hd & He); [by rewrite Hl|].
  exists bs. rewrite He. split_and!; [|by eapply hex_decode_bytes|done].
  pose proof (hex_encode_length bs) as H2. rewrite He, length_str_lower, Hl in H2.
  unfold NODE_ID_HEX_LEN, NODE_ID_BYTES in *. lia.
Qed.

(** The decoded bytes of a well-formed identifier. *)
Definition node_bytes (id : NodeId) : list N := decode_or_empty (node_hex id).

Lemma node_bytes_ok id : node_ok id → length (node_bytes id) = NODE_ID_BYTES ∧ bytes_ok (node_bytes id).
Proof.
  intros (bs & Hl & Hb & ->). unfold node_bytes, decode_or_empty. simpl.
  by rewrite hex_decode_encode.
Qed.

Lemma node_bytes_inj a b : node_ok a → node_ok b → node_bytes a = node_bytes b → a = b.
Proof.
  intros (ba & _ & Hba & ->) (bb & _ & Hbb & ->). unfold node_bytes, decode_or_empty. simpl.
  rewrite !hex_decode_encode by done. by intros [= ->].
Qed.

Lemma NodeId_as_bytes_ok id : node_ok id → NodeId_as_bytes id = Some (node_bytes id).
Proof.
  intros (bs & _ & Hb & ->). unfold NodeId_as_bytes, node_bytes, decode_or_empty. simpl.
  by rewrite hex_decode_encode.
Qed.

Lemma lower_hex_hexdigit (a : ascii) : is_lower_hex a = true → is_hexdigit a = true ∧ ascii_lower a = a.
Proof.
  pose proof (ascii_check
    (λ a : ascii, implb (is_lower_hex a) (is_hexdigit a && Ascii.eqb (ascii_lower a) a)) eq_refl a) as H.
  simpl in H. intros Ha. rewrite Ha in H. apply andb_true_iff in H as [H ?%Ascii.eqb_eq]. done.
Qed.

Lemma str_lower_id s : str_forallb is_lower_hex s = true → str_lower s = s.
Proof.
  induction s as [|a s IH]; simpl; [done|]. intros [Ha Hs]%andb_true_iff.
  by rewrite (proj2 (lower_hex_hexdigit a Ha)), IH.
Qed.

Lemma NodeId_from_hex_lower s :
  str_forallb is_lower_hex s = true → String.length s = NODE_ID_HEX_LEN →
  NodeId_from_hex s = Ok (mkNodeId s).
Proof.
  intros Hs Hl. unfold NodeId_from_hex. rewrite Hl. simpl.
  rewrite (str_forallb_impl _ is_hexdigit _ (λ x Hx, proj1 (lower_hex_hexdigit x Hx)) Hs).
  simpl. by rewrite str_lower_id.
Qed.

(** Text and bytes of an identifier: [from_bytes] accepts exactly the vectors
    of 32 bytes, [as_bytes] gives the bytes back without panicking, and
    [from_hex] of the printed text is the identifier itself; every identifier
    [from_hex] accepts is of this form. *)
Theorem node_id_roundtrip (bs : list N) :
  bytes_ok bs →
  (length bs = NODE_ID_BYTES →
   ∃ id, NodeId_from_bytes bs = Ok id ∧ NodeId_as_bytes id = Some bs ∧
         NodeId_from_hex (node_hex id) = Ok id) ∧
  (length bs ≠ NODE_ID_BYTES → NodeId_from_bytes bs = Err InvalidNodeId) ∧
  (∀ s id, NodeId_from_hex s = Ok id →
     ∃ bs', NodeId_as_bytes id = Some bs' ∧ NodeId_from_bytes bs' = Ok id).
Proof.
  intros Hb. split_and!.
  - intros Hl. eexists. split_and!; [by apply NodeId_from_bytes_ok|..].
    + unfold NodeId_as_bytes. simpl. by rewrite hex_decode_encode.
    + simpl. apply NodeId_from_hex_lower; [by apply hex_encode_lower|].
      rewrite hex_encode_length, Hl. done.
  - intros Hl%Nat.eqb_neq. unfold NodeId_from_bytes. by rewrite Hl.
  - intros s id (bs' & Hl & Hb' & ->)%NodeId_from_hex_ok. exists bs'. split.
    + unfold NodeId_as_bytes. simpl. by rewrite hex_decode_encode.
    + by apply NodeId_from_bytes_ok.
Qed.

(** ** The XOR metric *)

Lemma xor_distance_zip a b :
  node_ok a → node_ok b →
  NodeId_xor_distance a b = zip_with N.lxor (node_bytes a) (node_bytes b).
Proof.
  intros [Hla _]%node_bytes_ok [Hlb _]%node_bytes_ok. unfold NodeId_xor_distance.
  fold (node_bytes a) (node_bytes b). rewrite Hla, Hlb. simpl Nat.max.
  apply list_eq. intros i. rewrite list_lookup_fmap, lookup_zip_with.
  destruct (decide (i < NODE_ID_BYTES)%nat) as [Hi|Hi].
  - rewrite lookup_seq_lt by done. simpl.
    destruct (lookup_lt_is_Some_2 (node_bytes a) i) as [x ->]; [by rewrite Hla|].
    destruct (lookup_lt_is_Some_2 (node_bytes b) i) as [y ->]; [by rewrite Hlb|]. done.
  - unfold NODE_ID_BYTES in *. rewrite lookup_seq_ge by lia.
    rewrite (lookup_ge_None_2 (node_bytes a)); [done|]. lia.
Qed.

Lemma byte_log2 (v : N) : byte_ok v → N.log2 v < 8.
Proof.
  intros Hv. destruct (N.eq_dec v 0) as [->|]; [done|].
  apply N.log2_lt_pow2; [lia|exact Hv].
Qed.

Lemma byte_lxor (x y : N) : byte_ok x → byte_ok y → byte_ok (N.lxor x y).
Proof.
  intros Hx%byte_log2 Hy%byte_log2. unfold byte_ok.
  destruct (N.eq_dec (N.lxor x y) 0) as [->|]; [lia|].
  apply (N.log2_lt_pow2 _ 8); [lia|].
  eapply N.le_lt_trans; [apply N.log2_lxor|]. lia.
Qed.

Lemma lxor_byte_split (a b c d : N) :
  byte_ok c → byte_ok d →
  N.lxor (a * 256 + c) (b * 256 + d) = N.lxor a b * 256 + N.lxor c d.
Proof.
  assert (∀ u v, byte_ok v → u * 256 + v = N.lxor (N.shiftl u 8) v) as Hsplit.
  { intros u v Hv. rewrite N.shiftl_mul_pow2. change (2 ^ 8) with 256.
    rewrite <- N.add_nocarry_lxor; [done|].
    change 256 with (2 ^ 8). rewrite <- N.shiftl_mul_pow2.
    apply N.bits_inj. intros i. rewrite N.land_spec, N.bits_0.
    destruct (N.lt_ge_cases i 8) as [Hi|Hi].
    - by rewrite N.shiftl_spec_low.
    - rewrite (N.bits_above_log2 v); [by rewrite andb_false_r|].
      by eapply N.lt_le_trans; [apply byte_log2|]. }
  intros Hc Hd. rewrite (Hsplit (N.lxor a b)).
  - rewrite !Hsplit by done. rewrite N.shiftl_lxor, !N.lxor_assoc. f_equal.
    rewrite <- !N.lxor_assoc. f_equal. apply N.lxor_comm.
  - by apply byte_lxor.
Qed.

Lemma be_value_lxor (l1 l2 : list N) :
  length l1 = length l2 → bytes_ok l1 → bytes_ok l2 →
  be_value (zip_with N.lxor l1 l2) = N.lxor (be_value l1) (be_value l2).
Proof.
  revert l2. induction l1 as [|x l1 IH] using rev_ind; intros l2 Hl H1 H2.
  { by destruct l2. }
  destruct l2 as [|y l2 _] using rev_ind; rewrite !length_app in Hl; simpl in Hl; [lia|].
  apply Forall_app in H1 as [H1 Hx], H2 as [H2 Hy].
  inversion Hx; inversion Hy; subst.
  rewrite zip_with_app by lia. simpl. rewrite !be_value_snoc, IH by (done || lia).
  by rewrite lxor_byte_split.
Qed.

(** The distance as a number. *)
Definition node_distance (a b : NodeId) : N := be_value (NodeId_xor_distance a b).
Definition node_value (id : NodeId) : N := be_value (node_bytes id).

Lemma node_distance_lxor a b :
  node_ok a → node_ok b → node_distance a b = N.lxor (node_value a) (node_value b).
Proof.
  intros Ha Hb. unfold node_distance. rewrite xor_distance_zip by done.
  apply node_bytes_ok in Ha as [? ?], Hb as [? ?]. by rewrite be_value_lxor by congruence.
Qed.

#[local] Arguments Pos.lxor : simpl nomatch.

Lemma lxor_le_add (x y : N) : N.lxor x y ≤ x + y.
Proof.
  destruct x as [|p]; [rewrite N.lxor_0_l; lia|].
  destruct y as [|q]; [rewrite N.lxor_0_r; lia|].
  change (Pos.lxor p q ≤ N.pos p + N.pos q). revert q.
  induction p as [p IH|p IH|]; intros [q|q|]; simpl;
    try (specialize (IH q); destruct (Pos.lxor p q); simpl); lia.
Qed.

Lemma xor_distance_sym a b :
  node_ok a → node_ok b → NodeId_xor_distance a b = NodeId_xor_distance b a.
Proof.
  intros Ha Hb. rewrite !xor_distance_zip by done. rewrite <- zip_with_flip.
  by apply zip_with_ext; [intros; apply N.lxor_comm|..].
Qed.

Lemma node_value_inj a b : node_ok a → node_ok b → node_value a = node_value b → a = b.
Proof.
  intros Ha Hb Hv. apply node_bytes_inj; [done..|].
  apply be_value_inj; [|by apply node_bytes_ok..|done].
  by rewrite (proj1 (node_bytes_ok _ Ha)), (proj1 (node_bytes_ok _ Hb)).
Qed.

Lemma node_distance_zero a b : node_ok a → node_ok b → node_distance a b = 0 ↔ a = b.
Proof.
  intros Ha Hb. rewrite node_distance_lxor, N.lxor_eq_0_iff by done.
  split; [by apply node_value_inj|by intros ->].
Qed.

Lemma zip_lxor_ok (l1 l2 : list N) : bytes_ok l1 → bytes_ok l2 → bytes_ok (zip_with N.lxor l1 l2).
Proof.
  intros H. revert l2. induction H as [|x l1 Hx H IH]; intros [|y l2] H2; simpl; try constructor;
    inversion H2; subst; [by apply byte_lxor|by apply IH].
Qed.

(** [NodeId::xor_distance] is a metric on well-formed identifiers, read as
    256-bit numbers: it is symmetric, zero exactly on equal identifiers,
    satisfies the triangle inequality, and is unidirectional (for a given
    identifier and distance there is one identifier at that distance). *)
Theorem xor_distance_metric a b c :
  node_ok a → node_ok b → node_ok c →
  NodeId_xor_distance a b = NodeId_xor_distance b a ∧
  (node_distance a b = 0 ↔ a = b) ∧
  node_distance a c ≤ node_distance a b + node_distance b c ∧
  (NodeId_xor_distance a b = NodeId_xor_distance a c → b = c).
Proof.
  intros Ha Hb Hc. split_and!; [by apply xor_distance_sym|by apply node_distance_zero|..].
  - rewrite !node_distance_lxor by done. rewrite <- lxor_le_add. apply N.eq_le_incl.
    rewrite N.lxor_assoc, <- (N.lxor_assoc (node_value b)), N.lxor_nilpotent.
    by rewrite N.lxor_0_l.
  - intros H%(f_equal be_value). fold (node_distance a b) (node_distance a c) in H.
    rewrite !node_distance_lxor in H by done.
    apply (f_equal (N.lxor (node_value a))) in H.
    rewrite <- !N.lxor_assoc, !N.lxor_nilpotent, !N.lxor_0_l in H. by apply node_value_inj.
Qed.
End NodeIdLemmas.

(** ** A hexadecimal codec *)

Definition nibble_char (n : N) : ascii := ascii_of_N (if n <? 10 then 48 + n else 87 + n).

Definition char_nibble (a : ascii) : option N :=
  let n := N_of_ascii a in
  if (48 <=? n) && (n <=? 57) then Some (n - 48)
  else if (65 <=? n) && (n <=? 70) then Some (n - 55)
  else if (97 <=? n) && (n <=? 102) then Some (n - 87)
  else None.

Fixpoint hex_encode_ref (bs : list N) : string :=
  match bs with
  | [] => EmptyString
  | b :: bs' => String (nibble_char (b / 16)) (String (nibble_char (b mod 16)) (hex_encode_ref bs'))
  end.

Fixpoint hex_decode_ref (s : string) : option (list N) :=
  match s with
  | EmptyString => Some []
  | String a (String b s') =>
      match char_nibble a, char_nibble b, hex_decode_ref s' with
      | Some x, Some y, Some bs => Some (x * 16 + y :: bs)
      | _, _, _ => None
      end
  | String _ EmptyString => None
  end.

#[global] Instance hex_ref : Hex :=
  {| hex_encode := hex_encode_ref; hex_decode := hex_decode_ref |}.

(** Documented as well: the digits are those of the positional notation. *)
Class HexDigits (H : Hex) : Prop := {
  hex_encode_digits bs : bytes_ok bs → hex_encode bs = hex_encode_ref bs
}.

#[global] Instance hex_ref_digits : HexDigits hex_ref.
Proof. by split. Qed.

Lemma nibble_char_spec n :
  n < 16 → char_nibble (nibble_char n) = Some n ∧ is_lower_hex (nibble_char n) = true.
Proof.
  intros Hn.
  pose proof (N_check (λ n, bool_decide (char_nibble (nibble_char n) = Some n) &&
    is_lower_hex (nibble_char n)) 16 eq_refl n Hn) as H. simpl in H.
  apply andb_true_iff in H as [?%bool_decide_eq_true ?]. done.
Qed.

Lemma char_nibble_spec a :
  is_hexdigit a = true →
  ∃ v, char_nibble a = Some v ∧ v < 16 ∧ nibble_char v = ascii_lower a.
Proof.
  pose proof (ascii_check
    (λ a, implb (is_hexdigit a)
      match char_nibble a with
      | Some v => (v <? 16) && Ascii.eqb (nibble_char v) (ascii_lower a)
      | None => false
      end) eq_refl a) as H.
  simpl in H. intros Ha. rewrite Ha in H. destruct (char_nibble a) as [v|]; [|done].
  apply andb_true_iff in H as [?%N.ltb_lt ?%Ascii.eqb_eq]. eauto.
Qed.

Lemma char_nibble_lt a v : char_nibble a = Some v → v < 16.
Proof.
  pose proof (ascii_check
    (λ a, match char_nibble a with Some v => v <? 16 | None => true end) eq_refl a) as H.
  simpl in H. intros Hv. rewrite Hv in H. by apply N.ltb_lt.
Qed.

Lemma string_ind2 (P : string → Prop) :
  P EmptyString → (∀ a, P (String a EmptyString)) →
  (∀ a b s, P s → P (String a (String b s))) → ∀ s, P s.
Proof.
  intros H0 H1 H2. fix IH 1. intros [|a [|b s]]; [done..|]. apply H2, IH.
Qed.

#[global] Instance hex_ref_laws : HexLaws hex_ref.
Proof.
  split; simpl.
  - induction 1 as [|b bs Hb _ IH]; simpl; [done|].
    unfold byte_ok in Hb. rewrite IH.
    rewrite (proj1 (nibble_char_spec (b / 16) ltac:(apply N.Div0.div_lt_upper_bound; lia))).
    rewrite (proj1 (nibble_char_spec (b mod 16) ltac:(apply N.mod_lt; lia))).
    do 2 f_equal. rewrite (N.div_mod b 16) at 3; lia.
  - induction bs as [|b bs IH]; simpl; [done|]. rewrite IH. lia.
  - induction 1 as [|b bs Hb _ IH]; simpl; [done|]. unfold byte_ok in Hb.
    rewrite (proj2 (nibble_char_spec (b / 16) ltac:(apply N.Div0.div_lt_upper_bound; lia))).
    by rewrite (proj2 (nibble_char_spec (b mod 16) ltac:(apply N.mod_lt; lia))).
  - intros s. induction s as [|a|a b s IH] using string_ind2; simpl; [eauto|done|].
    rewrite !andb_true_iff. intros (Ha & Hb & Hs) Hl.
    destruct (char_nibble_spec a Ha) as (x & -> & Hx & <-).
    destruct (char_nibble_spec b Hb) as (y & -> & Hy & <-).
    destruct (IH Hs Hl) as (bs & -> & <-). eexists. split; [done|]. simpl.
    rewrite (N.add_comm (x * 16)), N.div_add, N.Div0.mod_add by lia.
    by rewrite N.div_small, N.mod_small by done.
  - intros s. induction s as [|a|a b s IH] using string_ind2; simpl; intros bs Hbs.
    + simplify_eq. constructor.
    + done.
    + destruct (char_nibble a) as [x|] eqn:Ha; [|done].
      destruct (char_nibble b) as [y|] eqn:Hb; [|done].
      destruct (hex_decode_ref s) as [bs'|]; [|done]. simplify_eq.
      apply char_nibble_lt in Ha, Hb. constructor; [unfold byte_ok; lia|]. by apply IH.
Qed.

(** ** Witnesses *)

Definition id_of_byte (b : N) : NodeId := mkNodeId (hex_encode (replicate 32 b)).

Lemma id_of_byte_ok b : byte_ok b → node_ok (id_of_byte b).
Proof.
  intros Hb. exists (replicate 32 b). split_and!; [by rewrite length_replicate| |done].
  by apply Forall_replicate.
Qed.

Lemma node_id_roundtrip_witness :
  bytes_ok (replicate 32 171) ∧
  ∃ id, NodeId_from_bytes (replicate 32 171) = Ok id ∧
        NodeId_as_bytes id = Some (replicate 32 171) ∧ NodeId_from_hex (node_hex id) = Ok id.
Proof.
  assert (bytes_ok (replicate 32 171)) as H by (by apply Forall_replicate).
  split; [exact H|].
  exact (proj1 (node_id_roundtrip (replicate 32 171) H) eq_refl).
Defined.

Lemma xor_distance_metric_witness :
  node_distance (id_of_byte 1) (id_of_byte 4) ≤
  node_distance (id_of_byte 1) (id_of_byte 2) + node_distance (id_of_byte 2) (id_of_byte 4).
Proof.
  apply (xor_distance_metric (id_of_byte 1) (id_of_byte 2) (id_of_byte 4));
    apply id_of_byte_ok; reflexivity.
Defined.
