(* ===== verification/Bucket.v ===== *)
(** * The Kademlia routing table ([crates/a3net-dht/src/bucket.rs])

    [Contact], [KBucket] and [RoutingTable] are records with the source's fields;
    every method of the three types is a definition, with the clock
    ([Instant::now()]) as the argument [now]. A method that takes [&mut self]
    returns the new value. *)
From stdpp Require Import prelude strings gmap list sorting.
From Stdlib Require Import NArith Lia.
From S2P Require Import Prelude NodeId.

#[local] Open Scope N_scope.

(** ** Contacts *)

Record Contact : Type := mkContact {
  c_id : NodeId;
  c_addrs : list SocketAddr;
  c_last_contacted : N;
  c_last_seen : N;
  c_trusted : bool
}.

#[global] Instance Contact_eq_dec : EqDecision Contact.
Proof. solve_decision. Defined.

Definition Contact_new (now : N) (id : NodeId) (addr : SocketAddr) : Contact :=
  {| c_id := id; c_addrs := [addr]; c_last_contacted := now; c_last_seen := now;
     c_trusted := false |}.

Definition Contact_add_addr (c : Contact) (addr : SocketAddr) : Contact :=
  if bool_decide (addr ∈ c_addrs c) then c
  else {| c_id := c_id c; c_addrs := c_addrs c ++ [addr];
          c_last_contacted := c_last_contacted c; c_last_seen := c_last_seen c;
          c_trusted := c_trusted c |}.

Definition Contact_mark_seen (now : N) (c : Contact) : Contact :=
  {| c_id := c_id c; c_addrs := c_addrs c; c_last_contacted := c_last_contacted c;
     c_last_seen := now; c_trusted := c_trusted c |}.

Definition Contact_is_alive (now timeout : N) (c : Contact) : bool :=
  elapsed now (c_last_seen c) <? timeout.

(** ** Buckets *)

Definition KBUCKET_SIZE : nat := 20%nat.

Record KBucket : Type := mkKBucket {
  kb_contacts : list Contact;
  kb_pending : option NodeId;
  kb_last_refresh : N
}.

Definition KBucket_new (now : N) : KBucket :=
  {| kb_contacts := []; kb_pending := None; kb_last_refresh := now |}.

Definition kb_set_contacts (b : KBucket) (l : list Contact) : KBucket :=
  {| kb_contacts := l; kb_pending := kb_pending b; kb_last_refresh := kb_last_refresh b |}.

Definition KBucket_len (b : KBucket) : nat := length (kb_contacts b).
Definition KBucket_is_empty (b : KBucket) : bool := Nat.eqb (KBucket_len b) 0.
Definition KBucket_is_full (b : KBucket) : bool := Nat.leb KBUCKET_SIZE (length (kb_contacts b)).

Definition KBucket_has_pending (b : KBucket) : bool := bool_decide (is_Some (kb_pending b)).
Definition KBucket_set_pending (b : KBucket) (id : NodeId) : KBucket :=
  {| kb_contacts := kb_contacts b; kb_pending := Some id; kb_last_refresh := kb_last_refresh b |}.
Definition KBucket_clear_pending (b : KBucket) : KBucket :=
  {| kb_contacts := kb_contacts b; kb_pending := None; kb_last_refresh := kb_last_refresh b |}.

(** [iter().position(|c| c.id == id)], with the contact found there. *)
Definition contact_pos (id : NodeId) (l : list Contact) : option (nat * Contact) :=
  list_find (λ c, c_id c = id) l.

Definition KBucket_find (b : KBucket) (id : NodeId) : option Contact :=
  snd <$> contact_pos id (kb_contacts b).

Definition KBucket_contains (b : KBucket) (id : NodeId) : bool :=
  bool_decide (is_Some (KBucket_find b id)).

Inductive InsertError : Type := BucketFull | SelfContact.

(** [KBucket::insert]: an existing contact is replaced in place and keeps its two
    timestamps; otherwise the contact goes to the back, unless the bucket is
    full. *)
Definition KBucket_insert (b : KBucket) (contact : Contact) : KBucket * result InsertError unit :=
  match contact_pos (c_id contact) (kb_contacts b) with
  | Some (pos, existing) =>
      let c := {| c_id := c_id contact; c_addrs := c_addrs contact;
                  c_last_contacted := c_last_contacted existing;
                  c_last_seen := c_last_seen existing; c_trusted := c_trusted contact |} in
      (kb_set_contacts b (<[pos := c]> (kb_contacts b)), Ok tt)
  | None =>
      if Nat.leb KBUCKET_SIZE (length (kb_contacts b)) then (b, Err BucketFull)
      else (kb_set_contacts b (kb_contacts b ++ [contact]), Ok tt)
  end.

Definition KBucket_mark_seen (now : N) (b : KBucket) (id : NodeId) : KBucket :=
  match contact_pos id (kb_contacts b) with
  | None => b
  | Some (pos, c) =>
      kb_set_contacts b (delete pos (kb_contacts b) ++ [Contact_mark_seen now c])
  end.

Definition KBucket_remove (b : KBucket) (id : NodeId) : KBucket * bool :=
  match contact_pos id (kb_contacts b) with
  | Some (pos, _) => (kb_set_contacts b (delete pos (kb_contacts b)), true)
  | None => (b, false)
  end.

Definition KBucket_needs_refresh (now interval : N) (b : KBucket) : bool :=
  interval <=? elapsed now (kb_last_refresh b).

Definition KBucket_oldest (b : KBucket) : option Contact := head (kb_contacts b).

Definition KBucket_evict_oldest (b : KBucket) : KBucket * option Contact :=
  match kb_contacts b with
  | [] => (b, None)
  | c :: l => (kb_set_contacts b l, Some c)
  end.

Definition KBucket_mark_refreshed (now : N) (b : KBucket) : KBucket :=
  {| kb_contacts := kb_contacts b; kb_pending := kb_pending b; kb_last_refresh := now |}.

Section RoutingTable.
Context `{HX : Hex}.

(** The comparison of both [closest] functions. *)
Definition closer_or_equal (target : NodeId) (a b : Contact) : bool :=
  bytes_leb (NodeId_xor_distance (c_id a) target) (NodeId_xor_distance (c_id b) target).

Definition KBucket_closest_to (b : KBucket) (target : NodeId) : list Contact :=
  sort_by (closer_or_equal target) (kb_contacts b).

(** ** The table *)

Record RoutingTable : Type := mkRoutingTable {
  rt_local_id : NodeId;
  rt_buckets : list KBucket;
  rt_bootstrap_nodes : list Contact;
  rt_contact_timeout : N;
  rt_refresh_interval : N
}.

(** Seconds, in the unit of the clock (nanoseconds). *)
Definition secs (n : N) : N := n * 1000000000.

Definition NUM_BUCKETS : nat := 256%nat.

Definition RoutingTable_new (now : N) (local_id : NodeId) : RoutingTable :=
  {| rt_local_id := local_id;
     rt_buckets := replicate NUM_BUCKETS (KBucket_new now);
     rt_bootstrap_nodes := [];
     rt_contact_timeout := secs 600;
     rt_refresh_interval := secs 300 |}.

Definition RoutingTable_set_local_id (t : RoutingTable) (id : NodeId) : RoutingTable :=
  {| rt_local_id := id; rt_buckets := rt_buckets t;
     rt_bootstrap_nodes := rt_bootstrap_nodes t;
     rt_contact_timeout := rt_contact_timeout t;
     rt_refresh_interval := rt_refresh_interval t |}.

Definition RoutingTable_add_bootstrap_node (t : RoutingTable) (contact : Contact) : RoutingTable :=
  let c := {| c_id := c_id contact; c_addrs := c_addrs contact;
              c_last_contacted := c_last_contacted contact;
              c_last_seen := c_last_seen contact; c_trusted := true |} in
  {| rt_local_id := rt_local_id t; rt_buckets := rt_buckets t;
     rt_bootstrap_nodes := rt_bootstrap_nodes t ++ [c];
     rt_contact_timeout := rt_contact_timeout t;
     rt_refresh_interval := rt_refresh_interval t |}.

(** The highest set bit of a byte: [for bit in (0..8).rev()]. *)
Definition top_bit (byte : N) : option nat :=
  snd <$> list_find (λ bit, N.land (N.shiftr byte (N.of_nat bit)) 1 = 1)
            [7; 6; 5; 4; 3; 2; 1; 0]%nat.

(** The scan of [bucket_index] over the distance, from byte number [i] on. *)
Fixpoint bucket_index_scan (i : nat) (distance : list N) : nat :=
  match distance with
  | [] => 255%nat
  | byte :: rest =>
      if byte =? 0 then bucket_index_scan (S i) rest
      else match top_bit byte with
           | Some bit =>
               let pos_from_msb := (i * 8 + (7 - bit))%nat in
               let bucket_idx := (pos_from_msb + 1)%nat in
               Nat.min bucket_idx 255
           | None => bucket_index_scan (S i) rest
           end
  end.

Definition bucket_index (node_a node_b : NodeId) : nat :=
  bucket_index_scan 0 (NodeId_xor_distance node_a node_b).

(** The position [bucket_for] and [bucket_for_mut] access. *)
Definition bucket_pos (t : RoutingTable) (id : NodeId) : nat :=
  Nat.min (bucket_index (rt_local_id t) id) 255.

Definition RoutingTable_bucket_for (t : RoutingTable) (id : NodeId) : KBucket :=
  default (KBucket_new 0) (rt_buckets t !! bucket_pos t id).

(** Writing through [bucket_for_mut]. *)
Definition set_buckets (t : RoutingTable) (bs : list KBucket) : RoutingTable :=
  {| rt_local_id := rt_local_id t; rt_buckets := bs;
     rt_bootstrap_nodes := rt_bootstrap_nodes t;
     rt_contact_timeout := rt_contact_timeout t;
     rt_refresh_interval := rt_refresh_interval t |}.

Definition put_bucket_for (t : RoutingTable) (id : NodeId) (b : KBucket) : RoutingTable :=
  set_buckets t (<[bucket_pos t id := b]> (rt_buckets t)).

Definition RoutingTable_contains (t : RoutingTable) (id : NodeId) : bool :=
  bool_decide (is_Some (KBucket_find (RoutingTable_bucket_for t id) id)) ||
  existsb (λ c, bool_decide (c_id c = id)) (rt_bootstrap_nodes t).

Definition RoutingTable_insert (t : RoutingTable) (contact : Contact)
  : RoutingTable * result InsertError unit :=
  if bool_decide (c_id contact = rt_local_id t) then (t, Err SelfContact)
  else let '(b, r) := KBucket_insert (RoutingTable_bucket_for t (c_id contact)) contact in
       (put_bucket_for t (c_id contact) b, r).

Definition RoutingTable_mark_seen (now : N) (t : RoutingTable) (id : NodeId) : RoutingTable :=
  put_bucket_for t id (KBucket_mark_seen now (RoutingTable_bucket_for t id) id).

Definition RoutingTable_remove (t : RoutingTable) (id : NodeId) : RoutingTable * bool :=
  let '(b, r) := KBucket_remove (RoutingTable_bucket_for t id) id in
  (put_bucket_for t id b, r).

Definition RoutingTable_all_contacts (t : RoutingTable) : list Contact :=
  (rt_buckets t ≫= kb_contacts) ++ rt_bootstrap_nodes t.

Definition RoutingTable_closest (t : RoutingTable) (target : NodeId) (k : nat) : list Contact :=
  let all_contacts := (rt_buckets t ≫= kb_contacts) ++ rt_bootstrap_nodes t in
  let others := filter (λ c, c_id c ≠ rt_local_id t) all_contacts in
  take k (sort_by (closer_or_equal target) others).

Definition RoutingTable_num_contacts (t : RoutingTable) : nat :=
  (sum_list (KBucket_len <$> rt_buckets t) + length (rt_bootstrap_nodes t))%nat.

Definition RoutingTable_buckets_needing_refresh (now : N) (t : RoutingTable) : list nat :=
  fst <$> filter (λ p, KBucket_needs_refresh now (rt_refresh_interval t) p.2 = true)
            (imap pair (rt_buckets t)).

(** One bucket of [remove_dead_contacts]: the dead identifiers, then each removed. *)
Definition remove_dead_bucket (now timeout : N) (b : KBucket) : KBucket * list NodeId :=
  let dead := c_id <$> filter (λ c, Contact_is_alive now timeout c = false) (kb_contacts b) in
  (foldl (λ b id, (KBucket_remove b id).1) b dead, dead).

Definition RoutingTable_remove_dead_contacts (now : N) (t : RoutingTable)
  : RoutingTable * list NodeId :=
  let rs := remove_dead_bucket now (rt_contact_timeout t) <$> rt_buckets t in
  (set_buckets t (fst <$> rs), concat (snd <$> rs)).

Definition RoutingTable_mark_bucket_refreshed (now : N) (t : RoutingTable) (bucket_idx : nat)
  : RoutingTable :=
  if Nat.ltb bucket_idx 256
  then set_buckets t (alter (KBucket_mark_refreshed now) bucket_idx (rt_buckets t))
  else t.
End RoutingTable.

Lemma contact_pos_Some id l pos c :
  contact_pos id l = Some (pos, c) → l !! pos = Some c ∧ c_id c = id.
Proof. unfold contact_pos. rewrite list_find_Some. naive_solver. Qed.

Lemma contact_pos_None id l : contact_pos id l = None ↔ id ∉ c_id <$> l.
Proof.
  unfold contact_pos. rewrite list_find_None, Forall_forall, list_elem_of_fmap. naive_solver.
Qed.

(** ** Buckets keep their shape

    The part of the invariant that a single bucket carries: bounded, without a
    repeated identifier, every identifier satisfying [P] and, where contacts are
    stamped when they are inserted ([St]), ordered by [last_seen] with nothing seen
    after [now]. *)

Section BucketInv.
Context (P : NodeId → Prop) (St : Prop).

Record bucket_ok (now : N) (b : KBucket) : Prop := {
  bo_size : (length (kb_contacts b) ≤ KBUCKET_SIZE)%nat;
  bo_nodup : NoDup (c_id <$> kb_contacts b);
  bo_ids : Forall P (c_id <$> kb_contacts b);
  bo_sorted : St → StronglySorted N.le (c_last_seen <$> kb_contacts b);
  bo_seen : St → Forall (λ s, s ≤ now) (c_last_seen <$> kb_contacts b)
}.

Lemma bucket_ok_new t now : bucket_ok now (KBucket_new t).
Proof. split; simpl; intros; try constructor. unfold KBUCKET_SIZE. lia. Qed.

Lemma bucket_ok_mono now now' b : now ≤ now' → bucket_ok now b → bucket_ok now' b.
Proof.
  intros Hle [??? ? Hs]. split; try done. intros HSt. eapply Forall_impl; [by apply Hs|]. simpl. intros. lia.
Qed.

Lemma bucket_ok_contacts now b b' :
  kb_contacts b' = kb_contacts b → bucket_ok now b → bucket_ok now b'.
Proof. intros He []. split; by rewrite He. Qed.

Lemma bucket_ok_delete now b pos c :
  kb_contacts b !! pos = Some c → bucket_ok now b →
  bucket_ok now (kb_set_contacts b (delete pos (kb_contacts b))).
Proof.
  intros Hp [Hs Hn Hi Ho Ht]. split; simpl.
  - rewrite length_delete by eauto. lia.
  - by eapply NoDup_fmap_delete.
  - rewrite list_fmap_delete. by apply Forall_delete.
  - intros HSt. rewrite list_fmap_delete. by apply StronglySorted_delete, Ho.
  - intros HSt. rewrite list_fmap_delete. by apply Forall_delete, Ht.
Qed.

Lemma bucket_ok_snoc now b c :
  (length (kb_contacts b) < KBUCKET_SIZE)%nat → c_id c ∉ c_id <$> kb_contacts b → P (c_id c) →
  (St → c_last_seen c = now) → bucket_ok now b →
  bucket_ok now (kb_set_contacts b (kb_contacts b ++ [c])).
Proof.
  intros Hl Hc HP Hnow [Hs Hn Hi Ho Ht]. split; simpl; rewrite ?fmap_app; simpl.
  - rewrite length_app. simpl. lia.
  - apply NoDup_app. split_and!; [done| |apply NoDup_singleton].
    intros x Hx ->%list_elem_of_singleton. done.
  - apply Forall_app. by repeat constructor.
  - intros HSt. rewrite Hnow by done. apply StronglySorted_snoc; auto.
  - intros HSt. rewrite Hnow by done. apply Forall_app. repeat constructor; auto.
Qed.

Lemma bucket_ok_insert now b c :
  P (c_id c) → (St → c_last_seen c = now) → bucket_ok now b → bucket_ok now (KBucket_insert b c).1.
Proof.
  intros HP Hnow Hb. unfold KBucket_insert.
  destruct (contact_pos _ _) as [[pos e]|] eqn:Hpos.
  - simpl. apply contact_pos_Some in Hpos as [Hl Hid]. destruct Hb as [Hs Hn Hi Ho Ht].
    assert (∀ {X} (f : Contact → X) c', f c' = f e →
      f <$> <[pos := c']> (kb_contacts b) = f <$> kb_contacts b) as Hsame.
    { intros X f c' Hf. rewrite list_fmap_insert, Hf. apply list_insert_id.
      by rewrite list_lookup_fmap, Hl. }
    split; simpl; [by rewrite length_insert|..]; by rewrite Hsame.
  - apply contact_pos_None in Hpos. destruct (Nat.leb_spec KBUCKET_SIZE (length (kb_contacts b))).
    + done.
    + by apply bucket_ok_snoc.
Qed.

Lemma bucket_ok_mark_seen now b id :
  bucket_ok now b → bucket_ok now (KBucket_mark_seen now b id).
Proof.
  intros Hb. unfold KBucket_mark_seen.
  destruct (contact_pos id (kb_contacts b)) as [[pos c]|] eqn:Hpos; [|done].
  apply contact_pos_Some in Hpos as [Hl <-].
  pose proof (bucket_ok_delete now b pos c Hl Hb) as Hd.
  apply (bucket_ok_snoc now _ (Contact_mark_seen now c)) in Hd; [done| | | |done]; simpl.
  - rewrite length_delete by eauto. pose proof (bo_size now b Hb).
    apply lookup_lt_Some in Hl. lia.
  - by eapply NoDup_fmap_delete; [|apply (bo_nodup now b Hb)].
  - eapply Forall_forall; [apply (bo_ids now b Hb)|].
    by eapply list_elem_of_fmap_2, list_elem_of_lookup_2.
Qed.

Lemma bucket_ok_remove now b id : bucket_ok now b → bucket_ok now (KBucket_remove b id).1.
Proof.
  intros Hb. unfold KBucket_remove.
  destruct (contact_pos id (kb_contacts b)) as [[pos c]|] eqn:Hpos; [|done].
  apply contact_pos_Some in Hpos as [Hl _]. by eapply bucket_ok_delete.
Qed.

Lemma bucket_ok_remove_dead now timeout b :
  bucket_ok now b → bucket_ok now (remove_dead_bucket now timeout b).1.
Proof.
  unfold remove_dead_bucket. simpl.
  generalize (c_id <$> filter (λ c, Contact_is_alive now timeout c = false) (kb_contacts b)).
  intros ids. revert b. induction ids as [|id ids IH]; intros b Hb; simpl; [done|].
  by apply IH, bucket_ok_remove.
Qed.
End BucketInv.

(** ** Buckets as finite maps *)

Definition find_contact (id : NodeId) (l : list Contact) : option Contact :=
  snd <$> contact_pos id l.

Lemma find_contact_Some id l c :
  NoDup (c_id <$> l) → find_contact id l = Some c ↔ c ∈ l ∧ c_id c = id.
Proof.
  intros Hn. unfold find_contact, contact_pos. split.
  - intros ([pos c'] & (Hl & Hp & _)%list_find_Some & ->)%fmap_Some. simpl.
    split; [by eapply list_elem_of_lookup_2|done].
  - intros [Hc Hid]. destruct (list_find_elem_of (λ c, c_id c = id) l c Hc Hid) as [[pos c'] Hf].
    rewrite Hf. simpl. f_equal. apply list_find_Some in Hf as (Hl & Hp & _).
    apply list_elem_of_lookup in Hc as [pos' Hl'].
    assert (pos = pos') as ->.
    { eapply NoDup_lookup; [exact Hn|..]; rewrite list_lookup_fmap, ?Hl, ?Hl'; simpl;
        [reflexivity|congruence]. }
    congruence.
Qed.

Lemma find_contact_ext id l l' :
  NoDup (c_id <$> l) → NoDup (c_id <$> l') →
  (∀ c, c_id c = id → c ∈ l ↔ c ∈ l') → find_contact id l = find_contact id l'.
Proof.
  intros Hn Hn' He. apply option_eq. intros c. rewrite !find_contact_Some by done. naive_solver.
Qed.

(** Two buckets that differ in one contact agree on the other identifiers. *)
Lemma find_contact_swap id (l l' rest : list Contact) x y :
  NoDup (c_id <$> l) → NoDup (c_id <$> l') → l ≡ₚ x :: rest → l' ≡ₚ y :: rest →
  c_id x ≠ id → c_id y ≠ id → find_contact id l = find_contact id l'.
Proof.
  intros Hn Hn' Hp Hp' Hx Hy. apply find_contact_ext; [done..|]. intros c Hc.
  rewrite Hp, Hp', !elem_of_cons. naive_solver.
Qed.

Lemma contacts_split (l : list Contact) pos c :
  l !! pos = Some c → l ≡ₚ c :: delete pos l ∧ ∀ c', <[pos := c']> l ≡ₚ c' :: delete pos l.
Proof.
  intros Hl. split; [by apply delete_Permutation|]. intros c'.
  rewrite (delete_Permutation (<[pos:=c']> l) pos c').
  - apply reflexive_eq. f_equal. apply list_eq. intros i.
    destruct (decide (i < pos)%nat).
    + rewrite !list_lookup_delete_lt by done. by rewrite list_lookup_insert_ne by lia.
    + rewrite !list_lookup_delete_ge by lia. by rewrite list_lookup_insert_ne by lia.
  - apply list_lookup_insert_eq. by eapply lookup_lt_Some.
Qed.

(** What [insert] stores when [e] was there before. *)
Definition merge_contact (c : Contact) (old : option Contact) : Contact :=
  match old with
  | None => c
  | Some e => {| c_id := c_id c; c_addrs := c_addrs c; c_last_contacted := c_last_contacted e;
                 c_last_seen := c_last_seen e; c_trusted := c_trusted c |}
  end.

Lemma KBucket_insert_spec b c b' r :
  NoDup (c_id <$> kb_contacts b) → KBucket_insert b c = (b', r) →
  (r = Err BucketFull ↔ KBucket_find b (c_id c) = None ∧ KBucket_is_full b = true) ∧
  (is_ok r = false → r = Err BucketFull ∧ b' = b) ∧
  (is_ok r = true →
     KBucket_find b' (c_id c) = Some (merge_contact c (KBucket_find b (c_id c))) ∧
     ∀ id, id ≠ c_id c → KBucket_find b' id = KBucket_find b id).
Proof.
  intros Hn. unfold KBucket_insert, KBucket_find, KBucket_is_full.
  destruct (contact_pos (c_id c) (kb_contacts b)) as [[pos e]|] eqn:Hpos.
  - intros [= <- <-]. apply contact_pos_Some in Hpos as [Hl Hid].
    split; [naive_solver|]. split; [done|]. intros _. fold (find_contact (c_id c)).
    destruct (contacts_split _ _ _ Hl) as [Hp Hp'].
    set (c' := merge_contact c (Some e)). specialize (Hp' c').
    assert (NoDup (c_id <$> <[pos:=c']> (kb_contacts b))) as Hn'.
    { rewrite Hp'. rewrite Hp in Hn. by rewrite fmap_cons, Hid in Hn. }
    change (find_contact (c_id c) (<[pos:=c']> (kb_contacts b)) = Some c' ∧
      ∀ id, id ≠ c_id c →
        find_contact id (<[pos:=c']> (kb_contacts b)) = find_contact id (kb_contacts b)). split.
    + apply find_contact_Some; [done|]. rewrite Hp'. split; [by left|done].
    + intros id Hne. eapply find_contact_swap; [done..| |]; simpl; congruence.
  - apply contact_pos_None in Hpos as Hnone. destruct (Nat.leb _ _) eqn:Hfull.
    { intros [= <- <-]. naive_solver. }
    intros [= <- <-]. split; [naive_solver|]. split; [done|]. intros _.
    assert (NoDup (c_id <$> kb_contacts b ++ [c])) as Hn'.
    { rewrite fmap_app. apply NoDup_app. split_and!; [done| |apply NoDup_singleton].
      intros x Hx ->%list_elem_of_singleton. done. }
    split.
    + apply find_contact_Some; [done|]. simpl. split; [|done].
      apply elem_of_app. right. by left.
    + intros id Hne. apply find_contact_ext; [done..|]. intros x Hx. simpl.
      rewrite elem_of_app, list_elem_of_singleton. naive_solver.
Qed.

Lemma KBucket_mark_seen_spec now b id :
  NoDup (c_id <$> kb_contacts b) →
  KBucket_find (KBucket_mark_seen now b id) id = Contact_mark_seen now <$> KBucket_find b id ∧
  ∀ id', id' ≠ id → KBucket_find (KBucket_mark_seen now b id) id' = KBucket_find b id'.
Proof.
  intros Hn. unfold KBucket_mark_seen.
  destruct (contact_pos id (kb_contacts b)) as [[pos c]|] eqn:Hpos;
    [|unfold KBucket_find; by rewrite Hpos].
  unfold KBucket_find at 2. rewrite Hpos. simpl.
  apply contact_pos_Some in Hpos as [Hl <-]. destruct (contacts_split _ _ _ Hl) as [Hp _].
  unfold KBucket_find. cbn [kb_contacts kb_set_contacts].
  set (l' := delete pos (kb_contacts b) ++ [Contact_mark_seen now c]).
  assert (l' ≡ₚ Contact_mark_seen now c :: delete pos (kb_contacts b)) as Hp'.
  { unfold l'. by rewrite Permutation_app_comm. }
  assert (NoDup (c_id <$> l')) as Hn' by (rewrite Hp'; by rewrite Hp in Hn).
  split.
  - apply find_contact_Some; [done|]. rewrite Hp'. split; [by left|done].
  - intros id' Hne. eapply find_contact_swap; [done..| |]; simpl; congruence.
Qed.

Lemma KBucket_remove_spec b id b' r :
  NoDup (c_id <$> kb_contacts b) → KBucket_remove b id = (b', r) →
  KBucket_find b' id = None ∧ r = bool_decide (is_Some (KBucket_find b id)) ∧
  ∀ id', id' ≠ id → KBucket_find b' id' = KBucket_find b id'.
Proof.
  intros Hn. unfold KBucket_remove, KBucket_find.
  destruct (contact_pos id (kb_contacts b)) as [[pos c]|] eqn:Hpos; intros [= <- <-];
    [|by rewrite Hpos].
  apply contact_pos_Some in Hpos as [Hl <-]. destruct (contacts_split _ _ _ Hl) as [Hp _].
  destruct (NoDup_fmap_delete c_id _ _ _ Hl Hn) as [Hnot Hn']. cbn [kb_contacts kb_set_contacts].
  split_and!.
  - by rewrite (proj2 (contact_pos_None _ _) Hnot).
  - done.
  - intros id' Hne. apply find_contact_ext; [done..|]. intros x Hx.
    assert (x ∈ kb_contacts b ↔ x ∈ c :: delete pos (kb_contacts b)) as -> by (by rewrite <- Hp).
    rewrite elem_of_cons. naive_solver.
Qed.

Lemma remove_first_filter id l :
  NoDup (c_id <$> l) →
  match contact_pos id l with Some (pos, _) => delete pos l | None => l end =
  filter (λ c, c_id c ≠ id) l.
Proof.
  unfold contact_pos. induction l as [|x l IH]; simpl; [done|]. intros [Hx Hn]%NoDup_cons.
  rewrite filter_cons. case_decide as Hid; simpl.
  - rewrite decide_False by naive_solver. subst. symmetry. apply filter_all.
    intros y Hy He. apply Hx. rewrite <- He. by apply list_elem_of_fmap_2.
  - rewrite decide_True by done. rewrite <- IH by done.
    by destruct (list_find _ l) as [[pos c]|].
Qed.

Lemma remove_ids_filter (ids : list NodeId) b :
  NoDup (c_id <$> kb_contacts b) →
  kb_contacts (foldl (λ b id, (KBucket_remove b id).1) b ids) =
  filter (λ c, c_id c ∉ ids) (kb_contacts b).
Proof.
  revert b. induction ids as [|id ids IH]; intros b Hn; simpl.
  { symmetry. apply filter_all. intros c _. apply not_elem_of_nil. }
  assert (kb_contacts (KBucket_remove b id).1 = filter (λ c, c_id c ≠ id) (kb_contacts b)) as Hr.
  { rewrite <- remove_first_filter by done. unfold KBucket_remove.
    by destruct (contact_pos id (kb_contacts b)) as [[pos c]|]. }
  rewrite IH, Hr.
  - rewrite list_filter_filter. apply list_filter_iff. intros c. rewrite not_elem_of_cons. naive_solver.
  - rewrite Hr. eapply NoDup_fmap_filter. done.
Qed.

(** Per bucket, [remove_dead_contacts] is a filter. *)
Lemma remove_dead_bucket_filter now timeout b :
  NoDup (c_id <$> kb_contacts b) →
  kb_contacts (remove_dead_bucket now timeout b).1 =
  filter (λ c, Contact_is_alive now timeout c = true) (kb_contacts b).
Proof.
  intros Hn. unfold remove_dead_bucket. simpl. rewrite remove_ids_filter by done.
  apply filter_ext_elem. intros c Hc. rewrite list_elem_of_fmap. split.
  - intros Hnot. apply not_false_iff_true. intros Hal. apply Hnot. exists c.
    by rewrite list_elem_of_filter.
  - intros Hal (c' & He & [Hal' Hc']%list_elem_of_filter).
    assert (c = c') as ->; [|congruence].
    assert (find_contact (c_id c) (kb_contacts b) = Some c) as H1 by (by apply find_contact_Some).
    assert (find_contact (c_id c) (kb_contacts b) = Some c') as H2 by (by apply find_contact_Some).
    congruence.
Qed.

(** ** The bucket index *)

Lemma top_bit_log2 byte : 0 < byte → byte_ok byte → top_bit byte = Some (N.to_nat (N.log2 byte)).
Proof.
  intros H0 Hb.
  pose proof (N_check (λ b, (b =? 0) ||
    match top_bit b with Some t => Nat.eqb t (N.to_nat (N.log2 b)) | None => false end)
    256 eq_refl byte Hb) as H.
  apply orb_true_iff in H as [H%N.eqb_eq|H]; [lia|].
  destruct (top_bit byte) as [t|]; [|done]. by apply Nat.eqb_eq in H as ->.
Qed.

Lemma bucket_index_scan_spec i d :
  bytes_ok d →
  bucket_index_scan i d =
    if be_value d =? 0 then 255%nat
    else Nat.min (8 * (i + length d) - N.to_nat (N.log2 (be_value d))) 255.
Proof.
  intros Hd. revert i. induction Hd as [|b d Hb Hd IH]; intros i; [done|].
  cbn [bucket_index_scan]. rewrite be_value_cons.
  pose proof (be_value_bound d Hd) as Hv.
  set (k := N.of_nat (length d)) in *.
  assert (256 ^ k = 2 ^ (8 * k)) as Hk by (by rewrite N.pow_mul_r).
  destruct (N.eqb_spec b 0) as [->|Hb0].
  - rewrite IH. simpl length. rewrite N.mul_0_l, N.add_0_l.
    replace (i + S (length d))%nat with (S i + length d)%nat by lia. done.
  - rewrite top_bit_log2 by (done || lia).
    destruct (N.eqb_spec (b * 256 ^ k + be_value d) 0) as [Hz|_]; [exfalso; nia|].
    assert (N.log2 (b * 256 ^ k + be_value d) = N.log2 b + 8 * k) as ->.
    { rewrite Hk in *. apply N.log2_unique; [lia|].
      pose proof (N.log2_spec b ltac:(lia)) as [Hlo Hhi].
      rewrite N.pow_add_r, N.pow_succ_r' in *. rewrite N.pow_add_r. nia. }
    pose proof (byte_log2 b Hb). cbn [length]. unfold k. f_equal. lia.
Qed.

Lemma bucket_index_range (HX : Hex) a b : (1 ≤ bucket_index a b ≤ 255)%nat.
Proof.
  enough (∀ d i, (1 ≤ bucket_index_scan i d ≤ 255)%nat) as H by apply H.
  induction d as [|x d IH]; intros i; cbn [bucket_index_scan]; [lia|].
  destruct (x =? 0); [apply IH|]. destruct (top_bit x); [lia|apply IH].
Qed.

Section TableTheorems.
Context `{HX : Hex} {HL : HexLaws HX}.

(** [RoutingTable::bucket_index] on well-formed identifiers: the bucket of a
    distinct node at XOR distance [d] is [256 - floor(log2 d)] (the number of
    leading zero bits plus one), cut off at 255; hence the index never
    increases with the distance, bucket 1 holds the furthest half of the
    identifier space, and the node itself maps to 255, which it shares with the
    nodes at distances 1, 2 and 3. *)
Theorem bucket_index_log2 a b c :
  node_ok a → node_ok b → node_ok c →
  bucket_index a b = bucket_index b a ∧
  bucket_index a b =
    (if bool_decide (a = b) then 255
     else Nat.min (256 - N.to_nat (N.log2 (node_distance a b))) 255)%nat ∧
  (a ≠ b → node_distance a b ≤ node_distance a c → (bucket_index a c ≤ bucket_index a b)%nat).
Proof.
  assert (∀ x y, node_ok x → node_ok y → bucket_index x y =
    if node_distance x y =? 0 then 255%nat
    else Nat.min (256 - N.to_nat (N.log2 (node_distance x y))) 255) as Hbi.
  { intros x y Hx Hy. unfold bucket_index, node_distance.
    rewrite xor_distance_zip by done.
    pose proof (node_bytes_ok x Hx) as [Hlx Hbx]. pose proof (node_bytes_ok y Hy) as [Hly Hby].
    rewrite bucket_index_scan_spec by (by apply zip_lxor_ok).
    rewrite length_zip_with, Hlx, Hly. done. }
  intros Ha Hb Hc.
  destruct (node_distance_zero a b Ha Hb) as [Hz1 Hz2].
  split_and!.
  - unfold bucket_index. by rewrite xor_distance_sym.
  - rewrite Hbi by done. case_bool_decide as Hab.
    + by rewrite (proj2 (N.eqb_eq _ _) (Hz2 Hab)).
    + destruct (N.eqb_spec (node_distance a b) 0); [naive_solver|done].
  - intros Hab Hle. rewrite !Hbi by done.
    destruct (N.eqb_spec (node_distance a b) 0); [naive_solver|].
    destruct (N.eqb_spec (node_distance a c) 0) as [|]; [lia|].
    pose proof (N.log2_le_mono _ _ Hle). lia.
Qed.

(** ** The table invariant *)

(** Every bucket is well shaped and holds, besides, only contacts other than the
    local node that [bucket_index] maps to it, as long as the identity is fixed
    while there are contacts ([Ft]). *)
Definition home (t : RoutingTable) (i : nat) (id : NodeId) : Prop :=
  id ≠ rt_local_id t ∧ bucket_index (rt_local_id t) id = i.

Record rt_inv_at (St Ft : Prop) (now : N) (t : RoutingTable) : Prop := {
  ri_len : length (rt_buckets t) = NUM_BUCKETS;
  ri_buckets i b : rt_buckets t !! i = Some b → bucket_ok (λ id, Ft → home t i id) St now b
}.
(** The part that holds whatever the times of the inserted contacts. *)
Definition rt_inv : N → RoutingTable → Prop := rt_inv_at False True.

Lemma bucket_pos_lt t id : (bucket_pos t id < NUM_BUCKETS)%nat.
Proof. unfold bucket_pos, NUM_BUCKETS. pose proof (bucket_index_range HX (rt_local_id t) id). lia. Qed.

Lemma bucket_pos_index t id : bucket_pos t id = bucket_index (rt_local_id t) id.
Proof. unfold bucket_pos. pose proof (bucket_index_range HX (rt_local_id t) id). lia. Qed.

Section Invariant.
Context (St Ft : Prop).

Lemma rt_bucket_for_lookup now t id :
  rt_inv_at St Ft now t → rt_buckets t !! bucket_pos t id = Some (RoutingTable_bucket_for t id).
Proof.
  intros Ht. unfold RoutingTable_bucket_for.
  destruct (lookup_lt_is_Some_2 (rt_buckets t) (bucket_pos t id)) as [b ->]; [|done].
  rewrite (ri_len _ _ _ _ Ht). apply bucket_pos_lt.
Qed.

Lemma rt_inv_put now t id b :
  rt_inv_at St Ft now t → bucket_ok (λ x, Ft → home t (bucket_pos t id) x) St now b → rt_inv_at St Ft now (put_bucket_for t id b).
Proof.
  intros Ht Hb. split; simpl; [by rewrite length_insert, (ri_len _ _ _ _ Ht)|].
  intros i b' [(<- & <- & _)|[Hne Hi]]%list_lookup_insert_Some; [done|].
  by apply (ri_buckets _ _ _ _ Ht).
Qed.

Lemma rt_inv_bucket_for now t id :
  rt_inv_at St Ft now t → bucket_ok (λ x, Ft → home t (bucket_pos t id) x) St now (RoutingTable_bucket_for t id).
Proof. intros Ht. by apply (ri_buckets _ _ _ _ Ht), (rt_bucket_for_lookup now). Qed.

Lemma rt_inv_map now t (f : KBucket → KBucket) :
  (∀ P b, bucket_ok P St now b → bucket_ok P St now (f b)) →
  rt_inv_at St Ft now t → rt_inv_at St Ft now (set_buckets t (f <$> rt_buckets t)).
Proof.
  intros Hf Ht. split; simpl; [by rewrite length_fmap, (ri_len _ _ _ _ Ht)|].
  intros i b' (b & -> & Hi)%list_lookup_fmap_Some. apply Hf, (ri_buckets _ _ _ _ Ht); done.
Qed.

(** The operations as transitions; the clock moves forward. Any contact may be inserted:
    under [St] it is stamped with the present time, as [Contact::new] does, and without it
    it may carry any time, as one that is read from a file. The identity may be set: under
    [Ft] only while there are no contacts. *)
Inductive rt_step : RoutingTable * N → RoutingTable * N → Prop :=
| step_tick t now now' : now ≤ now' → rt_step (t, now) (t, now')
| step_insert t now c : (St → c_last_seen c = now) → rt_step (t, now) ((RoutingTable_insert t c).1, now)
| step_mark_seen t now id : rt_step (t, now) (RoutingTable_mark_seen now t id, now)
| step_remove t now id : rt_step (t, now) ((RoutingTable_remove t id).1, now)
| step_bootstrap t now c : rt_step (t, now) (RoutingTable_add_bootstrap_node t c, now)
| step_remove_dead t now : rt_step (t, now) ((RoutingTable_remove_dead_contacts now t).1, now)
| step_refreshed t now i : rt_step (t, now) (RoutingTable_mark_bucket_refreshed now t i, now)
| step_set_local_id t now id :
    (Ft → Forall (λ b, kb_contacts b = []) (rt_buckets t)) → rt_step (t, now) (RoutingTable_set_local_id t id, now).

Lemma rt_inv_new now id : rt_inv_at St Ft now (RoutingTable_new now id).
Proof.
  split; [apply length_replicate|]. cbn [rt_buckets RoutingTable_new].
  intros i b [-> _]%lookup_replicate. apply bucket_ok_new.
Qed.

Lemma rt_inv_insert now t c :
  (St → c_last_seen c = now) → rt_inv_at St Ft now t → rt_inv_at St Ft now (RoutingTable_insert t c).1.
Proof.
  intros Hnow Ht. unfold RoutingTable_insert. case_bool_decide as Hid; [done|].
  destruct (KBucket_insert _ c) as [b r] eqn:Hb. simpl. apply rt_inv_put; [done|].
  change b with (b, r).1. rewrite <- Hb. apply bucket_ok_insert; [|done|by apply rt_inv_bucket_for].
  split; [done|]. symmetry. apply bucket_pos_index.
Qed.

Lemma rt_inv_set_local_id now t id :
  (Ft → Forall (λ b, kb_contacts b = []) (rt_buckets t)) → rt_inv_at St Ft now t → rt_inv_at St Ft now (RoutingTable_set_local_id t id).
Proof.
  intros He Ht. split; [apply (ri_len _ _ _ _ Ht)|]. intros i b Hb. destruct (ri_buckets _ _ _ _ Ht i b Hb) as [Hs Hn _ Ho Hnow].
  split; [done|done| |done|done]. apply Forall_forall. intros x Hx HFt. specialize (He HFt). rewrite Forall_forall in He.
  rewrite (He b) in Hx by (by eapply list_elem_of_lookup_2). by apply not_elem_of_nil in Hx.
Qed.

Lemma rt_inv_step s s' : rt_step s s' → rt_inv_at St Ft s.2 s.1 → rt_inv_at St Ft s'.2 s'.1.
Proof.
  destruct 1 as [t now now' Hle|t now c Hc|t now id|t now id|t now c|t now|t now i|t now id He];
    simpl; intros Ht.
  - split; [by apply (ri_len _ _ _ _ Ht)|]. intros i b Hb.
    eapply bucket_ok_mono; [done|]. by apply (ri_buckets _ _ _ _ Ht).
  - by apply rt_inv_insert.
  - apply rt_inv_put; [done|]. by apply bucket_ok_mark_seen, rt_inv_bucket_for.
  - unfold RoutingTable_remove. destruct (KBucket_remove _ id) as [b r] eqn:Hb. simpl.
    apply rt_inv_put; [done|]. change b with (b, r).1. rewrite <- Hb.
    by apply bucket_ok_remove, rt_inv_bucket_for.
  - split; [apply (ri_len _ _ _ _ Ht)|apply (ri_buckets _ _ _ _ Ht)].
  - unfold RoutingTable_remove_dead_contacts. simpl. rewrite <- list_fmap_compose.
    apply rt_inv_map; [|done]. intros P b. apply bucket_ok_remove_dead.
  - unfold RoutingTable_mark_bucket_refreshed. destruct (Nat.ltb i 256); [|done].
    split; simpl; [by rewrite length_alter, (ri_len _ _ _ _ Ht)|].
    intros j b. destruct (decide (i = j)) as [<-|Hne].
    + rewrite list_lookup_alter_eq. intros (b' & Hb & ->)%fmap_Some.
      eapply bucket_ok_contacts; [|by apply (ri_buckets _ _ _ _ Ht)]. done.
    + rewrite list_lookup_alter_ne by done. apply (ri_buckets _ _ _ _ Ht).
  - by apply rt_inv_set_local_id.
Qed.

Lemma rt_inv_rtc s s' : rtc rt_step s s' → rt_inv_at St Ft s.2 s.1 → rt_inv_at St Ft s'.2 s'.1.
Proof. induction 1 as [s|s1 s2 s3 H12 _ IH]; intros Hs; [done|]. by eapply IH, rt_inv_step. Qed.
End Invariant.

(** C2. The routing-table invariant, in every state reachable from [RoutingTable::new] by
    the operations of the table, whatever contacts are inserted: there are 256 buckets, and
    each holds at most [KBUCKET_SIZE] contacts and no identifier twice. If the identity is
    not changed while the table holds contacts, no bucket holds the local node and every
    contact is in the bucket [bucket_index] assigns to it. If every inserted contact is
    stamped with the time of its insertion, each bucket is ordered by [last_seen], oldest
    first. *)
Theorem routing_table_invariant (stamped fixed_id : Prop) local t0 t now :
  rtc (rt_step stamped fixed_id) (RoutingTable_new t0 local, t0) (t, now) →
  length (rt_buckets t) = NUM_BUCKETS ∧
  ∀ i b, rt_buckets t !! i = Some b →
    (length (kb_contacts b) ≤ KBUCKET_SIZE)%nat ∧
    NoDup (c_id <$> kb_contacts b) ∧
    (fixed_id → ∀ c, c ∈ kb_contacts b → c_id c ≠ rt_local_id t ∧ bucket_index (rt_local_id t) (c_id c) = i) ∧
    (stamped → StronglySorted N.le (c_last_seen <$> kb_contacts b)).
Proof.
  intros Hr. pose proof (rt_inv_rtc _ _ _ _ Hr (rt_inv_new _ _ t0 local)) as Ht. cbn [fst snd] in Ht.
  split; [apply (ri_len _ _ _ _ Ht)|]. intros i b Hb.
  destruct (ri_buckets _ _ _ _ Ht i b Hb) as [Hs Hn Hi Ho _].
  split_and!; [done|done| |done]. intros Hf c Hc.
  rewrite Forall_forall in Hi. by apply Hi; [apply list_elem_of_fmap_2|].
Qed.

(** ** The table as a finite map *)

Definition rt_lookup (t : RoutingTable) (id : NodeId) : option Contact :=
  KBucket_find (RoutingTable_bucket_for t id) id.

Lemma rt_lookup_put now t id b id' :
  rt_inv now t →
  rt_lookup (put_bucket_for t id b) id' =
    if decide (bucket_pos t id' = bucket_pos t id) then KBucket_find b id' else rt_lookup t id'.
Proof.
  intros Ht. unfold rt_lookup, RoutingTable_bucket_for. simpl.
  change (bucket_pos (put_bucket_for t id b) id') with (bucket_pos t id').
  case_decide as Hp.
  - rewrite Hp, list_lookup_insert_eq; [done|]. rewrite (ri_len _ _ _ _ Ht). apply bucket_pos_lt.
  - by rewrite list_lookup_insert_ne.
Qed.

Lemma put_bucket_same now t id :
  rt_inv now t → put_bucket_for t id (RoutingTable_bucket_for t id) = t.
Proof.
  intros Ht. unfold put_bucket_for. rewrite list_insert_id by (by eapply rt_bucket_for_lookup).
  by destruct t.
Qed.

(** An operation on one bucket changes the map at one key only. *)
Lemma rt_lookup_put_one now t id b :
  rt_inv now t →
  (∀ id', id' ≠ id → KBucket_find b id' = KBucket_find (RoutingTable_bucket_for t id) id') →
  rt_lookup (put_bucket_for t id b) id = KBucket_find b id ∧
  ∀ id', id' ≠ id → rt_lookup (put_bucket_for t id b) id' = rt_lookup t id'.
Proof.
  intros Ht Hb. split; [|intros id' Hne]; rewrite (rt_lookup_put now) by done.
  - by rewrite decide_True.
  - case_decide as Hp; [|done]. rewrite Hb by done. unfold rt_lookup, RoutingTable_bucket_for.
    by rewrite Hp.
Qed.

Lemma rt_lookup_mark_seen now t id :
  rt_inv now t →
  rt_lookup (RoutingTable_mark_seen now t id) id = Contact_mark_seen now <$> rt_lookup t id ∧
  ∀ id', id' ≠ id → rt_lookup (RoutingTable_mark_seen now t id) id' = rt_lookup t id'.
Proof.
  intros Ht. destruct (KBucket_mark_seen_spec now (RoutingTable_bucket_for t id) id) as [Hc Ho].
  { apply (bo_nodup _ _ _ _ (rt_inv_bucket_for False True now t id Ht)). }
  unfold RoutingTable_mark_seen.
  destruct (rt_lookup_put_one now t id _ Ht Ho) as [-> ?]. done.
Qed.

(** C1. The routing table implements a bounded map from identifiers to contacts.
    [insert] rejects the local node with [SelfContact] and an unknown contact
    whose bucket is full with [BucketFull], changing no lookup; otherwise the
    contact can be looked up, with the timestamps of the entry it replaces, and
    no other key changes. [mark_seen] updates the timestamp of its key only, and
    [remove] deletes its key, reporting whether it was there. *)
Theorem routing_table_refines_map now t :
  rt_inv now t →
  (∀ c t' r, RoutingTable_insert t c = (t', r) →
     (r = Err SelfContact ↔ c_id c = rt_local_id t) ∧
     (r = Err BucketFull ↔ c_id c ≠ rt_local_id t ∧ rt_lookup t (c_id c) = None ∧
        KBucket_is_full (RoutingTable_bucket_for t (c_id c)) = true) ∧
     (is_ok r = false → t' = t) ∧
     (is_ok r = true → rt_lookup t' (c_id c) = Some (merge_contact c (rt_lookup t (c_id c))) ∧
        ∀ id, id ≠ c_id c → rt_lookup t' id = rt_lookup t id)) ∧
  (∀ id, rt_lookup (RoutingTable_mark_seen now t id) id = Contact_mark_seen now <$> rt_lookup t id ∧
     ∀ id', id' ≠ id → rt_lookup (RoutingTable_mark_seen now t id) id' = rt_lookup t id') ∧
  (∀ id t' r, RoutingTable_remove t id = (t', r) →
     rt_lookup t' id = None ∧ r = bool_decide (is_Some (rt_lookup t id)) ∧
     ∀ id', id' ≠ id → rt_lookup t' id' = rt_lookup t id').
Proof.
  intros Ht. split_and!.
  - intros c t' r. unfold RoutingTable_insert. case_bool_decide as Hid.
    { intros [= <- <-]. naive_solver. }
    destruct (KBucket_insert _ c) as [b r'] eqn:Hb. intros [= <- <-].
    pose proof (bo_nodup _ _ _ _ (rt_inv_bucket_for False True now t (c_id c) Ht)) as Hn.
    apply KBucket_insert_spec in Hb as (Hfull & Herr & Hok); [|done].
    split_and!.
    + destruct r' as [|e]; [naive_solver|]. destruct (Herr eq_refl) as [-> _]. naive_solver.
    + rewrite Hfull. unfold rt_lookup. naive_solver.
    + intros Hr. rewrite (proj2 (Herr Hr)). by eapply put_bucket_same.
    + intros Hr. destruct (Hok Hr) as [Hc Ho].
      destruct (rt_lookup_put_one now t (c_id c) b Ht Ho) as [-> ?]. done.
  - intros id. by apply rt_lookup_mark_seen.
  - intros id t' r. unfold RoutingTable_remove.
    destruct (KBucket_remove _ id) as [b r'] eqn:Hb. intros [= <- <-].
    apply KBucket_remove_spec in Hb as (Hc & -> & Ho);
      [|apply (bo_nodup _ _ _ _ (rt_inv_bucket_for False True now t id Ht))].
    destruct (rt_lookup_put_one now t id b Ht Ho) as [-> ?]. done.
Qed.

(** ** Closest contacts *)

Lemma closer_or_equal_distance target a b :
  node_ok target → node_ok (c_id a) → node_ok (c_id b) →
  closer_or_equal target a b = true ↔
    node_distance (c_id a) target ≤ node_distance (c_id b) target.
Proof.
  intros Ht Ha Hb. unfold closer_or_equal, bytes_leb, node_distance.
  rewrite !xor_distance_zip by done.
  destruct (node_bytes_ok _ Ht) as [Hlt Hbt], (node_bytes_ok _ Ha) as [Hla Hba],
    (node_bytes_ok _ Hb) as [Hlb Hbb].
  rewrite bytes_cmp_be_value; [|by rewrite !length_zip_with, Hla, Hlb|by apply zip_lxor_ok..].
  rewrite <- N.compare_le_iff. by destruct (_ ?= _).
Qed.

(** The [k] first of a list sorted by distance are [k] nearest ones. *)
Lemma take_sort_nearest target k (l : list Contact) :
  node_ok target → (∀ c, c ∈ l → node_ok (c_id c)) →
  let result := take k (sort_by (closer_or_equal target) l) in
  ∃ rest, result ++ rest ≡ₚ l ∧
    length result = Nat.min k (length l) ∧
    StronglySorted N.le ((λ c, node_distance (c_id c) target) <$> result) ∧
    ∀ c d, c ∈ result → d ∈ rest →
      node_distance (c_id c) target ≤ node_distance (c_id d) target.
Proof.
  intros Htg Hall result.
  set (sorted := sort_by (closer_or_equal target) l).
  assert (StronglySorted (λ a b, closer_or_equal target a b = true) sorted) as Hs.
  { apply sort_by_sorted; [intros; apply bytes_leb_total|intros ???; apply bytes_leb_trans]. }
  assert (∀ c, c ∈ sorted → node_ok (c_id c)) as Hok.
  { intros c Hc%elem_of_sort_by. by apply Hall. }
  exists (drop k sorted). change result with (take k sorted). split_and!.
  - rewrite take_drop. apply sort_by_perm.
  - rewrite length_take. unfold sorted. by rewrite length_sort_by.
  - apply StronglySorted_fmap_elem with (R := λ a b, closer_or_equal target a b = true).
    + intros x y Hx Hy. apply closer_or_equal_distance; [done|..];
        by eapply Hok, elem_of_take_in.
    + rewrite <- (take_drop k sorted) in Hs. by eapply StronglySorted_app_1_l.
  - intros c d Hc Hd. apply closer_or_equal_distance; [done|..].
    + by eapply Hok, elem_of_take_in.
    + by eapply Hok, elem_of_drop_in.
    + by eapply (take_drop_sorted (λ a b, closer_or_equal target a b = true)).
Qed.

(** [RoutingTable::closest] returns the [k] known contacts nearest to the
    target: the result holds [min k n] of the [n] contacts other than the local
    node, in order of XOR distance, and every contact left out is at least as far
    as every contact returned. *)
Theorem closest_spec t target k :
  node_ok target → (∀ c, c ∈ RoutingTable_all_contacts t → node_ok (c_id c)) →
  let eligible := filter (λ c, c_id c ≠ rt_local_id t) (RoutingTable_all_contacts t) in
  let result := RoutingTable_closest t target k in
  ∃ rest, result ++ rest ≡ₚ eligible ∧
    length result = Nat.min k (length eligible) ∧
    StronglySorted N.le ((λ c, node_distance (c_id c) target) <$> result) ∧
    ∀ c d, c ∈ result → d ∈ rest →
      node_distance (c_id c) target ≤ node_distance (c_id d) target.
Proof.
  intros Htg Hall. apply take_sort_nearest; [done|].
  intros c [_ Hc]%list_elem_of_filter. by apply Hall.
Qed.

(** ** Removal of dead contacts *)

Lemma rt_lookup_Some now t id c :
  rt_inv now t →
  rt_lookup t id = Some c ↔
    c_id c = id ∧ c ∈ kb_contacts (RoutingTable_bucket_for t id).
Proof.
  intros Ht. unfold rt_lookup, KBucket_find. fold (find_contact id).
  pose proof (bo_nodup _ _ _ _ (rt_inv_bucket_for False True now t id Ht)) as Hn.
  change (find_contact id (kb_contacts (RoutingTable_bucket_for t id)) = Some c ↔
    c_id c = id ∧ c ∈ kb_contacts (RoutingTable_bucket_for t id)).
  rewrite find_contact_Some by done. naive_solver.
Qed.

Lemma rt_lookup_remove_dead now t id :
  rt_inv now t →
  rt_lookup (RoutingTable_remove_dead_contacts now t).1 id =
    match rt_lookup t id with
    | Some c => if Contact_is_alive now (rt_contact_timeout t) c then Some c else None
    | None => None
    end.
Proof.
  intros Ht. change (RoutingTable_remove_dead_contacts now t).1 with
    (set_buckets t ((remove_dead_bucket now (rt_contact_timeout t) <$> rt_buckets t).*1)).
  assert (rt_inv now (set_buckets t
    ((remove_dead_bucket now (rt_contact_timeout t) <$> rt_buckets t).*1))) as Ht'.
  { apply (rt_inv_step False True (t, now)
      ((RoutingTable_remove_dead_contacts now t).1, now)); [constructor|done]. }
  apply option_eq. intros c.
  rewrite (rt_lookup_Some now _ id c Ht').
  pose proof (rt_bucket_for_lookup False True now t id Ht) as Hb.
  assert (RoutingTable_bucket_for (set_buckets t
      ((remove_dead_bucket now (rt_contact_timeout t) <$> rt_buckets t).*1)) id =
    (remove_dead_bucket now (rt_contact_timeout t) (RoutingTable_bucket_for t id)).1) as ->.
  { unfold RoutingTable_bucket_for at 1.
    change (bucket_pos (set_buckets t _) id) with (bucket_pos t id).
    cbn [rt_buckets set_buckets]. by rewrite !list_lookup_fmap, Hb. }
  rewrite remove_dead_bucket_filter
    by apply (bo_nodup _ _ _ _ (rt_inv_bucket_for False True now t id Ht)).
  rewrite list_elem_of_filter. pose proof (rt_lookup_Some now t id c Ht) as Hc.
  split.
  + intros (Hid & Hal & Hin). rewrite (proj2 Hc) by done. by rewrite Hal.
  + destruct (rt_lookup t id) as [c'|] eqn:Hl; [|done].
    destruct (Contact_is_alive now _ c') eqn:Hal; [|done]. naive_solver.
Qed.

(** [remove_dead_contacts] drops exactly the contacts whose [last_seen] is at
    least [contact_timeout] ago, keeps every other lookup, and returns exactly the
    identifiers it dropped; bootstrap nodes stay. *)
Theorem remove_dead_contacts_spec now t t' ids :
  rt_inv now t → RoutingTable_remove_dead_contacts now t = (t', ids) →
  (∀ id, rt_lookup t' id =
     match rt_lookup t id with
     | Some c => if Contact_is_alive now (rt_contact_timeout t) c then Some c else None
     | None => None
     end) ∧
  (∀ id, id ∈ ids ↔ ∃ c, rt_lookup t id = Some c ∧
     Contact_is_alive now (rt_contact_timeout t) c = false) ∧
  rt_bootstrap_nodes t' = rt_bootstrap_nodes t.
Proof.
  intros Ht [= <- <-].
  split_and!; [|intros id; split|done].
  - intros id. by apply (rt_lookup_remove_dead now t id).
  - rewrite <- list_fmap_compose, elem_of_concat_fmap. intros (b & Hb & Hin). simpl in Hin.
    apply list_elem_of_fmap in Hin as (c & -> & [Hal Hc]%list_elem_of_filter).
    exists c. split; [|done]. apply (rt_lookup_Some now); [done|]. split; [done|].
    apply list_elem_of_lookup in Hb as [i Hb].
    pose proof (bo_ids _ _ _ _ (ri_buckets _ _ _ _ Ht i b Hb)) as Hids.
    rewrite Forall_forall in Hids. destruct (Hids (c_id c)) as [_ Hi]; [by apply list_elem_of_fmap_2|done|].
    rewrite <- bucket_pos_index in Hi. pose proof (rt_bucket_for_lookup False True now t (c_id c) Ht) as Hb'.
    rewrite Hi in Hb'. congruence.
  - intros (c & Hc & Hal). apply (rt_lookup_Some now) in Hc as [<- Hc]; [|done].
    rewrite <- list_fmap_compose, elem_of_concat_fmap. exists (RoutingTable_bucket_for t (c_id c)). split.
    + eapply list_elem_of_lookup_2. by eapply rt_bucket_for_lookup.
    + simpl. apply list_elem_of_fmap_2. by apply list_elem_of_filter.
Qed.
End TableTheorems.

(** ** Witnesses *)

Definition wit_addr : SocketAddr := mkSocketAddr (IpV4 2130706433) 4001.
Definition wit_table : RoutingTable :=
  (RoutingTable_insert (RoutingTable_new 5 (id_of_byte 1)) (Contact_new 5 (id_of_byte 2) wit_addr)).1.

Lemma wit_table_reachable : rtc (rt_step True True) (RoutingTable_new 5 (id_of_byte 1), 5) (wit_table, 5).
Proof. apply rtc_once. by apply (step_insert True True _ 5 (Contact_new 5 (id_of_byte 2) wit_addr)). Qed.

Lemma wit_table_inv : rt_inv 5 wit_table.
Proof. apply (rt_inv_insert False True 5); [done|]. apply rt_inv_new. Qed.

Lemma bucket_index_log2_witness :
  bucket_index (id_of_byte 1) (id_of_byte 2) =
    Nat.min (256 - N.to_nat (N.log2 (node_distance (id_of_byte 1) (id_of_byte 2)))) 255 ∧
  bucket_index (id_of_byte 1) (id_of_byte 2) = 7%nat.
Proof.
  split; [|vm_compute; reflexivity].
  exact (proj1 (proj2 (bucket_index_log2 (id_of_byte 1) (id_of_byte 2) (id_of_byte 4)
    (id_of_byte_ok 1 eq_refl) (id_of_byte_ok 2 eq_refl) (id_of_byte_ok 4 eq_refl)))).
Defined.

Lemma routing_table_invariant_witness :
  let i := bucket_index (id_of_byte 1) (id_of_byte 2) in
  ∃ b, rt_buckets wit_table !! i = Some b ∧ (c_id <$> kb_contacts b) = [id_of_byte 2] ∧ (length (kb_contacts b) ≤ KBUCKET_SIZE)%nat ∧
    Forall (λ c, bucket_index (id_of_byte 1) (c_id c) = i) (kb_contacts b) ∧ StronglySorted N.le (c_last_seen <$> kb_contacts b).
Proof.
  intros i. destruct (rt_buckets wit_table !! i) as [b|] eqn:Hb; [|vm_compute in Hb; discriminate].
  destruct (proj2 (routing_table_invariant True True (id_of_byte 1) 5 wit_table 5 wit_table_reachable) i b Hb) as (Hlen & _ & Hin & Hso).
  exists b. split; [reflexivity|]. split; [vm_compute in Hb; injection Hb as <-; vm_compute; reflexivity|].
  split; [exact Hlen|]. split; [apply Forall_forall; intros c Hc; exact (proj2 (Hin I c Hc))|exact (Hso I)].
Defined.

Lemma routing_table_refines_map_witness :
  rt_lookup (RoutingTable_mark_seen 5 wit_table (id_of_byte 2)) (id_of_byte 2) =
  Contact_mark_seen 5 <$> rt_lookup wit_table (id_of_byte 2).
Proof.
  exact (proj1 (proj1 (proj2 (routing_table_refines_map 5 wit_table wit_table_inv)) (id_of_byte 2))).
Defined.

Lemma closest_spec_witness :
  ∃ rest, RoutingTable_closest wit_table (id_of_byte 4) 3 ++ rest ≡ₚ
    filter (λ c, c_id c ≠ rt_local_id wit_table) (RoutingTable_all_contacts wit_table).
Proof.
  destruct (closest_spec wit_table (id_of_byte 4) 3) as (rest & H & _).
  - by apply id_of_byte_ok.
  - intros c Hc.
    assert (RoutingTable_all_contacts wit_table = [Contact_new 5 (id_of_byte 2) wit_addr]) as Hr
      by (vm_compute; reflexivity).
    rewrite Hr in Hc. apply list_elem_of_singleton in Hc as ->. by apply id_of_byte_ok.
  - exists rest. exact H.
Defined.

Lemma remove_dead_contacts_spec_witness :
  id_of_byte 2 ∈ (RoutingTable_remove_dead_contacts (secs 700) wit_table).2.
Proof.
  assert (rt_inv (secs 700) wit_table) as Hinv.
  { apply (rt_inv_step False True (wit_table, 5) (wit_table, secs 700)); [|exact wit_table_inv].
    by constructor. }
  apply (remove_dead_contacts_spec (secs 700) wit_table
    (RoutingTable_remove_dead_contacts (secs 700) wit_table).1
    (RoutingTable_remove_dead_contacts (secs 700) wit_table).2 Hinv eq_refl).
  exists (Contact_new 5 (id_of_byte 2) wit_addr). split; vm_compute; reflexivity.
Defined.
