(* ===== verification/FwRule.v ===== *)
(** * Firewall rules ([crates/a3net-mesh-firewall/src/rule.rs])

    The rule language of the mesh firewall: directions, protocol and port
    filters, peer scopes, rules, and the ordered [RuleSet] with its dense
    identifiers. Ports are below [2^16] and protocol numbers below [2^8]. *)
From stdpp Require Import prelude strings gmap list.
From Stdlib Require Import NArith Lia Ascii.
From Stdlib Require String.
From S2P Require Import Prelude NodeId.

#[local] Open Scope N_scope.

Definition MAX_RULES : nat := 1024%nat.

Inductive Direction : Type := In_ | Out_.

Inductive ProtoSpec : Type := Proto_Icmp | Proto_Tcp | Proto_Udp | Proto_Any.

Definition ProtoSpec_matches (self : ProtoSpec) (proto : N) : bool :=
  match self with
  | Proto_Any => true
  | Proto_Icmp => (proto =? 1) || (proto =? 58)
  | Proto_Tcp => proto =? 6
  | Proto_Udp => proto =? 17
  end.

Inductive PortSpec : Type :=
| Port_Any
| Port_Single (p : N)
| Port_Range (lo hi : N).

Record PortRangeError : Type := mkPortRangeError { pre_lo : N; pre_hi : N }.

Definition PortSpec_range (lo hi : N) : result PortRangeError PortSpec :=
  if hi <? lo then Err (mkPortRangeError lo hi) else Ok (Port_Range lo hi).

Definition PortSpec_is_valid (self : PortSpec) : bool :=
  match self with
  | Port_Range lo hi => lo <=? hi
  | _ => true
  end.

Definition PortSpec_matches (self : PortSpec) (port : N) : bool :=
  match self with
  | Port_Any => true
  | Port_Single p => p =? port
  | Port_Range lo hi => if lo <=? hi then (lo <=? port) && (port <=? hi) else false
  end.

Definition PortSpec_is_any (self : PortSpec) : bool :=
  match self with Port_Any => true | _ => false end.

Inductive Action : Type := Act_Allow | Act_Deny.

(** The [Display] implementations. *)
Definition Direction_fmt (d : Direction) : string :=
  match d with In_ => "in" | Out_ => "out" end.
Definition ProtoSpec_fmt (p : ProtoSpec) : string :=
  match p with
  | Proto_Any => "any" | Proto_Icmp => "icmp" | Proto_Tcp => "tcp" | Proto_Udp => "udp"
  end.
Definition PortSpec_fmt (p : PortSpec) : string :=
  match p with
  | Port_Any => "any"
  | Port_Single p => show_N p
  | Port_Range lo hi => String.append (show_N lo) (String.append ".." (show_N hi))
  end.
Definition Action_fmt (a : Action) : string :=
  match a with Act_Allow => "allow" | Act_Deny => "deny" end.

#[global] Instance Direction_eq_dec : EqDecision Direction.
Proof. solve_decision. Defined.
#[global] Instance ProtoSpec_eq_dec : EqDecision ProtoSpec.
Proof. solve_decision. Defined.
#[global] Instance PortSpec_eq_dec : EqDecision PortSpec.
Proof. solve_decision. Defined.
#[global] Instance Action_eq_dec : EqDecision Action.
Proof. solve_decision. Defined.

(** [PeerSpec(None)] is any peer. *)
Definition PeerSpec : Type := option NodeId.
Definition PeerSpec_any : PeerSpec := None.
Definition PeerSpec_is_node (self : PeerSpec) (node : NodeId) : bool :=
  match self with
  | None => true
  | Some p => bool_decide (p = node)
  end.

(** [RuleId(u64)]; [from_index] casts a [usize]. *)
Definition RuleId : Type := N.
Definition RuleId_from_index (i : nat) : RuleId := N.of_nat i.

Record Rule : Type := mkRule {
  r_id : RuleId;
  r_direction : Direction;
  r_action : Action;
  r_proto : ProtoSpec;
  r_port : PortSpec;
  r_peer : PeerSpec
}.

Definition set_rule_id (id : RuleId) (r : Rule) : Rule :=
  {| r_id := id; r_direction := r_direction r; r_action := r_action r; r_proto := r_proto r;
     r_port := r_port r; r_peer := r_peer r |}.

Definition Rule_allow (direction : Direction) (proto : ProtoSpec) (port : PortSpec) : Rule :=
  {| r_id := RuleId_from_index 0; r_direction := direction; r_action := Act_Allow;
     r_proto := proto; r_port := port; r_peer := PeerSpec_any |}.

Definition Rule_with_peer (r : Rule) (peer : NodeId) : Rule :=
  {| r_id := r_id r; r_direction := r_direction r; r_action := r_action r; r_proto := r_proto r;
     r_port := r_port r; r_peer := Some peer |}.

Definition Rule_matches (r : Rule) (direction : Direction) (proto port : N) (peer : NodeId)
    (_src : IpAddr) : bool :=
  bool_decide (r_direction r = direction) && ProtoSpec_matches (r_proto r) proto
  && PortSpec_matches (r_port r) port && PeerSpec_is_node (r_peer r) peer.

(** ** Rule sets *)

Record RuleSet : Type := mkRuleSet { rs_rules : list Rule }.

Definition RuleSet_new : RuleSet := mkRuleSet [].

Definition RuleSet_push (s : RuleSet) (rule : Rule) : RuleSet * bool :=
  if Nat.leb MAX_RULES (length (rs_rules s)) then (s, false)
  else (mkRuleSet (rs_rules s ++ [set_rule_id (RuleId_from_index (length (rs_rules s))) rule]), true).

Definition RuleSet_len (s : RuleSet) : nat := length (rs_rules s).
Definition RuleSet_is_empty (s : RuleSet) : bool := Nat.eqb (length (rs_rules s)) 0.
Definition RuleSet_clear (s : RuleSet) : RuleSet := mkRuleSet [].

Definition RuleSet_remove (s : RuleSet) (id : RuleId) : RuleSet * bool :=
  let before := length (rs_rules s) in
  let kept := filter (λ r, r_id r ≠ id) (rs_rules s) in
  let removed := negb (Nat.eqb (length kept) before) in
  if removed then (mkRuleSet (imap (λ i r, set_rule_id (RuleId_from_index i) r) kept), true)
  else (mkRuleSet kept, false).

(** ** The rule-set invariant *)

(** Dense identifiers: the rule at position [i] has identifier [i]; bounded. *)
Record ruleset_ok (s : RuleSet) : Prop := {
  rs_bound : (length (rs_rules s) ≤ MAX_RULES)%nat;
  rs_dense i r : rs_rules s !! i = Some r → r_id r = N.of_nat i
}.

Lemma ruleset_ok_new : ruleset_ok RuleSet_new.
Proof. split; simpl; [unfold MAX_RULES; lia|done]. Qed.

Lemma ruleset_ok_push s r : ruleset_ok s → ruleset_ok (RuleSet_push s r).1.
Proof.
  intros [Hb Hd]. unfold RuleSet_push.
  ncase; [done|]. split; cbn [fst rs_rules].
  - rewrite length_app. simpl. lia.
  - intros i r' [Hi|[Hi Hr]]%lookup_app_Some; [by apply Hd|].
    destruct (i - length (rs_rules s))%nat as [|k] eqn:Hk; [|done].
    simpl in Hr. simplify_eq. simpl. unfold RuleId_from_index. lia.
Qed.

Lemma ruleset_ok_remove s id : ruleset_ok s → ruleset_ok (RuleSet_remove s id).1.
Proof.
  intros [Hb Hd]. unfold RuleSet_remove.
  set (kept := filter (λ r, r_id r ≠ id) (rs_rules s)).
  assert (length kept ≤ length (rs_rules s))%nat by apply length_filter.
  destruct (Nat.eqb_spec (length kept) (length (rs_rules s))) as [He|He]; cbn [negb fst].
  - assert (kept = rs_rules s) as ->; [|done].
    apply filter_same_length; done.
  - split; cbn [rs_rules]; [rewrite length_imap; lia|].
    intros i r (r' & _ & ->)%list_lookup_imap_Some. done.
Qed.

#[export] Hint Resolve ruleset_ok_new ruleset_ok_push ruleset_ok_remove : adnet.

(** Removing a rule of a dense set removes the one at that position and shifts
    the rest. *)
Lemma filter_dense_ids (l : list Rule) k i :
  (∀ j r, l !! j = Some r → r_id r = N.of_nat (k + j)) → (i < length l)%nat →
  filter (λ r, r_id r ≠ N.of_nat (k + i)) l = delete i l.
Proof.
  revert k i. induction l as [|x l IH]; intros k i Hd Hi; simpl in Hi; [lia|].
  rewrite filter_cons. pose proof (Hd 0%nat x eq_refl) as Hx. rewrite Nat.add_0_r in Hx.
  destruct i as [|i].
  - rewrite decide_False by (rewrite Nat.add_0_r; naive_solver). simpl. apply filter_all.
    intros r [j Hj]%list_elem_of_lookup. specialize (Hd (S j) r Hj). lia.
  - rewrite decide_True by lia. simpl. f_equal. rewrite <- (IH (S k)) by
      (lia || (intros j r Hj; specialize (Hd (S j) r Hj); lia)).
    apply list_filter_iff. intros r. by rewrite Nat.add_succ_r.
Qed.

(** Rules up to their identifier. *)
Definition rule_body (r : Rule) : Rule := set_rule_id 0 r.

Lemma rule_body_imap (l : list Rule) :
  rule_body <$> imap (λ i r, set_rule_id (RuleId_from_index i) r) l = rule_body <$> l.
Proof.
  apply list_eq. intros i. rewrite !list_lookup_fmap, list_lookup_imap. by destruct (l !! i).
Qed.

Lemma RuleSet_push_spec s r :
  ((RuleSet_push s r).2 = true ↔ (length (rs_rules s) < MAX_RULES)%nat) ∧
  ((RuleSet_push s r).2 = true →
     rule_body <$> rs_rules (RuleSet_push s r).1 = (rule_body <$> rs_rules s) ++ [rule_body r]).
Proof.
  unfold RuleSet_push. destruct (Nat.leb_spec MAX_RULES (length (rs_rules s))); cbn [fst snd].
  - split; [split; [done|lia]|done].
  - split; [done|]. intros _. cbn [rs_rules]. by rewrite fmap_app.
Qed.

Lemma RuleSet_remove_in s id :
  ruleset_ok s → (N.to_nat id < length (rs_rules s))%nat →
  filter (λ r, r_id r ≠ id) (rs_rules s) = delete (N.to_nat id) (rs_rules s).
Proof.
  intros Hs Hi. rewrite <- (filter_dense_ids (rs_rules s) 0 (N.to_nat id)) by
    (done || apply (rs_dense _ Hs)).
  apply list_filter_iff. intros r. simpl. by rewrite N2Nat.id.
Qed.

Lemma RuleSet_remove_out s id :
  ruleset_ok s → ¬ (N.to_nat id < length (rs_rules s))%nat →
  filter (λ r, r_id r ≠ id) (rs_rules s) = rs_rules s.
Proof.
  intros Hs Hi. apply filter_all. intros r [i Hr]%list_elem_of_lookup.
  rewrite (rs_dense _ Hs _ _ Hr). apply lookup_lt_Some in Hr. lia.
Qed.

Lemma RuleSet_remove_spec s id :
  ruleset_ok s →
  ((RuleSet_remove s id).2 = true ↔ (N.to_nat id < length (rs_rules s))%nat) ∧
  ((RuleSet_remove s id).2 = true →
     rule_body <$> rs_rules (RuleSet_remove s id).1 = delete (N.to_nat id) (rule_body <$> rs_rules s)) ∧
  ((RuleSet_remove s id).2 = false → (RuleSet_remove s id).1 = s).
Proof.
  intros Hs. unfold RuleSet_remove.
  destruct (decide (N.to_nat id < length (rs_rules s))%nat) as [Hi|Hi].
  - rewrite RuleSet_remove_in by done.
    assert (length (delete (N.to_nat id) (rs_rules s)) ≠ length (rs_rules s)) as Hl%Nat.eqb_neq.
    { rewrite length_delete by (by apply lookup_lt_is_Some_2). lia. }
    rewrite Hl. cbn [negb fst snd rs_rules]. split; [done|]. split; [|done]. intros _.
    by rewrite rule_body_imap, list_fmap_delete.
  - rewrite RuleSet_remove_out by done. rewrite Nat.eqb_refl. cbn [negb fst snd].
    split; [split; [done|lia]|]. split; [done|]. by destruct s.
Qed.

(** [RuleSet]: every set built by [push], [remove] and [clear] has at most
    [MAX_RULES] rules whose identifiers are their positions; [push] appends
    unless the set is full, and [remove] of an identifier in range deletes the
    rule at that position, keeping the others in order, while an unknown
    identifier leaves the set as it is. *)
Theorem ruleset_dense s r id :
  ruleset_ok s →
  ruleset_ok (RuleSet_push s r).1 ∧ ruleset_ok (RuleSet_remove s id).1 ∧
  ruleset_ok (RuleSet_clear s) ∧
  ((RuleSet_push s r).2 = true ↔ (length (rs_rules s) < MAX_RULES)%nat) ∧
  ((RuleSet_push s r).2 = true →
     rule_body <$> rs_rules (RuleSet_push s r).1 = (rule_body <$> rs_rules s) ++ [rule_body r]) ∧
  ((RuleSet_remove s id).2 = true ↔ (N.to_nat id < length (rs_rules s))%nat) ∧
  ((RuleSet_remove s id).2 = true →
     rule_body <$> rs_rules (RuleSet_remove s id).1 = delete (N.to_nat id) (rule_body <$> rs_rules s)) ∧
  ((RuleSet_remove s id).2 = false → (RuleSet_remove s id).1 = s).
Proof.
  intros Hs. split_and!.
  all: first [step_ok | apply RuleSet_push_spec | by apply RuleSet_remove_spec].
Qed.

Definition wit_rule : Rule := Rule_allow In_ Proto_Tcp (Port_Single 22).

Lemma ruleset_dense_witness :
  ruleset_ok (RuleSet_push RuleSet_new wit_rule).1 ∧
  (RuleSet_remove (RuleSet_push RuleSet_new wit_rule).1 0).2 = true.
Proof.
  assert (ruleset_ok (RuleSet_push RuleSet_new wit_rule).1) as H.
  { exact (proj1 (ruleset_dense RuleSet_new wit_rule 0 ruleset_ok_new)). }
  split; [exact H|]. vm_compute. reflexivity.
Defined.
