(* ===== verification/ConnTrack.v ===== *)
(** * Connection tracking ([crates/a3net-mesh-firewall/src/conntrack.rs])

    The tracker's [HashMap] is a [gmap]; the order in which [values_mut] visits
    it is unspecified, so it is the argument [iter] of [lookup_inbound], a
    function from maps to the list of their bindings in some order ([iter_ok]).
    The clock is the argument [now]. *)
From stdpp Require Import prelude strings gmap list.
From Stdlib Require Import NArith Lia.
From S2P Require Import Prelude NodeId FwRule.

#[local] Open Scope N_scope.

Inductive ConnProto : Type := Conn_Tcp | Conn_Udp.

#[global] Instance ConnProto_eq_dec : EqDecision ConnProto.
Proof. solve_decision. Defined.
#[global] Instance ConnProto_countable : Countable ConnProto.
Proof.
  apply (inj_countable' (λ p, match p with Conn_Tcp => true | Conn_Udp => false end)
    (λ b : bool, if b then Conn_Tcp else Conn_Udp)); by intros [].
Defined.

Definition ConnProto_as_u8 (p : ConnProto) : N :=
  match p with Conn_Tcp => 6 | Conn_Udp => 17 end.

Definition ConnProto_from_proto_spec (p : ProtoSpec) : option ConnProto :=
  match p with
  | Proto_Tcp => Some Conn_Tcp
  | Proto_Udp => Some Conn_Udp
  | _ => None
  end.

Record ConnKey : Type := mkConnKey {
  ck_proto : ConnProto;
  ck_peer : NodeId;
  ck_peer_port : N;
  ck_local_port : N;
  ck_peer_addr : SocketAddr
}.

#[global] Instance ConnKey_eq_dec : EqDecision ConnKey.
Proof. solve_decision. Defined.
#[global] Instance ConnKey_countable : Countable ConnKey.
Proof.
  apply (inj_countable'
    (λ k, (ck_proto k, ck_peer k, ck_peer_port k, ck_local_port k, ck_peer_addr k))
    (λ '(a, b, c, d, e), mkConnKey a b c d e)); by intros [].
Defined.

Record ConnEntry : Type := mkConnEntry {
  ce_key : ConnKey;
  ce_direction : Direction;
  ce_opened_at : N;
  ce_last_seen : N
}.

Definition touch (now : N) (e : ConnEntry) : ConnEntry :=
  {| ce_key := ce_key e; ce_direction := ce_direction e; ce_opened_at := ce_opened_at e;
     ce_last_seen := now |}.

Record ConnTrackerConfig : Type := mkConnTrackerConfig {
  ctc_idle_timeout : N;
  ctc_max_entries : nat
}.

(** Seconds, with the clock in nanoseconds. *)
Definition DEFAULT_CONN_TIMEOUT : N := 300 * 1000000000.
Definition MAX_CONN_ENTRIES : nat := 4096%nat.

Definition ConnTrackerConfig_default : ConnTrackerConfig :=
  {| ctc_idle_timeout := DEFAULT_CONN_TIMEOUT; ctc_max_entries := MAX_CONN_ENTRIES |}.

Inductive ConnTrackerError : Type := Full (max : nat).

Record ConnTracker : Type := mkConnTracker {
  ct_entries : gmap ConnKey ConnEntry;
  ct_config : ConnTrackerConfig
}.

Record InboundProbe : Type := mkInboundProbe {
  ip_proto : ConnProto;
  ip_peer : NodeId;
  ip_peer_port : N
}.

Definition set_entries (t : ConnTracker) (m : gmap ConnKey ConnEntry) : ConnTracker :=
  mkConnTracker m (ct_config t).

Definition ConnTracker_new (config : ConnTrackerConfig) : ConnTracker := mkConnTracker ∅ config.

Definition ConnTracker_open_outbound (now : N) (t : ConnTracker) (proto : ConnProto) (peer : NodeId)
    (peer_port : N) (peer_addr : SocketAddr) (local_port : N)
  : ConnTracker * result ConnTrackerError unit :=
  let key := mkConnKey proto peer peer_port local_port peer_addr in
  if bool_decide (ct_entries t !! key = None)
     && Nat.leb (ctc_max_entries (ct_config t)) (size (ct_entries t))
  then (t, Err (Full (ctc_max_entries (ct_config t))))
  else (set_entries t (<[key := mkConnEntry key Out_ now now]> (ct_entries t)), Ok tt).

(** [now.duration_since(entry.last_seen) > idle_timeout]. *)
Definition entry_expired (now : N) (t : ConnTracker) (e : ConnEntry) : bool :=
  ctc_idle_timeout (ct_config t) <? elapsed now (ce_last_seen e).

Definition ConnTracker_lookup (now : N) (t : ConnTracker) (key : ConnKey) : ConnTracker * bool :=
  match ct_entries t !! key with
  | Some e =>
      if entry_expired now t e then (set_entries t (delete key (ct_entries t)), false)
      else (set_entries t (<[key := touch now e]> (ct_entries t)), true)
  | None => (t, false)
  end.

Definition probe_matches (probe : InboundProbe) (e : ConnEntry) : bool :=
  bool_decide (ck_proto (ce_key e) = ip_proto probe)
  && (ck_peer_port (ce_key e) =? ip_peer_port probe)
  && bool_decide (ck_peer (ce_key e) = ip_peer probe).

(** The loop of [lookup_inbound] over the bindings still to visit. *)
Fixpoint lookup_inbound_scan (now : N) (t : ConnTracker) (probe : InboundProbe)
    (bindings : list (ConnKey * ConnEntry)) : ConnTracker * bool :=
  match bindings with
  | [] => (t, false)
  | (k, e) :: rest =>
      if probe_matches probe e then
        if entry_expired now t e
        then (set_entries t (delete (ce_key e) (ct_entries t)), false)
        else (set_entries t (<[k := touch now e]> (ct_entries t)), true)
      else lookup_inbound_scan now t probe rest
  end.

Definition ConnTracker_lookup_inbound
    (iter : gmap ConnKey ConnEntry → list (ConnKey * ConnEntry))
    (now : N) (t : ConnTracker) (probe : InboundProbe) : ConnTracker * bool :=
  lookup_inbound_scan now t probe (iter (ct_entries t)).

Definition ConnTracker_close (t : ConnTracker) (key : ConnKey) : ConnTracker * bool :=
  (set_entries t (delete key (ct_entries t)), bool_decide (is_Some (ct_entries t !! key))).

Definition ConnTracker_len (t : ConnTracker) : nat := size (ct_entries t).
Definition ConnTracker_is_empty (t : ConnTracker) : bool := Nat.eqb (size (ct_entries t)) 0.

Definition ConnTracker_snapshot (iter : gmap ConnKey ConnEntry → list (ConnKey * ConnEntry))
    (t : ConnTracker) : list (ConnKey * Direction * N) :=
  (λ p, (ce_key p.2, ce_direction p.2, ce_last_seen p.2)) <$> iter (ct_entries t).

Definition ConnTracker_sweep (now : N) (t : ConnTracker) : ConnTracker * nat :=
  let before := size (ct_entries t) in
  let kept := filter (λ p, entry_expired now t p.2 = false) (ct_entries t) in
  (set_entries t kept, (before - size kept)%nat).

(** ** Invariant *)

(** A visiting order lists every binding once. *)
Definition iter_ok (iter : gmap ConnKey ConnEntry → list (ConnKey * ConnEntry)) : Prop :=
  ∀ m, iter m ≡ₚ map_to_list m.

Record tracker_ok (t : ConnTracker) : Prop := {
  to_bound : (size (ct_entries t) ≤ ctc_max_entries (ct_config t))%nat;
  to_keys k e : ct_entries t !! k = Some e → ce_key e = k
}.

Lemma tracker_ok_new config : tracker_ok (ConnTracker_new config).
Proof. split; simpl; [rewrite map_size_empty; lia|done]. Qed.

Lemma tracker_ok_delete t k : tracker_ok t → tracker_ok (set_entries t (delete k (ct_entries t))).
Proof.
  intros [Hb Hk]. split; simpl.
  - rewrite map_size_delete. destruct (ct_entries t !! k); simpl; lia.
  - intros k' e [_ He]%lookup_delete_Some. eauto.
Qed.

Lemma tracker_ok_touch now t k e :
  ct_entries t !! k = Some e → tracker_ok t →
  tracker_ok (set_entries t (<[k := touch now e]> (ct_entries t))).
Proof.
  intros He [Hb Hk]. split; simpl.
  - by rewrite map_size_insert, He.
  - intros k' e' [[<- <-]|[_ He']]%lookup_insert_Some; simpl; eauto.
Qed.

Lemma lookup_inbound_scan_cases now t probe bs :
  lookup_inbound_scan now t probe bs = (t, false) ∧ Forall (λ p, probe_matches probe p.2 = false) bs ∨
  ∃ k e, (k, e) ∈ bs ∧ probe_matches probe e = true ∧
    lookup_inbound_scan now t probe bs =
      if entry_expired now t e then (set_entries t (delete (ce_key e) (ct_entries t)), false)
      else (set_entries t (<[k := touch now e]> (ct_entries t)), true).
Proof.
  induction bs as [|[k e] bs IH]; simpl; [by left|].
  destruct (probe_matches probe e) eqn:Hm.
  - right. exists k, e. split_and!; [by left|done|done].
  - destruct IH as [[-> Hf]|(k' & e' & Hin & Hm' & ->)].
    + left. by split; [|constructor].
    + right. exists k', e'. split_and!; [by right|done|done].
Qed.

Lemma tracker_ok_open now t proto peer port addr lport :
  tracker_ok t → tracker_ok (ConnTracker_open_outbound now t proto peer port addr lport).1.
Proof.
  intros Ht. unfold ConnTracker_open_outbound. case_bool_decide as Hn; simpl.
  - ncase; [done|].
    destruct Ht as [Hb Hk]. split; simpl; [by rewrite map_size_insert_None; [lia|]|].
    intros k' e [[<- <-]|[_ He]]%lookup_insert_Some; simpl; eauto.
  - destruct Ht as [Hb Hk]. split; simpl.
    + by apply not_eq_None_Some in Hn; rewrite map_size_insert_Some.
    + intros k' e [[<- <-]|[_ He]]%lookup_insert_Some; simpl; eauto.
Qed.

#[export] Hint Resolve tracker_ok_new tracker_ok_delete tracker_ok_touch tracker_ok_open : adnet.

Section TrackerTheorems.
Context (iter : gmap ConnKey ConnEntry → list (ConnKey * ConnEntry)) (Hiter : iter_ok iter).

Lemma iter_elem m k e : (k, e) ∈ iter m ↔ m !! k = Some e.
Proof. rewrite (Hiter m). apply elem_of_map_to_list. Qed.

Lemma tracker_ok_lookup_inbound now t probe :
  tracker_ok t → tracker_ok (ConnTracker_lookup_inbound iter now t probe).1.
Proof.
  intros Ht. unfold ConnTracker_lookup_inbound.
  destruct (lookup_inbound_scan_cases now t probe (iter (ct_entries t)))
    as [[-> _]|(k & e & Hin%iter_elem & _ & ->)]; [done|].
  destruct (entry_expired now t e); cbn [fst]; step_ok.
Qed.

#[local] Hint Resolve tracker_ok_lookup_inbound : adnet.

(** The connection table never holds more than [max_entries] entries and
    every entry is filed under its own key, whatever sequence of operations runs
    and in whatever order the table is visited: each of [open_outbound],
    [lookup], [lookup_inbound], [close] and [sweep] preserves it; a full table
    answers [Full] to a new key and stays unchanged. *)
Theorem tracker_bounded now t key probe proto peer port addr lport :
  tracker_ok t →
  tracker_ok (ConnTracker_open_outbound now t proto peer port addr lport).1 ∧
  tracker_ok (ConnTracker_lookup now t key).1 ∧
  tracker_ok (ConnTracker_lookup_inbound iter now t probe).1 ∧
  tracker_ok (ConnTracker_close t key).1 ∧
  tracker_ok (ConnTracker_sweep now t).1 ∧
  (size (ct_entries t) = ctc_max_entries (ct_config t) →
   ct_entries t !! mkConnKey proto peer port lport addr = None →
   ConnTracker_open_outbound now t proto peer port addr lport =
     (t, Err (Full (ctc_max_entries (ct_config t))))).
Proof.
  intros Ht. split_and!; [step_ok| |step_ok|by apply tracker_ok_delete|..].
  - unfold ConnTracker_lookup. destruct (ct_entries t !! key) as [e|] eqn:He; [|done].
    destruct (entry_expired now t e); step_ok.
  - destruct Ht as [Hb Hk]. split; simpl.
    + etrans; [|exact Hb]. apply map_subseteq_size, map_filter_subseteq.
    + intros k e [He _]%map_lookup_filter_Some. eauto.
  - intros Hs Hn. unfold ConnTracker_open_outbound.
    rewrite bool_decide_true by done. rewrite Hs, Nat.leb_refl. done.
Qed.

Lemma lookup_inbound_admits now t probe :
  (∀ k e, ct_entries t !! k = Some e → probe_matches probe e = true →
     entry_expired now t e = false) →
  (∃ k e, ct_entries t !! k = Some e ∧ probe_matches probe e = true) →
  (ConnTracker_lookup_inbound iter now t probe).2 = true.
Proof.
  unfold ConnTracker_lookup_inbound. intros Hlive (k & e & He & Hm).
  destruct (lookup_inbound_scan_cases now t probe (iter (ct_entries t)))
    as [[-> Hf]|(k' & e' & Hin%iter_elem & Hm' & ->)].
  - apply iter_elem in He. rewrite Forall_forall in Hf. specialize (Hf _ He). simpl in Hf. congruence.
  - by rewrite (Hlive k' e').
Qed.

(** Return traffic: [lookup_inbound] admits a packet only on an entry of the
    table with the same protocol, peer and port that has been idle for at most
    the timeout, and refreshes that entry; it admits every packet that has a
    matching entry when no matching entry has expired; and when an expired
    entry matches, the packet may be refused, but that entry is evicted. *)
Theorem lookup_inbound_spec now t probe t' r :
  ConnTracker_lookup_inbound iter now t probe = (t', r) →
  (r = true → ∃ k e, ct_entries t !! k = Some e ∧ probe_matches probe e = true ∧
     entry_expired now t e = false ∧
     ct_entries t' = <[k := touch now e]> (ct_entries t)) ∧
  (r = false → ct_entries t' = ct_entries t ∧
       (∀ k e, ct_entries t !! k = Some e → probe_matches probe e = false) ∨
     ∃ k e, ct_entries t !! k = Some e ∧ probe_matches probe e = true ∧
       entry_expired now t e = true ∧ ct_entries t' = delete (ce_key e) (ct_entries t)) ∧
  ((∀ k e, ct_entries t !! k = Some e → probe_matches probe e = true →
      entry_expired now t e = false) →
   (∃ k e, ct_entries t !! k = Some e ∧ probe_matches probe e = true) → r = true).
Proof.
  intros Hl. pose proof (lookup_inbound_admits now t probe) as Hadm. rewrite Hl in Hadm.
  revert Hl. unfold ConnTracker_lookup_inbound.
  destruct (lookup_inbound_scan_cases now t probe (iter (ct_entries t)))
    as [[-> Hf]|(k & e & Hin%iter_elem & Hm & ->)].
  - intros [= <- <-]. split_and!; [done|left|done]. split; [done|].
    intros k e He%iter_elem. rewrite Forall_forall in Hf. by apply (Hf (k, e)).
  - destruct (entry_expired now t e) eqn:Hx; intros [= <- <-].
    + split_and!; [done|intros _; right; by exists k, e|done].
    + split_and!; [|done|done]. intros _. by exists k, e.
Qed.
End TrackerTheorems.

(** ** Order dependence

    With two entries for the same protocol, peer and port, one expired and one
    live, the answer depends on which is visited first: the loop returns at the
    expired entry instead of going on to the next. *)

Definition ex_addr : SocketAddr := mkSocketAddr (IpV4 1684275201) 443.
Definition ex_key (local_port : N) : ConnKey :=
  mkConnKey Conn_Tcp (mkNodeId "peer") 443 local_port ex_addr.
Definition ex_tracker : ConnTracker :=
  mkConnTracker
    (<[ex_key 40000 := mkConnEntry (ex_key 40000) Out_ 0 0]>
       {[ex_key 40001 := mkConnEntry (ex_key 40001) Out_ 500 500]})
    (mkConnTrackerConfig 100 16).
Definition ex_probe : InboundProbe := mkInboundProbe Conn_Tcp (mkNodeId "peer") 443.

Lemma iter_ok_map_to_list : iter_ok map_to_list.
Proof. intros m. done. Qed.
Lemma iter_ok_reverse : iter_ok (λ m, reverse (map_to_list m)).
Proof. intros m. apply reverse_Permutation. Qed.

Theorem lookup_inbound_order_dependent :
  (∃ k e, ct_entries ex_tracker !! k = Some e ∧ probe_matches ex_probe e = true ∧
     entry_expired 550 ex_tracker e = false) ∧
  (ConnTracker_lookup_inbound map_to_list 550 ex_tracker ex_probe).2 ≠
  (ConnTracker_lookup_inbound (λ m, reverse (map_to_list m)) 550 ex_tracker ex_probe).2.
Proof.
  split; [|vm_compute; discriminate].
  exists (ex_key 40001), (mkConnEntry (ex_key 40001) Out_ 500 500). vm_compute. done.
Qed.

(** ** Witnesses *)

Lemma ex_tracker_ok : tracker_ok (ConnTracker_open_outbound 0
  (ConnTracker_new (mkConnTrackerConfig 100 1)) Conn_Tcp (mkNodeId "peer") 443 ex_addr 40000).1.
Proof. step_ok. Qed.

Lemma tracker_bounded_witness :
  ConnTracker_open_outbound 5 (ConnTracker_open_outbound 0
    (ConnTracker_new (mkConnTrackerConfig 100 1)) Conn_Tcp (mkNodeId "peer") 443 ex_addr 40000).1
    Conn_Udp (mkNodeId "peer") 53 ex_addr 40001 =
  ((ConnTracker_open_outbound 0
    (ConnTracker_new (mkConnTrackerConfig 100 1)) Conn_Tcp (mkNodeId "peer") 443 ex_addr 40000).1,
   Err (Full 1)).
Proof.
  destruct (tracker_bounded map_to_list iter_ok_map_to_list 5 _ (ex_key 1) ex_probe
    Conn_Udp (mkNodeId "peer") 53 ex_addr 40001 ex_tracker_ok) as (_ & _ & _ & _ & _ & H).
  apply H; vm_compute; reflexivity.
Defined.

Lemma lookup_inbound_spec_witness :
  ∃ k e, ct_entries ex_tracker !! k = Some e ∧ probe_matches ex_probe e = true.
Proof.
  destruct (lookup_inbound_spec map_to_list iter_ok_map_to_list 50 ex_tracker ex_probe
    (ConnTracker_lookup_inbound map_to_list 50 ex_tracker ex_probe).1 true) as [H _].
  - vm_compute. reflexivity.
  - destruct (H eq_refl) as (k & e & He & Hm & _). exists k, e. split; assumption.
Defined.
