(* ===== verification/FwEngine.v ===== *)
(** * The firewall engine and its declarative loader
    ([crates/a3net-mesh-firewall/src/{decision,engine,declarative}.rs])

    [FirewallEngine] is a record of the rule set, the default policy, the
    connection tracker and the counters; [decide] threads it. A counter is an
    [AtomicU64], whose increment wraps around. The maps of a [FirewallSpec] are
    [BTreeMap]s: association lists in key order, the order in which [apply]
    visits them. [PeerResolver] is a trait the callers implement: the function
    [resolve]. *)
From stdpp Require Import prelude strings gmap list.
From Stdlib Require Import NArith ZArith Lia Ascii.
From Stdlib Require String.
From S2P Require Import Prelude NodeId FwRule ConnTrack.

#[local] Open Scope N_scope.

(** ** Decisions *)

Inductive Decision_ : Type := Dec_Allow | Dec_Deny.

#[global] Instance Decision__eq_dec : EqDecision Decision_.
Proof. solve_decision. Defined.

Definition Decision_is_allowed (d : Decision_) : bool :=
  match d with Dec_Allow => true | Dec_Deny => false end.

Definition Decision_from (a : Action) : Decision_ :=
  match a with Act_Allow => Dec_Allow | Act_Deny => Dec_Deny end.

Inductive DecisionReason : Type :=
| AllowRule (rule_id : RuleId)
| DenyRule (rule_id : RuleId)
| DefaultAllow
| DefaultDeny
| ConntrackAllow
| ConntrackFull.

Definition DecisionReason_rule_id (r : DecisionReason) : option RuleId :=
  match r with
  | AllowRule id | DenyRule id => Some id
  | _ => None
  end.

(** ** The engine *)

Record DefaultPolicy : Type := mkDefaultPolicy {
  dp_inbound_tcp_udp : Action;
  dp_inbound_icmp : Action;
  dp_outbound : Action
}.

Definition DefaultPolicy_default : DefaultPolicy :=
  {| dp_inbound_tcp_udp := Act_Deny; dp_inbound_icmp := Act_Allow; dp_outbound := Act_Allow |}.

Record FirewallConfig : Type := mkFirewallConfig {
  fc_rules : RuleSet;
  fc_default_policy : DefaultPolicy;
  fc_conntrack : ConnTrackerConfig
}.

Definition FirewallConfig_default : FirewallConfig :=
  {| fc_rules := RuleSet_new; fc_default_policy := DefaultPolicy_default;
     fc_conntrack := ConnTrackerConfig_default |}.

Record FirewallStats : Type := mkFirewallStats {
  fs_decisions_total : N;
  fs_decisions_allowed : N;
  fs_decisions_denied : N;
  fs_conntrack_open : N;
  fs_conntrack_full : N;
  fs_rule_evaluations : N;
  fs_active_entries : Z
}.

Definition FirewallStats_default : FirewallStats := mkFirewallStats 0 0 0 0 0 0 0%Z.

(** [Counter::inc]: [fetch_add(1)] on a [u64]. *)
Definition counter_inc (c : N) : N := (c + 1) mod 2 ^ 64.

Record Packet : Type := mkPacket {
  pk_direction : Direction;
  pk_proto : N;
  pk_port : N;
  pk_peer : NodeId;
  pk_src_ip : IpAddr
}.

Record FirewallEngine : Type := mkFirewallEngine {
  fe_rules : RuleSet;
  fe_default_policy : DefaultPolicy;
  fe_conntrack : ConnTracker;
  fe_stats : FirewallStats
}.

Definition FirewallEngine_new (config : FirewallConfig) (stats : FirewallStats) : FirewallEngine :=
  mkFirewallEngine (fc_rules config) (fc_default_policy config)
    (ConnTracker_new (fc_conntrack config)) stats.

Definition FirewallEngine_replace_rules (e : FirewallEngine) (rules : RuleSet) : FirewallEngine :=
  mkFirewallEngine rules (fe_default_policy e) (fe_conntrack e) (fe_stats e).

Definition FirewallEngine_rule_count (e : FirewallEngine) : nat := RuleSet_len (fe_rules e).

Definition set_stats (e : FirewallEngine) (s : FirewallStats) : FirewallEngine :=
  mkFirewallEngine (fe_rules e) (fe_default_policy e) (fe_conntrack e) s.

Definition set_conntrack (e : FirewallEngine) (t : ConnTracker) : FirewallEngine :=
  mkFirewallEngine (fe_rules e) (fe_default_policy e) t (fe_stats e).

(** The counter of opened entries moves whether or not the table had room. *)
Definition FirewallEngine_open_outbound (now : N) (e : FirewallEngine) (proto : ConnProto)
    (peer : NodeId) (peer_port : N) (peer_ip : IpAddr) (local_port : N)
  : FirewallEngine * result ConnTrackerError unit :=
  let sock := mkSocketAddr peer_ip peer_port in
  let s := fe_stats e in
  let s' := {| fs_decisions_total := fs_decisions_total s;
               fs_decisions_allowed := fs_decisions_allowed s;
               fs_decisions_denied := fs_decisions_denied s;
               fs_conntrack_open := counter_inc (fs_conntrack_open s);
               fs_conntrack_full := fs_conntrack_full s;
               fs_rule_evaluations := fs_rule_evaluations s;
               fs_active_entries := fs_active_entries s |} in
  let '(t, r) := ConnTracker_open_outbound now (fe_conntrack e) proto peer peer_port sock local_port in
  (set_conntrack (set_stats e s') t, r).

Definition inbound_to_connprobe (pkt : Packet) : option InboundProbe :=
  let probe p := Some (mkInboundProbe p (pk_peer pkt) (pk_port pkt)) in
  if pk_proto pkt =? 6 then probe Conn_Tcp
  else if pk_proto pkt =? 17 then probe Conn_Udp
  else None.

Definition default_action (e : FirewallEngine) (direction : Direction) (proto : N) : Action :=
  match direction with
  | In_ => if (proto =? 1) || (proto =? 58) then dp_inbound_icmp (fe_default_policy e)
           else dp_inbound_tcp_udp (fe_default_policy e)
  | Out_ => dp_outbound (fe_default_policy e)
  end.

(** The two increments at the entry of [decide]. *)
Definition stats_enter (s : FirewallStats) : FirewallStats :=
  {| fs_decisions_total := counter_inc (fs_decisions_total s);
     fs_decisions_allowed := fs_decisions_allowed s;
     fs_decisions_denied := fs_decisions_denied s;
     fs_conntrack_open := fs_conntrack_open s;
     fs_conntrack_full := fs_conntrack_full s;
     fs_rule_evaluations := counter_inc (fs_rule_evaluations s);
     fs_active_entries := fs_active_entries s |}.

(** The increment of the counter of the decision taken. *)
Definition stats_decision (d : Decision_) (s : FirewallStats) : FirewallStats :=
  {| fs_decisions_total := fs_decisions_total s;
     fs_decisions_allowed := match d with
                             | Dec_Allow => counter_inc (fs_decisions_allowed s)
                             | Dec_Deny => fs_decisions_allowed s
                             end;
     fs_decisions_denied := match d with
                            | Dec_Allow => fs_decisions_denied s
                            | Dec_Deny => counter_inc (fs_decisions_denied s)
                            end;
     fs_conntrack_open := fs_conntrack_open s;
     fs_conntrack_full := fs_conntrack_full s;
     fs_rule_evaluations := fs_rule_evaluations s;
     fs_active_entries := fs_active_entries s |}.

Definition stats_active (n : Z) (s : FirewallStats) : FirewallStats :=
  {| fs_decisions_total := fs_decisions_total s;
     fs_decisions_allowed := fs_decisions_allowed s;
     fs_decisions_denied := fs_decisions_denied s;
     fs_conntrack_open := fs_conntrack_open s;
     fs_conntrack_full := fs_conntrack_full s;
     fs_rule_evaluations := fs_rule_evaluations s;
     fs_active_entries := n |}.

Section Engine.
Context (iter : gmap ConnKey ConnEntry → list (ConnKey * ConnEntry)).

(** The connection-tracking test of [decide]: the tracker is consulted only for
    inbound TCP and UDP, and may evict an expired entry. *)
Definition conntrack_test (now : N) (t : ConnTracker) (pkt : Packet) : ConnTracker * bool :=
  match pk_direction pkt, inbound_to_connprobe pkt with
  | In_, Some probe => ConnTracker_lookup_inbound iter now t probe
  | _, _ => (t, false)
  end.

Definition packet_matches (pkt : Packet) (r : Rule) : bool :=
  Rule_matches r (pk_direction pkt) (pk_proto pkt) (pk_port pkt) (pk_peer pkt) (pk_src_ip pkt).

Definition FirewallEngine_decide (now : N) (e : FirewallEngine) (pkt : Packet)
  : FirewallEngine * (Decision_ * DecisionReason) :=
  let e := set_stats e (stats_enter (fe_stats e)) in
  let '(t, established) := conntrack_test now (fe_conntrack e) pkt in
  let e := set_conntrack e t in
  if established then
    (set_stats e (stats_active (Z.of_nat (ConnTracker_len t))
                    (stats_decision Dec_Allow (fe_stats e))),
     (Dec_Allow, ConntrackAllow))
  else
    match List.find (packet_matches pkt) (rs_rules (fe_rules e)) with
    | Some rule =>
        let decision := Decision_from (r_action rule) in
        let reason := match r_action rule with
                      | Act_Allow => AllowRule (r_id rule)
                      | Act_Deny => DenyRule (r_id rule)
                      end in
        (set_stats e (stats_decision decision (fe_stats e)), (decision, reason))
    | None =>
        let action := default_action e (pk_direction pkt) (pk_proto pkt) in
        let decision := Decision_from action in
        let reason := match action with Act_Allow => DefaultAllow | Act_Deny => DefaultDeny end in
        (set_stats e (stats_decision decision (fe_stats e)), (decision, reason))
    end.
End Engine.

(** ** The declarative loader *)

Record NetworkSpec : Type := mkNetworkSpec {
  ns_allows : list (string * string);
  ns_denies : list (string * string)
}.

Record FirewallSpec : Type := mkFirewallSpec { fsp_networks : list (string * NetworkSpec) }.

Record ApplyReport : Type := mkApplyReport { ar_allows : nat; ar_denies : nat }.

(** Message texts are not modelled. *)
Inductive DeclarativeError : Type :=
| Parse
| InvalidRule (network : string)
| UnknownPeer (label : string)
| TooManyRules.

Definition parse_token_list (raw : string) : list string :=
  filter (λ s, s ≠ EmptyString) (str_trim <$> str_split "," raw).

Definition parse_token (token : string) : result DeclarativeError (ProtoSpec * PortSpec) :=
  match str_split_once ":" token with
  | None => Err (InvalidRule "?")
  | Some (proto_str, port_str) =>
      let p := str_trim proto_str in
      let? proto :=
        (if String.eqb p "tcp" then Ok Proto_Tcp
         else if String.eqb p "udp" then Ok Proto_Udp
         else if String.eqb p "icmp" then Ok Proto_Icmp
         else if String.eqb p "any" then Ok Proto_Any
         else Err (InvalidRule "?")) in
      let q := str_trim port_str in
      if String.eqb q "any" then Ok (proto, Port_Any)
      else match parse_uint u16_max q with
           | Some n => Ok (proto, Port_Single n)
           | None => Err (InvalidRule "?")
           end
  end.

Section Loader.
Context (resolve : string → option NodeId).

(** The rule one token stands for. *)
Definition spec_rule (action : Action) (proto : ProtoSpec) (port : PortSpec) (peer_id : NodeId)
  : Rule :=
  match action with
  | Act_Allow => Rule_with_peer (Rule_allow In_ proto port) peer_id
  | Act_Deny => {| r_id := RuleId_from_index 0; r_direction := In_; r_action := Act_Deny;
                   r_proto := proto; r_port := port; r_peer := Some peer_id |}
  end.

Definition bump (action : Action) (rep : ApplyReport) : ApplyReport :=
  match action with
  | Act_Allow => mkApplyReport (ar_allows rep + 1)%nat (ar_denies rep)
  | Act_Deny => mkApplyReport (ar_allows rep) (ar_denies rep + 1)%nat
  end.

(** The body of the token loops. *)
Definition apply_token (action : Action) (label : string) (acc : RuleSet * ApplyReport)
    (token : string) : result DeclarativeError (RuleSet * ApplyReport) :=
  let '(ruleset, report) := acc in
  let? (proto, port) := parse_token token in
  let? peer_id := ok_or (UnknownPeer label) (resolve label) in
  let '(ruleset', pushed) := RuleSet_push ruleset (spec_rule action proto port peer_id) in
  if pushed then Ok (ruleset', bump action report) else Err TooManyRules.

(** A [for] loop whose body may return an error. *)
Fixpoint try_fold {A S E} (body : S → A → result E S) (l : list A) (s : S) : result E S :=
  match l with
  | [] => Ok s
  | x :: l' => let? s' := body s x in try_fold body l' s'
  end.

Definition apply_entry (action : Action) (acc : RuleSet * ApplyReport) (entry : string * string)
  : result DeclarativeError (RuleSet * ApplyReport) :=
  try_fold (apply_token action entry.1) (parse_token_list entry.2) acc.

Definition apply_network (acc : RuleSet * ApplyReport) (net : string * NetworkSpec)
  : result DeclarativeError (RuleSet * ApplyReport) :=
  let? acc1 := try_fold (apply_entry Act_Allow) (ns_allows net.2) acc in
  try_fold (apply_entry Act_Deny) (ns_denies net.2) acc1.

Definition FirewallSpec_apply (self : FirewallSpec) (engine : FirewallEngine)
  : FirewallEngine * result DeclarativeError ApplyReport :=
  match try_fold apply_network (fsp_networks self) (RuleSet_new, mkApplyReport 0 0) with
  | Ok (ruleset, report) => (FirewallEngine_replace_rules engine ruleset, Ok report)
  | Err e => (engine, Err e)
  end.
End Loader.

(** [StaticPeerResolver::resolve]: [*] is the all-zero identifier. *)
Definition zeros64 : string := "0000000000000000000000000000000000000000000000000000000000000000".

Definition StaticPeerResolver_resolve (table : gmap string NodeId) (label : string) : option NodeId :=
  if String.eqb label "*" then
    match NodeId_from_hex zeros64 with Ok id => Some id | Err _ => None end
  else table !! label.


(** ** What a decision is

    [verdict] is the specification of [decide]: an established flow is admitted,
    otherwise the first rule that matches decides, otherwise the default policy. *)

Inductive verdict (e : FirewallEngine) (pkt : Packet) : bool → Decision_ → DecisionReason → Prop :=
| verdict_established : verdict e pkt true Dec_Allow ConntrackAllow
| verdict_allow_rule i r :
    rs_rules (fe_rules e) !! i = Some r → packet_matches pkt r = true → r_action r = Act_Allow →
    (∀ j r', (j < i)%nat → rs_rules (fe_rules e) !! j = Some r' → packet_matches pkt r' = false) →
    verdict e pkt false Dec_Allow (AllowRule (N.of_nat i))
| verdict_deny_rule i r :
    rs_rules (fe_rules e) !! i = Some r → packet_matches pkt r = true → r_action r = Act_Deny →
    (∀ j r', (j < i)%nat → rs_rules (fe_rules e) !! j = Some r' → packet_matches pkt r' = false) →
    verdict e pkt false Dec_Deny (DenyRule (N.of_nat i))
| verdict_default_allow :
    Forall (λ r, packet_matches pkt r = false) (rs_rules (fe_rules e)) →
    default_action e (pk_direction pkt) (pk_proto pkt) = Act_Allow →
    verdict e pkt false Dec_Allow DefaultAllow
| verdict_default_deny :
    Forall (λ r, packet_matches pkt r = false) (rs_rules (fe_rules e)) →
    default_action e (pk_direction pkt) (pk_proto pkt) = Act_Deny →
    verdict e pkt false Dec_Deny DefaultDeny.

Lemma find_first {A} (p : A → bool) l x :
  List.find p l = Some x →
  ∃ i, l !! i = Some x ∧ p x = true ∧ ∀ j y, (j < i)%nat → l !! j = Some y → p y = false.
Proof.
  induction l as [|a l IH]; simpl; [done|]. destruct (p a) eqn:Ha; intros H; simplify_eq.
  - exists 0%nat. split_and!; [done|done|]. intros; lia.
  - destruct (IH H) as (i & Hi & Hx & Hb). exists (S i). split_and!; [done|done|].
    intros [|j] y Hj Hy; simplify_eq/=; [done|]. apply (Hb j); [lia|done].
Qed.

Lemma find_none_Forall {A} (p : A → bool) l : List.find p l = None → Forall (λ x, p x = false) l.
Proof.
  induction l as [|a l IH]; simpl; [constructor|]. destruct (p a) eqn:Ha; [done|].
  intros H. constructor; auto.
Qed.

(** [verdict] determines the outcome: it is a function of the rules. *)
Lemma verdict_functional e pkt b d1 r1 d2 r2 :
  verdict e pkt b d1 r1 → verdict e pkt b d2 r2 → d1 = d2 ∧ r1 = r2.
Proof.
  assert (Hfirst : ∀ i r j r', rs_rules (fe_rules e) !! i = Some r → packet_matches pkt r = true →
    (∀ j r', (j < i)%nat → rs_rules (fe_rules e) !! j = Some r' → packet_matches pkt r' = false) →
    rs_rules (fe_rules e) !! j = Some r' → packet_matches pkt r' = true →
    (∀ i r, (i < j)%nat → rs_rules (fe_rules e) !! i = Some r → packet_matches pkt r = false) →
    i = j ∧ r = r').
  { intros i r j r' Hi Hr Hbi Hj Hr' Hbj. destruct (Nat.lt_trichotomy i j) as [Hl|[->|Hl]].
    - by rewrite (Hbj _ _ Hl Hi) in Hr.
    - by simplify_eq.
    - by rewrite (Hbi _ _ Hl Hj) in Hr'. }
  assert (Hnone : ∀ i r, rs_rules (fe_rules e) !! i = Some r → packet_matches pkt r = true →
    Forall (λ r, packet_matches pkt r = false) (rs_rules (fe_rules e)) → False).
  { intros i r Hi Hr Hf. rewrite (Forall_lookup_1 _ _ _ _ Hf Hi) in Hr. done. }
  intros H1 H2. inversion H1; subst; inversion H2; subst; try (by auto); try congruence;
    try (exfalso; by eauto);
    match goal with
    | Hi : rs_rules _ !! ?i = Some ?r, Hj : rs_rules _ !! ?j = Some ?r' |- _ =>
        destruct (Hfirst i r j r') as [? ?]; [done..|]; subst; split; congruence
    end.
Qed.

Section EngineTheorems.
Context (iter : gmap ConnKey ConnEntry → list (ConnKey * ConnEntry)) (Hiter : iter_ok iter).

(** C3. [decide] implements [verdict], the first-match semantics: an inbound
    packet of an established flow is admitted before any rule is read; otherwise
    the matching rule with the smallest position decides and its identifier, the
    position, is the reason; otherwise the default policy for the direction and
    protocol decides. Rules and policy are left as they are. *)
Theorem decide_first_match now e pkt :
  ruleset_ok (fe_rules e) →
  let '(e', (d, reason)) := FirewallEngine_decide iter now e pkt in
  verdict e pkt (conntrack_test iter now (fe_conntrack e) pkt).2 d reason ∧
  fe_rules e' = fe_rules e ∧ fe_default_policy e' = fe_default_policy e ∧
  fe_conntrack e' = (conntrack_test iter now (fe_conntrack e) pkt).1.
Proof.
  intros Hok. unfold FirewallEngine_decide. cbn [set_stats fe_conntrack].
  destruct (conntrack_test iter now (fe_conntrack e) pkt) as [t []]; cbn [fst snd].
  - split; [constructor|done].
  - cbn [set_conntrack set_stats fe_rules].
    destruct (List.find (packet_matches pkt) (rs_rules (fe_rules e))) as [r|] eqn:Hf.
    + apply find_first in Hf as (i & Hi & Hr & Hb). split; [|done].
      rewrite (rs_dense _ Hok _ _ Hi). destruct (r_action r) eqn:Ha; econstructor; eauto.
    + apply find_none_Forall in Hf. split; [|done].
      change (default_action _ (pk_direction pkt) (pk_proto pkt))
        with (default_action e (pk_direction pkt) (pk_proto pkt)).
      destruct (default_action e (pk_direction pkt) (pk_proto pkt)) eqn:Hd; by econstructor.
Qed.

Lemma decide_established now e pkt :
  (conntrack_test iter now (fe_conntrack e) pkt).2 = true →
  (FirewallEngine_decide iter now e pkt).2 = (Dec_Allow, ConntrackAllow).
Proof.
  unfold FirewallEngine_decide. cbn [set_stats fe_conntrack].
  by destruct (conntrack_test iter now (fe_conntrack e) pkt) as [t []].
Qed.

(** C21. Return traffic: right after [open_outbound] succeeded for a flow, an inbound
    packet from that peer and port and with that protocol is admitted as established,
    whatever the rules say, when it arrives within the idle timeout and no older entry of
    the table with the same protocol, peer and port is expired by then. (With an expired
    one the scan may stop at it and refuse the packet: [lookup_inbound_order_dependent].) *)
Theorem return_traffic_admitted now now' e e' proto peer port ip lport pkt :
  FirewallEngine_open_outbound now e proto peer port ip lport = (e', Ok tt) →
  elapsed now' now ≤ ctc_idle_timeout (ct_config (fe_conntrack e)) →
  pk_direction pkt = In_ → pk_proto pkt = ConnProto_as_u8 proto →
  pk_peer pkt = peer → pk_port pkt = port →
  (∀ k en, ct_entries (fe_conntrack e) !! k = Some en →
     probe_matches (mkInboundProbe proto peer port) en = true →
     entry_expired now' (fe_conntrack e) en = false) →
  (FirewallEngine_decide iter now' e' pkt).2 = (Dec_Allow, ConntrackAllow).
Proof.
  intros Hopen Hto Hdir Hpr Hpeer Hport Hlive. apply decide_established.
  set (key := mkConnKey proto peer port lport (mkSocketAddr ip port)).
  set (en0 := mkConnEntry key Out_ now now).
  assert (fe_conntrack e' = set_entries (fe_conntrack e) (<[key := en0]> (ct_entries (fe_conntrack e))))
    as Hct.
  { revert Hopen. unfold FirewallEngine_open_outbound, ConnTracker_open_outbound. fold key.
    destruct (bool_decide _ && _); by intros [= <-]. }
  unfold conntrack_test, inbound_to_connprobe. rewrite Hdir, Hpr, Hpeer, Hport.
  assert (∃ b, (if ConnProto_as_u8 proto =? 6 then Some (mkInboundProbe Conn_Tcp peer port)
    else if ConnProto_as_u8 proto =? 17 then Some (mkInboundProbe Conn_Udp peer port) else None)
    = Some b ∧ b = mkInboundProbe proto peer port) as (b & -> & ->).
  { destruct proto; by eexists. }
  apply (lookup_inbound_admits iter Hiter).
  - rewrite Hct. unfold set_entries, entry_expired. cbn [ct_entries ct_config].
    intros k en [[<- <-]|[_ Hk]]%lookup_insert_Some Hm; [|by apply (Hlive k)].
    simpl. apply N.ltb_ge. done.
  - exists key, en0. rewrite Hct. cbn [set_entries ct_entries].
    rewrite lookup_insert_eq. split; [done|]. unfold probe_matches, en0, key; simpl.
    by rewrite !bool_decide_true, N.eqb_refl by done.
Qed.

(** *** Runs of the engine *)

Inductive EngineOp : Type :=
| OpDecide (now : N) (pkt : Packet)
| OpOpenOutbound (now : N) (proto : ConnProto) (peer : NodeId) (port : N) (ip : IpAddr) (lport : N)
| OpReplaceRules (rules : RuleSet).

Definition engine_step (e : FirewallEngine) (op : EngineOp) : FirewallEngine :=
  match op with
  | OpDecide now pkt => (FirewallEngine_decide iter now e pkt).1
  | OpOpenOutbound now proto peer port ip lport =>
      (FirewallEngine_open_outbound now e proto peer port ip lport).1
  | OpReplaceRules rules => FirewallEngine_replace_rules e rules
  end.

Record engine_ok (e : FirewallEngine) : Prop := {
  eo_rules : ruleset_ok (fe_rules e);
  eo_conntrack : tracker_ok (fe_conntrack e);
  eo_stats : fs_decisions_total (fe_stats e) =
    (fs_decisions_allowed (fe_stats e) + fs_decisions_denied (fe_stats e)) mod 2 ^ 64
}.

Lemma counter_inc_balance t a d :
  t = (a + d) mod 2 ^ 64 →
  counter_inc t = (counter_inc a + d) mod 2 ^ 64 ∧ counter_inc t = (a + counter_inc d) mod 2 ^ 64.
Proof.
  intros ->. unfold counter_inc.
  rewrite N.Div0.add_mod_idemp_l, N.Div0.add_mod_idemp_l, N.Div0.add_mod_idemp_r.
  split; f_equal; lia.
Qed.

Lemma conntrack_test_ok now t pkt :
  tracker_ok t → tracker_ok (conntrack_test iter now t pkt).1.
Proof.
  intros Ht. unfold conntrack_test. destruct (pk_direction pkt); [|done].
  destruct (inbound_to_connprobe pkt) as [probe|]; [|done].
  by apply tracker_ok_lookup_inbound.
Qed.

Lemma engine_ok_decide now e pkt : engine_ok e → engine_ok (FirewallEngine_decide iter now e pkt).1.
Proof.
  intros [Hr Hc Hs]. apply counter_inc_balance in Hs as [Ha Hd].
  apply (conntrack_test_ok now _ pkt) in Hc. revert Hc. unfold FirewallEngine_decide.
  cbn [set_stats fe_conntrack].
  destruct (conntrack_test iter now (fe_conntrack e) pkt) as [t []]; intros Hc; [by split|].
  destruct (List.find _ _) as [r|]; [destruct (r_action r)|destruct (default_action _ _ _)];
    by split.
Qed.

(** Every run of the engine (decisions, outbound registrations and
    replacements of the rules by well-formed sets, in any order) keeps the rule
    identifiers dense, the connection table within its bound, and the counters
    balanced: [decisions_total] is the sum of the allowed and the denied
    decisions, modulo the width of the counters. *)
Theorem engine_run_ok config ops :
  ruleset_ok (fc_rules config) →
  Forall (λ op, match op with OpReplaceRules rules => ruleset_ok rules | _ => True end) ops →
  engine_ok (foldl engine_step (FirewallEngine_new config FirewallStats_default) ops).
Proof.
  intros Hr. assert (engine_ok (FirewallEngine_new config FirewallStats_default)) as He.
  { split; [done|apply tracker_ok_new|done]. }
  revert He. generalize (FirewallEngine_new config FirewallStats_default) as e.
  induction ops as [|op ops IH]; intros e He; [done|]. intros [Hop Hops]%Forall_cons.
  apply IH; [|done]. destruct op as [now pkt|now proto peer port ip lport|rules]; simpl.
  - by apply engine_ok_decide.
  - destruct He as [H1 H2 H3]. unfold FirewallEngine_open_outbound.
    pose proof (tracker_ok_open now _ proto peer port (mkSocketAddr ip port) lport H2) as Ht.
    destruct (ConnTracker_open_outbound _ _ _ _ _ _ _) as [t r]. by split.
  - by destruct He.
Qed.

(** Default deny: with the default policy, an inbound TCP or UDP packet is
    admitted only by an allow rule that matches it or by a live connection-table
    entry for its protocol, peer and port. *)
Theorem default_deny now e pkt proto :
  fe_default_policy e = DefaultPolicy_default → pk_direction pkt = In_ →
  pk_proto pkt = ConnProto_as_u8 proto →
  (FirewallEngine_decide iter now e pkt).2.1 = Dec_Allow →
  (∃ r, r ∈ rs_rules (fe_rules e) ∧ packet_matches pkt r = true ∧ r_action r = Act_Allow) ∨
  (∃ k en, ct_entries (fe_conntrack e) !! k = Some en ∧
     probe_matches (mkInboundProbe proto (pk_peer pkt) (pk_port pkt)) en = true ∧
     entry_expired now (fe_conntrack e) en = false).
Proof.
  intros Hpol Hdir Hpr. unfold FirewallEngine_decide. cbn [set_stats fe_conntrack].
  assert (conntrack_test iter now (fe_conntrack e) pkt =
    ConnTracker_lookup_inbound iter now (fe_conntrack e)
      (mkInboundProbe proto (pk_peer pkt) (pk_port pkt))) as ->.
  { unfold conntrack_test, inbound_to_connprobe. rewrite Hdir, Hpr. by destruct proto. }
  unfold ConnTracker_lookup_inbound.
  set (probe := mkInboundProbe proto (pk_peer pkt) (pk_port pkt)).
  destruct (lookup_inbound_scan_cases now (fe_conntrack e) probe (iter (ct_entries (fe_conntrack e))))
    as [[-> _]|(k & en & Hin & Hm & ->)].
  2: destruct (entry_expired now (fe_conntrack e) en) eqn:Hx.
  3: { intros _. right. exists k, en. apply (iter_elem iter Hiter) in Hin. done. }
  all: cbn [set_conntrack set_stats fe_rules]; intros Hd; left;
    destruct (List.find (packet_matches pkt) (rs_rules (fe_rules e))) as [r|] eqn:Hf.
  2,4: exfalso; revert Hd; unfold default_action; rewrite Hdir, Hpr; simpl;
    rewrite Hpol; by destruct proto.
  all: apply find_first in Hf as (i & Hi & Hr & _); exists r; split_and!;
    [by eapply list_elem_of_lookup_2|done|]; revert Hd; simpl; by destruct (r_action r).
Qed.
End EngineTheorems.

(** ** The loader against its flat specification

    A spec stands for the list of its tokens in order, each compiled alone. *)

Section LoaderTheorems.
Context (resolve : string → option NodeId).

Definition entry_items (action : Action) (entry : string * string) : list (Action * string * string) :=
  (λ tok, (action, entry.1, tok)) <$> parse_token_list entry.2.

Definition network_items (net : string * NetworkSpec) : list (Action * string * string) :=
  (ns_allows net.2 ≫= entry_items Act_Allow) ++ (ns_denies net.2 ≫= entry_items Act_Deny).

Definition spec_items (s : FirewallSpec) : list (Action * string * string) :=
  fsp_networks s ≫= network_items.

Definition compile_item (item : Action * string * string) : result DeclarativeError Rule :=
  let '(action, label, token) := item in
  let? (proto, port) := parse_token token in
  let? peer_id := ok_or (UnknownPeer label) (resolve label) in
  Ok (spec_rule action proto port peer_id).

Definition apply_item (acc : RuleSet * ApplyReport) (item : Action * string * string) :=
  apply_token resolve item.1.1 item.1.2 acc item.2.

Lemma try_fold_app {A S E} (f : S → A → result E S) l1 l2 s :
  try_fold f (l1 ++ l2) s = let? s' := try_fold f l1 s in try_fold f l2 s'.
Proof.
  revert s. induction l1 as [|x l1 IH]; intros s; simpl; [done|]. destruct (f s x); simpl; [apply IH|done].
Qed.

Lemma try_fold_bind {A B S E} (f : S → B → result E S) (g : S → A → result E S) (h : A → list B) l s :
  (∀ s x, g s x = try_fold f (h x) s) → try_fold g l s = try_fold f (l ≫= h) s.
Proof.
  intros Hg. revert s. induction l as [|x l IH]; intros s; [done|]. cbn [try_fold].
  change ((x :: l) ≫= h) with (h x ++ (l ≫= h)). rewrite try_fold_app, Hg.
  destruct (try_fold f (h x) s); simpl; [apply IH|done].
Qed.

Lemma apply_entry_items action acc entry :
  apply_entry resolve action acc entry = try_fold apply_item (entry_items action entry) acc.
Proof.
  unfold apply_entry, entry_items. revert acc.
  induction (parse_token_list entry.2) as [|tok l IH]; intros acc; [done|].
  rewrite fmap_cons. cbn [try_fold]. unfold apply_item at 1. cbn [fst snd].
  destruct (apply_token _ _ _ _ _); simpl; [apply IH|done].
Qed.

Lemma apply_network_items acc net :
  apply_network resolve acc net = try_fold apply_item (network_items net) acc.
Proof.
  unfold apply_network, network_items. rewrite try_fold_app.
  rewrite (try_fold_bind apply_item (apply_entry resolve Act_Allow) (entry_items Act_Allow))
    by (intros; apply apply_entry_items).
  destruct (try_fold apply_item _ acc); simpl; [|done].
  apply try_fold_bind. intros; apply apply_entry_items.
Qed.

Lemma apply_items self acc :
  try_fold (apply_network resolve) (fsp_networks self) acc = try_fold apply_item (spec_items self) acc.
Proof. apply try_fold_bind, apply_network_items. Qed.

(** What the loop over the flat list does from a set [s]. *)
Definition is_action (a : Action) (item : Action * string * string) : Prop := item.1.1 = a.
#[global] Instance is_action_dec a item : Decision (is_action a item).
Proof. unfold is_action. apply _. Defined.

Definition count_action (a : Action) (items : list (Action * string * string)) : nat :=
  length (filter (is_action a) items).

Lemma apply_item_eq s rep item :
  apply_item (s, rep) item =
  let? r := compile_item item in
  if (RuleSet_push s r).2 then Ok ((RuleSet_push s r).1, bump item.1.1 rep) else Err TooManyRules.
Proof.
  destruct item as [[a l] tok]. unfold apply_item, apply_token, compile_item. cbn [fst snd].
  destruct (parse_token tok) as [[proto port]|]; simpl; [|done].
  destruct (resolve l) as [id|]; simpl; [|done]. by destruct (RuleSet_push _ _).
Qed.

Lemma apply_items_ok items s rep s' rep' :
  ruleset_ok s → try_fold apply_item items (s, rep) = Ok (s', rep') →
  ruleset_ok s' ∧ ∃ rules,
    Forall2 (λ it r, compile_item it = Ok r) items rules ∧
    rule_body <$> rs_rules s' = (rule_body <$> rs_rules s) ++ (rule_body <$> rules) ∧
    ar_allows rep' = (ar_allows rep + count_action Act_Allow items)%nat ∧
    ar_denies rep' = (ar_denies rep + count_action Act_Deny items)%nat.
Proof.
  revert s rep. induction items as [|it items IH]; intros s rep Hs; cbn [try_fold].
  { intros [= <- <-]. split; [done|]. exists []. unfold count_action; simpl.
    rewrite app_nil_r. split_and!; [constructor|done|lia|lia]. }
  rewrite apply_item_eq. destruct (compile_item it) as [r|] eqn:Hc; simpl; [|done].
  destruct (RuleSet_push s r).2 eqn:Hp; simpl; [|done]. intros H.
  destruct (IH _ _ (ruleset_ok_push s r Hs) H) as (Hs' & rules & HF & Hb & Ha & Hd).
  split; [done|]. exists (r :: rules).
  destruct (RuleSet_push_spec s r) as [_ Hpush]. rewrite Hb, (Hpush Hp), <- app_assoc.
  split_and!; [by constructor|done|rewrite Ha|rewrite Hd];
    unfold count_action, bump; rewrite filter_cons; destruct it as [[[] l] tok];
    unfold is_action; simpl; lia.
Qed.

Lemma apply_items_err items s rep err :
  try_fold apply_item items (s, rep) = Err err →
  (∃ it, it ∈ items ∧ compile_item it = Err err) ∨
  err = TooManyRules ∧ (MAX_RULES < length (rs_rules s) + length items)%nat.
Proof.
  revert s rep. induction items as [|it items IH]; intros s rep; cbn [try_fold]; [done|].
  rewrite apply_item_eq. destruct (compile_item it) as [r|e'] eqn:Hc; simpl.
  2: { intros [= <-]. left. exists it. split; [left|done]. }
  destruct (RuleSet_push_spec s r) as [Hpush Hbody].
  destruct (RuleSet_push s r).2 eqn:Hp; simpl.
  - intros H. destruct (IH _ _ H) as [(it' & Hin & He)|[-> Hlen]].
    + left. exists it'. split; [by right|done].
    + right. split; [done|]. apply (f_equal length) in Hbody; [|done].
      rewrite length_app, !length_fmap in Hbody. simpl in Hbody. lia.
  - intros [= <-]. right. split; [done|].
    destruct (decide (length (rs_rules s) < MAX_RULES)%nat) as [Hlt|Hge]; [|lia].
    by apply Hpush in Hlt.
Qed.

(** The declarative loader: [apply] either installs exactly the rules its
    tokens stand for, in the order of networks, allow lists, deny lists and
    tokens, with dense identifiers and a report that counts them, or reports
    the error of a token it could not compile (or that there are more than
    [MAX_RULES] tokens) and leaves the engine as it was; it succeeds whenever
    every token compiles and they fit. *)
Theorem apply_installs_spec self engine :
  match FirewallSpec_apply resolve self engine with
  | (engine', Ok report) =>
      ruleset_ok (fe_rules engine') ∧
      (∃ rules, Forall2 (λ it r, compile_item it = Ok r) (spec_items self) rules ∧
         rule_body <$> rs_rules (fe_rules engine') = rule_body <$> rules) ∧
      ar_allows report = count_action Act_Allow (spec_items self) ∧
      ar_denies report = count_action Act_Deny (spec_items self) ∧
      fe_conntrack engine' = fe_conntrack engine ∧ fe_stats engine' = fe_stats engine ∧
      fe_default_policy engine' = fe_default_policy engine
  | (engine', Err err) =>
      engine' = engine ∧
      ((∃ it, it ∈ spec_items self ∧ compile_item it = Err err) ∨
       err = TooManyRules ∧ (MAX_RULES < length (spec_items self))%nat)
  end.
Proof.
  unfold FirewallSpec_apply. rewrite apply_items.
  destruct (try_fold apply_item _ _) as [[s' rep']|err] eqn:Hf.
  - apply apply_items_ok in Hf as (Hok & rules & HF & Hb & Ha & Hd); [|apply ruleset_ok_new].
    split_and!; [done|by exists rules|done..].
  - apply apply_items_err in Hf. done.
Qed.
End LoaderTheorems.

(** Tokens print and parse back: for every protocol and every port filter
    the loader accepts (any port, or one port below [2^16]), [parse_token] reads
    the [Display] forms joined by a colon as that protocol and filter. *)
Theorem parse_token_display proto port :
  match port with Port_Any => True | Port_Single p => p ≤ u16_max | Port_Range _ _ => False end →
  parse_token (String.append (ProtoSpec_fmt proto) (String ":" (PortSpec_fmt port))) = Ok (proto, port).
Proof.
  intros Hp. unfold parse_token.
  assert (str_lacks ":" (ProtoSpec_fmt proto) = true) by (by destruct proto).
  rewrite str_split_once_app by done.
  assert (str_trim (PortSpec_fmt port) = PortSpec_fmt port) as ->.
  { destruct port as [|p|]; [done| |done]. apply str_trim_id, show_N_no_ws. }
  destruct port as [|p|]; [by destruct proto| |done].
  cbn [PortSpec_fmt]. rewrite parse_show by done.
  assert (String.eqb (show_N p) "any" = false) as ->.
  { destruct (show_N_cons p) as (a & s & -> & Ha). destruct (ascii_dec a "a") as [->|Hn]; [done|].
    apply String.eqb_neq. intros [= -> _]. done. }
  by destruct proto.
Qed.

(** ** What the loader and the counters do not do *)

(** The label [*] names one peer like any other label: the rule made from it
    matches the packets of a single peer, whatever the resolver. *)
Theorem wildcard_names_one_peer resolve token r pkt1 pkt2 :
  compile_item resolve (Act_Allow, "*", token) = Ok r →
  packet_matches pkt1 r = true → packet_matches pkt2 r = true → pk_peer pkt1 = pk_peer pkt2.
Proof.
  unfold compile_item. destruct (parse_token token) as [[proto port]|]; simpl; [|done].
  destruct (resolve "*") as [id|]; simpl; [|done]. intros [= <-].
  unfold packet_matches, Rule_matches; simpl. intros H1 H2.
  apply andb_prop in H1 as [_ H1%bool_decide_eq_true]. apply andb_prop in H2 as [_ H2%bool_decide_eq_true].
  congruence.
Qed.

(** No operation of the engine moves the counter of refused registrations. *)
Theorem conntrack_full_never_counted iter e op :
  fs_conntrack_full (fe_stats (engine_step iter e op)) = fs_conntrack_full (fe_stats e).
Proof.
  destruct op as [now pkt|now proto peer port ip lport|rules]; simpl.
  - unfold FirewallEngine_decide. cbn [set_stats fe_conntrack].
    destruct (conntrack_test iter now (fe_conntrack e) pkt) as [t []]; [done|].
    by destruct (List.find _ _) as [r|]; [destruct (r_action r)|destruct (default_action _ _ _)].
  - unfold FirewallEngine_open_outbound. by destruct (ConnTracker_open_outbound _ _ _ _ _ _ _).
  - done.
Qed.

(** ** Witnesses *)

Definition ex_packet (port : N) : Packet := mkPacket In_ 6 port (mkNodeId "peer") (IpV4 1684275201).

Definition ex_config : FirewallConfig :=
  mkFirewallConfig (RuleSet_push RuleSet_new wit_rule).1 DefaultPolicy_default
    (mkConnTrackerConfig 100 16).

Definition ex_engine : FirewallEngine := FirewallEngine_new ex_config FirewallStats_default.

Lemma ex_config_ok : ruleset_ok (fc_rules ex_config).
Proof. apply ruleset_ok_push, ruleset_ok_new. Qed.

Lemma decide_first_match_witness :
  verdict ex_engine (ex_packet 22) false Dec_Allow (AllowRule 0).
Proof.
  pose proof (decide_first_match map_to_list 0 ex_engine (ex_packet 22) ex_config_ok) as H.
  vm_compute in H. exact (proj1 H).
Defined.

Lemma return_traffic_admitted_witness :
  (FirewallEngine_decide map_to_list 60
     (FirewallEngine_open_outbound 0 ex_engine Conn_Tcp (mkNodeId "peer") 443 (IpV4 1684275201) 40000).1
     (ex_packet 443)).2 = (Dec_Allow, ConntrackAllow).
Proof.
  apply (return_traffic_admitted map_to_list iter_ok_map_to_list 0 60 ex_engine _ Conn_Tcp
    (mkNodeId "peer") 443 (IpV4 1684275201) 40000); try reflexivity.
  - vm_compute. discriminate.
  - intros k en H. vm_compute in H. destruct k; discriminate.
Defined.

Lemma engine_run_ok_witness :
  engine_ok (foldl (engine_step map_to_list) ex_engine
    [OpDecide 0 (ex_packet 22); OpOpenOutbound 5 Conn_Tcp (mkNodeId "peer") 443 (IpV4 1684275201) 40000;
     OpReplaceRules RuleSet_new; OpDecide 10 (ex_packet 443)]).
Proof.
  apply (engine_run_ok map_to_list iter_ok_map_to_list ex_config); [exact ex_config_ok|].
  repeat constructor; try apply ruleset_ok_new.
Defined.

Lemma default_deny_witness :
  ∃ r, r ∈ rs_rules (fe_rules ex_engine) ∧ packet_matches (ex_packet 22) r = true ∧ r_action r = Act_Allow.
Proof.
  destruct (default_deny map_to_list iter_ok_map_to_list 0 ex_engine (ex_packet 22) Conn_Tcp)
    as [H|(k & en & H & _)]; try (vm_compute; reflexivity).
  - exact H.
  - vm_compute in H. destruct k; discriminate.
Defined.

Lemma parse_token_display_witness : parse_token "tcp:25565" = Ok (Proto_Tcp, Port_Single 25565).
Proof.
  refine (parse_token_display Proto_Tcp (Port_Single 25565) _). vm_compute. discriminate.
Defined.
