(* ===== verification/DhtRecord.v ===== *)
(** * DHT keys, records and wire messages
    ([crates/a3net-dht/src/{record,protocol}.rs])

    Keys, provider records and mutable name records with their expiry
    arithmetic and the length-prefixed bytes that are signed. The clock
    [now_secs] is an argument; a [Signer] and a [Verifier] are traits the
    callers implement, here functions. A timestamp is a [u64]. *)
From stdpp Require Import prelude strings gmap list.
From Stdlib Require Import NArith Lia Ascii.
From Stdlib Require String.
From S2P Require Import Prelude NodeId.

#[local] Open Scope N_scope.

(** ** Keys *)

Record DhtKey : Type := mkDhtKey { key_bytes : list N }.

#[global] Instance DhtKey_eq_dec : EqDecision DhtKey.
Proof. solve_decision. Defined.
#[global] Instance DhtKey_countable : Countable DhtKey.
Proof. by apply (inj_countable' key_bytes mkDhtKey); intros []. Defined.

Definition DhtKey_from_content_hash_hex `{Hex} (hex : string) : DhtKey := mkDhtKey (decode_or_empty hex).
Definition DhtKey_from_bytes (bytes : list N) : DhtKey := mkDhtKey bytes.

Definition DhtKey_xor_distance (self other : DhtKey) : list N :=
  zip_with N.lxor (key_bytes self) (key_bytes other).

(** The highest set bit of a byte, from bit 7 down. *)
Definition high_bit (byte : N) : option N :=
  List.find (λ bit, N.land (N.shiftr byte bit) 1 =? 1) [7; 6; 5; 4; 3; 2; 1; 0].

(** The scan of [log_distance], over the enumerated bytes in reverse order; the
    result is cast to [u8]. *)
Fixpoint log_distance_scan (l : list (nat * N)) : option N :=
  match l with
  | [] => None
  | (i, byte) :: rest =>
      if byte =? 0 then log_distance_scan rest
      else match high_bit byte with
           | Some bit => Some ((N.of_nat i * 8 + (7 - bit)) mod 256)
           | None => log_distance_scan rest
           end
  end.

Definition DhtKey_log_distance (self other : DhtKey) : option N :=
  match log_distance_scan (reverse (imap pair (DhtKey_xor_distance self other))) with
  | Some d => Some d
  | None => Some 0
  end.

Definition DhtKey_as_hex `{Hex} (k : DhtKey) : string := hex_encode (key_bytes k).

(** ** Provider records *)

Definition default_ttl : N := 86400.

Record ProviderRecord : Type := mkProviderRecord {
  pr_key : DhtKey;
  pr_provider_id : NodeId;
  pr_provider_addr : string;
  pr_ttl_secs : N;
  pr_created_at : N;
  pr_signature : option (list N)
}.

#[global] Instance ProviderRecord_eq_dec : EqDecision ProviderRecord.
Proof. solve_decision. Defined.

Definition ProviderRecord_new (now : N) (key : DhtKey) (provider_id : NodeId) (provider_addr : string)
  : ProviderRecord :=
  {| pr_key := key; pr_provider_id := provider_id; pr_provider_addr := provider_addr;
     pr_ttl_secs := default_ttl; pr_created_at := now; pr_signature := None |}.

Definition ProviderRecord_is_expired (now : N) (r : ProviderRecord) : bool :=
  sat_add u64_max (pr_created_at r) (pr_ttl_secs r) <? now.

(** Seconds. *)
Definition ProviderRecord_remaining_ttl (now : N) (r : ProviderRecord) : N :=
  let expires_at := sat_add u64_max (pr_created_at r) (pr_ttl_secs r) in
  if expires_at <=? now then 0 else expires_at - now.

(** [(bytes.len() as u32).to_be_bytes()] followed by the bytes. *)
Definition len_prefixed (bs : list N) : list N := be_bytes 4 (N.of_nat (length bs)) ++ bs.

(** [None] when the identifier is not valid hexadecimal and [as_bytes] panics. *)
Definition ProviderRecord_signing_data `{Hex} (r : ProviderRecord) : option (list N) :=
  provider_id_bytes ← NodeId_as_bytes (pr_provider_id r);
  Some (len_prefixed (key_bytes (pr_key r)) ++ len_prefixed provider_id_bytes ++
        len_prefixed (str_bytes (pr_provider_addr r)) ++ be_bytes 8 (pr_ttl_secs r)).

Definition set_signature (sig : option (list N)) (r : ProviderRecord) : ProviderRecord :=
  {| pr_key := pr_key r; pr_provider_id := pr_provider_id r; pr_provider_addr := pr_provider_addr r;
     pr_ttl_secs := pr_ttl_secs r; pr_created_at := pr_created_at r; pr_signature := sig |}.

Definition ProviderRecord_sign `{Hex} (sign : list N → list N) (r : ProviderRecord)
  : option ProviderRecord :=
  data ← ProviderRecord_signing_data r; Some (set_signature (Some (sign data)) r).

Definition ProviderRecord_verify_signature `{Hex} (verify : list N → list N → bool)
    (r : ProviderRecord) : option bool :=
  match pr_signature r with
  | Some sig => data ← ProviderRecord_signing_data r; Some (verify data sig)
  | None => Some false
  end.

(** ** Name records *)

Record IpnRecord : Type := mkIpnRecord {
  ipn_name : DhtKey;
  ipn_value : string;
  ipn_sequence : N;
  ipn_ttl_secs : N;
  ipn_created : N;
  ipn_expires : N;
  ipn_signature : list N
}.

#[global] Instance IpnRecord_eq_dec : EqDecision IpnRecord.
Proof. solve_decision. Defined.

Definition IpnRecord_new (now : N) (name : DhtKey) (value : string) : IpnRecord :=
  {| ipn_name := name; ipn_value := value; ipn_sequence := 1; ipn_ttl_secs := default_ttl;
     ipn_created := now; ipn_expires := now + default_ttl; ipn_signature := [] |}.

Definition IpnRecord_update (now : N) (r : IpnRecord) (new_value : string) : IpnRecord :=
  {| ipn_name := ipn_name r; ipn_value := new_value;
     ipn_sequence := sat_add u64_max (ipn_sequence r) 1; ipn_ttl_secs := ipn_ttl_secs r;
     ipn_created := now; ipn_expires := sat_add u64_max now (ipn_ttl_secs r);
     ipn_signature := ipn_signature r |}.

Definition IpnRecord_is_expired (now : N) (r : IpnRecord) : bool := ipn_expires r <? now.

Definition IpnRecord_signing_data (r : IpnRecord) : list N :=
  len_prefixed (key_bytes (ipn_name r)) ++ len_prefixed (str_bytes (ipn_value r)) ++
  be_bytes 8 (ipn_sequence r) ++ be_bytes 8 (ipn_created r) ++ be_bytes 8 (ipn_expires r).

Definition IpnRecord_verify (verify : list N → list N → bool) (r : IpnRecord) : bool :=
  verify (IpnRecord_signing_data r) (ipn_signature r).

(** ** Values and node descriptions *)

Record NodeInfo : Type := mkNodeInfo { ni_id : NodeId; ni_addrs : list string }.

Record DhtValue : Type := mkDhtValue { dv_data : list N; dv_timestamp : N; dv_ttl_secs : N }.

#[global] Instance DhtValue_eq_dec : EqDecision DhtValue.
Proof. solve_decision. Defined.

(** ** Wire messages *)

Definition MAX_NODES : nat := 20%nat.
Definition MAX_PROVIDERS : nat := 20%nat.
Definition MAX_VALUE_SIZE : N := 1024 * 1024.

Definition RequestId : Type := string.

Record NodeContact : Type := mkNodeContact { nc_id : NodeId; nc_addrs : list string }.

Record ProviderRecordWire : Type := mkProviderRecordWire {
  pw_provider_id : NodeId;
  pw_addrs : list string;
  pw_ttl_secs : N;
  pw_signature : option (list N)
}.

Record ValueData : Type := mkValueData { vd_data : list N; vd_timestamp : N; vd_ttl_secs : N }.

Inductive DhtWireMessage : Type :=
| FindNode (key : list N) (request_id : RequestId) (sender_id : NodeId)
| Nodes (request_id : RequestId) (nodes : list NodeContact)
| GetProviders (key : list N) (request_id : RequestId) (sender_id : NodeId)
| Providers (request_id : RequestId) (providers : list ProviderRecordWire)
| AddProvider (key : list N) (provider : ProviderRecordWire) (request_id : RequestId) (sender_id : NodeId)
| AddProviderAck (request_id : RequestId) (accepted : bool) (error : option string)
| GetValue (key : list N) (request_id : RequestId) (sender_id : NodeId)
| Value (request_id : RequestId) (value : option ValueData)
| PutValue (key : list N) (value : ValueData) (request_id : RequestId) (sender_id : NodeId)
| PutAck (request_id : RequestId) (success : bool) (error : option string)
| Ping (request_id : RequestId) (sender_id : NodeId)
| Pong (request_id : RequestId) (sender_id : NodeId).

Definition message_type (m : DhtWireMessage) : string :=
  match m with
  | FindNode _ _ _ => "find_node"
  | Nodes _ _ => "nodes"
  | GetProviders _ _ _ => "get_providers"
  | Providers _ _ => "providers"
  | AddProvider _ _ _ _ => "add_provider"
  | AddProviderAck _ _ _ => "add_provider_ack"
  | GetValue _ _ _ => "get_value"
  | Value _ _ => "value"
  | PutValue _ _ _ _ => "put_value"
  | PutAck _ _ _ => "put_ack"
  | Ping _ _ => "ping"
  | Pong _ _ => "pong"
  end.

(** [DhtMessageBuilder]; the request identifier [RequestId::new] draws is an
    argument. *)
Definition DhtMessageBuilder_find_node (self : NodeId) (rid : RequestId) (key : list N) :=
  FindNode key rid self.
Definition DhtMessageBuilder_get_providers (self : NodeId) (rid : RequestId) (key : list N) :=
  GetProviders key rid self.
Definition DhtMessageBuilder_add_provider (self : NodeId) (rid : RequestId) (key : list N)
    (provider_id : NodeId) (addrs : list string) (ttl_secs : N) :=
  AddProvider key (mkProviderRecordWire provider_id addrs ttl_secs None) rid self.
Definition DhtMessageBuilder_ping (self : NodeId) (rid : RequestId) := Ping rid self.

(** ** What is signed *)

Lemma len_prefixed_inj (a b c d : list N) :
  N.of_nat (length a) < 2 ^ 32 → N.of_nat (length c) < 2 ^ 32 →
  len_prefixed a ++ b = len_prefixed c ++ d → a = c ∧ b = d.
Proof.
  intros Ha Hc. unfold len_prefixed. rewrite <- !app_assoc.
  apply (prefixed_inj (λ n, be_bytes 4 (N.of_nat n)) 4 (N.to_nat (2 ^ 32))); try lia.
  - intros n. apply length_be_bytes.
  - intros n m Hn Hm He%be_bytes_inj; [lia|change (256 ^ N.of_nat 4) with (2 ^ 32); lia..].
Qed.

Lemma be_bytes8_inj n m : n ≤ u64_max → m ≤ u64_max → be_bytes 8 n = be_bytes 8 m → n = m.
Proof.
  intros Hn Hm H%be_bytes_inj; [done|..];
    change (256 ^ N.of_nat 8) with (u64_max + 1); lia.
Qed.

(** The sizes the wire format can express. *)
Definition field_ok (bs : list N) : Prop := N.of_nat (length bs) < 2 ^ 32.

Record provider_ok `{Hex} (r : ProviderRecord) : Prop := {
  po_key : field_ok (key_bytes (pr_key r));
  po_id : node_ok (pr_provider_id r);
  po_addr : field_ok (str_bytes (pr_provider_addr r));
  po_ttl : pr_ttl_secs r ≤ u64_max
}.

(** Same signed tuple. *)
Definition same_signed (r s : ProviderRecord) : Prop :=
  pr_key r = pr_key s ∧ pr_provider_id r = pr_provider_id s ∧
  pr_provider_addr r = pr_provider_addr s ∧ pr_ttl_secs r = pr_ttl_secs s.

Section Signing.
Context `{HX : Hex} {HL : HexLaws HX}.

Lemma signing_data_some r : provider_ok r → is_Some (ProviderRecord_signing_data r).
Proof. intros Hr. unfold ProviderRecord_signing_data. rewrite NodeId_as_bytes_ok by apply Hr. by eexists. Qed.

Lemma signing_data_inj r s :
  provider_ok r → provider_ok s →
  ProviderRecord_signing_data r = ProviderRecord_signing_data s ↔ same_signed r s.
Proof.
  intros [Hk Hi Ha Ht] [Hk' Hi' Ha' Ht']. unfold ProviderRecord_signing_data, same_signed, field_ok in *.
  rewrite !NodeId_as_bytes_ok by done.
  assert (Hn : ∀ id, node_ok id → N.of_nat (length (node_bytes id)) < 2 ^ 32).
  { intros id [-> _]%node_bytes_ok. done. }
  cbn [mbind option_bind]. split.
  - intros H%(inj Some).
    apply len_prefixed_inj in H as [Hkey H]; [|done..].
    apply len_prefixed_inj in H as [Hid H]; [|by apply Hn..].
    apply len_prefixed_inj in H as [Haddr H]; [|done..].
    split_and!; [|by apply node_bytes_inj|by apply (inj str_bytes)|by apply be_bytes8_inj].
    destruct (pr_key r), (pr_key s). simpl in Hkey. by subst.
  - intros (-> & -> & -> & ->). done.
Qed.

(** The bytes signed for a provider record determine, and are determined
    by, the tuple (key, provider, address, lifetime): no choice of the fields,
    the address included, makes two different tuples share their signed bytes. *)
Theorem provider_signing_data_injective r s :
  provider_ok r → provider_ok s →
  is_Some (ProviderRecord_signing_data r) ∧
  (ProviderRecord_signing_data r = ProviderRecord_signing_data s ↔ same_signed r s).
Proof. intros Hr Hs. split; [by apply signing_data_some|by apply signing_data_inj]. Qed.

(** Signatures: under a signature scheme that accepts its own signatures
    and none made for other data, a freshly signed record verifies; and a record
    that carries the signature of another verifies exactly when both have the
    same (key, provider, address, lifetime). *)
Theorem provider_signature_sound (sign : list N → list N) (verify : list N → list N → bool) r s r' :
  (∀ d d', verify d (sign d') = true ↔ d = d') →
  provider_ok r → provider_ok s → ProviderRecord_sign sign r = Some r' →
  ProviderRecord_verify_signature verify r' = Some true ∧
  (ProviderRecord_verify_signature verify (set_signature (pr_signature r') s) = Some true
     ↔ same_signed r s).
Proof.
  intros Hv Hr Hs. unfold ProviderRecord_sign.
  destruct (signing_data_some r Hr) as [d Hd]. destruct (signing_data_some s Hs) as [d' Hd'].
  rewrite Hd. simpl. intros [= <-]. unfold ProviderRecord_verify_signature. simpl.
  change (ProviderRecord_signing_data (set_signature (Some (sign d)) r)) with (ProviderRecord_signing_data r).
  change (ProviderRecord_signing_data (set_signature (Some (sign d)) s)) with (ProviderRecord_signing_data s).
  rewrite Hd, Hd'. simpl. split; [f_equal; by apply Hv|].
  rewrite <- signing_data_inj by done. rewrite Hd, Hd'.
  split; [intros [= H]; by apply Hv in H as ->|intros [= ->]; f_equal; by apply Hv].
Qed.
End Signing.

Definition ipn_ok (r : IpnRecord) : Prop :=
  field_ok (key_bytes (ipn_name r)) ∧ field_ok (str_bytes (ipn_value r)) ∧
  ipn_sequence r ≤ u64_max ∧ ipn_created r ≤ u64_max ∧ ipn_expires r ≤ u64_max.

(** The bytes signed for a name record determine its name, value, sequence
    number, creation and expiry times. *)
Theorem ipn_signing_data_injective r s :
  ipn_ok r → ipn_ok s → IpnRecord_signing_data r = IpnRecord_signing_data s →
  ipn_name r = ipn_name s ∧ ipn_value r = ipn_value s ∧ ipn_sequence r = ipn_sequence s ∧
  ipn_created r = ipn_created s ∧ ipn_expires r = ipn_expires s.
Proof.
  intros (Hn & Hv & Hq & Hc & He) (Hn' & Hv' & Hq' & Hc' & He') H. unfold IpnRecord_signing_data in H.
  apply len_prefixed_inj in H as [Hname H]; [|done..].
  apply len_prefixed_inj in H as [Hval H]; [|done..].
  apply app_inj_length in H as [Hs H]; [|by rewrite !length_be_bytes].
  apply app_inj_length in H as [Hcr H]; [|by rewrite !length_be_bytes].
  split_and!; [|by apply (inj str_bytes)|by apply be_bytes8_inj..].
  destruct (ipn_name r), (ipn_name s). simpl in Hname. by subst.
Qed.

(** ** Lifetimes *)

(** Lifetimes: a provider record is expired exactly from the second after
    [created_at + ttl] (saturated at the largest [u64]) on, for good; while it
    is not, the remaining lifetime is the time left, and at most the lifetime
    once the clock has reached [created_at]. Updating a name record renews it
    for its lifetime and strictly increases its sequence number until that
    saturates. *)
Theorem record_lifetimes (p : ProviderRecord) (r : IpnRecord) v now later :
  now ≤ later → later ≤ u64_max →
  (ProviderRecord_is_expired now p = true → ProviderRecord_is_expired later p = true) ∧
  (ProviderRecord_is_expired now p = false →
     now + ProviderRecord_remaining_ttl now p = N.min (pr_created_at p + pr_ttl_secs p) u64_max) ∧
  (pr_created_at p ≤ now → ProviderRecord_remaining_ttl now p ≤ pr_ttl_secs p) ∧
  (ProviderRecord_is_expired later p = false ↔ later ≤ pr_created_at p + pr_ttl_secs p) ∧
  (ipn_sequence r < u64_max → ipn_sequence r < ipn_sequence (IpnRecord_update now r v)) ∧
  ipn_sequence r `min` u64_max ≤ ipn_sequence (IpnRecord_update now r v) ≤ u64_max ∧
  (IpnRecord_is_expired later (IpnRecord_update now r v) = true ↔ now + ipn_ttl_secs r < later).
Proof.
  intros Hl Hu.
  unfold ProviderRecord_is_expired, ProviderRecord_remaining_ttl, IpnRecord_is_expired,
    IpnRecord_update, sat_add. cbn [ipn_sequence ipn_expires].
  rewrite !N.ltb_lt, !N.ltb_ge.
  destruct (N.leb_spec (N.min (pr_created_at p + pr_ttl_secs p) u64_max) now); split_and!; try split; lia.
Qed.

(** ** The logarithmic distance *)

(** [log_distance] reads the last differing byte, so it does not grow with the
    distance: of two keys at distances [1] and [256 + 1] from the third, both
    are at the same logarithmic distance, and a key that differs in the first
    byte alone is closer than one that differs in the last alone. *)
Theorem log_distance_not_monotone :
  DhtKey_log_distance (mkDhtKey [0; 0]) (mkDhtKey [0; 1]) = Some 15 ∧
  DhtKey_log_distance (mkDhtKey [0; 0]) (mkDhtKey [1; 1]) = Some 15 ∧
  DhtKey_log_distance (mkDhtKey [0; 0]) (mkDhtKey [1; 0]) = Some 7.
Proof. vm_compute. done. Qed.

(** ** Witnesses *)

Definition ex_provider (addr : string) : ProviderRecord :=
  ProviderRecord_new 1000 (mkDhtKey [1; 2; 3]) (id_of_byte 7) addr.

Lemma ex_provider_ok (addr : string) :
  N.of_nat (String.length addr) < 2 ^ 32 → provider_ok (ex_provider addr).
Proof.
  intros Ha. split; [done|by apply id_of_byte_ok| |by vm_compute].
  unfold field_ok. by rewrite length_str_bytes.
Qed.

Lemma provider_signing_data_injective_witness :
  ProviderRecord_signing_data (ex_provider "a:1:2") ≠ ProviderRecord_signing_data (ex_provider "a").
Proof.
  assert (H1 : provider_ok (ex_provider "a:1:2")) by (apply ex_provider_ok; reflexivity).
  assert (H2 : provider_ok (ex_provider "a")) by (apply ex_provider_ok; reflexivity).
  intros H. apply (provider_signing_data_injective _ _ H1 H2) in H as (_ & _ & H & _). discriminate.
Defined.

Lemma provider_signature_sound_witness :
  ProviderRecord_verify_signature (λ d s, bool_decide (d = s))
    (set_signature (ProviderRecord_signing_data (ex_provider "a")) (ex_provider "b")) ≠ Some true.
Proof.
  assert (H1 : provider_ok (ex_provider "a")) by (apply ex_provider_ok; reflexivity).
  assert (H2 : provider_ok (ex_provider "b")) by (apply ex_provider_ok; reflexivity).
  destruct (signing_data_some _ H1) as [d Hd].
  assert (ProviderRecord_sign id (ex_provider "a") = Some (set_signature (Some d) (ex_provider "a")))
    as Hsig. { unfold ProviderRecord_sign. rewrite Hd. reflexivity. }
  destruct (provider_signature_sound id (λ d s, bool_decide (d = s)) (ex_provider "a") (ex_provider "b")
    (set_signature (Some d) (ex_provider "a"))) as [_ H]; try assumption.
  - intros d1 d2. apply bool_decide_eq_true.
  - simpl in H. rewrite <- Hd in H. intros Hc. apply H in Hc as (_ & _ & Hc & _). discriminate.
Defined.

Lemma ipn_signing_data_injective_witness :
  IpnRecord_signing_data (IpnRecord_new 5 (mkDhtKey [1]) "x") ≠
  IpnRecord_signing_data (IpnRecord_new 5 (mkDhtKey [1]) "y").
Proof.
  intros H. apply ipn_signing_data_injective in H as (_ & H & _).
  - discriminate.
  - vm_compute. split_and!; discriminate || reflexivity.
  - vm_compute. split_and!; discriminate || reflexivity.
Defined.

Lemma record_lifetimes_witness :
  ProviderRecord_is_expired 87401 (ex_provider "a") = true ∧
  ProviderRecord_is_expired 90000 (ex_provider "a") = true.
Proof.
  split; [reflexivity|].
  refine (proj1 (record_lifetimes (ex_provider "a") (IpnRecord_new 5 (mkDhtKey [1]) "x") "y"
    87401 90000 _ _) _); vm_compute; discriminate || reflexivity.
Defined.
