(* ===== verification/DhtStore.v ===== *)
(** * DHT storage ([crates/a3net-dht/src/store.rs])

    The trait [DhtStorage] is the class of the same name; its implementations
    [InMemoryDhtStore], [RocksDbDhtStore] and [TieredDhtStore] are its
    instances. A method that only reads returns a value, one that may write
    returns the new state as well; a method that reads the clock takes [now].
    RocksDB and [serde_json] are outside the repository: the classes [Kv] and
    [Serde] with the laws the code relies on. The locks of the in-memory store
    make each method one transition. *)
From stdpp Require Import prelude strings gmap list.
From Stdlib Require Import NArith Lia.
From S2P Require Import Prelude NodeId DhtRecord.

#[local] Open Scope N_scope.

(** ** The trait *)

Class DhtStorage (S : Type) : Type := {
  put_provider : S → DhtKey → ProviderRecord → S * bool;
  get_providers : N → S → DhtKey → S * list ProviderRecord;
  remove_expired_providers : N → S → S * nat;
  put_ipns : S → DhtKey → IpnRecord → S * bool;
  get_ipns : S → DhtKey → option IpnRecord;
  put_value : S → DhtKey → DhtValue → S * bool;
  get_value : S → DhtKey → option DhtValue;
  remove_expired_values : N → S → S * nat;
  store_clear : S → S;
  store_len : S → nat;
  get_all_provider_count : N → S → nat;
  get_ipns_count : S → nat;
  get_values_count : N → S → nat
}.

(** [v.timestamp + v.ttl_secs < now]; the addition wraps in a release build. *)
Definition value_expired (now : N) (v : DhtValue) : bool :=
  (dv_timestamp v + dv_ttl_secs v) mod 2 ^ 64 <? now.

(** ** The in-memory store *)

Record InMemoryDhtStore : Type := mkInMemoryDhtStore {
  im_providers : gmap DhtKey (list ProviderRecord);
  im_ipns : gmap DhtKey IpnRecord;
  im_values : gmap DhtKey DhtValue
}.

Definition InMemoryDhtStore_new : InMemoryDhtStore := mkInMemoryDhtStore ∅ ∅ ∅.

Definition set_im_providers (s : InMemoryDhtStore) m := mkInMemoryDhtStore m (im_ipns s) (im_values s).
Definition set_im_ipns (s : InMemoryDhtStore) m := mkInMemoryDhtStore (im_providers s) m (im_values s).
Definition set_im_values (s : InMemoryDhtStore) m := mkInMemoryDhtStore (im_providers s) (im_ipns s) m.

Definition num_providers (s : InMemoryDhtStore) : nat := size (im_providers s).

Definition live (now : N) (r : ProviderRecord) : Prop := ProviderRecord_is_expired now r = false.
#[global] Instance live_dec now r : Decision (live now r).
Proof. unfold live. apply _. Defined.

Definition mem_put_provider (s : InMemoryDhtStore) (key : DhtKey) (record : ProviderRecord)
  : InMemoryDhtStore * bool :=
  let entry := default [] (im_providers s !! key) in
  let kept := filter (λ r, pr_provider_id r ≠ pr_provider_id record) entry in
  (set_im_providers s (<[key := kept ++ [record]]> (im_providers s)), true).

Definition mem_get_providers (now : N) (s : InMemoryDhtStore) (key : DhtKey) : list ProviderRecord :=
  filter (live now) (default [] (im_providers s !! key)).

(** The records of all keys. *)
Definition provider_total (m : gmap DhtKey (list ProviderRecord)) : nat :=
  list_sum ((λ p, length p.2) <$> map_to_list m).

Definition mem_remove_expired_providers (now : N) (s : InMemoryDhtStore) : InMemoryDhtStore * nat :=
  let pruned := filter (live now) <$> im_providers s in
  let removed := list_sum ((λ p, length p.2 - length (filter (live now) p.2))%nat
                             <$> map_to_list (im_providers s)) in
  (set_im_providers s (filter (λ p, p.2 ≠ []) pruned), removed).

Definition mem_put_ipns (s : InMemoryDhtStore) (name : DhtKey) (record : IpnRecord)
  : InMemoryDhtStore * bool :=
  match im_ipns s !! name with
  | Some existing =>
      if ipn_sequence record <=? ipn_sequence existing then (s, false)
      else (set_im_ipns s (<[name := record]> (im_ipns s)), true)
  | None => (set_im_ipns s (<[name := record]> (im_ipns s)), true)
  end.

Definition mem_put_value (s : InMemoryDhtStore) (key : DhtKey) (value : DhtValue)
  : InMemoryDhtStore * bool :=
  (set_im_values s (<[key := value]> (im_values s)), true).

Definition mem_remove_expired_values (now : N) (s : InMemoryDhtStore) : InMemoryDhtStore * nat :=
  let kept := filter (λ p, value_expired now p.2 = false) (im_values s) in
  (set_im_values s kept, size (filter (λ p, value_expired now p.2 = true) (im_values s))).

Definition mem_len (s : InMemoryDhtStore) : nat :=
  (size (im_providers s) + size (im_ipns s) + size (im_values s))%nat.

Definition mem_clear (s : InMemoryDhtStore) : InMemoryDhtStore := mkInMemoryDhtStore ∅ ∅ ∅.

#[global] Instance InMemoryDhtStore_storage : DhtStorage InMemoryDhtStore := {|
  put_provider := mem_put_provider;
  get_providers now s key := (s, mem_get_providers now s key);
  remove_expired_providers := mem_remove_expired_providers;
  put_ipns := mem_put_ipns;
  get_ipns s name := im_ipns s !! name;
  put_value := mem_put_value;
  get_value s key := im_values s !! key;
  remove_expired_values := mem_remove_expired_values;
  store_clear := mem_clear;
  store_len := mem_len;
  get_all_provider_count _ s := provider_total (im_providers s);
  get_ipns_count s := size (im_ipns s);
  get_values_count _ s := size (im_values s)
|}.

(** ** The RocksDB store *)

(** The database: [kv_get] is [None] for a missing key and for a failed read;
    the flag of a write says whether it succeeded; [kv_prefix_iterator] is the
    snapshot of successfully read entries the iterator visits. *)
Class Kv (D : Type) : Type := {
  kv_get : D → list N → option (list N);
  kv_put : D → list N → list N → D * bool;
  kv_delete : D → list N → D * bool;
  kv_prefix_iterator : D → list N → list (list N * list N)
}.

Class KvLaws (D : Type) `{Kv D} : Prop := {
  kv_put_ok d k v : (kv_put d k v).2 = true → kv_get (kv_put d k v).1 k = Some v;
  kv_put_other d k v k' : k' ≠ k → kv_get (kv_put d k v).1 k' = kv_get d k';
  kv_put_failed d k v : (kv_put d k v).2 = false → kv_get (kv_put d k v).1 k = kv_get d k;
  kv_delete_other d k k' : k' ≠ k → kv_get (kv_delete d k).1 k' = kv_get d k'
}.

(** [serde_json] at the stored types. *)
Class Serde : Type := {
  ser_provider : ProviderRecord → option (list N);
  de_provider : list N → option ProviderRecord;
  ser_ipn : IpnRecord → option (list N);
  de_ipn : list N → option IpnRecord;
  ser_value : DhtValue → option (list N);
  de_value : list N → option DhtValue
}.

(** Decoding inverts encoding, but for the signature of a provider record,
    which is marked [#[serde(skip)]]. *)
Class SerdeLaws (H : Serde) : Prop := {
  de_ser_provider r bs : ser_provider r = Some bs → de_provider bs = Some (set_signature None r);
  de_ser_ipn r bs : ser_ipn r = Some bs → de_ipn bs = Some r;
  de_ser_value v bs : ser_value v = Some bs → de_value bs = Some v
}.

Record RocksDbDhtStore (D : Type) : Type := mkRocksDbDhtStore { rk_db : D }.
Arguments mkRocksDbDhtStore {D} _.
Arguments rk_db {D} _.

Definition make_key (prefix : N) (key : DhtKey) : list N := prefix :: key_bytes key.

(** The prefixes [b'P'], [b'I'] and [b'V']. *)
Definition prefix_P : N := 80.
Definition prefix_I : N := 73.
Definition prefix_V : N := 86.

Section RocksDb.
Context {D : Type} `{Kv D, Serde}.
Notation store := (RocksDbDhtStore D).

Definition rk_put (s : store) (db_key : list N) (bytes : option (list N)) : store * bool :=
  match bytes with
  | Some value => let '(db, ok) := kv_put (rk_db s) db_key value in (mkRocksDbDhtStore db, ok)
  | None => (s, false)
  end.

Definition rk_put_provider (s : store) (key : DhtKey) (record : ProviderRecord) : store * bool :=
  rk_put s (make_key prefix_P key) (ser_provider record).

Definition rk_get_providers (now : N) (s : store) (key : DhtKey) : store * list ProviderRecord :=
  let db_key := make_key prefix_P key in
  match kv_get (rk_db s) db_key with
  | Some bytes =>
      match de_provider bytes with
      | Some record =>
          if ProviderRecord_is_expired now record
          then (mkRocksDbDhtStore (kv_delete (rk_db s) db_key).1, [])
          else (s, [record])
      | None => (s, [])
      end
  | None => (s, [])
  end.

(** Deletes the visited entries for which the test holds, counting the
    deletions that succeed. *)
Definition delete_where (test : list N → bool) (items : list (list N * list N)) (d : D) : D * nat :=
  foldl (λ '(d, removed) item,
    if test item.2 then
      let '(d', ok) := kv_delete d item.1 in (d', if ok : bool then S removed else removed)
    else (d, removed)) (d, 0%nat) items.

Definition rk_remove_expired_providers (now : N) (s : store) : store * nat :=
  let '(d, n) := delete_where
    (λ bytes, match de_provider bytes with
              | Some record => ProviderRecord_is_expired now record
              | None => false
              end) (kv_prefix_iterator (rk_db s) [prefix_P]) (rk_db s) in
  (mkRocksDbDhtStore d, n).

Definition rk_put_ipns (s : store) (name : DhtKey) (record : IpnRecord) : store * bool :=
  rk_put s (make_key prefix_I name) (ser_ipn record).

Definition rk_get_ipns (s : store) (name : DhtKey) : option IpnRecord :=
  bytes ← kv_get (rk_db s) (make_key prefix_I name); de_ipn bytes.

Definition rk_put_value (s : store) (key : DhtKey) (value : DhtValue) : store * bool :=
  rk_put s (make_key prefix_V key) (ser_value value).

Definition rk_get_value (s : store) (key : DhtKey) : option DhtValue :=
  bytes ← kv_get (rk_db s) (make_key prefix_V key); de_value bytes.

Definition rk_len (s : store) : nat :=
  (length (kv_prefix_iterator (rk_db s) [prefix_P]) + length (kv_prefix_iterator (rk_db s) [prefix_I])
   + length (kv_prefix_iterator (rk_db s) [prefix_V]))%nat.

Definition rk_all_provider_count (now : N) (s : store) : nat :=
  length (List.filter (λ item, match de_provider item.2 with
                               | Some record => negb (ProviderRecord_is_expired now record)
                               | None => false
                               end) (kv_prefix_iterator (rk_db s) [prefix_P])).

Definition rk_values_count (now : N) (s : store) : nat :=
  length (List.filter (λ item, match de_value item.2 with
                               | Some value => negb (value_expired now value)
                               | None => false
                               end) (kv_prefix_iterator (rk_db s) [prefix_V])).

Definition rk_remove_expired_values (now : N) (s : store) : store * nat :=
  let '(d, n) := delete_where
    (λ bytes, match de_value bytes with Some value => value_expired now value | None => false end)
    (kv_prefix_iterator (rk_db s) [prefix_V]) (rk_db s) in
  (mkRocksDbDhtStore d, n).

Definition rk_clear (s : store) : store :=
  mkRocksDbDhtStore
    (foldl (λ d p, (delete_where (λ _, true) (kv_prefix_iterator d [p]) d).1) (rk_db s)
       [prefix_P; prefix_I; prefix_V]).

#[global] Instance RocksDbDhtStore_storage : DhtStorage store := {|
  put_provider := rk_put_provider;
  get_providers := rk_get_providers;
  remove_expired_providers := rk_remove_expired_providers;
  put_ipns := rk_put_ipns;
  get_ipns := rk_get_ipns;
  put_value := rk_put_value;
  get_value := rk_get_value;
  remove_expired_values := rk_remove_expired_values;
  store_clear := rk_clear;
  store_len := rk_len;
  get_all_provider_count := rk_all_provider_count;
  get_ipns_count s := length (kv_prefix_iterator (rk_db s) [prefix_I]);
  get_values_count := rk_values_count
|}.
End RocksDb.

(** ** The tiered store *)

Record TieredDhtStore (D : Type) : Type := mkTieredDhtStore {
  td_memory : InMemoryDhtStore;
  td_rocksdb : RocksDbDhtStore D
}.
Arguments mkTieredDhtStore {D} _ _.
Arguments td_memory {D} _.
Arguments td_rocksdb {D} _.

Section Tiered.
Context {D : Type} `{Kv D, Serde}.
Notation store := (TieredDhtStore D).

Definition td_put_provider (s : store) (key : DhtKey) (record : ProviderRecord) : store * bool :=
  let '(m, _) := put_provider (td_memory s) key record in
  let '(r, ok) := put_provider (td_rocksdb s) key record in
  (mkTieredDhtStore m r, ok).

Definition td_get_providers (now : N) (s : store) (key : DhtKey) : store * list ProviderRecord :=
  let '(m, l1) := get_providers now (td_memory s) key in
  match l1 with
  | _ :: _ => (mkTieredDhtStore m (td_rocksdb s), l1)
  | [] =>
      let '(r, l2) := get_providers now (td_rocksdb s) key in
      (mkTieredDhtStore (foldl (λ m rec, (put_provider m key rec).1) m l2) r, l2)
  end.

Definition td_remove_expired_providers (now : N) (s : store) : store * nat :=
  let '(m, n1) := remove_expired_providers now (td_memory s) in
  let '(r, n2) := remove_expired_providers now (td_rocksdb s) in
  (mkTieredDhtStore m r, (n1 + n2)%nat).

Definition td_put_ipns (s : store) (name : DhtKey) (record : IpnRecord) : store * bool :=
  let '(m, _) := put_ipns (td_memory s) name record in
  let '(r, ok) := put_ipns (td_rocksdb s) name record in
  (mkTieredDhtStore m r, ok).

(** [Option::or_else]. *)
Definition opt_or {A} (a b : option A) : option A := match a with Some _ => a | None => b end.

Definition td_get_ipns (s : store) (name : DhtKey) : option IpnRecord :=
  opt_or (get_ipns (td_memory s) name) (get_ipns (td_rocksdb s) name).

Definition td_put_value (s : store) (key : DhtKey) (value : DhtValue) : store * bool :=
  let '(m, _) := put_value (td_memory s) key value in
  let '(r, ok) := put_value (td_rocksdb s) key value in
  (mkTieredDhtStore m r, ok).

Definition td_get_value (s : store) (key : DhtKey) : option DhtValue :=
  opt_or (get_value (td_memory s) key) (get_value (td_rocksdb s) key).

Definition td_remove_expired_values (now : N) (s : store) : store * nat :=
  let '(m, n1) := remove_expired_values now (td_memory s) in
  let '(r, n2) := remove_expired_values now (td_rocksdb s) in
  (mkTieredDhtStore m r, (n1 + n2)%nat).

Definition td_clear (s : store) : store :=
  mkTieredDhtStore (store_clear (td_memory s)) (store_clear (td_rocksdb s)).

#[global] Instance TieredDhtStore_storage : DhtStorage store := {|
  put_provider := td_put_provider;
  get_providers := td_get_providers;
  remove_expired_providers := td_remove_expired_providers;
  put_ipns := td_put_ipns;
  get_ipns := td_get_ipns;
  put_value := td_put_value;
  get_value := td_get_value;
  remove_expired_values := td_remove_expired_values;
  store_clear := td_clear;
  store_len s := (store_len (td_memory s) + store_len (td_rocksdb s))%nat;
  get_all_provider_count now s :=
    (get_all_provider_count now (td_memory s) + get_all_provider_count now (td_rocksdb s))%nat;
  get_ipns_count s := (get_ipns_count (td_memory s) + get_ipns_count (td_rocksdb s))%nat;
  get_values_count now s :=
    (get_values_count now (td_memory s) + get_values_count now (td_rocksdb s))%nat
|}.
End Tiered.

(** ** The in-memory store as a relation

    [holds s k r]: the store lists [r] under [k]. *)

Definition holds (s : InMemoryDhtStore) (k : DhtKey) (r : ProviderRecord) : Prop :=
  r ∈ default [] (im_providers s !! k).

(** One record per provider under a key. *)
Definition providers_ok (s : InMemoryDhtStore) : Prop :=
  ∀ k l, im_providers s !! k = Some l → NoDup (pr_provider_id <$> l).

Lemma providers_ok_default s k : providers_ok s → NoDup (pr_provider_id <$> default [] (im_providers s !! k)).
Proof. intros Hs. destruct (im_providers s !! k) eqn:H; simpl; [by eapply Hs|constructor]. Qed.

Lemma holds_put s k r k' r' :
  holds (mem_put_provider s k r).1 k' r' ↔
  (k' = k ∧ r' = r) ∨ (holds s k' r' ∧ ¬ (k' = k ∧ pr_provider_id r' = pr_provider_id r)).
Proof.
  unfold holds, mem_put_provider. cbn [fst set_im_providers im_providers].
  destruct (decide (k' = k)) as [->|Hk].
  - rewrite lookup_insert_eq. simpl. rewrite elem_of_app, list_elem_of_filter, list_elem_of_singleton.
    naive_solver.
  - rewrite lookup_insert_ne by done. naive_solver.
Qed.

Lemma providers_ok_put s k r : providers_ok s → providers_ok (mem_put_provider s k r).1.
Proof.
  intros Hs k' l. unfold mem_put_provider. cbn [fst set_im_providers im_providers].
  intros [[<- <-]|[_ Hl]]%lookup_insert_Some; [|by eapply Hs].
  rewrite fmap_app. simpl. apply NoDup_app. split_and!; [| |apply NoDup_singleton].
  - apply NoDup_fmap_filter. by apply providers_ok_default.
  - intros id (x & -> & Hx)%list_elem_of_fmap Hid%list_elem_of_singleton.
    by apply list_elem_of_filter in Hx as [Hx _].
Qed.

Lemma holds_remove_expired now s k r :
  holds (mem_remove_expired_providers now s).1 k r ↔ holds s k r ∧ live now r.
Proof.
  unfold holds, mem_remove_expired_providers. cbn [fst set_im_providers im_providers].
  rewrite map_lookup_filter, lookup_fmap. destruct (im_providers s !! k) as [l|]; simpl.
  - destruct (decide (filter (live now) l = [])) as [He|Hne].
    + rewrite option_guard_False by naive_solver. simpl. split; [by intros ?%elem_of_nil|].
      intros [Hr Hl]. exfalso. apply (not_elem_of_nil r). rewrite <- He. by apply list_elem_of_filter.
    + rewrite option_guard_True by done. simpl. rewrite list_elem_of_filter. naive_solver.
  - split; [by intros ?%elem_of_nil|intros [?%elem_of_nil _]; done].
Qed.

Lemma providers_ok_remove_expired now s : providers_ok s → providers_ok (mem_remove_expired_providers now s).1.
Proof.
  intros Hs k l. unfold mem_remove_expired_providers. cbn [fst set_im_providers im_providers].
  intros [Hl _]%map_lookup_filter_Some. rewrite lookup_fmap in Hl.
  destruct (im_providers s !! k) as [l0|] eqn:Hk; simplify_eq/=. apply NoDup_fmap_filter. by eapply Hs.
Qed.

(** The counts: what is removed and what is left add up. *)
Lemma provider_total_filter_nonempty (m : gmap DhtKey (list ProviderRecord)) :
  provider_total (filter (λ p, p.2 ≠ []) m) = provider_total m.
Proof.
  unfold provider_total. induction m as [|k l m Hk IH] using map_ind; [done|].
  rewrite map_to_list_insert by done. rewrite fmap_cons. simpl. destruct (decide (l = [])) as [->|Hl].
  - rewrite map_filter_insert_False by naive_solver. rewrite (delete_id m k) by done. simpl. done.
  - rewrite map_filter_insert_True by done.
    rewrite map_to_list_insert by (apply map_lookup_filter_None; by left).
    rewrite fmap_cons. simpl. by rewrite IH.
Qed.

Lemma removed_plus_kept now (m : gmap DhtKey (list ProviderRecord)) :
  (list_sum ((λ p, length p.2 - length (filter (live now) p.2))%nat <$> map_to_list m)
   + provider_total (filter (live now) <$> m))%nat = provider_total m.
Proof.
  unfold provider_total. induction m as [|k l m Hk IH] using map_ind.
  { by rewrite fmap_empty, map_to_list_empty. }
  rewrite fmap_insert.
  rewrite (map_to_list_insert m) by done.
  rewrite (map_to_list_insert (filter (live now) <$> m)) by (by rewrite lookup_fmap, Hk).
  rewrite !fmap_cons. cbn [list_sum foldr snd].
  pose proof (length_filter (live now) l). fold list_sum. unfold list_sum in *. simpl in *. lia.
Qed.

Lemma live_earlier now later r : now ≤ later → live later r → live now r.
Proof. unfold live, ProviderRecord_is_expired. rewrite !N.ltb_ge. lia. Qed.

Lemma filter_live_later now later (l : list ProviderRecord) :
  now ≤ later → filter (live later) (filter (live now) l) = filter (live later) l.
Proof.
  intros Hl. rewrite list_filter_filter. apply list_filter_iff.
  intros r. split; [naive_solver|]. eauto using live_earlier.
Qed.

Lemma get_after_remove_expired now later s k :
  now ≤ later → mem_get_providers later (mem_remove_expired_providers now s).1 k = mem_get_providers later s k.
Proof.
  intros Hl. unfold mem_get_providers, mem_remove_expired_providers. cbn [fst set_im_providers im_providers].
  rewrite map_lookup_filter, lookup_fmap. destruct (im_providers s !! k) as [l|]; simpl; [|done].
  rewrite <- (filter_live_later now later l) by done.
  destruct (decide (filter (live now) l = [])) as [He|Hne].
  - rewrite option_guard_False by naive_solver. by rewrite He.
  - by rewrite option_guard_True.
Qed.

(** The in-memory store is the relation "who provides what": [put_provider]
    replaces the provider's record under the key and touches nothing else,
    [get_providers] lists the live records of the key, one per provider, and
    [remove_expired_providers] drops exactly the expired records, returns their
    number and changes no answer of [get_providers] from then on. *)
Theorem in_memory_store_spec (s : InMemoryDhtStore) k r now later :
  providers_ok s → now ≤ later →
  providers_ok (put_provider s k r).1 ∧
  providers_ok (remove_expired_providers now s).1 ∧
  (∀ k' r', holds (put_provider s k r).1 k' r' ↔
     (k' = k ∧ r' = r) ∨ (holds s k' r' ∧ ¬ (k' = k ∧ pr_provider_id r' = pr_provider_id r))) ∧
  (∀ r', r' ∈ (get_providers now s k).2 ↔ holds s k r' ∧ live now r') ∧
  NoDup (pr_provider_id <$> (get_providers now s k).2) ∧
  (∀ k' r', holds (remove_expired_providers now s).1 k' r' ↔ holds s k' r' ∧ live now r') ∧
  ((remove_expired_providers now s).2 + get_all_provider_count now (remove_expired_providers now s).1)%nat
    = get_all_provider_count now s ∧
  (get_providers later (remove_expired_providers now s).1 k).2 = (get_providers later s k).2.
Proof.
  intros Hs Hl. split_and!.
  - by apply providers_ok_put.
  - by apply providers_ok_remove_expired.
  - apply holds_put.
  - intros r'. cbn. unfold mem_get_providers. rewrite list_elem_of_filter. unfold holds. naive_solver.
  - apply NoDup_fmap_filter. by apply providers_ok_default.
  - apply holds_remove_expired.
  - cbn. unfold mem_remove_expired_providers. cbn [fst snd set_im_providers im_providers].
    rewrite provider_total_filter_nonempty. apply removed_plus_kept.
  - by apply get_after_remove_expired.
Qed.

(** ** Name records move forward *)

Inductive StoreOp : Type :=
| SPutProvider (key : DhtKey) (record : ProviderRecord)
| SRemoveExpiredProviders (now : N)
| SPutIpns (name : DhtKey) (record : IpnRecord)
| SPutValue (key : DhtKey) (value : DhtValue)
| SRemoveExpiredValues (now : N)
| SClear.

Definition store_step {S} `{DhtStorage S} (s : S) (op : StoreOp) : S :=
  match op with
  | SPutProvider key record => (put_provider s key record).1
  | SRemoveExpiredProviders now => (remove_expired_providers now s).1
  | SPutIpns name record => (put_ipns s name record).1
  | SPutValue key value => (put_value s key value).1
  | SRemoveExpiredValues now => (remove_expired_values now s).1
  | SClear => store_clear s
  end.

(** What the call returns: the flag of a write, the number a clean-up counts. *)
Definition store_result {S} `{DhtStorage S} (s : S) (op : StoreOp) : option bool * nat :=
  match op with
  | SPutProvider key record => (Some (put_provider s key record).2, 0%nat)
  | SRemoveExpiredProviders now => (None, (remove_expired_providers now s).2)
  | SPutIpns name record => (Some (put_ipns s name record).2, 0%nat)
  | SPutValue key value => (Some (put_value s key value).2, 0%nat)
  | SRemoveExpiredValues now => (None, (remove_expired_values now s).2)
  | SClear => (None, 0%nat)
  end.

(** At least as new: the same record, or one with a larger sequence number. *)
Definition ipns_newer (a b : IpnRecord) : Prop := a = b ∨ ipn_sequence b < ipn_sequence a.

Lemma ipns_newer_trans a b c : ipns_newer a b → ipns_newer b c → ipns_newer a c.
Proof. unfold ipns_newer. intros [->|?] [->|?]; auto; right; lia. Qed.

Lemma mem_put_ipns_spec s name r n :
  im_ipns (mem_put_ipns s name r).1 !! n =
    (if decide (n = name)
     then if (mem_put_ipns s name r).2 then Some r else im_ipns s !! n
     else im_ipns s !! n) ∧
  ((mem_put_ipns s name r).2 = true ↔
     ∀ old, im_ipns s !! name = Some old → ipn_sequence old < ipn_sequence r).
Proof.
  unfold mem_put_ipns. destruct (im_ipns s !! name) as [old|] eqn:Ho.
  - destruct (N.leb_spec (ipn_sequence r) (ipn_sequence old)); cbn [fst snd set_im_ipns im_ipns].
    + split; [by destruct (decide (n = name)) as [->|]|]. split; [done|].
      intros H'. specialize (H' _ eq_refl). lia.
    + split; [|split; [intros _ ? [= <-]; done|done]].
      destruct (decide (n = name)) as [->|]; [by rewrite lookup_insert_eq|by rewrite lookup_insert_ne].
  - cbn [fst snd set_im_ipns im_ipns]. split; [|done].
    destruct (decide (n = name)) as [->|]; [by rewrite lookup_insert_eq|by rewrite lookup_insert_ne].
Qed.

Lemma store_step_ipns (s : InMemoryDhtStore) op n old :
  get_ipns s n = Some old → op ≠ SClear → ∃ new, get_ipns (store_step s op) n = Some new ∧ ipns_newer new old.
Proof.
  cbn. intros Ho Hc. destruct op as [k r|now|name r|k v|now|]; cbn; try done; try (exists old; by split; [|left]).
  destruct (mem_put_ipns_spec s name r n) as [-> Hb]. destruct (decide (n = name)) as [->|].
  2: { exists old. by split; [|left]. }
  destruct (mem_put_ipns s name r).2.
  - exists r. split; [done|]. right. by apply (proj1 Hb).
  - exists old. by split; [|left].
Qed.

(** Name records of the in-memory store never roll back: over any sequence
    of operations without a [clear] the record under a name stays or is replaced by one with a
    larger sequence number; [put_ipns] accepts a record exactly when it is newer
    than the stored one, and then [get_ipns] returns it. *)
Theorem ipns_no_rollback (s : InMemoryDhtStore) ops n old r :
  get_ipns s n = Some old → Forall (λ op, op ≠ SClear) ops →
  (∃ new, get_ipns (foldl store_step s ops) n = Some new ∧ ipns_newer new old) ∧
  ((put_ipns s n r).2 = true ↔ ipn_sequence old < ipn_sequence r) ∧
  get_ipns (put_ipns s n r).1 n = Some (if (put_ipns s n r).2 then r else old).
Proof.
  intros Ho Hops. split_and!.
  - clear r. revert s old Ho. induction Hops as [|op ops Hop Hops IH]; intros s old Ho.
    + exists old. by split; [|left].
    + destruct (store_step_ipns s op n old Ho Hop) as (mid & Hm & H1).
      destruct (IH _ _ Hm) as (new & Hn & H2). exists new. split; [done|].
      by eapply ipns_newer_trans.
  - cbn in *. destruct (mem_put_ipns_spec s n r n) as [_ ->]. rewrite Ho. naive_solver.
  - cbn in *. destruct (mem_put_ipns_spec s n r n) as [-> _]. rewrite decide_True by done.
    by destruct (mem_put_ipns s n r).2.
Qed.

(** ** The in-memory store against its contract

    What the trait documents, as three maps: one provider record for each key and
    provider, one name record and one value for each key. *)

Record DhtSpec : Type := mkDhtSpec {
  sp_providers : gmap (DhtKey * NodeId) ProviderRecord;
  sp_ipns : gmap DhtKey IpnRecord;
  sp_values : gmap DhtKey DhtValue
}.

Definition spec_empty : DhtSpec := mkDhtSpec ∅ ∅ ∅.

(** A name record is taken when it is newer than the one in force. *)
Definition spec_newer (sp : DhtSpec) (name : DhtKey) (record : IpnRecord) : bool :=
  match sp_ipns sp !! name with Some old => ipn_sequence old <? ipn_sequence record | None => true end.

Definition spec_step (sp : DhtSpec) (op : StoreOp) : DhtSpec :=
  let '(mkDhtSpec p i v) := sp in
  match op with
  | SPutProvider key record => mkDhtSpec (<[(key, pr_provider_id record) := record]> p) i v
  | SRemoveExpiredProviders now => mkDhtSpec (filter (λ e, live now e.2) p) i v
  | SPutIpns name record => mkDhtSpec p (if spec_newer sp name record then <[name := record]> i else i) v
  | SPutValue key value => mkDhtSpec p i (<[key := value]> v)
  | SRemoveExpiredValues now => mkDhtSpec p i (filter (λ e, value_expired now e.2 = false) v)
  | SClear => spec_empty
  end.

Definition spec_result (sp : DhtSpec) (op : StoreOp) : option bool * nat :=
  match op with
  | SPutProvider _ _ | SPutValue _ _ => (Some true, 0%nat)
  | SRemoveExpiredProviders now => (None, size (filter (λ e, ¬ live now e.2) (sp_providers sp)))
  | SPutIpns name record => (Some (spec_newer sp name record), 0%nat)
  | SRemoveExpiredValues now => (None, size (filter (λ e, value_expired now e.2 = true) (sp_values sp)))
  | SClear => (None, 0%nat)
  end.

(** The store stands for the maps. *)
Record represents (s : InMemoryDhtStore) (sp : DhtSpec) : Prop := {
  rep_ok : providers_ok s;
  rep_holds k r : holds s k r ↔ sp_providers sp !! (k, pr_provider_id r) = Some r;
  rep_keyed k i r : sp_providers sp !! (k, i) = Some r → pr_provider_id r = i;
  rep_ipns : im_ipns s = sp_ipns sp;
  rep_values : im_values s = sp_values sp
}.

(** The keys and providers of all records, in the order of the table. *)
Definition provider_keys (m : gmap DhtKey (list ProviderRecord)) : list (DhtKey * NodeId) :=
  map_to_list m ≫= λ p, (λ r, (p.1, pr_provider_id r)) <$> p.2.

Lemma length_provider_keys m : length (provider_keys m) = provider_total m.
Proof.
  unfold provider_keys, provider_total. induction (map_to_list m) as [|p l IH]; [done|]. rewrite bind_cons, fmap_cons, length_app, length_fmap, IH. done.
Qed.

Lemma elem_of_provider_keys s k i : (k, i) ∈ provider_keys (im_providers s) ↔ ∃ r, holds s k r ∧ pr_provider_id r = i.
Proof.
  unfold provider_keys, holds. rewrite list_elem_of_bind. split.
  - intros ([k' l] & (r & [= -> ->] & Hr)%list_elem_of_fmap & Hl%elem_of_map_to_list). cbn [fst snd] in *. exists r. by rewrite Hl.
  - intros (r & Hr & <-). destruct (im_providers s !! k) as [l|] eqn:Hl; [|by apply elem_of_nil in Hr].
    exists (k, l). split; [|by apply elem_of_map_to_list]. apply list_elem_of_fmap. by exists r.
Qed.

Lemma NoDup_provider_keys s : providers_ok s → NoDup (provider_keys (im_providers s)).
Proof.
  intros Hs. apply NoDup_bind; [| |apply NoDup_map_to_list].
  - intros [k1 l1] [k2 l2] y H1%elem_of_map_to_list H2%elem_of_map_to_list (r1 & -> & _)%list_elem_of_fmap (r2 & [= -> _] & _)%list_elem_of_fmap. cbn in *. by simplify_eq.
  - intros [k l] Hl%elem_of_map_to_list. apply Hs in Hl. cbn [fst snd].
    change (NoDup ((pair k ∘ pr_provider_id) <$> l)). rewrite list_fmap_compose. by apply NoDup_fmap_2; [intros ?? [=]|].
Qed.

(** The number of records is the size of the map. *)
Lemma represents_total s sp : represents s sp → provider_total (im_providers s) = size (sp_providers sp).
Proof.
  intros []. rewrite <- length_provider_keys, <- size_dom, <- (size_list_to_set (C := gset _)) by by apply NoDup_provider_keys.
  f_equal. apply set_eq. intros [k i]. rewrite elem_of_list_to_set, elem_of_provider_keys, elem_of_dom. split.
  - intros (r & Hr & <-). exists r. by apply rep_holds0.
  - intros [r Hr]. exists r. pose proof (rep_keyed0 _ _ _ Hr) as <-. split; [by apply rep_holds0|done].
Qed.

Lemma represents_step s sp op : represents s sp → represents (store_step s op) (spec_step sp op).
Proof.
  intros Hrep. destruct Hrep as [Hok Hh Hk Hi Hv]. destruct sp as [p i v]. cbn in Hh, Hk, Hi, Hv.
  destruct op as [k r|now|name r|k w|now|]; cbn [store_step spec_step].
  - split; cbn; [by apply providers_ok_put| | |done|done].
    + intros k' r'. change (holds (mem_put_provider s k r).1 k' r' ↔ <[(k, pr_provider_id r):=r]> p !! (k', pr_provider_id r') = Some r').
      rewrite holds_put, Hh, lookup_insert_Some. split.
      * intros [[-> ->]|[H' Hne]]; [by left|]. right. split; [|done]. intros [= <- Hid]. by destruct Hne.
      * intros [[[= -> _] ->]|[Hne H']]; [by left|]. right. split; [done|]. intros [-> Hid]. by rewrite Hid in Hne.
    + intros k' j r'. rewrite lookup_insert_Some. intros [[[= _ <-] <-]|[_ H']]; [done|by eapply Hk].
  - split; cbn; [by apply providers_ok_remove_expired| | |done|done].
    + intros k' r'. change (holds (mem_remove_expired_providers now s).1 k' r' ↔ filter (λ e, live now e.2) p !! (k', pr_provider_id r') = Some r').
      by rewrite holds_remove_expired, Hh, map_lookup_filter_Some.
    + intros k' j r' [H' _]%map_lookup_filter_Some. by eapply Hk.
  - subst i v. unfold spec_newer. cbn [sp_ipns put_ipns InMemoryDhtStore_storage]. unfold mem_put_ipns.
    destruct (im_ipns s !! name) as [old|]; [|by split].
    rewrite N.leb_antisym. by destruct (ipn_sequence old <? ipn_sequence r); split.
  - subst v. by split.
  - subst v. by split.
  - split; cbn; [by intros ?? ?| | |done|done]; [|by intros ???].
    intros k' r'. split; [by intros ?%elem_of_nil|done].
Qed.

Lemma filter_live_size (now : N) (m : gmap (DhtKey * NodeId) ProviderRecord) :
  (size (filter (λ e, ¬ live now e.2) m) + size (filter (λ e, live now e.2) m))%nat = size m.
Proof.
  rewrite <- (map_filter_union_complement (λ e, live now e.2) m) at 3.
  rewrite map_size_disj_union by apply map_disjoint_filter_complement. lia.
Qed.

Lemma represents_result s sp op : represents s sp → store_result s op = spec_result sp op.
Proof.
  intros Hrep. pose proof (represents_step s sp op Hrep) as Hrep'. pose proof (represents_total _ _ Hrep) as Ht. pose proof (represents_total _ _ Hrep') as Ht'.
  destruct Hrep as [Hok Hh Hk Hi Hv]. destruct sp as [p i v]. cbn [sp_providers sp_ipns sp_values] in *. subst i v.
  destruct op as [k r|now|name r|k w|now|]; cbn [store_result spec_result]; try done.
  - f_equal. cbn [store_step spec_step sp_providers] in Ht'. pose proof (filter_live_size now p). pose proof (removed_plus_kept now (im_providers s)) as Hsum.
    cbn [remove_expired_providers InMemoryDhtStore_storage mem_remove_expired_providers fst snd set_im_providers im_providers] in *. rewrite provider_total_filter_nonempty in Ht'.
    cbn [sp_providers]. lia.
  - do 2 f_equal. unfold spec_newer. cbn [sp_ipns put_ipns InMemoryDhtStore_storage]. unfold mem_put_ipns.
    destruct (im_ipns s !! name) as [old|]; [|done]. rewrite N.leb_antisym. by destruct (ipn_sequence old <? ipn_sequence r).
Qed.

(** C31. The in-memory store implements the documented contract of the trait. After any
    run of calls from an empty store, [clear] included, it answers as three maps do: one
    record for each key and provider, the latest stored, one name record for each name,
    replaced by newer ones only, and one value for each key. Every call returns what the
    maps say (the flag of a write, the number of expired entries a clean-up drops),
    [get_providers] lists exactly the unexpired records of the key, one per provider,
    and the three counters are the sizes of the maps. *)
Theorem in_memory_refines_maps ops now k :
  let s := foldl store_step InMemoryDhtStore_new ops in
  let sp := foldl spec_step spec_empty ops in
  (∀ op, store_result s op = spec_result sp op) ∧
  (∀ r, r ∈ (get_providers now s k).2 ↔ sp_providers sp !! (k, pr_provider_id r) = Some r ∧ live now r) ∧
  NoDup (pr_provider_id <$> (get_providers now s k).2) ∧
  get_ipns s k = sp_ipns sp !! k ∧ get_value s k = sp_values sp !! k ∧
  get_all_provider_count now s = size (sp_providers sp) ∧
  get_ipns_count s = size (sp_ipns sp) ∧ get_values_count now s = size (sp_values sp).
Proof.
  intros s sp. assert (represents s sp) as Hrep.
  { subst s sp. assert (represents InMemoryDhtStore_new spec_empty) as H0 by exact (represents_step InMemoryDhtStore_new spec_empty SClear
      ltac:(split; cbn; [by intros ???| |by intros ???|done|done]; intros ??; split; [by intros ?%elem_of_nil|done])).
    revert H0. generalize InMemoryDhtStore_new, spec_empty. induction ops as [|op ops IH]; intros s0 sp0 H0; [done|]. apply IH. by apply represents_step. }
  split_and!.
  - intros op. by apply represents_result.
  - intros r. cbn. unfold mem_get_providers. rewrite list_elem_of_filter, <- (rep_holds _ _ Hrep). unfold holds. naive_solver.
  - apply NoDup_fmap_filter. apply providers_ok_default, (rep_ok _ _ Hrep).
  - cbn. by rewrite (rep_ipns _ _ Hrep).
  - cbn. by rewrite (rep_values _ _ Hrep).
  - by apply represents_total.
  - cbn. by rewrite (rep_ipns _ _ Hrep).
  - cbn. by rewrite (rep_values _ _ Hrep).
Qed.

(** ** What every backend promises to the query engine

    The part of the contract the theorems on queries and handlers use. It is weaker than
    what the trait documents: the RocksDB store, which keeps one provider for each key,
    meets it as well. *)

(** Records up to the signature, which is not persisted. *)
Definition same_unsigned (a b : ProviderRecord) : Prop := set_signature None a = set_signature None b.

#[global] Instance same_unsigned_equiv : Equivalence same_unsigned.
Proof. unfold same_unsigned. split; [done|by intros ??|intros ???; congruence]. Qed.

#[global] Instance live_proper now : Proper (same_unsigned ==> iff) (live now).
Proof. intros [] [] [=]. simplify_eq. done. Qed.

Class StorageLaws (S : Type) `{DhtStorage S} : Prop := {
  law_put_get (s : S) k r now : (put_provider s k r).2 = true → live now r →
    ∃ r', r' ∈ (get_providers now (put_provider s k r).1 k).2 ∧ same_unsigned r' r;
  law_get_live (s : S) k now : Forall (live now) (get_providers now s k).2;
  law_put_value (s : S) k v : (put_value s k v).2 = true → get_value (put_value s k v).1 k = Some v;
  law_put_value_other (s : S) k v k' : k' ≠ k → get_value (put_value s k v).1 k' = get_value s k';
  law_put_provider_value (s : S) k r k' : get_value (put_provider s k r).1 k' = get_value s k';
  law_get_providers_value (s : S) now k k' : get_value (get_providers now s k).1 k' = get_value s k'
}.

Lemma mem_put_get now s k r : live now r → r ∈ mem_get_providers now (mem_put_provider s k r).1 k.
Proof.
  intros Hl. apply list_elem_of_filter. split; [done|]. apply (holds_put s k r k r). by left.
Qed.

#[global] Instance InMemory_laws : StorageLaws InMemoryDhtStore.
Proof.
  split; cbn; unfold mem_put_value; cbn.
  - intros s k r now _ Hl. exists r. split; [by apply mem_put_get|done].
  - intros s k now. apply Forall_forall. by intros r [? _]%list_elem_of_filter.
  - intros s k v _. apply lookup_insert_eq.
  - intros s k v k' Hk. by apply lookup_insert_ne.
  - done.
  - done.
Qed.

Section BackendLaws.
Context {D : Type} `{KVL : KvLaws D} {SD : Serde} {SDL : SerdeLaws SD}.

Lemma make_key_inj p p' k k' : make_key p k = make_key p' k' → p = p' ∧ k = k'.
Proof. destruct k, k'. by intros [= -> ->]. Qed.

Lemma rk_put_ok (s : RocksDbDhtStore D) key bytes :
  (rk_put s key bytes).2 = true → ∃ bs, bytes = Some bs ∧ kv_get (rk_db (rk_put s key bytes).1) key = Some bs.
Proof.
  unfold rk_put. destruct bytes as [bs|]; [|done]. pose proof (kv_put_ok (rk_db s) key bs) as Hp.
  destruct (kv_put (rk_db s) key bs) as [d ok]; simpl in *. intros Hok. exists bs. auto.
Qed.

Lemma rk_put_other (s : RocksDbDhtStore D) key bytes key' :
  key' ≠ key → kv_get (rk_db (rk_put s key bytes).1) key' = kv_get (rk_db s) key'.
Proof.
  intros Hk. unfold rk_put. destruct bytes as [bs|]; [|done].
  pose proof (kv_put_other (rk_db s) key bs key' Hk) as Hp.
  by destruct (kv_put (rk_db s) key bs) as [d ok].
Qed.

#[global] Instance RocksDb_laws : StorageLaws (RocksDbDhtStore D).
Proof.
  split; cbn.
  - intros s k r now Hok Hl. apply rk_put_ok in Hok as (bs & Hs & Hg). unfold rk_get_providers.
    fold (rk_put_provider s k r) in Hg. rewrite Hg, (de_ser_provider r bs Hs).
    change (ProviderRecord_is_expired now (set_signature None r)) with (ProviderRecord_is_expired now r).
    rewrite Hl. exists (set_signature None r). split; [left|done].
  - intros s k now. unfold rk_get_providers. destruct (kv_get _ _) as [bs|]; [|constructor].
    destruct (de_provider bs) as [r|]; [|constructor].
    destruct (ProviderRecord_is_expired now r) eqn:Hx; [constructor|by repeat constructor].
  - intros s k v Hok. apply rk_put_ok in Hok as (bs & Hs & Hg). unfold rk_get_value, rk_put_value.
    rewrite Hg. simpl. by apply de_ser_value.
  - intros s k v k' Hk. unfold rk_get_value, rk_put_value. rewrite rk_put_other; [done|].
    by intros [_ ?]%make_key_inj.
  - intros s k r k'. unfold rk_get_value, rk_put_provider. rewrite rk_put_other; [done|].
    by intros [? _]%make_key_inj.
  - intros s now k k'. unfold rk_get_value, rk_get_providers. destruct (kv_get (rk_db s) (make_key prefix_P k)) as [bs|]; [|done].
    destruct (de_provider bs) as [r|]; [|done]. destruct (ProviderRecord_is_expired now r); [|done].
    cbn. rewrite kv_delete_other; [done|]. by intros [? _]%make_key_inj.
Qed.

#[global] Instance Tiered_laws : StorageLaws (TieredDhtStore D).
Proof.
  assert (Hget : ∀ (s : TieredDhtStore D) now k,
    (td_get_providers now s k).2 = mem_get_providers now (td_memory s) k ∨
    (td_get_providers now s k).2 = (get_providers now (td_rocksdb s) k).2).
  { intros s now k. unfold td_get_providers. cbn.
    destruct (mem_get_providers now (td_memory s) k); [right|by left].
    by destruct (rk_get_providers now (td_rocksdb s) k). }
  split; cbn.
  - intros s k r now _ Hl. exists r. split; [|done].
    unfold td_get_providers, td_put_provider. cbn.
    destruct (rk_put_provider (td_rocksdb s) k r) as [rk ok]. cbn.
    pose proof (mem_put_get now (td_memory s) k r Hl) as Hin. unfold mem_put_provider in Hin.
    cbn in Hin. destruct (mem_get_providers now _ k) as [|x l] eqn:Hm; [by apply elem_of_nil in Hin|].
    exact Hin.
  - intros s k now. change (Forall (live now) (td_get_providers now s k).2).
    destruct (Hget s now k) as [->| ->]; [|apply law_get_live].
    exact (law_get_live (td_memory s) k now).
  - intros s k v _. unfold td_get_value, td_put_value. cbn. destruct (rk_put_value _ _ _). cbn.
    by rewrite lookup_insert_eq.
  - intros s k v k' Hk. unfold td_get_value, td_put_value. cbn.
    pose proof (law_put_value_other (td_rocksdb s) k v k' Hk) as Hr. cbn in Hr.
    destruct (rk_put_value _ _ _). cbn in *. rewrite lookup_insert_ne by done. by rewrite Hr.
  - intros s k r k'. unfold td_get_value, td_put_provider. cbn.
    pose proof (law_put_provider_value (td_rocksdb s) k r k') as Hr. cbn in Hr.
    destruct (rk_put_provider _ _ _). cbn in *. by rewrite Hr.
  - intros s now k k'. unfold td_get_value, td_get_providers. cbn.
    destruct (mem_get_providers now (td_memory s) k); [|done].
    pose proof (law_get_providers_value (td_rocksdb s) now k k') as Hr. cbn in Hr.
    destruct (rk_get_providers now (td_rocksdb s) k) as [rk l]. cbn in *. rewrite Hr. f_equal.
    generalize (td_memory s). induction l as [|r l IH]; intros m; [done|]. cbn. by rewrite IH.
Qed.

(** Every backend (memory, RocksDB, tiered) meets what the queries rely on: a provider record that was stored is found again while it
    lives, up to its signature; only live records are returned; values read back
    as written, and writes to other keys, writes of provider records and reads of
    them leave the values. *)
Theorem backends_meet_contract :
  StorageLaws InMemoryDhtStore ∧ StorageLaws (RocksDbDhtStore D) ∧ StorageLaws (TieredDhtStore D).
Proof. split_and!; apply _. Qed.
End BackendLaws.

(** ** A reference database and encoding *)

#[global] Instance kv_ref : Kv (gmap (list N) (list N)) := {|
  kv_get d k := d !! k;
  kv_put d k v := (<[k := v]> d, true);
  kv_delete d k := (delete k d, true);
  kv_prefix_iterator d p := filter (λ e, take (length p) e.1 = p) (map_to_list d)
|}.

#[global] Instance kv_ref_laws : KvLaws (gmap (list N) (list N)).
Proof.
  split; cbn; intros.
  - apply lookup_insert_eq.
  - by apply lookup_insert_ne.
  - done.
  - by apply lookup_delete_ne.
Qed.

#[global] Instance ProviderRecord_countable : Countable ProviderRecord.
Proof.
  apply (inj_countable' (λ r, (pr_key r, pr_provider_id r, pr_provider_addr r, pr_ttl_secs r,
      pr_created_at r, pr_signature r)) (λ '(a, b, c, d, e, f), mkProviderRecord a b c d e f)).
  by intros [].
Defined.
#[global] Instance IpnRecord_countable : Countable IpnRecord.
Proof.
  apply (inj_countable' (λ r, (ipn_name r, ipn_value r, ipn_sequence r, ipn_ttl_secs r,
      ipn_created r, ipn_expires r, ipn_signature r)) (λ '(a, b, c, d, e, f, g), mkIpnRecord a b c d e f g)).
  by intros [].
Defined.
#[global] Instance DhtValue_countable : Countable DhtValue.
Proof.
  apply (inj_countable' (λ v, (dv_data v, dv_timestamp v, dv_ttl_secs v))
    (λ '(a, b, c), mkDhtValue a b c)). by intros [].
Defined.

Definition code {A} `{Countable A} (a : A) : option (list N) := Some [Npos (encode a)].
Definition uncode {A} `{Countable A} (bs : list N) : option A :=
  match bs with [Npos p] => decode p | _ => None end.

Lemma uncode_code {A} `{Countable A} (a : A) bs : code a = Some bs → uncode bs = Some a.
Proof. intros [= <-]. simpl. apply decode_encode. Qed.

Definition serde_ref : Serde := {|
  ser_provider r := code (set_signature None r); de_provider := uncode;
  ser_ipn := code; de_ipn := uncode; ser_value := code; de_value := uncode
|}.

Lemma serde_ref_laws : SerdeLaws serde_ref.
Proof. split; intros; by apply uncode_code. Qed.

Lemma backends_meet_contract_witness :
  StorageLaws (H := @TieredDhtStore_storage _ kv_ref serde_ref) (TieredDhtStore (gmap (list N) (list N))).
Proof.
  exact (proj2 (proj2 (backends_meet_contract (D := gmap (list N) (list N)) (SD := serde_ref)
    (SDL := serde_ref_laws)))).
Defined.

(** ** Roll-back on disk *)

Definition ex_ipn (seq : N) : IpnRecord := mkIpnRecord (mkDhtKey [1]) "v" seq 60 0 60 [].

Definition ex_rocks : RocksDbDhtStore (gmap (list N) (list N)) := mkRocksDbDhtStore ∅.

(** The RocksDB store replaces a name record by an older one. *)
Theorem rocksdb_ipns_rolls_back :
  let H := @RocksDbDhtStore_storage _ kv_ref serde_ref in
  let s := (put_ipns ex_rocks (mkDhtKey [1]) (ex_ipn 7)).1 in
  get_ipns s (mkDhtKey [1]) = Some (ex_ipn 7) ∧
  (put_ipns s (mkDhtKey [1]) (ex_ipn 3)).2 = true ∧
  get_ipns (put_ipns s (mkDhtKey [1]) (ex_ipn 3)).1 (mkDhtKey [1]) = Some (ex_ipn 3).
Proof. vm_compute. done. Qed.

(** It also keeps one record per key, where the in-memory store keeps one per
    provider. *)
Theorem rocksdb_keeps_one_provider :
  let H := @RocksDbDhtStore_storage _ kv_ref serde_ref in
  let k := mkDhtKey [1] in
  let r1 := ProviderRecord_new 0 k (mkNodeId "a") "x" in
  let r2 := ProviderRecord_new 0 k (mkNodeId "b") "y" in
  length (get_providers 0 (put_provider (put_provider ex_rocks k r1).1 k r2).1 k).2 = 1%nat ∧
  length (get_providers 0 (put_provider (put_provider InMemoryDhtStore_new k r1).1 k r2).1 k).2 = 2%nat.
Proof. vm_compute. done. Qed.

(** ** Witnesses *)

Lemma in_memory_store_spec_witness :
  (remove_expired_providers 90000 (put_provider InMemoryDhtStore_new (mkDhtKey [1]) (ex_provider "a")).1).2
  = 1%nat.
Proof.
  assert (H0 : providers_ok InMemoryDhtStore_new) by (intros k l H; discriminate H).
  assert (H1 : providers_ok (put_provider InMemoryDhtStore_new (mkDhtKey [1]) (ex_provider "a")).1)
    by (apply providers_ok_put; exact H0).
  exact (proj1 (proj2 (proj2 (proj2 (proj2 (proj2 (proj2
    (in_memory_store_spec _ (mkDhtKey [1]) (ex_provider "a") 90000 90000 H1 (N.le_refl _))))))))).
Defined.

Lemma ipns_no_rollback_witness :
  ∃ new, get_ipns (foldl store_step InMemoryDhtStore_new
    [SPutIpns (mkDhtKey [1]) (ex_ipn 7); SPutIpns (mkDhtKey [1]) (ex_ipn 3)]) (mkDhtKey [1]) = Some new ∧
    ipns_newer new (ex_ipn 7).
Proof.
  apply (λ H, proj1 (ipns_no_rollback (mem_put_ipns InMemoryDhtStore_new (mkDhtKey [1]) (ex_ipn 7)).1
    [SPutIpns (mkDhtKey [1]) (ex_ipn 3)] (mkDhtKey [1]) (ex_ipn 7) (ex_ipn 3) eq_refl H)).
  by repeat constructor.
Defined.
