(* ===== verification/DhtQuery.v ===== *)
(** * DHT queries ([crates/a3net-dht/src/query.rs])

    The iterative lookups of [DhtQuery]. What the network does is an argument:
    [reply i peer] is the answer a peer gives to the request sent in iteration
    [i], [None] when it fails or exceeds the request timeout; [expired i] says
    whether the global timeout has passed when iteration [i] checks it ([0] is
    the check before the loop). The requests sent are part of the state, in
    order, with the iteration that sent them. [instant] is the monotonic clock
    stamped on contacts, [now] the time of day in seconds stamped on records. Identifiers of queries and durations are not modelled. BLAKE3 and the
    textual form of socket addresses are parameters. A [while] loop bounded by
    [max_iterations] recurses on the iterations left. *)
From stdpp Require Import prelude strings gmap list.
From Stdlib Require Import NArith Lia Ascii Sorting.Sorted.
From Stdlib Require String.
From S2P Require Import Prelude NodeId Bucket DhtRecord DhtStore.

#[local] Open Scope N_scope.

Definition ALPHA : nat := 3%nat.
Definition CLOSEST_PEERS : nat := KBUCKET_SIZE.
Definition MAX_ITERATIONS : nat := 20%nat.

Record QueryConfig : Type := mkQueryConfig {
  qc_query_timeout : N;
  qc_request_timeout : N;
  qc_parallelism : nat;
  qc_max_iterations : nat;
  qc_continue_on_error : bool
}.

Definition QueryConfig_default : QueryConfig :=
  {| qc_query_timeout := secs 30; qc_request_timeout := secs 5; qc_parallelism := ALPHA;
     qc_max_iterations := MAX_ITERATIONS; qc_continue_on_error := true |}.

Record QueryResult : Type := mkQueryResult {
  qr_peers : list NodeInfo;
  qr_providers : list ProviderRecord;
  qr_timed_out : bool
}.

(** ** Keys as identifiers *)

(** [str::trim_start_matches("0x")]: removes the prefix as often as it occurs;
    a string shorter than the fuel has fewer occurrences. *)
Fixpoint trim_0x (fuel : nat) (s : string) : string :=
  match fuel with
  | O => s
  | S fuel' => match str_strip_prefix "0x" s with Some s' => trim_0x fuel' s' | None => s end
  end.

Section Query.
Context `{HX : Hex} (blake3_hash : list N → list N) (random : NodeId).
Context (parse_sock : string → option SocketAddr) (show_sock : SocketAddr → string).

(** [unwrap_or_else(|_| NodeId::random())]. *)
Definition node_or_random (r : result AdnetError NodeId) : NodeId :=
  match r with Ok id => id | Err _ => random end.

Definition node_id_from_key (key : DhtKey) : NodeId :=
  let raw := key_bytes key in
  if Nat.leb 32 (length raw) then node_or_random (NodeId_from_bytes (take 32 raw))
  else node_or_random (NodeId_from_bytes (blake3_hash raw)).

Definition node_id_from_key_str (key : string) : NodeId :=
  let fallback := node_or_random (NodeId_from_bytes (blake3_hash (str_bytes key))) in
  match NodeId_from_hex key with
  | Ok node_id => node_id
  | Err _ =>
      let hex_str := trim_0x (String.length key) key in
      if Nat.eqb (String.length hex_str) 64 then
        match hex_decode hex_str with
        | Some bytes => node_or_random (NodeId_from_bytes (take 32 bytes))
        | None => fallback
        end
      else fallback
  end.

(** The fallback address [127.0.0.1:0]. *)
Definition unroutable : SocketAddr := mkSocketAddr (IpV4 2130706433) 0.

Definition parse_addr (addrs : list string) : SocketAddr :=
  default unroutable (head addrs ≫= parse_sock).

(** ** FIND_NODE *)

(** The contacts of a reply, as [query_batch_with_timeout] reads it. *)
Definition contacts_of_reply (instant : N) (m : option DhtWireMessage) : option (list Contact) :=
  match m with
  | Some (Nodes _ nodes) =>
      Some ((λ nc, Contact_new instant (nc_id nc) (parse_addr (nc_addrs nc))) <$> nodes)
  | Some (Providers _ providers) =>
      Some (omap (λ pw, addr ← head (pw_addrs pw);
                        Some (Contact_new instant (pw_provider_id pw) (default unroutable (parse_sock addr))))
              providers)
  | _ => None
  end.

Definition query_batch_with_timeout (instant : N) (reply : Contact → option DhtWireMessage)
    (peers : list Contact) : list (NodeId * option (list Contact)) :=
  (λ peer, (c_id peer, contacts_of_reply instant (reply peer))) <$> peers.

Record LookupState : Type := mkLookupState {
  ls_candidates : list Contact;
  ls_queried : gset NodeId;
  ls_all_closest : list Contact;
  ls_sent : list (nat * Contact)
}.

(** The inner loop over the contacts of one reply. *)
Definition learn_contact (st : LookupState) (contact : Contact) : LookupState :=
  if bool_decide (c_id contact ∈ ls_queried st) then st
  else mkLookupState (ls_candidates st ++ [contact]) (ls_queried st)
         (ls_all_closest st ++ [contact]) (ls_sent st).

Definition set_queried (st : LookupState) (q : gset NodeId) : LookupState :=
  mkLookupState (ls_candidates st) q (ls_all_closest st) (ls_sent st).

(** The loop over the results of a batch. *)
Definition collect_result (st : LookupState) (res : NodeId * option (list Contact)) : LookupState :=
  let st := set_queried st ({[res.1]} ∪ ls_queried st) in
  match res.2 with
  | Some contacts => foldl learn_contact st contacts
  | None => st
  end.

Section Lookup.
Context (instant now : N) (config : QueryConfig) (expired : nat → bool)
  (reply : nat → Contact → option DhtWireMessage).

(** One pass of the [while] body; [None] when the batch is empty and it
    breaks (the candidates drained by then are not used again). *)
Definition find_node_iteration (i : nat) (st : LookupState) : option LookupState :=
  let n := Nat.min (qc_parallelism config) (length (ls_candidates st)) in
  let batch := filter (λ c, c_id c ∉ ls_queried st) (take n (ls_candidates st)) in
  let st := mkLookupState (drop n (ls_candidates st)) (ls_queried st) (ls_all_closest st) (ls_sent st) in
  match batch with
  | [] => None
  | _ =>
      let results := query_batch_with_timeout instant (reply i) batch in
      let st := mkLookupState (ls_candidates st) (ls_queried st) (ls_all_closest st)
                  (ls_sent st ++ (pair i <$> batch)) in
      let st := foldl collect_result st results in
      Some (set_queried st (foldl (λ q c, {[c_id c]} ∪ q) (ls_queried st) batch))
  end.

(** The [while] loop with [left] iterations to go, about to run iteration [i];
    the flag is [timed_out]. *)
Fixpoint find_node_loop (left i : nat) (st : LookupState) : LookupState * bool :=
  match left with
  | O => (st, false)
  | S left' =>
      match ls_candidates st with
      | [] => (st, false)
      | _ =>
          if expired i then (st, true)
          else match find_node_iteration i st with
               | None => (st, false)
               | Some st' => find_node_loop left' (S i) st'
               end
      end
  end.

Definition find_node_start (table : RoutingTable) (local_id : NodeId) (key : DhtKey) : LookupState :=
  mkLookupState (RoutingTable_closest table (node_id_from_key key) CLOSEST_PEERS) {[local_id]} [] [].

Definition find_node_run (table : RoutingTable) (local_id : NodeId) (key : DhtKey) : LookupState * bool :=
  find_node_loop (qc_max_iterations config) 1 (find_node_start table local_id key).

Definition find_node (table : RoutingTable) (local_id : NodeId) (key : DhtKey) : QueryResult :=
  if expired 0 then mkQueryResult [] [] true
  else
    let '(st, timed_out) := find_node_run table local_id key in
    let sorted := sort_by (closer_or_equal (node_id_from_key key)) (ls_all_closest st) in
    mkQueryResult
      ((λ c, mkNodeInfo (c_id c) (show_sock <$> c_addrs c)) <$> take CLOSEST_PEERS sorted)
      [] timed_out.

(** ** GET_PROVIDERS *)

Definition providers_of_reply (key : DhtKey) (m : option DhtWireMessage) : option (list ProviderRecord) :=
  match m with
  | Some (Providers _ providers) =>
      Some (omap (λ pw, addr ← head (pw_addrs pw); Some (ProviderRecord_new now key (pw_provider_id pw) addr))
              providers)
  | _ => None
  end.

Definition query_providers_batch_with_timeout (key : DhtKey) (rep : Contact → option DhtWireMessage)
    (peers : list Contact) : list (NodeId * option (list ProviderRecord)) :=
  (λ peer, (c_id peer, providers_of_reply key (rep peer))) <$> peers.

Record ProviderState : Type := mkProviderState {
  ps_candidates : list Contact;
  ps_queried : gset NodeId;
  ps_all_providers : list ProviderRecord
}.

Definition collect_providers (st : ProviderState) (res : NodeId * option (list ProviderRecord))
  : ProviderState :=
  mkProviderState (ps_candidates st) ({[res.1]} ∪ ps_queried st)
    (ps_all_providers st ++ default [] res.2).

Fixpoint get_providers_loop (key : DhtKey) (left i : nat) (st : ProviderState) : ProviderState * bool :=
  match left with
  | O => (st, false)
  | S left' =>
      if Nat.eqb (length (ps_candidates st)) 0 || Nat.leb 20 (length (ps_all_providers st))
      then (st, false)
      else if expired i then (st, true)
      else
        let n := Nat.min (qc_parallelism config) (length (ps_candidates st)) in
        let batch := filter (λ c, c_id c ∉ ps_queried st) (take n (ps_candidates st)) in
        let st := mkProviderState (drop n (ps_candidates st)) (ps_queried st) (ps_all_providers st) in
        match batch with
        | [] => (st, false)
        | _ =>
            let st := foldl collect_providers st (query_providers_batch_with_timeout key (reply i) batch) in
            get_providers_loop key left' (S i)
              (mkProviderState (ps_candidates st)
                 (foldl (λ q c, {[c_id c]} ∪ q) (ps_queried st) batch) (ps_all_providers st))
        end
  end.

(** [retain(|p| seen.insert(p.provider_id))]: the first record per provider. *)
Fixpoint dedup_providers (seen : gset NodeId) (l : list ProviderRecord) : list ProviderRecord :=
  match l with
  | [] => []
  | p :: l' =>
      if bool_decide (pr_provider_id p ∈ seen) then dedup_providers seen l'
      else p :: dedup_providers ({[pr_provider_id p]} ∪ seen) l'
  end.

Section WithStore.
Context {ST : Type} `{DhtStorage ST}.

Definition query_get_providers (store : ST) (table : RoutingTable) (local_id : NodeId) (key : DhtKey)
  : ST * QueryResult :=
  let '(store, local) := get_providers now store key in
  if expired 0 then (store, mkQueryResult [] local true)
  else
    let candidates := RoutingTable_closest table (node_id_from_key key) CLOSEST_PEERS in
    let '(st, timed_out) :=
      get_providers_loop key (qc_max_iterations config) 1 (mkProviderState candidates {[local_id]} local) in
    (store, mkQueryResult [] (dedup_providers ∅ (ps_all_providers st)) timed_out).

(** ** Announcing and values *)

(** The peers an announcement is sent to, in order. A failed send is logged and
    ignored. *)
Definition announce_targets (table : RoutingTable) (local_id : NodeId) (key : DhtKey) : list Contact :=
  filter (λ c, c_id c ≠ local_id)
    (take KBUCKET_SIZE (RoutingTable_closest table (node_id_from_key key) CLOSEST_PEERS)).

(** The new store, the announcements sent and the result, which is [Ok]. *)
Definition query_add_provider (store : ST) (table : RoutingTable) (local_id : NodeId) (key : DhtKey)
    (addr : string) : ST * list (Contact * ProviderRecord) :=
  let record := ProviderRecord_new now key local_id addr in
  ((put_provider store key record).1, (λ c, (c, record)) <$> announce_targets table local_id key).

(** On a miss the code runs [find_node] and drops its result. *)
Definition query_get_value (store : ST) (key : DhtKey) : option (list N) :=
  match get_value store key with
  | Some value => Some (dv_data value)
  | None => None
  end.

Definition query_put_value (store : ST) (table : RoutingTable) (local_id : NodeId) (key : DhtKey)
    (data : list N) (ttl_secs : N) : ST * list (Contact * DhtValue) :=
  let value := mkDhtValue data now ttl_secs in
  ((put_value store key value).1, (λ c, (c, value)) <$> announce_targets table local_id key).
End WithStore.
End Lookup.
End Query.

(** ** The request discipline of a lookup *)

Section LookupTheorems.
Context `{HX : Hex} {HL : HexLaws HX} (blake3_hash : list N → list N) (random : NodeId).
Context (parse_sock : string → option SocketAddr) (show_sock : SocketAddr → string).
Context (instant : N) (config : QueryConfig) (expired : nat → bool)
  (reply : nat → Contact → option DhtWireMessage).

Notation answer i p := (contacts_of_reply parse_sock instant (reply i p)).

(** [c] is in the reply to a request of the lookup. *)
Definition told (sent : list (nat * Contact)) (c : Contact) : Prop :=
  ∃ i p cs, (i, p) ∈ sent ∧ answer i p = Some cs ∧ c ∈ cs.

Record lookup_inv (local_id : NodeId) (i : nat) (st : LookupState) : Prop := {
  li_local : local_id ∈ ls_queried st;
  li_queried id : id ∈ ls_queried st → id = local_id ∨ ∃ j p, (j, p) ∈ ls_sent st ∧ c_id p = id;
  li_sent j p : (j, p) ∈ ls_sent st → c_id p ∈ ls_queried st ∧ (1 ≤ j < i)%nat ∧ c_id p ≠ local_id;
  li_once j p j' p' : (j, p) ∈ ls_sent st → (j', p') ∈ ls_sent st → j ≠ j' → c_id p ≠ c_id p';
  li_learned c : c ∈ ls_all_closest st → c_id c ≠ local_id ∧ told (ls_sent st) c;
  li_told c : told (ls_sent st) c → c ∈ ls_all_closest st ∨ c_id c ∈ ls_queried st;
  li_count : (length (ls_sent st) ≤ (i - 1) * qc_parallelism config)%nat
}.

(** What the two nested loops over the results do. *)
Lemma learn_contacts_spec cs st :
  let st' := foldl learn_contact st cs in
  ls_queried st' = ls_queried st ∧ ls_sent st' = ls_sent st ∧
  ∀ c, c ∈ ls_all_closest st' ↔ c ∈ ls_all_closest st ∨ c ∈ cs ∧ c_id c ∉ ls_queried st.
Proof.
  revert st. induction cs as [|c cs IH]; intros st; simpl.
  { split_and!; [done..|]. intros c. split; [by left|]. intros [?|[?%elem_of_nil _]]; done. }
  destruct (IH (learn_contact st c)) as (Hq & Hs & Hc). unfold learn_contact in *.
  case_bool_decide as Hin; simpl in *; (split_and!; [done..|]); intros d; rewrite Hc, !elem_of_cons.
  - naive_solver.
  - rewrite elem_of_app, list_elem_of_singleton. naive_solver.
Qed.

Lemma collect_results_spec rs st :
  let st' := foldl collect_result st rs in
  ls_sent st' = ls_sent st ∧
  (∀ id, id ∈ ls_queried st' ↔ id ∈ ls_queried st ∨ id ∈ rs.*1) ∧
  (∀ c, c ∈ ls_all_closest st' → c ∈ ls_all_closest st ∨
     c_id c ∉ ls_queried st ∧ ∃ id cs, (id, Some cs) ∈ rs ∧ c ∈ cs) ∧
  (∀ c, c ∈ ls_all_closest st → c ∈ ls_all_closest st') ∧
  (∀ c id cs, (id, Some cs) ∈ rs → c ∈ cs → c ∈ ls_all_closest st' ∨ c_id c ∈ ls_queried st').
Proof.
  revert st. induction rs as [|[id0 o] rs IH]; intros st; simpl.
  { split_and!; [done|..].
    - intros id. split; [by left|]. intros [?|?%elem_of_nil]; done.
    - by left.
    - done.
    - intros c id cs []%elem_of_nil. }
  set (st1 := set_queried st ({[id0]} ∪ ls_queried st)).
  assert (Hstep : ls_queried (collect_result st (id0, o)) = {[id0]} ∪ ls_queried st ∧
    ls_sent (collect_result st (id0, o)) = ls_sent st ∧
    ∀ c, c ∈ ls_all_closest (collect_result st (id0, o)) ↔
      c ∈ ls_all_closest st ∨ ∃ cs, o = Some cs ∧ c ∈ cs ∧ c_id c ∉ {[id0]} ∪ ls_queried st).
  { unfold collect_result. cbn [fst snd]. fold st1. destruct o as [cs|].
    - destruct (learn_contacts_spec cs st1) as (-> & -> & Hc). split_and!; [done..|].
      intros c. rewrite Hc. naive_solver.
    - split_and!; [done..|]. intros c. split; [by left|]. by intros [?|(? & ? & _)]. }
  destruct Hstep as (Hq & Hs & Hc).
  destruct (IH (collect_result st (id0, o))) as (Hs' & Hq' & Ha' & Hm' & Ht'). split_and!.
  - congruence.
  - intros id. rewrite Hq', Hq, elem_of_union, elem_of_singleton, elem_of_cons. tauto.
  - intros c Hin. destruct (Ha' c Hin) as [H|(Hn & id & cs & Hr & Hx)].
    + apply Hc in H as [H|(cs & -> & Hx & Hn)]; [by left|]. right. split; [set_solver|].
      exists id0, cs. split; [left|done].
    + right. rewrite Hq in Hn. split; [set_solver|]. exists id, cs. split; [by right|done].
  - intros c Hin. apply Hm', Hc. by left.
  - intros c id cs [[= -> <-]|Hr]%elem_of_cons Hx; [|by eapply Ht'].
    destruct (decide (c_id c ∈ ({[id0]} ∪ ls_queried st))) as [Hin|Hn].
    + right. apply Hq'. rewrite Hq. by left.
    + left. apply Hm', Hc. right. by exists cs.
Qed.

Lemma mark_batch_queried (batch : list Contact) (q : gset NodeId) id :
  id ∈ foldl (λ q c, {[c_id c]} ∪ q) q batch ↔ id ∈ q ∨ id ∈ c_id <$> batch.
Proof.
  revert q. induction batch as [|c batch IH]; intros q; simpl.
  { split; [by left|]. by intros [?|?%elem_of_nil]. }
  rewrite IH, elem_of_union, elem_of_singleton, elem_of_cons. tauto.
Qed.

(** One iteration in terms of the batch it sends. *)
Record batch_effect (i : nat) (st st' : LookupState) (batch : list Contact) : Prop := {
  be_length : (length batch ≤ qc_parallelism config)%nat;
  be_fresh c : c ∈ batch → c_id c ∉ ls_queried st;
  be_count : length (ls_sent st') = (length (ls_sent st) + length batch)%nat;
  be_sent j p : (j, p) ∈ ls_sent st' ↔ (j, p) ∈ ls_sent st ∨ j = i ∧ p ∈ batch;
  be_queried id : id ∈ ls_queried st' ↔ id ∈ ls_queried st ∨ id ∈ c_id <$> batch;
  be_learned c : c ∈ ls_all_closest st' → c ∈ ls_all_closest st ∨
    c_id c ∉ ls_queried st ∧ ∃ p cs, p ∈ batch ∧ answer i p = Some cs ∧ c ∈ cs;
  be_kept c : c ∈ ls_all_closest st → c ∈ ls_all_closest st';
  be_told c p cs : p ∈ batch → answer i p = Some cs → c ∈ cs →
    c ∈ ls_all_closest st' ∨ c_id c ∈ ls_queried st'
}.

Lemma query_batch_ids i batch id :
  id ∈ (query_batch_with_timeout parse_sock instant (reply i) batch).*1 ↔ id ∈ c_id <$> batch.
Proof. unfold query_batch_with_timeout. rewrite <- list_fmap_compose. done. Qed.

Lemma query_batch_answers i batch id cs :
  (id, Some cs) ∈ query_batch_with_timeout parse_sock instant (reply i) batch
    ↔ ∃ p, p ∈ batch ∧ id = c_id p ∧ answer i p = Some cs.
Proof.
  unfold query_batch_with_timeout. rewrite list_elem_of_fmap. split.
  - intros (p & [= -> Hp] & ?). by exists p.
  - intros (p & ? & -> & Hp). exists p. by rewrite Hp.
Qed.

Lemma find_node_iteration_effect i st st' :
  find_node_iteration parse_sock instant config reply i st = Some st' →
  ∃ batch, batch_effect i st st' batch.
Proof.
  unfold find_node_iteration.
  set (n := Nat.min (qc_parallelism config) (length (ls_candidates st))).
  set (batch := filter (λ c, c_id c ∉ ls_queried st) (take n (ls_candidates st))).
  assert (Hlen : (length batch ≤ qc_parallelism config)%nat).
  { etrans; [apply length_filter|]. rewrite length_take. lia. }
  assert (Hnew : ∀ c, c ∈ batch → c_id c ∉ ls_queried st).
  { intros c [Hc _]%list_elem_of_filter. done. }
  clearbody batch. intros H.
  assert (H' : Some st' = Some (
    let st1 := foldl collect_result
      (mkLookupState (drop n (ls_candidates st)) (ls_queried st) (ls_all_closest st)
         (ls_sent st ++ (pair i <$> batch)))
      (query_batch_with_timeout parse_sock instant (reply i) batch) in
    set_queried st1 (foldl (λ q c, {[c_id c]} ∪ q) (ls_queried st1) batch))).
  { rewrite <- H. by destruct batch. }
  clear H. injection H' as ->.
  destruct (collect_results_spec (query_batch_with_timeout parse_sock instant (reply i) batch)
    (mkLookupState (drop n (ls_candidates st)) (ls_queried st) (ls_all_closest st)
         (ls_sent st ++ (pair i <$> batch)))) as (Hs1 & Hq1 & Ha1 & Hm1 & Ht1).
  set (st1 := foldl collect_result _ _) in *. simpl in Hs1, Hq1, Ha1, Hm1.
  assert (Hsent : ∀ j p, (j, p) ∈ ls_sent st1 ↔ (j, p) ∈ ls_sent st ∨ j = i ∧ p ∈ batch).
  { intros j p. rewrite Hs1, elem_of_app, list_elem_of_fmap. split.
    - intros [?|(q & [= -> ->] & ?)]; auto.
    - intros [?|[-> Hp]]; [by left|right; by exists p]. }
  assert (Hqd : ∀ id, id ∈ foldl (λ q c, {[c_id c]} ∪ q) (ls_queried st1) batch
    ↔ id ∈ ls_queried st ∨ id ∈ c_id <$> batch).
  { intros id. rewrite mark_batch_queried, Hq1, query_batch_ids. tauto. }
  exists batch. split; cbn [set_queried ls_queried ls_sent ls_all_closest]; try done.
  - by rewrite Hs1, length_app, length_fmap.
  - intros c Hc. destruct (Ha1 c Hc) as [Hold|(Hnq & id & cs & Hr & Hx)]; [by left|right].
    apply query_batch_answers in Hr as (p & Hp & -> & Hcs). split; [done|]. by exists p, cs.
  - intros c p cs Hp Hcs Hx. destruct (Ht1 c (c_id p) cs) as [Ho|Ho]; [apply query_batch_answers; by exists p|done|by left|].
    right. apply Hqd. apply Hq1 in Ho as [?|?%query_batch_ids]; auto.
Qed.

Lemma find_node_iteration_inv local_id i st st' :
  (1 ≤ i)%nat → lookup_inv local_id i st →
  find_node_iteration parse_sock instant config reply i st = Some st' →
  lookup_inv local_id (S i) st'.
Proof.
  intros Hi [Hloc Hq Hs Honce Hl Ht Hn] (batch & [Hlen Hnew Hcnt Hsent Hqd Hlearn Hkept Htold])
    %find_node_iteration_effect.
  split.
  - apply Hqd. by left.
  - intros id [Hid|Hid]%Hqd.
    + destruct (Hq id Hid) as [->|(j & p & Hp & <-)]; [by left|]. right. exists j, p. rewrite Hsent. auto.
    + right. apply list_elem_of_fmap in Hid as (p & -> & Hp). exists i, p. rewrite Hsent. auto.
  - intros j p [Hp|[-> Hp]]%Hsent.
    + destruct (Hs j p Hp) as (H1 & H2 & H3). split_and!; [apply Hqd; by left|lia|lia|done].
    + split_and!; [apply Hqd; right; by apply list_elem_of_fmap_2|lia|lia|].
      intros He. apply (Hnew p Hp). by rewrite He.
  - intros j p j' p' [Hp|[-> Hp]]%Hsent [Hp'|[-> Hp']]%Hsent Hne; [by eapply Honce| | |done].
    + intros He. apply (Hnew p' Hp'). rewrite <- He. by apply Hs in Hp as [? _].
    + intros He. apply (Hnew p Hp). rewrite He. by apply Hs in Hp' as [? _].
  - intros c Hc. destruct (Hlearn c Hc) as [Hold|(Hnq & p & cs & Hp & Hcs & Hx)].
    + destruct (Hl c Hold) as [H1 (j & p & cs & H2 & H3 & H4)]. split; [done|].
      exists j, p, cs. rewrite Hsent. auto.
    + split; [intros He; by rewrite He in Hnq|].
      exists i, p, cs. rewrite Hsent. auto.
  - intros c (j & p & cs & [Hp|[-> Hp]]%Hsent & Hcs & Hx).
    + destruct (Ht c) as [Ho|Ho]; [by exists j, p, cs|left; by apply Hkept|right; apply Hqd; by left].
    + by eapply Htold.
  - rewrite Hcnt. nia.
Qed.

Lemma find_node_loop_inv local_id left i st :
  (1 ≤ i)%nat → lookup_inv local_id i st →
  ∃ k, (k ≤ i + left)%nat ∧
    lookup_inv local_id k (find_node_loop parse_sock instant config expired reply left i st).1.
Proof.
  revert i st. induction left as [|left IH]; intros i st Hi Hinv; simpl.
  { exists i. split; [lia|done]. }
  destruct (ls_candidates st); [exists i; split; [lia|done]|].
  destruct (expired i); [exists i; split; [lia|done]|].
  destruct (find_node_iteration _ _ _ _ i st) as [st'|] eqn:Hit; [|exists i; split; [lia|done]].
  destruct (IH (S i) st') as (k & Hk & Hinv'); [lia|by eapply find_node_iteration_inv|].
  exists k. split; [lia|done].
Qed.

Lemma find_node_run_inv table local_id key :
  ∃ k, (k ≤ S (qc_max_iterations config))%nat ∧ lookup_inv local_id k
    (find_node_run blake3_hash random parse_sock instant config expired reply table local_id key).1.
Proof.
  apply (find_node_loop_inv local_id (qc_max_iterations config) 1); [lia|]. split; simpl; try set_solver.
  intros c (i & p & cs & []%elem_of_nil & _).
Qed.

(** Requests of a lookup: it ends after at most [max_iterations] rounds
    having sent at most [parallelism] requests in each; it never asks the local
    node, and never asks in a later round a peer it asked in an earlier one. *)
Theorem find_node_requests table local_id key :
  let sent := ls_sent (find_node_run blake3_hash random parse_sock instant config expired reply
                         table local_id key).1 in
  (length sent ≤ qc_max_iterations config * qc_parallelism config)%nat ∧
  (∀ i p, (i, p) ∈ sent → (1 ≤ i ≤ qc_max_iterations config)%nat ∧ c_id p ≠ local_id) ∧
  (∀ i p j q, (i, p) ∈ sent → (j, q) ∈ sent → i ≠ j → c_id p ≠ c_id q).
Proof.
  destruct (find_node_run_inv table local_id key) as (k & Hk & [Hloc Hq Hs Honce Hl Ht Hn]).
  split_and!; [nia| |done]. intros i p (_ & ? & ?)%Hs. split; [lia|done].
Qed.

(** C6. Answer of a lookup: the peers returned are nearest, in order of
    distance, among the contacts learned, at most [CLOSEST_PEERS] of them; every
    contact learned was told by a peer the lookup asked and is not the local
    node; and every contact told is learned, unless it is the local node or was
    asked itself. *)
Theorem find_node_nearest table local_id key :
  node_ok (node_id_from_key blake3_hash random key) →
  (∀ i p cs c, answer i p = Some cs → c ∈ cs → node_ok (c_id c)) → expired 0 = false →
  let target := node_id_from_key blake3_hash random key in
  let res := find_node blake3_hash random parse_sock show_sock instant config expired reply
               table local_id key in
  let st := (find_node_run blake3_hash random parse_sock instant config expired reply
               table local_id key).1 in
  (∃ chosen rest, qr_peers res = (λ c, mkNodeInfo (c_id c) (show_sock <$> c_addrs c)) <$> chosen ∧
     chosen ++ rest ≡ₚ ls_all_closest st ∧
     length chosen = Nat.min CLOSEST_PEERS (length (ls_all_closest st)) ∧
     StronglySorted N.le ((λ c, node_distance (c_id c) target) <$> chosen) ∧
     ∀ c d, c ∈ chosen → d ∈ rest → node_distance (c_id c) target ≤ node_distance (c_id d) target) ∧
  (∀ c, c ∈ ls_all_closest st → c_id c ≠ local_id ∧ told (ls_sent st) c) ∧
  (∀ c, told (ls_sent st) c → c ∈ ls_all_closest st ∨ c_id c = local_id ∨
     ∃ i p, (i, p) ∈ ls_sent st ∧ c_id p = c_id c).
Proof.
  intros Htg Hok Hx target res st.
  destruct (find_node_run_inv table local_id key) as (k & Hk & Hinv). fold st in Hinv.
  destruct Hinv as [Hloc Hq Hs Honce Hl Ht Hn]. split_and!; [|done|].
  - destruct (take_sort_nearest target CLOSEST_PEERS (ls_all_closest st) Htg) as (rest & H).
    { intros c (_ & i & p & cs & _ & Hcs & Hc)%Hl. by eapply Hok. }
    eexists _, rest. split; [|exact H]. unfold res, find_node. rewrite Hx. unfold st.
    by destruct (find_node_run _ _ _ _ _ _ _ _ _ _).
  - intros c [H|H%Hq]%Ht; auto.
Qed.
End LookupTheorems.

(** ** Keys as identifiers *)

(** [node_id_from_key] is total and deterministic: for any key of bytes
    (and a hash of 32 bytes) it is a well-formed identifier and the random
    fallback is never used; keys of at least 32 bytes are mapped to their first
    32 bytes, so distinct 32-byte keys have distinct identifiers whose XOR
    distance is that of the keys. *)
Theorem node_id_from_key_spec `{HX : Hex} {HL : HexLaws HX} (blake3_hash : list N → list N) random k k' :
  (∀ bs, length (blake3_hash bs) = 32%nat ∧ bytes_ok (blake3_hash bs)) →
  bytes_ok (key_bytes k) →
  node_ok (node_id_from_key blake3_hash random k) ∧
  (∀ random', node_id_from_key blake3_hash random' k = node_id_from_key blake3_hash random k) ∧
  (length (key_bytes k) = 32%nat → length (key_bytes k') = 32%nat → bytes_ok (key_bytes k') →
     node_bytes (node_id_from_key blake3_hash random k) = key_bytes k ∧
     (node_id_from_key blake3_hash random k = node_id_from_key blake3_hash random k' → k = k') ∧
     NodeId_xor_distance (node_id_from_key blake3_hash random k)
       (node_id_from_key blake3_hash random k') = DhtKey_xor_distance k k').
Proof.
  intros Hh Hb.
  assert (Hraw : ∀ k, bytes_ok (key_bytes k) → ∃ bs, length bs = NODE_ID_BYTES ∧ bytes_ok bs ∧
    (∀ r, node_id_from_key blake3_hash r k = mkNodeId (hex_encode bs)) ∧
    (length (key_bytes k) = 32%nat → bs = key_bytes k)).
  { clear k k' Hb. intros k Hb. unfold node_id_from_key.
    destruct (Nat.leb_spec 32 (length (key_bytes k))) as [Hl|Hl].
    - assert (length (take 32 (key_bytes k)) = NODE_ID_BYTES) as Hlen by (rewrite length_take_le; done).
      exists (take 32 (key_bytes k)). split_and!; [done|by apply Forall_take| |].
      + intros r. by rewrite (proj1 (NodeId_from_bytes_ok _ (Forall_take _ _ _ Hb) Hlen)).
      + intros H32. by rewrite take_ge by lia.
    - destruct (Hh (key_bytes k)) as [Hlen Hok]. exists (blake3_hash (key_bytes k)).
      split_and!; [done|done| |lia]. intros r. by rewrite (proj1 (NodeId_from_bytes_ok _ Hok Hlen)). }
  destruct (Hraw k Hb) as (bs & Hlen & Hok & He & H32). rewrite He. split_and!.
  - by exists bs.
  - intros r'. by rewrite He.
  - intros Hk Hk' Hb'. destruct (Hraw k' Hb') as (bs' & Hlen' & Hok' & He' & H32'). rewrite He'.
    specialize (H32 Hk). specialize (H32' Hk'). subst bs bs'.
    assert (Hn : ∀ bs, bytes_ok bs → node_bytes (mkNodeId (hex_encode bs)) = bs).
    { intros bs Hbs. unfold node_bytes, decode_or_empty. simpl. by rewrite hex_decode_encode. }
    split_and!; [by apply Hn| |].
    + intros H%(f_equal node_bytes). rewrite !Hn in H by done. destruct k, k'. simpl in H. by subst.
    + rewrite xor_distance_zip by (eexists; split_and!; [| |reflexivity]; done). by rewrite !Hn.
Qed.

(** ** Providers *)

Lemma dedup_providers_spec seen l :
  NoDup (pr_provider_id <$> dedup_providers seen l) ∧
  (∀ p, p ∈ dedup_providers seen l → p ∈ l ∧ pr_provider_id p ∉ seen) ∧
  (∀ p, p ∈ l → pr_provider_id p ∉ seen → pr_provider_id p ∈ pr_provider_id <$> dedup_providers seen l).
Proof.
  revert seen. induction l as [|p l IH]; intros seen; simpl.
  { split_and!; [constructor|by intros p []%elem_of_nil..]. }
  case_bool_decide as Hs.
  - destruct (IH seen) as (H1 & H2 & H3). split_and!; [done|..].
    + intros q [? ?]%H2. split; [by right|done].
    + intros q [->|Hq]%elem_of_cons Hn; [done|by apply H3].
  - destruct (IH ({[pr_provider_id p]} ∪ seen)) as (H1 & H2 & H3). split_and!.
    + simpl. constructor; [|done]. intros (q & Hq & Hin)%list_elem_of_fmap. apply H2 in Hin as [_ Hin].
      set_solver.
    + intros q [->|Hq]%elem_of_cons; [split; [left|done]|]. apply H2 in Hq as [? ?]. split; [by right|set_solver].
    + intros q [->|Hq]%elem_of_cons Hn; simpl; [left|].
      destruct (decide (pr_provider_id q = pr_provider_id p)) as [->|Hne]; [left|].
      right. apply H3; [done|set_solver].
Qed.

Lemma dedup_providers_app seen l1 l2 :
  dedup_providers seen (l1 ++ l2) =
  dedup_providers seen l1 ++ dedup_providers (list_to_set (pr_provider_id <$> l1) ∪ seen) l2.
Proof.
  revert seen. induction l1 as [|p l1 IH]; intros seen; simpl.
  { by rewrite (left_id_L ∅ (∪)). }
  case_bool_decide as Hs.
  - rewrite IH. do 2 f_equal. set_solver.
  - rewrite IH. simpl. do 3 f_equal. set_solver.
Qed.

Section ProviderTheorems.
Context `{HX : Hex} (blake3_hash : list N → list N) (random : NodeId).
Context (now : N) (config : QueryConfig) (expired : nat → bool)
  (reply : nat → Contact → option DhtWireMessage).

(** [p] is in a reply for the key. *)
Definition provider_told (key : DhtKey) (p : ProviderRecord) : Prop :=
  ∃ i c ps, providers_of_reply now key (reply i c) = Some ps ∧ p ∈ ps.

Lemma collect_providers_all key i batch st :
  Forall (provider_told key) (ps_all_providers st) →
  Forall (provider_told key) (ps_all_providers
    (foldl collect_providers st (query_providers_batch_with_timeout now key (reply i) batch))).
Proof.
  revert st. induction batch as [|c batch IH]; intros st Hst; [done|]. apply IH. simpl.
  apply Forall_app. split; [done|]. destruct (providers_of_reply now key (reply i c)) as [ps|] eqn:Hr; [|constructor].
  apply Forall_forall. intros p Hp. by exists i, c, ps.
Qed.

(** The loop only appends, and what it appends was told. *)
Lemma collect_providers_shift st l rs :
  ps_all_providers (foldl collect_providers
    (mkProviderState (ps_candidates st) (ps_queried st) (l ++ ps_all_providers st)) rs)
  = l ++ ps_all_providers (foldl collect_providers st rs).
Proof.
  revert st. induction rs as [|r rs IH]; intros st; [done|]. simpl.
  rewrite <- (IH (collect_providers st r)). unfold collect_providers at 2. simpl. by rewrite app_assoc.
Qed.

Lemma get_providers_loop_appends key left i st :
  ∃ extra, ps_all_providers (get_providers_loop now config expired reply key left i st).1
           = ps_all_providers st ++ extra ∧ Forall (provider_told key) extra.
Proof.
  revert i st. induction left as [|left IH]; intros i st; simpl.
  { exists []. by rewrite app_nil_r. }
  destruct (_ || _); [exists []; by rewrite app_nil_r|].
  destruct (expired i); [exists []; by rewrite app_nil_r|].
  set (n := Nat.min _ _). set (batch := filter _ _).
  assert (Hgo : ∃ extra, ps_all_providers (foldl collect_providers
      (mkProviderState (drop n (ps_candidates st)) (ps_queried st) (ps_all_providers st))
      (query_providers_batch_with_timeout now key (reply i) batch)) = ps_all_providers st ++ extra
      ∧ Forall (provider_told key) extra).
  { pose proof (collect_providers_shift
      (mkProviderState (drop n (ps_candidates st)) (ps_queried st) []) (ps_all_providers st)
      (query_providers_batch_with_timeout now key (reply i) batch)) as Hsh.
    simpl in Hsh. rewrite app_nil_r in Hsh. rewrite Hsh. eexists. split; [done|].
    by apply collect_providers_all. }
  destruct batch as [|c batch']; [exists []; by rewrite app_nil_r|].
  destruct Hgo as (ex1 & He1 & HF1). edestruct (IH (S i)) as (ex2 & He2 & HF2).
  exists (ex1 ++ ex2). split; [|by apply Forall_app].
  rewrite He2. cbn [ps_all_providers]. rewrite He1. by rewrite app_assoc.
Qed.

Context {ST : Type} `{DhtStorage ST}.

(** [get_providers]: the result lists each provider once; every record is
    either one the local store returned or one built for this key from a reply;
    every provider the local store returned is in the result, and is reported by
    the local record, whatever the peers say. *)
Theorem query_get_providers_spec (store : ST) table local_id key :
  expired 0 = false →
  let local := (get_providers now store key).2 in
  let found := qr_providers (query_get_providers blake3_hash random now config expired reply
                               store table local_id key).2 in
  NoDup (pr_provider_id <$> found) ∧
  (∀ p, p ∈ found → p ∈ local ∨ pr_provider_id p ∉ pr_provider_id <$> local ∧ provider_told key p) ∧
  (∀ p, p ∈ local → pr_provider_id p ∈ pr_provider_id <$> found).
Proof.
  intros Hx local found.
  assert (∃ extra, found = dedup_providers ∅ (local ++ extra) ∧ Forall (provider_told key) extra)
    as (extra & -> & HF).
  { unfold found, query_get_providers. subst local.
    destruct (get_providers now store key) as [st' local]. rewrite Hx. simpl.
    destruct (get_providers_loop_appends key (qc_max_iterations config) 1
      (mkProviderState (RoutingTable_closest table (node_id_from_key blake3_hash random key)
         CLOSEST_PEERS) {[local_id]} local)) as (ex & He & HF).
    exists ex. split; [|done]. revert He.
    destruct (get_providers_loop _ _ _ _ _ _ _ _) as [st t]. simpl. by intros ->. }
  destruct (dedup_providers_spec ∅ (local ++ extra)) as (H1 & H2 & H3). split_and!; [done|..].
  - rewrite dedup_providers_app. intros p [Hp|Hp]%elem_of_app.
    + left. by apply dedup_providers_spec in Hp as [? _].
    + right. apply dedup_providers_spec in Hp as [Hp Hn]. rewrite Forall_forall in HF.
      split; [set_solver|by apply HF].
  - intros p Hp. apply H3; [apply elem_of_app; by left|set_solver].
Qed.

End ProviderTheorems.

(** ** Publishing *)

Section Publish.
Context `{HX : Hex} (blake3_hash : list N → list N) (random : NodeId).
Context (now : N) (config : QueryConfig) (expired : nat → bool)
  (reply : nat → Contact → option DhtWireMessage).
Context {ST : Type} `{StorageLaws ST}.

(** Publishing, against the storage contract alone: after [add_provider]
    stored its record, [get_providers] lists the local node until the record
    expires; after [put_value] stored its value, [get_value] returns the data;
    and announcements go to at most [KBUCKET_SIZE] peers, never to the local
    node. *)
Theorem publish_then_read (store : ST) table local_id key addr data ttl later :
  let record := ProviderRecord_new now key local_id addr in
  (put_provider store key record).2 = true → later ≤ now + default_ttl →
  now + default_ttl ≤ u64_max → (put_value store key (mkDhtValue data now ttl)).2 = true →
  expired 0 = false →
  let '(store1, sent) := query_add_provider blake3_hash random now store table local_id key addr in
  local_id ∈ pr_provider_id <$> qr_providers (query_get_providers blake3_hash random later config expired
    reply store1 table local_id key).2 ∧
  (length sent ≤ KBUCKET_SIZE)%nat ∧ Forall (λ m, c_id m.1 ≠ local_id ∧ m.2 = record) sent ∧
  query_get_value (query_put_value blake3_hash random now store table local_id key data ttl).1 key = Some data.
Proof.
  intros record Hput Hl Hov Hval Hx. unfold query_add_provider. fold record. split_and!.
  - assert (live later record) as Hlive.
    { unfold live, ProviderRecord_is_expired, sat_add, record. simpl. apply N.ltb_ge. lia. }
    destruct (law_put_get store key record later Hput Hlive) as (r' & Hr' & Hs).
    assert (pr_provider_id r' = local_id) as <-.
    { unfold same_unsigned in Hs. apply (f_equal pr_provider_id) in Hs. done. }
    unfold query_get_providers.
    destruct (get_providers later (put_provider store key record).1 key) as [st' local]. simpl in Hr'.
    rewrite Hx. simpl.
    destruct (get_providers_loop_appends later config expired reply key (qc_max_iterations config) 1
      (mkProviderState (RoutingTable_closest table (node_id_from_key blake3_hash random key)
         CLOSEST_PEERS) {[pr_provider_id r']} local)) as (ex & He & _).
    revert He. destruct (get_providers_loop _ _ _ _ _ _ _ _) as [st t]. simpl. intros ->.
    apply dedup_providers_spec; [apply elem_of_app; by left|set_solver].
  - rewrite length_fmap. unfold announce_targets. etrans; [apply length_filter|].
    rewrite length_take. lia.
  - apply Forall_fmap, Forall_forall. intros c [Hc _]%list_elem_of_filter. done.
  - unfold query_get_value, query_put_value. cbn [fst]. by rewrite law_put_value.
Qed.
End Publish.

(** ** A small network, the lookup's blind spots and the witnesses *)

Definition ex_blake3 (_ : list N) : list N := replicate 32 0.
Definition ex_local : NodeId := id_of_byte 1.
Definition ex_contact (b : N) : Contact := Contact_new 0 (id_of_byte b) unroutable.
Definition ex_key : DhtKey := mkDhtKey (replicate 32 0).
Definition ex_table : RoutingTable :=
  (RoutingTable_insert (RoutingTable_new 0 ex_local) (ex_contact 2)).1.

(** The node 2 tells the given nodes, the others tell nothing. *)
Definition ex_reply (bs : list N) (_ : nat) (p : Contact) : option DhtWireMessage :=
  Some (Nodes "r" (if decide (c_id p = id_of_byte 2)
                   then (λ b, mkNodeContact (id_of_byte b) []) <$> bs else [])).

Definition ex_find (bs : list N) : LookupState * bool :=
  find_node_run ex_blake3 ex_local (λ _, None) 0 QueryConfig_default (λ _, false) (ex_reply bs)
    ex_table ex_local ex_key.

Definition ex_find_peers (bs : list N) : list NodeId :=
  ni_id <$> qr_peers (find_node ex_blake3 ex_local (λ _, None) (λ _, EmptyString) 0 QueryConfig_default
    (λ _, false) (ex_reply bs) ex_table ex_local ex_key).

(** The known contacts a lookup starts from are not part of its answer, however
    near; a contact told twice is returned twice; and a batch of contacts that
    were all asked before ends the lookup although others are left: here the
    node 4 is never asked. *)
Theorem find_node_blind_spots :
  (RoutingTable_contains ex_table (id_of_byte 2) = true ∧ ex_find_peers [] = []) ∧
  ex_find_peers [3; 3] = [id_of_byte 3; id_of_byte 3] ∧
  (let st := (ex_find [3; 3; 3; 3; 3; 3; 4]).1 in
   ex_contact 4 ∈ ls_all_closest st ∧ id_of_byte 4 ∉ (λ p, c_id p.2) <$> ls_sent st ∧
   (length (ls_sent st) < qc_max_iterations QueryConfig_default)%nat).
Proof.
  split_and!; try (vm_compute; reflexivity). cbv zeta. split_and!.
  - apply list_elem_of_lookup. exists 6%nat. vm_compute. reflexivity.
  - apply (bool_decide_eq_true_1 _). vm_compute. reflexivity.
  - apply Nat.ltb_lt. vm_compute. reflexivity.
Qed.

Lemma ex_reply_ok i p cs c :
  contacts_of_reply (λ _, None) 0 (ex_reply [3; 4] i p) = Some cs → c ∈ cs → node_ok (c_id c).
Proof.
  unfold ex_reply. simpl. destruct (decide _); simpl; intros [= <-]; simpl.
  - intros [->|[->|[]%elem_of_nil]%elem_of_cons]%elem_of_cons; by apply id_of_byte_ok.
  - by intros []%elem_of_nil.
Qed.

Lemma ex_key_ok : bytes_ok (key_bytes ex_key).
Proof. apply Forall_replicate. done. Qed.

Lemma ex_blake3_ok bs : length (ex_blake3 bs) = 32%nat ∧ bytes_ok (ex_blake3 bs).
Proof. split; [done|apply Forall_replicate; done]. Qed.

Lemma node_id_from_key_spec_witness : node_ok (node_id_from_key ex_blake3 ex_local ex_key).
Proof.
  exact (proj1 (node_id_from_key_spec ex_blake3 ex_local ex_key ex_key ex_blake3_ok ex_key_ok)).
Defined.

Lemma ex_target_ok : node_ok (node_id_from_key ex_blake3 ex_local ex_key).
Proof.
  exists (replicate 32 0). split_and!; [done|apply ex_key_ok|vm_compute; reflexivity].
Qed.

Lemma find_node_requests_witness : Nat.le (length (ls_sent (ex_find [3; 4]).1)) 60.
Proof.
  exact (proj1 (find_node_requests ex_blake3 ex_local (λ _, None) 0 QueryConfig_default (λ _, false)
    (ex_reply [3; 4]) ex_table ex_local ex_key)).
Defined.

Lemma find_node_nearest_witness :
  ex_find_peers [3; 4] = [id_of_byte 3; id_of_byte 4] ∧
  ∀ c, c ∈ ls_all_closest (ex_find [3; 4]).1 → c_id c ≠ ex_local.
Proof.
  destruct (find_node_nearest ex_blake3 ex_local (λ _, None) (λ _, EmptyString) 0 QueryConfig_default
    (λ _, false) (ex_reply [3; 4]) ex_table ex_local ex_key ex_target_ok ex_reply_ok eq_refl)
    as (_ & H & _).
  split; [vm_compute; reflexivity|]. intros c Hc. exact (proj1 (H c Hc)).
Defined.

Lemma query_get_providers_spec_witness :
  NoDup (pr_provider_id <$> qr_providers (query_get_providers ex_blake3 ex_local 0 QueryConfig_default
    (λ _, false) (ex_reply []) InMemoryDhtStore_new ex_table ex_local ex_key).2).
Proof.
  exact (proj1 (query_get_providers_spec ex_blake3 ex_local 0 QueryConfig_default (λ _, false) (ex_reply [])
    InMemoryDhtStore_new ex_table ex_local ex_key eq_refl)).
Defined.

Lemma publish_then_read_witness :
  query_get_value (query_put_value ex_blake3 ex_local 5 InMemoryDhtStore_new ex_table ex_local ex_key
    [1; 2] 60).1 ex_key = Some [1; 2].
Proof.
  refine (proj2 (proj2 (proj2 (publish_then_read ex_blake3 ex_local 5 QueryConfig_default (λ _, false)
    (ex_reply []) InMemoryDhtStore_new ex_table ex_local ex_key "a" [1; 2] 60 100
    eq_refl _ _ eq_refl eq_refl)))); vm_compute; discriminate.
Defined.
