(* ===== verification/DhtRetry.v ===== *)
(** * Retries and per-peer cooldowns of DHT queries
    ([crates/a3net-dht/src/retry.rs])

    The policy computes its delays with [f64]; they are modelled with the IEEE
    754 specification of the Standard Library at precision 53 and exponent
    bound 1024, so that every rounding is the one of the machine. The generator
    [jitter_uniform] keeps in a thread-local cell is passed as a state. A
    [Duration] and an [Instant] are nanoseconds; the clock is an argument. *)
From stdpp Require Import prelude strings gmap list.
From Stdlib Require Import NArith ZArith Lia SpecFloat.
From S2P Require Import Prelude Floats NodeId Bucket.

#[local] Open Scope N_scope.

(** [Duration::from_millis] and [as_millis]. *)
Definition millis (n : N) : N := n * 1000000.
Definition as_millis (d : N) : N := d / 1000000.

(** ** The policy *)

Record RetryPolicy : Type := mkRetryPolicy {
  rp_max_attempts : N;
  rp_initial_backoff : N;
  rp_max_backoff : N;
  rp_backoff_multiplier : f64;
  rp_jitter_ratio : f64;
  rp_peer_cooldown_threshold : N;
  rp_peer_cooldown_min : N;
  rp_peer_cooldown_max : N
}.

Definition RetryPolicy_default : RetryPolicy :=
  {| rp_max_attempts := 3; rp_initial_backoff := millis 500; rp_max_backoff := secs 30;
     rp_backoff_multiplier := f64_of 2; rp_jitter_ratio := f64_one_fifth;
     rp_peer_cooldown_threshold := 2; rp_peer_cooldown_min := secs 5;
     rp_peer_cooldown_max := secs 300 |}.

Definition should_retry (p : RetryPolicy) (attempt : N) : bool := attempt <? rp_max_attempts p.

(** The cell of [jitter_uniform]. *)
Definition jitter_seed : N := 11400714819323198485.

Definition shl64 (x k : N) : N := N.shiftl x k mod 2 ^ 64.

Definition xorshift64 (s : N) : N :=
  let x := if s =? 0 then jitter_seed else s in
  let x := N.lxor x (shl64 x 13) in
  let x := N.lxor x (N.shiftr x 7) in
  N.lxor x (shl64 x 17).

Definition jitter_uniform (low high : f64) (rng : N) : f64 * N :=
  let '(low, high) := if SFltb high low then (high, low) else (low, high) in
  if SFltb (SFabs (f64_sub high low)) f64_EPSILON then (low, rng)
  else
    let x := xorshift64 rng in
    let unit := f64_div (f64_of (N.shiftr x 11)) (f64_of (N.shiftl 1 53)) in
    (f64_add low (f64_mul unit (f64_sub high low)), x).

(** The delay before jitter, [clamped_ms]. *)
Definition clamped_ms (p : RetryPolicy) (attempt : N) : f64 :=
  let schedule_index := N.min (attempt - 1) 20 in
  let base_ms := f64_of (as_millis (rp_initial_backoff p)) in
  let factor := f64_powi (rp_backoff_multiplier p) schedule_index in
  let raw_ms := f64_mul base_ms factor in
  let max_ms := f64_of (as_millis (rp_max_backoff p)) in
  f64_min raw_ms max_ms.

Definition backoff_for (p : RetryPolicy) (attempt : N) (rng : N) : N * N :=
  if attempt =? 0 then (0, rng)
  else
    let clamped := clamped_ms p attempt in
    let low := f64_mul clamped (f64_sub (f64_of 1) (rp_jitter_ratio p)) in
    let high := f64_mul clamped (f64_add (f64_of 1) (rp_jitter_ratio p)) in
    let '(j, rng) := jitter_uniform low high rng in
    let jittered_ms := f64_max j (f64_of 1) in
    (millis (f64_as_u64 jittered_ms), rng).

Definition peer_cooldown (p : RetryPolicy) (failure_count : N) : N :=
  if failure_count <? rp_peer_cooldown_threshold p then 0
  else
    let exponent := failure_count - rp_peer_cooldown_threshold p in
    let base_ms := f64_of (as_millis (rp_peer_cooldown_min p)) in
    let factor := f64_powi (rp_backoff_multiplier p) (N.min exponent 16) in
    let raw_ms := f64_mul base_ms factor in
    let max_ms := f64_of (as_millis (rp_peer_cooldown_max p)) in
    millis (f64_as_u64 (f64_min raw_ms max_ms)).

(** ** Errors worth a retry *)

Inductive QueryError : Type :=
| Network (msg : string)
| Timeout
| PeerNotFound
| InvalidResponse.

Definition is_transient (err : QueryError) : bool :=
  match err with Timeout | Network _ => true | _ => false end.

(** ** The failure tracker *)

Record PeerState : Type := mkPeerState {
  ps_consecutive_failures : N;
  ps_cooldown_until : option N
}.

Record PeerFailureTracker : Type := mkTracker {
  ft_state : gmap NodeId PeerState;
  ft_policy : RetryPolicy
}.

Definition PeerFailureTracker_new (p : RetryPolicy) : PeerFailureTracker := mkTracker ∅ p.

Definition tracked_peers (t : PeerFailureTracker) : nat := size (ft_state t).

(** [entry(peer).or_insert(..)], and writing the entry back. *)
Definition peer_entry (t : PeerFailureTracker) (peer : NodeId) : PeerState :=
  default (mkPeerState 0 None) (ft_state t !! peer).

Definition put_peer (t : PeerFailureTracker) (peer : NodeId) (e : PeerState) : PeerFailureTracker :=
  mkTracker (<[peer := e]> (ft_state t)) (ft_policy t).

(** [try_acquire]: the attempt number, or the rest of the cooldown. The entry is
    created in either case. The count saturates, the attempt number is one more
    and wraps in a build without overflow checks. *)
Definition try_acquire (now : N) (t : PeerFailureTracker) (peer : NodeId)
  : PeerFailureTracker * result N N :=
  let entry := peer_entry t peer in
  match ps_cooldown_until entry with
  | Some until =>
      if now <? until then (put_peer t peer entry, Err (until - now))
      else let entry := mkPeerState (ps_consecutive_failures entry) None in
           (put_peer t peer entry, Ok ((ps_consecutive_failures entry + 1) mod 2 ^ 32))
  | None => (put_peer t peer entry, Ok ((ps_consecutive_failures entry + 1) mod 2 ^ 32))
  end.

Definition peer_record_failure (now : N) (t : PeerFailureTracker) (peer : NodeId) : PeerFailureTracker :=
  let entry := peer_entry t peer in
  let n := sat_add u32_max (ps_consecutive_failures entry) 1 in
  let cooldown := peer_cooldown (ft_policy t) n in
  let until := if cooldown =? 0 then ps_cooldown_until entry else Some (now + cooldown) in
  put_peer t peer (mkPeerState n until).

Definition peer_record_success (t : PeerFailureTracker) (peer : NodeId) : PeerFailureTracker :=
  mkTracker (delete peer (ft_state t)) (ft_policy t).

(** ** The delays of the default policy *)

(** The values of a function that is constant from [k] on are those up to [k]. *)
Lemma forallb_upto (P : N → bool) (k : nat) n :
  forallb P (N.of_nat <$> seq 0 (S k)) = true → n ≤ N.of_nat k → P n = true.
Proof.
  rewrite forallb_forall. intros H Hn. apply H. apply list_elem_of_In, list_elem_of_fmap.
  exists (N.to_nat n). rewrite elem_of_seq. lia.
Qed.

Lemma min_pow2_clamp a k m n : m ≤ a * 2 ^ k → N.min (a * 2 ^ N.min n k) m = N.min (a * 2 ^ n) m.
Proof.
  intros Hm. destruct (N.le_ge_cases n k) as [Hle|Hge]; [by rewrite (N.min_l n k)|].
  rewrite (N.min_r n k) by done. pose proof (N.pow_le_mono_r 2 k n ltac:(lia) Hge). nia.
Qed.

(** A peer with one failure is not delayed; from the second failure in a row on
    the cooldown is five seconds, doubling up to five minutes. *)
Lemma peer_cooldown_default n :
  peer_cooldown RetryPolicy_default n =
  if n <? 2 then 0 else N.min (secs 5 * 2 ^ (n - 2)) (secs 300).
Proof.
  unfold peer_cooldown. cbn -[N.ltb secs N.mul N.pow N.min millis f64_as_u64 f64_min f64_mul f64_of f64_powi as_millis].
  destruct (n <? 2); [done|]. rewrite <- (min_pow2_clamp (secs 5) 16) by (unfold secs; lia).
  assert (N.min (n - 2) 16 ≤ N.of_nat 16) as Hk by lia. revert Hk.
  generalize (N.min (n - 2) 16). intros k Hk. apply N.eqb_eq.
  refine (forallb_upto (λ k, millis (f64_as_u64 (f64_min (f64_mul (f64_of (as_millis (secs 5)))
    (f64_powi (f64_of 2) k)) (f64_of (as_millis (secs 300))))) =? N.min (secs 5 * 2 ^ k) (secs 300)) 16 k _ Hk).
  by vm_compute.
Qed.

(** The default policy with its jitter switched off. *)
Definition no_jitter (p : RetryPolicy) : RetryPolicy :=
  {| rp_max_attempts := rp_max_attempts p; rp_initial_backoff := rp_initial_backoff p;
     rp_max_backoff := rp_max_backoff p; rp_backoff_multiplier := rp_backoff_multiplier p;
     rp_jitter_ratio := f64_of 0; rp_peer_cooldown_threshold := rp_peer_cooldown_threshold p;
     rp_peer_cooldown_min := rp_peer_cooldown_min p; rp_peer_cooldown_max := rp_peer_cooldown_max p |}.

Lemma backoff_schedule attempt rng :
  1 ≤ attempt →
  backoff_for (no_jitter RetryPolicy_default) attempt rng =
  (N.min (millis 500 * 2 ^ (attempt - 1)) (secs 30), rng).
Proof.
  intros Ha. rewrite <- (min_pow2_clamp (millis 500) 20) by (unfold secs, millis; lia).
  unfold backoff_for, clamped_ms.
  rewrite (proj2 (N.eqb_neq attempt 0)) by lia.
  assert (N.min (attempt - 1) 20 ≤ N.of_nat 20) as Hk by lia. revert Hk.
  generalize (N.min (attempt - 1) 20). intros k Hk.
  assert (k ∈ N.of_nat <$> seq 0 21) as Hin.
  { apply list_elem_of_fmap. exists (N.to_nat k). rewrite elem_of_seq. lia. }
  clear Hk. revert Hin. generalize k. apply Forall_forall.
  cbn [seq fmap list_fmap N.of_nat]. repeat constructor; by vm_compute.
Qed.

(** ** What the tracker promises

    The operations on a tracker, newest first. The streak of a peer is the number
    of failures since its last success. *)

Inductive TrackerOp : Type :=
| OpAcquire (now : N) (peer : NodeId)
| OpFailure (now : N) (peer : NodeId)
| OpSuccess (now : N) (peer : NodeId).

Definition op_time (o : TrackerOp) : N :=
  match o with OpAcquire now _ | OpFailure now _ | OpSuccess now _ => now end.

Definition tracker_op (o : TrackerOp) (t : PeerFailureTracker) : PeerFailureTracker :=
  match o with
  | OpAcquire now peer => (try_acquire now t peer).1
  | OpFailure now peer => peer_record_failure now t peer
  | OpSuccess _ peer => peer_record_success t peer
  end.

Definition tracker_run (p : RetryPolicy) (h : list TrackerOp) : PeerFailureTracker :=
  foldr tracker_op (PeerFailureTracker_new p) h.

Fixpoint streak (peer : NodeId) (h : list TrackerOp) : N :=
  match h with
  | [] => 0
  | OpFailure _ q :: h => if bool_decide (q = peer) then streak peer h + 1 else streak peer h
  | OpSuccess _ q :: h => if bool_decide (q = peer) then 0 else streak peer h
  | OpAcquire _ _ :: h => streak peer h
  end.

Fixpoint last_failure (peer : NodeId) (h : list TrackerOp) : N :=
  match h with
  | [] => 0
  | OpFailure now q :: h => if bool_decide (q = peer) then now else last_failure peer h
  | OpSuccess _ _ :: h | OpAcquire _ _ :: h => last_failure peer h
  end.

Definition failures (peer : NodeId) (h : list TrackerOp) : N := N.min (streak peer h) u32_max.

(** The instant until which a peer is left alone. *)
Definition blocked_until (p : RetryPolicy) (peer : NodeId) (h : list TrackerOp) : N :=
  if streak peer h =? 0 then 0 else last_failure peer h + peer_cooldown p (failures peer h).

(** Every cooldown the policy imposes lasts: none rounds to zero. *)
Definition cooldowns_last (p : RetryPolicy) : Prop :=
  ∀ n, rp_peer_cooldown_threshold p ≤ n → peer_cooldown p n ≠ 0.

Section Tracker.
Context (p : RetryPolicy) (Hp : cooldowns_last p).

Record entry_ok (now : N) (peer : NodeId) (h : list TrackerOp) (e : PeerState) : Prop := {
  eo_count : ps_consecutive_failures e = failures peer h;
  eo_quiet : failures peer h < rp_peer_cooldown_threshold p → ps_cooldown_until e = None;
  eo_until : ∀ t, now ≤ t → rp_peer_cooldown_threshold p ≤ failures peer h →
    (∃ u, ps_cooldown_until e = Some u ∧ t < u ∧ u = blocked_until p peer h) ∨
    ((∀ u, ps_cooldown_until e = Some u → u ≤ t) ∧ blocked_until p peer h ≤ t)
}.

Lemma peer_cooldown_below n : n < rp_peer_cooldown_threshold p → peer_cooldown p n = 0.
Proof. intros H. unfold peer_cooldown. by rewrite (proj2 (N.ltb_lt _ _) H). Qed.

Lemma tracker_run_policy h : ft_policy (tracker_run p h) = p.
Proof.
  induction h as [|[now q|now q|now q] h IH]; cbn; try done.
  unfold try_acquire. destruct (ps_cooldown_until _); [destruct (_ <? _)|]; done.
Qed.

Lemma entry_ok_later now now' peer h e : now ≤ now' → entry_ok now peer h e → entry_ok now' peer h e.
Proof. intros ? []. split; [done..|]. intros t ?. apply eo_until0. lia. Qed.

(** Reading an entry through [try_acquire] changes nothing a later read sees. *)
Lemma entry_ok_acquire now0 now peer h t :
  now0 ≤ now → entry_ok now0 peer h (peer_entry t peer) →
  entry_ok now peer h (peer_entry (try_acquire now t peer).1 peer).
Proof.
  intros Hle He%(entry_ok_later _ _ _ _ _ Hle). unfold try_acquire.
  destruct (ps_cooldown_until (peer_entry t peer)) as [u|] eqn:Eu;
    [destruct (N.ltb_spec now u)|]; cbn; unfold peer_entry at 1, put_peer; cbn;
    rewrite lookup_insert_eq; cbn; [done| |done].
  destruct He as [Hc Hq Hu]. split; cbn; [done|done|]. intros s Hs Hth.
  right. destruct (Hu s Hs Hth) as [(u' & Hu' & Hlt & _)|[_ Hb]].
  - exfalso. rewrite Eu in Hu'. injection Hu' as <-. lia.
  - split; [done|done].
Qed.

Lemma entry_ok_failure now0 now peer h t :
  ft_policy t = p → now0 ≤ now → entry_ok now0 peer h (peer_entry t peer) →
  entry_ok now peer (OpFailure now peer :: h) (peer_entry (peer_record_failure now t peer) peer).
Proof.
  intros Hpol Hle [Hc Hq Hu]. unfold peer_record_failure. rewrite Hpol, Hc.
  unfold peer_entry at 1, put_peer. cbn. rewrite lookup_insert_eq. cbn.
  assert (sat_add u32_max (failures peer h) 1 = failures peer (OpFailure now peer :: h)) as Hf.
  { unfold failures, sat_add. cbn. rewrite bool_decide_true by done. lia. }
  rewrite Hf. split; cbn; [done| |].
  - intros Hlt. rewrite peer_cooldown_below by done. apply Hq.
    revert Hlt. unfold failures. cbn. rewrite bool_decide_true by done. lia.
  - intros s Hs Hth. rewrite (proj2 (N.eqb_neq _ _)) by (by apply Hp).
    unfold blocked_until. cbn. rewrite bool_decide_true by done.
    rewrite (proj2 (N.eqb_neq _ 0)) by lia.
    set (c := peer_cooldown p _). destruct (N.lt_ge_cases s (now + c)).
    + left. by exists (now + c).
    + right. split; [|done]. intros u [= <-]. done.
Qed.

(** The times of a history go forward: newest first, none after [now]. *)
Fixpoint timely (now : N) (h : list TrackerOp) : Prop :=
  match h with [] => True | o :: h => op_time o ≤ now ∧ timely (op_time o) h end.

Lemma last_failure_past now peer h : timely now h → last_failure peer h ≤ now.
Proof.
  revert now. induction h as [|o h IH]; intros now; cbn; [lia|]. intros [Ho Ht].
  pose proof (IH _ Ht). destruct o; cbn in *; try case_bool_decide; lia.
Qed.

Lemma peer_entry_other q peer t o :
  q ≠ peer → (∃ now, o = OpAcquire now q ∨ o = OpFailure now q ∨ o = OpSuccess now q) →
  peer_entry (tracker_op o t) peer = peer_entry t peer.
Proof.
  intros Hq (now & [->|[->| ->]]); unfold peer_entry; cbn.
  - unfold try_acquire. destruct (ps_cooldown_until _); [destruct (_ <? _)|]; cbn;
      by rewrite lookup_insert_ne.
  - by rewrite lookup_insert_ne.
  - by rewrite lookup_delete_ne.
Qed.

(** Only the streak and the last failure of a history matter. *)
Lemma entry_ok_ext now peer h h' e :
  streak peer h' = streak peer h → last_failure peer h' = last_failure peer h →
  entry_ok now peer h e → entry_ok now peer h' e.
Proof. intros Hs Hl []. split; unfold blocked_until, failures in *; by rewrite ?Hs, ?Hl. Qed.

Lemma entry_ok_clear now peer h s :
  entry_ok now peer (OpSuccess s peer :: h) (mkPeerState 0 None).
Proof.
  assert (streak peer (OpSuccess s peer :: h) = 0) as Hs by (cbn; by rewrite bool_decide_true).
  split; cbn; [unfold failures; by rewrite Hs|done|]. intros t _ _. right. split; [done|].
  unfold blocked_until. rewrite Hs. cbn. lia.
Qed.

Lemma tracker_entry_ok now h peer :
  timely now h → entry_ok now peer h (peer_entry (tracker_run p h) peer).
Proof.
  revert now. induction h as [|o h IH]; intros now; cbn [timely].
  - intros _. split; [done|done|]. cbn. intros t _ _. right. split; [done|]. cbn. lia.
  - intros [Ho Ht]. specialize (IH _ Ht). apply (entry_ok_later _ _ _ _ _ Ho).
    change (tracker_run p (o :: h)) with (tracker_op o (tracker_run p h)).
    destruct o as [s q|s q|s q]; cbn [op_time] in *; destruct (decide (q = peer)) as [->|Hq].
    + apply (entry_ok_ext _ _ h); [done..|]. by eapply entry_ok_acquire.
    + rewrite (peer_entry_other q) by eauto. by apply (entry_ok_ext _ _ h).
    + eapply entry_ok_failure; [apply tracker_run_policy|reflexivity|done].
    + rewrite (peer_entry_other q) by eauto. apply (entry_ok_ext _ _ h); cbn;
        rewrite ?bool_decide_false by done; done.
    + unfold peer_entry. cbn. rewrite lookup_delete_eq. apply entry_ok_clear.
    + rewrite (peer_entry_other q) by eauto. apply (entry_ok_ext _ _ h); cbn;
        rewrite ?bool_decide_false by done; done.
Qed.

Lemma try_acquire_verdict now h peer :
  timely now h →
  (try_acquire now (tracker_run p h) peer).2 =
  if now <? blocked_until p peer h then Err (blocked_until p peer h - now)
  else Ok ((failures peer h + 1) mod 2 ^ 32).
Proof.
  intros Ht. pose proof (tracker_entry_ok now h peer Ht) as [Hc Hq Hu].
  unfold try_acquire. destruct (N.lt_ge_cases (failures peer h) (rp_peer_cooldown_threshold p)) as [Hlt|Hge].
  - rewrite (Hq Hlt), Hc. cbn. rewrite (proj2 (N.ltb_ge _ _)); [done|].
    unfold blocked_until. destruct (streak peer h =? 0); [lia|]. rewrite peer_cooldown_below by done.
    pose proof (last_failure_past now peer h Ht). lia.
  - destruct (Hu now ltac:(done) Hge) as [(u & -> & Hlt & ->)|[Hn Hb]].
    + by rewrite (proj2 (N.ltb_lt _ _) Hlt).
    + rewrite (proj2 (N.ltb_ge _ _) Hb). destruct (ps_cooldown_until _) as [u|].
      * rewrite (proj2 (N.ltb_ge _ _)) by (by apply Hn). cbn. by rewrite Hc.
      * cbn. by rewrite Hc.
Qed.
End Tracker.

(** The default policy imposes no empty cooldown. *)
Lemma default_cooldowns_last : cooldowns_last RetryPolicy_default.
Proof.
  intros n Hn. rewrite peer_cooldown_default. cbn in Hn. rewrite (proj2 (N.ltb_ge _ _)) by done.
  pose proof (N.pow_nonzero 2 (n - 2) ltac:(lia)). unfold secs. lia.
Qed.

(** Right after a second failure in a row the peer is in cooldown. *)
Lemma second_failure_cooldown t peer now later :
  ft_policy t = RetryPolicy_default → ps_consecutive_failures (peer_entry t peer) = 1 →
  later < now + secs 5 →
  (try_acquire later (peer_record_failure now t peer) peer).2 = Err (now + secs 5 - later).
Proof.
  intros Hp Hc Hlt. unfold peer_record_failure. rewrite Hc, Hp.
  change (sat_add u32_max 1 1) with 2. change (peer_cooldown RetryPolicy_default 2) with (secs 5).
  change (secs 5 =? 0) with false. cbv iota. unfold try_acquire, peer_entry at 1, put_peer.
  cbn [ft_state]. rewrite lookup_insert_eq. cbn [default id ps_cooldown_until].
  by rewrite (proj2 (N.ltb_lt _ _) Hlt).
Qed.

(** The tracker, for a policy whose cooldowns last and operations recorded
    in the order of time: a peer is refused exactly while its last failure plus
    the cooldown of its streak lies ahead, with the time that remains as the
    answer, and is otherwise admitted under one more than its streak; a success
    clears the streak, and failures count saturating at the largest [u32]. With
    the default policy the cooldown of a streak [n] is nothing below two, then
    five seconds doubling up to five minutes. *)
Theorem failure_tracker_spec p h now peer :
  cooldowns_last p → timely now h →
  (try_acquire now (tracker_run p h) peer).2 =
    (if now <? blocked_until p peer h then Err (blocked_until p peer h - now)
     else Ok ((failures peer h + 1) mod 2 ^ 32)) ∧
  peer_cooldown RetryPolicy_default (failures peer h) =
    (if failures peer h <? 2 then 0 else N.min (secs 5 * 2 ^ (failures peer h - 2)) (secs 300)).
Proof. intros Hp Ht. split; [by apply try_acquire_verdict|apply peer_cooldown_default]. Qed.

Lemma failure_tracker_spec_witness :
  let h := [OpFailure (secs 9) (id_of_byte 7); OpAcquire (secs 9) (id_of_byte 7);
            OpFailure (secs 3) (id_of_byte 7); OpAcquire (secs 3) (id_of_byte 7)] in
  timely (secs 12) h ∧
  (try_acquire (secs 12) (tracker_run RetryPolicy_default h) (id_of_byte 7)).2 = Err (secs 2).
Proof.
  intros h. assert (timely (secs 12) h) as Ht by (cbn; unfold secs; lia). split; [done|].
  rewrite (proj1 (failure_tracker_spec RetryPolicy_default h (secs 12) (id_of_byte 7) default_cooldowns_last Ht)).
  by vm_compute.
Defined.
