(* ===== verification/DhtNetwork.v ===== *)
(** * The DHT network sender ([crates/a3net-dht/src/network.rs])

    [DhtNetworkSender] shares a map of pending requests and a failure tracker
    between the tasks that query peers and the task that hands in responses.
    A task is a value with the point of [find_node] or [get_providers] it has
    reached; an event is what happens between two of its [await] points, or the
    arrival of a response. [net_step] executes one event, so a run is a list of
    events and every interleaving the scheduler may choose is one.

    The JSON codec ([serde_json]) and the transport are not part of the
    repository: the first is an interface with its round trip, the second gives
    the result of each send. A request identifier, which [RequestId::new] draws
    at random, and the clock are arguments of the events. *)
From stdpp Require Import prelude strings gmap list.
From Stdlib Require Import NArith Lia.
From S2P Require Import Prelude NodeId Bucket DhtRecord DhtRetry.

#[local] Open Scope N_scope.

Inductive CodecError : Type := CodecEncode (msg : string) | CodecDecode (msg : string).

Definition codec_error_to_string (e : CodecError) : string :=
  match e with
  | CodecEncode m => ("Encode error: " +:+ m)%string
  | CodecDecode m => ("Decode error: " +:+ m)%string
  end.

(** [DhtCodec::encode] and [DhtCodec::decode], with the text of the error. *)
Class JsonCodec : Type := {
  json_to_vec : DhtWireMessage → result string (list N);
  json_from_slice : list N → result string DhtWireMessage
}.

(** Documented behaviour of [serde_json]: writing a value and reading it back
    gives the value. *)
Class JsonCodecLaws (C : JsonCodec) : Prop := {
  json_roundtrip m bytes : json_to_vec m = Ok bytes → json_from_slice bytes = Ok m
}.

Section Sender.
Context `{JC : JsonCodec}.

Definition DhtCodec_encode (msg : DhtWireMessage) : result CodecError (list N) :=
  match json_to_vec msg with Ok b => Ok b | Err e => Err (CodecEncode e) end.

Definition DhtCodec_decode (bytes : list N) : result CodecError DhtWireMessage :=
  match json_from_slice bytes with Ok m => Ok m | Err e => Err (CodecDecode e) end.

(** ** The state *)

(** A channel of capacity one: what waits in it, and whether its sender is
    still there. *)
Record Chan : Type := mkChan {
  ch_buf : option (result CodecError (list N));
  ch_open : bool
}.

Inductive Kind : Type := KFindNode | KGetProviders.

Inductive Payload : Type :=
| NodesPayload (request_id : RequestId) (nodes : list NodeContact)
| ProvidersPayload (request_id : RequestId) (providers : list ProviderRecordWire).

Inductive Phase : Type :=
| PStart                                                     (** head of the loop *)
| PSend                                                      (** a slot is acquired *)
| PRegister (rid : RequestId)                                (** the request is on the wire *)
| PWait (rid : RequestId) (chan : nat) (deadline : N)        (** waiting for the response *)
| PConclude (outcome : result QueryError Payload)            (** the outcome of the attempt *)
| PSleep (wake : N)
| PDone (r : result QueryError Payload).

Record Task : Type := mkTask {
  tk_kind : Kind;
  tk_peer : NodeId;
  tk_key : DhtKey;
  tk_attempt : N;
  tk_last_err : option QueryError;
  tk_phase : Phase
}.

Record DhtNetworkSender : Type := mkSender {
  ns_local_id : NodeId;
  ns_pending : gmap RequestId nat;
  ns_chans : gmap nat Chan;
  ns_next_chan : nat;
  ns_peer_failures : PeerFailureTracker;
  ns_retry_policy : RetryPolicy;
  ns_tasks : gmap nat Task;
  ns_sent : list (NodeId * list N)
}.

Definition with_policy (local_id : NodeId) (p : RetryPolicy) : DhtNetworkSender :=
  {| ns_local_id := local_id; ns_pending := ∅; ns_chans := ∅; ns_next_chan := 0;
     ns_peer_failures := PeerFailureTracker_new p; ns_retry_policy := p;
     ns_tasks := ∅; ns_sent := [] |}.

Definition DhtNetworkSender_new (local_id : NodeId) : DhtNetworkSender :=
  with_policy local_id RetryPolicy_default.

Definition DEFAULT_TIMEOUT : N := secs 5.

Definition set_task (w : DhtNetworkSender) (tid : nat) (tk : Task) : DhtNetworkSender :=
  {| ns_local_id := ns_local_id w; ns_pending := ns_pending w; ns_chans := ns_chans w;
     ns_next_chan := ns_next_chan w; ns_peer_failures := ns_peer_failures w;
     ns_retry_policy := ns_retry_policy w; ns_tasks := <[tid := tk]> (ns_tasks w);
     ns_sent := ns_sent w |}.

Definition set_failures (w : DhtNetworkSender) (t : PeerFailureTracker) : DhtNetworkSender :=
  {| ns_local_id := ns_local_id w; ns_pending := ns_pending w; ns_chans := ns_chans w;
     ns_next_chan := ns_next_chan w; ns_peer_failures := t;
     ns_retry_policy := ns_retry_policy w; ns_tasks := ns_tasks w; ns_sent := ns_sent w |}.

Definition set_chans (w : DhtNetworkSender) (p : gmap RequestId nat) (c : gmap nat Chan) (n : nat)
  : DhtNetworkSender :=
  {| ns_local_id := ns_local_id w; ns_pending := p; ns_chans := c; ns_next_chan := n;
     ns_peer_failures := ns_peer_failures w; ns_retry_policy := ns_retry_policy w;
     ns_tasks := ns_tasks w; ns_sent := ns_sent w |}.

Definition log_sent (w : DhtNetworkSender) (peer : NodeId) (bytes : list N) : DhtNetworkSender :=
  {| ns_local_id := ns_local_id w; ns_pending := ns_pending w; ns_chans := ns_chans w;
     ns_next_chan := ns_next_chan w; ns_peer_failures := ns_peer_failures w;
     ns_retry_policy := ns_retry_policy w; ns_tasks := ns_tasks w;
     ns_sent := ns_sent w ++ [(peer, bytes)] |}.

Definition set_phase (tk : Task) (ph : Phase) : Task :=
  mkTask (tk_kind tk) (tk_peer tk) (tk_key tk) (tk_attempt tk) (tk_last_err tk) ph.

(** ** The pieces of [find_node] and [get_providers] *)

(** [send_raw]; [sent] is what the transport answers. *)
Definition send_raw (w : DhtNetworkSender) (peer : NodeId) (msg : DhtWireMessage)
    (sent : result QueryError unit) : DhtNetworkSender * result QueryError unit :=
  match DhtCodec_encode msg with
  | Err e => (w, Err (Network (codec_error_to_string e)))
  | Ok bytes => (log_sent w peer bytes, sent)
  end.

Definition request_of (k : Kind) (local_id : NodeId) (rid : RequestId) (key : DhtKey) : DhtWireMessage :=
  match k with
  | KFindNode => DhtMessageBuilder_find_node local_id rid (key_bytes key)
  | KGetProviders => DhtMessageBuilder_get_providers local_id rid (key_bytes key)
  end.

(** The head of the loop: the attempt is counted and a slot is asked for. *)
Definition acquire (w : DhtNetworkSender) (tid : nat) (tk : Task) (now : N) : DhtNetworkSender :=
  let tk := mkTask (tk_kind tk) (tk_peer tk) (tk_key tk) (tk_attempt tk + 1) (tk_last_err tk) PStart in
  let '(t, r) := try_acquire now (ns_peer_failures w) (tk_peer tk) in
  let w := set_failures w t in
  match r with
  | Ok _ => set_task w tid (set_phase tk PSend)
  | Err _ => set_task w tid (set_phase tk (PDone (Err (default Timeout (tk_last_err tk)))))
  end.

Definition send_request (w : DhtNetworkSender) (tid : nat) (tk : Task) (rid : RequestId)
    (sent : result QueryError unit) : DhtNetworkSender :=
  let '(w, r) := send_raw w (tk_peer tk) (request_of (tk_kind tk) (ns_local_id w) rid (tk_key tk)) sent in
  match r with
  | Ok _ => set_task w tid (set_phase tk (PRegister rid))
  | Err e => set_task w tid (set_phase tk (PConclude (Err e)))
  end.

(** Inserting into [pending] drops the sender that was there. *)
Definition close_chan (c : gmap nat Chan) (o : option nat) : gmap nat Chan :=
  match o with
  | Some ch => alter (λ x, mkChan (ch_buf x) false) ch c
  | None => c
  end.

(** The first half of [wait_for_response] and [wait_for_providers]. *)
Definition register (w : DhtNetworkSender) (tid : nat) (tk : Task) (rid : RequestId) (now : N)
  : DhtNetworkSender :=
  let ch := ns_next_chan w in
  let chans := <[ch := mkChan None true]> (close_chan (ns_chans w) (ns_pending w !! rid)) in
  set_task (set_chans w (<[rid := ch]> (ns_pending w)) chans (S ch)) tid
    (set_phase tk (PWait rid ch (now + DEFAULT_TIMEOUT))).

(** The second half: what arrived through the channel. *)
Definition payload_of (k : Kind) (msg : DhtWireMessage) : option Payload :=
  match k, msg with
  | KFindNode, Nodes rid nodes => Some (NodesPayload rid nodes)
  | KGetProviders, Providers rid ps => Some (ProvidersPayload rid ps)
  | _, _ => None
  end.

Definition read_response (k : Kind) (v : result CodecError (list N)) : result QueryError Payload :=
  match v with
  | Err e => Err (Network (codec_error_to_string e))
  | Ok bytes =>
      match DhtCodec_decode bytes with
      | Err _ => Err InvalidResponse
      | Ok msg => ok_or InvalidResponse (payload_of k msg)
      end
  end.

(** The receiver is dropped when the wait is over. *)
Definition finish_wait (w : DhtNetworkSender) (tid : nat) (tk : Task) (ch : nat)
    (r : result QueryError Payload) : DhtNetworkSender :=
  set_task (set_chans w (ns_pending w) (delete ch (ns_chans w)) (ns_next_chan w)) tid
    (set_phase tk (PConclude r)).

(** The [match outcome] at the end of the loop body; [rng] is the cell of the
    jitter generator on the thread that runs the task. *)
Definition conclude (w : DhtNetworkSender) (tid : nat) (tk : Task)
    (outcome : result QueryError Payload) (now rng : N) : DhtNetworkSender :=
  match outcome with
  | Ok payload =>
      set_task (set_failures w (peer_record_success (ns_peer_failures w) (tk_peer tk))) tid
        (set_phase tk (PDone (Ok payload)))
  | Err e =>
      let w := set_failures w (peer_record_failure now (ns_peer_failures w) (tk_peer tk)) in
      if negb (is_transient e) then set_task w tid (set_phase tk (PDone (Err e)))
      else
        let tk := mkTask (tk_kind tk) (tk_peer tk) (tk_key tk) (tk_attempt tk) (Some e) (tk_phase tk) in
        if negb (should_retry (ns_retry_policy w) (tk_attempt tk))
        then set_task w tid (set_phase tk (PDone (Err (default Timeout (tk_last_err tk)))))
        else set_task w tid (set_phase tk (PSleep (now + (backoff_for (ns_retry_policy w) (tk_attempt tk) rng).1)))
  end.

(** The identifier of a response; requests have none here. *)
Definition response_id (msg : DhtWireMessage) : option RequestId :=
  match msg with
  | Nodes rid _ | Providers rid _ | AddProviderAck rid _ _ | Value rid _ | PutAck rid _ _
  | Pong rid _ => Some rid
  | _ => None
  end.

(** [tx.send(v)], after which [tx] is dropped. *)
Definition chan_send (v : result CodecError (list N)) (c : Chan) : Chan := mkChan (Some v) false.

Definition handle_response (w : DhtNetworkSender) (msg : DhtWireMessage) : DhtNetworkSender :=
  match response_id msg with
  | None => w
  | Some rid =>
      match ns_pending w !! rid with
      | None => w
      | Some ch =>
          set_chans w (delete rid (ns_pending w))
            (alter (chan_send (DhtCodec_encode msg)) ch (ns_chans w)) (ns_next_chan w)
      end
  end.

(** ** Runs *)

Inductive Event : Type :=
| ECall (tid : nat) (k : Kind) (peer : NodeId) (key : DhtKey)
| EAcquire (tid : nat) (now : N)
| ESend (tid : nat) (rid : RequestId) (sent : result QueryError unit)
| ERegister (tid : nat) (now : N)
| EDeliver (msg : DhtWireMessage)
| ERecv (tid : nat)
| ETimeout (tid : nat) (now : N)
| EConclude (tid : nat) (now rng : N)
| EWake (tid : nat) (now : N).

(** [timeout(DEFAULT_TIMEOUT, rx.recv())] looks at the channel first; it gives up
    only when the channel is open and empty at the deadline. *)
Definition net_step (w : DhtNetworkSender) (e : Event) : option DhtNetworkSender :=
  match e with
  | ECall tid k peer key =>
      match ns_tasks w !! tid with
      | Some _ => None
      | None => Some (set_task w tid (mkTask k peer key 0 None PStart))
      end
  | EDeliver msg => Some (handle_response w msg)
  | EAcquire tid now =>
      tk ← ns_tasks w !! tid;
      match tk_phase tk with PStart => Some (acquire w tid tk now) | _ => None end
  | ESend tid rid sent =>
      tk ← ns_tasks w !! tid;
      match tk_phase tk with PSend => Some (send_request w tid tk rid sent) | _ => None end
  | ERegister tid now =>
      tk ← ns_tasks w !! tid;
      match tk_phase tk with PRegister rid => Some (register w tid tk rid now) | _ => None end
  | ERecv tid =>
      tk ← ns_tasks w !! tid;
      match tk_phase tk with
      | PWait rid ch _ =>
          c ← ns_chans w !! ch;
          match ch_buf c with
          | Some v => Some (finish_wait w tid tk ch (read_response (tk_kind tk) v))
          | None => if ch_open c then None else Some (finish_wait w tid tk ch (Err Timeout))
          end
      | _ => None
      end
  | ETimeout tid now =>
      tk ← ns_tasks w !! tid;
      match tk_phase tk with
      | PWait rid ch deadline =>
          c ← ns_chans w !! ch;
          match ch_buf c with
          | Some _ => None
          | None => if ch_open c && (deadline <=? now) then Some (finish_wait w tid tk ch (Err Timeout)) else None
          end
      | _ => None
      end
  | EConclude tid now rng =>
      tk ← ns_tasks w !! tid;
      match tk_phase tk with PConclude r => Some (conclude w tid tk r now rng) | _ => None end
  | EWake tid now =>
      tk ← ns_tasks w !! tid;
      match tk_phase tk with
      | PSleep wake => if wake <=? now then Some (set_task w tid (set_phase tk PStart)) else None
      | _ => None
      end
  end.

(** The same as a relation, one rule per way an event can go. *)
Inductive net_trans (w : DhtNetworkSender) : Event → DhtNetworkSender → Prop :=
| nt_call tid k peer key :
    ns_tasks w !! tid = None →
    net_trans w (ECall tid k peer key) (set_task w tid (mkTask k peer key 0 None PStart))
| nt_acquire tid now tk :
    ns_tasks w !! tid = Some tk → tk_phase tk = PStart →
    net_trans w (EAcquire tid now) (acquire w tid tk now)
| nt_send tid rid sent tk :
    ns_tasks w !! tid = Some tk → tk_phase tk = PSend →
    net_trans w (ESend tid rid sent) (send_request w tid tk rid sent)
| nt_register tid now tk rid :
    ns_tasks w !! tid = Some tk → tk_phase tk = PRegister rid →
    net_trans w (ERegister tid now) (register w tid tk rid now)
| nt_deliver m : net_trans w (EDeliver m) (handle_response w m)
| nt_recv tid tk rid ch d c v :
    ns_tasks w !! tid = Some tk → tk_phase tk = PWait rid ch d →
    ns_chans w !! ch = Some c → ch_buf c = Some v →
    net_trans w (ERecv tid) (finish_wait w tid tk ch (read_response (tk_kind tk) v))
| nt_closed tid tk rid ch d c :
    ns_tasks w !! tid = Some tk → tk_phase tk = PWait rid ch d →
    ns_chans w !! ch = Some c → ch_buf c = None → ch_open c = false →
    net_trans w (ERecv tid) (finish_wait w tid tk ch (Err Timeout))
| nt_timeout tid now tk rid ch d c :
    ns_tasks w !! tid = Some tk → tk_phase tk = PWait rid ch d →
    ns_chans w !! ch = Some c → ch_buf c = None → ch_open c = true → d ≤ now →
    net_trans w (ETimeout tid now) (finish_wait w tid tk ch (Err Timeout))
| nt_conclude tid now rng tk r :
    ns_tasks w !! tid = Some tk → tk_phase tk = PConclude r →
    net_trans w (EConclude tid now rng) (conclude w tid tk r now rng)
| nt_wake tid now tk wake :
    ns_tasks w !! tid = Some tk → tk_phase tk = PSleep wake → wake ≤ now →
    net_trans w (EWake tid now) (set_task w tid (set_phase tk PStart)).

Lemma net_step_trans w e w' : net_step w e = Some w' ↔ net_trans w e w'.
Proof.
  split.
  - destruct e; cbn; try (destruct (ns_tasks w !! tid) as [tk|] eqn:Hl; cbn; [|try done]);
      try (destruct (tk_phase tk) eqn:Hp; try done; cbn); repeat case_match; intros; simplify_option_eq;
      repeat case_match; simplify_eq; nprop;
      first [by eapply nt_call|by eapply nt_acquire|by eapply nt_send|by eapply nt_register|by eapply nt_deliver
            |by eapply nt_recv|by eapply nt_closed|by eapply nt_timeout|by eapply nt_conclude|by eapply nt_wake].
  - destruct 1 as [? ? ? ? Hl|? ? ? Hl Hp|? ? ? ? Hl Hp|? ? ? ? Hl Hp|?|? ? ? ? ? ? ? Hl Hp Hc Hb
      |? ? ? ? ? ? Hl Hp Hc Hb Ho|? ? ? ? ? ? ? Hl Hp Hc Hb Ho Hd|? ? ? ? ? Hl Hp|? ? ? ? Hl Hp Hd]; cbn;
      rewrite ?Hl; cbn; rewrite ?Hp; cbn; rewrite ?Hc; cbn; rewrite ?Hb, ?Ho; cbn;
      try rewrite (proj2 (N.leb_le _ _) Hd); done.
Qed.

Fixpoint net_run (w : DhtNetworkSender) (es : list Event) : option DhtNetworkSender :=
  match es with
  | [] => Some w
  | e :: es => net_step w e ≫= λ w, net_run w es
  end.

Lemma net_run_app w es es' : net_run w (es ++ es') = net_run w es ≫= λ w, net_run w es'.
Proof.
  revert w. induction es as [|e es IH]; intros w; cbn; [done|].
  destruct (net_step w e); cbn; [apply IH|done].
Qed.

(** Invariants of the runs from a state are proved one event at a time. *)
Lemma net_run_ind (P : list Event → DhtNetworkSender → Prop) w0 :
  P [] w0 →
  (∀ es w e w', net_run w0 es = Some w → P es w → net_step w e = Some w' → P (es ++ [e]) w') →
  ∀ es w, net_run w0 es = Some w → P es w.
Proof.
  intros H0 Hs es. induction es as [|e es IH] using rev_ind; intros w.
  - intros [= <-]. done.
  - rewrite net_run_app. destruct (net_run w0 es) as [w1|] eqn:E; [|done]. cbn.
    destruct (net_step w1 e) as [w2|] eqn:Es; [|done]. cbn. intros [= <-].
    eapply Hs; [exact E|by apply IH|done].
Qed.

(** ** Responses reach the call that asked for them *)

Section Correlation.
Context {JL : JsonCodecLaws JC}.

(** One event happens before another in a history. *)
Definition before (x y : Event) (es : list Event) : Prop :=
  ∃ a b c, es = a ++ x :: b ++ y :: c.

Lemma before_snoc x y es e : before x y es → before x y (es ++ [e]).
Proof. intros (a & b & c & ->). exists a, b, (c ++ [e]). by rewrite <- !app_assoc; cbn; rewrite <- !app_assoc. Qed.

Lemma before_last x y es : x ∈ es → before x y (es ++ [y]).
Proof. intros (a & b & ->)%list_elem_of_split. exists a, b, []. by rewrite <- app_assoc. Qed.

(** The request [rid] of [tid] is on the wire. *)
Definition requested (es : list Event) (tid : nat) (rid : RequestId) : Prop := ESend tid rid (Ok ()) ∈ es.

(** A response to the request [rid] of [tid] was handed in after it was sent. *)
Definition answered (es : list Event) (tid : nat) (rid : RequestId) (m : DhtWireMessage) : Prop :=
  before (ESend tid rid (Ok ())) (EDeliver m) es ∧ response_id m = Some rid.

Record chan_ok (pending : gmap RequestId nat) (es : list Event) (tid : nat) (rid : RequestId)
    (ch : nat) (c : Chan) : Prop := {
  co_buf v : ch_buf c = Some v → ∃ m, answered es tid rid m ∧ v = DhtCodec_encode m;
  co_key rid' : pending !! rid' = Some ch → rid' = rid;
  co_open : ch_open c = true → pending !! rid = Some ch ∧ ch_buf c = None
}.

Definition wait_ok (pending : gmap RequestId nat) (chans : gmap nat Chan) (next : nat)
    (es : list Event) (tid : nat) (rid : RequestId) (ch : nat) : Prop :=
  requested es tid rid ∧ (ch < next)%nat ∧ ∃ c, chans !! ch = Some c ∧ chan_ok pending es tid rid ch c.

Definition result_ok (es : list Event) (tid : nat) (k : Kind) (r : result QueryError Payload) : Prop :=
  ∀ p, r = Ok p → ∃ m rid, answered es tid rid m ∧ payload_of k m = Some p.

Definition phase_ok (w : DhtNetworkSender) (es : list Event) (tid : nat) (tk : Task) : Prop :=
  match tk_phase tk with
  | PRegister rid => requested es tid rid
  | PWait rid ch _ => wait_ok (ns_pending w) (ns_chans w) (ns_next_chan w) es tid rid ch
  | PConclude r | PDone r => result_ok es tid (tk_kind tk) r
  | _ => True
  end.

Definition waits_on (tk : Task) (ch : nat) : Prop :=
  ∃ rid d, tk_phase tk = PWait rid ch d.

Record net_inv (es : list Event) (w : DhtNetworkSender) : Prop := {
  ni_phase tid tk : ns_tasks w !! tid = Some tk → phase_ok w es tid tk;
  ni_pending rid ch : ns_pending w !! rid = Some ch → (ch < ns_next_chan w)%nat;
  ni_apart tid tk tid' tk' ch :
    ns_tasks w !! tid = Some tk → ns_tasks w !! tid' = Some tk' →
    waits_on tk ch → waits_on tk' ch → tid = tid'
}.

Lemma answered_snoc es tid rid m e : answered es tid rid m → answered (es ++ [e]) tid rid m.
Proof. intros [H ?]. split; [by apply before_snoc|done]. Qed.

Lemma result_ok_snoc es tid k r e : result_ok es tid k r → result_ok (es ++ [e]) tid k r.
Proof. intros H p Hp. destruct (H p Hp) as (m & rid & Ha & Hm). exists m, rid. split; [by apply answered_snoc|done]. Qed.

Lemma chan_ok_snoc pending es tid rid ch c e :
  chan_ok pending es tid rid ch c → chan_ok pending (es ++ [e]) tid rid ch c.
Proof.
  intros [Hb Hk Ho]. split; [|done..]. intros v Hv. destruct (Hb v Hv) as (m & Ha & ->).
  exists m. split; [by apply answered_snoc|done].
Qed.

Lemma phase_ok_snoc w es tid tk e : phase_ok w es tid tk → phase_ok w (es ++ [e]) tid tk.
Proof.
  unfold phase_ok. destruct (tk_phase tk); try done; unfold requested, wait_ok.
  - rewrite elem_of_app. auto.
  - intros (Hr & Hn & c & Hc & Hk). split_and!; [unfold requested; rewrite elem_of_app; auto|done|].
    exists c. split; [done|by apply chan_ok_snoc].
  - apply result_ok_snoc.
  - apply result_ok_snoc.
Qed.

(** Steps that leave the channels alone. *)
Definition same_chans (w w' : DhtNetworkSender) : Prop :=
  ns_pending w' = ns_pending w ∧ ns_chans w' = ns_chans w ∧ ns_next_chan w' = ns_next_chan w.

Lemma phase_ok_same w w' es tid tk : same_chans w w' → phase_ok w es tid tk → phase_ok w' es tid tk.
Proof. intros (Hp & Hc & Hn). unfold phase_ok. destruct (tk_phase tk); by rewrite ?Hp, ?Hc, ?Hn. Qed.

(** A step of one task: its own phase, and the others' as they were. *)
Lemma net_inv_task es w e w' tid tk :
  net_inv es w →
  ns_tasks w' = <[tid := tk]> (ns_tasks w) →
  (∀ rid ch, ns_pending w' !! rid = Some ch → (ch < ns_next_chan w')%nat) →
  phase_ok w' (es ++ [e]) tid tk →
  (∀ ch tid2 tk2, waits_on tk ch → tid2 ≠ tid → ns_tasks w !! tid2 = Some tk2 → ¬ waits_on tk2 ch) →
  (∀ tid2 tk2, tid2 ≠ tid → ns_tasks w !! tid2 = Some tk2 →
     phase_ok w (es ++ [e]) tid2 tk2 → phase_ok w' (es ++ [e]) tid2 tk2) →
  net_inv (es ++ [e]) w'.
Proof.
  intros [Hph Hp Ha] Ht Hp' Hown Hsep Hoth. split.
  - intros tid2 tk2. rewrite Ht. intros [[<- <-]|[Hne Hl]]%lookup_insert_Some; [done|].
    apply Hoth; [done|done|]. by apply phase_ok_snoc, Hph.
  - done.
  - intros t1 k1 t2 k2 ch. rewrite Ht.
    intros [[<- <-]|[Hn1 Hl1]]%lookup_insert_Some [[<- <-]|[Hn2 Hl2]]%lookup_insert_Some; intros H1 H2;
      [done| | |by eapply Ha].
    + exfalso. by eapply Hsep.
    + exfalso. by eapply Hsep.
Qed.

(** ... and when it touches no channel. *)
Lemma net_inv_local es w e w' tid tk :
  net_inv es w → same_chans w w' → ns_tasks w' = <[tid := tk]> (ns_tasks w) →
  (∀ ch, ¬ waits_on tk ch) → phase_ok w' (es ++ [e]) tid tk → net_inv (es ++ [e]) w'.
Proof.
  intros Hi Hs Ht Hw Hown. eapply net_inv_task; [exact Hi|exact Ht| |exact Hown| |].
  - destruct Hs as (-> & _ & ->). apply (ni_pending _ _ Hi).
  - intros ch ? ? Hc. by destruct (Hw ch).
  - intros ? ? _ _. by apply phase_ok_same.
Qed.

Lemma wait_ok_register pending chans next es tid rid ch rid' :
  wait_ok pending chans next es tid rid ch →
  wait_ok (<[rid' := next]> pending) (<[next := mkChan None true]> (close_chan chans (pending !! rid')))
    (S next) es tid rid ch.
Proof.
  intros (Hr & Hn & c & Hc & [Hb Hk Ho]). split_and!; [done|lia|].
  set (c' := if decide (pending !! rid' = Some ch) then mkChan (ch_buf c) false else c).
  exists c'. split.
  - rewrite lookup_insert_ne by lia. unfold close_chan, c'.
    destruct (pending !! rid') as [ch0|]; [|by rewrite decide_False].
    destruct (decide (Some ch0 = Some ch)) as [[= ->]|Hne].
    + by rewrite lookup_alter_eq, Hc.
    + rewrite lookup_alter_ne; congruence.
  - split.
    + intros v Hv. apply Hb. revert Hv. unfold c'. by case_decide.
    + intros rid2. rewrite lookup_insert_Some. intros [[_ ?]|[_ ?]]; [lia|by apply Hk].
    + unfold c'. case_decide as E; [done|]. intros Hop. destruct (Ho Hop) as [Hp ?]. split; [|done].
      rewrite lookup_insert_ne; [done|]. intros ->. congruence.
Qed.

Lemma wait_ok_delete pending chans next es tid rid ch ch' :
  ch' ≠ ch → wait_ok pending chans next es tid rid ch →
  wait_ok pending (delete ch' chans) next es tid rid ch.
Proof.
  intros Hne (Hr & Hn & c & Hc & Hk). split_and!; [done|done|]. exists c.
  by rewrite lookup_delete_ne.
Qed.

(** A response under another identifier, or under this one, of which the history
    has taken note. *)
Lemma wait_ok_deliver pending chans next es tid rid ch rid' ch' m :
  response_id m = Some rid' → pending !! rid' = Some ch' →
  wait_ok pending chans next es tid rid ch →
  wait_ok (delete rid' pending) (alter (chan_send (DhtCodec_encode m)) ch' chans) next
    (es ++ [EDeliver m]) tid rid ch.
Proof.
  intros Hm Hp (Hr & Hn & c & Hc & Hk).
  split_and!; [unfold requested; rewrite elem_of_app; auto|done|].
  destruct (decide (ch' = ch)) as [->|Hne].
  - assert (rid' = rid) as -> by (by apply (co_key _ _ _ _ _ _ Hk)).
    exists (chan_send (DhtCodec_encode m) c). rewrite lookup_alter_eq, Hc. split; [done|]. split; cbn.
    + intros v [= <-]. exists m. split; [|done]. split; [by apply before_last|done].
    + intros rid2 [_ ?]%lookup_delete_Some. by apply (co_key _ _ _ _ _ _ Hk).
    + done.
  - exists c. rewrite lookup_alter_ne by done. split; [done|].
    apply chan_ok_snoc with (e := EDeliver m) in Hk as [Hb Hkey Ho]. split; [done| |].
    + intros rid2 [_ ?]%lookup_delete_Some. by apply Hkey.
    + intros Hop. destruct (Ho Hop) as [? ?]. split; [|done].
      rewrite lookup_delete_ne; [done|]. intros ->. congruence.
Qed.

Lemma net_inv_deliver es w m : net_inv es w → net_inv (es ++ [EDeliver m]) (handle_response w m).
Proof.
  intros Hi. pose proof Hi as [Hph Hp Ha]. unfold handle_response.
  assert (net_inv (es ++ [EDeliver m]) w) as Hsame.
  { split; [|done..]. intros. by apply phase_ok_snoc, Hph. }
  destruct (response_id m) as [rid|] eqn:Em; [|done].
  destruct (ns_pending w !! rid) as [ch|] eqn:Ep; [|done].
  split; cbn; [|by intros ? ? [_ ?]%lookup_delete_Some; eapply Hp|done].
  intros tid tk Hl. specialize (Hph tid tk Hl). unfold phase_ok in *. destruct (tk_phase tk); cbn; try done.
  - unfold requested in *. rewrite elem_of_app. auto.
  - by eapply wait_ok_deliver.
  - by apply result_ok_snoc.
  - by apply result_ok_snoc.
Qed.

Lemma not_waiting tk ch : match tk_phase tk with PWait _ _ _ => False | _ => True end → ¬ waits_on tk ch.
Proof. intros H (rid & d & E). by rewrite E in H. Qed.

Lemma net_inv_register es w tid tk rid now :
  net_inv es w → ns_tasks w !! tid = Some tk → tk_phase tk = PRegister rid →
  net_inv (es ++ [ERegister tid now]) (register w tid tk rid now).
Proof.
  intros Hi Hl Hph. pose proof (ni_phase _ _ Hi tid tk Hl) as Hok. unfold phase_ok in Hok. rewrite Hph in Hok.
  eapply net_inv_task; [exact Hi|done|..].
  - cbn. intros rid2 ch. rewrite lookup_insert_Some. intros [[_ <-]|[_ ?%(ni_pending _ _ Hi)]]; lia.
  - unfold phase_ok. cbn. split_and!; [unfold requested in *; rewrite elem_of_app; auto|lia|].
    exists (mkChan None true). rewrite lookup_insert_eq. split; [done|]. split; cbn; [done| |].
    + intros rid2. rewrite lookup_insert_Some. intros [[-> _]|[_ ?%(ni_pending _ _ Hi)]]; [done|lia].
    + by rewrite lookup_insert_eq.
  - intros ch tid2 tk2 (r & d & [= _ <- _]) Hne Hl2 (r2 & d2 & E2).
    pose proof (ni_phase _ _ Hi tid2 tk2 Hl2) as H2. unfold phase_ok in H2. rewrite E2 in H2.
    destruct H2 as (_ & ? & _). lia.
  - intros tid2 tk2 _ _. unfold phase_ok. destruct (tk_phase tk2); try done. apply wait_ok_register.
Qed.

Lemma net_inv_finish es w e tid tk ch rid d r :
  net_inv es w → ns_tasks w !! tid = Some tk → tk_phase tk = PWait rid ch d →
  result_ok (es ++ [e]) tid (tk_kind tk) r → net_inv (es ++ [e]) (finish_wait w tid tk ch r).
Proof.
  intros Hi Hl Hph Hr. eapply net_inv_task; [exact Hi|done|apply (ni_pending _ _ Hi)|exact Hr| |].
  - intros ch2 tid2 tk2 Hw. exfalso. revert Hw. by apply not_waiting.
  - intros tid2 tk2 Hne Hl2. unfold phase_ok. destruct (tk_phase tk2) eqn:E2; try done. cbn.
    apply wait_ok_delete. intros <-. apply Hne. symmetry. eapply (ni_apart _ _ Hi); [done..|by exists rid, d|].
    by eexists _, _.
Qed.

Lemma read_response_ok es tid rid ch pending c k v :
  chan_ok pending es tid rid ch c → ch_buf c = Some v → result_ok es tid k (read_response k v).
Proof.
  intros Hc Hb p Hp. destruct (co_buf _ _ _ _ _ _ Hc v Hb) as (m & Ha & ->). exists m, rid. split; [done|].
  revert Hp. unfold read_response, DhtCodec_encode, DhtCodec_decode.
  destruct (json_to_vec m) eqn:E; [|done]. rewrite (json_roundtrip _ _ E).
  destruct (payload_of k m); [|done]. by intros [= <-].
Qed.

Lemma result_ok_err es tid k e : result_ok es tid k (Err e).
Proof. done. Qed.

Lemma acquire_tasks w tid tk now :
  same_chans w (acquire w tid tk now) ∧
  ∃ ph, ns_tasks (acquire w tid tk now) =
        <[tid := mkTask (tk_kind tk) (tk_peer tk) (tk_key tk) (tk_attempt tk + 1) (tk_last_err tk) ph]> (ns_tasks w) ∧
        (ph = PSend ∨ ph = PDone (Err (default Timeout (tk_last_err tk)))).
Proof.
  unfold acquire, same_chans. destruct (try_acquire _ _ _) as [t [n|n]]; cbn; split; try done; eexists; split; eauto.
Qed.

Lemma send_request_tasks w tid tk rid sent :
  same_chans w (send_request w tid tk rid sent) ∧
  ∃ ph, ns_tasks (send_request w tid tk rid sent) = <[tid := set_phase tk ph]> (ns_tasks w) ∧
        ((ph = PRegister rid ∧ sent = Ok tt) ∨ ∃ e, ph = PConclude (Err e)).
Proof.
  unfold send_request, send_raw, same_chans. destruct (DhtCodec_encode _), sent as [[]|]; cbn; split; try done;
    eexists; split; eauto.
Qed.

(** What [conclude] makes of a task: finished, or asleep until the next attempt. *)
Lemma conclude_tasks w tid tk r now rng :
  same_chans w (conclude w tid tk r now rng) ∧
  ∃ le ph, ns_tasks (conclude w tid tk r now rng) =
        <[tid := mkTask (tk_kind tk) (tk_peer tk) (tk_key tk) (tk_attempt tk) le ph]> (ns_tasks w) ∧
        ((∃ r', ph = PDone r' ∧ ∀ p, r' = Ok p ↔ r = Ok p) ∨
         (∃ wk, ph = PSleep wk ∧ should_retry (ns_retry_policy w) (tk_attempt tk) = true)).
Proof.
  unfold conclude, same_chans. destruct r as [p|e]; cbn; [split; [done|]; eexists _, _; split; [done|]; eauto|].
  destruct (is_transient e); cbn; [destruct (should_retry _ _) eqn:Es; cbn|];
    (split; [done|]; eexists _, _; split; [done|]); [right; eauto|left..]; eexists; (split; [done|]); done.
Qed.

Lemma net_inv_step es w e w' : net_inv es w → net_step w e = Some w' → net_inv (es ++ [e]) w'.
Proof.
  intros Hi Hst%net_step_trans. destruct Hst as [tid k peer key Hl|tid now tk Hl Hp|tid rid sent tk Hl Hp|tid now tk rid Hl Hp|m
    |tid tk rid ch d c v Hl Hp Hc Hb|tid tk rid ch d c Hl Hp Hc Hb Ho|tid now tk rid ch d c Hl Hp Hc Hb Ho Hd
    |tid now rng tk r Hl Hp|tid now tk wk Hl Hp Hd].
  - eapply net_inv_local; [exact Hi|done|done| |done]. intros ch. by apply not_waiting.
  - destruct (acquire_tasks w tid tk now) as (Hs & ph & Ht & Hph).
    eapply net_inv_local; [exact Hi|done|exact Ht|intros ch; apply not_waiting|]; by destruct Hph as [->| ->].
  - destruct (send_request_tasks w tid tk rid sent) as (Hs & ph & Ht & Hph).
    eapply net_inv_local; [exact Hi|done|exact Ht|intros ch; apply not_waiting|];
      destruct Hph as [[-> ->]|[e ->]]; try done.
    unfold phase_ok, requested. cbn. rewrite elem_of_app, list_elem_of_singleton. auto.
  - by apply net_inv_register.
  - by apply net_inv_deliver.
  - eapply net_inv_finish; [done..|]. apply result_ok_snoc.
    pose proof (ni_phase _ _ Hi tid tk Hl) as H. unfold phase_ok in H. rewrite Hp in H.
    destruct H as (_ & _ & c' & Hc' & Hk). rewrite Hc in Hc'. injection Hc' as <-. by eapply read_response_ok.
  - by eapply net_inv_finish.
  - by eapply net_inv_finish.
  - destruct (conclude_tasks w tid tk r now rng) as (Hs & le & ph & Ht & Hph).
    pose proof (ni_phase _ _ Hi tid tk Hl) as H. unfold phase_ok in H. rewrite Hp in H.
    eapply net_inv_local; [exact Hi|done|exact Ht|intros ch; apply not_waiting|];
      destruct Hph as [(r' & -> & Hr)|(wk & -> & _)]; try done.
    unfold phase_ok. cbn. apply result_ok_snoc. intros p Hp'. apply H. by apply Hr.
  - eapply net_inv_local; [exact Hi|done|done| |done]. intros ch. by apply not_waiting.
Qed.

Lemma net_inv_run local_id p es w : net_run (with_policy local_id p) es = Some w → net_inv es w.
Proof.
  revert es w. apply net_run_ind.
  - split; cbn; intros *; rewrite ?lookup_empty; done.
  - intros es w e w' _. apply net_inv_step.
Qed.

(** C16. Whatever the interleaving of calls, responses, timeouts and retries: a call
    that finishes with a payload returns the content of a response that carries
    the identifier the call itself drew for one of its requests, that has the kind
    the call asks for, and that was handed in after that request was sent. *)
Theorem response_correlation local_id p es w tid tk r :
  net_run (with_policy local_id p) es = Some w →
  ns_tasks w !! tid = Some tk → tk_phase tk = PDone (Ok r) →
  ∃ rid m, before (ESend tid rid (Ok ())) (EDeliver m) es ∧ response_id m = Some rid ∧
    payload_of (tk_kind tk) m = Some r.
Proof.
  intros Hrun Hl Hp. pose proof (ni_phase _ _ (net_inv_run _ _ _ _ Hrun) _ _ Hl) as H.
  unfold phase_ok in H. rewrite Hp in H. destruct (H r eq_refl) as (m & rid & [] & ?). eauto.
Qed.

(** A task that waits is woken by any response under its identifier. *)
Lemma delivered_to_waiter es w tid tk rid ch d c m :
  net_inv es w → ns_tasks w !! tid = Some tk → tk_phase tk = PWait rid ch d →
  ns_chans w !! ch = Some c → ch_open c = true → response_id m = Some rid →
  net_run w [EDeliver m; ERecv tid] =
  Some (finish_wait (handle_response w m) tid tk ch (read_response (tk_kind tk) (DhtCodec_encode m))).
Proof.
  intros Hi Hl Hp Hc Ho Hm. pose proof (ni_phase _ _ Hi tid tk Hl) as H. unfold phase_ok in H. rewrite Hp in H.
  destruct H as (_ & _ & c' & Hc' & Hk). rewrite Hc in Hc'. injection Hc' as <-.
  destruct (co_open _ _ _ _ _ _ Hk Ho) as [Hpend _].
  cbn. unfold handle_response. rewrite Hm, Hpend. cbn. rewrite Hl. cbn. rewrite Hp, lookup_alter_eq, Hc. done.
Qed.

Lemma finish_wait_task w tid tk ch r :
  ns_tasks (finish_wait w tid tk ch r) !! tid = Some (set_phase tk (PConclude r)).
Proof. cbn. by rewrite lookup_insert_eq. Qed.

(** In every state a run can reach, a call that waits on an open channel
    finishes with the payload of the next response handed in under its identifier
    (of the right kind and encodable): the request leaves the pending map and the
    failures of the peer are forgotten. *)
Theorem response_completes_call local_id p es w tid tk rid ch d c m r now rng :
  net_run (with_policy local_id p) es = Some w →
  ns_tasks w !! tid = Some tk → tk_phase tk = PWait rid ch d →
  ns_chans w !! ch = Some c → ch_open c = true →
  response_id m = Some rid → payload_of (tk_kind tk) m = Some r → is_ok (DhtCodec_encode m) = true →
  ∃ w', net_run w [EDeliver m; ERecv tid; EConclude tid now rng] = Some w' ∧
    (tk_phase <$> ns_tasks w' !! tid) = Some (PDone (Ok r)) ∧
    ns_pending w' = delete rid (ns_pending w) ∧
    ft_state (ns_peer_failures w') = delete (tk_peer tk) (ft_state (ns_peer_failures w)).
Proof.
  intros Hrun Hl Hp Hc Ho Hm Hr He. pose proof (net_inv_run _ _ _ _ Hrun) as Hi.
  change [EDeliver m; ERecv tid; EConclude tid now rng] with ([EDeliver m; ERecv tid] ++ [EConclude tid now rng]).
  rewrite net_run_app, (delivered_to_waiter es w tid tk rid ch d c m) by done. cbn [mbind option_bind net_run net_step].
  rewrite finish_wait_task. cbn [mbind option_bind tk_phase set_phase].
  assert (read_response (tk_kind tk) (DhtCodec_encode m) = Ok r) as ->.
  { revert He. unfold read_response, DhtCodec_decode, DhtCodec_encode. destruct (json_to_vec m) as [b|] eqn:E; [|done].
    intros _. rewrite (json_roundtrip _ _ E). cbn. by rewrite Hr. }
  eexists. split; [done|]. cbn. rewrite lookup_insert_eq. split; [done|].
  pose proof (ni_phase _ _ Hi tid tk Hl) as H. unfold phase_ok in H. rewrite Hp in H.
  destruct H as (_ & _ & c' & Hc' & Hk). rewrite Hc in Hc'. injection Hc' as <-.
  destruct (co_open _ _ _ _ _ _ Hk Ho) as [Hpend _]. unfold handle_response. rewrite Hm, Hpend. done.
Qed.
End Correlation.

(** ** Calls end

    Each attempt is at most six events of its task, and a policy allows a bounded
    number of attempts. *)

Definition event_task (e : Event) : option nat :=
  match e with
  | ECall tid _ _ _ | EAcquire tid _ | ESend tid _ _ | ERegister tid _ | ERecv tid
  | ETimeout tid _ | EConclude tid _ _ | EWake tid _ => Some tid
  | EDeliver _ => None
  end.

Definition is_send (tid : nat) (e : Event) : bool :=
  match e with ESend t _ _ => Nat.eqb t tid | _ => false end.

Definition count {A} (f : A → bool) (l : list A) : N := N.of_nat (length (filter (λ x, f x = true) l)).

Lemma count_snoc {A} (f : A → bool) l x : count f (l ++ [x]) = count f l + (if f x then 1 else 0).
Proof.
  unfold count. rewrite filter_app, length_app. cbn. unfold filter, list_filter. destruct (f x); cbn;
    (case_decide; [|try done]); cbn; lia.
Qed.

Definition of_task (tid : nat) (e : Event) : bool := bool_decide (event_task e = Some tid).

(** The number of attempts a policy allows a call. *)
Definition attempts (p : RetryPolicy) : N := N.max 1 (rp_max_attempts p).

(** How far a task may still go: attempts left, and events left in this one. *)
Definition fuel_left (p : RetryPolicy) (tk : Task) : N :=
  let rest := 6 * (attempts p - tk_attempt tk) in
  match tk_phase tk with
  | PStart => rest
  | PSleep _ => rest + 1
  | PConclude _ => rest + 2
  | PWait _ _ _ => rest + 3
  | PRegister _ => rest + 4
  | PSend => rest + 5
  | PDone _ => 0
  end.

(** Requests a task has yet to send for the attempts it has counted. *)
Definition unsent (tk : Task) : N := match tk_phase tk with PSend => 1 | _ => 0 end.

Record task_bound (p : RetryPolicy) (es : list Event) (tid : nat) (tk : Task) : Prop := {
  tb_fuel : count (of_task tid) es + fuel_left p tk ≤ 6 * attempts p + 1;
  tb_attempt : tk_attempt tk ≤ attempts p;
  tb_again : match tk_phase tk with PStart | PSleep _ => tk_attempt tk < attempts p | _ => True end;
  tb_sends : count (is_send tid) es + unsent tk ≤ tk_attempt tk
}.

Definition bound_inv (p : RetryPolicy) (es : list Event) (w : DhtNetworkSender) : Prop :=
  ns_retry_policy w = p ∧
  ∀ tid, match ns_tasks w !! tid with
         | Some tk => task_bound p es tid tk
         | None => count (of_task tid) es = 0 ∧ count (is_send tid) es = 0
         end.

(** What an event does to its task: one point further, within the policy. *)
Inductive advance (p : RetryPolicy) : bool → Task → Task → Prop :=
| av_acquire k q key a le ph' :
    ph' = PSend ∨ (∃ r, ph' = PDone r) →
    advance p false (mkTask k q key a le PStart) (mkTask k q key (a + 1) le ph')
| av_send k q key a le ph' :
    (∃ rid, ph' = PRegister rid) ∨ (∃ r, ph' = PConclude r) →
    advance p true (mkTask k q key a le PSend) (mkTask k q key a le ph')
| av_register k q key a le rid ch d :
    advance p false (mkTask k q key a le (PRegister rid)) (mkTask k q key a le (PWait rid ch d))
| av_recv k q key a le rid ch d r :
    advance p false (mkTask k q key a le (PWait rid ch d)) (mkTask k q key a le (PConclude r))
| av_done k q key a le le' r r' :
    advance p false (mkTask k q key a le (PConclude r)) (mkTask k q key a le' (PDone r'))
| av_sleep k q key a le le' r wk :
    a < rp_max_attempts p →
    advance p false (mkTask k q key a le (PConclude r)) (mkTask k q key a le' (PSleep wk))
| av_wake k q key a le wk :
    advance p false (mkTask k q key a le (PSleep wk)) (mkTask k q key a le PStart).

Lemma advance_bound p es tid tk tk' e :
  advance p (is_send tid e) tk tk' → event_task e = Some tid →
  task_bound p es tid tk → task_bound p (es ++ [e]) tid tk'.
Proof.
  intros Hadv He [Hf Ha Hg Hs].
  assert (count (of_task tid) (es ++ [e]) = count (of_task tid) es + 1) as Hc.
  { rewrite count_snoc. unfold of_task at 2. by rewrite bool_decide_true. }
  pose proof (count_snoc (is_send tid) es e) as Hc'.
  destruct Hadv as [? ? ? ? ? ph' [->|[? ->]]|? ? ? ? ? ph' [[? ->]|[? ->]]| | | | |]; cbn in *;
    split; cbn; rewrite ?Hc, ?Hc'; cbn; unfold fuel_left, unsent, attempts in *; cbn in *; try lia; done.
Qed.

Lemma net_step_policy w e w' : net_step w e = Some w' → ns_retry_policy w' = ns_retry_policy w.
Proof.
  intros Hst%net_step_trans. destruct Hst; cbn; try done.
  - unfold acquire. by destruct (try_acquire _ _ _) as [t []].
  - unfold send_request, send_raw. destruct (DhtCodec_encode _); [destruct sent|]; done.
  - unfold handle_response. by repeat case_match.
  - unfold conclude. by repeat case_match.
Qed.

Lemma net_step_advance w e w' tid :
  net_step w e = Some w' → event_task e = Some tid →
  (∃ k peer key, ns_tasks w !! tid = None ∧ is_send tid e = false ∧
     ns_tasks w' = <[tid := mkTask k peer key 0 None PStart]> (ns_tasks w)) ∨
  (∃ tk tk', ns_tasks w !! tid = Some tk ∧ advance (ns_retry_policy w) (is_send tid e) tk tk' ∧
     ns_tasks w' = <[tid := tk']> (ns_tasks w)).
Proof.
  intros Hst%net_step_trans. destruct Hst as [t k peer key Hl|t now tk Hl Hp|t rid sent tk Hl Hp|t now tk rid Hl Hp|m
    |t tk rid ch d c v Hl Hp Hc Hb|t tk rid ch d c Hl Hp Hc Hb Ho|t now tk rid ch d c Hl Hp Hc Hb Ho Hd
    |t now rng tk r Hl Hp|t now tk wk Hl Hp Hd]; intros [= ->]; cbn [is_send];
    [left; by eexists _, _, _|right; exists tk; destruct tk as [k q key a le ph]; cbn in Hp; subst ph..].
  - destruct (acquire_tasks w tid (mkTask k q key a le PStart) now) as (_ & ph & Ht & Hph).
    eexists. split_and!; [done| |exact Ht]. constructor. destruct Hph; eauto.
  - rewrite Nat.eqb_refl. destruct (send_request_tasks w tid (mkTask k q key a le PSend) rid sent) as (_ & ph & Ht & Hph).
    eexists. split_and!; [done| |exact Ht]. constructor. destruct Hph as [[]|[]]; eauto.
  - eexists. split_and!; [done|constructor|done].
  - eexists. split_and!; [done|by constructor|done].
  - eexists. split_and!; [done|by constructor|done].
  - eexists. split_and!; [done|by constructor|done].
  - destruct (conclude_tasks w tid (mkTask k q key a le (PConclude r)) r now rng) as (_ & le' & ph & Ht & Hph).
    eexists. split_and!; [done| |exact Ht]. destruct Hph as [(r' & -> & _)|(wk & -> & Hr)]; constructor.
    by apply N.ltb_lt.
  - eexists. split_and!; [done|constructor|done].
Qed.

Lemma deliver_tasks w m : ns_tasks (handle_response w m) = ns_tasks w.
Proof. unfold handle_response. by repeat case_match. Qed.

Lemma bound_inv_step p es w e w' :
  bound_inv p es w → net_step w e = Some w' → bound_inv p (es ++ [e]) w'.
Proof.
  intros [Hpol Hb] Hst. split; [by rewrite (net_step_policy _ _ _ Hst)|]. intros tid.
  assert (∀ t, event_task e ≠ Some t → count (of_task t) (es ++ [e]) = count (of_task t) es ∧
    count (is_send t) (es ++ [e]) = count (is_send t) es) as Hoth.
  { intros t Ht. rewrite !count_snoc. unfold of_task at 2. rewrite bool_decide_false by done.
    destruct (is_send t e) eqn:Es; [|lia]. destruct e; try done. apply Nat.eqb_eq in Es as ->. done. }
  assert (event_task e ≠ Some tid → ns_tasks w' !! tid = ns_tasks w !! tid →
    match ns_tasks w' !! tid with
    | Some tk => task_bound p (es ++ [e]) tid tk
    | None => count (of_task tid) (es ++ [e]) = 0 ∧ count (is_send tid) (es ++ [e]) = 0 end) as Hkeep.
  { intros Ht ->. destruct (Hoth tid Ht) as [H1 H2]. specialize (Hb tid). destruct (ns_tasks w !! tid);
      [|by rewrite H1, H2]. destruct Hb. split; by rewrite ?H1, ?H2. }
  destruct (event_task e) as [t|] eqn:Ee.
  - destruct (decide (t = tid)) as [->|Hne].
    + specialize (Hb tid). destruct (net_step_advance _ _ _ tid Hst Ee) as [(k & q & key & Hn & Hs & ->)|(tk & tk' & Hl & Hadv & ->)];
        rewrite lookup_insert_eq.
      * rewrite Hn in Hb. destruct Hb as [H1 H2]. split; cbn; unfold fuel_left, unsent, attempts; cbn;
          rewrite ?count_snoc, ?H1, ?H2, ?Hs; unfold of_task; rewrite ?bool_decide_true by done; lia.
      * rewrite Hl in Hb. eapply advance_bound; [|done..]. by rewrite <- Hpol.
    + apply Hkeep; [congruence|].
      destruct (net_step_advance _ _ _ t Hst Ee) as [(k & q & key & Hn & Hs & ->)|(tk & tk' & Hl & Hadv & ->)];
        by rewrite lookup_insert_ne.
  - apply Hkeep; [done|]. destruct e; try done. cbn in Hst. injection Hst as <-. by rewrite deliver_tasks.
Qed.

Lemma bound_inv_run local_id p es w : net_run (with_policy local_id p) es = Some w → bound_inv p es w.
Proof.
  revert es w. apply net_run_ind.
  - split; [done|]. intros tid. cbn. by rewrite lookup_empty.
  - intros es w e w' _. apply bound_inv_step.
Qed.

(** A task that has not finished can go on. *)
Lemma net_progress es w tid tk :
  net_inv es w → ns_tasks w !! tid = Some tk → (∀ r, tk_phase tk ≠ PDone r) →
  ∃ e w', event_task e = Some tid ∧ net_step w e = Some w'.
Proof.
  intros Hi Hl Hnd. pose proof (ni_phase _ _ Hi tid tk Hl) as Hok. unfold phase_ok in Hok.
  destruct (tk_phase tk) as [| |rid|rid ch d|r|wk|r] eqn:Hp.
  - exists (EAcquire tid 0). cbn. rewrite Hl. cbn. rewrite Hp. eauto.
  - exists (ESend tid EmptyString (Ok ())). cbn. rewrite Hl. cbn. rewrite Hp. eauto.
  - exists (ERegister tid 0). cbn. rewrite Hl. cbn. rewrite Hp. eauto.
  - destruct Hok as (_ & _ & c & Hc & _). destruct (ch_buf c) as [v|] eqn:Hb; [|destruct (ch_open c) eqn:Ho].
    + exists (ERecv tid). cbn. rewrite Hl. cbn. rewrite Hp. cbn. rewrite Hc. cbn. rewrite Hb. eauto.
    + exists (ETimeout tid d). cbn. rewrite Hl. cbn. rewrite Hp. cbn. rewrite Hc. cbn.
      rewrite Hb, Ho, N.leb_refl. eauto.
    + exists (ERecv tid). cbn. rewrite Hl. cbn. rewrite Hp. cbn. rewrite Hc. cbn. rewrite Hb, Ho. eauto.
  - exists (EConclude tid 0 0). cbn. rewrite Hl. cbn. rewrite Hp. eauto.
  - exists (EWake tid wk). cbn. rewrite Hl. cbn. rewrite Hp, N.leb_refl. eauto.
  - by destruct (Hnd r).
Qed.

(** C17. A call makes at most [max_attempts] requests (one when the policy says
    zero) and takes at most six steps for each, and until it has finished it can
    always take one more: every call ends. *)
Theorem calls_terminate {JL : JsonCodecLaws JC} local_id p es w tid :
  net_run (with_policy local_id p) es = Some w →
  count (of_task tid) es ≤ 6 * attempts p + 1 ∧ count (is_send tid) es ≤ attempts p ∧
  ∀ tk, ns_tasks w !! tid = Some tk →
    (∃ r, tk_phase tk = PDone r) ∨ ∃ e w', event_task e = Some tid ∧ net_step w e = Some w'.
Proof.
  intros Hrun. destruct (bound_inv_run _ _ _ _ Hrun) as [_ Hb]. specialize (Hb tid).
  split_and!; [destruct (ns_tasks w !! tid); [destruct Hb|]; lia..|].
  intros tk Hl. pose proof (net_inv_run _ _ _ _ Hrun) as Hi.
  destruct (tk_phase tk) as [| | | | | |r] eqn:Hp; [..|by left; exists r];
    (right; eapply net_progress; [done..|]; by rewrite Hp).
Qed.

(** ** What the sender loses and keeps *)

(** A request is registered only after it was sent: a response handed in
    between the two is dropped, the call waits for the full timeout and ends the
    attempt with [Timeout], and its entry stays in the pending map. *)
Theorem early_response_lost w tid tk rid m now :
  ns_tasks w !! tid = Some tk → tk_phase tk = PRegister rid →
  ns_pending w !! rid = None → response_id m = Some rid →
  ∃ w', net_run w [EDeliver m; ERegister tid now; ETimeout tid (now + DEFAULT_TIMEOUT)] = Some w' ∧
    tk_phase <$> ns_tasks w' !! tid = Some (PConclude (Err Timeout)) ∧
    ns_pending w' !! rid = Some (ns_next_chan w).
Proof.
  intros Hl Hp Hpend Hm. cbn. unfold handle_response. rewrite Hm, Hpend. rewrite Hl. cbn. rewrite Hp. cbn.
  rewrite lookup_insert_eq. cbn. rewrite lookup_insert_eq. cbn. rewrite N.leb_refl. cbn.
  eexists. split; [done|]. cbn. by rewrite !lookup_insert_eq.
Qed.

Lemma pending_kept_step w e w' rid :
  net_step w e = Some w' → (∀ m, e = EDeliver m → response_id m ≠ Some rid) →
  is_Some (ns_pending w !! rid) → is_Some (ns_pending w' !! rid).
Proof.
  intros Hst%net_step_trans Hm Hr. destruct Hst; cbn; try done.
  - destruct (acquire_tasks w tid tk now) as [(-> & _) _]. done.
  - destruct (send_request_tasks w tid tk rid0 sent) as [(-> & _) _]. done.
  - destruct (decide (rid0 = rid)) as [->|]; [by rewrite lookup_insert_eq|by rewrite lookup_insert_ne].
  - unfold handle_response. destruct (response_id m) as [r|] eqn:E; [|done].
    destruct (ns_pending w !! r); [|done]. cbn. rewrite lookup_delete_ne; [done|]. intros ->. by apply (Hm m).
  - destruct (conclude_tasks w tid tk r now rng) as [(-> & _) _]. done.
Qed.

(** Only a response under its identifier removes an entry from the pending map:
    neither a timeout nor the end of the call does. *)
Theorem pending_only_shrinks_on_response w es w' rid :
  net_run w es = Some w' → is_Some (ns_pending w !! rid) →
  (∀ m, EDeliver m ∈ es → response_id m ≠ Some rid) → is_Some (ns_pending w' !! rid).
Proof.
  revert w. induction es as [|e es IH]; intros w; cbn; [by intros [= <-]|].
  destruct (net_step w e) as [w1|] eqn:E; [|done]. cbn. intros Hrun Hr Hm.
  eapply IH; [done| |intros m Hin; apply Hm; by right].
  eapply pending_kept_step; [done| |done]. intros m ->. apply Hm. by left.
Qed.

(** ** The default policy *)

(** The default policy allows three attempts, but after two failures in a row
    the peer is in cooldown for five seconds, and a call that asks for its third
    slot before that, as its backoff makes it do, gives up with the error of the
    second. *)
Theorem default_policy_two_attempts w tid tk e now rng later :
  ns_retry_policy w = RetryPolicy_default → ft_policy (ns_peer_failures w) = RetryPolicy_default →
  ns_tasks w !! tid = Some tk → tk_attempt tk = 2 → tk_phase tk = PConclude (Err e) →
  is_transient e = true →
  ps_consecutive_failures (peer_entry (ns_peer_failures w) (tk_peer tk)) = 1 →
  now + (backoff_for RetryPolicy_default 2 rng).1 ≤ later → later < now + secs 5 →
  should_retry RetryPolicy_default 2 = true ∧
  tk_phase <$> (net_run w [EConclude tid now rng; EWake tid later; EAcquire tid later] ≫=
                λ w', ns_tasks w' !! tid) = Some (PDone (Err e)).
Proof.
  intros Hpol Hfp Hl Ha Hp Ht Hc Hw Hlt. split; [done|].
  cbn [net_run net_step mbind option_bind]. rewrite Hl. cbn [mbind option_bind]. rewrite Hp.
  unfold conclude. rewrite Ht. cbn [negb ns_retry_policy set_failures tk_attempt]. rewrite Hpol, Ha.
  change (should_retry RetryPolicy_default 2) with true. cbn [negb].
  cbn [net_run net_step mbind option_bind set_task ns_tasks]. rewrite lookup_insert_eq.
  cbn [mbind option_bind set_phase tk_phase]. rewrite (proj2 (N.leb_le _ _) Hw).
  cbn [net_run net_step mbind option_bind set_task ns_tasks]. rewrite lookup_insert_eq.
  cbn [mbind option_bind set_phase tk_phase]. unfold acquire. cbn [tk_peer set_phase].
  cbn [ns_peer_failures set_task set_failures tk_kind tk_key tk_attempt tk_last_err].
  pose proof (second_failure_cooldown _ _ now later Hfp Hc Hlt) as Hr.
  destruct (try_acquire later _ _) as [t r]. cbn in Hr. subst r. cbn.
  rewrite lookup_insert_eq. done.
Qed.
End Sender.

(** ** The remaining requests and [DhtMessageSender] *)

Section Requests.
Context `{JC : JsonCodec}.

Definition sender_ping (w : DhtNetworkSender) (peer : NodeId) (rid : RequestId) (sent : result QueryError unit)
  : DhtNetworkSender * result QueryError unit :=
  send_raw w peer (DhtMessageBuilder_ping (ns_local_id w) rid) sent.

Definition announce_provider (w : DhtNetworkSender) (peer : NodeId) (key : DhtKey) (ttl_secs : N)
  : result QueryError unit := Err InvalidResponse.

Definition send_add_provider (w : DhtNetworkSender) (peer : NodeId) (key : DhtKey) (record : ProviderRecord)
    (rid : RequestId) (sent : result QueryError unit) : DhtNetworkSender * result QueryError unit :=
  send_raw w peer (DhtMessageBuilder_add_provider (ns_local_id w) rid (key_bytes key)
    (pr_provider_id record) [pr_provider_addr record] (pr_ttl_secs record)) sent.

Definition send_put_value (w : DhtNetworkSender) (peer : Contact) (key : DhtKey) (value : DhtValue)
    (request_id : RequestId) (sent : result QueryError unit) : DhtNetworkSender * result QueryError unit :=
  send_raw w (c_id peer) (PutValue (key_bytes key)
    (mkValueData (dv_data value) (dv_timestamp value) (dv_ttl_secs value)) request_id (ns_local_id w)) sent.

(** [send_find_node] and [send_get_providers] hand on what the call returned. *)
Definition message_of_payload (p : Payload) : DhtWireMessage :=
  match p with NodesPayload rid ns => Nodes rid ns | ProvidersPayload rid ps => Providers rid ps end.

Definition sender_result (r : result QueryError Payload) : result QueryError DhtWireMessage :=
  let? p := r in Ok (message_of_payload p).

Lemma message_of_payload_of k m p : payload_of k m = Some p → message_of_payload p = m.
Proof. destruct k, m; cbn; try done; by intros [= <-]. Qed.

(** No announcement carries the provider's signature: two records that differ
    only in it put the same bytes on the wire. *)
Theorem announcement_drops_signature w peer key r sig rid sent :
  send_add_provider w peer key (set_signature sig r) rid sent = send_add_provider w peer key r rid sent.
Proof. done. Qed.
End Requests.

(** ** Concrete runs *)

#[global] Instance DhtWireMessage_eq_dec : EqDecision DhtWireMessage.
Proof.
  assert (EqDecision NodeContact) by solve_decision. assert (EqDecision ProviderRecordWire) by solve_decision.
  assert (EqDecision ValueData) by solve_decision. solve_decision.
Defined.

(** A codec for the messages of a list: each is written as its position. *)
Definition table_codec (l : list DhtWireMessage) : JsonCodec :=
  {| json_to_vec m := match list_find (λ x, x = m) l with Some (i, _) => Ok [N.of_nat i] | None => Err "?"%string end;
     json_from_slice bs := match bs with
                           | [i] => ok_or "?"%string (l !! N.to_nat i)
                           | _ => Err "?"%string
                           end |}.

#[global] Instance table_codec_laws l : JsonCodecLaws (table_codec l).
Proof.
  split. intros m bytes. cbn. destruct (list_find _ l) as [[i x]|] eqn:E; [|done]. intros [= <-].
  apply list_find_Some in E as (Hl & -> & _). cbn. by rewrite Nat2N.id, Hl.
Qed.

Definition ex_peer : NodeId := id_of_byte 7.
Definition ex_self : NodeId := id_of_byte 9.
Definition ex_target : DhtKey := mkDhtKey [1; 2].
Definition ex_answer : DhtWireMessage := Nodes "r" [mkNodeContact ex_peer []].
Definition ex_codec : JsonCodec :=
  table_codec [FindNode [1; 2] "r" ex_self; FindNode [1; 2] "s" ex_self; ex_answer].

Definition ex_opening : list Event :=
  [ECall 0 KFindNode ex_peer ex_target; EAcquire 0 0; ESend 0 "r" (Ok ())].

Definition ex_run (es : list Event) : DhtNetworkSender :=
  default (with_policy ex_self RetryPolicy_default)
    (net_run (JC := ex_codec) (with_policy ex_self RetryPolicy_default) es).

Definition ex_task (es : list Event) : Task :=
  default (mkTask KFindNode ex_peer ex_target 0 None PStart) (ns_tasks (ex_run es) !! 0%nat).

Definition ex_phase (es : list Event) : Phase := tk_phase (ex_task es).

Definition ex_finish : list Event :=
  ex_opening ++ [ERegister 0 0; EDeliver ex_answer; ERecv 0; EConclude 0 1 0].

Lemma response_correlation_witness :
  ex_phase ex_finish = PDone (Ok (NodesPayload "r" [mkNodeContact ex_peer []])) ∧
  ∃ rid m, before (ESend 0 rid (Ok ())) (EDeliver m) ex_finish ∧ response_id m = Some rid ∧
    payload_of KFindNode m = Some (NodesPayload "r" [mkNodeContact ex_peer []]).
Proof.
  split; [vm_compute; reflexivity|].
  apply (response_correlation (JC := ex_codec) ex_self RetryPolicy_default ex_finish (ex_run ex_finish) 0 (ex_task ex_finish));
    vm_compute; reflexivity.
Defined.

Definition ex_waiting : list Event := ex_opening ++ [ERegister 0 0].

Lemma response_completes_call_witness :
  ∃ w', net_run (JC := ex_codec) (ex_run ex_waiting) [EDeliver ex_answer; ERecv 0; EConclude 0 1 0] = Some w' ∧
    (tk_phase <$> ns_tasks w' !! 0%nat) = Some (PDone (Ok (NodesPayload "r" [mkNodeContact ex_peer []]))) ∧
    ns_pending w' = delete "r" (ns_pending (ex_run ex_waiting)) ∧
    ft_state (ns_peer_failures w') = delete ex_peer (ft_state (ns_peer_failures (ex_run ex_waiting))).
Proof.
  apply (response_completes_call (JC := ex_codec) ex_self RetryPolicy_default ex_waiting (ex_run ex_waiting) 0
    (ex_task ex_waiting) "r" 0 (secs 5) (mkChan None true) ex_answer (NodesPayload "r" [mkNodeContact ex_peer []]));
    vm_compute; reflexivity.
Defined.

Lemma calls_terminate_witness :
  count (of_task 0) ex_finish = 6 ∧ count (of_task 0) ex_finish ≤ 6 * attempts RetryPolicy_default + 1.
Proof.
  split; [vm_compute; reflexivity|].
  apply (calls_terminate (JC := ex_codec) ex_self RetryPolicy_default ex_finish (ex_run ex_finish) 0).
  vm_compute; reflexivity.
Defined.

Lemma early_response_lost_witness :
  ∃ w', net_run (JC := ex_codec) (ex_run ex_opening)
          [EDeliver ex_answer; ERegister 0 0; ETimeout 0 (0 + DEFAULT_TIMEOUT)] = Some w' ∧
    tk_phase <$> ns_tasks w' !! 0%nat = Some (PConclude (Err Timeout)) ∧
    ns_pending w' !! "r" = Some 0%nat.
Proof.
  apply (early_response_lost (JC := ex_codec) (ex_run ex_opening) 0 (ex_task ex_opening) "r" ex_answer 0); vm_compute; reflexivity.
Defined.

Definition ex_timed_out : list Event := [ETimeout 0 (secs 5); EConclude 0 (secs 5) 0].

Lemma pending_only_shrinks_on_response_witness :
  is_Some (ns_pending (ex_run (ex_waiting ++ ex_timed_out)) !! "r").
Proof.
  apply (pending_only_shrinks_on_response (JC := ex_codec) (ex_run ex_waiting) ex_timed_out
    (ex_run (ex_waiting ++ ex_timed_out)) "r").
  - vm_compute; reflexivity.
  - by exists 0%nat.
  - unfold ex_timed_out. intros m. rewrite !elem_of_cons, elem_of_nil. intros [?|[?|[]]]; done.
Defined.

(** Two attempts that the transport refuses. *)
Definition ex_refused : list Event :=
  [ECall 0 KFindNode ex_peer ex_target; EAcquire 0 0; ESend 0 "r" (Err (Network "down"));
   EConclude 0 0 jitter_seed; EWake 0 (secs 1); EAcquire 0 (secs 1); ESend 0 "s" (Err (Network "down"))].

Lemma default_policy_two_attempts_witness :
  should_retry RetryPolicy_default 2 = true ∧
  tk_phase <$> (net_run (JC := ex_codec) (ex_run ex_refused)
                  [EConclude 0 (secs 1) 0; EWake 0 (secs 3); EAcquire 0 (secs 3)] ≫=
                λ w', ns_tasks w' !! 0%nat) = Some (PDone (Err (Network "down"))).
Proof.
  apply (default_policy_two_attempts (JC := ex_codec) (ex_run ex_refused) 0 (ex_task ex_refused)); vm_compute; (reflexivity || discriminate).
Defined.
