(* ===== verification/DhtService.v ===== *)
(** * The DHT service ([crates/a3net-dht/src/service.rs])

    The announcements of the local node, the refresh of the routing table, and
    the contacts and configuration that survive a restart. The background task is
    the repetition of [do_refresh]; the files and their JSON are not modelled,
    what is written and what is made of it when it is read back are. [wall] is
    the wall clock in seconds, [inst] the monotonic clock, counted in nanoseconds
    from the smallest instant the platform represents. *)
From stdpp Require Import prelude strings gmap list.
From Stdlib Require Import NArith Lia Ascii.
From S2P Require Import Prelude NodeId Bucket DhtRecord DhtQuery DhtRetry DhtNetwork.

#[local] Open Scope N_scope.

(** ** Configuration *)

Record DhtServiceConfig : Type := mkServiceConfig {
  sv_refresh_interval : N;
  sv_provider_republish_interval : N;
  sv_peer_check_interval : N;
  sv_provider_ttl : N;
  sv_query_parallelism : N;
  sv_query_timeout : N
}.

Definition DhtServiceConfig_default : DhtServiceConfig :=
  mkServiceConfig (secs 300) (secs 3600) (secs 60) (secs 86400) 3 (secs 5).

(** The configuration as it is written, durations in seconds. *)
Record SerializableConfig : Type := mkSerConfig {
  sf_refresh_interval_secs : N;
  sf_provider_republish_interval_secs : N;
  sf_peer_check_interval_secs : N;
  sf_provider_ttl_secs : N;
  sf_query_parallelism : N;
  sf_query_timeout_secs : N
}.

(** [Duration::as_secs]. *)
Definition as_secs (d : N) : N := d / 1000000000.

Definition save_config (c : DhtServiceConfig) : SerializableConfig :=
  mkSerConfig (as_secs (sv_refresh_interval c)) (as_secs (sv_provider_republish_interval c))
    (as_secs (sv_peer_check_interval c)) (as_secs (sv_provider_ttl c)) (sv_query_parallelism c)
    (as_secs (sv_query_timeout c)).

(** [load_config] on what the file holds; without a file, the default. *)
Definition load_config (file : option SerializableConfig) : DhtServiceConfig :=
  match file with
  | None => DhtServiceConfig_default
  | Some c =>
      mkServiceConfig (secs (sf_refresh_interval_secs c)) (secs (sf_provider_republish_interval_secs c))
        (secs (sf_peer_check_interval_secs c)) (secs (sf_provider_ttl_secs c)) (sf_query_parallelism c)
        (secs (sf_query_timeout_secs c))
  end.

(** ** Local announcements *)

Definition service_announce (inst : N) (config : DhtServiceConfig) (local_providers : gmap DhtKey N)
    (key : DhtKey) : gmap DhtKey N :=
  <[key := inst + sv_provider_ttl config]> local_providers.

Definition get_local_providers (inst : N) (local_providers : gmap DhtKey N) : list DhtKey :=
  fst <$> filter (λ p, inst < p.2) (map_to_list local_providers).

Section Service.
Context `{HX : Hex} (blake3_hash : list N → list N) (random : NodeId).
Context (parse_sock : string → option SocketAddr) (show_sock : SocketAddr → string).

(** ** Refreshing *)

(** [key_to_node_id]: the same conversion as in the queries. *)
Definition key_to_node_id (key : DhtKey) : NodeId :=
  let raw := key_bytes key in
  if Nat.leb 32 (length raw) then node_or_random random (NodeId_from_bytes (take 32 raw))
  else node_or_random random (NodeId_from_bytes (blake3_hash raw)).

(** [u64::from_le_bytes(bytes) % 256] on the eight random bytes. *)
Definition random_bucket_index (bytes : list N) : N := be_value (reverse bytes) mod 256.

Definition refresh_key_for_bucket (bucket_idx : N) (bytes : list N) : DhtKey := DhtKey_from_bytes bytes.

(** The peers a refresh asks, with the key it asks for. *)
Definition do_refresh_targets (t : RoutingTable) (parallelism : nat) (idx_bytes key_rand : list N)
  : DhtKey * list Contact :=
  let refresh_key := refresh_key_for_bucket (random_bucket_index idx_bytes) key_rand in
  (refresh_key, RoutingTable_closest t (key_to_node_id refresh_key) parallelism).

(** What the task of one peer does with the result of its query. *)
Definition refresh_learn (inst : N) (t : RoutingTable) (nc : NodeContact) : RoutingTable :=
  (RoutingTable_insert t (Contact_new inst (nc_id nc)
     (default unroutable (head (nc_addrs nc) ≫= parse_sock)))).1.

Definition refresh_reply (inst : N) (t : RoutingTable) (r : result QueryError Payload) : RoutingTable :=
  match r with
  | Ok (NodesPayload _ nodes) => foldl (refresh_learn inst) t nodes
  | _ => t
  end.

(** ** The routing table on disk *)

Record SerializableContact : Type := mkSerContact {
  sc_node_id : list N;
  sc_addrs : list string;
  sc_last_contacted : N;
  sc_last_seen : N;
  sc_trusted : bool
}.

Definition save_contact (wall inst : N) (c : Contact) : option SerializableContact :=
  id ← NodeId_as_bytes (c_id c);
  let last_contacted_secs_ago := as_secs (elapsed inst (c_last_contacted c)) in
  let last_seen_secs_ago := as_secs (elapsed inst (c_last_seen c)) in
  Some (mkSerContact id (show_sock <$> c_addrs c) (wall - last_contacted_secs_ago)
          (wall - last_seen_secs_ago) (c_trusted c)).

(** [save_routing_table]: [None] is the panic of [as_bytes] on a malformed
    identifier. *)
Definition save_routing_table (wall inst : N) (t : RoutingTable) : option (list SerializableContact) :=
  mapM (save_contact wall inst) (RoutingTable_all_contacts t).

(** [Instant::now().checked_sub(..).unwrap_or_else(Instant::now)]. *)
Definition instant_ago (inst : N) (secs_ago : N) : N :=
  if secs secs_ago <=? inst then inst - secs secs_ago else inst.

Definition load_addr (wall inst : N) (sc : SerializableContact) (node_id : NodeId) (addr : SocketAddr) : Contact :=
  {| c_id := node_id; c_addrs := [addr];
     c_last_contacted := instant_ago inst (wall - sc_last_contacted sc);
     c_last_seen := instant_ago inst (wall - sc_last_seen sc);
     c_trusted := sc_trusted sc |}.

Definition load_contact (wall inst : N) (t : RoutingTable) (sc : SerializableContact) : RoutingTable :=
  match NodeId_from_bytes (sc_node_id sc) with
  | Err _ => t
  | Ok node_id =>
      foldl (λ t s, match parse_sock s with
                    | Some addr => (RoutingTable_insert t (load_addr wall inst sc node_id addr)).1
                    | None => t
                    end) t (sc_addrs sc)
  end.

(** [load_routing_table] on what the file holds; without a file, nothing. *)
Definition load_routing_table (wall inst : N) (t : RoutingTable) (file : option (list SerializableContact))
  : RoutingTable :=
  match file with
  | None => t
  | Some contacts => foldl (load_contact wall inst) t contacts
  end.
End Service.

(** ** The configuration survives in whole seconds *)

Definition whole_seconds (d : N) : Prop := d mod 1000000000 = 0.

Lemma secs_as_secs d : secs (as_secs d) = d ↔ whole_seconds d.
Proof. unfold secs, as_secs, whole_seconds. pose proof (N.div_mod d 1000000000 ltac:(lia)). lia. Qed.

Lemma config_roundtrip c :
  load_config (Some (save_config c)) = c ↔
  whole_seconds (sv_refresh_interval c) ∧ whole_seconds (sv_provider_republish_interval c) ∧
  whole_seconds (sv_peer_check_interval c) ∧ whole_seconds (sv_provider_ttl c) ∧
  whole_seconds (sv_query_timeout c).
Proof.
  rewrite <- !secs_as_secs. destruct c; cbn. split; [by intros [=]|].
  intros (Ha & Hb & Hc & Hd & He). cbn in *. by rewrite Ha, Hb, Hc, Hd, He.
Qed.

(** ** Inserting contacts into a fresh table *)

Section Restore.
Context `{HX : Hex} {HL : HexLaws HX}.
Context (parse_sock : string → option SocketAddr) (show_sock : SocketAddr → string).
Context (parse_show : ∀ a, parse_sock (show_sock a) = Some a).

(** The contact that comes back: one address, the timestamps set back by the
    seconds that have passed. *)
Definition restored (wall inst wall' inst' : N) (c : Contact) : Contact :=
  {| c_id := c_id c; c_addrs := option_list (last (c_addrs c));
     c_last_contacted := instant_ago inst' (wall' - (wall - as_secs (elapsed inst (c_last_contacted c))));
     c_last_seen := instant_ago inst' (wall' - (wall - as_secs (elapsed inst (c_last_seen c))));
     c_trusted := c_trusted c |}.

(** A table with 256 buckets: what a bucket holds. *)
Definition bucket_contacts (t : RoutingTable) (i : nat) : list Contact :=
  default [] (kb_contacts <$> rt_buckets t !! i).

Lemma bucket_for_contacts t id :
  kb_contacts (RoutingTable_bucket_for t id) = bucket_contacts t (bucket_pos t id).
Proof. unfold RoutingTable_bucket_for, bucket_contacts. by destruct (_ !! _). Qed.

Lemma bucket_contacts_put t id b i :
  length (rt_buckets t) = NUM_BUCKETS →
  bucket_contacts (put_bucket_for t id b) i =
  if decide (i = bucket_pos t id) then kb_contacts b else bucket_contacts t i.
Proof.
  intros Hl. unfold bucket_contacts, put_bucket_for. cbn. case_decide as Hi.
  - rewrite Hi, list_lookup_insert_eq; [done|]. rewrite Hl. apply bucket_pos_lt.
  - by rewrite list_lookup_insert_ne.
Qed.

Lemma contact_pos_last c l : c_id c ∉ c_id <$> l → contact_pos (c_id c) (l ++ [c]) = Some (length l, c).
Proof.
  intros Hn. apply list_find_Some. split_and!; [by apply list_lookup_middle|done|].
  intros j y Hj Hlt He. apply Hn. rewrite lookup_app_l in Hj by done. rewrite <- He.
  by eapply list_elem_of_fmap_2, list_elem_of_lookup_2.
Qed.

(** The table with [c] at the back of its bucket. *)
Definition appended (t : RoutingTable) (c : Contact) : RoutingTable :=
  let b := RoutingTable_bucket_for t (c_id c) in
  put_bucket_for t (c_id c) (kb_set_contacts b (kb_contacts b ++ [c])).

Definition vacant (t : RoutingTable) (id : NodeId) : Prop :=
  length (rt_buckets t) = NUM_BUCKETS ∧ id ≠ rt_local_id t ∧
  id ∉ c_id <$> bucket_contacts t (bucket_pos t id) ∧
  (length (bucket_contacts t (bucket_pos t id)) < KBUCKET_SIZE)%nat.

Lemma insert_vacant t c : vacant t (c_id c) → (RoutingTable_insert t c).1 = appended t c.
Proof.
  intros (Hl & Hloc & Hn & Hs). unfold RoutingTable_insert. rewrite bool_decide_false by done.
  unfold KBucket_insert. rewrite bucket_for_contacts.
  rewrite (proj2 (contact_pos_None _ _) Hn). rewrite (proj2 (Nat.leb_gt _ _) Hs).
  cbn. unfold appended. by rewrite bucket_for_contacts.
Qed.

(** Inserting a contact again replaces it where it is. *)
Lemma insert_again t c c' :
  vacant t (c_id c) → c_id c' = c_id c → c_last_seen c' = c_last_seen c →
  c_last_contacted c' = c_last_contacted c →
  (RoutingTable_insert (appended t c) c').1 = appended t c'.
Proof.
  intros (Hl & Hloc & Hn & _) Hid Hs Hc. unfold RoutingTable_insert. cbn [appended put_bucket_for set_buckets rt_local_id].
  rewrite Hid, bool_decide_false by done.
  assert (RoutingTable_bucket_for (appended t c) (c_id c) =
    kb_set_contacts (RoutingTable_bucket_for t (c_id c)) (kb_contacts (RoutingTable_bucket_for t (c_id c)) ++ [c])) as Hb.
  { unfold RoutingTable_bucket_for at 1, appended. cbn. rewrite list_lookup_insert_eq; [done|].
    rewrite Hl. apply bucket_pos_lt. }
  rewrite <- bucket_for_contacts in Hn. rewrite Hb. unfold KBucket_insert. rewrite Hid. cbn [kb_set_contacts kb_contacts].
  rewrite contact_pos_last by done. cbn [fst].
  assert ({| c_id := c_id c; c_addrs := c_addrs c'; c_last_contacted := c_last_contacted c;
             c_last_seen := c_last_seen c; c_trusted := c_trusted c' |} = c') as ->.
  { rewrite <- Hid, <- Hs, <- Hc. by destruct c'. }
  rewrite insert_app_r_alt, Nat.sub_diag by done. cbn.
  unfold appended, put_bucket_for, set_buckets, kb_set_contacts. rewrite Hid. cbn. f_equal. apply list_insert_insert_eq.
Qed.

(** A saved contact, read back into a vacant place. *)
Lemma load_saved wall inst wall' inst' t c sc :
  save_contact show_sock wall inst c = Some sc → node_ok (c_id c) → c_addrs c ≠ [] → vacant t (c_id c) →
  load_contact parse_sock wall' inst' t sc = appended t (restored wall inst wall' inst' c).
Proof.
  intros Hsc Hok Ha Hv. unfold save_contact in Hsc. rewrite (NodeId_as_bytes_ok _ Hok) in Hsc. cbn in Hsc.
  injection Hsc as <-. unfold load_contact. cbn [sc_node_id sc_addrs]. destruct (node_bytes_ok _ Hok) as [Hlen Hb].
  rewrite (proj1 (NodeId_from_bytes_ok _ Hb Hlen)).
  assert (mkNodeId (hex_encode (node_bytes (c_id c))) = c_id c) as ->.
  { apply node_bytes_inj; [by apply NodeId_from_bytes_ok|done|]. unfold node_bytes at 1, decode_or_empty.
    cbn [node_hex]. by rewrite hex_decode_encode. }
  unfold restored, load_addr. cbn [sc_last_contacted sc_last_seen sc_trusted]. revert Ha.
  induction (c_addrs c) as [|a l IH] using rev_ind; [done|]. intros _.
  rewrite fmap_app, foldl_app. cbn [fmap list_fmap foldl]. rewrite parse_show, last_snoc. cbn [option_list].
  destruct l as [|a0 l].
  - cbn. by rewrite insert_vacant.
  - rewrite IH by done. rewrite insert_again; done.
Qed.

(** Loading a list of contacts fills the buckets in its order. *)
Definition in_bucket (t : RoutingTable) (i : nat) (c : Contact) : bool := Nat.eqb (bucket_pos t (c_id c)) i.

Record loadable (t : RoutingTable) (cs : list Contact) : Prop := {
  ld_ids : NoDup (c_id <$> cs);
  ld_each c : c ∈ cs → node_ok (c_id c) ∧ c_id c ≠ rt_local_id t ∧ c_addrs c ≠ [];
  ld_fits i : (length (filter (λ c, in_bucket t i c = true) cs) ≤ KBUCKET_SIZE)%nat
}.

Lemma filter_snoc_bool {A} (f : A → bool) l x :
  filter (λ y, f y = true) (l ++ [x]) = filter (λ y, f y = true) l ++ (if f x then [x] else []).
Proof. rewrite filter_app. f_equal. unfold filter, list_filter. destruct (f x); by case_decide. Qed.

Lemma load_fresh wall inst wall' inst' t0 local cs scs :
  let t := RoutingTable_new t0 local in
  loadable t cs → mapM (save_contact show_sock wall inst) cs = Some scs →
  let t' := foldl (load_contact parse_sock wall' inst') t scs in
  length (rt_buckets t') = NUM_BUCKETS ∧ rt_local_id t' = local ∧
  ∀ i, (i < NUM_BUCKETS)%nat →
    bucket_contacts t' i = restored wall inst wall' inst' <$> filter (λ c, in_bucket t i c = true) cs.
Proof.
  intros t. revert scs. induction cs as [|c cs IH] using rev_ind; intros scs Hld Hsc.
  - injection Hsc as <-. split_and!; [apply length_replicate|done|]. intros i Hi.
    change (default [] (kb_contacts <$> replicate NUM_BUCKETS (KBucket_new t0) !! i) = []).
    by rewrite lookup_replicate_2.
  - apply mapM_Some, Forall2_app_inv_l in Hsc as (scs1 & scs2 & H1 & H2 & ->).
    apply mapM_Some in H1. apply Forall2_cons_inv_l in H2 as (sc & scs3 & Hsc & H3 & ->).
    apply Forall2_nil_inv_l in H3 as ->. destruct Hld as [Hn He Hf].
    rewrite fmap_app in Hn. apply NoDup_app in Hn as (Hn1 & Hn2 & _).
    destruct (IH scs1) as (Hl & Hloc & Hb); [|done|].
    { split; [done| |].
      - intros x Hx. apply He, elem_of_app. by left.
      - intros i. specialize (Hf i). rewrite filter_snoc_bool, length_app in Hf. lia. }
    rewrite foldl_app. cbn [foldl]. set (T := foldl _ t scs1) in *.
    destruct (He c) as (Hok & Hne & Ha); [apply elem_of_app; right; by left|].
    assert (bucket_pos T (c_id c) = bucket_pos t (c_id c)) as Hpos by (unfold bucket_pos; by rewrite Hloc).
    pose proof (bucket_pos_lt t (c_id c)) as Hlt.
    assert (bucket_contacts T (bucket_pos t (c_id c)) =
      restored wall inst wall' inst' <$> filter (λ x, in_bucket t (bucket_pos t (c_id c)) x = true) cs) as HbT by by apply Hb.
    assert (vacant T (c_id c)) as Hv.
    { split_and!; [done|by rewrite Hloc| |]; rewrite Hpos, HbT.
      - rewrite <- list_fmap_compose. intros (x & Hx & [_ Hin]%list_elem_of_filter)%list_elem_of_fmap.
        apply (Hn2 (c_id c)); [|by left]. rewrite Hx. by apply list_elem_of_fmap_2.
      - rewrite length_fmap. specialize (Hf (bucket_pos t (c_id c))).
        rewrite filter_snoc_bool, length_app in Hf.
        rewrite (Nat.eqb_refl _ : in_bucket t (bucket_pos t (c_id c)) c = true) in Hf. cbn in Hf. lia. }
    rewrite (load_saved wall inst wall' inst' T c sc) by done.
    split_and!; [unfold appended; cbn; by rewrite length_insert|done|].
    intros i Hi. unfold appended. rewrite bucket_contacts_put by done.
    cbn [c_id restored kb_set_contacts kb_contacts]. rewrite Hpos, filter_snoc_bool, fmap_app, bucket_for_contacts, Hpos, HbT.
    case_decide as Hd.
    + by rewrite Hd, (Nat.eqb_refl _ : in_bucket t (bucket_pos t (c_id c)) c = true).
    + assert (in_bucket t i c = false) as -> by (apply Nat.eqb_neq; congruence). cbn. rewrite app_nil_r. by apply Hb.
Qed.

(** ** Buckets laid out in order *)

Section Layout.
Context (f : Contact → nat).

(** Bucket [j] of the list holds the contacts that [f] sends to [off + j]. *)
Definition laid_out (off : nat) (bs : list KBucket) : Prop :=
  ∀ j b c, bs !! j = Some b → c ∈ kb_contacts b → f c = (off + j)%nat.

Lemma laid_out_cons off b bs :
  laid_out off (b :: bs) → (∀ c, c ∈ kb_contacts b → f c = off) ∧ laid_out (S off) bs.
Proof.
  intros H. split.
  - intros c Hc. rewrite (H 0%nat b c eq_refl Hc). lia.
  - intros j b' c Hj Hc. rewrite (H (S j) b' c Hj Hc). lia.
Qed.

Lemma laid_out_ge off bs c : laid_out off bs → c ∈ bs ≫= kb_contacts → (off ≤ f c)%nat.
Proof.
  intros H (b & Hc & [j Hj]%list_elem_of_lookup)%list_elem_of_bind. rewrite (H j b c Hj Hc). lia.
Qed.

Lemma filter_laid_out off bs i :
  laid_out off bs →
  filter (λ c, Nat.eqb (f c) (off + i) = true) (bs ≫= kb_contacts) = default [] (kb_contacts <$> bs !! i).
Proof.
  revert off i. induction bs as [|b bs IH]; intros off i Hl; [done|].
  destruct (laid_out_cons _ _ _ Hl) as [Hb Hbs]. cbn [mbind list_bind]. rewrite filter_app.
  destruct i as [|i].
  - rewrite filter_all by (intros c Hc; apply Nat.eqb_eq; rewrite (Hb c Hc); lia).
    rewrite (filter_none _ (bs ≫= kb_contacts)); [by rewrite app_nil_r|].
    intros c Hc%(laid_out_ge _ _ _ Hbs) ?%Nat.eqb_eq. lia.
  - rewrite (filter_none _ (kb_contacts b)).
    + trans (default [] (kb_contacts <$> bs !! i)); [|done]. rewrite <- (IH (S off) i Hbs). cbn [app]. apply filter_ext_elem. intros c _. by rewrite Nat.add_succ_r.
    + intros c Hc. rewrite (Hb c Hc). intros ?%Nat.eqb_eq. lia.
Qed.

Lemma NoDup_laid_out off bs :
  (∀ c c', c_id c = c_id c' → f c = f c') → laid_out off bs →
  Forall (λ b, NoDup (c_id <$> kb_contacts b)) bs → NoDup (c_id <$> (bs ≫= kb_contacts)).
Proof.
  intros Hf. revert off. induction bs as [|b bs IH]; intros off Hl; [constructor|].
  intros [Hn Hns]%Forall_cons. destruct (laid_out_cons _ _ _ Hl) as [Hb Hbs].
  cbn [mbind list_bind]. rewrite fmap_app. apply NoDup_app. split_and!; [done| |by eapply IH].
  intros id (c & -> & Hc)%list_elem_of_fmap (c' & He & Hc'%(laid_out_ge _ _ _ Hbs))%list_elem_of_fmap.
  rewrite <- (Hf _ _ He), (Hb c Hc) in Hc'. lia.
Qed.
End Layout.

Lemma rt_inv_laid_out now t : rt_inv now t → laid_out (λ c, bucket_pos t (c_id c)) 0 (rt_buckets t).
Proof.
  intros Ht j b c Hj Hc. destruct (ri_buckets _ _ _ _ Ht j b Hj) as [_ _ Hi _ _]. rewrite Forall_forall in Hi.
  rewrite bucket_pos_index. by apply (Hi (c_id c)); [apply list_elem_of_fmap_2|].
Qed.

Lemma rt_inv_loadable now t t0 :
  rt_inv now t → rt_bootstrap_nodes t = [] →
  (∀ c, c ∈ RoutingTable_all_contacts t → node_ok (c_id c) ∧ c_addrs c ≠ []) →
  loadable (RoutingTable_new t0 (rt_local_id t)) (RoutingTable_all_contacts t) ∧
  ∀ i, filter (λ c, in_bucket (RoutingTable_new t0 (rt_local_id t)) i c = true) (RoutingTable_all_contacts t) =
       bucket_contacts t i.
Proof.
  intros Ht Hboot Hall. pose proof (rt_inv_laid_out now t Ht) as Hl.
  assert (∀ i, filter (λ c, in_bucket (RoutingTable_new t0 (rt_local_id t)) i c = true) (RoutingTable_all_contacts t) =
       bucket_contacts t i) as Hfil.
  { intros i. unfold RoutingTable_all_contacts. rewrite Hboot, app_nil_r.
    apply (filter_laid_out (λ c, bucket_pos t (c_id c)) 0 (rt_buckets t) i Hl). }
  split; [|done]. split.
  - unfold RoutingTable_all_contacts. rewrite Hboot, app_nil_r.
    apply (NoDup_laid_out (λ c, bucket_pos t (c_id c)) 0); [congruence|done|].
    apply Forall_lookup. intros i b Hb. apply (bo_nodup _ _ _ _ (ri_buckets _ _ _ _ Ht i b Hb)).
  - intros c Hc. destruct (Hall c Hc) as [? ?]. split_and!; [done| |done].
    unfold RoutingTable_all_contacts in Hc. rewrite Hboot, app_nil_r in Hc.
    apply list_elem_of_bind in Hc as (b & Hc & [i Hb]%list_elem_of_lookup).
    destruct (ri_buckets _ _ _ _ Ht i b Hb) as [_ _ Hi _ _]. rewrite Forall_forall in Hi.
    by apply (Hi (c_id c)); [apply list_elem_of_fmap_2|].
  - intros i. rewrite Hfil. unfold bucket_contacts. destruct (rt_buckets t !! i) as [b|] eqn:Hb; cbn; [|lia].
    apply (bo_size _ _ _ _ (ri_buckets _ _ _ _ Ht i b Hb)).
Qed.

(** The age of a restored timestamp: whole seconds before the save, and the
    seconds in between. *)
Lemma restored_age wall inst wall' inst' stamp :
  let age := as_secs (elapsed inst stamp) in
  age ≤ wall → wall ≤ wall' → secs (age + (wall' - wall)) ≤ inst' →
  elapsed inst' (instant_ago inst' (wall' - (wall - age))) = secs (age + (wall' - wall)).
Proof.
  intros age Ha Hw Hi. unfold instant_ago, elapsed. replace (wall' - (wall - age)) with (age + (wall' - wall)) by lia.
  rewrite (proj2 (N.leb_le _ _) Hi). lia.
Qed.

(** C29. A routing table without bootstrap nodes, whose contacts all have a valid
    identifier and at least one address, is saved, and loaded into a fresh table of the
    same node it comes back bucket by bucket, in order and completely, with the trust of
    every contact; a contact's age is what it was, in whole seconds, plus the time between
    saving and loading, unless the clocks cannot express it. Of several addresses of a
    contact only the last comes back. (A contact without an address is saved but not
    loaded, and bootstrap nodes are saved along with the contacts.) *)
Theorem routing_table_persisted now t wall inst wall' inst' t0 :
  rt_inv now t → rt_bootstrap_nodes t = [] →
  (∀ c, c ∈ RoutingTable_all_contacts t → node_ok (c_id c) ∧ c_addrs c ≠ []) →
  ∃ saved, save_routing_table show_sock wall inst t = Some saved ∧
    (∀ i b, rt_buckets t !! i = Some b →
       bucket_contacts (load_routing_table parse_sock wall' inst' (RoutingTable_new t0 (rt_local_id t)) (Some saved)) i =
       restored wall inst wall' inst' <$> kb_contacts b) ∧
    (∀ c, let age := as_secs (elapsed inst (c_last_seen c)) in
       age ≤ wall → wall ≤ wall' → secs (age + (wall' - wall)) ≤ inst' →
       elapsed inst' (c_last_seen (restored wall inst wall' inst' c)) = secs (age + (wall' - wall))) ∧
    (∀ c addrs addr, c_addrs c = addrs ++ [addr] → c_addrs (restored wall inst wall' inst' c) = [addr]).
Proof.
  intros Ht Hboot Hall. destruct (rt_inv_loadable now t t0 Ht Hboot Hall) as [Hld Hfil].
  assert (is_Some (save_routing_table show_sock wall inst t)) as [saved Hs].
  { apply mapM_is_Some, Forall_forall. intros c Hc. unfold save_contact. cbn.
    rewrite (NodeId_as_bytes_ok _ (proj1 (Hall c Hc))). cbn. eauto. }
  exists saved. split_and!; [done| | |].
  - destruct (load_fresh wall inst wall' inst' t0 _ _ saved Hld Hs) as (_ & _ & Hb).
    intros i b Hi. cbn [load_routing_table]. rewrite Hb, Hfil.
    + unfold bucket_contacts. by rewrite Hi.
    + apply lookup_lt_Some in Hi. by rewrite (ri_len _ _ _ _ Ht) in Hi.
  - intros c. apply restored_age.
  - intros c addrs addr Ha. cbn. by rewrite Ha, last_snoc.
Qed.
End Restore.

(** ** Refreshing keeps the table sound *)

Section Refresh.
Context `{HX : Hex} (blake3_hash : list N → list N) (random : NodeId) (parse_sock : string → option SocketAddr).

Lemma refresh_learn_inv inst t nc : rt_inv inst t → rt_inv inst (refresh_learn parse_sock inst t nc).
Proof. intros Ht. by apply rt_inv_insert. Qed.

Lemma refresh_reply_inv inst t r : rt_inv inst t → rt_inv inst (refresh_reply parse_sock inst t r).
Proof.
  intros Ht. destruct r as [[rid nodes|]|]; cbn; [|done..]. revert t Ht.
  induction nodes as [|nc nodes IH]; intros t Ht; [done|]. by apply IH, refresh_learn_inv.
Qed.

(** A refresh converts its key as a query does. *)
Lemma key_to_node_id_eq key : key_to_node_id blake3_hash random key = node_id_from_key blake3_hash random key.
Proof. done. Qed.

(** The bucket index that is drawn plays no part in the key. *)
Lemma refresh_key_ignores_bucket t n idx idx' rnd :
  do_refresh_targets blake3_hash random t n idx rnd = do_refresh_targets blake3_hash random t n idx' rnd.
Proof. done. Qed.

Lemma random_bucket_index_bound bytes : random_bucket_index bytes < 256.
Proof. unfold random_bucket_index. apply N.mod_lt. lia. Qed.
End Refresh.

(** A refresh asks no more peers than its parallelism, whatever they answer,
    and in whatever order, the table keeps its invariant; a failed query changes
    nothing. *)
Theorem refresh_sound `{HX : Hex} blake3_hash random parse_sock inst t n idx rnd replies :
  rt_inv inst t →
  (length (do_refresh_targets blake3_hash random t n idx rnd).2 ≤ n)%nat ∧
  rt_inv inst (foldl (refresh_reply parse_sock inst) t replies) ∧
  (∀ e, refresh_reply parse_sock inst t (Err e) = t).
Proof.
  intros Ht. split_and!; [|revert t Ht|done].
  - cbn. unfold RoutingTable_closest. rewrite length_take. lia.
  - induction replies as [|r replies IH]; intros t Ht; [done|]. by apply IH, refresh_reply_inv.
Qed.

(** A key is among the local announcements exactly from its last announcement
    until the provider lifetime is over. *)
Theorem local_announcements config lp key key' inst later :
  key ∈ get_local_providers later (service_announce inst config lp key') ↔
  if decide (key = key') then later < inst + sv_provider_ttl config
  else key ∈ get_local_providers later lp.
Proof.
  unfold get_local_providers, service_announce. case_decide as Hk.
  - subst key'. rewrite list_elem_of_fmap. split.
    + intros ([k v] & -> & [Hlt Hin]%list_elem_of_filter). apply elem_of_map_to_list in Hin. cbn in *.
      rewrite lookup_insert_eq in Hin. by injection Hin as <-.
    + intros Hlt. exists (key, inst + sv_provider_ttl config). split; [done|]. apply list_elem_of_filter.
      split; [done|]. apply elem_of_map_to_list. by rewrite lookup_insert_eq.
  - rewrite !list_elem_of_fmap. f_equiv. intros [k v]. rewrite !list_elem_of_filter, !elem_of_map_to_list.
    split; intros (-> & Hlt & Hin); cbn in *; (split_and!; [done..|]).
    + by rewrite lookup_insert_ne in Hin.
    + by rewrite lookup_insert_ne.
Qed.

(** ** Concrete tables *)

(** A socket address as the binary digits of its number. *)
Fixpoint show_pos (p : positive) : string :=
  match p with
  | xH => EmptyString
  | xO p => String "0"%char (show_pos p)
  | xI p => String "1"%char (show_pos p)
  end.

Fixpoint parse_pos (s : string) : positive :=
  match s with
  | EmptyString => xH
  | String a s => if Ascii.eqb a "0"%char then xO (parse_pos s) else xI (parse_pos s)
  end.

Lemma parse_show_pos p : parse_pos (show_pos p) = p.
Proof. induction p as [p IH|p IH|]; cbn; by rewrite ?IH. Qed.

Definition ex_show_sock (a : SocketAddr) : string := show_pos (encode a).
Definition ex_parse_sock (s : string) : option SocketAddr := decode (parse_pos s).

Lemma ex_parse_show a : ex_parse_sock (ex_show_sock a) = Some a.
Proof. unfold ex_parse_sock, ex_show_sock. by rewrite parse_show_pos, decode_encode. Qed.

(** A contact with two addresses, saved at one time and loaded two seconds later. *)
Definition ex_other_addr : SocketAddr := mkSocketAddr (IpV4 2130706433) 4002.
Definition ex_two_addrs : Contact := Contact_add_addr (Contact_new 0 (id_of_byte 2) wit_addr) ex_other_addr.
Definition ex_saved_table : RoutingTable :=
  (RoutingTable_insert (RoutingTable_new 0 (id_of_byte 1)) ex_two_addrs).1.

Lemma ex_saved_table_inv : rt_inv 0 ex_saved_table.
Proof. apply rt_inv_insert; [done|apply rt_inv_new]. Qed.

Lemma routing_table_persisted_witness :
  c_addrs ex_two_addrs = [wit_addr; ex_other_addr] ∧
  ∃ saved, save_routing_table ex_show_sock 100 (secs 7) ex_saved_table = Some saved ∧
    bucket_contacts (load_routing_table ex_parse_sock 102 (secs 50) (RoutingTable_new 0 (id_of_byte 1)) (Some saved))
      (bucket_pos ex_saved_table (id_of_byte 2)) =
    [mkContact (id_of_byte 2) [ex_other_addr] (secs 41) (secs 41) false].
Proof.
  split; [done|].
  destruct (routing_table_persisted ex_parse_sock ex_show_sock ex_parse_show 0 ex_saved_table
    100 (secs 7) 102 (secs 50) 0 ex_saved_table_inv) as (saved & Hs & Hb & _); [done| |].
  - assert (RoutingTable_all_contacts ex_saved_table = [ex_two_addrs]) as -> by (vm_compute; reflexivity).
    intros c ->%list_elem_of_singleton. split; [by apply id_of_byte_ok|done].
  - exists saved. split; [done|].
    specialize (Hb (bucket_pos ex_saved_table (id_of_byte 2)) (RoutingTable_bucket_for ex_saved_table (id_of_byte 2))).
    change (rt_local_id ex_saved_table) with (id_of_byte 1) in Hb. rewrite Hb; vm_compute; reflexivity.
Defined.

Lemma refresh_sound_witness :
  rt_inv 0 (foldl (refresh_reply ex_parse_sock 0) ex_saved_table
    [Err Timeout; Ok (NodesPayload "r" [mkNodeContact (id_of_byte 3) []])]).
Proof. apply (refresh_sound (λ _, []) (id_of_byte 1) ex_parse_sock 0 ex_saved_table 3 [] []). apply ex_saved_table_inv. Defined.
