(* ===== verification/DhtHandler.v ===== *)
(** * The DHT protocol handler ([crates/a3net-dht/src/handler.rs])

    [DhtProtocolHandler] answers the requests of other nodes from the routing
    table and the store, and keeps a second table of requests whose responses it
    hands to a channel. An operation takes the state and gives the new one, with
    the bytes of the reply. Frames are decoded and encoded by the codec of
    [DhtNetwork]; the store is any instance of [DhtStorage]. [inst] is the
    monotonic clock in nanoseconds, [wall] the system clock in seconds.

    The channel of a pending request is a number; what is sent to it is the
    result of the operation. The channel of events is a number as well, fresh
    ones being drawn from a counter; nothing in the source sends on it. *)
From stdpp Require Import prelude strings gmap list.
From Stdlib Require Import NArith Lia.
From S2P Require Import Prelude NodeId Bucket DhtRecord DhtStore DhtQuery DhtRetry DhtNetwork.

#[local] Open Scope N_scope.

Definition MAX_PENDING_REQUESTS : nat := 100%nat.
Definition REQUEST_TIMEOUT : N := secs 5.

Inductive PendingRequestError : Type := TableFull (capacity : nat).

Record PendingRequest : Type := mkPendingRequest { pq_sent_at : N; pq_response_tx : nat }.

Inductive DhtEvent : Type :=
| PeerDiscovered (id : NodeId)
| ProviderAnnounced (key : DhtKey) (provider_id : NodeId)
| ValueStored (key : DhtKey)
| PeerOffline (id : NodeId).

Section Handler.
Context `{HX : Hex} `{JC : JsonCodec} (blake3_hash : list N → list N) (random : NodeId).
Context (show_sock : SocketAddr → string).
Context {ST : Type} `{SS : DhtStorage ST}.

Record DhtProtocolHandler : Type := mkHandler {
  dh_local_id : NodeId;
  dh_routing_table : RoutingTable;
  dh_store : ST;
  dh_pending_requests : gmap RequestId PendingRequest;
  dh_event_tx : nat;
  dh_channels : nat
}.

(** The handler, with the receiver of its first channel. *)
Definition DhtProtocolHandler_new (local_id : NodeId) (table : RoutingTable) (store : ST)
  : DhtProtocolHandler * nat :=
  (mkHandler local_id table store ∅ 0 1, 0%nat).

Definition set_table (h : DhtProtocolHandler) (t : RoutingTable) : DhtProtocolHandler :=
  mkHandler (dh_local_id h) t (dh_store h) (dh_pending_requests h) (dh_event_tx h) (dh_channels h).
Definition set_store (h : DhtProtocolHandler) (s : ST) : DhtProtocolHandler :=
  mkHandler (dh_local_id h) (dh_routing_table h) s (dh_pending_requests h) (dh_event_tx h) (dh_channels h).
Definition set_pending (h : DhtProtocolHandler) (p : gmap RequestId PendingRequest) : DhtProtocolHandler :=
  mkHandler (dh_local_id h) (dh_routing_table h) (dh_store h) p (dh_event_tx h) (dh_channels h).

(** The handler's own copy of [node_id_from_key]. *)
Definition handler_node_id_from_key (key : DhtKey) : NodeId :=
  let raw := key_bytes key in
  if Nat.leb 32 (length raw) then node_or_random random (NodeId_from_bytes (take 32 raw))
  else node_or_random random (NodeId_from_bytes (blake3_hash raw)).

Definition update_routing_table (inst : N) (h : DhtProtocolHandler) (peer_id : NodeId) (addr : option SocketAddr)
  : DhtProtocolHandler :=
  if bool_decide (peer_id = dh_local_id h) then h
  else match addr with
       | Some socket =>
           let t := (RoutingTable_insert (dh_routing_table h) (Contact_new inst peer_id socket)).1 in
           set_table h (RoutingTable_mark_seen inst t peer_id)
       | None => set_table h (RoutingTable_mark_seen inst (dh_routing_table h) peer_id)
       end.

(** [DhtCodec::encode(&response).ok()]. *)
Definition reply (m : DhtWireMessage) : option (list N) :=
  match DhtCodec_encode m with Ok bytes => Some bytes | Err _ => None end.

Definition contact_wire (c : Contact) : NodeContact := mkNodeContact (c_id c) (show_sock <$> c_addrs c).

Definition provider_wire (p : ProviderRecord) : ProviderRecordWire :=
  mkProviderRecordWire (pr_provider_id p) [pr_provider_addr p] (pr_ttl_secs p) (pr_signature p).

Definition handle_find_node (inst : N) (h : DhtProtocolHandler) (bytes : list N) (rid : RequestId) (sender : NodeId)
  : DhtProtocolHandler * option (list N) :=
  let key := DhtKey_from_bytes bytes in
  let h := update_routing_table inst h sender None in
  let target_id := handler_node_id_from_key key in
  let closest := RoutingTable_closest (dh_routing_table h) target_id 20 in
  (h, reply (Nodes rid (contact_wire <$> closest))).

Definition handle_get_providers (inst wall : N) (h : DhtProtocolHandler) (bytes : list N) (rid : RequestId)
    (sender : NodeId) : DhtProtocolHandler * option (list N) :=
  let key := DhtKey_from_bytes bytes in
  let h := update_routing_table inst h sender None in
  let '(store, providers) := get_providers wall (dh_store h) key in
  (set_store h store, reply (Providers rid (provider_wire <$> providers))).

Definition provider_of_wire (wall : N) (key : DhtKey) (p : ProviderRecordWire) : ProviderRecord :=
  mkProviderRecord key (pw_provider_id p) (default "" (head (pw_addrs p))) (pw_ttl_secs p) wall (pw_signature p).

Definition handle_add_provider (inst wall : N) (h : DhtProtocolHandler) (bytes : list N) (provider : ProviderRecordWire)
    (rid : RequestId) (sender : NodeId) : DhtProtocolHandler * option (list N) :=
  let key := DhtKey_from_bytes bytes in
  let h := update_routing_table inst h sender None in
  let record := provider_of_wire wall key provider in
  (set_store h (put_provider (dh_store h) key record).1, reply (AddProviderAck rid true None)).

Definition handle_get_value (inst : N) (h : DhtProtocolHandler) (bytes : list N) (rid : RequestId) (sender : NodeId)
  : DhtProtocolHandler * option (list N) :=
  let key := DhtKey_from_bytes bytes in
  let h := update_routing_table inst h sender None in
  let value := get_value (dh_store h) key in
  (h, reply (Value rid ((λ v, mkValueData (dv_data v) (dv_timestamp v) (dv_ttl_secs v)) <$> value))).

Definition handle_put_value (inst : N) (h : DhtProtocolHandler) (bytes : list N) (value : ValueData)
    (rid : RequestId) (sender : NodeId) : DhtProtocolHandler * option (list N) :=
  let key := DhtKey_from_bytes bytes in
  let h := update_routing_table inst h sender None in
  let '(store, success) :=
    put_value (dh_store h) key (mkDhtValue (vd_data value) (vd_timestamp value) (vd_ttl_secs value)) in
  (set_store h store, reply (PutAck rid success (if success : bool then None else Some "Storage failed"))).

Definition handle_ping (inst : N) (h : DhtProtocolHandler) (rid : RequestId) (sender : NodeId)
  : DhtProtocolHandler * option (list N) :=
  let h := update_routing_table inst h sender None in
  (h, reply (Pong rid (dh_local_id h))).

Definition handle_message (inst wall : N) (h : DhtProtocolHandler) (msg : DhtWireMessage)
  : DhtProtocolHandler * option (list N) :=
  match msg with
  | FindNode key rid sender => handle_find_node inst h key rid sender
  | GetProviders key rid sender => handle_get_providers inst wall h key rid sender
  | AddProvider key provider rid sender => handle_add_provider inst wall h key provider rid sender
  | GetValue key rid sender => handle_get_value inst h key rid sender
  | PutValue key value rid sender => handle_put_value inst h key value rid sender
  | Ping rid sender => handle_ping inst h rid sender
  | _ => (h, None)
  end.

Definition handle_frame (inst wall : N) (h : DhtProtocolHandler) (frame_data : list N)
  : DhtProtocolHandler * option (list N) :=
  match DhtCodec_decode frame_data with
  | Ok msg => handle_message inst wall h msg
  | Err _ => (h, None)
  end.

Definition register_request (inst : N) (h : DhtProtocolHandler) (request_id : RequestId) (response_tx : nat)
  : DhtProtocolHandler * result PendingRequestError unit :=
  if Nat.leb MAX_PENDING_REQUESTS (size (dh_pending_requests h)) then (h, Err (TableFull MAX_PENDING_REQUESTS))
  else (set_pending h (<[request_id := mkPendingRequest inst response_tx]> (dh_pending_requests h)), Ok tt).

(** The channel a response is handed to, with what is sent there. *)
Definition handler_handle_response (h : DhtProtocolHandler) (msg : DhtWireMessage)
  : DhtProtocolHandler * option (nat * result CodecError (list N)) :=
  match response_id msg with
  | None => (h, None)
  | Some request_id =>
      match dh_pending_requests h !! request_id with
      | Some request =>
          (set_pending h (delete request_id (dh_pending_requests h)), Some (pq_response_tx request, DhtCodec_encode msg))
      | None => (h, None)
      end
  end.

Definition cleanup_timeout (inst : N) (h : DhtProtocolHandler) : DhtProtocolHandler :=
  set_pending h (filter (λ p, inst - pq_sent_at p.2 < REQUEST_TIMEOUT) (dh_pending_requests h)).

(** A fresh channel replaces the one of the handler. *)
Definition take_event_receiver (h : DhtProtocolHandler) : DhtProtocolHandler * option nat :=
  (mkHandler (dh_local_id h) (dh_routing_table h) (dh_store h) (dh_pending_requests h) (dh_channels h)
     (S (dh_channels h)), Some (dh_channels h)).
End Handler.
Arguments DhtProtocolHandler ST : clear implicits.

(** ** What a request does and gets *)

Section HandlerTheorems.
Context `{HX : Hex} {HL : HexLaws HX} `{JC : JsonCodec} {JL : JsonCodecLaws JC}.
Context (blake3_hash : list N → list N) (random : NodeId) (show_sock : SocketAddr → string).
Context {ST : Type} `{SS : DhtStorage ST} {SL : StorageLaws ST}.
Implicit Types h : DhtProtocolHandler ST.

Notation handle := (handle_message blake3_hash random show_sock).

Definition request_fields (m : DhtWireMessage) : option (RequestId * NodeId) :=
  match m with
  | FindNode _ rid s | GetProviders _ rid s | AddProvider _ _ rid s | GetValue _ rid s | PutValue _ _ rid s
  | Ping rid s => Some (rid, s)
  | _ => None
  end.

Lemma codec_roundtrip m bytes : DhtCodec_encode m = Ok bytes → DhtCodec_decode bytes = Ok m.
Proof.
  unfold DhtCodec_encode, DhtCodec_decode. destruct (json_to_vec m) as [b|] eqn:He; [|done].
  intros [= ->]. by rewrite (json_roundtrip _ _ He).
Qed.

Definition request_sender (m : DhtWireMessage) : option NodeId := snd <$> request_fields m.

(** What the handler answers, before it is encoded, once it has seen the sender. *)
Definition response_to (wall : N) h (m : DhtWireMessage) : option DhtWireMessage :=
  match m with
  | FindNode key rid _ =>
      Some (Nodes rid (contact_wire show_sock <$>
        RoutingTable_closest (dh_routing_table h) (handler_node_id_from_key blake3_hash random (mkDhtKey key)) 20))
  | GetProviders key rid _ =>
      Some (Providers rid (provider_wire <$> (get_providers wall (dh_store h) (mkDhtKey key)).2))
  | AddProvider _ _ rid _ => Some (AddProviderAck rid true None)
  | GetValue key rid _ =>
      Some (Value rid ((λ v, mkValueData (dv_data v) (dv_timestamp v) (dv_ttl_secs v))
                         <$> get_value (dh_store h) (mkDhtKey key)))
  | PutValue key v rid _ =>
      let ok := (put_value (dh_store h) (mkDhtKey key)
                   (mkDhtValue (vd_data v) (vd_timestamp v) (vd_ttl_secs v))).2 in
      Some (PutAck rid ok (if ok then None else Some "Storage failed"))
  | Ping rid _ => Some (Pong rid (dh_local_id h))
  | _ => None
  end.

(** What it does to the store. *)
Definition store_after (wall : N) (s : ST) (m : DhtWireMessage) : ST :=
  match m with
  | GetProviders key _ _ => (get_providers wall s (mkDhtKey key)).1
  | AddProvider key p _ _ => (put_provider s (mkDhtKey key) (provider_of_wire wall (mkDhtKey key) p)).1
  | PutValue key v _ _ =>
      (put_value s (mkDhtKey key) (mkDhtValue (vd_data v) (vd_timestamp v) (vd_ttl_secs v))).1
  | _ => s
  end.

Definition table_after (inst : N) h (m : DhtWireMessage) : RoutingTable :=
  match request_sender m with
  | Some s => if bool_decide (s = dh_local_id h) then dh_routing_table h
              else RoutingTable_mark_seen inst (dh_routing_table h) s
  | None => dh_routing_table h
  end.

Lemma handle_message_eq inst wall h m :
  handle inst wall h m =
    (set_store (set_table h (table_after inst h m)) (store_after wall (dh_store h) m),
     response_to wall (set_table h (table_after inst h m)) m ≫= reply).
Proof.
  destruct h as [id t st pend tx n].
  destruct m; try done; unfold handle, handle_find_node, handle_get_providers, handle_add_provider, handle_get_value,
    handle_put_value, handle_ping, table_after, update_routing_table; cbn; case_bool_decide; cbn; try done.
  1,2: by destruct (get_providers wall st _).
  1,2: by destruct (put_value st _ _).
Qed.

Lemma response_to_id wall h m resp :
  response_to wall h m = Some resp → response_id resp = fst <$> request_fields m.
Proof. destruct m; cbn; intros [=]; by simplify_eq. Qed.

(** The reply to a frame, as whoever receives it decodes it. *)
Lemma handle_frame_reply inst wall h m frame bytes :
  DhtCodec_encode m = Ok frame → (handle_frame blake3_hash random show_sock inst wall h frame).2 = Some bytes →
  ∃ resp, response_to wall (set_table h (table_after inst h m)) m = Some resp ∧
    DhtCodec_decode bytes = Ok resp ∧ response_id resp = fst <$> request_fields m.
Proof.
  intros Hf Hb. unfold handle_frame in Hb. rewrite (codec_roundtrip _ _ Hf), handle_message_eq in Hb. cbn [snd] in Hb.
  apply bind_Some in Hb as (resp & Hresp & Hb). unfold reply in Hb.
  destruct (DhtCodec_encode resp) as [bs|] eqn:He; [|done]. injection Hb as ->.
  exists resp. split_and!; [done|by apply codec_roundtrip|by eapply response_to_id].
Qed.

(** What a sender asks, a handler answers, in a form the sender takes: the frame of a [FIND_NODE] or
    [GET_PROVIDERS] request, handled by any node whose reply can be encoded, comes back under the request's own
    identifier and is read by the sender as the twenty contacts nearest to the key, or the live providers of
    the key, of the answering node. *)
Theorem query_served inst wall h k local_id rid key frame bytes :
  DhtCodec_encode (request_of k local_id rid key) = Ok frame →
  (handle_frame blake3_hash random show_sock inst wall h frame).2 = Some bytes →
  let t := table_after inst h (request_of k local_id rid key) in
  read_response k (Ok bytes) = Ok match k with
    | KFindNode => NodesPayload rid (contact_wire show_sock <$>
        RoutingTable_closest t (handler_node_id_from_key blake3_hash random key) 20)
    | KGetProviders => ProvidersPayload rid (provider_wire <$> (get_providers wall (dh_store h) key).2)
    end ∧
  ∃ resp, DhtCodec_decode bytes = Ok resp ∧ response_id resp = Some rid.
Proof.
  intros Hf Hb t. destruct (handle_frame_reply _ _ _ _ _ _ Hf Hb) as (resp & Hresp & Hd & Hid).
  unfold read_response. rewrite Hd. destruct key as [kb].
  destruct k; cbn in Hresp, Hid; injection Hresp as <-; (split; [done|by eexists]).
Qed.

(** ** Runs of messages *)

(** A message arrives [dt] nanoseconds after the one before. *)
Definition handler_step (s : DhtProtocolHandler ST * N) (x : N * N * DhtWireMessage) : DhtProtocolHandler ST * N :=
  ((handle (s.2 + x.1.1) x.1.2 s.1 x.2).1, s.2 + x.1.1).

Definition handler_run : DhtProtocolHandler ST * N → list (N * N * DhtWireMessage) → DhtProtocolHandler ST * N :=
  foldl handler_step.

Lemma handler_run_ind (P : DhtProtocolHandler ST → N → Prop) (Q : DhtWireMessage → Prop) h now ms :
  (∀ h now dt wall m, P h now → Q m → P (handle (now + dt) wall h m).1 (now + dt)) →
  P h now → Forall (λ x, Q x.2) ms → P (handler_run (h, now) ms).1 (handler_run (h, now) ms).2.
Proof.
  intros Hs Hp Hq. revert h now Hp. induction Hq as [|x ms Hx _ IH]; intros h now Hp; [done|].
  apply IH. by apply Hs.
Qed.

Definition writes (key : list N) (m : DhtWireMessage) : Prop :=
  match m with PutValue k _ _ _ => k = key | _ => False end.

Lemma store_after_value wall s m key :
  ¬ writes key m → get_value (store_after wall s m) (mkDhtKey key) = get_value s (mkDhtKey key).
Proof.
  destruct m; cbn; intros Hn; try done.
  - apply law_get_providers_value.
  - apply law_put_provider_value.
  - apply law_put_value_other. intros [= H]. by apply Hn.
Qed.

(** A value put over the wire is read back over the wire: once a [PUT_VALUE] was stored, whatever other
    messages the node handles, as long as none puts another value under the key, a [GET_VALUE] for it is
    answered with the same data, timestamp and lifetime, however old. *)
Theorem put_then_get_over_wire inst wall h key v rid s ms inst' wall' rid' s' :
  (put_value (dh_store h) (mkDhtKey key) (mkDhtValue (vd_data v) (vd_timestamp v) (vd_ttl_secs v))).2 = true →
  Forall (λ x, ¬ writes key x.2) ms →
  (handle inst wall h (PutValue key v rid s)).2 = reply (PutAck rid true None) ∧
  (handle inst' wall' (handler_run ((handle inst wall h (PutValue key v rid s)).1, inst) ms).1
     (GetValue key rid' s')).2 = reply (Value rid' (Some v)).
Proof.
  intros Hok Hms. rewrite !handle_message_eq. cbn [snd fst]. split.
  - cbn. by rewrite Hok.
  - set (h1 := set_store _ _).
    assert (get_value (dh_store (handler_run (h1, inst) ms).1) (mkDhtKey key) =
            Some (mkDhtValue (vd_data v) (vd_timestamp v) (vd_ttl_secs v))) as Hg.
    { apply (handler_run_ind (λ h _, get_value (dh_store h) (mkDhtKey key) = _) (λ m, ¬ writes key m)); [|by cbn; apply law_put_value|done].
      intros h' now dt w m Hh Hm. rewrite handle_message_eq. cbn. by rewrite store_after_value. }
    cbn. rewrite Hg. by destruct v.
Qed.

(** An announced provider is found over the wire while its record lives: its address is the first one
    announced, and neither its signature nor its sender is looked at. *)
Theorem announce_then_found_over_wire inst wall h key p rid s inst' wall' rid' s' :
  let record := provider_of_wire wall (mkDhtKey key) p in
  (put_provider (dh_store h) (mkDhtKey key) record).2 = true → live wall' record →
  (handle inst wall h (AddProvider key p rid s)).2 = reply (AddProviderAck rid true None) ∧
  ∃ ps, (handle inst' wall' (handle inst wall h (AddProvider key p rid s)).1 (GetProviders key rid' s')).2 =
      reply (Providers rid' ps) ∧
    ∃ p', p' ∈ ps ∧ pw_provider_id p' = pw_provider_id p ∧ pw_addrs p' = [default "" (head (pw_addrs p))] ∧
      pw_ttl_secs p' = pw_ttl_secs p.
Proof.
  intros record Hok Hl. rewrite !handle_message_eq. cbn [snd fst]. split; [done|]. cbn. eexists. split; [done|].
  fold record. destruct (law_put_get _ _ record wall' Hok Hl) as (r' & Hin & Hr').
  exists (provider_wire r'). split; [by apply list_elem_of_fmap_2|].
  destruct r'. unfold same_unsigned, set_signature, record in Hr'. cbn in Hr'. by simplify_eq/=.
Qed.

(** Answering never teaches a node a peer: over any run of messages, from whoever they come, the routing
    table keeps its invariant, its bootstrap nodes and exactly the contacts it had, with their addresses. *)
Theorem handler_table_frozen h now ms :
  rt_inv now (dh_routing_table h) →
  let s := handler_run (h, now) ms in
  rt_inv s.2 (dh_routing_table s.1) ∧
  rt_bootstrap_nodes (dh_routing_table s.1) = rt_bootstrap_nodes (dh_routing_table h) ∧
  ∀ id, c_addrs <$> rt_lookup (dh_routing_table s.1) id = c_addrs <$> rt_lookup (dh_routing_table h) id.
Proof.
  intros Hi. cbn zeta.
  apply (handler_run_ind (λ h' now', rt_inv now' (dh_routing_table h') ∧
    rt_bootstrap_nodes (dh_routing_table h') = rt_bootstrap_nodes (dh_routing_table h) ∧
    ∀ id, c_addrs <$> rt_lookup (dh_routing_table h') id = c_addrs <$> rt_lookup (dh_routing_table h) id) (λ _, True));
    [|done|by apply Forall_true].
  intros h' now' dt wall m (Ht & Hb & Ha) _. rewrite handle_message_eq. cbn. unfold table_after.
  assert (rt_inv (now' + dt) (dh_routing_table h')) as Ht'.
  { apply (rt_inv_step False True (dh_routing_table h', now') (dh_routing_table h', now' + dt)); [constructor; lia|done]. }
  destruct (request_sender m) as [id|]; [|done]. case_bool_decide; [done|]. split_and!.
  - apply (rt_inv_step False True (dh_routing_table h', now' + dt) (_, now' + dt)); [constructor|done].
  - done.
  - intros id'. rewrite <- Ha. destruct (rt_lookup_mark_seen (now' + dt) _ id Ht') as [Hs Ho].
    destruct (decide (id' = id)) as [->|Hne]; [|by rewrite Ho].
    rewrite Hs. by destruct (rt_lookup (dh_routing_table h') id).
Qed.
(** ** Pending requests *)

Inductive HandlerOp : Type :=
| HRegister (rid : RequestId) (ch : nat)
| HResponse (msg : DhtWireMessage)
| HMessage (wall : N) (msg : DhtWireMessage)
| HCleanup.

(** The new state, the registration accepted and what was delivered. *)
Definition handler_op (now : N) h (op : HandlerOp)
  : DhtProtocolHandler ST * list (RequestId * nat) * list (nat * result CodecError (list N)) :=
  match op with
  | HRegister rid ch =>
      let '(h', r) := register_request now h rid ch in (h', match r with Ok _ => [(rid, ch)] | Err _ => [] end, [])
  | HResponse msg => let '(h', d) := handler_handle_response h msg in (h', [], option_list d)
  | HMessage wall msg => ((handle now wall h msg).1, [], [])
  | HCleanup => (cleanup_timeout now h, [], [])
  end.

Fixpoint op_run h (ops : list (N * HandlerOp))
  : DhtProtocolHandler ST * list (RequestId * nat) * list (nat * result CodecError (list N)) :=
  match ops with
  | [] => (h, [], [])
  | (now, op) :: ops =>
      let '(h1, rs, ds) := handler_op now h op in
      let '(h2, rs', ds') := op_run h1 ops in
      (h2, rs ++ rs', ds ++ ds')
  end.

(** What waits for a channel. *)
Definition waiting (ch : nat) h : nat :=
  size (filter (λ p, pq_response_tx p.2 = ch) (dh_pending_requests h)).

Definition for_chan {A} (ch : nat) (f : A → nat) (l : list A) : nat := length (filter (λ x, f x = ch) l).

Lemma size_filter_insert (m : gmap RequestId PendingRequest) rid q ch :
  (size (filter (λ p, pq_response_tx p.2 = ch) (<[rid := q]> m)) ≤
   size (filter (λ p, pq_response_tx p.2 = ch) m) + (if decide (pq_response_tx q = ch) then 1 else 0))%nat.
Proof.
  case_decide as Hq.
  - rewrite map_filter_insert_True by done. rewrite map_size_insert. destruct (filter _ m !! rid); cbn; lia.
  - rewrite map_filter_insert_False by done.
    enough (size (filter (λ p, pq_response_tx p.2 = ch) (delete rid m)) ≤
            size (filter (λ p, pq_response_tx p.2 = ch) m))%nat by lia.
    apply map_subseteq_size, map_filter_subseteq_mono, delete_subseteq.
Qed.

Lemma handler_op_waiting now h op ch :
  let '(h', rs, ds) := handler_op now h op in
  (for_chan ch fst ds + waiting ch h' ≤ for_chan ch snd rs + waiting ch h)%nat ∧
  (size (dh_pending_requests h) ≤ MAX_PENDING_REQUESTS →
   size (dh_pending_requests h') ≤ MAX_PENDING_REQUESTS)%nat.
Proof.
  destruct op as [rid c|msg|wall msg|]; cbn.
  - unfold register_request. destruct (Nat.leb_spec MAX_PENDING_REQUESTS (size (dh_pending_requests h))) as [|Hlt]; [done|].
    unfold waiting, for_chan. cbn. split.
    + pose proof (size_filter_insert (dh_pending_requests h) rid (mkPendingRequest now c) ch) as Hs. cbn in Hs.
      repeat case_decide; cbn in *; lia.
    + intros _. rewrite map_size_insert. unfold MAX_PENDING_REQUESTS in *. destruct (_ !! _); cbn in *; lia.
  - unfold handler_handle_response. destruct (response_id msg) as [rid|]; [|done].
    destruct (dh_pending_requests h !! rid) as [q|] eqn:Hl; [|done]. unfold waiting, for_chan. cbn. split.
    + rewrite map_filter_delete.
      case_decide as Hq; cbn.
      * rewrite map_size_delete. rewrite (proj2 (map_lookup_filter_Some _ _ rid q)) by done.
        assert (size (filter (λ p, pq_response_tx p.2 = ch) (dh_pending_requests h)) ≠ 0%nat).
        { apply map_size_ne_0_lookup. exists rid. rewrite (proj2 (map_lookup_filter_Some _ _ rid q)); [by eexists|done]. }
        lia.
      * apply map_subseteq_size, delete_subseteq.
    + rewrite map_size_delete. destruct (_ !! _); cbn in *; lia.
  - rewrite handle_message_eq. done.
  - unfold waiting, for_chan. cbn. split.
    + apply map_subseteq_size, map_filter_subseteq_mono, map_filter_subseteq.
    + intros Hs. etrans; [apply map_subseteq_size, map_filter_subseteq|done].
Qed.

(** The table of pending requests is bounded and answers once: however registrations, responses, messages
    and clean-ups follow each other, it never holds more than [MAX_PENDING_REQUESTS] requests, and a channel is
    sent at most one response for each registration accepted for it. *)
Theorem pending_requests_bounded h ops :
  dh_pending_requests h = ∅ →
  let '(h', rs, ds) := op_run h ops in
  (size (dh_pending_requests h') ≤ MAX_PENDING_REQUESTS)%nat ∧
  ∀ ch, (for_chan ch fst ds + waiting ch h' ≤ for_chan ch snd rs)%nat.
Proof.
  intros He.
  assert (∀ ops h, let '(h', rs, ds) := op_run h ops in
    (size (dh_pending_requests h) ≤ MAX_PENDING_REQUESTS → size (dh_pending_requests h') ≤ MAX_PENDING_REQUESTS)%nat ∧
    ∀ ch, (for_chan ch fst ds + waiting ch h' ≤ for_chan ch snd rs + waiting ch h)%nat) as Hrun.
  { clear h ops He. induction ops as [|[now op] ops IH]; intros h; [done|]. cbn.
    pose proof (handler_op_waiting now h op) as Hop. destruct (handler_op now h op) as [[h1 rs] ds].
    specialize (IH h1). destruct (op_run h1 ops) as [[h2 rs'] ds']. destruct IH as [IHs IHc]. split.
    - intros Hs. apply IHs. by apply (proj2 (Hop 0%nat)).
    - intros ch. specialize (IHc ch). destruct (Hop ch) as [Hc _].
      unfold for_chan in *. rewrite !filter_app, !length_app. lia. }
  specialize (Hrun ops h). destruct (op_run h ops) as [[h' rs] ds]. destruct Hrun as [Hs Hc]. split.
  - apply Hs. rewrite He, map_size_empty. lia.
  - intros ch. specialize (Hc ch). unfold waiting in Hc at 2. rewrite He, map_filter_empty, map_size_empty in Hc. lia.
Qed.

(** A registration is refused exactly when the table is full, with the capacity as the error and nothing
    changed; otherwise the request waits under its identifier, in the place of an earlier one of the same
    identifier. A clean-up drops exactly the requests that have waited five seconds or more. *)
Theorem pending_requests_spec now h rid ch :
  (register_request now h rid ch =
     if Nat.leb MAX_PENDING_REQUESTS (size (dh_pending_requests h)) then (h, Err (TableFull 100))
     else (set_pending h (<[rid := mkPendingRequest now ch]> (dh_pending_requests h)), Ok tt)) ∧
  (∀ id q, dh_pending_requests (cleanup_timeout now h) !! id = Some q ↔
     dh_pending_requests h !! id = Some q ∧ now < pq_sent_at q + 5000000000) ∧
  (∀ m resp, response_id m = Some rid → dh_pending_requests h !! rid = Some resp →
     let '(h', sent) := handler_handle_response h m in
     sent = Some (pq_response_tx resp, DhtCodec_encode m) ∧ (handler_handle_response h' m).2 = None).
Proof.
  split_and!.
  - done.
  - intros id q. cbn. rewrite map_lookup_filter_Some. cbn. unfold REQUEST_TIMEOUT, secs. split; intros [Hl Ht]; (split; [done|lia]).
  - intros m resp Hid Hl. unfold handler_handle_response at 1. rewrite Hid, Hl. split; [done|].
    unfold handler_handle_response. rewrite Hid. cbn. by rewrite lookup_delete_eq.
Qed.

(** The receiver of events can be taken any number of times, each time a new one, which cuts off the one
    before; the documentation promises [None] from the second time on. *)
Lemma event_receiver_taken_twice h :
  ∃ h1 h2 a b, take_event_receiver h = (h1, Some a) ∧ take_event_receiver h1 = (h2, Some b) ∧
    dh_event_tx h2 = b ∧ a ≠ b.
Proof. do 4 eexists. split_and!; done. Qed.

(** An [ADD_PROVIDER] is acknowledged although the store refused the record. *)
Lemma refused_provider_acknowledged inst wall h key p rid s :
  (put_provider (dh_store h) (mkDhtKey key) (provider_of_wire wall (mkDhtKey key) p)).2 = false →
  (handle inst wall h (AddProvider key p rid s)).2 = reply (AddProviderAck rid true None).
Proof. intros _. by rewrite handle_message_eq. Qed.
End HandlerTheorems.

(** ** Witnesses *)

Definition ex_handler : DhtProtocolHandler InMemoryDhtStore :=
  fst (DhtProtocolHandler_new ex_self ex_table InMemoryDhtStore_new).

Definition ex_sock (_ : SocketAddr) : string := "a".

Definition ex_find_request : DhtWireMessage := request_of KFindNode ex_peer "r" ex_target.
Definition ex_find_reply : DhtWireMessage := Nodes "r" [mkNodeContact (id_of_byte 2) ["a"]].
Definition ex_wire_codec : JsonCodec := table_codec [ex_find_request; ex_find_reply].

Lemma query_served_witness :
  read_response (JC := ex_wire_codec) KFindNode (Ok [1]) =
    Ok (NodesPayload "r" [mkNodeContact (id_of_byte 2) ["a"]]) ∧
  ∃ resp, DhtCodec_decode (JC := ex_wire_codec) [1] = Ok resp ∧ response_id resp = Some "r".
Proof.
  assert (contact_wire ex_sock <$> RoutingTable_closest (table_after 0 ex_handler ex_find_request)
    (handler_node_id_from_key ex_blake3 ex_self ex_target) 20 = [mkNodeContact (id_of_byte 2) ["a"]]) as <-
    by (vm_compute; reflexivity).
  apply (query_served (JC := ex_wire_codec) ex_blake3 ex_self ex_sock 0 0 ex_handler KFindNode ex_peer "r" ex_target
    [0] [1]); vm_compute; reflexivity.
Defined.

Lemma put_then_get_over_wire_witness :
  (handle_message (JC := ex_wire_codec) ex_blake3 ex_self ex_sock 9 9
     (handler_run (JC := ex_wire_codec) ex_blake3 ex_self ex_sock
        ((handle_message (JC := ex_wire_codec) ex_blake3 ex_self ex_sock 0 0 ex_handler
            (PutValue [7] (mkValueData [1] 0 1) "p" ex_peer)).1, 0) [(1, 1, Ping "q" ex_peer)]).1
     (GetValue [7] "g" ex_peer)).2 = reply (JC := ex_wire_codec) (Value "g" (Some (mkValueData [1] 0 1))).
Proof.
  refine (proj2 (put_then_get_over_wire (JC := ex_wire_codec) ex_blake3 ex_self ex_sock 0 0 ex_handler [7]
    (mkValueData [1] 0 1) "p" ex_peer [(1, 1, Ping "q" ex_peer)] 9 9 "g" ex_peer _ _)); [vm_compute; reflexivity|].
  repeat constructor. intros [].
Defined.

Lemma announce_then_found_over_wire_witness :
  ∃ ps, (handle_message (JC := ex_wire_codec) ex_blake3 ex_self ex_sock 9 9
     (handle_message (JC := ex_wire_codec) ex_blake3 ex_self ex_sock 0 0 ex_handler
        (AddProvider [7] (mkProviderRecordWire ex_peer ["x"] 60 None) "p" ex_peer)).1
     (GetProviders [7] "g" ex_peer)).2 = reply (JC := ex_wire_codec) (Providers "g" ps) ∧
   ∃ p', p' ∈ ps ∧ pw_provider_id p' = ex_peer ∧ pw_addrs p' = ["x"] ∧ pw_ttl_secs p' = 60.
Proof.
  apply (announce_then_found_over_wire (JC := ex_wire_codec) ex_blake3 ex_self ex_sock 0 0 ex_handler [7]
    (mkProviderRecordWire ex_peer ["x"] 60 None) "p" ex_peer 9 9 "g" ex_peer); vm_compute; reflexivity.
Defined.

Lemma handler_table_frozen_witness :
  c_addrs <$> rt_lookup (dh_routing_table (handler_run (JC := ex_wire_codec) ex_blake3 ex_self ex_sock
    (fst (DhtProtocolHandler_new ex_self (RoutingTable_new 0 ex_self) InMemoryDhtStore_new), 0)
    [(1, 1, Ping "q" ex_peer)]).1) ex_peer =
  c_addrs <$> rt_lookup (RoutingTable_new 0 ex_self) ex_peer.
Proof.
  apply (handler_table_frozen (JC := ex_wire_codec) ex_blake3 ex_self ex_sock
    (fst (DhtProtocolHandler_new ex_self (RoutingTable_new 0 ex_self) InMemoryDhtStore_new)) 0
    [(1, 1, Ping "q" ex_peer)]).
  apply rt_inv_new.
Defined.

Definition ex_ops : list (N * HandlerOp) :=
  [(0, HRegister "r" 3%nat); (1, HResponse (Pong "r" ex_peer)); (2, HResponse (Pong "r" ex_peer))].

Lemma pending_requests_bounded_witness :
  let '(h', rs, ds) := op_run (JC := ex_wire_codec) ex_blake3 ex_self ex_sock ex_handler ex_ops in
  (size (dh_pending_requests h') ≤ MAX_PENDING_REQUESTS)%nat ∧
  ∀ ch, (for_chan ch fst ds + waiting ch h' ≤ for_chan ch snd rs)%nat.
Proof.
  apply (pending_requests_bounded (JC := ex_wire_codec) ex_blake3 ex_self ex_sock ex_handler ex_ops). reflexivity.
Defined.
