(* ===== verification/DhtNode.v ===== *)
(** * The DHT node ([crates/a3net-dht/src/node.rs])

    [DhtNode] puts the routing table, the store and the announcements of the
    node itself together with an optional network sender and an optional protocol
    handler, both attached from outside. What a peer answers to the sender is the
    argument [answer]; the messages given to the sender are part of the result.
    The system clock [wall] is in seconds, the monotonic clock [inst] in
    nanoseconds. The handler is an opaque handle, which no method of the node
    uses. *)
From stdpp Require Import prelude strings gmap list.
From Stdlib Require Import NArith Lia.
From S2P Require Import Prelude NodeId Bucket DhtRecord DhtStore DhtQuery DhtRetry DhtNetwork DhtHandler.

#[local] Open Scope N_scope.

Record DhtConfig : Type := mkDhtConfig {
  dc_local_id : NodeId;
  dc_bootstrap_nodes : list (NodeId * string);
  dc_provider_interval : N;
  dc_refresh_interval : N;
  dc_contact_timeout : N;
  dc_k : nat
}.

(** The random identifier is an argument. *)
Definition DhtConfig_default (random : NodeId) : DhtConfig :=
  mkDhtConfig random [] (secs 3600) (secs 300) (secs 600) 20.

Section Node.
Context `{HX : Hex} (blake3_hash : list N → list N).
Context (parse_sock : string → option SocketAddr).
Context {ST : Type} `{SS : DhtStorage ST}.

Record DhtNode : Type := mkDhtNode {
  dn_config : DhtConfig;
  dn_routing_table : RoutingTable;
  dn_store : ST;
  dn_providers : gmap DhtKey ProviderRecord;
  dn_sender : option DhtNetworkSender;
  dn_handler : option nat;
  dn_local_addr : option string;
  dn_query : option RoutingTable
}.

Definition DhtNode_with_store (inst : N) (config : DhtConfig) (store : ST) : DhtNode :=
  mkDhtNode config (RoutingTable_new inst (dc_local_id config)) store ∅ None None None None.

Definition node_set_table (n : DhtNode) (t : RoutingTable) : DhtNode :=
  mkDhtNode (dn_config n) t (dn_store n) (dn_providers n) (dn_sender n) (dn_handler n) (dn_local_addr n) (dn_query n).
Definition node_set_store (n : DhtNode) (s : ST) : DhtNode :=
  mkDhtNode (dn_config n) (dn_routing_table n) s (dn_providers n) (dn_sender n) (dn_handler n) (dn_local_addr n)
    (dn_query n).
Definition node_set_providers (n : DhtNode) (p : gmap DhtKey ProviderRecord) : DhtNode :=
  mkDhtNode (dn_config n) (dn_routing_table n) (dn_store n) p (dn_sender n) (dn_handler n) (dn_local_addr n)
    (dn_query n).

Definition set_local_addr (n : DhtNode) (addr : string) : DhtNode :=
  mkDhtNode (dn_config n) (dn_routing_table n) (dn_store n) (dn_providers n) (dn_sender n) (dn_handler n) (Some addr)
    (dn_query n).
Definition local_addr_str (n : DhtNode) : option string := dn_local_addr n.

Definition attach_sender (n : DhtNode) (sender : option DhtNetworkSender) : DhtNode :=
  mkDhtNode (dn_config n) (dn_routing_table n) (dn_store n) (dn_providers n) sender (dn_handler n) (dn_local_addr n)
    (dn_query n).
Definition attach_handler (n : DhtNode) (handler : option nat) : DhtNode :=
  mkDhtNode (dn_config n) (dn_routing_table n) (dn_store n) (dn_providers n) (dn_sender n) handler (dn_local_addr n)
    (dn_query n).

(** An address that does not parse becomes [127.0.0.1:0]. *)
Definition node_add_bootstrap_node (inst : N) (n : DhtNode) (id : NodeId) (addr : string) : DhtNode :=
  node_set_table n (RoutingTable_add_bootstrap_node (dn_routing_table n)
    (Contact_new inst id (default unroutable (parse_sock addr)))).

Definition add_peer (inst : N) (n : DhtNode) (id : NodeId) (addr : SocketAddr) : DhtNode :=
  node_set_table n (RoutingTable_insert (dn_routing_table n) (Contact_new inst id addr)).1.

(** The string of the fallback address. *)
Definition node_local_addr (n : DhtNode) : string := default "/ip4/127.0.0.1/tcp/0" (dn_local_addr n).

Definition node_key_to_node_id (n : DhtNode) (key : DhtKey) : NodeId :=
  let raw := key_bytes key in
  let fallback r := match r with Ok id => id | Err _ => dc_local_id (dn_config n) end in
  if Nat.leb 32 (length raw) then fallback (NodeId_from_bytes (take 32 raw))
  else fallback (NodeId_from_bytes (blake3_hash raw)).

(** The node after the announcement, and the peers the record is sent to. *)
Definition announce_content (wall : N) (n : DhtNode) (key : DhtKey) : DhtNode * list (NodeId * ProviderRecord) :=
  let record := ProviderRecord_new wall key (dc_local_id (dn_config n)) (node_local_addr n) in
  let n := node_set_providers n (<[key := record]> (dn_providers n)) in
  let n := node_set_store n (put_provider (dn_store n) key record).1 in
  match dn_sender n with
  | None => (n, [])
  | Some _ =>
      let closest_peers := RoutingTable_closest (dn_routing_table n) (node_key_to_node_id n key) (dc_k (dn_config n)) in
      (n, (λ peer, (c_id peer, record)) <$> take (dc_k (dn_config n)) closest_peers)
  end.

(** A record as it is materialised from the wire. *)
Definition remote_record (wall : N) (key : DhtKey) (wire : ProviderRecordWire) : ProviderRecord :=
  mkProviderRecord key (pw_provider_id wire) (default "127.0.0.1:0" (head (pw_addrs wire))) (pw_ttl_secs wire) wall
    (pw_signature wire).

(** The inner loop over the providers of one answer. *)
Definition collect_remote (wall : N) (key : DhtKey) (acc : ST * list ProviderRecord) (wire : ProviderRecordWire)
  : ST * list ProviderRecord :=
  let record := remote_record wall key wire in
  ((put_provider acc.1 key record).1, acc.2 ++ [record]).

Definition collect_answer (wall : N) (key : DhtKey) (acc : ST * list ProviderRecord) (r : result QueryError Payload)
  : ST * list ProviderRecord :=
  match r with
  | Ok (ProvidersPayload _ providers) => foldl (collect_remote wall key) acc providers
  | _ => acc
  end.

(** With the peers that were asked, in order. *)
Definition find_providers (wall : N) (answer : NodeId → result QueryError Payload) (n : DhtNode) (key : DhtKey)
  : DhtNode * list ProviderRecord * list NodeId :=
  let '(store, local) := get_providers wall (dn_store n) key in
  let n := node_set_store n store in
  match local with
  | _ :: _ => (n, local, [])
  | [] =>
      match dn_sender n with
      | None => (n, [], [])
      | Some _ =>
          let closest_peers := RoutingTable_closest (dn_routing_table n) (node_key_to_node_id n key) 20 in
          let asked := c_id <$> take 3 closest_peers in
          let '(store, all_providers) := foldl (collect_answer wall key) (dn_store n, []) (answer <$> asked) in
          (node_set_store n store, all_providers, asked)
      end
  end.

Definition num_peers (n : DhtNode) : nat := RoutingTable_num_contacts (dn_routing_table n).
Definition get_peers (n : DhtNode) : list NodeId := c_id <$> RoutingTable_all_contacts (dn_routing_table n).

(** [QueryResult] without its identifier and its duration of zero. *)
Definition node_find_node (random : NodeId) (n : DhtNode) (key : DhtKey) : QueryResult :=
  let contacts := RoutingTable_closest (dn_routing_table n) (node_id_from_key blake3_hash random key) KBUCKET_SIZE in
  mkQueryResult ((λ c, mkNodeInfo (c_id c) []) <$> contacts) [] false.

(** The table the query engine reads. *)
Definition DhtNode_query (inst : N) (n : DhtNode) : DhtNode * option RoutingTable :=
  match dn_query n with
  | Some t => (n, Some t)
  | None =>
      match dn_sender n with
      | None => (n, None)
      | Some _ =>
          let snapshot := RoutingTable_new inst (dc_local_id (dn_config n)) in
          (mkDhtNode (dn_config n) (dn_routing_table n) (dn_store n) (dn_providers n) (dn_sender n) (dn_handler n)
             (dn_local_addr n) (Some snapshot), Some snapshot)
      end
  end.

Definition node_get_value (n : DhtNode) (key : DhtKey) : option DhtValue := get_value (dn_store n) key.
Definition node_put_value (n : DhtNode) (key : DhtKey) (value : DhtValue) : DhtNode :=
  node_set_store n (put_value (dn_store n) key value).1.

(** One round of the refresh task, and one of the clean-up task. *)
Definition refresh_tick (inst : N) (n : DhtNode) : DhtNode :=
  let table := (RoutingTable_remove_dead_contacts inst (dn_routing_table n)).1 in
  node_set_table n (foldl (RoutingTable_mark_bucket_refreshed inst) table (seq 0 256)).

Definition cleanup_tick (wall : N) (n : DhtNode) : DhtNode :=
  node_set_store n (remove_expired_providers wall (dn_store n)).1.
End Node.
Arguments DhtNode ST : clear implicits.

(** [DhtNode::new] and [with_id] start with an empty in-memory store. *)
Definition DhtNode_new (inst : N) (config : DhtConfig) : DhtNode InMemoryDhtStore :=
  DhtNode_with_store inst config InMemoryDhtStore_new.
Definition DhtNode_with_id (inst : N) (local_id : NodeId) : DhtNode InMemoryDhtStore :=
  DhtNode_new inst (DhtConfig_default local_id).

(** ** What the node does *)

Section NodeTheorems.
Context `{HX : Hex} {HL : HexLaws HX} (blake3_hash : list N → list N).
Context {ST : Type} `{SS : DhtStorage ST} {SL : StorageLaws ST}.
Implicit Types n : DhtNode ST.

(** A provider the store holds is found without asking anybody. *)
Lemma find_local wall answer n key r :
  r ∈ (get_providers wall (dn_store n) key).2 →
  ∃ l, find_providers blake3_hash wall answer n key =
    (node_set_store n (get_providers wall (dn_store n) key).1, l, []) ∧ r ∈ l ∧
    l = (get_providers wall (dn_store n) key).2.
Proof.
  intros Hr. unfold find_providers. destruct (get_providers wall (dn_store n) key) as [s [|x l]]; cbn in *.
  - by apply elem_of_nil in Hr.
  - by eexists.
Qed.

(** What a node announces it finds itself, without asking the network, until the record expires: under its
    own identifier and the address set for it. With a sender attached the same record goes to at most [k]
    peers, known ones that are not the node itself; without one, to nobody. *)
Theorem announce_then_find wall n key later answer :
  let local_id := dc_local_id (dn_config n) in
  let record := ProviderRecord_new wall key local_id (node_local_addr n) in
  rt_local_id (dn_routing_table n) = local_id →
  (put_provider (dn_store n) key record).2 = true → wall + default_ttl ≤ u64_max → later ≤ wall + default_ttl →
  let '(n', sent) := announce_content blake3_hash wall n key in
  (∃ n2 l r, find_providers blake3_hash later answer n' key = (n2, l, []) ∧ r ∈ l ∧
     pr_provider_id r = local_id ∧ pr_provider_addr r = node_local_addr n) ∧
  dn_providers n' !! key = Some record ∧
  (length sent ≤ dc_k (dn_config n))%nat ∧ (dn_sender n = None → sent = []) ∧
  Forall (λ m, m.2 = record ∧ m.1 ≠ local_id ∧ m.1 ∈ get_peers n) sent.
Proof.
  intros local_id record Hid Hput Hov Hl.
  assert (live later record) as Hlive.
  { unfold live, ProviderRecord_is_expired, sat_add, record. simpl. apply N.ltb_ge. lia. }
  destruct (law_put_get (dn_store n) key record later Hput Hlive) as (r & Hr & Hsame).
  assert (∀ n', dn_store n' = (put_provider (dn_store n) key record).1 →
    ∃ n2 l r, find_providers blake3_hash later answer n' key = (n2, l, []) ∧ r ∈ l ∧
     pr_provider_id r = local_id ∧ pr_provider_addr r = node_local_addr n) as Hfind.
  { intros n' Hs. rewrite <- Hs in Hr. destruct (find_local later answer n' key r Hr) as (l & -> & Hin & _).
    exists (node_set_store n' (get_providers later (dn_store n') key).1), l, r. split_and!; [done|done|..].
    - by apply (f_equal pr_provider_id) in Hsame.
    - by apply (f_equal pr_provider_addr) in Hsame. }
  unfold announce_content. fold local_id record. cbn. destruct (dn_sender n); cbn.
  - split_and!; [by apply Hfind|by rewrite lookup_insert_eq|..]; [|done|].
    + rewrite length_fmap, length_take. lia.
    + apply Forall_fmap, Forall_forall. intros c Hc%elem_of_take_in. cbn. split; [done|].
      unfold RoutingTable_closest in Hc. apply elem_of_take_in, elem_of_sort_by, list_elem_of_filter in Hc as [Hne Hc].
      rewrite <- Hid. split; [done|]. by apply list_elem_of_fmap_2.
  - split_and!; [by apply Hfind|by rewrite lookup_insert_eq|..]; [lia|done|constructor].
Qed.

Lemma collect_remote_fold wall key ws acc :
  (foldl (collect_remote wall key) acc ws).2 = acc.2 ++ (remote_record wall key <$> ws).
Proof.
  revert acc. induction ws as [|w ws IH]; intros acc; cbn; [by rewrite app_nil_r|].
  rewrite IH. cbn. by rewrite <- app_assoc.
Qed.

Definition providers_in (r : result QueryError Payload) : list ProviderRecordWire :=
  match r with Ok (ProvidersPayload _ ps) => ps | _ => [] end.

Lemma collect_answers wall key rs acc :
  foldl (collect_answer wall key) acc rs = foldl (collect_remote wall key) acc (rs ≫= providers_in).
Proof.
  revert acc. induction rs as [|r rs IH]; intros acc; [done|].
  rewrite bind_cons, foldl_app, <- IH. destruct r as [[]|]; done.
Qed.

(** [find_providers] asks the network only when the store knows no live provider, and then at most the
    three known peers nearest to the key, all of them whatever the first ones answer. It returns, in order,
    every record it was told, as told: signatures are not checked and repetitions stay. *)
Theorem find_providers_spec wall answer n key n' l asked :
  find_providers blake3_hash wall answer n key = (n', l, asked) →
  let known := (get_providers wall (dn_store n) key).2 in
  (known ≠ [] → l = known ∧ asked = []) ∧
  (known = [] → dn_sender n = None → l = [] ∧ asked = []) ∧
  (known = [] → dn_sender n ≠ None →
     asked = c_id <$> take 3 (RoutingTable_closest (dn_routing_table n) (node_key_to_node_id blake3_hash n key) 20) ∧
     l = remote_record wall key <$> (answer <$> asked) ≫= providers_in) ∧
  dn_routing_table n' = dn_routing_table n ∧ dn_providers n' = dn_providers n.
Proof.
  unfold find_providers. destruct (get_providers wall (dn_store n) key) as [s known]. cbn. destruct known as [|x known].
  - destruct (dn_sender n); cbn.
    + rewrite collect_answers. destruct (foldl _ _ _) as [s' l'] eqn:Hf. intros [= <- <- <-].
      apply (f_equal snd) in Hf. rewrite collect_remote_fold in Hf. cbn in Hf. subst l'. done.
    + by intros [= <- <- <-].
  - by intros [= <- <- <-].
Qed.

(** What the network told is found locally from then on: when the last record told lives and its store
    succeeds, the next [find_providers] answers from the store, that record included, and asks nobody. *)
Theorem find_providers_caches wall answer n key later answer' :
  let '(n', l, asked) := find_providers blake3_hash wall answer n key in
  ∀ l0 r, l = l0 ++ [r] → asked ≠ [] → live later r →
  (∀ s, (put_provider s key r).2 = true) →
  ∃ n2 l2 r', find_providers blake3_hash later answer' n' key = (n2, l2, []) ∧ r' ∈ l2 ∧ same_unsigned r' r.
Proof.
  unfold find_providers at 1. destruct (get_providers wall (dn_store n) key) as [s known]. cbn.
  destruct known; [|done]. destruct (dn_sender n); [|done]. cbn.
  rewrite collect_answers.
  set (ws := _ ≫= providers_in). destruct (foldl _ _ ws) as [s' l] eqn:Hf.
  intros l0 r -> _ Hlive Hput.
  assert (∃ s0, s' = (put_provider s0 key r).1) as [s0 ->].
  { clearbody ws. destruct ws as [|w ws _] using rev_ind.
    - cbn in Hf. simplify_eq. by destruct l0.
    - rewrite foldl_snoc in Hf. unfold collect_remote at 1 in Hf. injection Hf as Hs Hl.
      apply app_inj_tail in Hl as [_ <-]. by eexists. }
  destruct (law_put_get s0 key r later (Hput s0) Hlive) as (r' & Hr & Hsame).
  match goal with |- context [find_providers _ _ _ ?n' _] =>
    destruct (find_local later answer' n' key r' Hr) as (l2 & He & Hin & _) end.
  eexists _, _, r'. by split_and!.
Qed.

(** The query engine of [DhtNode::query] knows nobody: it is built over a routing table of its own, which is
    empty however many peers the node knows, so every lookup through it ends without a request and finds no
    peer, and everything published through it is sent to nobody. *)
Theorem node_query_knows_nobody inst n n' t random parse_sock show_sock instant config expired replies key wall addr :
  dn_query n = None → DhtNode_query inst n = (n', Some t) →
  let id := dc_local_id (dn_config n) in
  qr_peers (find_node blake3_hash random parse_sock show_sock instant config expired replies t id key) = [] ∧
  ls_sent (find_node_run blake3_hash random parse_sock instant config expired replies t id key).1 = [] ∧
  (query_add_provider blake3_hash random wall (dn_store n) t id key addr).2 = [] ∧
  (DhtNode_query inst n').2 = Some t.
Proof.
  intros Hq. unfold DhtNode_query at 1. rewrite Hq. destruct (dn_sender n); [|done]. intros [= <- <-].
  set (id := dc_local_id (dn_config n)).
  assert (∀ target k, RoutingTable_closest (RoutingTable_new inst id) target k = []) as Hc.
  { intros target k. unfold RoutingTable_closest, RoutingTable_new. cbn [rt_buckets rt_bootstrap_nodes rt_local_id].
    assert (replicate NUM_BUCKETS (KBucket_new inst) ≫= kb_contacts = []) as ->; [|by destruct k].
    generalize NUM_BUCKETS. induction n0; [done|]. by cbn. }
  assert (find_node_run blake3_hash random parse_sock instant config expired replies (RoutingTable_new inst id) id key =
    (find_node_start blake3_hash random (RoutingTable_new inst id) id key, false)) as Hrun.
  { unfold find_node_run, find_node_start. rewrite Hc. by destruct (qc_max_iterations config). }
  split_and!; [|by rewrite Hrun| |done].
  - unfold find_node. destruct (expired 0%nat); [done|]. by rewrite Hrun.
  - unfold query_add_provider, announce_targets. by rewrite Hc.
Qed.

(** Marking every bucket leaves none that is due. *)
Lemma mark_all_refreshed inst t k :
  length (rt_buckets t) = 256%nat → (k ≤ 256)%nat →
  rt_buckets (foldl (RoutingTable_mark_bucket_refreshed inst) t (seq 0 k)) =
    (KBucket_mark_refreshed inst <$> take k (rt_buckets t)) ++ drop k (rt_buckets t) ∧
  rt_refresh_interval (foldl (RoutingTable_mark_bucket_refreshed inst) t (seq 0 k)) = rt_refresh_interval t ∧
  rt_bootstrap_nodes (foldl (RoutingTable_mark_bucket_refreshed inst) t (seq 0 k)) = rt_bootstrap_nodes t ∧
  rt_local_id (foldl (RoutingTable_mark_bucket_refreshed inst) t (seq 0 k)) = rt_local_id t.
Proof.
  intros Hlen. induction k as [|k IH]; intros Hk; [done|].
  rewrite seq_S, foldl_app. destruct IH as (Hb & Hi & Hn & Hl); [lia|]. cbn.
  set (t1 := foldl _ _ _) in *. unfold RoutingTable_mark_bucket_refreshed.
  rewrite (proj2 (Nat.ltb_lt k 256)) by lia. cbn. split_and!; [|done..]. rewrite Hb.
  destruct (lookup_lt_is_Some_2 (rt_buckets t) k ltac:(lia)) as [b Hbk].
  rewrite (take_S_r _ _ _ Hbk), (drop_S _ _ _ Hbk), fmap_app. cbn.
  rewrite alter_app_r_alt by (rewrite length_fmap, length_take; lia).
  rewrite length_fmap, length_take, <- app_assoc. f_equal. cbn.
  by replace (k - k `min` length (rt_buckets t))%nat with 0%nat by lia.
Qed.

(** After a round of the refresh task every contact is alive and no bucket is due for another refresh;
    every contact that was alive stays, with the bootstrap nodes. *)
Theorem refresh_tick_spec inst n :
  rt_inv inst (dn_routing_table n) → 0 < rt_refresh_interval (dn_routing_table n) →
  let t := dn_routing_table n in
  let t' := dn_routing_table (refresh_tick inst n) in
  (∀ id, rt_lookup t' id = match rt_lookup t id with
     | Some c => if Contact_is_alive inst (rt_contact_timeout t) c then Some c else None
     | None => None
     end) ∧
  rt_bootstrap_nodes t' = rt_bootstrap_nodes t ∧ RoutingTable_buckets_needing_refresh inst t' = [].
Proof.
  intros Hi Hr t t'. set (t1 := (RoutingTable_remove_dead_contacts inst t).1).
  assert (rt_inv inst t1) as Hi1 by (apply (rt_inv_step False True (t, inst) (t1, inst)); [constructor|done]).
  destruct (mark_all_refreshed inst t1 256 (ri_len _ _ _ _ Hi1) (le_n _)) as (Hb & Hint & Hboot & Hloc).
  assert (t' = foldl (RoutingTable_mark_bucket_refreshed inst) t1 (seq 0 256)) as Ht'.
  { unfold t', refresh_tick, t1. cbn [dn_routing_table node_set_table]. reflexivity. }
  clearbody t'. rewrite <- Ht' in Hb, Hint, Hboot, Hloc. clear Ht'. rewrite take_ge, drop_ge, app_nil_r in Hb
    by (by rewrite (ri_len _ _ _ _ Hi1)).
  split_and!; [|by rewrite Hboot|].
  - intros id. rewrite <- (rt_lookup_remove_dead inst t id Hi). fold t1.
    unfold rt_lookup, RoutingTable_bucket_for, bucket_pos. rewrite Hb, Hloc, list_lookup_fmap.
    by destruct (rt_buckets t1 !! _).
  - unfold RoutingTable_buckets_needing_refresh. rewrite Hb, Hint. change (rt_refresh_interval t1) with (rt_refresh_interval t).
    match goal with |- fst <$> ?l = [] => assert (l = []) as ->; [|done] end.
    apply elem_of_nil_inv. intros [i b] [Hn Hin]%list_elem_of_filter.
    apply elem_of_lookup_imap_1 in Hin as (j & b' & [= -> ->] & Hl).
    apply list_lookup_fmap_Some in Hl as (b0 & -> & _).
    unfold KBucket_needs_refresh, elapsed in Hn. cbn in Hn. rewrite N.sub_diag in Hn.
    apply N.leb_le in Hn. fold t in Hr. lia.
Qed.

(** ** Three nodes *)

Section EndToEnd.
Context `{JC : JsonCodec} {JL : JsonCodecLaws JC} (random : NodeId) (show_sock : SocketAddr → string).

Notation frame_at := (handle_frame blake3_hash random show_sock).

(** C7. Content that one node announces is found by another through a third: the node [a] announces, the
    announcement it sends to a peer [b] reaches the handler there and is stored, and a node [c] that knows of no
    provider and has [b] among the three peers nearest to the key learns from [b]'s answer that [a] provides
    the content, at the address [a] gave. *)
Theorem provide_end_to_end (a c : DhtNode ST) hb key b record sender rid rid' frame query bytes
    wa ib wb ib' wb' wc answer :
  (b, record) ∈ (announce_content blake3_hash wa a key).2 →
  DhtCodec_encode (DhtMessageBuilder_add_provider sender rid (key_bytes key) (pr_provider_id record)
    [pr_provider_addr record] (pr_ttl_secs record)) = Ok frame →
  (∀ r, (put_provider (dh_store hb) key r).2 = true) →
  DhtCodec_encode (request_of KGetProviders (dc_local_id (dn_config c)) rid' key) = Ok query →
  (frame_at ib' wb' (frame_at ib wb hb frame).1 query).2 = Some bytes →
  wb + default_ttl ≤ u64_max → wb' ≤ wb + default_ttl →
  answer b = read_response KGetProviders (Ok bytes) →
  (get_providers wc (dn_store c) key).2 = [] → dn_sender c ≠ None →
  b ∈ c_id <$> take 3 (RoutingTable_closest (dn_routing_table c) (node_key_to_node_id blake3_hash c key) 20) →
  ∃ r, r ∈ (find_providers blake3_hash wc answer c key).1.2 ∧
    pr_provider_id r = dc_local_id (dn_config a) ∧ pr_provider_addr r = node_local_addr a.
Proof.
  intros Hsent Hframe Hput Hquery Hbytes Hov Hl Hans Hnone Hs Hb.
  assert (record = ProviderRecord_new wa key (dc_local_id (dn_config a)) (node_local_addr a)) as ->.
  { unfold announce_content in Hsent. destruct (dn_sender _); [|by apply elem_of_nil in Hsent].
    apply list_elem_of_fmap in Hsent as (? & [= _ ->] & _). done. }
  destruct key as [kb].
  set (r0 := mkProviderRecord (mkDhtKey kb) (dc_local_id (dn_config a)) (node_local_addr a) default_ttl wb None).
  assert (live wb' r0) as Hlive.
  { unfold live, ProviderRecord_is_expired, sat_add, r0. simpl. apply N.ltb_ge. lia. }
  destruct (handle_frame_reply _ _ _ _ _ _ _ _ _ Hquery Hbytes) as (resp & Hresp & Hd & _). cbn in Hresp.
  injection Hresp as <-.
  assert (dh_store (frame_at ib wb hb frame).1 = (put_provider (dh_store hb) (mkDhtKey kb) r0).1) as Hst.
  { unfold handle_frame. rewrite (codec_roundtrip _ _ Hframe), handle_message_eq. done. }
  rewrite Hst in Hd. destruct (law_put_get _ _ r0 wb' (Hput r0) Hlive) as (r' & Hr' & Hsame).
  exists (remote_record wc (mkDhtKey kb) (provider_wire r')). split.
  - destruct (find_providers blake3_hash wc answer c (mkDhtKey kb)) as [[c' l] asked] eqn:Hf. cbn.
    unfold find_providers in Hf. destruct (get_providers wc (dn_store c) (mkDhtKey kb)) as [s known]. cbn in Hnone. subst known.
    cbn in Hf. destruct (dn_sender c); [|done]. cbn in Hf. rewrite collect_answers in Hf.
    destruct (foldl _ _ _) as [s' l'] eqn:Hfold. injection Hf as <- <- <-.
    apply (f_equal snd) in Hfold. rewrite collect_remote_fold in Hfold. cbn in Hfold. subst l'.
    apply list_elem_of_fmap_2, list_elem_of_bind. exists (answer b). split; [|by apply list_elem_of_fmap_2].
    rewrite Hans. unfold read_response. rewrite Hd. cbn. by apply list_elem_of_fmap_2.
  - unfold remote_record. cbn. split.
    + by apply (f_equal pr_provider_id) in Hsame.
    + by apply (f_equal pr_provider_addr) in Hsame.
Qed.
End EndToEnd.
End NodeTheorems.

(** ** Witnesses *)

Definition ex_sender : option DhtNetworkSender := Some (with_policy ex_local RetryPolicy_default).

(** A node with the identifier of byte [b] that knows the node of byte 2. *)
Definition ex_node (b : N) : DhtNode InMemoryDhtStore :=
  attach_sender (node_set_table (DhtNode_with_id 0 (id_of_byte b))
    (RoutingTable_insert (RoutingTable_new 0 (id_of_byte b)) (ex_contact 2)).1) ex_sender.

Lemma announce_then_find_witness :
  ∃ n2 l r, find_providers ex_blake3 10 (λ _, Err Timeout) (announce_content ex_blake3 5 (ex_node 1) ex_key).1 ex_key =
      (n2, l, []) ∧ r ∈ l ∧ pr_provider_id r = id_of_byte 1 ∧ pr_provider_addr r = "/ip4/127.0.0.1/tcp/0".
Proof.
  refine (proj1 (announce_then_find ex_blake3 5 (ex_node 1) ex_key 10 (λ _, Err Timeout) _ _ _ _));
    [reflexivity|reflexivity|vm_compute; discriminate..].
Defined.

Definition ex_wire_provider : ProviderRecordWire := mkProviderRecordWire (id_of_byte 3) ["x"] 60 None.
Definition ex_provider_answer (_ : NodeId) : result QueryError Payload := Ok (ProvidersPayload "r" [ex_wire_provider]).
Definition ex_found : DhtNode InMemoryDhtStore * list ProviderRecord * list NodeId :=
  find_providers ex_blake3 5 ex_provider_answer (ex_node 1) ex_key.

Lemma find_providers_spec_witness :
  ex_found.2 = [id_of_byte 2] ∧ ex_found.1.2 = [remote_record 5 ex_key ex_wire_provider] ∧
  dn_routing_table ex_found.1.1 = dn_routing_table (ex_node 1).
Proof.
  split; [vm_compute; reflexivity|]. split; [vm_compute; reflexivity|].
  apply (find_providers_spec ex_blake3 5 ex_provider_answer (ex_node 1) ex_key ex_found.1.1 ex_found.1.2 ex_found.2).
  unfold ex_found. by destruct (find_providers _ _ _ _ _) as [[]].
Defined.

Lemma find_providers_caches_witness :
  ∃ n2 l2 r', find_providers ex_blake3 9 (λ _, Err Timeout) ex_found.1.1 ex_key = (n2, l2, []) ∧ r' ∈ l2 ∧
    same_unsigned r' (remote_record 5 ex_key ex_wire_provider).
Proof.
  pose proof (find_providers_caches ex_blake3 5 ex_provider_answer (ex_node 1) ex_key 9 (λ _, Err Timeout)) as H.
  fold ex_found in H. rewrite (surjective_pairing ex_found), (surjective_pairing ex_found.1) in H.
  apply (H []); [vm_compute; reflexivity|vm_compute; discriminate|vm_compute; reflexivity|reflexivity].
Defined.

Lemma node_query_knows_nobody_witness :
  num_peers (ex_node 1) = 1%nat ∧
  (query_add_provider ex_blake3 ex_local 5 InMemoryDhtStore_new
     (default ex_table (DhtNode_query 0 (ex_node 1)).2) (id_of_byte 1) ex_key "a").2 = [].
Proof.
  split; [vm_compute; reflexivity|].
  refine (proj1 (proj2 (proj2 (node_query_knows_nobody ex_blake3 0 (ex_node 1) (DhtNode_query 0 (ex_node 1)).1
    (RoutingTable_new 0 (id_of_byte 1)) ex_local (λ _, None) (λ _, EmptyString) 0 QueryConfig_default (λ _, false)
    (ex_reply []) ex_key 5 "a" _ _)))); reflexivity.
Defined.

Lemma refresh_tick_spec_witness :
  RoutingTable_buckets_needing_refresh 1000000000000 (dn_routing_table (refresh_tick 1000000000000 (ex_node 1))) = [].
Proof.
  refine (proj2 (proj2 (refresh_tick_spec 1000000000000 (ex_node 1) _ _))); [|vm_compute; reflexivity].
  apply (rt_inv_step False True (dn_routing_table (ex_node 1), 0) (dn_routing_table (ex_node 1), 1000000000000));
    [constructor; vm_compute; discriminate|].
  apply rt_inv_insert; [reflexivity|]. apply rt_inv_new.
Defined.

Definition ex_stored : ProviderRecordWire := mkProviderRecordWire (id_of_byte 1) ["/ip4/127.0.0.1/tcp/0"] default_ttl None.
Definition ex_net : JsonCodec :=
  table_codec [AddProvider (key_bytes ex_key) ex_stored "p" (id_of_byte 1);
               GetProviders (key_bytes ex_key) "q" (id_of_byte 4); Providers "q" [ex_stored]].

Lemma provide_end_to_end_witness :
  ∃ r, r ∈ (find_providers ex_blake3 7 (λ _, read_response (JC := ex_net) KGetProviders (Ok [2])) (ex_node 4) ex_key).1.2 ∧
    pr_provider_id r = id_of_byte 1 ∧ pr_provider_addr r = "/ip4/127.0.0.1/tcp/0".
Proof.
  apply (provide_end_to_end (JC := ex_net) ex_blake3 ex_local ex_sock (ex_node 1) (ex_node 4) ex_handler ex_key
    (id_of_byte 2) (ProviderRecord_new 5 ex_key (id_of_byte 1) "/ip4/127.0.0.1/tcp/0") (id_of_byte 1) "p" "q" [0] [1] [2]
    5 0 5 0 6 7).
  - vm_compute. left.
  - vm_compute. reflexivity.
  - reflexivity.
  - vm_compute. reflexivity.
  - vm_compute. reflexivity.
  - vm_compute. discriminate.
  - vm_compute. discriminate.
  - reflexivity.
  - vm_compute. reflexivity.
  - discriminate.
  - vm_compute. left.
Defined.
