(* ===== verification/CircuitBreaker.v ===== *)
(** * The circuit breaker ([crates/a3net-resilience/src/circuit_breaker.rs])

    The state behind the lock is [Inner]; each method takes the write lock for
    its whole body, so it is one transition, at the time [now] it reads. Runs of
    the breaker are the relation [cb_reachable]. Counters are [u32]; the
    invariant keeps them within their thresholds, so their additions do not
    overflow. *)
From stdpp Require Import prelude list.
From Stdlib Require Import NArith Lia.
From S2P Require Import Prelude.

#[local] Open Scope N_scope.

Inductive CircuitState : Type := Closed | Open | HalfOpen.

#[global] Instance CircuitState_eq_dec : EqDecision CircuitState.
Proof. solve_decision. Defined.

Record CircuitBreakerConfig : Type := mkCircuitBreakerConfig {
  cbc_failure_threshold : N;
  cbc_timeout : N;
  cbc_success_threshold : N;
  cbc_window_duration : N
}.

(** Durations in nanoseconds. *)
Definition CircuitBreakerConfig_default : CircuitBreakerConfig :=
  {| cbc_failure_threshold := 5; cbc_timeout := 60 * 1000000000; cbc_success_threshold := 2;
     cbc_window_duration := 30 * 1000000000 |}.

Record Inner : Type := mkInner {
  in_state : CircuitState;
  in_failures : N;
  in_successes : N;
  in_window_start : N;
  in_opened_at : option N
}.

Definition Inner_new (now : N) : Inner := mkInner Closed 0 0 now None.

Section Breaker.
Context (cfg : CircuitBreakerConfig).

Definition allow_request (now : N) (g : Inner) : Inner * bool :=
  match in_state g with
  | Closed => (g, true)
  | Open =>
      let e := match in_opened_at g with Some t => elapsed now t | None => 0 end in
      if cbc_timeout cfg <=? e
      then (mkInner HalfOpen (in_failures g) 0 (in_window_start g) (in_opened_at g), true)
      else (g, false)
  | HalfOpen => (g, in_successes g =? 0)
  end.

Definition record_success (now : N) (g : Inner) : Inner :=
  match in_state g with
  | HalfOpen =>
      let s := in_successes g + 1 in
      if cbc_success_threshold cfg <=? s
      then mkInner Closed 0 s (in_window_start g) None
      else mkInner HalfOpen (in_failures g) s (in_window_start g) (in_opened_at g)
  | Closed => mkInner Closed 0 (in_successes g) now (in_opened_at g)
  | Open => g
  end.

Definition record_failure (now : N) (g : Inner) : Inner :=
  match in_state g with
  | Closed =>
      let fresh := cbc_window_duration cfg <? elapsed now (in_window_start g) in
      let failures := (if fresh then 0 else in_failures g) + 1 in
      let window_start := if fresh then now else in_window_start g in
      if cbc_failure_threshold cfg <=? failures
      then mkInner Open failures (in_successes g) window_start (Some now)
      else mkInner Closed failures (in_successes g) window_start (in_opened_at g)
  | HalfOpen => mkInner Open (in_failures g) (in_successes g) (in_window_start g) (Some now)
  | Open => g
  end.

(** ** Runs *)

Inductive CbEvent : Type := EvAllow | EvSuccess | EvFailure.

Definition cb_step (now : N) (ev : CbEvent) (g : Inner) : Inner :=
  match ev with
  | EvAllow => (allow_request now g).1
  | EvSuccess => record_success now g
  | EvFailure => record_failure now g
  end.

(** [cb_reachable now g]: some run of calls, in any order and at nondecreasing
    times up to [now], leads to [g]. *)
Inductive cb_reachable : N → Inner → Prop :=
| reach_new now : cb_reachable now (Inner_new now)
| reach_step now now' ev g : cb_reachable now g → now ≤ now' → cb_reachable now' (cb_step now' ev g).

(** ** Invariant *)

Record cb_inv (now : N) (g : Inner) : Prop := {
  ci_window : in_window_start g ≤ now;
  ci_closed : in_state g = Closed → in_failures g < N.max 1 (cbc_failure_threshold cfg) ∧ in_opened_at g = None;
  ci_open : in_state g ≠ Closed → ∃ t, in_opened_at g = Some t ∧ t ≤ now;
  ci_half : in_state g = HalfOpen → in_successes g < N.max 1 (cbc_success_threshold cfg);
  ci_failures : in_failures g ≤ N.max 1 (cbc_failure_threshold cfg);
  ci_successes : in_successes g ≤ N.max 1 (cbc_success_threshold cfg)
}.

Lemma cb_inv_later now now' g : now ≤ now' → cb_inv now g → cb_inv now' g.
Proof. intros Hl [H1 H2 H3 H4 H5 H6]. split; try done; [lia|]. intros Hn. destruct (H3 Hn) as (t & ? & ?). exists t. split; [done|lia]. Qed.

Lemma cb_inv_step now ev g : cb_inv now g → cb_inv now (cb_step now ev g).
Proof.
  intros [H1 H2 H3 H4 H5 H6]. destruct g as [st f s w o]; simpl in *.
  destruct ev; unfold cb_step, allow_request, record_success, record_failure; simpl; destruct st; simpl.
  all: repeat case_match; nprop.
  all: split; simpl in *; try done; try lia; try naive_solver lia.
Qed.

Lemma cb_reachable_inv now g : cb_reachable now g → cb_inv now g.
Proof.
  induction 1 as [now|now now' ev g _ IH Hl].
  - split; simpl; try done; try lia. intros _. split; [lia|done].
  - by apply cb_inv_step, (cb_inv_later now).
Qed.

(** State machine of the breaker: in every reachable state, the failure and
    success counters are within their thresholds (so neither [u32] overflows),
    the breaker has an opening time exactly when it is not closed, and a request
    is refused while the breaker is open for less than its timeout, without
    changing the state. *)
Theorem breaker_invariant now g :
  cb_reachable now g →
  in_failures g ≤ N.max 1 (cbc_failure_threshold cfg) ∧
  in_successes g ≤ N.max 1 (cbc_success_threshold cfg) ∧
  (in_state g = Closed ↔ in_opened_at g = None) ∧
  (in_state g = Closed → in_failures g < N.max 1 (cbc_failure_threshold cfg) ∧ allow_request now g = (g, true)) ∧
  (∀ t, in_state g = Open → in_opened_at g = Some t → now < t + cbc_timeout cfg →
     allow_request now g = (g, false)) ∧
  (∀ t, in_state g = Open → in_opened_at g = Some t → t + cbc_timeout cfg ≤ now →
     (allow_request now g).2 = true ∧ in_state (allow_request now g).1 = HalfOpen).
Proof.
  intros Hr%cb_reachable_inv. destruct Hr as [H1 H2 H3 H4 H5 H6]. split_and!; [done|done| | | |].
  - split; [naive_solver|]. intros Hn. destruct (decide (in_state g = Closed)) as [|Hc]; [done|].
    destruct (H3 Hc) as (t & Ht & _). congruence.
  - intros Hc. split; [by apply H2|]. unfold allow_request. by rewrite Hc.
  - intros t Ho Ht Hlt. assert (t ≤ now) by (destruct H3 as (t' & ? & ?); [by rewrite Ho|]; congruence).
    unfold allow_request. rewrite Ho, Ht.
    unfold elapsed. by ncase.
  - intros t Ho Ht Hle. unfold allow_request. rewrite Ho, Ht.
    unfold elapsed. by ncase.
Qed.

(** *** Tripping *)

(** Failures recorded at the given times. *)
Definition fail_at (g : Inner) (times : list N) : Inner := foldl (λ g t, record_failure t g) g times.

Lemma fail_at_open g times : in_state g = Open → fail_at g times = g.
Proof.
  intros Ho. induction times as [|t times IH]; [done|]. simpl. unfold record_failure. by rewrite Ho.
Qed.

(** Tripping: from a closed breaker, failures inside the window and with no
    success in between open the breaker exactly when, with those already
    counted, they reach the threshold; before that the breaker stays closed and
    counts them. *)
Theorem breaker_trips (times : list N) g :
  in_state g = Closed → in_failures g < cbc_failure_threshold cfg →
  Forall (λ t, t ≤ in_window_start g + cbc_window_duration cfg) times →
  let n := in_failures g + N.of_nat (length times) in
  (n < cbc_failure_threshold cfg →
     in_state (fail_at g times) = Closed ∧ in_failures (fail_at g times) = n) ∧
  (cbc_failure_threshold cfg ≤ n → in_state (fail_at g times) = Open).
Proof.
  revert g. induction times as [|t times IH]; intros g Hc Hf HF n; subst n.
  { simpl. rewrite N.add_0_r. split; [done|lia]. }
  apply Forall_cons in HF as [Ht HF]. cbn [fail_at foldl].
  fold (fail_at (record_failure t g) times).
  assert (Hstep : record_failure t g =
    if cbc_failure_threshold cfg <=? in_failures g + 1
    then mkInner Open (in_failures g + 1) (in_successes g) (in_window_start g) (Some t)
    else mkInner Closed (in_failures g + 1) (in_successes g) (in_window_start g) (in_opened_at g)).
  { unfold record_failure. rewrite Hc.
    unfold elapsed. by repeat ncase. }
  rewrite Hstep. cbn [length]. ncase.
  - rewrite fail_at_open by done. split; [lia|done].
  - edestruct (IH (mkInner Closed (in_failures g + 1) (in_successes g) (in_window_start g) (in_opened_at g)))
      as [IH1 IH2]; [done|done|done|]. simpl in *. split; intros; [destruct IH1 as [-> ->]|apply IH2]; lia || split; lia || done.
Qed.

(** *** The half-open state *)

(** Half-open: a failure re-opens the breaker and restarts its timeout; a
    success closes it when the threshold is reached. Until the first success
    every caller is admitted. After a success that does not reach the threshold
    no request is ever admitted again, at any time: the state is a trap unless a
    caller records an outcome for a request that was refused. *)
Theorem half_open_behaviour now g :
  in_state g = HalfOpen →
  (in_state (record_failure now g) = Open ∧ in_opened_at (record_failure now g) = Some now) ∧
  (cbc_success_threshold cfg ≤ in_successes g + 1 → in_state (record_success now g) = Closed) ∧
  (in_successes g = 0 → allow_request now g = (g, true)) ∧
  (0 < in_successes g → ∀ times, foldl (λ g t, (allow_request t g).1) g times = g ∧
     Forall (λ t, (allow_request t g).2 = false) times) ∧
  (in_successes g + 1 < cbc_success_threshold cfg →
     in_state (record_success now g) = HalfOpen ∧ 0 < in_successes (record_success now g)).
Proof.
  intros Hh. unfold record_failure, record_success. rewrite Hh. split_and!; try done.
  - intros Hle. by ncase.
  - intros H0. unfold allow_request. by rewrite Hh, H0.
  - intros Hs times.
    assert (Hno : ∀ t, allow_request t g = (g, false)).
    { intros t. unfold allow_request. rewrite Hh. by ncase. }
    split; [induction times as [|t times IH]; [done|]; simpl; by rewrite Hno|].
    apply Forall_forall. intros t _. by rewrite Hno.
  - intros Hlt. ncase. simpl. split; [done|lia].
Qed.
End Breaker.

(** ** Witnesses *)

Definition ex_open : Inner :=
  fail_at CircuitBreakerConfig_default (Inner_new 0) [1; 2; 3; 4; 5].

Lemma ex_open_reachable : cb_reachable CircuitBreakerConfig_default 5 ex_open.
Proof.
  apply (reach_step _ 4 5 EvFailure (fail_at CircuitBreakerConfig_default (Inner_new 0) [1; 2; 3; 4])); [|done].
  apply (reach_step _ 3 4 EvFailure (fail_at CircuitBreakerConfig_default (Inner_new 0) [1; 2; 3])); [|done].
  apply (reach_step _ 2 3 EvFailure (fail_at CircuitBreakerConfig_default (Inner_new 0) [1; 2])); [|done].
  apply (reach_step _ 1 2 EvFailure (fail_at CircuitBreakerConfig_default (Inner_new 0) [1])); [|done].
  apply (reach_step _ 0 1 EvFailure (Inner_new 0)); [apply reach_new|done].
Qed.

Lemma breaker_invariant_witness : allow_request CircuitBreakerConfig_default 5 ex_open = (ex_open, false).
Proof.
  destruct (breaker_invariant CircuitBreakerConfig_default 5 ex_open ex_open_reachable)
    as (_ & _ & _ & _ & H & _).
  apply (H 5); vm_compute; reflexivity.
Defined.

Lemma breaker_trips_witness :
  in_state (fail_at CircuitBreakerConfig_default (Inner_new 0) [1; 2; 3; 4; 5]) = Open.
Proof.
  apply (breaker_trips CircuitBreakerConfig_default [1; 2; 3; 4; 5] (Inner_new 0)).
  - reflexivity.
  - reflexivity.
  - repeat constructor; vm_compute; discriminate.
  - vm_compute. discriminate.
Defined.

(** With the default configuration, one successful probe traps the breaker. *)
Definition ex_half : Inner :=
  record_success CircuitBreakerConfig_default 70000000000
    (allow_request CircuitBreakerConfig_default 70000000000 ex_open).1.

Lemma half_open_behaviour_witness :
  in_state ex_half = HalfOpen ∧ ∀ times,
    foldl (λ g t, (allow_request CircuitBreakerConfig_default t g).1) ex_half times = ex_half.
Proof.
  split; [vm_compute; reflexivity|]. intros times.
  assert (Hh : in_state ex_half = HalfOpen) by (vm_compute; reflexivity).
  destruct (half_open_behaviour CircuitBreakerConfig_default 0 ex_half Hh) as (_ & _ & _ & H & _).
  apply H. vm_compute. reflexivity.
Defined.
