(* ===== verification/Limiter.v ===== *)
(** * Resource limiter ([crates/a3net-resilience/src/resource.rs])

    The limiter bounds concurrent work with one semaphore for the node and one for
    each key. The semaphores of [tokio] are the class [Semaphores]; an [Arc] of one
    is its index in the store [lim_sems]. A call of [try_acquire] or [acquire] and
    the drop of its permit are sequences of steps, each with one access to a
    semaphore or the table of keys (a counter moves with the step next to it), and
    the tasks of a world ([World]) interleave over them ([limiter_step]):
    [PLookup] is about to look its key up, [PKey] and [PGlobal] ask for a permit,
    [PLate] is before the late cancellation check, [PHeld] has the permit and
    [PHalf] has released the key but not yet the node. A step of [acquire] that
    cannot proceed is not enabled; a timeout or a fired token can end the wait.

    The theorems show that no permit is lost or made up, that the node's limit
    holds in every reachable state, the limits of the keys as long as no key is
    reaped, and how reaping a key breaks its limit. *)
From stdpp Require Import prelude strings gmap list.
From Stdlib Require Import NArith Lia.
From S2P Require Import Prelude.

#[local] Open Scope nat_scope.

(** ** Semaphores *)

Class Semaphores : Type := {
  sem : Type;
  sem_new : nat → sem;
  sem_available : sem → nat;
  sem_try : sem → option sem;
  sem_release : sem → sem
}.

(** Documented behaviour: a permit is taken when one is available. *)
Class SemaphoreLaws (SM : Semaphores) : Prop := {
  sem_available_new n : sem_available (sem_new n) = n;
  sem_try_none s : sem_try s = None ↔ sem_available s = 0;
  sem_try_some s s' : sem_try s = Some s' → sem_available s = S (sem_available s');
  sem_available_release s : sem_available (sem_release s) = S (sem_available s)
}.

#[export] Instance counting : Semaphores := {|
  sem := nat; sem_new n := n; sem_available s := s;
  sem_try s := match s with O => None | S s => Some s end; sem_release := S
|}.
#[export] Instance counting_laws : SemaphoreLaws counting.
Proof. split; [done|by intros [|s]|by intros [|s] s' [= <-]|done]. Qed.

Section Limiter.
Context `{SemaphoreLaws}.

(** ** The limiter *)

Record LimiterMetrics : Type := mkLimiterMetrics {
  lm_acquired : N; lm_rejected_key : N; lm_rejected_global : N; lm_try_rejected : N;
  lm_cancelled : N; lm_released : N; lm_waiting : N
}.
Definition LimiterMetrics_default : LimiterMetrics := mkLimiterMetrics 0 0 0 0 0 0 0.

(** The counters are [AtomicU64]. *)
Definition add64 (a b : N) : N := ((a + b) mod 2 ^ 64)%N.
Definition sub64 (a b : N) : N := ((a + 2 ^ 64 - b) mod 2 ^ 64)%N.

(** [total_rejected]; the sum wraps in a release build. *)
Definition total_rejected (m : LimiterMetrics) : N := add64 (add64 (lm_rejected_key m) (lm_rejected_global m)) (lm_try_rejected m).

Definition count_acquired (m : LimiterMetrics) : LimiterMetrics :=
  mkLimiterMetrics (add64 (lm_acquired m) 1) (lm_rejected_key m) (lm_rejected_global m) (lm_try_rejected m) (lm_cancelled m) (lm_released m) (lm_waiting m).
Definition count_try_rejected (m : LimiterMetrics) : LimiterMetrics :=
  mkLimiterMetrics (lm_acquired m) (lm_rejected_key m) (lm_rejected_global m) (add64 (lm_try_rejected m) 1) (lm_cancelled m) (lm_released m) (lm_waiting m).
Definition count_cancelled (m : LimiterMetrics) : LimiterMetrics :=
  mkLimiterMetrics (lm_acquired m) (lm_rejected_key m) (lm_rejected_global m) (lm_try_rejected m) (add64 (lm_cancelled m) 1) (lm_released m) (lm_waiting m).
Definition count_released (m : LimiterMetrics) : LimiterMetrics :=
  mkLimiterMetrics (lm_acquired m) (lm_rejected_key m) (lm_rejected_global m) (lm_try_rejected m) (lm_cancelled m) (add64 (lm_released m) 1) (lm_waiting m).
Definition set_waiting (w : N) (m : LimiterMetrics) : LimiterMetrics :=
  mkLimiterMetrics (lm_acquired m) (lm_rejected_key m) (lm_rejected_global m) (lm_try_rejected m) (lm_cancelled m) (lm_released m) w.

Record ResourceConfig : Type := mkResourceConfig { rc_global_limit : nat; rc_per_key_limit : nat; rc_acquire_timeout : N }.
Definition ResourceConfig_default : ResourceConfig := mkResourceConfig 256 16 5000000000.
Definition default_peer_config : ResourceConfig := mkResourceConfig 256 16 5000000000.
Definition default_room_config : ResourceConfig := mkResourceConfig 64 32 5000000000.
Definition default_tag_config : ResourceConfig := mkResourceConfig 512 64 5000000000.

Record ResourceLimiter : Type := mkResourceLimiter {
  lim_cfg : ResourceConfig;
  lim_global : sem;
  lim_keys : gmap string nat;
  lim_sems : list sem;
  lim_metrics : LimiterMetrics
}.

Definition ResourceLimiter_new (cfg : ResourceConfig) : ResourceLimiter :=
  mkResourceLimiter cfg (sem_new (rc_global_limit cfg)) ∅ [] LimiterMetrics_default.

Definition set_global_sem (l : ResourceLimiter) (s : sem) : ResourceLimiter :=
  mkResourceLimiter (lim_cfg l) s (lim_keys l) (lim_sems l) (lim_metrics l).
Definition set_key_sems (l : ResourceLimiter) (keys : gmap string nat) (sems : list sem) : ResourceLimiter :=
  mkResourceLimiter (lim_cfg l) (lim_global l) keys sems (lim_metrics l).
Definition on_metrics (f : LimiterMetrics → LimiterMetrics) (l : ResourceLimiter) : ResourceLimiter :=
  mkResourceLimiter (lim_cfg l) (lim_global l) (lim_keys l) (lim_sems l) (f (lim_metrics l)).

Definition global_available (l : ResourceLimiter) : nat := sem_available (lim_global l).

(** [None] is [usize::MAX]. *)
Definition key_available (l : ResourceLimiter) (key : string) : option nat :=
  if Nat.eqb (rc_per_key_limit (lim_cfg l)) 0 then None
  else Some (default (rc_per_key_limit (lim_cfg l)) (sid ← lim_keys l !! key; s ← lim_sems l !! sid; Some (sem_available s))).
Definition tracked_keys (l : ResourceLimiter) : nat := size (lim_keys l).

Definition key_semaphore (l : ResourceLimiter) (key : string) : ResourceLimiter * option nat :=
  if Nat.eqb (rc_per_key_limit (lim_cfg l)) 0 then (l, None)
  else match lim_keys l !! key with
       | Some sid => (l, Some sid)
       | None =>
           let sid := length (lim_sems l) in
           (set_key_sems l (<[key := sid]> (lim_keys l)) (lim_sems l ++ [sem_new (rc_per_key_limit (lim_cfg l))]), Some sid)
       end.

Definition reap_key (l : ResourceLimiter) (key : string) : ResourceLimiter :=
  if Nat.eqb (rc_per_key_limit (lim_cfg l)) 0 then l
  else match sid ← lim_keys l !! key; lim_sems l !! sid with
       | Some s => if Nat.eqb (sem_available s) (rc_per_key_limit (lim_cfg l))
                   then set_key_sems l (delete key (lim_keys l)) (lim_sems l) else l
       | None => l
       end.

(** Permits of the key and of the node. *)
Definition take_key (l : ResourceLimiter) (sid : nat) : option ResourceLimiter :=
  s ← lim_sems l !! sid; s' ← sem_try s; Some (set_key_sems l (lim_keys l) (<[sid := s']> (lim_sems l))).
Definition give_key (l : ResourceLimiter) (o : option nat) : ResourceLimiter :=
  match o with Some sid => set_key_sems l (lim_keys l) (alter sem_release sid (lim_sems l)) | None => l end.
Definition take_global (l : ResourceLimiter) : option ResourceLimiter := s ← sem_try (lim_global l); Some (set_global_sem l s).
Definition give_global (l : ResourceLimiter) : ResourceLimiter := set_global_sem l (sem_release (lim_global l)).

(** ** Tasks *)

Inductive AcquireError : Type := Timeout | Exhausted | Cancelled | SemaphoreClosed.

(** [try_acquire], or [acquire] with its token. *)
Inductive CallKind : Type := CTry | CWait (token : option nat).

Inductive CallEnd : Type := Rejected | Failed (e : AcquireError) | Dropped.

Inductive LimPhase : Type :=
| PLookup (c : CallKind) (key : string)
| PKey (c : CallKind) (key : string) (sid : nat)
| PGlobal (c : CallKind) (key : string) (held : option nat)
| PLate (token : option nat) (key : string) (held : option nat)
| PHeld (key : string) (held : option nat)
| PHalf (key : string) (r : CallEnd)
| PEnd (r : CallEnd).

Record World : Type := mkWorld { wd_limiter : ResourceLimiter; wd_tasks : gmap nat LimPhase; wd_fired : gset nat }.

Definition World_new (cfg : ResourceConfig) : World := mkWorld (ResourceLimiter_new cfg) ∅ ∅.

Inductive LimEvent : Type :=
| EvStart (tid : nat) (c : CallKind) (key : string)
| EvLookup (tid : nat)
| EvKey (tid : nat)
| EvGlobal (tid : nat)
| EvLate (tid : nat)
| EvTimeout (tid : nat)
| EvCancelled (tid : nat)
| EvDrop (tid : nat)
| EvDropGlobal (tid : nat)
| EvFire (token : nat)
| EvReap (key : string).

Definition put (w : World) (l : ResourceLimiter) (tid : nat) (p : LimPhase) : World :=
  mkWorld l (<[tid := p]> (wd_tasks w)) (wd_fired w).

Definition fired (w : World) (token : option nat) : bool :=
  match token with Some t => bool_decide (t ∈ wd_fired w) | None => false end.

Definition stop_waiting (l : ResourceLimiter) : ResourceLimiter := on_metrics (λ m, set_waiting (sub64 (lm_waiting m) 1) m) l.

(** The end of a wait without permits: the token is looked at once more. *)
Definition end_wait (w : World) (l : ResourceLimiter) (tid : nat) (token : option nat) (e : AcquireError) : World :=
  let l := stop_waiting l in
  if fired w token then put w (on_metrics count_cancelled l) tid (PEnd (Failed Cancelled)) else put w l tid (PEnd (Failed e)).

(** What a waiting task holds of its key. *)
Definition held_key (p : LimPhase) : option nat :=
  match p with PGlobal _ _ o | PLate _ _ o | PHeld _ o => o | _ => None end.

Definition waits_with (p : LimPhase) : option (option nat) :=
  match p with PLookup (CWait t) _ | PKey (CWait t) _ _ | PGlobal (CWait t) _ _ => Some t | _ => None end.

Definition limiter_step (w : World) (ev : LimEvent) : option World :=
  let l := wd_limiter w in
  match ev with
  | EvStart tid c key =>
      match wd_tasks w !! tid with
      | Some _ => None
      | None =>
          let l := match c with CWait _ => on_metrics (λ m, set_waiting (add64 (lm_waiting m) 1) m) l | CTry => l end in
          Some (put w l tid (if Nat.eqb (rc_per_key_limit (lim_cfg l)) 0 then PGlobal c key None else PLookup c key))
      end
  | EvLookup tid =>
      match wd_tasks w !! tid with
      | Some (PLookup c key) =>
          match key_semaphore l key with (l, Some sid) => Some (put w l tid (PKey c key sid)) | (_, None) => None end
      | _ => None
      end
  | EvKey tid =>
      match wd_tasks w !! tid with
      | Some (PKey c key sid) =>
          match take_key l sid, c with
          | Some l, _ => Some (put w l tid (PGlobal c key (Some sid)))
          | None, CTry => Some (put w (on_metrics count_try_rejected l) tid (PEnd Rejected))
          | None, CWait _ => None
          end
      | _ => None
      end
  | EvGlobal tid =>
      match wd_tasks w !! tid with
      | Some (PGlobal c key o) =>
          match take_global l, c with
          | Some l, CTry => Some (put w (on_metrics count_acquired l) tid (PHeld key o))
          | Some l, CWait t => Some (put w (stop_waiting l) tid (PLate t key o))
          | None, CTry => Some (put w (on_metrics count_try_rejected (give_key l o)) tid (PEnd Rejected))
          | None, CWait _ => None
          end
      | _ => None
      end
  | EvLate tid =>
      match wd_tasks w !! tid with
      | Some (PLate t key o) =>
          if fired w t
          then Some (put w (on_metrics count_cancelled (give_key l o)) tid (PHalf key (Failed Cancelled)))
          else Some (put w (on_metrics count_acquired l) tid (PHeld key o))
      | _ => None
      end
  | EvTimeout tid =>
      match wd_tasks w !! tid with
      | Some p => match p, waits_with p with
                  | PLookup _ _, _ | _, None => None
                  | _, Some t => Some (end_wait w (give_key l (held_key p)) tid t Timeout)
                  end
      | None => None
      end
  | EvCancelled tid =>
      match wd_tasks w !! tid with
      | Some p => match waits_with p with
                  | Some t => if fired w t then Some (end_wait w (give_key l (held_key p)) tid t Cancelled) else None
                  | None => None
                  end
      | None => None
      end
  | EvDrop tid =>
      match wd_tasks w !! tid with
      | Some (PHeld key o) => Some (put w (give_key (on_metrics count_released l) o) tid (PHalf key Dropped))
      | _ => None
      end
  | EvDropGlobal tid =>
      match wd_tasks w !! tid with
      | Some (PHalf key r) => Some (put w (give_global l) tid (PEnd r))
      | _ => None
      end
  | EvFire t => Some (mkWorld l (wd_tasks w) ({[t]} ∪ wd_fired w))
  | EvReap key => Some (mkWorld (reap_key l key) (wd_tasks w) (wd_fired w))
  end.

Fixpoint limiter_run (w : World) (evs : list LimEvent) : option World :=
  match evs with [] => Some w | ev :: evs => w' ← limiter_step w ev; limiter_run w' evs end.

(** ** Counting *)

Definition count (P : LimPhase → bool) (ts : gmap nat LimPhase) : nat := length (filter (λ e, P e.2 = true) (map_to_list ts)).

Lemma count_delete P ts tid q : ts !! tid = Some q → count P ts = Nat.b2n (P q) + count P (delete tid ts).
Proof.
  intros Hq. unfold count. rewrite <- (map_to_list_delete _ _ _ Hq), filter_cons. cbn [snd].
  destruct (P q); [by rewrite decide_True|by rewrite decide_False].
Qed.

Lemma count_insert P ts tid p : count P (<[tid := p]> ts) = Nat.b2n (P p) + count P (delete tid ts).
Proof. rewrite (count_delete P _ tid p) by apply lookup_insert_eq. by rewrite delete_insert_eq. Qed.

(** Changing one task moves a count by what it was and what it becomes. *)
Lemma count_put P ts tid p :
  count P (<[tid := p]> ts) + default 0 ((λ q, Nat.b2n (P q)) <$> ts !! tid) = count P ts + Nat.b2n (P p).
Proof.
  rewrite count_insert. destruct (ts !! tid) as [q|] eqn:Hq; cbn; [rewrite (count_delete P ts tid q) by done; lia|].
  rewrite delete_id by done. lia.
Qed.

Lemma count_empty P : count P ∅ = 0.
Proof. done. Qed.

Lemma count_zero P ts : map_Forall (λ _ p, P p = false) ts → count P ts = 0.
Proof.
  intros Hall. unfold count. rewrite filter_none; [done|]. intros [i p] Hi%elem_of_map_to_list. cbn. by rewrite (Hall i p Hi).
Qed.

Lemma count_mono (P Q : LimPhase → bool) ts : (∀ i p, ts !! i = Some p → P p = true → Q p = true) → count P ts ≤ count Q ts.
Proof.
  intros HPQ. unfold count. assert (∀ e, e ∈ map_to_list ts → P e.2 = true → Q e.2 = true) as Hl.
  { intros [i p] Hi%elem_of_map_to_list. by apply (HPQ i). }
  clear HPQ. induction (map_to_list ts) as [|e l IH]; [done|]. rewrite !filter_cons.
  specialize (IH (λ e' He', Hl e' (list_elem_of_further _ _ _ He'))). pose proof (Hl e (list_elem_of_here _ _)).
  repeat case_decide; cbn; naive_solver lia.
Qed.

(** Who holds what. *)
Definition holds_key (sid : nat) (p : LimPhase) : bool := bool_decide (held_key p = Some sid).
Definition holds_node (p : LimPhase) : bool := match p with PLate _ _ _ | PHeld _ _ | PHalf _ _ => true | _ => false end.
Definition is_waiting (p : LimPhase) : bool := match waits_with p with Some _ => true | None => false end.
Definition has_ended (p : LimPhase) : bool := match p with PEnd _ => true | _ => false end.
Definition has_permit (p : LimPhase) : bool := match p with PHeld _ _ => true | _ => false end.

(** The semaphore a phase refers to. *)
Definition refers (p : LimPhase) : option nat := match p with PKey _ _ sid => Some sid | _ => held_key p end.

(** *** The invariant: every permit is somewhere *)

Record world_ok (cfg : ResourceConfig) (w : World) : Prop := {
  wo_cfg : lim_cfg (wd_limiter w) = cfg;
  wo_node : sem_available (lim_global (wd_limiter w)) + count holds_node (wd_tasks w) = rc_global_limit cfg;
  wo_keys : ∀ sid s, lim_sems (wd_limiter w) !! sid = Some s → sem_available s + count (holds_key sid) (wd_tasks w) = rc_per_key_limit cfg;
  wo_refs : ∀ tid p sid, wd_tasks w !! tid = Some p → refers p = Some sid → sid < length (lim_sems (wd_limiter w));
  wo_index : ∀ key sid, lim_keys (wd_limiter w) !! key = Some sid → sid < length (lim_sems (wd_limiter w))
}.

Lemma world_ok_put cfg w l tid p :
  world_ok cfg w → lim_cfg l = lim_cfg (wd_limiter w) → lim_keys l = lim_keys (wd_limiter w) →
  length (lim_sems l) = length (lim_sems (wd_limiter w)) →
  sem_available (lim_global l) + Nat.b2n (holds_node p) =
    sem_available (lim_global (wd_limiter w)) + default 0 ((λ q, Nat.b2n (holds_node q)) <$> wd_tasks w !! tid) →
  (∀ sid s', lim_sems l !! sid = Some s' → ∃ s, lim_sems (wd_limiter w) !! sid = Some s ∧
     sem_available s' + Nat.b2n (holds_key sid p) =
       sem_available s + default 0 ((λ q, Nat.b2n (holds_key sid q)) <$> wd_tasks w !! tid)) →
  (∀ sid, refers p = Some sid → sid < length (lim_sems (wd_limiter w))) →
  world_ok cfg (put w l tid p).
Proof.
  intros [Hcfg Hnode Hkeys Hrefs Hix] Hc Hk Hlen Hg Hs Hr. split; unfold put; cbn [wd_limiter wd_tasks].
  - by rewrite Hc.
  - pose proof (count_put holds_node (wd_tasks w) tid p). lia.
  - intros sid s' Hs'. destruct (Hs sid s' Hs') as (s & Hs0 & Heq). pose proof (Hkeys sid s Hs0).
    pose proof (count_put (holds_key sid) (wd_tasks w) tid p). lia.
  - intros tid' p' sid. rewrite Hlen. destruct (decide (tid = tid')) as [<-|Hne].
    + rewrite lookup_insert_eq. intros [= <-]. apply Hr.
    + rewrite lookup_insert_ne by done. apply Hrefs.
  - intros key sid. rewrite Hk, Hlen. apply Hix.
Qed.

(** Steps that touch no semaphore. *)
Lemma world_ok_same cfg w f tid p :
  world_ok cfg w →
  (∀ P, P = holds_node ∨ (∃ sid, P = holds_key sid) → Nat.b2n (P p) = default 0 ((λ q, Nat.b2n (P q)) <$> wd_tasks w !! tid)) →
  (∀ sid, refers p = Some sid → sid < length (lim_sems (wd_limiter w))) →
  world_ok cfg (put w (on_metrics f (wd_limiter w)) tid p).
Proof.
  intros Hw Hp Hr. apply world_ok_put; try done.
  - cbn. rewrite (Hp holds_node) by (by left). done.
  - intros sid s Hs. exists s. split; [done|]. rewrite (Hp (holds_key sid)) by (right; by exists sid). done.
Qed.

Lemma on_metrics_id l : on_metrics id l = l.
Proof. by destruct l. Qed.

Lemma give_key_sems l o sid s' :
  lim_sems (give_key l o) !! sid = Some s' →
  ∃ s, lim_sems l !! sid = Some s ∧ sem_available s' = sem_available s + Nat.b2n (bool_decide (o = Some sid)).
Proof.
  destruct o as [sid0|]; cbn; [|intros Hs; exists s'; split; [done|]; rewrite bool_decide_false by done; cbn; lia]. destruct (decide (sid0 = sid)) as [->|Hne].
  - rewrite list_lookup_alter, decide_True by done. intros (s & Hs & ->)%fmap_Some. exists s. split; [done|].
    rewrite sem_available_release, bool_decide_true by done. cbn. lia.
  - rewrite list_lookup_alter_ne by done. intros Hs. exists s'. split; [done|]. rewrite bool_decide_false by congruence. cbn. lia.
Qed.

Lemma give_key_rest l o :
  lim_cfg (give_key l o) = lim_cfg l ∧ lim_keys (give_key l o) = lim_keys l ∧
  length (lim_sems (give_key l o)) = length (lim_sems l) ∧ lim_global (give_key l o) = lim_global l.
Proof. destruct o as [sid|]; cbn; [|done]. by rewrite length_alter. Qed.

(** A task that gives back what it held of its key and ends, or keeps the node's permit. *)
Lemma world_ok_give cfg w f tid q p :
  world_ok cfg w → wd_tasks w !! tid = Some q → held_key p = None → refers p = None → holds_node p = holds_node q →
  world_ok cfg (put w (on_metrics f (give_key (wd_limiter w) (held_key q))) tid p).
Proof.
  intros Hw Hq Hp Hr Hn. destruct (give_key_rest (wd_limiter w) (held_key q)) as (H1 & H2 & H3 & H4).
  apply world_ok_put; cbn; try done.
  - rewrite H4, Hq, Hn. done.
  - intros sid s' (s & Hs & Ha)%give_key_sems. exists s. split; [done|]. rewrite Hq. cbn. unfold holds_key. rewrite Hp, Ha.
    rewrite (bool_decide_false (None = Some sid)) by done. cbn. lia.
  - intros sid. by rewrite Hr.
Qed.

Lemma world_ok_end_wait cfg w tid q token e :
  world_ok cfg w → wd_tasks w !! tid = Some q → holds_node q = false →
  world_ok cfg (end_wait w (give_key (wd_limiter w) (held_key q)) tid token e).
Proof.
  intros Hw Hq Hn. unfold end_wait, stop_waiting. destruct (fired w token).
  - change (on_metrics count_cancelled (on_metrics ?f ?l)) with (on_metrics (λ m, count_cancelled (f m)) l).
    by eapply (world_ok_give _ _ (λ m, count_cancelled (set_waiting (sub64 (lm_waiting m) 1) m))).
  - by eapply (world_ok_give _ _ (λ m, set_waiting (sub64 (lm_waiting m) 1) m)).
Qed.

Lemma take_key_spec l sid l' :
  take_key l sid = Some l' →
  lim_cfg l' = lim_cfg l ∧ lim_keys l' = lim_keys l ∧ length (lim_sems l') = length (lim_sems l) ∧ lim_global l' = lim_global l ∧
  ∀ sid' s', lim_sems l' !! sid' = Some s' → ∃ s, lim_sems l !! sid' = Some s ∧
    sem_available s = sem_available s' + Nat.b2n (bool_decide (sid' = sid)).
Proof.
  unfold take_key. intros (s0 & Hs0 & (s1 & Hs1 & [= <-])%bind_Some)%bind_Some. cbn. rewrite length_insert. split_and!; try done.
  intros sid' s'. destruct (decide (sid = sid')) as [<-|Hne].
  - rewrite list_lookup_insert_eq by (by eapply lookup_lt_Some). intros [= <-]. exists s0. split; [done|].
    rewrite bool_decide_true by done. apply sem_try_some in Hs1. cbn. lia.
  - rewrite list_lookup_insert_ne by done. intros Hs'. exists s'. split; [done|]. rewrite bool_decide_false by congruence. cbn. lia.
Qed.

Lemma world_ok_lookup cfg w tid c key l sid :
  world_ok cfg w → wd_tasks w !! tid = Some (PLookup c key) → key_semaphore (wd_limiter w) key = (l, Some sid) →
  world_ok cfg (put w l tid (PKey c key sid)).
Proof.
  intros Hw Hq Hk. assert (world_ok cfg (mkWorld l (wd_tasks w) (wd_fired w)) ∧ sid < length (lim_sems l)) as [Hl Hsid].
  { unfold key_semaphore in Hk. destruct Hw as [Hcfg Hnode Hkeys Hrefs Hix]. destruct (Nat.eqb _ 0); [done|].
    destruct (lim_keys (wd_limiter w) !! key) as [sid'|] eqn:Hkey; injection Hk as <- <-; [split; [done|by eapply Hix]|].
    split; [|cbn; rewrite length_app; cbn; lia]. split; cbn; [done|done| | |].
    - intros sid' s [Hs|[Hs Hs']]%lookup_app_Some; [by apply Hkeys|]. apply list_lookup_singleton_Some in Hs' as [He <-].
      rewrite sem_available_new, Hcfg. rewrite count_zero; [lia|]. intros tid' p Hp. unfold holds_key.
      apply bool_decide_eq_false. intros Hheld. assert (refers p = Some sid') as Hr by (by destruct p). pose proof (Hrefs _ _ _ Hp Hr). lia.
    - intros tid' p sid' Hp Hr. rewrite length_app. pose proof (Hrefs _ _ _ Hp Hr). lia.
    - intros key' sid'. rewrite length_app. destruct (decide (key = key')) as [<-|Hne].
      + rewrite lookup_insert_eq. intros [= <-]. cbn. lia.
      + rewrite lookup_insert_ne by done. intros Hk'. pose proof (Hix _ _ Hk'). lia. }
  change (put w l tid (PKey c key sid)) with (put (mkWorld l (wd_tasks w) (wd_fired w)) l tid (PKey c key sid)).
  apply world_ok_put; try done; cbn.
  - by rewrite Hq.
  - intros sid' s Hs. exists s. split; [done|]. by rewrite Hq.
  - by intros sid' [= <-].
Qed.

Lemma world_ok_step cfg w ev w' : world_ok cfg w → limiter_step w ev = Some w' → world_ok cfg w'.
Proof.
  intros Hw. pose proof (wo_refs cfg w Hw) as Hrefs.
  destruct ev as [tid c key|tid|tid|tid|tid|tid|tid|tid|tid|t|key]; cbn [limiter_step].
  - destruct (wd_tasks w !! tid) eqn:Hq; [done|]. intros [= <-].
    destruct c as [|t]; [rewrite <- (on_metrics_id (wd_limiter w)) at 1|]; case_match; apply world_ok_same; try done;
      cbn; intros; try done; rewrite Hq; by (destruct H1 as [->|[sid ->]]).
  - destruct (wd_tasks w !! tid) as [[c key| | | | | | ]|] eqn:Hq; try done.
    destruct (key_semaphore (wd_limiter w) key) as [l [sid|]] eqn:Hk; [|done]. intros [= <-]. by eapply world_ok_lookup.
  - destruct (wd_tasks w !! tid) as [[|c key sid| | | | | ]|] eqn:Hq; try done.
    destruct (take_key (wd_limiter w) sid) as [l|] eqn:Ht.
    + intros [= <-]. apply take_key_spec in Ht as (H1' & H2' & H3' & H4' & Hs). apply world_ok_put; try done.
      * rewrite H4', Hq. done.
      * intros sid' s' (s & Hs0 & Ha)%Hs. exists s. split; [done|]. rewrite Hq. unfold holds_key. cbn.
        rewrite (bool_decide_ext (Some sid = Some sid') (sid' = sid)) by naive_solver. rewrite (bool_decide_false (None = Some sid')) by done. cbn. lia.
      * cbn. intros sid' [= <-]. by eapply Hrefs.
    + destruct c; [|done]. intros [= <-]. apply world_ok_same; [done| |done]. rewrite Hq. by intros P [->|[sid' ->]].
  - destruct (wd_tasks w !! tid) as [[| |c key o| | | | ]|] eqn:Hq; try done. unfold take_global.
    destruct (sem_try (lim_global (wd_limiter w))) as [s|] eqn:Hg; cbn.
    + apply sem_try_some in Hg. destruct c as [|t]; intros [= <-]; (apply world_ok_put; try done; cbn;
        [rewrite Hq; cbn; lia|intros sid s' Hs'; exists s'; split; [done|by rewrite Hq]|intros sid Hs; by eapply Hrefs]).
    + destruct c as [|t]; [|done]. intros [= <-]. by apply (world_ok_give cfg w count_try_rejected tid (PGlobal CTry key o)).
  - destruct (wd_tasks w !! tid) as [[| | |t key o| | | ]|] eqn:Hq; try done. destruct (fired w t); intros [= <-].
    + destruct (give_key_rest (wd_limiter w) o) as (H1' & H2' & H3' & H4'). apply world_ok_put; cbn; try done.
      * rewrite H4', Hq. done.
      * intros sid s' (s & Hs & Ha)%give_key_sems. exists s. split; [done|]. rewrite Hq. unfold holds_key. cbn. rewrite (bool_decide_false (None = Some sid)) by done. cbn. lia.
    + apply world_ok_same; [done| |intros sid Hs; by eapply Hrefs]. rewrite Hq. by intros P [->|[sid ->]].
  - destruct (wd_tasks w !! tid) as [q|] eqn:Hq; [|done].
    destruct q as [[|t] key|[|t] key sid|[|t] key o| | | | ]; try done; cbn; intros [= <-].
    + by eapply (world_ok_end_wait cfg w tid (PKey (CWait t) key sid)).
    + by eapply (world_ok_end_wait cfg w tid (PGlobal (CWait t) key o)).
  - destruct (wd_tasks w !! tid) as [q|] eqn:Hq; [|done]. destruct (waits_with q) as [t|] eqn:Hwq; [|done]. destruct (fired w t); [|done].
    intros [= <-]. apply world_ok_end_wait; [done|done|]. by destruct q as [[|]|[|]|[|]| | | | ].
  - destruct (wd_tasks w !! tid) as [[| | | |key o| | ]|] eqn:Hq; try done. intros [= <-].
    assert (give_key (on_metrics count_released (wd_limiter w)) o = on_metrics count_released (give_key (wd_limiter w) o)) as -> by by destruct o.
    by apply (world_ok_give cfg w count_released tid (PHeld key o)).
  - destruct (wd_tasks w !! tid) as [[| | | | |key r| ]|] eqn:Hq; try done. intros [= <-]. apply world_ok_put; try done; cbn.
    + rewrite sem_available_release, Hq. cbn. lia.
    + intros sid s Hs. exists s. split; [done|]. by rewrite Hq.
  - intros [= <-]. destruct Hw. by split.
  - intros [= <-]. destruct Hw as [Hcfg Hnode Hkeys Hrefs' Hix]. unfold reap_key.
    destruct (Nat.eqb _ 0); [done|]. destruct (sid ← _; _) as [s|]; [|done]. destruct (Nat.eqb _ _); [|done].
    split; cbn; try done. intros key' sid [_ Hk]%lookup_delete_Some. by eapply Hix.
Qed.

Definition limiter_reachable (cfg : ResourceConfig) (w : World) : Prop := ∃ evs, limiter_run (World_new cfg) evs = Some w.

Lemma world_ok_run cfg w evs w' : world_ok cfg w → limiter_run w evs = Some w' → world_ok cfg w'.
Proof.
  revert w. induction evs as [|ev evs IH]; intros w Hw; cbn; [by intros [= <-]|].
  intros (w1 & H1 & H2)%bind_Some. eapply IH; [|done]. by eapply world_ok_step.
Qed.

Lemma world_ok_new cfg : world_ok cfg (World_new cfg).
Proof. split; cbn; try done. rewrite sem_available_new, count_empty. lia. Qed.

Lemma reachable_ok cfg w : limiter_reachable cfg w → world_ok cfg w.
Proof. intros [evs Hrun]. by eapply world_ok_run; [apply world_ok_new|]. Qed.

(** C33. Permits are conserved: over every interleaving of calls, drops, timeouts,
    cancellations and reaped keys, the permits of the node that are available and those
    that tasks hold add up to the limit of the node, and for every semaphore that was made
    for a key the available and the held permits add up to the limit of a key. (A key that
    was reaped while a task was about to use its semaphore has two, see
    [reaping_breaks_key_limit].) Hence no more permits are out than the node admits, and
    when all calls have ended every semaphore is full again, whether they were rejected,
    timed out, were cancelled or dropped their permit. *)
Theorem permits_conserved cfg w :
  limiter_reachable cfg w →
  sem_available (lim_global (wd_limiter w)) + count holds_node (wd_tasks w) = rc_global_limit cfg ∧
  (∀ sid s, lim_sems (wd_limiter w) !! sid = Some s → sem_available s + count (holds_key sid) (wd_tasks w) = rc_per_key_limit cfg) ∧
  count has_permit (wd_tasks w) ≤ rc_global_limit cfg ∧
  (map_Forall (λ _ p, has_ended p = true) (wd_tasks w) →
     sem_available (lim_global (wd_limiter w)) = rc_global_limit cfg ∧
     ∀ sid s, lim_sems (wd_limiter w) !! sid = Some s → sem_available s = rc_per_key_limit cfg).
Proof.
  intros [_ Hn Hk _ _]%reachable_ok. split_and!; [done|done| |].
  - pose proof (count_mono has_permit holds_node (wd_tasks w) ltac:(by intros i []; cbn)). lia.
  - intros Hall. split.
    + rewrite (count_zero holds_node) in Hn; [lia|]. intros i p Hp. pose proof (Hall i p Hp). by destruct p.
    + intros sid s Hs. pose proof (Hk sid s Hs) as H0. rewrite (count_zero (holds_key sid)) in H0; [lia|].
      intros i p Hp. pose proof (Hall i p Hp). by destruct p; [..|apply bool_decide_eq_false].
Qed.

(** *** The limit of a key *)

Definition phase_key (p : LimPhase) : option string :=
  match p with PKey _ k _ | PGlobal _ k _ | PLate _ k _ | PHeld k _ => Some k | _ => None end.

(** As long as no key is reaped, a task refers to the semaphore its key is listed with. *)
Definition keyed (w : World) : Prop :=
  ∀ tid p k, wd_tasks w !! tid = Some p → phase_key p = Some k → ∃ sid, refers p = Some sid ∧ lim_keys (wd_limiter w) !! k = Some sid.

Lemma keyed_put w l tid p :
  keyed w → (∀ k sid, lim_keys (wd_limiter w) !! k = Some sid → lim_keys l !! k = Some sid) →
  (∀ k, phase_key p = Some k → ∃ sid, refers p = Some sid ∧ lim_keys l !! k = Some sid) → keyed (put w l tid p).
Proof.
  intros Hw Hl Hp tid' p' k. unfold put; cbn. destruct (decide (tid = tid')) as [<-|Hne].
  - rewrite lookup_insert_eq. intros [= <-]. apply Hp.
  - rewrite lookup_insert_ne by done. intros Ht Hk. destruct (Hw _ _ _ Ht Hk) as (sid & ? & ?). exists sid. split; [done|by apply Hl].
Qed.

Lemma give_key_keys l o : lim_keys (give_key l o) = lim_keys l.
Proof. by destruct o. Qed.

Lemma take_key_keys l sid l' : take_key l sid = Some l' → lim_keys l' = lim_keys l.
Proof. by intros (_ & ? & _)%take_key_spec. Qed.

Lemma keyed_end_wait w l tid t e : keyed w → lim_keys l = lim_keys (wd_limiter w) → keyed (end_wait w l tid t e).
Proof. intros Hw Hl. unfold end_wait. case_match; apply keyed_put; try done; cbn; intros k sid; by rewrite Hl. Qed.

Lemma keyed_step w ev w' :
  rc_per_key_limit (lim_cfg (wd_limiter w)) ≠ 0 → (∀ key, ev ≠ EvReap key) →
  keyed w → limiter_step w ev = Some w' → keyed w'.
Proof.
  intros Hpos Hev Hw. destruct ev as [tid c key|tid|tid|tid|tid|tid|tid|tid|tid|t|key]; cbn [limiter_step]; try (destruct (wd_tasks w !! tid) as [q|] eqn:Hq); try done.
  - intros [= <-]. destruct (Nat.eqb_spec (rc_per_key_limit (lim_cfg (wd_limiter w))) 0) as [|Hz]; [done|].
    apply Nat.eqb_neq in Hz. destruct c; cbn; rewrite Hz; by apply keyed_put.
  - destruct q as [c key| | | | | | ]; try done. unfold key_semaphore. destruct (Nat.eqb _ 0); [done|].
    destruct (lim_keys (wd_limiter w) !! key) as [sid|] eqn:Hk; intros [= <-]; apply keyed_put; try done; cbn.
    + intros k [= <-]. by exists sid.
    + intros k sid Hk'. rewrite lookup_insert_ne; [done|]. by intros ->; rewrite Hk in Hk'.
    + intros k [= <-]. eexists. split; [done|]. apply lookup_insert_eq.
  - destruct q as [|c key sid| | | | | ]; try done. destruct (Hw _ _ key Hq eq_refl) as (sid' & [= <-] & Hk).
    destruct (take_key _ sid) as [l|] eqn:Ht; [|destruct c; [|done]]; intros [= <-]; apply keyed_put; try done; cbn.
    + intros k s. by rewrite (take_key_keys _ _ _ Ht).
    + intros k [= <-]. exists sid. by rewrite (take_key_keys _ _ _ Ht).
  - destruct q as [| |c key o| | | | ]; try done. pose proof (Hw _ _ key Hq eq_refl) as Hk. unfold take_global.
    destruct (sem_try _) as [s|]; cbn; destruct c; try done; intros [= <-]; apply keyed_put; try done; cbn; try (by intros k [= <-]).
    intros k s. by rewrite give_key_keys.
  - destruct q as [| | |t key o| | | ]; try done. pose proof (Hw _ _ key Hq eq_refl) as Hk. destruct (fired w t); intros [= <-]; apply keyed_put; try done; cbn.
    + intros k s. by rewrite give_key_keys.
    + by intros k [= <-].
  - destruct q as [[|] key|[|t] key sid|[|t] key o| | | | ]; try done; cbn; intros [= <-]; apply keyed_end_wait; try done. by rewrite give_key_keys.
  - destruct (waits_with q) as [t|]; [|done]. destruct (fired w t); [|done]. intros [= <-]. apply keyed_end_wait; [done|by rewrite give_key_keys].
  - destruct q as [| | | |key o| | ]; try done. intros [= <-]. apply keyed_put; try done; cbn. intros k s. by rewrite give_key_keys.
  - destruct q as [| | | | |key r| ]; try done. intros [= <-]. by apply keyed_put.
  - by intros [= <-].
  - by destruct (Hev key).
Qed.

Lemma keyed_run cfg w evs w' :
  rc_per_key_limit cfg ≠ 0 → world_ok cfg w → keyed w → Forall (λ ev, ∀ key, ev ≠ EvReap key) evs →
  limiter_run w evs = Some w' → keyed w'.
Proof.
  intros Hpos Hw Hk Hevs. revert w Hw Hk. induction Hevs as [|ev evs Hev _ IH]; intros w Hw Hk; cbn; [by intros [= <-]|].
  intros (w1 & H1 & H2)%bind_Some. eapply IH; [by eapply world_ok_step|eapply keyed_step; [|done|done|done]|done].
  by rewrite (wo_cfg _ _ Hw).
Qed.

(** In every run in which no key is reaped, no more permits of a key are out than
    the limit of a key. *)
Theorem key_limit_without_reaping cfg evs w key :
  rc_per_key_limit cfg ≠ 0 → Forall (λ ev, ∀ k, ev ≠ EvReap k) evs → limiter_run (World_new cfg) evs = Some w →
  count (λ p, match p with PHeld k _ => String.eqb k key | _ => false end) (wd_tasks w) ≤ rc_per_key_limit cfg.
Proof.
  intros Hpos Hevs Hrun. pose proof (world_ok_run _ _ _ _ (world_ok_new cfg) Hrun) as Hw.
  assert (keyed w) as Hk by (eapply keyed_run; [done|apply world_ok_new|by intros tid p k|done|done]).
  destruct (lim_keys (wd_limiter w) !! key) as [sid|] eqn:Hkey.
  - destruct (lookup_lt_is_Some_2 (lim_sems (wd_limiter w)) sid) as [s Hs]; [by eapply wo_index|].
    pose proof (wo_keys _ _ Hw sid s Hs). transitivity (count (holds_key sid) (wd_tasks w)); [|lia].
    apply count_mono. intros i [| | | |k o| | ] Hp; try done. intros ->%String.eqb_eq. destruct (Hk _ _ key Hp eq_refl) as (sid' & Ho & Hk').
    rewrite Hkey in Hk'. injection Hk' as <-. by apply bool_decide_eq_true.
  - rewrite count_zero; [lia|]. intros i [| | | |k o| | ] Hp; try done. apply String.eqb_neq. intros ->.
    destruct (Hk _ _ key Hp eq_refl) as (sid' & _ & Hk'). by rewrite Hkey in Hk'.
Qed.

(** Nobody waits in vain: a task that waits for the permit of its key can take it
    when no task holds one of that semaphore, and a task that waits for the permit
    of the node can take it when no task holds one. *)
Theorem waiter_proceeds cfg w tid c key sid o :
  limiter_reachable cfg w → 0 < rc_per_key_limit cfg → 0 < rc_global_limit cfg →
  (wd_tasks w !! tid = Some (PKey c key sid) → count (holds_key sid) (wd_tasks w) = 0 →
     ∃ w', limiter_step w (EvKey tid) = Some w' ∧ wd_tasks w' !! tid = Some (PGlobal c key (Some sid))) ∧
  (wd_tasks w !! tid = Some (PGlobal c key o) → count holds_node (wd_tasks w) = 0 →
     ∃ w' p, limiter_step w (EvGlobal tid) = Some w' ∧ wd_tasks w' !! tid = Some p ∧ holds_node p = true).
Proof.
  intros Hw%reachable_ok Hkpos Hgpos. split.
  - intros Hq Hz. destruct (lookup_lt_is_Some_2 (lim_sems (wd_limiter w)) sid) as [s Hs]; [by eapply (wo_refs _ _ Hw _ _ _ Hq)|].
    pose proof (wo_keys _ _ Hw sid s Hs). cbn. rewrite Hq. unfold take_key. rewrite Hs. cbn.
    destruct (sem_try s) as [s'|] eqn:Ht; [|apply sem_try_none in Ht; lia]. cbn. eexists. split; [done|]. apply lookup_insert_eq.
  - intros Hq Hz. pose proof (wo_node _ _ Hw). cbn. rewrite Hq. unfold take_global.
    destruct (sem_try _) as [s'|] eqn:Ht; [|apply sem_try_none in Ht; lia]. cbn.
    destruct c as [|t]; eexists _, _; (split; [done|split; [apply lookup_insert_eq|done]]).
Qed.
(** *** The counters *)

Definition rejections (l : ResourceLimiter) : N * N := (lm_rejected_key (lim_metrics l), lm_rejected_global (lim_metrics l)).

Lemma rejections_give l o : rejections (give_key l o) = rejections l.
Proof. by destruct o. Qed.

Lemma rejections_take_key l sid l' : take_key l sid = Some l' → rejections l' = rejections l.
Proof. unfold take_key. by intros (s & _ & (s' & _ & [= <-])%bind_Some)%bind_Some. Qed.

Lemma rejections_lookup l k : rejections (key_semaphore l k).1 = rejections l.
Proof. unfold key_semaphore. by repeat case_match. Qed.

Lemma rejections_step w ev w' : limiter_step w ev = Some w' → rejections (wd_limiter w') = rejections (wd_limiter w).
Proof.
  destruct ev as [tid c key|tid|tid|tid|tid|tid|tid|tid|tid|t|key]; cbn [limiter_step]; try (destruct (wd_tasks w !! tid) as [q|]; [|try done]).
  - done.
  - intros [= <-]. by destruct c.
  - destruct q; try done. pose proof (rejections_lookup (wd_limiter w) key) as Hr.
    destruct (key_semaphore _ key) as [l [sid|]]; [|done]. by intros [= <-].
  - destruct q as [|c key sid| | | | | ]; try done. destruct (take_key _ sid) as [l|] eqn:Ht; [|destruct c; [|done]]; intros [= <-]; [|done].
    by apply rejections_take_key in Ht.
  - destruct q as [| |c key o| | | | ]; try done. unfold take_global. destruct (sem_try _); cbn; destruct c; try done; intros [= <-]; try done. by destruct o.
  - destruct q as [| | |t key o| | | ]; try done. destruct (fired w t); intros [= <-]; [|done]. by destruct o.
  - destruct q as [[|] key|[|t] key sid|[|t] key o| | | | ]; try done; cbn; intros [= <-]; unfold end_wait; case_match; try done; by destruct o.
  - destruct (waits_with q); [|done]. destruct (fired w o); [|done]. intros [= <-]. unfold end_wait. case_match; by destruct (held_key q).
  - destruct q as [| | | |key o| | ]; try done. intros [= <-]. by destruct o.
  - destruct q; try done. by intros [= <-].
  - by intros [= <-].
  - intros [= <-]. cbn. unfold reap_key. by repeat case_match.
Qed.

(** The two counters of rejections that the limiter documents stay at zero: a call
    that finds the key or the node exhausted is counted by neither. *)
Lemma rejections_never_counted cfg w : limiter_reachable cfg w → rejections (wd_limiter w) = (0%N, 0%N).
Proof.
  intros [evs Hrun]. assert (rejections (wd_limiter (World_new cfg)) = (0%N, 0%N)) as Hw by done. revert Hrun Hw.
  generalize (World_new cfg). induction evs as [|ev evs IH]; intros w0; cbn; [by intros [= <-]|].
  intros (w1 & H1 & H2)%bind_Some Hw. apply (IH w1); [done|]. by rewrite (rejections_step _ _ _ H1).
Qed.
End Limiter.

(** ** Corners *)

(** A key is reaped between the look-up of its semaphore and the acquisition: the
    next call gets a semaphore of its own, and two tasks hold permits of a key whose
    limit is one. *)
Definition ex_limits : ResourceConfig := mkResourceConfig 8 1 0.
Definition ex_reap_run : list LimEvent :=
  [EvStart 1 CTry "k"; EvLookup 1; EvReap "k"; EvKey 1; EvGlobal 1; EvStart 2 CTry "k"; EvLookup 2; EvKey 2; EvGlobal 2].

Lemma reaping_breaks_key_limit :
  (λ w, (wd_tasks w !! 1, wd_tasks w !! 2)) <$> limiter_run (World_new ex_limits) ex_reap_run =
    Some (Some (PHeld "k" (Some 0)), Some (PHeld "k" (Some 1))).
Proof. by vm_compute. Qed.

Definition ex_wait_run : list LimEvent :=
  [EvStart 1 CTry "k"; EvLookup 1; EvKey 1; EvGlobal 1; EvStart 2 (CWait (Some 7)) "k"; EvLookup 2; EvDrop 1; EvKey 2; EvFire 7;
   EvGlobal 2; EvLate 2; EvDropGlobal 1; EvDropGlobal 2].

Lemma permits_conserved_witness :
  ∃ w, limiter_run (World_new ex_limits) ex_wait_run = Some w ∧ sem_available (lim_global (wd_limiter w)) = 8.
Proof.
  destruct (limiter_run (World_new ex_limits) ex_wait_run) as [w|] eqn:Hr; [|vm_compute in Hr; discriminate].
  exists w. split; [reflexivity|].
  destruct (permits_conserved ex_limits w (ex_intro _ ex_wait_run Hr)) as (_ & _ & _ & H). apply H.
  apply (bool_decide_unpack _). vm_compute in Hr. injection Hr as <-. vm_compute. exact I.
Defined.

Definition ex_two_keys : list LimEvent :=
  [EvStart 1 CTry "a"; EvStart 2 CTry "b"; EvLookup 1; EvLookup 2; EvKey 2; EvKey 1; EvGlobal 1; EvGlobal 2; EvStart 3 (CWait None) "a"; EvLookup 3].

Lemma key_limit_without_reaping_witness :
  ∃ w, limiter_run (World_new ex_limits) ex_two_keys = Some w ∧
    count (λ p, match p with PHeld k _ => String.eqb k "a" | _ => false end) (wd_tasks w) ≤ 1.
Proof.
  destruct (limiter_run (World_new ex_limits) ex_two_keys) as [w|] eqn:Hr; [|vm_compute in Hr; discriminate].
  exists w. split; [reflexivity|]. apply (key_limit_without_reaping ex_limits ex_two_keys w "a"); [discriminate| |exact Hr].
  repeat constructor; discriminate.
Defined.

Definition ex_free_run : list LimEvent := [EvStart 1 (CWait None) "a"; EvLookup 1].

Lemma waiter_proceeds_witness :
  ∃ w w', limiter_run (World_new ex_limits) ex_free_run = Some w ∧ limiter_step w (EvKey 1) = Some w' ∧
    wd_tasks w' !! 1 = Some (PGlobal (CWait None) "a" (Some 0)).
Proof.
  destruct (limiter_run (World_new ex_limits) ex_free_run) as [w|] eqn:Hr; [|vm_compute in Hr; discriminate]. exists w.
  destruct (waiter_proceeds ex_limits w 1 (CWait None) "a" 0 None (ex_intro _ ex_free_run Hr)) as [H _]; [cbn; lia|cbn; lia|].
  destruct H as (w' & H1 & H2); [vm_compute in Hr; injection Hr as <-; reflexivity|vm_compute in Hr; injection Hr as <-; reflexivity|].
  exists w'. split_and!; [reflexivity|exact H1|exact H2].
Defined.
