(* ===== verification/Cancellation.v ===== *)
(** * Cancellation ([crates/a3net-resilience/src/cancellation.rs])

    The token: its flag, the [Notify] of [tokio] and the future [cancelled], as
    transitions of cancelling and waiting tasks, each with one access to shared
    state. Of [Notify] the documented behaviour is modelled: a [Notified] future
    completes once [notify_waiters] was called after its creation, so a future is
    the number of calls at its creation. The scope: the tracked tasks and [join],
    over tasks that are given by the instant at which they finish, if they do. Time
    is in nanoseconds and passes in the timeouts of [join] only; aborted tasks are
    drained within the 50 ms that [join] grants each of them.

    The theorems show that no waiter misses the signal, that [join] returns in
    bounded time and accounts for every task, and that one task that does not end
    makes [join] report the finished ones as aborted. *)
From stdpp Require Import prelude strings gmap list.
From Stdlib Require Import NArith Lia.
From S2P Require Import Prelude.


#[local] Open Scope N_scope.

(** The counters are [AtomicUsize]. *)
Definition usize_inc (n : N) : N := (n + 1) mod 2 ^ 64.

(** ** The token *)

Record TokenState : Type := mkTokenState { tk_cancelled : bool; tk_notified : nat; tk_clones : N }.

Definition CancellationToken_new : TokenState := mkTokenState false 0 1.
Definition token_clone (t : TokenState) : TokenState := mkTokenState (tk_cancelled t) (tk_notified t) (usize_inc (tk_clones t)).
Definition token_is_cancelled (t : TokenState) : bool := tk_cancelled t.
Definition clone_count (t : TokenState) : N := tk_clones t.

(** A task in [cancel]: before the swap, before [notify_waiters], returned. *)
Inductive Canceller : Type := CSwap | CNotify | CReturned.

(** A task in [cancelled]: before the first check; before the creation of the
    future; before the second check; waiting; before the check after the wait;
    returned. *)
Inductive Waiter : Type := WFast | WCreate | WCheck (created : nat) | WAwait (created : nat) | WWoken | WReturned.

Record TokenWorld : Type := mkTokenWorld {
  tw_token : TokenState; tw_cancellers : gmap nat Canceller; tw_waiters : gmap nat Waiter
}.
Definition TokenWorld_new : TokenWorld := mkTokenWorld CancellationToken_new ∅ ∅.

Inductive TokenEvent : Type :=
| EvCancel (tid : nat) | EvCancelStep (tid : nat) | EvWait (tid : nat) | EvWaitStep (tid : nat) | EvClone.

Definition cancel_step (t : TokenState) (c : Canceller) : option (TokenState * Canceller) :=
  match c with
  | CSwap => Some (mkTokenState true (tk_notified t) (tk_clones t), if tk_cancelled t then CReturned else CNotify)
  | CNotify => Some (mkTokenState (tk_cancelled t) (S (tk_notified t)) (tk_clones t), CReturned)
  | CReturned => None
  end.

Definition cancelled_step (t : TokenState) (p : Waiter) : option Waiter :=
  match p with
  | WFast => Some (if token_is_cancelled t then WReturned else WCreate)
  | WCreate => Some (WCheck (tk_notified t))
  | WCheck created => Some (if token_is_cancelled t then WReturned else WAwait created)
  | WAwait created => if Nat.ltb created (tk_notified t) then Some WWoken else None
  | WWoken => Some (if token_is_cancelled t then WReturned else WCreate)
  | WReturned => None
  end.

Definition token_step (w : TokenWorld) (ev : TokenEvent) : option TokenWorld :=
  match ev with
  | EvCancel tid =>
      match tw_cancellers w !! tid with
      | Some _ => None
      | None => Some (mkTokenWorld (tw_token w) (<[tid := CSwap]> (tw_cancellers w)) (tw_waiters w))
      end
  | EvCancelStep tid =>
      c ← tw_cancellers w !! tid; r ← cancel_step (tw_token w) c;
      Some (mkTokenWorld r.1 (<[tid := r.2]> (tw_cancellers w)) (tw_waiters w))
  | EvWait tid =>
      match tw_waiters w !! tid with
      | Some _ => None
      | None => Some (mkTokenWorld (tw_token w) (tw_cancellers w) (<[tid := WFast]> (tw_waiters w)))
      end
  | EvWaitStep tid =>
      p ← tw_waiters w !! tid; p' ← cancelled_step (tw_token w) p;
      Some (mkTokenWorld (tw_token w) (tw_cancellers w) (<[tid := p']> (tw_waiters w)))
  | EvClone => Some (mkTokenWorld (token_clone (tw_token w)) (tw_cancellers w) (tw_waiters w))
  end.

Fixpoint token_run (w : TokenWorld) (evs : list TokenEvent) : option TokenWorld :=
  match evs with [] => Some w | ev :: evs => w' ← token_step w ev; token_run w' evs end.

(** ** The scope *)

(** A tracked task and the instant at which it finishes; [None] never does. *)
Record TrackedTask : Type := mkTrackedTask { tt_name : string; tt_finish : option N }.

Record CancellationScope : Type := mkCancellationScope { sc_token : TokenState; sc_tasks : list TrackedTask; sc_spawn_count : N }.
Definition CancellationScope_new : CancellationScope := mkCancellationScope CancellationToken_new [] 0.

Definition scope_token (s : CancellationScope) : CancellationScope * TokenState :=
  let t := token_clone (sc_token s) in (mkCancellationScope t (sc_tasks s) (sc_spawn_count s), t).
Definition scope_is_cancelled (s : CancellationScope) : bool := token_is_cancelled (sc_token s).
Definition tracked_count (s : CancellationScope) : nat := length (sc_tasks s).

(** [CancellationToken::cancel] as one step. *)
Definition token_cancel (t : TokenState) : TokenState :=
  if tk_cancelled t then t else mkTokenState true (S (tk_notified t)) (tk_clones t).
Definition scope_cancel (s : CancellationScope) : CancellationScope :=
  mkCancellationScope (token_cancel (sc_token s)) (sc_tasks s) (sc_spawn_count s).

(** [locked] says that the lock of the tasks is held, so that [try_lock] fails. *)
Definition scope_spawn (locked : bool) (s : CancellationScope) (name : option string) (finish : option N) : CancellationScope :=
  let label := match name with Some n => n | None => ("task-" ++ show_N (sc_spawn_count s))%string end in
  mkCancellationScope (sc_token s) (if locked then sc_tasks s else sc_tasks s ++ [mkTrackedTask label finish])
    (usize_inc (sc_spawn_count s)).

Record JoinSummary : Type := mkJoinSummary { js_completed : nat; js_aborted : nat; js_elapsed : N }.
Definition JoinSummary_default : JoinSummary := mkJoinSummary 0 0 0.
Definition is_clean (s : JoinSummary) : bool := Nat.eqb (js_aborted s) 0.

Definition ms : N := 1000000.
Definition DEFAULT_SHUTDOWN_TIMEOUT : N := 5000 * ms.

(** [timeout(slice, handle)]: the instant at which it returns, and whether the task finished. *)
Definition await_handle (now slice : N) (h : option N) : N * bool :=
  match h with
  | Some f => if f <=? now + slice then (N.max now f, true) else (now + slice, false)
  | None => (now + slice, false)
  end.

(** The handles are visited from the end: the source takes the last one with
    [swap_remove] and pushes it back when it is pending. The list is kept in that
    order. The loop ends with the handles, the budget or a pending handle. *)
Fixpoint poll_some (start budget now : N) (handles : list (option N)) : N * list (option N) * nat :=
  match handles with
  | [] => (now, [], 0%nat)
  | h :: rest =>
      if budget <=? now - start then (now, h :: rest, 0%nat)
      else
        let slice := N.min (budget - (now - start)) (25 * ms) in
        let '(now, finished) := await_handle now slice h in
        if finished then let '(now, rest, n) := poll_some start budget now rest in (now, rest, S n)
        else (now, h :: rest, 0%nat)
  end.

(** [drain]: each aborted handle is awaited for at most 50 ms; [spent i] is what
    the [i]-th of them takes to end. *)
Fixpoint drain_handles (spent : nat → N) (now : N) (handles : list (option N)) : N :=
  match handles with
  | [] => now
  | _ :: rest => drain_handles (λ i, spent (S i)) (now + N.min (spent 0%nat) (50 * ms)) rest
  end.

(** The loop of [join]. *)
Fixpoint join_loop (fuel : nat) (spent : nat → N) (deadline now : N) (handles : list (option N)) (summary : JoinSummary)
  : option (N * JoinSummary) :=
  match handles with
  | [] => Some (now, summary)
  | _ =>
      match fuel with
      | O => None
      | S fuel =>
          let remaining := deadline - now in
          if remaining =? 0
          then Some (drain_handles spent now handles,
                     mkJoinSummary (js_completed summary) (js_aborted summary + length handles) (js_elapsed summary))
          else
            let poll_budget := N.min remaining (100 * ms) in
            let '(now, handles, completed_now) := poll_some now poll_budget now handles in
            join_loop fuel spent deadline now handles
              (mkJoinSummary (js_completed summary + completed_now) (js_aborted summary) (js_elapsed summary))
      end
  end.

(** Every round but the last ends a task or waits for 25 ms or the rest of the time. *)
Definition join_fuel (timeout : N) (tasks : nat) : nat := (tasks + N.to_nat (timeout / (25 * ms)) + 3)%nat.

Definition scope_join (spent : nat → N) (now timeout : N) (s : CancellationScope) : CancellationScope * option JoinSummary :=
  let snapshot := sc_tasks s in
  let s := mkCancellationScope (sc_token s) [] (sc_spawn_count s) in
  match snapshot with
  | [] => (s, Some JoinSummary_default)
  | _ =>
      let handles := rev (tt_finish <$> snapshot) in
      (s, match join_loop (join_fuel timeout (length handles)) spent (now + timeout) now handles JoinSummary_default with
          | Some (now', summary) => Some (mkJoinSummary (js_completed summary) (js_aborted summary) (now' - now))
          | None => None
          end)
  end.

Definition scope_shutdown (spent : nat → N) (now : N) (s : CancellationScope) : CancellationScope * option JoinSummary :=
  scope_join spent now DEFAULT_SHUTDOWN_TIMEOUT (scope_cancel s).

(** ** The signal *)

Definition token_reachable (w : TokenWorld) : Prop := ∃ evs, token_run TokenWorld_new evs = Some w.

Definition notifying (w : TokenWorld) : Prop := ∃ tid, tw_cancellers w !! tid = Some CNotify.

(** What a waiting task knows of the token. *)
Definition waiter_ok (t : TokenState) (p : Waiter) : Prop :=
  match p with
  | WCheck created => (created ≤ tk_notified t)%nat
  | WAwait created => created = 0%nat
  | WReturned => tk_cancelled t = true
  | _ => True
  end.

Record token_ok (w : TokenWorld) : Prop := {
  to_quiet : tk_cancelled (tw_token w) = false → tk_notified (tw_token w) = 0%nat ∧ ¬ notifying w;
  to_signal : tk_cancelled (tw_token w) = true → (0 < tk_notified (tw_token w))%nat ∨ notifying w;
  to_waiters : map_Forall (λ _ p, waiter_ok (tw_token w) p) (tw_waiters w)
}.

Lemma waiter_ok_mono t t' p :
  (tk_cancelled t = true → tk_cancelled t' = true) → (tk_notified t ≤ tk_notified t')%nat → waiter_ok t p → waiter_ok t' p.
Proof. destruct p; cbn; intros Hc Hn Hp; try done; [lia|by apply Hc]. Qed.

Lemma notifying_insert_ne w tid c :
  tw_cancellers w !! tid ≠ Some CNotify → notifying w → notifying (mkTokenWorld (tw_token w) (<[tid := c]> (tw_cancellers w)) (tw_waiters w)).
Proof. intros Hne [i Hi]. exists i. cbn. rewrite lookup_insert_ne by congruence. done. Qed.

Lemma token_ok_cancel w tid c t' c' :
  token_ok w → tw_cancellers w !! tid = Some c → cancel_step (tw_token w) c = Some (t', c') →
  token_ok (mkTokenWorld t' (<[tid := c']> (tw_cancellers w)) (tw_waiters w)).
Proof.
  intros [Hq Hs Hw] Hc Hst. destruct c; cbn in Hst; [| |done].
  - injection Hst as <- <-. split; cbn; [done| |].
    + intros _. destruct (tk_cancelled (tw_token w)) eqn:Ht.
      * destruct (Hs eq_refl) as [|Hn]; [by left|right]. by apply (notifying_insert_ne w tid CReturned); [congruence|].
      * right. exists tid. cbn. by rewrite lookup_insert_eq.
    + eapply map_Forall_impl; [exact Hw|]. intros i p. by apply waiter_ok_mono.
  - injection Hst as <- <-. split; cbn; [| |].
    + intros Ht. destruct (Hq Ht) as [_ []]. by exists tid.
    + intros _. left. lia.
    + eapply map_Forall_impl; [exact Hw|]. intros i p. apply waiter_ok_mono; cbn; [done|lia].
Qed.

Lemma waiter_ok_step w p p' : token_ok w → waiter_ok (tw_token w) p → cancelled_step (tw_token w) p = Some p' → waiter_ok (tw_token w) p'.
Proof.
  intros [Hq _ _] Hp. unfold cancelled_step, token_is_cancelled.
  destruct p; try (intros [= <-]); try done; cbn in *.
  - by destruct (tk_cancelled (tw_token w)) eqn:?.
  - lia.
  - destruct (tk_cancelled (tw_token w)) eqn:Ht; [done|]. destruct (Hq eq_refl). cbn. lia.
  - repeat case_match; by intros [= <-].
  - by destruct (tk_cancelled (tw_token w)) eqn:?.
Qed.

Lemma token_ok_step w ev w' : token_ok w → token_step w ev = Some w' → token_ok w'.
Proof.
  intros Hok. destruct ev as [tid|tid|tid|tid|]; cbn.
  - destruct (tw_cancellers w !! tid) eqn:Hc; [done|]. intros [= <-]. destruct Hok as [Hq Hs Hw]. split; cbn; [| |done].
    + intros Ht. destruct (Hq Ht) as [Hn Hno]. split; [done|]. intros [i Hi]. cbn in Hi. apply lookup_insert_Some in Hi as [[_ [=]]|[_ Hi]]. apply Hno. by exists i.
    + intros Ht. destruct (Hs Ht) as [|Hn]; [by left|right]. apply (notifying_insert_ne w tid CSwap); [congruence|done].
  - intros (c & Hc & ([t' c'] & Hst & [= <-])%bind_Some)%bind_Some. by eapply token_ok_cancel.
  - destruct (tw_waiters w !! tid) eqn:Hc; [done|]. intros [= <-]. destruct Hok as [Hq Hs Hw]. split; [done|done|].
    by apply map_Forall_insert_2.
  - intros (p & Hp & (p' & Hst & [= <-])%bind_Some)%bind_Some. pose proof (waiter_ok_step w p p' Hok (to_waiters w Hok tid p Hp) Hst).
    destruct Hok as [Hq Hs Hw]. split; [done|done|]. by apply map_Forall_insert_2.
  - intros [= <-]. destruct Hok as [Hq Hs Hw]. split; [done|done|]. cbn. eapply map_Forall_impl; [exact Hw|].
    intros i p. by apply waiter_ok_mono.
Qed.

Lemma token_ok_run w evs w' : token_ok w → token_run w evs = Some w' → token_ok w'.
Proof.
  revert w. induction evs as [|ev evs IH]; intros w Hw; cbn; [by intros [= <-]|].
  intros (w1 & H1 & H2)%bind_Some. eapply IH; [by eapply token_ok_step|done].
Qed.

Lemma token_reachable_ok w : token_reachable w → token_ok w.
Proof.
  intros [evs Hrun]. eapply token_ok_run; [|exact Hrun]. split; cbn; [|done|done].
  intros _. split; [done|]. by intros [i Hi].
Qed.

(** Once the signal is out, a waiter is at most two of its steps from the end. *)
Definition signalled (t : TokenState) : Prop := tk_cancelled t = true ∧ (0 < tk_notified t)%nat.
Definition waiter_rank (p : Waiter) : nat :=
  match p with WReturned => 0 | WFast | WCheck _ | WWoken => 1 | WCreate | WAwait _ => 2 end.

Lemma signalled_step w ev w' : signalled (tw_token w) → token_step w ev = Some w' → signalled (tw_token w').
Proof.
  intros [Hc Hn]. destruct ev as [tid|tid|tid|tid|]; cbn.
  - case_match; [done|]. by intros [= <-].
  - intros (c & _ & ([t' c'] & Hst & [= <-])%bind_Some)%bind_Some. destruct c; cbn in *; simplify_eq; split; cbn; try done. lia.
  - case_match; [done|]. by intros [= <-].
  - intros (p & _ & (p' & _ & [= <-])%bind_Some)%bind_Some. done.
  - by intros [= <-].
Qed.

Lemma rank_step t p p' : signalled t → cancelled_step t p = Some p' → S (waiter_rank p') = waiter_rank p.
Proof. intros [Hc _]. destruct p; cbn; unfold token_is_cancelled; rewrite ?Hc; repeat case_match; intros [= <-]; done. Qed.

Lemma waiter_enabled w tid p :
  token_ok w → signalled (tw_token w) → tw_waiters w !! tid = Some p → p ≠ WReturned → is_Some (token_step w (EvWaitStep tid)).
Proof.
  intros Hok [Hc Hn] Hp Hne. cbn. rewrite Hp. cbn. pose proof (to_waiters w Hok tid p Hp) as Hw.
  destruct p; cbn in *; try done. subst created. destruct (tk_notified (tw_token w)); [lia|done].
Qed.

Definition is_step_of (tid : nat) (ev : TokenEvent) : bool := match ev with EvWaitStep i => Nat.eqb i tid | _ => false end.

Lemma rank_run tid evs w w' p :
  signalled (tw_token w) → tw_waiters w !! tid = Some p → token_run w evs = Some w' →
  signalled (tw_token w') ∧
  ∃ p', tw_waiters w' !! tid = Some p' ∧ (length (filter (λ ev, is_step_of tid ev = true) evs) + waiter_rank p' = waiter_rank p)%nat.
Proof.
  revert w p. induction evs as [|ev evs IH]; intros w p Hs Hp; cbn [token_run].
  { intros [= <-]. split; [done|]. by exists p. }
  intros (w1 & H1 & H2)%bind_Some. pose proof (signalled_step _ _ _ Hs H1) as Hs1. rewrite filter_cons.
  assert (∃ p1, tw_waiters w1 !! tid = Some p1 ∧ (if is_step_of tid ev then S (waiter_rank p1) else waiter_rank p1) = waiter_rank p) as (p1 & Hp1 & Hr).
  { destruct ev as [i|i|i|i|]; cbn in H1 |- *.
    - case_match; [done|]. injection H1 as <-. by exists p.
    - apply bind_Some in H1 as (c & _ & (r & _ & [= <-])%bind_Some). by exists p.
    - destruct (tw_waiters w !! i) eqn:Hi; [done|]. injection H1 as <-. exists p. split; [|done]. cbn. rewrite lookup_insert_ne by congruence. done.
    - apply bind_Some in H1 as (q & Hq & (q' & Hst & [= <-])%bind_Some). cbn. destruct (Nat.eqb_spec i tid) as [->|Hne].
      + simplify_eq. exists q'. split; [by rewrite lookup_insert_eq|]. by eapply rank_step.
      + exists p. split; [by rewrite lookup_insert_ne|done].
    - injection H1 as <-. by exists p. }
  destruct (IH w1 p1 Hs1 Hp1 H2) as (Hs' & p' & Hp' & Hr'). split; [done|]. exists p'. split; [done|].
  destruct (is_step_of tid ev); cbn; [rewrite decide_True by done; cbn; lia|rewrite decide_False by done; lia].
Qed.

(** C36. No wake-up is lost, in whatever order the accesses of [cancel] and [cancelled]
    interleave. [cancelled] returns only after the token was cancelled; and once a
    call of [cancel] has notified, every task in [cancelled] can always take its next
    step, and returns with the second at the latest, whatever else happens in
    between. *)
Theorem no_lost_wakeup w tid p :
  token_reachable w → tw_waiters w !! tid = Some p →
  (p = WReturned → token_is_cancelled (tw_token w) = true) ∧
  (token_is_cancelled (tw_token w) = true → ¬ notifying w → ∀ evs w', token_run w evs = Some w' →
     ∃ p', tw_waiters w' !! tid = Some p' ∧
       (p' = WReturned ∨
        is_Some (token_step w' (EvWaitStep tid)) ∧ (length (filter (λ ev, is_step_of tid ev = true) evs) < 2)%nat)).
Proof.
  intros Hok%token_reachable_ok Hp. split.
  - intros ->. exact (to_waiters w Hok tid WReturned Hp).
  - intros Hc Hno evs w' Hrun. assert (signalled (tw_token w)) as Hs.
    { split; [done|]. by destruct (to_signal w Hok Hc). }
    destruct (rank_run tid evs w w' p Hs Hp Hrun) as (Hs' & p' & Hp' & Hr). exists p'. split; [done|].
    destruct (decide (waiter_rank p' = 0)%nat) as [Hz|Hz]; [left; by destruct p'|right]. split.
    + eapply waiter_enabled; [by eapply token_ok_run|done|done|]. by intros ->.
    + assert (waiter_rank p ≤ 2)%nat by (destruct p; cbn; lia). lia.
Qed.

(** ** The join *)

(** The specification of [join]: the handles are awaited one after the other, each
    until it ends or the deadline; how many end, and when the last await returns. *)
Fixpoint joined (now deadline : N) (handles : list (option N)) : nat * N :=
  match handles with
  | [] => (0%nat, now)
  | h :: rest =>
      if deadline <=? now then (0%nat, now)
      else match h with
           | Some f => if f <=? deadline then let r := joined (N.max now f) deadline rest in (S r.1, r.2) else (0%nat, deadline)
           | None => (0%nat, deadline)
           end
  end.

Lemma joined_pending now now' deadline h rest :
  now < deadline → now ≤ now' → now' ≤ deadline → (∀ f, h = Some f → now' < f) →
  joined now deadline (h :: rest) = joined now' deadline (h :: rest).
Proof.
  intros Hd Hle Hle' Hf. cbn [joined]. assert (deadline <=? now = false) as -> by (by apply N.leb_gt).
  destruct (N.leb_spec deadline now') as [Hge|Hlt].
  - assert (now' = deadline) as -> by lia. destruct h as [f|]; [|done]. pose proof (Hf f eq_refl).
    by assert (f <=? deadline = false) as -> by (by apply N.leb_gt).
  - destruct h as [f|]; [|done]. pose proof (Hf f eq_refl). case_match; [|done].
    by assert (N.max now f = N.max now' f) as -> by lia.
Qed.

Lemma await_spec now slice h now' b :
  await_handle now slice h = (now', b) → now ≤ now' ≤ now + slice ∧
  if b then ∃ f, h = Some f ∧ f ≤ now + slice ∧ now' = N.max now f else now' = now + slice ∧ ∀ f, h = Some f → now' < f.
Proof.
  unfold await_handle. destruct h as [f|]; [destruct (N.leb_spec f (now + slice))|]; intros [= <- <-]; split; try lia.
  - by exists f.
  - split; [done|]. by intros g [= <-].
  - done.
Qed.

(** A call of [poll_some] follows the specification, and makes progress. *)
Lemma poll_some_joined start budget deadline handles now now' handles' n :
  start + budget ≤ deadline → start ≤ now → now ≤ start + budget → poll_some start budget now handles = (now', handles', n) →
  now ≤ now' ≤ start + budget ∧ length handles = (n + length handles')%nat ∧ handles' = drop n handles ∧
  joined now deadline handles = (let r := joined now' deadline handles' in ((n + r.1)%nat, r.2)) ∧
  (n = 0%nat → handles ≠ [] → now < start + budget → now' = now + N.min (budget - (now - start)) (25 * ms)).
Proof.
  intros Hd. revert now now' handles' n. induction handles as [|h rest IH]; intros now now' handles' n Hs Hb; cbn [poll_some].
  { intros [= <- <- <-]. split_and!; try done; try lia; by destruct (joined _ _ _). }
  destruct (N.leb_spec budget (now - start)) as [Hge|Hlt].
  { intros [= <- <- <-]. split_and!; try done; try lia. by destruct (joined _ _ _). }
  destruct (await_handle _ _ h) as [now1 b] eqn:Ha. apply await_spec in Ha as [Ht Hb'].
  destruct b.
  - destruct Hb' as (f & -> & Hf & ->). destruct (poll_some _ _ (N.max now f) rest) as [[now2 rest'] k] eqn:Hp.
    intros [= <- <- <-]. apply IH in Hp as (H1 & H2 & H3 & H4 & _); [|lia|lia]. split_and!; [lia|lia|cbn; lia|done| |done].
    cbn [joined]. assert (deadline <=? now = false) as -> by (apply N.leb_gt; lia).
    assert (f <=? deadline = true) as -> by (apply N.leb_le; lia). cbn zeta. rewrite H4. done.
  - destruct Hb' as [-> Hf]. intros [= <- <- <-]. split_and!; try done; [lia|lia|].
    rewrite (joined_pending now (now + N.min (budget - (now - start)) (25 * ms))) by (try done; lia). by destruct (joined _ _ _).
Qed.

(** The time [join] has left, in slices of 25 ms. *)
Definition slices (t : N) : nat := N.to_nat ((t + 25 * ms - 1) / (25 * ms)).

Lemma slices_step t : t ≠ 0 → (slices (t - N.min t (25 * ms)) < slices t)%nat.
Proof.
  intros Ht. unfold slices. assert (0 < 25 * ms) by done. generalize dependent (25 * ms). intros q Hq.
  assert ((t - N.min t q + q - 1) / q < (t + q - 1) / q); [|lia].
  destruct (N.le_gt_cases t q).
  - rewrite N.min_l, N.sub_diag, N.div_small by lia. assert (q / q ≤ (t + q - 1) / q) by (apply N.Div0.div_le_mono; lia).
    rewrite N.div_same in * by lia. lia.
  - rewrite N.min_r by lia. replace (t + q - 1) with ((t - q + q - 1) + 1 * q) by lia. rewrite N.div_add by lia. lia.
Qed.

Lemma slices_mono t t' : t ≤ t' → (slices t ≤ slices t')%nat.
Proof. intros. unfold slices. assert ((t + 25 * ms - 1) / (25 * ms) ≤ (t' + 25 * ms - 1) / (25 * ms)) by (apply N.Div0.div_le_mono; lia). lia. Qed.

(** The loop with enough fuel is the specification. *)
Lemma join_loop_joined fuel spent deadline now handles summary :
  now ≤ deadline → (length handles + slices (deadline - now) < fuel)%nat →
  join_loop fuel spent deadline now handles summary =
    let r := joined now deadline handles in
    Some (drain_handles spent r.2 (drop r.1 handles),
          mkJoinSummary (js_completed summary + r.1) (js_aborted summary + (length handles - r.1)) (js_elapsed summary)).
Proof.
  revert now handles summary. induction fuel as [|fuel IH]; intros now handles summary Hle Hf; [lia|].
  destruct handles as [|h rest]; [cbn; by rewrite !Nat.add_0_r; destruct summary|].
  cbn [join_loop]. destruct (N.eqb_spec (deadline - now) 0) as [Hz|Hnz].
  { cbn [joined]. assert (deadline <=? now = true) as -> by (apply N.leb_le; lia). cbn. by rewrite Nat.add_0_r. }
  destruct (poll_some _ _ now (h :: rest)) as [[now1 handles1] n] eqn:Hp.
  eapply poll_some_joined in Hp as (H1 & H2 & -> & H4 & H5); [|instantiate (1 := deadline); lia|lia|lia].
  pose proof (slices_mono (deadline - now1) (deadline - now) ltac:(lia)).
  rewrite IH; [|lia|].
  - rewrite H4. cbn zeta. cbn [fst snd js_completed js_aborted js_elapsed]. rewrite drop_drop, length_drop. f_equal. f_equal. f_equal; lia.
  - destruct n as [|n]; [|lia]. specialize (H5 eq_refl ltac:(done) ltac:(unfold ms; lia)).
    pose proof (slices_step (deadline - now) Hnz).
    assert (deadline - now1 = deadline - now - N.min (deadline - now) (25 * ms)) as -> by (unfold ms in *; lia). lia.
Qed.

Lemma join_fuel_enough timeout n : (n + slices timeout < join_fuel timeout n)%nat.
Proof.
  unfold join_fuel, slices. assert ((timeout + 25 * ms - 1) / (25 * ms) ≤ timeout / (25 * ms) + 1); [|lia].
  assert (0 < 25 * ms) by done. generalize dependent (25 * ms). intros q Hq.
  rewrite <- (N.div_add timeout 1 q) by lia. apply N.Div0.div_le_mono. lia.
Qed.

Lemma scope_join_summary spent now timeout s :
  scope_join spent now timeout s =
    (mkCancellationScope (sc_token s) [] (sc_spawn_count s),
     let handles := rev (tt_finish <$> sc_tasks s) in
     let r := joined now (now + timeout) handles in
     Some (mkJoinSummary r.1 (tracked_count s - r.1) (drain_handles spent r.2 (drop r.1 handles) - now))).
Proof.
  unfold scope_join, tracked_count. destruct (sc_tasks s) as [|t ts] eqn:Hts.
  { cbn. by rewrite N.sub_diag. }
  rewrite <- Hts. rewrite join_loop_joined; [|lia|].
  - cbn zeta. cbn [js_completed js_aborted JoinSummary_default]. by rewrite !Nat.add_0_l, length_rev, length_fmap.
  - replace (now + timeout - now) with timeout by lia. apply join_fuel_enough.
Qed.

Lemma joined_bounds now deadline handles :
  now ≤ deadline → let r := joined now deadline handles in (r.1 ≤ length handles)%nat ∧ now ≤ r.2 ≤ deadline.
Proof.
  revert now. induction handles as [|h rest IH]; intros now Hle; cbn; [lia|].
  destruct (N.leb_spec deadline now); cbn; [lia|]. destruct h as [f|]; [|cbn; lia].
  destruct (N.leb_spec f deadline); cbn; [|lia]. destruct (IH (N.max now f)); lia.
Qed.

Lemma drain_bounds spent now handles :
  now ≤ drain_handles spent now handles ≤ now + N.of_nat (length handles) * (50 * ms).
Proof.
  revert spent now. induction handles as [|h rest IH]; intros spent now; cbn [drain_handles length]; [lia|].
  specialize (IH (λ i, spent (S i)) (now + N.min (spent 0%nat) (50 * ms))). lia.
Qed.

Lemma joined_all now deadline handles :
  now < deadline → Forall (λ h, ∃ f, h = Some f ∧ f < deadline) handles → (joined now deadline handles).1 = length handles.
Proof.
  intros Hlt Hall. revert now Hlt. induction Hall as [|h rest (f & -> & Hf) _ IH]; intros now Hlt; [done|]. cbn.
  assert (deadline <=? now = false) as -> by (by apply N.leb_gt).
  assert (f <=? deadline = true) as -> by (apply N.leb_le; lia). cbn. rewrite IH by lia. done.
Qed.

(** Shutdown ends: [join] always returns, leaves no task tracked, counts every
    tracked task as completed or aborted, and takes at most the timeout and the 50
    ms that each aborted task is granted. It is clean when every tracked task ends
    before the deadline; a task that does not end at all makes it abort the tasks
    that were spawned before it, the finished ones included. *)
Theorem join_bounded spent now timeout s :
  ∃ summary, scope_join spent now timeout s = (mkCancellationScope (sc_token s) [] (sc_spawn_count s), Some summary) ∧
    (js_completed summary + js_aborted summary = tracked_count s)%nat ∧
    js_elapsed summary ≤ timeout + N.of_nat (js_aborted summary) * (50 * ms) ∧
    (0 < timeout → Forall (λ t, ∃ f, tt_finish t = Some f ∧ f < now + timeout) (sc_tasks s) → is_clean summary = true) ∧
    (∀ before stuck after, sc_tasks s = before ++ stuck :: after → tt_finish stuck = None →
       (length before < js_aborted summary)%nat).
Proof.
  rewrite scope_join_summary. eexists. split; [reflexivity|]. cbn zeta. cbn [js_completed js_aborted js_elapsed is_clean].
  set (handles := rev (tt_finish <$> sc_tasks s)).
  assert (length handles = tracked_count s) as Hlen by (unfold handles, tracked_count; by rewrite length_rev, length_fmap).
  destruct (joined_bounds now (now + timeout) handles ltac:(lia)) as [Hk Ht].
  pose proof (drain_bounds spent (joined now (now + timeout) handles).2 (drop (joined now (now + timeout) handles).1 handles)) as Hd.
  rewrite length_drop in Hd. split_and!; [lia|rewrite <- Hlen; lia| |].
  - intros Hpos Hall. apply Nat.eqb_eq. cbn [js_aborted]. rewrite joined_all; [lia|lia|]. unfold handles.
    apply Forall_rev. by apply Forall_fmap.
  - intros before stuck after Hs Hstuck. assert ((joined now (now + timeout) handles).1 ≤ length after)%nat as Hle.
    { unfold handles. rewrite Hs, fmap_app, fmap_cons, rev_app_distr. cbn [rev]. rewrite Hstuck, <- app_assoc. cbn [app].
      clear. rewrite <- (length_fmap tt_finish after), <- length_rev. generalize (rev (tt_finish <$> after)). intros l.
      generalize (now + timeout). intros d. revert now. induction l as [|h l IH]; intros now; cbn [app joined].
      - by destruct (_ <=? _).
      - destruct (_ <=? _); [cbn; lia|]. destruct h as [f|]; [|cbn; lia]. destruct (f <=? d); cbn; [|lia]. specialize (IH (N.max now f)). lia. }
    unfold tracked_count. rewrite Hs, length_app. cbn. lia.
Qed.

(** ** Corners *)

(** Of two tasks the first has finished before [join] is called; the second never
    ends. Both are reported as aborted. *)
Definition ex_scope : CancellationScope :=
  scope_spawn false (scope_spawn false CancellationScope_new None (Some 0)) (Some "loop"%string) None.

Lemma join_starves :
  scope_shutdown (λ _, 0) 1 ex_scope =
    (mkCancellationScope (mkTokenState true 1 1) [] 2, Some (mkJoinSummary 0 2 (5000 * ms))).
Proof. by vm_compute. Qed.

(** A task that is spawned while the lock is held is not tracked: [join] does not
    wait for it and its summary is clean. *)
Lemma contended_spawn_untracked spent now timeout name finish :
  (scope_join spent now timeout (scope_spawn true CancellationScope_new name finish)).2 = Some JoinSummary_default.
Proof. done. Qed.

(** The count of clones never falls: dropping a clone does not touch the token. *)
Lemma clones_only_grow w ev w' :
  tk_clones (tw_token w) < 2 ^ 64 - 1 → token_step w ev = Some w' → clone_count (tw_token w) ≤ clone_count (tw_token w').
Proof.
  unfold clone_count. intros Hb. destruct ev as [tid|tid|tid|tid|]; cbn [token_step].
  - case_match; [done|]. by intros [= <-].
  - intros (c & _ & ([t' c'] & Hst & [= <-])%bind_Some)%bind_Some. destruct c; cbn in *; by simplify_eq.
  - case_match; [done|]. by intros [= <-].
  - by intros (p & _ & (p' & _ & [= <-])%bind_Some)%bind_Some.
  - intros [= <-]. cbn. unfold usize_inc. rewrite N.mod_small by lia. lia.
Qed.

(** A waiter is caught between its two checks: it has created its future when the
    token is cancelled, and goes to sleep before the notification. *)
Definition ex_cancel_run : list TokenEvent :=
  [EvWait 1; EvWaitStep 1; EvWaitStep 1; EvWaitStep 1; EvCancel 2; EvCancelStep 2; EvCancelStep 2].
Definition ex_cancel_rest : list TokenEvent := [EvClone; EvWaitStep 1; EvWait 3; EvWaitStep 1].

Lemma no_lost_wakeup_witness :
  ∃ w w', token_run TokenWorld_new ex_cancel_run = Some w ∧ tw_waiters w !! 1%nat = Some (WAwait 0) ∧
    token_run w ex_cancel_rest = Some w' ∧ tw_waiters w' !! 1%nat = Some WReturned.
Proof.
  destruct (token_run TokenWorld_new ex_cancel_run) as [w|] eqn:Hr; [|vm_compute in Hr; discriminate].
  destruct (token_run w ex_cancel_rest) as [w'|] eqn:Hr'; [|vm_compute in Hr; injection Hr as <-; vm_compute in Hr'; discriminate].
  assert (tw_waiters w !! 1%nat = Some (WAwait 0)) as Hw by (vm_compute in Hr; injection Hr as <-; reflexivity).
  exists w, w'. split_and!; [reflexivity|exact Hw|exact Hr'|].
  destruct (no_lost_wakeup w 1 (WAwait 0) (ex_intro _ ex_cancel_run Hr) Hw) as [_ H].
  destruct (H ltac:(vm_compute in Hr; injection Hr as <-; reflexivity)) with (evs := ex_cancel_rest) (w' := w') as (p' & Hp' & [->|[_ Hlt]]).
  - vm_compute in Hr. injection Hr as <-. intros [tid Hq]. change (({[2%nat := CReturned]} : gmap nat Canceller) !! tid = Some CNotify) in Hq.
    apply lookup_singleton_Some in Hq as [_ [=]].
  - exact Hr'.
  - exact Hp'.
  - exfalso. vm_compute in Hlt. lia.
Defined.

Lemma join_bounded_witness :
  ∃ summary, (scope_join (λ _, 60 * ms) 1 (30 * ms) ex_scope).2 = Some summary ∧ (1 < js_aborted summary)%nat.
Proof.
  destruct (join_bounded (λ _, 60 * ms) 1 (30 * ms) ex_scope) as (summary & H & _ & _ & _ & Hs). exists summary. split; [rewrite H; reflexivity|].
  apply (Hs [mkTrackedTask "task-0" (Some 0)] (mkTrackedTask "loop" None) []); reflexivity.
Defined.
