(* ===== verification/Resilience.v ===== *)
(** * Retries and the resilient client ([crates/a3net-resilience/src/retry.rs, http.rs])

    [retry_with_backoff] over an operation that changes a state of its caller: the
    result is the state after the calls, the outcome ([None] is the panic of
    [expect]) and the sleeps, in nanoseconds. The operation and the random number
    generator are arguments. [ResilientHttpClient] composes it with the circuit
    breaker of CircuitBreaker.v; [reqwest] is the class [HttpStack].

    The theorems give the outcome of a retried operation and its exact sleeps, the
    schedules of the predefined policies, and what the breaker makes of a client:
    calls that fail trip it, and a single successful probe locks the client out. *)
From stdpp Require Import prelude strings list.
From Stdlib Require Import NArith Lia.
From S2P Require Import Prelude Floats Bucket DhtRetry CircuitBreaker.

#[local] Open Scope N_scope.

(** ** Configuration *)

Record RetryConfig : Type := mkRetryConfig {
  rt_max_attempts : N; rt_initial_delay : N; rt_max_delay : N; rt_backoff_multiplier : f64; rt_jitter_factor : f64
}.

(** The literal [n/d]. *)
Definition f64_ratio (n d : N) : f64 := f64_div (f64_of n) (f64_of d).

Definition RetryConfig_default : RetryConfig := mkRetryConfig 3 (millis 100) (secs 5) (f64_of 2) (f64_ratio 1 10).

(** The enum [RetryPolicy]. *)
Inductive RetryProfile : Type := NoRetry | Transient | Aggressive | Conservative.

Definition to_config (p : RetryProfile) : RetryConfig :=
  match p with
  | NoRetry => mkRetryConfig 1 (rt_initial_delay RetryConfig_default) (rt_max_delay RetryConfig_default)
                 (rt_backoff_multiplier RetryConfig_default) (rt_jitter_factor RetryConfig_default)
  | Transient => mkRetryConfig 3 (millis 50) (secs 1) (f64_ratio 3 2) (f64_ratio 1 5)
  | Aggressive => mkRetryConfig 5 (millis 100) (secs 10) (f64_of 2) (f64_ratio 1 10)
  | Conservative => mkRetryConfig 2 (millis 200) (secs 2) (f64_ratio 6 5) (f64_ratio 3 10)
  end.

(** ** The loop *)

(** The bound of the jitter, in milliseconds; [None] is no jitter. *)
Definition jitter_max (cfg : RetryConfig) (delay : N) : option N :=
  if f64_gtb (rt_jitter_factor cfg) (f64_of 0)
  then Some (f64_as_u64 (f64_mul (f64_of (as_millis delay)) (rt_jitter_factor cfg))) else None.

Definition next_delay (cfg : RetryConfig) (delay : N) : N :=
  millis (f64_as_u64 (f64_min (f64_mul (f64_of (as_millis delay)) (rt_backoff_multiplier cfg)) (f64_of (as_millis (rt_max_delay cfg))))).

Section Retry.
Context {St E T : Type} (operation : St → St * result E T).
(** [gen_range(0..=max)] at an attempt. *)
Context (gen_range : N → N → N).
Context (cfg : RetryConfig).

Definition jitter_of (attempt delay : N) : N :=
  match jitter_max cfg delay with Some mx => millis (gen_range attempt mx) | None => 0 end.

Fixpoint retry_loop (rem : nat) (attempt delay : N) (last_error : option E) (st : St) : St * option (result E T) * list N :=
  match rem with
  | O => (st, Err <$> last_error, [])
  | S rem =>
      let '(st, r) := operation st in
      match r with
      | Ok v => (st, Some (Ok v), [])
      | Err e =>
          if rt_max_attempts cfg <=? attempt + 1 then (st, Some (Err e), [])
          else
            let '(st, res, sleeps) := retry_loop rem (attempt + 1) (next_delay cfg delay) (Some e) st in
            (st, res, (delay + jitter_of attempt delay) :: sleeps)
      end
  end.

Definition retry_with_backoff (st : St) : St * option (result E T) * list N :=
  retry_loop (N.to_nat (rt_max_attempts cfg)) 0 (rt_initial_delay cfg) None st.

(** ** What the loop does *)

(** The state after [n] calls, the outcome of the next one, and the sleep after it. *)
Definition after_calls (n : nat) (st : St) : St := Nat.iter n (λ st, (operation st).1) st.
Definition nth_outcome (n : nat) (st : St) : result E T := (operation (after_calls n st)).2.
Definition nth_delay (n : nat) : N := Nat.iter n (next_delay cfg) (rt_initial_delay cfg).
Definition sleep_after (n : nat) : N := nth_delay n + jitter_of (N.of_nat n) (nth_delay n).

Lemma after_calls_S n st : after_calls (S n) st = after_calls n (operation st).1.
Proof. unfold after_calls. by rewrite Nat.iter_succ_r. Qed.

Lemma nth_outcome_S n st : nth_outcome (S n) st = nth_outcome n (operation st).1.
Proof. unfold nth_outcome. by rewrite after_calls_S. Qed.

Definition fails (n : nat) (st : St) : Prop := is_ok (nth_outcome n st) = false.

(** From the [k]-th round on: [i] calls that fail, and then one that succeeds or is
    the last that is allowed. *)
Lemma retry_loop_spec i rem k last st :
  (∀ j, (j < i)%nat → fails j st) → (i < rem)%nat → (k + rem = N.to_nat (rt_max_attempts cfg))%nat →
  is_ok (nth_outcome i st) = true ∨ S i = rem →
  retry_loop rem (N.of_nat k) (nth_delay k) last st = (after_calls (S i) st, Some (nth_outcome i st), sleep_after <$> seq k i).
Proof.
  revert rem k last st. induction i as [|i IH]; intros rem k last st Hfail Hlt Hmax Hend; (destruct rem as [|rem]; [lia|]);
    cbn [retry_loop]; (destruct (operation st) as [st1 r] eqn:Hop).
  - unfold nth_outcome, after_calls in *. cbn in *. rewrite Hop in *. cbn in *. destruct r as [v|e]; [done|].
    assert (rt_max_attempts cfg <=? N.of_nat k + 1 = true) as ->; [|done]. apply N.leb_le. destruct Hend as [|Hend]; [done|]. lia.
  - assert (∃ e, r = Err e) as [e ->].
    { pose proof (Hfail 0%nat ltac:(lia)) as H0. unfold fails, nth_outcome, after_calls in H0. cbn in H0. rewrite Hop in H0. cbn in H0.
      destruct r as [|e]; [done|by exists e]. }
    assert (rt_max_attempts cfg <=? N.of_nat k + 1 = false) as -> by (apply N.leb_gt; lia).
    replace (N.of_nat k + 1) with (N.of_nat (S k)) by lia. change (next_delay cfg (nth_delay k)) with (nth_delay (S k)).
    assert (st1 = (operation st).1) as -> by (by rewrite Hop). rewrite (after_calls_S (S i)), (nth_outcome_S i st). rewrite IH; [done| |lia|lia|].
    + intros j Hj. unfold fails. rewrite <- nth_outcome_S. apply Hfail. lia.
    + rewrite <- nth_outcome_S. destruct Hend as [Hok|Hl]; [by left|right; lia].
Qed.

(** A retried operation is called until it first succeeds, at most [max_attempts]
    times; its outcome is that of the last call, a success or the error of the last
    attempt, and between two calls the loop sleeps for the delay of the schedule and
    its jitter. Without any attempt the function panics. *)
Theorem retry_spec st :
  (∀ i, (i < N.to_nat (rt_max_attempts cfg))%nat → (∀ j, (j < i)%nat → fails j st) →
     is_ok (nth_outcome i st) = true ∨ S i = N.to_nat (rt_max_attempts cfg) →
     retry_with_backoff st = (after_calls (S i) st, Some (nth_outcome i st), sleep_after <$> seq 0 i)) ∧
  (rt_max_attempts cfg = 0 → retry_with_backoff st = (st, None, [])).
Proof.
  split.
  - intros i Hi Hfail Hend. unfold retry_with_backoff. apply (retry_loop_spec i _ 0); [done|done|lia|done].
  - intros Hz. unfold retry_with_backoff. by rewrite Hz.
Qed.

Lemma nth_fails_all st i : (∀ st, is_ok (operation st).2 = false) → fails i st.
Proof. intros Hall. apply Hall. Qed.

Lemma retry_all_fail st :
  (∀ st, is_ok (operation st).2 = false) → 0 < rt_max_attempts cfg → ∃ e,
  retry_with_backoff st = (after_calls (N.to_nat (rt_max_attempts cfg)) st, Some (Err e), sleep_after <$> seq 0 (N.to_nat (rt_max_attempts cfg) - 1)).
Proof.
  intros Hall Hpos. set (i := (N.to_nat (rt_max_attempts cfg) - 1)%nat). assert (S i = N.to_nat (rt_max_attempts cfg)) as Hi by lia.
  unfold retry_with_backoff. pose proof (retry_loop_spec i (N.to_nat (rt_max_attempts cfg)) 0 None st) as Hl.
  rewrite Hi in Hl. specialize (Hl ltac:(intros; by apply nth_fails_all) ltac:(lia) ltac:(lia) ltac:(by right)).
  change (N.of_nat 0) with 0 in Hl. change (nth_delay 0) with (rt_initial_delay cfg) in Hl. rewrite Hl.
  pose proof (nth_fails_all st i Hall) as Hf. unfold fails in Hf. destruct (nth_outcome i st) as [|e]; [done|]. by exists e.
Qed.
End Retry.

(** The sleeps of a policy, in milliseconds: the delay, and the delay with the
    greatest jitter. *)
Definition schedule (p : RetryProfile) : list (N * N) :=
  match p with
  | NoRetry => []
  | Transient => [(50, 60); (75, 90)]
  | Aggressive => [(100, 110); (200, 220); (400, 440); (800, 880)]
  | Conservative => [(200, 260)]
  end.

Definition sleep_range (cfg : RetryConfig) (n : nat) : N * N :=
  let d := nth_delay cfg n in (as_millis d, as_millis d + default 0 (jitter_max cfg d)).

(** The schedules of the predefined policies, in IEEE arithmetic: an operation that
    keeps failing is called [max_attempts] times and the sleeps in between lie in the
    ranges of the schedule, whatever the random numbers are. *)
Theorem policy_schedules {St E T} (operation : St → St * result E T) gen_range p st :
  (∀ attempt mx, gen_range attempt mx ≤ mx) → (∀ st, is_ok (operation st).2 = false) → ∃ e sleeps,
  retry_with_backoff operation gen_range (to_config p) st =
    (after_calls operation (N.to_nat (rt_max_attempts (to_config p))) st, Some (Err e), sleeps) ∧
  Forall2 (λ s b, millis b.1 ≤ s ≤ millis b.2) sleeps (schedule p).
Proof.
  intros Hgen Hall. destruct (retry_all_fail operation gen_range (to_config p) st Hall) as [e ->]; [by destruct p|].
  exists e. eexists. split; [done|].
  assert (schedule p = sleep_range (to_config p) <$> seq 0 (N.to_nat (rt_max_attempts (to_config p)) - 1)) as -> by (destruct p; vm_compute; reflexivity).
  assert (Forall (λ n, nth_delay (to_config p) n = millis (as_millis (nth_delay (to_config p) n))) (seq 0 (N.to_nat (rt_max_attempts (to_config p)) - 1))) as Hms
    by (destruct p; repeat constructor; vm_compute; reflexivity).
  apply Forall2_fmap, Forall_Forall2_diag. eapply Forall_impl; [exact Hms|]. intros n Hn. unfold sleep_after, sleep_range, jitter_of. cbn [fst snd].
  cbn beta in Hn. revert Hn. generalize (nth_delay (to_config p) n). intros d Hn. unfold millis in *. destruct (jitter_max _ d) as [mx|]; cbn [default id]; [pose proof (Hgen (N.of_nat n) mx)|]; unfold id; lia.
Qed.

(** ** The client *)

Class HttpStack : Type := {
  HttpResponse : Type;
  http_status : HttpResponse → N;
  status_line : N → string;
  http_bytes : HttpResponse → result string (list N)
}.

Section Client.
Context `{HttpStack}.

Record ResilientHttpConfig : Type := mkHttpConfig { rh_retry : RetryConfig; rh_breaker : CircuitBreakerConfig; rh_request_timeout : N }.
Definition ResilientHttpConfig_default : ResilientHttpConfig := mkHttpConfig RetryConfig_default CircuitBreakerConfig_default (secs 30).

Record ResilientHttpClient : Type := mkHttpClient { hc_breaker_config : CircuitBreakerConfig; hc_breaker : Inner; hc_retry : RetryConfig }.

Definition client_with_config (now : N) (cfg : ResilientHttpConfig) : ResilientHttpClient :=
  mkHttpClient (rh_breaker cfg) (Inner_new now) (rh_retry cfg).
Definition ResilientHttpClient_new (now : N) : ResilientHttpClient := client_with_config now ResilientHttpConfig_default.

Definition set_breaker (c : ResilientHttpClient) (g : Inner) : ResilientHttpClient := mkHttpClient (hc_breaker_config c) g (hc_retry c).

(** [StatusCode::is_success]. *)
Definition is_success (status : N) : bool := (200 <=? status) && (status <? 300).

(** The network: one request of a URL changes its state. *)
Context {Net : Type} (send : string → Net → Net * result string HttpResponse) (gen_range : N → N → N).

Definition http_attempt (url : string) (net : Net) : Net * result string HttpResponse :=
  let '(net, r) := send url net in
  (net, match r with
        | Err e => Err ("send: " +:+ e)
        | Ok resp => if is_success (http_status resp) then Ok resp else Err ("HTTP " +:+ status_line (http_status resp))
        end).

(** [get] started at [now] and over at [ended]; a panic of the retries unwinds
    before the breaker learns of an outcome. *)
Definition http_get (now ended : N) (url : string) (c : ResilientHttpClient) (net : Net) :
  ResilientHttpClient * Net * option (result string HttpResponse) :=
  let '(g, allowed) := allow_request (hc_breaker_config c) now (hc_breaker c) in
  let c := set_breaker c g in
  if negb allowed then (c, net, Some (Err "circuit breaker is open"%string))
  else
    let '(net, result, _) := retry_with_backoff (http_attempt url) gen_range (hc_retry c) net in
    match result with
    | Some (Ok resp) => (set_breaker c (record_success (hc_breaker_config c) ended (hc_breaker c)), net, Some (Ok resp))
    | Some (Err e) => (set_breaker c (record_failure (hc_breaker_config c) ended (hc_breaker c)), net, Some (Err e))
    | None => (c, net, None)
    end.

Definition get_bytes (now ended : N) (url : string) (c : ResilientHttpClient) (net : Net) :
  ResilientHttpClient * Net * option (result string (list N)) :=
  let '(c, net, r) := http_get now ended url c net in
  (c, net,
   match r with
   | Some (Ok resp) => Some (match http_bytes resp with Ok b => Ok b | Err e => Err ("read body: " +:+ e) end)
   | Some (Err e) => Some (Err e)
   | None => None
   end).

(** Calls one after the other: start, end and URL of each. *)
Fixpoint get_run (calls : list (N * N * string)) (c : ResilientHttpClient) (net : Net) :
  ResilientHttpClient * Net * list (option (result string HttpResponse)) :=
  match calls with
  | [] => (c, net, [])
  | (now, ended, url) :: calls =>
      let '(c, net, r) := http_get now ended url c net in
      let '(c, net, rs) := get_run calls c net in (c, net, r :: rs)
  end.

(** ** What the breaker makes of a client *)

Lemma set_breaker_id c : set_breaker c (hc_breaker c) = c.
Proof. by destruct c. Qed.

Lemma get_refused now ended url c net :
  allow_request (hc_breaker_config c) now (hc_breaker c) = (hc_breaker c, false) →
  http_get now ended url c net = (c, net, Some (Err "circuit breaker is open"%string)).
Proof. intros Ha. unfold http_get. rewrite Ha. cbn. by rewrite set_breaker_id. Qed.

Lemma allow_open now (g : Inner) cfg t :
  in_state g = Open → in_opened_at g = Some t → now < t + cbc_timeout cfg → t ≤ now → allow_request cfg now g = (g, false).
Proof. intros Ho Ht Hlt Hle. unfold allow_request. rewrite Ho, Ht. unfold elapsed. by ncase. Qed.

(** A network on which every attempt fails. *)
Definition unreachable : Prop := ∀ url net, is_ok (http_attempt url net).2 = false.

Lemma get_fails now ended url c net :
  unreachable → 0 < rt_max_attempts (hc_retry c) → in_state (hc_breaker c) = Closed → ∃ e,
  http_get now ended url c net =
    (set_breaker c (record_failure (hc_breaker_config c) ended (hc_breaker c)),
     after_calls (http_attempt url) (N.to_nat (rt_max_attempts (hc_retry c))) net, Some (Err e)).
Proof.
  intros Hun Hpos Hc. destruct (retry_all_fail (http_attempt url) gen_range (hc_retry c) net) as [e He]; [apply Hun|done|]. exists e.
  unfold http_get, allow_request. rewrite Hc. cbn. by rewrite He.
Qed.

Lemma record_failure_in_window cfg ended (g : Inner) :
  in_state g = Closed → ended ≤ in_window_start g + cbc_window_duration cfg →
  record_failure cfg ended g =
    if cbc_failure_threshold cfg <=? in_failures g + 1
    then mkInner Open (in_failures g + 1) (in_successes g) (in_window_start g) (Some ended)
    else mkInner Closed (in_failures g + 1) (in_successes g) (in_window_start g) (in_opened_at g).
Proof. intros Hc Hw. unfold record_failure. rewrite Hc. unfold elapsed. by repeat ncase. Qed.

(** Calls that fail trip the breaker of a client: with the failures already counted,
    the calls that complete the threshold within the window leave it open, each of
    them counted once however often it was retried; every call until the timeout has
    passed is then refused without a request to the network. *)
Theorem client_fails_fast calls c net :
  unreachable → 0 < rt_max_attempts (hc_retry c) → calls ≠ [] → in_state (hc_breaker c) = Closed →
  in_failures (hc_breaker c) + N.of_nat (length calls) = cbc_failure_threshold (hc_breaker_config c) →
  Forall (λ k, k.1.2 ≤ in_window_start (hc_breaker c) + cbc_window_duration (hc_breaker_config c)) calls →
  let '(c', net', rs) := get_run calls c net in
  Forall (λ r, ∃ e, r = Some (Err e)) rs ∧ in_state (hc_breaker c') = Open ∧
  ∃ t, in_opened_at (hc_breaker c') = Some t ∧ (λ k, k.1.2) <$> last calls = Some t ∧
    ∀ now ended url, t ≤ now < t + cbc_timeout (hc_breaker_config c) →
      http_get now ended url c' net' = (c', net', Some (Err "circuit breaker is open"%string)).
Proof.
  intros Hun. revert c net. induction calls as [|[[now ended] url] calls IH]; intros c net Hpos Hne Hc Hn Hw; [done|].
  apply Forall_cons in Hw as [Hw Hws]. cbn [get_run]. destruct (get_fails now ended url c net Hun Hpos Hc) as [e ->].
  rewrite record_failure_in_window by done. cbn [length] in Hn. destruct calls as [|k calls].
  - assert (cbc_failure_threshold (hc_breaker_config c) <=? in_failures (hc_breaker c) + 1 = true) as -> by (apply N.leb_le; cbn in Hn; lia).
    cbn. split_and!; [constructor; [by exists e|done]|done|]. exists ended. split_and!; [done|done|]. intros now' ended' url' [H1 H2].
    apply get_refused. by apply (allow_open now' _ _ ended).
  - assert (cbc_failure_threshold (hc_breaker_config c) <=? in_failures (hc_breaker c) + 1 = false) as -> by (apply N.leb_gt; cbn in Hn; lia).
    set (c1 := set_breaker c _). set (net1 := after_calls _ _ net).
    specialize (IH c1 net1 Hpos ltac:(done) eq_refl ltac:(subst c1; cbn in *; lia) Hws).
    destruct (get_run (k :: calls) c1 net1) as [[c' net'] rs]. destruct IH as (H1 & H2 & H3). split_and!; [constructor; [by exists e|done]|done|done].
Qed.

(** A client whose calls come one after the other, whose breaker was open and whose first
    call after the timeout succeeds is locked out for good when the breaker asks for more
    than one success, as it does by default: every later call of it is refused at any time
    and the network is never asked again. (Calls that are admitted together as probes,
    which [get_run] does not model, can still close the breaker.) *)
Theorem client_locked_out now ended url c net t c1 net1 resp calls :
  in_state (hc_breaker c) = Open → in_opened_at (hc_breaker c) = Some t → t + cbc_timeout (hc_breaker_config c) ≤ now →
  2 ≤ cbc_success_threshold (hc_breaker_config c) →
  http_get now ended url c net = (c1, net1, Some (Ok resp)) →
  get_run calls c1 net1 = (c1, net1, replicate (length calls) (Some (Err "circuit breaker is open"%string))).
Proof.
  intros Ho Ht Hle H2 Hget. unfold http_get, allow_request in Hget. rewrite Ho, Ht in Hget. unfold elapsed in Hget.
  assert (cbc_timeout (hc_breaker_config c) <=? now - t = true) as Hb by (apply N.leb_le; lia). rewrite Hb in Hget. cbn in Hget.
  destruct (retry_with_backoff _ _ _ net) as [[net2 r] sl]. destruct r as [[v|e]|]; try done. injection Hget as <- <- _.
  assert (cbc_success_threshold (hc_breaker_config c) <=? 0 + 1 = false) as Hs by (apply N.leb_gt; lia).
  set (c1 := set_breaker _ _). induction calls as [|[[now' ended'] url'] calls IH]; [done|]. cbn [get_run length replicate].
  rewrite get_refused; [by rewrite IH|]. subst c1. cbn. unfold record_success. cbn. by rewrite Hs.
Qed.
End Client.

(** ** Corners *)

(** A response is its status; the network answers with the statuses of a script and
    refuses when the script has ended. *)
#[local] Instance ex_stack : HttpStack := {|
  HttpResponse := N; http_status s := s; status_line := show_N; http_bytes _ := Ok []
|}.
Definition ex_send (url : string) (net : list N) : list N * result string HttpResponse :=
  match net with [] => ([], Err "refused"%string) | s :: net => (net, Ok s) end.

(** The first delay is not capped, and the jitter comes on top: with an initial delay
    of ten seconds and a bound of five, the first sleep takes up to eleven. *)
Definition ex_uncapped : RetryConfig := mkRetryConfig 3 (secs 10) (secs 5) (f64_of 2) (f64_ratio 1 10).
Lemma sleeps_exceed_max_delay :
  (retry_with_backoff (ex_send "u") (λ _ mx, mx) ex_uncapped []).2 = [millis 11000; millis 5500].
Proof. vm_compute. reflexivity. Qed.

Lemma retry_spec_witness :
  retry_with_backoff (http_attempt ex_send "u") (λ _ _, 0) (to_config Aggressive) [503; 500; 204; 200] =
    ([200], Some (Ok 204), [millis 100; millis 200]).
Proof.
  destruct (retry_spec (http_attempt ex_send "u") (λ _ _, 0) (to_config Aggressive) [503; 500; 204; 200]) as [H _].
  rewrite (H 2%nat).
  - vm_compute. reflexivity.
  - vm_compute. lia.
  - intros j Hj. destruct j as [|[|j]]; [vm_compute; reflexivity|vm_compute; reflexivity|lia].
  - left. vm_compute. reflexivity.
Defined.

Lemma policy_schedules_witness :
  ∃ e sleeps, retry_with_backoff (λ n : nat, (S n, Err n : result nat unit)) (λ _ mx, mx / 2) (to_config Transient) 0%nat = (3%nat, Some (Err e), sleeps) ∧
    Forall2 (λ s b, millis b.1 ≤ s ≤ millis b.2) sleeps [(50, 60); (75, 90)].
Proof.
  destruct (policy_schedules (λ n : nat, (S n, Err n : result nat unit)) (λ _ mx, mx / 2) Transient 0%nat) as (e & sleeps & H1 & H2).
  - intros _ mx. apply N.Div0.div_le_upper_bound. lia.
  - reflexivity.
  - exists e, sleeps. split; [exact H1|exact H2].
Defined.

Definition ex_client : ResilientHttpClient := ResilientHttpClient_new 0.
Definition ex_calls : list (N * N * string) := [(1, 2, "a"); (3, 4, "b"); (5, 6, "c"); (7, 8, "d"); (9, 10, "e")]%string.
Definition ex_down (url : string) (net : nat) : nat * result string HttpResponse := (S net, Err "refused"%string).

Lemma client_fails_fast_witness :
  ∃ c', (get_run ex_down (λ _ _, 0) ex_calls ex_client 0%nat).1 = (c', 15%nat) ∧
    http_get ex_down (λ _ _, 0) 11 12 "f" c' 15%nat = (c', 15%nat, Some (Err "circuit breaker is open"%string)).
Proof.
  pose proof (client_fails_fast ex_down (λ _ _, 0) ex_calls ex_client 0%nat ltac:(intros url net; reflexivity) ltac:(vm_compute; reflexivity)
    ltac:(discriminate) ltac:(reflexivity) ltac:(vm_compute; reflexivity) ltac:(repeat constructor; vm_compute; discriminate)) as H.
  destruct (get_run ex_down (λ _ _, 0) ex_calls ex_client 0%nat) as [[c' net'] rs] eqn:Hr. destruct H as (_ & _ & t & _ & Ht & H).
  assert (net' = 15%nat) as -> by (vm_compute in Hr; injection Hr as _ <- _; reflexivity). injection Ht as <-.
  exists c'. split; [reflexivity|]. apply (H 11 12 "f"%string). split; vm_compute; [discriminate|reflexivity].
Defined.

(** The service was down for the five calls, and is up again after the minute. *)
Definition ex_after_minute : N := 70000000000.

Definition ex_tripped : ResilientHttpClient := (get_run ex_send (λ _ _, 0) ex_calls ex_client (repeat 503 15 ++ [200; 200; 200])).1.1.
Definition ex_probed : ResilientHttpClient := (http_get ex_send (λ _ _, 0) ex_after_minute ex_after_minute "f" ex_tripped [200; 200; 200]).1.1.

Lemma client_locked_out_witness :
  http_get ex_send (λ _ _, 0) ex_after_minute ex_after_minute "f" ex_tripped [200; 200; 200] = (ex_probed, [200; 200], Some (Ok 200)) ∧
  get_run ex_send (λ _ _, 0) [(10 ^ 18, 10 ^ 18, "g"%string)] ex_probed [200; 200] =
    (ex_probed, [200; 200], [Some (Err "circuit breaker is open"%string)]).
Proof.
  split; [vm_compute; reflexivity|].
  apply (client_locked_out ex_send (λ _ _, 0) ex_after_minute ex_after_minute "f" ex_tripped [200; 200; 200] 10 ex_probed [200; 200] 200
    [(10 ^ 18, 10 ^ 18, "g"%string)]).
  - vm_compute. reflexivity.
  - vm_compute. reflexivity.
  - vm_compute. discriminate.
  - vm_compute. discriminate.
  - vm_compute. reflexivity.
Defined.
