(* ===== verification/GossipDedup.v ===== *)
(** * Deduplication of gossip messages ([crates/a3net-gossip/src/dedup.rs])

    [MessageCache] remembers message identifiers with their expiry in insertion
    order; [DedupeFilter] runs announcements through it; [TtlTracker] keeps
    expiry times. The clock is the argument [now]. A [HashMap] is a [gmap]; the
    order of the identifiers [cleanup_expired] returns is that of the visiting
    order [map_to_list]. *)
From stdpp Require Import prelude strings gmap list.
From Stdlib Require Import NArith Lia.
From S2P Require Import Prelude.

#[local] Open Scope N_scope.

Definition DEFAULT_DEDUP_CACHE_SIZE : nat := N.to_nat 10000.
Definition DEFAULT_MESSAGE_TTL : N := 3600 * 1000000000.
Definition CLEANUP_BATCH_SIZE : nat := 100%nat.

Record MessageMeta : Type := mkMessageMeta { mm_seen_at : N; mm_expires_at : N }.

Definition MessageMeta_new (now ttl : N) : MessageMeta := mkMessageMeta now (now + ttl).
Definition MessageMeta_is_expired (now : N) (m : MessageMeta) : bool := mm_expires_at m <=? now.

Record MessageCache : Type := mkMessageCache {
  mc_entries : gmap string MessageMeta;
  mc_order : list string;
  mc_capacity : nat;
  mc_max_ttl : N
}.

Definition MessageCache_new (capacity : nat) (default_ttl : N) : MessageCache :=
  mkMessageCache ∅ [] capacity default_ttl.

Definition MessageCache_contains (c : MessageCache) (id : string) : bool :=
  bool_decide (is_Some (mc_entries c !! id)).

(** An identifier without an entry counts as expired. *)
Definition id_expired (now : N) (c : MessageCache) (id : string) : bool :=
  match mc_entries c !! id with Some m => MessageMeta_is_expired now m | None => true end.

Definition expired_batch (now : N) (c : MessageCache) : list string :=
  take CLEANUP_BATCH_SIZE (filter (λ id, id_expired now c id = true) (mc_order c)).

Definition MessageCache_remove_expired (now : N) (c : MessageCache) : MessageCache :=
  let expired := expired_batch now c in
  mkMessageCache (delete_all expired (mc_entries c)) (filter (λ id, id ∉ expired) (mc_order c))
    (mc_capacity c) (mc_max_ttl c).

(** The [while] loop of [evict_if_needed], by recursion on the order it pops. *)
Fixpoint evict_loop (capacity : nat) (order : list string) (entries : gmap string MessageMeta)
  : list string * gmap string MessageMeta :=
  match order with
  | [] => ([], entries)
  | oldest :: rest =>
      if Nat.leb capacity (size entries) then evict_loop capacity rest (delete oldest entries)
      else (order, entries)
  end.

Definition MessageCache_evict_if_needed (now : N) (c : MessageCache) : MessageCache :=
  let c := MessageCache_remove_expired now c in
  let '(order, entries) := evict_loop (mc_capacity c) (mc_order c) (mc_entries c) in
  mkMessageCache entries order (mc_capacity c) (mc_max_ttl c).

Definition MessageCache_insert (now : N) (c : MessageCache) (id : string) (ttl : N) : MessageCache * bool :=
  if MessageCache_contains c id then (c, false)
  else
    let c := MessageCache_evict_if_needed now c in
    (mkMessageCache (<[id := MessageMeta_new now ttl]> (mc_entries c)) (mc_order c ++ [id])
       (mc_capacity c) (mc_max_ttl c), true).

Definition MessageCache_len (c : MessageCache) : nat := size (mc_entries c).
Definition MessageCache_is_empty (c : MessageCache) : bool := Nat.eqb (size (mc_entries c)) 0.
Definition MessageCache_clear (c : MessageCache) : MessageCache :=
  mkMessageCache ∅ [] (mc_capacity c) (mc_max_ttl c).

(** ** The filter *)

(** An announcement is what the filter reads of it: the identifier
    [get_or_generate_message_id] yields and its [effective_ttl]. *)
Record DedupeFilter : Type := mkDedupeFilter { df_cache : MessageCache }.

Definition DedupeFilter_check_and_insert (now : N) (f : DedupeFilter) (message_id : string) (ttl : N)
  : DedupeFilter * bool :=
  let '(c, is_new) := MessageCache_insert now (df_cache f) message_id ttl in
  let c := if Nat.eqb (MessageCache_len c mod 100) 0 then MessageCache_remove_expired now c else c in
  (mkDedupeFilter c, is_new).

Definition DedupeFilter_is_duplicate (f : DedupeFilter) (message_id : string) : bool :=
  MessageCache_contains (df_cache f) message_id.

Definition DedupeFilter_cleanup (now : N) (f : DedupeFilter) : DedupeFilter :=
  mkDedupeFilter (MessageCache_remove_expired now (df_cache f)).

(** ** Expiry times *)

Record TtlTracker : Type := mkTtlTracker { tt_expirations : gmap string N; tt_default_ttl : N }.

Definition TtlTracker_new (default_ttl : N) : TtlTracker := mkTtlTracker ∅ default_ttl.

Definition TtlTracker_register (now : N) (t : TtlTracker) (id : string) (ttl : N) : TtlTracker :=
  mkTtlTracker (<[id := now + ttl]> (tt_expirations t)) (tt_default_ttl t).

Definition TtlTracker_register_default (now : N) (t : TtlTracker) (id : string) : TtlTracker :=
  TtlTracker_register now t id (tt_default_ttl t).

Definition TtlTracker_is_expired (now : N) (t : TtlTracker) (id : string) : bool :=
  match tt_expirations t !! id with Some expires_at => expires_at <=? now | None => false end.

Definition TtlTracker_remaining_ttl (now : N) (t : TtlTracker) (id : string) : option N :=
  (λ expires_at, expires_at - now) <$> tt_expirations t !! id.

Definition TtlTracker_remove (t : TtlTracker) (id : string) : TtlTracker :=
  mkTtlTracker (delete id (tt_expirations t)) (tt_default_ttl t).

Definition TtlTracker_cleanup_expired (now : N) (t : TtlTracker) : TtlTracker * list string :=
  let expired := fst <$> filter (λ p, p.2 ≤ now) (map_to_list (tt_expirations t)) in
  (mkTtlTracker (delete_all expired (tt_expirations t)) (tt_default_ttl t), expired).

(** ** Invariant of the cache *)

Record cache_ok (c : MessageCache) : Prop := {
  co_nodup : NoDup (mc_order c);
  co_dom id : is_Some (mc_entries c !! id) ↔ id ∈ mc_order c
}.

Lemma cache_ok_dom c : cache_ok c → dom (mc_entries c) = list_to_set (mc_order c).
Proof. intros [_ Hd]. apply set_eq. intros id. rewrite elem_of_dom, elem_of_list_to_set. apply Hd. Qed.

Lemma cache_ok_size c : cache_ok c → size (mc_entries c) = length (mc_order c).
Proof. intros Hc. rewrite <- size_dom, (cache_ok_dom c Hc). apply size_list_to_set, Hc. Qed.

Lemma cache_ok_remove_expired now c : cache_ok c → cache_ok (MessageCache_remove_expired now c).
Proof.
  intros [Hn Hd]. unfold MessageCache_remove_expired. split; cbn [mc_order mc_entries].
  - by apply NoDup_filter.
  - intros id. rewrite lookup_delete_all, list_elem_of_filter, <- Hd.
    destruct (decide (id ∈ expired_batch now c)); [|tauto]. split; [by intros []|tauto].
Qed.

(** Eviction pops a prefix of the order. *)
Lemma evict_loop_spec cap order entries cap' ttl' :
  cache_ok (mkMessageCache entries order cap' ttl') →
  ∃ k, let '(order', entries') := evict_loop cap order entries in
    order' = drop k order ∧ entries' = delete_all (take k order) entries ∧
    cache_ok (mkMessageCache entries' order' cap' ttl') ∧
    (order' = [] ∨ (length order' < cap)%nat) ∧
    (0 < k → cap ≤ length order' + 1)%nat.
Proof.
  revert entries. induction order as [|x order IH]; intros entries Hok; cbn [evict_loop].
  { exists 0%nat. cbn. split_and!; [done|done|done|by left|lia]. }
  pose proof (cache_ok_size _ Hok) as Hs. simpl in Hs.
  destruct (Nat.leb_spec cap (size entries)) as [Hle|Hlt].
  - destruct (IH (delete x entries)) as (k & Hk).
    { destruct Hok as [Hn Hd]. simpl in *. apply NoDup_cons in Hn as [Hx Hn]. split; simpl; [done|].
      intros id. destruct (decide (id = x)) as [->|Hne].
      - rewrite lookup_delete_eq. split; [by intros []|done].
      - rewrite lookup_delete_ne by done. rewrite Hd, elem_of_cons. naive_solver. }
    exists (S k). destruct (evict_loop cap order (delete x entries)) as [order' entries'].
    destruct Hk as (-> & -> & Hok' & Hb & Hf). split_and!; [done|done|done|done|]. intros _.
    destruct (decide (k = 0%nat)) as [->|Hk]; [rewrite drop_0; lia|]. apply Hf. lia.
  - exists 0%nat. rewrite drop_0. split_and!; [done|done|done|right; simpl; lia|lia].
Qed.

(** What an insertion of a new identifier does to the order and the entries. *)
Lemma insert_new_spec now c id ttl :
  cache_ok c → MessageCache_contains c id = false →
  ∃ k, let kept := filter (λ x, x ∉ expired_batch now c) (mc_order c) in
    let c' := (MessageCache_insert now c id ttl).1 in
    mc_order c' = drop k kept ++ [id] ∧ mc_capacity c' = mc_capacity c ∧ cache_ok c' ∧
    (∀ x, x ∈ drop k kept → mc_entries c' !! x = mc_entries c !! x) ∧
    mc_entries c' !! id = Some (MessageMeta_new now ttl) ∧
    (length (mc_order c') ≤ Nat.max 1 (mc_capacity c))%nat ∧
    (0 < k → mc_capacity c ≤ length (mc_order c'))%nat.
Proof.
  intros Hok Hn. unfold MessageCache_insert. rewrite Hn. unfold MessageCache_evict_if_needed.
  apply bool_decide_eq_false in Hn.
  assert (Hnid : id ∉ mc_order c) by (by rewrite <- (co_dom c Hok)).
  pose proof (cache_ok_remove_expired now c Hok) as Hok1. unfold MessageCache_remove_expired in *.
  cbn [mc_order mc_entries mc_capacity mc_max_ttl] in *.
  set (kept := filter (λ x, x ∉ expired_batch now c) (mc_order c)) in *.
  destruct (evict_loop_spec (mc_capacity c) _ _ _ _ Hok1) as (k & Hk). exists k.
  destruct (evict_loop (mc_capacity c) kept _) as [order' entries'].
  destruct Hk as (-> & -> & [Hnd Hdom] & Hb & Hf). cbn [fst mc_order mc_entries mc_capacity] in *.
  assert (Hni : id ∉ drop k kept).
  { intros Hin%elem_of_drop_in. by apply list_elem_of_filter in Hin as [_ Hin]. }
  split_and!.
  - done.
  - done.
  - split; cbn.
    + apply NoDup_app. split_and!; [done| |apply NoDup_singleton].
      intros x Hx ->%list_elem_of_singleton. done.
    + intros x. rewrite elem_of_app, list_elem_of_singleton. destruct (decide (x = id)) as [->|Hx].
      * rewrite lookup_insert_eq. split; [by right|by eexists].
      * rewrite lookup_insert_ne by done. rewrite Hdom. naive_solver.
  - intros x Hx. rewrite lookup_insert_ne by (intros ->; done).
    rewrite lookup_delete_all, decide_False.
    + rewrite lookup_delete_all, decide_False; [done|].
      apply elem_of_drop_in, list_elem_of_filter in Hx as [? _]. done.
    + intros Ht. rewrite <- (take_drop k kept) in Hok1. destruct Hok1 as [Hnd1 _]. cbn in Hnd1.
      apply NoDup_app in Hnd1 as (_ & Hdis & _). by apply (Hdis x).
  - by rewrite lookup_insert_eq.
  - rewrite length_app. simpl. destruct Hb as [->|]; simpl; lia.
  - rewrite length_app. simpl. lia.
Qed.

(** The deduplication cache: an insertion is accepted exactly when the
    identifier is not in the cache; afterwards it is; the invariant (each
    identifier listed once, listed exactly when it has an entry) is kept and the
    cache holds at most its capacity, one at least. A refused insertion changes
    nothing; an accepted one forgets only identifiers that have expired or, when
    the cache is full, the oldest ones. *)
Theorem cache_insert_spec now c id ttl :
  cache_ok c →
  let '(c', fresh) := MessageCache_insert now c id ttl in
  cache_ok c' ∧ fresh = negb (MessageCache_contains c id) ∧ MessageCache_contains c' id = true ∧
  (fresh = false → c' = c) ∧
  (fresh = true → (MessageCache_len c' ≤ Nat.max 1 (mc_capacity c))%nat ∧
     ∃ k, mc_order c' = drop k (filter (λ x, x ∉ expired_batch now c) (mc_order c)) ++ [id] ∧
       (0 < k → mc_capacity c ≤ MessageCache_len c')%nat) ∧
  (∀ x, x ∈ expired_batch now c → id_expired now c x = true).
Proof.
  intros Hok.
  assert (Hexp : ∀ x, x ∈ expired_batch now c → id_expired now c x = true).
  { intros x Hx%elem_of_take_in. by apply list_elem_of_filter in Hx as [? _]. }
  destruct (MessageCache_contains c id) eqn:Hc.
  { unfold MessageCache_insert. rewrite Hc. split_and!; done. }
  destruct (insert_new_spec now c id ttl Hok Hc) as (k & Ho & _ & Hok' & _ & He & Hb & Hf).
  assert ((MessageCache_insert now c id ttl).2 = true) as Hf2.
  { unfold MessageCache_insert. by rewrite Hc. }
  destruct (MessageCache_insert now c id ttl) as [c' fresh]. cbn [fst snd] in *. subst fresh.
  split_and!; [done|done| |done| |done].
  - apply bool_decide_eq_true. rewrite He. by eexists.
  - intros _. unfold MessageCache_len. rewrite (cache_ok_size c' Hok'). split; [done|]. by exists k.
Qed.

(** *** The deduplication window *)

Definition insert_op (c : MessageCache) (op : N * string * N) : MessageCache :=
  (MessageCache_insert op.1.1 c op.1.2 op.2).1.

(** [id] has entry [m] and at most [n] younger identifiers. *)
Definition remembered (id : string) (m : MessageMeta) (n : nat) (c : MessageCache) : Prop :=
  cache_ok c ∧ mc_entries c !! id = Some m ∧
  ∃ pre post, mc_order c = pre ++ id :: post ∧ (length post ≤ n)%nat.

Lemma drop_keeps {A} k (pre post : list A) x cap :
  (0 < k → cap ≤ length (drop k (pre ++ x :: post)) + 1)%nat → (length post + 1 < cap)%nat →
  ∃ pre', drop k (pre ++ x :: post) = pre' ++ x :: post.
Proof.
  intros Hk Hp. destruct (decide (k ≤ length pre)%nat) as [Hle|Hgt].
  - exists (drop k pre). rewrite drop_app. by replace (k - length pre)%nat with 0%nat by lia.
  - exfalso. rewrite length_drop, length_app in Hk. simpl in Hk. lia.
Qed.

Lemma remembered_insert id m n c op :
  remembered id m n c → op.1.1 < mm_expires_at m → (n + 1 < mc_capacity c)%nat →
  remembered id m (S n) (insert_op c op) ∧ mc_capacity (insert_op c op) = mc_capacity c.
Proof.
  destruct op as [[now x] ttl]. unfold insert_op. cbn [fst snd].
  intros (Hok & Hm & pre & post & Ho & Hp) Hlive Hcap.
  destruct (MessageCache_contains c x) eqn:Hc.
  { unfold MessageCache_insert. rewrite Hc. split; [|done]. split_and!; [done|done|].
    exists pre, post. split; [done|lia]. }
  destruct (insert_new_spec now c x ttl Hok Hc) as (k & Ho' & Hcp & Hok' & Hkeep & _ & _ & Hf).
  assert (id ∉ expired_batch now c) as Hne.
  { intros Hin%elem_of_take_in. apply list_elem_of_filter in Hin as [Hin _]. unfold id_expired in Hin.
    rewrite Hm in Hin. unfold MessageMeta_is_expired in Hin. apply N.leb_le in Hin. lia. }
  rewrite Ho, filter_app, filter_cons_True in Ho', Hkeep by done.
  set (P := λ x, x ∉ expired_batch now c) in *.
  pose proof (length_filter P post) as Hpl.
  destruct (drop_keeps k (filter P pre) (filter P post) id (mc_capacity c)) as (pre' & Hpre); [|lia|].
  { intros H0. specialize (Hf H0). rewrite Ho', length_app in Hf. simpl in Hf. lia. }
  rewrite Hpre in Ho', Hkeep. split; [|done]. split_and!; [done| |].
  - rewrite Hkeep; [done|]. apply elem_of_app. right. left.
  - exists pre', (filter P post ++ [x]). split; [by rewrite Ho', <- app_assoc|].
    rewrite length_app. simpl. lia.
Qed.

Lemma remembered_run id m ops n c :
  remembered id m n c → (n + length ops < mc_capacity c)%nat →
  Forall (λ op, op.1.1 < mm_expires_at m) ops → remembered id m (n + length ops) (foldl insert_op c ops).
Proof.
  revert n c. induction ops as [|op ops IH]; intros n c Hr Hlen HF; simpl in *.
  { by rewrite Nat.add_0_r. }
  apply Forall_cons in HF as [Hop HF]. destruct (remembered_insert id m n c op Hr Hop) as [Hr' Hc]; [lia|].
  replace (n + S (length ops))%nat with (S n + length ops)%nat by lia. apply IH; [done|lia|done].
Qed.

(** Deduplication window: a message accepted by the cache is recognised as a
    duplicate as long as it has not expired and fewer than [capacity]
    insertions have followed it. *)
Theorem dedup_window now c id ttl ops :
  cache_ok c → MessageCache_contains c id = false →
  (length ops < mc_capacity c)%nat → Forall (λ op, op.1.1 < now + ttl) ops →
  let c' := foldl insert_op (MessageCache_insert now c id ttl).1 ops in
  MessageCache_contains c' id = true ∧
  ∀ now' ttl', (MessageCache_insert now' c' id ttl').2 = false.
Proof.
  intros Hok Hc Hlen Hlive c'.
  destruct (insert_new_spec now c id ttl Hok Hc) as (k & Ho & Hcap & Hok' & _ & He & _ & _).
  assert (remembered id (MessageMeta_new now ttl) 0 (MessageCache_insert now c id ttl).1) as Hr.
  { split_and!; [done|done|]. eexists _, []. split; [exact Ho|done]. }
  assert (is_Some (mc_entries c' !! id)) as Hs.
  { rewrite <- Hcap in Hlen. destruct (remembered_run _ _ ops _ _ Hr Hlen Hlive) as (_ & Hm & _).
    by eexists. }
  split; [by apply bool_decide_eq_true|]. intros now' ttl'. unfold MessageCache_insert, MessageCache_contains.
  by rewrite bool_decide_eq_true_2.
Qed.

(** ** Expiry times *)

(** [TtlTracker]: a registered message is expired exactly from [now + ttl]
    on, its remaining lifetime is the time left; [cleanup_expired] removes and
    returns exactly the messages that have expired and leaves the others with
    their remaining lifetime. *)
Theorem ttl_tracker_spec now later t id ttl :
  let t' := TtlTracker_register now t id ttl in
  let '(t2, gone) := TtlTracker_cleanup_expired later t in
  (TtlTracker_is_expired later t' id = true ↔ now + ttl ≤ later) ∧
  TtlTracker_remaining_ttl later t' id = Some (now + ttl - later) ∧
  (∀ x, x ∈ gone ↔ TtlTracker_is_expired later t x = true) ∧
  (∀ x, tt_expirations t2 !! x =
     if TtlTracker_is_expired later t x then None else tt_expirations t !! x).
Proof.
  cbn [TtlTracker_cleanup_expired].
  assert (Hgone : ∀ x, x ∈ fst <$> filter (λ p, p.2 ≤ later) (map_to_list (tt_expirations t)) ↔
    TtlTracker_is_expired later t x = true).
  { intros x. unfold TtlTracker_is_expired. rewrite list_elem_of_fmap. split.
    - intros ([y e] & -> & [Hle Hin%elem_of_map_to_list]%list_elem_of_filter). simpl in *.
      rewrite Hin. by apply N.leb_le.
    - destruct (tt_expirations t !! x) as [e|] eqn:Hx; [|done]. intros Hle%N.leb_le.
      exists (x, e). split; [done|]. apply list_elem_of_filter. split; [done|]. by apply elem_of_map_to_list. }
  unfold TtlTracker_register, TtlTracker_remaining_ttl. split_and!; [| |done|].
  - unfold TtlTracker_is_expired. cbn. rewrite lookup_insert_eq. apply N.leb_le.
  - cbn. by rewrite lookup_insert_eq.
  - intros x. cbn [tt_expirations]. rewrite lookup_delete_all.
    destruct (TtlTracker_is_expired later t x) eqn:Hx.
    + by rewrite decide_True by (by apply Hgone).
    + rewrite decide_False; [done|]. rewrite Hgone. by rewrite Hx.
Qed.

(** ** Witnesses *)

Lemma cache_ok_new cap ttl : cache_ok (MessageCache_new cap ttl).
Proof. split; [constructor|]. intros id. simpl. split; [by intros []|by intros []%elem_of_nil]. Qed.

Lemma cache_insert_spec_witness :
  cache_ok (MessageCache_insert 0 (MessageCache_new 2 10) "a" 10).1.
Proof.
  exact (proj1 (cache_insert_spec 0 (MessageCache_new 2 10) "a" 10 (cache_ok_new 2 10))).
Defined.

Lemma dedup_window_witness :
  MessageCache_contains
    (foldl insert_op (MessageCache_insert 0 (MessageCache_new 3 10) "a" 10).1 [(1, "b", 10); (2, "c", 10)])
    "a" = true.
Proof.
  refine (proj1 (dedup_window 0 (MessageCache_new 3 10) "a" 10 [(1, "b", 10); (2, "c", 10)]
    (cache_ok_new 3 10) eq_refl _ _)).
  - simpl. lia.
  - repeat constructor; simpl; lia.
Defined.
