(* ===== verification/ContentHash.v ===== *)
(** * Content hashes ([crates/a3net-types/src/content.rs])

    A [ContentHash] is the lower-case hexadecimal text of a BLAKE3 digest.
    BLAKE3 is outside the repository: the class [Blake3], of which the code
    relies on the digest being 32 bytes ([Blake3Laws]); collision resistance is
    never assumed, the theorems that need it name the two inputs that collide. The
    decoder [as_bytes] is the repository's own. *)
From stdpp Require Import prelude strings gmap list.
From Stdlib Require Import NArith Lia Ascii.
From Stdlib Require String.
From S2P Require Import Prelude NodeId.

#[local] Open Scope N_scope.

Class Blake3 : Type := { blake3_hash : list N → list N }.

Class Blake3Laws (B : Blake3) : Prop := {
  blake3_length bs : length (blake3_hash bs) = 32%nat;
  blake3_bytes bs : bytes_ok (blake3_hash bs)
}.

(** Two inputs with the same digest. *)
Definition collides `{Blake3} (x y : list N) : Prop := x ≠ y ∧ blake3_hash x = blake3_hash y.

Record ContentHash : Type := mkContentHash { ch_hex : string }.

#[global] Instance ContentHash_eq_dec : EqDecision ContentHash.
Proof. solve_decision. Defined.
#[global] Instance ContentHash_countable : Countable ContentHash.
Proof. by apply (inj_countable' ch_hex mkContentHash); intros []. Defined.

Definition HEX_LEN : nat := 64%nat.

(** [blake3::hash(bytes).to_hex()]: two lower-case digits per byte. *)
Definition ContentHash_from_bytes `{Blake3} (bytes : list N) : ContentHash :=
  mkContentHash (hex_encode_ref (blake3_hash bytes)).

Definition ContentHash_from_hex (s : string) : result AdnetError ContentHash :=
  if negb (Nat.eqb (String.length s) HEX_LEN) || negb (str_forallb is_hexdigit s)
  then Err InvalidContentHash else Ok (mkContentHash (str_lower s)).

Definition hex_nibble (a : ascii) : N :=
  let b := N_of_ascii a in
  if (48 <=? b) && (b <=? 57) then b - 48
  else if (97 <=? b) && (b <=? 102) then b - 97 + 10
  else if (65 <=? b) && (b <=? 70) then b - 65 + 10
  else 0.

(** The loop over [chunks_exact(2)]. *)
Fixpoint hex_pairs (s : string) : list N :=
  match s with
  | String a (String b s') => N.lor (N.shiftl (hex_nibble a) 4) (hex_nibble b) :: hex_pairs s'
  | _ => []
  end.

Definition ContentHash_as_bytes (h : ContentHash) : list N := hex_pairs (ch_hex h).

(** The text has 64 characters, as the constructors ensure. A shorter text
    leaves zeros; the index of a longer one would be out of bounds. *)
Definition ContentHash_as_bytes_array (h : ContentHash) : list N :=
  take 32 (hex_pairs (ch_hex h) ++ replicate 32 0).

Definition ContentHash_short (h : ContentHash) : string := String.substring 0 8 (ch_hex h).

(** ** Text and digest *)

Lemma hex_nibble_char n : n < 16 → hex_nibble (nibble_char n) = n.
Proof.
  intros Hn. pose proof (N_check (λ n, hex_nibble (nibble_char n) =? n) 16 eq_refl n Hn) as H.
  by apply N.eqb_eq.
Qed.

Lemma nibbles_join b : b < 256 → N.lor (N.shiftl (b / 16) 4) (b mod 16) = b.
Proof.
  intros Hb. pose proof (N_check (λ b, N.lor (N.shiftl (b / 16) 4) (b mod 16) =? b) 256 eq_refl b Hb) as H.
  by apply N.eqb_eq.
Qed.

Lemma hex_pairs_encode bs : bytes_ok bs → hex_pairs (hex_encode_ref bs) = bs.
Proof.
  induction 1 as [|b bs Hb _ IH]; [done|]. cbn [hex_encode_ref hex_pairs]. unfold byte_ok in Hb.
  rewrite !hex_nibble_char by (apply N.mod_lt || apply N.Div0.div_lt_upper_bound; lia).
  by rewrite nibbles_join, IH.
Qed.

Section ContentHashLemmas.
Context `{HB : Blake3} {HBL : Blake3Laws HB}.

Lemma as_bytes_from_bytes data : ContentHash_as_bytes (ContentHash_from_bytes data) = blake3_hash data.
Proof. apply hex_pairs_encode, blake3_bytes. Qed.

Lemma as_bytes_array_from_bytes data :
  ContentHash_as_bytes_array (ContentHash_from_bytes data) = blake3_hash data.
Proof.
  unfold ContentHash_as_bytes_array. cbn [ContentHash_from_bytes ch_hex].
  rewrite hex_pairs_encode by apply blake3_bytes. by rewrite take_app_length' by (by rewrite blake3_length).
Qed.

Lemma length_as_bytes_array h : length (ContentHash_as_bytes_array h) = 32%nat.
Proof. unfold ContentHash_as_bytes_array. rewrite length_take, length_app, length_replicate. lia. Qed.

(** Different data with equal hashes collide. *)
Lemma from_bytes_inj_or_collides x y :
  ContentHash_from_bytes x = ContentHash_from_bytes y → x = y ∨ collides x y.
Proof.
  intros H. destruct (decide (x = y)) as [|Hne]; [by left|]. right. split; [done|].
  by rewrite <- !as_bytes_from_bytes, H.
Qed.
End ContentHashLemmas.

(** A digest function for the witnesses: the byte sum, padded. *)
#[global] Instance blake3_ref : Blake3 :=
  {| blake3_hash bs := be_bytes 32 (be_value bs + N.of_nat (length bs)) |}.

#[global] Instance blake3_ref_laws : Blake3Laws blake3_ref.
Proof. split; intros bs; [apply length_be_bytes|apply be_bytes_ok]. Qed.
