(* ===== verification/Wantlist.v ===== *)
(** * Bitswap wantlists ([crates/a3net-blobstore/src/bitswap_wantlist.rs])

    [PeerWantlist] is the list of blocks a peer wants; [WantlistManager] keeps
    one per peer and the set of all wanted blocks. Maps and sets are [gmap] and
    [gset]; where the visiting order shows (lists of messages, of wanters) it is
    that of [map_to_list]. A method of the manager is one transition; the effect
    of interleaving the parts of [add_want], which takes its locks one after the
    other, is shown at the end. The handles the manager gives out are not used
    behind its back. *)
From stdpp Require Import prelude strings gmap list sorting.
From Stdlib Require Import NArith ZArith Lia.
From S2P Require Import Prelude ContentHash.

#[local] Open Scope N_scope.

Inductive WantlistError : Type :=
| WantlistFull (len max : nat)
| WantNotFound (block : ContentHash)
| WantPeerNotFound (peer : string)
| InvalidPriority (p : Z).

Definition MAX_WANTLIST_SIZE : nat := 1024%nat.
Definition DEFAULT_WANTLIST_SYNC_INTERVAL : N := 30 * 1000000000.

Inductive WantType : Type := WantBlockType | WantHaveType.

#[global] Instance WantType_eq_dec : EqDecision WantType.
Proof. solve_decision. Defined.

Record WantEntry : Type := mkWantEntry {
  we_block : ContentHash;
  we_priority : Z;
  we_want_type : WantType;
  we_send_dont_have : bool;
  we_created_at : N;
  we_expires_at : option N;
  we_session_id : option N
}.

Definition WantEntry_want_block (now : N) (block : ContentHash) (priority : Z) : WantEntry :=
  mkWantEntry block priority WantBlockType false now None None.
Definition WantEntry_want_have (now : N) (block : ContentHash) (priority : Z) : WantEntry :=
  mkWantEntry block priority WantHaveType true now None None.

Definition WantEntry_is_expired (now : N) (e : WantEntry) : bool :=
  match we_expires_at e with Some expires => expires <? now | None => false end.

Definition WantEntry_with_expiry (now : N) (e : WantEntry) (duration : N) : WantEntry :=
  mkWantEntry (we_block e) (we_priority e) (we_want_type e) (we_send_dont_have e) (we_created_at e)
    (Some (now + duration)) (we_session_id e).

Definition WantEntry_with_session (e : WantEntry) (session_id : N) : WantEntry :=
  mkWantEntry (we_block e) (we_priority e) (we_want_type e) (we_send_dont_have e) (we_created_at e)
    (we_expires_at e) (Some session_id).

Record BitswapWant : Type := mkBitswapWant {
  bw_block : ContentHash;
  bw_priority : Z;
  bw_send_dont_have : bool
}.

Record BitswapResponse : Type := mkBitswapResponse {
  br_block : ContentHash;
  br_has_block : bool;
  br_data : option (list N)
}.

Inductive BitswapMessage : Type :=
| WantHave (block : ContentHash) (priority : Z) (send_dont_have : bool)
| WantBlock (block : ContentHash) (priority : Z)
| Cancel (block : ContentHash)
| Have (block : ContentHash) (immediate : bool)
| DontHave (block : ContentHash)
| Block (block : ContentHash) (data : list N)
| BatchWant (wants : list BitswapWant)
| BatchResponse (responses : list BitswapResponse).

(** ** One peer's wantlist *)

Record PeerWantlist : Type := mkPeerWantlist {
  pw_peer_id : string;
  pw_wants : gmap ContentHash WantEntry;
  pw_pending : gset ContentHash;
  pw_last_sync : N;
  pw_dirty : bool;
  pw_want_bytes : N
}.

Definition PeerWantlist_new (now : N) (peer_id : string) : PeerWantlist :=
  mkPeerWantlist peer_id ∅ ∅ now false 0.

Definition PeerWantlist_len (w : PeerWantlist) : nat := size (pw_wants w).
Definition PeerWantlist_contains (w : PeerWantlist) (block : ContentHash) : bool :=
  bool_decide (is_Some (pw_wants w !! block)).
Definition PeerWantlist_is_pending (w : PeerWantlist) (block : ContentHash) : bool :=
  bool_decide (block ∈ pw_pending w).

(** [sort_by(|a, b| b.priority.cmp(&a.priority))]. *)
Definition PeerWantlist_entries_by_priority (w : PeerWantlist) : list WantEntry :=
  sort_by (λ a b, (we_priority b <=? we_priority a)%Z) (snd <$> map_to_list (pw_wants w)).

Definition PeerWantlist_add_want (w : PeerWantlist) (entry : WantEntry)
  : PeerWantlist * result WantlistError unit :=
  if Nat.leb MAX_WANTLIST_SIZE (size (pw_wants w))
  then (w, Err (WantlistFull (size (pw_wants w)) MAX_WANTLIST_SIZE))
  else (mkPeerWantlist (pw_peer_id w) (<[we_block entry := entry]> (pw_wants w))
          ({[we_block entry]} ∪ pw_pending w) (pw_last_sync w) true (pw_want_bytes w), Ok tt).

Definition PeerWantlist_remove_want (w : PeerWantlist) (block : ContentHash)
  : PeerWantlist * option WantEntry :=
  (mkPeerWantlist (pw_peer_id w) (delete block (pw_wants w)) (pw_pending w ∖ {[block]})
     (pw_last_sync w) true (pw_want_bytes w), pw_wants w !! block).

Definition PeerWantlist_mark_received (w : PeerWantlist) (block : ContentHash) : PeerWantlist :=
  mkPeerWantlist (pw_peer_id w) (pw_wants w) (pw_pending w ∖ {[block]}) (pw_last_sync w)
    (pw_dirty w) (pw_want_bytes w).

Definition PeerWantlist_mark_synced (now : N) (w : PeerWantlist) : PeerWantlist :=
  mkPeerWantlist (pw_peer_id w) (pw_wants w) (pw_pending w) now false (pw_want_bytes w).

Definition PeerWantlist_cleanup_expired (now : N) (w : PeerWantlist) : PeerWantlist * list ContentHash :=
  let expired := fst <$> filter (λ p, WantEntry_is_expired now p.2 = true) (map_to_list (pw_wants w)) in
  (mkPeerWantlist (pw_peer_id w) (delete_all expired (pw_wants w))
     (foldl (λ s h, s ∖ {[h]}) (pw_pending w) expired) (pw_last_sync w)
     (match expired with [] => pw_dirty w | _ => true end) (pw_want_bytes w), expired).

Definition PeerWantlist_to_cancel_messages (w : PeerWantlist) : list BitswapMessage :=
  (λ p, Cancel p.1) <$> map_to_list (pw_wants w).

Definition PeerWantlist_to_want_messages (w : PeerWantlist) : list BitswapMessage :=
  (λ p, if decide (we_want_type p.2 = WantHaveType)
        then WantHave (we_block p.2) (we_priority p.2) (we_send_dont_have p.2)
        else WantBlock (we_block p.2) (we_priority p.2)) <$> map_to_list (pw_wants w).

(** ** The manager *)

Record WantlistManager : Type := mkWantlistManager {
  wm_peers : gmap string PeerWantlist;
  wm_global : gset ContentHash;
  wm_max_per_peer : nat;
  wm_cleanup_interval : N
}.

Definition WantlistManager_with_limits (max_per_peer : nat) (cleanup_interval : N) : WantlistManager :=
  mkWantlistManager ∅ ∅ max_per_peer cleanup_interval.

Definition WantlistManager_new : WantlistManager :=
  WantlistManager_with_limits MAX_WANTLIST_SIZE DEFAULT_WANTLIST_SYNC_INTERVAL.

Definition set_peers (m : WantlistManager) (ps : gmap string PeerWantlist) : WantlistManager :=
  mkWantlistManager ps (wm_global m) (wm_max_per_peer m) (wm_cleanup_interval m).
Definition set_global (m : WantlistManager) (g : gset ContentHash) : WantlistManager :=
  mkWantlistManager (wm_peers m) g (wm_max_per_peer m) (wm_cleanup_interval m).

Definition WantlistManager_get_or_create (now : N) (m : WantlistManager) (peer_id : string)
  : WantlistManager * PeerWantlist :=
  match wm_peers m !! peer_id with
  | Some w => (m, w)
  | None => let w := PeerWantlist_new now peer_id in (set_peers m (<[peer_id := w]> (wm_peers m)), w)
  end.

Definition WantlistManager_is_wanted (m : WantlistManager) (block : ContentHash) : bool :=
  bool_decide (block ∈ wm_global m).

Definition WantlistManager_is_wanted_elsewhere (m : WantlistManager) (exclude_peer : string)
    (block : ContentHash) : bool :=
  existsb (λ p, bool_decide (p.1 ≠ exclude_peer) && PeerWantlist_contains p.2 block)
    (map_to_list (wm_peers m)).

Definition WantlistManager_get_wanters (m : WantlistManager) (block : ContentHash) : list string :=
  fst <$> filter (λ p, PeerWantlist_contains p.2 block = true) (map_to_list (wm_peers m)).

Definition WantlistManager_remove (m : WantlistManager) (peer_id : string)
  : WantlistManager * option PeerWantlist :=
  match wm_peers m !! peer_id with
  | None => (m, None)
  | Some w =>
      let m := set_peers m (delete peer_id (wm_peers m)) in
      (set_global m
         (foldl (λ g p, if WantlistManager_is_wanted_elsewhere m peer_id (we_block p.2) then g
                        else g ∖ {[we_block p.2]}) (wm_global m) (map_to_list (pw_wants w))), Some w)
  end.

(** The two parts of [add_want]: the peer's list, then the global set. *)
Definition add_want_list (now : N) (m : WantlistManager) (peer_id : string) (entry : WantEntry)
  : WantlistManager * result WantlistError unit :=
  let '(m, w) := WantlistManager_get_or_create now m peer_id in
  let '(w, r) := PeerWantlist_add_want w entry in
  (set_peers m (<[peer_id := w]> (wm_peers m)), r).

Definition add_want_global (m : WantlistManager) (block : ContentHash) : WantlistManager :=
  set_global m ({[block]} ∪ wm_global m).

Definition WantlistManager_add_want (now : N) (m : WantlistManager) (peer_id : string) (entry : WantEntry)
  : WantlistManager * result WantlistError unit :=
  match add_want_list now m peer_id entry with
  | (m, Ok _) => (add_want_global m (we_block entry), Ok tt)
  | (m, Err e) => (m, Err e)
  end.

Definition WantlistManager_remove_want (m : WantlistManager) (peer_id : string) (block : ContentHash)
  : WantlistManager * option WantEntry :=
  match wm_peers m !! peer_id with
  | None => (m, None)
  | Some w =>
      let '(w, entry) := PeerWantlist_remove_want w block in
      let m := set_peers m (<[peer_id := w]> (wm_peers m)) in
      (match entry with
       | Some _ => if WantlistManager_is_wanted_elsewhere m peer_id block then m
                   else set_global m (wm_global m ∖ {[block]})
       | None => m
       end, entry)
  end.

Definition WantlistManager_mark_received (m : WantlistManager) (peer_id : string) (block : ContentHash)
  : WantlistManager :=
  match wm_peers m !! peer_id with
  | Some w => set_peers m (<[peer_id := PeerWantlist_mark_received w block]> (wm_peers m))
  | None => m
  end.

Definition WantlistManager_mark_synced (now : N) (m : WantlistManager) (peer_id : string) : WantlistManager :=
  match wm_peers m !! peer_id with
  | Some w => set_peers m (<[peer_id := PeerWantlist_mark_synced now w]> (wm_peers m))
  | None => m
  end.

(** The manager and the non-empty lists of expired blocks per peer. *)
Definition WantlistManager_cleanup_expired (now : N) (m : WantlistManager)
  : WantlistManager * gmap string (list ContentHash) :=
  let peers := (λ w, (PeerWantlist_cleanup_expired now w).1) <$> wm_peers m in
  let expired := filter (λ p, p.2 ≠ []) ((λ w, (PeerWantlist_cleanup_expired now w).2) <$> wm_peers m) in
  (mkWantlistManager peers
     (filter (λ block, existsb (λ p, PeerWantlist_contains p.2 block) (map_to_list peers) = true)
        (wm_global m)) (wm_max_per_peer m) (wm_cleanup_interval m), expired).

Definition WantlistManager_dirty_wantlists (m : WantlistManager) : list (string * PeerWantlist) :=
  filter (λ p, pw_dirty p.2 = true) (map_to_list (wm_peers m)).

(** ** Invariant *)

Record peer_ok (p : string) (w : PeerWantlist) : Prop := {
  pk_id : pw_peer_id w = p;
  pk_bound : (size (pw_wants w) ≤ MAX_WANTLIST_SIZE)%nat;
  pk_keys b e : pw_wants w !! b = Some e → we_block e = b;
  pk_pending b : b ∈ pw_pending w → is_Some (pw_wants w !! b)
}.

(** Some peer's list has the block. *)
Definition wanted (ps : gmap string PeerWantlist) (b : ContentHash) : Prop :=
  ∃ p w, ps !! p = Some w ∧ is_Some (pw_wants w !! b).

Record manager_ok (m : WantlistManager) : Prop := {
  mk_peers p w : wm_peers m !! p = Some w → peer_ok p w;
  mk_global b : b ∈ wm_global m ↔ wanted (wm_peers m) b
}.

Lemma contains_true w b : PeerWantlist_contains w b = true ↔ is_Some (pw_wants w !! b).
Proof. apply bool_decide_eq_true. Qed.

(** Another peer's list has the block. *)
Definition wanted_by_others (ps : gmap string PeerWantlist) (p : string) (b : ContentHash) : Prop :=
  ∃ q w, q ≠ p ∧ ps !! q = Some w ∧ is_Some (pw_wants w !! b).

Lemma wanted_elsewhere_true m p b :
  WantlistManager_is_wanted_elsewhere m p b = true ↔ wanted_by_others (wm_peers m) p b.
Proof.
  unfold WantlistManager_is_wanted_elsewhere. rewrite existsb_exists. split.
  - intros ([q w] & Hin%list_elem_of_In%elem_of_map_to_list & [Hq%bool_decide_eq_true Hc%contains_true]%andb_true_iff).
    by exists q, w.
  - intros (q & w & Hq & Hl & Hc). exists (q, w). split; [by apply list_elem_of_In, elem_of_map_to_list|].
    simpl. rewrite bool_decide_true by done. by apply contains_true.
Qed.

(** Only the list of [p] changes. *)
Lemma wanted_by_others_alter ps ps' p b :
  (∀ q, q ≠ p → ps' !! q = ps !! q) → wanted_by_others ps' p b ↔ wanted_by_others ps p b.
Proof.
  intros Hps. split; intros (q & w & Hq & Hl & Hs); exists q, w; (split; [done|]).
  - by rewrite <- Hps.
  - by rewrite Hps.
Qed.

Lemma wanted_known ps p w b :
  ps !! p = Some w → wanted ps b ↔ is_Some (pw_wants w !! b) ∨ wanted_by_others ps p b.
Proof.
  intros Hl. split.
  - intros (q & v & Hv & Hs). destruct (decide (q = p)) as [->|]; [left; congruence|right; by exists q, v].
  - intros [Hs|(q & v & _ & Hv & Hs)]; [by exists p, w|by exists q, v].
Qed.

Lemma wanted_unknown ps p b : ps !! p = None → wanted ps b ↔ wanted_by_others ps p b.
Proof.
  intros Hl. split; [|by intros (q & v & _ & Hv & Hs); exists q, v].
  intros (q & v & Hv & Hs). exists q, v. split; [congruence|done].
Qed.

(** Replacing one peer's list. *)
Lemma wanted_insert ps p w b :
  wanted (<[p := w]> ps) b ↔ is_Some (pw_wants w !! b) ∨ wanted_by_others ps p b.
Proof.
  rewrite (wanted_known _ p w) by apply lookup_insert_eq.
  by rewrite (wanted_by_others_alter ps) by (intros; by apply lookup_insert_ne).
Qed.

Lemma elem_of_foldl_difference (ids : list ContentHash) (s : gset ContentHash) b :
  b ∈ foldl (λ s h, s ∖ {[h]}) s ids ↔ b ∈ s ∧ b ∉ ids.
Proof.
  revert s. induction ids as [|x ids IH]; intros s; simpl; [set_solver|]. rewrite IH. set_solver.
Qed.

Lemma cleanup_wants now w b :
  pw_wants (PeerWantlist_cleanup_expired now w).1 !! b =
  match pw_wants w !! b with
  | Some e => if WantEntry_is_expired now e then None else Some e
  | None => None
  end.
Proof.
  cbn. rewrite lookup_delete_all. destruct (decide _) as [Hin|Hn].
  - apply list_elem_of_fmap in Hin as ([b' e] & -> & [Hx Hl%elem_of_map_to_list]%list_elem_of_filter).
    simpl in *. by rewrite Hl, Hx.
  - destruct (pw_wants w !! b) as [e|] eqn:Hl; [|done]. destruct (WantEntry_is_expired now e) eqn:Hx; [|done].
    destruct Hn. apply list_elem_of_fmap. exists (b, e). split; [done|].
    apply list_elem_of_filter. split; [done|]. by apply elem_of_map_to_list.
Qed.

Lemma peer_ok_new now p : peer_ok p (PeerWantlist_new now p).
Proof. split; simpl; [done|rewrite map_size_empty; unfold MAX_WANTLIST_SIZE; lia|done|set_solver]. Qed.

Lemma peer_ok_add p w e : peer_ok p w → peer_ok p (PeerWantlist_add_want w e).1.
Proof.
  intros [Hi Hb Hk Hp]. unfold PeerWantlist_add_want.
  ncase; [done|]. split; cbn.
  - done.
  - rewrite map_size_insert. destruct (pw_wants w !! we_block e); simpl; lia.
  - intros b e' [[<- <-]|[_ Hl]]%lookup_insert_Some; [done|by apply Hk].
  - intros b [->%elem_of_singleton|Hin]%elem_of_union; [by rewrite lookup_insert_eq|].
    destruct (decide (b = we_block e)) as [->|Hne]; [by rewrite lookup_insert_eq|].
    rewrite lookup_insert_ne by done. by apply Hp.
Qed.

Lemma peer_ok_remove_want p w b : peer_ok p w → peer_ok p (PeerWantlist_remove_want w b).1.
Proof.
  intros [Hi Hb Hk Hp]. split; cbn; [done|rewrite map_size_delete; destruct (pw_wants w !! b); simpl; lia|..].
  - intros b' e [_ Hl]%lookup_delete_Some. by apply Hk.
  - intros b' [Hin Hne]%elem_of_difference. rewrite lookup_delete_ne by set_solver. by apply Hp.
Qed.

Lemma peer_ok_cleanup now p w : peer_ok p w → peer_ok p (PeerWantlist_cleanup_expired now w).1.
Proof.
  intros [Hi Hb Hk Hp]. split; [done|..].
  - etrans; [|exact Hb]. apply map_subseteq_size, map_subseteq_spec. intros b e. rewrite cleanup_wants.
    destruct (pw_wants w !! b) as [e'|]; [|done]. by destruct (WantEntry_is_expired now e').
  - intros b e. rewrite cleanup_wants. destruct (pw_wants w !! b) as [e'|] eqn:Hl; [|done].
    destruct (WantEntry_is_expired now e'); [done|]. intros [= <-]. by apply Hk.
  - intros b. cbn. intros [Hin Hn]%elem_of_foldl_difference.
    rewrite lookup_delete_all, decide_False by done. by apply Hp.
Qed.

Lemma peers_ok_insert (ps : gmap string PeerWantlist) p w :
  (∀ q v, ps !! q = Some v → peer_ok q v) → peer_ok p w →
  ∀ q v, <[p := w]> ps !! q = Some v → peer_ok q v.
Proof. intros Hps Hw q v [[<- <-]|[_ Hl]]%lookup_insert_Some; auto. Qed.

#[export] Hint Resolve peer_ok_new peer_ok_add peer_ok_remove_want peer_ok_cleanup peers_ok_insert : adnet.

(** An update of one list that keeps which blocks it wants. *)
Lemma manager_ok_touch m p w w' :
  manager_ok m → wm_peers m !! p = Some w → peer_ok p w' →
  (∀ b, is_Some (pw_wants w' !! b) ↔ is_Some (pw_wants w !! b)) →
  manager_ok (set_peers m (<[p := w']> (wm_peers m))).
Proof.
  intros [Hp Hg] Hl Hw' Hsame. split; cbn; [by apply peers_ok_insert|].
  intros b. by rewrite Hg, wanted_insert, (wanted_known _ p w), Hsame.
Qed.

Lemma get_or_create_ok now m p :
  manager_ok m →
  manager_ok (WantlistManager_get_or_create now m p).1 ∧
  wm_peers (WantlistManager_get_or_create now m p).1 !! p = Some (WantlistManager_get_or_create now m p).2.
Proof.
  intros Hm. unfold WantlistManager_get_or_create. destruct (wm_peers m !! p) as [w|] eqn:Hl; [done|].
  split; [|apply lookup_insert_eq]. destruct Hm as [Hp Hg].
  split; cbn; [apply peers_ok_insert; [done|apply peer_ok_new]|].
  intros b. rewrite Hg, wanted_insert, (wanted_unknown _ p) by done. cbn. rewrite lookup_empty.
  split; [by right|]. by intros [[]%is_Some_None|].
Qed.

Lemma manager_ok_add_want now m p e : manager_ok m → manager_ok (WantlistManager_add_want now m p e).1.
Proof.
  intros Hm. unfold WantlistManager_add_want, add_want_list.
  destruct (get_or_create_ok now m p Hm) as [[Hp Hg] Hl].
  destruct (WantlistManager_get_or_create now m p) as [m1 w]. cbn [fst snd] in *.
  pose proof (peer_ok_add p w e (Hp p w Hl)) as Hw'. unfold PeerWantlist_add_want in *.
  destruct (Nat.leb MAX_WANTLIST_SIZE (size (pw_wants w))); cbn in *.
  - by rewrite insert_id.
  - split; cbn; [by apply peers_ok_insert|]. intros b.
    rewrite elem_of_union, elem_of_singleton, Hg, wanted_insert, (wanted_known _ p w) by done. cbn.
    destruct (decide (b = we_block e)) as [->|Hne].
    + rewrite lookup_insert_eq. split; [left; by eexists|by left].
    + rewrite lookup_insert_ne by done. tauto.
Qed.

Lemma manager_ok_remove_want m p b : manager_ok m → manager_ok (WantlistManager_remove_want m p b).1.
Proof.
  intros [Hp Hg]. unfold WantlistManager_remove_want. destruct (wm_peers m !! p) as [w|] eqn:Hl; [|done].
  cbn. pose proof (peer_ok_remove_want p w b (Hp p w Hl)) as Hw'. cbn in Hw'.
  set (w' := mkPeerWantlist _ _ _ _ _ _) in *. set (m1 := set_peers m (<[p := w']> (wm_peers m))).
  assert (Hps : ∀ q v, wm_peers m1 !! q = Some v → peer_ok q v) by (by apply peers_ok_insert).
  assert (Hold : ∀ c, c ∈ wm_global m ↔ is_Some (pw_wants w !! c) ∨ wanted_by_others (wm_peers m) p c).
  { intros c. by rewrite (Hg c), (wanted_known _ p w). }
  assert (Hnew : ∀ c, wanted (<[p := w']> (wm_peers m)) c ↔
    (b ≠ c ∧ is_Some (pw_wants w !! c)) ∨ wanted_by_others (wm_peers m) p c).
  { intros c. rewrite wanted_insert. change (pw_wants w') with (delete b (pw_wants w)).
    by rewrite lookup_delete_is_Some. }
  assert (Hel : WantlistManager_is_wanted_elsewhere m1 p b = true ↔ wanted_by_others (wm_peers m) p b).
  { rewrite wanted_elsewhere_true. apply wanted_by_others_alter. intros q Hq. by apply lookup_insert_ne. }
  destruct (pw_wants w !! b) as [e|] eqn:Hb;
    [destruct (WantlistManager_is_wanted_elsewhere m1 p b) eqn:He|]; split; try done; intros c;
    cbn [set_global wm_global wm_peers m1 set_peers]; rewrite ?elem_of_difference, ?elem_of_singleton, Hnew, Hold;
    (destruct (decide (c = b)) as [->|Hne]; [rewrite Hb|]).
  all: try (assert (b ≠ c) by congruence; tauto).
  - tauto.
  - split; [tauto|]. intros [[]|H%Hel]; congruence.
  - split; [intros [[]%is_Some_None|]; by right|tauto].
Qed.

(** The loop of [remove] over the entries of the removed list. *)
Lemma remove_global_loop (else_ : ContentHash → bool) (es : list (ContentHash * WantEntry)) g b :
  b ∈ foldl (λ g p, if else_ (we_block p.2) then g else g ∖ {[we_block p.2]}) g es ↔
  b ∈ (g : gset ContentHash) ∧ (else_ b = true ∨ b ∉ (λ p, we_block p.2) <$> es).
Proof.
  revert g. induction es as [|x es IH]; intros g; simpl; [set_solver|].
  rewrite IH, not_elem_of_cons. destruct (else_ (we_block x.2)) eqn:He.
  - destruct (decide (b = we_block x.2)) as [->|]; [rewrite He|]; naive_solver.
  - rewrite elem_of_difference, elem_of_singleton.
    destruct (decide (b = we_block x.2)) as [->|]; [rewrite He|]; naive_solver.
Qed.

Lemma manager_ok_remove m p : manager_ok m → manager_ok (WantlistManager_remove m p).1.
Proof.
  intros [Hp Hg]. unfold WantlistManager_remove. destruct (wm_peers m !! p) as [w|] eqn:Hl; [|done]. cbn.
  split; cbn. { intros q v [_ Hv]%lookup_delete_Some. by apply Hp. }
  intros b. rewrite remove_global_loop, wanted_elsewhere_true, Hg, (wanted_known (wm_peers m) p w) by done.
  rewrite (wanted_unknown (delete p (wm_peers m)) p) by apply lookup_delete_eq. cbn.
  rewrite !(wanted_by_others_alter (wm_peers m) (delete p (wm_peers m)))
    by (intros; by apply lookup_delete_ne).
  assert (Hb : b ∈ (λ p, we_block p.2) <$> map_to_list (pw_wants w) ↔ is_Some (pw_wants w !! b)).
  { rewrite list_elem_of_fmap. split.
    - intros ([b' e] & -> & Hin%elem_of_map_to_list). simpl.
      rewrite (pk_keys _ _ (Hp p w Hl) b' e Hin). by eexists.
    - intros [e He]. exists (b, e). split; [|by apply elem_of_map_to_list]. simpl.
      by rewrite (pk_keys _ _ (Hp p w Hl) b e He). }
  rewrite Hb. tauto.
Qed.

Lemma manager_ok_cleanup now m : manager_ok m → manager_ok (WantlistManager_cleanup_expired now m).1.
Proof.
  intros [Hp Hg]. unfold WantlistManager_cleanup_expired. split; cbn [fst wm_peers wm_global].
  - intros p w (w0 & <- & Hl)%lookup_fmap_Some. by apply peer_ok_cleanup, Hp.
  - intros b. rewrite elem_of_filter, existsb_exists, Hg. split.
    + intros [([p w] & Hin%list_elem_of_In%elem_of_map_to_list & Hc%contains_true) _]. by exists p, w.
    + intros (p & w & Hl & Hs). split.
      * exists (p, w). split; [by apply list_elem_of_In, elem_of_map_to_list|by apply contains_true].
      * apply lookup_fmap_Some in Hl as (w0 & <- & Hl). exists p, w0. split; [done|].
        destruct Hs as [e He]. rewrite cleanup_wants in He. destruct (pw_wants w0 !! b); [by eexists|done].
Qed.

(** ** Runs of the manager *)

Inductive WantOp : Type :=
| WGetOrCreate (now : N) (peer : string)
| WAdd (now : N) (peer : string) (entry : WantEntry)
| WRemoveWant (peer : string) (block : ContentHash)
| WRemove (peer : string)
| WMarkReceived (peer : string) (block : ContentHash)
| WMarkSynced (now : N) (peer : string)
| WCleanup (now : N).

Definition want_step (m : WantlistManager) (op : WantOp) : WantlistManager :=
  match op with
  | WGetOrCreate now p => (WantlistManager_get_or_create now m p).1
  | WAdd now p e => (WantlistManager_add_want now m p e).1
  | WRemoveWant p b => (WantlistManager_remove_want m p b).1
  | WRemove p => (WantlistManager_remove m p).1
  | WMarkReceived p b => WantlistManager_mark_received m p b
  | WMarkSynced now p => WantlistManager_mark_synced now m p
  | WCleanup now => (WantlistManager_cleanup_expired now m).1
  end.

#[export] Hint Resolve manager_ok_add_want manager_ok_remove_want manager_ok_remove manager_ok_cleanup : adnet.

Lemma manager_ok_step m op : manager_ok m → manager_ok (want_step m op).
Proof.
  intros Hm. destruct op as [now p|now p e|p b|p|p b|now p|now]; cbn [want_step]; try step_ok.
  - by apply get_or_create_ok.
  - unfold WantlistManager_mark_received. destruct (wm_peers m !! p) as [w|] eqn:Hl; [|done].
    apply (manager_ok_touch m p w); try done. destruct (mk_peers m Hm p w Hl) as [H1 H2 H3 H4].
    split; cbn; try done. intros b' [Hin _]%elem_of_difference. by apply H4.
  - unfold WantlistManager_mark_synced. destruct (wm_peers m !! p) as [w|] eqn:Hl; [|done].
    apply (manager_ok_touch m p w); try done. by destruct (mk_peers m Hm p w Hl).
Qed.

Lemma wanters_spec m b p :
  p ∈ WantlistManager_get_wanters m b ↔ ∃ w, wm_peers m !! p = Some w ∧ is_Some (pw_wants w !! b).
Proof.
  unfold WantlistManager_get_wanters. rewrite list_elem_of_fmap. split.
  - intros ([q w] & -> & [Hc%contains_true Hl%elem_of_map_to_list]%list_elem_of_filter). by exists w.
  - intros (w & Hl & Hs). exists (p, w). split; [done|]. apply list_elem_of_filter.
    split; [by apply contains_true|by apply elem_of_map_to_list].
Qed.

(** Wantlists stay consistent: in every state the manager reaches, the
    global set holds exactly the blocks some peer wants, so [is_wanted] says
    whether [get_wanters] is non-empty; each peer's list holds at most
    [MAX_WANTLIST_SIZE] entries, filed under their block, and only wanted blocks
    are pending. A full list refuses a want and is left as it is. *)
Theorem wantlist_consistent ops limit interval block :
  let m := foldl want_step (WantlistManager_with_limits limit interval) ops in
  (WantlistManager_is_wanted m block = true ↔ WantlistManager_get_wanters m block ≠ []) ∧
  (∀ p, p ∈ WantlistManager_get_wanters m block →
     ∃ w, wm_peers m !! p = Some w ∧ PeerWantlist_contains w block = true) ∧
  ∀ p w, wm_peers m !! p = Some w →
    (PeerWantlist_len w ≤ MAX_WANTLIST_SIZE)%nat ∧
    (∀ b e, pw_wants w !! b = Some e → we_block e = b) ∧
    (∀ b, PeerWantlist_is_pending w b = true → PeerWantlist_contains w b = true) ∧
    (PeerWantlist_len w = MAX_WANTLIST_SIZE → ∀ now e,
       WantlistManager_add_want now m p e = (m, Err (WantlistFull MAX_WANTLIST_SIZE MAX_WANTLIST_SIZE))).
Proof.
  intros m. assert (manager_ok m) as Hm.
  { unfold m. assert (manager_ok (WantlistManager_with_limits limit interval)) as H0.
    { split; [done|]. intros b. cbn. split; [set_solver|]. by intros (p & w & [=] & _). }
    revert H0. generalize (WantlistManager_with_limits limit interval).
    induction ops as [|op ops IH]; intros m0 H0; [done|]. by apply IH, manager_ok_step. }
  split_and!.
  - unfold WantlistManager_is_wanted. rewrite bool_decide_eq_true, (mk_global m Hm). split.
    + intros (p & w & Hl & Hs) Hn. apply (not_elem_of_nil p). rewrite <- Hn. apply wanters_spec. by exists w.
    + intros Hn. destruct (WantlistManager_get_wanters m block) as [|p l] eqn:Hg; [done|].
      assert (p ∈ WantlistManager_get_wanters m block) as (w & ? & ?)%wanters_spec by (rewrite Hg; left).
      by exists p, w.
  - intros p (w & Hl & Hs)%wanters_spec. exists w. split; [done|]. by apply contains_true.
  - intros p w Hl. destruct (mk_peers m Hm p w Hl) as [H1 H2 H3 H4]. split_and!; [done|done|..].
    + intros b Hb%bool_decide_eq_true. by apply contains_true, H4.
    + intros Hfull now e.
      unfold WantlistManager_add_want, add_want_list, WantlistManager_get_or_create. rewrite Hl.
      unfold PeerWantlist_add_want. unfold PeerWantlist_len in Hfull. rewrite Hfull, Nat.leb_refl. cbn.
      rewrite insert_id by done. by destruct m.
Qed.

(** [entries_by_priority] lists every want of the peer once, the most urgent
    first. *)
Theorem entries_by_priority_spec w :
  PeerWantlist_entries_by_priority w ≡ₚ snd <$> map_to_list (pw_wants w) ∧
  StronglySorted (λ a b, (we_priority b ≤ we_priority a)%Z) (PeerWantlist_entries_by_priority w).
Proof.
  split; [apply sort_by_perm|].
  assert (StronglySorted (λ a b, (we_priority b <=? we_priority a)%Z = true)
    (PeerWantlist_entries_by_priority w)) as Hs.
  { apply sort_by_sorted; [intros x y; destruct (Z.leb_spec (we_priority y) (we_priority x)); [by left|right]|].
    - apply Z.leb_le. lia.
    - intros x y z. rewrite !Z.leb_le. lia. }
  induction Hs as [|x l Hs IH HF]; constructor; [done|]. eapply Forall_impl; [exact HF|].
  intros y. simpl. apply Z.leb_le.
Qed.

(** ** Interleaving *)

(** [add_want] releases the peer's list before it updates the global set. When
    the peer is removed in between, the global set keeps a block nobody wants. *)
Theorem add_remove_race :
  let e := WantEntry_want_block 0 (mkContentHash "aa") 1 in
  let m1 := (add_want_list 0 WantlistManager_new "p" e).1 in
  let m2 := (WantlistManager_remove m1 "p").1 in
  let m3 := add_want_global m2 (we_block e) in
  WantlistManager_is_wanted m3 (mkContentHash "aa") = true ∧
  WantlistManager_get_wanters m3 (mkContentHash "aa") = [].
Proof. vm_compute. done. Qed.
