(* ===== verification/Bitswap.v ===== *)
(** * Bitswap engine ([crates/a3net-blobstore/src/bitswap.rs])

    Rate limiters, peer identifiers, ledgers, sessions, the queue of pending wants
    and the engine that processes the messages of its peers. The messages are
    those of [Wantlist]. Instants are nanoseconds; the readings of the clock within
    one call are one reading. [u64] sums wrap, as in a release build. A
    [BinaryHeap] is the list of its elements; which of several greatest elements
    it pops is the operation of the class [Heap], with the laws [HeapLaws]. The
    order in which a [HashMap] is visited matters when a session is evicted and is
    an argument there. The counters are those the engine touches; the histogram of
    the metrics is never written. The feature [reputation], off by default, and
    the sleep of [acquire] are not modelled.

    The theorems show the invariant of the engine, what the queue pops, what a
    burst of requests is admitted, that a block travels from one engine to
    another, and where the engine departs from its documentation. *)
From stdpp Require Import prelude strings gmap list sorting.
From Stdlib Require Import NArith ZArith Lia Ascii SpecFloat.
From Stdlib Require String.
From S2P Require Import Prelude Floats NodeId ContentHash Wantlist.

#[local] Open Scope N_scope.

Definition MAX_PENDING_WANTS : nat := 256%nat.
Definition DEFAULT_PEER_BUDGET_BYTES : N := 10 * 1024 * 1024.
Definition WANT_HAVE_TIMEOUT : N := 10 * 1000000000.
Definition WANT_BLOCK_TIMEOUT : N := 60 * 1000000000.

Definition u64_wrap (n : N) : N := n mod 2 ^ 64.

(** ** Rate limiting *)

Record RateLimiter : Type := mkRateLimiter {
  rl_tokens : f64; rl_max_tokens : f64; rl_refill_rate : f64; rl_last_refill : N
}.

Definition RateLimiter_new (now : N) (max_tokens refill_rate : f64) : RateLimiter :=
  mkRateLimiter max_tokens max_tokens refill_rate now.
Definition requests_per_second (now : N) (rps burst : f64) : RateLimiter := RateLimiter_new now burst rps.

Definition refill (now : N) (r : RateLimiter) : RateLimiter :=
  let elapsed := as_secs_f64 (now - rl_last_refill r) in
  let new_tokens := f64_mul elapsed (rl_refill_rate r) in
  mkRateLimiter (f64_min (f64_add (rl_tokens r) new_tokens) (rl_max_tokens r)) (rl_max_tokens r) (rl_refill_rate r) now.

Definition try_acquire_token (now : N) (r : RateLimiter) : bool * RateLimiter :=
  let r := refill now r in
  if SFleb (f64_of 1) (rl_tokens r)
  then (true, mkRateLimiter (f64_sub (rl_tokens r) (f64_of 1)) (rl_max_tokens r) (rl_refill_rate r) (rl_last_refill r))
  else (false, r).

(** The loop of [acquire] over the readings of the clock at its rounds. *)
Fixpoint acquire_token (clock : list N) (r : RateLimiter) : option RateLimiter :=
  match clock with
  | [] => None
  | now :: clock => let '(ok, r) := try_acquire_token now r in if ok then Some r else acquire_token clock r
  end.

Definition tokens_remaining (now : N) (r : RateLimiter) : f64 :=
  f64_min (f64_add (rl_tokens r) (f64_mul (as_secs_f64 (now - rl_last_refill r)) (rl_refill_rate r))) (rl_max_tokens r).

Record RateLimitConfig : Type := mkRateLimitConfig {
  rlc_requests_per_second : f64; rlc_burst_size : f64; rlc_max_concurrent : nat
}.
Definition RateLimitConfig_default : RateLimitConfig := mkRateLimitConfig (f64_of 100) (f64_of 200) 16.

Record PeerRateLimiters : Type := mkPeerRateLimiters { prl_limiters : gmap string RateLimiter; prl_config : RateLimitConfig }.

Definition PeerRateLimiters_with_config (config : RateLimitConfig) : PeerRateLimiters := mkPeerRateLimiters ∅ config.
Definition PeerRateLimiters_new : PeerRateLimiters := PeerRateLimiters_with_config RateLimitConfig_default.

Definition get_limiter (now : N) (l : PeerRateLimiters) (peer_id : string) : RateLimiter :=
  default (requests_per_second now (rlc_requests_per_second (prl_config l)) (rlc_burst_size (prl_config l)))
    (prl_limiters l !! peer_id).

Definition limiters_try_send (now : N) (l : PeerRateLimiters) (peer_id : string) : PeerRateLimiters * bool :=
  let '(ok, r) := try_acquire_token now (get_limiter now l peer_id) in
  (mkPeerRateLimiters (<[peer_id := r]> (prl_limiters l)) (prl_config l), ok).

Definition limiters_remaining (now : N) (l : PeerRateLimiters) (peer_id : string) : PeerRateLimiters * f64 :=
  let r := get_limiter now l peer_id in
  (mkPeerRateLimiters (<[peer_id := r]> (prl_limiters l)) (prl_config l), tokens_remaining now r).

Definition limiters_clear (l : PeerRateLimiters) : PeerRateLimiters := mkPeerRateLimiters ∅ (prl_config l).
Definition limiters_remove (l : PeerRateLimiters) (peer_id : string) : PeerRateLimiters :=
  mkPeerRateLimiters (delete peer_id (prl_limiters l)) (prl_config l).

(** ** Peer identifiers *)

Inductive PeerIdValidationError : Type :=
| IdTooShort (actual min : nat)
| IdTooLong (actual max : nat)
| InvalidCharacters (reason : string).

Record PeerIdConfig : Type := mkPeerIdConfig {
  pic_min_length : nat; pic_max_length : nat; pic_allowed_pattern : option string
}.
Definition standard_pattern : string := "^[a-zA-Z0-9_-]+$".
Definition lowercase_pattern : string := "^[a-z]+$".
Definition PeerIdConfig_default : PeerIdConfig := mkPeerIdConfig 4 128 (Some standard_pattern).

(** The bytes of the character a text goes on with, after its first byte. *)
Fixpoint continuation (s : string) : string :=
  match s with
  | String a s => if (128 <=? N_of_ascii a) && (N_of_ascii a <? 192) then String a (continuation s) else EmptyString
  | EmptyString => EmptyString
  end.

(** The first character that is not allowed. *)
Fixpoint first_bad (allowed : ascii → bool) (s : string) : option string :=
  match s with
  | EmptyString => None
  | String a s' => if allowed a then first_bad allowed s' else Some (String a (continuation s'))
  end.

Definition id_char (a : ascii) : bool :=
  let n := N_of_ascii a in
  ((48 <=? n) && (n <=? 57)) || ((65 <=? n) && (n <=? 90)) || ((97 <=? n) && (n <=? 122)) || (n =? 95) || (n =? 45).
Definition id_lowercase (a : ascii) : bool := let n := N_of_ascii a in (97 <=? n) && (n <=? 122).

Definition check_pattern (peer_id pattern : string) : option string :=
  if String.eqb pattern standard_pattern
  then (λ c, "found invalid character: '" ++ c ++ "'")%string <$> first_bad id_char peer_id
  else if String.eqb pattern lowercase_pattern
  then (λ c, "found invalid character: '" ++ c ++ "' (expected lowercase letter)")%string <$> first_bad id_lowercase peer_id
  else (λ c, "found invalid character: '" ++ c ++ "'")%string <$> first_bad id_char peer_id.

Definition validate_id (config : PeerIdConfig) (peer_id : string) : result PeerIdValidationError unit :=
  let len := String.length peer_id in
  if Nat.ltb len (pic_min_length config) then Err (IdTooShort len (pic_min_length config))
  else if Nat.ltb (pic_max_length config) len then Err (IdTooLong len (pic_max_length config))
  else match pattern ← pic_allowed_pattern config; check_pattern peer_id pattern with
       | Some reason => Err (InvalidCharacters reason)
       | None => Ok tt
       end.

(** ** Ledgers *)

Record LedgerFlags : Type := mkLedgerFlags { lf_server : bool; lf_client : bool; lf_throttled : bool; lf_blocked : bool }.

Record PeerLedger : Type := mkPeerLedger {
  pl_peer_id : string;
  pl_bytes_sent : N;
  pl_bytes_received : N;
  pl_blocks_sent : N;
  pl_blocks_received : N;
  pl_want_bytes : N;
  pl_peer_want_bytes : N;
  pl_credit_limit : N;
  pl_last_update : N;
  pl_flags : LedgerFlags
}.

Definition PeerLedger_new (now : N) (peer_id : string) : PeerLedger :=
  mkPeerLedger peer_id 0 0 0 0 0 0 DEFAULT_PEER_BUDGET_BYTES now (mkLedgerFlags false false false false).

Definition with_credit_limit (l : PeerLedger) (limit : N) : PeerLedger :=
  mkPeerLedger (pl_peer_id l) (pl_bytes_sent l) (pl_bytes_received l) (pl_blocks_sent l) (pl_blocks_received l)
    (pl_want_bytes l) (pl_peer_want_bytes l) limit (pl_last_update l) (pl_flags l).

(** The counters, with the other fields kept. *)
Definition set_counts (l : PeerLedger) (sent received blocks_sent blocks_received last_update : N) : PeerLedger :=
  mkPeerLedger (pl_peer_id l) sent received blocks_sent blocks_received
    (pl_want_bytes l) (pl_peer_want_bytes l) (pl_credit_limit l) last_update (pl_flags l).
Definition set_want_bytes (l : PeerLedger) (want peer_want : N) : PeerLedger :=
  mkPeerLedger (pl_peer_id l) (pl_bytes_sent l) (pl_bytes_received l) (pl_blocks_sent l) (pl_blocks_received l)
    want peer_want (pl_credit_limit l) (pl_last_update l) (pl_flags l).
Definition set_flags (l : PeerLedger) (f : LedgerFlags) : PeerLedger :=
  mkPeerLedger (pl_peer_id l) (pl_bytes_sent l) (pl_bytes_received l) (pl_blocks_sent l) (pl_blocks_received l)
    (pl_want_bytes l) (pl_peer_want_bytes l) (pl_credit_limit l) (pl_last_update l) f.

Definition record_sent (now bytes : N) (l : PeerLedger) : PeerLedger :=
  set_counts l (u64_wrap (pl_bytes_sent l + bytes)) (pl_bytes_received l) (pl_blocks_sent l) (pl_blocks_received l) now.
Definition record_received (now bytes : N) (l : PeerLedger) : PeerLedger :=
  set_counts l (pl_bytes_sent l) (u64_wrap (pl_bytes_received l + bytes)) (pl_blocks_sent l) (pl_blocks_received l) now.
Definition record_block_sent (l : PeerLedger) : PeerLedger :=
  set_counts l (pl_bytes_sent l) (pl_bytes_received l) (u64_wrap (pl_blocks_sent l + 1)) (pl_blocks_received l) (pl_last_update l).
Definition record_block_received (l : PeerLedger) : PeerLedger :=
  set_counts l (pl_bytes_sent l) (pl_bytes_received l) (pl_blocks_sent l) (u64_wrap (pl_blocks_received l + 1)) (pl_last_update l).

Definition ledger_add_want (bytes : N) (l : PeerLedger) : PeerLedger :=
  set_want_bytes l (u64_wrap (pl_want_bytes l + bytes)) (pl_peer_want_bytes l).
Definition ledger_remove_want (bytes : N) (l : PeerLedger) : PeerLedger :=
  set_want_bytes l (pl_want_bytes l - bytes) (pl_peer_want_bytes l).
Definition add_peer_want (bytes : N) (l : PeerLedger) : PeerLedger :=
  set_want_bytes l (pl_want_bytes l) (u64_wrap (pl_peer_want_bytes l + bytes)).

Definition can_receive (l : PeerLedger) : bool := negb (lf_blocked (pl_flags l)) && (pl_bytes_received l <? pl_credit_limit l).
Definition can_send (l : PeerLedger) : bool := negb (lf_blocked (pl_flags l)) && (pl_bytes_sent l <? pl_credit_limit l).

(** [x as i64], and a difference that wraps. *)
Definition i64_wrap (z : Z) : Z := ((z + 2 ^ 63) mod 2 ^ 64 - 2 ^ 63)%Z.
Definition ledger_balance (l : PeerLedger) : Z :=
  i64_wrap (i64_wrap (Z.of_N (pl_bytes_received l)) - i64_wrap (Z.of_N (pl_bytes_sent l))).

Definition throttle (l : PeerLedger) : PeerLedger :=
  let f := pl_flags l in set_flags l (mkLedgerFlags (lf_server f) (lf_client f) true (lf_blocked f)).
Definition unthrottle (l : PeerLedger) : PeerLedger :=
  let f := pl_flags l in set_flags l (mkLedgerFlags (lf_server f) (lf_client f) false (lf_blocked f)).
Definition block_peer (l : PeerLedger) : PeerLedger :=
  let f := pl_flags l in set_flags l (mkLedgerFlags (lf_server f) (lf_client f) (lf_throttled f) true).

Record LedgerStats : Type := mkLedgerStats {
  lst_peer_id : string; lst_bytes_sent : N; lst_bytes_received : N; lst_blocks_sent : N; lst_blocks_received : N;
  lst_want_bytes : N; lst_balance : Z; lst_throttled : bool; lst_blocked : bool
}.
Definition LedgerStats_from (l : PeerLedger) : LedgerStats :=
  mkLedgerStats (pl_peer_id l) (pl_bytes_sent l) (pl_bytes_received l) (pl_blocks_sent l) (pl_blocks_received l)
    (pl_want_bytes l) (ledger_balance l) (lf_throttled (pl_flags l)) (lf_blocked (pl_flags l)).

(** ** Sessions *)

Record BitswapSession : Type := mkBitswapSession {
  bss_id : N;
  bss_root : option ContentHash;
  bss_peers : list string;
  bss_blocks : gset ContentHash;
  bss_active_wants : gset ContentHash;
  bss_peer_scores : gmap string N;
  bss_created_at : N;
  bss_last_activity : N
}.

Definition BitswapSession_new (now id : N) : BitswapSession := mkBitswapSession id None [] ∅ ∅ ∅ now now.
Definition session_set_root (s : BitswapSession) (root : ContentHash) : BitswapSession :=
  mkBitswapSession (bss_id s) (Some root) (bss_peers s) (bss_blocks s) (bss_active_wants s) (bss_peer_scores s)
    (bss_created_at s) (bss_last_activity s).
Definition session_set_peers (s : BitswapSession) (peers : list string) (scores : gmap string N) : BitswapSession :=
  mkBitswapSession (bss_id s) (bss_root s) peers (bss_blocks s) (bss_active_wants s) scores (bss_created_at s) (bss_last_activity s).
Definition session_set_blocks (s : BitswapSession) (blocks wants : gset ContentHash) : BitswapSession :=
  mkBitswapSession (bss_id s) (bss_root s) (bss_peers s) blocks wants (bss_peer_scores s) (bss_created_at s) (bss_last_activity s).
Definition session_touch (now : N) (s : BitswapSession) : BitswapSession :=
  mkBitswapSession (bss_id s) (bss_root s) (bss_peers s) (bss_blocks s) (bss_active_wants s) (bss_peer_scores s) (bss_created_at s) now.

Definition session_with_root : BitswapSession → ContentHash → BitswapSession := session_set_root.
Definition session_add_peer (s : BitswapSession) (peer_id : string) : BitswapSession :=
  if bool_decide (peer_id ∈ bss_peers s) then s
  else session_set_peers s (bss_peers s ++ [peer_id]) (<[peer_id := 0]> (bss_peer_scores s)).
Definition session_remove_peer (s : BitswapSession) (peer_id : string) : BitswapSession :=
  session_set_peers s (filter (λ p, p ≠ peer_id) (bss_peers s)) (delete peer_id (bss_peer_scores s)).
Definition session_add_block (now : N) (s : BitswapSession) (block : ContentHash) : BitswapSession :=
  session_touch now (session_set_blocks s ({[block]} ∪ bss_blocks s) (bss_active_wants s)).
Definition session_add_blocks (now : N) (s : BitswapSession) (blocks : list ContentHash) : BitswapSession :=
  session_touch now (session_set_blocks s (foldl (λ bs b, {[b]} ∪ bs) (bss_blocks s) blocks) (bss_active_wants s)).
Definition session_has_block (s : BitswapSession) (block : ContentHash) : bool := bool_decide (block ∈ bss_blocks s).
Definition start_want (now : N) (s : BitswapSession) (block : ContentHash) : BitswapSession :=
  session_touch now (session_set_blocks s (bss_blocks s) ({[block]} ∪ bss_active_wants s)).
Definition stop_want (s : BitswapSession) (block : ContentHash) : BitswapSession :=
  session_set_blocks s (bss_blocks s) (bss_active_wants s ∖ {[block]}).
Definition is_wanting (s : BitswapSession) (block : ContentHash) : bool := bool_decide (block ∈ bss_active_wants s).

Definition record_peer_blocks (now : N) (s : BitswapSession) (peer_id : string) (blocks : list ContentHash) : BitswapSession :=
  session_touch now
    (session_set_peers s (bss_peers s) (alter (λ n, u64_wrap (n + N.of_nat (length blocks))) peer_id (bss_peer_scores s))).
Definition update_from_have : N → BitswapSession → string → list ContentHash → BitswapSession := record_peer_blocks.

Definition peer_score (s : BitswapSession) (peer_id : string) : N := default 0 (bss_peer_scores s !! peer_id).

(** The stable sort by falling scores. *)
Definition best_peer_for (s : BitswapSession) (block : ContentHash) : option string :=
  head (sort_by (λ a b, peer_score s b <=? peer_score s a) (bss_peers s)).

Definition decay_scores (s : BitswapSession) : BitswapSession :=
  session_set_peers s (bss_peers s) ((λ n, u64_wrap (n + 1) / 2) <$> bss_peer_scores s).
Definition session_age (now : N) (s : BitswapSession) : N := now - bss_created_at s.
Definition idle_time (now : N) (s : BitswapSession) : N := now - bss_last_activity s.
Definition session_is_stale (now : N) (s : BitswapSession) (max_idle : N) : bool := max_idle <? idle_time now s.

(** [SessionManager]. *)
Record BitswapSessions : Type := mkBitswapSessions {
  sm_sessions : gmap N BitswapSession; sm_next_id : N; sm_max_sessions : nat
}.

Definition BitswapSessions_new (max_sessions : nat) : BitswapSessions := mkBitswapSessions ∅ 1 max_sessions.
Definition set_sessions (m : BitswapSessions) (ss : gmap N BitswapSession) : BitswapSessions :=
  mkBitswapSessions ss (sm_next_id m) (sm_max_sessions m).

(** [min_by_key] over the creation times: the first of the least. *)
Fixpoint oldest_session (ss : list BitswapSession) : option BitswapSession :=
  match ss with
  | [] => None
  | s :: ss => match oldest_session ss with
               | Some t => if bss_created_at s <=? bss_created_at t then Some s else Some t
               | None => Some s
               end
  end.

(** [visit] is the order in which the map is visited. *)
Definition manager_create_session (visit : gmap N BitswapSession → list BitswapSession) (now : N) (m : BitswapSessions)
  : BitswapSessions * BitswapSession :=
  let id := sm_next_id m in
  let session := BitswapSession_new now id in
  let sessions := if Nat.leb (sm_max_sessions m) (size (sm_sessions m))
                  then match oldest_session (visit (sm_sessions m)) with
                       | Some oldest => delete (bss_id oldest) (sm_sessions m)
                       | None => sm_sessions m
                       end
                  else sm_sessions m in
  (mkBitswapSessions (<[id := session]> sessions) (u64_wrap (id + 1)) (sm_max_sessions m), session).

Definition manager_create_session_for (visit : gmap N BitswapSession → list BitswapSession) (now : N) (m : BitswapSessions)
    (root : ContentHash) : BitswapSessions * BitswapSession :=
  let '(m, session) := manager_create_session visit now m in (m, session_set_root session root).

Definition manager_get_session (m : BitswapSessions) (id : N) : option BitswapSession := sm_sessions m !! id.
Definition manager_update_session (m : BitswapSessions) (s : BitswapSession) : BitswapSessions :=
  set_sessions m (<[bss_id s := s]> (sm_sessions m)).
Definition manager_remove_session (m : BitswapSessions) (id : N) : BitswapSessions := set_sessions m (delete id (sm_sessions m)).
Definition manager_cleanup_stale (now : N) (m : BitswapSessions) (max_idle : N) : BitswapSessions :=
  set_sessions m (filter (λ e, session_is_stale now e.2 max_idle = false) (sm_sessions m)).
Definition manager_all_sessions (m : BitswapSessions) : list BitswapSession := snd <$> map_to_list (sm_sessions m).
Definition manager_count (m : BitswapSessions) : nat := size (sm_sessions m).

(** ** Pending wants *)

Record PendingWant : Type := mkPendingWant {
  pw_block : ContentHash;
  pw_priority : Z;
  pw_want_have : bool;
  pw_send_dont_have : bool;
  pw_created_at : N;
  pw_deadline : N;
  pw_session_id : option N;
  pw_peer_prefs : list string
}.

Definition PendingWant_want_block (now : N) (block : ContentHash) (priority : Z) : PendingWant :=
  mkPendingWant block priority false false now (now + WANT_BLOCK_TIMEOUT) None [].
Definition PendingWant_want_have (now : N) (block : ContentHash) (priority : Z) : PendingWant :=
  mkPendingWant block priority true true now (now + WANT_HAVE_TIMEOUT) None [].
Definition pending_is_expired (now : N) (w : PendingWant) : bool := pw_deadline w <? now.
Definition extend_deadline (now : N) (w : PendingWant) (duration : N) : PendingWant :=
  mkPendingWant (pw_block w) (pw_priority w) (pw_want_have w) (pw_send_dont_have w) (pw_created_at w) (now + duration)
    (pw_session_id w) (pw_peer_prefs w).

(** [PartialEq] compares the blocks only, [Ord] the priority and then the creation. *)
Definition pending_eqb (a b : PendingWant) : bool := bool_decide (pw_block a = pw_block b).
Definition pending_cmp (a b : PendingWant) : comparison :=
  match (pw_priority a ?= pw_priority b)%Z with Eq => pw_created_at a ?= pw_created_at b | c => c end.

(** [BinaryHeap::pop] removes a greatest element. *)
Class Heap : Type := { heap_pop : list PendingWant → option (PendingWant * list PendingWant) }.
Class HeapLaws (H : Heap) : Prop := {
  heap_pop_nil : heap_pop [] = None;
  heap_pop_some h : h ≠ [] → ∃ w h', heap_pop h = Some (w, h') ∧ h ≡ₚ w :: h' ∧ ∀ w', w' ∈ h → pending_cmp w' w ≠ Gt
}.

(** [PeerWantList], the wants of a peer as the engine keeps them. *)
Record PeerWantList : Type := mkPeerWantList { wl_wants : gset ContentHash; wl_want_haves : gset ContentHash }.
Definition PeerWantList_default : PeerWantList := mkPeerWantList ∅ ∅.
Definition wl_add_want (l : PeerWantList) (block : ContentHash) : PeerWantList :=
  mkPeerWantList ({[block]} ∪ wl_wants l) (wl_want_haves l).
Definition wl_add_want_have (l : PeerWantList) (block : ContentHash) : PeerWantList :=
  mkPeerWantList (wl_wants l) ({[block]} ∪ wl_want_haves l).
Definition wl_remove_want (l : PeerWantList) (block : ContentHash) : PeerWantList :=
  mkPeerWantList (wl_wants l ∖ {[block]}) (wl_want_haves l).
Definition wl_wants_block (l : PeerWantList) (block : ContentHash) : bool := bool_decide (block ∈ wl_wants l).
Definition wl_wants_have (l : PeerWantList) (block : ContentHash) : bool := bool_decide (block ∈ wl_want_haves l).

Record WantManager : Type := mkWantManager {
  wm_peer_wants : gmap string PeerWantList;
  wm_pending_wants : list PendingWant;
  wm_local_blocks : gset ContentHash;
  wm_block_data : gmap ContentHash (list N)
}.

Definition WantManager_new : WantManager := mkWantManager ∅ [] ∅ ∅.
Definition wm_set_peer_wants (m : WantManager) (p : gmap string PeerWantList) : WantManager :=
  mkWantManager p (wm_pending_wants m) (wm_local_blocks m) (wm_block_data m).
Definition wm_set_pending (m : WantManager) (p : list PendingWant) : WantManager :=
  mkWantManager (wm_peer_wants m) p (wm_local_blocks m) (wm_block_data m).

Definition wm_add_local_block (m : WantManager) (block : ContentHash) : WantManager :=
  mkWantManager (wm_peer_wants m) (wm_pending_wants m) ({[block]} ∪ wm_local_blocks m) (wm_block_data m).
Definition wm_add_block_data (m : WantManager) (block : ContentHash) (data : list N) : WantManager :=
  mkWantManager (wm_peer_wants m) (wm_pending_wants m) (wm_local_blocks m) (<[block := data]> (wm_block_data m)).
Definition has_local (m : WantManager) (block : ContentHash) : bool := bool_decide (block ∈ wm_local_blocks m).
Definition get_block_data (m : WantManager) (block : ContentHash) : option (list N) := wm_block_data m !! block.

Definition wm_add_want (m : WantManager) (peer_id : string) (block : ContentHash) (want_have : bool) : WantManager :=
  let wants := default PeerWantList_default (wm_peer_wants m !! peer_id) in
  wm_set_peer_wants m
    (<[peer_id := if want_have then wl_add_want_have wants block else wl_add_want wants block]> (wm_peer_wants m)).
Definition wm_remove_want (m : WantManager) (peer_id : string) (block : ContentHash) : WantManager :=
  wm_set_peer_wants m (alter (λ l, wl_remove_want l block) peer_id (wm_peer_wants m)).
Definition wants_any (l : PeerWantList) (block : ContentHash) : bool := wl_wants_block l block || wl_wants_have l block.
Definition wm_is_wanted (m : WantManager) (block : ContentHash) : bool :=
  existsb (λ e, wants_any e.2 block) (map_to_list (wm_peer_wants m)).
Definition wm_get_wanters (m : WantManager) (block : ContentHash) : list string :=
  fst <$> filter (λ e, wants_any e.2 block = true) (map_to_list (wm_peer_wants m)).

Definition push_pending (m : WantManager) (want : PendingWant) : WantManager :=
  if Nat.ltb (length (wm_pending_wants m)) MAX_PENDING_WANTS
  then wm_set_pending m (want :: wm_pending_wants m) else m.
Definition pop_pending `{Heap} (m : WantManager) : WantManager * option PendingWant :=
  match heap_pop (wm_pending_wants m) with
  | Some (w, h) => (wm_set_pending m h, Some w)
  | None => (m, None)
  end.
Definition wm_cleanup_expired (now : N) (m : WantManager) : WantManager :=
  wm_set_pending m (filter (λ w, now < pw_deadline w) (wm_pending_wants m)).
Definition wm_get_peer_wants (m : WantManager) (peer_id : string) : PeerWantList :=
  default PeerWantList_default (wm_peer_wants m !! peer_id).

(** ** Peers *)

Record BitswapPeer : Type := mkBitswapPeer {
  ps_peer_id : string;
  ps_connected_at : N;
  ps_last_message : N;
  ps_ledger : PeerLedger;
  ps_want_list : PeerWantList;
  ps_known_blocks : gset ContentHash;
  ps_pending_requests : gmap ContentHash N
}.

Definition BitswapPeer_new (now : N) (peer_id : string) : BitswapPeer :=
  mkBitswapPeer peer_id now now (PeerLedger_new now peer_id) PeerWantList_default ∅ ∅.
Definition record_message (now : N) (p : BitswapPeer) : BitswapPeer :=
  mkBitswapPeer (ps_peer_id p) (ps_connected_at p) now (ps_ledger p) (ps_want_list p) (ps_known_blocks p) (ps_pending_requests p).
Definition ps_set_ledger (p : BitswapPeer) (l : PeerLedger) : BitswapPeer :=
  mkBitswapPeer (ps_peer_id p) (ps_connected_at p) (ps_last_message p) l (ps_want_list p) (ps_known_blocks p) (ps_pending_requests p).
Definition ps_set_want_list (p : BitswapPeer) (l : PeerWantList) : BitswapPeer :=
  mkBitswapPeer (ps_peer_id p) (ps_connected_at p) (ps_last_message p) (ps_ledger p) l (ps_known_blocks p) (ps_pending_requests p).
Definition ps_set_requests (p : BitswapPeer) (r : gmap ContentHash N) : BitswapPeer :=
  mkBitswapPeer (ps_peer_id p) (ps_connected_at p) (ps_last_message p) (ps_ledger p) (ps_want_list p) (ps_known_blocks p) r.

Definition add_known_block (p : BitswapPeer) (block : ContentHash) : BitswapPeer :=
  mkBitswapPeer (ps_peer_id p) (ps_connected_at p) (ps_last_message p) (ps_ledger p) (ps_want_list p)
    ({[block]} ∪ ps_known_blocks p) (ps_pending_requests p).
Definition peer_has_block (p : BitswapPeer) (block : ContentHash) : bool := bool_decide (block ∈ ps_known_blocks p).
Definition start_request (now : N) (p : BitswapPeer) (block : ContentHash) : BitswapPeer :=
  ps_set_requests p (<[block := now]> (ps_pending_requests p)).
Definition complete_request (p : BitswapPeer) (block : ContentHash) : BitswapPeer :=
  ps_set_requests p (delete block (ps_pending_requests p)).
Definition has_pending_request (p : BitswapPeer) (block : ContentHash) : bool :=
  bool_decide (is_Some (ps_pending_requests p !! block)).
Definition cleanup_timedout (now timeout : N) (p : BitswapPeer) : BitswapPeer :=
  ps_set_requests p (filter (λ e, now - e.2 < timeout) (ps_pending_requests p)).

(** ** Metrics *)

Record BitswapMetrics : Type := mkBitswapMetrics {
  bm_messages_received : N;
  bm_want_haves_sent : N;
  bm_want_blocks_sent : N;
  bm_blocks_received : N;
  bm_blocks_sent : N;
  bm_bytes_received : N;
  bm_active_sessions : Z;
  bm_active_peers : Z;
  bm_pending_wants : Z
}.
Definition BitswapMetrics_default : BitswapMetrics := mkBitswapMetrics 0 0 0 0 0 0 0 0 0.

Definition count_message (m : BitswapMetrics) : BitswapMetrics :=
  mkBitswapMetrics (u64_wrap (bm_messages_received m + 1)) (bm_want_haves_sent m) (bm_want_blocks_sent m) (bm_blocks_received m)
    (bm_blocks_sent m) (bm_bytes_received m) (bm_active_sessions m) (bm_active_peers m) (bm_pending_wants m).
Definition count_wants (have block : N) (m : BitswapMetrics) : BitswapMetrics :=
  mkBitswapMetrics (bm_messages_received m) (u64_wrap (bm_want_haves_sent m + have)) (u64_wrap (bm_want_blocks_sent m + block))
    (bm_blocks_received m) (bm_blocks_sent m) (bm_bytes_received m) (bm_active_sessions m) (bm_active_peers m) (bm_pending_wants m).
Definition count_blocks (received sent bytes : N) (m : BitswapMetrics) : BitswapMetrics :=
  mkBitswapMetrics (bm_messages_received m) (bm_want_haves_sent m) (bm_want_blocks_sent m) (u64_wrap (bm_blocks_received m + received))
    (u64_wrap (bm_blocks_sent m + sent)) (u64_wrap (bm_bytes_received m + bytes))
    (bm_active_sessions m) (bm_active_peers m) (bm_pending_wants m).
Definition set_gauges (sessions peers wants : Z) (m : BitswapMetrics) : BitswapMetrics :=
  mkBitswapMetrics (bm_messages_received m) (bm_want_haves_sent m) (bm_want_blocks_sent m) (bm_blocks_received m)
    (bm_blocks_sent m) (bm_bytes_received m) sessions peers wants.

(** ** The engine *)

Record BitswapEngine : Type := mkBitswapEngine {
  be_peers : gmap string BitswapPeer;
  be_sessions : BitswapSessions;
  be_wants : WantManager;
  be_metrics : BitswapMetrics;
  be_rate_limiters : PeerRateLimiters;
  be_peer_validator : PeerIdConfig;
  be_block_provider : ContentHash → option (list N);
  be_peer_discovery : ContentHash → list string
}.

Definition BitswapEngine_new : BitswapEngine :=
  mkBitswapEngine ∅ (BitswapSessions_new 256) WantManager_new BitswapMetrics_default PeerRateLimiters_new PeerIdConfig_default
    (λ _, None) (λ _, []).

Definition be_set (e : BitswapEngine) (peers : gmap string BitswapPeer) (sessions : BitswapSessions) (wants : WantManager)
    (metrics : BitswapMetrics) : BitswapEngine :=
  mkBitswapEngine peers sessions wants metrics (be_rate_limiters e) (be_peer_validator e) (be_block_provider e) (be_peer_discovery e).
Definition be_set_peers (e : BitswapEngine) (peers : gmap string BitswapPeer) : BitswapEngine :=
  be_set e peers (be_sessions e) (be_wants e) (be_metrics e).
Definition be_set_sessions (e : BitswapEngine) (sessions : BitswapSessions) : BitswapEngine :=
  be_set e (be_peers e) sessions (be_wants e) (be_metrics e).
Definition be_set_wants (e : BitswapEngine) (wants : WantManager) : BitswapEngine :=
  be_set e (be_peers e) (be_sessions e) wants (be_metrics e).
Definition be_set_metrics (e : BitswapEngine) (metrics : BitswapMetrics) : BitswapEngine :=
  be_set e (be_peers e) (be_sessions e) (be_wants e) metrics.
Definition be_set_limiters (e : BitswapEngine) (l : PeerRateLimiters) : BitswapEngine :=
  mkBitswapEngine (be_peers e) (be_sessions e) (be_wants e) (be_metrics e) l (be_peer_validator e) (be_block_provider e) (be_peer_discovery e).

Definition with_rate_limits (e : BitswapEngine) (config : RateLimitConfig) : BitswapEngine :=
  be_set_limiters e (PeerRateLimiters_with_config config).
Definition with_peer_validation (e : BitswapEngine) (config : PeerIdConfig) : BitswapEngine :=
  mkBitswapEngine (be_peers e) (be_sessions e) (be_wants e) (be_metrics e) (be_rate_limiters e) config (be_block_provider e) (be_peer_discovery e).
Definition with_block_provider (e : BitswapEngine) (f : ContentHash → option (list N)) : BitswapEngine :=
  mkBitswapEngine (be_peers e) (be_sessions e) (be_wants e) (be_metrics e) (be_rate_limiters e) (be_peer_validator e) f (be_peer_discovery e).
Definition with_peer_discovery (e : BitswapEngine) (f : ContentHash → list string) : BitswapEngine :=
  mkBitswapEngine (be_peers e) (be_sessions e) (be_wants e) (be_metrics e) (be_rate_limiters e) (be_peer_validator e) (be_block_provider e) f.

Definition is_rate_limited (now : N) (e : BitswapEngine) (peer_id : string) : BitswapEngine * bool :=
  let '(l, ok) := limiters_try_send now (be_rate_limiters e) peer_id in (be_set_limiters e l, negb ok).
Definition rate_limit_remaining (now : N) (e : BitswapEngine) (peer_id : string) : BitswapEngine * f64 :=
  let '(l, n) := limiters_remaining now (be_rate_limiters e) peer_id in (be_set_limiters e l, n).
Definition add_local_block (e : BitswapEngine) (block : ContentHash) : BitswapEngine :=
  be_set_wants e (wm_add_local_block (be_wants e) block).
Definition has_local_block (e : BitswapEngine) (block : ContentHash) : bool := has_local (be_wants e) block.
Definition engine_validate_peer_id (e : BitswapEngine) (peer_id : string) : result PeerIdValidationError unit :=
  validate_id (be_peer_validator e) peer_id.
Definition is_valid_peer_id (e : BitswapEngine) (peer_id : string) : bool :=
  match engine_validate_peer_id e peer_id with Ok _ => true | Err _ => false end.

Definition move_active_peers (d : Z) (m : BitswapMetrics) : BitswapMetrics :=
  set_gauges (bm_active_sessions m) (i64_wrap (bm_active_peers m + d)) (bm_pending_wants m) m.

Definition engine_add_peer (now : N) (e : BitswapEngine) (peer_id : string) : BitswapEngine * result PeerIdValidationError unit :=
  match validate_id (be_peer_validator e) peer_id with
  | Err err => (e, Err err)
  | Ok _ =>
      match be_peers e !! peer_id with
      | Some _ => (e, Ok tt)
      | None => (be_set e (<[peer_id := BitswapPeer_new now peer_id]> (be_peers e)) (be_sessions e) (be_wants e)
                   (move_active_peers 1 (be_metrics e)), Ok tt)
      end
  end.

Definition engine_remove_peer (e : BitswapEngine) (peer_id : string) : BitswapEngine :=
  let e := match be_peers e !! peer_id with
           | Some _ => be_set e (delete peer_id (be_peers e)) (be_sessions e) (be_wants e) (move_active_peers (-1) (be_metrics e))
           | None => e
           end in
  be_set_limiters e (limiters_remove (be_rate_limiters e) peer_id).

Definition engine_get_peer (e : BitswapEngine) (peer_id : string) : option BitswapPeer := be_peers e !! peer_id.

Definition start_request_for_peer (now : N) (e : BitswapEngine) (peer_id : string) (block : ContentHash) : BitswapEngine * bool :=
  match be_peers e !! peer_id with
  | Some p => (be_set_peers e (<[peer_id := start_request now p block]> (be_peers e)), true)
  | None => (e, false)
  end.
Definition get_peer_ids (e : BitswapEngine) : list string := fst <$> map_to_list (be_peers e).

(** *** The messages of peers *)

(** The block is served, and the ledger and the counters are moved. *)
Definition serve_block (now : N) (e : BitswapEngine) (peer_id : string) (peer : BitswapPeer) (block : ContentHash)
  : BitswapEngine * list BitswapMessage :=
  match be_block_provider e block with
  | Some data =>
      let len := N.of_nat (length data) in
      let peer := ps_set_ledger peer (record_received now len (record_block_received (ps_ledger peer))) in
      (be_set e (<[peer_id := peer]> (be_peers e)) (be_sessions e) (be_wants e) (count_blocks 0 1 len (be_metrics e)),
       [Block block data])
  | None => (e, [])
  end.

(** A session that holds the block scores the peer. *)
Definition score_session (now : N) (peer_id : string) (block : ContentHash) (m : BitswapSessions) (session : BitswapSession) : BitswapSessions :=
  if session_has_block session block
  then manager_update_session m (update_from_have now session peer_id [block]) else m.

Definition handle_bitswap_message (now : N) (e : BitswapEngine) (peer_id : string) (peer : BitswapPeer) (message : BitswapMessage)
  : BitswapEngine * list BitswapMessage :=
  match message with
  | WantHave block _ _ =>
      if has_local (be_wants e) block then (e, [Have block true])
      else (be_set_peers e (foldl (λ ps w, alter (λ p, ps_set_want_list p (wl_add_want_have (ps_want_list p) block)) w ps)
                              (be_peers e) (wm_get_wanters (be_wants e) block)), [])
  | WantBlock block _ =>
      if has_local (be_wants e) block then serve_block now e peer_id peer block
      else serve_block now e peer_id peer block
  | Have block _ =>
      (be_set e (<[peer_id := add_known_block peer block]> (be_peers e))
         (foldl (score_session now peer_id block) (be_sessions e) (manager_all_sessions (be_sessions e)))
         (be_wants e) (be_metrics e), [])
  | DontHave block => (be_set_peers e (<[peer_id := complete_request peer block]> (be_peers e)), [])
  | Block block data =>
      let len := N.of_nat (length data) in
      let wants := wm_add_block_data (be_wants e) block data in
      let peer := ps_set_ledger peer (record_received now len (record_block_received (ps_ledger peer))) in
      let peer := complete_request peer block in
      let wants := foldl (λ m w, wm_remove_want m w block) wants (wm_get_wanters wants block) in
      (be_set e (<[peer_id := peer]> (be_peers e)) (be_sessions e) wants (count_blocks 1 0 len (be_metrics e)), [])
  | Cancel block => (be_set_wants e (wm_remove_want (be_wants e) peer_id block), [])
  | BatchWant _ | BatchResponse _ => (e, [])
  end.

Definition process_message (now : N) (e : BitswapEngine) (peer_id : string) (message : BitswapMessage)
  : BitswapEngine * list BitswapMessage :=
  let '(e, responses) :=
    match be_peers e !! peer_id with
    | Some peer =>
        let peer := record_message now peer in
        handle_bitswap_message now (be_set_peers e (<[peer_id := peer]> (be_peers e))) peer_id peer message
    | None => (e, [])
    end in
  (be_set_metrics e (count_message (be_metrics e)), responses).

(** *** Requests *)

(** [pending_wants.set(len as i64)]. *)
Definition gauge_pending (e : BitswapEngine) : BitswapEngine :=
  be_set_metrics e (set_gauges (bm_active_sessions (be_metrics e)) (bm_active_peers (be_metrics e))
    (i64_wrap (Z.of_nat (length (wm_pending_wants (be_wants e))))) (be_metrics e)).

(** One round of the loop of [create_wants]; [session] was read before the loop. *)
Definition create_want (now : N) (session : option BitswapSession) (priority : Z)
    (acc : BitswapEngine * list BitswapMessage) (block : ContentHash) : BitswapEngine * list BitswapMessage :=
  let '(e, messages) := acc in
  let wants := wm_add_local_block (be_wants e) block in
  let sessions := match session with
                  | Some s => manager_update_session (be_sessions e) (start_want now (session_add_block now s block) block)
                  | None => be_sessions e
                  end in
  let wants := push_pending wants (PendingWant_want_have now block priority) in
  (be_set e (be_peers e) sessions wants (count_wants 1 0 (be_metrics e)), messages ++ [WantHave block priority true]).

Definition create_wants (now : N) (e : BitswapEngine) (session_id : N) (blocks : list ContentHash) (priority : Z)
  : BitswapEngine * list BitswapMessage :=
  let session := manager_get_session (be_sessions e) session_id in
  let '(e, messages) := foldl (create_want now session priority) (e, []) blocks in
  (gauge_pending e, messages).

(** One round of the loop of [request_blocks]. The pending request is recorded on a
    copy of the peer, which is dropped. *)
Definition request_block (now : N) (priority : Z) (acc : BitswapEngine * list BitswapMessage) (block : ContentHash)
  : BitswapEngine * list BitswapMessage :=
  let '(e, messages) := acc in
  if has_local (be_wants e) block || bool_decide (is_Some (get_block_data (be_wants e) block)) then (e, messages)
  else
    let available_peers := fst <$> filter (λ p, peer_has_block p.2 block = true) (map_to_list (be_peers e)) in
    let new_messages := match available_peers with
                        | [] => [WantHave block priority true]
                        | _ => (λ _, WantBlock block priority) <$> available_peers
                        end in
    let wants := push_pending (be_wants e) (PendingWant_want_block now block priority) in
    (be_set e (be_peers e) (be_sessions e) wants (count_wants 0 (N.of_nat (length available_peers)) (be_metrics e)),
     messages ++ new_messages).

Definition request_blocks (now : N) (e : BitswapEngine) (session_id : N) (blocks : list ContentHash) (priority : Z)
  : BitswapEngine * list BitswapMessage :=
  let '(e, messages) := foldl (request_block now priority) (e, []) blocks in
  (gauge_pending e, messages).

Definition engine_get_block (e : BitswapEngine) (block : ContentHash) : option (list N) := get_block_data (be_wants e) block.
Definition get_all_ledger_stats (e : BitswapEngine) : list LedgerStats :=
  (λ p, LedgerStats_from (ps_ledger p.2)) <$> map_to_list (be_peers e).
Definition get_peer_ledger (e : BitswapEngine) (peer_id : string) : option LedgerStats :=
  (λ p, LedgerStats_from (ps_ledger p)) <$> be_peers e !! peer_id.

Record BitswapSessionStats : Type := mkBitswapSessionStats { sst_count : nat; sst_active_wants : nat; sst_peers_in_sessions : nat }.
Definition get_session_stats (e : BitswapEngine) : BitswapSessionStats :=
  let sessions := manager_all_sessions (be_sessions e) in
  mkBitswapSessionStats (length sessions) (sum_list_with (λ s, size (bss_active_wants s)) sessions)
    (sum_list_with (λ s, length (bss_peers s)) sessions).

Definition engine_cleanup (now : N) (e : BitswapEngine) : BitswapEngine :=
  let wants := wm_cleanup_expired now (be_wants e) in
  let sessions := manager_cleanup_stale now (be_sessions e) (300 * 1000000000) in
  let peers := cleanup_timedout now WANT_BLOCK_TIMEOUT <$> be_peers e in
  let e := be_set e peers sessions wants (be_metrics e) in
  be_set_metrics (gauge_pending e)
    (set_gauges (i64_wrap (Z.of_nat (manager_count sessions))) (bm_active_peers (be_metrics (gauge_pending e)))
       (bm_pending_wants (be_metrics (gauge_pending e))) (be_metrics (gauge_pending e))).

Definition engine_create_session (visit : gmap N BitswapSession → list BitswapSession) (now : N) (e : BitswapEngine)
  : BitswapEngine * BitswapSession :=
  let '(m, s) := manager_create_session visit now (be_sessions e) in (be_set_sessions e m, s).
Definition engine_create_session_for (visit : gmap N BitswapSession → list BitswapSession) (now : N) (e : BitswapEngine)
    (root : ContentHash) : BitswapEngine * BitswapSession :=
  let '(m, s) := manager_create_session_for visit now (be_sessions e) root in (be_set_sessions e m, s).

(** ** The invariant of the engine *)

Section Invariant.
Context (visit : gmap N BitswapSession → list BitswapSession).
(** A visit of a map yields its values. *)
Hypothesis visit_elem : ∀ m s, s ∈ visit m ↔ ∃ id, m !! id = Some s.

(** The operations that change the engine, with the reading of the clock. *)
Inductive EngineOp : Type :=
| OpAddPeer (now : N) (peer_id : string)
| OpRemovePeer (peer_id : string)
| OpMessage (now : N) (peer_id : string) (message : BitswapMessage)
| OpStartRequest (now : N) (peer_id : string) (block : ContentHash)
| OpCreateWants (now session_id : N) (blocks : list ContentHash) (priority : Z)
| OpRequestBlocks (now session_id : N) (blocks : list ContentHash) (priority : Z)
| OpCreateSession (now : N)
| OpCreateSessionFor (now : N) (root : ContentHash)
| OpLocalBlock (block : ContentHash)
| OpRateLimited (now : N) (peer_id : string)
| OpRateRemaining (now : N) (peer_id : string)
| OpCleanup (now : N).

Definition engine_step (e : BitswapEngine) (op : EngineOp) : BitswapEngine :=
  match op with
  | OpAddPeer now p => (engine_add_peer now e p).1
  | OpRemovePeer p => engine_remove_peer e p
  | OpMessage now p m => (process_message now e p m).1
  | OpStartRequest now p b => (start_request_for_peer now e p b).1
  | OpCreateWants now s bs pr => (create_wants now e s bs pr).1
  | OpRequestBlocks now s bs pr => (request_blocks now e s bs pr).1
  | OpCreateSession now => (engine_create_session visit now e).1
  | OpCreateSessionFor now root => (engine_create_session_for visit now e root).1
  | OpLocalBlock b => add_local_block e b
  | OpRateLimited now p => (is_rate_limited now e p).1
  | OpRateRemaining now p => (rate_limit_remaining now e p).1
  | OpCleanup now => engine_cleanup now e
  end.

(** A peer of the engine: registered under its own valid identifier; nothing was
    ever sent to it by its ledger, it is not blocked and its want list is empty. *)
Definition bitswap_peer_ok (config : PeerIdConfig) (id : string) (p : BitswapPeer) : Prop :=
  ps_peer_id p = id ∧ pl_peer_id (ps_ledger p) = id ∧ validate_id config id = Ok tt ∧
  pl_bytes_sent (ps_ledger p) = 0 ∧ pl_blocks_sent (ps_ledger p) = 0 ∧
  pl_flags (ps_ledger p) = mkLedgerFlags false false false false ∧ ps_want_list p = PeerWantList_default.

(** A stored session has no root and no peers, hence no scores. *)
Definition bitswap_session_ok (id : N) (s : BitswapSession) : Prop :=
  bss_id s = id ∧ bss_root s = None ∧ bss_peers s = [] ∧ bss_peer_scores s = ∅ ∧ bss_active_wants s ⊆ bss_blocks s.

Definition bitswap_sessions_ok (m : BitswapSessions) : Prop :=
  map_Forall bitswap_session_ok (sm_sessions m) ∧ (size (sm_sessions m) ≤ 256)%nat ∧ sm_max_sessions m = 256%nat.

Definition wants_ok (m : WantManager) : Prop :=
  wm_peer_wants m = ∅ ∧ (length (wm_pending_wants m) ≤ MAX_PENDING_WANTS)%nat.

Record engine_ok (e : BitswapEngine) : Prop := {
  eo_peers : map_Forall (bitswap_peer_ok (be_peer_validator e)) (be_peers e);
  eo_gauge : bm_active_peers (be_metrics e) = i64_wrap (Z.of_nat (size (be_peers e)));
  eo_sessions : bitswap_sessions_ok (be_sessions e);
  eo_wants : wants_ok (be_wants e)
}.

(** *** Peers *)

Lemma i64_wrap_add a b : i64_wrap (i64_wrap a + b) = i64_wrap (a + b).
Proof.
  unfold i64_wrap. replace ((a + 2 ^ 63) mod 2 ^ 64 - 2 ^ 63 + b + 2 ^ 63)%Z with ((a + 2 ^ 63) mod 2 ^ 64 + b)%Z by lia.
  rewrite Z.add_mod_idemp_l by done. do 2 f_equal. lia.
Qed.

Lemma peer_ok_message now config id p : bitswap_peer_ok config id p → bitswap_peer_ok config id (record_message now p).
Proof. done. Qed.

Lemma peer_ok_received now n config id p :
  bitswap_peer_ok config id p →
  bitswap_peer_ok config id (ps_set_ledger p (record_received now n (record_block_received (ps_ledger p)))).
Proof. done. Qed.

(** Replacing a registered peer by one that is well formed. *)
Lemma peers_put config (ps : gmap string BitswapPeer) id p q :
  ps !! id = Some q → map_Forall (bitswap_peer_ok config) ps → bitswap_peer_ok config id p →
  map_Forall (bitswap_peer_ok config) (<[id := p]> ps) ∧ size (<[id := p]> ps) = size ps.
Proof.
  intros Hq Hall Hp. split; [by apply map_Forall_insert_2|]. by rewrite map_size_insert_Some by (by eexists).
Qed.

(** *** Sessions *)

Lemma sessions_ok_update m s :
  bitswap_sessions_ok m → is_Some (sm_sessions m !! bss_id s) → bitswap_session_ok (bss_id s) s →
  bitswap_sessions_ok (manager_update_session m s).
Proof.
  intros (Hall & Hsz & Hmax) Hs Hok. split_and!; cbn; [by apply map_Forall_insert_2| |done].
  by rewrite map_size_insert_Some.
Qed.

Lemma sessions_update_dom m s id : is_Some (sm_sessions m !! id) → is_Some (sm_sessions (manager_update_session m s) !! id).
Proof.
  intros H. cbn. destruct (decide (bss_id s = id)) as [<-|Hne]; [by rewrite lookup_insert_eq|by rewrite lookup_insert_ne].
Qed.

Lemma score_sessions_ok now p b ss m :
  bitswap_sessions_ok m → (∀ s, s ∈ ss → is_Some (sm_sessions m !! bss_id s) ∧ bitswap_session_ok (bss_id s) s) →
  bitswap_sessions_ok (foldl (score_session now p b) m ss).
Proof.
  revert m. induction ss as [|s ss IH]; intros m Hm Hss; [done|]. cbn [foldl].
  destruct (Hss s ltac:(left)) as [Hs Hok]. assert (bitswap_sessions_ok (score_session now p b m s) ∧
    ∀ id, is_Some (sm_sessions m !! id) → is_Some (sm_sessions (score_session now p b m s) !! id)) as [H1 H2].
  { unfold score_session. destruct (session_has_block s b); [|done]. split; [|intros id; apply sessions_update_dom].
    destruct Hok as (Hid & Hr & Hp & Hsc & Hw). apply sessions_ok_update; [done|done|].
    split_and!; cbn; [done|done|done| |done]. rewrite Hsc. apply map_eq. intros k. by rewrite lookup_alter, lookup_empty; destruct (decide _). }
  apply IH; [done|]. intros s' Hs'. destruct (Hss s' ltac:(by right)). split; [by apply H2|done].
Qed.

Lemma all_sessions_ok m s :
  bitswap_sessions_ok m → s ∈ manager_all_sessions m → is_Some (sm_sessions m !! bss_id s) ∧ bitswap_session_ok (bss_id s) s.
Proof.
  intros (Hall & _) ([id s'] & -> & Hs%elem_of_map_to_list)%list_elem_of_fmap. cbn.
  pose proof (Hall _ _ Hs) as Hok. destruct Hok as (<- & ?). split; [by eexists|]. by split.
Qed.

Lemma oldest_elem ss s : oldest_session ss = Some s → s ∈ ss.
Proof.
  revert s. induction ss as [|t ss IH]; cbn; [done|]. intros s. destruct (oldest_session ss) as [u|].
  - case_match; intros [= <-]; [left|right; by apply IH].
  - intros [= <-]. left.
Qed.

Lemma oldest_some ss : ss ≠ [] → is_Some (oldest_session ss).
Proof. destruct ss as [|s ss]; [done|]. intros _. cbn. destruct (oldest_session ss); [case_match|]; by eexists. Qed.

Lemma sessions_ok_create now m : bitswap_sessions_ok m → bitswap_sessions_ok (manager_create_session visit now m).1.
Proof.
  intros (Hall & Hsz & Hmax). unfold manager_create_session. rewrite Hmax. cbn [fst].
  set (ss := if Nat.leb 256 (size (sm_sessions m)) then _ else _).
  assert (map_Forall bitswap_session_ok ss ∧ (size ss < 256)%nat) as [Hss Hlt].
  { unfold ss. destruct (Nat.leb_spec 256 (size (sm_sessions m))) as [Hfull|]; [|by split; [|lia]].
    destruct (oldest_session (visit (sm_sessions m))) as [o|] eqn:Ho.
    - apply oldest_elem, visit_elem in Ho as (id & Hid). pose proof (Hall _ _ Hid) as Hok. destruct Hok as (-> & _).
      split; [by apply map_Forall_delete|]. rewrite map_size_delete_Some by (by eexists). lia.
    - exfalso. assert (sm_sessions m ≠ ∅) as Hne by (intros H0; rewrite H0, map_size_empty in Hfull; lia).
      apply map_choose in Hne as (id & s & Hs). assert (s ∈ visit (sm_sessions m)) as Hv by (apply visit_elem; by exists id).
      destruct (oldest_some (visit (sm_sessions m))) as [o Ho']; [by intros H0; rewrite H0 in Hv; apply elem_of_nil in Hv|congruence]. }
  split_and!; cbn; [| |done].
  - apply map_Forall_insert_2; [|done]. by split_and!; cbn.
  - destruct (ss !! sm_next_id m) eqn:Hn; [rewrite map_size_insert_Some by (by eexists)|rewrite map_size_insert_None by done]; lia.
Qed.

(** *** Wants and steps *)

Lemma no_wanters m b : wants_ok m → wm_get_wanters m b = [].
Proof. intros [Hp _]. unfold wm_get_wanters. by rewrite Hp, map_to_list_empty. Qed.

Lemma wants_ok_push m w : wants_ok m → wants_ok (push_pending m w).
Proof.
  intros [Hp Hl]. unfold push_pending. destruct (Nat.ltb_spec (length (wm_pending_wants m)) MAX_PENDING_WANTS); [|done].
  split; cbn; [done|lia].
Qed.

Lemma wants_ok_remove m p b : wants_ok m → wants_ok (wm_remove_want m p b).
Proof. intros [Hp Hl]. split; [|done]. cbn. rewrite Hp. apply map_eq. intros k. rewrite lookup_alter, lookup_empty. by destruct (decide _). Qed.

(** Changes that leave the peers alone. *)
Lemma engine_ok_set e ss w m :
  engine_ok e → bitswap_sessions_ok ss → wants_ok w → bm_active_peers m = bm_active_peers (be_metrics e) →
  engine_ok (be_set e (be_peers e) ss w m).
Proof. intros [Hp Hg Hs Hw] Hss Hww Hm. split; cbn; [done|by rewrite Hm|done|done]. Qed.

Lemma engine_ok_put e id p q ss w m :
  engine_ok e → be_peers e !! id = Some q → bitswap_peer_ok (be_peer_validator e) id p →
  bitswap_sessions_ok ss → wants_ok w → bm_active_peers m = bm_active_peers (be_metrics e) →
  engine_ok (be_set e (<[id := p]> (be_peers e)) ss w m).
Proof.
  intros [Hp Hg Hs Hw] Hq Hok Hss Hww Hm. destruct (peers_put _ _ _ _ _ Hq Hp Hok) as [H1 H2].
  split; cbn; [done|by rewrite Hm, H2|done|done].
Qed.

Lemma engine_ok_message now e id q p message :
  engine_ok e → be_peers e !! id = Some q → bitswap_peer_ok (be_peer_validator e) id p →
  engine_ok (handle_bitswap_message now e id p message).1.
Proof.
  intros He Hq Hok. pose proof (eo_sessions e He) as Hs. pose proof (eo_wants e He) as Hw.
  assert (∀ b, engine_ok (serve_block now e id p b).1) as Hserve.
  { intros b. unfold serve_block. destruct (be_block_provider e b); [|done]. cbn. by eapply engine_ok_put. }
  destruct message as [b pr s|b pr|b|b im|b|b d|ws|rs]; cbn [handle_bitswap_message].
  - destruct (has_local (be_wants e) b); [done|]. rewrite no_wanters by done. cbn. by apply engine_ok_set.
  - case_match; apply Hserve.
  - cbn. apply engine_ok_set; try done. by apply wants_ok_remove.
  - cbn. eapply engine_ok_put; try done. apply score_sessions_ok; [done|]. intros s Hin. by apply all_sessions_ok.
  - cbn. by eapply engine_ok_put.
  - rewrite no_wanters by done. cbn. by eapply engine_ok_put.
  - done.
  - done.
Qed.

Lemma fold_requests_ok now pr e bs acc :
  engine_ok e → engine_ok (foldl (request_block now pr) (e, acc) bs).1.
Proof.
  revert e acc. induction bs as [|b bs IH]; intros e acc He; [done|]. cbn [foldl]. unfold request_block at 2.
  destruct (_ || _); [by apply IH|]. cbv zeta. apply IH. apply engine_ok_set; try done; [apply eo_sessions, He|apply wants_ok_push, eo_wants, He].
Qed.

Lemma fold_creates_ok now s pr e bs acc :
  engine_ok e → (∀ x, s = Some x → is_Some (sm_sessions (be_sessions e) !! bss_id x) ∧ bitswap_session_ok (bss_id x) x) →
  engine_ok (foldl (create_want now s pr) (e, acc) bs).1.
Proof.
  revert e acc. induction bs as [|b bs IH]; intros e acc He Hs; [done|]. cbn [foldl]. unfold create_want at 2. cbv zeta. apply IH.
  - apply engine_ok_set; try done; [|apply wants_ok_push; destruct (eo_wants e He); by split].
    destruct s as [x|]; [|apply eo_sessions, He]. destruct (Hs x eq_refl) as [Hx (_ & Hr & Hp & Hsc & Hw)].
    apply sessions_ok_update; [apply eo_sessions, He|done|]. split_and!; cbn; [done|done|done|done|]. set_solver.
  - intros x Hx. destruct (Hs x Hx) as [Hi Ho]. split; [|done]. cbn. destruct s as [y|]; [|done]. by apply sessions_update_dom.
Qed.

Lemma engine_step_ok e op : engine_ok e → engine_ok (engine_step e op).
Proof.
  intros He. pose proof (eo_sessions e He) as Hs. pose proof (eo_wants e He) as Hw.
  destruct op as [now p|p|now p m|now p b|now s bs pr|now s bs pr|now|now root|b|now p|now p|now]; cbn [engine_step].
  - unfold engine_add_peer. destruct (validate_id _ p) as [[]|] eqn:Hv; [|done]. destruct (be_peers e !! p) eqn:Hp; [done|].
    destruct He as [Hps Hg _ _]. split; cbn; [|rewrite Hg, i64_wrap_add, map_size_insert_None by done; f_equal; lia|done|done].
    apply map_Forall_insert_2; [|done]. by split_and!.
  - unfold engine_remove_peer. destruct (be_peers e !! p) eqn:Hp; [|by destruct He; split]. destruct He as [Hps Hg _ _].
    split; cbn; [by apply map_Forall_delete| |done|done]. rewrite Hg, i64_wrap_add. f_equal.
    rewrite map_size_delete_Some by (by eexists). assert (size (be_peers e) ≠ 0)%nat; [|lia].
    intros H0%map_size_empty_inv. by rewrite H0, lookup_empty in Hp.
  - unfold process_message. destruct (be_peers e !! p) as [q|] eqn:Hp; [|by apply engine_ok_set].
    pose proof (eo_peers e He p q Hp) as Hq. set (e1 := be_set_peers e _).
    assert (engine_ok (handle_bitswap_message now e1 p (record_message now q) m).1) as H1.
    { eapply (engine_ok_message _ _ _ (record_message now q)); [|apply lookup_insert_eq|done]. by eapply engine_ok_put. }
    destruct (handle_bitswap_message now e1 p (record_message now q) m) as [e2 rs]. by destruct H1.
  - unfold start_request_for_peer. destruct (be_peers e !! p) as [q|] eqn:Hp; [|done]. cbn. eapply engine_ok_put; try done.
    exact (eo_peers e He p q Hp).
  - unfold create_wants. pose proof (fold_creates_ok now (manager_get_session (be_sessions e) s) pr e bs [] He) as H.
    destruct (foldl _ _ _) as [e' ms]. cbn in *. destruct H as [? ? ? ?]; [|by split].
    intros x Hx. apply all_sessions_ok; [done|]. apply list_elem_of_fmap. exists (s, x). split; [done|]. by apply elem_of_map_to_list.
  - unfold request_blocks. pose proof (fold_requests_ok now pr e bs [] He) as H. destruct (foldl _ _ _) as [e' ms]. by destruct H.
  - unfold engine_create_session. pose proof (sessions_ok_create now _ Hs) as H. destruct (manager_create_session _ _ _) as [m s].
    by apply engine_ok_set.
  - unfold engine_create_session_for, manager_create_session_for. pose proof (sessions_ok_create now _ Hs) as H.
    destruct (manager_create_session _ _ _) as [m s]. by apply engine_ok_set.
  - by apply engine_ok_set.
  - unfold is_rate_limited. destruct (limiters_try_send _ _ _). by destruct He.
  - unfold rate_limit_remaining. destruct (limiters_remaining _ _ _). by destruct He.
  - destruct He as [Hps Hg _ _]. destruct Hs as (Hall & Hsz & Hmax). split; cbn.
    + apply map_Forall_fmap. intros id p Hp. exact (Hps id p Hp).
    + by rewrite map_size_fmap.
    + split_and!; cbn; [intros id s [Hs' _]%map_lookup_filter_Some; exact (Hall id s Hs')| |done]. etrans; [|exact Hsz]. apply map_subseteq_size, map_filter_subseteq.
    + destruct Hw as [Hw1 Hw2]. split; cbn; [done|]. etrans; [apply length_filter|done].
Qed.

Definition engine_run (e : BitswapEngine) (ops : list EngineOp) : BitswapEngine := foldl engine_step e ops.

(** An engine as it is built: no peers yet, any callbacks and limits. *)
Definition engine_fresh (e : BitswapEngine) : Prop :=
  be_peers e = ∅ ∧ be_sessions e = BitswapSessions_new 256 ∧ be_wants e = WantManager_new ∧ be_metrics e = BitswapMetrics_default.

(** Whatever happens to an engine: every peer is registered under its own valid
    identifier and counted by the gauge, at most 256 sessions and 256 pending wants
    are kept, and what an active session wants it holds. The rest of the invariant
    says what never gets going: no want of a peer is ever recorded, no ledger ever
    counts a byte sent, no peer is ever blocked, and the stored sessions have no
    root, no peers and no scores. *)
Theorem engine_invariant e ops : engine_fresh e → engine_ok (engine_run e ops).
Proof.
  intros (Hp & Hs & Hw & Hm). assert (engine_ok e) as He.
  { split; rewrite ?Hp, ?Hs, ?Hw, ?Hm; [apply map_Forall_empty|done| |split; [done|cbn; lia]].
    split_and!; cbn; [apply map_Forall_empty|rewrite map_size_empty; lia|done]. }
  unfold engine_run. clear Hp Hs Hw Hm. revert e He. induction ops as [|op ops IH]; intros e He; [done|].
  apply IH. by apply engine_step_ok.
Qed.
End Invariant.

(** ** The queue *)

(** [pop_pending] takes a want of the highest priority out of the queue and
    leaves the others; among wants of one priority it takes the one created last,
    although the comment of the ordering says that older wants come first. *)
Theorem pop_pending_newest `{HeapLaws} m w m' :
  pop_pending m = (m', Some w) →
  wm_pending_wants m ≡ₚ w :: wm_pending_wants m' ∧
  ∀ w', w' ∈ wm_pending_wants m' →
    (pw_priority w' < pw_priority w)%Z ∨ pw_priority w' = pw_priority w ∧ pw_created_at w' ≤ pw_created_at w.
Proof.
  unfold pop_pending. intros Hpop. destruct (decide (wm_pending_wants m = [])) as [Hnil|Hne].
  { by rewrite Hnil, heap_pop_nil in Hpop. }
  destruct (heap_pop_some _ Hne) as (v & h & Hh & Hperm & Hmax). rewrite Hh in Hpop. injection Hpop as <- ->. cbn. split; [done|].
  intros w' Hw'. specialize (Hmax w' ltac:(rewrite Hperm; by right)). unfold pending_cmp in Hmax.
  destruct (Z.compare_spec (pw_priority w') (pw_priority w)); [right|by left|done].
  split; [done|]. by apply N.compare_le_iff.
Qed.

(** A heap that pops the first of the greatest wants. *)
Fixpoint pop_greatest (h : list PendingWant) : option (PendingWant * list PendingWant) :=
  match h with
  | [] => None
  | w :: h => match pop_greatest h with
              | Some (v, h') => match pending_cmp w v with Lt => Some (v, w :: h') | _ => Some (w, v :: h') end
              | None => Some (w, [])
              end
  end.
#[export] Instance heap_ref : Heap := {| heap_pop := pop_greatest |}.

Lemma pending_cmp_refl w : pending_cmp w w = Eq.
Proof. unfold pending_cmp. by rewrite Z.compare_refl, N.compare_refl. Qed.

Lemma pending_cmp_le w v :
  pending_cmp w v ≠ Gt ↔
  (pw_priority w < pw_priority v)%Z ∨ pw_priority w = pw_priority v ∧ pw_created_at w ≤ pw_created_at v.
Proof.
  unfold pending_cmp. destruct (Z.compare_spec (pw_priority w) (pw_priority v)) as [He|Hl|Hg].
  - rewrite N.compare_le_iff. intuition lia.
  - split; [by left|done].
  - split; [done|]. intros [?|[? ?]]; lia.
Qed.

Lemma pending_cmp_gt w v : pending_cmp w v ≠ Lt → pending_cmp v w ≠ Gt.
Proof.
  intros H. apply pending_cmp_le. unfold pending_cmp in H.
  destruct (Z.compare_spec (pw_priority w) (pw_priority v)); [right; split; [done|]|done|by left]. by apply N.compare_ge_iff.
Qed.

Lemma pop_greatest_spec h :
  h ≠ [] → ∃ w h', pop_greatest h = Some (w, h') ∧ h ≡ₚ w :: h' ∧ ∀ w', w' ∈ h → pending_cmp w' w ≠ Gt.
Proof.
  induction h as [|w h IH]; [done|]. intros _. cbn. destruct (decide (h = [])) as [->|Hne].
  { exists w, []. split_and!; [done|done|]. intros w' ->%list_elem_of_singleton. by rewrite pending_cmp_refl. }
  destruct (IH Hne) as (v & h' & -> & Hperm & Hmax). destruct (pending_cmp w v) eqn:Hc.
  2: { exists v, (w :: h'). split_and!; [done|by rewrite Hperm; constructor|]. intros w' [->|Hw']%elem_of_cons; [by rewrite Hc|by apply Hmax]. }
  all: exists w, (v :: h'); split_and!; [done|by rewrite Hperm|].
  all: intros w' [->|Hw']%elem_of_cons; [by rewrite pending_cmp_refl|].
  all: assert (pending_cmp v w ≠ Gt) as H1%pending_cmp_le by (apply pending_cmp_gt; by rewrite Hc).
  all: pose proof (proj1 (pending_cmp_le _ _) (Hmax w' Hw')) as H2; apply pending_cmp_le; lia.
Qed.

#[export] Instance heap_ref_laws : HeapLaws heap_ref.
Proof. split; [done|exact pop_greatest_spec]. Qed.

(** ** What is wanted and what is had *)

Lemma create_want_local now s pr e ms b :
  wm_local_blocks (be_wants (create_want now s pr (e, ms) b).1) = {[b]} ∪ wm_local_blocks (be_wants e).
Proof. unfold create_want, push_pending. cbn. by case_match. Qed.

Lemma create_want_peers now s pr e ms b : be_peers (create_want now s pr (e, ms) b).1 = be_peers e.
Proof. done. Qed.

Lemma create_wants_fold now s pr bs e ms :
  wm_local_blocks (be_wants (foldl (create_want now s pr) (e, ms) bs).1) = list_to_set bs ∪ wm_local_blocks (be_wants e) ∧
  be_peers (foldl (create_want now s pr) (e, ms) bs).1 = be_peers e.
Proof.
  revert e ms. induction bs as [|b bs IH]; intros e ms; cbn [foldl list_to_set]; [split; [set_solver|done]|].
  destruct (create_want now s pr (e, ms) b) as [e' ms'] eqn:He. destruct (IH e' ms') as [-> ->].
  pose proof (create_want_local now s pr e ms b) as Hl. pose proof (create_want_peers now s pr e ms b) as Hp.
  rewrite He in Hl, Hp. cbn in Hl, Hp. split; [rewrite Hl; set_solver|done].
Qed.

Lemma create_wants_local now e sid bs pr :
  wm_local_blocks (be_wants (create_wants now e sid bs pr).1) = list_to_set bs ∪ wm_local_blocks (be_wants e) ∧
  be_peers (create_wants now e sid bs pr).1 = be_peers e.
Proof.
  unfold create_wants. pose proof (create_wants_fold now (manager_get_session (be_sessions e) sid) pr bs e []) as H.
  destruct (foldl _ _ _) as [e' ms]. exact H.
Qed.

Lemma request_local now pr bs e ms :
  Forall (λ b, b ∈ wm_local_blocks (be_wants e)) bs → foldl (request_block now pr) (e, ms) bs = (e, ms).
Proof.
  induction 1 as [|b bs Hb Hbs IH]; [done|]. cbn [foldl]. unfold request_block at 2. unfold has_local.
  rewrite bool_decide_true by done. cbn [orb]. exact IH.
Qed.

(** Wanting blocks makes the engine believe that it has them: after
    [create_wants] a peer that asks for one of them is told that the engine has it,
    and [request_blocks] never asks anyone for any of them. *)
Theorem wants_taken_for_had now now' now'' e sid sid' bs pr pr' b peer dont im :
  b ∈ bs → is_Some (be_peers e !! peer) →
  let e' := (create_wants now e sid bs pr).1 in
  (process_message now' e' peer (WantHave b im dont)).2 = [Have b true] ∧
  (request_blocks now'' e' sid' bs pr').2 = [].
Proof.
  intros Hb [p Hp] e'. destruct (create_wants_local now e sid bs pr) as [Hl Hpe]. fold e' in Hl, Hpe. split.
  - unfold process_message. rewrite Hpe, Hp. cbn [handle_bitswap_message be_wants be_set_peers be_set].
    unfold has_local. rewrite Hl, bool_decide_true by set_solver. done.
  - unfold request_blocks. rewrite request_local; [done|]. apply Forall_forall. intros x Hx. rewrite Hl. set_solver.
Qed.

(** Of the blocks of one call the session keeps the last one only. *)
Lemma create_wants_last now e sid s bs b pr :
  sm_sessions (be_sessions e) !! sid = Some s → bss_id s = sid →
  sm_sessions (be_sessions (create_wants now e sid (bs ++ [b]) pr).1) !! sid =
    Some (start_want now (session_add_block now s b) b).
Proof.
  intros Hs <-. unfold create_wants, manager_get_session. rewrite Hs, foldl_app. cbn [foldl].
  destruct (foldl _ _ bs) as [e' ms]. cbn. apply lookup_insert_eq.
Qed.

(** ** From one engine to another *)

Lemma remove_wants_data block ws m : wm_block_data (foldl (λ m w, wm_remove_want m w block) m ws) = wm_block_data m.
Proof. revert m. induction ws as [|w ws IH]; intros m; [done|]. cbn. by rewrite IH. Qed.

(** Whatever a connected peer sends as a block is kept under the name it gives. *)
Lemma block_stored now e p hash data :
  is_Some (be_peers e !! p) → engine_get_block (process_message now e p (Block hash data)).1 hash = Some data.
Proof.
  intros [q Hq]. unfold process_message, engine_get_block, get_block_data. rewrite Hq. cbn. rewrite remove_wants_data. apply lookup_insert_eq.
Qed.

Lemma request_had now e sid pr hash data :
  engine_get_block e hash = Some data → (request_blocks now e sid [hash] pr).2 = [].
Proof.
  unfold engine_get_block. intros H. unfold request_blocks, request_block. cbn [foldl]. rewrite H.
  by rewrite (bool_decide_true (is_Some _)), orb_true_r by (by eexists).
Qed.

Lemma request_known now e sid pr hash p q :
  be_peers e !! p = Some q → peer_has_block q hash = true → hash ∉ wm_local_blocks (be_wants e) → engine_get_block e hash = None →
  WantBlock hash pr ∈ (request_blocks now e sid [hash] pr).2 ∧ be_peers (request_blocks now e sid [hash] pr).1 = be_peers e.
Proof.
  unfold engine_get_block. intros Hq Hhas Hloc Hdata. unfold request_blocks, request_block, has_local. cbn [foldl].
  rewrite (bool_decide_false (hash ∈ _)), Hdata, (bool_decide_false (is_Some _)) by (done || by intros [? ?]). cbn [orb]. cbv zeta.
  set (peers := fst <$> filter _ _). assert (p ∈ peers) as Hp.
  { apply list_elem_of_fmap. exists (p, q). split; [done|]. apply list_elem_of_filter. split; [done|]. by apply elem_of_map_to_list. }
  destruct peers as [|x xs]; [by apply elem_of_nil in Hp|]. split; [cbn; left|done].
Qed.

Lemma block_served now e p q hash data pr :
  be_peers e !! p = Some q → be_block_provider e hash = Some data →
  (process_message now e p (WantBlock hash pr)).2 = [Block hash data].
Proof.
  intros Hq Hd. unfold process_message. rewrite Hq. cbn [handle_bitswap_message].
  assert (∀ e' p', be_block_provider e' = be_block_provider e → (serve_block now e' p p' hash).2 = [Block hash data]) as Hs.
  { intros e' p' He. unfold serve_block. by rewrite He, Hd. }
  match goal with |- context [serve_block now ?e' p ?p' hash] =>
    specialize (Hs e' p' eq_refl); destruct (serve_block now e' p p' hash) end.
  destruct (has_local _ hash); exact Hs.
Qed.

(** A block travels between two engines that have each other registered as peers: the one
    that learned from a HAVE message that its peer has the block asks for it, the peer
    serves what its provider holds, and the asking engine has the data and asks no more.
    The block must not be among the local blocks of the asking engine, where
    [create_wants] puts it ([wants_taken_for_had]). *)
Theorem block_exchange now1 now2 now3 now4 now5 a b pa pb hash data sid pr im :
  is_Some (be_peers a !! pb) → is_Some (be_peers b !! pa) →
  hash ∉ wm_local_blocks (be_wants a) → wm_block_data (be_wants a) !! hash = None → be_block_provider b hash = Some data →
  let a1 := (process_message now1 a pb (Have hash im)).1 in
  let '(a2, requests) := request_blocks now2 a1 sid [hash] pr in
  let replies := (process_message now3 b pa (WantBlock hash pr)).2 in
  let a3 := (process_message now4 a2 pb (Block hash data)).1 in
  WantBlock hash pr ∈ requests ∧ replies = [Block hash data] ∧
  engine_get_block a3 hash = Some data ∧ (request_blocks now5 a3 sid [hash] pr).2 = [].
Proof.
  intros [qa Hqa] [qb Hqb] Hloc Hdata Hprov a1.
  assert ((∃ p, be_peers a1 !! pb = Some p ∧ peer_has_block p hash = true) ∧ be_wants a1 = be_wants a) as ((p1 & Hp1 & Hhas) & Hw1).
  { unfold a1, process_message. rewrite Hqa. cbn. rewrite lookup_insert_eq. split; [|done].
    eexists. split; [done|]. unfold peer_has_block, add_known_block. cbn. apply bool_decide_eq_true. set_solver. }
  clearbody a1. destruct (request_known now2 a1 sid pr hash pb p1) as [Hreq Hpeers]; [done|done|by rewrite Hw1|by unfold engine_get_block; rewrite Hw1|].
  destruct (request_blocks now2 a1 sid [hash] pr) as [a2 requests]. cbn in Hreq, Hpeers.
  assert (engine_get_block (process_message now4 a2 pb (Block hash data)).1 hash = Some data) as Hget by (apply block_stored; rewrite Hpeers; by eexists).
  split_and!; [done|by eapply block_served|done|by eapply request_had].
Qed.

(** ** Identifiers, ledgers, sessions, cleaning *)

Lemma first_bad_none p s : first_bad p s = None ↔ str_forallb p s = true.
Proof. induction s as [|a s IH]; cbn; [done|]. by destruct (p a). Qed.

(** With the default configuration exactly the texts of 4 to 128 letters,
    digits, underscores and hyphens are peer identifiers, and [engine_add_peer]
    registers a peer for those and for no others. *)
Theorem add_peer_spec now e peer_id :
  be_peer_validator e = PeerIdConfig_default →
  let valid := (4 ≤ String.length peer_id ≤ 128)%nat ∧ str_forallb id_char peer_id = true in
  (valid → (engine_add_peer now e peer_id).2 = Ok tt ∧ is_Some (be_peers (engine_add_peer now e peer_id).1 !! peer_id)) ∧
  (¬ valid → (engine_add_peer now e peer_id).1 = e ∧ ∃ err, (engine_add_peer now e peer_id).2 = Err err).
Proof.
  intros Hc valid. assert (validate_id (be_peer_validator e) peer_id = Ok tt ↔ valid) as Hv.
  { rewrite Hc. unfold validate_id, valid. cbn [pic_min_length pic_max_length pic_allowed_pattern PeerIdConfig_default mbind option_bind].
    destruct (Nat.ltb_spec (String.length peer_id) 4); [split; [done|lia]|]. destruct (Nat.ltb_spec 128 (String.length peer_id)); [split; [done|lia]|].
    unfold check_pattern. rewrite String.eqb_refl, <- first_bad_none. destruct (first_bad id_char peer_id); cbn; [split; [done|by intros [_ ?]]|by split]. }
  unfold engine_add_peer. split.
  - intros H%Hv. rewrite H. destruct (be_peers e !! peer_id) eqn:Hp; cbn; [rewrite Hp; split; [done|by eexists]|].
    split; [done|]. rewrite lookup_insert_eq. by eexists.
  - intros Hn. destruct (validate_id (be_peer_validator e) peer_id) as [[]|err]; [by destruct Hn; apply Hv|]. split; [done|by exists err].
Qed.

(** [best_peer_for] picks a peer of the session with the highest score, whatever
    the block is; there is none only when the session has no peers. *)
Theorem best_peer_spec s block :
  match best_peer_for s block with
  | Some p => p ∈ bss_peers s ∧ ∀ q, q ∈ bss_peers s → peer_score s q ≤ peer_score s p
  | None => bss_peers s = []
  end.
Proof.
  unfold best_peer_for. set (leb := λ a b, peer_score s b <=? peer_score s a).
  assert (StronglySorted (λ a b, leb a b = true) (sort_by leb (bss_peers s))) as Hs.
  { apply sort_by_sorted; unfold leb; intros; rewrite ?N.leb_le in *; lia. }
  pose proof (elem_of_sort_by leb) as He. pose proof (length_sort_by leb (bss_peers s)) as Hl.
  destruct (sort_by leb (bss_peers s)) as [|p ps] eqn:Hps; cbn in Hl |- *; [by destruct (bss_peers s)|].
  assert (∀ q, q ∈ bss_peers s ↔ q ∈ p :: ps) as Hin by (intros q; by rewrite <- He, Hps).
  split; [apply Hin; left|]. intros q [->|Hq]%Hin%elem_of_cons; [done|].
  inversion Hs as [|?? _ Hall]; subst. apply (proj1 (Forall_forall _ _) Hall) in Hq. unfold leb in Hq. by apply N.leb_le in Hq.
Qed.

(** Serving a block is booked as having received it. *)
Lemma serve_block_ledger now e p q hash data :
  be_block_provider e hash = Some data →
  let l := ps_ledger q in
  ∃ q', be_peers (serve_block now e p q hash).1 !! p = Some q' ∧
    ps_ledger q' = record_received now (N.of_nat (length data)) (record_block_received l) ∧
    pl_bytes_sent (ps_ledger q') = pl_bytes_sent l ∧ pl_blocks_sent (ps_ledger q') = pl_blocks_sent l.
Proof. intros Hd l. unfold serve_block. rewrite Hd. cbn. rewrite lookup_insert_eq. by eexists. Qed.

(** The engine never answers that it does not have a block. *)
Lemma never_dont_have now e p m block : DontHave block ∉ (process_message now e p m).2.
Proof.
  assert (∀ e' p' q b, DontHave block ∉ (serve_block now e' p' q b).2) as Hs.
  { intros e' p' q b. unfold serve_block. destruct (be_block_provider e' b); cbn; [|apply not_elem_of_nil].
    by intros [?|?%elem_of_nil]%elem_of_cons. }
  unfold process_message. destruct (be_peers e !! p) as [q|]; [|apply not_elem_of_nil].
  destruct m as [b pr s|b pr|b|b im|b|b d|ws|rs]; cbn [handle_bitswap_message]; try apply not_elem_of_nil.
  - destruct (has_local _ b); cbn; [by intros [?|?%elem_of_nil]%elem_of_cons|apply not_elem_of_nil].
  - match goal with |- context [serve_block now ?e' p ?p' b] => specialize (Hs e' p p' b); destruct (serve_block now e' p p' b) end.
    destruct (has_local _ b); exact Hs.
Qed.

(** [engine_cleanup] keeps exactly the pending wants whose deadline lies ahead,
    the sessions active within the last five minutes and the requests younger than
    a minute; it drops no peer and no block, and sets the gauges to what is left. *)
Theorem engine_cleanup_spec now e :
  let e' := engine_cleanup now e in
  (∀ w, w ∈ wm_pending_wants (be_wants e') ↔ w ∈ wm_pending_wants (be_wants e) ∧ now < pw_deadline w) ∧
  (∀ id s, sm_sessions (be_sessions e') !! id = Some s ↔
     sm_sessions (be_sessions e) !! id = Some s ∧ now - bss_last_activity s ≤ 300 * 1000000000) ∧
  (∀ id p', be_peers e' !! id = Some p' ↔ ∃ p, be_peers e !! id = Some p ∧ p' = cleanup_timedout now WANT_BLOCK_TIMEOUT p) ∧
  (∀ p b t, ps_pending_requests (cleanup_timedout now WANT_BLOCK_TIMEOUT p) !! b = Some t ↔
     ps_pending_requests p !! b = Some t ∧ now - t < WANT_BLOCK_TIMEOUT) ∧
  wm_block_data (be_wants e') = wm_block_data (be_wants e) ∧
  bm_pending_wants (be_metrics e') = i64_wrap (Z.of_nat (length (wm_pending_wants (be_wants e')))) ∧
  bm_active_sessions (be_metrics e') = i64_wrap (Z.of_nat (size (sm_sessions (be_sessions e')))).
Proof.
  cbn. split_and!; [|..|done|done|done].
  - intros w. rewrite list_elem_of_filter. tauto.
  - intros id s. rewrite map_lookup_filter_Some. unfold session_is_stale, idle_time. cbn. by rewrite N.ltb_ge.
  - intros id p'. rewrite lookup_fmap, fmap_Some. done.
  - intros p b t. by rewrite map_lookup_filter_Some.
Qed.

(** ** A burst of requests *)

(** The limiter of one peer at one instant. *)
Definition burst_step (mx zero : f64) (t : f64) : option f64 :=
  let t := f64_min (f64_add t zero) mx in if SFleb (f64_of 1) t then Some (f64_sub t (f64_of 1)) else None.
Definition burst (mx zero : f64) (n : nat) : option f64 := Nat.iter n (λ o, t ← o; burst_step mx zero t) (Some mx).

Fixpoint try_times (now : N) (n : nat) (l : PeerRateLimiters) (peer_id : string) : PeerRateLimiters * bool :=
  match n with
  | O => (l, true)
  | S n => let '(l, ok) := try_times now n l peer_id in
           let '(l, ok') := limiters_try_send now l peer_id in (l, ok && ok')
  end.

Lemma try_times_S now n l peer_id :
  try_times now (S n) l peer_id =
    (let '(l, ok) := try_times now n l peer_id in let '(l, ok') := limiters_try_send now l peer_id in (l, ok && ok')).
Proof. done. Qed.

Lemma try_times_burst now n peer_id t :
  burst (f64_of 200) (f64_mul (as_secs_f64 0) (f64_of 100)) n = Some t →
  ∃ l, try_times now n PeerRateLimiters_new peer_id = (l, true) ∧ prl_config l = RateLimitConfig_default ∧
    get_limiter now l peer_id = mkRateLimiter t (f64_of 200) (f64_of 100) now.
Proof.
  revert t. induction n as [|n IH]; intros t Ht.
  { exists PeerRateLimiters_new. split_and!; [done|done|]. injection Ht as <-. done. }
  cbn in Ht. apply bind_Some in Ht as (t0 & H0 & H1). destruct (IH t0 H0) as (l & Hl & Hc & Hg). cbn [try_times]. rewrite Hl.
  unfold limiters_try_send. rewrite Hg. unfold try_acquire_token, refill. cbn [rl_tokens rl_max_tokens rl_refill_rate rl_last_refill].
  rewrite N.sub_diag. unfold burst_step in H1. destruct (SFleb _ _); [|done]. injection H1 as <-.
  eexists. split_and!; [done|done|]. unfold get_limiter. cbn [prl_limiters]. by rewrite lookup_insert_eq.
Qed.

(** The default limits admit a burst of exactly 200 requests of a peer at one
    instant. *)
Theorem burst_of_200 now peer_id :
  (try_times now 200 PeerRateLimiters_new peer_id).2 = true ∧ (try_times now 201 PeerRateLimiters_new peer_id).2 = false.
Proof.
  destruct (try_times_burst now 200 peer_id (f64_of 0)) as (l & Hl & _ & Hg); [by vm_compute|].
  split; [by rewrite Hl|]. rewrite (try_times_S now 200), Hl. unfold limiters_try_send. rewrite Hg.
  unfold try_acquire_token, refill. cbn [rl_tokens rl_max_tokens rl_refill_rate rl_last_refill]. rewrite N.sub_diag.
  destruct (SFleb _ _) eqn:Hle; [vm_compute in Hle; discriminate|done].
Qed.

(** ** Corners *)

(** The root given to a new session is not stored with it. *)
Lemma session_root_lost visit now e root :
  let '(e', s) := engine_create_session_for visit now e root in
  bss_root s = Some root ∧ bss_root <$> manager_get_session (be_sessions e') (bss_id s) = Some None.
Proof. unfold engine_create_session_for, manager_create_session_for. cbn. unfold manager_get_session. cbn. by rewrite lookup_insert_eq. Qed.

(** Scores that are aged do not fall below one. *)
Lemma decay_keeps_one s p n : bss_peer_scores s !! p = Some n → 1 ≤ n < 2 ^ 64 - 1 → ∃ n', bss_peer_scores (decay_scores s) !! p = Some n' ∧ 1 ≤ n'.
Proof.
  intros Hp Hn. exists (u64_wrap (n + 1) / 2). cbn. rewrite lookup_fmap, Hp. split; [done|]. unfold u64_wrap. rewrite N.mod_small by lia.
  apply N.div_le_lower_bound; lia.
Qed.


(** ** Witnesses *)

Definition ex_hash : ContentHash := mkContentHash "b1".
Definition ex_asker : BitswapEngine := (engine_add_peer 0 BitswapEngine_new "bob1").1.
Definition ex_provider : BitswapEngine :=
  (engine_add_peer 0 (with_block_provider BitswapEngine_new (λ _, Some [1; 2; 3])) "alice1").1.

(** A block is kept under a name that its content does not have, and a want that is
    only asked for is then offered to others. *)
Lemma unverified_block_kept :
  engine_get_block (process_message 1 ex_asker "bob1" (Block ex_hash [6; 6; 6])).1 ex_hash = Some [6; 6; 6].
Proof. apply block_stored. vm_compute. by eexists. Qed.

Lemma engine_invariant_witness :
  engine_ok (engine_run (λ m, snd <$> map_to_list m) BitswapEngine_new
    [OpAddPeer 0 "bob1"; OpCreateSession 1; OpCreateWants 2 1 [ex_hash] 5; OpMessage 3 "bob1" (Have ex_hash true); OpCleanup 4]).
Proof.
  apply (engine_invariant (λ m, snd <$> map_to_list m)).
  - intros m s. split.
    + intros ([id s'] & -> & Hs%elem_of_map_to_list)%list_elem_of_fmap. by exists id.
    + intros [id Hs]. apply list_elem_of_fmap. exists (id, s). split; [done|]. by apply elem_of_map_to_list.
  - unfold engine_fresh. split_and!; reflexivity.
Defined.

Definition ex_queue : WantManager :=
  wm_set_pending WantManager_new [PendingWant_want_block 1 ex_hash 5; PendingWant_want_block 2 ex_hash 5; PendingWant_want_block 3 ex_hash 4].

Lemma pop_pending_newest_witness :
  ∃ m w, pop_pending ex_queue = (m, Some w) ∧ pw_created_at w = 2 ∧ wm_pending_wants ex_queue ≡ₚ w :: wm_pending_wants m.
Proof.
  eexists _, _. split; [vm_compute; reflexivity|]. split; [reflexivity|].
  refine (proj1 (pop_pending_newest (H := heap_ref) ex_queue _ _ _)). vm_compute. reflexivity.
Defined.

Lemma wants_taken_for_had_witness :
  (process_message 2 (create_wants 1 ex_asker 7 [ex_hash] 1).1 "bob1" (WantHave ex_hash 1 true)).2 = [Have ex_hash true] ∧
  engine_get_block (create_wants 1 ex_asker 7 [ex_hash] 1).1 ex_hash = None.
Proof.
  split; [|vm_compute; reflexivity].
  apply (wants_taken_for_had 1 2 3 ex_asker 7 7 [ex_hash] 1 1 ex_hash "bob1" true 1).
  - left.
  - vm_compute. by eexists.
Defined.

Lemma block_exchange_witness :
  let '(a2, _) := request_blocks 2 (process_message 1 ex_asker "bob1" (Have ex_hash true)).1 0 [ex_hash] 1 in
  engine_get_block (process_message 4 a2 "bob1" (Block ex_hash [1; 2; 3])).1 ex_hash = Some [1; 2; 3].
Proof.
  pose proof (block_exchange 1 2 3 4 5 ex_asker ex_provider "alice1" "bob1" ex_hash [1; 2; 3] 0 1 true) as H. cbv zeta in H.
  destruct (request_blocks 2 (process_message 1 ex_asker "bob1" (Have ex_hash true)).1 0 [ex_hash] 1) as [a2 rs].
  destruct H as (_ & _ & H & _); [vm_compute; by eexists|vm_compute; by eexists|apply not_elem_of_empty|reflexivity|reflexivity|exact H].
Defined.

Lemma add_peer_spec_witness : is_Some (be_peers (engine_add_peer 0 BitswapEngine_new "bob_1").1 !! "bob_1").
Proof.
  destruct (add_peer_spec 0 BitswapEngine_new "bob_1" eq_refl) as [H _]. apply H. split; [cbn; lia|reflexivity].
Defined.
