(* ===== verification/NasPath.v ===== *)
(** * Paths of the logical namespace ([crates/a3net-blobstore/src/namespace.rs])

    [PathSegments::decode_http] with its percent decoder and normaliser. Every path
    that reaches the manifest from outside comes through it. The [Debug] form of a
    string, which an error message contains, is an argument.

    The theorems show that a decoded path consists of proper names only (no empty
    name, no dot segments, no separator and no zero byte, at most [MAX_DEPTH] of
    them), that it is the normal form of the request, and that the text of a path
    decodes to the path. *)
From stdpp Require Import prelude strings list.
From Stdlib Require Import NArith Lia Ascii.
From Stdlib Require String.
From S2P Require Import Prelude NodeId.

#[local] Open Scope N_scope.

Definition slash : ascii := "/"%char.

Definition MAX_DEPTH : nat := 64.
Definition MAX_PATH_RAW_LEN : N := 4096.

Inductive NamespaceError : Type :=
| NsIo (msg : string)
| Traversal (msg : string)
| PathTooLong (max actual : N)
| DepthExceeded (max actual : nat)
| TooManyChildren (max : N)
| NotFound (path : string)
| NotADirectory (path : string)
| IsADirectory (path : string)
| QuotaExhausted (need free : N)
| ManifestCorrupt (msg : string)
| AuditFailed (msg : string)
| PoisonRecovered
| NsCancelled
| Unimplemented (msg : string)
| TrashCapacity (max size : N).

(** [PathSegments], and its [Display]. *)
Definition PathSegments : Type := list string.
Definition path_display (p : PathSegments) : string := match p with [] => "/" | _ => str_join slash p end.

(** ** Percent decoding *)

Definition path_nibble (b : N) : option N :=
  if within 48 57 b then Some (b - 48)
  else if within 97 102 b then Some (b - 97 + 10)
  else if within 65 70 b then Some (b - 65 + 10)
  else None.

Definition hex_byte (b : N) : string := "0x" +:+ hex_encode_ref [b].

(** The loop, at byte [i]. *)
Fixpoint percent_loop (i : N) (bytes : list N) : result string (list N) :=
  match bytes with
  | [] => Ok []
  | b :: rest =>
      if b =? 37 then
        match rest with
        | c1 :: c2 :: rest =>
            match path_nibble c1 with
            | None => Err ("invalid hex at byte " +:+ show_N (i + 1) +:+ ": " +:+ hex_byte c1)
            | Some h1 =>
                match path_nibble c2 with
                | None => Err ("invalid hex at byte " +:+ show_N (i + 2) +:+ ": " +:+ hex_byte c2)
                | Some h2 =>
                    let v := N.lor (N.shiftl h1 4) h2 in
                    if v =? 0 then Err "null byte produced by percent-decode"%string
                    else let? out := percent_loop (i + 3) rest in Ok (v :: out)
                end
            end
        | _ => Err ("truncated percent-escape at byte " +:+ show_N i)
        end
      else if b =? 0 then Err "null byte in path"%string
      else let? out := percent_loop (i + 1) rest in Ok (b :: out)
  end.

Definition percent_decode_strict (s : string) : result string string :=
  let? out := percent_loop 0 (str_bytes s) in
  if utf8_valid out then Ok (string_of_bytes out) else Err "non-UTF-8 after percent-decode"%string.

(** ** Normalisation *)

(** [strip_suffix('/')] and [ends_with('/')]. *)
Fixpoint str_strip_slash (s : string) : option string :=
  match s with
  | EmptyString => None
  | String a EmptyString => if Ascii.eqb a slash then Some EmptyString else None
  | String a s => match str_strip_slash s with Some t => Some (String a t) | None => None end
  end.
Definition ends_with_slash (s : string) : bool := match str_strip_slash s with Some _ => true | None => false end.

Definition is_empty_str (s : string) : bool := match s with EmptyString => true | _ => false end.

(** The dot segments of RFC 3986; the stack is kept in order. *)
Definition push_segment (stack : option (list string)) (seg : string) : option (list string) :=
  match stack with
  | None => None
  | Some stack =>
      if String.eqb seg "." then Some stack
      else if String.eqb seg ".." then match stack with [] => None | _ => Some (removelast stack) end
      else Some (stack ++ [seg])
  end.
Definition resolve_dots (segs : list string) : option (list string) := foldl push_segment (Some []) segs.

(** The segments, and whether the text had a leading and a trailing slash. *)
Definition tokenise (s : string) : result string (list string * bool * bool) :=
  match s with
  | EmptyString => Ok ([], false, false)
  | String a rest =>
      if Ascii.eqb a slash then
        let inner := default rest (str_strip_slash rest) in
        let segs := if is_empty_str inner then [] else str_split slash inner in
        if existsb is_empty_str segs then Err "empty path segment (//) inside path"%string
        else Ok (segs, true, ends_with_slash s)
      else Err "path must start with '/'"%string
  end.

Definition render (stack : list string) (leading trailing : bool) : string :=
  let out := (if leading then "/" else "") +:+ str_join slash stack in
  let out := if trailing && negb (ends_with_slash out) then out +:+ "/" else out in
  if is_empty_str out && leading then "/"%string else out.

Section Decode.
Context (debug_str : string → string).

Definition canonicalize_path_string (s : string) : result string string :=
  let? t := tokenise s in
  match resolve_dots t.1.1 with
  | None => Err ("path traversal escapes root: " +:+ debug_str s)
  | Some stack => Ok (render stack t.1.2 t.2)
  end.

Definition nonempty_segments (s : string) : list string := filter (λ s, is_empty_str s = false) (str_split slash s).

Definition decode_http (raw : string) : result NamespaceError PathSegments :=
  if MAX_PATH_RAW_LEN <? N.of_nat (String.length raw) then Err (PathTooLong MAX_PATH_RAW_LEN (N.of_nat (String.length raw)))
  else
    match percent_decode_strict raw with
    | Err e => Err (Traversal e)
    | Ok decoded =>
        match canonicalize_path_string decoded with
        | Err e => Err (Traversal e)
        | Ok canonical =>
            let segs := nonempty_segments canonical in
            if Nat.ltb MAX_DEPTH (length segs) then Err (DepthExceeded MAX_DEPTH (length segs)) else Ok segs
        end
    end.
End Decode.

(** ** What a decoded path is *)

Definition zero_char : ascii := "000"%char.

Definition name_ok (s : string) : Prop :=
  s ≠ EmptyString ∧ s ≠ "."%string ∧ s ≠ ".."%string ∧ str_lacks slash s = true ∧ str_lacks zero_char s = true.

(** *** Splitting *)

Lemma str_split_ne c s : str_split c s ≠ [].
Proof. destruct s; cbn; repeat case_match; done. Qed.

Lemma str_split_app_any c s t : str_split c (String.append s (String c t)) = str_split c s ++ str_split c t.
Proof.
  induction s as [|a s IH]; [change (str_split c (String c t) = "" :: str_split c t); cbn [str_split]; by rewrite Ascii.eqb_refl|]. change (String.append (String a s) (String c t)) with (String a (String.append s (String c t))).
  cbn [str_split]. rewrite IH. destruct (Ascii.eqb a c); [done|]. pose proof (str_split_ne c s). by destruct (str_split c s).
Qed.

Lemma str_split_forallb (p : ascii → bool) c s : str_forallb p s = true → Forall (λ x, str_forallb p x = true) (str_split c s).
Proof.
  induction s as [|a s IH]; [by repeat constructor|]. cbn. intros [Ha Hs]%andb_true_iff. specialize (IH Hs).
  destruct (Ascii.eqb a c); [by constructor|]. destruct (str_split c s) as [|h t]; [constructor; [cbn; by rewrite Ha|done]|].
  apply Forall_cons in IH as [Hh Ht]. constructor; [cbn; by rewrite Ha|done].
Qed.

Lemma str_split_all_lack c s : Forall (λ x, str_lacks c x = true) (str_split c s).
Proof.
  induction s as [|a s IH]; [by repeat constructor|]. cbn. destruct (Ascii.eqb a c) eqn:Ha; [by constructor|].
  destruct (str_split c s) as [|h t]; [constructor; [|done]|apply Forall_cons in IH as [Hh Ht]; constructor; [|done]];
    unfold str_lacks in *; cbn; by rewrite Ha.
Qed.

(** *** Percent decoding *)

Lemma path_nibble_bound b h : path_nibble b = Some h → h < 16.
Proof. unfold path_nibble, within. intros H. repeat case_match; try done; simplify_eq; nprop; lia. Qed.

Lemma nibble_pair_bound h1 h2 : h1 < 16 → h2 < 16 → N.lor (N.shiftl h1 4) h2 < 256.
Proof.
  intros H1 H2.
  pose proof (N_check (λ a, forallb (λ b, N.lor (N.shiftl a 4) b <? 256) (N.of_nat <$> seq 0 16)) 16 eq_refl h1 H1) as H.
  pose proof (N_check (λ b, N.lor (N.shiftl h1 4) b <? 256) 16 H h2 H2) as Hb. by apply N.ltb_lt.
Qed.

Lemma percent_loop_ok fuel : ∀ i bytes out, (length bytes ≤ fuel)%nat →
  bytes_ok bytes → percent_loop i bytes = Ok out → Forall (λ b, 0 < b < 256) out.
Proof.
  induction fuel as [|fuel IH]; intros i bytes out Hlen Hok; (destruct bytes as [|b rest]; [cbn; by intros [= <-]|]); cbn in Hlen; [lia|].
  apply Forall_cons in Hok as [Hb Hrest]. unfold byte_ok in Hb. cbn [percent_loop]. destruct (N.eqb_spec b 37) as [->|Hne].
  - destruct rest as [|c1 [|c2 rest]]; [done|done|]. destruct (path_nibble c1) as [h1|] eqn:E1; [|done]. destruct (path_nibble c2) as [h2|] eqn:E2; [|done].
    cbv zeta. destruct (N.eqb_spec (N.lor (N.shiftl h1 4) h2) 0) as [|Hv]; [done|].
    destruct (percent_loop (i + 3) rest) as [t|] eqn:Ht; [|done]. intros [= <-].
    apply path_nibble_bound in E1, E2. pose proof (nibble_pair_bound h1 h2 E1 E2). constructor; [lia|].
    eapply IH; [|by do 2 apply Forall_cons in Hrest as [_ Hrest]|exact Ht]. cbn in Hlen. lia.
  - destruct (N.eqb_spec b 0) as [->|Hz]; [done|]. destruct (percent_loop (i + 1) rest) as [t|] eqn:Ht; [|done]. intros [= <-].
    constructor; [lia|]. eapply IH; [|done|exact Ht]. lia.
Qed.

Lemma decoded_lacks_zero s t : percent_decode_strict s = Ok t → str_lacks zero_char t = true.
Proof.
  unfold percent_decode_strict. destruct (percent_loop 0 (str_bytes s)) as [out|] eqn:Hl; [|done].
  apply (percent_loop_ok (length (str_bytes s))) in Hl; [|done|apply str_bytes_ok]. destruct (utf8_valid out); [|done]. intros [= <-].
  unfold string_of_bytes, str_lacks. induction Hl as [|b out Hb _ IH]; [done|]. cbn. rewrite IH, andb_true_r. apply negb_true_iff, Ascii.eqb_neq.
  intros Hz. apply (f_equal N_of_ascii) in Hz. rewrite N_ascii_embedding in Hz by lia. change (N_of_ascii zero_char) with 0 in Hz. lia.
Qed.

Lemma percent_loop_plain i bytes : Forall (λ b, b ≠ 37 ∧ b ≠ 0) bytes → percent_loop i bytes = Ok bytes.
Proof.
  intros H. revert i. induction H as [|b rest [Hp Hz] _ IH]; intros i; [done|]. cbn [percent_loop].
  rewrite (proj2 (N.eqb_neq _ _) Hp), (proj2 (N.eqb_neq _ _) Hz). by rewrite IH.
Qed.

(** *** Dot segments *)

Lemma foldl_push_none segs : foldl push_segment None segs = None.
Proof. by induction segs. Qed.

Lemma resolve_dots_ok (P : string → Prop) segs stack0 stack :
  Forall P segs → Forall (λ s, P s ∧ s ≠ "."%string ∧ s ≠ ".."%string) stack0 → foldl push_segment (Some stack0) segs = Some stack →
  Forall (λ s, P s ∧ s ≠ "."%string ∧ s ≠ ".."%string) stack.
Proof.
  intros Hs. revert stack0. induction Hs as [|s segs Hp _ IH]; intros stack0 H0; cbn [foldl]; [by intros [= <-]|].
  cbn [push_segment]. destruct (String.eqb_spec s ".") as [->|H1]; [by apply IH|]. destruct (String.eqb_spec s "..") as [->|H2].
  - destruct stack0 as [|x stack0]; [by rewrite foldl_push_none|]. apply IH.
    destruct (exists_last (l := x :: stack0) ltac:(done)) as (l & y & Hl). rewrite Hl, removelast_last. rewrite Hl in H0. by apply Forall_app in H0 as [? _].
  - apply IH. apply Forall_app. split; [done|]. by repeat constructor.
Qed.

Lemma resolve_dots_plain segs stack0 :
  Forall (λ s, s ≠ "."%string ∧ s ≠ ".."%string) segs → foldl push_segment (Some stack0) segs = Some (stack0 ++ segs).
Proof.
  intros H. revert stack0. induction H as [|s segs [H1 H2] _ IH]; intros stack0; cbn [foldl]; [by rewrite app_nil_r|].
  cbn [push_segment]. rewrite (proj2 (String.eqb_neq _ _) H1), (proj2 (String.eqb_neq _ _) H2), IH. by rewrite <- app_assoc.
Qed.

(** *** The text of a stack of names *)

Definition seg_ok (s : string) : Prop := is_empty_str s = false ∧ str_lacks slash s = true.

Lemma nonempty_id segs : Forall seg_ok segs → filter (λ s, is_empty_str s = false) segs = segs.
Proof. intros H. induction H as [|s segs [Hs _] _ IH]; [done|]. rewrite filter_cons_True by done. by rewrite IH. Qed.

Lemma nonempty_join segs : Forall seg_ok segs → nonempty_segments (str_join slash segs) = segs.
Proof.
  intros H. unfold nonempty_segments. destruct segs as [|s segs]; [done|].
  rewrite str_split_join; [by apply nonempty_id|done|]. eapply Forall_impl; [exact H|]. by intros x [].
Qed.

Lemma nonempty_lead s : nonempty_segments (String slash s) = nonempty_segments s.
Proof. unfold nonempty_segments. cbn [str_split]. rewrite Ascii.eqb_refl. done. Qed.

Lemma nonempty_trail s : nonempty_segments (s +:+ "/") = nonempty_segments s.
Proof. unfold nonempty_segments. change (s +:+ "/") with (String.append s (String slash "")). rewrite (str_split_app_any slash s ""). rewrite filter_app. cbn. by rewrite app_nil_r. Qed.

Lemma nonempty_render stack leading trailing : Forall seg_ok stack → nonempty_segments (render stack leading trailing) = stack.
Proof.
  intros H. unfold render. set (out := (if leading then "/" else "") +:+ str_join slash stack).
  assert (nonempty_segments out = stack) as Ho.
  { unfold out. destruct leading; [change ("/" +:+ str_join slash stack) with (String slash (str_join slash stack)); rewrite nonempty_lead|]; by apply nonempty_join. }
  assert (nonempty_segments (if trailing && negb (ends_with_slash out) then out +:+ "/" else out) = stack) as Ho'.
  { destruct (trailing && negb (ends_with_slash out)); [by rewrite nonempty_trail|done]. }
  destruct (is_empty_str _ && leading) eqn:He; [|done]. apply andb_true_iff in He as [He _].
  destruct (if trailing && negb (ends_with_slash out) then out +:+ "/" else out); [|done]. done.
Qed.

Lemma strip_slash_some s t : str_strip_slash s = Some t → s = t +:+ "/".
Proof.
  revert t. induction s as [|a s IH]; intros t; [done|]. cbn [str_strip_slash]. destruct s as [|b s].
  - destruct (Ascii.eqb_spec a slash) as [->|]; [by intros [= <-]|done].
  - destruct (str_strip_slash (String b s)) as [u|]; [|done]. intros [= <-]. by rewrite (IH u eq_refl).
Qed.

Lemma tokenise_segments s segs lead trail :
  tokenise s = Ok (segs, lead, trail) → segs = nonempty_segments s ∧ Forall seg_ok segs ∧ ∀ p, str_forallb p s = true → Forall (λ x, str_forallb p x = true) segs.
Proof.
  unfold tokenise. destruct s as [|a rest]; [intros [= <- <- <-]; split_and!; done|].
  destruct (Ascii.eqb_spec a slash) as [->|]; [|done]. set (inner := default rest (str_strip_slash rest)).
  assert (nonempty_segments (String slash rest) = nonempty_segments inner ∧ ∀ p, str_forallb p rest = true → str_forallb p inner = true) as [Hn Hp].
  { rewrite nonempty_lead. unfold inner. destruct (str_strip_slash rest) as [t|] eqn:Hs; [|done]. apply strip_slash_some in Hs as ->. cbn.
    rewrite nonempty_trail. split; [done|]. intros p. rewrite str_forallb_app. by intros [? _]%andb_true_iff. }
  destruct (existsb is_empty_str _) eqn:He; [done|]. intros [= <- <- <-].
  assert (Forall seg_ok (if is_empty_str inner then [] else str_split slash inner)) as Hok.
  { destruct (is_empty_str inner); [done|]. pose proof (str_split_all_lack slash inner) as Hl. revert He Hl. generalize (str_split slash inner).
    intros l. induction l as [|x l IH]; [done|]. cbn. intros [Hx He]%orb_false_iff [Hlx Hl]%Forall_cons. constructor; [done|by apply IH]. }
  split_and!; [|done|].
  - rewrite Hn. destruct inner as [|b inner]; [done|]. cbn [is_empty_str] in *. unfold nonempty_segments. by rewrite nonempty_id.
  - intros p [_ Hr]%andb_true_iff. destruct (is_empty_str inner); [done|]. by apply str_split_forallb, Hp.
Qed.

Lemma decode_http_depth debug_str raw segs : decode_http debug_str raw = Ok segs → (length segs ≤ MAX_DEPTH)%nat.
Proof.
  unfold decode_http. destruct (_ <? _); [done|]. destruct (percent_decode_strict raw); [|done]. destruct (canonicalize_path_string _ _); [|done].
  cbv zeta. destruct (Nat.ltb_spec MAX_DEPTH (length (nonempty_segments a0))); [done|]. by intros [= <-].
Qed.

(** C25. What [decode_http] lets through: the segments of a decoded path are the normal
    form of the request (its percent decoding, split at the slashes, with the dot
    segments resolved inside the root); none of them is empty, a dot segment, or
    contains a slash or a zero byte, and there are at most [MAX_DEPTH]. *)
Theorem decode_http_safe debug_str raw segs :
  decode_http debug_str raw = Ok segs →
  (length segs ≤ MAX_DEPTH)%nat ∧ Forall name_ok segs ∧
  ∃ decoded, percent_decode_strict raw = Ok decoded ∧ resolve_dots (nonempty_segments decoded) = Some segs.
Proof.
  unfold decode_http. destruct (MAX_PATH_RAW_LEN <? _); [done|]. destruct (percent_decode_strict raw) as [decoded|] eqn:Hd; [|done].
  unfold canonicalize_path_string. destruct (tokenise decoded) as [[[toks lead] trail]|] eqn:Ht; [|done]. cbn [fst snd].
  apply tokenise_segments in Ht as (-> & Hok & Hp). destruct (resolve_dots _) as [stack|] eqn:Hr; [|done].
  pose proof (resolve_dots_ok (λ s, seg_ok s ∧ str_lacks zero_char s = true) (nonempty_segments decoded) [] stack) as Hs.
  specialize (Hs (proj2 (Forall_and _ _) (conj Hok (Hp _ (decoded_lacks_zero _ _ Hd)))) ltac:(done) Hr).
  cbv zeta. rewrite nonempty_render by (eapply Forall_impl; [exact Hs|]; by intros x [[] _]).
  destruct (Nat.ltb_spec MAX_DEPTH (length stack)); [done|]. intros [= <-]. split_and!; [lia| |by exists decoded].
  eapply Forall_impl; [exact Hs|]. intros x [[[He Hl] Hz] [H1 H2]]. split_and!; try done. by intros ->.
Qed.

Lemma strip_slash_app s t : t ≠ EmptyString → str_strip_slash t = None → str_strip_slash (s +:+ t) = None.
Proof.
  intros Hne Ht. induction s as [|a s IH]; [done|]. change (String a s +:+ t) with (String a (s +:+ t)). cbn [str_strip_slash].
  rewrite IH. destruct (s +:+ t) eqn:He; [|done]. destruct s; [by destruct t|done].
Qed.

Lemma strip_slash_lacks s : str_lacks slash s = true → str_strip_slash s = None.
Proof.
  unfold str_lacks. induction s as [|a s IH]; [done|]. cbn [str_forallb str_strip_slash]. intros [Ha Hs]%andb_true_iff. rewrite IH by done.
  destruct s; [|done]. by destruct (Ascii.eqb a slash).
Qed.

Lemma strip_slash_join segs : Forall seg_ok segs → str_strip_slash (str_join slash segs) = None.
Proof.
  intros H. induction H as [|s segs [Hs Hl] Hsegs IH]; [done|]. destruct segs as [|s' segs]; [by apply strip_slash_lacks|].
  change (str_join slash (s :: s' :: segs)) with (s +:+ ("/" +:+ str_join slash (s' :: segs))).
  assert (str_join slash (s' :: segs) ≠ EmptyString) as Hne.
  { apply Forall_cons in Hsegs as [[Hs' _] _]. destruct s' as [|b s']; [done|]. by destruct segs. }
  revert IH Hne. generalize (str_join slash (s' :: segs)). intros j Hj Hne. apply strip_slash_app; [done|]. by apply strip_slash_app.
Qed.

Definition percent : ascii := "%"%char.

Lemma forallb_join (p : ascii → bool) c segs : p c = true → Forall (λ s, str_forallb p s = true) segs → str_forallb p (str_join c segs) = true.
Proof.
  intros Hc H. induction H as [|s segs Hs _ IH]; [done|]. destruct segs as [|s' segs]; [done|].
  change (str_join c (s :: s' :: segs)) with (String.append s (String c (str_join c (s' :: segs)))). rewrite str_forallb_app, Hs.
  revert IH. generalize (str_join c (s' :: segs)). intros j Hj. cbn. by rewrite Hc.
Qed.

(** The text of a path, with a slash in front, decodes to the path, when its names are
    proper, none has a percent sign, and it is short enough. *)
Theorem decode_display debug_str (segs : PathSegments) :
  Forall name_ok segs → Forall (λ s, str_lacks percent s = true) segs → (length segs ≤ MAX_DEPTH)%nat →
  N.of_nat (String.length (str_join slash segs)) < MAX_PATH_RAW_LEN → utf8_valid (str_bytes (str_join slash segs)) = true →
  decode_http debug_str (String slash (str_join slash segs)) = Ok segs.
Proof.
  intros Hn Hp Hd Hlen Hu. assert (Forall seg_ok segs) as Hok.
  { eapply Forall_impl; [exact Hn|]. intros s (He & _ & _ & Hl & _). split; [by destruct s|done]. }
  unfold decode_http. cbn [String.length]. destruct (N.ltb_spec MAX_PATH_RAW_LEN (N.of_nat (S (String.length (str_join slash segs))))); [lia|].
  assert (percent_decode_strict (String slash (str_join slash segs)) = Ok (String slash (str_join slash segs))) as ->.
  { unfold percent_decode_strict. rewrite percent_loop_plain.
    - change (str_bytes (String slash (str_join slash segs))) with (47 :: str_bytes (str_join slash segs)) at 1. cbn [utf8_valid]. change (47 <? 128) with true. cbv iota.
      rewrite Hu. by rewrite string_of_str_bytes.
    - assert (str_forallb (λ a, negb (Ascii.eqb a percent) && negb (Ascii.eqb a zero_char)) (String slash (str_join slash segs)) = true) as Hf.
      { cbn [str_forallb]. apply (forallb_join (λ a, negb (Ascii.eqb a percent) && negb (Ascii.eqb a zero_char))); [done|].
        pose proof (proj2 (Forall_and _ _) (conj Hn Hp)) as Hnp. eapply Forall_impl; [exact Hnp|]. intros s [(_ & _ & _ & _ & Hz) Hpc]. revert Hz Hpc. unfold str_lacks.
        clear. induction s as [|a s IH]; [done|]. cbn. intros [Ha1 Ha2]%andb_true_iff [Hb1 Hb2]%andb_true_iff. by rewrite Ha1, Hb1, IH. }
      revert Hf. generalize (String slash (str_join slash segs)). intros s. unfold str_bytes. induction s as [|a s IH]; [constructor|].
      cbn. intros [[Ha1 Ha2]%andb_true_iff Hs]%andb_true_iff. constructor; [|by apply IH].
      apply negb_true_iff, Ascii.eqb_neq in Ha1, Ha2. split.
      + intros E. apply Ha1. apply (inj N_of_ascii). done.
      + intros E. apply Ha2. apply (inj N_of_ascii). done. }
  unfold canonicalize_path_string, tokenise. rewrite Ascii.eqb_refl, (strip_slash_join segs Hok). cbn [default].
  set (toks := if is_empty_str (str_join slash segs) then [] else str_split slash (str_join slash segs)).
  assert (toks = segs) as ->.
  { unfold toks. destruct segs as [|s segs]; [done|]. assert (is_empty_str (str_join slash (s :: segs)) = false) as ->.
    { apply Forall_cons in Hok as [[Hs _] _]. destruct s; [done|]. by destruct segs. }
    apply str_split_join; [done|]. eapply Forall_impl; [exact Hok|]. by intros x []. }
  assert (existsb is_empty_str segs = false) as ->.
  { clear -Hok. induction Hok as [|s segs [Hs _] _ IH]; [done|]. cbn. by rewrite Hs, IH. }
  cbn [fst snd]. unfold resolve_dots. rewrite resolve_dots_plain by (eapply Forall_impl; [exact Hn|]; by intros s (_ & ? & ? & _)).
  cbn [app]. cbv zeta. rewrite nonempty_render by done. by destruct (Nat.ltb_spec MAX_DEPTH (length segs)); [lia|].
Qed.

(** *** Corners *)

Lemma decode_examples :
  decode_http (λ s, s) "/a/./b/../c%20d/" = Ok ["a"; "c d"]%string ∧
  decode_http (λ s, s) "/a/%2e%2e/%2e%2e/b" = Err (Traversal "path traversal escapes root: /a/../../b") ∧
  decode_http (λ s, s) "/a//b" = Err (Traversal "empty path segment (//) inside path") ∧
  decode_http (λ s, s) "/a%00" = Err (Traversal "null byte produced by percent-decode") ∧
  decode_http (λ s, s) "/a%2fb" = Ok ["a"; "b"]%string.
Proof. split_and!; vm_compute; reflexivity. Qed.

Lemma decode_http_safe_witness : Forall name_ok ["a"; "c d"]%string.
Proof. apply (decode_http_safe (λ s, s) "/a/./b/../c%20d/" ["a"; "c d"]%string). vm_compute. reflexivity. Defined.

Lemma decode_display_witness : decode_http (λ s, s) "/docs/a.txt" = Ok ["docs"; "a.txt"]%string.
Proof.
  apply (decode_display (λ s, s) ["docs"; "a.txt"]%string).
  - repeat constructor; discriminate.
  - repeat constructor.
  - vm_compute. lia.
  - vm_compute. reflexivity.
  - vm_compute. reflexivity.
Defined.
