(* ===== verification/Namespace.v ===== *)
(** * The logical namespace ([crates/a3net-blobstore/src/namespace.rs])

    The manifest is a tree of directories and files. Code that mutates it through a
    [&mut] runs in the monad [Tree]: it returns the tree it leaves behind also when
    it fails, as the closures of [mutate_with] do. A borrowed map of children is
    the continuation of the walk that finds it. [Nas] has the manifest in memory,
    the file [manifest.json], the audit log, the trash and the versions; whether a
    write succeeds is the argument [NsIo]. The trash and the versions hold what
    [serde_json] wrote; the order of [read_dir] is the class [ReadDir]. Only the
    mutation of the manifest in memory is under the lock. What other tasks do between
    the reads of an operation and its mutation is the argument [pre], what they do
    between the mutation and the commit (audit, then [manifest.json], [ns_commit]) the
    argument [post]; both are the identity when operations run one at a time.

    The theorems show that the operations refine those on a flat map from paths to
    files, what each failure leaves behind, the round trip through the trash, and
    where data is lost. *)
From stdpp Require Import prelude strings gmap list sorting.
From Stdlib Require Import NArith ZArith Lia Ascii.
From Stdlib Require String.
From S2P Require Import Prelude NodeId ContentHash NasPath.

#[local] Open Scope N_scope.

Definition MAX_CHILDREN_PER_DIR : N := 100000.
Definition AUDIT_SCHEMA_VERSION : N := 1.

(** ** The tree *)

Inductive Entry : Type :=
| EFile (hash : ContentHash) (size_bytes : N)
| EDirectory (children : gmap string Entry).

Definition entry_is_dir (e : Entry) : bool := match e with EDirectory _ => true | _ => false end.
Definition entry_is_file (e : Entry) : bool := match e with EFile _ _ => true | _ => false end.

Record Manifest : Type := mkManifest { mf_schema : N; mf_root : Entry; mf_generation : N }.
Definition Manifest_empty : Manifest := mkManifest AUDIT_SCHEMA_VERSION (EDirectory ∅) 0.

Definition Tree (A : Type) : Type := Entry → Entry * result NamespaceError A.
Definition tree_ret {A} (a : A) : Tree A := λ e, (e, Ok a).
Definition tree_fail {A} (err : NamespaceError) : Tree A := λ e, (e, Err err).
Definition tree_bind {A B} (c : Tree A) (k : A → Tree B) : Tree B :=
  λ e, let '(e, r) := c e in match r with Ok a => k a e | Err err => (e, Err err) end.
Notation "x ←! c ; k" := (tree_bind c (λ x, k)) (at level 20, c at level 100, k at level 200, right associativity) : adnet_scope.

(** What is done with the children of a directory. *)
Notation Children := (gmap string Entry).
Definition Edit (A : Type) : Type := Children → Children * result NamespaceError A.

(** [walk_mut]; [seen] are the segments already walked. *)
Fixpoint walk_loop {A} (seen rest : PathSegments) (k : Edit A) : Tree A := λ e,
  match rest with
  | [] =>
      match e with
      | EDirectory children => let '(children, r) := k children in (EDirectory children, r)
      | EFile _ _ => (e, Err (NotADirectory (match seen with [] => "/" | _ => str_join slash seen end)))
      end
  | seg :: rest =>
      match e with
      | EDirectory children =>
          match children !! seg with
          | Some entry =>
              let '(entry, r) := walk_loop (seen ++ [seg]) rest k entry in (EDirectory (<[seg := entry]> children), r)
          | None => (e, Err (NotFound (str_join slash (seen ++ [seg]))))
          end
      | EFile _ _ => (e, Err (NotADirectory (str_join slash seen)))
      end
  end.

Definition walk_mut {A} (path : PathSegments) (k : Edit A) : Tree A := walk_loop [] path k.

Definition split_walk {A} (path : PathSegments) (k : string → Edit A) : Tree A :=
  match last path with
  | None => tree_fail (Traversal "cannot mutate root")
  | Some leaf_name => walk_mut (removelast path) (k leaf_name)
  end.

(** The loop of [split_walk_or_create]. *)
Fixpoint create_loop {A} (seen rest : PathSegments) (k : string → Edit A) : Tree A := λ e,
  match rest with
  | [] => (e, Err (Traversal "cannot mutate root"))
  | seg :: rest' =>
      match e with
      | EDirectory children =>
          match rest' with
          | [] => let '(children, r) := k seg children in (EDirectory children, r)
          | _ =>
              let entry := default (EDirectory ∅) (children !! seg) in
              let '(entry, r) := create_loop (seen ++ [seg]) rest' k entry in (EDirectory (<[seg := entry]> children), r)
          end
      | EFile _ _ => (e, Err (NotADirectory (str_join slash seen)))
      end
  end.

Definition split_walk_or_create {A} (path : PathSegments) (k : string → Edit A) : Tree A :=
  match path with
  | [] => tree_fail (Traversal "cannot mutate root")
  | _ => if Nat.ltb MAX_DEPTH (length path) then tree_fail (DepthExceeded MAX_DEPTH (length path)) else create_loop [] path k
  end.

(** [exists] and the walk of [lookup]. *)
Fixpoint lookup_entry (e : Entry) (path : PathSegments) : option Entry :=
  match path with
  | [] => Some e
  | seg :: path => match e with EDirectory children => children !! seg ≫= λ e, lookup_entry e path | EFile _ _ => None end
  end.
Definition path_exists (e : Entry) (path : PathSegments) : bool := match lookup_entry e path with Some _ => true | None => false end.

Fixpoint insert_at_loop (seen rest : PathSegments) (entry : Entry) : Tree unit := λ e,
  match rest with
  | [] => (e, Ok ())
  | seg :: rest' =>
      match e with
      | EDirectory children =>
          match rest' with
          | [] => (EDirectory (<[seg := entry]> children), Ok ())
          | _ =>
              match children !! seg with
              | Some child => let '(child, r) := insert_at_loop (seen ++ [seg]) rest' entry child in (EDirectory (<[seg := child]> children), r)
              | None => (e, Err (NotFound (str_join slash (seen ++ [seg]))))
              end
          end
      | EFile _ _ => (e, Err (NotADirectory (str_join slash seen)))
      end
  end.

Definition insert_at (path : PathSegments) (entry : Entry) : Tree unit :=
  match path with [] => tree_fail (Traversal "cannot replace root") | _ => insert_at_loop [] path entry end.

(** ** The mutations of the tree *)

Definition guard_children (children : Children) : result NamespaceError unit :=
  if MAX_CHILDREN_PER_DIR <=? N.of_nat (size children) then Err (TooManyChildren MAX_CHILDREN_PER_DIR) else Ok ().

(** Insert into a directory that has room. *)
Definition add_child (entry : Entry) (leaf_name : string) : Edit unit := λ children,
  match guard_children children with Err e => (children, Err e) | Ok _ => (<[leaf_name := entry]> children, Ok ()) end.

Definition put_tree (path : PathSegments) (hash : ContentHash) (size : N) : Tree unit :=
  split_walk_or_create path (add_child (EFile hash size)).

Definition delete_tree (path : PathSegments) : Tree ContentHash :=
  split_walk path (λ leaf_name children,
    match children !! leaf_name with
    | None => (children, Err (NotFound leaf_name))
    | Some (EFile hash _) => (delete leaf_name children, Ok hash)
    | Some (EDirectory _) => (children, Err (IsADirectory (path_display path)))
    end).

Definition mkcol_tree (path : PathSegments) : Tree unit :=
  split_walk path (λ leaf_name children,
    match children !! leaf_name with
    | Some _ => (children, Err (IsADirectory (path_display path)))
    | None => add_child (EDirectory ∅) leaf_name children
    end).

(** The overwrite of a destination that exists. *)
Definition clear_destination (to : PathSegments) (overwrite : bool) : Tree unit := λ e,
  if path_exists e to then
    if negb overwrite then (e, Err (Traversal ("destination " +:+ path_display to +:+ " exists and Overwrite is F")))
    else split_walk to (λ leaf_name children, (delete leaf_name children, Ok ())) e
  else (e, Ok ()).

(** Take an entry out of its directory. *)
Definition take_entry (missing : string → NamespaceError) (path : PathSegments) : Tree Entry :=
  split_walk path (λ leaf_name children,
    match children !! leaf_name with
    | Some entry => (delete leaf_name children, Ok entry)
    | None => (children, Err (missing leaf_name))
    end).

Definition rename_tree (from to : PathSegments) (overwrite : bool) : Tree unit :=
  _ ←! clear_destination to overwrite;
  entry ←! take_entry (λ _, NotFound (path_display from)) from;
  insert_at to entry.

Definition copy_tree (entry : Entry) (to : PathSegments) (overwrite : bool) : Tree unit :=
  _ ←! clear_destination to overwrite;
  split_walk_or_create to (add_child entry).

Definition restore_tree (path : PathSegments) (entry : Entry) : Tree unit :=
  split_walk_or_create path (λ leaf_name children, (<[leaf_name := entry]> children, Ok ())).

Definition restore_version_tree (path : PathSegments) (entry : Entry) : Tree unit :=
  split_walk path (λ leaf_name children, (<[leaf_name := entry]> (delete leaf_name children), Ok ())).

(** ** The namespace *)

Record AuditContext : Type := mkAuditContext { ac_capability_id : option string; ac_note : option string }.
Definition AuditContext_default : AuditContext := mkAuditContext None None.

Record AuditRecord : Type := mkAuditRecord {
  ar_schema : N; ar_seq : N; ar_timestamp_unix_ms : Z; ar_op : string; ar_path : string;
  ar_hash : option ContentHash; ar_capability_id : option string; ar_note : option string
}.

Record TrashEntry : Type := mkTrashEntry {
  te_original_path : string; te_entry : Entry; te_deleted_at_ms : Z; te_capability_id : option string; te_note : option string
}.

Record VersionMeta : Type := mkVersionMeta {
  vm_snap_id : string; vm_original_path : string; vm_entry : Entry; vm_created_at_ms : Z;
  vm_capability_id : option string; vm_note : option string
}.

(** The manifest in memory, and the files: [manifest.json], [audit.jsonl], the trash
    by file name, the versions by directory and identifier. *)
Record Nas : Type := mkNas {
  nas_manifest : Manifest;
  nas_disk : option Manifest;
  nas_audit : list AuditRecord;
  nas_trash : gmap string TrashEntry;
  nas_versions : gmap (string * string) VersionMeta
}.

(** The failures of the writes of one operation: of the audit line, with whether it
    reached the file; of [manifest.json]; of the trash or version file. *)
Record DiskIo : Type := mkDiskIo {
  io_audit : option (NamespaceError * bool); io_persist : option NamespaceError; io_side : option NamespaceError
}.
Definition io_ok : DiskIo := mkDiskIo None None None.

Definition set_memory (n : Nas) (m : Manifest) : Nas := mkNas m (nas_disk n) (nas_audit n) (nas_trash n) (nas_versions n).
Definition set_disk (n : Nas) (m : Manifest) : Nas := mkNas (nas_manifest n) (Some m) (nas_audit n) (nas_trash n) (nas_versions n).
Definition set_audit (n : Nas) (l : list AuditRecord) : Nas := mkNas (nas_manifest n) (nas_disk n) l (nas_trash n) (nas_versions n).
Definition set_trash (n : Nas) (t : gmap string TrashEntry) : Nas := mkNas (nas_manifest n) (nas_disk n) (nas_audit n) t (nas_versions n).
Definition set_versions (n : Nas) (v : gmap (string * string) VersionMeta) : Nas := mkNas (nas_manifest n) (nas_disk n) (nas_audit n) (nas_trash n) v.

(** [Nas::open] over the files another instance left. *)
Definition Nas_open (n : Nas) : Nas := set_memory n (default Manifest_empty (nas_disk n)).
Definition Nas_empty : Nas := mkNas Manifest_empty None [] ∅ ∅.

Definition write_audit (io : DiskIo) (record : AuditRecord) (n : Nas) : Nas * result NamespaceError unit :=
  match io_audit io with
  | Some (e, written) => (if written then set_audit n (nas_audit n ++ [record]) else n, Err e)
  | None => (set_audit n (nas_audit n ++ [record]), Ok ())
  end.

Definition persist_manifest (io : DiskIo) (m : Manifest) (n : Nas) : Nas * result NamespaceError unit :=
  match io_persist io with Some e => (n, Err e) | None => (set_disk n m, Ok ()) end.

(** The closures increase the generation when they succeed. *)
Definition mutate_with {A} (f : Tree A) (n : Nas) : Nas * result NamespaceError (Manifest * A) :=
  let m := nas_manifest n in
  let '(root, r) := f (mf_root m) in
  match r with
  | Ok a => let m := mkManifest (mf_schema m) root ((mf_generation m + 1) mod 2 ^ 64) in (set_memory n m, Ok (m, a))
  | Err e => (set_memory n (mkManifest (mf_schema m) root (mf_generation m)), Err e)
  end.

(** What follows a mutation: the audit line, then the manifest it produced. *)
Definition ns_commit {A} (io : DiskIo) (next : Manifest) (now : Z) (op path : string) (audit : AuditContext) (a : A) (n : Nas) :
  Nas * result NamespaceError A :=
  let record := mkAuditRecord AUDIT_SCHEMA_VERSION (mf_generation next) now op path None (ac_capability_id audit) (ac_note audit) in
  let '(n, r) := write_audit io record n in
  match r with
  | Err e => (n, Err e)
  | Ok _ => let '(n, r) := persist_manifest io next n in match r with Err e => (n, Err e) | Ok _ => (n, Ok a) end
  end.

Definition mutate_commit {A} (pre post : Nas → Nas) (io : DiskIo) (now : Z) (op path : string) (audit : AuditContext) (f : Tree A) (n : Nas) :
  Nas * result NamespaceError A :=
  let '(n, r) := mutate_with f (pre n) in
  match r with Err e => (n, Err e) | Ok (next, a) => ns_commit io next now op path audit a (post n) end.

Definition nas_lookup (n : Nas) (path : PathSegments) : option Entry := lookup_entry (mf_root (nas_manifest n)) path.

(** [get_sync] reads the blob of a hash. *)
Definition nas_read_file (get_sync : ContentHash → option (list N)) (n : Nas) (path : PathSegments) : result NamespaceError (list N) :=
  match nas_lookup n path with
  | None => Err (NotFound ("/" +:+ str_join slash path))
  | Some (EDirectory _) => Err (IsADirectory (path_display path))
  | Some (EFile hash _) => ok_or (NsIo ("blob " +:+ ch_hex hash +:+ " not found in store")) (get_sync hash)
  end.

Section Operations.
Context (pre post : Nas → Nas) (io : DiskIo) (now : Z) (audit : AuditContext).

Definition nas_put (quota : N → result NamespaceError unit) (path : PathSegments) (hash : ContentHash) (size : N) (n : Nas) :
  Nas * result NamespaceError unit :=
  match quota size with
  | Err e => (n, Err e)
  | Ok _ => mutate_commit pre post io now "put" (path_display path) audit (put_tree path hash size) n
  end.

Definition nas_delete (path : PathSegments) (n : Nas) : Nas * result NamespaceError ContentHash :=
  mutate_commit pre post io now "delete" (path_display path) audit (delete_tree path) n.

Definition nas_mkcol (path : PathSegments) (n : Nas) : Nas * result NamespaceError unit :=
  mutate_commit pre post io now "mkcol" (path_display path) audit (mkcol_tree path) n.

Definition nas_rename (from to : PathSegments) (overwrite : bool) (n : Nas) : Nas * result NamespaceError unit :=
  mutate_commit pre post io now "rename" (path_display from +:+ " -> " +:+ path_display to) audit (rename_tree from to overwrite) n.

Definition nas_copy (from to : PathSegments) (overwrite : bool) (n : Nas) : Nas * result NamespaceError unit :=
  match nas_lookup n from with
  | None => (n, Err (NotFound (path_display from)))
  | Some entry => mutate_commit pre post io now "copy" (path_display from +:+ " -> " +:+ path_display to) audit (copy_tree entry to overwrite) n
  end.

(** What is written is the manifest in memory after the lock was released. *)
Definition force_set_root (m : Manifest) (n : Nas) : Nas * result NamespaceError unit :=
  let n := post (set_memory (pre n) m) in persist_manifest io (nas_manifest n) n.

(** *** The trash *)

(** [nonce] is the hexadecimal text of a random number. *)
Definition trash_file_name (nonce : string) (path : PathSegments) : string :=
  show_Z (Z.quot now 1000) +:+ "_" +:+ nonce +:+ "_" +:+ default EmptyString (last path) +:+ ".trash".

Definition soft_delete (nonce : string) (path : PathSegments) (n : Nas) : Nas * result NamespaceError Entry :=
  let '(n, r) := mutate_with (take_entry NotFound path) (pre n) in
  match r with
  | Err e => (n, Err e)
  | Ok (next, old_entry) =>
      let trash_name := trash_file_name nonce path in
      let trash_entry := mkTrashEntry (path_display path) old_entry now (ac_capability_id audit) (ac_note audit) in
      match io_side io with
      | Some e => (n, Err e)
      | None =>
          let n := post n in
          let n := set_trash n (<[trash_name := trash_entry]> (nas_trash n)) in
          ns_commit io next now "soft_delete" (path_display path)
            (mkAuditContext (ac_capability_id audit) (Some ("trashed as " +:+ trash_name))) old_entry n
      end
  end.

Definition empty_expired_trash (max_age_secs : Z) (n : Nas) : Nas * nat :=
  let cutoff_ms := (now - max_age_secs * 1000)%Z in
  let kept := filter (λ e, (te_deleted_at_ms e.2 <? cutoff_ms)%Z = false) (nas_trash n) in
  (set_trash n kept, (size (nas_trash n) - size kept)%nat).
End Operations.

(** The order in which [read_dir] lists the files of the trash. *)
Class ReadDir : Type := { read_dir : gmap string TrashEntry → list (string * TrashEntry) }.
Class ReadDirLaws (RD : ReadDir) : Prop := { read_dir_perm t : read_dir t ≡ₚ map_to_list t }.

Definition newer (a b : TrashEntry) : bool := (te_deleted_at_ms b <=? te_deleted_at_ms a)%Z.

Definition list_trash `{ReadDir} (n : Nas) : list TrashEntry := sort_by newer (snd <$> read_dir (nas_trash n)).

Section Restore.
Context `{ReadDir} `{Blake3} (debug_str : string → string) (pre post : Nas → Nas) (io : DiskIo) (now : Z) (audit : AuditContext).

Definition nas_restore (original_path : string) (n : Nas) : Nas * result NamespaceError Entry :=
  match list_find (λ t, te_original_path t = original_path) (list_trash n) with
  | None => (n, Err (NotFound ("not in trash: " +:+ original_path)))
  | Some (_, trash_entry) =>
      match decode_http debug_str ("/" +:+ original_path) with
      | Err e => (n, Err e)
      | Ok path =>
          let '(n, r) := mutate_with (restore_tree path (te_entry trash_entry)) (pre n) in
          match r with
          | Err e => (n, Err e)
          | Ok (next, _) =>
              ns_commit io next now "restore" original_path (mkAuditContext (ac_capability_id audit) (Some "restored from trash"%string))
                (te_entry trash_entry) (post n)
          end
      end
  end.

(** *** Versions *)

Definition version_dir (path : PathSegments) : string := hex_encode_ref (blake3_hash (str_bytes (path_display path))).

Definition snapshot_version (path : PathSegments) (n : Nas) : Nas * result NamespaceError string :=
  match nas_lookup n path with
  | None => (n, Err (NotFound (path_display path)))
  | Some entry =>
      let snap_id := "v" +:+ show_Z now in
      match io_side io with
      | Some e => (n, Err e)
      | None =>
          (set_versions n (<[(version_dir path, snap_id) :=
             mkVersionMeta snap_id (path_display path) entry now (ac_capability_id audit) (ac_note audit)]> (nas_versions n)), Ok snap_id)
      end
  end.

Definition list_versions (path : PathSegments) (n : Nas) : list string :=
  sort_by (λ a b, bytes_leb (str_bytes b) (str_bytes a))
    (omap (λ kv : string * string * VersionMeta, if String.eqb kv.1.1 (version_dir path) then Some kv.1.2 else None) (map_to_list (nas_versions n))).

(** [missing] is the error of reading a file that does not exist. *)
Definition get_version (missing : NamespaceError) (path : PathSegments) (snap_id : string) (n : Nas) : result NamespaceError Entry :=
  match nas_versions n !! (version_dir path, snap_id) with Some meta => Ok (vm_entry meta) | None => Err missing end.

Definition restore_version (missing : NamespaceError) (path : PathSegments) (snap_id : string) (n : Nas) : Nas * result NamespaceError Entry :=
  match get_version missing path snap_id n with
  | Err e => (n, Err e)
  | Ok restored_entry =>
      let '(n, r) := mutate_with (restore_version_tree path restored_entry) (pre n) in
      match r with
      | Err e => (n, Err e)
      | Ok (next, _) =>
          ns_commit io next now "restore_version" (path_display path)
            (mkAuditContext (ac_capability_id audit) (Some ("restored to " +:+ snap_id))) restored_entry (post n)
      end
  end.
End Restore.

(** ** The namespace as a map from paths to files *)

Definition Files : Type := PathSegments → option (ContentHash * N).

Definition file_of (e : Entry) : option (ContentHash * N) := match e with EFile h s => Some (h, s) | EDirectory _ => None end.
Definition file_at (e : Entry) : Files := λ path, lookup_entry e path ≫= file_of.
#[local] Arguments file_at : simpl never.

(** The rest of [q] after [p]. *)
Fixpoint path_suffix (p q : PathSegments) : option PathSegments :=
  match p, q with
  | [], _ => Some q
  | a :: p, b :: q => if String.eqb a b then path_suffix p q else None
  | _ :: _, [] => None
  end.

(** The files [g] below [p], and [F] elsewhere. *)
Definition graft (p : PathSegments) (g : Files) (F : Files) : Files :=
  λ q, match path_suffix p q with Some r => g r | None => F q end.

Definition no_files : Files := λ _, None.

Lemma path_suffix_some p q r : path_suffix p q = Some r ↔ q = p ++ r.
Proof.
  revert q. induction p as [|a p IH]; intros q; [cbn; split; [by intros [= ->]|by intros ->]|].
  destruct q as [|b q]; [done|]. cbn [path_suffix app]. destruct (String.eqb_spec a b) as [->|Hne].
  - rewrite IH. split; [by intros ->|by intros [= ->]].
  - split; [done|by intros [= ? ->]].
Qed.

Lemma path_suffix_app p r : path_suffix p (p ++ r) = Some r.
Proof. by apply path_suffix_some. Qed.

Lemma path_suffix_none p q : path_suffix p q = None ↔ ∀ r, q ≠ p ++ r.
Proof.
  split.
  - intros Hn r Hq. by rewrite (proj2 (path_suffix_some p q r) Hq) in Hn.
  - intros Hn. destruct (path_suffix p q) as [r|] eqn:Hr; [|done]. apply path_suffix_some in Hr. by destruct (Hn r).
Qed.

Lemma lookup_entry_app e p q : lookup_entry e (p ++ q) = lookup_entry e p ≫= λ e, lookup_entry e q.
Proof.
  revert e. induction p as [|s p IH]; intros e; [done|]. cbn. destruct e as [h sz|c]; [done|].
  destruct (c !! s) as [e'|]; [cbn; apply IH|done].
Qed.

Lemma file_at_app e p q : file_at e (p ++ q) = lookup_entry e p ≫= λ e, file_at e q.
Proof. unfold file_at. rewrite lookup_entry_app. by destruct (lookup_entry e p). Qed.

Lemma file_at_cons c s q : file_at (EDirectory c) (s :: q) = c !! s ≫= λ e, file_at e q.
Proof. unfold file_at. cbn. by destruct (c !! s). Qed.

(** The directory [c] at [init], or the empty one when nothing is there. *)
Definition dir_at (e : Entry) (init : PathSegments) (c : Children) : Prop :=
  lookup_entry e init = Some (EDirectory c) ∨ lookup_entry e init = None ∧ c = ∅.

Lemma dir_at_files e init c r : dir_at e init c → file_at e (init ++ r) = file_at (EDirectory c) r.
Proof.
  intros [Hl|[Hl ->]]; rewrite file_at_app, Hl; [done|]. cbn. by destruct r.
Qed.

(** The outcome of an edit [k] at a path: it ran on the children of the parent and
    the tree has what it left there, or it did not run and no file changed. *)
Definition edited {A} (path : PathSegments) (k : string → Edit A) (e e' : Entry) (r : result NamespaceError A) : Prop :=
  (∃ init leaf c c', path = init ++ [leaf] ∧ dir_at e init c ∧ k leaf c = (c', r) ∧ lookup_entry e' init = Some (EDirectory c') ∧
     ∀ q, file_at e' q = graft init (file_at (EDirectory c')) (file_at e) q) ∨
  ((∀ q, file_at e' q = file_at e q) ∧ ∃ err, r = Err err).

(** Descending through a child. *)
Lemma graft_child c s p e1 g q :
  (∀ q, file_at e1 q = graft p g (file_at (default (EDirectory ∅) (c !! s))) q) →
  file_at (EDirectory (<[s := e1]> c)) q = graft (s :: p) g (file_at (EDirectory c)) q.
Proof.
  intros He. destruct q as [|b q]; [done|]. rewrite !file_at_cons. unfold graft in *. cbn [path_suffix]. destruct (String.eqb_spec s b) as [->|Hne].
  - rewrite lookup_insert_eq. cbn. rewrite He. destruct (path_suffix p q); [done|]. rewrite file_at_cons. destruct (c !! b); [done|]. by destruct q.
  - rewrite lookup_insert_ne by done. by rewrite file_at_cons.
Qed.

Lemma graft_nil g F q : graft [] g F q = g q.
Proof. done. Qed.

Lemma walk_loop_edited {A} seen p (k : Edit A) e e' r :
  walk_loop seen p k e = (e', r) →
  (∃ c c', lookup_entry e p = Some (EDirectory c) ∧ k c = (c', r) ∧ lookup_entry e' p = Some (EDirectory c') ∧
     ∀ q, file_at e' q = graft p (file_at (EDirectory c')) (file_at e) q) ∨
  (e' = e ∧ ∃ err, r = Err err).
Proof.
  revert seen e e' r. induction p as [|s p IH]; intros seen e e' r; cbn [walk_loop].
  - destruct e as [h sz|c]; [intros [= <- <-]; right; eauto|]. destruct (k c) as [c' r0] eqn:Hk. intros [= <- <-]. left. by exists c, c'.
  - destruct e as [h sz|c]; [intros [= <- <-]; right; eauto|]. destruct (c !! s) as [entry|] eqn:Hs; [|intros [= <- <-]; right; eauto].
    destruct (walk_loop _ p k entry) as [e1 r1] eqn:Hw. intros [= <- <-]. apply IH in Hw as [(d & d' & H1 & H2 & H3 & H4)|(-> & Herr)].
    + left. exists d, d'. cbn. rewrite Hs, lookup_insert_eq. cbn. split_and!; try done. intros q. apply graft_child. by rewrite Hs.
    + right. by rewrite insert_id.
Qed.

Lemma split_walk_edited {A} path (k : string → Edit A) e e' r : split_walk path k e = (e', r) → edited path k e e' r.
Proof.
  unfold split_walk. destruct (last path) as [leaf|] eqn:Hl; [|intros [= <- <-]; right; eauto].
  apply last_Some in Hl as [init ->]. rewrite removelast_last. intros [(c & c' & H1 & H2 & H3 & H4)|(-> & Herr)]%walk_loop_edited.
  - left. exists init, leaf, c, c'. split_and!; try done. by left.
  - right. eauto.
Qed.

Lemma create_loop_edited {A} seen p (k : string → Edit A) e e' r : create_loop seen p k e = (e', r) → edited p k e e' r.
Proof.
  revert seen e e' r. induction p as [|s p IH]; intros seen e e' r; cbn [create_loop]; [intros [= <- <-]; right; eauto|].
  destruct e as [h sz|c]; [intros [= <- <-]; right; eauto|]. destruct p as [|s' p].
  - destruct (k s c) as [c' r0] eqn:Hk. intros [= <- <-]. left. exists [], s, c, c'. split_and!; try done. by left.
  - set (entry := default (EDirectory ∅) (c !! s)). destruct (create_loop _ (s' :: p) k entry) as [e1 r1] eqn:Hw. intros [= <- <-].
    apply IH in Hw as [(init & leaf & d & d' & Hp & Hd & Hk & Hl & Hf)|[Hf Herr]].
    + left. exists (s :: init), leaf, d, d'. rewrite Hp. split_and!; try done.
      * unfold dir_at in *. cbn. destruct (c !! s) as [x|]; [done|]. cbn in *. right. split; [done|].
        destruct Hd as [Hd|[_ ->]]; [|done]. destruct init as [|b init]; [by injection Hd as <-|]. cbn in Hd. by rewrite lookup_empty in Hd.
      * cbn. by rewrite lookup_insert_eq.
      * intros q. by apply graft_child.
    + right. split; [|done]. intros q. rewrite (graft_child c s [] e1 (file_at entry)); [|intros q'; by rewrite graft_nil].
      destruct q as [|b q]; [done|]. unfold graft. cbn [path_suffix]. destruct (String.eqb_spec s b) as [->|]; [|done].
      rewrite file_at_cons. unfold entry. destruct (c !! b); [done|]. by destruct q.
Qed.

Lemma create_edited {A} path (k : string → Edit A) e e' r : split_walk_or_create path k e = (e', r) → edited path k e e' r.
Proof.
  unfold split_walk_or_create. destruct path as [|s p]; [intros [= <- <-]; right; eauto|].
  destruct (Nat.ltb _ _); [intros [= <- <-]; right; eauto|]. apply create_loop_edited.
Qed.

(** An edit that succeeds sets the child [leaf] to [o]. *)
Definition sets_child {A} (k : string → Edit A) (o : Children → string → A → option Entry) : Prop :=
  ∀ leaf c c' a, k leaf c = (c', Ok a) → ∀ s, c' !! s = if String.eqb leaf s then o c leaf a else c !! s.

Lemma edited_ok {A} path (k : string → Edit A) o e e' a :
  edited path k e e' (Ok a) → sets_child k o → ∃ init leaf c, path = init ++ [leaf] ∧ dir_at e init c ∧
    lookup_entry e' path = o c leaf a ∧
    ∀ q, file_at e' q = graft path (λ r, o c leaf a ≫= λ x, file_at x r) (file_at e) q.
Proof.
  intros [(init & leaf & c & c' & -> & Hd & Hk & Hl & Hf)|[_ [err [=]]]] Hs. exists init, leaf, c. pose proof (Hs _ _ _ _ Hk) as Hc.
  split_and!; [done|done| |].
  - rewrite lookup_entry_app, Hl. cbn. rewrite Hc, String.eqb_refl. by destruct (o c leaf a).
  - intros q. rewrite Hf. unfold graft. destruct (path_suffix init q) as [r|] eqn:Hi.
    + apply path_suffix_some in Hi as ->. destruct r as [|b r].
      * rewrite app_nil_r. rewrite (proj2 (path_suffix_none (init ++ [leaf]) init)).
        -- rewrite <- (app_nil_r init) at 1. by rewrite (dir_at_files _ _ _ [] Hd).
        -- intros r Hr. apply (f_equal length) in Hr. rewrite !length_app in Hr. cbn in Hr. lia.
      * rewrite file_at_cons, Hc. destruct (String.eqb_spec leaf b) as [->|Hne].
        -- rewrite (proj2 (path_suffix_some (init ++ [b]) (init ++ b :: r) r)); [done|]. by rewrite <- app_assoc.
        -- rewrite (proj2 (path_suffix_none (init ++ [leaf]) (init ++ b :: r))).
           ++ by rewrite (dir_at_files _ _ _ _ Hd), file_at_cons.
           ++ intros r' Hr. rewrite <- app_assoc in Hr. apply app_inv_head in Hr. by injection Hr.
    + rewrite (proj2 (path_suffix_none (init ++ [leaf]) q)); [done|]. intros r ->. rewrite <- app_assoc, path_suffix_app in Hi. done.
Qed.

(** An edit that fails leaves the children alone. *)
Definition fails_clean {A} (k : string → Edit A) : Prop := ∀ leaf c c' err, k leaf c = (c', Err err) → c' = c.

Lemma edited_err {A} path (k : string → Edit A) e e' err :
  edited path k e e' (Err err) → fails_clean k → ∀ q, file_at e' q = file_at e q.
Proof.
  intros [(init & leaf & c & c' & -> & Hd & Hk & Hl & Hf)|[Hf _]] Hs q; [|done]. apply Hs in Hk as ->. rewrite Hf. unfold graft.
  destruct (path_suffix init q) as [r|] eqn:Hi; [|done]. apply path_suffix_some in Hi as ->. by rewrite (dir_at_files _ _ _ _ Hd).
Qed.

(** *** The edits of the operations *)

Lemma add_child_sets entry : sets_child (add_child entry) (λ _ _ _, Some entry).
Proof.
  intros leaf c c' a. unfold add_child. destruct (guard_children c); [|done]. intros [= <- <-] s.
  destruct (String.eqb_spec leaf s) as [->|]; [by rewrite lookup_insert_eq|by rewrite lookup_insert_ne].
Qed.

Lemma add_child_clean entry : fails_clean (add_child entry).
Proof. intros leaf c c' err. unfold add_child. by destruct (guard_children c); intros [= <-]. Qed.

Definition taken (c : Children) (leaf : string) (e : Entry) : option Entry := None.

Lemma take_sets missing : sets_child (λ leaf_name children, match children !! leaf_name with
    | Some entry => (delete leaf_name children, Ok entry) | None => (children, Err (missing leaf_name : NamespaceError)) end) taken.
Proof.
  intros leaf c c' a. destruct (c !! leaf) as [x|]; [|done]. intros [= <- <-] s.
  destruct (String.eqb_spec leaf s) as [->|]; [by rewrite lookup_delete_eq|by rewrite lookup_delete_ne].
Qed.

Definition removes : string → Edit unit := λ leaf_name children, (delete leaf_name children, Ok ()).
Lemma removes_sets : sets_child removes (λ _ _ _, None).
Proof.
  intros leaf c c' a [= <- <-] s. destruct (String.eqb_spec leaf s) as [->|]; [by rewrite lookup_delete_eq|by rewrite lookup_delete_ne].
Qed.

Definition places (entry : Entry) : string → Edit unit := λ leaf_name children, (<[leaf_name := entry]> children, Ok ()).
Lemma places_sets entry : sets_child (places entry) (λ _ _ _, Some entry).
Proof.
  intros leaf c c' a [= <- <-] s. destruct (String.eqb_spec leaf s) as [->|]; [by rewrite lookup_insert_eq|by rewrite lookup_insert_ne].
Qed.

Lemma take_entry_ok missing path e e' entry :
  take_entry missing path e = (e', Ok entry) →
  lookup_entry e path = Some entry ∧ lookup_entry e' path = None ∧ ∀ q, file_at e' q = graft path no_files (file_at e) q.
Proof.
  intros Ht. pose proof (split_walk_edited _ _ _ _ _ Ht) as He.
  destruct (edited_ok _ _ _ _ _ _ He (take_sets missing)) as (init & leaf & c & -> & Hd & Hl & Hf). split_and!; [|done|done].
  destruct He as [(init' & leaf' & c1 & c' & Hp & Hd' & Hk & _ & _)|[_ [err [=]]]]. apply app_inj_tail in Hp as [<- <-].
  destruct (c1 !! leaf) as [x|] eqn:Hx; [|done]. injection Hk as <- <-. rewrite lookup_entry_app.
  destruct Hd' as [->|[-> ->]]; [cbn; by rewrite Hx|by rewrite lookup_empty in Hx].
Qed.

Lemma missing_files e path q : lookup_entry e path = None → file_at e q = graft path no_files (file_at e) q.
Proof.
  intros Hl. unfold graft. destruct (path_suffix path q) as [r|] eqn:Hr; [|done]. apply path_suffix_some in Hr as ->.
  by rewrite file_at_app, Hl.
Qed.

Lemma clear_destination_ok to overwrite e e' u :
  clear_destination to overwrite e = (e', Ok u) → lookup_entry e' to = None ∧ ∀ q, file_at e' q = graft to no_files (file_at e) q.
Proof.
  unfold clear_destination, path_exists. destruct (lookup_entry e to) as [x|] eqn:Hx.
  - destruct overwrite; [|done]. cbn [negb]. intros Hs. pose proof (split_walk_edited _ _ _ _ _ Hs) as He.
    destruct (edited_ok _ _ _ _ _ _ He removes_sets) as (init & leaf & c & _ & _ & Hl & Hf). done.
  - intros [= <- _]. split; [done|]. intros q. by apply missing_files.
Qed.

Lemma insert_at_edited path entry e e' r : insert_at path entry e = (e', r) → edited path (places entry) e e' r ∧
  (is_ok r = true → ∃ init leaf c, path = init ++ [leaf] ∧ lookup_entry e init = Some (EDirectory c)).
Proof.
  assert (∀ seen p e e' r, p ≠ [] → insert_at_loop seen p entry e = (e', r) → edited p (places entry) e e' r ∧
    (is_ok r = true → ∃ init leaf c, p = init ++ [leaf] ∧ lookup_entry e init = Some (EDirectory c))) as Hloop.
  { clear. intros seen p. revert seen. induction p as [|s p IH]; intros seen e e' r Hne; [done|]. cbn [insert_at_loop].
    destruct e as [h sz|c]; [intros [= <- <-]; split; [right; eauto|done]|]. destruct p as [|s' p].
    - intros [= <- <-]. split; [|intros _; by exists [], s, c]. left. exists [], s, c, (<[s := entry]> c). split_and!; try done. by left.
    - destruct (c !! s) as [child|] eqn:Hs; [|intros [= <- <-]; split; [right; eauto|done]].
      destruct (insert_at_loop _ (s' :: p) entry child) as [e1 r1] eqn:Hw. intros [= <- <-]. apply IH in Hw as [Hed Hok]; [|done]. split.
      + destruct Hed as [(init & leaf & d & d' & Hp & Hd & Hk & Hl & Hf)|[Hf Herr]].
        * left. exists (s :: init), leaf, d, d'. rewrite Hp. split_and!; try done.
          -- unfold dir_at in *. cbn. by rewrite Hs.
          -- cbn. by rewrite lookup_insert_eq.
          -- intros q. apply graft_child. by rewrite Hs.
        * right. split; [|done]. intros q. rewrite (graft_child c s [] e1 (file_at child)); [|intros q'; by rewrite graft_nil].
          destruct q as [|b q]; [done|]. unfold graft. cbn [path_suffix]. destruct (String.eqb_spec s b) as [->|]; [|done].
          by rewrite file_at_cons, Hs.
      + intros Hr. destruct (Hok Hr) as (init & leaf & d & Hp & Hl). exists (s :: init), leaf, d. rewrite Hp. split; [done|]. cbn. by rewrite Hs. }
  unfold insert_at. destruct path as [|s p]; [intros [= <- <-]; split; [right; eauto|done]|]. by apply Hloop.
Qed.

(** ** The operations on a map of files *)

Inductive NasOp : Type :=
| OpPut (path : PathSegments) (hash : ContentHash) (size : N)
| OpDelete (path : PathSegments)
| OpMkcol (path : PathSegments)
| OpRename (from to : PathSegments) (overwrite : bool)
| OpCopy (from to : PathSegments) (overwrite : bool)
| OpSoftDelete (path : PathSegments) (nonce : string)
| OpRestore (original_path : string)
| OpRestoreVersion (path : PathSegments) (snap_id : string)
| OpForceSetRoot (m : Manifest).

Definition one_file (h : ContentHash) (s : N) : Files := λ r, match r with [] => Some (h, s) | _ => None end.

Definition discard {A} (x : Nas * result NamespaceError A) : Nas * result NamespaceError unit :=
  (x.1, match x.2 with Ok _ => Ok () | Err e => Err e end).

Definition nas_files (n : Nas) : Files := file_at (mf_root (nas_manifest n)).

Section Apply.
Context `{ReadDir} `{Blake3} (debug_str : string → string) (missing : NamespaceError).

(** What an operation does to a map of files; [n] is the state in which it reads what it
    copies or restores. *)
Definition files_op (op : NasOp) (n : Nas) (F : Files) : Files :=
  match op with
  | OpPut path h s => graft path (one_file h s) F
  | OpDelete path | OpSoftDelete path _ => graft path no_files F
  | OpMkcol _ => F
  | OpRename from to _ => graft to (λ r, F (from ++ r)) (graft from no_files F)
  | OpCopy from to _ => graft to (λ r, nas_files n (from ++ r)) F
  | OpRestore p =>
      match list_find (λ t, te_original_path t = p) (list_trash n), decode_http debug_str ("/" +:+ p) with
      | Some (_, t), Ok path => graft path (file_at (te_entry t)) F
      | _, _ => F
      end
  | OpRestoreVersion path snap_id =>
      match nas_versions n !! (version_dir path, snap_id) with Some meta => graft path (file_at (vm_entry meta)) F | None => F end
  | OpForceSetRoot m => file_at (mf_root m)
  end.

Definition nas_apply (pre post : Nas → Nas) (io : DiskIo) (now : Z) (audit : AuditContext) (quota : N → result NamespaceError unit) (op : NasOp) (n : Nas) :
  Nas * result NamespaceError unit :=
  match op with
  | OpPut path h s => nas_put pre post io now audit quota path h s n
  | OpDelete path => discard (nas_delete pre post io now audit path n)
  | OpMkcol path => nas_mkcol pre post io now audit path n
  | OpRename from to ow => nas_rename pre post io now audit from to ow n
  | OpCopy from to ow => nas_copy pre post io now audit from to ow n
  | OpSoftDelete path nonce => discard (soft_delete pre post io now audit nonce path n)
  | OpRestore p => discard (nas_restore debug_str pre post io now audit p n)
  | OpRestoreVersion path snap_id => discard (restore_version pre post io now audit missing path snap_id n)
  | OpForceSetRoot m => force_set_root pre post io m n
  end.
End Apply.

(** *** The trees *)

Lemma one_file_at h s r : file_at (EFile h s) r = one_file h s r.
Proof. by destruct r. Qed.

Lemma graft_ext p g g' F q : (∀ r, g r = g' r) → graft p g F q = graft p g' F q.
Proof. intros Hg. unfold graft. by destruct (path_suffix p q). Qed.

Lemma put_tree_ok path h s e e' : put_tree path h s e = (e', Ok ()) → ∀ q, file_at e' q = graft path (one_file h s) (file_at e) q.
Proof.
  intros Hp. destruct (edited_ok _ _ _ _ _ _ (create_edited _ _ _ _ _ Hp) (add_child_sets _)) as (init & leaf & c & _ & _ & _ & Hf).
  intros q. rewrite Hf. apply graft_ext. intros r. apply one_file_at.
Qed.

Lemma delete_tree_ok path e e' h : delete_tree path e = (e', Ok h) →
  (∃ s, lookup_entry e path = Some (EFile h s)) ∧ ∀ q, file_at e' q = graft path no_files (file_at e) q.
Proof.
  intros Hp. pose proof (split_walk_edited _ _ _ _ _ Hp) as He.
  destruct (edited_ok _ _ (λ _ _ _, None) _ _ _ He) as (init & leaf & c & -> & Hd & _ & Hf).
  { clear. intros leaf c c' a. destruct (c !! leaf) as [[h s|d]|]; try done. intros [= <- <-] x.
    destruct (String.eqb_spec leaf x) as [->|]; [by rewrite lookup_delete_eq|by rewrite lookup_delete_ne]. }
  split; [|done]. destruct He as [(init' & leaf' & c1 & c' & Hpp & Hd' & Hk & _ & _)|[_ [err [=]]]]. apply app_inj_tail in Hpp as [<- <-].
  destruct (c1 !! leaf) as [[h' s|d]|] eqn:Hx; try done. injection Hk as <- <-. exists s. rewrite lookup_entry_app.
  destruct Hd' as [->|[-> ->]]; [cbn; by rewrite Hx|by rewrite lookup_empty in Hx].
Qed.

Lemma mkcol_tree_ok path e e' : mkcol_tree path e = (e', Ok ()) →
  lookup_entry e path = None ∧ lookup_entry e' path = Some (EDirectory ∅) ∧ ∀ q, file_at e' q = file_at e q.
Proof.
  intros Hp. pose proof (split_walk_edited _ _ _ _ _ Hp) as He.
  destruct (edited_ok _ _ (λ _ _ _, Some (EDirectory ∅)) _ _ _ He) as (init & leaf & c & -> & Hd & Hl & Hf).
  { clear. intros leaf c c' a. destruct (c !! leaf) as [x|]; [done|]. apply add_child_sets. }
  assert (lookup_entry e (init ++ [leaf]) = None) as Hn.
  { destruct He as [(init' & leaf' & c1 & c' & Hpp & Hd' & Hk & _ & _)|[_ [err [=]]]]. apply app_inj_tail in Hpp as [<- <-].
    destruct (c1 !! leaf) as [x|] eqn:Hx; [done|]. rewrite lookup_entry_app. destruct Hd' as [->|[-> ->]]; [cbn; by rewrite Hx|done]. }
  split_and!; [done|done|]. intros q. rewrite Hf. rewrite (missing_files e (init ++ [leaf]) q Hn). apply graft_ext. intros r. cbn. by destruct r.
Qed.

Lemma copy_tree_ok entry to overwrite e e' : copy_tree entry to overwrite e = (e', Ok ()) → ∀ q, file_at e' q = graft to (file_at entry) (file_at e) q.
Proof.
  unfold copy_tree, tree_bind. destruct (clear_destination to overwrite e) as [e1 [u|err]] eqn:Hc; [|done].
  apply clear_destination_ok in Hc as [_ Hc]. intros Hp.
  destruct (edited_ok _ _ _ _ _ _ (create_edited _ _ _ _ _ Hp) (add_child_sets _)) as (init & leaf & c & _ & _ & _ & Hf).
  intros q. rewrite Hf. unfold graft. destruct (path_suffix to q) eqn:Hq; [done|]. rewrite Hc. unfold graft. by rewrite Hq.
Qed.

(** On success neither end of a rename lies below the other. *)
Lemma rename_tree_ok from to overwrite e e' : rename_tree from to overwrite e = (e', Ok ()) →
  ∀ q, file_at e' q = graft to (λ r, file_at e (from ++ r)) (graft from no_files (file_at e)) q.
Proof.
  unfold rename_tree, tree_bind. destruct (clear_destination to overwrite e) as [e1 [u|err]] eqn:Hc; [|done].
  apply clear_destination_ok in Hc as [Hto Hc]. destruct (take_entry _ from e1) as [e2 [entry|err]] eqn:Ht; [|done].
  apply take_entry_ok in Ht as (Hfrom & Hfrom2 & Ht). intros Hi. apply insert_at_edited in Hi as [Hed Hdir].
  destruct (Hdir eq_refl) as (init & leaf & d & -> & Hinit).
  destruct (edited_ok _ _ _ _ _ _ Hed (places_sets entry)) as (? & ? & ? & _ & _ & _ & Hf).
  assert (∀ r, path_suffix (init ++ [leaf]) (from ++ r) = None) as Hno.
  { intros r. apply path_suffix_none. intros r' Heq. apply app_eq_inv in Heq as [(k & Hk & _)|(k & Hk & _)].
    - rewrite Hk, lookup_entry_app, Hto in Hfrom. done.
    - destruct k as [|b k] using rev_ind.
      + rewrite app_nil_r in Hk. rewrite Hk in Hto. by rewrite Hto in Hfrom.
      + rewrite app_assoc in Hk. apply app_inj_tail in Hk as [-> _]. rewrite lookup_entry_app, Hfrom2 in Hinit. done. }
  intros q. rewrite Hf. unfold graft. destruct (path_suffix (init ++ [leaf]) q) as [r|] eqn:Hq.
  - cbn. assert (file_at entry r = file_at e1 (from ++ r)) as -> by (by rewrite file_at_app, Hfrom). rewrite Hc. unfold graft. by rewrite Hno.
  - rewrite Ht. unfold graft. destruct (path_suffix from q); [done|]. rewrite Hc. unfold graft. by rewrite Hq.
Qed.

(** *** The namespace *)

(** After a mutation that left [n1] and its commit, which ended in [n']: the file has the
    manifest of the mutation, one generation after that of [n0], the memory is what other
    tasks made of it, and the log has one more line with the number of the generation. *)
Definition committed (post : Nas → Nas) (n0 n1 n' : Nas) : Prop :=
  nas_disk n' = Some (nas_manifest n1) ∧ nas_manifest n' = nas_manifest (post n1) ∧
  mf_generation (nas_manifest n1) = (mf_generation (nas_manifest n0) + 1) mod 2 ^ 64 ∧
  ∃ record, nas_audit n' = nas_audit (post n1) ++ [record] ∧ ar_seq record = mf_generation (nas_manifest n1).

Lemma ns_commit_cases {A} io next now op path audit (a : A) n n' r :
  ns_commit io next now op path audit a n = (n', r) → nas_manifest n' = nas_manifest n ∧ nas_trash n' = nas_trash n ∧
  match r with
  | Ok a' => a' = a ∧ nas_disk n' = Some next ∧ ∃ record, nas_audit n' = nas_audit n ++ [record] ∧ ar_seq record = mf_generation next
  | Err _ => nas_disk n' = nas_disk n
  end.
Proof.
  unfold ns_commit, write_audit, persist_manifest. destruct (io_audit io) as [[e []]|]; [by intros [= <- <-]|by intros [= <- <-]|].
  destruct (io_persist io) as [e|]; intros [= <- <-]; split_and!; try done. by eexists.
Qed.

Lemma mutate_with_cases {A} (f : Tree A) n n1 r :
  mutate_with f n = (n1, r) → ∃ root r0, f (mf_root (nas_manifest n)) = (root, r0) ∧ mf_root (nas_manifest n1) = root ∧
  nas_disk n1 = nas_disk n ∧ nas_audit n1 = nas_audit n ∧ nas_trash n1 = nas_trash n ∧
  match r0 with
  | Ok a => mf_generation (nas_manifest n1) = (mf_generation (nas_manifest n) + 1) mod 2 ^ 64 ∧ r = Ok (nas_manifest n1, a)
  | Err e => r = Err e
  end.
Proof.
  unfold mutate_with. destruct (f (mf_root (nas_manifest n))) as [root [a|e]]; intros [= <- <-]; eexists _, _; (split; [reflexivity|]); by split_and!.
Qed.

Lemma mutate_commit_ok {A} pre post io now op path audit (f : Tree A) n n' a :
  mutate_commit pre post io now op path audit f n = (n', Ok a) →
  ∃ n1, committed post (pre n) n1 n' ∧ f (mf_root (nas_manifest (pre n))) = (mf_root (nas_manifest n1), Ok a).
Proof.
  unfold mutate_commit. destruct (mutate_with f (pre n)) as [n1 r] eqn:Hm. apply mutate_with_cases in Hm as (root & r0 & Hf & <- & Hd & Ha & _ & Hr).
  destruct r0 as [a0|e]; [destruct Hr as [Hg ->]|by rewrite Hr]. intros (Hman & _ & -> & Hdisk & record & Hrec & Hseq)%ns_commit_cases.
  exists n1. split; [|done]. split_and!; [done|done|done|]. by exists record.
Qed.

Lemma mutate_commit_err {A} io now op path audit (f : Tree A) n n' e :
  mutate_commit id id io now op path audit f n = (n', Err e) →
  nas_disk n' = nas_disk n ∧ ∃ r, f (mf_root (nas_manifest n)) = (mf_root (nas_manifest n'), r).
Proof.
  unfold mutate_commit, id. destruct (mutate_with f n) as [n1 r] eqn:Hm. apply mutate_with_cases in Hm as (root & r0 & Hf & <- & Hd & Ha & _ & Hr).
  destruct r0 as [a0|e0]; [destruct Hr as [Hg ->]|rewrite Hr; intros [= <- <-]; eauto]. intros (Hman & _ & Hdisk)%ns_commit_cases.
  rewrite Hdisk, Hman. eauto.
Qed.

Lemma soft_delete_ok pre post io now audit nonce path n n' entry :
  soft_delete pre post io now audit nonce path n = (n', Ok entry) →
  ∃ n1, take_entry NotFound path (mf_root (nas_manifest (pre n))) = (mf_root (nas_manifest n1), Ok entry) ∧ committed post (pre n) n1 n' ∧
    nas_trash n1 = nas_trash (pre n) ∧
    nas_trash n' = <[trash_file_name now nonce path := mkTrashEntry (path_display path) entry now (ac_capability_id audit) (ac_note audit)]> (nas_trash (post n1)).
Proof.
  unfold soft_delete. destruct (mutate_with _ (pre n)) as [n1 r1] eqn:Hm. apply mutate_with_cases in Hm as (root & r0 & Hf & <- & Hd & Ha & Htr & Hr).
  intros Hs. destruct r0 as [entry'|e]; [destruct Hr as [Hg ->]|by rewrite Hr in Hs].
  destruct (io_side io) as [e|]; [done|].
  apply ns_commit_cases in Hs as (Hman & Htrash & -> & Hdisk & record & Hrec & Hseq). cbn in Hman, Htrash, Hrec. exists n1.
  split_and!; [done| |done|done]. split_and!; [done|done|done|]. by exists record.
Qed.

Lemma soft_delete_err io now audit nonce path n n' e :
  soft_delete id id io now audit nonce path n = (n', Err e) →
  nas_disk n' = nas_disk n ∧ ∃ r, take_entry NotFound path (mf_root (nas_manifest n)) = (mf_root (nas_manifest n'), r).
Proof.
  unfold soft_delete, id. destruct (mutate_with _ n) as [n1 r1] eqn:Hm. apply mutate_with_cases in Hm as (root & r0 & Hf & <- & Hd & Ha & Htr & Hr).
  intros Hs. destruct r0 as [entry|e0]; [destruct Hr as [Hg ->]|rewrite Hr in Hs; injection Hs as <- <-; eauto].
  destruct (io_side io) as [e0|]; [injection Hs as <- <-; eauto|].
  apply ns_commit_cases in Hs as (Hman & _ & Hdisk). cbn in Hman, Hdisk. rewrite Hman, Hdisk. eauto.
Qed.

(** The version file replaces what is at the path. *)
Definition replaces (entry : Entry) : string → Edit unit := λ leaf_name children, (<[leaf_name := entry]> (delete leaf_name children), Ok ()).
Lemma replaces_sets entry : sets_child (replaces entry) (λ _ _ _, Some entry).
Proof.
  intros leaf c c' a [= <- <-] s. rewrite insert_delete_eq. destruct (String.eqb_spec leaf s) as [->|]; [by rewrite lookup_insert_eq|by rewrite lookup_insert_ne].
Qed.

Lemma restore_tree_ok path entry e e' : restore_tree path entry e = (e', Ok ()) → ∀ q, file_at e' q = graft path (file_at entry) (file_at e) q.
Proof.
  intros Hr q. destruct (edited_ok _ _ _ _ _ _ (create_edited _ _ _ _ _ Hr) (places_sets entry)) as (? & ? & ? & _ & _ & _ & Hf). by rewrite Hf.
Qed.
Lemma restore_version_tree_ok path entry e e' : restore_version_tree path entry e = (e', Ok ()) → ∀ q, file_at e' q = graft path (file_at entry) (file_at e) q.
Proof.
  intros Hr q. destruct (edited_ok _ _ _ _ _ _ (split_walk_edited _ _ _ _ _ Hr) (replaces_sets entry)) as (? & ? & ? & _ & _ & _ & Hf). by rewrite Hf.
Qed.

Section Refinement.
Context `{RD : ReadDir} `{B3 : Blake3} (debug_str : string → string) (missing : NamespaceError).

Lemma nas_restore_ok pre post io now audit p n n' entry :
  nas_restore debug_str pre post io now audit p n = (n', Ok entry) →
  ∃ i t path n1, list_find (λ t, te_original_path t = p) (list_trash n) = Some (i, t) ∧ decode_http debug_str ("/" +:+ p) = Ok path ∧
    restore_tree path (te_entry t) (mf_root (nas_manifest (pre n))) = (mf_root (nas_manifest n1), Ok ()) ∧ committed post (pre n) n1 n'.
Proof.
  unfold nas_restore. destruct (list_find _ _) as [[i t]|]; [|done]. destruct (decode_http _ _) as [path|]; [|done].
  destruct (mutate_with _ (pre n)) as [n1 r1] eqn:Hm. apply mutate_with_cases in Hm as (root & r0 & Hf & <- & Hd & Ha & Htr & Hr).
  destruct r0 as [[]|e]; [destruct Hr as [Hg ->]|by rewrite Hr]. intros (Hman & _ & -> & Hdisk & record & Hrec & Hseq)%ns_commit_cases.
  exists i, t, path, n1. split_and!; [done..|]. split_and!; [done|done|done|]. by exists record.
Qed.

Lemma restore_version_ok pre post io now audit path snap_id n n' entry :
  restore_version pre post io now audit missing path snap_id n = (n', Ok entry) →
  ∃ meta n1, nas_versions n !! (version_dir path, snap_id) = Some meta ∧
    restore_version_tree path (vm_entry meta) (mf_root (nas_manifest (pre n))) = (mf_root (nas_manifest n1), Ok ()) ∧ committed post (pre n) n1 n'.
Proof.
  unfold restore_version, get_version. destruct (nas_versions n !! _) as [meta|]; [|done].
  destruct (mutate_with _ (pre n)) as [n1 r1] eqn:Hm. apply mutate_with_cases in Hm as (root & r0 & Hf & <- & Hd & Ha & Htr & Hr).
  destruct r0 as [[]|e]; [destruct Hr as [Hg ->]|by rewrite Hr]. intros (Hman & _ & -> & Hdisk & record & Hrec & Hseq)%ns_commit_cases.
  exists meta, n1. split_and!; [done|done|]. split_and!; [done|done|done|]. by exists record.
Qed.


(** Failures of operations that run one at a time: an operation that reports an error leaves
    [manifest.json] as it was; for the operations without a destination, the files in memory
    are those before the operation, or, when only a write failed, those after it. *)
Theorem nas_failures io now audit quota op n n' e :
  nas_apply debug_str missing id id io now audit quota op n = (n', Err e) →
  nas_disk n' = nas_disk n ∧
  match op with
  | OpRename _ _ _ | OpCopy _ _ _ | OpRestore _ | OpRestoreVersion _ _ => True
  | _ => (∀ q, nas_files n' q = nas_files n q) ∨ (∀ q, nas_files n' q = files_op debug_str op n (nas_files n) q)
  end.
Proof.
  unfold nas_files. destruct op as [path h s|path|path|from to ow|from to ow|path nonce|p|path snap_id|m]; cbn [nas_apply files_op].
  - unfold nas_put. destruct (quota s); [|intros [= <- <-]; by split; [|left]]. intros [Hd [r Hf]]%mutate_commit_err. split; [done|].
    destruct r as [[]|err]; [right; by apply put_tree_ok|left]. eapply edited_err; [by eapply create_edited|apply add_child_clean].
  - unfold discard, nas_delete. destruct (mutate_commit _ _ _ _ _ _ _ _ n) as [n1 [a|e1]] eqn:Hm; [done|]. intros [= <- <-].
    apply mutate_commit_err in Hm as [Hd [r Hf]]. split; [done|]. destruct r as [h|err]; [right; by eapply delete_tree_ok|left].
    eapply edited_err; [by eapply split_walk_edited|]. intros leaf c c' err'. by destruct (c !! leaf) as [[]|]; intros [= <-].
  - intros [Hd [r Hf]]%mutate_commit_err. split; [done|]. destruct r as [[]|err]; [right; by eapply mkcol_tree_ok|left].
    eapply edited_err; [by eapply split_walk_edited|]. intros leaf c c' err'. destruct (c !! leaf); [by intros [= <-]|apply add_child_clean].
  - intros [Hd _]%mutate_commit_err. done.
  - unfold nas_copy. destruct (nas_lookup n from); [|by intros [= <- <-]]. by intros [Hd _]%mutate_commit_err.
  - unfold discard. destruct (soft_delete _ _ _ _ _ _ _ n) as [n1 [a|e1]] eqn:Hm; [done|]. intros [= <- <-].
    apply soft_delete_err in Hm as [Hd [r0 Hf]]. split; [done|]. destruct r0 as [entry|err]; [right; by eapply take_entry_ok|left].
    eapply edited_err; [by eapply split_walk_edited|]. intros leaf c c' err'. by destruct (c !! leaf); intros [= <-].
  - unfold discard, nas_restore. destruct (list_find _ _) as [[i t]|]; [|by intros [= <- <-]]. destruct (decode_http _ _) as [path|]; [|by intros [= <- <-]].
    destruct (mutate_with _ _) as [n1 r1] eqn:Hm. apply mutate_with_cases in Hm as (root & r0 & Hf & <- & Hd & _).
    destruct r1 as [[next []]|]; [|by intros [= <- <-]]. destruct (ns_commit _ _ _ _ _ _ _ _) as [n2 [a|e2]] eqn:Hcm; [done|]. intros [= <- <-].
    apply ns_commit_cases in Hcm as (_ & _ & Hdisk). split; [|done]. by rewrite Hdisk.
  - unfold discard, restore_version, get_version. destruct (nas_versions n !! _) as [meta|]; [|by intros [= <- <-]].
    destruct (mutate_with _ _) as [n1 r1] eqn:Hm. apply mutate_with_cases in Hm as (root & r0 & Hf & <- & Hd & _).
    destruct r1 as [[next []]|]; [|by intros [= <- <-]]. destruct (ns_commit _ _ _ _ _ _ _ _) as [n2 [a|e2]] eqn:Hcm; [done|]. intros [= <- <-].
    apply ns_commit_cases in Hcm as (_ & _ & Hdisk). split; [|done]. by rewrite Hdisk.
  - unfold force_set_root, persist_manifest. destruct (io_persist io); [|done]. intros [= <- <-]. split; [done|by right].
Qed.
End Refinement.

(** *** The trash *)

Lemma create_loop_existing {A} seen init leaf (k : string → Edit A) e c :
  lookup_entry e init = Some (EDirectory c) → (create_loop seen (init ++ [leaf]) k e).2 = (k leaf c).2.
Proof.
  revert seen e. induction init as [|s init IH]; intros seen e; cbn [lookup_entry app].
  - intros [= ->]. cbn. by destruct (k leaf c).
  - destruct e as [h sz|d]; [done|]. intros Hl. cbn [create_loop]. destruct (init ++ [leaf]) as [|x p] eqn:Hp; [by destruct init|]. rewrite <- Hp in *.
    destruct (d !! s) as [child|]; [|done]. cbn in Hl |- *. pose proof (IH (seen ++ [s]) child Hl) as Hs.
    by destruct (create_loop (seen ++ [s]) (init ++ [leaf]) k child).
Qed.

Section Trash.
Context `{RD : ReadDir} {RDL : ReadDirLaws RD} `{Blake3} (debug_str : string → string).

(** The newest entry of a path is the one [restore] finds. *)
Lemma newest_found (t : gmap string TrashEntry) name new :
  (∀ x old, t !! x = Some old → te_original_path old = te_original_path new → (te_deleted_at_ms old < te_deleted_at_ms new)%Z) →
  ∃ i, list_find (λ x, te_original_path x = te_original_path new) (sort_by newer (snd <$> read_dir (<[name := new]> t))) = Some (i, new).
Proof.
  intros Hold. set (l := sort_by newer _).
  assert (∀ x, x ∈ l ↔ ∃ k, <[name := new]> t !! k = Some x) as Hin.
  { intros x. unfold l. rewrite sort_by_perm, list_elem_of_fmap. split.
    - intros ([k y] & -> & Hy). rewrite read_dir_perm, elem_of_map_to_list in Hy. by exists k.
    - intros [k Hk]. exists (k, x). split; [done|]. by rewrite read_dir_perm, elem_of_map_to_list. }
  assert (StronglySorted (λ a b, newer a b = true) l) as Hsorted.
  { apply sort_by_sorted; unfold newer; intros; lia. }
  assert (new ∈ l) as Hnew by (apply Hin; exists name; by rewrite lookup_insert_eq).
  destruct (list_find (λ x, te_original_path x = te_original_path new) l) as [[i x]|] eqn:Hf.
  - exists i. apply list_find_Some in Hf as (Hx & Hp & Hfirst). apply list_elem_of_lookup in Hnew as [j Hj].
    assert (i ≤ j)%nat as Hij.
    { destruct (decide (j < i)%nat) as [Hlt|]; [|lia]. by destruct (Hfirst j new Hj Hlt). }
    destruct (decide (i = j)) as [<-|Hne]; [congruence|].
    assert (x ∈ l) as [k Hk]%Hin by (by eapply list_elem_of_lookup_2). apply lookup_insert_Some in Hk as [[_ <-]|[_ Hk]]; [done|].
    pose proof (Hold k x Hk Hp).
    assert (newer x new = true) as Hn.
    { apply (take_drop_sorted (λ a b, newer a b = true) l (S i)); [exact Hsorted| |].
      - apply (list_elem_of_lookup_2 _ i). rewrite lookup_take_lt by lia. done.
      - apply (list_elem_of_lookup_2 _ (j - S i)). rewrite lookup_drop. by replace (S i + (j - S i))%nat with j by lia. }
    unfold newer in Hn. lia.
  - apply list_find_None in Hf. rewrite Forall_forall in Hf. by destruct (Hf new Hnew).
Qed.
(** Trash round trip: a file or directory that was moved to the trash comes back with
    [restore] and the files are those before, when its path decodes, no later entry
    of the trash has the same path, and the writes succeed. *)
Theorem trash_roundtrip now later audit audit' nonce path n n1 entry :
  soft_delete id id io_ok now audit nonce path n = (n1, Ok entry) →
  decode_http debug_str ("/" +:+ path_display path) = Ok path →
  (∀ x old, nas_trash n !! x = Some old → te_original_path old = path_display path → (te_deleted_at_ms old < now)%Z) →
  ∃ n2, nas_restore debug_str id id io_ok later audit' (path_display path) n1 = (n2, Ok entry) ∧
    (∀ q, nas_files n2 q = nas_files n q) ∧ nas_disk n2 = Some (nas_manifest n2).
Proof.
  intros Hs Hdec Hold. apply soft_delete_ok in Hs as (n0 & Ht & (_ & Hman1 & _) & Htr & Htrash). unfold id in *. rewrite <-Hman1 in Ht. clear Hman1. rewrite Htr in Htrash.
  pose proof (take_entry_ok _ _ _ _ _ Ht) as (Hl & Hl1 & Hf). unfold nas_restore, list_trash, id. rewrite Htrash.
  destruct (newest_found (nas_trash n) (trash_file_name now nonce path) (mkTrashEntry (path_display path) entry now (ac_capability_id audit) (ac_note audit)) Hold) as [i Hi].
  cbn [te_original_path] in Hi. rewrite Hi. cbn [te_entry]. rewrite Hdec.
  destruct (mutate_with _ n1) as [n2 r] eqn:Hm. apply mutate_with_cases in Hm as (root & r0 & Hr & Hroot & Hd & Ha & _ & Hres).
  assert (∃ init leaf c, path = init ++ [leaf] ∧ lookup_entry (mf_root (nas_manifest n1)) init = Some (EDirectory c)) as (init & leaf & c & Hp & Hc).
  { apply split_walk_edited in Ht as [(init & leaf & c & c' & Hp & _ & _ & Hc & _)|[_ [err [=]]]]. by exists init, leaf, c'. }
  assert ((restore_tree path entry (mf_root (nas_manifest n1))).2 = Ok ()) as Hok.
  { unfold restore_tree, split_walk_or_create. destruct path as [|s p]; [by destruct init|].
    pose proof (decode_http_depth _ _ _ Hdec) as Hlen. destruct (Nat.ltb_spec MAX_DEPTH (length (s :: p))); [lia|].
    rewrite Hp. by rewrite (create_loop_existing _ _ _ _ _ c Hc). }
  rewrite Hr in Hok. cbn in Hok. subst r0. destruct Hres as [Hg ->].
  destruct (ns_commit _ _ _ _ _ _ _ n2) as [n3 r3] eqn:Hcm. pose proof (ns_commit_cases _ _ _ _ _ _ _ _ _ _ Hcm) as (Hman & _ & Hcase).
  assert (r3 = Ok entry) as -> by (unfold ns_commit, write_audit, persist_manifest in Hcm; cbn in Hcm; by injection Hcm).
  destruct Hcase as (_ & Hdisk & _). exists n3. split_and!; [done| |by rewrite Hman].
  intros q. unfold nas_files. rewrite Hman, Hroot, (restore_tree_ok _ _ _ _ Hr). unfold graft. destruct (path_suffix path q) as [r|] eqn:Hq.
  - apply path_suffix_some in Hq as ->. by rewrite file_at_app, Hl.
  - rewrite Hf. unfold graft. by rewrite Hq.
Qed.
End Trash.

(** ** Corners *)

#[local] Instance ex_read_dir : ReadDir := {| read_dir := map_to_list |}.
#[local] Instance ex_read_dir_laws : ReadDirLaws ex_read_dir.
Proof. by split. Qed.

Definition ex_hash (s : string) : ContentHash := mkContentHash s.
Definition ex_quota (_ : N) : result NamespaceError unit := Ok ().
Definition ex_missing : NamespaceError := NsIo "No such file".
Definition ex_apply (op : NasOp) (n : Nas) : Nas := (nas_apply (λ s, s) ex_missing id id io_ok 1 AuditContext_default ex_quota op n).1.
Definition ex_run (ops : list NasOp) : Nas := foldl (λ n op, ex_apply op n) Nas_empty ops.

(** [/a/x] and [/b]. *)
Definition ex_nas : Nas := ex_run [OpPut ["a"; "x"] (ex_hash "h1") 5; OpPut ["b"] (ex_hash "h2") 7].

(** A rename of a path to itself with overwrite reports that it does not exist, and
    has removed it. *)
Lemma rename_to_itself_loses :
  nas_apply (λ s, s) ex_missing id id io_ok 2 AuditContext_default ex_quota (OpRename ["b"] ["b"] true) ex_nas =
    (ex_apply (OpRename ["b"] ["b"] true) ex_nas, Err (NotFound "b")) ∧
  nas_files (ex_apply (OpRename ["b"] ["b"] true) ex_nas) ["b"] = None.
Proof. split; vm_compute; reflexivity. Qed.

(** So does a rename of a directory below itself, and a rename of a path that does
    not exist onto one that does. *)
Lemma rename_below_itself_loses :
  (nas_apply (λ s, s) ex_missing id id io_ok 2 AuditContext_default ex_quota (OpRename ["a"] ["a"; "y"] false) ex_nas).2 = Err (NotFound "a") ∧
  nas_files ex_nas ["a"; "x"] = Some (ex_hash "h1", 5) ∧
  nas_files (ex_apply (OpRename ["a"] ["a"; "y"] false) ex_nas) ["a"; "x"] = None.
Proof. split_and!; vm_compute; reflexivity. Qed.

Lemma rename_missing_source_loses :
  (nas_apply (λ s, s) ex_missing id id io_ok 2 AuditContext_default ex_quota (OpRename ["c"] ["b"] true) ex_nas).2 = Err (NotFound "c") ∧
  nas_files (ex_apply (OpRename ["c"] ["b"] true) ex_nas) ["b"] = None.
Proof. split; vm_compute; reflexivity. Qed.

(** A file put over a directory replaces the files below it. *)
Lemma put_replaces_directory :
  (nas_apply (λ s, s) ex_missing id id io_ok 2 AuditContext_default ex_quota (OpPut ["a"] (ex_hash "h3") 1) ex_nas).2 = Ok () ∧
  nas_files (ex_apply (OpPut ["a"] (ex_hash "h3") 1) ex_nas) ["a"; "x"] = None.
Proof. split; vm_compute; reflexivity. Qed.

(** When the audit line cannot be written the change is in memory all the same. *)
Definition io_no_audit : DiskIo := mkDiskIo (Some (AuditFailed "write", false)) None None.
Lemma change_without_audit :
  let r := nas_put id id io_no_audit 1 AuditContext_default ex_quota ["b"] (ex_hash "h2") 7 Nas_empty in
  r.2 = Err (AuditFailed "write") ∧ nas_audit r.1 = [] ∧ nas_files r.1 ["b"] = Some (ex_hash "h2", 7).
Proof. cbv zeta. split_and!; vm_compute; reflexivity. Qed.

(** Two writers: the second, as [post] of the first, mutates and commits between the
    mutation and the commit of the first. Both succeed; [manifest.json] has the older
    manifest, and after a restart the file of the second is gone. *)
Definition ex_two_writers : Nas :=
  (nas_apply (λ s, s) ex_missing id (ex_apply (OpPut ["b"] (ex_hash "h2") 2)) io_ok 1 AuditContext_default ex_quota (OpPut ["a"] (ex_hash "h1") 1) Nas_empty).1.

Lemma late_commit_loses :
  nas_files ex_two_writers ["b"] = Some (ex_hash "h2", 2) ∧ nas_files (Nas_open ex_two_writers) ["b"] = None.
Proof. split; vm_compute; reflexivity. Qed.

(** A name with a percent sign cannot be restored: its stored path is decoded again. *)
Lemma percent_not_restored :
  let n := ex_run [OpPut ["100%"] (ex_hash "h1") 1; OpSoftDelete ["100%"] "7"] in
  (nas_restore (λ s, s) id id io_ok 2 AuditContext_default "100%" n).2 = Err (Traversal "truncated percent-escape at byte 4").
Proof. cbv zeta. vm_compute. reflexivity. Qed.

(** [restore] leaves the entry in the trash. *)
Lemma restore_keeps_trash :
  let n := ex_run [OpPut ["f"] (ex_hash "h1") 1; OpSoftDelete ["f"] "7"] in
  length (list_trash (nas_restore (λ s, s) id id io_ok 2 AuditContext_default "f" n).1) = 1%nat.
Proof. cbv zeta. vm_compute. reflexivity. Qed.

(** *** Witnesses *)


Lemma nas_failures_witness :
  nas_disk (nas_delete id id io_ok 1 AuditContext_default ["z"] ex_nas).1 = nas_disk ex_nas.
Proof.
  apply (nas_failures (λ s, s) ex_missing io_ok 1 AuditContext_default ex_quota (OpDelete ["z"]) ex_nas (ex_apply (OpDelete ["z"]) ex_nas) (NotFound "z")).
  vm_compute. reflexivity.
Defined.

Lemma trash_roundtrip_witness :
  ∃ n2, nas_restore (λ s, s) id id io_ok 9 AuditContext_default "a" (soft_delete id id io_ok 5 AuditContext_default "7" ["a"] ex_nas).1 =
    (n2, Ok (EDirectory {["x" := EFile (ex_hash "h1") 5]})) ∧ nas_files n2 ["a"; "x"] = Some (ex_hash "h1", 5).
Proof.
  destruct (trash_roundtrip (λ s, s) 5 9 AuditContext_default AuditContext_default "7" ["a"] ex_nas
    (soft_delete id id io_ok 5 AuditContext_default "7" ["a"] ex_nas).1 (EDirectory {["x" := EFile (ex_hash "h1") 5]})) as (n2 & H1 & H2 & _).
  - vm_compute. reflexivity.
  - vm_compute. reflexivity.
  - intros x old Hx. change (nas_trash ex_nas) with (∅ : gmap string TrashEntry) in Hx. by rewrite lookup_empty in Hx.
  - exists n2. split; [exact H1|]. rewrite H2. vm_compute. reflexivity.
Defined.
