(* ===== verification/Gc.v ===== *)
(** * Pins and garbage collection ([crates/a3net-blobstore/src/pin_set.rs, gc_scheduler.rs],
    the collector of [store.rs], the [pin] command of [crates/a3net-cli/src/file_ops.rs])

    The pin set maps the text of a hash to a record. The store is the map of its blob
    directories to whether they have the [complete] sentinel; the order of [read_dir]
    and the directories that cannot be removed are arguments. The scheduler is the
    transition of its loop on a report. Durations are in nanoseconds.

    The theorems show what a sweep removes, that the two collectors agree, that what
    is pinned recursively survives every run of pin commands, imports and sweeps that
    does not unpin it, and how the interval of the scheduler moves. *)
From stdpp Require Import prelude strings gmap list sorting.
From Stdlib Require Import NArith ZArith Lia Ascii.
From S2P Require Import Prelude NodeId ContentHash.

#[local] Open Scope N_scope.

(** ** The pin set *)

Inductive PinKind : Type := PinRoot | PinChunk.
#[global] Instance PinKind_eq_dec : EqDecision PinKind.
Proof. solve_decision. Defined.

Record PinRecord : Type := mkPinRecord { pr_kind : PinKind; pr_recursive : bool; pr_added_at_unix : Z; pr_descendants : gset string }.

Notation PinSet := (gmap string PinRecord).
Definition PinSet_new : PinSet := ∅.

(** What [pin.json] is: absent, empty, the text of a set, or something else. *)
Inductive PinFile : Type := NoPins | EmptyPins | SomePins (pins : PinSet) | BadPins (msg : string).

Definition PinSet_load (f : PinFile) : result string PinSet :=
  match f with
  | NoPins | EmptyPins => Ok PinSet_new
  | SomePins pins => Ok pins
  | BadPins e => Err ("pin.json: " +:+ e)
  end.
Definition PinSet_save (pins : PinSet) : PinFile := SomePins pins.

Definition pin_add (hash : ContentHash) (recursive : bool) (descendants : gset string) (now : Z) (pins : PinSet) : PinSet * bool :=
  match pins !! ch_hex hash with
  | Some _ => (pins, false)
  | None => (<[ch_hex hash := mkPinRecord PinRoot recursive now descendants]> pins, true)
  end.

Definition pin_add_chunk (hash : ContentHash) (now : Z) (pins : PinSet) : PinSet * bool :=
  match pins !! ch_hex hash with
  | Some _ => (pins, false)
  | None => (<[ch_hex hash := mkPinRecord PinChunk false now ∅]> pins, true)
  end.

Definition pin_remove (hash : ContentHash) (pins : PinSet) : PinSet * bool :=
  match pins !! ch_hex hash with
  | Some rec => (delete_all (elements (pr_descendants rec)) (delete (ch_hex hash) pins), true)
  | None => (pins, false)
  end.

Definition pin_contains (hash : ContentHash) (pins : PinSet) : bool := match pins !! ch_hex hash with Some _ => true | None => false end.
Definition pin_contains_root (hash : ContentHash) (pins : PinSet) : bool :=
  match pins !! ch_hex hash with Some rec => bool_decide (pr_kind rec = PinRoot) | None => false end.
Definition pin_len (pins : PinSet) : nat := size pins.
Definition pinned_hex (pins : PinSet) : list string := (map_to_list pins).*1.

Definition pin_orphans (store_hashes : list string) (pins : PinSet) : list string := filter (λ h, pins !! h = None) store_hashes.

(** Some recursive root lists the chunk. *)
Definition has_ancestor (pins : PinSet) (c : string) : bool :=
  existsb (λ kv, bool_decide (pr_kind kv.2 = PinRoot) && pr_recursive kv.2 && bool_decide (c ∈ pr_descendants kv.2)) (map_to_list pins).

Definition sweep_chunk (acc : PinSet * nat) (c : string) : PinSet * nat :=
  if has_ancestor acc.1 c then acc else (delete c acc.1, S acc.2).

Definition sweep_orphan_chunks (pins : PinSet) : PinSet * nat :=
  let chunks := omap (λ kv, if bool_decide (pr_kind kv.2 = PinChunk) then Some kv.1 else None) (map_to_list pins) in
  foldl sweep_chunk (pins, 0%nat) chunks.

(** ** The command [pin] *)

Definition pin_chunks (descendants : list string) (now : Z) (pins : PinSet) : PinSet :=
  foldl (λ pins child_hex, match ContentHash_from_hex child_hex with Ok h => (pin_add_chunk h now pins).1 | Err _ => pins end) pins descendants.

(** The descendants are those of the chunk files; only a blob of the store is pinned. *)
Definition run_pin_add (hash : ContentHash) (recursive : bool) (descendants : gset string) (now : Z) (pins : PinSet) : PinSet :=
  let descendants := if recursive then descendants else ∅ in
  (pin_add hash recursive descendants now (pin_chunks (elements descendants) now pins)).1.

(** ** The store *)

Notation BlobDirs := (gmap ContentHash bool).

Section Collector.
Context (read_dir : BlobDirs → list ContentHash) (rm_fails : ContentHash → bool).

Definition has_complete (dirs : BlobDirs) (h : ContentHash) : bool := default false (dirs !! h).

Definition list_complete (dirs : BlobDirs) : list ContentHash := filter (λ h, has_complete dirs h = true) (read_dir dirs).

Definition store_remove (h : ContentHash) (dirs : BlobDirs) : BlobDirs * result string bool :=
  match dirs !! h with
  | None => (dirs, Ok false)
  | Some false => (dirs, Err ("refusing to remove incomplete blob: " +:+ ch_hex h))
  | Some true => if rm_fails h then (dirs, Err "remove_dir_all"%string) else (delete h dirs, Ok true)
  end.

Definition gc_step (acc : BlobDirs * list ContentHash) (h : ContentHash) : BlobDirs * list ContentHash :=
  match store_remove h acc.1 with (dirs, Ok true) => (dirs, acc.2 ++ [h]) | (dirs, _) => (dirs, acc.2) end.

Definition hex_leb (a b : ContentHash) : bool := bytes_leb (str_bytes (ch_hex a)) (str_bytes (ch_hex b)).

Definition gc_remove (hashes : list ContentHash) (dirs : BlobDirs) : BlobDirs * list ContentHash :=
  let r := foldl gc_step (dirs, []) hashes in (r.1, sort_by hex_leb r.2).

Definition gc_orphans (pins : PinSet) (dirs : BlobDirs) : BlobDirs * list ContentHash :=
  let all_hex := ch_hex <$> list_complete dirs in
  gc_remove (omap (λ s, match ContentHash_from_hex s with Ok h => Some h | Err _ => None end) (pin_orphans all_hex pins)) dirs.

Definition gc_unpinned (pinned : list string) (dirs : BlobDirs) : BlobDirs * list ContentHash :=
  gc_remove (filter (λ h, existsb (λ p, String.eqb p (ch_hex h)) pinned = false) (list_complete dirs)) dirs.

Definition gc_all (dirs : BlobDirs) : BlobDirs * list ContentHash := gc_remove (list_complete dirs) dirs.

(** ** A sweep *)

Record GcReport : Type := mkGcReport {
  gr_started_at_unix : Z; gr_finished_at_unix : Z; gr_elapsed_millis : N; gr_candidates : nat; gr_pruned : nat;
  gr_removed : list string; gr_errors : nat; gr_first_error : option string; gr_pre_gc_backup : option string
}.

(** [list_err] is the failure of [read_dir] in the first and in the second listing. *)
Definition run_one_sweep (started finished : Z) (elapsed : N) (file : PinFile) (list_err1 list_err2 : option string) (backup : option string) (dirs : BlobDirs) :
  BlobDirs * GcReport :=
  let report := mkGcReport started finished elapsed in
  match PinSet_load file with
  | Err e => (dirs, report 0%nat 0%nat [] 1%nat (Some ("load pin.json: " +:+ e)) backup)
  | Ok pins =>
      match list_err1 with
      | Some e => (dirs, report 0%nat 0%nat [] 1%nat (Some ("list_complete: " +:+ e)) backup)
      | None =>
          let candidates := length (pin_orphans (ch_hex <$> list_complete dirs) pins) in
          match list_err2 with
          | Some e => (dirs, report candidates 0%nat [] 1%nat (Some ("gc_orphans: " +:+ e)) backup)
          | None =>
              let '(dirs, removed) := gc_orphans pins dirs in
              (dirs, report candidates (length removed) (ch_hex <$> removed) 0%nat None backup)
          end
      end
  end.
End Collector.

(** ** The scheduler *)

Record GcSchedulerConfig : Type := mkGcSchedulerConfig {
  gs_interval : N; gs_jitter : N; gs_error_backoff_factor : N; gs_max_interval : N; gs_max_consecutive_errors : N;
  gs_pre_gc_backup_dir : option string; gs_keep_pre_gc_backups : option nat
}.

Definition hours (n : N) : N := n * 3600000000000.
Definition GcSchedulerConfig_default : GcSchedulerConfig := mkGcSchedulerConfig (hours 1) 60000000000 2 (hours 24) 5 None (Some 3%nat).

(** [GcHistory]. *)
Record GcHistory : Type := mkGcHistory { gh_cap : nat; gh_reports : list GcReport }.
Definition GcHistory_new (cap : nat) : GcHistory := mkGcHistory (Nat.max cap 1) [].
Definition history_record (r : GcReport) (h : GcHistory) : GcHistory :=
  let l := gh_reports h ++ [r] in mkGcHistory (gh_cap h) (drop (length l - gh_cap h) l).
Definition history_last (h : GcHistory) : option GcReport := last (gh_reports h).
Definition history_last_error (h : GcHistory) : option string := head (omap gr_first_error (rev (gh_reports h))).

Record GcLoop : Type := mkGcLoop { gl_interval : N; gl_consecutive_errors : N; gl_history : GcHistory }.

(** The largest [Duration]. *)
Definition DURATION_MAX : N := u64_max * 1000000000 + 999999999.

Definition checked_mul (d k : N) : option N := if d * k <=? DURATION_MAX then Some (d * k) else None.

(** The sleep before a tick; [seed] are the nanoseconds of the clock. *)
Definition jittered (cfg : GcSchedulerConfig) (interval seed : N) : N :=
  let span := gs_jitter cfg mod 2 ^ 64 in
  if span =? 0 then interval
  else Z.to_N (Z.max (Z.of_N interval + (Z.of_N (seed mod span) - Z.of_N (span / 2))) 1) mod 2 ^ 64.

(** What the loop does with the report of a tick. *)
Definition loop_tick (cfg : GcSchedulerConfig) (l : GcLoop) (r : GcReport) : GcLoop :=
  let errors := if Nat.eqb (gr_errors r) 0 then 0 else sat_add u32_max (gl_consecutive_errors l) 1 in
  let interval :=
    if (gs_max_consecutive_errors cfg <=? errors) && (0 <? gs_max_consecutive_errors cfg)
    then N.min (default (gs_max_interval cfg) (checked_mul (gl_interval l) (N.max (gs_error_backoff_factor cfg) 1))) (gs_max_interval cfg)
    else gl_interval l in
  mkGcLoop interval errors (history_record r (gl_history l)).

(** [start_with_history]: the first sweep. *)
Definition gc_start (cfg : GcSchedulerConfig) (h : GcHistory) (first : GcReport) : result string GcLoop :=
  if Nat.ltb 0 (gr_errors first) && Nat.eqb (gr_pruned first) 0
  then Err ("first GC sweep failed: " +:+ default EmptyString (gr_first_error first) +:+ " (errors=" +:+ show_N (N.of_nat (gr_errors first)) +:+ ")")
  else Ok (mkGcLoop (gs_interval cfg) 0 (history_record first h)).

(** [rotate_pre_gc_backups]: the files with their times that are deleted. *)
Definition rotated (keep : option nat) (entries : list (Z * string)) : list (Z * string) :=
  match keep with None => [] | Some k => drop k (sort_by (λ a b, (b.1 <=? a.1)%Z) entries) end.

(** The descendants the command computes: the hashes of the chunks. *)
Definition chunk_descendants `{Blake3} (chunks : list (list N)) : gset string :=
  list_to_set ((λ bytes, ch_hex (ContentHash_from_bytes bytes)) <$> chunks).

(** ** What a sweep removes *)

(** A hash as the constructors make it: its text parses to itself. *)
Definition hash_ok (h : ContentHash) : Prop := ContentHash_from_hex (ch_hex h) = Ok h.

Section CollectorLemmas.
Context (read_dir : BlobDirs → list ContentHash) (rm_fails : ContentHash → bool).
Hypothesis read_dir_keys : ∀ dirs h, h ∈ read_dir dirs ↔ is_Some (dirs !! h).

Notation gc_step := (gc_step rm_fails).
Notation gc_remove := (gc_remove rm_fails).
Notation gc_orphans := (gc_orphans read_dir rm_fails).
Notation gc_unpinned := (gc_unpinned read_dir rm_fails).

(** The directories that a removal of [hashes] deletes. *)
Definition removable (hashes : list ContentHash) (dirs : BlobDirs) (h : ContentHash) : Prop :=
  h ∈ hashes ∧ dirs !! h = Some true ∧ rm_fails h = false.

Lemma gc_fold hashes dirs acc dirs' acc' :
  foldl gc_step (dirs, acc) hashes = (dirs', acc') → NoDup acc → (∀ h, h ∈ acc → dirs !! h = None) →
  (∀ h, removable hashes dirs h → dirs' !! h = None) ∧ (∀ h, ¬ removable hashes dirs h → dirs' !! h = dirs !! h) ∧
  (∀ h, h ∈ acc' ↔ h ∈ acc ∨ removable hashes dirs h) ∧ NoDup acc'.
Proof.
  clear read_dir_keys read_dir. revert dirs acc. induction hashes as [|g hashes IH]; intros dirs acc; cbn [foldl].
  { intros [= <- <-] Hnd _. split_and!; try done; [by intros h [?%elem_of_nil _]|]. intros h. split; [by left|]. by intros [|[?%elem_of_nil _]]. }
  unfold removable, gc_step at 2, store_remove. cbn [fst snd]. intros Hf Hnd Hacc.
  assert ((dirs !! g = Some true ∧ rm_fails g = false ∧ foldl gc_step (delete g dirs, acc ++ [g]) hashes = (dirs', acc')) ∨
          (¬ (dirs !! g = Some true ∧ rm_fails g = false) ∧ foldl gc_step (dirs, acc) hashes = (dirs', acc'))) as [(Hg & Hrm & Hf')|[Hg Hf']].
  { destruct (dirs !! g) as [[]|] eqn:Hg; [|right; split; [by intros []|done]|right; split; [by intros []|done]].
    destruct (rm_fails g) eqn:Hrm; [right; split; [by intros []|done]|by left]. }
  - apply IH in Hf' as (H1 & H2 & H3 & H4).
    + unfold removable in *. setoid_rewrite elem_of_cons. split_and!; [| | |done].
      * intros h ([->|Hh] & Hd & Hr); [|destruct (decide (h = g)) as [->|Hne]; [|apply H1; by rewrite lookup_delete_ne]];
          (rewrite H2; [by rewrite lookup_delete_eq|rewrite lookup_delete_eq; by intros (_ & ? & _)]).
      * intros h Hn. destruct (decide (h = g)) as [->|Hne]; [destruct Hn; eauto|]. rewrite H2; [by rewrite lookup_delete_ne|].
        rewrite lookup_delete_ne by done. intros (? & ? & ?). apply Hn. eauto.
      * intros h. rewrite H3, elem_of_app, list_elem_of_singleton. destruct (decide (h = g)) as [->|Hne]; [|rewrite lookup_delete_ne by done; naive_solver].
        rewrite lookup_delete_eq. naive_solver.
    + apply NoDup_app. split_and!; [done| |by apply NoDup_singleton]. intros x Hx ->%list_elem_of_singleton. by rewrite (Hacc g Hx) in Hg.
    + intros h [Hh| ->%list_elem_of_singleton]%elem_of_app; [|by rewrite lookup_delete_eq]. rewrite lookup_delete_None. right. by apply Hacc.
  - apply IH in Hf' as (H1 & H2 & H3 & H4); [|done|done]. unfold removable in *. setoid_rewrite elem_of_cons. split_and!; [| | |done].
    + intros h ([->|Hh] & Hd & Hr); [by destruct Hg|]. by apply H1.
    + intros h Hn. apply H2. intros (? & ? & ?). apply Hn. eauto.
    + intros h. rewrite H3. naive_solver.
Qed.

Lemma hex_leb_total a b : hex_leb a b = true ∨ hex_leb b a = true.
Proof. apply bytes_leb_total. Qed.
Lemma hex_leb_trans a b c : hex_leb a b = true → hex_leb b c = true → hex_leb a c = true.
Proof. apply bytes_leb_trans. Qed.

Lemma gc_remove_spec hashes dirs :
  let r := gc_remove hashes dirs in
  (∀ h, removable hashes dirs h → r.1 !! h = None) ∧ (∀ h, ¬ removable hashes dirs h → r.1 !! h = dirs !! h) ∧
  (∀ h, h ∈ r.2 ↔ removable hashes dirs h) ∧ NoDup r.2 ∧ StronglySorted (λ a b, hex_leb a b = true) r.2.
Proof.
  clear read_dir_keys read_dir. unfold gc_remove. destruct (foldl gc_step (dirs, []) hashes) as [dirs' acc] eqn:Hf.
  apply gc_fold in Hf as (H1 & H2 & H3 & H4); [|constructor|by intros h ?%elem_of_nil]. cbn [fst snd]. split_and!; [done|done| | |].
  - intros h. rewrite elem_of_sort_by, H3. split; [by intros [?%elem_of_nil|]|by right].
  - by rewrite sort_by_perm.
  - apply sort_by_sorted; [apply hex_leb_total|apply hex_leb_trans].
Qed.

Lemma elem_of_list_complete dirs h : h ∈ list_complete read_dir dirs ↔ dirs !! h = Some true.
Proof.
  unfold list_complete, has_complete. rewrite list_elem_of_filter, read_dir_keys. destruct (dirs !! h) as [[]|]; cbn; naive_solver.
Qed.

Lemma orphan_hashes_eq pins l : Forall hash_ok l →
  omap (λ s, match ContentHash_from_hex s with Ok h => Some h | Err _ => None end) (pin_orphans (ch_hex <$> l) pins) =
  filter (λ h, pins !! ch_hex h = None) l.
Proof.
  intros Hl. unfold pin_orphans. induction Hl as [|h l Hh _ IH]; [done|]. rewrite fmap_cons, !filter_cons.
  destruct (decide (pins !! ch_hex h = None)); [|done]. rewrite <-IH. cbn. by rewrite Hh.
Qed.

Lemma list_complete_ok dirs : map_Forall (λ h _, hash_ok h) dirs → Forall hash_ok (list_complete read_dir dirs).
Proof. intros Hok. apply Forall_forall. intros h Hh%elem_of_list_complete. by apply (Hok h true). Qed.

(** What the collector removes: exactly the complete blobs that are not pinned, but
    for those whose directory cannot be removed; every pinned and every incomplete
    blob stays as it is, and the result lists the removed ones once each, in order. *)
Theorem gc_orphans_spec pins dirs :
  map_Forall (λ h _, hash_ok h) dirs →
  let r := gc_orphans pins dirs in
  (∀ h, r.1 !! h = if decide (dirs !! h = Some true ∧ pins !! ch_hex h = None ∧ rm_fails h = false) then None else dirs !! h) ∧
  (∀ h, h ∈ r.2 ↔ dirs !! h = Some true ∧ pins !! ch_hex h = None ∧ rm_fails h = false) ∧
  NoDup r.2 ∧ StronglySorted (λ a b, hex_leb a b = true) r.2.
Proof.
  intros Hok. unfold gc_orphans. rewrite orphan_hashes_eq by (by apply list_complete_ok).
  destruct (gc_remove_spec (filter (λ h, pins !! ch_hex h = None) (list_complete read_dir dirs)) dirs) as (H1 & H2 & H3 & H4 & H5).
  assert (∀ h, removable (filter (λ h, pins !! ch_hex h = None) (list_complete read_dir dirs)) dirs h ↔ dirs !! h = Some true ∧ pins !! ch_hex h = None ∧ rm_fails h = false) as Hrm.
  { intros h. unfold removable. rewrite list_elem_of_filter, elem_of_list_complete. naive_solver. }
  cbv zeta. split_and!; [|intros h; by rewrite H3, Hrm|done|done].
  intros h. destruct (decide _) as [Hd|Hd]; [apply H1|apply H2]; by rewrite Hrm.
Qed.

(** The two collectors agree: collecting with the pin set and collecting with the list
    of its texts remove the same blobs. *)
Theorem collectors_agree pins dirs :
  map_Forall (λ h _, hash_ok h) dirs → gc_unpinned (pinned_hex pins) dirs = gc_orphans pins dirs.
Proof.
  intros Hok. unfold gc_unpinned, gc_orphans. rewrite orphan_hashes_eq by (by apply list_complete_ok). f_equal.
  apply list_filter_iff. intros h. split.
  - intros He. destruct (pins !! ch_hex h) as [rec|] eqn:Hp; [|done]. exfalso. apply not_true_iff_false in He. apply He.
    apply existsb_exists. exists (ch_hex h). split; [|apply String.eqb_refl]. apply list_elem_of_In, list_elem_of_fmap.
    exists (ch_hex h, rec). by rewrite elem_of_map_to_list.
  - intros Hp. apply not_true_iff_false. intros (s & Hs & ->%String.eqb_eq)%existsb_exists. apply list_elem_of_In, list_elem_of_fmap in Hs as ([k rec] & Hkh & Hk).
    apply elem_of_map_to_list in Hk. cbn in Hkh. congruence.
Qed.
End CollectorLemmas.

(** ** What is pinned survives *)

(** The pin file and the store, and the commands that change them. [CmdPin] has the
    descendants the command computes from the chunk files. *)
Record GcWorld : Type := mkGcWorld { w_pins : PinSet; w_dirs : BlobDirs }.

Inductive GcCmd : Type :=
  | CmdPin (h : ContentHash) (recursive : bool) (descendants : gset string) (now : Z)
  | CmdUnpin (h : ContentHash)
  | CmdPinGc
  | CmdSweep
  | CmdImport (h : ContentHash).

(** [run_pin] on the commands that change the pins, the sweep, and the end of an import. *)
Definition gc_cmd (read_dir : BlobDirs → list ContentHash) (rm_fails : ContentHash → bool) (w : GcWorld) (c : GcCmd) : GcWorld :=
  match c with
  | CmdPin h recursive descendants now =>
      if has_complete (w_dirs w) h then mkGcWorld (run_pin_add h recursive descendants now (w_pins w)) (w_dirs w) else w
  | CmdUnpin h => mkGcWorld (pin_remove h (w_pins w)).1 (w_dirs w)
  | CmdPinGc => mkGcWorld (sweep_orphan_chunks (w_pins w)).1 (w_dirs w)
  | CmdSweep => mkGcWorld (w_pins w) (gc_orphans read_dir rm_fails (w_pins w) (w_dirs w)).1
  | CmdImport h => mkGcWorld (w_pins w) (<[h := true]> (w_dirs w))
  end.

(** [h] is pinned as a recursive root of [D], and all of [D] is pinned. *)
Definition protects (h : ContentHash) (D : gset string) (pins : PinSet) : Prop :=
  (∃ rec, pins !! ch_hex h = Some rec ∧ pr_kind rec = PinRoot ∧ pr_recursive rec = true ∧ pr_descendants rec = D) ∧
  ∀ s, s ∈ D → is_Some (pins !! s).

Lemma protects_pinned h D pins s : protects h D pins → s ∈ {[ch_hex h]} ∪ D → is_Some (pins !! s).
Proof. intros [(rec & Hr & _) HD] [->%elem_of_singleton|Hs]%elem_of_union; eauto. Qed.

(** The removal of a pin does not touch [S]. *)
Definition spares (S : gset string) (pins : PinSet) (c : GcCmd) : Prop :=
  match c with
  | CmdUnpin g => ∀ rec, pins !! ch_hex g = Some rec → S ## {[ch_hex g]} ∪ pr_descendants rec
  | CmdImport g => hash_ok g
  | _ => True
  end.

Fixpoint run_spares (read_dir : BlobDirs → list ContentHash) (rm_fails : ContentHash → bool) (S : gset string) (w : GcWorld) (cs : list GcCmd) : Prop :=
  match cs with [] => True | c :: cs => spares S (w_pins w) c ∧ run_spares read_dir rm_fails S (gc_cmd read_dir rm_fails w c) cs end.

Lemma pin_add_chunk_mono h now pins : pins ⊆ (pin_add_chunk h now pins).1.
Proof. unfold pin_add_chunk. destruct (pins !! ch_hex h) eqn:Hh; [done|]. by apply insert_subseteq. Qed.

Lemma pin_chunks_mono l now pins : pins ⊆ pin_chunks l now pins.
Proof.
  unfold pin_chunks. revert pins. induction l as [|s l IH]; intros pins; cbn [foldl]; [done|]. etrans; [|apply IH].
  destruct (ContentHash_from_hex s); [apply pin_add_chunk_mono|done].
Qed.

Lemma run_pin_add_mono h r D now pins : pins ⊆ run_pin_add h r D now pins.
Proof.
  unfold run_pin_add, pin_add. etrans; [apply (pin_chunks_mono (elements (if r then D else ∅)) now)|].
  destruct (_ !! ch_hex h) eqn:Hh; [done|]. by apply insert_subseteq.
Qed.

Lemma protects_mono h D pins pins' : pins ⊆ pins' → protects h D pins → protects h D pins'.
Proof.
  intros Hsub [(rec & Hr & ?) HD]. split; [exists rec; split; [by eapply lookup_weaken|done]|].
  intros s [r Hs]%HD. exists r. by eapply lookup_weaken.
Qed.

(** The texts that pinning chunks adds. *)
Lemma pin_chunks_pins l now pins s : s ∈ l → (∃ c, ContentHash_from_hex s = Ok c ∧ ch_hex c = s) → is_Some (pin_chunks l now pins !! s).
Proof.
  intros Hs (c & Hc & Hcs). revert pins. induction l as [|x l IH]; intros pins; [by apply elem_of_nil in Hs|].
  apply elem_of_cons in Hs as [<-|Hs]; [|by apply IH]. cbn [pin_chunks foldl]. rewrite Hc.
  assert (is_Some ((pin_add_chunk c now pins).1 !! s)) as [r Hr].
  { unfold pin_add_chunk. rewrite Hcs. destruct (pins !! s) eqn:Hp; cbn [fst]; [by rewrite Hp|by rewrite lookup_insert_eq]. }
  exists r. eapply lookup_weaken; [exact Hr|apply pin_chunks_mono].
Qed.

Lemma pin_chunks_other l now pins s : s ∉ l → Forall (λ s, ∃ c, ContentHash_from_hex s = Ok c ∧ ch_hex c = s) l → pin_chunks l now pins !! s = pins !! s.
Proof.
  intros Hs Hl. revert pins. induction Hl as [|x l (c & Hc & Hcs) Hl IH]; intros pins; [done|].
  apply not_elem_of_cons in Hs as [Hne Hs]. cbn [pin_chunks foldl]. rewrite Hc. etrans; [by apply IH|].
  unfold pin_add_chunk. rewrite Hcs. destruct (pins !! x); [done|]. cbn [fst]. by rewrite lookup_insert_ne.
Qed.

(** A recursive pin of a new root protects it. *)
Lemma run_pin_add_protects h D now pins :
  pins !! ch_hex h = None → ch_hex h ∉ D → (∀ s, s ∈ D → ∃ c, ContentHash_from_hex s = Ok c ∧ ch_hex c = s) → protects h D (run_pin_add h true D now pins).
Proof.
  intros Hn HD Hok. unfold run_pin_add, pin_add. rewrite pin_chunks_other; [|by rewrite elem_of_elements|by apply Forall_forall; setoid_rewrite elem_of_elements].
  rewrite Hn. cbn [fst]. split; [by eexists; rewrite lookup_insert_eq|]. intros s Hs. rewrite lookup_insert_ne by (by intros <-).
  apply pin_chunks_pins; [by rewrite elem_of_elements|by apply Hok].
Qed.

Lemma pin_remove_protects h D g pins :
  (∀ rec, pins !! ch_hex g = Some rec → {[ch_hex h]} ∪ D ## {[ch_hex g]} ∪ pr_descendants rec) → protects h D pins → protects h D (pin_remove g pins).1.
Proof.
  intros Hsp [(rec & Hr & Hk) HD]. unfold pin_remove. destruct (pins !! ch_hex g) as [rg|] eqn:Hg; [|split; eauto]. specialize (Hsp _ eq_refl). cbn [fst].
  assert (∀ s, s ∈ {[ch_hex h]} ∪ D → delete_all (elements (pr_descendants rg)) (delete (ch_hex g) pins) !! s = pins !! s) as Heq.
  { intros s Hs. rewrite lookup_delete_all, decide_False by (rewrite elem_of_elements; set_solver). apply lookup_delete_ne. set_solver. }
  split; [exists rec; rewrite Heq by set_solver; done|]. intros s Hs. rewrite Heq by set_solver. by apply HD.
Qed.

Lemma protects_ancestor h D pins s : protects h D pins → s ∈ D → has_ancestor pins s = true.
Proof.
  intros [(rec & Hr & Hk & Hrec & HDr) _] Hs. unfold has_ancestor. apply existsb_exists. exists (ch_hex h, rec).
  split; [by apply list_elem_of_In, elem_of_map_to_list|]. cbn. rewrite Hrec, !bool_decide_true; [done|by rewrite HDr|done].
Qed.

Lemma sweep_chunks_protects h D chunks pins n :
  ch_hex h ∉ chunks → protects h D pins → protects h D (foldl sweep_chunk (pins, n) chunks).1.
Proof.
  revert pins n. induction chunks as [|c l IH]; intros pins n Hnc Hp; cbn [foldl]; [done|]. apply not_elem_of_cons in Hnc as [Hne Hnc].
  unfold sweep_chunk at 2. cbn [fst snd]. destruct (has_ancestor pins c) eqn:Ha; [by apply IH|]. apply IH; [done|].
  pose proof (protects_ancestor h D pins c Hp) as Hanc. destruct Hp as [(rec & Hr & ?) HD]. split; [exists rec; by rewrite lookup_delete_ne|].
  intros s Hs. rewrite lookup_delete_ne; [by apply HD|]. intros ->. by rewrite Hanc in Ha.
Qed.

Lemma sweep_protects h D pins : protects h D pins → protects h D (sweep_orphan_chunks pins).1.
Proof.
  intros Hp. apply sweep_chunks_protects; [|done]. intros ([k v] & Hkv & He)%list_elem_of_omap.
  apply elem_of_map_to_list in Hkv. destruct Hp as [(rec & Hr & Hk & _) _]. cbn in He. case_bool_decide; simplify_eq. congruence.
Qed.

Section Survive.
Context (read_dir : BlobDirs → list ContentHash) (rm_fails : ContentHash → bool).
Hypothesis read_dir_keys : ∀ dirs h, h ∈ read_dir dirs ↔ is_Some (dirs !! h).

Notation gc_cmd := (gc_cmd read_dir rm_fails).
Notation run_spares := (run_spares read_dir rm_fails).
Notation dirs_ok := (map_Forall (λ h _, hash_ok h)).

(** A sweep keeps what is pinned. *)
Lemma sweep_keeps pins dirs b : dirs_ok dirs → is_Some (pins !! ch_hex b) → (gc_orphans read_dir rm_fails pins dirs).1 !! b = dirs !! b.
Proof.
  intros Hok [r Hr]. unfold gc_orphans. rewrite (orphan_hashes_eq pins) by (by apply list_complete_ok).
  apply (proj1 (proj2 (gc_remove_spec rm_fails _ dirs))). intros ([Hn _]%list_elem_of_filter & _). congruence.
Qed.

Lemma sweep_dirs_ok pins dirs : dirs_ok dirs → dirs_ok (gc_orphans read_dir rm_fails pins dirs).1.
Proof.
  intros Hok b x Hb. unfold gc_orphans in Hb. rewrite (orphan_hashes_eq pins) in Hb by (by apply list_complete_ok).
  set (l := filter _ _) in Hb. destruct (gc_remove_spec rm_fails l dirs) as (H1 & H2 & _).
  destruct (decide (b ∈ l ∧ dirs !! b = Some true ∧ rm_fails b = false)) as [Hd|Hd]; [by rewrite (H1 b Hd) in Hb|].
  rewrite (H2 b Hd) in Hb. by apply (Hok b x).
Qed.

(** A command that spares a protected tree keeps it pinned and keeps its blobs. *)
Lemma gc_cmd_keeps h D w c :
  dirs_ok (w_dirs w) → protects h D (w_pins w) → spares ({[ch_hex h]} ∪ D) (w_pins w) c →
  dirs_ok (w_dirs (gc_cmd w c)) ∧ protects h D (w_pins (gc_cmd w c)) ∧
  ∀ b, ch_hex b ∈ {[ch_hex h]} ∪ D → w_dirs w !! b = Some true → w_dirs (gc_cmd w c) !! b = Some true.
Proof.
  intros Hok Hp Hs. destruct c as [g r E now|g| | |g]; cbn [gc_cmd w_pins w_dirs].
  - destruct (has_complete (w_dirs w) g); [|done]. split_and!; [done| |done]. eapply protects_mono; [apply run_pin_add_mono|done].
  - split_and!; [done| |done]. by apply pin_remove_protects.
  - split_and!; [done| |done]. by apply sweep_protects.
  - split_and!; [by apply sweep_dirs_ok|done|]. intros b Hb Hd. rewrite sweep_keeps; [done|done|]. by eapply protects_pinned.
  - split_and!; [by apply map_Forall_insert_2|done|]. intros b _ Hd. destruct (decide (b = g)) as [->|]; [by rewrite lookup_insert_eq|by rewrite lookup_insert_ne].
Qed.

Lemma gc_run_keeps h D cs w :
  dirs_ok (w_dirs w) → protects h D (w_pins w) → run_spares ({[ch_hex h]} ∪ D) w cs →
  protects h D (w_pins (foldl gc_cmd w cs)) ∧
  ∀ b, ch_hex b ∈ {[ch_hex h]} ∪ D → w_dirs w !! b = Some true → w_dirs (foldl gc_cmd w cs) !! b = Some true.
Proof.
  revert w. induction cs as [|c cs IH]; intros w Hok Hp Hsp; [done|]. destruct Hsp as [Hs Hsp].
  destruct (gc_cmd_keeps h D w c Hok Hp Hs) as (Hok' & Hp' & Hd'). destruct (IH _ Hok' Hp' Hsp) as [HP HDD].
  split; [done|]. intros b Hb Hd. apply HDD; [done|by apply Hd'].
Qed.

End Survive.

(** ** The interval of the scheduler *)

Definition tick_failed (r : GcReport) : bool := negb (Nat.eqb (gr_errors r) 0).

Lemma loop_tick_interval cfg l r :
  gs_max_interval cfg <= DURATION_MAX → gl_interval l <= gs_max_interval cfg →
  let f := N.max (gs_error_backoff_factor cfg) 1 in
  let l' := loop_tick cfg l r in
  gl_interval l' = if (gs_max_consecutive_errors cfg <=? gl_consecutive_errors l') && (0 <? gs_max_consecutive_errors cfg)
                   then N.min (gs_max_interval cfg) (gl_interval l * f) else gl_interval l.
Proof.
  intros Hmax Hl f l'. unfold l', loop_tick. cbn [gl_interval gl_consecutive_errors].
  destruct (_ && _); [|done]. fold f. unfold checked_mul. destruct (N.leb_spec (gl_interval l * f) DURATION_MAX); cbn [from_option id]; lia.
Qed.

Lemma loop_tick_errors cfg l r :
  gl_consecutive_errors (loop_tick cfg l r) = if tick_failed r then N.min (gl_consecutive_errors l + 1) u32_max else 0.
Proof. unfold loop_tick, tick_failed, sat_add. cbn. by destruct (Nat.eqb _ _). Qed.

(** The interval after [n] failures in a row. *)
Definition backoff (cfg : GcSchedulerConfig) (interval : N) (n : N) : N :=
  N.min (gs_max_interval cfg) (interval * N.max (gs_error_backoff_factor cfg) 1 ^ (n + 1 - gs_max_consecutive_errors cfg)).

Lemma backoff_failures cfg rs l interval n :
  gs_max_interval cfg <= DURATION_MAX → interval <= gs_max_interval cfg → 0 < gs_max_consecutive_errors cfg →
  Forall (λ r, tick_failed r = true) rs → n + N.of_nat (length rs) <= u32_max →
  gl_consecutive_errors l = n → gl_interval l = backoff cfg interval n →
  let l' := foldl (loop_tick cfg) l rs in
  gl_consecutive_errors l' = n + N.of_nat (length rs) ∧ gl_interval l' = backoff cfg interval (n + N.of_nat (length rs)).
Proof.
  intros Hmax Hi Hm Hrs. revert l n. induction Hrs as [|r rs Hr Hrs IH]; intros l n Hn He Hl; cbn [foldl length] in *; [by rewrite N.add_0_r|].
  assert (gl_consecutive_errors (loop_tick cfg l r) = n + 1) as He' by (rewrite loop_tick_errors, Hr; lia).
  replace (n + N.of_nat (S (length rs))) with (n + 1 + N.of_nat (length rs)) in * by lia. apply IH; [done|done|].
  rewrite loop_tick_interval; [|done|rewrite Hl; unfold backoff; lia]. rewrite He', Hl. unfold backoff. set (f := N.max _ 1). set (m := gs_max_consecutive_errors cfg) in *.
  rewrite (proj2 (N.ltb_lt _ _) Hm), andb_true_r. destruct (N.leb_spec m (n + 1)) as [Hle|Hlt].
  - replace (n + 1 + 1 - m) with (N.succ (n + 1 - m)) by lia. rewrite N.pow_succ_r'. set (k := interval * f ^ (n + 1 - m)).
    replace (interval * (f * f ^ (n + 1 - m))) with (k * f) by (unfold k; ring). assert (1 <= f) by (unfold f; lia). clearbody k f. nia.
  - replace (n + 1 - m) with 0 by lia. replace (n + 1 + 1 - m) with 0 by lia. done.
Qed.

(** The interval of the scheduler. While the sweeps since the start all fail, the interval
    keeps its value until the configured number of failures is reached and is then
    multiplied by the factor at each one, up to the largest interval; a sweep that
    succeeds clears the count of failures, and the interval keeps its value. *)
Theorem scheduler_backoff cfg h first l rs ok :
  gc_start cfg h first = Ok l → gs_interval cfg <= gs_max_interval cfg → gs_max_interval cfg <= DURATION_MAX → 0 < gs_max_consecutive_errors cfg →
  Forall (λ r, tick_failed r = true) rs → N.of_nat (length rs) <= u32_max → tick_failed ok = false →
  let l1 := foldl (loop_tick cfg) l rs in
  let l2 := loop_tick cfg l1 ok in
  gl_interval l1 = backoff cfg (gs_interval cfg) (N.of_nat (length rs)) ∧ gl_consecutive_errors l1 = N.of_nat (length rs) ∧
  gl_interval l2 = gl_interval l1 ∧ gl_consecutive_errors l2 = 0.
Proof.
  unfold gc_start. destruct (_ && _); [done|]. intros [= <-] Hi Hmax Hm Hrs Hlen Hok. set (l := mkGcLoop _ _ _). set (l1 := foldl _ l rs).
  destruct (backoff_failures cfg rs l (gs_interval cfg) 0) as [He Hl]; try done.
  { unfold backoff. replace (0 + 1 - gs_max_consecutive_errors cfg) with 0 by lia. rewrite N.pow_0_r, N.mul_1_r. cbn. lia. }
  fold l1 in He, Hl. rewrite N.add_0_l in *. cbv zeta. rewrite loop_tick_errors, Hok. split_and!; [done|done| |done].
  rewrite loop_tick_interval; [|done|rewrite Hl; unfold backoff; lia]. rewrite loop_tick_errors, Hok. by rewrite (proj2 (N.leb_gt _ _) Hm).
Qed.

(** The history holds the newest reports, at most [cap] of them. *)
Lemma history_record_suffix r h l : gh_reports h = drop (length l - gh_cap h) l → gh_reports (history_record r h) = drop (length (l ++ [r]) - gh_cap h) (l ++ [r]).
Proof.
  intros Hh. unfold history_record. cbn [gh_reports]. rewrite Hh. set (n := length l). set (c := gh_cap h).
  rewrite !length_app, length_drop. cbn [length]. fold n. rewrite !drop_app, drop_drop, length_drop. fold n. f_equal; f_equal; lia.
Qed.

Lemma history_suffix h rs : (length (gh_reports h) <= gh_cap h)%nat →
  let h' := foldl (λ h r, history_record r h) h rs in
  gh_cap h' = gh_cap h ∧ gh_reports h' = drop (length (gh_reports h ++ rs) - gh_cap h) (gh_reports h ++ rs).
Proof.
  intros Hh. induction rs as [|r rs [IHc IH]] using rev_ind; [cbn; rewrite app_nil_r; by replace (_ - _)%nat with 0%nat by lia|].
  cbv zeta. rewrite foldl_app, app_assoc. cbn [foldl]. rewrite <-IHc in IH. split; [done|]. by rewrite (history_record_suffix _ _ _ IH), IHc.
Qed.

(** ** Runs *)

Definition dirs_keys (dirs : BlobDirs) : list ContentHash := (map_to_list dirs).*1.
Definition never_fails (h : ContentHash) : bool := false.
Definition hash_of (c : ascii) : ContentHash := mkContentHash (String.string_of_list_ascii (replicate 64 c)).

Lemma dirs_keys_ok dirs h : h ∈ dirs_keys dirs ↔ is_Some (dirs !! h).
Proof.
  unfold dirs_keys. rewrite list_elem_of_fmap. split.
  - intros ([k v] & -> & Hk%elem_of_map_to_list). by exists v.
  - intros [v Hv]. exists (h, v). by rewrite elem_of_map_to_list.
Qed.

Definition gc_run (w : GcWorld) (cs : list GcCmd) : GcWorld := foldl (gc_cmd dirs_keys never_fails) w cs.
Definition abc_store : BlobDirs := <[hash_of "a"%char := true]> (<[hash_of "b"%char := true]> {[hash_of "c"%char := true]}).

Lemma abc_store_ok : map_Forall (λ h _, hash_ok h) abc_store.
Proof. apply map_Forall_insert_2; [reflexivity|]. apply map_Forall_insert_2; [reflexivity|]. by apply map_Forall_singleton. Qed.

(** A chunk of two recursive roots loses its pin with the first root that is removed,
    and the next sweep deletes it. *)
Example remove_drops_shared_chunk :
  let shared := {[ch_hex (hash_of "c"%char)]} in
  let w := gc_run (mkGcWorld ∅ abc_store)
             [CmdPin (hash_of "a"%char) true shared 0; CmdPin (hash_of "b"%char) true shared 0; CmdUnpin (hash_of "a"%char); CmdSweep] in
  pin_contains_root (hash_of "b"%char) (w_pins w) = true ∧ w_dirs w !! hash_of "c"%char = None.
Proof. vm_compute. done. Qed.

(** The only chunk of a small blob is the blob: its recursive pin is recorded as the pin
    of a chunk without a root, which [pin gc] drops. *)
Example single_chunk_pin_lost :
  let w1 := gc_run (mkGcWorld ∅ abc_store) [CmdPin (hash_of "a"%char) true {[ch_hex (hash_of "a"%char)]} 0] in
  let w2 := gc_run w1 [CmdPinGc; CmdSweep] in
  pin_contains_root (hash_of "a"%char) (w_pins w1) = false ∧ pin_contains (hash_of "a"%char) (w_pins w1) = true ∧ w_dirs w2 !! hash_of "a"%char = None.
Proof. vm_compute. done. Qed.

(** Pinning a pinned root again with its chunks does not record the chunks: [pin gc] drops
    their pins. *)
Example repin_does_not_protect :
  let chunk := {[ch_hex (hash_of "c"%char)]} in
  let w1 := gc_run (mkGcWorld ∅ abc_store) [CmdPin (hash_of "a"%char) false ∅ 0; CmdPin (hash_of "a"%char) true chunk 0] in
  let w2 := gc_run w1 [CmdPinGc; CmdSweep] in
  pin_contains (hash_of "c"%char) (w_pins w1) = true ∧ w_dirs w2 !! hash_of "c"%char = None ∧ w_dirs w2 !! hash_of "a"%char = Some true.
Proof. vm_compute. done. Qed.

Lemma gc_orphans_spec_witness :
  let pins := (pin_add (hash_of "a"%char) false ∅ 0 PinSet_new).1 in
  (gc_orphans dirs_keys never_fails pins abc_store).2 = [hash_of "b"%char; hash_of "c"%char] ∧ NoDup (gc_orphans dirs_keys never_fails pins abc_store).2.
Proof.
  split; [vm_compute; reflexivity|].
  exact (proj1 (proj2 (proj2 (gc_orphans_spec dirs_keys never_fails dirs_keys_ok _ abc_store abc_store_ok)))).
Defined.

Lemma collectors_agree_witness :
  let pins := (pin_add (hash_of "a"%char) false ∅ 0 PinSet_new).1 in
  gc_unpinned dirs_keys never_fails (pinned_hex pins) abc_store = gc_orphans dirs_keys never_fails pins abc_store.
Proof. exact (collectors_agree dirs_keys never_fails dirs_keys_ok _ abc_store abc_store_ok). Defined.


Lemma scheduler_backoff_witness :
  let report := λ n, mkGcReport 0 0 0 0 0 [] n None None in
  gl_interval (foldl (loop_tick GcSchedulerConfig_default) (mkGcLoop (hours 1) 0 (history_record (report 0%nat) (GcHistory_new 64))) (replicate 6 (report 1%nat))) = hours 4.
Proof.
  intros report.
  destruct (scheduler_backoff GcSchedulerConfig_default (GcHistory_new 64) (report 0%nat) _ (replicate 6 (report 1%nat)) (report 0%nat) eq_refl) as [-> _];
    [vm_compute; discriminate|vm_compute; discriminate|vm_compute; reflexivity|repeat constructor|vm_compute; discriminate|vm_compute; reflexivity|].
  vm_compute. reflexivity.
Defined.
