(* ===== verification/EvmWallet.v ===== *)
(** * Wallets ([crates/a3net-identity/src/address.rs, signing.rs, wallet.rs])

    Keccak-256 and the curve are interfaces: [Keccak] and [Secp256k1] with the laws of
    their crates. A public key is its 65-byte uncompressed form. The wiping of secrets
    and the texts of the errors of the crates are left out.

    The theorems show that the checksummed text of an address reads back to it, and that
    the address recovered from a personal signature, sent in its compact form, is the
    one of the wallet that signed. *)
From stdpp Require Import prelude strings list.
From Stdlib Require Import NArith Lia Ascii.
From S2P Require Import Prelude NodeId.

#[local] Open Scope N_scope.

Class Keccak : Type := { keccak256 : list N → list N }.
Class KeccakLaws (K : Keccak) : Prop := {
  keccak_length bs : length (keccak256 bs) = 32%nat;
  keccak_bytes bs : bytes_ok (keccak256 bs)
}.

(** [public_key]: of a secret in range; [sign_recoverable]: the recovery number and the 64 bytes;
    [recover_ecdsa]: the key that signed. *)
Class Secp256k1 : Type := {
  public_key : list N → option (list N);
  sign_recoverable : list N → list N → N * list N;
  recover_ecdsa : list N → N → list N → option (list N)
}.
Class Secp256k1Laws (S : Secp256k1) : Prop := {
  sign_compact_length hash sk pk : public_key sk = Some pk → length (sign_recoverable hash sk).2 = 64%nat;
  recover_sign hash sk pk : public_key sk = Some pk →
    recover_ecdsa hash (sign_recoverable hash sk).1 (sign_recoverable hash sk).2 = Some pk
}.

Definition EVM_ADDRESS_LEN : nat := 20.

Inductive IdentityError : Type :=
  | InvalidSecretKey | InvalidPublicKey | IdInvalidSignature (why : string) | InvalidAddressLength (n : nat) | HexError.

(** The bytes of the address. *)
Record Address : Type := mkAddress { addr_bytes : list N }.
#[global] Instance Address_eq_dec : EqDecision Address.
Proof. solve_decision. Defined.

Definition address_ok (a : Address) : Prop := length (addr_bytes a) = EVM_ADDRESS_LEN ∧ bytes_ok (addr_bytes a).

Definition Address_from_slice (bytes : list N) : result IdentityError Address :=
  if Nat.eqb (length bytes) EVM_ADDRESS_LEN then Ok (mkAddress bytes) else Err (InvalidAddressLength (length bytes)).

Definition Address_to_hex `{Hex} (a : Address) : string := "0x" +:+ hex_encode (addr_bytes a).

Definition strip_0x (s : string) : string :=
  match str_strip_prefix "0x" s with
  | Some rest => rest
  | None => default s (str_strip_prefix "0X" s)
  end.

Definition Address_from_hex `{Hex} (s : string) : result IdentityError Address :=
  match hex_decode (strip_0x s) with None => Err HexError | Some bytes => Address_from_slice bytes end.

Definition is_ascii_alphabetic (c : ascii) : bool := let n := N_of_ascii c in ((65 <=? n) && (n <=? 90)) || ((97 <=? n) && (n <=? 122)).
Definition to_ascii_uppercase (c : ascii) : ascii := let n := N_of_ascii c in if (97 <=? n) && (n <=? 122) then ascii_of_N (n - 32) else c.

(** The nibble of the hash that decides the case of the character at [i]. *)
Definition checksum_nibble (hash : list N) (i : nat) : N :=
  N.land (N.shiftr (nth (i / 2) hash 0) (if Nat.even i then 4 else 0)) 15.

Fixpoint checksum_chars (hash : list N) (i : nat) (s : string) : string :=
  match s with
  | EmptyString => EmptyString
  | String ch s =>
      String (if is_ascii_alphabetic ch && (8 <=? checksum_nibble hash i) then to_ascii_uppercase ch else ch) (checksum_chars hash (S i) s)
  end.

Definition Address_to_checksum `{Hex, Keccak} (a : Address) : string :=
  let hex_lower := hex_encode (addr_bytes a) in
  "0x" +:+ checksum_chars (keccak256 (str_bytes hex_lower)) 0 hex_lower.

(** ** Signatures *)

Definition EIP191_PREFIX : list N := 25 :: str_bytes "Ethereum Signed Message:" ++ [10].
Definition PERSONAL_SIGN_VERSION : N := 27.

Record PersonalSignature : Type := mkPersonalSignature { ps_r : list N; ps_s : list N; ps_v : N }.

Definition to_compact (sig : PersonalSignature) : list N := ps_r sig ++ ps_s sig ++ [ps_v sig].

Definition from_compact (bytes : list N) : result IdentityError PersonalSignature :=
  if negb (Nat.eqb (length bytes) 65) then Err (IdInvalidSignature ("expected 65 bytes, got " +:+ show_N (N.of_nat (length bytes))))
  else
    let v := nth 64 bytes 0 in
    if negb (v =? 27) && negb (v =? 28) then Err (IdInvalidSignature ("v must be 27 or 28, got " +:+ show_N v))
    else Ok (mkPersonalSignature (take 32 bytes) (take 32 (drop 32 bytes)) v).

(** The bytes that are hashed and signed. *)
Definition personal_message (digest : list N) : list N := EIP191_PREFIX ++ str_bytes "32" ++ digest.

Definition derive_address `{Keccak} (pubkey : list N) : Address := mkAddress (drop 12 (keccak256 (drop 1 pubkey))).

Record WalletPublic : Type := mkWalletPublic { wp_pubkey : list N; wp_address : Address }.
Record Wallet : Type := mkWallet { wa_secret : list N; wa_public : WalletPublic }.

Definition Wallet_from_bytes `{Keccak, Secp256k1} (bytes : list N) : result IdentityError Wallet :=
  if negb (Nat.eqb (length bytes) 32) then Err InvalidSecretKey
  else match public_key bytes with
       | None => Err InvalidSecretKey
       | Some pubkey => Ok (mkWallet bytes (mkWalletPublic pubkey (derive_address pubkey)))
       end.

Definition sign_personal `{Keccak, Secp256k1} (w : Wallet) (digest : list N) : PersonalSignature :=
  let '(recovery_id, compact) := sign_recoverable (keccak256 (personal_message digest)) (wa_secret w) in
  mkPersonalSignature (take 32 compact) (drop 32 compact) ((PERSONAL_SIGN_VERSION + recovery_id) mod 256).

Definition recover_personal `{Keccak, Secp256k1} (digest : list N) (sig : PersonalSignature) : result IdentityError WalletPublic :=
  let hash := keccak256 (personal_message digest) in
  let raw_id := if ps_v sig =? 27 then Some 0 else if ps_v sig =? 28 then Some 1 else None in
  match raw_id with
  | None => Err (IdInvalidSignature ("v must be 27 or 28, got " +:+ show_N (ps_v sig)))
  | Some raw_id =>
      match recover_ecdsa hash raw_id (ps_r sig ++ ps_s sig) with
      | None => Err (IdInvalidSignature "recover")
      | Some pubkey => Ok (mkWalletPublic pubkey (derive_address pubkey))
      end
  end.

(** ** Texts of addresses *)

Lemma upper_lower_hex c : is_lower_hex c = true → is_hexdigit (to_ascii_uppercase c) = true ∧ ascii_lower (to_ascii_uppercase c) = c.
Proof.
  intros Hc. pose proof (ascii_check (λ c, implb (is_lower_hex c) (is_hexdigit (to_ascii_uppercase c) && Ascii.eqb (ascii_lower (to_ascii_uppercase c)) c)) eq_refl c) as Hall.
  cbn beta in Hall. rewrite Hc in Hall. apply andb_true_iff in Hall as [H1 H2%Ascii.eqb_eq]. done.
Qed.

Lemma checksum_chars_spec hash i s : str_forallb is_lower_hex s = true →
  str_forallb is_hexdigit (checksum_chars hash i s) = true ∧ str_lower (checksum_chars hash i s) = s ∧
  String.length (checksum_chars hash i s) = String.length s.
Proof.
  revert i. induction s as [|c s IH]; intros i; [done|]. cbn [str_forallb]. intros [Hc Hs]%andb_true_iff.
  destruct (IH (S i) Hs) as (H1 & H2 & H3). destruct (upper_lower_hex c Hc) as [Hu Hl]. destruct (lower_hex_hexdigit c Hc) as [Hd Hi].
  cbn [checksum_chars str_forallb String.length str_lower]. destruct (is_ascii_alphabetic c && _); rewrite ?Hu, ?Hd, ?Hl, ?Hi, H1, H2, H3; done.
Qed.

Lemma strip_0x_prefix s : strip_0x ("0x" +:+ s) = s.
Proof. reflexivity. Qed.

Section WalletLemmas.
Context `{HL : HexLaws} `{KL : KeccakLaws} `{SL : Secp256k1Laws}.

Lemma hex_case_insensitive bs s :
  bytes_ok bs → str_forallb is_hexdigit s = true → str_lower s = hex_encode bs → String.length s = String.length (hex_encode bs) → hex_decode s = Some bs.
Proof.
  intros Hbs Hs Hl Hlen. destruct (hex_decode_hexdigits s Hs) as (bs' & Hd & He).
  { rewrite Hlen, hex_encode_length. apply Nat.even_spec. by exists (length bs). }
  rewrite Hl in He. assert (bytes_ok bs') as Hbs' by (by eapply hex_decode_bytes).
  pose proof (hex_decode_encode bs' Hbs') as H1. rewrite He, (hex_decode_encode bs Hbs) in H1. congruence.
Qed.

(** The text of an address reads back: both the plain and the checksummed text of an
    address parse to it, and two addresses with the same checksummed text are equal. *)
Theorem address_text_roundtrip a :
  address_ok a → Address_from_hex (Address_to_checksum a) = Ok a ∧ Address_from_hex (Address_to_hex a) = Ok a.
Proof.
  destruct a as [bs]. intros [Hlen Hbs]. cbn in Hlen, Hbs. unfold Address_from_hex, Address_to_checksum, Address_to_hex. cbv zeta. rewrite !strip_0x_prefix. cbn [addr_bytes].
  assert (Address_from_slice bs = Ok (mkAddress bs)) as Hok by (unfold Address_from_slice; by rewrite Hlen).
  split; [|by rewrite hex_decode_encode].
  destruct (checksum_chars_spec (keccak256 (str_bytes (hex_encode bs))) 0 (hex_encode bs) (hex_encode_lower bs Hbs)) as (H1 & H2 & H3).
  by rewrite (hex_case_insensitive bs).
Qed.

Lemma derive_address_ok pk : address_ok (derive_address pk).
Proof.
  split; cbn [addr_bytes derive_address]; [by rewrite length_drop, keccak_length|]. apply Forall_drop, keccak_bytes.
Qed.

Lemma from_to_compact sig :
  length (ps_r sig) = 32%nat → length (ps_s sig) = 32%nat → ps_v sig = 27 ∨ ps_v sig = 28 → from_compact (to_compact sig) = Ok sig.
Proof.
  destruct sig as [r s v]. cbn [ps_r ps_s ps_v to_compact]. intros Hr Hs Hv. unfold from_compact, to_compact. cbn [ps_r ps_s ps_v].
  rewrite !length_app, Hr, Hs. cbn [length Nat.add Nat.eqb negb]. rewrite app_assoc, app_nth2 by (rewrite length_app; lia).
  rewrite length_app, Hr, Hs. cbn [Nat.add Nat.sub nth].
  rewrite <-app_assoc, take_app_length', drop_app_length', take_app_length' by done. by destruct Hv as [->| ->].
Qed.

(** Personal signatures: what a wallet signs recovers, after its compact form, to the
    address of the wallet, which is a proper address, whenever the recovery number of the
    signature is 0 or 1. *)
Theorem personal_sign_roundtrip bytes w digest :
  Wallet_from_bytes bytes = Ok w → (sign_recoverable (keccak256 (personal_message digest)) bytes).1 <= 1 →
  let sig := sign_personal w digest in
  from_compact (to_compact sig) = Ok sig ∧ recover_personal digest sig = Ok (wa_public w) ∧ address_ok (wp_address (wa_public w)).
Proof.
  unfold Wallet_from_bytes. destruct (negb _); [done|]. destruct (public_key bytes) as [pk|] eqn:Hpk; [|done]. intros [= <-] Hid. unfold sign_personal. cbn [wa_secret wa_public wp_address].
  pose proof (sign_compact_length (keccak256 (personal_message digest)) bytes pk Hpk) as Hlen. pose proof (recover_sign (keccak256 (personal_message digest)) bytes pk Hpk) as Hrec.
  destruct (sign_recoverable _ bytes) as [id compact]. cbn [fst snd] in *.
  assert ((PERSONAL_SIGN_VERSION + id) mod 256 = 27 + id) as -> by (unfold PERSONAL_SIGN_VERSION; apply N.mod_small; lia).
  split_and!; [|unfold recover_personal; cbn [ps_r ps_s ps_v]; rewrite take_drop|apply derive_address_ok].
  - apply from_to_compact; cbn [ps_r ps_s ps_v]; [by rewrite length_take, Hlen|by rewrite length_drop, Hlen|lia].
  - assert (id = 0 ∨ id = 1) as [->| ->] by lia; cbv zeta; [change (27 + 0 =? 27) with true|change (27 + 1 =? 27) with false; change (27 + 1 =? 28) with true]; cbv iota; by rewrite Hrec.
Qed.

(** A wallet and what the curve gives for the digest: a recovery number of 0 or 1, and bytes. *)
Definition signs (w : Wallet) (digest : list N) : Prop :=
  Wallet_from_bytes (wa_secret w) = Ok w ∧
  (sign_recoverable (keccak256 (personal_message digest)) (wa_secret w)).1 <= 1 ∧
  bytes_ok (sign_recoverable (keccak256 (personal_message digest)) (wa_secret w)).2.

Lemma signs_spec w digest : signs w digest →
  let sig := sign_personal w digest in
  recover_personal digest sig = Ok (wa_public w) ∧ from_compact (to_compact sig) = Ok sig ∧ bytes_ok (to_compact sig) ∧ address_ok (wp_address (wa_public w)).
Proof.
  intros (Hw & Hid & Hb). destruct (personal_sign_roundtrip _ _ digest Hw Hid) as (H1 & H2 & H3). split_and!; [done..| |done].
  unfold sign_personal, to_compact. destruct (sign_recoverable _ _) as [id compact]. cbn [ps_r ps_s ps_v fst snd] in *.
  apply Forall_app. split; [by apply Forall_take|]. apply Forall_app. split; [by apply Forall_drop|]. repeat constructor. by apply N.mod_lt.
Qed.
End WalletLemmas.

(** ** Instances *)

(** A hash and a toy curve with the laws: a key is its secret, and a signature the secret twice. *)
#[local] Instance toy_keccak : Keccak := {| keccak256 bs := take 32 ((λ b, b mod 256) <$> bs ++ replicate 32 0) |}.
#[local] Instance toy_keccak_laws : KeccakLaws toy_keccak.
Proof.
  split; intros bs; cbn [keccak256 toy_keccak].
  - rewrite length_take, length_fmap, length_app, length_replicate. lia.
  - apply Forall_take, Forall_fmap, Forall_true. intros b. by apply N.mod_lt.
Qed.

#[local] Instance toy_secp : Secp256k1 := {|
  public_key sk := if Nat.eqb (length sk) 32 then Some (4 :: sk ++ sk) else None;
  sign_recoverable hash sk := (0, sk ++ sk);
  recover_ecdsa hash id compact := Some (4 :: compact)
|}.
#[local] Instance toy_secp_laws : Secp256k1Laws toy_secp.
Proof.
  split; intros hash sk pk; cbn [public_key sign_recoverable recover_ecdsa toy_secp fst snd];
    (destruct (Nat.eqb_spec (length sk) 32) as [Hl|]; [intros [= <-]|done]).
  - by rewrite length_app, Hl.
  - done.
Qed.

Lemma address_text_roundtrip_witness :
  Address_from_hex (Address_to_checksum (mkAddress (replicate 20 171))) = Ok (mkAddress (replicate 20 171)).
Proof. refine (proj1 (address_text_roundtrip (mkAddress (replicate 20 171)) _)). split; [reflexivity|]. by repeat constructor. Defined.

Lemma personal_sign_roundtrip_witness :
  ∃ w, Wallet_from_bytes (replicate 32 7) = Ok w ∧ recover_personal [1; 2; 3] (sign_personal w [1; 2; 3]) = Ok (wa_public w).
Proof.
  eexists. split; [reflexivity|].
  refine (proj1 (proj2 (personal_sign_roundtrip (replicate 32 7) _ [1; 2; 3] _ _))); [reflexivity|vm_compute; discriminate].
Defined.
