(* ===== verification/MailStore.v ===== *)
(** * Mailbox storage ([crates/a3net-mailbox/src/storage.rs, sqlite_store.rs, error.rs])

    [MailboxStore] is the trait: the operations of a backend on its state. The memory
    backend is the map of the buckets, the SQLite backend the table of the envelopes in
    the order of their keys, with the queries written out; instants are nanoseconds (the
    RFC 3339 texts of the table order as the instants). A failing database is the
    argument [io] of an operation.

    [InboxLaws] says what both backends promise of the inbox of a recipient, and
    [SequenceLaws] adds what clients with a watermark need: a new envelope has a
    sequence above all stored ones. The SQLite backend discharges both; the memory
    backend only the first ([memory_reuses_sequences]), and it agrees with the other
    one as long as nothing is removed ([backends_agree]). *)
From stdpp Require Import prelude strings gmap list sorting.
From Stdlib Require Import NArith ZArith Lia.
From S2P Require Import Prelude.

#[local] Open Scope N_scope.

(** ** Errors *)

Inductive MailboxErrorClass : Type := Permanent | Transient | SecurityClass | InternalClass.

Definition class_is_retryable (c : MailboxErrorClass) : bool := match c with Transient | InternalClass => true | _ => false end.

Inductive MailboxError : Type :=
  | InvalidRecipientId (s : string)
  | EnvelopeTooLarge (size max : N)
  | QuotaExceeded (s : string)
  | MbInvalidSignature
  | InvalidRecipientSignature
  | InvalidMessageId (s : string)
  | InvalidTimestamp
  | StaleSignature (age_secs max_age_secs : Z)
  | MbDuplicate (msg_id : string)
  | MbNotFound (s : string)
  | MbStorage (s : string)
  | MbRemote (status : N) (body : string)
  | MbTransport (s : string)
  | MbConfig (s : string)
  | MbInternal (s : string).

Definition error_class (e : MailboxError) : MailboxErrorClass :=
  match e with
  | InvalidRecipientId _ | EnvelopeTooLarge _ _ | InvalidMessageId _ | MbConfig _ => Permanent
  | MbInvalidSignature | InvalidRecipientSignature | QuotaExceeded _ | StaleSignature _ _ => SecurityClass
  | InvalidTimestamp => Permanent
  | MbTransport _ => Transient
  | MbRemote status _ => if (500 <=? status) && (status <? 600) then Transient else InternalClass
  | MbNotFound _ | MbDuplicate _ => Transient
  | MbStorage _ | MbInternal _ => InternalClass
  end.

Definition mb_is_retryable (e : MailboxError) : bool := class_is_retryable (error_class e).

(** ** Envelopes *)

Record StoredEnvelope : Type := mkStoredEnvelope {
  se_sender_id : string; se_recipient_id : string; se_msg_id : string; se_ciphertext : list N; se_sender_signature : list N;
  se_sequence : N; se_queued_at : Z; se_expires_at : Z
}.
#[global] Instance StoredEnvelope_eq_dec : EqDecision StoredEnvelope.
Proof. solve_decision. Defined.

Definition wire_size (e : StoredEnvelope) : N :=
  42 + 42 + 72 + 8 + 16 + N.of_nat (length (se_ciphertext e)) + N.of_nat (length (se_sender_signature e)).

Definition set_sequence (n : N) (e : StoredEnvelope) : StoredEnvelope :=
  mkStoredEnvelope (se_sender_id e) (se_recipient_id e) (se_msg_id e) (se_ciphertext e) (se_sender_signature e) n (se_queued_at e) (se_expires_at e).

Record EnqueueOutcome : Type := mkEnqueueOutcome { eo_msg_id : string; eo_sequence : N; eo_queued_at : Z; eo_expires_at : Z; eo_duplicate : bool }.

Record QuotaUsage : Type := mkQuotaUsage { qu_message_count : nat; qu_total_bytes : N; qu_high_watermark : N }.

Definition outcome_of (e : StoredEnvelope) (duplicate : bool) : EnqueueOutcome :=
  mkEnqueueOutcome (se_msg_id e) (se_sequence e) (se_queued_at e) (se_expires_at e) duplicate.

(** The key of a message of an inbox. *)
Definition same_message (env e : StoredEnvelope) : bool := String.eqb (se_msg_id e) (se_msg_id env) && String.eqb (se_sender_id e) (se_sender_id env).

Class MailboxStore (S : Type) : Type := {
  ms_enqueue : option string → StoredEnvelope → S → S * result MailboxError EnqueueOutcome;
  ms_pull : option string → string → N → nat → S → result MailboxError (list StoredEnvelope);
  ms_ack : option string → string → list string → S → S * result MailboxError nat;
  ms_purge_expired : option string → Z → S → S * result MailboxError N;
  ms_quota_usage : option string → Z → string → S → result MailboxError QuotaUsage
}.

(** ** The memory backend *)

Notation MemoryStore := (gmap string (list StoredEnvelope)).

Definition mem_bucket (recipient : string) (s : MemoryStore) : list StoredEnvelope := default [] (s !! recipient).

Definition MemoryStore_enqueue (env : StoredEnvelope) (s : MemoryStore) : MemoryStore * result MailboxError EnqueueOutcome :=
  let b := mem_bucket (se_recipient_id env) s in
  match List.find (same_message env) b with
  | Some existing => (<[se_recipient_id env := b]> s, Ok (outcome_of existing true))
  | None =>
      let sequence := N.of_nat (length b) + 1 in
      (<[se_recipient_id env := b ++ [set_sequence sequence env]]> s, Ok (outcome_of (set_sequence sequence env) false))
  end.

Definition MemoryStore_pull (recipient : string) (since : N) (limit : nat) (s : MemoryStore) : list StoredEnvelope :=
  take (Nat.max limit 1) (filter (λ e, since < se_sequence e) (mem_bucket recipient s)).

Definition MemoryStore_ack (recipient : string) (msg_ids : list string) (s : MemoryStore) : MemoryStore * nat :=
  match s !! recipient with
  | None => (s, 0%nat)
  | Some b =>
      let b' := filter (λ e, se_msg_id e ∉ msg_ids) b in
      (<[recipient := b']> s, (length b - length b')%nat)
  end.

Definition unexpired (now : Z) (b : list StoredEnvelope) : list StoredEnvelope := filter (λ e, (now < se_expires_at e)%Z) b.

Definition MemoryStore_purge_expired (now : Z) (s : MemoryStore) : MemoryStore * N :=
  (unexpired now <$> s, N.of_nat (sum_list_with (λ b, length b - length (unexpired now b))%nat ((map_to_list s).*2))).

Definition max_sequence (b : list StoredEnvelope) : N := foldr (λ e m, N.max (se_sequence e) m) 0 b.
Definition sum_sizes (size : StoredEnvelope → N) (b : list StoredEnvelope) : N := foldr (λ e m, size e + m) 0 b.

Definition MemoryStore_quota_usage (recipient : string) (s : MemoryStore) : QuotaUsage :=
  let b := mem_bucket recipient s in mkQuotaUsage (length b) (sum_sizes wire_size b) (max_sequence b).

#[global] Instance MemoryStore_store : MailboxStore MemoryStore := {|
  ms_enqueue _ := MemoryStore_enqueue;
  ms_pull _ recipient since limit s := Ok (MemoryStore_pull recipient since limit s);
  ms_ack _ recipient ids s := let '(s, n) := MemoryStore_ack recipient ids s in (s, Ok n);
  ms_purge_expired _ now s := let '(s, n) := MemoryStore_purge_expired now s in (s, Ok n);
  ms_quota_usage _ _ recipient s := Ok (MemoryStore_quota_usage recipient s)
|}.

(** ** The SQLite backend *)

(** The table, in the order of its primary key. *)
Notation SqliteStore := (list StoredEnvelope).

(** [x as i64]. *)
Definition as_i64 (n : N) : Z := if n <? 2 ^ 63 then Z.of_N n else (Z.of_N n - 2 ^ 64)%Z.

(** [WHERE recipient_id = ?]. *)
Definition rows_of (recipient : string) (rows : SqliteStore) : list StoredEnvelope := filter (λ e, se_recipient_id e = recipient) rows.

(** [SELECT MAX(sequence)] of no rows is [NULL], which the code reads as [None]. *)
Definition sql_max_sequence (rows : list StoredEnvelope) : option N := match rows with [] => None | _ => Some (max_sequence rows) end.

Definition sql_enqueue (env : StoredEnvelope) (rows : SqliteStore) : SqliteStore * EnqueueOutcome :=
  match List.find (same_message env) (rows_of (se_recipient_id env) rows) with
  | Some existing => (rows, outcome_of existing true)
  | None =>
      let seq := default 0 (sql_max_sequence (rows_of (se_recipient_id env) rows)) + 1 in
      (rows ++ [set_sequence seq env], outcome_of (set_sequence seq env) false)
  end.

Definition sql_leb (a b : StoredEnvelope) : bool := se_sequence a <=? se_sequence b.

Definition sql_pull (recipient : string) (since : N) (limit : nat) (rows : SqliteStore) : list StoredEnvelope :=
  take limit (sort_by sql_leb (filter (λ e, (as_i64 since < Z.of_N (se_sequence e))%Z) (rows_of recipient rows))).

Definition sql_ack (recipient : string) (msg_ids : list string) (rows : SqliteStore) : SqliteStore * nat :=
  match msg_ids with
  | [] => (rows, 0%nat)
  | _ =>
      let rows' := filter (λ e, ¬ (se_recipient_id e = recipient ∧ se_msg_id e ∈ msg_ids)) rows in
      (rows', (length rows - length rows')%nat)
  end.

Definition sql_purge_expired (now : Z) (rows : SqliteStore) : SqliteStore * N :=
  let rows' := filter (λ e, ¬ (se_expires_at e <= now)%Z) rows in (rows', N.of_nat (length rows - length rows')).

(** The size of a row in the query of the quota. *)
Definition sql_row_size (e : StoredEnvelope) : N := N.of_nat (length (se_ciphertext e)) + N.of_nat (length (se_sender_signature e)) + 236.

Definition sql_quota_usage (now : Z) (recipient : string) (rows : SqliteStore) : QuotaUsage :=
  let live := unexpired now (rows_of recipient rows) in
  mkQuotaUsage (length live) (sum_sizes sql_row_size live) (default 0 (sql_max_sequence (rows_of recipient rows))).

(** A write that fails is rolled back; the queries of the quota read 0 when they fail. *)
Definition sql_write {A} (io : option string) (f : SqliteStore → SqliteStore * A) (rows : SqliteStore) : SqliteStore * result MailboxError A :=
  match io with Some e => (rows, Err (MbStorage e)) | None => let '(rows, a) := f rows in (rows, Ok a) end.

#[global] Instance SqliteStore_store : MailboxStore SqliteStore := {|
  ms_enqueue io env := sql_write io (sql_enqueue env);
  ms_pull io recipient since limit rows := match io with Some e => Err (MbStorage e) | None => Ok (sql_pull recipient since limit rows) end;
  ms_ack io recipient ids := sql_write io (sql_ack recipient ids);
  ms_purge_expired io now := sql_write io (sql_purge_expired now);
  ms_quota_usage io now recipient rows := Ok (match io with Some _ => mkQuotaUsage 0 0 0 | None => sql_quota_usage now recipient rows end)
|}.

(** ** What a backend promises *)

Class InboxLaws {S} (M : MailboxStore S) : Type := {
  inbox : S → string → list StoredEnvelope;
  store_ok : S → Prop;
  (** A new message is added at the end of the inbox, with a sequence the backend
      chooses; a message that is there is not added again. *)
  enqueue_law s env : store_ok s →
    match List.find (same_message env) (inbox s (se_recipient_id env)) with
    | Some e => ∃ s', ms_enqueue None env s = (s', Ok (outcome_of e true)) ∧ store_ok s' ∧ ∀ r, inbox s' r = inbox s r
    | None => ∃ s' n, ms_enqueue None env s = (s', Ok (outcome_of (set_sequence n env) false)) ∧ store_ok s' ∧ 0 < n ∧
        ∀ r, inbox s' r = if decide (r = se_recipient_id env) then inbox s r ++ [set_sequence n env] else inbox s r
    end;
  pull_law s r since limit : store_ok s → since < 2 ^ 63 → (0 < limit)%nat →
    ms_pull None r since limit s = Ok (take limit (filter (λ e, since < se_sequence e) (inbox s r)));
  ack_law s r ids : store_ok s →
    ∃ s', ms_ack None r ids s = (s', Ok (length (filter (λ e, se_msg_id e ∈ ids) (inbox s r)))) ∧ store_ok s' ∧
      ∀ r', inbox s' r' = if decide (r' = r) then filter (λ e, se_msg_id e ∉ ids) (inbox s r) else inbox s r';
  purge_law s now : store_ok s →
    ∃ s' n, ms_purge_expired None now s = (s', Ok n) ∧ store_ok s' ∧ ∀ r, inbox s' r = unexpired now (inbox s r);
  failing_law s io : store_ok s →
    (∀ env, ms_enqueue io env s = ms_enqueue None env s ∨ ∃ err, ms_enqueue io env s = (s, Err err)) ∧
    (∀ r ids, ms_ack io r ids s = ms_ack None r ids s ∨ ∃ err, ms_ack io r ids s = (s, Err err)) ∧
    (∀ now, ms_purge_expired io now s = ms_purge_expired None now s ∨ ∃ err, ms_purge_expired io now s = (s, Err err));
  inbox_recipient s r e : store_ok s → e ∈ inbox s r → se_recipient_id e = r;
  inbox_keys s r : store_ok s → NoDup ((λ e, (se_sender_id e, se_msg_id e)) <$> inbox s r)
}.

Definition seq_lt (a b : StoredEnvelope) : Prop := se_sequence a < se_sequence b.

(** The sequences of an inbox ascend, and a new envelope is above them. *)
Class SequenceLaws {S} (M : MailboxStore S) {L : InboxLaws M} : Prop := {
  inbox_sorted s r : store_ok s → StronglySorted seq_lt (inbox s r)
}.

(** The reported usage is at least that of the messages that have not expired. *)
Class QuotaLaws {S} (M : MailboxStore S) {L : InboxLaws M} : Prop := {
  quota_law s now r : store_ok s →
    ∃ u, ms_quota_usage None now r s = Ok u ∧ (length (unexpired now (inbox s r)) <= qu_message_count u)%nat ∧
      sum_sizes wire_size (unexpired now (inbox s r)) <= qu_total_bytes u
}.

(** ** Lemmas *)

Lemma sum_sizes_mono (f g : StoredEnvelope → N) b : (∀ e, f e <= g e) → sum_sizes f b <= sum_sizes g b.
Proof. intros Hfg. induction b as [|e b IH]; [done|]. cbn [sum_sizes foldr]. fold (sum_sizes f b) (sum_sizes g b). specialize (Hfg e). lia. Qed.

Lemma sum_sizes_filter f (P : StoredEnvelope → Prop) `{∀ x, Decision (P x)} b : sum_sizes f (filter P b) <= sum_sizes f b.
Proof.
  induction b as [|e b IH]; [done|]. rewrite filter_cons. destruct (decide (P e)); cbn [sum_sizes foldr]; fold (sum_sizes f b) (sum_sizes f (filter P b)); lia.
Qed.

Lemma sum_sizes_cons f e b : sum_sizes f (e :: b) = f e + sum_sizes f b.
Proof. done. Qed.

Lemma sum_sizes_snoc f b e : sum_sizes f (b ++ [e]) = sum_sizes f b + f e.
Proof. induction b as [|x b IH]; cbn [app sum_sizes foldr]; [lia|]. fold (sum_sizes f (b ++ [e])) (sum_sizes f b). lia. Qed.

Lemma max_sequence_ge b e : e ∈ b → se_sequence e <= max_sequence b.
Proof. induction b as [|x b IH]; [by intros ?%elem_of_nil|]. intros [->|Hb%IH]%elem_of_cons; cbn [max_sequence foldr] in *; fold (max_sequence b) in *; lia. Qed.

Lemma find_none_key env b : List.find (same_message env) b = None → (se_sender_id env, se_msg_id env) ∉ ((λ e, (se_sender_id e, se_msg_id e)) <$> b).
Proof.
  intros Hf (e & He & Hb)%list_elem_of_fmap. injection He as Hs Hm. pose proof (find_none _ _ Hf e (proj1 (list_elem_of_In _ _) Hb)) as Hn.
  unfold same_message in Hn. by rewrite Hs, Hm, !String.eqb_refl in Hn.
Qed.

Lemma NoDup_keys_snoc (b : list StoredEnvelope) env n : List.find (same_message env) b = None →
  NoDup ((λ e, (se_sender_id e, se_msg_id e)) <$> b) → NoDup ((λ e, (se_sender_id e, se_msg_id e)) <$> b ++ [set_sequence n env]).
Proof.
  intros Hf%find_none_key Hb. rewrite fmap_app. apply NoDup_app. split_and!; [done| |apply NoDup_singleton].
  intros x Hx ->%list_elem_of_singleton. by apply Hf.
Qed.

(** ** The SQLite backend discharges the laws *)

Definition sql_ok (rows : SqliteStore) : Prop :=
  ∀ r, StronglySorted seq_lt (rows_of r rows) ∧ NoDup ((λ e, (se_sender_id e, se_msg_id e)) <$> rows_of r rows) ∧ Forall (λ e, 0 < se_sequence e) (rows_of r rows).

Lemma rows_of_snoc r rows e : rows_of r (rows ++ [e]) = if decide (r = se_recipient_id e) then rows_of r rows ++ [e] else rows_of r rows.
Proof.
  unfold rows_of. rewrite filter_app, filter_cons. destruct (decide (r = se_recipient_id e)) as [->|Hne]; [by rewrite decide_True|].
  rewrite decide_False by congruence. apply app_nil_r.
Qed.

Lemma sql_next_sequence r rows e : e ∈ rows_of r rows → se_sequence e < default 0 (sql_max_sequence (rows_of r rows)) + 1.
Proof.
  intros He. pose proof (max_sequence_ge _ _ He) as Hm. unfold sql_max_sequence. destruct (rows_of r rows); [by apply elem_of_nil in He|]. cbn [default from_option id]. unfold id. lia.
Qed.

Lemma sql_ok_snoc rows env n :
  sql_ok rows → List.find (same_message env) (rows_of (se_recipient_id env) rows) = None →
  (∀ e, e ∈ rows_of (se_recipient_id env) rows → se_sequence e < n) → 0 < n → sql_ok (rows ++ [set_sequence n env]).
Proof.
  intros Hok Hf Hn Hpos r. destruct (Hok r) as (Hs & Hk & Hp). rewrite rows_of_snoc. cbn [se_recipient_id set_sequence].
  destruct (decide (r = se_recipient_id env)) as [->|]; [|done]. split_and!.
  - apply StronglySorted_app. split_and!; [|done|by repeat constructor]. intros a b Ha ->%list_elem_of_singleton. by apply Hn.
  - by apply NoDup_keys_snoc.
  - apply Forall_app. split; [done|by repeat constructor].
Qed.

Lemma rows_of_filter r (P : StoredEnvelope → Prop) `{∀ x, Decision (P x)} rows : rows_of r (filter P rows) = filter P (rows_of r rows).
Proof. unfold rows_of. rewrite !list_filter_filter. apply list_filter_iff. intros e. tauto. Qed.

Lemma sql_ok_filter (P : StoredEnvelope → Prop) `{∀ x, Decision (P x)} rows : sql_ok rows → sql_ok (filter P rows).
Proof.
  intros Hok r. destruct (Hok r) as (Hs & Hk & Hp). rewrite rows_of_filter.
  split_and!; [by apply StronglySorted_filter|by apply NoDup_fmap_filter|apply Forall_forall; intros e [_ He]%list_elem_of_filter; by eapply Forall_forall in Hp].
Qed.

Lemma sql_pull_spec r since limit rows : sql_ok rows → since < 2 ^ 63 →
  sql_pull r since limit rows = take limit (filter (λ e, since < se_sequence e) (rows_of r rows)).
Proof.
  intros Hok Hsince. unfold sql_pull, as_i64. rewrite (proj2 (N.ltb_lt _ _) Hsince). f_equal.
  rewrite sort_by_id; [apply list_filter_iff; intros e; lia|]. apply StronglySorted_filter. destruct (Hok r) as (Hs & _).
  eapply StronglySorted_weaken; [|exact Hs]. unfold seq_lt, sql_leb. intros a b ?. apply N.leb_le. lia.
Qed.

Lemma sql_ack_spec r ids rows :
  let rows' := (sql_ack r ids rows).1 in
  (sql_ack r ids rows).2 = length (filter (λ e, se_msg_id e ∈ ids) (rows_of r rows)) ∧
  rows' = filter (λ e, ¬ (se_recipient_id e = r ∧ se_msg_id e ∈ ids)) rows.
Proof.
  unfold sql_ack. destruct ids as [|id ids]; cbn [fst snd].
  - split.
    + rewrite (list_filter_iff _ (λ _, False)) by (intros e; set_solver). by induction (rows_of r rows).
    + rewrite (list_filter_iff _ (λ _, True)) by (intros e; set_solver). by induction rows as [|e rows IH]; [|rewrite filter_cons, decide_True, <-IH].
  - split; [|done]. rewrite length_filter_compl. unfold rows_of. rewrite list_filter_filter. f_equal. apply list_filter_iff. intros e. tauto.
Qed.

#[global, refine] Instance SqliteStore_laws : InboxLaws SqliteStore_store := {| inbox rows r := rows_of r rows; store_ok := sql_ok |}.
Proof.
  - intros s env Hok. cbn [ms_enqueue SqliteStore_store sql_write]. unfold sql_enqueue. destruct (List.find _ _) as [e|] eqn:Hf; [by eexists|].
    set (n := default 0 _ + 1). exists (s ++ [set_sequence n env]), n. split_and!; [done| |unfold n; lia|].
    + apply sql_ok_snoc; [done|done|apply sql_next_sequence|unfold n; lia].
    + intros r. by rewrite rows_of_snoc.
  - intros s r since limit Hok Hs Hl. cbn. by rewrite sql_pull_spec.
  - intros s r ids Hok. cbn [ms_ack SqliteStore_store sql_write]. destruct (sql_ack_spec r ids s) as [Hn Hr]. destruct (sql_ack r ids s) as [s' n].
    cbn [fst snd] in Hn, Hr. subst s' n. eexists. split; [done|]. split; [by apply sql_ok_filter|]. intros r'. rewrite rows_of_filter.
    destruct (decide (r' = r)) as [->|Hne].
    + unfold rows_of. rewrite !list_filter_filter. apply list_filter_iff. intros e. tauto.
    + unfold rows_of. rewrite list_filter_filter. apply list_filter_iff. intros e. split; [tauto|]. intros ->. split; [|done]. by intros [-> _].
  - intros s now Hok. cbn. eexists _, _. split; [done|]. split; [by apply sql_ok_filter|]. intros r. rewrite rows_of_filter. apply list_filter_iff. intros e. lia.
  - intros s io _. destruct io as [e|]; cbn; split_and!; intros; first [by left|by right; eexists].
  - intros s r e _ [Hr _]%list_elem_of_filter. done.
  - intros s r Hok. apply Hok.
Defined.

#[global] Instance SqliteStore_sequences : SequenceLaws SqliteStore_store.
Proof. split. intros s r Hok. apply Hok. Qed.

#[global] Instance SqliteStore_quota : QuotaLaws SqliteStore_store.
Proof.
  split. intros s now r _. eexists. split; [done|]. cbn. split; [done|]. apply sum_sizes_mono. intros e. unfold wire_size, sql_row_size. lia.
Qed.

(** ** The memory backend discharges the first *)

Definition mem_ok (s : MemoryStore) : Prop :=
  ∀ r, NoDup ((λ e, (se_sender_id e, se_msg_id e)) <$> mem_bucket r s) ∧ Forall (λ e, se_recipient_id e = r) (mem_bucket r s).

Lemma mem_bucket_insert r r' b s : mem_bucket r' (<[r := b]> s) = if decide (r' = r) then b else mem_bucket r' s.
Proof. unfold mem_bucket. destruct (decide (r' = r)) as [->|]; [by rewrite lookup_insert_eq|by rewrite lookup_insert_ne]. Qed.

Lemma mem_ok_insert r b s :
  mem_ok s → NoDup ((λ e, (se_sender_id e, se_msg_id e)) <$> b) → Forall (λ e, se_recipient_id e = r) b → mem_ok (<[r := b]> s).
Proof. intros Hok Hk Hr r'. rewrite mem_bucket_insert. destruct (decide (r' = r)) as [->|]; [done|apply Hok]. Qed.

#[global, refine] Instance MemoryStore_laws : InboxLaws MemoryStore_store := {| inbox s r := mem_bucket r s; store_ok := mem_ok |}.
Proof.
  - intros s env Hok. cbn [ms_enqueue MemoryStore_store]. unfold MemoryStore_enqueue. destruct (Hok (se_recipient_id env)) as [Hk Hr].
    destruct (List.find _ _) as [e|] eqn:Hf.
    + eexists. split; [done|]. split; [by apply mem_ok_insert|]. intros r. rewrite mem_bucket_insert. by destruct (decide _) as [->|].
    + eexists _, _. split; [done|]. split; [|split; [lia|intros r; rewrite mem_bucket_insert; by destruct (decide _) as [->|]]].
      apply mem_ok_insert; [done|by apply NoDup_keys_snoc|]. apply Forall_app. split; [done|by repeat constructor].
  - intros s r since limit _ _ Hl. cbn. unfold MemoryStore_pull. by replace (Nat.max limit 1) with limit by lia.
  - intros s r ids Hok. cbn [ms_ack MemoryStore_store]. unfold MemoryStore_ack. destruct (Hok r) as [Hk Hr]. unfold mem_bucket in Hk, Hr |- * at 1.
    destruct (s !! r) as [b|] eqn:Hs; cbn [default from_option id] in *.
    + eexists. split; [by rewrite length_filter_compl|]. split; [by apply mem_ok_insert; [|apply NoDup_fmap_filter|apply Forall_filter_sub]|].
      intros r'. rewrite mem_bucket_insert. destruct (decide _) as [->|]; [|done]. unfold mem_bucket. by rewrite Hs.
    + exists s. split; [done|]. split; [done|]. intros r'. destruct (decide _) as [->|]; [|done]. unfold mem_bucket. by rewrite Hs.
  - intros s now Hok. cbn. eexists _, _. split; [done|].
    assert (∀ r, mem_bucket r (unexpired now <$> s) = unexpired now (mem_bucket r s)) as Hb.
    { intros r. unfold mem_bucket. rewrite lookup_fmap. by destruct (s !! r). }
    split; [|done]. intros r. rewrite Hb. destruct (Hok r) as [Hk Hr]. split; [by apply NoDup_fmap_filter|by apply Forall_filter_sub].
  - intros s io _. split_and!; intros; by left.
  - intros s r e Hok He. destruct (Hok r) as [_ Hr]. by eapply Forall_forall in Hr.
  - intros s r Hok. apply Hok.
Defined.

#[global] Instance MemoryStore_quota : QuotaLaws MemoryStore_store.
Proof. split. intros s now r _. eexists. split; [done|]. cbn. split; [apply length_filter|apply sum_sizes_filter]. Qed.

(** The outcomes of a run of [enqueue]. *)
Definition enqueue_all {S} `{MailboxStore S} (s : S) (envs : list StoredEnvelope) : S * list (result MailboxError EnqueueOutcome) :=
  foldl (λ acc env, let '(s, r) := ms_enqueue None env acc.1 in (s, acc.2 ++ [r])) (s, []) envs.

Lemma max_sequence_snoc b e : max_sequence (b ++ [e]) = N.max (max_sequence b) (se_sequence e).
Proof. induction b as [|x b IH]; cbn [app max_sequence foldr]; [lia|]. fold (max_sequence (b ++ [e])) (max_sequence b). rewrite IH. lia. Qed.

Definition stores_agree (rows : SqliteStore) (s : MemoryStore) : Prop :=
  sql_ok rows ∧ ∀ r, rows_of r rows = mem_bucket r s ∧ max_sequence (mem_bucket r s) = N.of_nat (length (mem_bucket r s)).

Lemma enqueue_agree rows s env :
  stores_agree rows s → stores_agree (ms_enqueue None env rows).1 (ms_enqueue None env s).1 ∧ (ms_enqueue None env rows).2 = (ms_enqueue None env s).2.
Proof.
  intros [Hok Hag]. cbn [ms_enqueue SqliteStore_store MemoryStore_store sql_write]. unfold sql_enqueue, MemoryStore_enqueue.
  destruct (Hag (se_recipient_id env)) as [Hb Hm]. rewrite <-Hb. destruct (List.find _ _) as [e|] eqn:Hf; cbn [fst snd].
  - split; [|done]. split; [done|]. intros r. rewrite mem_bucket_insert. destruct (decide _) as [->|]; [by rewrite Hb|apply Hag].
  - assert (default 0 (sql_max_sequence (rows_of (se_recipient_id env) rows)) = N.of_nat (length (rows_of (se_recipient_id env) rows))) as Hd.
    { rewrite Hb. unfold sql_max_sequence. destruct (mem_bucket (se_recipient_id env) s) as [|x l]; [done|]. cbn [default from_option id]. unfold id. exact Hm. }
    rewrite Hd. split; [|done]. split; [apply sql_ok_snoc; [done|done| |lia]; intros e He; rewrite <-Hd; by apply sql_next_sequence|].
    intros r. rewrite rows_of_snoc, mem_bucket_insert. cbn [se_recipient_id set_sequence]. destruct (decide (r = se_recipient_id env)) as [->|]; [|apply Hag].
    split; [done|]. rewrite max_sequence_snoc, length_app, Hb, Hm. cbn [se_sequence set_sequence length]. lia.
Qed.

Lemma enqueue_all_agree envs rows s outs : stores_agree rows s →
  let run1 := foldl (λ acc env, let '(s, r) := ms_enqueue None env acc.1 in (s, acc.2 ++ [r])) (rows, outs) envs in
  let run2 := foldl (λ acc env, let '(s, r) := ms_enqueue None env acc.1 in (s, acc.2 ++ [r])) (s, outs) envs in
  stores_agree run1.1 run2.1 ∧ run1.2 = run2.2.
Proof.
  revert rows s outs. induction envs as [|env envs IH]; intros rows s outs Hag; [done|]. cbn [foldl fst snd].
  destruct (enqueue_agree rows s env Hag) as [Hag' Ho]. destruct (ms_enqueue None env rows) as [rows' o1], (ms_enqueue None env s) as [s' o2].
  cbn [fst snd] in Hag', Ho. subst o2. by apply IH.
Qed.

(** The backends agree as long as nothing is removed: after any run of enqueued
    envelopes the memory and the SQLite backend have given the same outcomes, and
    every pull and every reported watermark is the same. *)
Theorem backends_agree envs :
  let sql := enqueue_all ([] : SqliteStore) envs in
  let mem := enqueue_all (∅ : MemoryStore) envs in
  sql.2 = mem.2 ∧
  ∀ r, (∀ since limit, since < 2 ^ 63 → (0 < limit)%nat → ms_pull None r since limit sql.1 = ms_pull None r since limit mem.1) ∧
    qu_high_watermark (sql_quota_usage 0 r sql.1) = qu_high_watermark (MemoryStore_quota_usage r mem.1).
Proof.
  assert (stores_agree [] ∅) as Hag.
  { split; [intros r; split_and!; constructor|]. intros r. unfold mem_bucket. by rewrite lookup_empty. }
  unfold enqueue_all. destruct (enqueue_all_agree envs [] ∅ [] Hag) as [[Hok Hb] Ho]. split; [done|]. intros r. destruct (Hb r) as [Hbr Hm]. split.
  - intros since limit Hs Hl. cbn [ms_pull SqliteStore_store MemoryStore_store]. rewrite sql_pull_spec by done. unfold MemoryStore_pull. rewrite Hbr.
    by replace (Nat.max limit 1) with limit by lia.
  - unfold sql_quota_usage, MemoryStore_quota_usage. cbn [qu_high_watermark]. rewrite Hbr. unfold sql_max_sequence. by destruct (mem_bucket r _).
Qed.

(** ** Runs *)

Definition ex_env (m : string) : StoredEnvelope := mkStoredEnvelope "alice" "bob" m [1] [2] 0 0 100.

(** After an acknowledgement the memory backend gives a sequence that is in use, and
    a client whose watermark is that sequence never sees the new message. *)
Example memory_reuses_sequences :
  let s := (enqueue_all (∅ : MemoryStore) [ex_env "m1"; ex_env "m2"]).1 in
  let s := (ms_ack None "bob" ["m1"]%string s).1 in
  let '(s, r) := ms_enqueue None (ex_env "m3") s in
  (se_sequence <$> inbox s "bob") = [2; 2] ∧ ms_pull None "bob" 2 10 s = Ok [].
Proof. vm_compute. done. Qed.

(** A drained inbox starts again at 1 in both backends, below the watermark of a
    client that has read further. *)
Example drained_inbox_restarts :
  let go {S} (M : MailboxStore S) (s : S) :=
    let s := (enqueue_all s [ex_env "m1"; ex_env "m2"]).1 in
    let s := (ms_ack None "bob" ["m1"; "m2"]%string s).1 in
    let '(s, r) := ms_enqueue None (ex_env "m3") s in
    ((λ o, eo_sequence o) <$> match r with Ok o => Some o | Err _ => None end, ms_pull None "bob" 2 10 s) in
  go SqliteStore_store [] = (Some 1, Ok []) ∧ go MemoryStore_store ∅ = (Some 1, Ok []).
Proof. vm_compute. done. Qed.

(** A failing database reads as an empty quota. *)
Example quota_fails_open : ms_quota_usage (Some "disk I/O error"%string) 0 "bob" [ex_env "m1"] = Ok (mkQuotaUsage 0 0 0).
Proof. reflexivity. Qed.

(** The SQLite backend counts 56 bytes more for an envelope than [wire_size]. *)
Example sqlite_counts_more e : sql_row_size e = wire_size e + 56.
Proof. unfold sql_row_size, wire_size. lia. Qed.
