(* ===== verification/Mailbox.v ===== *)
(** * The mailbox service ([crates/a3net-mailbox/src/auth.rs, policy.rs, server.rs, client.rs, config.rs])

    The requests a sender and a recipient sign, the size, quota and retention policies,
    the three handlers of the server over any backend of [MailStore], and the paging
    loop of the client. Base64 is an interface; the text of an identity error and the
    outcomes of the database are arguments, as are the two clock readings of a request
    (seconds for the signature, nanoseconds for the envelope). The build without the
    [billing] feature is modelled, which is the default; [Token] has the feature.

    The theorems show what a signature binds, what the server admits and that a refused
    request changes nothing, that the inbox of a recipient stays within the quota, and
    that an accepted message is delivered by the paging client until it is acknowledged
    or expires. *)
From stdpp Require Import prelude strings gmap list sorting.
From Stdlib Require Import NArith ZArith Lia Ascii.
From S2P Require Import Prelude NodeId ContentHash EvmWallet MailStore.

#[local] Open Scope N_scope.

Class Base64 : Type := { b64_encode : list N → string; b64_decode : string → result string (list N) }.
Class Base64Laws (B : Base64) : Prop := { b64_decode_encode bs : bytes_ok bs → b64_decode (b64_encode bs) = Ok bs }.

(** ** Signed messages *)

Definition TAG_ENQUEUE : list N := str_bytes "mailbox.enqueue".
Definition TAG_PULL : list N := str_bytes "mailbox.pull".
Definition TAG_ACK : list N := str_bytes "mailbox.ack".

(** A length as eight bytes, least significant first. *)
Definition segment (seg : list N) : list N := rev (be_bytes 8 (N.of_nat (length seg))) ++ seg.

Definition canonical_message (segments : list (list N)) : list N := concat (segment <$> segments).

Definition comma : ascii := ",".
Definition dash : ascii := "-".

Section Auth.
Context `{HX : Hex} `{B3 : Blake3} `{KK : Keccak} `{SC : Secp256k1} (identity_text : IdentityError → string).

Definition canonical_enqueue (recipient_id msg_id : string) (ciphertext : list N) : list N :=
  canonical_message [TAG_ENQUEUE; str_bytes recipient_id; str_bytes msg_id; blake3_hash ciphertext].

Definition canonical_enqueue_with_timestamp (recipient_id msg_id : string) (ciphertext : list N) (signed_at : Z) : list N :=
  canonical_message [TAG_ENQUEUE; str_bytes recipient_id; str_bytes msg_id; blake3_hash ciphertext; str_bytes (show_Z signed_at)].

Definition canonical_pull (recipient_id : string) : list N := canonical_message [TAG_PULL; str_bytes recipient_id].

Definition canonical_ack (recipient_id : string) (msg_ids : list string) : list N :=
  canonical_message [TAG_ACK; str_bytes recipient_id; str_bytes (str_join comma msg_ids)].

Definition digest_of (message : list N) : list N := blake3_hash message.

Definition recover_signer (digest sig_bytes : list N) : result MailboxError Address :=
  match from_compact sig_bytes with
  | Err _ => Err MbInvalidSignature
  | Ok parsed => match recover_personal digest parsed with Err _ => Err MbInvalidSignature | Ok recovered => Ok (wp_address recovered) end
  end.

(** The end of the four verifiers. *)
Definition signed_by (mismatch : MailboxError) (claimed : Address) (message sig_bytes : list N) : result MailboxError unit :=
  let? recovered := recover_signer (digest_of message) sig_bytes in
  if decide (recovered = claimed) then Ok () else Err mismatch.

Definition parse_claimed (id : string) : result MailboxError Address :=
  match Address_from_hex id with Err e => Err (InvalidRecipientId (identity_text e)) | Ok a => Ok a end.

Definition CLOCK_SKEW_TOLERANCE_SECS : Z := 60.
Definition DEFAULT_SIGNATURE_MAX_AGE_SECS : Z := 300.

Definition verify_sender_signature_with_timestamp (now : Z) (sender recipient msg_id : string) (ciphertext sig_bytes : list N) (signed_at max_age : Z) :
  result MailboxError unit :=
  let? claimed := parse_claimed sender in
  if (now + CLOCK_SKEW_TOLERANCE_SECS <? signed_at)%Z then Err InvalidTimestamp
  else
    let age := (now - signed_at)%Z in
    if (max_age <? age)%Z then Err (StaleSignature age max_age)
    else signed_by MbInvalidSignature claimed (canonical_enqueue_with_timestamp recipient msg_id ciphertext signed_at) sig_bytes.

Definition verify_sender_signature (sender recipient msg_id : string) (ciphertext sig_bytes : list N) : result MailboxError unit :=
  let? claimed := parse_claimed sender in
  signed_by MbInvalidSignature claimed (canonical_enqueue recipient msg_id ciphertext) sig_bytes.

Definition verify_pull_signature (recipient : string) (sig_bytes : list N) : result MailboxError unit :=
  let? claimed := parse_claimed recipient in
  signed_by InvalidRecipientSignature claimed (canonical_pull recipient) sig_bytes.

Definition verify_ack_signature (recipient : string) (msg_ids : list string) (sig_bytes : list N) : result MailboxError unit :=
  let? claimed := parse_claimed recipient in
  signed_by InvalidRecipientSignature claimed (canonical_ack recipient msg_ids) sig_bytes.

Definition validate_recipient_id (id : string) : result MailboxError Address :=
  if Nat.eqb (String.length id) 0 then Err (InvalidRecipientId "empty")
  else if Nat.ltb 64 (String.length id) then Err (InvalidRecipientId ("too long: " +:+ show_N (N.of_nat (String.length id)) +:+ " chars"))
  else parse_claimed id.
End Auth.

(** The groups of a UUID. *)
Fixpoint check_groups (want : list nat) (segments : list string) : result MailboxError unit :=
  match want with
  | [] => match segments with [] => Ok () | _ => Err (InvalidMessageId "uuid has too many segments") end
  | w :: want =>
      match segments with
      | [] => Err (InvalidMessageId "truncated uuid")
      | seg :: segments =>
          if negb (Nat.eqb (String.length seg) w) || negb (str_forallb is_hexdigit seg)
          then Err (InvalidMessageId ("non-hex / wrong len in uuid segment: " +:+ seg))
          else check_groups want segments
      end
  end.

Definition validate_msg_id (msg_id : string) : result MailboxError unit :=
  let len := String.length msg_id in
  if Nat.eqb len 0 then Err (InvalidMessageId "empty")
  else if Nat.ltb 72 len then Err (InvalidMessageId ("too long: " +:+ show_N (N.of_nat len) +:+ " chars"))
  else if negb (str_lacks dash msg_id) then
    if negb (Nat.eqb len 36) then Err (InvalidMessageId ("uuid form must be 36 chars, got " +:+ show_N (N.of_nat len)))
    else check_groups [8; 4; 4; 4; 12]%nat (str_split dash msg_id)
  else if negb (Nat.eqb len 32) && negb (Nat.eqb len 64)
  then Err (InvalidMessageId ("hex form must be 32 or 64 chars, got " +:+ show_N (N.of_nat len)))
  else if negb (str_forallb is_hexdigit msg_id) then Err (InvalidMessageId ("non-hex character in " +:+ msg_id))
  else Ok ().

(** ** Policies *)

Definition size_check (max_envelope_bytes : N) (env : StoredEnvelope) : result MailboxError unit :=
  if max_envelope_bytes <? wire_size env then Err (EnvelopeTooLarge (wire_size env) max_envelope_bytes) else Ok ().

Record QuotaPolicy : Type := mkQuotaPolicy { qp_max_inflight : nat; qp_max_total_bytes : N }.
Record QuotaCheck : Type := mkQuotaCheck { qc_current_message_count : nat; qc_current_total_bytes : N; qc_incoming : N }.
Inductive QuotaDecision : Type := QuotaAccept | QuotaReject (reason : string).

Definition quota_check (p : QuotaPolicy) (c : QuotaCheck) : QuotaDecision :=
  if Nat.ltb (qp_max_inflight p) (qc_current_message_count c + 1) then QuotaReject "inflight message count exceeded"
  else if qp_max_total_bytes p <? sat_add u64_max (qc_current_total_bytes c) (qc_incoming c) then QuotaReject "total bytes exceeded"
  else QuotaAccept.

(** Durations are in nanoseconds. *)
Definition NANOS : N := 1000000000.
Definition from_secs (s : N) : N := s * NANOS.

Record TtlPolicy : Type := mkTtlPolicy { tp_default_ttl : N; tp_sweep_interval : N }.
Definition TtlPolicy_default : TtlPolicy := mkTtlPolicy (from_secs (30 * 24 * 60 * 60)) (from_secs (5 * 60)).

Record RecipientTtlOverride : Type := mkRecipientTtlOverride { rt_recipient : string; rt_ttl_secs : N; rt_expires_at_unix : option Z; rt_source : string }.
Record RetentionPolicy : Type := mkRetentionPolicy { rp_overrides : gmap string RecipientTtlOverride; rp_min_ttl_secs : N; rp_max_ttl_secs : N }.
Definition RetentionPolicy_default : RetentionPolicy := mkRetentionPolicy ∅ (24 * 60 * 60) (90 * 24 * 60 * 60).

Definition effective_ttl (p : RetentionPolicy) (recipient : string) (default_ttl : N) : N :=
  let secs := match rp_overrides p !! recipient with Some o => rt_ttl_secs o | None => default_ttl / NANOS end in
  if secs <? rp_min_ttl_secs p then from_secs (rp_min_ttl_secs p)
  else if rp_max_ttl_secs p <? secs then from_secs (rp_max_ttl_secs p)
  else match rp_overrides p !! recipient with Some o => from_secs (rt_ttl_secs o) | None => default_ttl end.

(** [clamp] panics when the bounds are crossed: [None]. *)
Definition set_recipient_ttl (o : RecipientTtlOverride) (p : RetentionPolicy) : option RetentionPolicy :=
  if rp_max_ttl_secs p <? rp_min_ttl_secs p then None
  else
    let ttl := N.min (N.max (rt_ttl_secs o) (rp_min_ttl_secs p)) (rp_max_ttl_secs p) in
    Some (mkRetentionPolicy (<[rt_recipient o := mkRecipientTtlOverride (rt_recipient o) ttl (rt_expires_at_unix o) (rt_source o)]> (rp_overrides p))
            (rp_min_ttl_secs p) (rp_max_ttl_secs p)).

Definition remove_recipient_ttl (recipient : string) (p : RetentionPolicy) : RetentionPolicy * bool :=
  (mkRetentionPolicy (delete recipient (rp_overrides p)) (rp_min_ttl_secs p) (rp_max_ttl_secs p),
   match rp_overrides p !! recipient with Some _ => true | None => false end).

Definition override_live (now_unix : Z) (o : RecipientTtlOverride) : bool := match rt_expires_at_unix o with None => true | Some exp => (now_unix <? exp)%Z end.

Definition purge_expired_overrides (now_unix : Z) (p : RetentionPolicy) : RetentionPolicy * nat :=
  let kept := filter (λ kv, override_live now_unix kv.2 = true) (rp_overrides p) in
  (mkRetentionPolicy kept (rp_min_ttl_secs p) (rp_max_ttl_secs p), (size (rp_overrides p) - size kept)%nat).

(** ** The server *)

Definition DEFAULT_MAX_ENVELOPE_BYTES : N := 1048576.
Definition DEFAULT_MAX_INFLIGHT_PER_USER : nat := 1000.
Definition DEFAULT_MAX_TOTAL_BYTES_PER_USER : N := 64 * 1024 * 1024.
Definition MAX_SIGNATURE_AGE_SECS : N := 3600.
Definition PULL_LIMIT_MAX : nat := 1000.
Definition PULL_LIMIT_DEFAULT : nat := 100.

(** The fields of the configuration that the server reads. *)
Record MailboxConfig : Type := mkMailboxConfig {
  mc_max_envelope_bytes : N; mc_max_inflight_per_user : nat; mc_max_total_bytes_per_user : N; mc_default_ttl : N;
  mc_max_signature_age_secs : N; mc_require_sender_signature : bool
}.
Definition MailboxConfig_default : MailboxConfig :=
  mkMailboxConfig DEFAULT_MAX_ENVELOPE_BYTES DEFAULT_MAX_INFLIGHT_PER_USER DEFAULT_MAX_TOTAL_BYTES_PER_USER (from_secs (30 * 24 * 60 * 60)) 300 true.

Record ServerPolicy : Type := mkServerPolicy {
  sp_max_envelope_bytes : N; sp_require_sender_signature : bool; sp_ttl : TtlPolicy; sp_signature_max_age_secs : Z
}.
Definition ServerPolicy_default : ServerPolicy := mkServerPolicy DEFAULT_MAX_ENVELOPE_BYTES true TtlPolicy_default DEFAULT_SIGNATURE_MAX_AGE_SECS.
Definition ServerPolicy_from_config (cfg : MailboxConfig) : ServerPolicy :=
  mkServerPolicy (mc_max_envelope_bytes cfg) (mc_require_sender_signature cfg)
    (mkTtlPolicy (mc_default_ttl cfg) (tp_sweep_interval TtlPolicy_default)) (Z.of_N (N.min (mc_max_signature_age_secs cfg) MAX_SIGNATURE_AGE_SECS)).
Definition quota_policy (p : ServerPolicy) : QuotaPolicy := mkQuotaPolicy DEFAULT_MAX_INFLIGHT_PER_USER DEFAULT_MAX_TOTAL_BYTES_PER_USER.

Record MailboxMetrics : Type := mkMailboxMetrics {
  mm_enqueues : N; mm_enqueues_rejected : N; mm_pulls : N; mm_acks : N; mm_purged : N; mm_queue_depth : Z; mm_active_recipients : Z
}.
Definition MailboxMetrics_new : MailboxMetrics := mkMailboxMetrics 0 0 0 0 0 0 0.

Definition inc64 (n : N) : N := (n + 1) mod 2 ^ 64.
(** [fetch_add] and the saturating [dec_by_u64] of a gauge. *)
Definition gauge_inc (z : Z) : Z := ((z + 1 + 2 ^ 63) mod 2 ^ 64 - 2 ^ 63)%Z.
Definition gauge_dec_by (n : N) (z : Z) : Z := Z.min (Z.max (z - Z.of_N n) (- 2 ^ 63)) (2 ^ 63 - 1).

Definition count_rejected (m : MailboxMetrics) : MailboxMetrics :=
  mkMailboxMetrics (mm_enqueues m) (inc64 (mm_enqueues_rejected m)) (mm_pulls m) (mm_acks m) (mm_purged m) (mm_queue_depth m) (mm_active_recipients m).
Definition count_enqueued (duplicate first : bool) (m : MailboxMetrics) : MailboxMetrics :=
  mkMailboxMetrics (inc64 (mm_enqueues m)) (mm_enqueues_rejected m) (mm_pulls m) (mm_acks m) (mm_purged m)
    (if duplicate then mm_queue_depth m else gauge_inc (mm_queue_depth m))
    (if negb duplicate && first then gauge_inc (mm_active_recipients m) else mm_active_recipients m).
Definition count_pulled (n : nat) (m : MailboxMetrics) : MailboxMetrics :=
  mkMailboxMetrics (mm_enqueues m) (mm_enqueues_rejected m) (inc64 (mm_pulls m)) (mm_acks m) (mm_purged m) (gauge_dec_by (N.of_nat n) (mm_queue_depth m)) (mm_active_recipients m).
Definition count_acked (m : MailboxMetrics) : MailboxMetrics :=
  mkMailboxMetrics (mm_enqueues m) (mm_enqueues_rejected m) (mm_pulls m) (inc64 (mm_acks m)) (mm_purged m) (mm_queue_depth m) (mm_active_recipients m).
Definition count_purged (n : N) (m : MailboxMetrics) : MailboxMetrics :=
  mkMailboxMetrics (mm_enqueues m) (mm_enqueues_rejected m) (mm_pulls m) (mm_acks m) ((mm_purged m + n) mod 2 ^ 64) (mm_queue_depth m) (mm_active_recipients m).

Record ServerState (S : Type) : Type := mkServerState { ss_store : S; ss_policy : ServerPolicy; ss_retention : RetentionPolicy; ss_metrics : MailboxMetrics }.
Arguments mkServerState {S}. Arguments ss_store {S}. Arguments ss_policy {S}. Arguments ss_retention {S}. Arguments ss_metrics {S}.

Definition ServerState_new {S} (store : S) (policy : ServerPolicy) : ServerState S := mkServerState store policy RetentionPolicy_default MailboxMetrics_new.
Definition on_mail_metrics {S} (f : MailboxMetrics → MailboxMetrics) (st : ServerState S) : ServerState S :=
  mkServerState (ss_store st) (ss_policy st) (ss_retention st) (f (ss_metrics st)).
Definition with_store {S} (s : S) (st : ServerState S) : ServerState S := mkServerState s (ss_policy st) (ss_retention st) (ss_metrics st).

Record EnqueueRequest : Type := mkEnqueueRequest {
  er_sender_id : string; er_msg_id : string; er_ciphertext_b64 : string; er_sender_signature_b64 : string; er_ttl_secs : option N; er_timestamp : option Z
}.
Record PullQuery : Type := mkPullQuery { pq_signature : option string; pq_since : option N; pq_limit : option nat }.
Record PullResponse : Type := mkPullResponse { pl_messages : list StoredEnvelope; pl_next_watermark : N; pl_has_more : bool }.
Record AckRequest : Type := mkAckRequest { ak_recipient_id : string; ak_msg_ids : list string; ak_signature_b64 : string }.

(** The largest [Duration] of chrono in milliseconds is [i64::MAX]. *)
Definition chrono_from_std (ttl : N) : Z := if ttl / 1000000 <=? 2 ^ 63 - 1 then Z.of_N ttl else Z.of_N (from_secs (30 * 24 * 60 * 60)).

(** The status code of an error. *)
Definition http_status (e : MailboxError) : N :=
  match e with
  | InvalidRecipientId _ => 400 | EnvelopeTooLarge _ _ => 413 | QuotaExceeded _ => 429
  | MbInvalidSignature | InvalidRecipientSignature => 401
  | InvalidMessageId _ => 400 | InvalidTimestamp => 400 | StaleSignature _ _ => 401 | MbDuplicate _ => 200 | MbNotFound _ => 404
  | MbStorage _ | MbInternal _ => 500
  | MbRemote status _ => if (100 <=? status) && (status <=? 999) then status else 500
  | MbTransport _ => 502 | MbConfig _ => 500
  end.

Definition mb_error_code (e : MailboxError) : string :=
  match e with
  | InvalidRecipientId _ => "invalid_recipient_id" | EnvelopeTooLarge _ _ => "envelope_too_large" | QuotaExceeded _ => "quota_exceeded"
  | MbInvalidSignature => "invalid_sender_signature" | InvalidRecipientSignature => "invalid_recipient_signature"
  | InvalidMessageId _ => "invalid_message_id" | InvalidTimestamp => "invalid_timestamp" | StaleSignature _ _ => "stale_signature"
  | MbDuplicate _ => "duplicate" | MbNotFound _ => "not_found" | MbStorage _ => "storage_error" | MbInternal _ => "internal_error"
  | MbRemote _ _ => "remote_error" | MbTransport _ => "transport_error" | MbConfig _ => "config_error"
  end.

(** A response: the status and the body, or the error that [error_to_response] writes. *)
Definition Response (A : Type) : Type := result MailboxError (N * A).
Definition response_status {A} (r : Response A) : N := match r with Ok (status, _) => status | Err e => http_status e end.

Section Server.
Context `{HX : Hex} `{B3 : Blake3} `{KK : Keccak} `{SC : Secp256k1} `{B64 : Base64} (identity_text : IdentityError → string).
Context {S : Type} {M : MailboxStore S}.

Notation State := (ServerState S).

(** The five checks of a request before the envelope is built: the recipient, the
    sender, the ciphertext and the signature. *)
Definition check_request (now_secs : Z) (st : State) (recipient_id : string) (req : EnqueueRequest) :
  result MailboxError (string * string * list N * list N) :=
  let? recipient := validate_recipient_id identity_text recipient_id in
  let recipient := Address_to_checksum recipient in
  let? _ := validate_msg_id (er_msg_id req) in
  let? ciphertext := match b64_decode (er_ciphertext_b64 req) with Ok b => Ok b | Err e => Err (InvalidMessageId ("ciphertext_b64 decode: " +:+ e)) end in
  let? sig_bytes := match b64_decode (er_sender_signature_b64 req) with Ok b => Ok b | Err _ => Err MbInvalidSignature end in
  let? sender := validate_recipient_id identity_text (er_sender_id req) in
  let sender := Address_to_checksum sender in
  let? _ :=
    match er_timestamp req with
    | Some signed_at =>
        verify_sender_signature_with_timestamp identity_text now_secs sender recipient (er_msg_id req) ciphertext sig_bytes signed_at
          (sp_signature_max_age_secs (ss_policy st))
    | None => verify_sender_signature identity_text sender recipient (er_msg_id req) ciphertext sig_bytes
    end in
  Ok (recipient, sender, ciphertext, sig_bytes).

Definition build_envelope (now : Z) (st : State) (recipient sender : string) (ciphertext sig_bytes : list N) (req : EnqueueRequest) : StoredEnvelope :=
  let base_ttl := match er_ttl_secs req with Some s => from_secs s | None => tp_default_ttl (sp_ttl (ss_policy st)) end in
  let ttl := effective_ttl (ss_retention st) recipient base_ttl in
  mkStoredEnvelope sender recipient (er_msg_id req) ciphertext sig_bytes 0 now (now + chrono_from_std ttl)%Z.

(** Everything before the envelope is persisted. *)
Definition admit_enqueue (io : option string) (now_secs now : Z) (recipient_id : string) (req : EnqueueRequest) (st : State) :
  result MailboxError (StoredEnvelope * QuotaUsage) :=
  let? parts := check_request now_secs st recipient_id req in
  let '(recipient, sender, ciphertext, sig_bytes) := parts in
  let envelope := build_envelope now st recipient sender ciphertext sig_bytes req in
  let? _ := size_check (sp_max_envelope_bytes (ss_policy st)) envelope in
  let? usage := ms_quota_usage io now recipient (ss_store st) in
  match quota_check (quota_policy (ss_policy st)) (mkQuotaCheck (qu_message_count usage) (qu_total_bytes usage) (wire_size envelope)) with
  | QuotaReject reason => Err (QuotaExceeded reason)
  | QuotaAccept => Ok (envelope, usage)
  end.

Definition persist_enqueue (io : option string) (envelope : StoredEnvelope) (usage : QuotaUsage) (st : State) : State * Response EnqueueOutcome :=
  let '(store, r) := ms_enqueue io envelope (ss_store st) in
  let st := with_store store st in
  match r with
  | Err e => (on_mail_metrics count_rejected st, Err e)
  | Ok outcome =>
      (on_mail_metrics (count_enqueued (eo_duplicate outcome) (Nat.eqb (qu_message_count usage) 0)) st,
       Ok (if eo_duplicate outcome then 200 else 202, outcome))
  end.

Definition enqueue_handler (io_quota io_store : option string) (now_secs now : Z) (recipient_id : string) (req : EnqueueRequest) (st : State) :
  State * Response EnqueueOutcome :=
  match admit_enqueue io_quota now_secs now recipient_id req st with
  | Err e => (on_mail_metrics count_rejected st, Err e)
  | Ok (envelope, usage) => persist_enqueue io_store envelope usage st
  end.

Definition pull_handler (io : option string) (recipient_id : string) (q : PullQuery) (st : State) : State * Response PullResponse :=
  let checked :=
    let? recipient := validate_recipient_id identity_text recipient_id in
    let recipient := Address_to_checksum recipient in
    let? sig_b64 := ok_or InvalidRecipientSignature (pq_signature q) in
    let? sig_bytes := match b64_decode sig_b64 with Ok b => Ok b | Err _ => Err InvalidRecipientSignature end in
    let? _ := verify_pull_signature identity_text recipient sig_bytes in
    let limit := Nat.min (default PULL_LIMIT_DEFAULT (pq_limit q)) PULL_LIMIT_MAX in
    let since := default 0 (pq_since q) in
    let? envelopes := ms_pull io recipient since limit (ss_store st) in
    Ok (envelopes, since, limit) in
  match checked with
  | Err e => (st, Err e)
  | Ok (envelopes, since, limit) =>
      (on_mail_metrics (count_pulled (length envelopes)) st,
       Ok (200, mkPullResponse envelopes (match last envelopes with Some e => se_sequence e | None => since end) (Nat.eqb (length envelopes) limit)))
  end.

Fixpoint validate_all (ids : list string) : result MailboxError unit :=
  match ids with [] => Ok () | id :: ids => let? _ := validate_msg_id id in validate_all ids end.

Definition ack_handler (io : option string) (recipient_id : string) (req : AckRequest) (st : State) : State * Response nat :=
  let checked :=
    let? recipient := validate_recipient_id identity_text recipient_id in
    let recipient := Address_to_checksum recipient in
    let msg_ids := ak_msg_ids req in
    if Nat.eqb (length msg_ids) 0 then Err (InvalidMessageId "ack msg_ids is empty")
    else if negb (bool_decide (NoDup msg_ids)) then Err (InvalidMessageId "ack msg_ids contains duplicates")
    else
      let? _ := validate_all msg_ids in
      let? sig_bytes := match b64_decode (ak_signature_b64 req) with Ok b => Ok b | Err _ => Err InvalidRecipientSignature end in
      let? _ := verify_ack_signature identity_text recipient msg_ids sig_bytes in
      Ok recipient in
  match checked with
  | Err e => (st, Err e)
  | Ok recipient =>
      let '(store, r) := ms_ack io recipient (ak_msg_ids req) (ss_store st) in
      let st := with_store store st in
      match r with Err e => (st, Err e) | Ok removed => (on_mail_metrics count_acked st, Ok (200, removed)) end
  end.

(** A tick of the sweeper. *)
Definition sweep (io : option string) (now : Z) (st : State) : State :=
  let '(store, r) := ms_purge_expired io now (ss_store st) in
  let st := with_store store st in
  match r with Ok removed => if 0 <? removed then on_mail_metrics (count_purged removed) st else st | Err _ => st end.

(** ** The client *)

(** [MailboxClient::pull]: an error of the server reaches the caller as its status and text. *)
Definition client_pull (body_text : MailboxError → string) (r : Response PullResponse) : result MailboxError PullResponse :=
  match r with Ok (_, resp) => Ok resp | Err e => Err (MbRemote (http_status e) (body_text e)) end.

(** [pull_all]: [pull] is the request for a page, [fuel] bounds the requests. *)
Fixpoint pull_all (pull : PullQuery → result MailboxError PullResponse) (fuel : nat) (signature_b64 : string) (cursor : N) (page_size : nat)
  (all : list StoredEnvelope) : option (result MailboxError (list StoredEnvelope)) :=
  match fuel with
  | O => None
  | Datatypes.S fuel =>
      match pull (mkPullQuery (Some signature_b64) (Some cursor) (Some page_size)) with
      | Err e => Some (Err e)
      | Ok resp =>
          let all := all ++ pl_messages resp in
          if pl_has_more resp then pull_all pull fuel signature_b64 (pl_next_watermark resp) page_size all else Some (Ok all)
      end
  end.

(** [MailboxClient::enqueue] sends the signature of the caller with the time of the call. *)
Definition client_enqueue_request (now_secs : Z) (sender_id msg_id : string) (ciphertext signature : list N) (ttl_secs : option N) : EnqueueRequest :=
  mkEnqueueRequest sender_id msg_id (b64_encode ciphertext) (b64_encode signature) ttl_secs (Some now_secs).
End Server.

(** ** Runs of the server *)

Inductive MailCall : Type :=
  | CallEnqueue (io_store : option string) (now_secs now : Z) (recipient_id : string) (req : EnqueueRequest)
  | CallPull (io : option string) (recipient_id : string) (q : PullQuery)
  | CallAck (io : option string) (recipient_id : string) (req : AckRequest)
  | CallSweep (io : option string) (now : Z).

(** A request or a tick of the sweeper, over a database whose reads of the quota work. *)
Definition mail_step `{Hex, Blake3, Keccak, Secp256k1, Base64} {S} {M : MailboxStore S} (identity_text : IdentityError → string)
  (st : ServerState S) (c : MailCall) : ServerState S :=
  match c with
  | CallEnqueue io now_secs now rid req => (enqueue_handler identity_text None io now_secs now rid req st).1
  | CallPull io rid q => (pull_handler identity_text io rid q st).1
  | CallAck io rid req => (ack_handler identity_text io rid req st).1
  | CallSweep io now => sweep io now st
  end.

(** The server with several requests in progress: a request to enqueue reads the quota in
    one step and stores its message in another, and the steps of other requests come in
    between. The second component holds the messages that were admitted and are not yet
    stored. *)
Inductive ServerStep : Type :=
  | StAdmit (now_secs now : Z) (recipient_id : string) (req : EnqueueRequest)
  | StStore (io_store : option string) (i : nat)
  | StPull (io : option string) (recipient_id : string) (q : PullQuery)
  | StAck (io : option string) (recipient_id : string) (req : AckRequest)
  | StSweep (io : option string) (now : Z).

Notation InProgress := (list (StoredEnvelope * QuotaUsage)).

Definition server_step `{Hex, Blake3, Keccak, Secp256k1, Base64} {S} {M : MailboxStore S} (identity_text : IdentityError → string)
  (s : ServerState S * InProgress) (c : ServerStep) : ServerState S * InProgress :=
  let '(st, fl) := s in
  match c with
  | StAdmit now_secs now rid req =>
      match admit_enqueue identity_text None now_secs now rid req st with
      | Err _ => (on_mail_metrics count_rejected st, fl)
      | Ok p => (st, fl ++ [p])
      end
  | StStore io i => match fl !! i with Some (env, usage) => ((persist_enqueue io env usage st).1, delete i fl) | None => s end
  | StPull io rid q => ((pull_handler identity_text io rid q st).1, fl)
  | StAck io rid req => ((ack_handler identity_text io rid req st).1, fl)
  | StSweep io now => (sweep io now st, fl)
  end.

Definition step_clock (t : Z) (c : ServerStep) : Z := match c with StAdmit _ now _ _ | StSweep _ now => now | _ => t end.

(** In a run the clock never goes back and at most [k] messages are admitted and not stored. *)
Fixpoint run_bounded `{Hex, Blake3, Keccak, Secp256k1, Base64} {S} {M : MailboxStore S} (identity_text : IdentityError → string)
  (k : nat) (t : Z) (s : ServerState S * InProgress) (cs : list ServerStep) : Prop :=
  match cs with
  | [] => True
  | c :: cs => (t <= step_clock t c)%Z ∧ (length (server_step identity_text s c).2 ≤ k)%nat ∧ run_bounded identity_text k (step_clock t c) (server_step identity_text s c) cs
  end.

(** ** What a signature binds *)

Definition short (seg : list N) : Prop := N.of_nat (length seg) < 2 ^ 64.

Lemma segment_inj a b x y : short a → short b → segment a ++ x = segment b ++ y → a = b ∧ x = y.
Proof.
  unfold short, segment. intros Ha Hb. rewrite <-!app_assoc. intros He.
  apply app_inj_1 in He as [Hl He]; [|by rewrite !length_rev, !length_be_bytes].
  apply (f_equal (@rev N)) in Hl. rewrite !rev_involutive in Hl. apply be_bytes_inj in Hl; [|exact Ha|exact Hb].
  apply app_inj_1 in He as [-> ->]; [done|lia].
Qed.

Lemma segment_not_nil a : segment a ≠ [].
Proof. intros He%(f_equal length). unfold segment in He. rewrite length_app, length_rev, length_be_bytes in He. cbn in He. lia. Qed.

Lemma segment_last_inj a b : segment a = segment b → a = b.
Proof.
  intros He. assert (length a = length b) as Hl.
  { apply (f_equal length) in He. unfold segment in He. rewrite !length_app, !length_rev, !length_be_bytes in He. lia. }
  unfold segment in He. rewrite Hl in He. by apply app_inv_head in He.
Qed.

Lemma canonical_cons a l : canonical_message (a :: l) = segment a ++ canonical_message l.
Proof. done. Qed.

Lemma canonical_single a : canonical_message [a] = segment a.
Proof. apply app_nil_r. Qed.

(** Texts of at most 128 characters, as the validated identifiers are. *)
Definition id_ok (s : string) : Prop := (String.length s <= 128)%nat.

Lemma short_id s : id_ok s → short (str_bytes s).
Proof. unfold id_ok, short. rewrite length_str_bytes. lia. Qed.

Lemma hexdigit_not_comma s : str_forallb is_hexdigit s = true → str_lacks comma s = true.
Proof. apply str_forallb_impl. intros a Ha. pose proof (ascii_check (λ a, implb (is_hexdigit a) (negb (Ascii.eqb a comma))) eq_refl a) as Hc. cbn beta in Hc. by rewrite Ha in Hc. Qed.

Lemma check_groups_lacks want segs : check_groups want segs = Ok () → Forall (λ s, str_lacks comma s = true) segs.
Proof.
  revert segs. induction want as [|w want IH]; intros [|seg segs]; cbn; try done.
  destruct (negb (Nat.eqb _ _)); [done|]. destruct (str_forallb is_hexdigit seg) eqn:Hh; [|done]. intros Hc%IH. constructor; [by apply hexdigit_not_comma|done].
Qed.

Lemma str_lacks_join c d l : c ≠ d → Forall (λ s, str_lacks c s = true) l → str_lacks c (str_join d l) = true.
Proof.
  intros Hne. induction 1 as [|x l Hx Hl IH]; [done|]. destruct l as [|y l]; [done|].
  change (str_join d (x :: y :: l)) with (x +:+ String d (str_join d (y :: l))). unfold str_lacks in *. rewrite str_forallb_app, Hx. cbn [str_forallb].
  rewrite IH, andb_true_r. apply negb_true_iff, Ascii.eqb_neq. by intros ->.
Qed.

(** A valid message identifier has no comma and at most 72 characters. *)
Lemma validate_msg_id_ok id : validate_msg_id id = Ok () → id_ok id ∧ str_lacks comma id = true ∧ id ≠ "".
Proof.
  unfold validate_msg_id, id_ok. destruct (Nat.eqb_spec (String.length id) 0) as [|H0]; [done|]. destruct (Nat.ltb_spec 72 (String.length id)) as [|Hl]; [done|].
  assert (id ≠ "") as Hne by (by intros ->). destruct (str_lacks dash id) eqn:Hd; cbn [negb].
  - destruct (_ && _); [done|]. destruct (str_forallb is_hexdigit id) eqn:Hh; [|done]. intros _. split_and!; [lia|by apply hexdigit_not_comma|done].
  - destruct (negb _); [done|]. intros Hc%check_groups_lacks. split_and!; [lia| |done].
    rewrite <-(str_join_split dash id). apply str_lacks_join; [by vm_compute|done].
Qed.

Lemma validate_all_ok ids : validate_all ids = Ok () → Forall (λ id, str_lacks comma id = true ∧ id ≠ "") ids.
Proof.
  induction ids as [|id ids IH]; [constructor|]. cbn. destruct (validate_msg_id id) as [[]|] eqn:Hv; [|done]. intros Hall%IH.
  apply validate_msg_id_ok in Hv as (_ & ? & ?). by constructor.
Qed.

(** Lists of names without commas are determined by their joined text. *)
Lemma join_ids_inj ids ids' :
  Forall (λ id, str_lacks comma id = true ∧ id ≠ "") ids → Forall (λ id, str_lacks comma id = true ∧ id ≠ "") ids' →
  str_join comma ids = str_join comma ids' → ids = ids'.
Proof.
  assert (∀ l, Forall (λ id, str_lacks comma id = true ∧ id ≠ "") l → l ≠ [] → str_split comma (str_join comma l) = l) as Hsplit.
  { intros l Hl Hne. apply str_split_join; [done|]. eapply Forall_impl; [exact Hl|]. by intros ? []. }
  assert (∀ l, Forall (λ id, str_lacks comma id = true ∧ id ≠ "") l → str_join comma l = "" → l = []) as Hnil.
  { intros l Hl He. destruct l as [|x l]; [done|]. pose proof (Hsplit (x :: l) Hl ltac:(done)) as Hs. rewrite He in Hs. injection Hs as <- _.
    apply Forall_cons in Hl as [[_ []] _]. done. }
  intros H1 H2 He. destruct ids as [|x ids]; [symmetry; apply Hnil; [done|by rewrite <-He]|].
  destruct ids' as [|y ids']; [by apply Hnil|]. rewrite <-(Hsplit (x :: ids)), <-(Hsplit (y :: ids')) by done. by rewrite He.
Qed.

Section Binding.
Context `{BL : Blake3Laws}.

Lemma short_hash c : short (blake3_hash c).
Proof. unfold short. rewrite blake3_length. done. Qed.
Lemma short_tags : short TAG_ENQUEUE ∧ short TAG_PULL ∧ short TAG_ACK.
Proof. done. Qed.

(** The heads of two messages with the same first segments. *)
Lemma strip_tag t t' l l' : short t → short t' → canonical_message (t :: l) = canonical_message (t' :: l') → t = t' ∧ canonical_message l = canonical_message l'.
Proof. intros Ht Ht'. rewrite !canonical_cons. by apply segment_inj. Qed.

Lemma signatures_differ r m c r' m' c' t' : id_ok r → id_ok m → id_ok r' → id_ok m' → canonical_enqueue r m c ≠ canonical_enqueue_with_timestamp r' m' c' t'.
Proof.
  intros Hr%short_id Hm%short_id Hr'%short_id Hm'%short_id. pose proof (short_hash c). pose proof (short_hash c'). destruct short_tags as (Te & _).
  unfold canonical_enqueue, canonical_enqueue_with_timestamp. intros He.
  do 4 (apply strip_tag in He as [_ He]; [|done..]). rewrite canonical_single in He. symmetry in He. by apply segment_not_nil in He.
Qed.

(** What a signature binds. A signed message with a time determines the recipient, the
    message identifier, the time and the digest of the ciphertext; it is never the
    message without a time, so removing the time from a captured request does not
    help; requests of different kinds are never confused; and an acknowledgement
    determines the recipient and the list of identifiers. *)
Theorem signatures_bind r m c t r' m' c' t' ids ids' :
  id_ok r → id_ok m → id_ok r' → id_ok m' → validate_all ids = Ok () → validate_all ids' = Ok () →
  (canonical_enqueue_with_timestamp r m c t = canonical_enqueue_with_timestamp r' m' c' t' →
     r = r' ∧ m = m' ∧ t = t' ∧ blake3_hash c = blake3_hash c') ∧
  canonical_enqueue r m c ≠ canonical_enqueue_with_timestamp r' m' c' t' ∧
  canonical_pull r ≠ canonical_enqueue_with_timestamp r' m' c' t' ∧ canonical_pull r ≠ canonical_ack r' ids' ∧
  canonical_ack r ids ≠ canonical_enqueue_with_timestamp r' m' c' t' ∧
  (canonical_ack r ids = canonical_ack r' ids' → r = r' ∧ ids = ids').
Proof.
  intros Hr Hm Hr' Hm' Hi%validate_all_ok Hi'%validate_all_ok. pose proof (signatures_differ r m c r' m' c' t' Hr Hm Hr' Hm') as Hdiff.
  apply short_id in Hr, Hm, Hr', Hm'.
  destruct short_tags as (Te & Tp & Ta). pose proof (short_hash c) as Hc. pose proof (short_hash c') as Hc'.
  split_and!; unfold canonical_enqueue_with_timestamp, canonical_enqueue, canonical_pull, canonical_ack; intros He.
  - apply strip_tag in He as [_ He]; [|done..]. apply strip_tag in He as [->%(inj str_bytes) He]; [|done..].
    apply strip_tag in He as [->%(inj str_bytes) He]; [|done..]. apply strip_tag in He as [Hh He]; [|done..].
    rewrite !canonical_single in He. apply segment_last_inj in He. apply (inj str_bytes) in He. by apply show_Z_inj in He.
  - by apply Hdiff.
  - apply strip_tag in He as [He _]; [|done..]. by vm_compute in He.
  - apply strip_tag in He as [He _]; [|done..]. by vm_compute in He.
  - apply strip_tag in He as [He _]; [|done..]. by vm_compute in He.
  - apply strip_tag in He as [_ He]; [|done..]. apply strip_tag in He as [->%(inj str_bytes) He]; [|done..].
    rewrite !canonical_single in He. apply segment_last_inj in He. apply (inj str_bytes) in He. split; [done|]. by apply join_ids_inj.
Qed.
End Binding.

(** ** What the server admits *)

Section ServerLemmas.
Context `{HX : Hex} `{B3 : Blake3} `{KK : Keccak} `{SC : Secp256k1} `{B64 : Base64} (identity_text : IdentityError → string).
Context {S : Type} {M : MailboxStore S} {L : InboxLaws M}.

Notation enqueue_handler := (enqueue_handler identity_text).
Notation pull_handler := (pull_handler identity_text).
Notation ack_handler := (ack_handler identity_text).

(** The message that a request must be signed over, for its clock. *)
Definition signed_message (now_secs max_age : Z) (req : EnqueueRequest) (env : StoredEnvelope) (msg : list N) : Prop :=
  match er_timestamp req with
  | Some t => (now_secs - max_age <= t <= now_secs + CLOCK_SKEW_TOLERANCE_SECS)%Z ∧
      msg = canonical_enqueue_with_timestamp (se_recipient_id env) (se_msg_id env) (se_ciphertext env) t
  | None => msg = canonical_enqueue (se_recipient_id env) (se_msg_id env) (se_ciphertext env)
  end.

Lemma signed_by_ok err claimed msg sig : signed_by err claimed msg sig = Ok () → recover_signer (digest_of msg) sig = Ok claimed.
Proof. unfold signed_by. destruct (recover_signer _ _) as [a|]; [|done]. cbn. by destruct (decide (a = claimed)) as [->|]. Qed.

Lemma validate_recipient_ok id a : validate_recipient_id identity_text id = Ok a → Address_from_hex id = Ok a.
Proof.
  unfold validate_recipient_id, parse_claimed. destruct (Nat.eqb _ 0); [done|]. destruct (Nat.ltb 64 _); [done|]. destruct (Address_from_hex id); [|done]. by intros [= ->].
Qed.

Lemma check_request_ok now_secs (st : ServerState S) rid req recipient sender c sg :
  check_request identity_text now_secs st rid req = Ok (recipient, sender, c, sg) →
  (∃ a, Address_from_hex rid = Ok a ∧ recipient = Address_to_checksum a) ∧ validate_msg_id (er_msg_id req) = Ok () ∧
  b64_decode (er_ciphertext_b64 req) = Ok c ∧ b64_decode (er_sender_signature_b64 req) = Ok sg ∧
  ∃ a msg, Address_from_hex sender = Ok a ∧ recover_signer (digest_of msg) sg = Ok a ∧
    ∀ env, se_recipient_id env = recipient → se_msg_id env = er_msg_id req → se_ciphertext env = c →
      signed_message now_secs (sp_signature_max_age_secs (ss_policy st)) req env msg.
Proof.
  unfold check_request. destruct (validate_recipient_id identity_text rid) as [a|] eqn:Ha; [|done]. apply validate_recipient_ok in Ha. cbn. destruct (validate_msg_id (er_msg_id req)) as [[]|] eqn:Hm; [|done]. cbn.
  destruct (b64_decode (er_ciphertext_b64 req)) as [c'|] eqn:Hc; [|done]. cbn. destruct (b64_decode (er_sender_signature_b64 req)) as [s'|] eqn:Hs; [|done]. cbn.
  destruct (validate_recipient_id identity_text (er_sender_id req)) as [b|] eqn:Hb; [|done]. cbn.
  set (sender' := Address_to_checksum b). intros Hv.
  assert (∃ a' msg, Address_from_hex sender' = Ok a' ∧ recover_signer (digest_of msg) s' = Ok a' ∧
    ∀ env, se_recipient_id env = Address_to_checksum a → se_msg_id env = er_msg_id req → se_ciphertext env = c' →
      signed_message now_secs (sp_signature_max_age_secs (ss_policy st)) req env msg) as Hsig.
  { unfold signed_message. destruct (er_timestamp req) as [t|]; cbn in Hv.
    - unfold verify_sender_signature_with_timestamp, parse_claimed in Hv. destruct (Address_from_hex sender') as [a'|]; [|done]. cbn in Hv.
      destruct (Z.ltb_spec (now_secs + CLOCK_SKEW_TOLERANCE_SECS) t); [done|]. destruct (Z.ltb_spec (sp_signature_max_age_secs (ss_policy st)) (now_secs - t)); [done|].
      destruct (signed_by _ _ _ _) as [[]|] eqn:Hsb; [|done]. apply signed_by_ok in Hsb. eexists a', _. split; [done|]. split; [exact Hsb|].
      intros env -> -> ->. split; [lia|done].
    - unfold verify_sender_signature, parse_claimed in Hv. destruct (Address_from_hex sender') as [a'|]; [|done]. cbn in Hv.
      destruct (signed_by _ _ _ _) as [[]|] eqn:Hsb; [|done]. apply signed_by_ok in Hsb. eexists a', _. split; [done|]. split; [exact Hsb|]. by intros env -> -> ->. }
  assert ((recipient, sender, c, sg) = (Address_to_checksum a, sender', c', s')) as [= -> -> -> ->].
  { destruct (er_timestamp req) as [t|]; [destruct (verify_sender_signature_with_timestamp _ _ _ _ _ _ _ _ _) as [[]|]|destruct (verify_sender_signature _ _ _ _ _ _) as [[]|]]; cbn in Hv; congruence. }
  split_and!; try done. by exists a.
Qed.

(** What the handler has established before it persists an envelope. *)
Lemma admit_enqueue_ok io now_secs now rid req (st : ServerState S) env usage :
  admit_enqueue identity_text io now_secs now rid req st = Ok (env, usage) →
  se_msg_id env = er_msg_id req ∧ validate_msg_id (se_msg_id env) = Ok () ∧ b64_decode (er_ciphertext_b64 req) = Ok (se_ciphertext env) ∧
  wire_size env <= sp_max_envelope_bytes (ss_policy st) ∧
  (∃ a, Address_from_hex rid = Ok a ∧ se_recipient_id env = Address_to_checksum a) ∧
  (∃ a msg, Address_from_hex (se_sender_id env) = Ok a ∧ recover_signer (digest_of msg) (se_sender_signature env) = Ok a ∧
     signed_message now_secs (sp_signature_max_age_secs (ss_policy st)) req env msg) ∧
  ms_quota_usage io now (se_recipient_id env) (ss_store st) = Ok usage ∧
  (qu_message_count usage + 1 <= DEFAULT_MAX_INFLIGHT_PER_USER)%nat ∧ qu_total_bytes usage + wire_size env <= DEFAULT_MAX_TOTAL_BYTES_PER_USER.
Proof.
  unfold admit_enqueue. destruct (check_request _ _ _ _ _) as [[[[recipient sender] c] sg]|] eqn:Hc; [|done]. cbn.
  apply check_request_ok in Hc as (Hrid & Hm & Hct & _ & a & msg & Ha & Hrec & Hmsg). set (e := build_envelope _ _ _ _ _ _ _).
  unfold size_check. destruct (N.ltb_spec (sp_max_envelope_bytes (ss_policy st)) (wire_size e)) as [|Hsz]; [done|]. cbn.
  destruct (ms_quota_usage io now recipient (ss_store st)) as [u|] eqn:Hu; [|done]. cbn. unfold quota_check. cbn [qp_max_inflight qp_max_total_bytes quota_policy qc_current_message_count qc_current_total_bytes qc_incoming].
  destruct (Nat.ltb_spec DEFAULT_MAX_INFLIGHT_PER_USER (qu_message_count u + 1)) as [|Hcount]; [done|].
  destruct (N.ltb_spec DEFAULT_MAX_TOTAL_BYTES_PER_USER (sat_add u64_max (qu_total_bytes u) (wire_size e))) as [|Hbytes]; [done|]. intros [= <- <-].
  split_and!; try done; [by exists a, msg; split_and!; [| |apply Hmsg]|].
  unfold sat_add in Hbytes. assert (DEFAULT_MAX_TOTAL_BYTES_PER_USER < u64_max) by (by vm_compute). lia.
Qed.
(** How an accepted envelope changes the inboxes. *)
Definition enqueued (st st' : ServerState S) (env : StoredEnvelope) (status : N) (o : EnqueueOutcome) : Prop :=
  if eo_duplicate o
  then status = 200 ∧ (∀ r, inbox (ss_store st') r = inbox (ss_store st) r) ∧
       ∃ e, e ∈ inbox (ss_store st) (se_recipient_id env) ∧ same_message env e = true ∧ o = outcome_of e true
  else status = 202 ∧ o = outcome_of (set_sequence (eo_sequence o) env) false ∧
       ∀ r, inbox (ss_store st') r =
         if decide (r = se_recipient_id env) then inbox (ss_store st) r ++ [set_sequence (eo_sequence o) env] else inbox (ss_store st) r.

Lemma persist_enqueue_ok io env usage (st st' : ServerState S) resp :
  store_ok (ss_store st) → persist_enqueue io env usage st = (st', resp) →
  store_ok (ss_store st') ∧ ss_policy st' = ss_policy st ∧ ss_retention st' = ss_retention st ∧
  match resp with Err _ => ss_store st' = ss_store st | Ok (status, o) => enqueued st st' env status o end.
Proof.
  intros Hok. unfold persist_enqueue. pose proof (enqueue_law (ss_store st) env Hok) as Hlaw.
  destruct (failing_law (ss_store st) io Hok) as [Hf _]. destruct (Hf env) as [->|[err ->]]; [|by intros [= <- <-]]. unfold enqueued.
  destruct (List.find _ _) as [e|] eqn:Hfind.
  - destruct Hlaw as (s' & -> & Hok' & Hin). intros [= <- <-]. cbn [on_mail_metrics with_store ss_store ss_policy ss_retention outcome_of eo_duplicate].
    apply find_some in Hfind as [He%list_elem_of_In Hsame]. split_and!; try done. by exists e.
  - destruct Hlaw as (s' & n & -> & Hok' & _ & Hin). intros [= <- <-]. by split_and!.
Qed.

(** C20. What the server admits. A request that is answered with an outcome was signed, within
    the age the policy allows when it carries a time, by the address of the sender over
    exactly the recipient, the identifier and the ciphertext that are stored; the
    identifier is valid and the envelope within the size of the policy; and either the
    message was already in the inbox, which is then unchanged, or it was added at its
    end. A request without a time is accepted at any age, and the expiry that is stored is
    not signed. A request that is refused leaves every inbox as it is and is counted. *)
Theorem enqueue_admission io_quota io_store now_secs now rid req (st st' : ServerState S) resp :
  store_ok (ss_store st) → enqueue_handler io_quota io_store now_secs now rid req st = (st', resp) →
  store_ok (ss_store st') ∧
  match resp with
  | Err e => ss_store st' = ss_store st ∧ mm_enqueues_rejected (ss_metrics st') = inc64 (mm_enqueues_rejected (ss_metrics st))
  | Ok (status, o) =>
      ∃ env a msg, Address_from_hex (se_sender_id env) = Ok a ∧ recover_signer (digest_of msg) (se_sender_signature env) = Ok a ∧
        signed_message now_secs (sp_signature_max_age_secs (ss_policy st)) req env msg ∧
        validate_msg_id (se_msg_id env) = Ok () ∧ wire_size env <= sp_max_envelope_bytes (ss_policy st) ∧
        (∃ to, Address_from_hex rid = Ok to ∧ se_recipient_id env = Address_to_checksum to) ∧ enqueued st st' env status o
  end.
Proof.
  intros Hok. unfold enqueue_handler. destruct (admit_enqueue _ _ _ _ _ _ _) as [[env usage]|e] eqn:Ha; [|by intros [= <- <-]].
  apply admit_enqueue_ok in Ha as (_ & Hid & _ & Hsz & Hto & (a & msg & Hs & Hrec & Hmsg) & _). intros Hp.
  assert (mm_enqueues_rejected (ss_metrics st') = if resp then mm_enqueues_rejected (ss_metrics st) else inc64 (mm_enqueues_rejected (ss_metrics st))) as Hm.
  { unfold persist_enqueue in Hp. destruct (ms_enqueue _ _ _) as [s' [o|e]]; by injection Hp as <- <-. }
  apply persist_enqueue_ok in Hp as (Hok' & _ & _ & Hr); [|done]. split; [done|]. destruct resp as [[status o]|e]; [|done]. by exists env, a, msg.
Qed.

(** Who can read an inbox: a pull that is answered was signed by the address of the
    inbox, the answer holds messages of that inbox only, and nothing is removed. *)
Theorem pull_authorised io rid q (st st' : ServerState S) resp :
  store_ok (ss_store st) → pull_handler io rid q st = (st', resp) →
  ss_store st' = ss_store st ∧
  match resp with
  | Err _ => True
  | Ok (status, body) => status = 200 ∧
      ∃ a sig64 sg owner, Address_from_hex rid = Ok a ∧ pq_signature q = Some sig64 ∧ b64_decode sig64 = Ok sg ∧
        Address_from_hex (Address_to_checksum a) = Ok owner ∧ recover_signer (digest_of (canonical_pull (Address_to_checksum a))) sg = Ok owner ∧
        (io = None → default 0 (pq_since q) < 2 ^ 63 → pq_limit q ≠ Some 0%nat →
           pl_messages body = take (Nat.min (default PULL_LIMIT_DEFAULT (pq_limit q)) PULL_LIMIT_MAX)
             (filter (λ e, default 0 (pq_since q) < se_sequence e) (inbox (ss_store st) (Address_to_checksum a))))
  end.
Proof.
  intros Hok. unfold pull_handler. destruct (validate_recipient_id identity_text rid) as [a|] eqn:Ha; cbn -[Nat.min PULL_LIMIT_MAX PULL_LIMIT_DEFAULT]; [|by intros [= <- <-]].
  apply validate_recipient_ok in Ha. destruct (pq_signature q) as [sig64|]; cbn -[Nat.min PULL_LIMIT_MAX PULL_LIMIT_DEFAULT]; [|by intros [= <- <-]].
  destruct (b64_decode sig64) as [sg|] eqn:Hsg; cbn -[Nat.min PULL_LIMIT_MAX PULL_LIMIT_DEFAULT]; [|by intros [= <- <-]].
  destruct (verify_pull_signature _ _ _) as [[]|] eqn:Hv; cbn -[Nat.min PULL_LIMIT_MAX PULL_LIMIT_DEFAULT]; [|by intros [= <- <-]].
  set (limit := Nat.min _ PULL_LIMIT_MAX). destruct (ms_pull _ _ _ _ _) as [envs|] eqn:Hp; cbn; [|by intros [= <- <-]]. intros [= <- <-]. split; [done|]. split; [done|].
  unfold verify_pull_signature, parse_claimed in Hv. destruct (Address_from_hex (Address_to_checksum a)) as [owner|] eqn:Ho; [|done]. cbn in Hv.
  exists a, sig64, sg, owner. split_and!; try done; [by eapply signed_by_ok|]. intros -> Hs Hl. cbn [pl_messages].
  assert (0 < limit)%nat as Hpos. { unfold limit, PULL_LIMIT_MAX, PULL_LIMIT_DEFAULT. destruct (pq_limit q) as [[|n]|]; cbn; [done|lia|lia]. }
  rewrite pull_law in Hp by done. congruence.
Qed.
(** *** Paging *)

(** The rest of an ascending list after the last element of a page. *)
Lemma next_page l cursor k x :
  StronglySorted seq_lt l → last (take k (filter (λ e, cursor < se_sequence e) l)) = Some x →
  filter (λ e, se_sequence x < se_sequence e) l = drop k (filter (λ e, cursor < se_sequence e) l).
Proof.
  intros Hs. set (m := filter (λ e, cursor < se_sequence e) l). intros [p Hp]%last_Some.
  assert (StronglySorted seq_lt (take k m ++ drop k m)) as Hm by (rewrite take_drop; by apply StronglySorted_filter).
  assert (cursor < se_sequence x) as Hx.
  { assert (x ∈ m) as [Hx _]%list_elem_of_filter; [|done]. rewrite <-(take_drop k m), Hp. set_solver. }
  assert (filter (λ e, se_sequence x < se_sequence e) l = filter (λ e, se_sequence x < se_sequence e) m) as ->.
  { unfold m. rewrite list_filter_filter. apply list_filter_iff. intros e. lia. }
  rewrite <-(take_drop k m) at 1. rewrite filter_app, Hp in *. apply StronglySorted_app in Hm as (Hlt & Hpx & _).
  apply StronglySorted_app in Hpx as (Hpx & _ & _). rewrite (filter_none _ (p ++ [x])), (filter_all _ (drop k m)); [done| |].
  - intros e He. apply Hlt; [set_solver|done].
  - intros e [He| ->%list_elem_of_singleton]%elem_of_app; [|lia]. specialize (Hpx e x He ltac:(set_solver)). unfold seq_lt in Hpx. lia.
Qed.

Lemma pull_all_pages pull sig64 page limit l fuel cursor all :
  (0 < limit)%nat → StronglySorted seq_lt l → (∀ e, e ∈ l → se_sequence e < 2 ^ 63) → cursor < 2 ^ 63 →
  (∀ cursor, cursor < 2 ^ 63 →
     let msgs := take limit (filter (λ e, cursor < se_sequence e) l) in
     pull (mkPullQuery (Some sig64) (Some cursor) (Some page)) =
       Ok (mkPullResponse msgs (match last msgs with Some e => se_sequence e | None => cursor end) (Nat.eqb (length msgs) limit))) →
  (length (filter (λ e, cursor < se_sequence e)%N l) < fuel)%nat →
  pull_all pull fuel sig64 cursor page all = Some (Ok (all ++ filter (λ e, cursor < se_sequence e) l)).
Proof.
  intros Hlim Hs Hbound Hcur Hpull. revert cursor all Hcur. induction fuel as [|fuel IH]; intros cursor all Hcur Hfuel; [lia|].
  cbn [pull_all]. rewrite (Hpull cursor Hcur). cbn [pl_messages pl_has_more pl_next_watermark]. set (m := filter (λ e, cursor < se_sequence e) l) in *.
  destruct (Nat.eqb_spec (length (take limit m)) limit) as [Hl|Hl].
  - destruct (last (take limit m)) as [x|] eqn:Hx; [|apply last_None in Hx; rewrite Hx in Hl; cbn in Hl; lia].
    pose proof (next_page l cursor limit x Hs Hx) as Hnext. fold m in Hnext. rewrite length_take in Hl.
    rewrite IH; [by rewrite Hnext, <-app_assoc, take_drop| |rewrite Hnext, length_drop; lia].
    apply Hbound. apply last_Some in Hx as [p Hp]. assert (x ∈ m) as Hin by (rewrite <-(take_drop limit m), Hp; set_solver). by apply list_elem_of_filter in Hin as [_ ?].
  - rewrite length_take in Hl. by rewrite take_ge by lia.
Qed.
(** *** Acknowledgements and sweeps *)

Lemma ack_handler_ok io rid req (st : ServerState S) : store_ok (ss_store st) →
  let st' := (ack_handler io rid req st).1 in
  store_ok (ss_store st') ∧
  ((∀ r, inbox (ss_store st') r = inbox (ss_store st) r) ∨
   ∃ a, Address_from_hex rid = Ok a ∧ ∀ r, inbox (ss_store st') r =
     if decide (r = Address_to_checksum a) then filter (λ e, se_msg_id e ∉ ak_msg_ids req) (inbox (ss_store st) (Address_to_checksum a)) else inbox (ss_store st) r).
Proof.
  intros Hok. unfold ack_handler.
  destruct (let? recipient := validate_recipient_id identity_text rid in _) as [recipient|] eqn:Hc; [|split; [done|by left]].
  destruct (validate_recipient_id identity_text rid) as [a|] eqn:Ha; [|done]. apply validate_recipient_ok in Ha. cbn in Hc.
  assert (recipient = Address_to_checksum a) as ->.
  { destruct (Nat.eqb _ 0); [done|]. destruct (negb _); [done|]. destruct (validate_all _); [|done]. cbn in Hc. destruct (b64_decode _); [|done]. cbn in Hc.
    destruct (verify_ack_signature _ _ _ _); [|done]. cbn in Hc. congruence. }
  destruct (failing_law (ss_store st) io Hok) as (_ & Hf & _). destruct (Hf (Address_to_checksum a) (ak_msg_ids req)) as [->|[err ->]]; [|split; [done|by left]].
  destruct (ack_law (ss_store st) (Address_to_checksum a) (ak_msg_ids req) Hok) as (s' & -> & Hok' & Hin). split; [done|]. right. by exists a.
Qed.

Lemma sweep_ok io now (st : ServerState S) : store_ok (ss_store st) →
  store_ok (ss_store (sweep io now st)) ∧
  ((∀ r, inbox (ss_store (sweep io now st)) r = inbox (ss_store st) r) ∨ ∀ r, inbox (ss_store (sweep io now st)) r = unexpired now (inbox (ss_store st) r)).
Proof.
  intros Hok. unfold sweep. destruct (failing_law (ss_store st) io Hok) as (_ & _ & Hf). destruct (Hf now) as [->|[err ->]]; [|split; [done|by left]].
  destruct (purge_law (ss_store st) now Hok) as (s' & n & -> & Hok' & Hin). assert (ss_store (if 0 <? n then on_mail_metrics (count_purged n) (with_store s' st) else with_store s' st) = s') as ->
    by (by destruct (0 <? n)). split; [done|by right].
Qed.

Lemma pull_handler_store io rid q (st : ServerState S) : ss_store (pull_handler io rid q st).1 = ss_store st.
Proof. unfold pull_handler. by destruct (let? recipient := _ in _) as [[[envs since] limit]|]. Qed.

(** *** Quotas *)

Lemma unexpired_later t t' b : (t <= t')%Z → unexpired t' b = unexpired t' (unexpired t b).
Proof. intros Ht. unfold unexpired. rewrite list_filter_filter. apply list_filter_iff. intros e. lia. Qed.

Definition within_quota (t : Z) (b : list StoredEnvelope) : Prop :=
  (length (unexpired t b) <= DEFAULT_MAX_INFLIGHT_PER_USER)%nat ∧ sum_sizes wire_size (unexpired t b) <= DEFAULT_MAX_TOTAL_BYTES_PER_USER.

Context {Q : QuotaLaws M}.

(** The messages for [r] that are admitted and not stored. *)
Definition on_the_way (r : string) (fl : InProgress) : list StoredEnvelope := fst <$> filter (λ p : StoredEnvelope * QuotaUsage, se_recipient_id p.1 = r) fl.

Record quota_inv (k : nat) (t : Z) (s : ServerState S * InProgress) : Prop := {
  qi_ok : store_ok (ss_store s.1);
  qi_size : Forall (λ p : StoredEnvelope * QuotaUsage, wire_size p.1 <= sp_max_envelope_bytes (ss_policy s.1)) s.2;
  qi_count r : (length (unexpired t (inbox (ss_store s.1) r)) + length (on_the_way r s.2) ≤ DEFAULT_MAX_INFLIGHT_PER_USER + (k - 1))%nat;
  qi_bytes r : sum_sizes wire_size (unexpired t (inbox (ss_store s.1) r)) + sum_sizes wire_size (on_the_way r s.2) <=
    DEFAULT_MAX_TOTAL_BYTES_PER_USER + N.of_nat (k - 1) * sp_max_envelope_bytes (ss_policy s.1)
}.

Lemma on_the_way_bounds r fl max : Forall (λ p : StoredEnvelope * QuotaUsage, wire_size p.1 <= max) fl →
  (length (on_the_way r fl) ≤ length fl)%nat ∧ sum_sizes wire_size (on_the_way r fl) <= N.of_nat (length fl) * max.
Proof.
  unfold on_the_way. induction 1 as [|p fl Hp Hfl [IH1 IH2]]; [done|]. rewrite filter_cons. destruct (decide _); rewrite ?fmap_cons, ?sum_sizes_cons; cbn [length]; (split; [lia|nia]).
Qed.

Lemma on_the_way_delete r fl i p : fl !! i = Some p →
  length (on_the_way r fl) = (length (on_the_way r (delete i fl)) + if decide (se_recipient_id p.1 = r) then 1 else 0)%nat ∧
  sum_sizes wire_size (on_the_way r fl) = sum_sizes wire_size (on_the_way r (delete i fl)) + (if decide (se_recipient_id p.1 = r) then wire_size p.1 else 0).
Proof.
  intros Hi. revert i Hi. unfold on_the_way. induction fl as [|q fl IH]; intros [|i] Hi; [done|done| |].
  - injection Hi as ->. change (delete 0%nat (p :: fl)) with fl. rewrite filter_cons. destruct (decide _); rewrite ?fmap_cons, ?sum_sizes_cons; cbn [length]; lia.
  - destruct (IH i Hi) as [H1 H2]. change (delete (Datatypes.S i) (q :: fl)) with (q :: delete i fl). rewrite !filter_cons.
    destruct (decide (se_recipient_id q.1 = r)); rewrite ?fmap_cons, ?sum_sizes_cons; cbn [length]; [|done]. rewrite H1, H2. split; lia.
Qed.

(** Fewer messages, or a later clock, and the same policy. *)
Lemma quota_inv_shrink k t t' st st' fl :
  store_ok (ss_store st') → ss_policy st' = ss_policy st →
  (∀ r, (length (unexpired t' (inbox (ss_store st') r)) ≤ length (unexpired t (inbox (ss_store st) r)))%nat ∧
        sum_sizes wire_size (unexpired t' (inbox (ss_store st') r)) <= sum_sizes wire_size (unexpired t (inbox (ss_store st) r))) →
  quota_inv k t (st, fl) → quota_inv k t' (st', fl).
Proof.
  intros Hok Hp Hle [_ Hs Hc Hb]. cbn [fst snd] in *. split; cbn [fst snd]; [done|by rewrite Hp| |]; intros r; destruct (Hle r) as [H1 H2].
  - specialize (Hc r). lia.
  - specialize (Hb r). rewrite Hp. lia.
Qed.

Lemma unexpired_filter_le t (P : StoredEnvelope → Prop) `{∀ x, Decision (P x)} b :
  (length (unexpired t (filter P b)) ≤ length (unexpired t b))%nat ∧ sum_sizes wire_size (unexpired t (filter P b)) <= sum_sizes wire_size (unexpired t b).
Proof.
  assert (unexpired t (filter P b) = filter P (unexpired t b)) as ->.
  { unfold unexpired. rewrite !list_filter_filter. apply list_filter_iff. intros e. tauto. }
  split; [apply length_filter|apply sum_sizes_filter].
Qed.

Lemma quota_inv_later k t t' s : (t <= t')%Z → quota_inv k t s → quota_inv k t' s.
Proof.
  intros Ht Hi. destruct s as [st fl]. eapply quota_inv_shrink; [apply (qi_ok _ _ _ Hi)|done| |done]. intros r. rewrite (unexpired_later t t' _ Ht). unfold unexpired at 1 3.
  split; [apply length_filter|apply sum_sizes_filter].
Qed.

Lemma quota_inv_admit k now_secs now rid req st fl env usage :
  (length (fl ++ [(env, usage)]) ≤ k)%nat → admit_enqueue identity_text None now_secs now rid req st = Ok (env, usage) →
  quota_inv k now (st, fl) → quota_inv k now (st, fl ++ [(env, usage)]).
Proof.
  intros Hk Ha [Hok Hs Hc Hb]. cbn [fst snd] in *. rewrite length_app in Hk. cbn [length] in Hk.
  apply admit_enqueue_ok in Ha as (_ & _ & _ & Hsz & _ & _ & Hu & Hcount & Hbytes).
  destruct (quota_law (ss_store st) now (se_recipient_id env) Hok) as (u & Hu' & Hl & Hbu). rewrite Hu in Hu'. injection Hu' as <-.
  assert (∀ r, on_the_way r (fl ++ [(env, usage)]) = on_the_way r fl ++ (if decide (se_recipient_id env = r) then [env] else [])) as Hway.
  { intros r. unfold on_the_way. rewrite filter_app, fmap_app, filter_cons. cbn [fst]. by destruct (decide _). }
  split; cbn [fst snd]; [done|apply Forall_app; by repeat constructor| |]; intros r; rewrite Hway; destruct (on_the_way_bounds r fl _ Hs) as [H1 H2];
    (destruct (decide (se_recipient_id env = r)) as [<-|]; [|rewrite app_nil_r; by auto]).
  - rewrite length_app. cbn [length]. lia.
  - rewrite sum_sizes_snoc. assert (N.of_nat (length fl) * sp_max_envelope_bytes (ss_policy st) <= N.of_nat (k - 1) * sp_max_envelope_bytes (ss_policy st)) by (apply N.mul_le_mono_r; lia). lia.
Qed.

Lemma quota_inv_store k t io i st fl env usage :
  fl !! i = Some (env, usage) → quota_inv k t (st, fl) → quota_inv k t ((persist_enqueue io env usage st).1, delete i fl).
Proof.
  intros Hi [Hok Hs Hc Hb]. cbn [fst snd] in *. destruct (persist_enqueue io env usage st) as [st' resp] eqn:Hp. apply persist_enqueue_ok in Hp as (Hok' & Hpol & _ & Hr); [|done].
  split; cbn [fst snd]; [done|rewrite Hpol; by apply Forall_delete| |]; intros r; destruct (on_the_way_delete r fl i (env, usage) Hi) as [H1 H2]; cbn [fst] in H1, H2; specialize (Hc r); specialize (Hb r);
    (destruct resp as [[status o]|]; [|rewrite Hr, ?Hpol; destruct (decide _); lia]); unfold enqueued in Hr;
    (destruct (eo_duplicate o); [destruct Hr as (_ & -> & _); rewrite ?Hpol; destruct (decide _); lia|]); destruct Hr as (_ & _ & ->); rewrite ?Hpol;
    (destruct (decide (r = se_recipient_id env)) as [->|]; [rewrite decide_True in H1 by done; rewrite decide_True in H2 by done|rewrite decide_False in H1 by congruence; rewrite decide_False in H2 by congruence; lia]);
    unfold unexpired in *; rewrite filter_app, filter_cons; destruct (decide _); rewrite ?app_nil_r, ?length_app; cbn [length filter list_filter]; try lia.
  rewrite sum_sizes_snoc. change (wire_size (set_sequence (eo_sequence o) env)) with (wire_size env). lia.
Qed.

Lemma quota_inv_step k t c s : (t <= step_clock t c)%Z → (length (server_step identity_text s c).2 ≤ k)%nat →
  quota_inv k t s → quota_inv k (step_clock t c) (server_step identity_text s c).
Proof.
  intros Ht Hk Hi%(quota_inv_later k t _ s Ht). pose proof (qi_ok _ _ _ Hi) as Hok. destruct s as [st fl]. destruct c as [ns now rid req|io i|io rid q|io rid req|io now]; cbn [server_step step_clock] in *.
  - destruct (admit_enqueue _ _ _ _ _ _ _) as [[env usage]|e] eqn:Ha; [by eapply quota_inv_admit|]. by apply (quota_inv_shrink k now now st _ fl).
  - destruct (fl !! i) as [[env usage]|] eqn:Hl; [|done]. by apply quota_inv_store.
  - apply (quota_inv_shrink k t t st _ fl); [by rewrite pull_handler_store| |by rewrite pull_handler_store|exact Hi]. unfold pull_handler. by destruct (let? recipient := _ in _) as [[[? ?] ?]|].
  - destruct (ack_handler_ok io rid req st Hok) as [Hok' Hin]. apply (quota_inv_shrink k t t st _ fl); [done| | |exact Hi].
    + unfold ack_handler. destruct (let? recipient := _ in _); [|done]. by destruct (ms_ack _ _ _ _) as [? [?|?]].
    + intros r. destruct Hin as [->|(a & _ & ->)]; [done|]. destruct (decide (r = Address_to_checksum a)) as [->|]; [apply unexpired_filter_le|done].
  - destruct (sweep_ok io now st Hok) as [Hok' Hin]. apply (quota_inv_shrink k now now st _ fl); [done| | |exact Hi].
    + unfold sweep. destruct (ms_purge_expired _ _ _) as [? [n|?]]; [|done]. by destruct (0 <? n).
    + intros r. destruct Hin as [->| ->]; [done|]. apply (unexpired_filter_le now _).
Qed.

(** *** Delivery *)

(** The call neither acknowledges the message nor lets it expire. *)
Definition keeps (r msg_id : string) (expires_at : Z) (c : MailCall) : Prop :=
  match c with
  | CallAck _ rid req => ∀ a, Address_from_hex rid = Ok a → Address_to_checksum a = r → msg_id ∉ ak_msg_ids req
  | CallSweep _ now => (now < expires_at)%Z
  | _ => True
  end.

Lemma enqueue_handler_store io_quota io_store now_secs now rid req (st : ServerState S) :
  store_ok (ss_store st) →
  let st' := (enqueue_handler io_quota io_store now_secs now rid req st).1 in
  store_ok (ss_store st') ∧ ∀ r e, e ∈ inbox (ss_store st) r → e ∈ inbox (ss_store st') r.
Proof.
  intros Hok. unfold enqueue_handler. destruct (admit_enqueue _ _ _ _ _ _ _) as [[env usage]|err]; [|done].
  destruct (persist_enqueue io_store env usage st) as [st' resp] eqn:Hp. apply persist_enqueue_ok in Hp as (Hok' & _ & _ & Hr); [|done]. split; [done|].
  intros r e He. cbn [fst]. destruct resp as [[status o]|]; [|by rewrite Hr]. unfold enqueued in Hr. destruct (eo_duplicate o).
  - destruct Hr as (_ & -> & _). done.
  - destruct Hr as (_ & _ & ->). destruct (decide _); [set_solver|done].
Qed.

Lemma step_keeps_message c (st : ServerState S) r e :
  store_ok (ss_store st) → e ∈ inbox (ss_store st) r → keeps r (se_msg_id e) (se_expires_at e) c →
  store_ok (ss_store (mail_step identity_text st c)) ∧ e ∈ inbox (ss_store (mail_step identity_text st c)) r.
Proof.
  intros Hok He Hk. destruct c as [io ns now rid req|io rid q|io rid req|io now]; cbn [mail_step keeps] in *.
  - destruct (enqueue_handler_store None io ns now rid req st Hok) as [Hok' Hin]. split; [done|by apply Hin].
  - by rewrite pull_handler_store.
  - destruct (ack_handler_ok io rid req st Hok) as [Hok' [Hin|(a & Ha & Hin)]]; (split; [done|]); rewrite Hin; [done|].
    destruct (decide (r = Address_to_checksum a)) as [->|]; [|done]. apply list_elem_of_filter. split; [by eapply Hk|done].
  - destruct (sweep_ok io now st Hok) as [Hok' [Hin|Hin]]; (split; [done|]); rewrite Hin; [done|]. by apply list_elem_of_filter.
Qed.

Lemma run_keeps_message cs (st : ServerState S) r e :
  store_ok (ss_store st) → e ∈ inbox (ss_store st) r → Forall (keeps r (se_msg_id e) (se_expires_at e)) cs →
  store_ok (ss_store (foldl (mail_step identity_text) st cs)) ∧ e ∈ inbox (ss_store (foldl (mail_step identity_text) st cs)) r.
Proof.
  intros Hok He Hk. revert st Hok He. induction Hk as [|c cs Hc _ IH]; intros st Hok He; [done|]. cbn [foldl].
  destruct (step_keeps_message c st r e Hok He Hc). by apply IH.
Qed.

(** The answer to an authorised request for a page. *)
Lemma pull_handler_page rid a sig64 sg (st : ServerState S) cursor page :
  store_ok (ss_store st) → validate_recipient_id identity_text rid = Ok a → b64_decode sig64 = Ok sg →
  verify_pull_signature identity_text (Address_to_checksum a) sg = Ok () → cursor < 2 ^ 63 → (0 < page)%nat →
  let limit := Nat.min page PULL_LIMIT_MAX in
  let msgs := take limit (filter (λ e, cursor < se_sequence e) (inbox (ss_store st) (Address_to_checksum a))) in
  (pull_handler None rid (mkPullQuery (Some sig64) (Some cursor) (Some page)) st).2 =
    Ok (200, mkPullResponse msgs (match last msgs with Some e => se_sequence e | None => cursor end) (Nat.eqb (length msgs) limit)).
Proof.
  intros Hok Ha Hsg Hv Hc Hp limit msgs. unfold pull_handler. rewrite Ha. cbn -[Nat.min PULL_LIMIT_MAX]. rewrite Hsg. cbn -[Nat.min PULL_LIMIT_MAX]. rewrite Hv.
  cbn -[Nat.min PULL_LIMIT_MAX]. rewrite pull_law; [done|done|done|]. unfold PULL_LIMIT_MAX. lia.
Qed.

Context {SQ : SequenceLaws M}.

Lemma checksum_id_ok `{!HexLaws HX} s a : Address_from_hex s = Ok a → id_ok (Address_to_checksum a).
Proof.
  unfold Address_from_hex, Address_from_slice. destruct (hex_decode (strip_0x s)) as [bs|] eqn:Hd; [|done]. destruct (Nat.eqb_spec (length bs) EVM_ADDRESS_LEN) as [Hl|]; [|done].
  intros [= <-]. unfold id_ok, Address_to_checksum. cbn [addr_bytes].
  destruct (checksum_chars_spec (keccak256 (str_bytes (hex_encode bs))) 0 (hex_encode bs)) as (_ & _ & Hlen); [by eapply hex_encode_lower, hex_decode_bytes|].
  cbv zeta. assert (∀ s, String.length ("0x" +:+ s) = Datatypes.S (Datatypes.S (String.length s))) as -> by done. rewrite Hlen, hex_encode_length, Hl. unfold EVM_ADDRESS_LEN. lia.
Qed.

(** The documented use of the client: the caller is told to sign the message without a
    time, and the client sends the request with one. The server accepts it only when
    the signature stands for another message as well, which it does for no honest
    signature. *)
Theorem client_signature_reused io_quota io_store now_secs' now_secs now rid sender_id msg_id ciphertext signature ttl (st st' : ServerState S) resp
  `{!HexLaws HX} `{!Blake3Laws B3} `{!Base64Laws B64} :
  bytes_ok ciphertext → bytes_ok signature →
  enqueue_handler io_quota io_store now_secs now rid (client_enqueue_request now_secs' sender_id msg_id ciphertext signature ttl) st = (st', Ok resp) →
  ∃ r msg a, Address_from_hex rid = Ok r ∧ msg ≠ canonical_enqueue (Address_to_checksum r) msg_id ciphertext ∧ recover_signer (digest_of msg) signature = Ok a.
Proof.
  intros Hct Hsig. unfold enqueue_handler. destruct (admit_enqueue _ _ _ _ _ _ _) as [[env usage]|e] eqn:Ha; [|done]. intros _.
  unfold admit_enqueue in Ha. destruct (check_request _ _ _ _ _) as [[[[recipient sender] c] sg]|] eqn:Hc; [|done]. clear Ha.
  apply check_request_ok in Hc as ((r & Hr & ->) & Hm & Hc & Hs & a & msg & _ & Hrec & Hmsg). cbn [client_enqueue_request er_ciphertext_b64 er_sender_signature_b64 er_msg_id] in *.
  rewrite b64_decode_encode in Hc, Hs by done. injection Hc as <-. injection Hs as <-. exists r, msg, a. split_and!; [done| |done]. intros ->.
  destruct (Hmsg (mkStoredEnvelope "" (Address_to_checksum r) msg_id ciphertext [] 0 0 0)) as [_ Hbad]; [done..|].
  apply validate_msg_id_ok in Hm as (Hm & _). pose proof (checksum_id_ok _ _ Hr) as Hid.
  by destruct (signatures_differ (Address_to_checksum r) msg_id ciphertext (Address_to_checksum r) msg_id ciphertext now_secs' Hid Hm Hid Hm Hbad).
Qed.

(** The lifetime of a message is within the bounds of the retention policy, to the second. *)
Lemma effective_ttl_bounds p r ttl : rp_min_ttl_secs p <= rp_max_ttl_secs p → rp_min_ttl_secs p <= effective_ttl p r ttl / NANOS <= rp_max_ttl_secs p.
Proof.
  intros Hp. unfold effective_ttl. set (secs := match rp_overrides p !! r with Some o => rt_ttl_secs o | None => ttl / NANOS end).
  assert (∀ n, from_secs n / NANOS = n) as Hn by (intros n; unfold from_secs; by apply N.div_mul).
  destruct (N.ltb_spec secs (rp_min_ttl_secs p)); [rewrite Hn; lia|]. destruct (N.ltb_spec (rp_max_ttl_secs p) secs); [rewrite Hn; lia|].
  unfold secs in *. destruct (rp_overrides p !! r); [rewrite Hn|]; lia.
Qed.
End ServerLemmas.

(** ** Examples *)

#[local] Existing Instances toy_keccak toy_secp.
#[local] Instance toy_base64 : Base64 :=
  {| b64_encode := hex_encode_ref; b64_decode s := match hex_decode_ref s with Some bs => Ok bs | None => Err "invalid"%string end |}.
#[local] Instance toy_base64_laws : Base64Laws toy_base64.
Proof. split. intros bs Hbs. cbn. pose proof (hex_decode_encode (H := hex_ref) bs Hbs) as Hd. cbn in Hd. by rewrite Hd. Qed.

(** With the toy curve the first bytes of a signature are the address of the signer. *)
Definition mx_address (n : N) : Address := mkAddress (replicate 20 n).
Definition mx_signature (n : N) : list N := replicate 64 n ++ [27].
Definition mx_id (n : N) : string := Address_to_checksum (mx_address n).
Definition mx_text (e : IdentityError) : string := "bad address".
Definition mx_msg (n : N) : string := hex_encode_ref (be_bytes 16 n).
Definition mx_request (n : N) : EnqueueRequest :=
  mkEnqueueRequest (mx_id 1) (mx_msg n) (b64_encode [n mod 256]) (b64_encode (mx_signature 1)) None (Some 1000%Z).
Definition mx_enqueue {S} {M : MailboxStore S} (n : N) (st : ServerState S) := enqueue_handler mx_text None None 1000 5 (mx_id 2) (mx_request n) st.
Definition mx_pull {S} {M : MailboxStore S} (since : N) (limit : nat) (st : ServerState S) :=
  pull_handler mx_text None (mx_id 2) (mkPullQuery (Some (b64_encode (mx_signature 2))) (Some since) (Some limit)) st.

Definition mx_sqlite : ServerState SqliteStore := ServerState_new [] ServerPolicy_default.
Definition mx_memory : ServerState MemoryStore := ServerState_new ∅ ServerPolicy_default.

Example mx_accepted : (response_status (mx_enqueue 7 mx_sqlite).2, response_status (mx_pull 0 10 mx_sqlite).2) = (202, 200).
Proof. vm_compute. reflexivity. Qed.

(** The depth of the queue is decreased by what is pulled, not by what is removed. *)
Example queue_depth_negative :
  let st := (mx_enqueue 7 mx_sqlite).1 in let st := (mx_pull 0 10 st).1 in let st := (mx_pull 0 10 st).1 in
  mm_queue_depth (ss_metrics st) = (-1)%Z ∧ length (ss_store st) = 1%nat.
Proof. vm_compute. done. Qed.

(** A full inbox: 1000 messages, or 999 of them. *)
Definition mx_full (n : nat) : ServerState MemoryStore :=
  with_store {[mx_id 2 := (λ i, mkStoredEnvelope (mx_id 1) (mx_id 2) (mx_msg (N.of_nat i)) [] [] (N.of_nat i) 0 100) <$> seq 1 n]} mx_memory.

(** Two requests that are checked before either is stored exceed the quota. *)
Example quota_race :
  let st := mx_full 999 in
  match admit_enqueue mx_text None 1000 5 (mx_id 2) (mx_request 2000) st, admit_enqueue mx_text None 1000 5 (mx_id 2) (mx_request 2001) st with
  | Ok (e1, u1), Ok (e2, u2) =>
      let st := (persist_enqueue None e1 u1 st).1 in let st := (persist_enqueue None e2 u2 st).1 in length (mem_bucket (mx_id 2) (ss_store st)) = 1001%nat
  | _, _ => False
  end.
Proof. vm_compute. reflexivity. Qed.

(** A repeated request for a message of a full inbox is refused for the quota. *)
Example duplicate_refused_when_full : (mx_enqueue 5 (mx_full 1000)).2 = Err (QuotaExceeded "inflight message count exceeded") ∧ response_status (mx_enqueue 5 (mx_full 999)).2 = 200.
Proof. vm_compute. done. Qed.

(** The quotas of the configuration have no effect. *)
Lemma quota_ignores_config cfg :
  quota_policy (ServerPolicy_from_config cfg) = mkQuotaPolicy (mc_max_inflight_per_user MailboxConfig_default) (mc_max_total_bytes_per_user MailboxConfig_default).
Proof. reflexivity. Qed.

(** A request may ask for a lifetime above the default, which is 30 days. *)
Example ttl_above_default : effective_ttl RetentionPolicy_default (mx_id 2) (from_secs (80 * 86400)) = from_secs (80 * 86400).
Proof. vm_compute. reflexivity. Qed.

(** With a page size of 0 the client never returns over the SQLite backend, and stops
    after the first message over the memory backend. *)
Lemma page_zero_loops body_text (st : ServerState SqliteStore) fuel all :
  pull_all (λ q, client_pull body_text (pull_handler mx_text None (mx_id 2) q st).2) fuel (b64_encode (mx_signature 2)) 0 0 all = None.
Proof.
  revert all. induction fuel as [|fuel IH]; intros all; [done|]. cbn [pull_all].
  assert ((pull_handler mx_text None (mx_id 2) (mkPullQuery (Some (b64_encode (mx_signature 2))) (Some 0) (Some 0%nat)) st).2 = Ok (200, mkPullResponse [] 0 true)) as ->.
  { unfold pull_handler. replace (validate_recipient_id mx_text (mx_id 2)) with (Ok (A := Address) (E := MailboxError) (mx_address 2)) by (by vm_compute). cbn -[sql_pull]. done. }
  cbn [client_pull pl_messages pl_has_more pl_next_watermark]. apply IH.
Qed.

(** *** Witnesses *)

Lemma signatures_bind_witness :
  canonical_enqueue (mx_id 2) (mx_msg 7) [1] ≠ canonical_enqueue_with_timestamp (mx_id 2) (mx_msg 7) [1] 1000 ∧
  (canonical_ack (mx_id 2) [mx_msg 7] = canonical_ack (mx_id 2) [mx_msg 7] → mx_id 2 = mx_id 2 ∧ [mx_msg 7] = [mx_msg 7]).
Proof.
  destruct (signatures_bind (mx_id 2) (mx_msg 7) [1] 1000 (mx_id 2) (mx_msg 7) [1] 1000 [mx_msg 7] [mx_msg 7]) as (_ & H1 & _ & _ & _ & H2);
    [apply Nat.leb_le; vm_compute; reflexivity|apply Nat.leb_le; vm_compute; reflexivity|apply Nat.leb_le; vm_compute; reflexivity|
     apply Nat.leb_le; vm_compute; reflexivity|vm_compute; reflexivity|vm_compute; reflexivity|].
  exact (conj H1 H2).
Defined.

Lemma empty_sql_ok : store_ok (ss_store mx_sqlite).
Proof. intros r. split_and!; constructor. Qed.

Lemma enqueue_admission_witness :
  ∃ o env a msg, (mx_enqueue 7 mx_sqlite).2 = Ok (202, o) ∧ Address_from_hex (se_sender_id env) = Ok a ∧ recover_signer (digest_of msg) (se_sender_signature env) = Ok a ∧
    signed_message 1000 (sp_signature_max_age_secs (ss_policy mx_sqlite)) (mx_request 7) env msg ∧ enqueued mx_sqlite (mx_enqueue 7 mx_sqlite).1 env 202 o.
Proof.
  pose proof (enqueue_admission mx_text None None 1000 5 (mx_id 2) (mx_request 7) mx_sqlite (mx_enqueue 7 mx_sqlite).1 (mx_enqueue 7 mx_sqlite).2
    empty_sql_ok (surjective_pairing _)) as [_ H].
  assert (∃ o, (mx_enqueue 7 mx_sqlite).2 = Ok (202, o)) as [o Ho] by (eexists; vm_compute; reflexivity).
  rewrite Ho in H. destruct H as (env & a & msg & H1 & H2 & H3 & _ & _ & _ & H4). exists o, env, a, msg. split_and!; [exact Ho|exact H1|exact H2|exact H3|exact H4].
Defined.

Lemma pull_authorised_witness : ss_store (mx_pull 0 10 mx_sqlite).1 = [].
Proof.
  exact (proj1 (pull_authorised mx_text None (mx_id 2) _ mx_sqlite (mx_pull 0 10 mx_sqlite).1 (mx_pull 0 10 mx_sqlite).2 empty_sql_ok (surjective_pairing _))).
Defined.

Definition mx_steps : list ServerStep := [StAdmit 1000 5 (mx_id 2) (mx_request 7); StAdmit 1000 5 (mx_id 2) (mx_request 8); StStore None 1; StSweep None 6; StStore None 0].



Lemma client_signature_reused_witness :
  ∃ r msg a, Address_from_hex (mx_id 2) = Ok r ∧ msg ≠ canonical_enqueue (Address_to_checksum r) (mx_msg 7) [1] ∧ recover_signer (digest_of msg) (mx_signature 1) = Ok a.
Proof.
  refine (client_signature_reused mx_text None None 1000 1000 5 (mx_id 2) (mx_id 1) (mx_msg 7) [1] (mx_signature 1) None mx_sqlite
    (enqueue_handler mx_text None None 1000 5 (mx_id 2) (client_enqueue_request 1000 (mx_id 1) (mx_msg 7) [1] (mx_signature 1) None) mx_sqlite).1
    (202, mkEnqueueOutcome (mx_msg 7) 1 5 (5 + chrono_from_std (from_secs (30 * 86400)))%Z false) _ _ _).
  - by repeat constructor.
  - apply (bool_decide_unpack _). vm_compute. exact I.
  - vm_compute; reflexivity.
Defined.
