(* ===== verification/BaoTree.v ===== *)
(** * Bao trees ([crates/a3net-blobstore/src/bao_tree.rs])

    The hash tree over the chunks of a blob, its Merkle paths and range proofs,
    and the streaming builder. A [&[u8]] is a list of bytes; offsets and lengths
    are [u64] of blobs shorter than [2^64] bytes. The lazily computed parent
    levels are a cache of [build_parents] and are recomputed here. The builder's
    running whole-blob hasher is never read and is left out. *)
From stdpp Require Import prelude strings gmap list.
From Stdlib Require Import NArith Lia Arith.
From S2P Require Import Prelude NodeId ContentHash.

#[local] Open Scope N_scope.

Definition CHUNK_SIZE : nat := N.to_nat (16 * 1024).

(** [slice::chunks]; a slice has at most its length of chunks. *)
Fixpoint chunks_aux {A} (fuel cs : nat) (l : list A) : list (list A) :=
  match fuel, l with
  | S fuel', _ :: _ => take cs l :: chunks_aux fuel' cs (drop cs l)
  | _, _ => []
  end.
Definition chunks {A} (cs : nat) (l : list A) : list (list A) := chunks_aux (length l) cs l.

Inductive BaoTreeError : Type :=
| LeafOutOfRange (index total : nat)
| LeafHashMismatch (index : nat) (expected actual : ContentHash)
| RootHashMismatch (expected actual : ContentHash)
| InvalidRange (start end_ : N)
| RangeOutOfBounds (range_end total_len : N)
| ProofVerificationFailed.

Record BaoLeaf : Type := mkBaoLeaf { bl_offset : N; bl_data : list N; bl_hash : ContentHash }.

Record BaoTreeMeta : Type := mkBaoTreeMeta {
  bm_root_hash : ContentHash;
  bm_total_len : N;
  bm_height : N
}.

(** Per level, from the leaves up. *)
Record Parents : Type := mkParents {
  par_data : list (list ContentHash);
  par_offsets : list (list N);
  par_lens : list (list N)
}.

Record BaoTree : Type := mkBaoTree { bt_leaves : list BaoLeaf; bt_meta : BaoTreeMeta }.

Record MerkleSibling : Type := mkMerkleSibling {
  ms_level : N;
  ms_index : nat;
  ms_offset : N;
  ms_len : N;
  ms_hash : ContentHash;
  ms_is_left : bool;
  ms_is_null : bool
}.

Record MerklePath : Type := mkMerklePath {
  mp_leaf_index : nat;
  mp_leaf_offset : N;
  mp_leaf_len : N;
  mp_siblings : list MerkleSibling
}.

Record BaoProof : Type := mkBaoProof {
  bp_root_hash : ContentHash;
  bp_total_len : N;
  bp_leaves : list BaoLeaf;
  bp_paths : list MerklePath
}.

Section Bao.
Context `{HB : Blake3}.

Definition combine_hash_pair (a b : ContentHash) : ContentHash :=
  ContentHash_from_bytes (ContentHash_as_bytes_array a ++ ContentHash_as_bytes_array b).

Definition BaoLeaf_new (offset : N) (data : list N) : BaoLeaf :=
  mkBaoLeaf offset data (ContentHash_from_bytes data).

(** The loop of [build]: leaves at running offsets. *)
Fixpoint leaves_from (offset : N) (cs : list (list N)) : list BaoLeaf :=
  match cs with
  | [] => []
  | c :: cs' => BaoLeaf_new offset c :: leaves_from (offset + N.of_nat (length c)) cs'
  end.

(** One level up: pairs are combined, an odd node is carried over. *)
Fixpoint next_level (l : list ContentHash) : list ContentHash :=
  match l with
  | a :: b :: l' => combine_hash_pair a b :: next_level l'
  | _ => l
  end.

(** The [while] loop: the level reached and the number of rounds. *)
Fixpoint root_loop (fuel : nat) (level : list ContentHash) (height : N) : list ContentHash * N :=
  match fuel with
  | O => (level, height)
  | S fuel' => if Nat.ltb 1 (length level) then root_loop fuel' (next_level level) (height + 1)
               else (level, height)
  end.

Definition empty_hash : ContentHash := ContentHash_from_bytes [].

Definition compute_root_and_height (leaves : list BaoLeaf) : ContentHash * N :=
  match leaves with
  | [] => (empty_hash, 0)
  | _ =>
      let '(level, height) := root_loop (length leaves) (bl_hash <$> leaves) 0 in
      let root := match level with h :: _ => h | [] => empty_hash end in
      (root, if Nat.eqb (length leaves) 1 && (height =? 0) then 1 else height)
  end.

Definition tree_of_leaves (leaves : list BaoLeaf) (total_len : N) : BaoTree :=
  let '(root, height) := compute_root_and_height leaves in
  mkBaoTree leaves (mkBaoTreeMeta root total_len height).

Definition build_with (chunk_size : nat) (content : list N) : BaoTree :=
  tree_of_leaves (leaves_from 0 (chunks chunk_size content)) (N.of_nat (length content)).

Definition BaoTree_build (content : list N) : BaoTree := build_with CHUNK_SIZE content.

(** *** Parent levels *)

Fixpoint next_offsets (l : list N) : list N :=
  match l with
  | a :: _ :: l' => a :: next_offsets l'
  | _ => l
  end.

Fixpoint next_lens (l : list N) : list N :=
  match l with
  | a :: b :: l' => a + b :: next_lens l'
  | _ => l
  end.

Fixpoint build_levels (fuel : nat) (level : list ContentHash) (offsets lens : list N) : Parents :=
  match fuel with
  | O => mkParents [] [] []
  | S fuel' =>
      if Nat.ltb 1 (length level) then
        let up := build_levels fuel' (next_level level) (next_offsets offsets) (next_lens lens) in
        mkParents (level :: par_data up) (offsets :: par_offsets up) (lens :: par_lens up)
      else mkParents [] [] []
  end.

Definition build_parents (leaves : list BaoLeaf) : Parents :=
  build_levels (length leaves) (bl_hash <$> leaves) (bl_offset <$> leaves)
    ((λ l, N.of_nat (length (bl_data l))) <$> leaves).

(** ** Paths and proofs *)

Definition leaf_indices_for_range (t : BaoTree) (start end_ : N) : list nat :=
  fst <$> filter (λ p, bl_offset p.2 < end_ ∧ start < bl_offset p.2 + N.of_nat (length (bl_data p.2)))
    (imap pair (bt_leaves t)).

Definition verify_leaf (t : BaoTree) (index : nat) : result BaoTreeError unit :=
  match bt_leaves t !! index with
  | None => Err (LeafOutOfRange index (length (bt_leaves t)))
  | Some leaf =>
      let computed := ContentHash_from_bytes (bl_data leaf) in
      if decide (computed = bl_hash leaf) then Ok tt else Err (LeafHashMismatch index (bl_hash leaf) computed)
  end.

Definition verify_tree (t : BaoTree) : result BaoTreeError unit :=
  let computed := (compute_root_and_height (bt_leaves t)).1 in
  if decide (computed = bm_root_hash (bt_meta t)) then Ok tt
  else Err (RootHashMismatch (bm_root_hash (bt_meta t)) computed).

(** The loop of [merkle_path_for_leaf] over the levels still to visit. *)
Fixpoint collect_siblings (level : nat) (current_index : nat) (data : list (list ContentHash))
    (offsets lens : list (list N)) : list MerkleSibling :=
  match data, offsets, lens with
  | d :: data', o :: offsets', l :: lens' =>
      let sibling_index := if Nat.even current_index then (current_index + 1)%nat
                           else (current_index - 1)%nat in
      let s :=
        match d !! sibling_index with
        | Some h =>
            mkMerkleSibling (N.of_nat level mod 256) sibling_index
              (default 0 (o !! sibling_index)) (default 0 (l !! sibling_index)) h
              (Nat.even sibling_index) false
        | None => mkMerkleSibling (N.of_nat level mod 256) sibling_index 0 0 empty_hash true true
        end in
      s :: collect_siblings (S level) (Nat.div current_index 2) data' offsets' lens'
  | _, _, _ => []
  end.

Definition merkle_path_for_leaf (t : BaoTree) (leaf_index : nat) : result BaoTreeError MerklePath :=
  match bt_leaves t !! leaf_index with
  | None => Err (LeafOutOfRange leaf_index (length (bt_leaves t)))
  | Some leaf =>
      let parents := build_parents (bt_leaves t) in
      Ok (mkMerklePath leaf_index (bl_offset leaf) (N.of_nat (length (bl_data leaf)))
            (collect_siblings 0 leaf_index (par_data parents) (par_offsets parents) (par_lens parents)))
  end.

Definition combine_sibling (current : ContentHash) (s : MerkleSibling) : ContentHash :=
  if ms_is_null s then current
  else if ms_is_left s then combine_hash_pair (ms_hash s) current
  else combine_hash_pair current (ms_hash s).

Definition compute_root (p : MerklePath) (leaf_hash : ContentHash) : ContentHash :=
  foldl combine_sibling leaf_hash (mp_siblings p).

Definition MerklePath_verify (p : MerklePath) (leaf_hash expected_root : ContentHash)
  : result BaoTreeError unit :=
  if decide (compute_root p leaf_hash = expected_root) then Ok tt else Err ProofVerificationFailed.

Definition verify_path (t : BaoTree) (leaf_index : nat) (leaf_hash : ContentHash)
  : result BaoTreeError ContentHash :=
  match merkle_path_for_leaf t leaf_index with
  | Ok path => Ok (compute_root path leaf_hash)
  | Err e => Err e
  end.

(** The leaves of the given indices with their paths. *)
Fixpoint prove_leaves (t : BaoTree) (indices : list nat) : result BaoTreeError (list (BaoLeaf * MerklePath)) :=
  match indices with
  | [] => Ok []
  | i :: indices' =>
      match bt_leaves t !! i, merkle_path_for_leaf t i with
      | Some leaf, Ok path =>
          match prove_leaves t indices' with
          | Ok rest => Ok ((leaf, path) :: rest)
          | Err e => Err e
          end
      | _, Err e => Err e
      | None, _ => Err (LeafOutOfRange i (length (bt_leaves t)))
      end
  end.

Definition proof_for_range (t : BaoTree) (start end_ : N) : result BaoTreeError BaoProof :=
  if end_ <=? start then Err (InvalidRange start end_)
  else if bm_total_len (bt_meta t) <? end_ then Err (RangeOutOfBounds end_ (bm_total_len (bt_meta t)))
  else
    match prove_leaves t (leaf_indices_for_range t start end_) with
    | Ok ps => Ok (mkBaoProof (bm_root_hash (bt_meta t)) (bm_total_len (bt_meta t)) ps.*1 ps.*2)
    | Err e => Err e
    end.

(** The body of the verification loops. *)
Definition verify_one (index : nat) (leaf : BaoLeaf) (path : MerklePath) (expected_root : ContentHash)
  : result BaoTreeError unit :=
  let computed := ContentHash_from_bytes (bl_data leaf) in
  if decide (computed = bl_hash leaf) then MerklePath_verify path (bl_hash leaf) expected_root
  else Err (LeafHashMismatch index (bl_hash leaf) computed).

Fixpoint verify_all (leaves : list (BaoLeaf * MerklePath)) (expected_root : ContentHash)
  : result BaoTreeError unit :=
  match leaves with
  | [] => Ok tt
  | (leaf, path) :: rest =>
      match verify_one 0 leaf path expected_root with
      | Ok _ => verify_all rest expected_root
      | Err e => Err e
      end
  end.

Definition BaoProof_verify (p : BaoProof) (expected_root : ContentHash) : result BaoTreeError unit :=
  if decide (bp_root_hash p = expected_root) then
    if Nat.eqb (length (bp_leaves p)) (length (bp_paths p))
    then verify_all (zip (bp_leaves p) (bp_paths p)) expected_root
    else Err ProofVerificationFailed
  else Err ProofVerificationFailed.

(** [verify_subset]; [None] is the panic of [self.paths[idx]] on a proof with
    fewer paths than leaves, whose lengths are not compared here. *)
Fixpoint BaoProof_verify_subset (p : BaoProof) (indices : list nat) (expected_root : ContentHash)
  : option (result BaoTreeError unit) :=
  match indices with
  | [] => Some (Ok tt)
  | idx :: rest =>
      match bp_leaves p !! idx with
      | None => Some (Err (LeafOutOfRange idx (length (bp_leaves p))))
      | Some leaf =>
          match bp_paths p !! idx with
          | None => None
          | Some path =>
              match verify_one idx leaf path expected_root with
              | Ok _ => BaoProof_verify_subset p rest expected_root
              | Err e => Some (Err e)
              end
          end
      end
  end.

(** Levels by index. *)
Definition parents_at_level (t : BaoTree) (level : nat) : option (list ContentHash) :=
  par_data (build_parents (bt_leaves t)) !! level.
Definition offsets_at_level (t : BaoTree) (level : nat) : option (list N) :=
  par_offsets (build_parents (bt_leaves t)) !! level.
Definition lens_at_level (t : BaoTree) (level : nat) : option (list N) :=
  par_lens (build_parents (bt_leaves t)) !! level.

(** ** The streaming builder *)

Record BaoTreeBuilder : Type := mkBaoTreeBuilder {
  bb_leaves : list BaoLeaf;
  bb_current_offset : N;
  bb_chunk_buf : list N;
  bb_chunk_size : nat
}.

Definition builder_with (chunk_size : nat) : BaoTreeBuilder := mkBaoTreeBuilder [] 0 [] chunk_size.
Definition BaoTreeBuilder_new : BaoTreeBuilder := builder_with CHUNK_SIZE.

(** A full or final chunk becomes a leaf. *)
Definition flush (b : BaoTreeBuilder) : BaoTreeBuilder :=
  mkBaoTreeBuilder (bb_leaves b ++ [BaoLeaf_new (bb_current_offset b) (bb_chunk_buf b)])
    (bb_current_offset b + N.of_nat (length (bb_chunk_buf b))) [] (bb_chunk_size b).

(** The [while] loop of [write]; each pass takes at least one byte. *)
Fixpoint write_loop (fuel : nat) (b : BaoTreeBuilder) (remaining : list N) : BaoTreeBuilder :=
  match fuel, remaining with
  | S fuel', _ :: _ =>
      let space := (bb_chunk_size b - length (bb_chunk_buf b))%nat in
      let n := Nat.min space (length remaining) in
      let b := mkBaoTreeBuilder (bb_leaves b) (bb_current_offset b)
                 (bb_chunk_buf b ++ take n remaining) (bb_chunk_size b) in
      let b := if Nat.eqb (length (bb_chunk_buf b)) (bb_chunk_size b) then flush b else b in
      write_loop fuel' b (drop n remaining)
  | _, _ => b
  end.

Definition BaoTreeBuilder_write (b : BaoTreeBuilder) (buf : list N) : BaoTreeBuilder :=
  write_loop (length buf) b buf.

Definition BaoTreeBuilder_finish (b : BaoTreeBuilder) : BaoTree :=
  let b := match bb_chunk_buf b with [] => b | _ => flush b end in
  tree_of_leaves (bb_leaves b) (bb_current_offset b).
End Bao.

(** ** Chunks *)

Lemma chunks_aux_cons {A} fuel cs (l : list A) :
  (length l ≤ fuel)%nat → (0 < cs)%nat → l ≠ [] →
  chunks_aux fuel cs l = take cs l :: chunks_aux (fuel - 1) cs (drop cs l).
Proof. intros Hf Hc Hl. destruct l as [|a l], fuel as [|fuel]; simpl in *; try done; [lia|]. by rewrite Nat.sub_0_r. Qed.

Lemma chunks_aux_fuel {A} f1 f2 cs (l : list A) :
  (length l ≤ f1)%nat → (length l ≤ f2)%nat → (0 < cs)%nat → chunks_aux f1 cs l = chunks_aux f2 cs l.
Proof.
  revert f2 l. induction f1 as [|f1 IH]; intros f2 l H1 H2 Hc.
  { destruct l; simpl in *; [by destruct f2|lia]. }
  destruct (decide (l = [])) as [->|Hl]; [by destruct f2|].
  rewrite (chunks_aux_cons (S f1) cs l), (chunks_aux_cons f2 cs l) by done. f_equal. assert (length l ≠ 0%nat) by (by destruct l).
  replace (S f1 - 1)%nat with f1 by lia. apply IH; rewrite ?length_drop; lia.
Qed.

Lemma chunks_cons {A} cs (l : list A) :
  (0 < cs)%nat → l ≠ [] → chunks cs l = take cs l :: chunks cs (drop cs l).
Proof.
  intros Hc Hl. unfold chunks. rewrite chunks_aux_cons by done. f_equal.
  assert (length l ≠ 0%nat) by (by destruct l). apply chunks_aux_fuel; rewrite ?length_drop; lia.
Qed.

(** Full chunks followed by a shorter rest. *)
Lemma chunks_concat {A} cs (full : list (list A)) (buf : list A) :
  (0 < cs)%nat → Forall (λ c, length c = cs) full → (length buf < cs)%nat →
  chunks cs (concat full ++ buf) = full ++ match buf with [] => [] | _ => [buf] end.
Proof.
  intros Hc Hfull Hb. induction Hfull as [|c full Hlen _ IH]; simpl.
  - destruct buf as [|b buf]; [done|]. rewrite chunks_cons by done.
    rewrite take_ge, drop_ge by lia. done.
  - rewrite <- app_assoc. rewrite chunks_cons by (done || (destruct c; simpl in *; [lia|done])).
    rewrite take_app_length', drop_app_length' by done. by rewrite IH.
Qed.

Lemma concat_chunks {A} cs (l : list A) : (0 < cs)%nat → concat (chunks cs l) = l.
Proof.
  intros Hc. remember (length l) as n eqn:Hn. revert l Hn. induction (lt_wf n) as [n _ IH]. intros l ->.
  destruct (decide (l = [])) as [->|Hl]; [done|]. rewrite chunks_cons by done. simpl.
  rewrite (IH (length (drop cs l))); [apply take_drop| |done].
  rewrite length_drop. assert (length l ≠ 0%nat) by (by destruct l). lia.
Qed.

Lemma leaves_from_app `{Blake3} off a b :
  leaves_from off (a ++ b) = leaves_from off a ++ leaves_from (off + N.of_nat (length (concat a))) b.
Proof.
  revert off. induction a as [|c a IH]; intros off; simpl; [by rewrite N.add_0_r|].
  rewrite IH, length_app. do 3 f_equal. lia.
Qed.

Lemma leaves_from_hash `{Blake3} off cs i l :
  leaves_from off cs !! i = Some l → bl_hash l = ContentHash_from_bytes (bl_data l).
Proof.
  revert off i. induction cs as [|c cs IH]; intros off [|i]; simpl; [done..| |apply IH]. by intros [= <-].
Qed.

(** ** The streaming builder builds the same tree *)

Section Builder.
Context `{HB : Blake3} (cs : nat) (Hcs : (0 < cs)%nat).

(** After writing [w], the full chunks are leaves and the rest is buffered. *)
Definition builder_inv (b : BaoTreeBuilder) (w : list N) : Prop :=
  bb_chunk_size b = cs ∧ ∃ full, Forall (λ c, length c = cs) full ∧
    w = concat full ++ bb_chunk_buf b ∧ (length (bb_chunk_buf b) < cs)%nat ∧
    bb_leaves b = leaves_from 0 full ∧ bb_current_offset b = N.of_nat (length (concat full)).

Lemma write_loop_inv fuel b w buf :
  (length buf ≤ fuel)%nat → builder_inv b w → builder_inv (write_loop fuel b buf) (w ++ buf).
Proof.
  revert b w buf. induction fuel as [|fuel IH]; intros b w buf Hf Hb.
  { destruct buf; simpl in *; [by rewrite app_nil_r|lia]. }
  destruct buf as [|x buf']; [simpl; by rewrite app_nil_r|]. cbn [write_loop].
  set (buf := x :: buf') in *. set (n := Nat.min _ _).
  destruct Hb as [Hsz (full & Hfull & Hw & Hlt & Hl & Ho)].
  assert (0 < n ≤ length buf)%nat as [Hn0 Hn1] by (subst n; rewrite Hsz; simpl in *; lia).
  replace (w ++ buf) with ((w ++ take n buf) ++ drop n buf) by (by rewrite <- app_assoc, take_drop).
  apply IH; [rewrite length_drop; lia|]. cbn [bb_chunk_buf bb_chunk_size].
  assert (length (bb_chunk_buf b ++ take n buf) ≤ cs)%nat as Hle.
  { rewrite length_app, length_take. subst n. rewrite Hsz. lia. }
  rewrite Hsz. destruct (Nat.eqb_spec (length (bb_chunk_buf b ++ take n buf)) cs) as [He|Hne].
  - split; [done|]. exists (full ++ [bb_chunk_buf b ++ take n buf]). cbn.
    rewrite concat_app. simpl. rewrite !app_nil_r, Hw, <- app_assoc. split_and!.
    + apply Forall_app. by repeat constructor.
    + done.
    + lia.
    + by rewrite leaves_from_app, Hl, Ho.
    + rewrite Ho, !length_app. lia.
  - split; [done|]. exists full. cbn. split_and!; [done|by rewrite Hw, app_assoc|lia|done|done].
Qed.

Lemma finish_inv b w : builder_inv b w → BaoTreeBuilder_finish b = build_with cs w.
Proof.
  intros [Hsz (full & Hfull & Hw & Hlt & Hl & Ho)]. unfold BaoTreeBuilder_finish, build_with.
  rewrite Hw, chunks_concat, length_app by done. destruct (bb_chunk_buf b) as [|x buf] eqn:Hbuf.
  - rewrite app_nil_r, Hl, Ho. f_equal. simpl. lia.
  - rewrite leaves_from_app. cbn [flush bb_leaves bb_current_offset]. rewrite Hbuf, Hl, Ho. f_equal. lia.
Qed.

(** C34. Streaming and direct construction agree: whatever the pieces the data
    arrives in, the builder ends with the tree [build] computes from the whole
    content: same leaves, root, length and height. *)
Theorem builder_equals_build bufs :
  BaoTreeBuilder_finish (foldl BaoTreeBuilder_write (builder_with cs) bufs) = build_with cs (concat bufs).
Proof.
  apply finish_inv.
  assert (H0 : builder_inv (builder_with cs) []).
  { split; [done|]. exists []. simpl. split_and!; [constructor|done|done|done|done]. }
  change (concat bufs) with ([] ++ concat bufs). revert H0. generalize (builder_with cs), ([] : list N).
  induction bufs as [|buf bufs IH]; intros b w Hb; simpl; [by rewrite app_nil_r|].
  rewrite app_assoc. apply IH. by apply write_loop_inv.
Qed.
End Builder.

(** ** Merkle paths *)

Lemma list_pair_ind {A} (P : list A → Prop) :
  P [] → (∀ a, P [a]) → (∀ a b l, P l → P (a :: b :: l)) → ∀ l, P l.
Proof. intros H0 H1 H2. fix IH 1. intros [|a [|b l]]; [done|apply H1|apply H2, IH]. Qed.

Definition sibling_of (i : nat) : nat := if Nat.even i then (i + 1)%nat else (i - 1)%nat.

Section Merkle.
Context `{HB : Blake3}.

(** The parent of the node at [i] is at [i / 2] one level up. *)
Lemma next_level_step level i h :
  level !! i = Some h →
  next_level level !! Nat.div i 2 = Some
    match level !! sibling_of i with
    | Some s => if Nat.even i then combine_hash_pair h s else combine_hash_pair s h
    | None => h
    end.
Proof.
  revert i. induction level as [|a|a b l IH] using list_pair_ind; intros i; [done|..].
  - destruct i; [|done]. by intros [= <-].
  - destruct i as [|[|i]]; [by intros [= <-]..|]. intros Hi. simpl in Hi.
    assert (Nat.div (S (S i)) 2 = S (Nat.div i 2)) as ->.
    { replace (S (S i)) with (i + 1 * 2)%nat by lia. rewrite Nat.div_add; lia. }
    assert (sibling_of (S (S i)) = S (S (sibling_of i))) as ->.
    { unfold sibling_of. cbn [Nat.even]. destruct (Nat.even i) eqn:He; [lia|].
      destruct i; [done|lia]. }
    simpl. by apply IH.
Qed.

Lemma length_next_level level : length (next_level level) = Nat.div (length level + 1) 2.
Proof.
  induction level as [|a|a b l IH] using list_pair_ind; [done..|]. cbn [next_level length]. rewrite IH.
  replace (S (S (length l)) + 1)%nat with (length l + 1 + 1 * 2)%nat by lia. rewrite Nat.div_add; lia.
Qed.

Lemma next_level_shorter level fuel :
  (1 < length level)%nat → (length level ≤ S fuel)%nat → (length (next_level level) ≤ fuel)%nat.
Proof.
  intros H1 Hf. rewrite length_next_level.
  assert ((length level + 1) / 2 < length level)%nat by (apply Nat.Div0.div_lt_upper_bound; lia). lia.
Qed.

Lemma even_sibling i : Nat.even (sibling_of i) = negb (Nat.even i).
Proof.
  unfold sibling_of. destruct (Nat.even i) eqn:He.
  - by rewrite Nat.add_1_r, Nat.even_succ, <- Nat.negb_even, He.
  - destruct i as [|i]; [done|]. rewrite Nat.sub_1_r. simpl pred. rewrite Nat.even_succ in He.
    by rewrite <- Nat.negb_odd, He.
Qed.

(** Climbing the path of node [i] reaches the top of the levels above it. *)
Lemma climb_path fuel lev level offs lens i h n :
  (length level ≤ fuel)%nat → level !! i = Some h →
  let p := build_levels fuel level offs lens in
  head (root_loop fuel level n).1 =
    Some (foldl combine_sibling h (collect_siblings lev i (par_data p) (par_offsets p) (par_lens p))).
Proof.
  revert lev level offs lens i h n. induction fuel as [|fuel IH]; intros lev level offs lens i h n Hf Hi.
  { apply lookup_lt_Some in Hi. lia. }
  cbn [root_loop build_levels]. destruct (Nat.ltb_spec 1 (length level)) as [Hl|Hl].
  - cbn [par_data par_offsets par_lens collect_siblings foldl]. fold (sibling_of i).
    erewrite IH; [|by apply next_level_shorter|by apply next_level_step]. f_equal. f_equal.
    destruct (level !! sibling_of i); [|done]. unfold combine_sibling. cbn.
    rewrite even_sibling. by destruct (Nat.even i).
  - cbn. pose proof (lookup_lt_Some _ _ _ Hi). destruct level as [|a [|b l]]; simpl in *; try lia.
    destruct i; [|lia]. done.
Qed.

Lemma tree_root_head leaves total :
  leaves ≠ [] → head (root_loop (length leaves) (bl_hash <$> leaves) 0).1 =
    Some (bm_root_hash (bt_meta (tree_of_leaves leaves total))) ∨
  (root_loop (length leaves) (bl_hash <$> leaves) 0).1 = [].
Proof.
  intros Hl. unfold tree_of_leaves, compute_root_and_height. destruct leaves as [|l leaves]; [done|].
  destruct (root_loop _ _ _) as [[|h level] height]; [by right|by left].
Qed.

Lemma merkle_path_root leaves total i leaf path :
  let t := tree_of_leaves leaves total in
  leaves !! i = Some leaf → merkle_path_for_leaf t i = Ok path →
  compute_root path (bl_hash leaf) = bm_root_hash (bt_meta t).
Proof.
  intros t Hi. assert (bt_leaves t = leaves) as Hbt.
  { unfold t, tree_of_leaves. by destruct (compute_root_and_height leaves). }
  unfold merkle_path_for_leaf. rewrite Hbt, Hi. intros [= <-]. unfold compute_root. cbn [mp_siblings].
  unfold build_parents.
  assert (Hc := climb_path (length leaves) 0 (bl_hash <$> leaves) (bl_offset <$> leaves)
    ((λ l, N.of_nat (length (bl_data l))) <$> leaves) i (bl_hash leaf) 0).
  rewrite length_fmap, list_lookup_fmap, Hi in Hc. specialize (Hc ltac:(lia) eq_refl). simpl in Hc.
  destruct (tree_root_head leaves total) as [Hr|Hr]; [by intros ->| |].
  - rewrite Hr in Hc. injection Hc as Hc. symmetry. exact Hc.
  - rewrite Hr in Hc. done.
Qed.

(** Paths of the same shape that reach the same root from different hashes
    exhibit a collision. *)
Definition sibling_input (h : ContentHash) (s : MerkleSibling) : list N :=
  if ms_is_left s then ContentHash_as_bytes_array (ms_hash s) ++ ContentHash_as_bytes_array h
  else ContentHash_as_bytes_array h ++ ContentHash_as_bytes_array (ms_hash s).
(** What is hashed on the way from [h] along the siblings. *)
Fixpoint climb_inputs (h : ContentHash) (siblings : list MerkleSibling) : list (list N) :=
  match siblings with
  | [] => []
  | s :: siblings => (if ms_is_null s then [] else [sibling_input h s]) ++ climb_inputs (combine_sibling h s) siblings
  end.
Definition same_shape (a b : list MerkleSibling) : Prop :=
  Forall2 (λ x y, ms_is_left x = ms_is_left y ∧ ms_is_null x = ms_is_null y) a b.

Context {HBL : Blake3Laws HB}.

Lemma combine_sibling_hash h s : ms_is_null s = false → combine_sibling h s = ContentHash_from_bytes (sibling_input h s).
Proof. intros Hn. unfold combine_sibling, sibling_input. rewrite Hn. by destruct (ms_is_left s). Qed.

Lemma sibling_input_inj h h' s s' :
  ms_is_left s = ms_is_left s' → sibling_input h s = sibling_input h' s' → ContentHash_as_bytes_array h = ContentHash_as_bytes_array h'.
Proof.
  unfold sibling_input. intros ->. destruct (ms_is_left s'); intros H; by apply app_inj_length in H as [??]; [|rewrite !length_as_bytes_array].
Qed.

(** A node hash is the text of its 32 bytes. *)
Definition hash_ok (h : ContentHash) : Prop :=
  ∃ bs, length bs = 32%nat ∧ bytes_ok bs ∧ h = mkContentHash (hex_encode_ref bs).

Lemma from_bytes_hash_ok data : hash_ok (ContentHash_from_bytes data).
Proof. exists (blake3_hash data). split_and!; [apply blake3_length|apply blake3_bytes|done]. Qed.

Lemma hash_ok_inj a b :
  hash_ok a → hash_ok b → ContentHash_as_bytes_array a = ContentHash_as_bytes_array b → a = b.
Proof.
  intros (x & Hx & Hbx & ->) (y & Hy & Hby & ->). unfold ContentHash_as_bytes_array. cbn [ch_hex].
  rewrite !hex_pairs_encode, !take_app_length' by done. by intros ->.
Qed.

Lemma combine_sibling_ok h s : hash_ok h → hash_ok (combine_sibling h s).
Proof.
  intros Hh. unfold combine_sibling. destruct (ms_is_null s); [done|].
  destruct (ms_is_left s); apply from_bytes_hash_ok.
Qed.

Lemma climb_inj_or_collides sa sb ha hb :
  same_shape sa sb → hash_ok ha → hash_ok hb →
  foldl combine_sibling ha sa = foldl combine_sibling hb sb →
  ha = hb ∨ ∃ x y, x ∈ climb_inputs ha sa ∧ y ∈ climb_inputs hb sb ∧ collides x y.
Proof.
  intros Hs. revert ha hb. induction Hs as [|x y sa sb [Hl Hn] _ IH]; intros ha hb Ha Hb H; [by left|]. cbn [climb_inputs].
  simpl in H. apply IH in H as [H|(u & v & Hu & Hv & Hc)]; [|right; exists u, v; set_solver|by apply combine_sibling_ok..].
  destruct (ms_is_null y) eqn:Hy; [unfold combine_sibling in H; rewrite Hn, Hy in H; by left|]. rewrite Hn.
  rewrite !combine_sibling_hash in H by done. apply from_bytes_inj_or_collides in H as [H|Hc].
  - left. apply hash_ok_inj; [done..|]. by eapply sibling_input_inj.
  - right. exists (sibling_input ha x), (sibling_input hb y). set_solver.
Qed.

(** C5. Soundness of Merkle paths: a chunk that verifies against the root of a
    blob's tree, along a path with the shape of the path of leaf [i], is the data
    of leaf [i], unless one of the inputs hashed in checking it (the chunk and the
    pairs of nodes along the siblings) differs from one hashed for leaf [i] in the
    tree and has the same digest. *)
Theorem merkle_path_sound cs content i leaf path data siblings :
  let t := build_with cs content in
  bt_leaves t !! i = Some leaf → merkle_path_for_leaf t i = Ok path →
  same_shape siblings (mp_siblings path) →
  MerklePath_verify (mkMerklePath i (bl_offset leaf) (mp_leaf_len path) siblings)
    (ContentHash_from_bytes data) (bm_root_hash (bt_meta t)) = Ok tt →
  data = bl_data leaf ∨
  ∃ x y, x ∈ data :: climb_inputs (ContentHash_from_bytes data) siblings ∧
         y ∈ bl_data leaf :: climb_inputs (bl_hash leaf) (mp_siblings path) ∧ collides x y.
Proof.
  intros t Hi Hp Hs. unfold MerklePath_verify. destruct (decide _) as [Hr|]; [|done]. intros _.
  unfold t, build_with in *.
  assert (bt_leaves (tree_of_leaves (leaves_from 0 (chunks cs content)) (N.of_nat (length content)))
    = leaves_from 0 (chunks cs content)) as Hbt.
  { unfold tree_of_leaves. by destruct (compute_root_and_height _). }
  rewrite Hbt in Hi. rewrite <- (merkle_path_root _ _ _ _ _ Hi Hp) in Hr. unfold compute_root in Hr.
  cbn [mp_siblings] in Hr. rewrite (leaves_from_hash _ _ _ _ Hi) in Hr.
  rewrite (leaves_from_hash _ _ _ _ Hi).
  apply climb_inj_or_collides in Hr as [Hr|(x & y & Hx & Hy & Hc)]; [|right; exists x, y; set_solver|done|apply from_bytes_hash_ok..].
  apply from_bytes_inj_or_collides in Hr as [Hr|Hc]; [by left|]. right. exists data, (bl_data leaf). set_solver.
Qed.
End Merkle.

(** ** Range proofs *)

Section RangeProofs.
Context `{HB : Blake3}.

(** Every byte is in exactly the leaf at its offset. *)
Lemma leaves_from_cover off cs (p : nat) :
  (p < length (concat cs))%nat →
  ∃ i leaf k, leaves_from off cs !! i = Some leaf ∧ bl_offset leaf = off + N.of_nat k ∧
    (k ≤ p < k + length (bl_data leaf))%nat ∧ bl_data leaf !! (p - k)%nat = concat cs !! p.
Proof.
  revert off p. induction cs as [|c cs IH]; intros off p Hp; simpl in *; [lia|].
  rewrite length_app in Hp. destruct (decide (p < length c)%nat) as [Hlt|Hge].
  - exists 0%nat, (BaoLeaf_new off c), 0%nat. simpl. rewrite Nat.sub_0_r, lookup_app_l by done.
    split_and!; [done|lia|lia|lia|done].
  - destruct (IH (off + N.of_nat (length c)) (p - length c)%nat) as (i & leaf & k & Hi & Ho & Hk & Hd); [lia|].
    exists (S i), leaf, (k + length c)%nat. simpl. rewrite lookup_app_r by lia. split_and!; [done|lia|lia|lia|].
    rewrite <- Hd. f_equal. lia.
Qed.

Lemma leaf_indices_spec t s e i :
  i ∈ leaf_indices_for_range t s e ↔
  ∃ leaf, bt_leaves t !! i = Some leaf ∧ bl_offset leaf < e ∧
    s < bl_offset leaf + N.of_nat (length (bl_data leaf)).
Proof.
  unfold leaf_indices_for_range. rewrite list_elem_of_fmap. split.
  - intros ([j leaf] & -> & [[H1 H2] (k & Hk)%list_elem_of_lookup]%list_elem_of_filter).
    apply list_lookup_imap_Some in Hk as (leaf' & Hl & [= <- <-]). by exists leaf.
  - intros (leaf & Hl & H1 & H2). exists (i, leaf). split; [done|].
    apply list_elem_of_filter. split; [done|]. apply list_elem_of_lookup. exists i.
    apply list_lookup_imap_Some. by exists leaf.
Qed.

Lemma prove_leaves_verify cs content indices :
  let t := build_with cs content in
  Forall (λ i, is_Some (bt_leaves t !! i)) indices →
  ∃ ps, prove_leaves t indices = Ok ps ∧ verify_all ps (bm_root_hash (bt_meta t)) = Ok tt ∧
    ∀ i leaf, i ∈ indices → bt_leaves t !! i = Some leaf → leaf ∈ ps.*1.
Proof.
  intros t HF. assert (bt_leaves t = leaves_from 0 (chunks cs content)) as Hbt.
  { unfold t, build_with, tree_of_leaves. by destruct (compute_root_and_height _). }
  induction HF as [|i indices [leaf Hi] _ IH]; [exists []; split_and!; [done|done|by intros i l []%elem_of_nil]|].
  destruct IH as (ps & Hps & Hv & Hin). cbn [prove_leaves].
  destruct (merkle_path_for_leaf t i) as [path|e] eqn:Hp.
  2: { unfold merkle_path_for_leaf in Hp. by rewrite Hi in Hp. }
  rewrite Hi, Hps. exists ((leaf, path) :: ps). split_and!; [done| |].
  - cbn [verify_all]. unfold verify_one, MerklePath_verify. rewrite Hbt in Hi.
    rewrite <- (leaves_from_hash _ _ _ _ Hi), decide_True by done.
    rewrite (merkle_path_root _ _ _ _ _ Hi Hp : compute_root path (bl_hash leaf) = _).
    by rewrite decide_True.
  - intros j l [->|Hj]%elem_of_cons Hl; simpl; [|right; by eapply Hin].
    assert (l = leaf) as -> by congruence. left.
Qed.

Lemma verify_all_lookup ps root i leaf path :
  verify_all ps root = Ok tt → ps !! i = Some (leaf, path) → verify_one 0 leaf path root = Ok tt.
Proof.
  revert i. induction ps as [|[l q] ps IH]; intros [|i]; cbn [verify_all lookup list_lookup]; try done.
  - destruct (verify_one 0 l q root) as [[]|] eqn:Hv; [|done]. intros _ [= <- <-]. done.
  - destruct (verify_one 0 l q root); [apply IH|done].
Qed.

Lemma verify_one_index i j leaf path root :
  verify_one i leaf path root = Ok tt → verify_one j leaf path root = Ok tt.
Proof. unfold verify_one. by case_decide. Qed.

(** A proof that verifies also verifies in part, in any order of its leaves. *)
Lemma verify_subset_of_verify p indices root :
  BaoProof_verify p root = Ok tt → Forall (λ i, (i < length (bp_leaves p))%nat) indices →
  BaoProof_verify_subset p indices root = Some (Ok tt).
Proof.
  unfold BaoProof_verify. case_decide; [|done].
  destruct (Nat.eqb_spec (length (bp_leaves p)) (length (bp_paths p))) as [Hl|]; [|done].
  intros Hv. induction 1 as [|i indices Hi _ IH]; [done|]. cbn [BaoProof_verify_subset].
  destruct (lookup_lt_is_Some_2 (bp_leaves p) i Hi) as [leaf Hleaf]. rewrite Hleaf.
  destruct (lookup_lt_is_Some_2 (bp_paths p) i ltac:(lia)) as [path Hpath]. rewrite Hpath.
  rewrite (verify_one_index 0); [done|]. eapply verify_all_lookup; [done|].
  apply lookup_zip_with_Some. by exists leaf, path.
Qed.

(** C4. Range proofs are complete: for every non-empty range inside a blob,
    [proof_for_range] on its tree yields a proof that [BaoProof::verify] accepts
    for the root of the tree, as [verify_subset] does for any selection of its
    leaves in any order, and whose leaves hold every byte of the range with its
    value. *)
Theorem range_proofs_verify cs content start end_ :
  (0 < cs)%nat → start < end_ → end_ ≤ N.of_nat (length content) →
  let t := build_with cs content in
  ∃ p, proof_for_range t start end_ = Ok p ∧ BaoProof_verify p (bm_root_hash (bt_meta t)) = Ok tt ∧
    (∀ indices, Forall (λ i, (i < length (bp_leaves p))%nat) indices →
       BaoProof_verify_subset p indices (bm_root_hash (bt_meta t)) = Some (Ok tt)) ∧
    ∀ pos, start ≤ N.of_nat pos < end_ →
      ∃ leaf k, leaf ∈ bp_leaves p ∧ bl_offset leaf = N.of_nat k ∧ (k ≤ pos)%nat ∧
        bl_data leaf !! (pos - k)%nat = content !! pos ∧ is_Some (content !! pos).
Proof.
  intros Hcs Hse Hlen t.
  assert (bt_leaves t = leaves_from 0 (chunks cs content) ∧ bm_total_len (bt_meta t) = N.of_nat (length content))
    as [Hbt Htl].
  { unfold t, build_with, tree_of_leaves. by destruct (compute_root_and_height _). }
  destruct (prove_leaves_verify cs content (leaf_indices_for_range t start end_)) as (ps & Hps & Hv & Hin).
  { apply Forall_forall. intros i (leaf & Hl & _)%leaf_indices_spec. by eexists. }
  fold t in Hps, Hv, Hin. unfold proof_for_range. rewrite Htl, Hps.
  do 2 ncase.
  eexists. split; [done|]. apply and_assoc. split.
  - match goal with |- ?P ∧ _ => assert P as Hver end.
    { unfold BaoProof_verify. cbn. rewrite decide_True by done. rewrite !length_fmap, Nat.eqb_refl.
      by rewrite zip_fst_snd. }
    split; [done|]. intros indices. by apply verify_subset_of_verify.
  - intros pos Hpos. cbn [bp_leaves].
    destruct (leaves_from_cover 0 (chunks cs content) pos) as (i & leaf & k & Hi & Ho & Hk & Hd).
    { rewrite concat_chunks by done. lia. }
    rewrite concat_chunks in Hd by done. rewrite <- Hbt in Hi.
    exists leaf, k. split_and!; [|lia|lia|done|apply lookup_lt_is_Some; lia].
    eapply Hin; [|done]. apply leaf_indices_spec. exists leaf. split_and!; [done|lia|lia].
Qed.

(** ** What a proof does not say

    Leaves and inner nodes are hashed alike and the shape of a path is not
    checked: the 64 bytes of two sibling hashes pass for a chunk of the blob. *)
Theorem inner_node_passes_as_leaf {HBL : Blake3Laws HB} a b :
  let t := tree_of_leaves [BaoLeaf_new 0 a; BaoLeaf_new (N.of_nat (length a)) b]
             (N.of_nat (length a + length b)) in
  let forged := BaoLeaf_new 0 (blake3_hash a ++ blake3_hash b) in
  BaoProof_verify (mkBaoProof (bm_root_hash (bt_meta t)) (bm_total_len (bt_meta t)) [forged]
    [mkMerklePath 0 0 64 []]) (bm_root_hash (bt_meta t)) = Ok tt.
Proof.
  intros t forged. unfold BaoProof_verify. cbn [bp_root_hash bp_leaves bp_paths].
  rewrite decide_True by done. cbn [length Nat.eqb zip zip_with verify_all].
  unfold verify_one. rewrite decide_True by done. unfold MerklePath_verify, compute_root. cbn [mp_siblings foldl].
  rewrite decide_True; [done|]. unfold forged, t, tree_of_leaves, compute_root_and_height. cbn.
  unfold combine_hash_pair. by rewrite !as_bytes_array_from_bytes.
Qed.

(** The levels [parents_at_level] serves start at the leaves themselves. *)
Lemma parents_level_zero t :
  (2 ≤ length (bt_leaves t))%nat → parents_at_level t 0 = Some (bl_hash <$> bt_leaves t).
Proof.
  unfold parents_at_level, build_parents. destruct (bt_leaves t) as [|a [|b l]]; simpl; try lia. done.
Qed.
End RangeProofs.

(** ** Witnesses *)

Lemma builder_equals_build_witness :
  BaoTreeBuilder_finish (foldl BaoTreeBuilder_write (builder_with 2) [[1]; [2; 3; 4]; [5]]) =
  build_with 2 [1; 2; 3; 4; 5].
Proof. exact (builder_equals_build 2 ltac:(lia) [[1]; [2; 3; 4]; [5]]). Defined.

Definition ex_tree : BaoTree := build_with 2 [1; 2; 3; 4; 5].

Definition ex_siblings : list MerkleSibling :=
  match merkle_path_for_leaf ex_tree 2 with Ok p => mp_siblings p | Err _ => [] end.

Lemma merkle_path_sound_witness :
  ∃ path, merkle_path_for_leaf (build_with 2 [1; 2; 3; 4; 5]) 2 = Ok path ∧
    ([5] = bl_data (BaoLeaf_new 4 [5]) ∨
     ∃ x y, x ∈ [5] :: climb_inputs (ContentHash_from_bytes [5]) ex_siblings ∧
            y ∈ [5] :: climb_inputs (bl_hash (BaoLeaf_new 4 [5])) (mp_siblings path) ∧ collides x y).
Proof.
  eexists. split; [reflexivity|].
  refine (merkle_path_sound 2 [1; 2; 3; 4; 5] 2 (BaoLeaf_new 4 [5]) _ [5] ex_siblings eq_refl eq_refl _ _).
  - repeat constructor.
  - vm_compute. reflexivity.
Defined.

Lemma range_proofs_verify_witness :
  ∃ p, proof_for_range (build_with 2 [1; 2; 3; 4; 5]) 1 3 = Ok p ∧
    BaoProof_verify p (bm_root_hash (bt_meta (build_with 2 [1; 2; 3; 4; 5]))) = Ok tt.
Proof.
  destruct (range_proofs_verify 2 [1; 2; 3; 4; 5] 1 3) as (p & H1 & H2 & _).
  - lia.
  - reflexivity.
  - vm_compute. discriminate.
  - exists p. split; assumption.
Defined.
