(* ===== verification/Ranges.v ===== *)
(** * Byte ranges and chunk arithmetic
    ([crates/a3net-types/src/range.rs], [crates/a3net-blobstore/src/chunked.rs])

    Half-open byte ranges, the HTTP [Range] header, and the map from a range to
    16 KiB chunks. Sizes and offsets are [u64], chunk numbers [u32]: the casts
    are written out. Message texts are not modelled. *)
From stdpp Require Import prelude strings gmap list.
From Stdlib Require Import NArith Lia Ascii.
From Stdlib Require String.
From S2P Require Import Prelude NodeId BaoTree.

#[local] Open Scope N_scope.

Record ByteRange : Type := mkByteRange { rg_start : N; rg_end : N }.

#[global] Instance ByteRange_eq_dec : EqDecision ByteRange.
Proof. solve_decision. Defined.

Definition ByteRange_new (start end_ : N) : result AdnetError ByteRange :=
  if end_ <=? start then Err InvalidTicket else Ok (mkByteRange start end_).
Definition ByteRange_len (r : ByteRange) : N := rg_end r - rg_start r.
Definition ByteRange_is_empty (r : ByteRange) : bool := rg_end r <=? rg_start r.
Definition ByteRange_whole (size : N) : ByteRange := mkByteRange 0 size.

Inductive RangeSpec : Type :=
| RangeAll
| RangeSingle (r : ByteRange)
| RangeMulti (rs : list ByteRange).

(** [format!("{}-{}", r.start, r.end.saturating_sub(1))]. *)
Definition range_text (r : ByteRange) : string :=
  String.append (show_N (rg_start r)) (String "-" (show_N (rg_end r - 1))).

Definition to_http_header (s : RangeSpec) : option string :=
  match s with
  | RangeAll => None
  | RangeSingle r => Some (String.append "bytes=" (range_text r))
  | RangeMulti rs => Some (String.append "bytes=" (str_join "," (range_text <$> rs)))
  end.

Definition parse_u64 (s : string) : result AdnetError N := ok_or InvalidTicket (parse_uint u64_max s).

(** One element of the header. *)
Definition parse_part (total_size : N) (part : string) : result AdnetError ByteRange :=
  let part := str_trim part in
  if String.eqb part EmptyString then Err InvalidTicket
  else match str_split_once "-" part with
  | None => Err InvalidTicket
  | Some (start_s, end_s) =>
      if String.eqb start_s EmptyString then
        let? suffix := parse_u64 end_s in
        ByteRange_new (total_size - suffix) total_size
      else
        let? start := parse_u64 start_s in
        if total_size <=? start then Err InvalidTicket
        else
          let? end_incl := (if String.eqb end_s EmptyString then Ok (total_size - 1) else parse_u64 end_s) in
          ByteRange_new start (N.min (sat_add u64_max end_incl 1) total_size)
  end.

Fixpoint parse_parts (total_size : N) (parts : list string) : result AdnetError (list ByteRange) :=
  match parts with
  | [] => Ok []
  | p :: parts' =>
      let? r := parse_part total_size p in
      let? rs := parse_parts total_size parts' in
      Ok (r :: rs)
  end.

Definition from_http_header (header : string) (total_size : N) : result AdnetError RangeSpec :=
  match str_strip_prefix "bytes=" header with
  | None => Err InvalidTicket
  | Some body =>
      if String.eqb body EmptyString then Err InvalidTicket
      else
        let? ranges := parse_parts total_size (str_split "," body) in
        Ok (match ranges with [r] => RangeSingle r | _ => RangeMulti ranges end)
  end.

(** ** Chunks *)

(** [as u32]. *)
Definition u32_of (n : N) : N := n mod 2 ^ 32.
Definition chunk_bytes : N := 16 * 1024.

Inductive ChunkError : Type :=
| ChunkHashMismatch
| ChunkOutOfRange (index total : N)
| ChunkRangeOutOfBounds (start end_ size : N)
| ChunkInvalidRange
| ChunkTooLarge (requested cap : N).

Definition chunk_count_for (size : N) : N :=
  if size =? 0 then 0 else u32_of ((size - 1) / chunk_bytes + 1).

(** The start chunk, the end chunk (exclusive), the offset in the first chunk
    and the length in the last. *)
Definition chunks_for_range (total_size : N) (range : ByteRange) : result ChunkError (N * N * N * N) :=
  let count := chunk_count_for total_size in
  if total_size <? rg_end range then Err (ChunkRangeOutOfBounds (rg_start range) (rg_end range) total_size)
  else
    let start_chunk := u32_of (rg_start range / chunk_bytes) in
    let end_chunk_exclusive :=
      if rg_end range =? 0 then start_chunk else u32_of ((rg_end range - 1) / chunk_bytes) + 1 in
    if (count <? end_chunk_exclusive) && (0 <? count)
    then Err (ChunkOutOfRange (end_chunk_exclusive - 1) count)
    else
      let first_offset := rg_start range mod chunk_bytes in
      let total_len := rg_end range - rg_start range in
      let last_len := if end_chunk_exclusive =? start_chunk + 1 then total_len
                      else (rg_end range - 1) mod chunk_bytes + 1 in
      Ok (start_chunk, end_chunk_exclusive, first_offset, last_len).

Definition map_chunk_err {A} (r : result AdnetError A) : result ChunkError A :=
  match r with Ok a => Ok a | Err _ => Err ChunkInvalidRange end.

Fixpoint check_ranges (total_size : N) (rs : list ByteRange) : result ChunkError unit :=
  match rs with
  | [] => Ok tt
  | r :: rs' => let? _ := chunks_for_range total_size r in check_ranges total_size rs'
  end.

Definition resolve_range (total_size : N) (spec : RangeSpec) : result ChunkError (list ByteRange) :=
  match spec with
  | RangeAll =>
      if total_size =? 0 then Ok []
      else let? r := map_chunk_err (ByteRange_new 0 total_size) in Ok [r]
  | RangeSingle r =>
      if total_size =? 0 then Err ChunkInvalidRange
      else let? _ := chunks_for_range total_size r in Ok [r]
  | RangeMulti rs =>
      if total_size =? 0 then Err ChunkInvalidRange
      else let? _ := check_ranges total_size rs in Ok rs
  end.

Lemma chunk_bytes_size : chunk_bytes = N.of_nat CHUNK_SIZE.
Proof. unfold CHUNK_SIZE, chunk_bytes. by rewrite N2Nat.id. Qed.

(** ** The header *)

Definition range_ok (total_size : N) (r : ByteRange) : Prop :=
  rg_start r < rg_end r ∧ rg_end r ≤ total_size.

Lemma ByteRange_new_ok s e r : ByteRange_new s e = Ok r → rg_start r = s ∧ rg_end r = e ∧ s < e.
Proof. unfold ByteRange_new. ncase; [done|]. by intros [= <-]. Qed.

Lemma parse_part_ok total part r : parse_part total part = Ok r → range_ok total r.
Proof.
  unfold parse_part. destruct (String.eqb _ _); [done|].
  destruct (str_split_once "-" _) as [[start_s end_s]|]; [|done]. destruct (String.eqb start_s _).
  - destruct (parse_u64 end_s) as [suffix|]; simpl; [|done].
    intros (H1 & H2 & H3)%ByteRange_new_ok. split; lia.
  - destruct (parse_u64 start_s) as [start|]; simpl; [|done].
    ncase; [done|].
    destruct (if String.eqb end_s _ then _ else _) as [e|]; simpl; [|done].
    intros (H1 & H2 & H3)%ByteRange_new_ok. split; lia.
Qed.

Lemma parse_parts_ok total parts rs :
  parse_parts total parts = Ok rs → Forall (range_ok total) rs ∧ length rs = length parts.
Proof.
  revert rs. induction parts as [|p parts IH]; intros rs; simpl; [intros [= <-]; by split; [constructor|]|].
  destruct (parse_part total p) as [r|] eqn:Hp; simpl; [|done].
  destruct (parse_parts total parts) as [rs'|]; simpl; [|done]. intros [= <-].
  destruct (IH _ eq_refl) as [HF Hl]. split; [constructor; [by eapply parse_part_ok|done]|simpl; lia].
Qed.

Lemma range_text_lacks c r : is_digit c = false → c ≠ "-"%char → str_lacks c (range_text r) = true.
Proof.
  intros Hc Hd. unfold range_text, str_lacks. rewrite str_forallb_app. cbn [str_forallb].
  fold (str_lacks c (show_N (rg_start r))) (str_lacks c (show_N (rg_end r - 1))).
  rewrite !show_N_lacks by done. destruct (Ascii.eqb_spec "-" c); [congruence|done].
Qed.

Lemma range_text_trim r : str_trim (range_text r) = range_text r.
Proof.
  apply str_trim_id. unfold range_text. rewrite str_forallb_app, show_N_no_ws. cbn [str_forallb andb].
  rewrite show_N_no_ws. done.
Qed.

Lemma parse_part_text total r : total ≤ u64_max → range_ok total r → parse_part total (range_text r) = Ok r.
Proof.
  intros Ht [Hlt Hle]. unfold parse_part. rewrite range_text_trim.
  assert (String.eqb (range_text r) EmptyString = false) as ->.
  { unfold range_text. destruct (show_N_cons (rg_start r)) as (a & s & -> & _). done. }
  unfold range_text. rewrite str_split_once_app by (by apply show_N_lacks).
  assert (Hne : ∀ n, String.eqb (show_N n) EmptyString = false).
  { intros n. destruct (show_N_cons n) as (a & s & -> & _). done. }
  rewrite !Hne. unfold parse_u64. rewrite !parse_show by lia. simpl.
  ncase.
  unfold ByteRange_new, sat_add. replace (N.min (N.min (rg_end r - 1 + 1) u64_max) total) with (rg_end r) by lia.
  ncase. by destruct r.
Qed.

Lemma parse_parts_text total rs :
  total ≤ u64_max → Forall (range_ok total) rs → parse_parts total (range_text <$> rs) = Ok rs.
Proof.
  intros Ht. induction 1 as [|r rs Hr _ IH]; [done|]. rewrite fmap_cons. cbn [parse_parts].
  rewrite parse_part_text by done. simpl. by rewrite IH.
Qed.

Lemma from_bytes_header total s : s ≠ EmptyString →
  from_http_header (String.append "bytes=" s) total =
  let? ranges := parse_parts total (str_split "," s) in
  Ok (match ranges with [r] => RangeSingle r | _ => RangeMulti ranges end).
Proof.
  intros Hs. unfold from_http_header.
  change (str_strip_prefix "bytes=" (String.append "bytes=" s)) with (Some s).
  cbv iota beta. by rewrite (proj2 (String.eqb_neq s EmptyString) Hs).
Qed.

Lemma join_text_nonempty r rs : str_join "," (range_text <$> r :: rs) ≠ EmptyString.
Proof.
  rewrite fmap_cons. unfold range_text at 1. destruct (show_N_cons (rg_start r)) as (a & s & -> & _).
  by destruct rs.
Qed.

(** The HTTP range header: whatever the header, the ranges accepted lie
    inside the blob and are not empty; and a specification of one range, or of
    at least two, that lies inside the blob is read back from its own header
    unchanged. *)
Theorem range_header_roundtrip total spec :
  total ≤ u64_max →
  (∀ header, from_http_header header total = Ok spec →
     match spec with
     | RangeAll => False
     | RangeSingle r => range_ok total r
     | RangeMulti rs => Forall (range_ok total) rs ∧ (2 ≤ length rs)%nat
     end) ∧
  (match spec with
   | RangeAll => False
   | RangeSingle r => range_ok total r
   | RangeMulti rs => Forall (range_ok total) rs ∧ (2 ≤ length rs)%nat
   end → ∃ header, to_http_header spec = Some header ∧ from_http_header header total = Ok spec).
Proof.
  intros Ht. split.
  - intros header. unfold from_http_header. destruct (str_strip_prefix "bytes=" header) as [body|]; [|done].
    destruct (String.eqb body EmptyString); [done|].
    destruct (parse_parts total (str_split "," body)) as [rs|] eqn:Hp; simpl; [|done].
    destruct (parse_parts_ok _ _ _ Hp) as [HF Hl].
    assert (length rs ≠ 0%nat). { rewrite Hl. destruct body as [|a b]; simpl; [done|].
      destruct (Ascii.eqb a ","); [done|]. by destruct (str_split "," b). }
    destruct rs as [|r [|r' rs]]; [done|..]; intros [= <-].
    + by apply Forall_cons in HF as [? _].
    + split; [done|simpl; lia].
  - assert (Hlacks : ∀ rs, Forall (λ s, str_lacks "," s = true) (range_text <$> rs)).
    { intros rs. apply Forall_fmap, Forall_forall. intros r _. by apply range_text_lacks. }
    destruct spec as [|r|rs]; [done|..].
    + intros Hr. eexists. split; [done|].
      rewrite from_bytes_header by exact (join_text_nonempty r []).
      rewrite str_split_lacks by (by apply range_text_lacks).
      change [range_text r] with (range_text <$> [r]). by rewrite parse_parts_text by (done || by constructor).
    + intros [HF Hl]. eexists. split; [done|]. destruct rs as [|r [|r' rs]]; simpl in Hl; [lia..|].
      rewrite from_bytes_header by apply join_text_nonempty.
      rewrite str_split_join by done. by rewrite parse_parts_text.
Qed.

(** ** Chunks of a range *)

(** Blobs whose chunk numbers fit in 32 bits: 64 TiB. *)
Definition max_blob : N := 2 ^ 32 * chunk_bytes - chunk_bytes.

Lemma u32_of_chunk n : n < max_blob → u32_of (n / chunk_bytes) = n / chunk_bytes.
Proof.
  intros Hn. unfold u32_of. apply N.mod_small. unfold max_blob, chunk_bytes in *.
  apply N.Div0.div_lt_upper_bound. lia.
Qed.

Lemma chunk_divmod n :
  n = chunk_bytes * (n / chunk_bytes) + n mod chunk_bytes ∧ n mod chunk_bytes < chunk_bytes.
Proof. split; [by apply N.div_mod|by apply N.mod_lt]. Qed.

Lemma chunk_count_spec size :
  0 < size → size ≤ max_blob → chunk_count_for size = (size - 1) / chunk_bytes + 1.
Proof.
  intros H0 Hm. unfold chunk_count_for. ncase.
  unfold u32_of. apply N.mod_small.
  assert ((size - 1) / chunk_bytes < 2 ^ 32 - 1); [|lia].
  apply N.Div0.div_lt_upper_bound. unfold max_blob, chunk_bytes in *. lia.
Qed.

(** From a byte range to chunks: for a non-empty range inside a blob of at
    most 64 TiB, [chunks_for_range] names chunks of the blob, from the one that
    holds the first byte to the one that holds the last; [first_offset] locates
    the first byte in its chunk, and [last_len] the end of the range: counted
    from [first_offset] when there is one chunk, from the start of the last chunk
    otherwise. A range that ends outside the blob is refused. *)
Theorem chunks_for_range_spec total r :
  total ≤ max_blob → rg_start r < rg_end r →
  (rg_end r ≤ total → ∃ sc ec fo ll, chunks_for_range total r = Ok (sc, ec, fo, ll) ∧
     sc < ec ∧ ec ≤ chunk_count_for total ∧ fo < chunk_bytes ∧ 0 < ll ≤ chunk_bytes ∧
     sc * chunk_bytes + fo = rg_start r ∧
     rg_end r = (ec - 1) * chunk_bytes + (if ec =? sc + 1 then fo + ll else ll)) ∧
  (total < rg_end r → chunks_for_range total r = Err (ChunkRangeOutOfBounds (rg_start r) (rg_end r) total)).
Proof.
  intros Hm Hlt. split.
  2: { intros Ho. unfold chunks_for_range. by ncase. }
  intros Hle. unfold chunks_for_range. ncase.
  destruct (N.eqb_spec (rg_end r) 0); [lia|].
  rewrite !u32_of_chunk, chunk_count_spec by lia.
  assert ((rg_end r - 1) / chunk_bytes ≤ (total - 1) / chunk_bytes) by (apply N.Div0.div_le_mono; lia).
  assert (rg_start r / chunk_bytes ≤ (rg_end r - 1) / chunk_bytes) by (apply N.Div0.div_le_mono; lia).
  destruct (chunk_divmod (rg_start r)) as [Hs Hs']. destruct (chunk_divmod (rg_end r - 1)) as [He He'].
  set (q := (rg_end r - 1) / chunk_bytes) in *. set (s := rg_start r / chunk_bytes) in *.
  ncase. cbn [andb].
  eexists _, _, _, _. split; [done|].
  assert (s ≤ q ∧ q ≤ (total - 1) / chunk_bytes) as [Hsq Hqt] by done.
  set (m := rg_start r mod chunk_bytes) in *. set (k := (rg_end r - 1) mod chunk_bytes) in *.
  clearbody q s m k. unfold chunk_bytes in *.
  ncase; split_and!; lia.
Qed.

(** ** Witnesses *)

Lemma range_header_roundtrip_witness :
  from_http_header "bytes=0-99,200-299" 1000 = Ok (RangeMulti [mkByteRange 0 100; mkByteRange 200 300]).
Proof.
  destruct (range_header_roundtrip 1000 (RangeMulti [mkByteRange 0 100; mkByteRange 200 300])) as [_ H].
  - vm_compute. discriminate.
  - destruct H as (h & Hh & Hf).
    + split; [|simpl; lia]. repeat constructor; vm_compute; discriminate || reflexivity.
    + vm_compute in Hh. injection Hh as <-. exact Hf.
Defined.

Lemma chunks_for_range_spec_witness :
  ∃ sc ec fo ll, chunks_for_range 100000 (mkByteRange 10 40000) = Ok (sc, ec, fo, ll) ∧ sc < ec.
Proof.
  destruct (chunks_for_range_spec 100000 (mkByteRange 10 40000)) as [H _].
  - vm_compute. discriminate.
  - reflexivity.
  - destruct H as (sc & ec & fo & ll & H1 & H2 & _); [vm_compute; discriminate|].
    exists sc, ec, fo, ll. split; assumption.
Defined.
