(* ===== verification/Multihash.v ===== *)
(** * Multihashes ([crates/a3net-types/src/multihash_local.rs])

    A self-describing hash: a function code and a length as LEB128 varints,
    then the digest. Codes and lengths are [u64]; the sums of lengths that
    [from_bytes] computes are below [2^64], since a decoded varint has at most
    63 bits. *)
From stdpp Require Import prelude strings list.
From Stdlib Require Import NArith Lia Ascii.
From Stdlib Require String.
From S2P Require Import Prelude NodeId ContentHash.

#[local] Open Scope N_scope.

(** ** Varints *)

(** The loop of [encode_varint]; a [u64] is written in at most ten rounds. *)
Fixpoint encode_varint_loop (fuel : nat) (v : N) : list N :=
  match fuel with
  | O => []
  | S fuel' =>
      let byte := N.land v 127 in
      let v' := N.shiftr v 7 in
      if v' =? 0 then [byte] else N.lor byte 128 :: encode_varint_loop fuel' v'
  end.

Definition encode_varint (v : N) : list N := encode_varint_loop 10 v.

(** The loop of [decode_varint] over at most [rounds] bytes. *)
Fixpoint decode_varint_loop (rounds : nat) (bytes : list N) (result shift : N) (len : nat) : N * nat :=
  match rounds, bytes with
  | S rounds', byte :: bytes' =>
      let result := N.lor result (N.shiftl (N.land byte 127) shift) in
      if N.land byte 128 =? 0 then (result, S len)
      else decode_varint_loop rounds' bytes' result (shift + 7) (S len)
  | _, _ => (0, 0%nat)
  end.

Definition decode_varint (bytes : list N) : N * nat := decode_varint_loop 9 bytes 0 0 0.

Definition varint_len (value : N) : nat :=
  if value <? 0x80 then 1%nat
  else if value <? 0x4000 then 2%nat
  else if value <? 0x200000 then 3%nat
  else if value <? 0x10000000 then 4%nat
  else 5%nat.

(** ** Hash functions *)

Inductive MultihashError : Type :=
| DigestTooShort (expected actual : nat)
| InvalidEncoding
| InvalidCode (code : N)
| UnsupportedHash
| InvalidDigest.

Inductive HashCode : Type := HcIdentity | HcSha256 | HcSha512 | HcBlake3 | HcSha1 | HcMd5.

#[global] Instance MultihashError_eq_dec : EqDecision MultihashError.
Proof. solve_decision. Defined.
#[global] Instance HashCode_eq_dec : EqDecision HashCode.
Proof. solve_decision. Defined.

Definition HashCode_to_u64 (c : HashCode) : N :=
  match c with
  | HcIdentity => 0x00 | HcSha256 => 0x12 | HcSha512 => 0x13
  | HcBlake3 => 0x1e | HcSha1 => 0x11 | HcMd5 => 0xd5
  end.

Definition HashCode_digest_len (c : HashCode) : nat :=
  match c with
  | HcIdentity => 32 | HcSha256 => 32 | HcSha512 => 64
  | HcBlake3 => 32 | HcSha1 => 20 | HcMd5 => 16
  end%nat.

Definition HashCode_from_u64 (code : N) : option HashCode :=
  if code =? 0x00 then Some HcIdentity
  else if code =? 0x11 then Some HcSha1
  else if code =? 0x12 then Some HcSha256
  else if code =? 0x13 then Some HcSha512
  else if code =? 0xd5 then Some HcMd5
  else if code =? 0x1e then Some HcBlake3
  else None.

Definition HashCode_name (c : HashCode) : string :=
  match c with
  | HcIdentity => "identity" | HcSha256 => "sha2-256" | HcSha512 => "sha2-512"
  | HcBlake3 => "blake3" | HcSha1 => "sha1" | HcMd5 => "md5"
  end.

Definition HashCode_from_name (name : string) : option HashCode :=
  if String.eqb name "identity" then Some HcIdentity
  else if String.eqb name "sha2-256" || String.eqb name "sha256" then Some HcSha256
  else if String.eqb name "sha2-512" || String.eqb name "sha512" then Some HcSha512
  else if String.eqb name "blake3" then Some HcBlake3
  else if String.eqb name "sha1" then Some HcSha1
  else if String.eqb name "md5" then Some HcMd5
  else None.

(** ** Multihashes *)

Record Multihash : Type := mkMultihash { mh_code : N; mh_digest : list N }.

#[global] Instance Multihash_eq_dec : EqDecision Multihash.
Proof. solve_decision. Defined.

Definition Multihash_new (code : HashCode) (digest : list N) : result MultihashError Multihash :=
  let expected_len := HashCode_digest_len code in
  if negb (Nat.eqb (length digest) expected_len)
  then Err (DigestTooShort expected_len (length digest))
  else Ok (mkMultihash (HashCode_to_u64 code) digest).

Definition Multihash_from_bytes (bytes : list N) : result MultihashError Multihash :=
  if Nat.ltb (length bytes) 2 then Err InvalidEncoding
  else
    let '(code, code_len) := decode_varint bytes in
    if Nat.eqb code_len 0 || Nat.leb (length bytes) code_len then Err InvalidEncoding
    else
      let '(len, len_len) := decode_varint (drop code_len bytes) in
      if Nat.eqb len_len 0 ||
         (N.of_nat (length bytes) <? N.of_nat code_len + N.of_nat len_len + len)
      then Err InvalidEncoding
      else
        let digest_start := (code_len + len_len)%nat in
        Ok (mkMultihash code (take (N.to_nat len) (drop digest_start bytes))).

Definition Multihash_to_bytes (m : Multihash) : list N :=
  encode_varint (mh_code m) ++ encode_varint (N.of_nat (length (mh_digest m))) ++ mh_digest m.

Definition Multihash_code_typed (m : Multihash) : option HashCode := HashCode_from_u64 (mh_code m).
Definition Multihash_name (m : Multihash) : option string := HashCode_name <$> Multihash_code_typed m.

Definition Multihash_encoded_len (m : Multihash) : nat :=
  (varint_len (mh_code m) + varint_len (N.of_nat (length (mh_digest m))) + length (mh_digest m))%nat.

Definition Multihash_from_blake3 (digest : list N) : result MultihashError Multihash :=
  Multihash_new HcBlake3 digest.
Definition Multihash_from_sha256 (digest : list N) : result MultihashError Multihash :=
  Multihash_new HcSha256 digest.

(** The [sha2] crate. *)
Class Sha256 : Type := { sha256_digest : list N → list N }.
Class Sha256Laws (S : Sha256) : Prop := {
  sha256_length bs : length (sha256_digest bs) = 32%nat;
  sha256_bytes bs : bytes_ok (sha256_digest bs)
}.

(** [None] is the panic of [unwrap]. *)
Definition mh_sha256 `{Sha256} (bytes : list N) : option Multihash :=
  match Multihash_new HcSha256 (sha256_digest bytes) with Ok m => Some m | Err _ => None end.
Definition mh_blake3 `{Blake3} (bytes : list N) : option Multihash :=
  match Multihash_new HcBlake3 (blake3_hash bytes) with Ok m => Some m | Err _ => None end.

Section MultihashText.
Context `{HX : Hex}.
Definition Multihash_hex_digest (m : Multihash) : string := hex_encode (mh_digest m).
Definition Multihash_to_hex (m : Multihash) : string := hex_encode (Multihash_to_bytes m).
End MultihashText.

(** ** Varints read back what was written *)

Lemma land_127 v : N.land v 127 = v mod 128.
Proof. apply (N.land_ones v 7). Qed.

Lemma continuation_bit b : b < 128 → N.lor b 128 = b + 128.
Proof. intros Hb. apply (lor_shiftl_add b 1 7 Hb). Qed.

Lemma has_continuation b : b < 256 → (N.land b 128 =? 0) = (b <? 128).
Proof.
  intros Hb.
  pose proof (N_check (λ b, Bool.eqb (N.land b 128 =? 0) (b <? 128)) 256 eq_refl b Hb) as H.
  by apply eqb_prop in H.
Qed.

Lemma encode_varint_loop_ok fuel v : bytes_ok (encode_varint_loop fuel v).
Proof.
  revert v. induction fuel as [|fuel IH]; intros v; cbn [encode_varint_loop]; [constructor|].
  rewrite land_127. pose proof (N.mod_lt v 128 ltac:(lia)).
  destruct (_ =? 0); repeat constructor; unfold byte_ok; [lia| |apply IH]. rewrite continuation_bit; lia.
Qed.

Lemma encode_varint_ok v : bytes_ok (encode_varint v).
Proof. apply encode_varint_loop_ok. Qed.

Lemma encode_varint_cons v : ∃ b bs, encode_varint v = b :: bs.
Proof. unfold encode_varint. cbn [encode_varint_loop]. destruct (_ =? 0); eauto. Qed.

Lemma decode_encode_loop fuel rounds v rest result shift len :
  v < 2 ^ (7 * N.of_nat fuel) → v < 2 ^ (7 * N.of_nat rounds) →
  (0 < fuel)%nat → (0 < rounds)%nat → result < 2 ^ shift →
  decode_varint_loop rounds (encode_varint_loop fuel v ++ rest) result shift len =
  (result + v * 2 ^ shift, (len + length (encode_varint_loop fuel v))%nat).
Proof.
  revert rounds v result shift len.
  induction fuel as [|fuel IH]; intros rounds v result shift len Hf Hr Hf0 Hr0 Hres; [lia|].
  destruct rounds as [|rounds]; [lia|]. cbn [encode_varint_loop].
  rewrite land_127, N.shiftr_div_pow2. change (2 ^ 7) with 128.
  pose proof (N.mod_lt v 128 ltac:(lia)) as Hm. pose proof (N.div_mod v 128 ltac:(lia)) as Hv.
  replace (7 * N.of_nat (S fuel)) with (7 * N.of_nat fuel + 7) in Hf by lia.
  replace (7 * N.of_nat (S rounds)) with (7 * N.of_nat rounds + 7) in Hr by lia.
  rewrite N.pow_add_r in Hf, Hr. change (2 ^ 7) with 128 in Hf, Hr.
  destruct (N.eqb_spec (v / 128) 0) as [Hz|Hz]; cbn [app decode_varint_loop length].
  - rewrite has_continuation, land_127, N.mod_mod by lia.
    rewrite (proj2 (N.ltb_lt _ _) Hm), lor_shiftl_add by done. f_equal; [|lia].
    rewrite (N.mod_small v) by lia. done.
  - rewrite continuation_bit, has_continuation, land_127 by lia.
    rewrite (proj2 (N.ltb_ge (v mod 128 + 128) 128)) by apply N.le_add_l.
    replace ((v mod 128 + 128) mod 128) with (v mod 128)
      by (rewrite N.Div0.add_mod, N.Div0.mod_same, N.add_0_r, !N.Div0.mod_mod; done).
    rewrite lor_shiftl_add by done.
    assert (Hd : v / 128 < 2 ^ (7 * N.of_nat fuel)) by (apply N.Div0.div_lt_upper_bound; lia).
    assert (Hd' : v / 128 < 2 ^ (7 * N.of_nat rounds)) by (apply N.Div0.div_lt_upper_bound; lia).
    rewrite IH; [| done | done | | |].
    + rewrite N.pow_add_r. change (2 ^ 7) with 128. f_equal; [|lia].
      rewrite Hv at 3. lia.
    + destruct fuel; [|lia]. change (2 ^ (7 * N.of_nat 0)) with 1 in Hd. lia.
    + destruct rounds; [|lia]. change (2 ^ (7 * N.of_nat 0)) with 1 in Hd'. lia.
    + rewrite N.pow_add_r. change (2 ^ 7) with 128. nia.
Qed.

Lemma decode_encode_varint v rest :
  v < 2 ^ 63 → decode_varint (encode_varint v ++ rest) = (v, length (encode_varint v)).
Proof.
  intros Hv. unfold decode_varint, encode_varint. rewrite decode_encode_loop; try lia.
  f_equal. change (2 ^ 0) with 1. lia.
Qed.

Lemma varint_len_spec v : v < 2 ^ 35 → varint_len v = length (encode_varint v).
Proof.
  intros Hv. unfold varint_len, encode_varint. do 5 (cbn [encode_varint_loop]; rewrite ?N.shiftr_shiftr).
  rewrite !N.shiftr_div_pow2. cbn [N.add Pos.add Pos.succ].
  assert (Hq : ∀ k, k ≠ 0 → (v / k =? 0) = (v <? k)).
  { intros k Hk. destruct (N.ltb_spec v k) as [Hl|Hl].
    - apply N.eqb_eq. by apply N.div_small.
    - apply N.eqb_neq. intros Hz. apply N.div_small_iff in Hz; lia. }
  rewrite !Hq by done.
  repeat ncase; done.
Qed.

(** ** Multihashes *)

(** The values [to_bytes] can write and [from_bytes] can read: a function code
    and a digest length of at most 63 bits. *)
Definition mh_ok (m : Multihash) : Prop :=
  mh_code m < 2 ^ 63 ∧ N.of_nat (length (mh_digest m)) < 2 ^ 63.

Lemma mh_bytes_length m : (2 ≤ length (Multihash_to_bytes m))%nat.
Proof.
  unfold Multihash_to_bytes. destruct (encode_varint_cons (mh_code m)) as (b & bs & ->).
  destruct (encode_varint_cons (N.of_nat (length (mh_digest m)))) as (c & cs & ->).
  rewrite !length_app. simpl. lia.
Qed.

(** Reading ignores what follows the multihash, so it can be read in place. *)
Lemma mh_from_to_bytes m rest :
  mh_ok m → Multihash_from_bytes (Multihash_to_bytes m ++ rest) = Ok m.
Proof.
  intros [Hc Hd]. pose proof (mh_bytes_length m) as Hl. unfold Multihash_from_bytes.
  ncase; [rewrite length_app in *; lia|]. unfold Multihash_to_bytes in *.
  rewrite <- !app_assoc, decode_encode_varint by done.
  destruct (encode_varint_cons (mh_code m)) as (b & bs & Hb).
  destruct (encode_varint_cons (N.of_nat (length (mh_digest m)))) as (c & cs & Hcs).
  rewrite drop_app_length, decode_encode_varint by done.
  rewrite !length_app, Hb, Hcs in *. cbn [length Nat.eqb orb].
  destruct (Nat.leb_spec (S (length bs) + (S (length cs) + (length (mh_digest m) + length rest)))
    (S (length bs))); [lia|].
  ncase. rewrite Nat2N.id, <- Hb, <- Hcs. change (S (length bs)) with (length (b :: bs)).
  change (S (length cs)) with (length (c :: cs)). rewrite <- Hb, <- Hcs.
  rewrite app_assoc, <- length_app, drop_app_length, take_app_length. by destruct m.
Qed.

Lemma decode_varint_loop_bound rounds bytes result shift len v n :
  result < 2 ^ shift → decode_varint_loop rounds bytes result shift len = (v, n) →
  v < 2 ^ (shift + 7 * N.of_nat rounds) ∧ (n = 0 ∨ len < n ∧ n ≤ len + length bytes)%nat.
Proof.
  revert bytes result shift len.
  induction rounds as [|rounds IH]; intros [|b bytes] result shift len Hr; cbn [decode_varint_loop];
    try (intros [= <- <-]; split; [apply N.neq_0_lt_0, N.pow_nonzero; lia|by left]).
  rewrite land_127, lor_shiftl_add by done.
  assert (Hn : result + b mod 128 * 2 ^ shift < 2 ^ (shift + 7)).
  { rewrite N.pow_add_r. change (2 ^ 7) with 128. pose proof (N.mod_lt b 128 ltac:(lia)). nia. }
  replace (shift + 7 * N.of_nat (S rounds)) with (shift + 7 + 7 * N.of_nat rounds) by lia.
  destruct (_ =? 0).
  - intros [= <- <-]. split; [|right; simpl; lia].
    eapply N.lt_le_trans; [done|]. apply N.pow_le_mono_r; lia.
  - intros [Hv Hl]%IH; [|done]. split; [done|]. simpl. lia.
Qed.

Lemma decode_varint_bound bytes v n :
  decode_varint bytes = (v, n) → v < 2 ^ 63 ∧ (n ≤ length bytes)%nat.
Proof. intros [Hv Hn]%decode_varint_loop_bound; [|done]. split; [done|]. lia. Qed.

(** Multihashes: [from_bytes] reads back what [to_bytes] wrote, whatever
    follows; what it accepts is a code of at most 63 bits with a digest that is
    a contiguous part of the input, so it never reads past its end; and
    [encoded_len] is the length of [to_bytes] when code and digest length are
    below [2^35]. *)
Theorem multihash_roundtrip m rest bytes :
  mh_ok m →
  Multihash_from_bytes (Multihash_to_bytes m ++ rest) = Ok m ∧
  (∀ m', Multihash_from_bytes bytes = Ok m' → mh_code m' < 2 ^ 63 ∧
     ∃ pre post, bytes = pre ++ mh_digest m' ++ post ∧ pre ≠ []) ∧
  (mh_code m < 2 ^ 35 → N.of_nat (length (mh_digest m)) < 2 ^ 35 →
     Multihash_encoded_len m = length (Multihash_to_bytes m)).
Proof.
  intros Hm. split_and!; [by apply mh_from_to_bytes| |].
  - intros m'. unfold Multihash_from_bytes. ncase; [done|].
    destruct (decode_varint bytes) as [code code_len] eqn:Hc.
    destruct (Nat.eqb_spec code_len 0) as [|Hcl]; [done|].
    destruct (Nat.leb_spec (length bytes) code_len); [done|]. cbn [orb].
    destruct (decode_varint (drop code_len bytes)) as [len len_len] eqn:Hl.
    destruct (Nat.eqb_spec len_len 0) as [|Hll]; [done|]. cbn [orb].
    ncase; [done|]. intros [= <-]. cbn [mh_code mh_digest].
    split; [by apply decode_varint_bound in Hc as [? _]|].
    exists (take (code_len + len_len) bytes), (drop (N.to_nat len) (drop (code_len + len_len) bytes)).
    rewrite !take_drop. split; [done|]. intros Hn%(f_equal length). rewrite length_take in Hn. simpl in Hn. lia.
  - intros Hc Hd. unfold Multihash_encoded_len, Multihash_to_bytes.
    rewrite !varint_len_spec, !length_app by done. lia.
Qed.

(** ** Where the encoding stops working *)

(** A code of 64 bits is written but not read; [varint_len] undercounts. *)
Theorem multihash_wide_codes :
  Multihash_from_bytes (Multihash_to_bytes (mkMultihash (2 ^ 63) [7])) = Err InvalidEncoding ∧
  Multihash_encoded_len (mkMultihash (2 ^ 40) [7]) <>
    length (Multihash_to_bytes (mkMultihash (2 ^ 40) [7])).
Proof. split; vm_compute; [done|discriminate]. Qed.

Lemma HashCode_roundtrip c :
  HashCode_from_u64 (HashCode_to_u64 c) = Some c ∧ HashCode_from_name (HashCode_name c) = Some c.
Proof. by destruct c. Qed.

Lemma mh_blake3_ok `{HB : Blake3} {HBL : Blake3Laws HB} data :
  mh_blake3 data = Some (mkMultihash 0x1e (blake3_hash data)).
Proof. unfold mh_blake3, Multihash_new. by rewrite blake3_length. Qed.

Lemma mh_sha256_ok `{HS : Sha256} {HSL : Sha256Laws HS} data :
  mh_sha256 data = Some (mkMultihash 0x12 (sha256_digest data)).
Proof. unfold mh_sha256, Multihash_new. by rewrite sha256_length. Qed.

(** ** Witnesses *)

Lemma multihash_roundtrip_witness :
  Multihash_from_bytes (Multihash_to_bytes (mkMultihash 300 [1; 2; 3]) ++ [9]) = Ok (mkMultihash 300 [1; 2; 3]).
Proof. refine (proj1 (multihash_roundtrip (mkMultihash 300 [1; 2; 3]) [9] [] _)). split; reflexivity. Defined.
