(* ===== verification/Cid.v ===== *)
(** * Content identifiers ([crates/a3net-types/src/cid.rs])

    A [Cid] is a version, a codec and a multihash; version 0 is written in
    base 58, version 1 in base 32. The big-number conversions of base 58 work on
    byte vectors and the base-32 encoder on a 32-bit register, as in the source.
    The decoder of base 32 is the crate [base32]: the class [Base32], whose law
    is that it inverts the RFC 4648 encoding [rfc4648], written here from the
    definition of the format and proved equal to the repository's encoder. *)
From stdpp Require Import prelude strings list.
From Stdlib Require Import NArith Lia Ascii.
From Stdlib Require String.
From S2P Require Import Prelude NodeId ContentHash Multihash.

#[local] Open Scope N_scope.

Inductive CidError : Type :=
| InvalidFormat
| UnsupportedVersion (v : N)
| InvalidCodec (c : N)
| CidMultihash (e : MultihashError)
| InvalidBase58
| Cidv0NotSha256
| NotBlake3
| UnsupportedContentCodec (c : N).

Inductive Codec : Type := DagPb | DagCbor | Raw | DagJson.

Inductive Version : Type := V0 | V1.

#[global] Instance CidError_eq_dec : EqDecision CidError.
Proof. solve_decision. Defined.
#[global] Instance Codec_eq_dec : EqDecision Codec.
Proof. solve_decision. Defined.

Definition Codec_code (c : Codec) : N :=
  match c with DagPb => 0x70 | DagCbor => 0x71 | Raw => 0x55 | DagJson => 0x85 end.

Definition Codec_from_code (code : N) : option Codec :=
  if code =? 0x55 then Some Raw
  else if code =? 0x70 then Some DagPb
  else if code =? 0x71 then Some DagCbor
  else if code =? 0x85 then Some DagJson
  else None.

Definition Codec_name (c : Codec) : string :=
  match c with
  | DagPb => "dag-pb" | DagCbor => "dag-cbor" | Raw => "raw" | DagJson => "dag-json"
  end.

Definition Codec_from_name (name : string) : option Codec :=
  if String.eqb name "dag-pb" || String.eqb name "protobuf" then Some DagPb
  else if String.eqb name "dag-cbor" || String.eqb name "cbor" then Some DagCbor
  else if String.eqb name "raw" then Some Raw
  else if String.eqb name "dag-json" || String.eqb name "json" then Some DagJson
  else None.

Record Cid : Type := mkCid { cid_version : N; cid_codec : N; cid_multihash : Multihash }.

#[global] Instance Cid_eq_dec : EqDecision Cid.
Proof. solve_decision. Defined.

(** ** Base 58 *)

Definition BASE58_ALPHABET : string := "123456789ABCDEFGHJKLMNPQRSTUVWXYZabcdefghijkmnopqrstuvwxyz".

Definition b58_char (i : N) : ascii := default zero (String.get (N.to_nat i) BASE58_ALPHABET).

(** The index of a character in a text. *)
Fixpoint str_index (c : ascii) (s : string) : option nat :=
  match s with
  | EmptyString => None
  | String a s' => if Ascii.eqb a c then Some 0%nat else S <$> str_index c s'
  end.

(** The table [char_to_val]; [None] is [-1]. *)
Definition char_to_val (c : ascii) : option N := N.of_nat <$> str_index c BASE58_ALPHABET.

(** The [for] loop of the multiplication: [result * 58 + carry], from the last
    byte to the first; the carry left over. *)
Fixpoint mul58 (result : list N) (carry : N) : list N * N :=
  match result with
  | [] => ([], carry)
  | b :: result' =>
      let '(r, c) := mul58 result' carry in
      let c := c + b * 58 in
      ((c mod 256) :: r, c / 256)
  end.

(** [while carry > 0 { result.insert(0, carry % 256); carry /= 256 }]. *)
Fixpoint push_carry (fuel : nat) (result : list N) (carry : N) : list N :=
  match fuel with
  | O => result
  | S fuel' => if 0 <? carry then push_carry fuel' (carry mod 256 :: result) (carry / 256) else result
  end.

Fixpoint decode58_loop (s : string) (acc : list N) : result CidError (list N) :=
  match s with
  | EmptyString => Ok acc
  | String c s' =>
      match char_to_val c with
      | None => Err InvalidBase58
      | Some v => let '(r, carry) := mul58 acc v in decode58_loop s' (push_carry 8 r carry)
      end
  end.

Fixpoint skip_ones (s : string) : nat * string :=
  match s with
  | String c s' =>
      if Ascii.eqb c "1" then let '(n, r) := skip_ones s' in (S n, r) else (0%nat, s)
  | EmptyString => (0%nat, EmptyString)
  end.

Definition decode_base58 (s : string) : result CidError (list N) :=
  if String.eqb s EmptyString then Ok []
  else
    let '(leading_ones, rest) := skip_ones s in
    if String.eqb rest EmptyString then Ok (replicate leading_ones 0)
    else
      match decode58_loop rest [0] with
      | Ok result => Ok (replicate leading_ones 0 ++ result)
      | Err e => Err e
      end.

(** Long division by 58: the quotient's bytes and the remainder. *)
Fixpoint div58 (carry : N) (num : list N) : list N * N :=
  match num with
  | [] => ([], carry)
  | b :: num' =>
      let c := carry * 256 + b in
      let '(q, r) := div58 (c mod 58) num' in (c / 58 :: q, r)
  end.

Fixpoint strip_zeros (l : list N) : list N :=
  match l with
  | b :: l' => if b =? 0 then strip_zeros l' else l
  | [] => []
  end.

(** The [while] loop of [encode_base58]; characters in the order they are
    pushed. Two rounds divide by more than 256, so a vector of [n] bytes is used
    up in [2 * n] rounds. *)
Fixpoint encode58_loop (fuel : nat) (num : list N) : list ascii :=
  match fuel with
  | O => []
  | S fuel' =>
      match num with
      | [] => []
      | _ => let '(q, r) := div58 0 num in b58_char r :: encode58_loop fuel' (strip_zeros q)
      end
  end.

Fixpoint count_zeros (l : list N) : nat :=
  match l with
  | b :: l' => if b =? 0 then S (count_zeros l') else 0%nat
  | [] => 0%nat
  end.

Definition encode_base58 (data : list N) : string :=
  let num := strip_zeros data in
  let pushed := replicate (count_zeros data) "1"%char ++ encode58_loop (2 * length num) num in
  String.string_of_list_ascii (reverse pushed).

(** ** Base 32 *)

Definition BASE32_ALPHABET : string := "abcdefghijklmnopqrstuvwxyz234567".
Definition b32_char (i : N) : ascii := default zero (String.get (N.to_nat i) BASE32_ALPHABET).

Definition u32_wrap (n : N) : N := n mod 2 ^ 32.

(** [while bit_count >= 5]: at most twelve bits are pending. *)
Fixpoint b32_drain (fuel : nat) (bits bit_count : N) : list ascii * N :=
  match fuel with
  | O => ([], bit_count)
  | S fuel' =>
      if 5 <=? bit_count then
        let bit_count := bit_count - 5 in
        let index := N.land (N.shiftr bits bit_count) 31 in
        let '(out, bc) := b32_drain fuel' bits bit_count in (b32_char index :: out, bc)
      else ([], bit_count)
  end.

Fixpoint b32_loop (data : list N) (bits bit_count : N) : list ascii :=
  match data with
  | [] =>
      if 0 <? bit_count
      then [b32_char (N.land (u32_wrap (N.shiftl bits (5 - bit_count))) 31)] else []
  | b :: data' =>
      let bits := N.lor (u32_wrap (N.shiftl bits 8)) b in
      let '(out, bc) := b32_drain 3 bits (bit_count + 8) in
      out ++ b32_loop data' bits bc
  end.

Definition encode_base32 (data : list N) : string := String.string_of_list_ascii (b32_loop data 0 0).

(** The format: bits of the bytes from the most significant, in groups of five,
    the last group padded with zeros. *)
Definition byte_bits (b : N) : list bool := (λ i, N.testbit b (N.of_nat (7 - i))) <$> seq 0 8.
Definition bits_val (bs : list bool) : N := foldl (λ acc b, 2 * acc + N.b2n b) 0 bs.

Fixpoint groups5 (fuel : nat) (bs : list bool) : list (list bool) :=
  match fuel, bs with
  | S fuel', _ :: _ => take 5 (bs ++ replicate 4 false) :: groups5 fuel' (drop 5 bs)
  | _, _ => []
  end.

Definition rfc4648 (data : list N) : string :=
  let bits := data ≫= byte_bits in
  String.string_of_list_ascii ((λ g, b32_char (bits_val g)) <$> groups5 (length bits) bits).

Class Base32 : Type := { base32_crate_decode : string → option (list N) }.
Class Base32Laws (B : Base32) : Prop := {
  base32_decode_encode bs : bytes_ok bs → base32_crate_decode (rfc4648 bs) = Some bs
}.

(** ** Varints of [cid.rs]

    Unlike the one of the multihash, this decoder has no length limit. [None] is
    the overflow of the shift at the eleventh byte, a panic in a debug build; at
    the tenth, the bits shifted out of the [u64] are lost. Without a byte that
    ends the varint, the bits read so far are the value. *)
Fixpoint cid_decode_loop (i : nat) (data : list N) (result : N) (consumed : nat) : option (N * nat) :=
  match data with
  | [] => Some (result, consumed)
  | b :: data' =>
      if Nat.ltb 9 i then None
      else
        let result := N.lor result (N.shiftl (N.land b 127) (N.of_nat i * 7) mod 2 ^ 64) in
        if N.land b 128 =? 0 then Some (result, S i)
        else cid_decode_loop (S i) data' result (S i)
  end.

Definition cid_decode_varint (data : list N) : option (N * nat) := cid_decode_loop 0 data 0 0.

(** [cid::encode_varint] is the loop of [multihash::encode_varint]. *)
Definition cid_encode_varint (value : N) : list N := encode_varint_loop 10 value.

(** ** Construction *)

Definition Cid_new_v0 (m : Multihash) : result CidError Cid :=
  if negb (mh_code m =? HashCode_to_u64 HcSha256) then Err Cidv0NotSha256 else Ok (mkCid 0 0 m).

Definition Cid_new_v1 (codec : Codec) (m : Multihash) : Cid := mkCid 1 (Codec_code codec) m.
Definition Cid_new_v1_dag_pb (m : Multihash) : Cid := Cid_new_v1 DagPb m.
Definition Cid_new_v1_dag_cbor (m : Multihash) : Cid := Cid_new_v1 DagCbor m.
Definition Cid_new_v1_raw (m : Multihash) : Cid := Cid_new_v1 Raw m.

Definition lift_mh {A} (r : result MultihashError A) : result CidError A :=
  match r with Ok a => Ok a | Err e => Err (CidMultihash e) end.

(** The binary form of version 1, after the checks on its first byte: shared by
    [from_bytes] and [from_v1_str]. [None] is the panic of the shift. *)
Definition cid_v1_body (bytes : list N) : option (result CidError Cid) :=
  if Nat.ltb (length bytes) 3 then Some (Err InvalidFormat)
  else
    match cid_decode_varint (drop 1 bytes) with
    | None => None
    | Some (codec, codec_len) =>
        if Nat.eqb codec_len 0 then Some (Err InvalidFormat)
        else
          Some (let? m := lift_mh (Multihash_from_bytes (drop (1 + codec_len) bytes)) in
                Ok (mkCid 1 codec m))
    end.

Definition Cid_from_bytes (bytes : list N) : option (result CidError Cid) :=
  match bytes with
  | [] => Some (Err InvalidFormat)
  | b :: rest =>
      if b =? 0 then
        Some (let? m := lift_mh (Multihash_from_bytes rest) in Cid_new_v0 m)
      else if negb (b =? 1) then Some (Err (UnsupportedVersion b))
      else cid_v1_body bytes
  end.

Definition Cid_to_bytes (c : Cid) : list N :=
  if cid_version c =? 0 then Multihash_to_bytes (cid_multihash c)
  else [1] ++ cid_encode_varint (cid_codec c) ++ Multihash_to_bytes (cid_multihash c).

Definition Cid_to_v0_string (c : Cid) : option string :=
  if cid_version c =? 0 then Some (encode_base58 (Multihash_to_bytes (cid_multihash c)))
  else if mh_code (cid_multihash c) =? HashCode_to_u64 HcSha256
  then Some (encode_base58 (Multihash_to_bytes (cid_multihash c)))
  else None.

(** [Display]. *)
Definition Cid_fmt (c : Cid) : string :=
  match Cid_to_v0_string c with
  | Some v0 => v0
  | None => String.append "bafy" (encode_base32 (Cid_to_bytes c))
  end.

Definition Cid_from_v0_str (s : string) : result CidError Cid :=
  if negb (Nat.eqb (String.length s) 46) then Err InvalidFormat
  else
    let? bytes := decode_base58 s in
    let? m := lift_mh (Multihash_from_bytes bytes) in
    if negb (mh_code m =? HashCode_to_u64 HcSha256) then Err Cidv0NotSha256 else Ok (mkCid 0 0 m).

(** [&s[n..]]. *)
Fixpoint str_drop (n : nat) (s : string) : string :=
  match n, s with
  | S n', String _ s' => str_drop n' s'
  | _, _ => s
  end.

Section CidText.
Context `{HX : Hex} `{B32 : Base32} `{HB : Blake3} `{HS : Sha256}.

Definition base32_decode (s : string) : result CidError (list N) :=
  ok_or InvalidBase58 (base32_crate_decode s).

(** [from_v1_str]; [None] is the panic of the shift. *)
Definition Cid_from_v1_str (s : string) : option (result CidError Cid) :=
  let decoded :=
    if str_starts_with "bafy" s || str_starts_with "bagy" s || str_starts_with "baer" s || str_starts_with "baga" s
    then base32_decode (str_drop 4 s)
    else if str_starts_with "b" s && Nat.ltb 4 (String.length s) then base32_decode (str_drop 1 s)
    else base32_decode s in
  match decoded with
  | Err e => Some (Err e)
  | Ok [] => Some (Err InvalidFormat)
  | Ok (b :: rest) =>
      if negb (b =? 1) then Some (Err (UnsupportedVersion b)) else cid_v1_body (b :: rest)
  end.

Definition Cid_parse (s : string) : option (result CidError Cid) :=
  if str_starts_with "Qm" s && Nat.eqb (String.length s) 46 then Some (Cid_from_v0_str s)
  else if str_starts_with "bafy" s || str_starts_with "bagy" s || str_starts_with "baer" s
  then Cid_from_v1_str s
  else
    match hex_decode s with
    | Some bytes =>
        match Cid_from_bytes bytes with
        | None => None
        | Some (Ok cid) => Some (Ok cid)
        | Some (Err _) => Cid_from_v1_str s
        end
    | None => Cid_from_v1_str s
    end.

(** [None] is the panic of [expect]. *)
Definition Cid_from_content_hash (hash : ContentHash) : option Cid :=
  match hex_decode (ch_hex hash) with
  | None => None
  | Some bytes =>
      match Multihash_from_blake3 bytes with
      | Ok m => Some (mkCid 1 (Codec_code Raw) m)
      | Err _ => None
      end
  end.

Definition Cid_from_content_blake3 (data : list N) : option Cid :=
  Cid_from_content_hash (ContentHash_from_bytes data).

Definition Cid_from_content_blake3_with_codec (data : list N) (codec : Codec) : option Cid :=
  match Multihash_from_blake3 (blake3_hash data) with
  | Ok m => Some (Cid_new_v1 codec m)
  | Err _ => None
  end.

(** [None] is the panic of [unwrap] in [multihash::sha256]. *)
Definition Cid_from_content_sha256 (data : list N) : option (result CidError Cid) :=
  hash ← mh_sha256 data;
  Some match Cid_new_v0 hash with
       | Ok cid => Ok cid
       | Err _ => Ok (Cid_new_v1 DagPb hash)
       end.

Definition Cid_verify_content (c : Cid) (content : list N) : bool :=
  let stored := mh_digest (cid_multihash c) in
  let computed := blake3_hash content in
  let compare_len := Nat.min (length stored) (length computed) in
  bool_decide (take compare_len stored = take compare_len computed).
End CidText.

Definition Cid_version (c : Cid) : Version := if cid_version c =? 0 then V0 else V1.
Definition Cid_codec (c : Cid) : option Codec := Codec_from_code (cid_codec c).
Definition Cid_is_v0 (c : Cid) : bool := cid_version c =? 0.
Definition Cid_is_v1 (c : Cid) : bool := cid_version c =? 1.

(** ** Big numbers in base 256 and base 58 *)

(** No leading zero byte. *)
Definition canonical (l : list N) : Prop := match l with b :: _ => b ≠ 0 | [] => True end.

Lemma canonical_lower l : canonical l → l ≠ [] → 256 ^ N.of_nat (length l - 1) ≤ be_value l.
Proof.
  destruct l as [|b l]; [done|]. intros Hb _. rewrite be_value_cons. simpl length.
  replace (S (length l) - 1)%nat with (length l) by lia. simpl in Hb. nia.
Qed.

Lemma canonical_of_value l :
  bytes_ok l → 256 ^ N.of_nat (length l - 1) ≤ be_value l → canonical l.
Proof.
  destruct l as [|b l]; [done|]. intros [_ Hl]%Forall_cons. rewrite be_value_cons. simpl length.
  replace (S (length l) - 1)%nat with (length l) by lia. simpl.
  pose proof (be_value_bound l Hl). intros H0 ->. lia.
Qed.

Lemma canonical_length a b :
  bytes_ok a → bytes_ok b → canonical a → canonical b → be_value a = be_value b →
  (length a ≤ length b)%nat.
Proof.
  intros Ha Hb Hca Hcb He. destruct (decide (a = [])) as [->|Hne]; [simpl; lia|].
  pose proof (canonical_lower a Hca Hne) as Hl. pose proof (be_value_bound b Hb) as Hu.
  destruct (le_lt_dec (length a) (length b)); [done|]. exfalso.
  assert (256 ^ N.of_nat (length b) ≤ 256 ^ N.of_nat (length a - 1)) by (apply N.pow_le_mono_r; lia).
  lia.
Qed.

Lemma canonical_unique a b :
  bytes_ok a → bytes_ok b → canonical a → canonical b → be_value a = be_value b → a = b.
Proof.
  intros. apply be_value_inj; try done. apply (anti_symm (≤)%nat); eauto using canonical_length.
Qed.

Lemma strip_zeros_spec l :
  bytes_ok l → bytes_ok (strip_zeros l) ∧ canonical (strip_zeros l) ∧
    be_value (strip_zeros l) = be_value l ∧ l = replicate (count_zeros l) 0 ++ strip_zeros l.
Proof.
  induction 1 as [|b l Hb Hl IH]; [split_and!; [constructor|done..]|]. cbn [strip_zeros count_zeros].
  destruct (N.eqb_spec b 0) as [->|Hz].
  - destruct IH as (H1 & H2 & H3 & H4). split_and!; [done|done| |by simpl; rewrite <- H4].
    by rewrite be_value_cons, H3.
  - split_and!; [by constructor|done|done|done].
Qed.

Lemma div58_spec carry num :
  carry < 58 → bytes_ok num →
  let '(q, r) := div58 carry num in
  be_value q * 58 + r = carry * 256 ^ N.of_nat (length num) + be_value num ∧
  r < 58 ∧ bytes_ok q ∧ length q = length num.
Proof.
  intros Hc H. revert carry Hc. induction H as [|b num Hb Hn IH]; intros carry Hc; cbn [div58].
  { split_and!; [unfold be_value; simpl; lia|done|constructor|done]. }
  specialize (IH ((carry * 256 + b) mod 58) (N.mod_lt _ 58 ltac:(lia))).
  destruct (div58 _ num) as [q r]. destruct IH as (IH1 & IH2 & IH3 & IH4).
  split_and!; [|done| |simpl; lia].
  - rewrite !be_value_cons, IH4. simpl length. rewrite Nat2N.inj_succ, N.pow_succ_r'.
    pose proof (N.div_mod (carry * 256 + b) 58 ltac:(lia)) as Hd.
    set (k := 256 ^ N.of_nat (length num)) in *. nia.
  - constructor; [|done]. unfold byte_ok in *. apply N.Div0.div_lt_upper_bound. lia.
Qed.

Lemma mul58_spec acc v :
  bytes_ok acc → v < 58 →
  let '(r, c) := mul58 acc v in
  c * 256 ^ N.of_nat (length acc) + be_value r = be_value acc * 58 + v ∧
  c < 58 ∧ bytes_ok r ∧ length r = length acc.
Proof.
  intros H Hv. induction H as [|b acc Hb Ha IH]; cbn [mul58].
  { split_and!; [unfold be_value; simpl; lia|done|constructor|done]. }
  destruct (mul58 acc v) as [r c]. destruct IH as (IH1 & IH2 & IH3 & IH4).
  pose proof (N.div_mod (c + b * 58) 256 ltac:(lia)) as Hd. unfold byte_ok in Hb.
  split_and!; [| | |simpl; lia].
  - rewrite !be_value_cons, IH4. simpl length. rewrite Nat2N.inj_succ, N.pow_succ_r'.
    set (k := 256 ^ N.of_nat (length acc)) in *. nia.
  - apply N.Div0.div_lt_upper_bound. lia.
  - constructor; [apply N.mod_lt; lia|done].
Qed.

Lemma push_carry_small r c : c < 58 → push_carry 8 r c = if c =? 0 then r else c :: r.
Proof.
  intros Hc. change (push_carry 8 r c) with (if 0 <? c then push_carry 7 (c mod 256 :: r) (c / 256) else r).
  destruct (N.ltb_spec 0 c), (N.eqb_spec c 0); try (exfalso; lia); [|done].
  by rewrite (N.mod_small c), (N.div_small c) by lia.
Qed.

Lemma b58_char_val i : i < 58 → char_to_val (b58_char i) = Some i.
Proof.
  intros Hi. pose proof (N_check (λ i, bool_decide (char_to_val (b58_char i) = Some i)) 58 eq_refl i Hi) as H.
  by apply bool_decide_eq_true in H.
Qed.

Lemma b58_char_not_one i : i < 58 → i ≠ 0 → Ascii.eqb (b58_char i) "1" = false.
Proof.
  intros Hi Hz. pose proof (N_check (λ i, (i =? 0) || negb (Ascii.eqb (b58_char i) "1")) 58 eq_refl i Hi) as H.
  apply orb_true_iff in H as [H%N.eqb_eq|H%negb_true_iff]; done.
Qed.

(** One digit: the vector stays canonical and denotes [58 * value + digit]. *)
Lemma decode58_step acc v :
  bytes_ok acc → v < 58 → acc ≠ [] → canonical acc ∨ acc = [0] ∧ v ≠ 0 →
  let '(r, c) := mul58 acc v in
  bytes_ok (push_carry 8 r c) ∧ canonical (push_carry 8 r c) ∧ push_carry 8 r c ≠ [] ∧
  be_value (push_carry 8 r c) = be_value acc * 58 + v.
Proof.
  intros Ha Hv Hne Hcan. pose proof (mul58_spec acc v Ha Hv) as Hm.
  destruct (mul58 acc v) as [r c]. destruct Hm as (Hm & Hc & Hr & Hl).
  rewrite push_carry_small by done. destruct (N.eqb_spec c 0) as [->|Hc0].
  - rewrite N.mul_0_l, N.add_0_l in Hm. split_and!; [done| |by destruct acc, r|done].
    apply canonical_of_value; [done|]. rewrite Hl, Hm. destruct Hcan as [Hcan|[-> Hv0]].
    + pose proof (canonical_lower acc Hcan Hne). nia.
    + simpl. unfold be_value. simpl. lia.
  - split_and!; [constructor; [unfold byte_ok; lia|done]|done|done|].
    rewrite be_value_cons, Hl. lia.
Qed.

Definition digits_val (acc : N) (ds : list N) : N := foldl (λ a d, a * 58 + d) acc ds.

Lemma decode58_digits ds acc :
  Forall (λ d, d < 58) ds → bytes_ok acc → canonical acc → acc ≠ [] →
  ∃ l, decode58_loop (String.string_of_list_ascii (b58_char <$> ds)) acc = Ok l ∧
    bytes_ok l ∧ canonical l ∧ be_value l = digits_val (be_value acc) ds.
Proof.
  intros H. revert acc. induction H as [|d ds Hd _ IH]; intros acc Ha Hc Hne.
  { exists acc. done. }
  cbn [fmap list_fmap String.string_of_list_ascii decode58_loop]. rewrite b58_char_val by done.
  pose proof (decode58_step acc d Ha Hd Hne (or_introl Hc)) as Hs.
  destruct (mul58 acc d) as [r c]. destruct Hs as (H1 & H2 & H3 & H4).
  destruct (IH _ H1 H2 H3) as (l & Hl & Hb & Hcl & Hv). exists l. split_and!; try done.
  rewrite Hv, H4. done.
Qed.

(** Reading the digits of a number, the first of them not zero. *)
Lemma decode_base58_digits d ds :
  d < 58 → d ≠ 0 → Forall (λ d, d < 58) ds →
  ∃ l, decode_base58 (String.string_of_list_ascii (b58_char <$> d :: ds)) = Ok l ∧
    bytes_ok l ∧ canonical l ∧ be_value l = digits_val d ds.
Proof.
  intros Hd H0 Hds. unfold decode_base58. cbn [fmap list_fmap String.string_of_list_ascii].
  cbn [String.eqb skip_ones]. rewrite b58_char_not_one by done. cbn [String.eqb decode58_loop].
  rewrite b58_char_val by done.
  pose proof (decode58_step [0] d ltac:(repeat constructor) Hd ltac:(done) (or_intror (conj eq_refl H0))) as Hs.
  destruct (mul58 [0] d) as [r c]. destruct Hs as (H1 & H2 & H3 & H4).
  destruct (decode58_digits ds _ Hds H1 H2 H3) as (l & -> & Hb & Hc & Hv).
  exists l. split_and!; [done|done|done|]. rewrite Hv, H4. unfold be_value. simpl. done.
Qed.

(** The characters pushed are the digits from the least significant. *)
Lemma encode58_digits fuel num :
  bytes_ok num → canonical num → be_value num < 58 ^ N.of_nat fuel →
  ∃ ds, encode58_loop fuel num = b58_char <$> ds ∧ Forall (λ d, d < 58) ds ∧
    foldr (λ d a, d + 58 * a) 0 ds = be_value num ∧
    (num ≠ [] → ∃ ds' d, ds = ds' ++ [d] ∧ d ≠ 0).
Proof.
  revert num. induction fuel as [|fuel IH]; intros num Hn Hc Hv.
  { exists []. change (58 ^ N.of_nat 0) with 1 in Hv. split_and!; [done|constructor|simpl; lia|].
    intros Hne. pose proof (canonical_lower num Hc Hne).
    assert (256 ^ N.of_nat (length num - 1) ≠ 0) by (apply N.pow_nonzero; lia). lia. }
  cbn [encode58_loop]. destruct num as [|b num'] eqn:Hnum.
  { exists []. split_and!; [done|constructor|done|done]. }
  rewrite <- Hnum in *. assert (num ≠ []) as Hne by (by subst).
  pose proof (div58_spec 0 num ltac:(lia) Hn) as Hd. destruct (div58 0 num) as [q r].
  destruct Hd as (Hd & Hr & Hq & _). rewrite N.mul_0_l, N.add_0_l in Hd.
  destruct (strip_zeros_spec q Hq) as (Hs1 & Hs2 & Hs3 & _).
  destruct (IH (strip_zeros q) Hs1 Hs2) as (ds & Hds & Hlt & Hval & Htop).
  { rewrite Hs3. rewrite Nat2N.inj_succ, N.pow_succ_r' in Hv. lia. }
  exists (r :: ds). split_and!; [by rewrite Hds|by constructor|simpl; lia|]. intros _.
  destruct (decide (strip_zeros q = [])) as [He|He].
  - rewrite He in Hval, Hs3. assert (ds = []) as ->.
    { rewrite He in Hds. destruct fuel, ds; try done. }
    exists [], r. split; [done|]. intros ->.
    pose proof (canonical_lower num Hc Hne).
    assert (256 ^ N.of_nat (length num - 1) ≠ 0) by (apply N.pow_nonzero; lia).
    unfold be_value in Hs3 at 1. simpl in Hs3. lia.
  - destruct (Htop He) as (ds' & d & -> & Hd0). by exists (r :: ds'), d.
Qed.

Lemma digits_val_reverse ds : digits_val 0 (reverse ds) = foldr (λ d a, d + 58 * a) 0 ds.
Proof.
  unfold digits_val. induction ds as [|d ds IH]; [done|].
  rewrite reverse_cons, foldl_app. simpl. rewrite IH. lia.
Qed.

Lemma b58_fuel num : bytes_ok num → be_value num < 58 ^ N.of_nat (2 * length num).
Proof.
  intros Hn. eapply N.lt_le_trans; [by apply be_value_bound|].
  rewrite Nat2N.inj_mul, N.pow_mul_r. apply N.pow_le_mono_l. vm_compute. discriminate.
Qed.

(** The text of a number without leading zeros: its digits, most significant
    first, the first of them not zero. *)
Lemma encode_base58_canonical data :
  bytes_ok data → canonical data → data ≠ [] →
  ∃ d ds, encode_base58 data = String.string_of_list_ascii (b58_char <$> d :: ds) ∧
    d < 58 ∧ d ≠ 0 ∧ Forall (λ d, d < 58) ds ∧ digits_val d ds = be_value data.
Proof.
  intros Hb Hc Hne. unfold encode_base58.
  assert (strip_zeros data = data ∧ count_zeros data = 0%nat) as [-> ->].
  { destruct data as [|b data]; [done|]. cbn [strip_zeros count_zeros]. simpl in Hc.
    by destruct (N.eqb_spec b 0). }
  destruct (encode58_digits (2 * length data) data Hb Hc (b58_fuel data Hb)) as (ds & -> & Hlt & Hv & Htop).
  destruct (Htop Hne) as (ds' & d & -> & Hd0). exists d, (reverse ds').
  apply Forall_app in Hlt as [Hlt' Hd]. apply Forall_cons in Hd as [Hd _].
  cbn [replicate app]. rewrite <- fmap_reverse, reverse_app, reverse_singleton.
  split_and!; [done|exact Hd|done|by apply Forall_reverse|].
  rewrite <- Hv, <- digits_val_reverse, reverse_app, reverse_singleton. done.
Qed.

(** Base 58: for bytes without a leading zero, [decode_base58] inverts
    [encode_base58] and the text has the digits of the number the bytes denote;
    for all-zero bytes the round trip holds as well. *)
Theorem base58_roundtrip data :
  bytes_ok data → canonical data ∨ strip_zeros data = [] →
  decode_base58 (encode_base58 data) = Ok data.
Proof.
  intros Hb [Hc|Hz].
  - destruct (decide (data = [])) as [->|Hne]; [done|].
    destruct (encode_base58_canonical data Hb Hc Hne) as (d & ds & -> & Hd & Hd0 & Hds & Hv).
    destruct (decode_base58_digits d ds Hd Hd0 Hds) as (l & -> & Hl & Hcl & Hvl).
    f_equal. apply canonical_unique; congruence.
  - destruct (strip_zeros_spec data Hb) as (_ & _ & _ & Hd). rewrite Hz, app_nil_r in Hd.
    unfold encode_base58. rewrite Hz. cbn [encode58_loop length Nat.mul Nat.add]. rewrite app_nil_r.
    rewrite Hd at 2. clear Hd Hz Hb. generalize (count_zeros data). intros n. clear data.
    rewrite reverse_replicate. unfold decode_base58.
    assert (Hs : skip_ones (String.string_of_list_ascii (replicate n "1"%char)) = (n, EmptyString)).
    { induction n as [|n IH]; [done|]. cbn [replicate String.string_of_list_ascii skip_ones].
      simpl. by rewrite IH. }
    rewrite Hs. by destruct n.
Qed.

(** A zero byte before others is written at the wrong end. *)
Theorem base58_leading_zero :
  encode_base58 [0; 1] = "21" ∧ decode_base58 "21" = Ok [58] ∧ decode_base58 "12" = Ok [0; 1].
Proof. vm_compute. done. Qed.

(** ** The base-32 encoder implements RFC 4648 *)

Lemma bits_val_snoc l x : bits_val (l ++ [x]) = 2 * bits_val l + N.b2n x.
Proof. unfold bits_val. by rewrite foldl_app. Qed.

Lemma bits_val_app a b : bits_val (a ++ b) = bits_val a * 2 ^ N.of_nat (length b) + bits_val b.
Proof.
  induction b as [|x b IH] using rev_ind.
  { rewrite app_nil_r. change (bits_val []) with 0. by rewrite N.mul_1_r, N.add_0_r. }
  rewrite app_assoc, !bits_val_snoc, IH, length_app.
  replace (N.of_nat (length b + length [x])) with (N.succ (N.of_nat (length b))) by (simpl; lia).
  rewrite N.pow_succ_r'. lia.
Qed.

Lemma bits_val_bound a : bits_val a < 2 ^ N.of_nat (length a).
Proof.
  induction a as [|x a IH] using rev_ind; [done|]. rewrite bits_val_app, length_app.
  change (2 ^ N.of_nat (length [x])) with 2.
  replace (N.of_nat (length a + length [x])) with (N.succ (N.of_nat (length a))) by (simpl; lia).
  rewrite N.pow_succ_r'. assert (bits_val [x] ≤ 1) by (by destruct x). lia.
Qed.

Lemma bits_val_zeros n : bits_val (replicate n false) = 0.
Proof.
  induction n as [|n IH]; [done|]. change (replicate (S n) false) with ([false] ++ replicate n false).
  rewrite bits_val_app, IH. change (bits_val [false]) with 0. lia.
Qed.

Lemma byte_bits_val b : b < 256 → bits_val (byte_bits b) = b.
Proof.
  intros Hb. pose proof (N_check (λ b, bits_val (byte_bits b) =? b) 256 eq_refl b Hb) as H. by apply N.eqb_eq.
Qed.

Lemma div_mod_pow2 x k j : (x / 2 ^ k) mod 2 ^ j = (x mod 2 ^ (k + j)) / 2 ^ k.
Proof.
  assert (2 ^ k ≠ 0) by (apply N.pow_nonzero; lia).
  rewrite N.pow_add_r, N.Div0.mod_mul_r, (N.mul_comm (2 ^ k)), N.div_add by done.
  rewrite (N.div_small (x mod 2 ^ k)); [lia|]. by apply N.mod_lt.
Qed.

Lemma mod_mod_pow2 x k j : k ≤ j → (x mod 2 ^ j) mod 2 ^ k = x mod 2 ^ k.
Proof.
  intros H. replace j with (k + (j - k)) by lia.
  rewrite N.pow_add_r, N.Div0.mod_mul_r, (N.mul_comm (2 ^ k)), N.Div0.mod_add. apply N.Div0.mod_mod.
Qed.

Definition group_char (g : list bool) : ascii := b32_char (bits_val g).

Lemma groups5_fuel f bs : (length bs ≤ f)%nat → groups5 f bs = groups5 (length bs) bs.
Proof.
  revert bs. induction f as [f IH] using lt_wf_ind. intros [|b bs] Hf; [by destruct f|].
  destruct f as [|f]; simpl in Hf; [lia|]. cbn [groups5 length]. f_equal.
  set (r := drop 5 (b :: bs)). assert (length r ≤ length bs)%nat.
  { unfold r. rewrite length_drop. simpl. lia. }
  rewrite (IH f) by lia. symmetry. apply IH; lia.
Qed.

(** A full group at the front. *)
Lemma groups5_cons a rest :
  length a = 5%nat → groups5 (length (a ++ rest)) (a ++ rest) = a :: groups5 (length rest) rest.
Proof.
  intros Ha. destruct a as [|x a]; [done|].
  trans (take 5 (((x :: a) ++ rest) ++ replicate 4 false) ::
         groups5 (length (a ++ rest)) (drop 5 ((x :: a) ++ rest))); [done|].
  rewrite <- app_assoc, <- Ha, take_app_length, drop_app_length, length_app. f_equal. apply groups5_fuel. lia.
Qed.

Lemma b32_drain_spec fuel bits p rest :
  (length p < 5 * fuel + 5)%nat → bits mod 2 ^ N.of_nat (length p) = bits_val p →
  ∃ out p', b32_drain fuel bits (N.of_nat (length p)) = (out, N.of_nat (length p')) ∧
    (length p' < 5)%nat ∧ bits mod 2 ^ N.of_nat (length p') = bits_val p' ∧
    group_char <$> groups5 (length (p ++ rest)) (p ++ rest) =
    out ++ (group_char <$> groups5 (length (p' ++ rest)) (p' ++ rest)).
Proof.
  revert p. induction fuel as [|fuel IH]; intros p Hl Hb; cbn [b32_drain].
  { exists [], p. split_and!; [done|lia|done|done]. }
  destruct (N.leb_spec 5 (N.of_nat (length p))) as [H5|H5]; [|exists [], p; split_and!; [done|lia|done|done]].
  rewrite <- (take_drop 5 p) in Hb. set (a := take 5 p) in *. set (q := drop 5 p) in *.
  assert (length a = 5%nat ∧ length q = (length p - 5)%nat) as [Ha Hq].
  { unfold a, q. rewrite length_take, length_drop. lia. }
  replace (N.of_nat (length p) - 5) with (N.of_nat (length q)) by lia.
  rewrite bits_val_app, length_app, Ha in Hb.
  pose proof (bits_val_bound q) as Bq.
  replace (N.of_nat (5 + length q)) with (N.of_nat (length q) + 5) in Hb by lia.
  destruct (IH q) as (out & p' & He & Hp' & Hbp & Hg); [lia| |].
  { rewrite <- (mod_mod_pow2 bits _ (N.of_nat (length q) + 5)) by lia. rewrite Hb.
    rewrite N.add_comm, N.Div0.mod_add. by apply N.mod_small. }
  rewrite He. eexists _, p'. split_and!; [done|done|done|].
  rewrite <- (take_drop 5 p). fold a q. rewrite <- app_assoc, groups5_cons by done.
  cbn [fmap list_fmap app]. rewrite Hg. f_equal. unfold group_char. f_equal.
  change 31 with (N.ones 5). rewrite N.land_ones, N.shiftr_div_pow2, div_mod_pow2, Hb.
  rewrite N.div_add_l by (apply N.pow_nonzero; lia). rewrite N.div_small by done. lia.
Qed.

Lemma groups5_last p :
  (0 < length p < 5)%nat →
  groups5 (length p) p = [p ++ replicate (5 - length p) false].
Proof.
  intros Hp. destruct p as [|x p]; [simpl in Hp; lia|].
  trans (take 5 ((x :: p) ++ replicate 4 false) :: groups5 (length p) (drop 5 (x :: p))); [done|].
  rewrite drop_ge by lia. rewrite take_app_ge, take_replicate by lia.
  replace (Nat.min _ 4) with (5 - length (x :: p))%nat by lia. by destruct (length p).
Qed.

Lemma b32_register bits b bc :
  b < 256 → bc ≤ 24 →
  N.lor (u32_wrap (N.shiftl bits 8)) b mod 2 ^ (bc + 8) = bits mod 2 ^ bc * 2 ^ 8 + b.
Proof.
  intros Hb Hbc. unfold u32_wrap. rewrite N.shiftl_mul_pow2.
  change (2 ^ 32) with (2 ^ 24 * 2 ^ 8). rewrite N.Div0.mul_mod_distr_r.
  rewrite N.lor_comm, <- N.shiftl_mul_pow2, lor_shiftl_add by done.
  rewrite (N.add_comm bc 8), N.pow_add_r, N.Div0.mod_mul_r.
  rewrite N.Div0.mod_add, N.div_add, N.div_small, (N.mod_small b) by done. rewrite N.add_0_l, mod_mod_pow2 by done. lia.
Qed.

Lemma b32_loop_spec data bits p :
  bytes_ok data → (length p < 5)%nat → bits mod 2 ^ N.of_nat (length p) = bits_val p →
  b32_loop data bits (N.of_nat (length p)) =
  group_char <$> groups5 (length (p ++ (data ≫= byte_bits))) (p ++ (data ≫= byte_bits)).
Proof.
  intros H. revert bits p. induction H as [|b data Hb _ IH]; intros bits p Hp Hbits.
  - cbn [mbind list_bind b32_loop]. rewrite app_nil_r. ncase.
    + rewrite groups5_last by lia. cbn [fmap list_fmap]. unfold group_char. do 2 f_equal.
      rewrite bits_val_app, length_replicate, bits_val_zeros, N.add_0_r.
      change 31 with (N.ones 5). rewrite N.land_ones. unfold u32_wrap. rewrite mod_mod_pow2 by done.
      rewrite N.shiftl_mul_pow2.
      replace (2 ^ 5) with (2 ^ N.of_nat (length p) * 2 ^ (5 - N.of_nat (length p)))
        by (rewrite <- N.pow_add_r; f_equal; lia).
      rewrite N.Div0.mul_mod_distr_r, Hbits. f_equal. f_equal. lia.
    + by destruct p.
  - cbn [b32_loop mbind list_bind].
    set (bits' := N.lor (u32_wrap (N.shiftl bits 8)) b).
    assert (Hl : length (p ++ byte_bits b) = (length p + 8)%nat) by (by rewrite length_app).
    replace (N.of_nat (length p) + 8) with (N.of_nat (length (p ++ byte_bits b))) by lia.
    destruct (b32_drain_spec 3 bits' (p ++ byte_bits b) (data ≫= byte_bits)) as (out & p' & -> & Hp' & Hb' & Hg).
    { lia. }
    { rewrite bits_val_app, byte_bits_val by done. rewrite Hl, <- Hbits.
      replace (N.of_nat (length p + 8)) with (N.of_nat (length p) + 8) by lia.
      unfold bits'. rewrite b32_register by (done || lia). done. }
    rewrite app_assoc. rewrite Hg. f_equal. by apply IH.
Qed.

(** The base-32 encoder of the repository, which shifts bytes through a
    32-bit register, computes the RFC 4648 encoding (lower case, no padding). *)
Theorem encode_base32_rfc4648 data :
  bytes_ok data → encode_base32 data = rfc4648 data.
Proof.
  intros Hd. unfold encode_base32, rfc4648. f_equal. apply (b32_loop_spec data 0 [] Hd); [simpl; lia|done].
Qed.

(** ** Binary form *)

Lemma cid_decode_encode_loop fuel v i rest result n :
  v < 2 ^ (7 * N.of_nat fuel) → v * 2 ^ (7 * N.of_nat i) < 2 ^ 64 →
  (0 < fuel)%nat → (i ≤ 9)%nat → result < 2 ^ (7 * N.of_nat i) →
  cid_decode_loop i (encode_varint_loop fuel v ++ rest) result n =
  Some (result + v * 2 ^ (7 * N.of_nat i), (i + length (encode_varint_loop fuel v))%nat).
Proof.
  revert v i result n. induction fuel as [|fuel IH]; intros v i result n Hf Hv Hf0 Hi Hr; [lia|].
  cbn [encode_varint_loop]. rewrite land_127, N.shiftr_div_pow2. change (2 ^ 7) with 128.
  pose proof (N.mod_lt v 128 ltac:(lia)) as Hm. pose proof (N.div_mod v 128 ltac:(lia)) as Hd.
  replace (7 * N.of_nat (S fuel)) with (7 * N.of_nat fuel + 7) in Hf by lia.
  rewrite N.pow_add_r in Hf. change (2 ^ 7) with 128 in Hf.
  set (k := 2 ^ (7 * N.of_nat i)) in *.
  assert (Hstep : N.lor result (N.shiftl (v mod 128) (N.of_nat i * 7) mod 2 ^ 64) = result + v mod 128 * k).
  { rewrite N.mod_small.
    - rewrite (N.mul_comm (N.of_nat i)). by apply lor_shiftl_add.
    - rewrite N.shiftl_mul_pow2, (N.mul_comm (N.of_nat i)). fold k. eapply N.le_lt_trans; [apply N.mul_le_mono_r, N.Div0.mod_le|exact Hv]. }
  destruct (N.eqb_spec (v / 128) 0) as [Hz|Hz]; cbn [app cid_decode_loop length].
  - rewrite has_continuation, land_127 by lia. rewrite N.Div0.mod_mod.
    destruct (Nat.ltb_spec 9 i); [lia|]. rewrite (proj2 (N.ltb_lt _ _) Hm), Hstep.
    rewrite (N.mod_small v) by lia. do 2 f_equal. lia.
  - rewrite continuation_bit, has_continuation, land_127 by lia.
    rewrite (proj2 (N.ltb_ge (v mod 128 + 128) 128)) by apply N.le_add_l.
    replace ((v mod 128 + 128) mod 128) with (v mod 128)
      by (rewrite N.Div0.add_mod, N.Div0.mod_same, N.add_0_r, !N.Div0.mod_mod; done).
    destruct (Nat.ltb_spec 9 i); [lia|]. rewrite Hstep.
    assert (Hk : 2 ^ (7 * N.of_nat (S i)) = k * 128).
    { replace (7 * N.of_nat (S i)) with (7 * N.of_nat i + 7) by lia. by rewrite N.pow_add_r. }
    assert (Hq : v / 128 < 2 ^ (7 * N.of_nat fuel)) by (apply N.Div0.div_lt_upper_bound; lia).
    rewrite IH; [|done| | | |]; rewrite ?Hk.
    + do 2 f_equal; [|lia]. rewrite Hd at 3. lia.
    + eapply N.le_lt_trans; [|exact Hv]. replace (v / 128 * (k * 128)) with (128 * (v / 128) * k) by lia.
      apply N.mul_le_mono_r, N.Div0.mul_div_le.
    + destruct fuel; [|lia]. change (2 ^ (7 * N.of_nat 0)) with 1 in Hq. lia.
    + assert (128 ≤ v) by (apply N.le_ngt; intros ?; by apply Hz, N.div_small).
      assert (k * 128 < 2 ^ 64) as Hlt
        by (eapply N.le_lt_trans; [|exact Hv]; rewrite N.mul_comm; by apply N.mul_le_mono_r).
      rewrite <- Hk in Hlt. apply N.pow_lt_mono_r_iff in Hlt; lia.
    + assert (v mod 128 * k ≤ 127 * k) by (apply N.mul_le_mono_r; lia). lia.
Qed.

Lemma cid_decode_encode_varint v rest :
  v < 2 ^ 64 → cid_decode_varint (cid_encode_varint v ++ rest) = Some (v, length (cid_encode_varint v)).
Proof.
  intros Hv. unfold cid_decode_varint, cid_encode_varint. rewrite cid_decode_encode_loop; try lia.
  change (2 ^ (7 * N.of_nat 0)) with 1. do 2 f_equal. lia.
Qed.

Lemma cid_encode_varint_cons v : ∃ b bs, cid_encode_varint v = b :: bs.
Proof. apply encode_varint_cons. Qed.

(** Version 1, read from its bytes. *)
Lemma cid_v1_body_ok codec m rest :
  codec < 2 ^ 64 → mh_ok m →
  cid_v1_body (Cid_to_bytes (mkCid 1 codec m) ++ rest) = Some (Ok (mkCid 1 codec m)).
Proof.
  intros Hc Hm. unfold cid_v1_body, Cid_to_bytes.
  change (cid_version (mkCid 1 codec m) =? 0) with false. cbn [cid_codec cid_multihash].
  rewrite <- !app_assoc. pose proof (mh_bytes_length m).
  destruct (cid_encode_varint_cons codec) as (b & bs & Hb).
  ncase. { rewrite !length_app in *. rewrite Hb in *. simpl in *. lia. }
  change (drop 1 ([1] ++ ?l)) with l.
  rewrite cid_decode_encode_varint by done. rewrite Hb. cbn [length Nat.eqb Nat.add]. rewrite <- Hb.
  change (drop (S ?n) ([1] ++ ?l)) with (drop n l).
  change (S (length bs)) with (length (b :: bs)). rewrite <- Hb, drop_app_length, mh_from_to_bytes by done.
  done.
Qed.

Lemma Cid_to_bytes_ok c : bytes_ok (mh_digest (cid_multihash c)) → bytes_ok (Cid_to_bytes c).
Proof.
  intros Hd. assert (bytes_ok (Multihash_to_bytes (cid_multihash c))) as Hm.
  { unfold Multihash_to_bytes. apply Forall_app. split; [apply encode_varint_ok|].
    apply Forall_app. split; [apply encode_varint_ok|done]. }
  unfold Cid_to_bytes. destruct (_ =? 0); [done|].
  apply Forall_app. split; [by repeat constructor|]. apply Forall_app. split; [apply encode_varint_loop_ok|done].
Qed.

(** Binary CIDs: a CIDv1 is read back from its bytes, whatever follows; a
    CIDv0 is written as a bare multihash, which [from_bytes] refuses, and is read
    back only behind a zero byte. An empty input, another version byte and a
    truncated CIDv1 are errors. *)
Theorem cid_binary_roundtrip codec m rest :
  codec < 2 ^ 64 → mh_ok m →
  Cid_from_bytes (Cid_to_bytes (mkCid 1 codec m) ++ rest) = Some (Ok (mkCid 1 codec m)) ∧
  (mh_code m = HashCode_to_u64 HcSha256 →
     Cid_from_bytes (Cid_to_bytes (mkCid 0 0 m)) = Some (Err (UnsupportedVersion 18)) ∧
     Cid_from_bytes (0 :: Cid_to_bytes (mkCid 0 0 m)) = Some (Ok (mkCid 0 0 m))) ∧
  Cid_from_bytes [] = Some (Err InvalidFormat) ∧
  (∀ b l, 1 < b → Cid_from_bytes (b :: l) = Some (Err (UnsupportedVersion b))) ∧
  (∀ b, Cid_from_bytes [1; b] = Some (Err InvalidFormat)).
Proof.
  intros Hc Hm. split_and!; try done.
  - pose proof (cid_v1_body_ok codec m rest Hc Hm) as H.
    unfold Cid_to_bytes in *. change (cid_version (mkCid 1 codec m) =? 0) with false in *.
    cbn [app Cid_from_bytes]. exact H.
  - intros Hs. unfold Cid_to_bytes. cbn [cid_version cid_multihash N.eqb]. split.
    + unfold Multihash_to_bytes. rewrite Hs. done.
    + cbn [Cid_from_bytes N.eqb]. rewrite <- (app_nil_r (Multihash_to_bytes m)), mh_from_to_bytes by done.
      cbn [lift_mh]. unfold Cid_new_v0. rewrite Hs. done.
  - intros b l Hb. cbn [Cid_from_bytes]. by repeat ncase.
Qed.

(** ** Text form *)

Lemma digits_val_acc acc ds : digits_val acc ds = acc * 58 ^ N.of_nat (length ds) + digits_val 0 ds.
Proof.
  revert acc. induction ds as [|d ds IH]; intros acc; [unfold digits_val; simpl; lia|].
  change (digits_val acc (d :: ds)) with (digits_val (acc * 58 + d) ds).
  change (digits_val 0 (d :: ds)) with (digits_val d ds).
  rewrite IH, (IH d). simpl length. rewrite Nat2N.inj_succ, N.pow_succ_r'. lia.
Qed.

Lemma digits_val_bound ds : Forall (λ d, d < 58) ds → digits_val 0 ds < 58 ^ N.of_nat (length ds).
Proof.
  induction 1 as [|d ds Hd _ IH]; [done|]. change (digits_val 0 (d :: ds)) with (digits_val d ds).
  rewrite digits_val_acc. simpl length. rewrite Nat2N.inj_succ, N.pow_succ_r'. nia.
Qed.

(** A number of 46 digits has 46 digits. *)
Lemma digits_length d ds k :
  d < 58 → d ≠ 0 → Forall (λ d, d < 58) ds →
  58 ^ N.of_nat k ≤ digits_val d ds < 58 ^ N.of_nat (S k) → length ds = k.
Proof.
  intros Hd H0 Hds [Hlo Hhi]. rewrite digits_val_acc in Hlo, Hhi. pose proof (digits_val_bound ds Hds) as Hb.
  rewrite Nat2N.inj_succ, N.pow_succ_r' in Hhi.
  destruct (Nat.lt_trichotomy (length ds) k) as [Hl|[Hl|Hl]]; [exfalso|done|exfalso].
  - assert (58 ^ N.succ (N.of_nat (length ds)) ≤ 58 ^ N.of_nat k) by (apply N.pow_le_mono_r; lia).
    rewrite N.pow_succ_r' in *. nia.
  - assert (58 ^ N.succ (N.of_nat k) ≤ 58 ^ N.of_nat (length ds)) by (apply N.pow_le_mono_r; lia).
    rewrite N.pow_succ_r' in *. nia.
Qed.

(** The text of a SHA-256 multihash: 46 characters, the first two [Qm]. *)
Lemma v0_text digest :
  bytes_ok digest → length digest = 32%nat →
  ∃ ds, encode_base58 ([18; 32] ++ digest) = String.string_of_list_ascii (b58_char <$> 23 :: 44 :: ds) ∧
    length ds = 44%nat.
Proof.
  intros Hb Hl. destruct (encode_base58_canonical ([18; 32] ++ digest)) as (d & ds & -> & Hd & Hd0 & Hds & Hv).
  { repeat constructor; done. } { done. } { done. }
  assert (HV : be_value ([18; 32] ++ digest) = 4640 * 256 ^ 32 + be_value digest).
  { change ([18; 32] ++ digest) with (18 :: 32 :: digest). rewrite !be_value_cons. simpl length.
    rewrite Hl. change (256 ^ N.of_nat 33) with (256 * 256 ^ 32). change (256 ^ N.of_nat 32) with (256 ^ 32). lia. }
  pose proof (be_value_bound digest Hb) as HB. rewrite Hl in HB. change (256 ^ N.of_nat 32) with (256 ^ 32) in HB.
  rewrite HV in Hv. clear HV.
  assert (length ds = 45%nat) as Hlen.
  { apply (digits_length d); [done..|]. rewrite Hv. clear - HB.
    change (N.of_nat 45) with 45. change (N.of_nat 46) with 46. split; lia. }
  destruct ds as [|e ds]; [done|]. apply Forall_cons in Hds as [He Hds].
  change (digits_val d (e :: ds)) with (digits_val (d * 58 + e) ds) in Hv.
  injection Hlen as Hlen. rewrite digits_val_acc, Hlen in Hv.
  pose proof (digits_val_bound ds Hds) as Hr. rewrite Hlen in Hr.
  change (N.of_nat 44) with 44 in *.
  assert (d * 58 + e = 1378) as Hde by (clear - Hv Hr HB; lia).
  assert (d = 23 ∧ e = 44) as [-> ->] by lia. exists ds. done.
Qed.

Lemma sha_bytes_ok digest : bytes_ok digest → bytes_ok ([18; 32] ++ digest).
Proof. intros Hd. apply Forall_app. split; [by repeat constructor|done]. Qed.

Section CidTheorems.
Context `{HX : Hex} {HL : HexLaws HX} {HDG : HexDigits HX} `{B32 : Base32} {BL : Base32Laws B32}.
Context `{HB : Blake3} {HBL : Blake3Laws HB} `{HS : Sha256} {HSL : Sha256Laws HS}.

Lemma v0_parse digest :
  bytes_ok digest → length digest = 32%nat →
  Cid_parse (encode_base58 (Multihash_to_bytes (mkMultihash 18 digest))) =
  Some (Ok (mkCid 0 0 (mkMultihash 18 digest))).
Proof.
  intros Hb Hl. unfold Cid_parse.
  assert (Multihash_to_bytes (mkMultihash 18 digest) = [18; 32] ++ digest) as Hm.
  { unfold Multihash_to_bytes. cbn [mh_code mh_digest]. rewrite Hl. done. }
  assert (decode_base58 (encode_base58 ([18; 32] ++ digest)) = Ok ([18; 32] ++ digest)) as Hd.
  { destruct (encode_base58_canonical ([18; 32] ++ digest)) as (d & ds & He & H1 & H2 & H3 & H4);
      [by apply sha_bytes_ok|done|done|]. rewrite He.
    destruct (decode_base58_digits d ds H1 H2 H3) as (l & -> & H5 & H6 & H7). f_equal.
    apply canonical_unique; [done|by apply sha_bytes_ok|done|done|congruence]. }
  rewrite Hm. destruct (v0_text digest Hb Hl) as (ds & Ht & Hds).
  assert (str_starts_with "Qm" (encode_base58 ([18; 32] ++ digest)) = true ∧
    String.length (encode_base58 ([18; 32] ++ digest)) = 46%nat) as [Hp Hn].
  { rewrite Ht. split; [done|]. rewrite length_string_of_list, length_fmap. simpl. by rewrite Hds. }
  rewrite Hp, Hn. cbn [andb Nat.eqb]. unfold Cid_from_v0_str. rewrite Hn. cbn [negb Nat.eqb].
  rewrite Hd, <- Hm, <- (app_nil_r (Multihash_to_bytes _)), mh_from_to_bytes; [done|].
  split; cbn [mh_code mh_digest]; [done|]. rewrite Hl. done.
Qed.

(** Text of a CID: [parse] reads back what [Display] writes, for a CIDv0 and
    for every CIDv1 whose hash is not SHA-256; the text of a CIDv0 has 46
    characters and starts with [Qm]. A CIDv1 with a SHA-256 hash is displayed as
    a CIDv0 and read back as one. *)
Theorem cid_text_roundtrip c :
  mh_ok (cid_multihash c) → bytes_ok (mh_digest (cid_multihash c)) → cid_codec c < 2 ^ 64 →
  (cid_version c = 1 → mh_code (cid_multihash c) ≠ 18 → Cid_parse (Cid_fmt c) = Some (Ok c)) ∧
  (mh_code (cid_multihash c) = 18 → length (mh_digest (cid_multihash c)) = 32%nat →
     String.length (Cid_fmt c) = 46%nat ∧ str_starts_with "Qm" (Cid_fmt c) = true ∧
     Cid_parse (Cid_fmt c) = Some (Ok (mkCid 0 0 (cid_multihash c)))).
Proof.
  intros Hm Hb Hcd. destruct c as [v cd m]. cbn [cid_version cid_codec cid_multihash] in *. split.
  - intros -> Hs. unfold Cid_fmt, Cid_to_v0_string. cbn [cid_version cid_multihash].
    change (1 =? 0) with false. cbn [HashCode_to_u64]. rewrite (proj2 (N.eqb_neq _ 18)) by done.
    rewrite encode_base32_rfc4648 by (by apply Cid_to_bytes_ok).
    set (t := rfc4648 _). unfold Cid_parse.
    change (str_starts_with "Qm" (String.append "bafy" t)) with false.
    change (str_starts_with "bafy" (String.append "bafy" t)) with true. cbn [andb orb].
    unfold Cid_from_v1_str. change (str_starts_with "bafy" (String.append "bafy" t)) with true. cbn [orb].
    change (str_drop 4 (String.append "bafy" t)) with t. unfold base32_decode, t.
    rewrite base32_decode_encode by (by apply Cid_to_bytes_ok). cbn [ok_or].
    pose proof (cid_v1_body_ok cd m [] Hcd Hm) as H. rewrite app_nil_r in H.
    unfold Cid_to_bytes in *. change (cid_version (mkCid 1 cd m) =? 0) with false in *. cbn [app] in *. exact H.
  - intros Hs Hl. destruct m as [code digest]. cbn [mh_code mh_digest] in *. subst code.
    assert (Cid_fmt (mkCid v cd (mkMultihash 18 digest)) = encode_base58 (Multihash_to_bytes (mkMultihash 18 digest))) as ->.
    { unfold Cid_fmt, Cid_to_v0_string. cbn [cid_version cid_multihash mh_code HashCode_to_u64].
      by destruct (v =? 0). }
    rewrite v0_parse by done.
    assert (Multihash_to_bytes (mkMultihash 18 digest) = [18; 32] ++ digest) as ->.
    { unfold Multihash_to_bytes. cbn [mh_code mh_digest]. rewrite Hl. done. }
    destruct (v0_text digest Hb Hl) as (ds & -> & Hds).
    rewrite length_string_of_list, length_fmap. simpl length. rewrite Hds. done.
Qed.

(** Content identifiers of data: [from_content_blake3] and
    [from_content_sha256] never panic and name the digest of the data;
    [verify_content] accepts exactly data with the CID's BLAKE3 digest when the
    digest has its full length of 32 bytes; two data accepted by the same CID are
    equal or collide. *)
Theorem content_cid_verifies data data' :
  ∃ c, Cid_from_content_blake3 data = Some c ∧ c = mkCid 1 0x55 (mkMultihash 0x1e (blake3_hash data)) ∧
    Cid_from_content_sha256 data = Some (Ok (mkCid 0 0 (mkMultihash 0x12 (sha256_digest data)))) ∧
    Cid_verify_content c data = true ∧
    (Cid_verify_content c data' = true ↔ blake3_hash data' = blake3_hash data) ∧
    (Cid_verify_content c data' = true → data' = data ∨ collides data' data).
Proof.
  exists (mkCid 1 0x55 (mkMultihash 0x1e (blake3_hash data))).
  assert (Hv : ∀ d, Cid_verify_content (mkCid 1 0x55 (mkMultihash 0x1e (blake3_hash data))) d = true ↔
    blake3_hash d = blake3_hash data).
  { intros d. unfold Cid_verify_content. cbn [cid_multihash mh_digest]. rewrite !blake3_length.
    rewrite !take_ge by (by rewrite blake3_length). rewrite bool_decide_eq_true. split; congruence. }
  split_and!; [|done| |by apply Hv|apply Hv|].
  - unfold Cid_from_content_blake3, Cid_from_content_hash. cbn [ContentHash_from_bytes ch_hex].
    rewrite <- hex_encode_digits, hex_decode_encode by apply blake3_bytes.
    unfold Multihash_from_blake3, Multihash_new. by rewrite blake3_length.
  - unfold Cid_from_content_sha256. by rewrite mh_sha256_ok.
  - intros Hd%Hv. destruct (decide (data' = data)) as [|Hne]; [by left|]. right. done.
Qed.

(** A CID whose digest is empty parses and verifies every content. *)
Theorem empty_digest_verifies_all content :
  ∃ c, Cid_from_bytes [1; 0x55; 0x1e; 0] = Some (Ok c) ∧ Cid_verify_content c content = true.
Proof. eexists. split; [vm_compute; reflexivity|]. done. Qed.
End CidTheorems.

(** An endless varint overflows the shift. *)
Theorem cid_varint_overflow : Cid_from_bytes (1 :: replicate 12 255) = None.
Proof. vm_compute. done. Qed.

(** ** Instances for the witnesses *)

(** A decoder that inverts the format: the groups back to bits, whole bytes. *)
Definition b32_bits (c : ascii) : option (list bool) :=
  i ← str_index c BASE32_ALPHABET;
  Some ((λ k, N.testbit (N.of_nat i) (N.of_nat (4 - k))) <$> seq 0 5).

Fixpoint bits_of_text (s : string) : option (list bool) :=
  match s with
  | EmptyString => Some []
  | String c s' => b ← b32_bits c; r ← bits_of_text s'; Some (b ++ r)
  end.

Fixpoint bytes_of_bits (fuel : nat) (bs : list bool) : list N :=
  match fuel with
  | O => []
  | S fuel' => if Nat.ltb (length bs) 8 then [] else bits_val (take 8 bs) :: bytes_of_bits fuel' (drop 8 bs)
  end.

#[global] Instance base32_ref : Base32 :=
  {| base32_crate_decode s := bits ← bits_of_text s; Some (bytes_of_bits (length bits) bits) |}.

Lemma b32_bits_group g : length g = 5%nat → b32_bits (group_char g) = Some g.
Proof.
  intros Hg. destruct g as [|a [|b [|c [|d [|e [|]]]]]]; try done.
  by destruct a, b, c, d, e.
Qed.

Lemma groups5_bits f bs :
  (length bs ≤ f)%nat →
  ∃ pad, bits_of_text (String.string_of_list_ascii (group_char <$> groups5 f bs)) =
    Some (bs ++ replicate pad false) ∧ (pad < 5)%nat.
Proof.
  revert bs. induction f as [|f IH]; intros bs Hf.
  { destruct bs; [|simpl in Hf; lia]. by exists 0%nat; split; [|lia]. }
  destruct (decide (bs = [])) as [->|Hne]; [by exists 0%nat; split; [|lia]|].
  assert (groups5 (S f) bs = take 5 (bs ++ replicate 4 false) :: groups5 f (drop 5 bs)) as -> by (by destruct bs).
  cbn [fmap list_fmap String.string_of_list_ascii bits_of_text].
  assert (0 < length bs)%nat by (destruct bs; [done|simpl; lia]).
  rewrite b32_bits_group by (rewrite length_take, length_app, length_replicate; lia).
  destruct (IH (drop 5 bs)) as (pad & Hp & Hlt); [rewrite length_drop; lia|]. rewrite Hp. cbn [mbind option_bind].
  destruct (le_lt_dec 5 (length bs)) as [H5|H5].
  - exists pad. split; [|done]. rewrite take_app_le by lia. by rewrite app_assoc, take_drop.
  - rewrite drop_ge in * by lia. cbn [app] in *. exists (5 - length bs + pad)%nat.
    assert (pad = 0%nat) as ->.
    { destruct f, pad; done. }
    split; [|lia]. rewrite take_app_ge, take_replicate by lia. rewrite app_nil_r, Nat.add_0_r.
    by replace (Nat.min (5 - length bs) 4) with (5 - length bs)%nat by lia.
Qed.

Lemma bytes_of_bits_data f data pad :
  bytes_ok data → (pad < 5)%nat → (8 * length data ≤ f)%nat →
  bytes_of_bits f ((data ≫= byte_bits) ++ replicate pad false) = data.
Proof.
  intros H Hp. revert f. induction H as [|b data Hb _ IH]; intros f Hf.
  - destruct f; [done|]. cbn [mbind list_bind app bytes_of_bits]. rewrite length_replicate. by ncase.
  - destruct f as [|f]; simpl in Hf; [lia|]. cbn [mbind list_bind].
    rewrite <- app_assoc. cbn [bytes_of_bits].
    assert (length (byte_bits b) = 8%nat) as Hl by done.
    destruct (Nat.ltb_spec (length (byte_bits b ++ (data ≫= byte_bits) ++ replicate pad false)) 8) as [Hx|_].
    { rewrite length_app in Hx. lia. }
    rewrite (take_app_length' (byte_bits b)), (drop_app_length' (byte_bits b)) by done. rewrite byte_bits_val by done. f_equal. apply IH. lia.
Qed.

#[global] Instance base32_ref_laws : Base32Laws base32_ref.
Proof.
  split. intros bs Hb. unfold base32_crate_decode, base32_ref, rfc4648.
  change (λ g, b32_char (bits_val g)) with group_char. cbv zeta.
  destruct (groups5_bits (length (bs ≫= byte_bits)) (bs ≫= byte_bits)) as (pad & -> & Hp); [lia|].
  cbn [mbind option_bind]. f_equal. apply bytes_of_bits_data; [done|done|].
  rewrite length_app. enough (length (bs ≫= byte_bits) = 8 * length bs)%nat by lia.
  clear. induction bs as [|b bs IH]; [done|]. cbn [mbind list_bind]. rewrite length_app. simpl in *. lia.
Qed.

#[global] Instance sha256_ref : Sha256 :=
  {| sha256_digest bs := be_bytes 32 (3 * be_value bs + N.of_nat (length bs)) |}.
#[global] Instance sha256_ref_laws : Sha256Laws sha256_ref.
Proof. split; intros bs; [apply length_be_bytes|apply be_bytes_ok]. Qed.

(** ** Witnesses *)

Lemma base58_roundtrip_witness : decode_base58 (encode_base58 [18; 32; 0; 7]) = Ok [18; 32; 0; 7].
Proof.
  apply base58_roundtrip; [repeat constructor; reflexivity|]. left. simpl. lia.
Defined.

Lemma encode_base32_rfc4648_witness : encode_base32 [1; 85; 30; 255] = rfc4648 [1; 85; 30; 255].
Proof. apply encode_base32_rfc4648. repeat constructor; reflexivity. Defined.

Lemma cid_binary_roundtrip_witness :
  Cid_from_bytes (Cid_to_bytes (mkCid 1 0x71 (mkMultihash 18 [4; 5])) ++ [9]) =
  Some (Ok (mkCid 1 0x71 (mkMultihash 18 [4; 5]))).
Proof.
  refine (proj1 (cid_binary_roundtrip 0x71 (mkMultihash 18 [4; 5]) [9] _ _)); [reflexivity|split; reflexivity].
Defined.

Lemma cid_text_roundtrip_witness :
  Cid_parse (Cid_fmt (mkCid 1 0x55 (mkMultihash 0x1e [1; 2; 3]))) =
  Some (Ok (mkCid 1 0x55 (mkMultihash 0x1e [1; 2; 3]))).
Proof.
  refine (proj1 (cid_text_roundtrip (mkCid 1 0x55 (mkMultihash 0x1e [1; 2; 3])) _ _ _) eq_refl _).
  - split; reflexivity.
  - repeat constructor; reflexivity.
  - reflexivity.
  - vm_compute. discriminate.
Defined.

Lemma content_cid_verifies_witness :
  ∃ c, Cid_from_content_blake3 (HB := blake3_ref) [1; 2; 3] = Some c ∧ Cid_verify_content (HB := blake3_ref) c [1; 2; 3] = true.
Proof.
  destruct (content_cid_verifies [1; 2; 3] [4]) as (c & H1 & _ & _ & H2 & _). exists c. split; [exact H1|exact H2].
Defined.
