(* ===== verification/Hamt.v ===== *)
(** * The HAMT directory ([crates/a3net-blobstore/src/hamt/{mod,builder,iter}.rs])

    A directory shard is one node: a bit field of 256 slots and the vector of the
    occupied slots' links, indexed by rank. [None] marks a panic (a vector index
    out of range, an arithmetic underflow); the invariant excludes it. Sizes and
    counts are [u64] and wrap, as in a release build. BLAKE3 is the class
    [Blake3]; the JSON form of a shard is not modelled. *)
From stdpp Require Import prelude strings gmap list sorting.
From Stdlib Require Import NArith Lia Ascii.
From Stdlib Require String.
From S2P Require Import Prelude NodeId ContentHash.

#[local] Open Scope N_scope.

Definition DEFAULT_FANOUT_BITS : N := 8.
Definition DEFAULT_FANOUT : nat := 256%nat.
Definition MAX_BUCKET_SIZE : nat := 256%nat.
Definition DEFAULT_SHARDING_THRESHOLD : N := 256 * 1024.

Definition u64_add (a b : N) : N := (a + b) mod 2 ^ 64.

Inductive HamtError : Type := HamtNotFound | MaxDepthExceeded | InvalidStructure | HamtSerialization
  | BucketOverflow (n max : nat).

Inductive HamtEntry : Type :=
| HFile (hash : ContentHash) (size_bytes : N)
| HDirectory (hash : ContentHash) (entry_count : N).

Notation named_entry := (string * HamtEntry)%type.

Inductive HamtLink : Type :=
| LShard (hash : ContentHash)
| LBucket (entries : list named_entry).

Record HamtNode : Type := mkHamtNode {
  hn_bitfield : list N;
  hn_links : list HamtLink;
  hn_estimated_size : N
}.

Record HamtShard : Type := mkHamtShard {
  hs_root : HamtNode;
  hs_entry_count : N;
  hs_estimated_size : N;
  hs_hash : option ContentHash
}.

#[global] Instance HamtEntry_eq_dec : EqDecision HamtEntry.
Proof. solve_decision. Defined.

Definition HamtEntry_is_dir (e : HamtEntry) : bool := match e with HDirectory _ _ => true | _ => false end.
Definition HamtEntry_is_file (e : HamtEntry) : bool := match e with HFile _ _ => true | _ => false end.
Definition HamtEntry_content_hash (e : HamtEntry) : ContentHash :=
  match e with HFile h _ => h | HDirectory h _ => h end.
Definition HamtEntry_size_or_count (e : HamtEntry) : N :=
  match e with HFile _ n => n | HDirectory _ n => n end.

Definition HamtLink_is_bucket (l : HamtLink) : bool := match l with LBucket _ => true | _ => false end.

Definition HamtLink_bucket_push (l : HamtLink) (name : string) (entry : HamtEntry)
  : HamtLink * result HamtError unit :=
  match l with
  | LBucket entries =>
      if Nat.leb MAX_BUCKET_SIZE (length entries)
      then (l, Err (BucketOverflow (length entries + 1) MAX_BUCKET_SIZE))
      else (LBucket (entries ++ [(name, entry)]), Ok tt)
  | LShard _ => (l, Err InvalidStructure)
  end.

(** ** Bits of the hash *)

(** The loop that gathers the bytes holding the bits. *)
Definition gather_bytes (hash : list N) (byte_pos n : nat) : N :=
  foldl (λ value i, if Nat.ltb (byte_pos + i) 32
                    then N.lor (N.shiftl value 8 mod 2 ^ 32) (default 0 (hash !! (byte_pos + i)%nat))
                    else value) 0 (seq 0 n).

(** [extract_bits] on [u8] positions and widths. [None]: the debug assertion, an
    overflow of [bit_offset + bits + 7] or an underflow of the shift. *)
Definition extract_bits (hash : list N) (position bits : N) : option N :=
  if 256 <? position + bits then None
  else
    let byte_pos := N.to_nat (position / 8) in
    let bit_offset := position mod 8 in
    if 255 <? bit_offset + bits + 7 then None
    else
      let value := gather_bytes hash byte_pos (N.to_nat ((bit_offset + bits + 7) / 8)) in
      let shift :=
        if 0 <? bit_offset
        then if (bits =? 0) || (8 <? bit_offset + (bits - 1)) then None
             else Some (8 - bit_offset - (bits - 1))
        else Some 0 in
      match shift with
      | None => None
      | Some shift =>
          let aligned := if (0 <? shift) && (shift <? 8) then N.shiftr value shift else value in
          if 32 <=? bits then None else Some (N.land aligned (2 ^ bits - 1))
      end.

(** ** Nodes *)

Definition HamtNode_new : HamtNode := mkHamtNode (replicate (DEFAULT_FANOUT / 8) 0) [] 0.

Definition set_bitfield (n : HamtNode) (bf : list N) : HamtNode :=
  mkHamtNode bf (hn_links n) (hn_estimated_size n).
Definition set_links (n : HamtNode) (ls : list HamtLink) : HamtNode :=
  mkHamtNode (hn_bitfield n) ls (hn_estimated_size n).

Definition count_ones (b : N) : nat := length (filter (λ i, N.testbit b (N.of_nat i) = true) (seq 0 8)).
Definition HamtNode_child_count (n : HamtNode) : nat := sum_list (count_ones <$> hn_bitfield n).

Definition HamtNode_has_slot (n : HamtNode) (index : nat) : bool :=
  match hn_bitfield n !! (index / 8)%nat with
  | Some byte => negb (N.land byte (N.shiftl 1 (N.of_nat (index mod 8))) =? 0)
  | None => false
  end.

Definition HamtNode_set_slot (n : HamtNode) (index : nat) : HamtNode :=
  set_bitfield n (alter (λ byte, N.lor byte (N.shiftl 1 (N.of_nat (index mod 8)))) (index / 8)%nat (hn_bitfield n)).

Definition HamtNode_clear_slot (n : HamtNode) (index : nat) : HamtNode :=
  set_bitfield n (alter (λ byte, N.ldiff byte (N.shiftl 1 (N.of_nat (index mod 8)))) (index / 8)%nat (hn_bitfield n)).

(** The loops [for i in 0..index] that count the occupied slots. *)
Definition slot_rank (n : HamtNode) (index : nat) : nat :=
  length (filter (λ i, HamtNode_has_slot n i = true) (seq 0 index)).

Definition HamtNode_get_child (n : HamtNode) (index : nat) : option HamtLink :=
  if HamtNode_has_slot n index then hn_links n !! slot_rank n index else None.

(** [Vec::insert] and [Vec::remove]. *)
Definition vec_insert {A} (l : list A) (pos : nat) (x : A) : option (list A) :=
  if Nat.ltb (length l) pos then None else Some (take pos l ++ x :: drop pos l).
Definition vec_remove {A} (l : list A) (pos : nat) : option (list A * A) :=
  x ← l !! pos; Some (delete pos l, x).

Definition HamtNode_set_child (n : HamtNode) (index : nat) (link : HamtLink) : option HamtNode :=
  if HamtNode_has_slot n index
  then Some (set_links n (<[slot_rank n index := link]> (hn_links n)))
  else
    let n := HamtNode_set_slot n index in
    ls ← vec_insert (hn_links n) (slot_rank n index) link; Some (set_links n ls).

Definition HamtNode_remove_child (n : HamtNode) (index : nat) : option (HamtNode * option HamtLink) :=
  if HamtNode_has_slot n index then
    let rank := slot_rank n index in
    '(ls, link) ← vec_remove (hn_links n) rank;
    Some (set_links (HamtNode_clear_slot n index) ls, Some link)
  else Some (n, None).

Definition estimate_entry_size (e : HamtEntry) : N :=
  match e with
  | HFile _ size_bytes => u64_add (32 + 8) size_bytes
  | HDirectory _ entry_count => u64_add (32 + 8) ((entry_count * 8) mod 2 ^ 64)
  end.

Definition u64_sum (l : list N) : N := foldl u64_add 0 l.

Definition estimate_link_size (l : HamtLink) : N :=
  match l with
  | LShard _ => 32 + 4
  | LBucket entries =>
      u64_add 4 (u64_sum ((λ kv, u64_add (u64_add 4 (N.of_nat (String.length kv.1))) (estimate_entry_size kv.2)) <$> entries))
  end.

Definition HamtNode_estimate_size (n : HamtNode) : N :=
  u64_add (u64_add (32 + 8 + 8) (N.of_nat (length (hn_bitfield n)))) (u64_sum (estimate_link_size <$> hn_links n)).

Definition HamtNode_total_entries (n : HamtNode) : nat :=
  sum_list ((λ l, match l with LShard _ => 0%nat | LBucket es => length es end) <$> hn_links n).

(** ** Shards *)

Definition HamtShard_new : HamtShard := mkHamtShard HamtNode_new 0 0 None.

Definition HamtShard_from_node (root : HamtNode) : HamtShard :=
  mkHamtShard root (N.of_nat (HamtNode_total_entries root) mod 2 ^ 64) (HamtNode_estimate_size root) None.

Definition HamtShard_is_empty (s : HamtShard) : bool := hs_entry_count s =? 0.
Definition HamtShard_should_shard (s : HamtShard) : bool := DEFAULT_SHARDING_THRESHOLD <? hs_estimated_size s.

Definition set_root (s : HamtShard) (root : HamtNode) : HamtShard :=
  mkHamtShard root (hs_entry_count s) (hs_estimated_size s) (hs_hash s).
Definition set_sizes (s : HamtShard) (count size : N) : HamtShard :=
  mkHamtShard (hs_root s) count size (hs_hash s).

(** The counters after one more entry. *)
Definition count_entry (s : HamtShard) (name : string) (entry : HamtEntry) : HamtShard :=
  set_sizes s (u64_add (hs_entry_count s) 1)
    (u64_add (hs_estimated_size s)
       (u64_add (u64_add 4 (N.of_nat (String.length name))) (estimate_entry_size entry))).

(** The index of [depth]; [None] is a panic of [extract_bits]. *)
Definition depth_index (hash : list N) (depth : N) : option nat :=
  N.to_nat <$> extract_bits hash (depth * DEFAULT_FANOUT_BITS) DEFAULT_FANOUT_BITS.

Definition insert_with_hash (s : HamtShard) (name : string) (entry : HamtEntry) (hash : list N) (depth : N)
  : option (HamtShard * result HamtError unit) :=
  index ← depth_index hash depth;
  if HamtNode_has_slot (hs_root s) index then
    match HamtNode_get_child (hs_root s) index with
    | Some (LBucket entries) =>
        if Nat.ltb (length entries) MAX_BUCKET_SIZE then
          let s := count_entry s name entry in
          '(root, link) ← HamtNode_remove_child (hs_root s) index;
          link ← link;
          let link := match link with
                      | LBucket e => LBucket (e ++ [(name, entry)])
                      | LShard h => LShard h
                      end in
          root ← HamtNode_set_child root index link;
          Some (set_root s root, Ok tt)
        else Some (s, Err InvalidStructure)
    | _ => Some (s, Err InvalidStructure)
    end
  else
    let s := count_entry s name entry in
    root ← HamtNode_set_child (hs_root s) index (LBucket [(name, entry)]);
    Some (set_root s root, Ok tt).

Definition find_entry (name : string) (entries : list named_entry) : option HamtEntry :=
  snd <$> List.find (λ ne, String.eqb ne.1 name) entries.

Definition get_with_hash (s : HamtShard) (name : string) (hash : list N) (depth : N) : option (option HamtEntry) :=
  index ← depth_index hash depth;
  Some match HamtNode_get_child (hs_root s) index with
       | Some (LBucket entries) => find_entry name entries
       | _ => None
       end.

(** [Iterator::position]. *)
Fixpoint entry_position (name : string) (entries : list named_entry) : option nat :=
  match entries with
  | [] => None
  | (n, _) :: entries' => if String.eqb n name then Some 0%nat else S <$> entry_position name entries'
  end.

Definition remove_with_hash (s : HamtShard) (name : string) (hash : list N) (depth : N)
  : option (HamtShard * result HamtError (option HamtEntry)) :=
  index ← depth_index hash depth;
  if negb (HamtNode_has_slot (hs_root s) index) then Some (s, Ok None)
  else
    match HamtNode_get_child (hs_root s) index with
    | Some (LBucket entries) =>
        match entry_position name entries with
        | Some pos =>
            '(entries, removed) ← vec_remove entries pos;
            let s := set_sizes s (hs_entry_count s - 1) (HamtNode_estimate_size (hs_root s)) in
            root ← match entries with
                   | [] => fst <$> HamtNode_remove_child (hs_root s) index
                   | _ => HamtNode_set_child (hs_root s) index (LBucket entries)
                   end;
            Some (set_root s root, Ok (Some removed.2))
        | None => Some (s, Ok None)
        end
    | Some (LShard _) => Some (s, Err InvalidStructure)
    | None => Some (s, Ok None)
    end.

Definition link_entries (l : HamtLink) : list named_entry :=
  match l with LBucket es => es | LShard _ => [] end.

Definition HamtShard_list (s : HamtShard) : list named_entry := hn_links (hs_root s) ≫= link_entries.

Section Hamt.
Context `{HB : Blake3}.

Definition name_hash (name : string) : list N := blake3_hash (str_bytes name).

Definition HamtShard_insert (s : HamtShard) (name : string) (entry : HamtEntry)
  : option (HamtShard * result HamtError unit) := insert_with_hash s name entry (name_hash name) 0.
Definition HamtShard_get (s : HamtShard) (name : string) : option (option HamtEntry) :=
  get_with_hash s name (name_hash name) 0.
Definition HamtShard_remove (s : HamtShard) (name : string)
  : option (HamtShard * result HamtError (option HamtEntry)) := remove_with_hash s name (name_hash name) 0.

(** A loop of insertions that stops at the first error. *)
Fixpoint insert_all (s : HamtShard) (l : list named_entry) : option (HamtShard * result HamtError unit) :=
  match l with
  | [] => Some (s, Ok tt)
  | (name, entry) :: l' =>
      '(s, r) ← HamtShard_insert s name entry;
      match r with Ok _ => insert_all s l' | Err e => Some (s, Err e) end
  end.

Fixpoint remove_all (s : HamtShard) (l : list string) : option (HamtShard * result HamtError unit) :=
  match l with
  | [] => Some (s, Ok tt)
  | name :: l' =>
      '(s, r) ← HamtShard_remove s name;
      match r with Ok _ => remove_all s l' | Err e => Some (s, Err e) end
  end.

(** *** The shard manager *)

Record ShardManager : Type := mkShardManager {
  sm_root : HamtShard; sm_sharding_enabled : bool; sm_sharding_threshold : N
}.

Definition ShardManager_new : ShardManager := mkShardManager HamtShard_new true DEFAULT_SHARDING_THRESHOLD.
Definition ShardManager_with_threshold (threshold : N) : ShardManager := mkShardManager HamtShard_new true threshold.
Definition sm_set_root (m : ShardManager) (root : HamtShard) : ShardManager :=
  mkShardManager root (sm_sharding_enabled m) (sm_sharding_threshold m).
Definition ShardManager_set_sharding (m : ShardManager) (enabled : bool) : ShardManager :=
  mkShardManager (sm_root m) enabled (sm_sharding_threshold m).

(** Above the threshold an insertion only logs a warning. *)
Definition ShardManager_insert (m : ShardManager) (name : string) (entry : HamtEntry)
  : option (ShardManager * result HamtError unit) :=
  '(s, r) ← HamtShard_insert (sm_root m) name entry; Some (sm_set_root m s, r).
Definition ShardManager_get (m : ShardManager) (name : string) : option (option HamtEntry) :=
  HamtShard_get (sm_root m) name.
Definition ShardManager_remove (m : ShardManager) (name : string)
  : option (ShardManager * result HamtError (option HamtEntry)) :=
  '(s, r) ← HamtShard_remove (sm_root m) name; Some (sm_set_root m s, r).
Definition ShardManager_should_shard (m : ShardManager) : bool :=
  sm_sharding_enabled m && HamtShard_should_shard (sm_root m).

Definition ShardManager_shard (m : ShardManager) : option (ShardManager * result HamtError unit) :=
  if negb (ShardManager_should_shard m) then Some (m, Ok tt)
  else
    '(s, r) ← insert_all HamtShard_new (HamtShard_list (sm_root m));
    match r with Ok _ => Some (sm_set_root m s, Ok tt) | Err e => Some (m, Err e) end.

(** *** Batches ([builder.rs]) *)

Record HamtBuilder : Type := mkHamtBuilder {
  hb_inserts : list named_entry; hb_deletes : list string; hb_batch_size : nat
}.

Definition HamtBuilder_new : HamtBuilder := mkHamtBuilder [] [] 1000.
Definition HamtBuilder_insert (b : HamtBuilder) (name : string) (entry : HamtEntry) : HamtBuilder :=
  mkHamtBuilder (hb_inserts b ++ [(name, entry)]) (hb_deletes b) (hb_batch_size b).
Definition HamtBuilder_delete (b : HamtBuilder) (name : string) : HamtBuilder :=
  mkHamtBuilder (hb_inserts b) (hb_deletes b ++ [name]) (hb_batch_size b).
Definition HamtBuilder_len (b : HamtBuilder) : nat := (length (hb_inserts b) + length (hb_deletes b))%nat.
Definition HamtBuilder_should_flush (b : HamtBuilder) : bool := Nat.leb (hb_batch_size b) (HamtBuilder_len b).
Definition HamtBuilder_clear (b : HamtBuilder) : HamtBuilder := mkHamtBuilder [] [] (hb_batch_size b).

(** [execute]: a [drain] that is left early drops what it had not yielded. *)
Definition HamtBuilder_execute (b : HamtBuilder) (s : HamtShard)
  : option (HamtBuilder * HamtShard * result HamtError unit) :=
  '(s, r) ← remove_all s (hb_deletes b);
  let b := mkHamtBuilder (hb_inserts b) [] (hb_batch_size b) in
  match r with
  | Err e => Some (b, s, Err e)
  | Ok _ =>
      '(s, r) ← insert_all s (hb_inserts b);
      Some (mkHamtBuilder [] [] (hb_batch_size b), s, r)
  end.

(** [sort_by(|a, b| a.0.cmp(&b.0))]: bytewise order of the names, stable. *)
Definition name_leb (a b : named_entry) : bool := bytes_leb (str_bytes a.1) (str_bytes b.1).
Definition sort_entries (l : list named_entry) : list named_entry := sort_by name_leb l.

Record BulkImporter : Type := mkBulkImporter {
  bi_shard : HamtShard; bi_batch_size : nat; bi_current_batch : list named_entry
}.

Definition BulkImporter_flush (b : BulkImporter) : option (BulkImporter * result HamtError unit) :=
  match bi_current_batch b with
  | [] => Some (b, Ok tt)
  | batch =>
      '(s, r) ← insert_all (bi_shard b) (sort_entries batch);
      Some (mkBulkImporter s (bi_batch_size b) [], r)
  end.

Definition BulkImporter_add (b : BulkImporter) (name : string) (entry : HamtEntry)
  : option (BulkImporter * result HamtError unit) :=
  let b := mkBulkImporter (bi_shard b) (bi_batch_size b) (bi_current_batch b ++ [(name, entry)]) in
  if Nat.leb (bi_batch_size b) (length (bi_current_batch b)) then BulkImporter_flush b else Some (b, Ok tt).

(** [add_all] followed by [finalize]. *)
Fixpoint BulkImporter_add_all (b : BulkImporter) (l : list named_entry)
  : option (BulkImporter * result HamtError unit) :=
  match l with
  | [] => Some (b, Ok tt)
  | (name, entry) :: l' =>
      '(b, r) ← BulkImporter_add b name entry;
      match r with Ok _ => BulkImporter_add_all b l' | Err e => Some (b, Err e) end
  end.

(** [slice::chunks]. *)
Fixpoint entry_chunks (fuel n : nat) (l : list named_entry) : list (list named_entry) :=
  match fuel, l with
  | S fuel', _ :: _ => take n l :: entry_chunks fuel' n (drop n l)
  | _, _ => []
  end.

(** One shard per chunk; the first error ends the collection. *)
Fixpoint import_chunks (chunks : list (list named_entry)) : option (result HamtError (list HamtShard)) :=
  match chunks with
  | [] => Some (Ok [])
  | c :: cs =>
      '(s, r) ← insert_all HamtShard_new (sort_entries c);
      match r with
      | Err e => Some (Err e)
      | Ok _ =>
          rest ← import_chunks cs;
          Some (let? ss := rest in Ok (s :: ss))
      end
  end.

Definition merge_shards (shards : list HamtShard) : option (result HamtError HamtShard) :=
  match shards with
  | [] => Some (Ok HamtShard_new)
  | [s] => Some (Ok s)
  | _ =>
      '(s, r) ← insert_all HamtShard_new (shards ≫= HamtShard_list);
      Some (let? _ := r in Ok s)
  end.

(** [None] is also the division by zero workers. *)
Definition ParallelBulkImporter_import (num_workers : nat) (entries : list named_entry)
  : option (result HamtError HamtShard) :=
  match entries with
  | [] => Some (Ok HamtShard_new)
  | _ =>
      if Nat.eqb num_workers 0 then None
      else
        let chunk_size := Nat.max (length entries / num_workers) 1 in
        r ← import_chunks (entry_chunks (length entries) chunk_size entries);
        match r with Err e => Some (Err e) | Ok shards => merge_shards shards end
  end.
End Hamt.

(** ** Iterators ([iter.rs])

    The stack holds one frame, since nothing pushes another; [hi_links] are its
    links from the current position on. *)

Record HamtIter : Type := mkHamtIter { hi_links : list HamtLink; hi_bucket_pos : nat }.

Definition HamtIter_new (s : HamtShard) : HamtIter := mkHamtIter (hn_links (hs_root s)) 0.

Fixpoint iter_next (links : list HamtLink) (bucket_pos : nat) : HamtIter * option named_entry :=
  match links with
  | [] => (mkHamtIter [] bucket_pos, None)
  | LBucket entries :: links' =>
      match entries !! bucket_pos with
      | Some e => (mkHamtIter links' (S bucket_pos), Some e)
      | None => iter_next links' 0
      end
  | LShard _ :: links' => iter_next links' bucket_pos
  end.

Definition HamtIter_next (it : HamtIter) : HamtIter * option named_entry := iter_next (hi_links it) (hi_bucket_pos it).

(** [collect]: each [next] that yields uses up a link. *)
Fixpoint iter_collect (fuel : nat) (it : HamtIter) : list named_entry :=
  match fuel with
  | O => []
  | S fuel' =>
      match HamtIter_next it with
      | (it', Some e) => e :: iter_collect fuel' it'
      | (_, None) => []
      end
  end.

Definition HamtShard_iter (s : HamtShard) : list named_entry :=
  iter_collect (S (length (hn_links (hs_root s)))) (HamtIter_new s).

Definition SortedHamtIter (s : HamtShard) : list named_entry := sort_entries (HamtShard_list s).
Definition RevHamtIter (s : HamtShard) : list named_entry :=
  sort_by (λ a b, name_leb b a) (HamtShard_list s).
Definition PrefixHamtIter (s : HamtShard) (prefix : string) : list named_entry :=
  filter (λ ne, str_starts_with prefix ne.1 = true) (HamtShard_iter s).
Definition DirHamtIter (s : HamtShard) : list named_entry :=
  filter (λ ne, HamtEntry_is_dir ne.2 = true) (HamtShard_iter s).
Definition FileHamtIter (s : HamtShard) : list named_entry :=
  filter (λ ne, HamtEntry_is_file ne.2 = true) (HamtShard_iter s).

(** ** Bits *)

Lemma land_pow2_zero b k : (N.land b (N.shiftl 1 k) =? 0) = negb (N.testbit b k).
Proof.
  rewrite N.shiftl_1_l. destruct (N.testbit b k) eqn:Hb; simpl.
  - apply N.eqb_neq. intros Hz. apply (f_equal (λ x, N.testbit x k)) in Hz.
    by rewrite N.land_spec, Hb, N.pow2_bits_true, N.bits_0 in Hz.
  - apply N.eqb_eq, N.bits_inj. intros i. rewrite N.land_spec, N.pow2_bits_eqb, N.bits_0.
    destruct (N.eqb_spec k i) as [->|]; [by rewrite Hb|apply andb_false_r].
Qed.

Lemma has_slot_testbit n i :
  HamtNode_has_slot n i =
  match hn_bitfield n !! (i / 8)%nat with Some b => N.testbit b (N.of_nat (i mod 8)) | None => false end.
Proof.
  unfold HamtNode_has_slot. destruct (_ !! _); [|done]. by rewrite land_pow2_zero, negb_involutive.
Qed.

Lemma slot_split i j : (i / 8 = j / 8 → i mod 8 = j mod 8 → i = j)%nat.
Proof. intros. rewrite (Nat.div_mod_eq i 8), (Nat.div_mod_eq j 8). congruence. Qed.

(** An update of the byte of slot [i] that changes the bit of the slot only. *)
Lemma has_slot_alter n i j (f : N → N) (v : bool) :
  length (hn_bitfield n) = 32%nat → (i < 256)%nat →
  (∀ b k, N.testbit (f b) k = if (k =? N.of_nat (i mod 8)) then v else N.testbit b k) →
  HamtNode_has_slot (set_bitfield n (alter f (i / 8)%nat (hn_bitfield n))) j =
  if decide (i = j) then v else HamtNode_has_slot n j.
Proof.
  intros Hl Hi Hf. rewrite !has_slot_testbit. cbn [hn_bitfield set_bitfield].
  destruct (decide ((i / 8)%nat = (j / 8)%nat)) as [Hd|Hd].
  - rewrite <- Hd, list_lookup_alter_eq.
    destruct (lookup_lt_is_Some_2 (hn_bitfield n) (i / 8)%nat) as [b Hb].
    { rewrite Hl. apply Nat.Div0.div_lt_upper_bound. lia. }
    rewrite Hb. cbn [fmap option_fmap option_map]. rewrite Hf. destruct (decide (i = j)) as [->|Hne].
    + by rewrite N.eqb_refl.
    + destruct (N.eqb_spec (N.of_nat (j mod 8)) (N.of_nat (i mod 8))) as [He|]; [|done].
      destruct Hne. apply slot_split; [done|]. by apply Nat2N.inj.
  - rewrite list_lookup_alter_ne by done. by rewrite decide_False by (by intros ->).
Qed.

Lemma has_slot_set n i j :
  length (hn_bitfield n) = 32%nat → (i < 256)%nat →
  HamtNode_has_slot (HamtNode_set_slot n i) j = if decide (i = j) then true else HamtNode_has_slot n j.
Proof.
  intros Hl Hi. apply has_slot_alter; [done|done|]. intros b k.
  rewrite N.lor_spec, N.shiftl_1_l, N.pow2_bits_eqb, (N.eqb_sym k).
  destruct (_ =? k); [apply orb_true_r|apply orb_false_r].
Qed.

Lemma has_slot_clear n i j :
  length (hn_bitfield n) = 32%nat → (i < 256)%nat →
  HamtNode_has_slot (HamtNode_clear_slot n i) j = if decide (i = j) then false else HamtNode_has_slot n j.
Proof.
  intros Hl Hi. apply has_slot_alter; [done|done|]. intros b k.
  rewrite N.ldiff_spec, N.shiftl_1_l, N.pow2_bits_eqb, (N.eqb_sym k).
  destruct (_ =? k); simpl; [apply andb_false_r|apply andb_true_r].
Qed.

(** ** A node is a finite map from slots to links

    The vector of links lists the map in the order of the slots. *)

Definition slot_links (m : gmap nat HamtLink) (a k : nat) : list HamtLink := omap (λ i, m !! i) (seq a k).

Record node_repr (n : HamtNode) (m : gmap nat HamtLink) : Prop := {
  nr_len : length (hn_bitfield n) = 32%nat;
  nr_slots i : (i < 256)%nat → HamtNode_has_slot n i = bool_decide (is_Some (m !! i));
  nr_links : hn_links n = slot_links m 0 256;
  nr_dom i : is_Some (m !! i) → (i < 256)%nat
}.

Lemma slot_links_split m i :
  (i < 256)%nat → slot_links m 0 256 = slot_links m 0 i ++ option_list (m !! i) ++ slot_links m (S i) (255 - i).
Proof.
  intros Hi. unfold slot_links. replace 256%nat with (i + (1 + (255 - i)))%nat by lia.
  rewrite !seq_app, !omap_app. cbn [seq omap list_omap]. rewrite Nat.add_0_l, Nat.add_1_r.
  by destruct (m !! i).
Qed.

Lemma slot_links_ext m m' a k :
  (∀ i, (a ≤ i < a + k)%nat → m !! i = m' !! i) → slot_links m a k = slot_links m' a k.
Proof.
  intros H. unfold slot_links. revert a H. induction k as [|k IH]; intros a H; [done|].
  cbn [seq omap list_omap]. rewrite (H a) by lia. rewrite (IH (S a)) by (intros; apply H; lia). done.
Qed.

Lemma slot_rank_links n m i :
  node_repr n m → (i ≤ 256)%nat → slot_rank n i = length (slot_links m 0 i).
Proof.
  intros [_ Hs _ _] Hi. unfold slot_rank, slot_links.
  induction i as [|i IH]; [done|]. rewrite seq_S, filter_app, omap_app, !length_app, IH by lia.
  cbn [Nat.add]. f_equal. rewrite filter_cons, (Hs i) by lia. cbn [omap list_omap].
  destruct (m !! i) as [l|] eqn:Hl.
  - by rewrite bool_decide_true.
  - rewrite bool_decide_false by (by intros [? ?]). done.
Qed.

Lemma node_repr_new : node_repr HamtNode_new ∅.
Proof.
  split; [done| |by vm_compute|by intros i [? ?]].
  intros i Hi. rewrite bool_decide_false by (by intros [? ?]). rewrite has_slot_testbit.
  cbn [hn_bitfield HamtNode_new]. rewrite lookup_replicate_2; [by rewrite N.bits_0|].
  apply Nat.Div0.div_lt_upper_bound. unfold DEFAULT_FANOUT. simpl. lia.
Qed.

Lemma get_child_repr n m i : node_repr n m → (i < 256)%nat → HamtNode_get_child n i = m !! i.
Proof.
  intros Hr Hi. unfold HamtNode_get_child. rewrite (nr_slots _ _ Hr) by done.
  case_bool_decide as Hs; [|by apply eq_None_not_Some in Hs].
  rewrite (slot_rank_links n m) by (done || lia). rewrite (nr_links _ _ Hr), (slot_links_split m i) by done.
  destruct Hs as [l Hl]. rewrite Hl. cbn [option_list option_rect app]. by rewrite list_lookup_middle.
Qed.

(** Replacing or adding a link. *)
Lemma set_child_repr n m i l :
  node_repr n m → (i < 256)%nat →
  ∃ n', HamtNode_set_child n i l = Some n' ∧ node_repr n' (<[i := l]> m).
Proof.
  intros Hr Hi. pose proof Hr as [Hlen Hs Hl Hd].
  assert (Hnew : slot_links (<[i := l]> m) 0 256 = slot_links m 0 i ++ l :: slot_links m (S i) (255 - i)).
  { rewrite (slot_links_split _ i) by done. rewrite lookup_insert_eq. cbn [option_list option_rect app].
    rewrite (slot_links_ext _ m 0), (slot_links_ext _ m (S i)); [done|..];
      intros j Hj; apply lookup_insert_ne; lia. }
  assert (Hdom : ∀ j, is_Some (<[i := l]> m !! j) → (j < 256)%nat).
  { intros j [x [[<- _]|[_ Hx]]%lookup_insert_Some]; [done|]. apply Hd. by exists x. }
  assert (Hslot : ∀ j, (j < 256)%nat → (if decide (i = j) then true else HamtNode_has_slot n j) =
    bool_decide (is_Some (<[i := l]> m !! j))).
  { intros j Hj. destruct (decide (i = j)) as [->|Hne].
    - by rewrite lookup_insert_eq, bool_decide_true.
    - rewrite lookup_insert_ne by done. by apply Hs. }
  unfold HamtNode_set_child. destruct (HamtNode_has_slot n i) eqn:Hhas.
  - eexists. split; [done|]. split; [done| | |done].
    + intros j Hj. rewrite <- Hslot by done. destruct (decide (i = j)) as [<-|]; done.
    + cbn [hn_links set_links]. rewrite Hl, (slot_rank_links n m) by (done || lia).
      rewrite (slot_links_split m i) by done. rewrite (Hs i Hi) in Hhas.
      apply bool_decide_eq_true in Hhas as [x Hx]. rewrite Hx, Hnew. cbn [option_list option_rect app].
      rewrite insert_app_r_alt by lia. by rewrite Nat.sub_diag.
  - assert (slot_rank (HamtNode_set_slot n i) i = slot_rank n i) as Hrank.
    { unfold slot_rank. f_equal. apply filter_ext_elem. intros j Hj%elem_of_seq.
      rewrite has_slot_set by done. by rewrite decide_False by lia. }
    rewrite Hrank, (slot_rank_links n m) by (done || lia). cbn [hn_links HamtNode_set_slot set_bitfield].
    rewrite (Hs i Hi) in Hhas. apply bool_decide_eq_false, eq_None_not_Some in Hhas.
    rewrite Hl, (slot_links_split m i), Hhas by done. cbn [option_list option_rect app]. unfold vec_insert.
    ncase. { rewrite length_app in *. lia. }
    cbn [mbind option_bind]. eexists. split; [done|]. split; [| | |done].
    + cbn. by rewrite length_alter.
    + intros j Hj. rewrite <- Hslot by done. rewrite <- has_slot_set by done. done.
    + cbn [hn_links set_links]. by rewrite take_app_length, drop_app_length, Hnew.
Qed.

Lemma remove_child_repr n m i :
  node_repr n m → (i < 256)%nat →
  ∃ n', HamtNode_remove_child n i = Some (n', m !! i) ∧ node_repr n' (delete i m).
Proof.
  intros Hr Hi. pose proof Hr as [Hlen Hs Hl Hd]. unfold HamtNode_remove_child.
  destruct (HamtNode_has_slot n i) eqn:Hhas; rewrite (Hs i Hi) in Hhas.
  - apply bool_decide_eq_true in Hhas as [x Hx].
    rewrite (slot_rank_links n m), Hl by (done || lia). rewrite (slot_links_split m i), Hx by done.
    cbn [option_list option_rect app]. unfold vec_remove. rewrite list_lookup_middle by done. cbn [mbind option_bind].
    rewrite delete_middle. eexists. split; [done|]. split; [| | |].
    + cbn. by rewrite length_alter.
    + intros j Hj. trans (HamtNode_has_slot (HamtNode_clear_slot n i) j); [done|].
      rewrite has_slot_clear by done. destruct (decide (i = j)) as [->|Hne].
      * rewrite lookup_delete_eq, bool_decide_false; [done|]. by intros [? ?].
      * rewrite lookup_delete_ne by done. by apply Hs.
    + cbn [hn_links set_links]. rewrite (slot_links_split _ i) by done. rewrite lookup_delete_eq. cbn [option_list option_rect app].
      f_equal; apply slot_links_ext; intros j Hj; rewrite lookup_delete_ne by lia; done.
    + intros j [y [_ Hy]%lookup_delete_Some]. apply Hd. by exists y.
  - apply bool_decide_eq_false, eq_None_not_Some in Hhas. exists n. rewrite Hhas. split; [done|].
    by rewrite delete_id.
Qed.

(** ** The index of a name *)

(** At byte positions, [extract_bits] reads the byte. *)
Lemma extract_bits_byte hash d b :
  (d < 32)%nat → hash !! d = Some b → b < 256 → extract_bits hash (N.of_nat d * 8) 8 = Some b.
Proof.
  intros Hd Hb Hlt. assert (Hg : gather_bytes hash d 1 = b).
  { unfold gather_bytes. cbn [seq foldl]. rewrite Nat.add_0_r, Hb. destruct (Nat.ltb_spec d 32); [done|lia]. }
  unfold extract_bits. destruct (N.ltb_spec 256 (N.of_nat d * 8 + 8)); [lia|].
  rewrite N.Div0.mod_mul, N.div_mul, Nat2N.id by done.
  change (255 <? 0 + 8 + 7) with false. change (N.to_nat ((0 + 8 + 7) / 8)) with 1%nat.
  change (0 <? 0) with false. change (32 <=? 8) with false. cbv beta iota zeta. cbn [andb]. rewrite Hg. f_equal.
  change (2 ^ 8 - 1) with (N.ones 8). rewrite N.land_ones. by apply N.mod_small.
Qed.

(** Elsewhere it does not: four bits from bit 4 of [0x0f] are not [0xf], and
    eight bits from bit 4 underflow. *)
Theorem extract_bits_unaligned :
  extract_bits (15 :: replicate 31 0) 4 4 = Some 7 ∧ extract_bits (15 :: replicate 31 0) 4 8 = None.
Proof. vm_compute. done. Qed.

Section HamtTheorems.
Context `{HB : Blake3} {HBL : Blake3Laws HB}.
Implicit Types (s : HamtShard) (m : gmap nat HamtLink) (name : string).

Definition slot_of (name : string) : nat := N.to_nat (default 0 (name_hash name !! 0%nat)).

Lemma slot_of_spec name :
  depth_index (name_hash name) 0 = Some (slot_of name) ∧ (slot_of name < 256)%nat.
Proof.
  unfold slot_of, depth_index.
  destruct (lookup_lt_is_Some_2 (name_hash name) 0) as [b Hb]; [unfold name_hash; rewrite blake3_length; lia|].
  assert (b < 256) as Hlt.
  { pose proof (blake3_bytes (str_bytes name)) as Hok. unfold bytes_ok in Hok. rewrite Forall_lookup in Hok.
    exact (Hok _ _ Hb). }
  change (0 * DEFAULT_FANOUT_BITS) with (N.of_nat 0 * 8). change DEFAULT_FANOUT_BITS with 8.
  rewrite (extract_bits_byte _ 0 b) by (done || lia). rewrite Hb. split; [done|]. simpl. lia.
Qed.

(** ** Shards as slots of queues *)

Definition bucket m (i : nat) : list named_entry := default [] (link_entries <$> m !! i).

Record shard_repr s m : Prop := {
  sr_node : node_repr (hs_root s) m;
  sr_buckets i l : m !! i = Some l → ∃ es, l = LBucket es ∧ es ≠ [] ∧ (length es ≤ MAX_BUCKET_SIZE)%nat ∧
    Forall (λ ne, slot_of ne.1 = i) es;
  sr_count : hs_entry_count s = N.of_nat (length (HamtShard_list s))
}.

Lemma bucket_bind m a k : slot_links m a k ≫= link_entries = seq a k ≫= bucket m.
Proof.
  revert a. unfold slot_links, bucket. induction k as [|k IH]; intros a; [done|].
  cbn [seq omap list_omap mbind list_bind]. destruct (m !! a); cbn [mbind list_bind]; rewrite IH; done.
Qed.

Lemma list_repr s m : node_repr (hs_root s) m → HamtShard_list s = seq 0 256 ≫= bucket m.
Proof. intros Hr. unfold HamtShard_list. by rewrite (nr_links _ _ Hr), bucket_bind. Qed.

Lemma bind_ext_seq {A} (f g : nat → list A) a k :
  (∀ i, (a ≤ i < a + k)%nat → f i = g i) → seq a k ≫= f = seq a k ≫= g.
Proof.
  revert a. induction k as [|k IH]; intros a H; [done|]. cbn [seq mbind list_bind].
  rewrite (H a) by lia. f_equal. apply IH. intros. apply H. lia.
Qed.

(** The listing around one slot. *)
Lemma list_around s m i :
  node_repr (hs_root s) m → (i < 256)%nat →
  HamtShard_list s = (seq 0 i ≫= bucket m) ++ bucket m i ++ (seq (S i) (255 - i) ≫= bucket m).
Proof.
  intros Hr Hi. rewrite (list_repr s m Hr). replace 256%nat with (i + (1 + (255 - i)))%nat by lia.
  rewrite !seq_app, !bind_app. cbn [seq mbind list_bind]. by rewrite app_nil_r, Nat.add_0_l, Nat.add_1_r.
Qed.

Lemma list_update s s' m m' i :
  node_repr (hs_root s) m → node_repr (hs_root s') m' → (i < 256)%nat →
  (∀ j, j ≠ i → m' !! j = m !! j) →
  ∃ pre post, HamtShard_list s = pre ++ bucket m i ++ post ∧ HamtShard_list s' = pre ++ bucket m' i ++ post ∧
    pre = seq 0 i ≫= bucket m ∧ post = seq (S i) (255 - i) ≫= bucket m.
Proof.
  intros Hr Hr' Hi Hne. exists (seq 0 i ≫= bucket m), (seq (S i) (255 - i) ≫= bucket m).
  rewrite (list_around s m i), (list_around s' m' i) by done. split_and!; [done| |done|done].
  f_equal; [|f_equal]; apply bind_ext_seq; intros j Hj; unfold bucket; rewrite Hne by lia; done.
Qed.

(** The entries filed under a name, oldest first. *)
Definition view s name : list named_entry := filter (λ ne, ne.1 = name) (HamtShard_list s).

Lemma other_slots_lack m (P : named_entry → Prop) `{!∀ ne, Decision (P ne)} i0 a k :
  (∀ i l, m !! i = Some l → ∃ es, l = LBucket es ∧ es ≠ [] ∧ (length es ≤ MAX_BUCKET_SIZE)%nat ∧
    Forall (λ ne, slot_of ne.1 = i) es) →
  (∀ ne, P ne → slot_of ne.1 = i0) → (∀ i, (a ≤ i < a + k)%nat → i ≠ i0) →
  filter P (seq a k ≫= bucket m) = [].
Proof.
  intros Hm HP. revert a. induction k as [|k IH]; intros a Ha; [done|]. cbn [seq mbind list_bind].
  rewrite filter_app, IH, app_nil_r by (intros; apply Ha; lia).
  unfold bucket. destruct (m !! a) as [l|] eqn:Hl; [|done]. destruct (Hm a l Hl) as (es & -> & _ & _ & HF). cbn.
  specialize (Ha a ltac:(lia)). clear Hl. induction HF as [|ne es Hn _ IHe]; [done|].
  rewrite filter_cons, decide_False; [done|]. intros Hx%HP. congruence.
Qed.

(** A lookup sees only the slot of the name. *)
Lemma view_bucket s m name :
  shard_repr s m → view s name = filter (λ ne, ne.1 = name) (bucket m (slot_of name)).
Proof.
  intros [Hn Hb _]. destruct (slot_of_spec name) as [_ Hi]. unfold view.
  rewrite (list_around s m (slot_of name)), !filter_app by done.
  rewrite !(other_slots_lack m _ (slot_of name)) by (done || (intros; lia) || (by intros ne ->)). by rewrite app_nil_r.
Qed.

Lemma bucket_bound s m i : shard_repr s m → (length (bucket m i) ≤ 256)%nat.
Proof.
  intros [_ Hb _]. unfold bucket. destruct (m !! i) as [l|] eqn:Hl; [|simpl; lia].
  destruct (Hb i l Hl) as (es & -> & _ & Hle & _). exact Hle.
Qed.

(** At most [2^16] entries: the counters do not wrap. *)
Lemma list_bound s m : shard_repr s m → (N.of_nat (length (HamtShard_list s)) ≤ 65536)%N.
Proof.
  intros Hr. rewrite (list_repr s m) by apply (sr_node _ _ Hr).
  enough (∀ a k, length (seq a k ≫= bucket m) ≤ 256 * k)%nat as H.
  { specialize (H 0%nat 256%nat). lia. }
  intros a k. revert a. induction k as [|k IH]; intros a; [simpl; lia|].
  cbn [seq mbind list_bind]. rewrite length_app. pose proof (bucket_bound s m a Hr). specialize (IH (S a)). lia.
Qed.

Lemma shard_repr_new : shard_repr HamtShard_new ∅.
Proof. split; [apply node_repr_new|by intros i l Hl|done]. Qed.

(** The state after the bucket of a slot becomes [es]. *)
Definition put_bucket m (i : nat) (es : list named_entry) : gmap nat HamtLink :=
  match es with [] => delete i m | _ => <[i := LBucket es]> m end.

Lemma bucket_put m i es : bucket (put_bucket m i es) i = es.
Proof.
  unfold bucket, put_bucket. destruct es; [by rewrite lookup_delete_eq|by rewrite lookup_insert_eq].
Qed.

Lemma put_bucket_ne m i es j : j ≠ i → put_bucket m i es !! j = m !! j.
Proof. intros. unfold put_bucket. destruct es; [by rewrite lookup_delete_ne|by rewrite lookup_insert_ne]. Qed.

Lemma put_bucket_repr s s' m i es :
  shard_repr s m → node_repr (hs_root s') (put_bucket m i es) → (i < 256)%nat →
  (length es ≤ MAX_BUCKET_SIZE)%nat → Forall (λ ne, slot_of ne.1 = i) es →
  (hs_entry_count s' + N.of_nat (length (bucket m i)) = hs_entry_count s + N.of_nat (length es))%N →
  shard_repr s' (put_bucket m i es).
Proof.
  intros Hs Hn Hi Hle HF Hc. pose proof Hs as [Hsn Hsb Hsc]. split; [done| |].
  - intros j l Hl. destruct (decide (j = i)) as [->|Hne]; [|rewrite put_bucket_ne in Hl by done; by apply Hsb].
    unfold put_bucket in Hl. destruct es as [|e es]; [by rewrite lookup_delete_eq in Hl|].
    rewrite lookup_insert_eq in Hl. injection Hl as <-. by eexists.
  - destruct (list_update s s' m (put_bucket m i es) i) as (pre & post & H1 & H2 & _);
      [done|done|done|intros; by apply put_bucket_ne|].
    rewrite bucket_put in H2. rewrite Hsc, H1, !length_app in Hc. rewrite H2, !length_app. lia.
Qed.

Lemma view_put s s' m i es name :
  shard_repr s m → shard_repr s' (put_bucket m i es) → slot_of name = i →
  view s' name = filter (λ ne, ne.1 = name) es.
Proof. intros Hs Hs' <-. by rewrite (view_bucket s' _ name Hs'), bucket_put. Qed.

Lemma view_put_other s s' m i es name :
  shard_repr s m → shard_repr s' (put_bucket m i es) →
  filter (λ ne : named_entry, ne.1 = name) es = filter (λ ne, ne.1 = name) (bucket m i) →
  view s' name = view s name.
Proof.
  intros Hs Hs' He. rewrite (view_bucket s' _ name Hs'), (view_bucket s m name Hs).
  destruct (decide (slot_of name = i)) as [->|Hne]; [by rewrite bucket_put|].
  unfold bucket. by rewrite put_bucket_ne.
Qed.

Lemma insert_repr s m name e :
  shard_repr s m →
  (length (bucket m (slot_of name)) < MAX_BUCKET_SIZE)%nat ∧
    (∃ s', HamtShard_insert s name e = Some (s', Ok tt) ∧
      shard_repr s' (put_bucket m (slot_of name) (bucket m (slot_of name) ++ [(name, e)])) ∧
      hs_entry_count s' = hs_entry_count s + 1) ∨
  length (bucket m (slot_of name)) = MAX_BUCKET_SIZE ∧ HamtShard_insert s name e = Some (s, Err InvalidStructure).
Proof.
  intros Hs. pose proof Hs as [Hn Hb Hc]. destruct (slot_of_spec name) as [Hidx Hi].
  pose proof (bucket_bound s m (slot_of name) Hs) as Hbound. pose proof (list_bound s m Hs) as Htot.
  assert (Hcount : hs_entry_count (count_entry s name e) = hs_entry_count s + 1).
  { cbn. unfold u64_add. apply N.mod_small. rewrite Hc. lia. }
  unfold HamtShard_insert, insert_with_hash. rewrite Hidx. cbn [mbind option_bind].
  rewrite (nr_slots _ _ Hn) by done. set (i := slot_of name) in *.
  assert (Hput : ∀ es root, es = bucket m i ++ [(name, e)] → node_repr root (<[i := LBucket es]> m) →
    (length (bucket m i) < MAX_BUCKET_SIZE)%nat → Forall (λ ne, slot_of ne.1 = i) (bucket m i) →
    shard_repr (set_root (count_entry s name e) root) (put_bucket m i (bucket m i ++ [(name, e)]))).
  { intros es root -> Hroot Hlt HF. apply (put_bucket_repr s); try done.
    - cbn. unfold put_bucket. destruct (bucket m i ++ [(name, e)]) eqn:E; [by destruct (bucket m i)|done].
    - rewrite length_app. simpl. lia.
    - apply Forall_app. split; [done|]. by repeat constructor.
    - change (hs_entry_count (set_root (count_entry s name e) root)) with (hs_entry_count (count_entry s name e)).
      rewrite Hcount, length_app. simpl. lia. }
  case_bool_decide as His.
  - rewrite (get_child_repr _ m) by done. destruct His as [l Hl]. rewrite Hl.
    destruct (Hb i l Hl) as (es & -> & Hne & Hle & HF).
    assert (bucket m i = es) as Hes by (unfold bucket; by rewrite Hl). rewrite Hes in *.
    destruct (Nat.ltb_spec (length es) MAX_BUCKET_SIZE) as [Hlt|Hge]; [left|right; split; [lia|done]].
    split; [done|]. destruct (remove_child_repr (hs_root s) m i Hn Hi) as (n1 & Hrem & Hn1).
    cbn [hs_root count_entry set_sizes]. rewrite Hrem, Hl. cbn [mbind option_bind].
    destruct (set_child_repr n1 (delete i m) i (LBucket (es ++ [(name, e)])) Hn1 Hi) as (n2 & Hset & Hn2).
    rewrite Hset. cbn [mbind option_bind]. eexists. split; [done|]. split; [|exact Hcount].
    rewrite insert_delete_eq in Hn2. by apply (Hput (es ++ [(name, e)])).
  - left. apply eq_None_not_Some in His.
    assert (bucket m i = []) as Hes by (unfold bucket; by rewrite His). rewrite Hes in *.
    split; [unfold MAX_BUCKET_SIZE; simpl; lia|].
    destruct (set_child_repr (hs_root s) m i (LBucket [(name, e)]) Hn Hi) as (n2 & Hset & Hn2).
    cbn [hs_root count_entry set_sizes]. rewrite Hset. cbn [mbind option_bind]. eexists. split; [done|].
    split; [|exact Hcount]. apply (Hput [(name, e)]); [done|done|unfold MAX_BUCKET_SIZE; simpl; lia|constructor].
Qed.

Lemma find_entry_head name es :
  find_entry name es = snd <$> head (filter (λ ne : named_entry, ne.1 = name) es).
Proof.
  unfold find_entry. induction es as [|[n e] es IH]; [done|]. cbn [List.find]. simpl fst.
  rewrite filter_cons. simpl fst. destruct (String.eqb_spec n name) as [->|Hne].
  - by rewrite decide_True.
  - rewrite decide_False by done. apply IH.
Qed.

Lemma get_repr s m name :
  shard_repr s m → HamtShard_get s name = Some (snd <$> head (view s name)).
Proof.
  intros Hs. pose proof Hs as [Hn Hb Hc]. destruct (slot_of_spec name) as [Hidx Hi].
  unfold HamtShard_get, get_with_hash. rewrite Hidx. cbn [mbind option_bind].
  rewrite (get_child_repr _ m), (view_bucket s m) by done. unfold bucket. f_equal.
  destruct (m !! slot_of name) as [l|] eqn:Hl; [|done].
  destruct (Hb _ l Hl) as (es & -> & _). apply find_entry_head.
Qed.

(** Removing the first entry of a name. *)
Lemma entry_position_spec name es :
  match entry_position name es with
  | Some pos => ∃ pre e post, es = pre ++ (name, e) :: post ∧ length pre = pos ∧
      filter (λ ne : named_entry, ne.1 = name) pre = []
  | None => filter (λ ne : named_entry, ne.1 = name) es = []
  end.
Proof.
  induction es as [|[n e] es IH]; [done|]. cbn [entry_position].
  destruct (String.eqb_spec n name) as [->|Hne].
  - by exists [], e, es.
  - destruct (entry_position name es) as [pos|]; cbn [fmap option_fmap option_map].
    + destruct IH as (pre & x & post & -> & <- & Hp). exists ((n, e) :: pre), x, post.
      split_and!; [done|done|]. rewrite filter_cons, decide_False by done. done.
    + rewrite filter_cons, decide_False by done. done.
Qed.

Lemma put_bucket_id s m i : shard_repr s m → put_bucket m i (bucket m i) = m.
Proof.
  intros [_ Hb _]. unfold bucket, put_bucket. destruct (m !! i) as [l|] eqn:Hl; cbn.
  - destruct (Hb i l Hl) as (es & -> & Hne & _). cbn. destruct es; [done|]. by rewrite insert_id.
  - by rewrite delete_id.
Qed.

Lemma put_child_repr n m i es :
  node_repr n m → (i < 256)%nat →
  ∃ n', match es with
        | [] => fst <$> HamtNode_remove_child n i
        | _ => HamtNode_set_child n i (LBucket es)
        end = Some n' ∧ node_repr n' (put_bucket m i es).
Proof.
  intros Hn Hi. destruct es as [|x es].
  - destruct (remove_child_repr n m i Hn Hi) as (n' & -> & Hn'). by exists n'.
  - by apply set_child_repr.
Qed.

Lemma remove_cut s m i pre x post root sz :
  shard_repr s m → (i < 256)%nat → bucket m i = pre ++ x :: post →
  node_repr root (put_bucket m i (pre ++ post)) →
  shard_repr (set_root (set_sizes s (hs_entry_count s - 1) sz) root) (put_bucket m i (pre ++ post)).
Proof.
  intros Hs Hi Hes Hn. pose proof Hs as [Hsn Hb Hc].
  pose proof (bucket_bound s m i Hs) as Hle. rewrite Hes, length_app in Hle. simpl in Hle.
  apply (put_bucket_repr s); [done|exact Hn|done| | |].
  - rewrite length_app. unfold MAX_BUCKET_SIZE. lia.
  - unfold bucket in Hes. destruct (m !! i) as [l|] eqn:Hl; [|by destruct pre].
    destruct (Hb i l Hl) as (es & -> & _ & _ & HF). cbn in Hes. subst es.
    apply Forall_app in HF as [? [_ ?]%Forall_cons]. by apply Forall_app.
  - cbn [hs_entry_count set_root set_sizes]. rewrite Hes, !length_app. cbn [length].
    enough (0 < hs_entry_count s) by lia. rewrite Hc, (list_around s m i), Hes, !length_app by done. simpl. lia.
Qed.

Lemma filter_cut (pre post : list named_entry) (name : string) (e : HamtEntry) :
  filter (λ ne : named_entry, ne.1 = name) pre = [] →
  filter (λ ne : named_entry, ne.1 = name) (pre ++ (name, e) :: post) =
    (name, e) :: filter (λ ne, ne.1 = name) (pre ++ post) ∧
  ∀ n, n ≠ name → filter (λ ne : named_entry, ne.1 = n) (pre ++ (name, e) :: post) =
    filter (λ ne, ne.1 = n) (pre ++ post).
Proof.
  intros Hpre. split.
  - by rewrite !filter_app, Hpre, filter_cons, decide_True.
  - intros n Hn. by rewrite !filter_app, filter_cons, decide_False by (by intros [=]).
Qed.

Lemma remove_repr s m name :
  shard_repr s m →
  ∃ s' es', HamtShard_remove s name = Some (s', Ok (snd <$> head (view s name))) ∧
    shard_repr s' (put_bucket m (slot_of name) es') ∧
    filter (λ ne, ne.1 = name) es' = tail (view s name) ∧
    (∀ n, n ≠ name → filter (λ ne, ne.1 = n) es' = filter (λ ne, ne.1 = n) (bucket m (slot_of name))).
Proof.
  intros Hs. pose proof Hs as [Hn Hb Hc]. destruct (slot_of_spec name) as [Hidx Hi].
  unfold HamtShard_remove, remove_with_hash. rewrite Hidx. cbn [mbind option_bind].
  rewrite (nr_slots _ _ Hn), (get_child_repr _ m), (view_bucket s m) by done. set (i := slot_of name) in *.
  pose proof (entry_position_spec name (bucket m i)) as Hpos.
  destruct (entry_position name (bucket m i)) as [pos|] eqn:Hp.
  - destruct Hpos as (pre & e & post & Hes & <- & Hpre). destruct (filter_cut pre post name e Hpre) as [Hf Hf'].
    assert (m !! i = Some (LBucket (bucket m i))) as Hl.
    { unfold bucket in *. destruct (m !! i) as [l|] eqn:Hl; [|by destruct pre].
      by destruct (Hb i l Hl) as (es & -> & _). }
    rewrite Hl, bool_decide_true by done. cbn [negb]. rewrite Hp. unfold vec_remove.
    rewrite Hes, list_lookup_middle by done. cbn [mbind option_bind]. rewrite delete_middle.
    destruct (put_child_repr (hs_root s) m i (pre ++ post) Hn Hi) as (n' & Hset & Hn').
    cbn [hs_root set_sizes]. rewrite Hset. cbn [mbind option_bind].
    eexists _, (pre ++ post). rewrite Hf. split_and!; [done|by eapply remove_cut|done|].
    intros n Hnn. by rewrite Hf'.
  - exists s, (bucket m i). rewrite Hpos, (put_bucket_id s) by done. split_and!; [|done|done|done].
    unfold bucket in Hp. destruct (m !! i) as [l|] eqn:Hl; [|by rewrite bool_decide_false by (by intros [? ?])].
    destruct (Hb i l Hl) as (es & -> & _). cbn in Hp. rewrite bool_decide_true by done. cbn [negb]. by rewrite Hp.
Qed.

(** *** The refinement *)

Definition shard_ok s : Prop := ∃ m, shard_repr s m.

(** The number of entries in a slot. *)
Definition slot_load (i : nat) (l : list named_entry) : nat := length (filter (λ ne, slot_of ne.1 = i) l).

Lemma slot_load_bucket s m i :
  shard_repr s m → (i < 256)%nat → slot_load i (HamtShard_list s) = length (bucket m i).
Proof.
  intros Hs Hi. unfold slot_load.
  rewrite (list_around s m i), !filter_app, !length_app by (done || apply (sr_node _ _ Hs)).
  rewrite !(other_slots_lack m _ i) by (apply (sr_buckets _ _ Hs) || done || (intros; lia)).
  rewrite (filter_all _ (bucket m i)); [simpl; lia|].
  unfold bucket. destruct (m !! i) as [l|] eqn:Hl; [|by intros ? ?%elem_of_nil].
  destruct (sr_buckets _ _ Hs _ _ Hl) as (es & -> & _ & _ & HF). by rewrite Forall_forall in HF.
Qed.

Lemma slot_load_bound s i : shard_ok s → (slot_load i (HamtShard_list s) ≤ MAX_BUCKET_SIZE)%nat.
Proof.
  intros [m Hs]. destruct (le_lt_dec 256 i) as [Hi|Hi].
  - unfold slot_load. rewrite (list_repr s m), (other_slots_lack m _ i); [simpl; lia|..].
    + apply (sr_buckets _ _ Hs).
    + done.
    + intros. lia.
    + apply (sr_node _ _ Hs).
  - rewrite (slot_load_bucket s m) by done. by apply (bucket_bound s).
Qed.

Lemma insert_view s name e :
  shard_ok s →
  (∃ s', HamtShard_insert s name e = Some (s', Ok tt) ∧ shard_ok s' ∧
     view s' name = view s name ++ [(name, e)] ∧ (∀ n, n ≠ name → view s' n = view s n) ∧
     hs_entry_count s' = hs_entry_count s + 1 ∧ HamtShard_list s' ≡ₚ (name, e) :: HamtShard_list s) ∨
  (MAX_BUCKET_SIZE ≤ slot_load (slot_of name) (HamtShard_list s))%nat ∧
    HamtShard_insert s name e = Some (s, Err InvalidStructure).
Proof.
  intros [m Hs]. destruct (slot_of_spec name) as [_ Hi].
  destruct (insert_repr s m name e Hs) as [[_ (s' & H1 & H2 & H3)]|[Hfull Herr]]; [left|right].
  - exists s'. split_and!; [done|by eexists| |intros n Hn|done|].
    + rewrite (view_put s s' m _ _ name Hs H2 eq_refl), filter_app, (view_bucket s m name Hs).
      by rewrite filter_cons, decide_True.
    + apply (view_put_other s s' m _ _ n Hs H2). rewrite filter_app, filter_cons, decide_False by done.
      by rewrite app_nil_r.
    + destruct (list_update s s' m _ (slot_of name) (sr_node _ _ Hs) (sr_node _ _ H2) Hi) as (pre & post & -> & -> & _).
      { intros j Hj. by apply put_bucket_ne. }
      rewrite bucket_put, <- app_assoc. cbn [app]. by rewrite <- !Permutation_middle.
  - split; [|done]. pose proof (slot_load_bucket s m (slot_of name) Hs Hi). lia.
Qed.

(** C11. The directory shard refines a map from names to queues of entries: from
    the empty shard, and whatever the hash of the names, no operation panics;
    [insert] puts the entry at the end of its name's queue and counts it, or,
    when the slot of the name already holds 256 entries, reports an error and
    changes nothing; [get] shows the head of the queue; [remove] takes it off.
    The queues of the other names stay as they are. So a second insertion under a
    name is not seen until the first is removed. *)
Theorem hamt_refines_queues s name e :
  shard_ok s →
  ((∃ s', HamtShard_insert s name e = Some (s', Ok tt) ∧ shard_ok s' ∧
      view s' name = view s name ++ [(name, e)] ∧ (∀ n, n ≠ name → view s' n = view s n) ∧
      hs_entry_count s' = hs_entry_count s + 1) ∨
   (MAX_BUCKET_SIZE ≤ slot_load (slot_of name) (HamtShard_list s))%nat ∧
     HamtShard_insert s name e = Some (s, Err InvalidStructure)) ∧
  HamtShard_get s name = Some (snd <$> head (view s name)) ∧
  (∃ s', HamtShard_remove s name = Some (s', Ok (snd <$> head (view s name))) ∧ shard_ok s' ∧
     view s' name = tail (view s name) ∧ (∀ n, n ≠ name → view s' n = view s n)) ∧
  hs_entry_count s = N.of_nat (length (HamtShard_list s)) ∧ shard_ok HamtShard_new.
Proof.
  intros [m Hs]. split_and!; [|by eapply get_repr| |apply (sr_count _ _ Hs)|exists ∅; apply shard_repr_new].
  - destruct (insert_view s name e (ex_intro _ m Hs)) as [(s' & ? & ? & ? & ? & ? & _)|[Hl He]]; [left|by right].
    by exists s'.
  - destruct (remove_repr s m name Hs) as (s' & es' & H1 & H2 & H3 & H4). exists s'.
    split_and!; [done|by eexists| |intros n Hn].
    + by rewrite (view_put s s' m _ _ name Hs H2 eq_refl).
    + apply (view_put_other s s' m _ _ n Hs H2). by apply H4.
Qed.

(** *** Batches *)

(** The entries of a name in a list of insertions. *)
Definition of_name (n : string) (l : list named_entry) : list named_entry := filter (λ ne, ne.1 = n) l.

Lemma insert_all_view s l :
  shard_ok s → (∀ i, (slot_load i (HamtShard_list s ++ l) ≤ MAX_BUCKET_SIZE)%nat) →
  ∃ s', insert_all s l = Some (s', Ok tt) ∧ shard_ok s' ∧ HamtShard_list s' ≡ₚ HamtShard_list s ++ l ∧
    ∀ n, view s' n = view s n ++ of_name n l.
Proof.
  revert s. induction l as [|[name e] l IH]; intros s Hs Hload.
  { exists s. unfold of_name. split_and!; [done|done|by rewrite app_nil_r|intros; by rewrite app_nil_r]. }
  cbn [insert_all]. destruct (insert_view s name e Hs) as [(s1 & -> & Hs1 & Hv & Hvn & _ & Hp)|[Hfull _]].
  - cbn [mbind option_bind]. destruct (IH s1 Hs1) as (s' & Hi & Hok & Hp' & Hview).
    { intros i. specialize (Hload i). unfold slot_load in *. rewrite Hp. cbn [app].
      by rewrite (Permutation_middle (HamtShard_list s) l (name, e)). }
    exists s'. split_and!; [done|done| |].
    + rewrite Hp', Hp. cbn [app]. by rewrite Permutation_middle.
    + intros n. rewrite Hview. unfold of_name. rewrite filter_cons. cbn [fst].
      destruct (decide (name = n)) as [->|Hne]; [by rewrite Hv, <- app_assoc|by rewrite Hvn].
  - specialize (Hload (slot_of name)). unfold slot_load in *.
    rewrite filter_app, length_app, filter_cons in Hload. cbn [fst] in Hload.
    rewrite decide_True in Hload by done. simpl in Hload. lia.
Qed.

Lemma name_key_eqb a b : key_eqb name_leb a b = true ↔ a.1 = b.1.
Proof.
  unfold key_eqb, name_leb. rewrite andb_true_iff. split.
  - intros [H1 H2]. by apply (inj str_bytes), bytes_leb_antisym.
  - intros ->. by destruct (bytes_leb_total (str_bytes b.1) (str_bytes b.1)).
Qed.

(** Sorting a batch keeps the order of the entries of one name. *)
Lemma of_name_sort n l : of_name n (sort_entries l) = of_name n l.
Proof.
  unfold of_name, sort_entries. destruct (decide (Exists (λ ne : named_entry, ne.1 = n) l)) as [Hex|Hno].
  - apply Exists_exists in Hex as (k & _ & Hk).
    assert (Hf : ∀ l' : list named_entry,
      filter (λ ne : named_entry, ne.1 = n) l' = filter (λ y : named_entry, key_eqb name_leb k y) l').
    { intros l'. apply list_filter_iff. intros y. rewrite Is_true_true, name_key_eqb. naive_solver. }
    rewrite !Hf. apply sort_by_stable.
    intros x y z. apply bytes_leb_trans.
  - assert (Hnil : ∀ l', l' ≡ₚ l → filter (λ ne : named_entry, ne.1 = n) l' = []).
    { intros l' Hp. destruct (filter _ l') as [|x r] eqn:He; [done|]. destruct Hno.
      assert (x ∈ filter (λ ne : named_entry, ne.1 = n) l') as [Hx Hin]%list_elem_of_filter by (rewrite He; left).
      apply Exists_exists. exists x. by rewrite <- Hp. }
    by rewrite !Hnil by (done || apply sort_by_perm).
Qed.

Lemma shard_ok_new : shard_ok HamtShard_new.
Proof. exists ∅. apply shard_repr_new. Qed.

Lemma slot_load_app i l l' : slot_load i (l ++ l') = (slot_load i l + slot_load i l')%nat.
Proof. unfold slot_load. by rewrite filter_app, length_app. Qed.

#[local] Instance slot_load_proper i : Proper ((≡ₚ) ==> (=)) (slot_load i).
Proof. intros l l' Hl. unfold slot_load. by rewrite Hl. Qed.

(** A fresh shard from a batch, in any order. *)
Lemma insert_all_new l l' :
  l' ≡ₚ l → (∀ i, (slot_load i l ≤ MAX_BUCKET_SIZE)%nat) →
  ∃ s, insert_all HamtShard_new l' = Some (s, Ok tt) ∧ shard_ok s ∧ HamtShard_list s ≡ₚ l ∧
    ∀ n, view s n = of_name n l'.
Proof.
  intros Hp Hl. destruct (insert_all_view HamtShard_new l' shard_ok_new) as (s & Hi & Hok & Hperm & Hv).
  { intros i. cbn [HamtShard_list HamtShard_new hs_root hn_links HamtNode_new mbind list_bind app]. by rewrite Hp. }
  exists s. split_and!; [done|done| |done]. rewrite Hperm. exact Hp.
Qed.

Lemma concat_entry_chunks fuel n l :
  (0 < n)%nat → (length l ≤ fuel)%nat → concat (entry_chunks fuel n l) = l.
Proof.
  intros Hn. revert l. induction fuel as [|fuel IH]; intros l Hl; [by destruct l; [|simpl in Hl; lia]|].
  destruct l as [|x l]; [done|]. cbn [entry_chunks concat]. rewrite IH; [apply take_drop|].
  rewrite length_drop. simpl in *. lia.
Qed.

Lemma import_chunks_view cs :
  (∀ i, (slot_load i (concat cs) ≤ MAX_BUCKET_SIZE)%nat) →
  ∃ ss, import_chunks cs = Some (Ok ss) ∧ Forall shard_ok ss ∧ (ss ≫= HamtShard_list) ≡ₚ concat cs ∧
    ∀ n, of_name n (ss ≫= HamtShard_list) = of_name n (concat cs).
Proof.
  induction cs as [|c cs IH]; intros Hl; [by exists []|]. cbn [concat] in *.
  destruct (insert_all_new c (sort_entries c)) as (s & Hs & Hok & Hp & Hv).
  { apply sort_by_perm. } { intros i. specialize (Hl i). rewrite slot_load_app in Hl. lia. }
  destruct IH as (ss & Hss & HF & Hps & Hvs).
  { intros i. specialize (Hl i). rewrite slot_load_app in Hl. lia. }
  exists (s :: ss). cbn [import_chunks]. rewrite Hs. cbn [mbind option_bind]. rewrite Hss.
  cbn [mbind option_bind list_bind]. split_and!; [done|by constructor|by rewrite Hp, Hps|].
  intros n. unfold of_name. rewrite !filter_app. f_equal; [|apply Hvs].
  trans (of_name n (sort_entries c)); [apply (Hv n)|apply of_name_sort].
Qed.

(** Bulk operations agree with one-by-one insertion: when no slot overflows,
    the parallel importer, whatever its number of workers, yields a well-formed
    shard that lists exactly the given entries and in which every name has its
    entries in the given order, as sequential insertion does; and rebuilding a
    shard ([ShardManager::shard]) succeeds and keeps the entries of every name. *)
Theorem hamt_bulk_equivalence workers entries mgr :
  (0 < workers)%nat → (∀ i, (slot_load i entries ≤ MAX_BUCKET_SIZE)%nat) → shard_ok (sm_root mgr) →
  (∃ s s', ParallelBulkImporter_import workers entries = Some (Ok s) ∧
     insert_all HamtShard_new entries = Some (s', Ok tt) ∧ shard_ok s ∧
     HamtShard_list s ≡ₚ entries ∧ (∀ n, view s n = of_name n entries ∧ view s' n = view s n)) ∧
  (∃ mgr', ShardManager_shard mgr = Some (mgr', Ok tt) ∧ shard_ok (sm_root mgr') ∧
     ∀ n, view (sm_root mgr') n = view (sm_root mgr) n).
Proof.
  intros Hw Hload Hm. split.
  - destruct (insert_all_new entries entries (reflexivity _) Hload) as (s' & Hs' & _ & _ & Hv').
    enough (∃ s, ParallelBulkImporter_import workers entries = Some (Ok s) ∧ shard_ok s ∧
      HamtShard_list s ≡ₚ entries ∧ ∀ n, view s n = of_name n entries) as (s & Hs & Hok & Hp & Hv).
    { exists s, s'. split_and!; [done..|]. intros n. by rewrite Hv, Hv'. }
    clear Hs' Hv' s' Hm. unfold ParallelBulkImporter_import.
    destruct entries as [|x l] eqn:He; [exists HamtShard_new; split_and!; [done|apply shard_ok_new|done|done]|].
    rewrite <- He in *. destruct (Nat.eqb_spec workers 0) as [?|_]; [lia|].
    set (cs := entry_chunks _ _ _). assert (concat cs = entries) as Hcs by (apply concat_entry_chunks; lia).
    destruct (import_chunks_view cs) as (ss & -> & HF & Hp & Hv); [by rewrite Hcs|]. cbn [mbind option_bind].
    rewrite Hcs in *. destruct ss as [|s [|s2 ss]].
    + exists HamtShard_new. split_and!; [done|apply shard_ok_new|done|done].
    + exists s. apply Forall_cons in HF as [Hok _]. cbn [mbind list_bind] in *. rewrite app_nil_r in *.
      split_and!; [done|done|done|]. exact Hv.
    + destruct (insert_all_new entries ((s :: s2 :: ss) ≫= HamtShard_list) Hp Hload) as (s' & Hs' & Hok & Hp' & Hv').
      exists s'. cbn [merge_shards]. rewrite Hs'. split_and!; [done|done|done|].
      intros n. by rewrite Hv'.
  - unfold ShardManager_shard. destruct (ShardManager_should_shard mgr); [cbn [negb]|by exists mgr].
    destruct (insert_all_new (HamtShard_list (sm_root mgr)) _ (reflexivity _)) as (s & -> & Hok & _ & Hv).
    { intros i. by apply slot_load_bound. }
    cbn [mbind option_bind]. eexists. split_and!; [done|done|]. intros n. apply (Hv n).
Qed.
End HamtTheorems.

(** ** Witnesses and iteration *)

Definition sample_hash : ContentHash := mkContentHash "00"%string.
Definition sample_entry : named_entry := ("a"%string, HFile sample_hash 1).

Lemma hamt_refines_queues_witness :
  HamtShard_get (HB := blake3_ref) HamtShard_new "a"%string = Some None.
Proof.
  destruct (hamt_refines_queues (HB := blake3_ref) HamtShard_new "a"%string (HFile sample_hash 1)
    (shard_ok_new (HB := blake3_ref))) as (_ & -> & _). vm_compute. reflexivity.
Defined.

Lemma hamt_bulk_equivalence_witness :
  ∃ s, ParallelBulkImporter_import (HB := blake3_ref) 4 [sample_entry] = Some (Ok s).
Proof.
  destruct (hamt_bulk_equivalence (HB := blake3_ref) 4 [sample_entry] ShardManager_new)
    as [(s & _ & Hs & _) _].
  - lia.
  - intros i. unfold slot_load. pose proof (length_filter (λ ne : named_entry, slot_of (HB := blake3_ref) ne.1 = i)
      [sample_entry]) as Hle. unfold MAX_BUCKET_SIZE. cbn [length] in Hle. lia.
  - apply (shard_ok_new (HB := blake3_ref)).
  - exists s. exact Hs.
Defined.

Lemma iter_next_shrinks ls bp it e :
  iter_next ls bp = (it, Some e) → (length (hi_links it) < length ls)%nat.
Proof.
  revert bp. induction ls as [|[h|es] ls IH]; intros bp Hn; cbn in Hn; [done|..].
  - specialize (IH _ Hn). cbn. lia.
  - destruct (es !! bp); [injection Hn as <- _; cbn; lia|]. specialize (IH _ Hn). cbn. lia.
Qed.

Lemma iter_collect_length fuel it : (length (iter_collect fuel it) ≤ length (hi_links it))%nat.
Proof.
  revert it. induction fuel as [|fuel IH]; intros it; [cbn; lia|]. cbn [iter_collect].
  destruct (HamtIter_next it) as [it' [e|]] eqn:Hn; [|cbn; lia]. cbn [length].
  specialize (IH it'). apply iter_next_shrinks in Hn. lia.
Qed.

(** Iteration does not visit every entry: [next] advances past the link it reads
    and keeps the position inside the bucket, so a shard yields at most one entry
    per link, and of three one-entry buckets the middle one is skipped. *)
Theorem hamt_iter_incomplete :
  (∀ s, (length (HamtShard_iter s) ≤ length (hn_links (hs_root s)))%nat) ∧
  (∀ s a b c, hn_links (hs_root s) = [LBucket [a]; LBucket [b]; LBucket [c]] → HamtShard_iter s = [a; c]) ∧
  (∀ s a b, hn_links (hs_root s) = [LBucket [a; b]] → HamtShard_iter s = [a]).
Proof.
  split_and!.
  - intros s. apply (iter_collect_length _ (HamtIter_new s)).
  - intros s a b c Hl. unfold HamtShard_iter, HamtIter_new. by rewrite Hl.
  - intros s a b Hl. unfold HamtShard_iter, HamtIter_new. by rewrite Hl.
Qed.
