(* ===== verification/SecError.v ===== *)
(** * Errors of the security crate ([crates/a3net-security/src/error.rs])

    The error type shared by the access-control lists ([Acl]) and the encrypted
    sessions ([Session]), with its classification, and the severities of the
    audit log ([audit.rs]) it refers to. The score of an anomaly is a float the
    code only stores; it is kept as its bit pattern. *)
From stdpp Require Import prelude strings.
From Stdlib Require Import NArith.
From S2P Require Import Prelude.

Inductive AuditSeverity : Type := SevDebug | SevInfo | SevNotice | SevWarning | SevError | SevCritical.

Definition AuditSeverity_to_syslog_level (s : AuditSeverity) : N :=
  match s with
  | SevDebug => 7 | SevInfo => 6 | SevNotice => 5 | SevWarning => 4 | SevError => 3 | SevCritical => 2
  end%N.

Inductive SecurityError : Type :=
| AccessDenied (reason : string)
| AuthenticationFailed (reason : string)
| InvalidCredentials (reason : string)
| SessionError (reason : string)
| SessionExpired
| SessionNotFound (id : string)
| KeyError (reason : string)
| KeyNotFound (id : string)
| KeyRotationFailed (reason : string)
| EncryptionFailed (reason : string)
| DecryptionFailed (reason : string)
| IntrusionDetected (threat_type : string)
| AnomalyDetected (score : N)
| AuditFailure (reason : string)
| InvalidConfig (reason : string)
| SerializationError (reason : string)
| Internal (reason : string).

#[global] Instance SecurityError_eq_dec : EqDecision SecurityError.
Proof. solve_decision. Defined.

Definition SecurityError_is_retryable (e : SecurityError) : bool :=
  match e with SessionExpired | SessionError _ | AuditFailure _ => true | _ => false end.

Definition SecurityError_is_security_threat (e : SecurityError) : bool :=
  match e with
  | AuthenticationFailed _ | InvalidCredentials _ | IntrusionDetected _ | AnomalyDetected _ => true
  | _ => false
  end.

Definition SecurityError_severity (e : SecurityError) : AuditSeverity :=
  match e with
  | AccessDenied _ => SevWarning
  | AuthenticationFailed _ => SevWarning
  | InvalidCredentials _ => SevWarning
  | SessionExpired => SevInfo
  | SessionError _ => SevWarning
  | SessionNotFound _ => SevInfo
  | KeyError _ => SevError
  | KeyNotFound _ => SevWarning
  | KeyRotationFailed _ => SevError
  | EncryptionFailed _ => SevError
  | DecryptionFailed _ => SevError
  | IntrusionDetected _ => SevCritical
  | AnomalyDetected _ => SevWarning
  | AuditFailure _ => SevError
  | InvalidConfig _ => SevError
  | SerializationError _ => SevError
  | Internal _ => SevError
  end.

(** A threat is never retried, and is at least a warning in the log. *)
Lemma threat_not_retryable e :
  SecurityError_is_security_threat e = true →
  SecurityError_is_retryable e = false ∧ (AuditSeverity_to_syslog_level (SecurityError_severity e) ≤ 4)%N.
Proof. destruct e; intros [=]; (split; [done|]); vm_compute; discriminate. Qed.
