(* ===== verification/KeyStore.v ===== *)
(** * Key management ([crates/a3net-security/src/key_management.rs])

    Rotating keys with their versions and data, rotation policies and the store
    that holds both. Times and durations are nanoseconds ([Z]); the clock, the
    fresh identifiers and the random key data are arguments. The store's file and
    SQLite backends are names that no operation looks at. [u32] version numbers
    wrap as in a build without overflow checks. The maps are visited in the order
    of [map_to_list]. *)
From stdpp Require Import prelude strings gmap list.
From Stdlib Require Import NArith ZArith Lia.
From S2P Require Import Prelude SecError.

#[local] Open Scope N_scope.

(** ** Keys *)

Record KeyVersion : Type := mkKeyVersion {
  kv_version : N;
  kv_created_at : Z;
  kv_expires_at : option Z;
  kv_rotated_at : option Z;
  kv_key_id : string;
  kv_is_active : bool;
  kv_is_revoked : bool
}.

Inductive KeyType : Type :=
| KtSymmetric | KtPrivateKey | KtPublicKey | KtSigning | KtEncryption | KtMaster | KtSession | KtHmac.

Record KeyMetadata : Type := mkKeyMetadata {
  km_key_id : string;
  km_name : string;
  km_description : option string;
  km_key_type : KeyType;
  km_created_at : Z;
  km_created_by : option string;
  km_tags : list string;
  km_access_count : N;
  km_last_accessed : option Z;
  km_rotation_policy : option string
}.

Definition KeyMetadata_new (now : Z) (key_id name : string) (key_type : KeyType) : KeyMetadata :=
  {| km_key_id := key_id; km_name := name; km_description := None; km_key_type := key_type;
     km_created_at := now; km_created_by := None; km_tags := []; km_access_count := 0;
     km_last_accessed := None; km_rotation_policy := None |}.

Record RotatingKey : Type := mkRotatingKey {
  rk_metadata : KeyMetadata;
  rk_current_version : N;
  rk_versions : gmap N KeyVersion;
  rk_key_data : gmap N (list N)
}.

Definition RotatingKey_new (now : Z) (key_id name : string) (key_type : KeyType) : RotatingKey :=
  {| rk_metadata := KeyMetadata_new now key_id name key_type;
     rk_current_version := 1;
     rk_versions := {[ 1 := mkKeyVersion 1 now None None key_id true false ]};
     rk_key_data := ∅ |}.

Definition set_active (active : bool) (v : KeyVersion) : KeyVersion :=
  mkKeyVersion (kv_version v) (kv_created_at v) (kv_expires_at v) (kv_rotated_at v) (kv_key_id v)
    active (kv_is_revoked v).

Definition set_revoked (v : KeyVersion) : KeyVersion :=
  mkKeyVersion (kv_version v) (kv_created_at v) (kv_expires_at v) (kv_rotated_at v) (kv_key_id v) false true.

Definition RotatingKey_rotate (now : Z) (k : RotatingKey) : RotatingKey * KeyVersion :=
  let versions := alter (set_active false) (rk_current_version k) (rk_versions k) in
  let new_version := (rk_current_version k + 1) mod 2 ^ 32 in
  let version := mkKeyVersion new_version now None (Some now) (km_key_id (rk_metadata k)) true false in
  (mkRotatingKey (rk_metadata k) new_version (<[new_version := version]> versions) (rk_key_data k), version).

Definition RotatingKey_revoke (k : RotatingKey) : RotatingKey :=
  mkRotatingKey (rk_metadata k) (rk_current_version k) (set_revoked <$> rk_versions k) (rk_key_data k).

Definition RotatingKey_is_valid (k : RotatingKey) : bool :=
  existsb (λ p, kv_is_active p.2 && negb (kv_is_revoked p.2)) (map_to_list (rk_versions k)).

Definition RotatingKey_active_version (k : RotatingKey) : option KeyVersion :=
  rk_versions k !! rk_current_version k.

Definition set_data (k : RotatingKey) (version : N) (data : list N) : RotatingKey :=
  mkRotatingKey (rk_metadata k) (rk_current_version k) (rk_versions k) (<[version := data]> (rk_key_data k)).

Definition set_metadata (k : RotatingKey) (m : KeyMetadata) : RotatingKey :=
  mkRotatingKey m (rk_current_version k) (rk_versions k) (rk_key_data k).

(** ** Policies *)

Record KeyRotationPolicy : Type := mkPolicy {
  rp_id : string;
  rp_name : string;
  rp_key_type : KeyType;
  rp_rotation_interval : Z;
  rp_max_age : Z;
  rp_min_versions : N;
  rp_automatic : bool;
  rp_created_at : Z;
  rp_last_rotation : option Z;
  rp_next_rotation : option Z;
  rp_enabled : bool
}.

Definition KeyRotationPolicy_new (now : Z) (id name : string) (key_type : KeyType) (rotation_interval : Z)
  : KeyRotationPolicy :=
  {| rp_id := id; rp_name := name; rp_key_type := key_type; rp_rotation_interval := rotation_interval;
     rp_max_age := rotation_interval * 3; rp_min_versions := 2; rp_automatic := false;
     rp_created_at := now; rp_last_rotation := None; rp_next_rotation := Some (now + rotation_interval)%Z;
     rp_enabled := true |}.

Definition is_rotation_due (now : Z) (p : KeyRotationPolicy) : bool :=
  if negb (rp_enabled p) then false
  else match rp_next_rotation p with
       | Some next => (next <=? now)%Z
       | None => true
       end.

Definition record_rotation (now : Z) (p : KeyRotationPolicy) : KeyRotationPolicy :=
  {| rp_id := rp_id p; rp_name := rp_name p; rp_key_type := rp_key_type p;
     rp_rotation_interval := rp_rotation_interval p; rp_max_age := rp_max_age p;
     rp_min_versions := rp_min_versions p; rp_automatic := rp_automatic p; rp_created_at := rp_created_at p;
     rp_last_rotation := Some now; rp_next_rotation := Some (now + rp_rotation_interval p)%Z;
     rp_enabled := rp_enabled p |}.

(** ** The store *)

Inductive KeyStoreBackend : Type := BkMemory | BkFile (path : string) | BkSqlite (path : string).

Record KeyStore : Type := mkKeyStore {
  st_keys : gmap string RotatingKey;
  st_policies : gmap string KeyRotationPolicy;
  st_backend : KeyStoreBackend
}.

Definition KeyStore_new (backend : KeyStoreBackend) : KeyStore := mkKeyStore ∅ ∅ backend.
Definition KeyStore_memory : KeyStore := KeyStore_new BkMemory.

Definition set_keys (s : KeyStore) (k : gmap string RotatingKey) : KeyStore :=
  mkKeyStore k (st_policies s) (st_backend s).
Definition set_policies (s : KeyStore) (p : gmap string KeyRotationPolicy) : KeyStore :=
  mkKeyStore (st_keys s) p (st_backend s).

Definition with_policy_id (m : KeyMetadata) (id : string) : KeyMetadata :=
  mkKeyMetadata (km_key_id m) (km_name m) (km_description m) (km_key_type m) (km_created_at m) (km_created_by m)
    (km_tags m) (km_access_count m) (km_last_accessed m) (Some id).

(** The access counter is a [u64]. *)
Definition touch_metadata (now : Z) (m : KeyMetadata) : KeyMetadata :=
  mkKeyMetadata (km_key_id m) (km_name m) (km_description m) (km_key_type m) (km_created_at m) (km_created_by m)
    (km_tags m) ((km_access_count m + 1) mod 2 ^ 64) (Some now) (km_rotation_policy m).

Definition create_key (now : Z) (fresh_id : string) (s : KeyStore) (name : string) (key_type : KeyType)
    (key_data : list N) (rotation_policy : option KeyRotationPolicy) : KeyStore * string :=
  let key := set_data (RotatingKey_new now fresh_id name key_type) 1 key_data in
  let '(key, s) := match rotation_policy with
                   | Some policy =>
                       (set_metadata key (with_policy_id (rk_metadata key) (rp_id policy)),
                        set_policies s (<[rp_id policy := policy]> (st_policies s)))
                   | None => (key, s)
                   end in
  (set_keys s (<[km_key_id (rk_metadata key) := key]> (st_keys s)), km_key_id (rk_metadata key)).

Definition get_key (s : KeyStore) (key_id : string) : result SecurityError RotatingKey :=
  ok_or (KeyNotFound key_id) (st_keys s !! key_id).

Definition get_active_key_data (now : Z) (s : KeyStore) (key_id : string)
  : KeyStore * result SecurityError (list N) :=
  match st_keys s !! key_id with
  | None => (s, Err (KeyNotFound key_id))
  | Some key =>
      let key := set_metadata key (touch_metadata now (rk_metadata key)) in
      (set_keys s (<[key_id := key]> (st_keys s)),
       ok_or (KeyError "No key data for active version") (rk_key_data key !! rk_current_version key))
  end.

(** Recording a rotation under the policy of a key, if it has one. *)
Definition record_policy (now : Z) (s : KeyStore) (policy : option string) : KeyStore :=
  match policy with
  | Some policy_id => set_policies s (alter (record_rotation now) policy_id (st_policies s))
  | None => s
  end.

Definition rotate_key (now : Z) (s : KeyStore) (key_id : string) (new_key_data : list N)
  : KeyStore * result SecurityError KeyVersion :=
  match st_keys s !! key_id with
  | None => (s, Err (KeyNotFound key_id))
  | Some key =>
      let '(key, version) := RotatingKey_rotate now key in
      let key := set_data key (kv_version version) new_key_data in
      (record_policy now (set_keys s (<[key_id := key]> (st_keys s))) (km_rotation_policy (rk_metadata key)),
       Ok version)
  end.

Definition revoke_key (s : KeyStore) (key_id : string) : KeyStore * result SecurityError unit :=
  match st_keys s !! key_id with
  | None => (s, Err (KeyNotFound key_id))
  | Some key => (set_keys s (<[key_id := RotatingKey_revoke key]> (st_keys s)), Ok tt)
  end.

Definition add_policy (s : KeyStore) (policy : KeyRotationPolicy) : KeyStore :=
  set_policies s (<[rp_id policy := policy]> (st_policies s)).

Definition list_policies (s : KeyStore) : list KeyRotationPolicy := snd <$> map_to_list (st_policies s).

Definition list_keys (s : KeyStore) : list KeyMetadata :=
  (λ p, rk_metadata p.2) <$> map_to_list (st_keys s).

Definition delete_key (s : KeyStore) (key_id : string) : KeyStore * result SecurityError unit :=
  match st_keys s !! key_id with
  | None => (s, Err (KeyNotFound key_id))
  | Some _ => (set_keys s (delete key_id (st_keys s)), Ok tt)
  end.

(** ** Rotating what is due *)

Definition due_policies (now : Z) (s : KeyStore) : list string :=
  (λ p, rp_id p.2) <$> filter (λ p, is_rotation_due now p.2 = true) (map_to_list (st_policies s)).

Definition random_failure : SecurityError := KeyError "Failed to generate random key data".

(** The inner loop, over the keys of one policy. [rnd] is what the random
    generator delivers for a key, [None] its failure, which ends everything with
    the keys already rotated. *)
Fixpoint rotate_keys (now : Z) (rnd : string → option (list N)) (policy_id : string) (ids : list string)
    (s : KeyStore) (rotated : list string) : KeyStore * result SecurityError (list string) :=
  match ids with
  | [] => (s, Ok rotated)
  | key_id :: ids =>
      match st_keys s !! key_id with
      | Some key =>
          if bool_decide (km_rotation_policy (rk_metadata key) = Some policy_id) then
            match rnd key_id with
            | None => (s, Err random_failure)
            | Some new_key_data =>
                let key := (RotatingKey_rotate now key).1 in
                let key := set_data key (rk_current_version key) new_key_data in
                rotate_keys now rnd policy_id ids (set_keys s (<[key_id := key]> (st_keys s)))
                  (rotated ++ [key_id])
            end
          else rotate_keys now rnd policy_id ids s rotated
      | None => rotate_keys now rnd policy_id ids s rotated
      end
  end.

Fixpoint rotate_policies (now : Z) (rnd : string → option (list N)) (due : list string)
    (s : KeyStore) (rotated : list string) : KeyStore * result SecurityError (list string) :=
  match due with
  | [] => (s, Ok rotated)
  | policy_id :: due =>
      match rotate_keys now rnd policy_id (fst <$> map_to_list (st_keys s)) s rotated with
      | (s, Err e) => (s, Err e)
      | (s, Ok rotated) => rotate_policies now rnd due (record_policy now s (Some policy_id)) rotated
      end
  end.

Definition process_due_rotations (now : Z) (rnd : string → option (list N)) (s : KeyStore)
  : KeyStore * result SecurityError (list string) :=
  rotate_policies now rnd (due_policies now s) s [].

Record KeyStoreStats : Type := mkStats {
  kst_total_keys : nat;
  kst_active_keys : nat;
  kst_revoked_keys : nat;
  kst_total_versions : nat;
  kst_total_policies : nat;
  kst_enabled_policies : nat
}.

Definition keystore_get_stats (s : KeyStore) : KeyStoreStats :=
  let ks := snd <$> map_to_list (st_keys s) in
  {| kst_total_keys := length ks;
     kst_active_keys := length (filter (λ k, RotatingKey_is_valid k = true) ks);
     kst_revoked_keys := length (filter (λ k, RotatingKey_is_valid k = false) ks);
     kst_total_versions := sum_list ((λ k, size (rk_versions k)) <$> ks);
     kst_total_policies := size (st_policies s);
     kst_enabled_policies := length (filter (λ p, rp_enabled p.2 = true) (map_to_list (st_policies s))) |}.

(** ** What holds of every key *)

Record key_ok (k : RotatingKey) : Prop := {
  ko_current : is_Some (rk_versions k !! rk_current_version k);
  ko_versions n v : rk_versions k !! n = Some v →
    1 ≤ n ≤ rk_current_version k ∧ kv_version v = n ∧ kv_key_id v = km_key_id (rk_metadata k) ∧
    (kv_is_active v = true → n = rk_current_version k ∧ kv_is_revoked v = false);
  ko_first : 1 ≤ rk_current_version k;
  ko_all n : 1 ≤ n ≤ rk_current_version k → is_Some (rk_versions k !! n) ∧ is_Some (rk_key_data k !! n);
  ko_data n : is_Some (rk_key_data k !! n) → is_Some (rk_versions k !! n)
}.

Record store_ok (s : KeyStore) : Prop := {
  so_keys id k : st_keys s !! id = Some k → key_ok k ∧ km_key_id (rk_metadata k) = id;
  so_policies id p : st_policies s !! id = Some p → rp_id p = id
}.

(** A key rotated to new data. *)
Definition rotated_to (now : Z) (data : list N) (k : RotatingKey) : RotatingKey :=
  let k' := (RotatingKey_rotate now k).1 in set_data k' (rk_current_version k') data.

(** Version numbers have not run out. *)
Definition room (k : RotatingKey) : Prop := rk_current_version k < u32_max.

Lemma next_version k : room k → (rk_current_version k + 1) mod 2 ^ 32 = rk_current_version k + 1.
Proof. unfold room, u32_max. intros H. apply N.mod_small. lia. Qed.

Lemma key_ok_new now id name kt data : key_ok (set_data (RotatingKey_new now id name kt) 1 data).
Proof.
  split; cbn.
  - by rewrite lookup_singleton_eq.
  - intros n v [<- <-]%lookup_singleton_Some. cbn. split_and!; [lia..|done|done|done].
  - lia.
  - intros n Hn. assert (n = 1) as -> by lia. by rewrite lookup_singleton_eq, lookup_insert_eq.
  - intros n [d [[<- _]|[_ ?%lookup_empty_Some]]%lookup_insert_Some]; [by rewrite lookup_singleton_eq|done].
Qed.

Lemma key_ok_rotated now data k : room k → key_ok k → key_ok (rotated_to now data k).
Proof.
  intros Hr [Hc Hv Hf Ha Hd]. unfold rotated_to. cbn. rewrite (next_version k Hr). split; cbn.
  - by rewrite lookup_insert_eq.
  - intros n v [[<- <-]|[Hne Hl]]%lookup_insert_Some; cbn; [split_and!; [lia..|done|done|done]|].
    destruct (decide (n = rk_current_version k)) as [->|Hn].
    + rewrite lookup_alter_eq in Hl. destruct Hc as [v0 Hc]. rewrite Hc in Hl. injection Hl as <-.
      destruct (Hv _ _ Hc) as (? & ? & ? & _). cbn. split_and!; [lia..|done|done|done].
    + rewrite lookup_alter_ne in Hl by done. destruct (Hv _ _ Hl) as (? & ? & ? & Hac).
      split_and!; [lia..|done|done|]. intros Hact. by destruct (Hac Hact).
  - lia.
  - intros n Hn. destruct (decide (n = rk_current_version k + 1)) as [->|Hne]; [by rewrite !lookup_insert_eq|].
    rewrite !lookup_insert_ne by done. destruct (Ha n ltac:(lia)). split; [by apply lookup_alter_is_Some|done].
  - intros n [d [[<- _]|[Hne Hl]]%lookup_insert_Some]; [by rewrite lookup_insert_eq|].
    rewrite lookup_insert_ne by done. apply lookup_alter_is_Some. by apply Hd.
Qed.

Lemma key_ok_revoked k : key_ok k → key_ok (RotatingKey_revoke k).
Proof.
  intros [Hc Hv Hf Ha Hd]. split; cbn.
  - rewrite lookup_fmap. by apply fmap_is_Some.
  - intros n v. rewrite lookup_fmap. intros (v0 & Hl & ->)%fmap_Some. destruct (Hv _ _ Hl) as (? & ? & ? & _).
    cbn. split_and!; [lia..|done|done|done].
  - done.
  - intros n Hn. rewrite lookup_fmap. destruct (Ha n Hn). split; [by apply fmap_is_Some|done].
  - intros n Hn. rewrite lookup_fmap. by apply fmap_is_Some, Hd.
Qed.

Lemma key_ok_metadata k m : km_key_id m = km_key_id (rk_metadata k) → key_ok k → key_ok (set_metadata k m).
Proof. intros Hm [Hc Hv Hf Ha Hd]. split; cbn; try done. by rewrite Hm. Qed.

Lemma store_ok_insert s id k :
  store_ok s → key_ok k → km_key_id (rk_metadata k) = id → store_ok (set_keys s (<[id := k]> (st_keys s))).
Proof.
  intros [Hk Hp] Hok Hid. split; cbn; [|done]. intros i k' [[<- <-]|[_ ?]]%lookup_insert_Some; [done|by apply Hk].
Qed.

Lemma store_ok_record now s o : store_ok s → store_ok (record_policy now s o).
Proof.
  intros [Hk Hp]. destruct o as [pid|]; [|done]. split; cbn; [done|]. intros id p.
  destruct (decide (id = pid)) as [->|]; [|rewrite lookup_alter_ne by done; apply Hp].
  rewrite lookup_alter_eq. intros (p0 & Hl & ->)%fmap_Some. cbn. by apply Hp.
Qed.

Lemma store_ok_add s p : store_ok s → store_ok (add_policy s p).
Proof.
  intros [Hk Hp]. split; cbn; [done|]. intros id p' [[<- <-]|[_ ?]]%lookup_insert_Some; [done|by apply Hp].
Qed.

(** ** One round of due rotations *)

Definition has_policy (pid : string) (k : RotatingKey) : bool :=
  bool_decide (km_rotation_policy (rk_metadata k) = Some pid).

Section Due.
Context (now : Z) (rnd : string → option (list N)) (Hrnd : ∀ id, is_Some (rnd id)).

Definition rotate_with (id : string) (k : RotatingKey) : RotatingKey :=
  rotated_to now (default [] (rnd id)) k.

Lemma rotate_keys_spec pid ids s rot :
  NoDup ids →
  ∃ s' rot', rotate_keys now rnd pid ids s rot = (s', Ok rot') ∧ st_policies s' = st_policies s ∧
    (∀ id, st_keys s' !! id =
       (λ k, if bool_decide (id ∈ ids) && has_policy pid k then rotate_with id k else k) <$> st_keys s !! id) ∧
    (∀ id, id ∈ rot' ↔ id ∈ rot ∨ (id ∈ ids ∧ has_policy pid <$> st_keys s !! id = Some true)).
Proof.
  revert s rot. induction ids as [|i ids IH]; intros s rot; cbn [rotate_keys].
  - intros _. exists s, rot. split_and!; [done|done| |set_solver].
    intros id. rewrite bool_decide_false by set_solver. by destruct (st_keys s !! id).
  - intros [Hi Hn]%NoDup_cons.
    assert (has_policy pid <$> st_keys s !! i ≠ Some true →
      ∃ s' rot', rotate_keys now rnd pid ids s rot = (s', Ok rot') ∧ st_policies s' = st_policies s ∧
        (∀ id, st_keys s' !! id =
           (λ k, if bool_decide (id ∈ i :: ids) && has_policy pid k then rotate_with id k else k) <$> st_keys s !! id) ∧
        (∀ id, id ∈ rot' ↔ id ∈ rot ∨ (id ∈ i :: ids ∧ has_policy pid <$> st_keys s !! id = Some true))) as Hskip.
    { intros Hno. destruct (IH s rot Hn) as (s' & rot' & He & Hp & Hk & Hr). exists s', rot'. split_and!; [done..| |].
      - intros id. rewrite Hk. destruct (decide (id = i)) as [->|Hne].
        + destruct (st_keys s !! i) as [k|]; [|done]. cbn in *. destruct (has_policy pid k); [done|].
          by rewrite !andb_false_r.
        + by rewrite (bool_decide_ext (id ∈ i :: ids) (id ∈ ids)) by set_solver.
      - intros id. rewrite Hr. destruct (decide (id = i)) as [->|]; set_solver. }
    destruct (st_keys s !! i) as [k|] eqn:Ek; [|by apply Hskip].
    fold (has_policy pid k). destruct (has_policy pid k) eqn:Ep; [|apply Hskip; cbn; congruence]. clear Hskip.
    destruct (Hrnd i) as [d Ed]. rewrite Ed.
    destruct (IH (set_keys s (<[i := rotated_to now d k]> (st_keys s))) (rot ++ [i]) Hn) as (s' & rot' & He & Hp & Hk & Hr).
    exists s', rot'. split_and!; [exact He|done| |].
    + intros id. rewrite Hk. cbn. destruct (decide (id = i)) as [->|Hne].
      * rewrite lookup_insert_eq, Ek. cbn. rewrite bool_decide_false by done. rewrite bool_decide_true by set_solver.
        rewrite Ep. cbn. unfold rotate_with. by rewrite Ed.
      * rewrite lookup_insert_ne by done. by rewrite (bool_decide_ext (id ∈ i :: ids) (id ∈ ids)) by set_solver.
    + intros id. rewrite Hr. cbn. destruct (decide (id = i)) as [->|Hne].
      * rewrite Ek. cbn. rewrite Ep. set_solver.
      * rewrite lookup_insert_ne by done. set_solver.
Qed.

(** ... over all policies that are due. *)
Definition under (due : list string) (k : RotatingKey) : bool :=
  existsb (λ pid, has_policy pid k) due.
#[local] Arguments under : simpl never.

Lemma rotate_with_policy id k : km_rotation_policy (rk_metadata (rotate_with id k)) = km_rotation_policy (rk_metadata k).
Proof. done. Qed.

Lemma under_cons pid due k : under (pid :: due) k = has_policy pid k || under due k.
Proof. done. Qed.

Lemma under_excl pid due k : pid ∉ due → has_policy pid k = true → under due k = false.
Proof.
  intros Hn Hp%bool_decide_eq_true. unfold under. apply not_true_is_false. intros (q & Hq & He)%existsb_exists.
  apply bool_decide_eq_true in He. rewrite Hp in He. injection He as <-. by apply Hn, list_elem_of_In.
Qed.

Lemma rotate_policies_spec due s rot :
  NoDup due →
  ∃ s' rot', rotate_policies now rnd due s rot = (s', Ok rot') ∧
    (∀ id, st_keys s' !! id = (λ k, if under due k then rotate_with id k else k) <$> st_keys s !! id) ∧
    (∀ id, st_policies s' !! id =
       (λ p, if bool_decide (id ∈ due) then record_rotation now p else p) <$> st_policies s !! id) ∧
    (∀ id, id ∈ rot' ↔ id ∈ rot ∨ under due <$> st_keys s !! id = Some true).
Proof.
  revert s rot. induction due as [|pid due IH]; intros s rot; cbn [rotate_policies].
  - intros _. exists s, rot. split_and!; [done| | |].
    + intros id. by destruct (st_keys s !! id).
    + intros id. rewrite bool_decide_false by set_solver. by destruct (st_policies s !! id).
    + intros id. assert (under [] <$> st_keys s !! id ≠ Some true) by (by destruct (st_keys s !! id)). tauto.
  - intros [Hi Hn]%NoDup_cons.
    destruct (rotate_keys_spec pid (fst <$> map_to_list (st_keys s)) s rot (NoDup_fst_map_to_list _))
      as (s1 & rot1 & -> & Hp1 & Hk1 & Hr1).
    destruct (IH (record_policy now s1 (Some pid)) rot1 Hn) as (s' & rot' & -> & Hk & Hp & Hr).
    assert (∀ id k, st_keys s !! id = Some k → bool_decide (id ∈ fst <$> map_to_list (st_keys s)) = true) as Hall.
    { intros id k Hl. apply bool_decide_eq_true, list_elem_of_fmap. exists (id, k). by rewrite elem_of_map_to_list. }
    exists s', rot'. split_and!; [done| | |].
    + intros id. rewrite Hk. cbn [record_policy set_policies st_keys]. rewrite Hk1.
      destruct (st_keys s !! id) as [k|] eqn:El; [|done]. cbn. rewrite (Hall id k El), under_cons. cbn.
      destruct (has_policy pid k) eqn:Eh; [|done]. cbn.
      assert (under due (rotate_with id k) = under due k) as -> by done. by rewrite (under_excl pid).
    + intros id. rewrite Hp. cbn [record_policy set_policies st_policies]. rewrite Hp1.
      destruct (decide (id = pid)) as [->|Hne].
      * rewrite lookup_alter_eq. rewrite bool_decide_false by done. rewrite bool_decide_true by set_solver.
        by destruct (st_policies s !! pid).
      * rewrite lookup_alter_ne by done. by rewrite (bool_decide_ext (id ∈ pid :: due) (id ∈ due)) by set_solver.
    + intros id. rewrite Hr, Hr1. cbn [record_policy set_policies st_keys]. rewrite Hk1.
      destruct (st_keys s !! id) as [k|] eqn:El; cbn.
      * rewrite (Hall id k El), under_cons. pose proof (proj1 (bool_decide_eq_true _) (Hall id k El)) as Hin.
        destruct (has_policy pid k) eqn:Eh; cbn.
        -- assert (under due (rotate_with id k) = under due k) as -> by done. rewrite (under_excl pid) by done.
           split; [intros [[?|_]|[=]]; auto|intros [?|_]; auto].
        -- split; [intros [[?|[_ [=]]]|?]; auto|intros [?|?]; auto].
      * split; [intros [[?|[_ [=]]]|[=]]; auto|intros [?|[=]]; auto].
Qed.
End Due.

(** The policy of a key is due. *)
Definition key_due (now : Z) (s : KeyStore) (k : RotatingKey) : bool :=
  match km_rotation_policy (rk_metadata k) ≫= λ pid, st_policies s !! pid with
  | Some p => is_rotation_due now p
  | None => false
  end.

Section DuePolicies.
Context (now : Z) (s : KeyStore) (Hs : store_ok s).

Lemma due_policies_fst :
  due_policies now s = fst <$> filter (λ p, is_rotation_due now p.2 = true) (map_to_list (st_policies s)).
Proof.
  unfold due_policies. apply list_fmap_ext. intros i [pid p] Hl%list_elem_of_lookup_2.
  apply list_elem_of_filter in Hl as [_ Hin%elem_of_map_to_list]. by apply (so_policies _ Hs).
Qed.

Lemma due_policies_nodup : NoDup (due_policies now s).
Proof. rewrite due_policies_fst. apply NoDup_fmap_filter, NoDup_fst_map_to_list. Qed.

Lemma elem_of_due_policies pid :
  pid ∈ due_policies now s ↔ ∃ p, st_policies s !! pid = Some p ∧ is_rotation_due now p = true.
Proof.
  rewrite due_policies_fst, list_elem_of_fmap. split.
  - intros ([q p] & -> & [Hd Hin%elem_of_map_to_list]%list_elem_of_filter). eauto.
  - intros (p & Hl & Hd). exists (pid, p). split; [done|]. apply list_elem_of_filter.
    by rewrite elem_of_map_to_list.
Qed.

Lemma under_due k : under (due_policies now s) k = key_due now s k.
Proof.
  unfold under, key_due. apply Bool.eq_iff_eq_true. rewrite existsb_exists. split.
  - intros (pid & Hin%list_elem_of_In & Hp%bool_decide_eq_true). rewrite Hp. cbn.
    apply elem_of_due_policies in Hin as (p & -> & ?). done.
  - destruct (km_rotation_policy (rk_metadata k)) as [pid|] eqn:Ep; cbn; [|done].
    destruct (st_policies s !! pid) as [p|] eqn:El; [|done]. intros Hd. exists pid. split.
    + apply list_elem_of_In, elem_of_due_policies. eauto.
    + unfold has_policy. by rewrite Ep, bool_decide_true.
Qed.
End DuePolicies.

Lemma store_ok_create now id s name kt data pol : store_ok s → store_ok (create_key now id s name kt data pol).1.
Proof.
  intros Hs. unfold create_key. destruct pol as [p|]; cbn.
  - apply (store_ok_insert (set_policies s _)); [by apply store_ok_add| |done].
    apply key_ok_metadata; [done|apply key_ok_new].
  - by apply store_ok_insert; [|apply key_ok_new|].
Qed.

Lemma process_due_effect now rnd s :
  store_ok s → (∀ id, is_Some (rnd id)) →
  ∃ s' rot, process_due_rotations now rnd s = (s', Ok rot) ∧
    (∀ id, st_keys s' !! id = (λ k, if key_due now s k then rotate_with now rnd id k else k) <$> st_keys s !! id) ∧
    (∀ id, st_policies s' !! id =
       (λ p, if is_rotation_due now p then record_rotation now p else p) <$> st_policies s !! id) ∧
    (∀ id, id ∈ rot ↔ ∃ k, st_keys s !! id = Some k ∧ key_due now s k = true).
Proof.
  intros Hs Hrnd.
  destruct (rotate_policies_spec now rnd Hrnd (due_policies now s) s [] (due_policies_nodup now s Hs))
    as (s' & rot & He & Hk & Hp & Hr).
  exists s', rot. split_and!; [exact He| | |].
  - intros id. rewrite Hk. destruct (st_keys s !! id); [|done]. cbn. by rewrite under_due.
  - intros id. rewrite Hp. destruct (st_policies s !! id) as [p|] eqn:El; [|done]. cbn.
    destruct (is_rotation_due now p) eqn:Ed.
    + rewrite bool_decide_true; [done|]. apply elem_of_due_policies; eauto.
    + rewrite bool_decide_false; [done|]. rewrite elem_of_due_policies by done. intros (p' & El' & Hd). congruence.
  - intros id. rewrite Hr. destruct (st_keys s !! id) as [k|]; cbn.
    + rewrite under_due by done. rewrite elem_of_nil. split; [intros [[]|[= ?]]; eauto|].
      intros (k' & [= <-] & ->). by right.
    + rewrite elem_of_nil. split; [intros [[]|[=]]|intros (? & [=] & _)].
Qed.

(** Whatever the random generator does, a round rotates a key at most once. *)
Lemma rotate_keys_each now rnd pid ids s rot :
  NoDup ids → let s' := (rotate_keys now rnd pid ids s rot).1 in
  st_policies s' = st_policies s ∧
  ∀ id, st_keys s' !! id = st_keys s !! id ∨
    ∃ k d, id ∈ ids ∧ st_keys s !! id = Some k ∧ has_policy pid k = true ∧ st_keys s' !! id = Some (rotated_to now d k).
Proof.
  revert s rot. induction ids as [|i ids IH]; intros s rot; cbn [rotate_keys]; [intros _; split; [done|by left]|].
  intros [Hi Hn]%NoDup_cons.
  assert (let s' := (rotate_keys now rnd pid ids s rot).1 in st_policies s' = st_policies s ∧
    ∀ id, st_keys s' !! id = st_keys s !! id ∨
      ∃ k d, id ∈ i :: ids ∧ st_keys s !! id = Some k ∧ has_policy pid k = true ∧ st_keys s' !! id = Some (rotated_to now d k)) as Hskip.
  { destruct (IH s rot Hn) as [Hp Hk]. split; [done|]. intros id. destruct (Hk id) as [?|(k & d & ? & ?)]; [by left|]. right. exists k, d. set_solver. }
  destruct (st_keys s !! i) as [k|] eqn:Ek; [|done]. destruct (bool_decide _) eqn:Ep; [|done]. destruct (rnd i) as [d|]; [|split; [done|by left]].
  destruct (IH (set_keys s (<[i := rotated_to now d k]> (st_keys s))) (rot ++ [i]) Hn) as [Hp Hk]. split; [exact Hp|]. intros id.
  specialize (Hk id). cbn [set_keys st_keys] in Hk. destruct (decide (id = i)) as [->|Hne].
  - right. exists k, d. destruct Hk as [Hk|(? & ? & ? & _)]; [|done]. rewrite lookup_insert_eq in Hk. split_and!; [set_solver|done|done|exact Hk].
  - rewrite lookup_insert_ne in Hk by done. destruct Hk as [?|(k' & d' & ? & ?)]; [by left|]. right. exists k', d'. set_solver.
Qed.

Lemma rotate_policies_each now rnd due s rot :
  NoDup due → let s' := (rotate_policies now rnd due s rot).1 in
  (∀ id p', st_policies s' !! id = Some p' → ∃ p, st_policies s !! id = Some p ∧ rp_id p' = rp_id p) ∧
  ∀ id, st_keys s' !! id = st_keys s !! id ∨
    ∃ k d, st_keys s !! id = Some k ∧ under due k = true ∧ st_keys s' !! id = Some (rotated_to now d k).
Proof.
  revert s rot. induction due as [|pid due IH]; intros s rot; cbn [rotate_policies]; [intros _; split; [eauto|by left]|].
  intros [Hi Hn]%NoDup_cons.
  destruct (rotate_keys_each now rnd pid (fst <$> map_to_list (st_keys s)) s rot (NoDup_fst_map_to_list _)) as [Hp1 Hk1].
  destruct (rotate_keys now rnd pid _ s rot) as [s1 [rot1|e]]; cbn [fst] in *.
  2: { split; [rewrite Hp1; eauto|]. intros id. destruct (Hk1 id) as [?|(k & d & _ & ? & Hh & ?)]; [by left|]. right. exists k, d. unfold under. cbn [existsb]. by rewrite Hh. }
  destruct (IH (record_policy now s1 (Some pid)) rot1 Hn) as [Hp Hk]. cbn [record_policy set_policies st_keys st_policies] in Hp, Hk. split.
  - intros id p' (p & Hl & Hid)%Hp. rewrite Hp1 in Hl. destruct (decide (id = pid)) as [->|Hne].
    + rewrite lookup_alter_eq in Hl. apply fmap_Some in Hl as (p0 & Hl & ->). exists p0. done.
    + rewrite lookup_alter_ne in Hl by done. by exists p.
  - intros id. destruct (Hk1 id) as [H1|(k & d & _ & H1 & Hh & H2)].
    + rewrite <-H1. destruct (Hk id) as [?|(k & d & ? & Hu & ?)]; [by left|]. right. exists k, d. unfold under in *. cbn [existsb]. by rewrite Hu, orb_true_r.
    + right. exists k, d. unfold under. cbn [existsb]. rewrite Hh. split_and!; [done|done|]. destruct (Hk id) as [Hx|(k' & d' & Hx & Hu & _)]; [etrans; [exact Hx|exact H2]|].
      rewrite H2 in Hx. injection Hx as <-. assert (under due (rotated_to now d k) = under due k) as He by done. rewrite He, (under_excl pid) in Hu; done.
Qed.

(** ** Runs of a store *)

Inductive KeyOp : Type :=
  | KoCreate (now : Z) (fresh_id name : string) (kt : KeyType) (data : list N) (pol : option KeyRotationPolicy)
  | KoGet (now : Z) (id : string) | KoRotate (now : Z) (id : string) (data : list N) | KoRevoke (id : string)
  | KoPolicy (p : KeyRotationPolicy) | KoDelete (id : string) | KoDue (now : Z) (rnd : string → option (list N)).

Definition key_apply (s : KeyStore) (op : KeyOp) : KeyStore :=
  match op with
  | KoCreate now id name kt data pol => (create_key now id s name kt data pol).1
  | KoGet now id => (get_active_key_data now s id).1
  | KoRotate now id data => (rotate_key now s id data).1
  | KoRevoke id => (revoke_key s id).1
  | KoPolicy p => add_policy s p
  | KoDelete id => (delete_key s id).1
  | KoDue now rnd => (process_due_rotations now rnd s).1
  end.
Definition key_run (s : KeyStore) (ops : list KeyOp) : KeyStore := foldl key_apply s ops.

(** The operation neither deletes the key nor creates one with its identifier. *)
Definition op_keeps (id : string) (op : KeyOp) : Prop :=
  match op with KoCreate _ id' _ _ _ _ | KoDelete id' => id' ≠ id | _ => True end.

(** [k'] is a later state of [k]: versions and data are only added, and what was revoked
    stays revoked. *)
Record key_later (k k' : RotatingKey) : Prop := {
  kl_current : rk_current_version k ≤ rk_current_version k' ≤ rk_current_version k + 1;
  kl_data n : n ≤ rk_current_version k → rk_key_data k' !! n = rk_key_data k !! n;
  kl_revoked n v : n ≤ rk_current_version k → rk_versions k !! n = Some v → kv_is_revoked v = true →
    ∃ v', rk_versions k' !! n = Some v' ∧ kv_is_revoked v' = true
}.

Lemma later_refl k k' : rk_current_version k' = rk_current_version k → rk_key_data k' = rk_key_data k → rk_versions k' = rk_versions k → key_later k k'.
Proof. intros H1 H2 H3. split; [lia|by rewrite H2|]. rewrite H3. eauto. Qed.

Lemma later_rotated now d k : room k → key_later k (rotated_to now d k).
Proof.
  intros Hr. unfold rotated_to. cbn. rewrite (next_version k Hr). split; cbn; [lia| |].
  - intros n Hn. by rewrite lookup_insert_ne by lia.
  - intros n v Hn Hv Hrev. rewrite lookup_insert_ne by lia. destruct (decide (n = rk_current_version k)) as [->|Hne].
    + rewrite lookup_alter_eq, Hv. by eexists.
    + rewrite lookup_alter_ne by done. eauto.
Qed.

Lemma later_revoked k : key_later k (RotatingKey_revoke k).
Proof. split; cbn; [lia|done|]. intros n v Hn Hv _. rewrite lookup_fmap, Hv. by eexists. Qed.

(** What one operation does to the keys: each is as before, taken on a step, new or gone. *)
Lemma apply_keys s op : store_ok s → map_Forall (λ _ k, room k) (st_keys s) →
  store_ok (key_apply s op) ∧
  ∀ id, match st_keys (key_apply s op) !! id with
        | Some k' => match st_keys s !! id with
                     | Some k => key_later k k' ∨ ¬ op_keeps id op ∧ rk_current_version k' = 1
                     | None => rk_current_version k' = 1
                     end
        | None => ¬ op_keeps id op ∨ st_keys s !! id = None
        end.
Proof.
  intros Hs Hroom. assert (∀ id, match st_keys s !! id with Some k' => match st_keys s !! id with Some k => key_later k k' ∨ ¬ op_keeps id op ∧ rk_current_version k' = 1 | None => rk_current_version k' = 1 end | None => ¬ op_keeps id op ∨ st_keys s !! id = None end) as Hsame.
  { intros id. destruct (st_keys s !! id); [left; by apply later_refl|by right]. }
  assert (∀ i k, st_keys s !! i = None ∧ rk_current_version k = 1 ∨ (¬ op_keeps i op ∧ rk_current_version k = 1) ∨ (∃ k0, st_keys s !! i = Some k0 ∧ key_later k0 k) →
    ∀ id, match <[i := k]> (st_keys s) !! id with Some k' => match st_keys s !! id with Some k => key_later k k' ∨ ¬ op_keeps id op ∧ rk_current_version k' = 1 | None => rk_current_version k' = 1 end | None => ¬ op_keeps id op ∨ st_keys s !! id = None end) as Hone.
  { intros i k Hk id. destruct (decide (id = i)) as [->|Hne]; [|rewrite lookup_insert_ne by done; apply Hsame]. rewrite lookup_insert_eq.
    destruct Hk as [[-> ?]|[[? ?]|(k0 & -> & ?)]]; [done| |by left]. destruct (st_keys s !! i); [by right|done]. }
  destruct op as [now i name kt data pol|now i|now i data|i|p|i|now rnd]; cbn [key_apply op_keeps] in *.
  - split; [by apply store_ok_create|]. intros id. unfold create_key. destruct pol as [p|]; cbn; apply Hone; right; left; split; try done; tauto.
  - unfold get_active_key_data. destruct (st_keys s !! i) as [k|] eqn:E; [|done]. cbn. destruct (so_keys _ Hs _ _ E). split.
    + apply store_ok_insert; [done|by apply key_ok_metadata|done].
    + apply Hone. right; right. exists k. split; [done|by apply later_refl].
  - unfold rotate_key. destruct (st_keys s !! i) as [k|] eqn:E; [|done]. cbn. destruct (so_keys _ Hs _ _ E). pose proof (Hroom i k E) as Hr. split.
    + apply store_ok_record, store_ok_insert; [done| |done]. by apply key_ok_rotated.
    + assert (∀ o m, st_keys (record_policy now m o) = st_keys m) as Hrec by (by intros []). intros id. rewrite Hrec. cbn [set_keys st_keys]. apply Hone. right; right. exists k. split; [done|].
      apply (later_rotated now data k Hr).
  - unfold revoke_key. destruct (st_keys s !! i) as [k|] eqn:E; [|done]. cbn. destruct (so_keys _ Hs _ _ E). split.
    + apply store_ok_insert; [done|by apply key_ok_revoked|done].
    + apply Hone. right; right. exists k. split; [done|apply later_revoked].
  - split; [by apply store_ok_add|done].
  - unfold delete_key. destruct (st_keys s !! i) as [k|] eqn:E; [|done]. cbn. split.
    + split; cbn; [|apply Hs]. intros j k' [_ Hl]%lookup_delete_Some. by apply (so_keys _ Hs).
    + intros id. destruct (decide (id = i)) as [->|Hne]; [rewrite lookup_delete_eq; left; tauto|rewrite lookup_delete_ne by done; apply Hsame].
  - unfold process_due_rotations. destruct (rotate_policies_each now rnd (due_policies now s) s [] (due_policies_nodup now s Hs)) as [Hp Hk].
    set (s' := (rotate_policies now rnd (due_policies now s) s []).1) in *. split.
    + split.
      * intros id k' Hl. destruct (Hk id) as [Hx|(k & d & Hx & _ & Hy)]; [apply (so_keys _ Hs); by rewrite <-Hx|]. rewrite Hl in Hy. injection Hy as ->.
        destruct (so_keys _ Hs _ _ Hx). split; [|done]. apply key_ok_rotated; [by apply (Hroom id)|done].
      * intros id p' (p & Hl & ->)%Hp. by apply (so_policies _ Hs).
    + intros id. destruct (Hk id) as [->|(k & d & Hx & _ & ->)]; [apply Hsame|]. rewrite Hx. left. apply later_rotated. by apply (Hroom id).
Qed.

(** After [n] operations no version number exceeds [n + 1]. *)
Lemma run_ok b ops : N.of_nat (length ops) < u32_max →
  store_ok (key_run (KeyStore_new b) ops) ∧ map_Forall (λ _ k, rk_current_version k ≤ N.of_nat (length ops) + 1) (st_keys (key_run (KeyStore_new b) ops)).
Proof.
  induction ops as [|op ops IH] using rev_ind; intros Hn.
  { split; [split; cbn; by intros ? ? ?%lookup_empty_Some|apply map_Forall_empty]. }
  rewrite length_app in *. cbn [length] in *. destruct IH as [Hs Hc]; [lia|]. unfold key_run in *. rewrite foldl_app. cbn [foldl].
  set (s := foldl key_apply (KeyStore_new b) ops) in *.
  destruct (apply_keys s op Hs) as [Hs' Hk]. { intros id k Hl. specialize (Hc id k Hl). cbn beta in Hc. unfold room. lia. }
  split; [done|]. intros id k' Hl. specialize (Hk id). rewrite Hl in Hk. cbn beta.
  destruct (st_keys s !! id) as [k|] eqn:E; [|lia]. specialize (Hc id k E). cbn beta in Hc. destruct Hk as [[? _ _]|[_ ?]]; lia.
Qed.

(** C13. The history of a key. After fewer than 2^32 - 1 operations on a new store, whether
    the random generator fails in them or not, every key is stored under its own
    identifier and has exactly the versions from one to the current, each numbered as it
    is stored and naming its key, and data for exactly these versions. In all further
    operations that do not delete the key or reuse its identifier it stays, its version
    number never falls, the data of every version stays what it was, and a revoked
    version stays revoked. *)
Theorem keystore_invariant b ops ops' id k :
  N.of_nat (length (ops ++ ops')) < u32_max →
  get_key (key_run (KeyStore_new b) ops) id = Ok k →
  km_key_id (rk_metadata k) = id ∧
  (∀ n, (is_Some (rk_versions k !! n) ↔ 1 ≤ n ≤ rk_current_version k) ∧ (is_Some (rk_key_data k !! n) ↔ 1 ≤ n ≤ rk_current_version k)) ∧
  (∀ n v, rk_versions k !! n = Some v → kv_version v = n ∧ kv_key_id v = id) ∧
  (Forall (op_keeps id) ops' →
   ∃ k', get_key (key_run (key_run (KeyStore_new b) ops) ops') id = Ok k' ∧ rk_current_version k ≤ rk_current_version k' ∧
     ∀ n, 1 ≤ n ≤ rk_current_version k → rk_key_data k' !! n = rk_key_data k !! n ∧
       (∀ v, rk_versions k !! n = Some v → kv_is_revoked v = true → ∃ v', rk_versions k' !! n = Some v' ∧ kv_is_revoked v' = true)).
Proof.
  intros Hn. unfold get_key. destruct (st_keys (key_run (KeyStore_new b) ops) !! id) as [k0|] eqn:Hl; [|done]. intros [= <-].
  rewrite length_app in Hn. destruct (run_ok b ops) as [Hs _]; [lia|]. destruct (so_keys _ Hs _ _ Hl) as [[Hc Hv Hf Ha Hd] Hid].
  split_and!; [done| | |].
  - intros n. split; split; try (intros Hr; by destruct (Ha n Hr)); [intros [v Hx]|intros [v Hx]%Hd]; by destruct (Hv n v Hx).
  - intros n v Hx. destruct (Hv n v Hx) as (_ & ? & ? & _). by subst id.
  - intros Hops. assert (∀ o, key_run (key_run (KeyStore_new b) ops) o = key_run (KeyStore_new b) (ops ++ o)) as Happ by (intros o; unfold key_run; by rewrite foldl_app).
    rewrite Happ. clear Happ.
    induction ops' as [|op ops' IH] using rev_ind; [rewrite app_nil_r, Hl; exists k0; split_and!; [done|done|]; eauto|].
    apply Forall_app in Hops as [Hops [Hop _]%Forall_cons]. rewrite length_app in Hn. cbn [length] in Hn.
    destruct IH as (k1 & H1 & Hle & Hold); [lia|done|]. destruct (st_keys (key_run (KeyStore_new b) (ops ++ ops')) !! id) as [k1'|] eqn:E1; [|done]. injection H1 as ->.
    destruct (run_ok b (ops ++ ops')) as [Hs1 Hc1]; [rewrite length_app; lia|]. rewrite length_app in Hc1.
    unfold key_run in *. rewrite app_assoc, foldl_app. cbn [foldl]. set (s1 := foldl key_apply (KeyStore_new b) (ops ++ ops')) in *.
    destruct (apply_keys s1 op Hs1) as [_ Hk]. { intros i k Hi. specialize (Hc1 i k Hi). cbn beta in Hc1. unfold room. lia. }
    specialize (Hk id). rewrite E1 in Hk. destruct (st_keys (key_apply s1 op) !! id) as [k2|]; [|by destruct Hk].
    destruct Hk as [[L1 L2 L3]|[? _]]; [|done]. exists k2. split_and!; [done|lia|]. intros n Hr. destruct (Hold n Hr) as [Hdat Hrev]. split.
    + rewrite L2 by lia. done.
    + intros v Hx Hy. destruct (Hrev v Hx Hy) as (v' & Hx' & Hy'). apply (L3 n v'); [lia|done|done].
Qed.

(** [rotate_key] on a key with room for a version: the next version becomes
    current and active, the one before it loses its activity, the new data is
    what the store serves, the data of every older version stays, and no other
    key changes. *)
Theorem rotate_key_spec now s id k data :
  store_ok s → st_keys s !! id = Some k → room k →
  ∃ s' v k', rotate_key now s id data = (s', Ok v) ∧ st_keys s' !! id = Some k' ∧
    kv_version v = rk_current_version k + 1 ∧ rk_current_version k' = kv_version v ∧
    RotatingKey_active_version k' = Some v ∧ RotatingKey_is_valid k' = true ∧
    (∀ n v0, rk_versions k' !! n = Some v0 → kv_is_active v0 = true → v0 = v) ∧
    (get_active_key_data now s' id).2 = Ok data ∧
    (∀ n, n ≤ rk_current_version k → rk_key_data k' !! n = rk_key_data k !! n) ∧
    (∀ id', id' ≠ id → st_keys s' !! id' = st_keys s !! id').
Proof.
  intros Hs Hl Hroom. unfold rotate_key. rewrite Hl. cbn. rewrite (next_version k Hroom).
  set (v := mkKeyVersion _ _ _ _ _ _ _). set (k' := set_data _ _ data).
  assert (∀ o m, st_keys (record_policy now m o) = st_keys m) as Hrec by (by intros []).
  pose proof (key_ok_rotated now data k Hroom (proj1 (so_keys _ Hs _ _ Hl))) as Hok.
  unfold rotated_to in Hok. cbn in Hok. rewrite (next_version k Hroom) in Hok. fold v in Hok.
  assert (rk_versions k' !! (rk_current_version k + 1) = Some v) as Hv by (cbn; by rewrite lookup_insert_eq).
  eexists _, v, k'. split; [done|]. rewrite Hrec. cbn [set_keys st_keys]. rewrite lookup_insert_eq. split_and!; try done.
  - apply existsb_exists. exists (rk_current_version k + 1, v). split; [|done].
    by apply list_elem_of_In, elem_of_map_to_list.
  - intros n v0 Hv0 Hact. destruct (ko_versions _ Hok n v0 Hv0) as (_ & _ & _ & Ha).
    destruct (Ha Hact) as [Hn _]. cbn in Hn. subst n. rewrite Hv in Hv0. by injection Hv0.
  - unfold get_active_key_data. rewrite Hrec. cbn [set_keys st_keys]. rewrite lookup_insert_eq. cbn.
    by rewrite lookup_insert_eq.
  - intros n Hn. cbn. rewrite lookup_insert_ne by lia. done.
  - intros id' Hne. by rewrite lookup_insert_ne.
Qed.

(** When the random generator works, [process_due_rotations] rotates exactly
    the keys whose policy is enabled and due, each once and to the data drawn for
    it, reports exactly their ids, and schedules exactly the due policies anew. *)
Theorem process_due_spec now rnd s :
  store_ok s → (∀ id, is_Some (rnd id)) →
  ∃ s' rot, process_due_rotations now rnd s = (s', Ok rot) ∧
    (∀ id, st_keys s' !! id =
       (λ k, if key_due now s k then rotated_to now (default [] (rnd id)) k else k) <$> st_keys s !! id) ∧
    (∀ id, st_policies s' !! id =
       (λ p, if is_rotation_due now p then record_rotation now p else p) <$> st_policies s !! id) ∧
    (∀ id, id ∈ rot ↔ ∃ k, st_keys s !! id = Some k ∧ key_due now s k = true).
Proof. apply process_due_effect. Qed.

(** ** What revocation does not do *)

(** The data of a revoked key is served as before. *)
Lemma revoked_key_served now s id :
  (get_active_key_data now (revoke_key s id).1 id).2 = (get_active_key_data now s id).2.
Proof.
  unfold revoke_key. destruct (st_keys s !! id) as [k|] eqn:E; [|done]. unfold get_active_key_data.
  cbn. by rewrite lookup_insert_eq, E.
Qed.

(** Rotating a revoked key, by hand or because its policy is due, makes it valid
    again. *)
Lemma rotation_revives now data k : RotatingKey_is_valid (rotated_to now data (RotatingKey_revoke k)) = true.
Proof.
  apply existsb_exists. unfold rotated_to. cbn. set (v := mkKeyVersion _ _ _ _ _ true false).
  exists ((rk_current_version k + 1) mod 2 ^ 32, v). split; [|done].
  apply list_elem_of_In, elem_of_map_to_list. by rewrite lookup_insert_eq.
Qed.

(** Rotating one key of a policy puts off the rotation of its other keys. *)
Lemma rotation_postpones_others now s id id' k k' pid p data s' v :
  st_keys s !! id = Some k → st_keys s !! id' = Some k' → id' ≠ id →
  km_rotation_policy (rk_metadata k) = Some pid → km_rotation_policy (rk_metadata k') = Some pid →
  st_policies s !! pid = Some p → (0 < rp_rotation_interval p)%Z → is_rotation_due now p = true →
  rotate_key now s id data = (s', Ok v) →
  key_due now s k' = true ∧ st_keys s' !! id' = Some k' ∧ key_due now s' k' = false.
Proof.
  intros Hl Hl' Hne Hp Hp' Hpol Hint Hdue. unfold rotate_key. rewrite Hl. cbn. rewrite Hp. intros [= <- _].
  unfold key_due. rewrite Hp'. cbn. rewrite lookup_alter_eq, Hpol, lookup_insert_ne by done.
  cbn. split_and!; [done|done|]. unfold is_rotation_due. cbn. destruct (rp_enabled p); [|done]. cbn.
  apply Z.leb_gt. lia.
Qed.

(** ** A concrete store *)

Definition ex_policy : KeyRotationPolicy := KeyRotationPolicy_new 0 "p" "daily" KtSymmetric 10.
Definition ex_store : KeyStore :=
  (create_key 0 "k" KeyStore_memory "name" KtSymmetric [1; 2] (Some ex_policy)).1.

Lemma ex_store_ok : store_ok ex_store.
Proof. apply (run_ok BkMemory [KoCreate 0 "k" "name" KtSymmetric [1; 2] (Some ex_policy)]). done. Qed.

Lemma keystore_invariant_witness :
  ∃ k k', get_key ex_store "k" = Ok k ∧ get_key (key_run ex_store [KoRevoke "k"; KoRotate 5 "k" [3]]) "k" = Ok k' ∧
    rk_key_data k' !! 1 = Some [1; 2] ∧ rk_current_version k ≤ rk_current_version k'.
Proof.
  eexists. destruct (keystore_invariant BkMemory [KoCreate 0 "k" "name" KtSymmetric [1; 2] (Some ex_policy)] [KoRevoke "k"; KoRotate 5 "k" [3]] "k" _ eq_refl eq_refl)
    as (_ & _ & _ & H).
  destruct H as (k' & H1 & H2 & H3); [repeat constructor|].
  exists k'. split_and!; [reflexivity|exact H1| |exact H2]. rewrite (proj1 (H3 1 ltac:(vm_compute; split; discriminate))). reflexivity.
Defined.

Lemma rotate_key_spec_witness :
  ∃ s' v k', rotate_key 5 ex_store "k" [3] = (s', Ok v) ∧ st_keys s' !! "k" = Some k' ∧
    kv_version v = 2 ∧ (get_active_key_data 5 s' "k").2 = Ok [3].
Proof.
  destruct (rotate_key_spec 5 ex_store "k"
    (default (RotatingKey_new 0 "" "" KtHmac) (st_keys ex_store !! "k")) [3] ex_store_ok)
    as (s' & v & k' & H1 & H2 & H3 & _ & _ & _ & _ & H4 & _); [vm_compute; reflexivity|vm_compute; reflexivity|].
  exists s', v, k'. split_and!; [exact H1|exact H2|exact H3|exact H4].
Defined.

Lemma process_due_spec_witness :
  ∃ s' rot, process_due_rotations 10 (λ _, Some [9]) ex_store = (s', Ok rot) ∧ "k" ∈ rot.
Proof.
  destruct (process_due_spec 10 (λ _, Some [9]) ex_store ex_store_ok) as (s' & rot & H1 & _ & _ & H2); [by eauto|].
  exists s', rot. split; [exact H1|]. apply H2.
  exists (default (RotatingKey_new 0 "" "" KtHmac) (st_keys ex_store !! "k")). split; vm_compute; reflexivity.
Defined.
