(* ===== verification/Intrusion.v ===== *)
(** * Intrusion detection ([crates/a3net-security/src/intrusion.rs])

    The detector keeps five tables, each under its own [RwLock] of [tokio], and
    its operations hold one lock while they take others. An operation is a value
    of the monad [Locked]: it runs with the locks its callers hold, changes the
    tables, logs every acquisition and release, and is [Stuck] when it waits for
    a lock that the same task holds, which [tokio] never grants. Times are
    nanoseconds; one operation reads the clock once. Fresh event ids and the text
    of a float are arguments. *)
From Stdlib Require Import ssreflect.
From stdpp Require Import prelude strings gmap list.
From Stdlib Require Import NArith ZArith Lia.
From S2P Require Import Prelude Floats SecError.

#[local] Open Scope N_scope.
#[local] Open Scope general_if_scope.

(** ** Threats and events *)

Inductive ThreatLevel : Type := LvInfo | LvLow | LvMedium | LvHigh | LvCritical.

(** The discriminant, which the derived order compares. *)
Definition level_num (l : ThreatLevel) : N :=
  match l with LvInfo => 0 | LvLow => 1 | LvMedium => 2 | LvHigh => 3 | LvCritical => 4 end.

Definition level_leb (a b : ThreatLevel) : bool := level_num a <=? level_num b.

Definition requires_action (l : ThreatLevel) : bool :=
  match l with LvHigh | LvCritical => true | _ => false end.

Definition level_description (l : ThreatLevel) : string :=
  match l with
  | LvInfo => "Informational event"
  | LvLow => "Minor anomaly detected"
  | LvMedium => "Suspicious activity"
  | LvHigh => "Potential attack detected"
  | LvCritical => "Active threat confirmed"
  end.

Inductive ThreatType : Type :=
| BruteForce | CredentialStuffing | TrafficAnomaly | PortScan | DosAttack | IntrusionAttempt
| DataExfiltration | MalwareActivity | SocialEngineering | UnknownThreat.

Definition default_level (t : ThreatType) : ThreatLevel :=
  match t with
  | BruteForce => LvHigh
  | CredentialStuffing => LvCritical
  | TrafficAnomaly => LvMedium
  | PortScan => LvLow
  | DosAttack => LvHigh
  | IntrusionAttempt => LvCritical
  | DataExfiltration => LvCritical
  | MalwareActivity => LvCritical
  | SocialEngineering => LvMedium
  | UnknownThreat => LvInfo
  end.

Inductive SecurityEventType : Type :=
| EvLoginAttempt | EvLoginSuccess | EvLoginFailure | EvLogout | EvPermissionDenied | EvResourceAccess
| EvDataModification | EvConfigurationChange | EvKeyGeneration | EvKeyRotation | EvSessionCreation
| EvSessionTermination | EvNetworkConnection | EvNetworkDisconnection | EvFileAccess | EvFileModification
| EvFileDeletion | EvError | EvWarning | EvAnomalyDetected | EvThreatDetected.

(** The derived [Debug], under which samples of the type are kept. *)
Definition event_type_debug (t : SecurityEventType) : string :=
  match t with
  | EvLoginAttempt => "LoginAttempt"
  | EvLoginSuccess => "LoginSuccess"
  | EvLoginFailure => "LoginFailure"
  | EvLogout => "Logout"
  | EvPermissionDenied => "PermissionDenied"
  | EvResourceAccess => "ResourceAccess"
  | EvDataModification => "DataModification"
  | EvConfigurationChange => "ConfigurationChange"
  | EvKeyGeneration => "KeyGeneration"
  | EvKeyRotation => "KeyRotation"
  | EvSessionCreation => "SessionCreation"
  | EvSessionTermination => "SessionTermination"
  | EvNetworkConnection => "NetworkConnection"
  | EvNetworkDisconnection => "NetworkDisconnection"
  | EvFileAccess => "FileAccess"
  | EvFileModification => "FileModification"
  | EvFileDeletion => "FileDeletion"
  | EvError => "Error"
  | EvWarning => "Warning"
  | EvAnomalyDetected => "AnomalyDetected"
  | EvThreatDetected => "ThreatDetected"
  end.

(** The JSON values the detector itself puts into the details. *)
Inductive JsonValue : Type := JString (s : string) | JNumber (n : N).

Record SecurityEvent : Type := mkEvent {
  ev_id : string;
  ev_event_type : SecurityEventType;
  ev_threat_level : ThreatLevel;
  ev_threat_type : option ThreatType;
  ev_source_ip : option string;
  ev_target_id : option string;
  ev_description : string;
  ev_details : gmap string JsonValue;
  ev_timestamp : Z;
  ev_resolved : bool;
  ev_resolved_at : option Z
}.

Definition SecurityEvent_new (now : Z) (id : string) (event_type : SecurityEventType) (level : ThreatLevel)
    (description : string) : SecurityEvent :=
  {| ev_id := id; ev_event_type := event_type; ev_threat_level := level; ev_threat_type := None;
     ev_source_ip := None; ev_target_id := None; ev_description := description; ev_details := ∅;
     ev_timestamp := now; ev_resolved := false; ev_resolved_at := None |}.

Definition SecurityEvent_resolve (now : Z) (e : SecurityEvent) : SecurityEvent :=
  {| ev_id := ev_id e; ev_event_type := ev_event_type e; ev_threat_level := ev_threat_level e;
     ev_threat_type := ev_threat_type e; ev_source_ip := ev_source_ip e; ev_target_id := ev_target_id e;
     ev_description := ev_description e; ev_details := ev_details e; ev_timestamp := ev_timestamp e;
     ev_resolved := true; ev_resolved_at := Some now |}.

(** ** Scores and patterns *)

Record AnomalyScore : Type := mkScore {
  as_value : f64; as_components : gmap string f64; as_threshold : f64; as_is_anomaly : bool
}.

Definition AnomalyScore_new (value threshold : f64) : AnomalyScore :=
  mkScore value ∅ threshold (f64_gtb value threshold).

Definition AnomalyScore_with_component (s : AnomalyScore) (name : string) (value : f64) : AnomalyScore :=
  mkScore (as_value s) (<[name := value]> (as_components s)) (as_threshold s) (as_is_anomaly s).

Inductive ThreatPatternType : Type := PtSimple | PtRateBased | PtThresholdBased | PtBehavioral | PtMachineLearning.

Inductive ThreatCondition : Type :=
| CondThreshold (metric operator : string) (value : f64)
| CondRateLimit (window : Z) (max_count : N)
| CondSequence (events : list SecurityEventType) (window : Z)
| CondGeoRestriction (blocked_countries : list string).

Record ThreatPattern : Type := mkPattern {
  tp_id : string;
  tp_name : string;
  tp_description : string;
  tp_pattern_type : ThreatPatternType;
  tp_regex : option string;
  tp_conditions : list ThreatCondition;
  tp_threat_type : ThreatType;
  tp_base_score : f64;
  tp_enabled : bool
}.

(** The literal [0.5]. *)
Definition f64_half : f64 := f64_div (f64_of 1) (f64_of 2).

Definition ThreatPattern_new (id name : string) (t : ThreatType) : ThreatPattern :=
  mkPattern id name "" PtSimple None [] t f64_half true.

Definition ThreatPattern_with_condition (p : ThreatPattern) (c : ThreatCondition) : ThreatPattern :=
  mkPattern (tp_id p) (tp_name p) (tp_description p) (tp_pattern_type p) (tp_regex p) (tp_conditions p ++ [c])
    (tp_threat_type p) (tp_base_score p) (tp_enabled p).

Definition ThreatPattern_with_score (p : ThreatPattern) (score : f64) : ThreatPattern :=
  mkPattern (tp_id p) (tp_name p) (tp_description p) (tp_pattern_type p) (tp_regex p) (tp_conditions p)
    (tp_threat_type p) (f64_clamp score (f64_of 0) (f64_of 1)) (tp_enabled p).

(** ** Configuration and state *)

Definition minutes (n : Z) : Z := (n * 60 * 1000000000)%Z.
Definition hours (n : Z) : Z := minutes (60 * n).
Definition days (n : Z) : Z := hours (24 * n).

Record IntrusionConfig : Type := mkConfig {
  ic_anomaly_threshold : f64;
  ic_rate_window : Z;
  ic_max_failed_logins : N;
  ic_lockout_duration : Z;
  ic_auto_block : bool;
  ic_block_duration : Z;
  ic_pattern_matching : bool;
  ic_cleanup_interval : Z;
  ic_retention_period : Z
}.

Definition IntrusionConfig_default : IntrusionConfig :=
  {| ic_anomaly_threshold := f64_div (f64_of 7) (f64_of 10); ic_rate_window := minutes 15;
     ic_max_failed_logins := 5; ic_lockout_duration := minutes 30; ic_auto_block := true;
     ic_block_duration := hours 1; ic_pattern_matching := true; ic_cleanup_interval := hours 1;
     ic_retention_period := days 90 |}.

Record MetricSample : Type := mkSample { ms_value : f64; ms_timestamp : Z }.

Record BlockInfo : Type := mkBlock {
  bi_blocked_at : Z; bi_expires_at : Z; bi_reason : string; bi_threat_level : ThreatLevel
}.

Record FailedAttemptTracker : Type := mkAttempts { fa_attempts : list Z; fa_locked_until : option Z }.

Record IntrusionDetector : Type := mkDetector {
  id_config : IntrusionConfig;
  id_patterns : list ThreatPattern;
  id_events : list SecurityEvent;
  id_metrics : gmap string (list MetricSample);
  id_blocked_ips : gmap string BlockInfo;
  id_failed_attempts : gmap string FailedAttemptTracker
}.

Definition IntrusionDetector_new (config : IntrusionConfig) : IntrusionDetector :=
  mkDetector config [] [] ∅ ∅ ∅.
Definition IntrusionDetector_default_config : IntrusionDetector := IntrusionDetector_new IntrusionConfig_default.

Definition set_patterns (d : IntrusionDetector) (p : list ThreatPattern) : IntrusionDetector :=
  mkDetector (id_config d) p (id_events d) (id_metrics d) (id_blocked_ips d) (id_failed_attempts d).
Definition set_events (d : IntrusionDetector) (e : list SecurityEvent) : IntrusionDetector :=
  mkDetector (id_config d) (id_patterns d) e (id_metrics d) (id_blocked_ips d) (id_failed_attempts d).
Definition set_metrics (d : IntrusionDetector) (m : gmap string (list MetricSample)) : IntrusionDetector :=
  mkDetector (id_config d) (id_patterns d) (id_events d) m (id_blocked_ips d) (id_failed_attempts d).
Definition set_blocked (d : IntrusionDetector) (b : gmap string BlockInfo) : IntrusionDetector :=
  mkDetector (id_config d) (id_patterns d) (id_events d) (id_metrics d) b (id_failed_attempts d).
Definition set_attempts (d : IntrusionDetector) (a : gmap string FailedAttemptTracker) : IntrusionDetector :=
  mkDetector (id_config d) (id_patterns d) (id_events d) (id_metrics d) (id_blocked_ips d) a.

(** ** Operations under locks *)

Inductive LockName : Type := LPatterns | LEvents | LMetrics | LBlocked | LAttempts.
Inductive LockMode : Type := Read | Write.

#[global] Instance LockName_eq_dec : EqDecision LockName.
Proof. solve_decision. Defined.
#[global] Instance LockMode_eq_dec : EqDecision LockMode.
Proof. solve_decision. Defined.

Inductive LockAct : Type := Acq (l : LockName) (m : LockMode) | Rel (l : LockName).

Inductive outcome (A : Type) : Type :=
| Done (a : A) (d : IntrusionDetector) (log : list LockAct)
| Stuck (l : LockName) (log : list LockAct).
Arguments Done {A} a d log.
Arguments Stuck {A} l log.

Definition Locked (A : Type) : Type := list (LockName * LockMode) → IntrusionDetector → outcome A.

#[global] Instance Locked_ret : MRet Locked := λ A a _ d, Done a d [].
#[global] Instance Locked_bind : MBind Locked := λ A B f m held d,
  match m held d with
  | Done a d' g =>
      match f a held d' with
      | Done b d'' g' => Done b d'' (g ++ g')
      | Stuck l g' => Stuck l (g ++ g')
      end
  | Stuck l g => Stuck l g
  end.

Definition get_state : Locked IntrusionDetector := λ _ d, Done d d [].
Definition modify (f : IntrusionDetector → IntrusionDetector) : Locked unit := λ _ d, Done tt (f d) [].

(** Readers share a lock; a writer shares it with nobody. *)
Definition conflicts (l : LockName) (m : LockMode) (held : list (LockName * LockMode)) : bool :=
  existsb (λ p, bool_decide (p.1 = l) && (bool_decide (m = Write) || bool_decide (p.2 = Write))) held.

(** A guard that lives for [body]. *)
Definition with_lock {A} (l : LockName) (m : LockMode) (body : Locked A) : Locked A := λ held d,
  if conflicts l m held then Stuck l []
  else match body ((l, m) :: held) d with
       | Done a d' g => Done a d' (Acq l m :: g ++ [Rel l])
       | Stuck l' g => Stuck l' (Acq l m :: g)
       end.

Section Detector.
Context (show_f64 : f64 → string).

Definition add_pattern (p : ThreatPattern) : Locked unit :=
  with_lock LPatterns Write (modify (λ d, set_patterns d (id_patterns d ++ [p]))).

Definition keep_samples (cutoff : Z) (l : list MetricSample) : list MetricSample :=
  filter (λ s, cutoff < ms_timestamp s)%Z l.

Definition record_metric (now : Z) (name : string) (value : f64) : Locked unit :=
  with_lock LMetrics Write (modify (λ d,
    let samples := default [] (id_metrics d !! name) ++ [mkSample value now] in
    set_metrics d (<[name := keep_samples (now - ic_rate_window (id_config d))%Z samples]> (id_metrics d)))).

Definition block_ip (now : Z) (ip reason : string) (level : ThreatLevel) : Locked unit :=
  d ← get_state;
  if negb (ic_auto_block (id_config d)) && negb (level_leb LvHigh level) then mret tt
  else with_lock LBlocked Write (modify (λ d,
    set_blocked d (<[ip := mkBlock now (now + ic_block_duration (id_config d)) reason level]> (id_blocked_ips d)))).

Definition unblock_ip (ip : string) : Locked unit :=
  with_lock LBlocked Write (modify (λ d, set_blocked d (delete ip (id_blocked_ips d)))).

Definition handle_threat (now : Z) (event : SecurityEvent) : Locked unit :=
  d ← get_state;
  if ic_auto_block (id_config d) then
    match ev_source_ip event with
    | Some ip =>
        if level_leb LvMedium (ev_threat_level event)
        then block_ip now ip (ev_description event) (ev_threat_level event)
        else mret tt
    | None => mret tt
    end
  else mret tt.

Definition record_event (now : Z) (event : SecurityEvent) : Locked unit :=
  with_lock LEvents Write (
    modify (λ d, set_events d (id_events d ++ [event]));;
    record_metric now (event_type_debug (ev_event_type event)) (f64_of 1);;
    if level_leb LvMedium (ev_threat_level event) then handle_threat now event else mret tt).

Definition login_key (ip user_id : string) : string := ip +:+ ":" +:+ user_id.

(** One more failed attempt. *)
Definition push_attempt (now window : Z) (t : FailedAttemptTracker) : FailedAttemptTracker :=
  mkAttempts (filter (λ a, now - window < a)%Z (fa_attempts t) ++ [now]) (fa_locked_until t).

Definition lockout_event (now : Z) (fresh_id ip user_id : string) (max_failed_logins : N) : SecurityEvent :=
  let e := SecurityEvent_new now fresh_id EvWarning LvMedium
    ("Account locked due to " +:+ show_N max_failed_logins +:+ " failed login attempts") in
  {| ev_id := ev_id e; ev_event_type := ev_event_type e; ev_threat_level := ev_threat_level e;
     ev_threat_type := Some BruteForce; ev_source_ip := Some ip; ev_target_id := Some user_id;
     ev_description := ev_description e; ev_details := ev_details e; ev_timestamp := ev_timestamp e;
     ev_resolved := ev_resolved e; ev_resolved_at := ev_resolved_at e |}.

Definition record_login_attempt (now : Z) (fresh_id ip user_id : string) (success : bool)
  : Locked (result SecurityError unit) :=
  let key := login_key ip user_id in
  (if success then
     with_lock LAttempts Write (modify (λ d, set_attempts d (delete key (id_failed_attempts d))))
   else
     with_lock LAttempts Write (
       d ← get_state;
       let c := id_config d in
       let tracker := default (mkAttempts [] None) (id_failed_attempts d !! key) in
       let tracker := push_attempt now (ic_rate_window c) tracker in
       modify (λ d, set_attempts d (<[key := tracker]> (id_failed_attempts d)));;
       if (ic_max_failed_logins c <=? N.of_nat (length (fa_attempts tracker))) &&
          bool_decide (fa_locked_until tracker = None)
       then
         let locked := mkAttempts (fa_attempts tracker) (Some (now + ic_lockout_duration c)%Z) in
         modify (λ d, set_attempts d (<[key := locked]> (id_failed_attempts d)));;
         record_event now (lockout_event now fresh_id ip user_id (ic_max_failed_logins c))
       else mret tt));;
  mret (Ok tt).

Definition is_ip_blocked (now : Z) (ip : string) : Locked bool :=
  with_lock LBlocked Read (
    d ← get_state;
    mret (match id_blocked_ips d !! ip with
          | Some info => (now <? bi_expires_at info)%Z
          | None => false
          end)).

Definition analyze_anomaly (now : Z) (fresh_id : string) (score : AnomalyScore) : Locked AnomalyScore :=
  (if as_is_anomaly score then
     record_event now (SecurityEvent_new now fresh_id EvAnomalyDetected LvMedium
       ("Anomaly detected with score " +:+ show_f64 (as_value score)))
   else mret tt);;
  mret score.

Definition with_details (e : SecurityEvent) (details : gmap string JsonValue) : SecurityEvent :=
  {| ev_id := ev_id e; ev_event_type := ev_event_type e; ev_threat_level := ev_threat_level e;
     ev_threat_type := ev_threat_type e; ev_source_ip := ev_source_ip e; ev_target_id := ev_target_id e;
     ev_description := ev_description e; ev_details := details; ev_timestamp := ev_timestamp e;
     ev_resolved := ev_resolved e; ev_resolved_at := ev_resolved_at e |}.

(** The guard of the metrics lives until the end of the function. *)
Definition check_rate_limit (now : Z) (fresh_id identifier : string) (window : Z) (max_count : N) : Locked bool :=
  with_lock LMetrics Write (
    d ← get_state;
    let samples := keep_samples (now - window) (default [] (id_metrics d !! identifier)) in
    modify (λ d, set_metrics d (<[identifier := samples]> (id_metrics d)));;
    if max_count <=? N.of_nat (length samples) then
      record_event now (with_details
        (SecurityEvent_new now fresh_id EvAnomalyDetected LvMedium ("Rate limit exceeded for " +:+ identifier))
        (<["count" := JNumber (N.of_nat (length samples))]> (<["identifier" := JString identifier]> ∅)));;
      mret true
    else mret false).

Definition get_events (unresolved_only : bool) : Locked (list SecurityEvent) :=
  with_lock LEvents Read (
    d ← get_state;
    mret (if unresolved_only then filter (λ e, ev_resolved e = false) (id_events d) else id_events d)).

(** [iter_mut().find(..)]: the first event with the id. *)
Fixpoint resolve_first (now : Z) (id : string) (l : list SecurityEvent) : option (list SecurityEvent) :=
  match l with
  | [] => None
  | e :: l => if String.eqb (ev_id e) id then Some (SecurityEvent_resolve now e :: l)
              else l' ← resolve_first now id l; Some (e :: l')
  end.

Definition resolve_event (now : Z) (event_id : string) : Locked (result SecurityError unit) :=
  with_lock LEvents Write (
    d ← get_state;
    match resolve_first now event_id (id_events d) with
    | Some l => modify (λ d, set_events d l);; mret (Ok tt)
    | None => mret (Err (Internal ("Event " +:+ event_id +:+ " not found")))
    end).

Definition get_blocked_ips (now : Z) : Locked (list (string * BlockInfo)) :=
  with_lock LBlocked Read (
    d ← get_state;
    mret (filter (λ p, now < bi_expires_at p.2)%Z (map_to_list (id_blocked_ips d)))).

Record IntrusionStats : Type := mkIntrusionStats {
  is_total_events : nat;
  is_unresolved_events : nat;
  is_critical_threats : nat;
  is_blocked_ips : nat;
  is_locked_accounts : nat;
  is_last_cleanup : Z
}.

Definition detector_get_stats (now : Z) : Locked IntrusionStats :=
  with_lock LEvents Read (with_lock LBlocked Read (with_lock LAttempts Read (
    d ← get_state;
    mret {| is_total_events := length (id_events d);
            is_unresolved_events := length (filter (λ e, ev_resolved e = false) (id_events d));
            is_critical_threats := length (filter (λ e, level_num (ev_threat_level e) = 4) (id_events d));
            is_blocked_ips := size (id_blocked_ips d);
            is_locked_accounts := size (id_failed_attempts d);
            is_last_cleanup := now |}))).

Definition cleanup (now : Z) : Locked unit :=
  d ← get_state;
  let cutoff := (now - ic_retention_period (id_config d))%Z in
  with_lock LEvents Write (
    modify (λ d, set_events d (filter (λ e, cutoff < ev_timestamp e ∨ ev_resolved e = false)%Z (id_events d)));;
    with_lock LMetrics Write (
      modify (λ d, set_metrics d (keep_samples cutoff <$> id_metrics d));;
      with_lock LBlocked Write (
        modify (λ d, set_blocked d (filter (λ p, now < bi_expires_at p.2)%Z (id_blocked_ips d)));;
        with_lock LAttempts Write (
          modify (λ d, set_attempts d
            (filter (λ p, fa_attempts p.2 ≠ [])
               ((λ t, mkAttempts (filter (λ a, cutoff < a)%Z (fa_attempts t)) (fa_locked_until t))
                  <$> id_failed_attempts d))))))).
End Detector.

(** ** What the operations do, when they get their locks *)

Definition free_of (held : list (LockName * LockMode)) (ls : list LockName) : bool :=
  forallb (λ l, negb (conflicts l Write held)) ls.

Definition metric_recorded (now : Z) (name : string) (value : f64) (d : IntrusionDetector) : IntrusionDetector :=
  set_metrics d (<[name := keep_samples (now - ic_rate_window (id_config d))%Z
    (default [] (id_metrics d !! name) ++ [mkSample value now])]> (id_metrics d)).

(** The address that an event blocks. *)
Definition blocks (d : IntrusionDetector) (e : SecurityEvent) : option string :=
  if ic_auto_block (id_config d) && level_leb LvMedium (ev_threat_level e) then ev_source_ip e else None.

Definition event_recorded (now : Z) (e : SecurityEvent) (d : IntrusionDetector) : IntrusionDetector :=
  let d := metric_recorded now (event_type_debug (ev_event_type e)) (f64_of 1) (set_events d (id_events d ++ [e])) in
  match blocks d e with
  | Some ip => set_blocked d (<[ip := mkBlock now (now + ic_block_duration (id_config d)) (ev_description e)
                 (ev_threat_level e)]> (id_blocked_ips d))
  | None => d
  end.

Definition event_log (d : IntrusionDetector) (e : SecurityEvent) : list LockAct :=
  [Acq LEvents Write; Acq LMetrics Write; Rel LMetrics] ++
  (match blocks d e with Some _ => [Acq LBlocked Write; Rel LBlocked] | None => [] end) ++ [Rel LEvents].

Lemma with_lock_run {A} l m (body : Locked A) held d a d' g :
  conflicts l m held = false → body ((l, m) :: held) d = Done a d' g →
  with_lock l m body held d = Done a d' (Acq l m :: g ++ [Rel l]).
Proof. by rewrite /with_lock => -> ->. Qed.

Lemma bind_run {A B} (m : Locked A) (f : A → Locked B) held d a d' g b d'' g' :
  m held d = Done a d' g → f a held d' = Done b d'' g' → (m ≫= f) held d = Done b d'' (g ++ g').
Proof. by rewrite /mbind /Locked_bind => -> ->. Qed.

Lemma get_run {A} (f : IntrusionDetector → Locked A) held d : (get_state ≫= f) held d = f d held d.
Proof. rewrite /mbind /Locked_bind /=. by destruct (f d held d). Qed.

(** A lock held does not stand in the way of another one. *)
Lemma conflicts_other l m l' m' held :
  l' ≠ l → conflicts l m held = false → conflicts l m ((l', m') :: held) = false.
Proof. intros H Hc. by rewrite /conflicts /= bool_decide_eq_false_2. Qed.

Lemma record_metric_run now name value held d :
  conflicts LMetrics Write held = false →
  record_metric now name value held d =
    Done tt (metric_recorded now name value d) [Acq LMetrics Write; Rel LMetrics].
Proof. intros Hc. by apply (with_lock_run _ _ _ _ _ _ _ []). Qed.

Lemma handle_threat_run now e held d :
  conflicts LBlocked Write held = false → level_leb LvMedium (ev_threat_level e) = true →
  handle_threat now e held d =
    match blocks d e with
    | Some ip => Done tt (set_blocked d (<[ip := mkBlock now (now + ic_block_duration (id_config d))
                   (ev_description e) (ev_threat_level e)]> (id_blocked_ips d))) [Acq LBlocked Write; Rel LBlocked]
    | None => Done tt d []
    end.
Proof.
  intros Hb Hl. rewrite /handle_threat /blocks Hl andb_true_r get_run.
  destruct (ic_auto_block (id_config d)) eqn:Ha; [| done].
  destruct (ev_source_ip e); [| done].
  rewrite /block_ip get_run Ha. by apply (with_lock_run _ _ _ _ _ _ _ []).
Qed.

Lemma record_event_run now e held d :
  conflicts LEvents Write held = false → conflicts LMetrics Write held = false →
  conflicts LBlocked Write held = false →
  record_event now e held d = Done tt (event_recorded now e d) (event_log d e).
Proof.
  intros He Hm Hb.
  assert (Hm' : conflicts LMetrics Write ((LEvents, Write) :: held) = false) by by apply conflicts_other.
  assert (Hb' : conflicts LBlocked Write ((LEvents, Write) :: held) = false) by by apply conflicts_other.
  set (d1 := metric_recorded now (event_type_debug (ev_event_type e)) (f64_of 1)
               (set_events d (id_events d ++ [e]))).
  assert (Hlast : (if level_leb LvMedium (ev_threat_level e) then handle_threat now e else mret tt)
            ((LEvents, Write) :: held) d1 =
          Done tt (event_recorded now e d)
            (match blocks d e with Some _ => [Acq LBlocked Write; Rel LBlocked] | None => [] end)).
  { rewrite /event_recorded -/d1.
    destruct (level_leb LvMedium (ev_threat_level e)) eqn:Hl.
    - rewrite (handle_threat_run _ _ _ _ Hb' Hl) //.
      change (blocks d1 e) with (blocks d e). by destruct (blocks d e).
    - assert (blocks d e = None) as H by by rewrite /blocks Hl andb_false_r.
      change (blocks d1 e) with (blocks d e). by rewrite H. }
  apply (with_lock_run _ _ _ _ _ _ _
    ([Acq LMetrics Write; Rel LMetrics] ++ match blocks d e with Some _ => _ | None => _ end)); [done |].
  apply (bind_run _ _ _ _ tt (set_events d (id_events d ++ [e])) []); [done |].
  apply (bind_run _ _ _ _ _ _ [Acq LMetrics Write; Rel LMetrics] _ _ _
    (record_metric_run _ _ _ _ _ Hm') Hlast).
Qed.

(** An event is recorded whatever the detector holds: with no lock held by the caller, [record_event] gets
    all its locks, appends the event, adds a sample of value one under the name of the event's type and drops
    the samples that left the rate window, and, when automatic blocking is on, the event is of at least medium
    level and names a source address, blocks that address until [block_duration] from now. *)
Theorem record_event_spec now e d :
  record_event now e [] d = Done tt (event_recorded now e d) (event_log d e) ∧
  id_events (event_recorded now e d) = id_events d ++ [e] ∧
  id_failed_attempts (event_recorded now e d) = id_failed_attempts d ∧
  (∀ ip, blocks d e = Some ip → ∀ later,
     is_ip_blocked later ip [] (event_recorded now e d) =
       Done (later <? now + ic_block_duration (id_config d))%Z (event_recorded now e d)
         [Acq LBlocked Read; Rel LBlocked]) ∧
  (∀ ip, blocks d e ≠ Some ip →
     id_blocked_ips (event_recorded now e d) !! ip = id_blocked_ips d !! ip).
Proof.
  split_and!; [by apply record_event_run | | | |];
    rewrite /event_recorded /blocks /=; set (b := if _ && _ then _ else _).
  - by destruct b.
  - by destruct b.
  - intros ip -> later. by rewrite /is_ip_blocked /with_lock /= /get_state /= lookup_insert_eq.
  - intros ip Hne. destruct b as [ip' |]; [| done]. simpl. rewrite lookup_insert_ne; congruence.
Qed.

Definition rate_samples (now : Z) (identifier : string) (window : Z) (d : IntrusionDetector) : list MetricSample :=
  keep_samples (now - window) (default [] (id_metrics d !! identifier)).

(** [check_rate_limit] returns only below the limit: it then answers [false]. When the samples kept within
    the window reach [max_count] it never returns [true], it waits for ever: it still holds the write guard of
    the metrics when [record_event], having taken the events, asks for the metrics again. The events stay
    locked with the metrics. *)
Theorem check_rate_limit_deadlock now fresh_id identifier window max_count d :
  let samples := rate_samples now identifier window d in
  check_rate_limit now fresh_id identifier window max_count [] d =
    if max_count <=? N.of_nat (length samples)
    then Stuck LMetrics [Acq LMetrics Write; Acq LEvents Write]
    else Done false (set_metrics d (<[identifier := samples]> (id_metrics d))) [Acq LMetrics Write; Rel LMetrics].
Proof.
  rewrite /check_rate_limit /with_lock get_run /mbind /Locked_bind /= -/(rate_samples _ _ _ d).
  destruct (max_count <=? _); done.
Qed.

(** ** Lockout *)

Definition tracker_of (d : IntrusionDetector) (key : string) : FailedAttemptTracker :=
  default (mkAttempts [] None) (id_failed_attempts d !! key).

(** The attempts that count once one more failed. *)
Definition failures_after (now : Z) (key : string) (d : IntrusionDetector) : FailedAttemptTracker :=
  push_attempt now (ic_rate_window (id_config d)) (tracker_of d key).

Definition locks_out (now : Z) (key : string) (d : IntrusionDetector) : bool :=
  (ic_max_failed_logins (id_config d) <=? N.of_nat (length (fa_attempts (failures_after now key d)))) &&
  bool_decide (fa_locked_until (failures_after now key d) = None).

Definition login_failed (now : Z) (fresh_id ip user_id : string) (d : IntrusionDetector)
  : IntrusionDetector * list LockAct :=
  let key := login_key ip user_id in
  let t := failures_after now key d in
  if locks_out now key d then
    let d1 := set_attempts d (<[key := mkAttempts (fa_attempts t)
                (Some (now + ic_lockout_duration (id_config d))%Z)]> (id_failed_attempts d)) in
    let e := lockout_event now fresh_id ip user_id (ic_max_failed_logins (id_config d)) in
    (event_recorded now e d1, Acq LAttempts Write :: event_log d1 e ++ [Rel LAttempts])
  else (set_attempts d (<[key := t]> (id_failed_attempts d)), [Acq LAttempts Write; Rel LAttempts]).

Lemma login_failed_run now fresh_id ip user_id d :
  record_login_attempt now fresh_id ip user_id false [] d =
    Done (Ok tt) (login_failed now fresh_id ip user_id d).1 (login_failed now fresh_id ip user_id d).2.
Proof.
  rewrite /login_failed /record_login_attempt /with_lock {1}/mbind /Locked_bind get_run /mbind /Locked_bind /=.
  rewrite -/(tracker_of d _) -/(failures_after _ _ d) -/(locks_out now (login_key ip user_id) d).
  destruct (locks_out now (login_key ip user_id) d); [| done].
  rewrite /= /set_attempts /= insert_insert_eq record_event_run //= !app_nil_r //.
Qed.

(** A failed login is counted, among those of the rate window, under the address and the user, and is
    never refused or stuck. The failure that brings the count to the maximum, when no lockout was recorded
    before, records one until [lockout_duration] from now and a medium event for it, which blocks the address
    when blocking is automatic; every other failure changes the tracker only. *)
Theorem failed_login_spec now fresh_id ip user_id d :
  let key := login_key ip user_id in
  let c := id_config d in
  let before := tracker_of d key in
  let counted := filter (λ a, now - ic_rate_window c < a)%Z (fa_attempts before) ++ [now] in
  let locks := (ic_max_failed_logins c <=? N.of_nat (length counted)) && bool_decide (fa_locked_until before = None) in
  let e := lockout_event now fresh_id ip user_id (ic_max_failed_logins c) in
  ∃ d' log, record_login_attempt now fresh_id ip user_id false [] d = Done (Ok tt) d' log ∧
    tracker_of d' key =
      mkAttempts counted (if locks then Some (now + ic_lockout_duration c)%Z else fa_locked_until before) ∧
    id_events d' = id_events d ++ (if locks then [e] else []) ∧
    (∀ a, a ≠ key → id_failed_attempts d' !! a = id_failed_attempts d !! a) ∧
    id_blocked_ips d' =
      (if locks && ic_auto_block c
       then <[ip := mkBlock now (now + ic_block_duration c) (ev_description e) LvMedium]> (id_blocked_ips d)
       else id_blocked_ips d).
Proof.
  intros key c before counted locks e. do 2 eexists. split; [apply login_failed_run |].
  rewrite /login_failed -/key. change (locks_out now key d) with locks. destruct locks; cbn [fst snd andb].
  - rewrite /event_recorded /blocks /=. fold c. destruct (ic_auto_block c); simpl;
      rewrite /tracker_of /= lookup_insert_eq; split_and!; try done;
      intros a Ha; by rewrite lookup_insert_ne.
  - rewrite app_nil_r /tracker_of /= lookup_insert_eq. split_and!; try done.
    intros a Ha; by rewrite lookup_insert_ne.
Qed.

(** A successful login forgets the failures of its address and user, the lockout with them even while it
    runs, and nothing else. *)
Theorem successful_login_spec now fresh_id ip user_id d :
  ∃ d', record_login_attempt now fresh_id ip user_id true [] d =
      Done (Ok tt) d' [Acq LAttempts Write; Rel LAttempts] ∧
    tracker_of d' (login_key ip user_id) = mkAttempts [] None ∧
    (∀ a, a ≠ login_key ip user_id → id_failed_attempts d' !! a = id_failed_attempts d !! a) ∧
    id_events d' = id_events d ∧ id_metrics d' = id_metrics d ∧ id_blocked_ips d' = id_blocked_ips d.
Proof.
  eexists. split; [reflexivity |]. split_and!; try done; rewrite /tracker_of /=.
  - by rewrite lookup_delete_eq.
  - intros a Ha. by rewrite lookup_delete_ne.
Qed.

(** A lockout that was recorded is never renewed: no failure, however long after the lockout expired, records
    another, an event or a block, as long as the tracker lives. *)
Lemma expired_lockout_stays now fresh_id ip user_id d until :
  fa_locked_until (tracker_of d (login_key ip user_id)) = Some until →
  ∃ d' log, record_login_attempt now fresh_id ip user_id false [] d = Done (Ok tt) d' log ∧
    id_events d' = id_events d ∧ id_blocked_ips d' = id_blocked_ips d ∧
    fa_locked_until (tracker_of d' (login_key ip user_id)) = Some until.
Proof.
  intros Hl. do 2 eexists. split; [apply login_failed_run |].
  assert (Hn : locks_out now (login_key ip user_id) d = false).
  { rewrite /locks_out /failures_after /push_attempt /= Hl bool_decide_eq_false_2 ?andb_false_r //. }
  rewrite /login_failed Hn /= /tracker_of /= lookup_insert_eq /=. split_and!; done.
Qed.

(** Two logins share a tracker: the separator may stand in the address (as in every IPv6 address) or in the
    user. *)
Lemma login_key_ambiguous : login_key "::1" "alice" = login_key ":" "1:alice".
Proof. reflexivity. Qed.

(** The statistics count as a locked account every tracker, whatever its lockout, and as a blocked address an
    expired block. *)
Lemma stats_count_all now :
  ∃ d, (∃ log, record_login_attempt now "e" "10.0.0.1" "alice" false [] IntrusionDetector_default_config
                 = Done (Ok tt) d log) ∧
    fa_locked_until (tracker_of d (login_key "10.0.0.1" "alice")) = None ∧
    ∃ st log, detector_get_stats now [] d = Done st d log ∧ is_locked_accounts st = 1%nat.
Proof.
  eexists. split; [eexists; apply login_failed_run |]. split.
  - vm_compute. reflexivity.
  - do 2 eexists. split; [reflexivity |]. vm_compute. reflexivity.
Qed.

(** ** Cleanup *)

(** [cleanup] gets all its locks; it drops exactly the resolved events, the samples and the failed attempts
    older than the retention period, the expired blocks, and the trackers left without an attempt (their
    lockouts with them); an unresolved event and an address still blocked survive. *)
Theorem cleanup_spec now d :
  let cutoff := (now - ic_retention_period (id_config d))%Z in
  ∃ d' log, cleanup now [] d = Done tt d' log ∧
    (∀ e, e ∈ id_events d' ↔ e ∈ id_events d ∧ ((cutoff < ev_timestamp e)%Z ∨ ev_resolved e = false)) ∧
    (∀ name, id_metrics d' !! name = keep_samples cutoff <$> id_metrics d !! name) ∧
    (∀ ip b, id_blocked_ips d' !! ip = Some b ↔ id_blocked_ips d !! ip = Some b ∧ (now < bi_expires_at b)%Z) ∧
    (∀ key t', id_failed_attempts d' !! key = Some t' ↔
       fa_attempts t' ≠ [] ∧ ∃ t, id_failed_attempts d !! key = Some t ∧
         fa_attempts t' = filter (λ a, cutoff < a)%Z (fa_attempts t) ∧ fa_locked_until t' = fa_locked_until t) ∧
    id_patterns d' = id_patterns d ∧ id_config d' = id_config d.
Proof.
  intros cutoff. do 2 eexists. split; [reflexivity |]. cbn. split_and!; try done.
  - intros e. rewrite list_elem_of_filter. naive_solver.
  - intros name. by rewrite lookup_fmap.
  - intros ip b. rewrite map_lookup_filter_Some. done.
  - intros key t'. rewrite map_lookup_filter_Some lookup_fmap fmap_Some /=. split.
    + intros [(t & Ht & ->) Hne]. split; [done |]. exists t. done.
    + intros (Hne & t & Ht & Ha & Hu). split; [| done]. exists t. split; [done |].
      destruct t'; simpl in *. by subst.
Qed.

(** ** Tasks over the same locks

    Several tasks run operations of one detector. Which locks an operation takes
    does not depend on the tables that the others change, but for the lockout
    decision, taken under the lock of the attempts; so a task is the list of the
    acquisitions and releases it has still to do, with the locks it holds. *)

Record LockTask : Type := mkLockTask { tk_held : list (LockName * LockMode); tk_todo : list LockAct }.

Definition task_of (log : list LockAct) : LockTask := mkLockTask [] log.

Definition release (l : LockName) (held : list (LockName * LockMode)) : list (LockName * LockMode) :=
  match held with (l', m) :: t => if decide (l' = l) then t else held | [] => [] end.

(** One task does its next action; an acquisition needs that no task, itself included, holds the lock in a
    conflicting mode. *)
Inductive task_step : list LockTask → list LockTask → Prop :=
| step_acq pre t post l m todo :
    tk_todo t = Acq l m :: todo →
    Forall (λ t', conflicts l m (tk_held t') = false) (pre ++ t :: post) →
    task_step (pre ++ t :: post) (pre ++ mkLockTask ((l, m) :: tk_held t) todo :: post)
| step_rel pre t post l todo :
    tk_todo t = Rel l :: todo →
    task_step (pre ++ t :: post) (pre ++ mkLockTask (release l (tk_held t)) todo :: post).

Definition finished (ts : list LockTask) : Prop := Forall (λ t, tk_todo t = []) ts.
Definition deadlocked (ts : list LockTask) : Prop := ¬ finished ts ∧ ∀ ts', ¬ task_step ts ts'.

(** The order in which [record_event], [get_stats] and [cleanup] nest the locks. *)
Definition lock_rank (l : LockName) : nat :=
  match l with LPatterns => 0 | LEvents => 1 | LMetrics => 2 | LBlocked => 3 | LAttempts => 4 end.

(** Guards nest, end with the task, and each is taken above those held. *)
Fixpoint ordered (held : list (LockName * LockMode)) (todo : list LockAct) : bool :=
  match todo with
  | [] => match held with [] => true | _ => false end
  | Acq l m :: todo => forallb (λ h, Nat.ltb (lock_rank h.1) (lock_rank l)) held && ordered ((l, m) :: held) todo
  | Rel l :: todo =>
      match held with (l', m) :: held => bool_decide (l' = l) && ordered held todo | [] => false end
  end.

Definition task_ordered (t : LockTask) : Prop := ordered (tk_held t) (tk_todo t) = true.

Lemma task_step_ordered ts ts' : task_step ts ts' → Forall task_ordered ts → Forall task_ordered ts'.
Proof.
  intros [pre t post l m todo Ht _ | pre t post l todo Ht];
    rewrite !Forall_app !Forall_cons /task_ordered /= Ht /=; intros (Hpre & Hord & Hpost); split_and!; try done.
  - by apply andb_true_iff in Hord as [_ Hord].
  - destruct (tk_held t) as [| [l' m] held]; [done |].
    apply andb_true_iff in Hord as [Hl Hord]. apply bool_decide_eq_true in Hl as ->.
    by rewrite /= decide_True.
Qed.

(** What an unfinished task waits for. *)
Definition wanted (t : LockTask) : option nat :=
  match tk_todo t with Acq l _ :: _ => Some (lock_rank l) | _ => None end.

Lemma blocked_waits ts t :
  (∀ ts', ¬ task_step ts ts') → t ∈ ts → tk_todo t ≠ [] →
  ∃ l m todo t', tk_todo t = Acq l m :: todo ∧ t' ∈ ts ∧ conflicts l m (tk_held t') = true.
Proof.
  intros Hstuck (pre & post & ->)%list_elem_of_split Hne.
  destruct (tk_todo t) as [| [l m | l] todo] eqn:Ht; [done | |].
  - destruct (decide (Forall (λ t', conflicts l m (tk_held t') = false) (pre ++ t :: post))) as [Hall | Hnot].
    + destruct (Hstuck _ (step_acq _ _ _ _ _ _ Ht Hall)).
    + apply not_Forall_Exists in Hnot; [| apply _]. apply Exists_exists in Hnot as (t' & Hin & Hc).
      exists l, m, todo, t'. split_and!; try done. by apply not_false_iff_true.
  - destruct (Hstuck _ (step_rel _ _ _ _ _ Ht)).
Qed.

(** Whoever holds a lock is not finished, and waits for a higher one. *)
Lemma holder_waits_higher ts t l m :
  (∀ ts', ¬ task_step ts ts') → Forall task_ordered ts → t ∈ ts → conflicts l m (tk_held t) = true →
  ∃ r, wanted t = Some r ∧ (lock_rank l < r)%nat.
Proof.
  intros Hstuck Hord Hin Hc.
  apply existsb_exists in Hc as ([l' m'] & Hh & Hl). apply andb_true_iff in Hl as [Hl _].
  apply bool_decide_eq_true in Hl. simpl in Hl. subst l'.
  pose proof (proj1 (Forall_forall _ _) Hord _ Hin) as Ht. rewrite /task_ordered in Ht.
  destruct (blocked_waits ts t Hstuck Hin) as (l2 & m2 & todo & _ & Htodo & _).
  { intros Hnil. rewrite Hnil /= in Ht. destruct (tk_held t); [by destruct Hh | done]. }
  rewrite Htodo /= in Ht. apply andb_true_iff in Ht as [Ht _].
  exists (lock_rank l2). rewrite /wanted Htodo. split; [done |].
  rewrite forallb_forall in Ht. apply Ht in Hh. by apply Nat.ltb_lt in Hh.
Qed.

Lemma ordered_not_stuck ts : Forall task_ordered ts → (∀ ts', ¬ task_step ts ts') → finished ts.
Proof.
  intros Hord Hstuck.
  assert (Hno : ∀ k t r, t ∈ ts → wanted t = Some r → (5 - r)%nat = k → False).
  { induction k as [k IH] using lt_wf_ind. intros t r Hin Hw Hk.
    rewrite /wanted in Hw. destruct (tk_todo t) as [| [l m |] todo] eqn:Ht; [done | | done].
    injection Hw as <-.
    destruct (blocked_waits ts t Hstuck Hin) as (l' & m' & todo' & t' & Ht' & Hin' & Hc); [by rewrite Ht |].
    rewrite Ht in Ht'. injection Ht' as <- <- <-.
    destruct (holder_waits_higher _ _ _ _ Hstuck Hord Hin' Hc) as (r & Hr & Hlt).
    assert (lock_rank l < 5)%nat by (destruct l; simpl; lia).
    apply (IH (5 - r)%nat) with t' r; [lia | done..]. }
  apply Forall_forall. intros t Hin. destruct (decide (tk_todo t = [])) as [| Hne]; [done |].
  destruct (blocked_waits ts t Hstuck Hin Hne) as (l & m & todo & _ & Ht & _).
  destruct (Hno (5 - lock_rank l)%nat t (lock_rank l) Hin); [by rewrite /wanted Ht | done].
Qed.

Definition todo_size (ts : list LockTask) : nat := length (ts ≫= tk_todo).

Lemma task_step_size ts ts' : task_step ts ts' → (todo_size ts' < todo_size ts)%nat.
Proof.
  rewrite /todo_size. intros [pre t post l m todo Ht _ | pre t post l todo Ht];
    rewrite !bind_app !bind_cons !length_app /= Ht /=; lia.
Qed.

Section Order.
Context (show_f64 : f64 → string).

(** The operations that respect the order, with the states in which their logs are taken. *)
Inductive OrderedOp : Type :=
| OpAddPattern (p : ThreatPattern) | OpRecordEvent (e : SecurityEvent) | OpRecordMetric (name : string) (value : f64)
| OpLoginOk (ip user_id : string) | OpIsBlocked (ip : string) | OpBlock (ip reason : string) (level : ThreatLevel)
| OpUnblock (ip : string) | OpGetEvents (unresolved_only : bool) | OpResolve (event_id : string)
| OpGetBlocked | OpGetStats | OpCleanup | OpAnalyze (fresh_id : string) (score : AnomalyScore).

Definition log_of {A} (o : outcome A) : list LockAct := match o with Done _ _ g => g | Stuck _ g => g end.

Definition op_log (now : Z) (d : IntrusionDetector) (op : OrderedOp) : list LockAct :=
  match op with
  | OpAddPattern p => log_of (add_pattern p [] d)
  | OpRecordEvent e => log_of (record_event now e [] d)
  | OpRecordMetric name value => log_of (record_metric now name value [] d)
  | OpLoginOk ip user_id => log_of (record_login_attempt now "" ip user_id true [] d)
  | OpIsBlocked ip => log_of (is_ip_blocked now ip [] d)
  | OpBlock ip reason level => log_of (block_ip now ip reason level [] d)
  | OpUnblock ip => log_of (unblock_ip ip [] d)
  | OpGetEvents u => log_of (get_events u [] d)
  | OpResolve id => log_of (resolve_event now id [] d)
  | OpGetBlocked => log_of (get_blocked_ips now [] d)
  | OpGetStats => log_of (detector_get_stats now [] d)
  | OpCleanup => log_of (cleanup now [] d)
  | OpAnalyze fresh_id score => log_of (analyze_anomaly show_f64 now fresh_id score [] d)
  end.

Lemma op_log_ordered now d op : ordered [] (op_log now d op) = true.
Proof.
  assert (Hev : ∀ e, ordered [] (log_of (record_event now e [] d)) = true).
  { intros e. rewrite record_event_run //. simpl. rewrite /event_log. by destruct (blocks d e). }
  destruct op as [| e | | | | ip reason level | | | id | | | | fresh_id score]; try reflexivity; simpl.
  - apply Hev.
  - rewrite /block_ip get_run. by destruct (negb _ && negb _).
  - rewrite /resolve_event /with_lock get_run /=. by destruct (resolve_first now id (id_events d)).
  - rewrite /analyze_anomaly. destruct (as_is_anomaly score); [| done].
    rewrite (bind_run _ _ _ _ _ _ _ _ _ _ (record_event_run _ _ [] d eq_refl eq_refl eq_refl) eq_refl) /=.
    rewrite app_nil_r. pose proof (Hev (SecurityEvent_new now fresh_id EvAnomalyDetected LvMedium
       ("Anomaly detected with score " +:+ show_f64 (as_value score)))) as H.
    by rewrite record_event_run in H.
Qed.

(** C12. However many tasks record events and metrics, block, resolve, read the statistics or clean up, each in
    any state of the tables, and however their steps interleave, no state they reach is a deadlock and every
    maximal run ends with all of them finished: the operations take the locks in one order. *)
Theorem ordered_operations_never_deadlock (ops : list (Z * IntrusionDetector * OrderedOp)) ts :
  rtc task_step ((λ o, task_of (op_log o.1.1 o.1.2 o.2)) <$> ops) ts →
  (¬ deadlocked ts) ∧ Acc (flip task_step) ts.
Proof.
  intros Hr. split.
  - intros [Hnot Hstuck]. apply Hnot, ordered_not_stuck; [| done].
    assert (H0 : Forall task_ordered ((λ o, task_of (op_log o.1.1 o.1.2 o.2)) <$> ops)).
    { rewrite Forall_fmap. apply Forall_true. intros o. apply op_log_ordered. }
    clear Hnot Hstuck. induction Hr as [| ts1 ts2 ts3 Hs _ IH]; [done |].
    by apply IH, (task_step_ordered _ _ Hs).
  - clear Hr. revert ts. refine (well_founded_lt_compat _ todo_size _ _).
    intros ts' ts H. by apply task_step_size.
Qed.

End Order.

(** A failed login that locks an account out can deadlock with [cleanup]: it takes the events while it
    holds the attempts, and [cleanup] takes the attempts while it holds the events. From the start of the two
    tasks a state is reachable in which neither can go on. *)
Theorem lockout_cleanup_deadlock now fresh_id ip user_id d d' d1 d2 log1 log2 :
  locks_out now (login_key ip user_id) d = true →
  record_login_attempt now fresh_id ip user_id false [] d = Done (Ok tt) d1 log1 →
  cleanup now [] d' = Done tt d2 log2 →
  ∃ ts, rtc task_step [task_of log1; task_of log2] ts ∧ deadlocked ts.
Proof.
  intros Hl H1 H2. rewrite login_failed_run /login_failed Hl /= in H1.
  injection H1 as _ <-. injection H2 as _ <-.
  match goal with |- context [Acq LAttempts Write :: ?g] => set (rest := g) end.
  assert (Hrest : ∃ g, rest = Acq LEvents Write :: g) by (eexists; reflexivity).
  destruct Hrest as [g Hg]. clearbody rest. subst rest. rewrite /task_of.
  eexists. split.
  - eapply rtc_l; [apply (step_acq [] _ _ LAttempts Write); [reflexivity | by repeat constructor] |]. simpl.
    eapply rtc_l; [eapply (step_acq [_] _ [] LEvents Write); [reflexivity | by repeat constructor] |]. simpl.
    eapply rtc_l; [eapply (step_acq [_] _ [] LMetrics Write); [reflexivity | by repeat constructor] |]. simpl.
    eapply rtc_l; [eapply (step_acq [_] _ [] LBlocked Write); [reflexivity | by repeat constructor] |]. simpl.
    apply rtc_refl.
  - split.
    + intros H. by apply Forall_inv in H.
    + intros ts' H. remember [_; _] as ts eqn:Hts. destruct H as [pre t post l m todo Ht Hall | pre t post l todo Ht].
      * destruct pre as [| t1 [| t2 [| ? ?]]]; simplify_eq/=; rewrite !Forall_cons in Hall; naive_solver.
      * destruct pre as [| t1 [| t2 [| ? ?]]]; simplify_eq/=.
Qed.

(** ** Witnesses and examples *)

Definition demo_failures (n : nat) : IntrusionDetector :=
  set_attempts IntrusionDetector_default_config
    {[ "1:u" := mkAttempts (replicate n 0%Z) None ]}.

Lemma lockout_cleanup_deadlock_witness :
  ∃ ts, rtc task_step
          [task_of (login_failed 0 "e" "1" "u" (demo_failures 4)).2;
           task_of (log_of (cleanup 0 [] IntrusionDetector_default_config))] ts ∧ deadlocked ts.
Proof.
  eapply (lockout_cleanup_deadlock 0 "e" "1" "u" (demo_failures 4) IntrusionDetector_default_config);
    [vm_compute; reflexivity | apply login_failed_run | reflexivity].
Defined.

Lemma ordered_operations_never_deadlock_witness :
  (¬ deadlocked [task_of (log_of (cleanup 0 [] (demo_failures 1))); task_of (log_of (detector_get_stats 0 [] (demo_failures 1)))]) ∧
  Acc (flip task_step) [task_of (log_of (cleanup 0 [] (demo_failures 1)));
                        task_of (log_of (detector_get_stats 0 [] (demo_failures 1)))].
Proof.
  apply (ordered_operations_never_deadlock (λ _, "") [(0%Z, demo_failures 1, OpCleanup); (0%Z, demo_failures 1, OpGetStats)]).
  apply rtc_refl.
Defined.

(** The fifth failure in fifteen minutes locks out and blocks; the fourth does not. *)
Example fifth_failure_locks :
  (λ d, (locks_out 0 "1:u" d)) <$> [demo_failures 3; demo_failures 4] = [false; true].
Proof. vm_compute. reflexivity. Qed.
