(* ===== verification/Acl.v ===== *)
(** * Access control lists ([crates/a3net-security/src/acl.rs])

    Policies are ordered lists of entries; [AclPolicy::check_access] evaluates one
    policy, [AccessControl] keeps the policies by id and answers requests. The
    clock is an argument: nanoseconds since the epoch, read once per request (the
    code reads it for every entry). The metadata maps, which no decision reads,
    are left out, and the identifiers made by [uuid] are arguments of the
    constructors. *)
From stdpp Require Import prelude strings gmap list.
From Stdlib Require Import ZArith Lia.
From S2P Require Import Prelude SecError.

#[local] Open Scope Z_scope.

(** ** Permissions *)

Inductive Permission : Type := Read | Write | Delete | Execute | Admin | Full | Share | Invite.

#[global] Instance Permission_eq_dec : EqDecision Permission.
Proof. solve_decision. Defined.

Definition Permission_includes (self other : Permission) : bool :=
  match self, other with
  | Full, _ => true
  | Admin, Admin => true
  | Admin, Write => true
  | Admin, Read => true
  | Admin, Delete => true
  | Admin, Execute => true
  | Write, Write => true
  | Write, Read => true
  | Read, Read => true
  | Share, Share => true
  | Share, Read => true
  | Invite, Invite => true
  | _, _ => false
  end.

Definition Permission_implied_permissions (self : Permission) : list Permission :=
  match self with
  | Full => [Read; Write; Delete; Execute; Admin; Share; Invite]
  | Admin => [Read; Write; Delete; Execute; Admin]
  | Write => [Read; Write]
  | Share => [Read; Share]
  | p => [p]
  end.

(** ** Resources and subjects *)

Inductive ResourceType : Type :=
| RBlob | RChannel | RNode | RNetwork | RChannelMessage | RUserProfile | RRoster | RWorkspace | RRelay | RGateway | RSystem.

#[global] Instance ResourceType_eq_dec : EqDecision ResourceType.
Proof. solve_decision. Defined.

Definition ResourceType_default_permissions (t : ResourceType) : list Permission :=
  match t with
  | RBlob => [Read; Write; Share]
  | RChannel => [Read; Write; Share; Invite]
  | RNode => [Read; Write]
  | RNetwork => [Read]
  | RChannelMessage => [Read; Write; Delete]
  | RUserProfile => [Read; Write; Delete]
  | RRoster => [Read; Write; Delete]
  | RWorkspace => [Full]
  | RRelay => [Read]
  | RGateway => [Read; Write]
  | RSystem => [Admin]
  end.

Record Resource : Type := mkResource {
  r_type : ResourceType; r_id : string; r_owner : option string; r_parent : option string
}.

Definition Resource_new (t : ResourceType) (id : string) : Resource := mkResource t id None None.
Definition Resource_with_owner (r : Resource) (owner : string) : Resource :=
  mkResource (r_type r) (r_id r) (Some owner) (r_parent r).
Definition Resource_with_parent (r : Resource) (parent : string) : Resource :=
  mkResource (r_type r) (r_id r) (r_owner r) (Some parent).

Inductive SubjectType : Type := SUser | SRole | SGroup | SNode | SService | SPublic.

#[global] Instance SubjectType_eq_dec : EqDecision SubjectType.
Proof. solve_decision. Defined.

Definition SubjectType_requires_auth (t : SubjectType) : bool := negb (bool_decide (t = SPublic)).

Record Subject : Type := mkSubject {
  s_type : SubjectType; s_id : string; s_roles : list string; s_groups : list string; s_node_id : option string
}.

Definition Subject_new_user (id : string) : Subject := mkSubject SUser id [] [] None.
Definition Subject_new_node (node_id : string) : Subject := mkSubject SNode node_id [] [] (Some node_id).
Definition Subject_public : Subject := mkSubject SPublic "public" [] [] None.
Definition Subject_with_role (s : Subject) (role : string) : Subject :=
  mkSubject (s_type s) (s_id s) (s_roles s ++ [role]) (s_groups s) (s_node_id s).
Definition Subject_with_group (s : Subject) (group : string) : Subject :=
  mkSubject (s_type s) (s_id s) (s_roles s) (s_groups s ++ [group]) (s_node_id s).

(** ** Entries *)

Inductive AccessLevel : Type := DenyAll | AllowList | AllowAll | Custom.

#[global] Instance AccessLevel_eq_dec : EqDecision AccessLevel.
Proof. solve_decision. Defined.

Inductive AccessCondition : Type :=
| TimeRange (start_hour end_hour : Z) (timezone : option string)
| IpRange (cidr : string)
| MinTrustLevel (level : string)
| GeoLocation (allowed_countries : list string)
| MetadataCheck (key operator value : string).

Record AclEntry : Type := mkAclEntry {
  e_id : string;
  e_subject : Subject;
  e_resource : Resource;
  e_permissions : list Permission;
  e_access_level : AccessLevel;
  e_grant : bool;
  e_expires_at : option Z;
  e_conditions : list AccessCondition;
  e_created_at : Z;
  e_updated_at : Z
}.

Definition AclEntry_new (now : Z) (uuid : string) (subject : Subject) (resource : Resource)
  (permissions : list Permission) (grant : bool) : AclEntry :=
  mkAclEntry uuid subject resource permissions AllowList grant None [] now now.

Definition AclEntry_expires_at (e : AclEntry) (t : Z) : AclEntry :=
  mkAclEntry (e_id e) (e_subject e) (e_resource e) (e_permissions e) (e_access_level e) (e_grant e)
    (Some t) (e_conditions e) (e_created_at e) (e_updated_at e).
Definition AclEntry_expires_in (now : Z) (e : AclEntry) (duration : Z) : AclEntry :=
  AclEntry_expires_at e (now + duration).
Definition AclEntry_with_condition (e : AclEntry) (c : AccessCondition) : AclEntry :=
  mkAclEntry (e_id e) (e_subject e) (e_resource e) (e_permissions e) (e_access_level e) (e_grant e)
    (e_expires_at e) (e_conditions e ++ [c]) (e_created_at e) (e_updated_at e).

(** The hour of the day in UTC. *)
Definition utc_hour (now : Z) : Z := (now / 3600000000000) mod 24.

Definition AccessCondition_evaluate (now : Z) (c : AccessCondition) (subject : Subject) (resource : Resource) : bool :=
  match c with
  | TimeRange start_hour end_hour _ =>
      let hour := utc_hour now in
      if start_hour <=? end_hour then (start_hour <=? hour) && (hour <=? end_hour)
      else (start_hour <=? hour) || (hour <=? end_hour)
  | IpRange _ | MinTrustLevel _ | GeoLocation _ | MetadataCheck _ _ _ => true
  end.

Definition AclEntry_is_valid (now : Z) (e : AclEntry) : bool :=
  if match e_expires_at e with Some expires => expires <? now | None => false end then false
  else forallb (λ c, AccessCondition_evaluate now c (e_subject e) (e_resource e)) (e_conditions e).

Definition AclEntry_grants_permission (now : Z) (e : AclEntry) (p : Permission) : bool :=
  if negb (AclEntry_is_valid now e) then false
  else e_grant e && existsb (λ q, Permission_includes q p) (e_permissions e).

(** ** Policies *)

Record AclPolicy : Type := mkAclPolicy {
  p_id : string;
  p_name : string;
  p_description : option string;
  p_default_access_level : AccessLevel;
  p_entries : list AclEntry;
  p_inherits_from : list string;
  p_priority : Z;
  p_enabled : bool;
  p_created_at : Z;
  p_updated_at : Z
}.

Definition AclPolicy_new (now : Z) (uuid name : string) : AclPolicy :=
  mkAclPolicy uuid name None AllowList [] [] 0 true now now.

Definition set_entries (p : AclPolicy) (entries : list AclEntry) (enabled : bool) (updated : Z) : AclPolicy :=
  mkAclPolicy (p_id p) (p_name p) (p_description p) (p_default_access_level p) entries (p_inherits_from p)
    (p_priority p) enabled (p_created_at p) updated.

Definition AclPolicy_add_entry (now : Z) (p : AclPolicy) (e : AclEntry) : AclPolicy :=
  set_entries p (p_entries p ++ [e]) (p_enabled p) now.

Definition subject_matches (entry request : Subject) : bool :=
  if bool_decide (s_type entry = s_type request) && bool_decide (s_id entry = s_id request) then true
  else if existsb (λ role, bool_decide (role ∈ s_roles entry)) (s_roles request) then true
  else if existsb (λ group, bool_decide (group ∈ s_groups entry)) (s_groups request) then true
  else if bool_decide (s_type entry = SPublic) then true
  else if bool_decide (s_type entry = SNode) then
    match s_node_id entry, s_node_id request with
    | Some a, Some b => bool_decide (a = b)
    | _, _ => false
    end
  else false.

Definition resource_matches (entry request : Resource) : bool :=
  if bool_decide (r_type entry = r_type request) && bool_decide (r_id entry = r_id request) then true
  else if bool_decide (r_type entry = r_type request) && bool_decide (r_id entry = "*"%string) then true
  else if bool_decide (r_id entry = "*"%string) && bool_decide (r_type entry = r_type request) then
    match r_owner entry, r_owner request with
    | Some a, Some b => bool_decide (a = b)
    | _, _ => false
    end
  else false.

Definition allow_all (l : AccessLevel) : bool := bool_decide (l = AllowAll).

(** The entries of a policy that apply to a request. *)
Definition entry_applies (now : Z) (subject : Subject) (resource : Resource) (e : AclEntry) : bool :=
  subject_matches (e_subject e) subject && resource_matches (e_resource e) resource && AclEntry_is_valid now e.

(** The loop over the matching entries; [granted] is never assigned in it. *)
Fixpoint check_entries (now : Z) (p : Permission) (granted : bool) (es : list AclEntry) : bool :=
  match es with
  | [] => granted
  | e :: es' =>
      if AclEntry_grants_permission now e p then true
      else if e_grant e then
        if existsb (λ q, Permission_includes q p) (e_permissions e) then true else check_entries now p granted es'
      else
        if existsb (λ q, Permission_includes q p) (e_permissions e) then false else check_entries now p granted es'
  end.

Definition AclPolicy_check_access (now : Z) (self : AclPolicy) (subject : Subject) (resource : Resource)
  (p : Permission) : bool :=
  if negb (p_enabled self) then allow_all (p_default_access_level self)
  else
    match filter (λ e, entry_applies now subject resource e = true) (p_entries self) with
    | [] => allow_all (p_default_access_level self)
    | es => check_entries now p (allow_all (p_default_access_level self)) es
    end.

(** ** The access control system *)

Record AclConfig : Type := mkAclConfig {
  c_default_policy : AccessLevel;
  c_cache_ttl_secs : N;
  c_max_entries_per_policy : nat;
  c_enable_audit_logging : bool;
  c_cache_enabled : bool
}.

Definition AclConfig_default : AclConfig := mkAclConfig AllowList 300 (N.to_nat 10000) true true.

Record AccessDecision : Type := mkAccessDecision {
  d_granted : bool; d_reason : string; d_matched_entry : option string; d_evaluated_at : Z; d_policy_id : string
}.

Definition AccessDecision_granted (now : Z) (policy_id reason : string) (entry_id : option string) : AccessDecision :=
  mkAccessDecision true reason entry_id now policy_id.
Definition AccessDecision_denied (now : Z) (policy_id reason : string) : AccessDecision :=
  mkAccessDecision false reason None now policy_id.

Record AccessControl : Type := mkAccessControl {
  ac_policies : gmap string AclPolicy; ac_default_policy : option string; ac_config : AclConfig
}.

Definition AccessControl_new (config : AclConfig) : AccessControl := mkAccessControl ∅ None config.

Definition AccessControl_add_policy (ac : AccessControl) (policy : AclPolicy)
  : AccessControl * result SecurityError unit :=
  if Nat.leb (c_max_entries_per_policy (ac_config ac)) (size (ac_policies ac))
  then (ac, Err (Internal "Maximum policy count reached"))
  else (mkAccessControl (<[p_id policy := policy]> (ac_policies ac)) (ac_default_policy ac) (ac_config ac), Ok tt).

(** [set_default_policy] holds the lock of the policies for the check only: the
    two halves are separate steps of a concurrent run. *)
Definition set_default_check (ac : AccessControl) (policy_id : string) : result SecurityError unit :=
  match ac_policies ac !! policy_id with
  | Some _ => Ok tt
  | None => Err (InvalidConfig ("Policy " ++ policy_id ++ " not found"))
  end.
Definition set_default_write (ac : AccessControl) (policy_id : string) : AccessControl :=
  mkAccessControl (ac_policies ac) (Some policy_id) (ac_config ac).

Definition AccessControl_set_default_policy (ac : AccessControl) (policy_id : string)
  : AccessControl * result SecurityError unit :=
  match set_default_check ac policy_id with
  | Ok _ => (set_default_write ac policy_id, Ok tt)
  | Err e => (ac, Err e)
  end.

Definition AccessControl_remove_policy (ac : AccessControl) (policy_id : string)
  : AccessControl * result SecurityError unit :=
  (mkAccessControl (delete policy_id (ac_policies ac))
     (if bool_decide (ac_default_policy ac = Some policy_id) then None else ac_default_policy ac)
     (ac_config ac), Ok tt).

(** The loop of [check_access] over the entries of the default policy. *)
Fixpoint find_grant (now : Z) (subject : Subject) (resource : Resource) (p : Permission) (es : list AclEntry)
  : option AclEntry :=
  match es with
  | [] => None
  | e :: es' =>
      if entry_applies now subject resource e && AclEntry_grants_permission now e p then Some e
      else find_grant now subject resource p es'
  end.

Definition is_owner (subject : Subject) (resource : Resource) : bool :=
  match r_owner resource with Some owner => bool_decide (s_id subject = owner) | None => false end.

Definition AccessControl_check_access (now : Z) (ac : AccessControl) (subject : Subject) (resource : Resource)
  (p : Permission) : AccessDecision :=
  match ac_default_policy ac with
  | None => AccessDecision_denied now "none" "No default policy set"
  | Some policy_id =>
      match ac_policies ac !! policy_id with
      | None => AccessDecision_denied now "none" "Default policy not found"
      | Some policy =>
          if is_owner subject resource then AccessDecision_granted now policy_id "Subject is resource owner" None
          else
            match find_grant now subject resource p (p_entries policy) with
            | Some e => AccessDecision_granted now policy_id "Permission granted by ACL entry" (Some (e_id e))
            | None =>
                if allow_all (p_default_access_level policy)
                then AccessDecision_granted now policy_id "Allowed by default access level" None
                else AccessDecision_denied now policy_id "Denied by default access level"
            end
      end
  end.

Definition AccessControl_can (now : Z) (ac : AccessControl) (subject : Subject) (resource : Resource)
  (p : Permission) : bool := d_granted (AccessControl_check_access now ac subject resource p).

(** ** Permissions: [includes] and [implied_permissions] *)

(** The two tables agree except on three pairs: [Full] is not listed among what
    it implies, and [Delete] and [Execute] do not include themselves; [includes]
    is transitive. *)
Theorem includes_vs_implied p q r :
  ((p, q) ≠ (Full, Full) → (p, q) ≠ (Delete, Delete) → (p, q) ≠ (Execute, Execute) →
     Permission_includes p q = bool_decide (q ∈ Permission_implied_permissions p)) ∧
  Permission_includes Delete Delete = false ∧ Permission_includes Execute Execute = false ∧
  (Permission_includes p q = true → Permission_includes q r = true → Permission_includes p r = true).
Proof.
  split_and!; [|done|done|by destruct p, q, r].
  destruct p, q; intros; congruence || reflexivity || done.
Qed.

(** ** One policy: the first entry that speaks about the permission decides *)

(** An entry speaks about a permission when it applies to the request and one of
    its permissions includes it. *)
Definition covers (p : Permission) (e : AclEntry) : bool :=
  existsb (λ q, Permission_includes q p) (e_permissions e).
Definition speaks (now : Z) (subject : Subject) (resource : Resource) (p : Permission) (e : AclEntry) : bool :=
  entry_applies now subject resource e && covers p e.

Lemma grants_permission_covers now e p :
  AclEntry_is_valid now e = true → AclEntry_grants_permission now e p = e_grant e && covers p e.
Proof. intros Hv. unfold AclEntry_grants_permission. by rewrite Hv. Qed.

Lemma entry_applies_valid now s r e : entry_applies now s r e = true → AclEntry_is_valid now e = true.
Proof. unfold entry_applies. by intros [_ ?]%andb_true_iff. Qed.

Lemma check_entries_first now p d es :
  Forall (λ e, AclEntry_is_valid now e = true) es →
  check_entries now p d es =
    match list_find (λ e, covers p e = true) es with Some (_, e) => e_grant e | None => d end.
Proof.
  intros HF. induction HF as [|e es Hv _ IH]; [done|]. cbn [check_entries list_find].
  rewrite (grants_permission_covers now e p Hv), IH. fold (covers p e).
  destruct (covers p e) eqn:Hc.
  - rewrite decide_True by done. by destruct (e_grant e).
  - rewrite decide_False by done. rewrite andb_false_r.
    assert ((if e_grant e then match list_find (λ x, covers p x = true) es with Some (_, x) => e_grant x | None => d end
      else match list_find (λ x, covers p x = true) es with Some (_, x) => e_grant x | None => d end) =
      match list_find (λ x, covers p x = true) es with Some (_, x) => e_grant x | None => d end) as -> by by destruct (e_grant e).
    by destruct (list_find (λ x, covers p x = true) es) as [[i x]|].
Qed.

Lemma list_find_filter {A} (P Q : A → bool) (l : list A) :
  snd <$> list_find (λ x, Q x = true) (filter (λ x, P x = true) l) = snd <$> list_find (λ x, P x && Q x = true) l.
Proof.
  induction l as [|x l IH]; [done|]. rewrite filter_cons. cbn [list_find].
  destruct (P x) eqn:HP.
  - rewrite decide_True by done. cbn [list_find]. destruct (Q x) eqn:HQ.
    + by rewrite !decide_True by done.
    + rewrite !decide_False by done. revert IH.
      by destruct (list_find (λ x, Q x = true) _) as [[? ?]|], (list_find (λ x, P x && Q x = true) l) as [[? ?]|].
  - rewrite decide_False by done. rewrite IH. rewrite (decide_False (P := _ && _ = true)) by done.
    by destruct (list_find (λ x, P x && Q x = true) l) as [[? ?]|].
Qed.

Lemma check_access_first now pol s r p :
  AclPolicy_check_access now pol s r p =
    if p_enabled pol then
      match snd <$> list_find (λ e, speaks now s r p e = true) (p_entries pol) with
      | Some e => e_grant e
      | None => allow_all (p_default_access_level pol)
      end
    else allow_all (p_default_access_level pol).
Proof.
  unfold AclPolicy_check_access, speaks. destruct (p_enabled pol); [|done]. cbn [negb].
  rewrite <- list_find_filter. set (es := filter _ _).
  assert (Forall (λ e, AclEntry_is_valid now e = true) es) as HF.
  { apply Forall_forall. intros e [He _]%list_elem_of_filter. by eapply entry_applies_valid. }
  destruct es as [|e es]; [done|]. rewrite check_entries_first by done.
  by destruct (list_find (λ x, covers p x = true) (e :: es)) as [[? ?]|].
Qed.

(** A policy is evaluated first-match: when it is enabled, the first entry of
    the list that applies to the request and includes the permission decides, by
    granting or denying; without one, and when the policy is disabled, only the
    level [AllowAll] admits. Entries that are expired never take part. *)
Theorem policy_first_match now pol s r p :
  AclPolicy_check_access now pol s r p =
    (if p_enabled pol then
       match snd <$> list_find (λ e, speaks now s r p e = true) (p_entries pol) with
       | Some e => e_grant e
       | None => allow_all (p_default_access_level pol)
       end
     else allow_all (p_default_access_level pol)) ∧
  (∀ e t, e_expires_at e = Some t → t < now → speaks now s r p e = false).
Proof.
  split; [apply check_access_first|].
  intros e t He Ht. unfold speaks, entry_applies, AclEntry_is_valid. rewrite He.
  rewrite (proj2 (Z.ltb_lt t now)) by done. by rewrite !andb_false_r.
Qed.

(** ** The system *)

Lemma find_grant_spec now s r p es :
  match find_grant now s r p es with
  | Some e => e ∈ es ∧ speaks now s r p e = true ∧ e_grant e = true
  | None => ∀ e, e ∈ es → speaks now s r p e = true → e_grant e = false
  end.
Proof.
  induction es as [|e es IH]; [by intros ? ?%elem_of_nil|]. cbn [find_grant].
  destruct (entry_applies now s r e) eqn:Ha; cbn [andb].
  - rewrite (grants_permission_covers now e p) by (by eapply entry_applies_valid).
    destruct (e_grant e) eqn:Hg, (covers p e) eqn:Hc; cbn [andb].
    + split; [by left|]. unfold speaks. by rewrite Ha, Hc.
    + destruct (find_grant now s r p es) as [x|]; [split; [right; apply IH|apply IH]|].
      intros x [->|Hx]%elem_of_cons; [unfold speaks; by rewrite Hc, andb_false_r|by apply IH].
    + destruct (find_grant now s r p es) as [x|]; [split; [right; apply IH|apply IH]|].
      by intros x [->|Hx]%elem_of_cons; [|apply IH].
    + destruct (find_grant now s r p es) as [x|]; [split; [right; apply IH|apply IH]|].
      by intros x [->|Hx]%elem_of_cons; [|apply IH].
  - destruct (find_grant now s r p es) as [x|]; [split; [right; apply IH|apply IH]|].
    intros x [->|Hx]%elem_of_cons; [unfold speaks; by rewrite Ha|by apply IH].
Qed.

(** What [AccessControl::check_access] grants: with a default policy set and
    present, exactly the requests of a subject whose id is the resource's owner,
    the requests that some entry, anywhere in the list, grants, and everything
    under [AllowAll]; without a default policy nothing. An entry the decision
    names is one that grants the request. *)
Theorem access_control_grants now ac s r p :
  (AccessControl_can now ac s r p = true ↔
     ∃ id pol, ac_default_policy ac = Some id ∧ ac_policies ac !! id = Some pol ∧
       (r_owner r = Some (s_id s) ∨
        (∃ e, e ∈ p_entries pol ∧ speaks now s r p e = true ∧ e_grant e = true) ∨
        p_default_access_level pol = AllowAll)) ∧
  (∀ i, d_matched_entry (AccessControl_check_access now ac s r p) = Some i →
     ∃ id pol e, ac_default_policy ac = Some id ∧ ac_policies ac !! id = Some pol ∧ e ∈ p_entries pol ∧
       e_id e = i ∧ speaks now s r p e = true ∧ e_grant e = true).
Proof.
  unfold AccessControl_can, AccessControl_check_access.
  destruct (ac_default_policy ac) as [id|]; [|split; [split; [done|naive_solver]|done]].
  destruct (ac_policies ac !! id) as [pol|] eqn:Hp; [|split; [split; [done|naive_solver]|done]].
  pose proof (find_grant_spec now s r p (p_entries pol)) as Hf.
  assert (is_owner s r = true ↔ r_owner r = Some (s_id s)) as Ho.
  { unfold is_owner. destruct (r_owner r); [rewrite bool_decide_eq_true|]; naive_solver. }
  destruct (is_owner s r); [split; [|done]; split; [intros _|done]; exists id, pol; naive_solver|].
  destruct (find_grant now s r p (p_entries pol)) as [e|].
  - destruct Hf as (? & ? & ?). split; [split; [|done]|naive_solver]. intros _. exists id, pol. naive_solver.
  - unfold allow_all. case_bool_decide as Hd; (split; [split; [|]|done]).
    + intros _. exists id, pol. naive_solver.
    + done.
    + done.
    + intros (id' & pol' & [= <-] & Hp' & Hx). rewrite Hp in Hp'. injection Hp' as <-.
      destruct Hx as [Hx|[(e & He & Hs & Hg)|Hx]]; [by apply Ho|by rewrite (Hf e He Hs) in Hg|done].
Qed.

(** The two evaluators compared: [AccessControl] answers by the default policy
    alone, and ignores what distinguishes it from [AclPolicy::check_access]. *)

Definition without_denials (pol : AclPolicy) : AclPolicy :=
  set_entries pol (filter (λ e, e_grant e = true) (p_entries pol)) true (p_updated_at pol).

Definition map_policies (f : AclPolicy → AclPolicy) (ac : AccessControl) : AccessControl :=
  mkAccessControl (f <$> ac_policies ac) (ac_default_policy ac) (ac_config ac).

Lemma find_grant_filter now s r p es :
  find_grant now s r p (filter (λ e, e_grant e = true) es) = find_grant now s r p es.
Proof.
  induction es as [|e es IH]; [done|]. rewrite filter_cons. cbn [find_grant].
  destruct (e_grant e) eqn:Hg.
  - rewrite decide_True by done. cbn [find_grant]. by rewrite IH.
  - rewrite decide_False by done. rewrite IH. unfold AclEntry_grants_permission. rewrite Hg.
    by destruct (AclEntry_is_valid now e); cbn [negb andb]; rewrite andb_false_r.
Qed.

(** Denying entries and the [enabled] flag of a policy have no effect on the
    answers of [AccessControl]. *)
Theorem denials_ignored now ac s r p :
  AccessControl_check_access now (map_policies without_denials ac) s r p = AccessControl_check_access now ac s r p.
Proof.
  unfold AccessControl_check_access, map_policies. cbn [ac_default_policy ac_policies].
  destruct (ac_default_policy ac) as [id|]; [|done]. rewrite lookup_fmap.
  destruct (ac_policies ac !! id) as [pol|]; [|done]. cbn [fmap option_fmap option_map without_denials set_entries p_entries p_default_access_level].
  by rewrite find_grant_filter.
Qed.

(** The two evaluators agree on an enabled default policy without denying
    entries, for requests that do not come from the owner of the resource. Putting
    an applicable denying entry in front makes the policy refuse, but leaves the
    answer of the system as it was. *)
Theorem evaluators_agree now ac id pol s r p :
  ac_default_policy ac = Some id → ac_policies ac !! id = Some pol → p_enabled pol = true →
  Forall (λ e, e_grant e = true) (p_entries pol) → is_owner s r = false →
  AccessControl_can now ac s r p = AclPolicy_check_access now pol s r p ∧
  (∀ e, speaks now s r p e = true → e_grant e = false →
     let pol' := set_entries pol (e :: p_entries pol) true now in
     let ac' := mkAccessControl (<[id := pol']> (ac_policies ac)) (Some id) (ac_config ac) in
     AclPolicy_check_access now pol' s r p = false ∧
     AccessControl_can now ac' s r p = AccessControl_can now ac s r p).
Proof.
  intros Hd Hp He HF Ho. unfold AccessControl_can, AccessControl_check_access. rewrite Hd, Hp, Ho.
  pose proof (find_grant_spec now s r p (p_entries pol)) as Hf. split.
  - rewrite check_access_first, He. rewrite Forall_forall in HF.
    destruct (list_find _ _) as [[i x]|] eqn:Hx; cbn.
    + apply list_find_Some in Hx as (Hi & Hs & _). apply list_elem_of_lookup_2 in Hi.
      destruct (find_grant _ _ _ _ _) as [e|]; [symmetry; by apply HF|].
      pose proof (HF _ Hi). by rewrite (Hf x Hi Hs) in *.
    + apply list_find_None in Hx. rewrite Forall_forall in Hx.
      destruct (find_grant _ _ _ _ _) as [e|]; [|by destruct (allow_all _)].
      destruct Hf as (Hi & Hs & _). by destruct (Hx e Hi).
  - intros e Hs Hg. cbn [ac_default_policy ac_policies]. rewrite lookup_insert_eq.
    rewrite check_access_first. cbn [set_entries p_enabled p_entries p_default_access_level list_find find_grant].
    rewrite decide_True by done. split; [done|].
    assert (AclEntry_grants_permission now e p = false) as ->.
    { unfold AclEntry_grants_permission. rewrite Hg. by destruct (AclEntry_is_valid now e). }
    by rewrite andb_false_r.
Qed.

(** ** Reachable states *)

Inductive acl_step : AccessControl → AccessControl → Prop :=
| step_add ac pol : acl_step ac (AccessControl_add_policy ac pol).1
| step_default ac id : acl_step ac (AccessControl_set_default_policy ac id).1
| step_remove ac id : acl_step ac (AccessControl_remove_policy ac id).1.

Definition acl_reachable (config : AclConfig) : AccessControl → Prop := rtc acl_step (AccessControl_new config).

Definition default_present (ac : AccessControl) : Prop :=
  ∀ id, ac_default_policy ac = Some id → is_Some (ac_policies ac !! id).

Lemma add_policy_size ac pol :
  (size (ac_policies ac) ≤ c_max_entries_per_policy (ac_config ac))%nat →
  (size (ac_policies (AccessControl_add_policy ac pol).1) ≤ c_max_entries_per_policy (ac_config ac))%nat.
Proof.
  intros Hb. unfold AccessControl_add_policy. destruct (Nat.leb_spec (c_max_entries_per_policy (ac_config ac)) (size (ac_policies ac))); [done|].
  cbn. rewrite map_size_insert. destruct (ac_policies ac !! p_id pol); cbn; lia.
Qed.

Definition acl_ok (config : AclConfig) (ac : AccessControl) : Prop :=
  default_present ac ∧ ac_config ac = config ∧ (size (ac_policies ac) ≤ c_max_entries_per_policy config)%nat.

Lemma acl_step_ok config ac ac' : acl_step ac ac' → acl_ok config ac → acl_ok config ac'.
Proof.
  intros Hst (Hd & <- & Hs). destruct Hst as [ac pol|ac id|ac id].
  - pose proof (add_policy_size ac pol Hs). unfold acl_ok.
    split_and!; [|by unfold AccessControl_add_policy; destruct (Nat.leb _ _)|done].
    unfold AccessControl_add_policy. destruct (Nat.leb _ _); [done|]. intros id Hid. cbn in *.
    destruct (decide (id = p_id pol)) as [->|]; [by rewrite lookup_insert_eq|rewrite lookup_insert_ne by done; by apply Hd].
  - unfold AccessControl_set_default_policy, set_default_check.
    destruct (ac_policies ac !! id) eqn:Hid; [|done]. split_and!; [|done|done]. intros ? [= <-]. cbn. by rewrite Hid.
  - split_and!; [|done|].
    + intros i Hi. cbn in *. case_bool_decide as Hx; [done|]. rewrite lookup_delete_ne by congruence. by apply Hd.
    + cbn [fst AccessControl_remove_policy ac_policies]. pose proof (map_size_delete id (ac_policies ac)) as Hz.
      destruct (ac_policies ac !! id); rewrite Hz; [by etrans; [apply Nat.le_pred_l|]|done].
Qed.

Lemma acl_reachable_ok config ac : acl_reachable config ac → acl_ok config ac.
Proof.
  intros Hr. unfold acl_reachable in Hr.
  revert ac Hr. apply (rtc_ind_r (R := acl_step) (acl_ok config)); [|intros; by eapply acl_step_ok].
  split_and!; [done|done|]. cbn [ac_policies AccessControl_new]. rewrite map_size_empty. lia.
Qed.

(** In every state the operations reach, the default policy is one of the
    stored policies, so [check_access] never finds it missing; the number of
    policies stays within the configured maximum, and the configuration never
    changes. (Only a [remove_policy] between the two halves of
    [set_default_policy] leaves a default that is gone; requests are then denied.) *)
Theorem acl_invariant config ac :
  acl_reachable config ac →
  default_present ac ∧ ac_config ac = config ∧ (size (ac_policies ac) ≤ c_max_entries_per_policy config)%nat ∧
  (∀ now s r p, d_reason (AccessControl_check_access now ac s r p) ≠ "Default policy not found"%string) ∧
  (∀ now s r p id, set_default_check ac id = Ok tt →
     d_granted (AccessControl_check_access now
       (set_default_write (AccessControl_remove_policy ac id).1 id) s r p) = false).
Proof.
  intros (Hd & Hc & Hs)%acl_reachable_ok. split_and!; [done|done|done|..].
  - intros now s r p. unfold AccessControl_check_access. destruct (ac_default_policy ac) as [id|] eqn:Hi; [|done].
    destruct (Hd id Hi) as [pol ->]. destruct (is_owner s r); [done|].
    destruct (find_grant _ _ _ _ _); [done|]. by destruct (allow_all _).
  - intros now s r p id _. unfold AccessControl_check_access. cbn. by rewrite lookup_delete_eq.
Qed.

(** ** Witnesses *)

Definition alice : Subject := Subject_new_user "alice".
Definition blob : Resource := Resource_new RBlob "b".
Definition sample_policy : AclPolicy :=
  AclPolicy_add_entry 0 (AclPolicy_new 0 "p" "policy") (AclEntry_new 0 "e" alice (Resource_new RBlob "*") [Write] true).
Definition sample_acl : AccessControl :=
  (AccessControl_set_default_policy (AccessControl_add_policy (AccessControl_new AclConfig_default) sample_policy).1 "p").1.

Lemma evaluators_agree_witness :
  AccessControl_can 5 sample_acl alice blob Read = true.
Proof.
  rewrite (proj1 (evaluators_agree 5 sample_acl "p" sample_policy alice blob Read
    ltac:(reflexivity) ltac:(reflexivity) ltac:(reflexivity) ltac:(repeat constructor) ltac:(reflexivity))).
  reflexivity.
Defined.

Lemma acl_invariant_witness : default_present sample_acl.
Proof.
  refine (proj1 (acl_invariant AclConfig_default sample_acl _)).
  eapply rtc_l; [exact (step_add _ sample_policy)|]. eapply rtc_l; [exact (step_default _ "p")|]. apply rtc_refl.
Defined.
