(* ===== verification/Session.v ===== *)
(** * Encrypted sessions ([crates/a3net-security/src/session.rs])

    A session derives one message key per message from a chain key that is
    hashed forward; keys of messages that have not arrived yet are kept aside.
    AES-256-GCM is the class [Aead] and HKDF-SHA-256 the class [Hkdf], both third
    party, with the laws [AeadLaws] and [HkdfLaws]; BLAKE3 is the class [Blake3].
    Random bytes, fresh identifiers and the clock (nanoseconds, read once per
    operation) are arguments. Message counters are [u64] and wrap, as in a release
    build. [None] is a panic. The metadata maps, which nothing reads, are left out. *)
From stdpp Require Import prelude strings gmap list.
From Stdlib Require Import NArith ZArith Lia.
From S2P Require Import Prelude NodeId ContentHash SecError.

#[local] Open Scope N_scope.

(** ** The cryptographic libraries *)

Class Aead : Type := {
  aead_seal : list N → list N → list N → option (list N);
  aead_open : list N → list N → list N → option (list N);
  aead_error_text : string;
  invalid_length_text : string
}.

(** Decryption inverts encryption under the same key and nonce, and encryption
    succeeds up to the limit of the GCM mode, [2^36] bytes. *)
Class AeadLaws (A : Aead) : Prop := {
  aead_open_seal key nonce p c : aead_seal key nonce p = Some c → aead_open key nonce c = Some p;
  aead_seal_total key nonce p : N.of_nat (length p) ≤ 2 ^ 36 → is_Some (aead_seal key nonce p)
}.

Class Hkdf : Type := { hkdf_sha256 : list N → list N → list N → nat → list N }.
Class HkdfLaws (H : Hkdf) : Prop := {
  hkdf_length salt ikm info len : length (hkdf_sha256 salt ikm info len) = len
}.

(** ** Data *)

Inductive SessionState : Type := SActive | SPaused | STerminated | SExpired.

#[global] Instance SessionState_eq_dec : EqDecision SessionState.
Proof. solve_decision. Defined.

Record EncryptedMessage : Type := mkEncryptedMessage {
  em_session_id : string;
  em_ciphertext : list N;
  em_nonce : list N;
  em_message_number : N;
  em_previous_hash : option (list N);
  em_timestamp : Z
}.

Definition EncryptedMessage_new (now : Z) (id : string) (ciphertext nonce : list N) (number : N) : EncryptedMessage :=
  mkEncryptedMessage id ciphertext nonce number None now.

Definition EncryptedMessage_get_nonce (m : EncryptedMessage) : option (list N) :=
  if Nat.leb 12 (length (em_nonce m)) then Some (take 12 (em_nonce m)) else None.

Record SessionConfig : Type := mkSessionConfig {
  sc_max_message_keys : N;
  sc_session_timeout : Z;
  sc_max_skipped_messages : nat;
  sc_forward_secrecy : bool;
  sc_break_in_recovery : bool;
  sc_root_key_info : list N;
  sc_chain_key_info : list N
}.

Definition SessionConfig_default : SessionConfig :=
  mkSessionConfig 1000 (30 * 86400 * 1000000000) 100 true true
    (str_bytes "a3net-session-root") (str_bytes "a3net-session-chain").

Record KeyState : Type := mkKeyState {
  ks_root_key : list N;
  ks_chain_key : list N;
  ks_send_message_number : N;
  ks_receive_message_number : N;
  ks_dh_private : list N;
  ks_remote_dh_public : option (list N);
  ks_previous_root_key : option (list N);
  ks_skipped_keys : gmap N (list N)
}.

Record Session : Type := mkSession {
  ss_id : string;
  ss_peer_id : string;
  ss_state : SessionState;
  ss_keys : KeyState;
  ss_config : SessionConfig;
  ss_created_at : Z;
  ss_last_used : Z
}.

(** [SessionId::from_hex]. *)
Definition SessionId_from_hex `{Hex} (s : string) : option string :=
  if negb (Nat.eqb (String.length s) 64) then None
  else match hex_decode s with Some _ => Some s | None => None end.

(** ** Key derivation *)

Definition u64_succ (n : N) : N := (n + 1) mod 2 ^ 64.
Definition le_bytes64 (n : N) : list N := rev (be_bytes 8 n).

Definition derive_chain_key `{Hkdf} (root_key info : list N) : list N :=
  hkdf_sha256 info root_key (str_bytes "chain") 32.

Definition derive_message_key `{Blake3} (chain_key : list N) (message_number : N) : list N :=
  blake3_hash (chain_key ++ le_bytes64 message_number ++ [2]).

(** The loop over the 32 bytes of the private key, which must be there. *)
Definition dh_combine (dh_private remote_public : list N) : option (list N) :=
  mapM (λ i : nat, b ← dh_private !! i; Some ((b + default 0 (remote_public !! i)) mod 256)) (seq 0 32).

Definition derive_ratchet_keys `{Hkdf} (root_key dh_private remote_public info : list N)
  : option (list N * list N) :=
  dh_result ← dh_combine dh_private remote_public;
  let okm := hkdf_sha256 info (root_key ++ dh_result) (str_bytes "ratchet") 64 in
  Some (take 32 okm, drop 32 okm).

(** ** Encryption of one message *)

Definition encrypt_aead `{Aead} (nonce plaintext key : list N) : result SecurityError (list N) :=
  if negb (Nat.eqb (length key) 32) then Err (EncryptionFailed invalid_length_text)
  else
    match aead_seal key nonce plaintext with
    | Some ct => Ok (nonce ++ ct)
    | None => Err (EncryptionFailed aead_error_text)
    end.

Definition decrypt_aead `{Aead} (ciphertext key : list N) : result SecurityError (list N) :=
  if Nat.ltb (length ciphertext) 12 then Err (DecryptionFailed "Ciphertext too short")
  else if negb (Nat.eqb (length key) 32) then Err (DecryptionFailed invalid_length_text)
  else
    match aead_open key (take 12 ciphertext) (drop 12 ciphertext) with
    | Some p => Ok p
    | None => Err (DecryptionFailed aead_error_text)
    end.

(** ** The session *)

Definition set_keys (s : Session) (k : KeyState) : Session :=
  mkSession (ss_id s) (ss_peer_id s) (ss_state s) k (ss_config s) (ss_created_at s) (ss_last_used s).
Definition set_state (s : Session) (st : SessionState) : Session :=
  mkSession (ss_id s) (ss_peer_id s) st (ss_keys s) (ss_config s) (ss_created_at s) (ss_last_used s).
Definition touch (now : Z) (s : Session) : Session :=
  mkSession (ss_id s) (ss_peer_id s) (ss_state s) (ss_keys s) (ss_config s) (ss_created_at s) now.

Definition set_chain (k : KeyState) (ck : list N) : KeyState :=
  mkKeyState (ks_root_key k) ck (ks_send_message_number k) (ks_receive_message_number k) (ks_dh_private k)
    (ks_remote_dh_public k) (ks_previous_root_key k) (ks_skipped_keys k).
Definition set_send (k : KeyState) (n : N) : KeyState :=
  mkKeyState (ks_root_key k) (ks_chain_key k) n (ks_receive_message_number k) (ks_dh_private k)
    (ks_remote_dh_public k) (ks_previous_root_key k) (ks_skipped_keys k).
Definition set_receive (k : KeyState) (n : N) : KeyState :=
  mkKeyState (ks_root_key k) (ks_chain_key k) (ks_send_message_number k) n (ks_dh_private k)
    (ks_remote_dh_public k) (ks_previous_root_key k) (ks_skipped_keys k).
Definition set_skipped (k : KeyState) (sk : gmap N (list N)) : KeyState :=
  mkKeyState (ks_root_key k) (ks_chain_key k) (ks_send_message_number k) (ks_receive_message_number k)
    (ks_dh_private k) (ks_remote_dh_public k) (ks_previous_root_key k) sk.

Section Session.
Context `{HB : Blake3} `{HA : Aead} `{HK : Hkdf}.

(** [new_initiator] and [new_responder]: the random bytes and the new id are
    arguments. *)
Definition Session_new_initiator (now : Z) (id : string) (dh_private root_key : list N) (peer_id : string)
  (config : SessionConfig) : Session :=
  mkSession id peer_id SActive
    (mkKeyState root_key (derive_chain_key root_key (sc_chain_key_info config)) 0 0 dh_private None None ∅)
    config now now.

Definition Session_new_responder (now : Z) (id : string) (dh_private root_key : list N) (peer_id : string)
  (peer_public_key : list N) (config : SessionConfig) : Session :=
  mkSession id peer_id SActive (mkKeyState root_key [] 0 0 dh_private (Some peer_public_key) None ∅) config now now.

Definition next_chain_key (ck : list N) : list N := blake3_hash (ck ++ [1]).
Definition advance_chain_key (k : KeyState) : KeyState := set_chain k (next_chain_key (ks_chain_key k)).

Definition Session_encrypt (now : Z) (nonce : list N) (s : Session) (plaintext : list N)
  : Session * result SecurityError EncryptedMessage :=
  if negb (bool_decide (ss_state s = SActive)) then (s, Err (SessionError "Session is not active"))
  else
    let k := ss_keys s in
    let message_key := derive_message_key (ks_chain_key k) (ks_send_message_number k) in
    match encrypt_aead nonce plaintext message_key with
    | Err e => (s, Err e)
    | Ok ciphertext =>
        let k := advance_chain_key k in
        let message_number := ks_send_message_number k in
        let k := set_send k (u64_succ message_number) in
        let msg := EncryptedMessage_new now (ss_id s) ciphertext [] message_number in
        (touch now (set_keys s k),
         Ok (mkEncryptedMessage (em_session_id msg) (em_ciphertext msg) (em_nonce msg) (em_message_number msg)
               (Some (blake3_hash plaintext)) (em_timestamp msg)))
    end.

(** The [while] loop of [decrypt]: [fuel] is the number of keys to skip. *)
Fixpoint skip_keys (fuel : nat) (message_number : N) (k : KeyState) : KeyState :=
  match fuel with
  | O => k
  | S fuel' =>
      if ks_receive_message_number k <? message_number then
        let skipped_key := derive_message_key (ks_chain_key k) (ks_receive_message_number k) in
        let k := set_skipped k (<[ks_receive_message_number k := skipped_key]> (ks_skipped_keys k)) in
        let k := advance_chain_key k in
        let k := set_receive k (u64_succ (ks_receive_message_number k)) in
        skip_keys fuel' message_number k
      else k
  end.

Definition skip_fuel (message_number : N) (k : KeyState) : nat :=
  N.to_nat (message_number - ks_receive_message_number k).

Definition Session_decrypt (now : Z) (s : Session) (message : EncryptedMessage)
  : Session * result SecurityError (list N) :=
  if negb (bool_decide (ss_state s = SActive)) then (s, Err (SessionError "Session is not active"))
  else
    let k := ss_keys s in
    match ks_skipped_keys k !! em_message_number message with
    | Some skipped_key =>
        (set_keys s (set_skipped k (delete (em_message_number message) (ks_skipped_keys k))),
         decrypt_aead (em_ciphertext message) skipped_key)
    | None =>
        let k := skip_keys (skip_fuel (em_message_number message) k) (em_message_number message) k in
        let message_key := derive_message_key (ks_chain_key k) (ks_receive_message_number k) in
        match decrypt_aead (em_ciphertext message) message_key with
        | Err e => (set_keys s k, Err e)
        | Ok plaintext =>
            let k := advance_chain_key k in
            let k := set_receive k (u64_succ (ks_receive_message_number k)) in
            (touch now (set_keys s k), Ok plaintext)
        end
    end.

(** [ratchet]: [fresh] overwrites the private key in place. *)
Definition Session_ratchet (fresh : list N) (s : Session) (remote_public_key : list N)
  : option (Session * result SecurityError unit) :=
  let k := ss_keys s in
  let previous := if sc_forward_secrecy (ss_config s) then Some (ks_root_key k) else ks_previous_root_key k in
  '(new_root_key, new_chain_key) ←
     derive_ratchet_keys (ks_root_key k) (ks_dh_private k) remote_public_key (sc_root_key_info (ss_config s));
  Some (set_keys s (mkKeyState new_root_key new_chain_key 0 0 (take (length (ks_dh_private k)) fresh)
          (Some remote_public_key) previous (ks_skipped_keys k)), Ok tt).

Definition Session_is_expired (now : Z) (s : Session) : bool :=
  (sc_session_timeout (ss_config s) <? now - ss_last_used s)%Z.

Definition Session_pause (s : Session) : Session := set_state s SPaused.

Definition Session_resume (s : Session) : Session * result SecurityError unit :=
  if negb (bool_decide (ss_state s = SPaused)) then (s, Err (SessionError "Can only resume paused sessions"))
  else (set_state s SActive, Ok tt).

Definition Session_terminate (s : Session) : Session :=
  let k := ss_keys s in
  set_keys (set_state s STerminated)
    (mkKeyState [] [] (ks_send_message_number k) (ks_receive_message_number k) []
       (ks_remote_dh_public k) (ks_previous_root_key k) ∅).

Record SessionStats : Type := mkSessionStats {
  st_id : string; st_peer_id : string; st_state : SessionState; st_send_count : N; st_receive_count : N;
  st_skipped_count : nat; st_created_at : Z; st_last_used : Z
}.

Definition Session_stats (s : Session) : SessionStats :=
  mkSessionStats (ss_id s) (ss_peer_id s) (ss_state s) (ks_send_message_number (ss_keys s))
    (ks_receive_message_number (ss_keys s)) (size (ks_skipped_keys (ss_keys s))) (ss_created_at s) (ss_last_used s).

(** ** The session manager *)

Record SessionManager : Type := mkSessionManager { mg_sessions : gmap string Session; mg_config : SessionConfig }.

Definition SessionManager_new (config : SessionConfig) : SessionManager := mkSessionManager ∅ config.

Definition with_sessions (m : SessionManager) (ss : gmap string Session) : SessionManager :=
  mkSessionManager ss (mg_config m).

Definition SessionManager_create_session (now : Z) (id : string) (dh_private root_key : list N) (m : SessionManager)
  (peer_id : string) (is_initiator : bool) (peer_public_key : option (list N))
  : SessionManager * result SecurityError string :=
  let session : result SecurityError Session :=
    if is_initiator then Ok (Session_new_initiator now id dh_private root_key peer_id (mg_config m))
    else
      let? public_key := ok_or (SessionError "Peer public key required for responder") peer_public_key in
      Ok (Session_new_responder now id dh_private root_key peer_id public_key (mg_config m)) in
  match session with
  | Err e => (m, Err e)
  | Ok s => (with_sessions m (<[ss_id s := s]> (mg_sessions m)), Ok (ss_id s))
  end.

Definition SessionManager_get_session (m : SessionManager) (id : string) : result SecurityError Session :=
  ok_or (SessionNotFound id) (mg_sessions m !! id).

(** [get_session_mut] also returns a copy. *)
Definition SessionManager_get_session_mut (m : SessionManager) (id : string) : result SecurityError Session :=
  ok_or (SessionNotFound id) (mg_sessions m !! id).

Definition SessionManager_update_session (m : SessionManager) (s : Session)
  : SessionManager * result SecurityError unit :=
  match mg_sessions m !! ss_id s with
  | Some _ => (with_sessions m (<[ss_id s := s]> (mg_sessions m)), Ok tt)
  | None => (m, Err (SessionNotFound (ss_id s)))
  end.

Definition SessionManager_remove_session (m : SessionManager) (id : string)
  : SessionManager * result SecurityError Session :=
  (with_sessions m (delete id (mg_sessions m)), ok_or (SessionNotFound id) (mg_sessions m !! id)).

Definition session_dead (now : Z) (s : Session) : bool :=
  Session_is_expired now s || bool_decide (ss_state s = STerminated).

Definition SessionManager_cleanup_expired (now : Z) (m : SessionManager) : SessionManager * nat :=
  let expired := (filter (λ x, session_dead now x.2 = true) (map_to_list (mg_sessions m))).*1 in
  (with_sessions m (delete_all expired (mg_sessions m)), length expired).

Definition SessionManager_list_sessions (m : SessionManager) : list SessionStats :=
  Session_stats <$> (map_to_list (mg_sessions m)).*2.

Definition SessionManager_session_count (m : SessionManager) : nat := size (mg_sessions m).
End Session.

(** ** One message *)

Section SessionTheorems.
Context `{HB : Blake3} {HBL : Blake3Laws HB} `{HA : Aead} {HAL : AeadLaws HA} `{HK : Hkdf} {HKL : HkdfLaws HK}.
Implicit Types (s : Session) (k : KeyState) (now : Z).

(** The chain key after [i] steps. *)
Definition chain (ck : list N) (i : nat) : list N := Nat.iter i next_chain_key ck.

Lemma chain_S ck i : next_chain_key (chain ck i) = chain ck (S i).
Proof. done. Qed.

Lemma length_message_key ck n : length (derive_message_key ck n) = 32%nat.
Proof. apply blake3_length. Qed.

Lemma decrypt_encrypt_aead nonce p c key :
  length nonce = 12%nat → encrypt_aead nonce p key = Ok c → decrypt_aead c key = Ok p.
Proof.
  intros Hn. unfold encrypt_aead, decrypt_aead. destruct (Nat.eqb_spec (length key) 32) as [Hk|]; [cbn [negb]|done].
  destruct (aead_seal key nonce p) as [ct|] eqn:Hs; [|done]. intros [= <-].
  destruct (Nat.ltb_spec (length (nonce ++ ct)) 12) as [Hl|_]; [rewrite length_app in Hl; lia|].
  rewrite take_app_length', drop_app_length' by done. by rewrite (aead_open_seal _ _ _ _ Hs).
Qed.

Lemma encrypt_aead_total nonce p ck n :
  N.of_nat (length p) ≤ 2 ^ 36 → ∃ c, encrypt_aead nonce p (derive_message_key ck n) = Ok c.
Proof.
  intros Hp. unfold encrypt_aead. rewrite length_message_key. cbn [Nat.eqb negb].
  destruct (aead_seal_total (derive_message_key ck n) nonce p Hp) as [ct ->]. eauto.
Qed.

(** *** The skipping loop *)

(** Skipping [j] keys from [r] moves the chain by [j] and files the key of every
    message passed over. *)
Lemma skip_keys_spec j k t :
  ks_receive_message_number k + N.of_nat j = t → t < 2 ^ 64 →
  ∃ sk, skip_keys j t k = set_receive (set_chain (set_skipped k sk) (chain (ks_chain_key k) j)) t ∧
    ∀ n, sk !! n =
      if bool_decide (ks_receive_message_number k ≤ n ∧ n < t)
      then Some (derive_message_key (chain (ks_chain_key k) (N.to_nat (n - ks_receive_message_number k))) n)
      else ks_skipped_keys k !! n.
Proof.
  revert k. induction j as [|j IH]; intros k Ht Hb.
  - exists (ks_skipped_keys k). split.
    + cbn. destruct k. cbn in *. unfold set_receive, set_chain, set_skipped. cbn. f_equal. lia.
    + intros n. rewrite bool_decide_false by lia. done.
  - cbn [skip_keys]. rewrite (proj2 (N.ltb_lt _ _)) by lia.
    set (r := ks_receive_message_number k) in *. set (ck := ks_chain_key k).
    set (k1 := set_receive _ _).
    assert (ks_receive_message_number k1 = r + 1) as Hr.
    { unfold k1, u64_succ. cbn. apply N.mod_small. fold r. lia. }
    assert (ks_chain_key k1 = next_chain_key ck) as Hc by done.
    destruct (IH k1) as (sk & -> & Hsk); [lia|done|]. exists sk. split.
    + rewrite Hc. unfold set_receive, set_chain, set_skipped, k1. cbn. f_equal.
      unfold chain. by rewrite <- Nat.iter_succ_r.
    + intros n. rewrite Hsk, Hr, Hc.
      destruct (decide (n = r)) as [->|Hn].
      * rewrite bool_decide_false by lia. rewrite bool_decide_true by lia.
        rewrite N.sub_diag. cbn. rewrite lookup_insert_eq. done.
      * case_bool_decide as Hx; case_bool_decide as Hy; [|lia|lia|].
        -- unfold chain. rewrite <- Nat.iter_succ_r. do 2 f_equal.
           replace (N.to_nat (n - r)) with (S (N.to_nat (n - (r + 1)))) by lia. done.
        -- cbn. by rewrite lookup_insert_ne by done.
Qed.

(** *** Reception *)

(** [receiving base ck done s]: of the messages from [base] on, whose chain
    starts at [ck], the session has received exactly those at the offsets
    [done], and can decrypt all others. *)
Record receiving (base : N) (ck : list N) (received : nat → Prop) (r : nat) s : Prop := {
  rc_state : ss_state s = SActive;
  rc_number : ks_receive_message_number (ss_keys s) = base + N.of_nat r;
  rc_chain : ks_chain_key (ss_keys s) = chain ck r;
  rc_received i : received i → (i < r)%nat;
  rc_pending i : (i < r)%nat → ¬ received i →
    ks_skipped_keys (ss_keys s) !! (base + N.of_nat i) = Some (derive_message_key (chain ck i) (base + N.of_nat i));
  rc_none i : (r ≤ i)%nat ∨ received i → ks_skipped_keys (ss_keys s) !! (base + N.of_nat i) = None
}.

Lemma receiving_ext base ck received received' r s :
  (∀ j, received j ↔ received' j) → receiving base ck received r s → receiving base ck received' r s.
Proof.
  intros Hx [H1 H2 H3 H4 H5 H6]. split; [done..| | |].
  - intros i Hi. by apply H4, Hx.
  - intros i Hi Hn. apply H5; [done|]. by rewrite Hx.
  - intros i Hi. apply H6. by rewrite Hx.
Qed.

(** Skipping up to offset [i] leaves a session that receives, at offset [i]. *)
Lemma receiving_skip base ck received r s i :
  receiving base ck received r s → (r ≤ i)%nat → base + N.of_nat i < 2 ^ 64 →
  receiving base ck received i
    (set_keys s (skip_keys (skip_fuel (base + N.of_nat i) (ss_keys s)) (base + N.of_nat i) (ss_keys s))).
Proof.
  intros [H1 H2 H3 H4 H5 H6] Hi Hb.
  destruct (skip_keys_spec (i - r) (ss_keys s) (base + N.of_nat i)) as (sk & Hk & Hsk); [lia|done|].
  assert (skip_fuel (base + N.of_nat i) (ss_keys s) = i - r)%nat as -> by (unfold skip_fuel; lia).
  rewrite Hk. rewrite H2, H3 in *. split; cbn [ss_state ss_keys set_keys ks_receive_message_number ks_chain_key ks_skipped_keys set_receive set_chain set_skipped].
  - done.
  - done.
  - unfold chain. rewrite <- Nat.iter_add. f_equal. lia.
  - intros j Hj. specialize (H4 j Hj). lia.
  - intros j Hj Hn. rewrite Hsk. case_bool_decide as Hx; [|apply H5; [lia|done]].
    replace (N.to_nat (base + N.of_nat j - (base + N.of_nat r))) with (j - r)%nat by lia.
    unfold chain. rewrite <- Nat.iter_add. do 2 f_equal. f_equal. lia.
  - intros j Hj. rewrite Hsk. rewrite bool_decide_false; [apply H6|].
    + destruct Hj as [?|?]; [left; lia|by right].
    + intros [Hx Hy]. destruct Hj as [?|Hj]; [lia|]. specialize (H4 j Hj). lia.
Qed.

Lemma decrypt_unfold now s m :
  ss_state s = SActive → ks_skipped_keys (ss_keys s) !! em_message_number m = None →
  let k := skip_keys (skip_fuel (em_message_number m) (ss_keys s)) (em_message_number m) (ss_keys s) in
  Session_decrypt now s m =
    match decrypt_aead (em_ciphertext m) (derive_message_key (ks_chain_key k) (ks_receive_message_number k)) with
    | Err e => (set_keys s k, Err e)
    | Ok p => (touch now (set_keys s (set_receive (advance_chain_key k) (u64_succ (ks_receive_message_number k)))), Ok p)
    end.
Proof. intros Hs Hn k. unfold Session_decrypt. rewrite bool_decide_true by done. cbn [negb]. by rewrite Hn. Qed.

(** A pending message is decrypted, and is then received. *)
Lemma decrypt_pending now base ck received r s i m p :
  receiving base ck received r s → ¬ received i → base + N.of_nat (S i) < 2 ^ 64 →
  em_message_number m = base + N.of_nat i →
  decrypt_aead (em_ciphertext m) (derive_message_key (chain ck i) (base + N.of_nat i)) = Ok p →
  ∃ s', Session_decrypt now s m = (s', Ok p) ∧
    receiving base ck (λ j, received j ∨ j = i) (Nat.max r (S i)) s'.
Proof.
  intros Hr Hi Hb Hm Hp. destruct (le_lt_dec r i) as [Hle|Hlt].
  - pose proof (receiving_skip _ _ _ _ _ i Hr Hle ltac:(lia)) as Hk.
    rewrite (decrypt_unfold now s m) by (apply (rc_state _ _ _ _ _ Hr) || (rewrite Hm; apply (rc_none _ _ _ _ _ Hr); by left)).
    rewrite Hm. set (k := skip_keys _ _ _) in *. destruct Hk as [H1 H2 H3 H4 H5 H6]. cbn [ss_keys set_keys] in *.
    rewrite H3, H2, Hp. eexists. split; [done|]. replace (Nat.max r (S i)) with (S i) by lia.
    split; cbn [ss_state ss_keys set_keys touch ks_receive_message_number ks_chain_key ks_skipped_keys set_receive set_chain advance_chain_key].
    + done.
    + unfold u64_succ. rewrite N.mod_small; lia.
    + by rewrite H3.
    + intros j [Hj| ->]; [specialize (H4 j Hj)|]; lia.
    + intros j Hj Hn. apply H5; [|tauto]. assert (j ≠ i) by tauto. lia.
    + intros j [Hj|[Hj| ->]]; apply H6; [left; lia|by right|left; lia].
  - pose proof (rc_pending _ _ _ _ _ Hr i Hlt Hi) as Hk. destruct Hr as [H1 H2 H3 H4 H5 H6].
    unfold Session_decrypt. rewrite bool_decide_true by done. cbn [negb]. rewrite Hm, Hk, Hp.
    eexists. split; [done|]. replace (Nat.max r (S i)) with r by lia.
    split; cbn [ss_state ss_keys set_keys ks_receive_message_number ks_chain_key ks_skipped_keys set_skipped]; [done..| | |].
    + intros j [Hj| ->]; [by apply H4|done].
    + intros j Hj Hn. rewrite lookup_delete_ne by (intros Hx; apply Hn; right; lia). apply H5; tauto.
    + intros j Hj. destruct (decide (j = i)) as [->|Hne]; [by rewrite lookup_delete_eq|].
      rewrite lookup_delete_ne by lia. apply H6. tauto.
Qed.

(** *** Conversations *)

(** Sending a list of plaintexts, each with its nonce; stops at an error. *)
Fixpoint send_all (now : Z) (s : Session) (l : list (list N * list N)) : Session * result SecurityError (list EncryptedMessage) :=
  match l with
  | [] => (s, Ok [])
  | (nonce, p) :: l' =>
      match Session_encrypt now nonce s p with
      | (s, Err e) => (s, Err e)
      | (s, Ok m) =>
          match send_all now s l' with
          | (s, Err e) => (s, Err e)
          | (s, Ok ms) => (s, Ok (m :: ms))
          end
      end
  end.

(** Receiving messages in a given order. *)
Fixpoint receive_all (now : Z) (s : Session) (ms : list EncryptedMessage) : Session * list (result SecurityError (list N)) :=
  match ms with
  | [] => (s, [])
  | m :: ms' =>
      let '(s, r) := Session_decrypt now s m in
      let '(s, rs) := receive_all now s ms' in (s, r :: rs)
  end.

Definition sendable (x : list N * list N) : Prop := length x.1 = 12%nat ∧ N.of_nat (length x.2) ≤ 2 ^ 36.

Lemma encrypt_active now s nonce p :
  ss_state s = SActive → sendable (nonce, p) →
  ∃ s' m, Session_encrypt now nonce s p = (s', Ok m) ∧
    em_message_number m = ks_send_message_number (ss_keys s) ∧
    decrypt_aead (em_ciphertext m)
      (derive_message_key (ks_chain_key (ss_keys s)) (ks_send_message_number (ss_keys s))) = Ok p ∧
    ss_state s' = SActive ∧ ks_chain_key (ss_keys s') = next_chain_key (ks_chain_key (ss_keys s)) ∧
    ks_send_message_number (ss_keys s') = u64_succ (ks_send_message_number (ss_keys s)) ∧
    ks_receive_message_number (ss_keys s') = ks_receive_message_number (ss_keys s) ∧
    ks_skipped_keys (ss_keys s') = ks_skipped_keys (ss_keys s).
Proof.
  intros Hs [Hn Hp]. unfold Session_encrypt. rewrite bool_decide_true by done. cbn [negb].
  destruct (encrypt_aead_total nonce p (ks_chain_key (ss_keys s)) (ks_send_message_number (ss_keys s)) Hp) as [c Hc].
  rewrite Hc. do 2 eexists. split_and!; [done|done|by eapply decrypt_encrypt_aead|done..].
Qed.

Lemma encrypt_step now s nonce p :
  ss_state s = SActive → sendable (nonce, p) → ks_send_message_number (ss_keys s) + 1 < 2 ^ 64 →
  ∃ s' m, Session_encrypt now nonce s p = (s', Ok m) ∧
    em_message_number m = ks_send_message_number (ss_keys s) ∧
    decrypt_aead (em_ciphertext m)
      (derive_message_key (ks_chain_key (ss_keys s)) (ks_send_message_number (ss_keys s))) = Ok p ∧
    ss_state s' = SActive ∧ ks_chain_key (ss_keys s') = next_chain_key (ks_chain_key (ss_keys s)) ∧
    ks_send_message_number (ss_keys s') = ks_send_message_number (ss_keys s) + 1 ∧
    ks_receive_message_number (ss_keys s') = ks_receive_message_number (ss_keys s) ∧
    ks_skipped_keys (ss_keys s') = ks_skipped_keys (ss_keys s).
Proof.
  intros Hs Hx Hb. pose proof (N.mod_small _ _ Hb) as Hm.
  destruct (encrypt_active now s nonce p Hs Hx) as (s' & m & Hr). exists s', m.
  unfold u64_succ in Hr. by rewrite Hm in Hr.
Qed.

Lemma send_all_spec now s l :
  ss_state s = SActive → Forall sendable l →
  ks_send_message_number (ss_keys s) + N.of_nat (length l) < 2 ^ 64 →
  ∃ s' ms, send_all now s l = (s', Ok ms) ∧ length ms = length l ∧ ss_state s' = SActive ∧
    ks_chain_key (ss_keys s') = chain (ks_chain_key (ss_keys s)) (length l) ∧
    ks_send_message_number (ss_keys s') = ks_send_message_number (ss_keys s) + N.of_nat (length l) ∧
    ∀ i m x, ms !! i = Some m → l !! i = Some x →
      em_message_number m = ks_send_message_number (ss_keys s) + N.of_nat i ∧
      decrypt_aead (em_ciphertext m) (derive_message_key (chain (ks_chain_key (ss_keys s)) i)
        (ks_send_message_number (ss_keys s) + N.of_nat i)) = Ok x.2.
Proof.
  intros Hs HF. revert s Hs. induction HF as [|[nonce p] l Hx _ IH]; intros s Hs Hb.
  - exists s, []. split_and!; [done|done|done|done|cbn; lia|done].
  - cbn [length] in Hb. destruct (encrypt_step now s nonce p Hs Hx) as (s1 & m & Hm & Hn & Hd & Hs1 & Hc & Hnum & _); [lia|].
    destruct (IH s1 Hs1) as (s2 & ms & Hms & Hl & Hs2 & Hc2 & Hn2 & Hall); [lia|].
    exists s2, (m :: ms). cbn [send_all]. rewrite Hm, Hms. split_and!; [done|cbn; lia|done| |cbn [length]; lia|].
    + rewrite Hc2, Hc. unfold chain. cbn [length]. by rewrite Nat.iter_succ_r.
    + intros [|i] m' x; cbn [lookup list_lookup].
      * intros [= <-] [= <-]. by rewrite N.add_0_r.
      * intros Hi Hx'. destruct (Hall i m' x Hi Hx') as [H1 H2]. rewrite Hnum in *.
        replace (ks_send_message_number (ss_keys s) + N.of_nat (S i))
          with (ks_send_message_number (ss_keys s) + 1 + N.of_nat i) by lia.
        split; [done|]. rewrite Hc in H2. unfold chain in *. by rewrite Nat.iter_succ_r.
Qed.

Lemma receive_order now base ck n (msg : nat → option EncryptedMessage) (pt : nat → option (list N)) order :
  base + N.of_nat n < 2 ^ 64 →
  (∀ i, (i < n)%nat → ∃ m p, msg i = Some m ∧ pt i = Some p ∧ em_message_number m = base + N.of_nat i ∧
     decrypt_aead (em_ciphertext m) (derive_message_key (chain ck i) (base + N.of_nat i)) = Ok p) →
  NoDup order → Forall (λ i, i < n)%nat order →
  ∀ received r s, receiving base ck received r s → (r ≤ n)%nat → (∀ i, i ∈ order → ¬ received i) →
  ∃ s' r', receive_all now s (omap msg order) = (s', Ok <$> omap pt order) ∧ (r' ≤ n)%nat ∧
    receiving base ck (λ j, received j ∨ j ∈ order) r' s'.
Proof.
  intros Hb Hm Hnd HF. induction Hnd as [|i order Hi Hnd IH]; intros received r s Hr Hle Hn.
  - exists s, r. split_and!; [done|done|]. eapply receiving_ext; [|done].
    intros j. rewrite elem_of_nil. tauto.
  - apply Forall_cons in HF as [Hin HF]. destruct (Hm i Hin) as (m & p & Hmi & Hpi & Hnum & Hd).
    destruct (decrypt_pending now base ck received r s i m p Hr) as (s1 & Hs1 & Hr1); [apply Hn; by left|lia|done|done|].
    destruct (IH HF _ _ _ Hr1) as (s2 & r2 & Hs2 & Hle2 & Hr2).
    { lia. } { intros j Hj [Hx| ->]; [|done]. apply (Hn j); [by right|done]. }
    exists s2, r2. cbn [omap list_omap]. rewrite Hmi, Hpi. cbn [receive_all]. rewrite Hs1, Hs2.
    split_and!; [done|done|]. eapply receiving_ext; [|done]. intros j. rewrite elem_of_cons. tauto.
Qed.

(** The receiver can take what the sender sends next: both are active, share the
    chain key and the counter, and no key is filed for a later message. *)
Definition in_step (a b : Session) : Prop :=
  ss_state a = SActive ∧ ss_state b = SActive ∧
  ks_chain_key (ss_keys a) = ks_chain_key (ss_keys b) ∧
  ks_send_message_number (ss_keys a) = ks_receive_message_number (ss_keys b) ∧
  ∀ n, ks_receive_message_number (ss_keys b) ≤ n → ks_skipped_keys (ss_keys b) !! n = None.

Lemma in_step_receiving a b :
  in_step a b → receiving (ks_send_message_number (ss_keys a)) (ks_chain_key (ss_keys a)) (λ _, False) 0 b.
Proof.
  intros (Ha & Hb & Hc & Hn & Hsk). split; [done|rewrite Hn; cbn; lia|by rewrite Hc|done|lia|].
  intros i _. apply Hsk. lia.
Qed.

(** Any batch of messages is decrypted in any order; there is no limit to how many arrive
    out of order ([skipped_keys_unbounded]). *)
Lemma receive_any_order now now' a b l order :
  in_step a b → Forall sendable l →
  ks_send_message_number (ss_keys a) + N.of_nat (length l) < 2 ^ 64 →
  NoDup order → Forall (λ i, i < length l)%nat order →
  ∃ a' ms b', send_all now a l = (a', Ok ms) ∧
    receive_all now' b (omap (ms !!.) order) = (b', Ok <$> omap (λ i, snd <$> l !! i) order) ∧
    (order ≡ₚ seq 0 (length l) → in_step a' b').
Proof.
  intros Hab Hl Hb Hnd HF. pose proof Hab as (Ha & _).
  destruct (send_all_spec now a l Ha Hl Hb) as (a' & ms & Hs & Hlen & Ha' & Hc & Hn & Hms).
  destruct (receive_order now' (ks_send_message_number (ss_keys a)) (ks_chain_key (ss_keys a)) (length l)
    (ms !!.) (λ i, snd <$> l !! i) order Hb) with (received := λ _ : nat, False) (r := 0%nat) (s := b)
    as (b' & r & Hr & Hle & Hrc); [|done|done|by apply in_step_receiving|lia|tauto|].
  { intros i Hi. destruct (lookup_lt_is_Some_2 ms i) as [m Hm]; [lia|].
    destruct (lookup_lt_is_Some_2 l i Hi) as [x Hx]. exists m, x.2. rewrite Hm, Hx. destruct (Hms i m x Hm Hx). done. }
  exists a', ms, b'. split_and!; [done|done|]. intros Hp.
  assert (∀ i, i ∈ order ↔ (i < length l)%nat) as Ho.
  { intros i. rewrite Hp, elem_of_seq. lia. }
  assert (r = length l) as ->.
  { destruct (length l) as [|n]; [lia|]. destruct Hrc as [_ _ _ H4 _ _].
    specialize (H4 n). assert (n < r)%nat by (apply H4; right; apply Ho; lia). lia. }
  destruct Hrc as [H1 H2 H3 H4 H5 H6]. split_and!; [done|done|by rewrite Hc, H3|by rewrite Hn, H2|].
  - intros n Hx. rewrite H2 in Hx.
    replace n with (ks_send_message_number (ss_keys a) + N.of_nat (N.to_nat (n - ks_send_message_number (ss_keys a)))) by lia.
    apply H6. left. lia.
Qed.

(** C8. Messages may arrive out of order, up to the configured number: when the receiver is
    in step with the sender, every batch of at most [max_skipped_messages] messages that the
    sender encrypts is decrypted to its plaintexts whatever the order of delivery and
    whichever messages are lost; when none is lost the two are in step again. *)
Theorem out_of_order_delivery now now' a b l order :
  in_step a b → Forall sendable l → (length l ≤ sc_max_skipped_messages (ss_config b))%nat →
  ks_send_message_number (ss_keys a) + N.of_nat (length l) < 2 ^ 64 →
  NoDup order → Forall (λ i, i < length l)%nat order →
  ∃ a' ms b', send_all now a l = (a', Ok ms) ∧
    receive_all now' b (omap (ms !!.) order) = (b', Ok <$> omap (λ i, snd <$> l !! i) order) ∧
    (order ≡ₚ seq 0 (length l) → in_step a' b').
Proof. intros Hab Hl _. by apply receive_any_order. Qed.

(** *** Two directions *)

(** A conversation in turns: every message is delivered before the next is sent;
    [true] is a message from the first party. *)
Fixpoint converse (now : Z) (a b : Session) (turns : list (bool * (list N * list N)))
  : Session * Session * list (result SecurityError (list N)) :=
  match turns with
  | [] => (a, b, [])
  | (dir, (nonce, p)) :: turns' =>
      let '(sender, receiver) := if dir : bool then (a, b) else (b, a) in
      let '(sender, sent) := Session_encrypt now nonce sender p in
      let '(receiver, r) :=
        match sent with
        | Ok m => Session_decrypt now receiver m
        | Err e => (receiver, Err e)
        end in
      let '(a, b, rs) := converse now (if dir then sender else receiver) (if dir then receiver else sender) turns' in
      (a, b, r :: rs)
  end.

Definition synced (a b : Session) : Prop := in_step a b ∧ in_step b a.

Lemma turn_synced now a b nonce p :
  synced a b → sendable (nonce, p) → ks_send_message_number (ss_keys a) + 1 < 2 ^ 64 →
  ∃ a' m b', Session_encrypt now nonce a p = (a', Ok m) ∧ Session_decrypt now b m = (b', Ok p) ∧ synced a' b' ∧
    ks_send_message_number (ss_keys a') = ks_send_message_number (ss_keys a) + 1 ∧
    ks_send_message_number (ss_keys b') = ks_send_message_number (ss_keys b).
Proof.
  intros [Hab (Hb & Ha & _ & Hn2 & Hsk2)] Hx Hbd.
  destruct (encrypt_step now a nonce p Ha Hx Hbd) as (a' & m & Hm & Hnum & Hd & Ha' & Hc & Hs & Hr & Hk).
  pose proof (in_step_receiving a b Hab) as Hrc. destruct Hab as (_ & _ & Hck & Hn & Hsk).
  exists a', m. rewrite (decrypt_unfold now b m Hb) by (rewrite Hnum, Hn; apply Hsk; lia).
  assert (skip_fuel (em_message_number m) (ss_keys b) = 0%nat) as -> by (unfold skip_fuel; rewrite Hnum, Hn; lia).
  cbn [skip_keys]. rewrite <- Hck, <- Hn, Hd. eexists. split_and!; [done|done|..].
  - split; split_and!; cbn [ss_state ss_keys touch set_keys ks_chain_key ks_receive_message_number ks_send_message_number ks_skipped_keys set_receive advance_chain_key set_chain]; try done.
    + by rewrite Hc, Hck.
    + rewrite Hs. unfold u64_succ. by rewrite N.mod_small.
    + unfold u64_succ. rewrite N.mod_small by done. intros n Hnn. apply Hsk. lia.
    + by rewrite Hc, Hck.
    + by rewrite Hr.
    + intros n Hnn. rewrite Hk. apply Hsk2. by rewrite Hr in Hnn.
  - done.
  - done.
Qed.

(** Two parties that start in step and speak in turns understand each other
    for as long as the counters last: every message of the conversation decrypts
    to what was sent, in both directions, although they share one chain key. *)
Theorem turn_taking now a b turns :
  synced a b → Forall (λ t, sendable t.2) turns →
  ks_send_message_number (ss_keys a) + N.of_nat (length turns) < 2 ^ 64 →
  ks_send_message_number (ss_keys b) + N.of_nat (length turns) < 2 ^ 64 →
  ∃ a' b', converse now a b turns = (a', b', (λ t, Ok t.2.2) <$> turns) ∧ synced a' b'.
Proof.
  intros Hs HF. revert a b Hs. induction HF as [|[dir [nonce p]] turns Hx _ IH]; intros a b Hs Ha Hb; [by exists a, b|].
  cbn [length] in *. destruct dir.
  - destruct (turn_synced now a b nonce p Hs Hx) as (a' & m & b' & Hm & Hd & Hs' & Hna & Hnb); [lia|].
    destruct (IH a' b' Hs') as (a2 & b2 & Hc & Hs2); [lia|lia|].
    exists a2, b2. cbn [converse]. rewrite Hm, Hd, Hc. done.
  - assert (synced b a) as Hs0 by (destruct Hs; done).
    destruct (turn_synced now b a nonce p Hs0 Hx) as (b' & m & a' & Hm & Hd & Hs' & Hnb & Hna); [lia|].
    destruct (IH a' b') as (a2 & b2 & Hc & Hs2); [by destruct Hs'|lia|lia|].
    exists a2, b2. cbn [converse]. rewrite Hm, Hd, Hc. done.
Qed.

(** Messages that cross do not decrypt: both directions advance the same chain,
    so after sending, a party opens the message sealed under the key of chain
    position 0 with the key of position 1, and the two crossing messages have
    been sealed under one and the same key. *)
Theorem crossing_messages now a b na pa nb pb :
  synced a b → ks_send_message_number (ss_keys a) = ks_send_message_number (ss_keys b) →
  ks_send_message_number (ss_keys a) + 1 < 2 ^ 64 → sendable (na, pa) → sendable (nb, pb) →
  let key i := derive_message_key (chain (ks_chain_key (ss_keys a)) i) (ks_send_message_number (ss_keys a)) in
  ∃ a' ma b' mb, Session_encrypt now na a pa = (a', Ok ma) ∧ Session_encrypt now nb b pb = (b', Ok mb) ∧
    decrypt_aead (em_ciphertext ma) (key 0%nat) = Ok pa ∧ decrypt_aead (em_ciphertext mb) (key 0%nat) = Ok pb ∧
    (Session_decrypt now a' mb).2 = decrypt_aead (em_ciphertext mb) (key 1%nat) ∧
    (Session_decrypt now b' ma).2 = decrypt_aead (em_ciphertext ma) (key 1%nat).
Proof.
  intros [(Ha & Hb & Hc & Hn & Hsk) (_ & _ & _ & Hn2 & Hsk2)] He Hbd Hxa Hxb key.
  destruct (encrypt_step now a na pa Ha Hxa Hbd) as (a' & ma & Hma & Hnuma & Hda & Ha' & Hca & Hsa & Hra & Hka).
  destruct (encrypt_step now b nb pb Hb Hxb) as (b' & mb & Hmb & Hnumb & Hdb & Hb' & Hcb & Hsb & Hrb & Hkb); [lia|].
  exists a', ma, b', mb. split_and!; [done|done|done|by unfold key; rewrite Hc, He|..].
  - rewrite (decrypt_unfold now a' mb Ha') by (rewrite Hka, Hnumb, Hn2; apply Hsk2; lia).
    assert (skip_fuel (em_message_number mb) (ss_keys a') = 0%nat) as -> by (unfold skip_fuel; rewrite Hnumb, Hra, Hn2; lia).
    cbn [skip_keys]. rewrite Hca, Hra, <- Hn2, <- He. unfold key, chain. cbn [Nat.iter nat_rect]. match goal with |- context [match ?d with _ => _ end] => destruct d end; reflexivity.
  - rewrite (decrypt_unfold now b' ma Hb') by (rewrite Hkb, Hnuma, Hn; apply Hsk; lia).
    assert (skip_fuel (em_message_number ma) (ss_keys b') = 0%nat) as -> by (unfold skip_fuel; rewrite Hnuma, Hrb, Hn; lia).
    cbn [skip_keys]. rewrite Hcb, Hrb, <- Hn, <- Hc. unfold key, chain. cbn [Nat.iter nat_rect]. match goal with |- context [match ?d with _ => _ end] => destruct d end; reflexivity.
Qed.

(** *** Errors *)

(** What a failed [decrypt] leaves behind. *)
Lemma decrypt_error now s m s' e :
  Session_decrypt now s m = (s', Err e) →
  (ss_state s ≠ SActive ∧ s' = s) ∨
  (ss_state s = SActive ∧ is_Some (ks_skipped_keys (ss_keys s) !! em_message_number m) ∧
   s' = set_keys s (set_skipped (ss_keys s) (delete (em_message_number m) (ks_skipped_keys (ss_keys s))))) ∨
  (ss_state s = SActive ∧ ks_skipped_keys (ss_keys s) !! em_message_number m = None ∧
   s' = set_keys s (skip_keys (skip_fuel (em_message_number m) (ss_keys s)) (em_message_number m) (ss_keys s))).
Proof.
  unfold Session_decrypt. case_bool_decide as Hs; cbn [negb]; [|intros [= <- _]; by left].
  destruct (ks_skipped_keys (ss_keys s) !! em_message_number m) as [key|] eqn:Hk.
  - intros [= <- _]. right; left. by split_and!.
  - destruct (decrypt_aead _ _); [done|]. intros [= <- _]. right; right. by split_and!.
Qed.

(** C32. Failures: a session that is not active refuses both operations and stays
    as it is, and a failed [encrypt] changes nothing. A message that fails to
    decrypt is harmless as long as its key has not been set aside: every pending
    message, the genuine one with that number included, still decrypts. But when
    the key had been set aside it is gone, and the genuine message is opened with
    the key at the head of the chain instead of its own. *)
Theorem failed_operations now s :
  (ss_state s ≠ SActive → ∀ nonce p m,
     Session_encrypt now nonce s p = (s, Err (SessionError "Session is not active")) ∧
     Session_decrypt now s m = (s, Err (SessionError "Session is not active"))) ∧
  (∀ nonce p s' e, Session_encrypt now nonce s p = (s', Err e) → s' = s) ∧
  (∀ base ck received r i m s' e,
     receiving base ck received r s → ¬ received i → em_message_number m = base + N.of_nat i →
     base + N.of_nat i < 2 ^ 64 → Session_decrypt now s m = (s', Err e) →
     ((r ≤ i)%nat → receiving base ck received i s') ∧
     ((i < r)%nat → ∀ m', em_message_number m' = base + N.of_nat i →
        (Session_decrypt now s' m').2 =
          decrypt_aead (em_ciphertext m') (derive_message_key (chain ck r) (base + N.of_nat r)))).
Proof.
  split_and!.
  - intros Hs nonce p m. unfold Session_encrypt, Session_decrypt. by rewrite bool_decide_false.
  - intros nonce p s' e. unfold Session_encrypt. destruct (negb _); [by intros [= <- _]|].
    destruct (encrypt_aead _ _ _); [done|]. by intros [= <- _].
  - intros base ck received r i m s' e Hr Hi Hm Hb Hd. split; intros Hri.
    + destruct (decrypt_error _ _ _ _ _ Hd) as [[Hx _]|[(_ & [key Hk] & _)|(_ & _ & ->)]].
      * by destruct Hx; apply Hr.
      * rewrite Hm, (rc_none _ _ _ _ _ Hr) in Hk; [done|by left].
      * rewrite Hm. by eapply receiving_skip.
    + intros m' Hm'. pose proof (rc_pending _ _ _ _ _ Hr i Hri Hi) as Hp.
      destruct (decrypt_error _ _ _ _ _ Hd) as [[Hx _]|[(_ & _ & ->)|(_ & Hk & _)]].
      * by destruct Hx; apply Hr.
      * rewrite decrypt_unfold.
        -- cbn [ss_keys set_keys]. assert (skip_fuel (em_message_number m') (set_skipped (ss_keys s)
             (delete (em_message_number m) (ks_skipped_keys (ss_keys s)))) = 0%nat) as ->.
           { unfold skip_fuel. cbn. rewrite (rc_number _ _ _ _ _ Hr), Hm'. lia. }
           cbn [skip_keys ks_chain_key ks_receive_message_number set_skipped].
           rewrite (rc_chain _ _ _ _ _ Hr), (rc_number _ _ _ _ _ Hr).
           match goal with |- context [match ?d with _ => _ end] => destruct d end; reflexivity.
        -- apply Hr.
        -- cbn. by rewrite Hm', Hm, lookup_delete_eq.
      * by rewrite Hm, Hp in Hk.
Qed.

(** *** Bounds *)

(** The number of keys set aside is not bounded by [max_skipped_messages]:
    whatever the configuration, one message with a number [n] beyond the next
    expected makes an active session derive and store a key for every number up
    to [n], before the message is authenticated. *)
Theorem skipped_keys_unbounded now s m j :
  ss_state s = SActive → ks_skipped_keys (ss_keys s) = ∅ →
  em_message_number m = ks_receive_message_number (ss_keys s) + N.of_nat j → em_message_number m < 2 ^ 64 →
  size (ks_skipped_keys (ss_keys (Session_decrypt now s m).1)) = j.
Proof.
  intros Hs Hk Hm Hb. rewrite (decrypt_unfold now s m Hs) by (by rewrite Hk).
  assert (skip_fuel (em_message_number m) (ss_keys s) = j) as -> by (unfold skip_fuel; lia).
  destruct (skip_keys_spec j (ss_keys s) (em_message_number m)) as (sk & -> & Hsk); [lia|done|].
  set (r := ks_receive_message_number (ss_keys s)) in *.
  assert (size sk = j) as Hsz.
  { rewrite <- size_dom. transitivity (size (list_to_set (C := gset N) ((λ i, r + N.of_nat i) <$> seq 0 j))).
    - f_equal. apply set_eq. intros n. rewrite elem_of_dom, elem_of_list_to_set, list_elem_of_fmap, Hsk, Hk.
      case_bool_decide as Hx; split.
      + intros _. exists (N.to_nat (n - r)). rewrite elem_of_seq. lia.
      + eauto.
      + by intros [? ?].
      + intros (i & -> & Hi%elem_of_seq). lia.
    - rewrite size_list_to_set; [by rewrite length_fmap, length_seq|].
      apply NoDup_fmap; [intros x y; lia|apply NoDup_seq]. }
  match goal with |- context [match ?d with _ => _ end] => destruct d end; exact Hsz.
Qed.

(** *** Lifecycle *)

(** Lifecycle: [terminate] clears the keys and the session then refuses to
    encrypt, decrypt and resume; but [pause] is not refused, and a terminated
    session that is paused and resumed is active again with an empty chain key:
    it encrypts under a key that depends on the message counter alone. *)
Theorem terminated_session s :
  let t := Session_terminate s in
  (∀ now nonce p m, is_ok (Session_encrypt now nonce t p).2 = false ∧ is_ok (Session_decrypt now t m).2 = false) ∧
  is_ok (Session_resume t).2 = false ∧ ks_chain_key (ss_keys t) = [] ∧ ks_root_key (ss_keys t) = [] ∧
  ks_skipped_keys (ss_keys t) = ∅ ∧ (∀ fresh remote, Session_ratchet fresh t remote = None) ∧
  let revived := (Session_resume (Session_pause t)).1 in
  ss_state revived = SActive ∧
  (∀ now nonce p, sendable (nonce, p) →
     ∃ s' m, Session_encrypt now nonce revived p = (s', Ok m) ∧
       decrypt_aead (em_ciphertext m) (blake3_hash (le_bytes64 (ks_send_message_number (ss_keys s)) ++ [2])) = Ok p).
Proof.
  cbn zeta. split_and!; try done.
  intros now nonce p Hx. destruct (encrypt_active now (Session_resume (Session_pause (Session_terminate s))).1 nonce p)
    as (s' & m & Hm & _ & Hd & _); [done|done|]. by exists s', m.
Qed.

(** *** The ratchet *)

Lemma dh_combine_some dh remote : (32 ≤ length dh)%nat → is_Some (dh_combine dh remote).
Proof.
  intros Hl. apply mapM_is_Some. apply Forall_forall. intros i Hi%elem_of_seq.
  destruct (lookup_lt_is_Some_2 dh i) as [b Hb]; [lia|]. unfold compose. rewrite Hb. cbn. eauto.
Qed.

(** A ratchet step with a full private key succeeds in any state, restarts both
    counters and keeps the keys set aside, which then shadow the messages of the
    new chain with the same numbers. *)
Theorem ratchet_keeps_stale_keys fresh s remote :
  (32 ≤ length (ks_dh_private (ss_keys s)))%nat →
  ∃ s', Session_ratchet fresh s remote = Some (s', Ok tt) ∧ ss_state s' = ss_state s ∧
    ks_send_message_number (ss_keys s') = 0 ∧ ks_receive_message_number (ss_keys s') = 0 ∧
    length (ks_root_key (ss_keys s')) = 32%nat ∧ length (ks_chain_key (ss_keys s')) = 32%nat ∧
    ks_skipped_keys (ss_keys s') = ks_skipped_keys (ss_keys s) ∧
    ∀ now m key, ss_state s = SActive → ks_skipped_keys (ss_keys s) !! em_message_number m = Some key →
      (Session_decrypt now s' m).2 = decrypt_aead (em_ciphertext m) key.
Proof.
  intros Hl. unfold Session_ratchet, derive_ratchet_keys.
  destruct (dh_combine_some (ks_dh_private (ss_keys s)) remote Hl) as [dh ->]. cbn [mbind option_bind].
  eexists. split_and!; [done|done|done|done|..].
  { cbn. by rewrite length_take, hkdf_length. }
  { cbn. by rewrite length_drop, hkdf_length. }
  { done. }
  intros now m key Ha Hk. unfold Session_decrypt.
  cbn [ss_state set_keys ss_keys ks_skipped_keys]. rewrite bool_decide_true by done. cbn [negb]. by rewrite Hk.
Qed.

(** *** The manager *)

Lemma cleanup_lookup mg now id :
  mg_sessions (SessionManager_cleanup_expired now mg).1 !! id =
    match mg_sessions mg !! id with Some s => if session_dead now s then None else Some s | None => None end.
Proof.
  cbn. rewrite lookup_delete_all. destruct (mg_sessions mg !! id) as [s|] eqn:Hs; [|by case_decide].
  destruct (session_dead now s) eqn:Hd.
  - rewrite decide_True; [done|]. apply list_elem_of_fmap. exists (id, s). split; [done|].
    apply list_elem_of_filter. split; [done|]. by apply elem_of_map_to_list.
  - rewrite decide_False; [done|]. intros ([id' s'] & -> & [Hx Hy]%list_elem_of_filter)%list_elem_of_fmap.
    apply elem_of_map_to_list in Hy. cbn in *. congruence.
Qed.

Lemma cleanup_count mg now :
  (SessionManager_cleanup_expired now mg).2 = size (filter (λ x, session_dead now x.2 = true) (mg_sessions mg)).
Proof.
  cbn. rewrite length_fmap, map_filter_alt, <- length_map_to_list, map_to_list_to_map; [done|].
  apply NoDup_fmap_filter, NoDup_fst_map_to_list.
Qed.

(** The manager is a map from ids to sessions: creation adds the new session,
    updates and removals act on existing ids only and report the others, and
    [cleanup_expired] drops exactly the sessions that are terminated or idle for
    longer than their timeout, returning how many. *)
Theorem session_manager_spec (mg : SessionManager) now :
  (∀ id dh root peer, let r := SessionManager_create_session now id dh root mg peer true None in
     r.2 = Ok id ∧ is_ok (SessionManager_get_session r.1 id) = true ∧
     ∀ id', id' ≠ id → SessionManager_get_session r.1 id' = SessionManager_get_session mg id') ∧
  (∀ id dh root peer, SessionManager_create_session now id dh root mg peer false None =
     (mg, Err (SessionError "Peer public key required for responder"))) ∧
  (∀ s, let r := SessionManager_update_session mg s in
     match mg_sessions mg !! ss_id s with
     | Some _ => r.2 = Ok tt ∧ SessionManager_get_session r.1 (ss_id s) = Ok s
     | None => r = (mg, Err (SessionNotFound (ss_id s)))
     end) ∧
  (∀ id, let r := SessionManager_remove_session mg id in
     r.2 = SessionManager_get_session mg id ∧ SessionManager_get_session r.1 id = Err (SessionNotFound id)) ∧
  (∀ id, mg_sessions (SessionManager_cleanup_expired now mg).1 !! id =
     match mg_sessions mg !! id with Some s => if session_dead now s then None else Some s | None => None end) ∧
  (SessionManager_cleanup_expired now mg).2 = size (filter (λ x, session_dead now x.2 = true) (mg_sessions mg)).
Proof.
  unfold SessionManager_create_session, SessionManager_get_session, SessionManager_update_session, SessionManager_remove_session.
  split_and!.
  - intros id dh root peer. cbn. split_and!; [done|by rewrite lookup_insert_eq|]. intros id' Hne. by rewrite lookup_insert_ne.
  - done.
  - intros s. cbn zeta. destruct (mg_sessions mg !! ss_id s) eqn:Hs; [|done]. cbn. split; [done|]. by rewrite lookup_insert_eq.
  - intros id. cbn. split; [done|]. by rewrite lookup_delete_eq.
  - apply cleanup_lookup.
  - apply cleanup_count.
Qed.
End SessionTheorems.

(** ** Witnesses *)

(** An authenticated box: the key and the nonce in front of the plaintext. *)
#[global] Instance aead_ref : Aead := {|
  aead_seal key nonce p := Some (key ++ nonce ++ p);
  aead_open key nonce c :=
    if bool_decide (take (length key + length nonce) c = key ++ nonce) then Some (drop (length key + length nonce) c) else None;
  aead_error_text := "aead::Error";
  invalid_length_text := "Invalid Length"
|}.
#[global] Instance aead_ref_laws : AeadLaws aead_ref.
Proof.
  split; [|by eexists]. intros key nonce p c [= <-]. cbn [aead_open aead_ref]. rewrite app_assoc.
  rewrite (take_app_length' (key ++ nonce)), (drop_app_length' (key ++ nonce)) by (by rewrite length_app). by rewrite bool_decide_true.
Qed.
#[global] Instance hkdf_ref : Hkdf := {| hkdf_sha256 salt ikm info len := be_bytes len (be_value ikm + 1) |}.
#[global] Instance hkdf_ref_laws : HkdfLaws hkdf_ref.
Proof. split. intros. apply length_be_bytes. Qed.

(** Two parties that have agreed on a root key. *)
Definition party (name : string) : Session :=
  Session_new_initiator (HK := hkdf_ref) 0 name (replicate 32 7) (replicate 32 1) "peer" SessionConfig_default.
Definition nonce0 : list N := replicate 12 0.

Lemma parties_synced : synced (party "a") (party "b").
Proof. split; split_and!; done. Qed.

Lemma sendable_short p : (length p ≤ 9)%nat → sendable (nonce0, p).
Proof. intros Hp. split; [done|]. cbn [snd]. apply N.le_trans with 9; [lia|done]. Qed.

Lemma out_of_order_delivery_witness :
  ∃ a' ms b', send_all 0 (party "a") [(nonce0, [1]); (nonce0, [2]); (nonce0, [3])] = (a', Ok ms) ∧
    receive_all 0 (party "b") (omap (ms !!.) [2; 0; 1]%nat) = (b', [Ok [3]; Ok [1]; Ok [2]]).
Proof.
  destruct (out_of_order_delivery 0 0 (party "a") (party "b") [(nonce0, [1]); (nonce0, [2]); (nonce0, [3])] [2; 0; 1]%nat)
    as (a' & ms & b' & H1 & H2 & _).
  - apply parties_synced.
  - repeat (constructor; [apply sendable_short; simpl; lia|]). constructor.
  - vm_compute. lia.
  - reflexivity.
  - repeat (constructor; [set_solver|]). constructor.
  - repeat (constructor; [simpl; lia|]). constructor.
  - exists a', ms, b'. split; [exact H1|exact H2].
Defined.

Lemma turn_taking_witness :
  ∃ a' b', converse 0 (party "a") (party "b") [(true, (nonce0, [1])); (false, (nonce0, [2])); (true, (nonce0, [3]))] =
    (a', b', [Ok [1]; Ok [2]; Ok [3]]).
Proof.
  destruct (turn_taking 0 (party "a") (party "b") [(true, (nonce0, [1])); (false, (nonce0, [2])); (true, (nonce0, [3]))])
    as (a' & b' & H & _).
  - exact parties_synced.
  - repeat (constructor; [apply sendable_short; simpl; lia|]). constructor.
  - reflexivity.
  - reflexivity.
  - exists a', b'. exact H.
Defined.

Lemma failed_operations_witness :
  Session_decrypt 0 (Session_pause (party "a")) (EncryptedMessage_new 0 "a" [] [] 0) =
  (Session_pause (party "a"), Err (SessionError "Session is not active")).
Proof.
  refine (proj2 (proj1 (failed_operations 0 (Session_pause (party "a"))) _ nonce0 [] (EncryptedMessage_new 0 "a" [] [] 0))).
  discriminate.
Defined.

Lemma skipped_keys_unbounded_witness :
  size (ks_skipped_keys (ss_keys (Session_decrypt 0 (party "a") (EncryptedMessage_new 0 "a" [] [] 500)).1)) = 500%nat.
Proof.
  apply (skipped_keys_unbounded 0 (party "a") (EncryptedMessage_new 0 "a" [] [] 500) 500); reflexivity.
Defined.

Lemma terminated_session_witness :
  is_ok (Session_encrypt 0 nonce0 (Session_terminate (party "a")) [1]).2 = false.
Proof.
  exact (proj1 (proj1 (terminated_session (party "a")) 0%Z nonce0 [1] (EncryptedMessage_new 0 "a" [] [] 0))).
Defined.

(** Crossing messages: both fail with the reference box. *)
Lemma crossing_messages_fail :
  let '(a, ma) := Session_encrypt 0 nonce0 (party "a") [1] in
  let '(b, mb) := Session_encrypt 0 nonce0 (party "b") [2] in
  match ma, mb with
  | Ok ma, Ok mb => is_ok (Session_decrypt 0 b ma).2 = false ∧ is_ok (Session_decrypt 0 a mb).2 = false
  | _, _ => False
  end.
Proof. vm_compute. split; reflexivity. Qed.

Lemma session_manager_spec_witness :
  (SessionManager_cleanup_expired 0 (SessionManager_new SessionConfig_default)).2 = 0%nat.
Proof.
  destruct (session_manager_spec (SessionManager_new SessionConfig_default) 0) as (_ & _ & _ & _ & _ & ->). reflexivity.
Defined.
