(* ===== verification/VirtualIp.v ===== *)
(** * Virtual addresses of the mesh ([crates/a3net-types/src/virtual_ip.rs])

    Every member's IPv4 and IPv6 address is computed from its node id. An IPv4
    address is its 32-bit number, an IPv6 address its 16 octets; [None] is a panic
    (a node id that is not hexadecimal or too short). The text form of IPv4
    addresses, of the Rust standard library, is written out; the parser of IPv6
    text is not modelled. *)
From stdpp Require Import prelude strings list.
From Stdlib Require Import NArith Lia Ascii.
From Stdlib Require String.
From S2P Require Import Prelude NodeId.

#[local] Open Scope N_scope.

Definition ipv4_of (a b c d : N) : N := a * 2 ^ 24 + b * 2 ^ 16 + c * 2 ^ 8 + d.

Definition MESH_IPV4_PREFIX_LEN : N := 10.
Definition MESH_IPV4_BASE : N := ipv4_of 100 64 0 0.
Definition MESH_IPV4_LAST : N := ipv4_of 100 127 255 255.
Definition MESH_IPV4_COUNT : N := N.shiftl 1 (32 - MESH_IPV4_PREFIX_LEN).
Definition MESH_IPV6_PREFIX_BYTES : list N := [2; 0].

Record VirtualIpv4 : Type := mkVirtualIpv4 { vip4 : N }.
Record VirtualIpv6 : Type := mkVirtualIpv6 { vip6 : list N }.
Record VirtualIp : Type := mkVirtualIp { vi_ipv4 : VirtualIpv4; vi_ipv6 : VirtualIpv6 }.

#[global] Instance VirtualIpv4_eq_dec : EqDecision VirtualIpv4.
Proof. solve_decision. Defined.
#[global] Instance VirtualIpv6_eq_dec : EqDecision VirtualIpv6.
Proof. solve_decision. Defined.
#[global] Instance VirtualIp_eq_dec : EqDecision VirtualIp.
Proof. solve_decision. Defined.

(** [u32::from_le_bytes]. *)
Definition le32 (b0 b1 b2 b3 : N) : N := b0 + b1 * 2 ^ 8 + b2 * 2 ^ 16 + b3 * 2 ^ 24.

Definition VirtualIpv4_from_node_id `{Hex} (id : NodeId) : option VirtualIpv4 :=
  bytes ← NodeId_as_bytes id;
  b0 ← bytes !! 0%nat; b1 ← bytes !! 1%nat; b2 ← bytes !! 2%nat; b3 ← bytes !! 3%nat;
  let offset := le32 b0 b1 b2 b3 in
  let offset := offset mod MESH_IPV4_COUNT in
  Some (mkVirtualIpv4 ((MESH_IPV4_BASE + offset) mod 2 ^ 32)).

Definition VirtualIpv4_from_std (addr : N) : option VirtualIpv4 :=
  if (MESH_IPV4_BASE <=? addr) && (addr <? MESH_IPV4_BASE + MESH_IPV4_COUNT)
  then Some (mkVirtualIpv4 addr) else None.

(** [Ipv4Addr] as text: dotted decimal octets, parsed without leading zeros. *)
Definition dot : ascii := "."%char.
Definition octets4 (addr : N) : list N :=
  [addr / 2 ^ 24; addr / 2 ^ 16 mod 256; addr / 2 ^ 8 mod 256; addr mod 256].
Definition show_ipv4 (addr : N) : string := str_join dot (show_N <$> octets4 addr).

Definition parse_octet (s : string) : option N :=
  if Nat.ltb 3 (String.length s) then None
  else if negb (str_forallb is_digit s) then None
  else if Nat.ltb 1 (String.length s) && str_starts_with "0" s then None
  else parse_uint 255 s.

Definition parse_ipv4 (s : string) : option N :=
  match str_split dot s with
  | [a; b; c; d] =>
      a ← parse_octet a; b ← parse_octet b; c ← parse_octet c; d ← parse_octet d; Some (ipv4_of a b c d)
  | _ => None
  end.

Definition VirtualIpv4_parse (s : string) : result AdnetError VirtualIpv4 :=
  match parse_ipv4 s with
  | None => Err Validation
  | Some ip => ok_or Validation (VirtualIpv4_from_std ip)
  end.

Definition VirtualIpv4_fmt (v : VirtualIpv4) : string := show_ipv4 (vip4 v).

(** The loop over [raw[2..]] copies bytes 2 to 15 of the id. *)
Definition VirtualIpv6_from_node_id `{Hex} (id : NodeId) : option VirtualIpv6 :=
  bytes ← NodeId_as_bytes id;
  low ← mapM (λ i : nat, bytes !! (i + 2)%nat) (seq 0 14);
  Some (mkVirtualIpv6 (MESH_IPV6_PREFIX_BYTES ++ low)).

Definition VirtualIpv6_from_std (octets : list N) : option VirtualIpv6 :=
  match octets with
  | a :: b :: _ => if (a =? 2) && (b =? 0) then Some (mkVirtualIpv6 octets) else None
  | _ => None
  end.

Definition VirtualIp_from_node_id `{Hex} (id : NodeId) : option VirtualIp :=
  ipv4 ← VirtualIpv4_from_node_id id;
  ipv6 ← VirtualIpv6_from_node_id id;
  Some (mkVirtualIp ipv4 ipv6).

Definition VirtualIp_from_ipv4 (ipv4 : VirtualIpv4) : VirtualIp :=
  mkVirtualIp ipv4 (mkVirtualIpv6 (replicate 16 0)).

(** ** Derivation *)

Section VirtualIpLemmas.
Context `{HX : Hex} {HL : HexLaws HX}.

(** The numbers the derivation reads: the low 22 bits of the first four bytes,
    and bytes 2 to 15. *)
Definition low22 (bytes : list N) : N :=
  le32 (default 0 (bytes !! 0%nat)) (default 0 (bytes !! 1%nat)) (default 0 (bytes !! 2%nat)) (default 0 (bytes !! 3%nat))
    mod 2 ^ 22.

Lemma mesh_range : MESH_IPV4_LAST + 1 = MESH_IPV4_BASE + 2 ^ 22 ∧ MESH_IPV4_COUNT = 2 ^ 22.
Proof. by vm_compute. Qed.

Lemma virtual_ipv4_ok id :
  node_ok id → VirtualIpv4_from_node_id id = Some (mkVirtualIpv4 (MESH_IPV4_BASE + low22 (node_bytes id))).
Proof.
  intros Hid. unfold VirtualIpv4_from_node_id, low22. rewrite NodeId_as_bytes_ok by done.
  destruct (node_bytes_ok id Hid) as [Hl _]. unfold NODE_ID_BYTES in Hl. cbn [mbind option_bind].
  destruct (node_bytes id) as [|b0 [|b1 [|b2 [|b3 l]]]]; [discriminate Hl..|]. cbn -[N.modulo N.pow N.add MESH_IPV4_BASE].
  do 2 f_equal. rewrite (proj2 mesh_range). apply N.mod_small.
  pose proof (N.mod_lt (le32 b0 b1 b2 b3) (2 ^ 22) ltac:(done)).
  apply N.lt_le_trans with (MESH_IPV4_BASE + 2 ^ 22); [lia|]. by vm_compute.
Qed.

Lemma virtual_ipv6_ok id :
  node_ok id → VirtualIpv6_from_node_id id = Some (mkVirtualIpv6 ([2; 0] ++ take 14 (drop 2 (node_bytes id)))).
Proof.
  intros Hid. unfold VirtualIpv6_from_node_id. rewrite NodeId_as_bytes_ok by done.
  destruct (node_bytes_ok id Hid) as [Hl _]. cbn [mbind option_bind].
  assert (mapM (λ i : nat, node_bytes id !! (i + 2)%nat) (seq 0 14) = Some (take 14 (drop 2 (node_bytes id)))) as ->; [|done].
  apply mapM_Some. apply Forall2_same_length_lookup_2.
  - rewrite length_seq, length_take, length_drop, Hl. done.
  - intros i j x [-> Hi]%lookup_seq Hx. rewrite lookup_take_lt in Hx by lia. rewrite lookup_drop in Hx.
    by replace (0 + i + 2)%nat with (2 + i)%nat by lia.
Qed.

(** The addresses of a node lie in the mesh: for every well-formed node id the
    derivation succeeds, the IPv4 address is in [100.64.0.0/10], where [from_std]
    accepts exactly the range between its first and last address, and the IPv6
    address has 16 octets and the prefix that its [from_std] accepts. *)
Theorem virtual_ip_in_mesh id :
  node_ok id →
  ∃ v, VirtualIp_from_node_id id = Some v ∧
    MESH_IPV4_BASE ≤ vip4 (vi_ipv4 v) ≤ MESH_IPV4_LAST ∧
    VirtualIpv4_from_std (vip4 (vi_ipv4 v)) = Some (vi_ipv4 v) ∧
    length (vip6 (vi_ipv6 v)) = 16%nat ∧ VirtualIpv6_from_std (vip6 (vi_ipv6 v)) = Some (vi_ipv6 v) ∧
    (∀ a, is_Some (VirtualIpv4_from_std a) ↔ MESH_IPV4_BASE ≤ a ≤ MESH_IPV4_LAST).
Proof.
  intros Hid. unfold VirtualIp_from_node_id. rewrite virtual_ipv4_ok, virtual_ipv6_ok by done.
  destruct (node_bytes_ok id Hid) as [Hl _]. destruct mesh_range as [Hm1 Hm2]. cbn [mbind option_bind].
  eexists. split; [done|]. cbn [vi_ipv4 vi_ipv6 vip4 vip6].
  assert (low22 (node_bytes id) < 2 ^ 22) as Hlow by (by apply N.mod_lt).
  assert (∀ a, is_Some (VirtualIpv4_from_std a) ↔ MESH_IPV4_BASE ≤ a ≤ MESH_IPV4_LAST) as Hs.
  { intros a. unfold VirtualIpv4_from_std. rewrite Hm2.
    destruct (N.leb_spec MESH_IPV4_BASE a), (N.ltb_spec a (MESH_IPV4_BASE + 2 ^ 22)); cbn [andb];
      (split; [intros [? ?]; (done || lia)|intros ?; (by eexists) || lia]). }
  split_and!; [lia|lia| |..].
  - destruct (Hs (MESH_IPV4_BASE + low22 (node_bytes id))) as [_ [v Hv]]; [lia|]. rewrite Hv.
    unfold VirtualIpv4_from_std in Hv. by destruct (_ && _); [injection Hv as <-|].
  - rewrite length_app, length_take, length_drop, Hl. done.
  - done.
  - exact Hs.
Qed.

(** Addresses can be shared: two nodes have the same IPv4 address exactly when
    the first four bytes of their ids agree modulo [2^22], and the same IPv6
    address exactly when bytes 2 to 15 agree. *)
Theorem virtual_ip_collisions a b va vb :
  node_ok a → node_ok b → VirtualIp_from_node_id a = Some va → VirtualIp_from_node_id b = Some vb →
  (vi_ipv4 va = vi_ipv4 vb ↔ low22 (node_bytes a) = low22 (node_bytes b)) ∧
  (vi_ipv6 va = vi_ipv6 vb ↔ take 14 (drop 2 (node_bytes a)) = take 14 (drop 2 (node_bytes b))).
Proof.
  intros Ha Hb. unfold VirtualIp_from_node_id. rewrite !virtual_ipv4_ok, !virtual_ipv6_ok by done.
  cbn [mbind option_bind]. intros [= <-] [= <-]. cbn [vi_ipv4 vi_ipv6]. split; split.
  - intros [= H%N.add_cancel_l]. done.
  - by intros ->.
  - by intros [= ->].
  - by intros ->.
Qed.

(** ** Text *)

Lemma parse_octet_show n : n < 256 → parse_octet (show_N n) = Some n.
Proof.
  intros Hn. assert (∀ k, k < 256 → bool_decide (parse_octet (show_N k) = Some k) = true) as H.
  { apply (N_check (λ k, bool_decide (parse_octet (show_N k) = Some k)) 256). by vm_compute. }
  specialize (H n Hn). by apply bool_decide_eq_true in H.
Qed.

Lemma octets4_value addr : addr < 2 ^ 32 →
  ipv4_of (addr / 2 ^ 24) (addr / 2 ^ 16 mod 256) (addr / 2 ^ 8 mod 256) (addr mod 256) = addr.
Proof.
  intros _. unfold ipv4_of.
  pose proof (N.div_mod addr (2 ^ 8) ltac:(done)) as H1.
  pose proof (N.div_mod (addr / 2 ^ 8) 256 ltac:(done)) as H2. rewrite N.Div0.div_div in H2.
  change (2 ^ 8 * 256) with (2 ^ 16) in H2.
  pose proof (N.div_mod (addr / 2 ^ 16) 256 ltac:(done)) as H3. rewrite N.Div0.div_div in H3.
  change (2 ^ 16 * 256) with (2 ^ 24) in H3. change (2 ^ 8) with 256 in *. change (2 ^ 16) with 65536 in *.
  change (2 ^ 24) with 16777216 in *. lia.
Qed.

(** The text form of a virtual IPv4 address round trips, and whatever [parse]
    accepts lies in the mesh range. *)
Theorem virtual_ipv4_roundtrip s v :
  (MESH_IPV4_BASE ≤ vip4 v ≤ MESH_IPV4_LAST → VirtualIpv4_parse (VirtualIpv4_fmt v) = Ok v) ∧
  (VirtualIpv4_parse s = Ok v → MESH_IPV4_BASE ≤ vip4 v ≤ MESH_IPV4_LAST).
Proof.
  split.
  - intros [Hb Hl]. destruct v as [a]. cbn [vip4] in *. unfold VirtualIpv4_parse, VirtualIpv4_fmt, show_ipv4. cbn [vip4].
    assert (a < 2 ^ 32) as Ha by (apply N.le_lt_trans with MESH_IPV4_LAST; [done|by vm_compute]).
    unfold parse_ipv4. rewrite str_split_join; [|done|].
    + unfold octets4. cbn [fmap list_fmap]. rewrite !parse_octet_show.
      * cbn [mbind option_bind]. rewrite octets4_value by done. cbn [ok_or]. unfold VirtualIpv4_from_std.
        rewrite (proj2 (N.leb_le MESH_IPV4_BASE a)) by done.
        rewrite (proj2 (N.ltb_lt a (MESH_IPV4_BASE + MESH_IPV4_COUNT))); [done|].
        destruct mesh_range as [Hm1 ->]. lia.
      * by apply N.Div0.div_lt_upper_bound.
      * by apply N.mod_lt.
      * by apply N.mod_lt.
      * by apply N.mod_lt.
    + apply Forall_fmap, Forall_forall. intros x _. by apply show_N_lacks.
  - unfold VirtualIpv4_parse. destruct (parse_ipv4 s) as [a|]; [|done]. cbn [ok_or].
    unfold VirtualIpv4_from_std. destruct (N.leb_spec MESH_IPV4_BASE a); [|done].
    destruct (N.ltb_spec a (MESH_IPV4_BASE + MESH_IPV4_COUNT)) as [Hlt|]; [|done]. cbn [andb]. intros [= <-].
    destruct mesh_range as [Hm1 Hm2]. rewrite Hm2 in Hlt. cbn [vip4]. lia.
Qed.
End VirtualIpLemmas.

(** ** Witnesses *)

Definition node7 : NodeId := mkNodeId (hex_encode (Hex := hex_ref) (replicate 32 7)).

Lemma node7_ok : node_ok (HX := hex_ref) node7.
Proof. exists (replicate 32 7). split_and!; [done| |done]. repeat constructor. Qed.

Lemma virtual_ip_in_mesh_witness : is_Some (VirtualIp_from_node_id (H := hex_ref) node7).
Proof. destruct (virtual_ip_in_mesh (HX := hex_ref) node7 node7_ok) as (v & Hv & _). exists v. exact Hv. Defined.

Lemma virtual_ip_collisions_witness :
  ∃ v, VirtualIp_from_node_id (H := hex_ref) node7 = Some v ∧ (vi_ipv4 v = vi_ipv4 v ↔ low22 (node_bytes (HX := hex_ref) node7) = low22 (node_bytes (HX := hex_ref) node7)).
Proof.
  eexists. split; [vm_compute; reflexivity|].
  refine (proj1 (virtual_ip_collisions (HX := hex_ref) node7 node7 _ _ node7_ok node7_ok _ _)); vm_compute; reflexivity.
Defined.

Lemma virtual_ipv4_roundtrip_witness : VirtualIpv4_parse (VirtualIpv4_fmt (mkVirtualIpv4 MESH_IPV4_BASE)) = Ok (mkVirtualIpv4 MESH_IPV4_BASE).
Proof. apply (virtual_ipv4_roundtrip EmptyString (mkVirtualIpv4 MESH_IPV4_BASE)). split; vm_compute; discriminate. Defined.

(** A short text is not an address: 100.64.0.0 is, 100.064.0.0 and 10.0.0.1 are not accepted. *)
Lemma virtual_ipv4_examples :
  VirtualIpv4_parse "100.64.0.0" = Ok (mkVirtualIpv4 MESH_IPV4_BASE) ∧
  VirtualIpv4_parse "100.064.0.0" = Err Validation ∧ VirtualIpv4_parse "10.0.0.1" = Err Validation.
Proof. by vm_compute. Qed.
