(* ===== verification/ExitNode.v ===== *)
(** * Exit nodes ([crates/a3net-exit-node/src/gateway.rs, client.rs, router.rs, bandwidth.rs, billing.rs, exit_handler.rs])

    The gateway and client roles, the routing of a packet, the bandwidth meters with their
    token buckets, the billing engine and the handler that runs a packet through them.
    [u64] sums and products wrap as in a release build. The wall clock is in nanoseconds
    since the epoch and the monotonic clock in nanoseconds; the readings within one call are
    taken as equal. The counter of the invoice identifiers is an argument.

    The theorems show that what the meters and the billing engine record for a client is
    exactly the traffic the handler forwarded for it, that without a gateway nothing leaves
    the mesh, and what an invoice bills. *)
From stdpp Require Import prelude strings gmap list.
From Stdlib Require Import NArith ZArith Lia SpecFloat.
From S2P Require Import Prelude Floats NodeId VirtualIp.

#[local] Open Scope N_scope.

Definition u64_add (a b : N) : N := (a + b) mod 2 ^ 64.
Definition u64_mul (a b : N) : N := (a * b) mod 2 ^ 64.

(** [iter().sum()] of [u64]. *)
Definition u64_sum (l : list N) : N := foldl u64_add 0 l.

(** ** Gateway and client *)

Inductive GatewayState : Type := NotOffering | Offering | GwDisabled.
Record Gateway : Type := mkGateway { gw_state : GatewayState; gw_node_id : NodeId }.
Record GatewayAdvert : Type := mkGatewayAdvert { ga_node_id : NodeId; ga_endpoint : string; ga_advertised_at : Z }.

Definition Gateway_new (node_id : NodeId) : Gateway := mkGateway NotOffering node_id.
Definition gateway_allow (now : Z) (g : Gateway) (endpoint : string) : Gateway * GatewayAdvert :=
  (mkGateway Offering (gw_node_id g), mkGatewayAdvert (gw_node_id g) endpoint now).
Definition gateway_revoke (g : Gateway) : Gateway :=
  match gw_state g with NotOffering => g | _ => mkGateway NotOffering (gw_node_id g) end.
Definition gateway_disable (g : Gateway) : Gateway := mkGateway GwDisabled (gw_node_id g).
Definition is_offering (g : Gateway) : bool := match gw_state g with Offering => true | _ => false end.

Inductive ExitError : Type := NoActiveGateway.
Inductive ClientState : Type := Unconfigured | Using (gateway : NodeId) (since : Z).

Definition use_gateway (now : Z) (c : ClientState) (gateway : NodeId) : ClientState * ClientState := (Using gateway now, c).
Definition client_unset (c : ClientState) : ClientState := Unconfigured.
Definition active_gateway (c : ClientState) : result ExitError NodeId :=
  match c with Unconfigured => Err NoActiveGateway | Using gateway _ => Ok gateway end.

(** ** Routing *)

Inductive RouteAction : Type := RForwardToMesh | RForwardViaGateway (gateway : NodeId) | RDrop (reason : string).

Definition is_mesh_address (addr : IpAddr) : bool :=
  match addr with
  | IpV4 v4 => bool_decide (is_Some (VirtualIpv4_from_std v4))
  | IpV6 v6 => bool_decide (is_Some (VirtualIpv6_from_std (be_bytes 16 v6)))
  end.

Definition route (client : ClientState) (destination : IpAddr) : RouteAction :=
  if is_mesh_address destination then RForwardToMesh
  else match active_gateway client with
       | Ok gw => RForwardViaGateway gw
       | Err _ => RDrop "non-mesh destination with no active gateway"
       end.

Definition require_route (client : ClientState) (destination : IpAddr) : result ExitError RouteAction :=
  match route client destination with RDrop _ => Err NoActiveGateway | action => Ok action end.

(** ** Meters *)

Record BandwidthStats : Type := mkBandwidthStats {
  bw_sent : N; bw_received : N; bw_packets_sent : N; bw_packets_received : N; bw_since : Z
}.
Definition stats_new (now : Z) : BandwidthStats := mkBandwidthStats 0 0 0 0 now.

Definition add_traffic (s : BandwidthStats) (sent received packets : N) : BandwidthStats :=
  mkBandwidthStats (u64_add (bw_sent s) sent) (u64_add (bw_received s) received) (u64_add (bw_packets_sent s) packets)
    (u64_add (bw_packets_received s) packets) (bw_since s).

Definition total_bytes (s : BandwidthStats) : N := u64_add (bw_sent s) (bw_received s).
Definition bytes_only (s : BandwidthStats) : BandwidthStats := mkBandwidthStats (bw_sent s) (bw_received s) 0 0 (bw_since s).

Record BwLimitConfig : Type := mkBwLimitConfig { bl_bytes_per_second : N; bl_burst_bytes : N }.
Definition BwLimitConfig_default : BwLimitConfig := mkBwLimitConfig (10 * 1024 * 1024) (5 * 1024 * 1024).

Inductive RateLimitResult : Type := RlAllowed | RlExceeded (wait_seconds : f64).

Record TokenBucket : Type := mkTokenBucket { tb_tokens : f64; tb_capacity : f64; tb_refill_rate : f64; tb_last_refill : N }.

Definition TokenBucket_new (mono : N) (bytes_per_second burst_bytes : N) : TokenBucket :=
  mkTokenBucket (f64_of burst_bytes) (f64_of burst_bytes) (f64_of bytes_per_second) mono.

Definition bucket_refill (mono : N) (b : TokenBucket) : TokenBucket :=
  let elapsed := as_secs_f64 (mono - tb_last_refill b) in
  mkTokenBucket (f64_min (f64_add (tb_tokens b) (f64_mul elapsed (tb_refill_rate b))) (tb_capacity b)) (tb_capacity b) (tb_refill_rate b) mono.

Definition bucket_consume (mono : N) (bytes : N) (b : TokenBucket) : TokenBucket * RateLimitResult :=
  let b := bucket_refill mono b in
  let needed := f64_of bytes in
  if SFleb needed (tb_tokens b) then (mkTokenBucket (f64_sub (tb_tokens b) needed) (tb_capacity b) (tb_refill_rate b) (tb_last_refill b), RlAllowed)
  else (b, RlExceeded (f64_div (f64_sub needed (tb_tokens b)) (tb_refill_rate b))).

Record ClientMeter : Type := mkClientMeter { cm_stats : BandwidthStats; cm_rate_limit : option BwLimitConfig; cm_bucket : TokenBucket }.
Definition ClientMeter_new (now : Z) (mono : N) : ClientMeter := mkClientMeter (stats_new now) None (TokenBucket_new mono 0 0).

Definition meter_record (m : ClientMeter) (sent received packets : N) : ClientMeter :=
  mkClientMeter (add_traffic (cm_stats m) sent received packets) (cm_rate_limit m) (cm_bucket m).

Definition meter_check (mono : N) (bytes : N) (m : ClientMeter) : ClientMeter * RateLimitResult :=
  match cm_rate_limit m with
  | Some _ => let '(b, r) := bucket_consume mono bytes (cm_bucket m) in (mkClientMeter (cm_stats m) (cm_rate_limit m) b, r)
  | None => (m, RlAllowed)
  end.

Definition set_rate_limit (mono : N) (m : ClientMeter) (config : option BwLimitConfig) : ClientMeter :=
  mkClientMeter (cm_stats m) config
    (match config with Some cfg => TokenBucket_new mono (bl_bytes_per_second cfg) (bl_burst_bytes cfg) | None => cm_bucket m end).

Definition meter_reset (now : Z) (m : ClientMeter) : ClientMeter := mkClientMeter (stats_new now) (cm_rate_limit m) (cm_bucket m).

Inductive TrafficDirection : Type := DirBoth | DirUpload | DirDownload.
Record GlobalBandwidthLimit : Type := mkGlobalBandwidthLimit { gl_max_bytes : N; gl_direction : TrafficDirection; gl_bytes_per_second : N }.

Record ExitNodeMeter : Type := mkExitNodeMeter {
  em_global : BandwidthStats; em_clients : gmap NodeId ClientMeter; em_limit : option GlobalBandwidthLimit
}.
Definition ExitNodeMeter_new (now : Z) : ExitNodeMeter := mkExitNodeMeter (stats_new now) ∅ None.

Definition client_meter (now : Z) (mono : N) (m : ExitNodeMeter) (client : NodeId) : ClientMeter :=
  default (ClientMeter_new now mono) (em_clients m !! client).

Definition get_or_create_meter (now : Z) (mono : N) (m : ExitNodeMeter) (client : NodeId) : ExitNodeMeter * ClientMeter :=
  let c := client_meter now mono m client in (mkExitNodeMeter (em_global m) (<[client := c]> (em_clients m)) (em_limit m), c).

Definition set_meter (m : ExitNodeMeter) (client : NodeId) (c : ClientMeter) : ExitNodeMeter :=
  mkExitNodeMeter (em_global m) (<[client := c]> (em_clients m)) (em_limit m).

Definition record_client_traffic (now : Z) (mono : N) (m : ExitNodeMeter) (client : NodeId) (sent received packets : N) : ExitNodeMeter :=
  mkExitNodeMeter (add_traffic (em_global m) sent received packets)
    (<[client := meter_record (client_meter now mono m client) sent received packets]> (em_clients m)) (em_limit m).

Definition record_traffic (m : ExitNodeMeter) (sent received packets : N) : ExitNodeMeter :=
  mkExitNodeMeter (add_traffic (em_global m) sent received packets) (em_clients m) (em_limit m).

Definition client_stats (m : ExitNodeMeter) (client : NodeId) : option BandwidthStats := cm_stats <$> em_clients m !! client.
Definition set_global_limit (m : ExitNodeMeter) (limit : option GlobalBandwidthLimit) : ExitNodeMeter := mkExitNodeMeter (em_global m) (em_clients m) limit.
Definition exit_meter_reset (now : Z) (m : ExitNodeMeter) : ExitNodeMeter := mkExitNodeMeter (stats_new now) ∅ (em_limit m).

(** The test of one direction of the global limit. *)
Definition over_limit (cfg : GlobalBandwidthLimit) (used bytes : N) : bool := gl_max_bytes cfg - u64_add used bytes <? bytes.

Definition check_global_limit (m : ExitNodeMeter) (bytes : N) : RateLimitResult :=
  match em_limit m with
  | None => RlAllowed
  | Some cfg =>
      let wait := f64_div (f64_of bytes) (f64_of (gl_bytes_per_second cfg)) in
      let up := match gl_direction cfg with DirDownload => false | _ => over_limit cfg (bw_sent (em_global m)) bytes end in
      let down := match gl_direction cfg with DirUpload => false | _ => over_limit cfg (bw_received (em_global m)) bytes end in
      if up then RlExceeded wait else if down then RlExceeded wait else RlAllowed
  end.

(** ** Billing *)

Inductive PricingModel : Type := PerByte | PerPacket | FlatRate (included_bytes : N) | Tiered.
Record PricingTier : Type := mkPricingTier { pt_min_bytes : N; pt_max_bytes : N; pt_price_per_mb : N }.

Definition MIB : N := 1024 * 1024.
Definition default_tiers : list PricingTier :=
  [mkPricingTier 0 (1024 * MIB) 10; mkPricingTier (1024 * MIB) (10 * 1024 * MIB) 5; mkPricingTier (10 * 1024 * MIB) u64_max 2].

Record RateCard : Type := mkRateCard { rc_model : PricingModel; rc_tiers : list PricingTier; rc_included_bytes : N; rc_base_fee_cents : N; rc_currency : string }.
Definition RateCard_default : RateCard := mkRateCard PerByte default_tiers 0 0 "USD".
Definition RateCard_tiered : RateCard := mkRateCard Tiered default_tiers 0 0 "USD".
Definition RateCard_flat_rate (included_bytes base_fee : N) : RateCard := mkRateCard (FlatRate included_bytes) default_tiers 0 base_fee "USD".

(** The loop over the tiers. *)
Fixpoint tiered_charge (charge remaining : N) (tiers : list PricingTier) : N :=
  match tiers with
  | [] => charge
  | tier :: tiers =>
      if remaining =? 0 then charge
      else
        let in_tier := N.min remaining (pt_max_bytes tier - pt_min_bytes tier) in
        tiered_charge (u64_add charge (u64_mul (in_tier / MIB) (pt_price_per_mb tier))) (remaining - in_tier) tiers
  end.

Definition calculate_charge (card : RateCard) (sent received : N) : N :=
  let total := sat_add u64_max sent received in
  let mb := total / MIB in
  match rc_model card with
  | PerByte => u64_mul mb 10
  | PerPacket => u64_mul (total / 1500) 10
  | FlatRate included =>
      if included <? total then u64_add (rc_base_fee_cents card) (u64_mul ((total - included) / MIB) 10) else rc_base_fee_cents card
  | Tiered => tiered_charge (rc_base_fee_cents card) total (rc_tiers card)
  end.

Record UsageRecord : Type := mkUsageRecord {
  ur_client_id : NodeId; ur_period_start : Z; ur_period_end : Z; ur_stats : BandwidthStats; ur_charge_cents : N; ur_rate_card : RateCard; ur_invoiced : bool
}.

Record BillingEngine : Type := mkBillingEngine { be_rate_cards : gmap NodeId RateCard; be_usage : gmap NodeId (list UsageRecord) }.
Definition BillingEngine_new : BillingEngine := mkBillingEngine ∅ ∅.

Definition set_rate_card (b : BillingEngine) (client : NodeId) (card : RateCard) : BillingEngine :=
  mkBillingEngine (<[client := card]> (be_rate_cards b)) (be_usage b).
Definition get_rate_card (b : BillingEngine) (client : NodeId) : RateCard := default RateCard_default (be_rate_cards b !! client).
Definition usage_of (b : BillingEngine) (client : NodeId) : list UsageRecord := default [] (be_usage b !! client).

Definition DAY_NANOS : Z := 86400 * 1000000000.

Definition bill_traffic (now : Z) (b : BillingEngine) (client : NodeId) (sent received : N) : BillingEngine :=
  let period_start := (now - now mod DAY_NANOS)%Z in
  let card := get_rate_card b client in
  let record := mkUsageRecord client period_start (period_start + 30 * DAY_NANOS)%Z
    (mkBandwidthStats sent received (sent / 1500) (received / 1500) now) (calculate_charge card sent received) card false in
  mkBillingEngine (be_rate_cards b) (<[client := usage_of b client ++ [record]]> (be_usage b)).

Definition get_current_usage (b : BillingEngine) (client : NodeId) : option BandwidthStats :=
  records ← be_usage b !! client; ur_stats <$> last records.
Definition get_current_charges (b : BillingEngine) (client : NodeId) : N := u64_sum (ur_charge_cents <$> usage_of b client).

Record LineItem : Type := mkLineItem { li_description : string; li_quantity : N; li_unit_price_cents : N; li_total_cents : N }.
Record Invoice : Type := mkInvoice {
  iv_invoice_id : string; iv_client_id : NodeId; iv_issued_at : Z; iv_period_start : Z; iv_period_end : Z; iv_line_items : list LineItem;
  iv_subtotal_cents : N; iv_tax_cents : N; iv_total_cents : N; iv_currency : string
}.
Inductive ExitNodeBillingError : Type := NoUsage.

(** [Uuid::new_v4] and its text. *)
Definition uuid_bytes (counter : N) : list N :=
  let le := rev (be_bytes 8 counter) in
  imap (λ i b, (b + N.shiftr counter (N.of_nat (i mod 8)) mod 256) mod 256) (le ++ le).
Definition uuid_text (counter : N) : string :=
  foldr String.append EmptyString
    (imap (λ i b, (if existsb (Nat.eqb i) [4; 6; 8; 10]%nat then "-" else EmptyString) +:+ hex_encode_ref [b]) (uuid_bytes counter)).

Definition generate_invoice (counter : N) (now : Z) (b : BillingEngine) (client : NodeId) : result ExitNodeBillingError Invoice :=
  let records := filter (λ r, ur_invoiced r = false) (usage_of b client) in
  match records with
  | [] => Err NoUsage
  | first :: _ =>
      let sent := u64_sum ((λ r, bw_sent (ur_stats r)) <$> records) in
      let received := u64_sum ((λ r, bw_received (ur_stats r)) <$> records) in
      let subtotal := u64_sum (ur_charge_cents <$> records) in
      let tax := u64_mul subtotal 10 / 100 in
      Ok (mkInvoice ("INV-" +:+ uuid_text counter) client now (ur_period_start first) (ur_period_end (default first (last records)))
            [mkLineItem "Data Upload (Exit Traffic)" sent 10 (sent / MIB * 10); mkLineItem "Data Download (Exit Traffic)" received 5 (received / MIB * 5)]
            subtotal tax (u64_add subtotal tax) (rc_currency (get_rate_card b client)))
  end.

Definition mark_invoiced (b : BillingEngine) (client : NodeId) : BillingEngine :=
  mkBillingEngine (be_rate_cards b)
    (alter (fmap (λ r, mkUsageRecord (ur_client_id r) (ur_period_start r) (ur_period_end r) (ur_stats r) (ur_charge_cents r) (ur_rate_card r) true)) client (be_usage b)).

Record BillingStatus : Type := mkBillingStatus { bst_sent : N; bst_received : N; bst_charge_cents : N; bst_rate_card : RateCard }.
Definition get_status (b : BillingEngine) (client : NodeId) : BillingStatus :=
  mkBillingStatus (u64_sum ((λ r, bw_sent (ur_stats r)) <$> usage_of b client)) (u64_sum ((λ r, bw_received (ur_stats r)) <$> usage_of b client))
    (u64_sum (ur_charge_cents <$> usage_of b client)) (get_rate_card b client).

(** ** The handler *)

Inductive TrafficKind : Type := ExitUpload | ExitDownload | MeshLocal.
Record PacketRecord : Type := mkPacketRecord { pr_source_node : NodeId; pr_destination : IpAddr; pr_kind : TrafficKind; pr_size_bytes : N; pr_timestamp : Z }.

Record ExitHandlerConfig : Type := mkExitHandlerConfig {
  ehc_enable_metering : bool; ehc_enable_billing : bool; ehc_default_rate_limit : N; ehc_max_burst_bytes : N; ehc_log_packets : bool
}.
Definition ExitHandlerConfig_default : ExitHandlerConfig := mkExitHandlerConfig true true (10 * 1024 * 1024) (5 * 1024 * 1024) false.

Inductive PacketAction : Type := PaForwardToMesh | PaForwardViaGateway (gateway : NodeId) | PaDropped | PaRateLimited (wait_ms : N).
Record PacketResult : Type := mkPacketResult { pk_allowed : bool; pk_action : PacketAction; pk_bytes : N; pk_drop_reason : option string }.

Definition result_allowed (a : PacketAction) (bytes : N) : PacketResult := mkPacketResult (match a with PaDropped => false | _ => true end) a bytes None.
Definition result_rate_limited (wait_ms bytes : N) : PacketResult :=
  mkPacketResult false (PaRateLimited wait_ms) bytes (Some ("rate limited, retry in " +:+ show_N wait_ms +:+ "ms")).
Definition result_dropped (reason : string) (bytes : N) : PacketResult := mkPacketResult false PaDropped bytes (Some reason).

Inductive ExitEvent : Type := TrafficRecorded (client : NodeId) (sent received : N) | RateLimitHit (client : NodeId) (wait_ms : N).

(** The roles are shared with the rest of the node and are arguments of the calls; the events
    that were sent are kept when a channel is set. *)
Record ExitHandler : Type := mkExitHandler {
  eh_config : ExitHandlerConfig; eh_meter : ExitNodeMeter; eh_billing : option BillingEngine; eh_log : list PacketRecord; eh_events : option (list ExitEvent)
}.

Definition ExitHandler_new (now : Z) (config : ExitHandlerConfig) : ExitHandler :=
  mkExitHandler config (ExitNodeMeter_new now) (if ehc_enable_billing config then Some BillingEngine_new else None) [] None.

Definition set_event_channel (h : ExitHandler) : ExitHandler := mkExitHandler (eh_config h) (eh_meter h) (eh_billing h) (eh_log h) (Some []).

Definition log_packet (now : Z) (h : ExitHandler) (source : NodeId) (destination : IpAddr) (kind : TrafficKind) (size : N) : ExitHandler :=
  if ehc_log_packets (eh_config h) then
    let log := eh_log h ++ [mkPacketRecord source destination kind size now] in
    mkExitHandler (eh_config h) (eh_meter h) (eh_billing h) (if Nat.ltb 10000 (length log) then drop 5000 log else log) (eh_events h)
  else h.

Definition send_event (h : ExitHandler) (e : ExitEvent) : ExitHandler :=
  mkExitHandler (eh_config h) (eh_meter h) (eh_billing h) (eh_log h) ((λ es, es ++ [e]) <$> eh_events h).

Definition with_meter (h : ExitHandler) (m : ExitNodeMeter) : ExitHandler := mkExitHandler (eh_config h) m (eh_billing h) (eh_log h) (eh_events h).

(** The accounting of traffic through the gateway. *)
Definition account (now : Z) (mono : N) (h : ExitHandler) (client : NodeId) (sent received : N) : ExitHandler :=
  let h := if ehc_enable_metering (eh_config h)
           then send_event (with_meter h (record_client_traffic now mono (eh_meter h) client sent received 1)) (TrafficRecorded client sent received) else h in
  mkExitHandler (eh_config h) (eh_meter h) ((λ b, bill_traffic now b client sent received) <$> eh_billing h) (eh_log h) (eh_events h).

Definition process_packet (now : Z) (mono : N) (roles : ClientState) (h : ExitHandler) (source : NodeId) (destination : IpAddr) (size : N) : ExitHandler * PacketResult :=
  match route roles destination with
  | RForwardToMesh =>
      let h := if ehc_enable_metering (eh_config h) then with_meter h (record_traffic (eh_meter h) size 0 1) else h in
      (log_packet now h source destination MeshLocal size, result_allowed PaForwardToMesh size)
  | RForwardViaGateway gateway =>
      let '(m, meter) := get_or_create_meter now mono (eh_meter h) source in
      let '(meter, limit) := meter_check mono size meter in
      let h := with_meter h (set_meter m source meter) in
      match limit with
      | RlAllowed => (log_packet now (account now mono h source size 0) source destination ExitUpload size, result_allowed (PaForwardViaGateway gateway) size)
      | RlExceeded wait_seconds =>
          let wait_ms := f64_as_u64 (f64_mul wait_seconds (f64_of 1000)) in
          (send_event h (RateLimitHit source wait_ms), result_rate_limited wait_ms size)
      end
  | RDrop reason => (log_packet now h source destination ExitUpload size, result_dropped reason size)
  end.

Definition process_return_packet (now : Z) (mono : N) (h : ExitHandler) (destination : NodeId) (source : IpAddr) (size : N) : ExitHandler * PacketResult :=
  (log_packet now (account now mono h destination 0 size) destination source ExitDownload size, result_allowed PaForwardToMesh size).

Definition get_packet_log (h : ExitHandler) (limit : nat) : list PacketRecord := take limit (rev (eh_log h)).
Definition clear_packet_log (h : ExitHandler) : ExitHandler := mkExitHandler (eh_config h) (eh_meter h) (eh_billing h) [] (eh_events h).

(** ** Sums *)

Lemma u64_add_mod a b : u64_add (a mod 2 ^ 64) b = (a + b) mod 2 ^ 64.
Proof. unfold u64_add. by rewrite N.Div0.add_mod_idemp_l. Qed.

Lemma u64_sum_app l x : u64_sum (l ++ [x]) = u64_add (u64_sum l) x.
Proof. unfold u64_sum. by rewrite foldl_app. Qed.

Lemma u64_sum_zero l : Forall (λ x, x = 0) l → u64_sum l = 0.
Proof. unfold u64_sum. induction 1 as [|x l -> Hl IH]; [done|]. done. Qed.

(** ** A node at work *)

(** What happens to a handler: packets in both directions, a limit for a client, and the
    records of a client marked as invoiced. *)
Inductive ExitInput : Type :=
  | InPacket (now : Z) (mono : N) (roles : ClientState) (source : NodeId) (destination : IpAddr) (size : N)
  | InReturn (now : Z) (mono : N) (client : NodeId) (source : IpAddr) (size : N)
  | InLimit (now : Z) (mono : N) (client : NodeId) (config : option BwLimitConfig)
  | InMarked (client : NodeId).

Definition exit_step (h : ExitHandler) (i : ExitInput) : ExitHandler * option PacketResult :=
  match i with
  | InPacket now mono roles source destination size => let '(h, r) := process_packet now mono roles h source destination size in (h, Some r)
  | InReturn now mono client source size => let '(h, r) := process_return_packet now mono h client source size in (h, Some r)
  | InLimit now mono client config =>
      let '(m, c) := get_or_create_meter now mono (eh_meter h) client in (with_meter h (set_meter m client (set_rate_limit mono c config)), None)
  | InMarked client => (mkExitHandler (eh_config h) (eh_meter h) ((λ b, mark_invoiced b client) <$> eh_billing h) (eh_log h) (eh_events h), None)
  end.

Fixpoint exit_run (h : ExitHandler) (ins : list ExitInput) : ExitHandler * list (ExitInput * option PacketResult) :=
  match ins with
  | [] => (h, [])
  | i :: ins => let '(h, r) := exit_step h i in let '(h, rs) := exit_run h ins in (h, (i, r) :: rs)
  end.

(** The bytes the handler let out for a client, and back in. *)
Definition sent_for (client : NodeId) (e : ExitInput * option PacketResult) : N :=
  match e with
  | (InPacket _ _ _ source _ size, Some (mkPacketResult _ (PaForwardViaGateway _) _ _)) => if decide (source = client) then size else 0
  | _ => 0
  end.
Definition received_for (client : NodeId) (e : ExitInput * option PacketResult) : N :=
  match e with (InReturn _ _ c _ size, _) => if decide (c = client) then size else 0 | _ => 0 end.
Definition total_of (f : ExitInput * option PacketResult → N) (rs : list (ExitInput * option PacketResult)) : N := foldr (λ e acc, f e + acc) 0 rs.

Definition metered (h : ExitHandler) (client : NodeId) : N * N :=
  match client_stats (eh_meter h) client with Some s => (bw_sent s, bw_received s) | None => (0, 0) end.
Definition billed (h : ExitHandler) (client : NodeId) : N * N :=
  match eh_billing h with Some b => (bst_sent (get_status b client), bst_received (get_status b client)) | None => (0, 0) end.

(** The books of a client at the given totals. *)
Definition books (h : ExitHandler) (client : NodeId) (sent received : N) : Prop :=
  metered h client = (sent mod 2 ^ 64, received mod 2 ^ 64) ∧ billed h client = (sent mod 2 ^ 64, received mod 2 ^ 64).

Definition counting (h : ExitHandler) : Prop := ehc_enable_metering (eh_config h) = true ∧ is_Some (eh_billing h).

Lemma log_packet_books now h source d kind size :
  eh_meter (log_packet now h source d kind size) = eh_meter h ∧ eh_billing (log_packet now h source d kind size) = eh_billing h ∧
  eh_config (log_packet now h source d kind size) = eh_config h.
Proof. unfold log_packet. by destruct (ehc_log_packets _). Qed.

Lemma books_ext h h' client s r : eh_meter h' = eh_meter h → eh_billing h' = eh_billing h → books h client s r → books h' client s r.
Proof. unfold books, metered, billed. by intros -> ->. Qed.

Lemma client_meter_stats now mono m c client :
  (match cm_stats <$> <[c := client_meter now mono m c]> (em_clients m) !! client with Some s => (bw_sent s, bw_received s) | None => (0, 0) end) =
  (match cm_stats <$> em_clients m !! client with Some s => (bw_sent s, bw_received s) | None => (0, 0) end).
Proof.
  destruct (decide (client = c)) as [->|Hne]; [rewrite lookup_insert_eq|by rewrite lookup_insert_ne]. unfold client_meter. by destruct (em_clients m !! c).
Qed.

Lemma bill_traffic_sums now b c sent received client :
  bst_sent (get_status (bill_traffic now b c sent received) client) = (if decide (client = c) then u64_add (bst_sent (get_status b client)) sent else bst_sent (get_status b client)) ∧
  bst_received (get_status (bill_traffic now b c sent received) client) = (if decide (client = c) then u64_add (bst_received (get_status b client)) received else bst_received (get_status b client)).
Proof.
  unfold get_status, bill_traffic, usage_of. cbn [bst_sent bst_received be_usage]. case_decide as Hc.
  - subst c. rewrite lookup_insert_eq. cbn [from_option]. unfold id. rewrite !fmap_app. cbn [fmap list_fmap]. rewrite !u64_sum_app. done.
  - by rewrite lookup_insert_ne.
Qed.

Lemma account_books now mono h c sent received client s r :
  counting h → books h client s r → counting (account now mono h c sent received) ∧
  books (account now mono h c sent received) client (if decide (client = c) then s + sent else s) (if decide (client = c) then r + received else r).
Proof.
  intros [Hm [b Hb]] [Hme Hbi]. unfold account. rewrite Hm. cbn [send_event with_meter eh_billing eh_config eh_meter eh_log eh_events]. rewrite Hb. cbn [fmap option_fmap option_map].
  split; [by split; [|eexists]|]. unfold billed in Hbi. rewrite Hb in Hbi. pose proof (f_equal fst Hbi) as Hs. pose proof (f_equal snd Hbi) as Hr. cbn [fst snd] in Hs, Hr. unfold books, metered, billed, client_stats. cbn [eh_meter eh_billing record_client_traffic em_clients].
  destruct (bill_traffic_sums now b c sent received client) as [-> ->]. rewrite Hs, Hr. unfold metered, client_stats in Hme. case_decide as Hc.
  - subst c. rewrite lookup_insert_eq. cbn [fmap option_fmap option_map cm_stats meter_record add_traffic bw_sent bw_received]. unfold client_meter.
    rewrite !u64_add_mod. split; [|done]. destruct (em_clients (eh_meter h) !! client) as [cm|]; cbn [fmap option_fmap option_map from_option] in *; unfold id; injection Hme as Hs' Hr';
      [by rewrite Hs', Hr', !u64_add_mod|]. by rewrite <-!u64_add_mod, <-Hs', <-Hr'.
  - by rewrite lookup_insert_ne.
Qed.

Lemma meter_check_stats mono bytes m : cm_stats (meter_check mono bytes m).1 = cm_stats m.
Proof. unfold meter_check. destruct (cm_rate_limit m); [|done]. by destruct (bucket_consume _ _ _). Qed.

Lemma set_meter_books now mono h c cm client s r :
  cm_stats cm = cm_stats (client_meter now mono (eh_meter h) c) →
  books h client s r → books (with_meter h (set_meter (get_or_create_meter now mono (eh_meter h) c).1 c cm)) client s r.
Proof.
  intros Hcm. unfold books, metered, billed, client_stats. cbn [with_meter set_meter get_or_create_meter fst em_clients eh_meter eh_billing]. intros [<- Hb]. split; [|done].
  rewrite insert_insert_eq. destruct (decide (client = c)) as [->|Hne]; [|by rewrite lookup_insert_ne].
  rewrite lookup_insert_eq. cbn [fmap option_fmap option_map]. rewrite Hcm. unfold client_meter. by destruct (em_clients (eh_meter h) !! c).
Qed.

Lemma counting_log now h source d kind size : counting h → counting (log_packet now h source d kind size).
Proof. destruct (log_packet_books now h source d kind size) as (_ & Hb & Hc). unfold counting. by rewrite Hb, Hc. Qed.

Lemma books_log now h source d kind size client s r : books h client s r → books (log_packet now h source d kind size) client s r.
Proof. destruct (log_packet_books now h source d kind size) as (Hm & Hb & _). by apply books_ext. Qed.

Lemma marked_status b c client : get_status (mark_invoiced b c) client = get_status b client.
Proof.
  unfold get_status, mark_invoiced, usage_of, get_rate_card. cbn [be_usage be_rate_cards]. destruct (decide (client = c)) as [->|Hne]; [|by rewrite lookup_alter_ne].
  rewrite lookup_alter_eq. destruct (be_usage b !! c) as [l|]; [|done]. cbn [fmap option_fmap option_map from_option]. unfold id. by rewrite <-!list_fmap_compose.
Qed.

Lemma process_packet_books now mono roles h source d size client s r :
  counting h → books h client s r →
  let '(h', res) := process_packet now mono roles h source d size in
  counting h' ∧ books h' client (s + sent_for client (InPacket now mono roles source d size, Some res)) r.
Proof.
  intros Hc Hb. unfold process_packet. destruct (route roles d) as [|gw|reason].
  - split; [apply counting_log; by destruct (ehc_enable_metering _)|]. rewrite N.add_0_r. apply books_log. by destruct (ehc_enable_metering _).
  - destruct (get_or_create_meter now mono (eh_meter h) source) as [m cm] eqn:Hg. assert (m = (get_or_create_meter now mono (eh_meter h) source).1) as -> by by rewrite Hg.
    assert (cm = client_meter now mono (eh_meter h) source) as Hcm by (by injection Hg). pose proof (meter_check_stats mono size cm) as Hst. destruct (meter_check mono size cm) as [cm' limit]. cbn [fst] in Hst.
    pose proof (set_meter_books now mono h source cm' client s r ltac:(by rewrite Hst, <-Hcm) Hb) as Hb'. destruct limit as [|wait].
    + destruct (account_books now mono _ source size 0 client s r (Hc : counting (with_meter h _)) Hb') as [Hc1 Hb1]. split; [by apply counting_log|].
      apply books_log. cbn [sent_for result_allowed]. clear -Hb1. destruct (decide (client = source)) as [->|]; [rewrite decide_True by done; by rewrite N.add_0_r in Hb1|].
      rewrite decide_False by done. by rewrite N.add_0_r.
    + split; [done|]. cbn [sent_for result_rate_limited]. rewrite N.add_0_r. exact Hb'.
  - split; [by apply counting_log|]. rewrite N.add_0_r. by apply books_log.
Qed.

Lemma exit_step_books h i client s r :
  counting h → books h client s r →
  let '(h', res) := exit_step h i in counting h' ∧ books h' client (s + sent_for client (i, res)) (r + received_for client (i, res)).
Proof.
  intros Hc Hb. destruct i as [now mono roles source d size|now mono c source size|now mono c config|c]; cbn [exit_step].
  - pose proof (process_packet_books now mono roles h source d size client s r Hc Hb) as Hp. destruct (process_packet _ _ _ _ _ _ _) as [h' res].
    destruct Hp as [Hc' Hb']. split; [done|]. cbn [received_for]. by rewrite N.add_0_r.
  - unfold process_return_packet. destruct (account_books now mono h c 0 size client s r Hc Hb) as [Hc1 Hb1]. split; [by apply counting_log|]. apply books_log.
    cbn [sent_for received_for]. rewrite !N.add_0_r in *. clear -Hb1. destruct (decide (client = c)) as [->|]; [by rewrite decide_True|]. rewrite decide_False by done. by rewrite N.add_0_r.
  - cbn [get_or_create_meter sent_for received_for]. rewrite !N.add_0_r. split; [done|].
    by apply (set_meter_books now mono h c (set_rate_limit mono (client_meter now mono (eh_meter h) c) config)).
  - cbn [sent_for received_for]. rewrite !N.add_0_r. destruct Hc as [Hm [b Hbl]], Hb as [H1 H2]. unfold counting, books, metered, billed in *. cbn [eh_config eh_meter eh_billing].
    rewrite Hbl in *. cbn [fmap option_fmap option_map]. rewrite marked_status. eauto.
Qed.

(** C38. The books of an exit node: with metering and billing on, whatever packets, answers,
    limits and invoices come, the meter of a client and the usage it is billed for are both
    the bytes the handler let out through the gateway for it and the bytes it let back in,
    at the width of the counters. Packets that are dropped, held back or stay in the mesh
    count for nobody. *)
Theorem exit_accounting now config ins client :
  ehc_enable_metering config = true → ehc_enable_billing config = true →
  let '(h, rs) := exit_run (ExitHandler_new now config) ins in
  books h client (total_of (sent_for client) rs) (total_of (received_for client) rs).
Proof.
  intros Hm Hb. assert (∀ h s r, counting h → books h client s r →
    let '(h', rs) := exit_run h ins in books h' client (s + total_of (sent_for client) rs) (r + total_of (received_for client) rs)) as Hgen.
  { induction ins as [|i ins IH]; intros h s r Hc Hbk; cbn [exit_run]; [by rewrite !N.add_0_r|].
    pose proof (exit_step_books h i client s r Hc Hbk) as Hs. destruct (exit_step h i) as [h1 res]. destruct Hs as [Hc1 Hb1]. specialize (IH h1 _ _ Hc1 Hb1).
    destruct (exit_run h1 ins) as [h2 rs]. cbn [total_of foldr]. fold (total_of (sent_for client) rs) (total_of (received_for client) rs). by rewrite !N.add_assoc. }
  specialize (Hgen (ExitHandler_new now config) 0 0). destruct (exit_run _ ins) as [h rs]. apply Hgen.
  - unfold ExitHandler_new. rewrite Hb. by split; [|eexists].
  - unfold books, metered, billed, ExitHandler_new. rewrite Hb. unfold client_stats. cbn [eh_meter eh_billing ExitNodeMeter_new em_clients]. by rewrite lookup_empty.
Qed.

(** Leaving the mesh: a packet is sent to a gateway only when its destination is outside the
    mesh and the client has chosen that gateway; without a choice it is dropped and nothing
    is recorded. *)
Theorem exit_only_by_choice now mono roles h source d size :
  let '(h', res) := process_packet now mono roles h source d size in
  (∀ gw, pk_action res = PaForwardViaGateway gw → is_mesh_address d = false ∧ active_gateway roles = Ok gw) ∧
  (is_mesh_address d = false → active_gateway roles = Err NoActiveGateway →
   pk_allowed res = false ∧ eh_meter h' = eh_meter h ∧ eh_billing h' = eh_billing h ∧ require_route roles d = Err NoActiveGateway) ∧
  (is_mesh_address d = true → pk_action res = PaForwardToMesh).
Proof.
  unfold process_packet, require_route, route. destruct (is_mesh_address d).
  - split_and!; [|done|done]. intros gw Hgw. by cbn in Hgw.
  - destruct roles as [|gw since]; cbn [active_gateway].
    + destruct (log_packet_books now h source d ExitUpload size) as (H1 & H2 & _). split_and!; [by intros gw Hgw|by intros _ _|done].
    + destruct (get_or_create_meter _ _ _ _) as [m cm]. destruct (meter_check _ _ _) as [cm' [|wait]]; split_and!; try done. by intros gw' [= ->].
Qed.

(** ** Charges *)

Definition MAX_PACKET_SIZE : N := 65535.

Definition packet_size (i : ExitInput) : N :=
  match i with InPacket _ _ _ _ _ size | InReturn _ _ _ _ size => size | _ => 0 end.

Definition free (b : BillingEngine) : Prop := be_rate_cards b = ∅ ∧ ∀ c, Forall (λ r, ur_charge_cents r = 0) (usage_of b c).

Lemma free_bill now b c sent received : free b → sent + received <= MAX_PACKET_SIZE → free (bill_traffic now b c sent received).
Proof.
  intros [Hc Hu] Hle. split; [done|]. intros c'. unfold bill_traffic, usage_of at 1. cbn [be_usage]. destruct (decide (c' = c)) as [->|Hne]; [|rewrite lookup_insert_ne by done; apply Hu].
  rewrite lookup_insert_eq. cbn [from_option]. unfold id. apply Forall_app. split; [apply Hu|]. constructor; [|constructor]. cbn [ur_charge_cents].
  unfold get_rate_card. rewrite Hc, lookup_empty. unfold calculate_charge. cbn [from_option id RateCard_default rc_model]. unfold sat_add, MAX_PACKET_SIZE in *.
  rewrite N.min_l by (unfold u64_max; lia). by rewrite N.div_small by (unfold MIB; lia).
Qed.

Lemma free_mark b c : free b → free (mark_invoiced b c).
Proof.
  intros [Hc Hu]. split; [done|]. intros c'. unfold usage_of, mark_invoiced. cbn [be_usage]. specialize (Hu c'). unfold usage_of in Hu.
  destruct (decide (c' = c)) as [->|Hne]; [rewrite lookup_alter_eq|by rewrite lookup_alter_ne]. destruct (be_usage b !! c) as [l|]; [|done].
  cbn [fmap option_fmap option_map from_option] in *. unfold id in *. by apply Forall_fmap.
Qed.

Definition handler_free (h : ExitHandler) : Prop := ∀ b, eh_billing h = Some b → free b.

Lemma account_free now mono h c sent received : handler_free h → sent + received <= MAX_PACKET_SIZE → handler_free (account now mono h c sent received).
Proof.
  intros Hf Hle b. unfold account. destruct (ehc_enable_metering _); cbn [eh_billing send_event with_meter]; intros (b0 & Hb0 & ->)%fmap_Some; apply free_bill; auto.
Qed.

Lemma log_free now h source d kind size : handler_free h → handler_free (log_packet now h source d kind size).
Proof. destruct (log_packet_books now h source d kind size) as (_ & Hb & _). unfold handler_free. by rewrite Hb. Qed.

Lemma exit_step_free h i : handler_free h → packet_size i <= MAX_PACKET_SIZE → handler_free (exit_step h i).1.
Proof.
  intros Hf Hsz. destruct i as [now mono roles source d size|now mono c source size|now mono c config|c]; cbn [exit_step packet_size] in *.
  - unfold process_packet. destruct (route roles d).
    + cbn [fst]. apply log_free. by destruct (ehc_enable_metering _).
    + destruct (get_or_create_meter _ _ _ _) as [m cm]. destruct (meter_check _ _ _) as [cm' [|wait]]; cbn [fst]; [|done]. apply log_free, account_free; [done|lia].
    + by apply log_free.
  - apply log_free, account_free; [done|lia].
  - done.
  - intros b. cbn [eh_billing fst]. intros (b0 & Hb0 & ->)%fmap_Some. by apply free_mark, Hf.
Qed.

(** A packet is charged by itself and in whole mebibytes, and a packet is smaller than one:
    under the default rates nothing is ever charged, whatever the traffic, although the line
    items of the invoice list it. *)
Theorem packets_are_free now config ins client counter t iv b :
  Forall (λ i, packet_size i <= MAX_PACKET_SIZE) ins → eh_billing (exit_run (ExitHandler_new now config) ins).1 = Some b →
  get_current_charges b client = 0 ∧ (generate_invoice counter t b client = Ok iv → iv_total_cents iv = 0).
Proof.
  intros Hin Hb. assert (∀ h, handler_free h → handler_free (exit_run h ins).1) as Hrun.
  { clear Hb. induction Hin as [|i ins Hi Hins IH]; intros h Hf; cbn [exit_run]; [done|]. pose proof (exit_step_free h i Hf Hi) as Hs.
    destruct (exit_step h i) as [h1 res]. specialize (IH h1 Hs). by destruct (exit_run h1 ins). }
  destruct (Hrun (ExitHandler_new now config)) with (b := b) as [_ Hu]; [|done|].
  { intros b0. unfold ExitHandler_new. cbn [eh_billing]. destruct (ehc_enable_billing config); [|done]. intros [= <-]. split; [done|]. intros c. constructor. }
  specialize (Hu client). split; [by apply u64_sum_zero, Forall_fmap|]. assert (u64_sum (ur_charge_cents <$> filter (λ r, ur_invoiced r = false) (usage_of b client)) = 0) as Hz.
  { apply u64_sum_zero, Forall_fmap. by apply Forall_filter_sub. }
  intros Hiv. apply (f_equal (λ r, match r with Ok iv => iv_total_cents iv | Err _ => 0 end)) in Hiv. rewrite <-Hiv. unfold generate_invoice.
  destruct (filter _ _) as [|first rest]; [done|]. cbv beta iota zeta. cbn [iv_total_cents]. by rewrite Hz.
Qed.

(** The flat fee is charged for every packet. *)
Theorem flat_fee_per_packet now b client fee included sent received :
  be_rate_cards b !! client = Some (RateCard_flat_rate included fee) → sat_add u64_max sent received <= included →
  get_current_charges (bill_traffic now b client sent received) client = u64_add (get_current_charges b client) fee.
Proof.
  intros Hc Hle. unfold get_current_charges, bill_traffic, usage_of at 1. cbn [be_usage]. rewrite lookup_insert_eq. cbn [from_option]. unfold id. rewrite fmap_app. cbn [fmap list_fmap].
  rewrite u64_sum_app. cbn [ur_charge_cents]. unfold get_rate_card. rewrite Hc. cbn [from_option]. unfold id, calculate_charge. cbn [RateCard_flat_rate rc_model rc_base_fee_cents].
  by rewrite (proj2 (N.ltb_ge _ _)).
Qed.

(** The default tiers: a total is priced at 10 cents for each of its first 1024 mebibytes,
    5 for each of the next 9216 and 2 for each further one, the parts counted in whole
    mebibytes. *)
Theorem tiered_charge_closed_form sent received :
  let total := sat_add u64_max sent received in
  calculate_charge RateCard_tiered sent received =
    N.min total (1024 * MIB) / MIB * 10 + N.min (total - 1024 * MIB) (9216 * MIB) / MIB * 5 + (total - 10240 * MIB) / MIB * 2.
Proof.
  intros total. assert (total <= u64_max) as Ht by (unfold total, sat_add; lia). unfold calculate_charge. cbn [RateCard_tiered rc_model rc_tiers rc_base_fee_cents]. fold total. clearbody total.
  assert (total - 10240 * MIB <= u64_max - 10 * 1024 * MIB) as Hlast by (unfold MIB; lia).
  unfold default_tiers. cbn [tiered_charge pt_min_bytes pt_max_bytes pt_price_per_mb].
  assert (∀ x, x <= u64_max → x / MIB <= 17592186044415) as Hd by (intros x Hx; unfold MIB, u64_max in *; apply N.lt_succ_r, N.Div0.div_lt_upper_bound; lia).
  assert (∀ a b, a < 2 ^ 60 → b < 2 ^ 60 → u64_add a b = a + b) as Hadd by (intros a b Ha Hb; unfold u64_add; apply N.mod_small; lia).
  assert (∀ x p, x <= u64_max → p <= 10 → u64_mul (x / MIB) p = x / MIB * p) as Hmul.
  { intros x p Hx Hp. unfold u64_mul. apply N.mod_small. specialize (Hd x Hx). nia. }
  destruct (N.eqb_spec total 0) as [->|H0]; [done|]. replace (1024 * MIB - 0) with (1024 * MIB) by lia. replace (10 * 1024 * MIB - 1024 * MIB) with (9216 * MIB) by (unfold MIB; lia).
  replace (total - N.min total (1024 * MIB)) with (total - 1024 * MIB) by lia. rewrite Hmul by lia. pose proof (Hd (N.min total (1024 * MIB)) ltac:(lia)) as B1. rewrite (Hadd 0) by lia.
  destruct (N.eqb_spec (total - 1024 * MIB) 0) as [Hz|H1].
  { rewrite Hz. replace (total - 10240 * MIB) with 0 by (unfold MIB in *; lia). rewrite N.min_0_l, N.Div0.div_0_l. lia. }
  replace (total - 1024 * MIB - N.min (total - 1024 * MIB) (9216 * MIB)) with (total - 10240 * MIB) by (unfold MIB in *; lia).
  rewrite Hmul by lia. pose proof (Hd (N.min (total - 1024 * MIB) (9216 * MIB)) ltac:(lia)) as B2. rewrite (Hadd (0 + _)) by lia.
  destruct (N.eqb_spec (total - 10240 * MIB) 0) as [Hz|H2]; [rewrite Hz, N.Div0.div_0_l; lia|].
  rewrite (N.min_l (total - 10240 * MIB) (u64_max - 10 * 1024 * MIB)) by exact Hlast.
  rewrite Hmul by lia. pose proof (Hd (total - 10240 * MIB) ltac:(lia)) as B3. rewrite Hadd by lia. lia.
Qed.

(** ** The log and the limits *)

Lemma log_bounded now h source d kind size : (length (eh_log h) ≤ 10000)%nat → (length (eh_log (log_packet now h source d kind size)) ≤ 10000)%nat.
Proof.
  intros Hl. unfold log_packet. destruct (ehc_log_packets _); [|done]. cbn [eh_log]. rewrite length_app. cbn [length].
  destruct (Nat.ltb_spec 10000 (length (eh_log h) + 1)); rewrite ?length_drop, length_app; cbn [length]; lia.
Qed.

Lemma account_log now mono h c sent received : eh_log (account now mono h c sent received) = eh_log h.
Proof. unfold account. by destruct (ehc_enable_metering _). Qed.

(** The log of packets never exceeds 10000 entries. *)
Theorem packet_log_bounded now config ins : (length (eh_log (exit_run (ExitHandler_new now config) ins).1) ≤ 10000)%nat.
Proof.
  assert (∀ h, (length (eh_log h) ≤ 10000)%nat → (length (eh_log (exit_run h ins).1) ≤ 10000)%nat) as Hrun; [|apply Hrun; cbn; lia].
  induction ins as [|i ins IH]; intros h Hl; cbn [exit_run]; [done|]. assert (length (eh_log (exit_step h i).1) ≤ 10000)%nat as Hs.
  { destruct i as [now' mono roles source d size|now' mono c source size|now' mono c cfg|c]; cbn [exit_step]; [|by apply log_bounded; rewrite account_log|done|done].
    unfold process_packet. destruct (route roles d); [apply log_bounded; by destruct (ehc_enable_metering _)| |by apply log_bounded].
    destruct (get_or_create_meter _ _ _ _) as [m cm]. destruct (meter_check _ _ _) as [cm' [|wait]]; cbn [fst]; [|done]. by apply log_bounded; rewrite account_log. }
  destruct (exit_step h i) as [h1 res]. specialize (IH h1 Hs). by destruct (exit_run h1 ins).
Qed.

Definition unlimited (m : ExitNodeMeter) : Prop := ∀ c cm, em_clients m !! c = Some cm → cm_rate_limit cm = None.

Lemma unlimited_insert m c cm g l : unlimited m → cm_rate_limit cm = None → unlimited (mkExitNodeMeter g (<[c := cm]> (em_clients m)) l).
Proof. intros Hu Hc c' cm'. cbn [em_clients]. rewrite lookup_insert_Some. intros [[_ <-]|[_ ?]]; [done|by eapply Hu]. Qed.

Lemma unlimited_client now mono m c : unlimited m → cm_rate_limit (client_meter now mono m c) = None.
Proof. intros Hu. unfold client_meter. destruct (em_clients m !! c) as [cm|] eqn:Hc; [by eapply Hu|done]. Qed.

Lemma account_unlimited now mono h c sent received : unlimited (eh_meter h) → unlimited (eh_meter (account now mono h c sent received)).
Proof.
  intros Hu. unfold account. destruct (ehc_enable_metering _); [|done]. cbn [eh_meter send_event with_meter record_client_traffic]. apply unlimited_insert; [done|].
  cbn [meter_record cm_rate_limit]. by apply unlimited_client.
Qed.

(** The limit of the configuration is not applied: as long as no limit is set by hand for a
    client, no packet is held back, whatever [default_rate_limit] and [max_burst_bytes] are. *)
Theorem default_limit_unused now config ins :
  Forall (λ i, match i with InLimit _ _ _ _ => False | _ => True end) ins →
  Forall (λ e : ExitInput * option PacketResult, match e.2 with Some r => ∀ w, pk_action r ≠ PaRateLimited w | None => True end) (exit_run (ExitHandler_new now config) ins).2.
Proof.
  intros Hins. assert (∀ h, unlimited (eh_meter h) → Forall (λ e : ExitInput * option PacketResult, match e.2 with Some r => ∀ w, pk_action r ≠ PaRateLimited w | None => True end) (exit_run h ins).2) as Hrun;
    [|apply Hrun; intros c cm; cbn [ExitHandler_new eh_meter ExitNodeMeter_new em_clients]; by rewrite lookup_empty].
  induction Hins as [|i ins Hi Hins IH]; intros h Hu; cbn [exit_run]; [constructor|].
  assert (unlimited (eh_meter (exit_step h i).1) ∧ match (exit_step h i).2 with Some r => ∀ w, pk_action r ≠ PaRateLimited w | None => True end) as [Hu1 Hr].
  { destruct i as [now' mono roles source d size|now' mono c source size|now' mono c cfg|c]; cbn [exit_step]; [| |done|done].
    - unfold process_packet. destruct (route roles d).
      + cbn [fst snd]. rewrite (proj1 (log_packet_books _ _ _ _ _ _)). split; [by destruct (ehc_enable_metering _)|done].
      + cbn [get_or_create_meter]. unfold meter_check. rewrite unlimited_client by done. cbn [fst snd]. rewrite (proj1 (log_packet_books _ _ _ _ _ _)). split; [|done].
        apply account_unlimited. cbn [with_meter eh_meter]. unfold set_meter. apply unlimited_insert; [apply unlimited_insert; [done|]|]; by apply unlimited_client.
      + cbn [fst snd]. by rewrite (proj1 (log_packet_books _ _ _ _ _ _)).
    - cbn [process_return_packet fst snd]. rewrite (proj1 (log_packet_books _ _ _ _ _ _)). split; [by apply account_unlimited|done]. }
  destruct (exit_step h i) as [h1 res]. specialize (IH h1 Hu1). destruct (exit_run h1 ins) as [h2 rs]. by constructor.
Qed.

(** The global limit counts the bytes of the request twice: of 100 bytes none are used and a
    request for 60 is refused. *)
Example global_limit_counts_twice : check_global_limit (set_global_limit (ExitNodeMeter_new 0) (Some (mkGlobalBandwidthLimit 100 DirBoth 10))) 60 ≠ RlAllowed.
Proof. vm_compute. discriminate. Qed.

(** ** Instances *)

Definition ex_roles : ClientState := (use_gateway 0 Unconfigured (mkNodeId "g")).1.
Definition ex_inputs : list ExitInput :=
  [InPacket 0 0 ex_roles (mkNodeId "a") (IpV4 134744072) 1500; InReturn 0 0 (mkNodeId "a") (IpV4 134744072) 9000; InPacket 0 0 Unconfigured (mkNodeId "a") (IpV4 134744072) 700].

Lemma exit_accounting_witness : metered (exit_run (ExitHandler_new 0 ExitHandlerConfig_default) ex_inputs).1 (mkNodeId "a") = (1500, 9000).
Proof.
  pose proof (exit_accounting 0 ExitHandlerConfig_default ex_inputs (mkNodeId "a") eq_refl eq_refl) as H. revert H.
  destruct (exit_run (ExitHandler_new 0 ExitHandlerConfig_default) ex_inputs) as [h rs] eqn:E. intros [H _]. cbn [fst]. rewrite H. vm_compute in E. injection E as <- <-. vm_compute. reflexivity.
Defined.

Lemma packets_are_free_witness :
  match eh_billing (exit_run (ExitHandler_new 0 ExitHandlerConfig_default) ex_inputs).1 with Some b => get_current_charges b (mkNodeId "a") = 0 | None => True end.
Proof.
  destruct (eh_billing (exit_run (ExitHandler_new 0 ExitHandlerConfig_default) ex_inputs).1) as [b|] eqn:E; [|exact I].
  refine (proj1 (packets_are_free 0 ExitHandlerConfig_default ex_inputs (mkNodeId "a") 1 0 (mkInvoice "" (mkNodeId "a") 0 0 0 [] 0 0 0 "") b _ E)).
  repeat constructor; vm_compute; discriminate.
Defined.

Lemma flat_fee_per_packet_witness :
  get_current_charges (bill_traffic 0 (set_rate_card BillingEngine_new (mkNodeId "a") (RateCard_flat_rate 5000 990)) (mkNodeId "a") 1500 0) (mkNodeId "a") = 990.
Proof.
  exact (flat_fee_per_packet 0 (set_rate_card BillingEngine_new (mkNodeId "a") (RateCard_flat_rate 5000 990)) (mkNodeId "a") 990 5000 1500 0 eq_refl ltac:(vm_compute; discriminate)).
Defined.

Lemma default_limit_unused_witness : length (exit_run (ExitHandler_new 0 ExitHandlerConfig_default) ex_inputs).2 = 3%nat.
Proof.
  pose proof (default_limit_unused 0 ExitHandlerConfig_default ex_inputs ltac:(repeat constructor)) as H. vm_compute in H. vm_compute. reflexivity.
Defined.
