(* ===== verification/Mesh.v ===== *)
(** * Mesh networks, rosters and invites ([crates/a3net-types/src/mesh.rs])

    The data the coordinator hands out: network ids, member records, the roster
    with the bytes its signature covers, and invite codes with their URL form.
    Times are nanoseconds since the epoch. The [chrono] conversion from seconds
    is the class [Chrono]; [None] is a panic. The verifier of rosters
    ([roster_sign.rs] in the coordinator crate) is here too, with Ed25519 as an
    argument. *)
From stdpp Require Import prelude strings gmap list.
From Stdlib Require Import NArith ZArith Lia Ascii.
From Stdlib Require String.
From S2P Require Import Prelude NodeId ContentHash VirtualIp.

#[local] Open Scope N_scope.

Definition MESH_NETWORK_ID_BYTES : nat := 32%nat.
Definition MESH_NETWORK_ID_HEX_LEN : nat := (MESH_NETWORK_ID_BYTES * 2)%nat.
Definition MESH_INVITE_SCHEME : string := "a3net-invite://".
Definition MESH_NETWORK_SCHEME : string := "a3net-mesh://".

(** ** Network ids *)

Record MeshNetworkId : Type := mkMeshNetworkId { net_hex : string }.

#[global] Instance MeshNetworkId_eq_dec : EqDecision MeshNetworkId.
Proof. solve_decision. Defined.
#[global] Instance MeshNetworkId_countable : Countable MeshNetworkId.
Proof. by apply (inj_countable' net_hex mkMeshNetworkId); intros []. Defined.

Definition MeshNetworkId_from_bytes `{Hex} (bytes : list N) : result AdnetError MeshNetworkId :=
  if negb (Nat.eqb (length bytes) MESH_NETWORK_ID_BYTES) then Err Validation
  else Ok (mkMeshNetworkId (hex_encode bytes)).

Definition MeshNetworkId_from_hex (s : string) : result AdnetError MeshNetworkId :=
  if negb (Nat.eqb (String.length s) MESH_NETWORK_ID_HEX_LEN) then Err Validation
  else if negb (str_forallb is_hexdigit s) then Err Validation
  else Ok (mkMeshNetworkId (str_lower s)).

Definition MeshNetworkId_as_bytes `{Hex} (n : MeshNetworkId) : option (list N) := hex_decode (net_hex n).

Definition MeshNetworkId_short (n : MeshNetworkId) : string :=
  String.substring 0 (Nat.min 12 (String.length (net_hex n))) (net_hex n).

Definition MeshNetworkId_encode_url (n : MeshNetworkId) : string := MESH_NETWORK_SCHEME ++ net_hex n.

Definition MeshNetworkId_parse_url (raw : string) : result AdnetError MeshNetworkId :=
  let? rest := ok_or Validation (str_strip_prefix MESH_NETWORK_SCHEME raw) in
  MeshNetworkId_from_hex rest.

(** An id built by one of the constructors. *)
Definition net_ok (n : MeshNetworkId) : Prop :=
  String.length (net_hex n) = MESH_NETWORK_ID_HEX_LEN ∧ str_forallb is_lower_hex (net_hex n) = true.

Inductive MeshPolicy : Type := Open | Closed.
Definition MeshPolicy_fmt (p : MeshPolicy) : string := match p with Open => "open" | Closed => "closed" end.

(** ** Members and rosters *)

Record MeshMember : Type := mkMeshMember {
  mm_node_id : NodeId;
  mm_hostname : string;
  mm_virtual_ip : VirtualIp;
  mm_is_coordinator : bool;
  mm_admitted_at : Z
}.

#[global] Instance MeshMember_eq_dec : EqDecision MeshMember.
Proof. solve_decision. Defined.

Definition MeshMember_new_coordinator `{Hex} (now : Z) (id : NodeId) (hostname : string) : option MeshMember :=
  ip ← VirtualIp_from_node_id id; Some (mkMeshMember id hostname ip true now).
Definition MeshMember_new_member `{Hex} (now : Z) (id : NodeId) (hostname : string) : option MeshMember :=
  ip ← VirtualIp_from_node_id id; Some (mkMeshMember id hostname ip false now).

Record MeshMembership : Type := mkMeshMembership {
  ms_network_id : MeshNetworkId;
  ms_version : N;
  ms_members : list MeshMember;
  ms_signature : string;
  ms_published_at : Z
}.

Definition MeshMembership_new_unsigned (now : Z) (n : MeshNetworkId) (members : list MeshMember) : MeshMembership :=
  mkMeshMembership n 1 members EmptyString now.

Definition MeshMembership_bumped (now : Z) (r : MeshMembership) : MeshMembership :=
  mkMeshMembership (ms_network_id r) (sat_add u64_max (ms_version r) 1) (ms_members r) (ms_signature r) now.

Definition bar : N := 124.

Definition member_preimage `{Hex} (m : MeshMember) : option (list N) :=
  id ← NodeId_as_bytes (mm_node_id m);
  Some (id ++ [bar] ++ str_bytes (mm_hostname m) ++ [bar] ++ [if mm_is_coordinator m then 1 else 0] ++ [bar]).

(** The length of the list is truncated to 32 bits. *)
Definition MeshMembership_signing_preimage `{Hex} (r : MeshMembership) : option (list N) :=
  ms ← mapM member_preimage (ms_members r);
  Some (be_bytes 8 (ms_version r) ++ str_bytes (net_hex (ms_network_id r)) ++ [bar] ++
        be_bytes 4 (N.of_nat (length (ms_members r)) mod 2 ^ 32) ++ [bar] ++ concat ms).

Definition MeshMembership_content_hash_hex `{Hex} `{Blake3} (r : MeshMembership) : option string :=
  p ← MeshMembership_signing_preimage r; Some (hex_encode (blake3_hash p)).

Definition MeshMembership_set_signature_hex (r : MeshMembership) (sig : string) : MeshMembership :=
  mkMeshMembership (ms_network_id r) (ms_version r) (ms_members r) sig (ms_published_at r).

Definition MeshMembership_member (r : MeshMembership) (id : NodeId) : option MeshMember :=
  snd <$> list_find (λ m, mm_node_id m = id) (ms_members r).

(** [verify_roster_signature], with the verifier as an argument. *)
Definition verify_roster_signature `{Hex} (verify : list N → list N → bool) (r : MeshMembership) : option bool :=
  preimage ← MeshMembership_signing_preimage r;
  match hex_decode (ms_signature r) with
  | None => Some false
  | Some sig => if negb (Nat.eqb (length sig) 64) then Some false else Some (verify preimage sig)
  end.

(** [RosterSigner::sign] and [RosterVerifier::verify] for one key pair:
    [sign] and [verify] are Ed25519 under it. The messages of the error
    [RosterSignatureInvalid] are left out. *)
Definition RosterSigner_sign `{Hex} (sign : list N → list N) (r : MeshMembership) : option MeshMembership :=
  preimage ← MeshMembership_signing_preimage r;
  Some (MeshMembership_set_signature_hex r (hex_encode (sign preimage))).

Definition RosterVerifier_verify `{Hex} (verify : list N → list N → bool) (r : MeshMembership) : option bool :=
  if String.eqb (ms_signature r) EmptyString then Some false
  else
    match hex_decode (ms_signature r) with
    | None => Some false
    | Some sig =>
        if negb (Nat.eqb (length sig) 64) then Some false
        else preimage ← MeshMembership_signing_preimage r; Some (verify preimage sig)
    end.

(** ** Invite codes *)

Class Chrono : Type := { from_timestamp : Z → option Z }.

(** Seconds up to the year 9999 are representable. *)
Class ChronoLaws (C : Chrono) : Prop := {
  from_timestamp_ok n : (0 ≤ n ≤ 253402300799)%Z → from_timestamp n = Some (n * 1000000000)%Z
}.

Record InviteCode : Type := mkInviteCode {
  ic_network_id : MeshNetworkId;
  ic_code : string;
  ic_expires_at : Z;
  ic_redeemed : bool
}.

Record InviteCodeRef : Type := mkInviteCodeRef { icr_network_id : MeshNetworkId; icr_code : string }.

(** [InviteCode::new]: the secret is an argument; [ttl] in nanoseconds. *)
Definition InviteCode_new `{Hex} (now : Z) (secret : list N) (n : MeshNetworkId) (ttl : Z) : InviteCode :=
  mkInviteCode n (hex_encode secret) (now + ttl) false.

(** [parse] of [i64]. *)
Definition parse_i64 (s : string) : option Z :=
  match s with
  | String "-" s' =>
      if str_forallb is_digit s' then (λ n, - Z.of_N n)%Z <$> parse_uint (2 ^ 63) s' else None
  | _ => Z.of_N <$> parse_uint (2 ^ 63 - 1) s
  end.

Definition colon : ascii := ":"%char.

Definition InviteCode_encode_url (c : InviteCode) : string :=
  MESH_INVITE_SCHEME ++ net_hex (ic_network_id c) ++ String colon (ic_code c ++ String colon
    (show_Z (ic_expires_at c / 1000000000))).

(** [splitn(3, ':')]: the third part keeps its colons. *)
Definition InviteCode_parse_url `{Chrono} (raw : string) : result AdnetError InviteCode :=
  let? rest := ok_or Validation (str_strip_prefix MESH_INVITE_SCHEME raw) in
  let? p := ok_or Validation (str_split_once colon rest) in
  let? q := ok_or Validation (str_split_once colon p.2) in
  let? network_id := MeshNetworkId_from_hex p.1 in
  let? expires_at_secs := ok_or Validation (parse_i64 q.2) in
  let? expires_at := ok_or Validation (from_timestamp expires_at_secs) in
  Ok (mkInviteCode network_id q.1 expires_at false).

Definition InviteCode_parse_url_ref `{Chrono} (raw : string) : result AdnetError InviteCodeRef :=
  let? c := InviteCode_parse_url raw in Ok (mkInviteCodeRef (ic_network_id c) (ic_code c)).

Definition InviteCode_is_expired (now : Z) (c : InviteCode) : bool := (ic_expires_at c <=? now)%Z.
Definition InviteCode_is_redeemable (now : Z) (c : InviteCode) : bool :=
  negb (ic_redeemed c) && negb (InviteCode_is_expired now c).

(** ** What a roster signature covers *)

(** The part of a member record the signature covers. *)
Definition signed_part (m : MeshMember) : NodeId * string * bool := (mm_node_id m, mm_hostname m, mm_is_coordinator m).

Lemma split_at {A} (x : A) (a b c d : list A) :
  x ∉ a → x ∉ b → a ++ x :: c = b ++ x :: d → a = b ∧ c = d.
Proof.
  revert b. induction a as [|y a IH]; intros [|z b] Ha Hb; cbn [app].
  - by intros [= ->].
  - intros [= -> _]. by destruct Hb; left.
  - intros [= <- _]. by destruct Ha; left.
  - intros [= -> He]. destruct (IH b) as [-> ->]; [set_solver..|done].
Qed.

Lemma str_bytes_lacks c (s : string) : str_lacks c s = true → N_of_ascii c ∉ str_bytes s.
Proof.
  intros H. unfold str_bytes. intros (a & He & Ha)%list_elem_of_fmap. apply (inj N_of_ascii) in He as <-.
  revert Ha. induction s as [|b s IH]; cbn; [by intros ?%elem_of_nil|].
  unfold str_lacks in *. cbn in H. apply andb_true_iff in H as [Hb H].
  intros [->|Ha]%elem_of_cons; [|by apply IH]. by rewrite Ascii.eqb_refl in Hb.
Qed.

Section RosterLemmas.
Context `{HX : Hex} {HL : HexLaws HX}.

Definition member_ok (m : MeshMember) : Prop := node_ok (mm_node_id m) ∧ str_lacks "|" (mm_hostname m) = true.

Record roster_ok (r : MeshMembership) : Prop := {
  ro_net : net_ok (ms_network_id r);
  ro_version : ms_version r < 2 ^ 64;
  ro_length : N.of_nat (length (ms_members r)) < 2 ^ 32;
  ro_members : Forall member_ok (ms_members r)
}.

Lemma member_preimage_ok m :
  node_ok (mm_node_id m) →
  member_preimage m = Some (node_bytes (mm_node_id m) ++ bar :: str_bytes (mm_hostname m) ++
    bar :: (if mm_is_coordinator m then 1 else 0) :: [bar]).
Proof. intros H. unfold member_preimage. rewrite NodeId_as_bytes_ok by done. done. Qed.

(** One member is read off the front of the bytes. *)
Lemma member_preimage_inj m m' p p' rest rest' :
  member_ok m → member_ok m' → member_preimage m = Some p → member_preimage m' = Some p' →
  p ++ rest = p' ++ rest' → signed_part m = signed_part m' ∧ rest = rest'.
Proof.
  intros [Hn Hh] [Hn' Hh']. rewrite !member_preimage_ok by done. intros [= <-] [= <-]. rewrite <- !app_assoc. cbn [app].
  intros He. destruct (node_bytes_ok _ Hn) as [Hl _]. destruct (node_bytes_ok _ Hn') as [Hl' _].
  apply app_inj_length in He as [He1 He]; [|by rewrite Hl, Hl']. apply node_bytes_inj in He1; [|done..].
  injection He as He. rewrite <- !app_assoc in He. cbn [app] in He.
  apply split_at in He as [He2 He]; [|by apply (str_bytes_lacks "|")..].
  apply (inj str_bytes) in He2. injection He as Hf He. split; [|done].
  unfold signed_part. rewrite He1, He2. f_equal. by destruct (mm_is_coordinator m), (mm_is_coordinator m').
Qed.

Lemma members_preimage_inj l l' ps ps' :
  Forall member_ok l → Forall member_ok l' → length l = length l' →
  mapM member_preimage l = Some ps → mapM member_preimage l' = Some ps' →
  concat ps = concat ps' → signed_part <$> l = signed_part <$> l'.
Proof.
  intros HF. revert l' ps ps'. induction HF as [|m l Hm _ IH]; intros [|m' l'] ps ps' HF' Hlen; try done.
  apply Forall_cons in HF' as [Hm' HF']. cbn [mapM].
  destruct (member_preimage m) as [p|] eqn:Hp; [|done]. destruct (member_preimage m') as [p'|] eqn:Hp'; [|done].
  cbn [mbind option_bind]. destruct (mapM member_preimage l) as [q|] eqn:Hq; [|done].
  destruct (mapM member_preimage l') as [q'|] eqn:Hq'; [|done]. cbn. intros [= <-] [= <-] He.
  destruct (member_preimage_inj m m' p p' _ _ Hm Hm' Hp Hp' He) as [Hs He'].
  rewrite Hs. f_equal. eapply IH; [done|by injection Hlen|done|done|done].
Qed.

Lemma preimage_some r : roster_ok r → is_Some (MeshMembership_signing_preimage r).
Proof.
  intros [_ _ _ HF]. unfold MeshMembership_signing_preimage.
  assert (is_Some (mapM member_preimage (ms_members r))) as [ps ->]; [|by eexists].
  apply mapM_is_Some. eapply Forall_impl; [exact HF|]. intros m [Hn _]. unfold compose. by rewrite member_preimage_ok.
Qed.

Lemma preimage_inj r r' p :
  roster_ok r → roster_ok r' →
  MeshMembership_signing_preimage r = Some p → MeshMembership_signing_preimage r' = Some p →
  ms_version r = ms_version r' ∧ ms_network_id r = ms_network_id r' ∧
  signed_part <$> ms_members r = signed_part <$> ms_members r'.
Proof.
  intros [[Hn _] Hv Hl HF] [[Hn' _] Hv' Hl' HF']. unfold MeshMembership_signing_preimage.
  destruct (mapM member_preimage (ms_members r)) as [ps|] eqn:Hps; [|done].
  destruct (mapM member_preimage (ms_members r')) as [ps'|] eqn:Hps'; [|done]. cbn [mbind option_bind].
  rewrite !N.mod_small by done. intros Hp Hp'. rewrite <- Hp' in Hp. apply (inj Some) in Hp as He. clear Hp Hp'.
  apply app_inj_length in He as [He1 He]; [|by rewrite !length_be_bytes].
  apply be_bytes_inj in He1; [|done..].
  apply app_inj_length in He as [He2 He]; [|by rewrite !length_str_bytes, Hn, Hn'].
  apply (inj str_bytes) in He2. apply app_inv_head in He.
  apply app_inj_length in He as [He3 He]; [|by rewrite !length_be_bytes].
  apply be_bytes_inj in He3; [|done..]. apply app_inv_head in He.
  split_and!; [done| |].
  - destruct (ms_network_id r), (ms_network_id r'). cbn in He2. by subst.
  - eapply members_preimage_inj; [done|done|lia|done|done|done].
Qed.

(** What the signature of a roster is about. *)
Definition same_contents (r r' : MeshMembership) : Prop :=
  ms_version r = ms_version r' ∧ ms_network_id r = ms_network_id r' ∧ signed_part <$> ms_members r = signed_part <$> ms_members r'.

Lemma member_preimage_signed_part m m' : signed_part m = signed_part m' → member_preimage m = member_preimage m'.
Proof. unfold signed_part, member_preimage. intros [= -> -> ->]. done. Qed.

Lemma preimage_same_contents r r' : same_contents r r' → MeshMembership_signing_preimage r = MeshMembership_signing_preimage r'.
Proof.
  intros (Hv & Hn & Hm). unfold MeshMembership_signing_preimage. rewrite Hv, Hn.
  assert (mapM member_preimage (ms_members r) = mapM member_preimage (ms_members r') ∧ length (ms_members r) = length (ms_members r')) as [-> ->]; [|done].
  revert Hm. generalize (ms_members r'). induction (ms_members r) as [|m l IH]; intros [|m' l'] Hm; try done. cbn [fmap list_fmap] in Hm. apply (inj2 cons) in Hm as [Hm Hl].
  destruct (IH l' Hl) as [Hp Hlen]. cbn [mapM length]. by rewrite (member_preimage_signed_part m m' Hm), Hp, Hlen.
Qed.


(** ** Invite URLs *)

Lemma strip_prefix_append p (s : string) : str_strip_prefix p (String.append p s) = Some s.
Proof. induction p as [|a p IH]; simpl; [done|]. by rewrite Ascii.eqb_refl. Qed.

Lemma lower_hex_lacks_colon s : str_forallb is_lower_hex s = true → str_lacks colon s = true.
Proof.
  apply str_forallb_impl.
  intros a Ha. destruct (Ascii.eqb_spec a colon) as [->|]; [by vm_compute in Ha|done].
Qed.

Lemma from_hex_net n : net_ok n → MeshNetworkId_from_hex (net_hex n) = Ok n.
Proof.
  intros [Hl Hh]. unfold MeshNetworkId_from_hex. rewrite Hl. cbn [Nat.eqb negb MESH_NETWORK_ID_HEX_LEN].
  rewrite (str_forallb_impl _ is_hexdigit _ (λ x Hx, proj1 (lower_hex_hexdigit x Hx)) Hh). cbn [negb].
  rewrite str_lower_id by done. by destruct n.
Qed.

Lemma parse_show_i64 z : (0 ≤ z < 2 ^ 63)%Z → parse_i64 (show_Z z) = Some z.
Proof.
  intros Hz. unfold show_Z. rewrite (proj2 (Z.ltb_ge z 0)) by lia.
  assert (parse_i64 (show_N (Z.to_N z)) = Z.of_N <$> parse_uint (2 ^ 63 - 1) (show_N (Z.to_N z))) as ->.
  { destruct (show_N_cons (Z.to_N z)) as (a & s & -> & Ha). destruct a as [[] [] [] [] [] [] [] []]; done. }
  rewrite parse_show by lia. cbn. f_equal. lia.
Qed.

(** URLs round trip: the URL of a network parses to the network; the URL of an
    invite for it, with a code free of colons and an expiry up to the year 9999,
    parses to the same network and code with the expiry cut to whole seconds and
    the redeemed flag cleared; and a parsed invite has a well-formed network. *)
Theorem invite_url_roundtrip `{HC : Chrono} {HCL : ChronoLaws HC} c :
  net_ok (ic_network_id c) → str_lacks colon (ic_code c) = true →
  (0 ≤ ic_expires_at c / 1000000000 ≤ 253402300799)%Z →
  MeshNetworkId_parse_url (MeshNetworkId_encode_url (ic_network_id c)) = Ok (ic_network_id c) ∧
  InviteCode_parse_url (InviteCode_encode_url c) =
    Ok (mkInviteCode (ic_network_id c) (ic_code c) (ic_expires_at c / 1000000000 * 1000000000) false) ∧
  InviteCode_parse_url_ref (InviteCode_encode_url c) = Ok (mkInviteCodeRef (ic_network_id c) (ic_code c)).
Proof.
  intros Hn Hc Ht.
  assert (InviteCode_parse_url (InviteCode_encode_url c) =
    Ok (mkInviteCode (ic_network_id c) (ic_code c) (ic_expires_at c / 1000000000 * 1000000000) false)) as Hu.
  { unfold InviteCode_parse_url, InviteCode_encode_url. rewrite strip_prefix_append. cbn [ok_or].
    rewrite str_split_once_app by (apply lower_hex_lacks_colon, Hn). cbn [ok_or snd fst].
    rewrite str_split_once_app by done. cbn [ok_or snd fst]. rewrite from_hex_net by done.
    rewrite parse_show_i64 by lia. cbn [ok_or]. by rewrite from_timestamp_ok. }
  split_and!; [|done|unfold InviteCode_parse_url_ref; by rewrite Hu].
  unfold MeshNetworkId_parse_url, MeshNetworkId_encode_url. rewrite strip_prefix_append. cbn [ok_or]. by apply from_hex_net.
Qed.
End RosterLemmas.

(** ** Witnesses *)

#[global] Instance chrono_ref : Chrono := {| from_timestamp n := Some (n * 1000000000)%Z |}.
#[global] Instance chrono_ref_laws : ChronoLaws chrono_ref.
Proof. done. Qed.

Definition net1 : MeshNetworkId := mkMeshNetworkId (hex_encode (Hex := hex_ref) (replicate 32 1)).

Lemma net1_ok : net_ok net1.
Proof. split; reflexivity. Qed.

(** Members whose node ids are the given byte, repeated. *)
Definition sample_id (b : N) : NodeId := mkNodeId (hex_encode (Hex := hex_ref) (replicate 32 b)).
Definition sample_member (b : N) (hostname : string) : MeshMember :=
  mkMeshMember (sample_id b) hostname (mkVirtualIp (mkVirtualIpv4 0) (mkVirtualIpv6 [])) false 0.
Definition sample_roster (members : list MeshMember) : MeshMembership :=
  MeshMembership_new_unsigned 0 net1 members.

Lemma sample_roster_ok h : str_lacks "|" h = true → roster_ok (HX := hex_ref) (sample_roster [sample_member 7 h]).
Proof.
  intros Hh. split; [apply net1_ok|done|done|]. constructor; [|constructor]. split; [|done].
  exists (replicate 32 7). split_and!; [done|repeat constructor|done].
Qed.

(** A signature that is the first bytes of the message, and its check. *)
Definition toy_sign (d : list N) : list N := (λ b, b mod 256) <$> take 64 (d ++ replicate 64 0).
Definition toy_verify (d sig : list N) : bool := bool_decide (sig = toy_sign d).


Lemma invite_url_roundtrip_witness :
  InviteCode_parse_url (InviteCode_encode_url (mkInviteCode net1 "00ff" 5000000007 true)) =
  Ok (mkInviteCode net1 "00ff" 5000000000 false).
Proof.
  refine (proj1 (proj2 (invite_url_roundtrip (mkInviteCode net1 "00ff" 5000000007 true) net1_ok _ _))).
  - reflexivity.
  - vm_compute. split; discriminate.
Defined.

(** With separators in host names the signed bytes are ambiguous: two members,
    where the second's host name spells a third, have the same preimage as two
    members where the first's host name spells the second. *)
Definition amb_nul : string := String "000"%char EmptyString.
Definition host_b : string := "b|" ++ amb_nul ++ "|" ++ "cccccccccccccccccccccccccccccccc" ++ "|d".
Definition host_a : string := "a|" ++ amb_nul ++ "|" ++ "bbbbbbbbbbbbbbbbbbbbbbbbbbbbbbbb" ++ "|b".

Theorem roster_preimage_ambiguous :
  let r := sample_roster [sample_member 97 "a"; sample_member 98 host_b] in
  let r' := sample_roster [sample_member 97 host_a; sample_member 99 "d"] in
  MeshMembership_signing_preimage (H := hex_ref) r = MeshMembership_signing_preimage (H := hex_ref) r' ∧
  is_Some (MeshMembership_signing_preimage (H := hex_ref) r) ∧
  signed_part <$> ms_members r ≠ signed_part <$> ms_members r'.
Proof. cbn zeta. split_and!; [by vm_compute|by eexists; vm_compute|by vm_compute]. Qed.
