(* ===== verification/Token.v ===== *)
(** * Payments ([crates/a3net-token/src/pledge.rs, receipt.rs, claim.rs], [crates/a3net-relay/src/billing.rs],
    [crates/a3net-mailbox/src/billing.rs])

    Pledges, receipts and claims with their signatures, the ledger a relay keeps of them,
    and the quota a mailbox grants for them. The JSON of a signed body is an interface
    ([TokenJson]); clock readings are arguments, one for each reading of the source. An
    answer of the relay carries the status and the reason as a value instead of its text.

    The theorems show that the URL of a pledge reads back, that a pledge which is signed,
    sent, charged and redeemed is accepted at every step and leaves the rest of its amount
    open, that a relay never pays out more than was pledged, and what a mailbox grants. *)
From stdpp Require Import prelude strings gmap list.
From Stdlib Require Import NArith ZArith Lia Ascii.
From S2P Require Import Prelude NodeId ContentHash EvmWallet Mesh MailStore.

#[local] Open Scope N_scope.

Definition u128_max : N := 2 ^ 128 - 1.
Definition MAX_AMOUNT_ATOMIC : N := N.shiftl 1 120.
Definition PLEDGE_VERSION : N := 1.

Inductive TokenError : Type :=
  | TkIdentity (e : IdentityError) | InvalidUrl (why : string) | InvalidAmount (why : string)
  | InvalidExpiry (why : string) | InvalidNonce (why : string) | ChainIdMismatch (expected got : N)
  | PledgeExpired (now pledge : Z) | RecoveredWrongSigner | TkHex.

Record PledgeBody : Type := mkPledgeBody {
  pb_version : N; pb_chain_id : N; pb_contract : string; pb_token : string; pb_amount_atomic : N;
  pb_recipient : Address; pb_nonce : string; pb_expiry_unix : Z
}.

Record Pledge : Type := mkPledge {
  pl_version : N; pl_chain_id : N; pl_contract : string; pl_token : string; pl_amount_atomic : N;
  pl_recipient : Address; pl_nonce : string; pl_expiry_unix : Z; pl_pledgor : Address; pl_signature : PersonalSignature
}.

Record ReceiptBody : Type := mkReceiptBody {
  rb_version : N; rb_pledge_nonce : string; rb_pledgor : Address; rb_recipient : Address;
  rb_charged_atomic : N; rb_issued_unix : Z; rb_relay : Address
}.

Record Receipt : Type := mkReceipt {
  rc_version : N; rc_pledge_nonce : string; rc_pledgor : Address; rc_recipient : Address;
  rc_charged_atomic : N; rc_issued_unix : Z; rc_relay : Address; rc_signature : PersonalSignature
}.

Record Claim : Type := mkClaim {
  cl_version : N; cl_claimer : Address; cl_issued_unix : Z; cl_receipts : list Receipt; cl_signature : PersonalSignature
}.

(** The bytes of the signed bodies; a claim is serialised from its fields. *)
Class TokenJson : Type := {
  pledge_json : PledgeBody → list N;
  receipt_json : ReceiptBody → list N;
  claim_json : N → string → Z → list Receipt → list N
}.

Definition url_slash : ascii := "/".
Definition TOKEN_SCHEME : string := "a3net-token://".
Definition zero_address : Address := mkAddress (replicate 20 0).
Definition MAX_RECEIPTS_PER_CLAIM : nat := 256.

(** [?] on an identity error. *)
Definition from_identity {A} (r : result IdentityError A) : result TokenError A :=
  match r with Ok a => Ok a | Err e => Err (TkIdentity e) end.

(** ** Pledges *)

Section Tokens.
Context `{HX : Hex} `{B3 : Blake3} `{KK : Keccak} `{SC : Secp256k1} `{TJ : TokenJson}.

Definition pledge_digest (b : PledgeBody) : list N := blake3_hash (pledge_json b).

Definition nonce_ok (nonce : string) : bool :=
  Nat.eqb (String.length nonce) 64 && match hex_decode nonce with Some b => Nat.eqb (length b) 32 | None => false end.

Definition Pledge_body (chain_id : N) (contract token : string) (amount : N) (recipient : Address) (nonce : string) (expiry : Z) :
  result TokenError PledgeBody :=
  if amount =? 0 then Err (InvalidAmount "must be > 0")
  else if MAX_AMOUNT_ATOMIC <? amount then Err (InvalidAmount ("exceeds MAX_AMOUNT_ATOMIC = " +:+ show_N MAX_AMOUNT_ATOMIC))
  else if negb (nonce_ok nonce) then Err (InvalidNonce "nonce must be 64 hex chars (32 bytes)")
  else if (expiry <=? 0)%Z then Err (InvalidExpiry "must be unix seconds > 0")
  else Ok (mkPledgeBody PLEDGE_VERSION chain_id contract token amount recipient nonce expiry).

Definition Pledge_sign (b : PledgeBody) (w : Wallet) : Pledge :=
  mkPledge PLEDGE_VERSION (pb_chain_id b) (pb_contract b) (pb_token b) (pb_amount_atomic b) (pb_recipient b) (pb_nonce b)
    (pb_expiry_unix b) (wp_address (wa_public w)) (sign_personal w (pledge_digest b)).

(** The body that is recreated from the pledge. *)
Definition pledge_body_of (p : Pledge) : PledgeBody :=
  mkPledgeBody (pl_version p) (pl_chain_id p) (pl_contract p) (pl_token p) (pl_amount_atomic p) (pl_recipient p) (pl_nonce p) (pl_expiry_unix p).

Definition Pledge_verify (p : Pledge) (now : Z) : result TokenError unit :=
  let? recovered := from_identity (recover_personal (pledge_digest (pledge_body_of p)) (pl_signature p)) in
  if bool_decide (pl_pledgor p ≠ zero_address) && bool_decide (wp_address recovered ≠ pl_pledgor p) then Err RecoveredWrongSigner
  else if (pl_expiry_unix p <=? now)%Z then Err (PledgeExpired now (pl_expiry_unix p))
  else Ok ().

Definition verify_for_relay (p : Pledge) (now : Z) (expected_chain_id : N) : result TokenError unit :=
  if negb (pl_chain_id p =? expected_chain_id) then Err (ChainIdMismatch expected_chain_id (pl_chain_id p)) else Pledge_verify p now.

Definition verify_with_recovered (p : Pledge) (now : Z) : result TokenError Address :=
  let? recovered := from_identity (recover_personal (pledge_digest (pledge_body_of p)) (pl_signature p)) in
  if (pl_expiry_unix p <=? now)%Z then Err (PledgeExpired now (pl_expiry_unix p)) else Ok (wp_address recovered).

Definition to_url (p : Pledge) : string :=
  TOKEN_SCHEME +:+ str_join url_slash
    [show_N (pl_chain_id p); pl_contract p; pl_token p; show_N (pl_amount_atomic p); Address_to_checksum (pl_recipient p); pl_nonce p;
     show_Z (pl_expiry_unix p); "0x" +:+ hex_encode (to_compact (pl_signature p))].

Definition from_url (s : string) : result TokenError Pledge :=
  let? rest := ok_or (InvalidUrl s) (str_strip_prefix TOKEN_SCHEME s) in
  match str_split url_slash rest with
  | [p0; p1; p2; p3; p4; p5; p6; p7] =>
      let? chain_id := ok_or (InvalidUrl ("bad chain_id: " +:+ p0)) (parse_uint u64_max p0) in
      let? amount := ok_or (InvalidAmount p3) (parse_uint u128_max p3) in
      let? recipient := from_identity (Address_from_hex p4) in
      let? expiry := ok_or (InvalidExpiry p6) (parse_i64 p6) in
      let? sig_bytes := ok_or TkHex (hex_decode (default p7 (str_strip_prefix "0x" p7))) in
      let? signature := from_identity (from_compact sig_bytes) in
      Ok (mkPledge PLEDGE_VERSION chain_id (str_lower p1) (str_lower p2) amount recipient p5 expiry zero_address signature)
  | parts => Err (InvalidUrl ("expected 8 path segments, got " +:+ show_N (N.of_nat (length parts))))
  end.

(** ** Receipts *)

Definition Receipt_version : N := 1.
Definition receipt_digest (b : ReceiptBody) : list N := blake3_hash (receipt_json b).

(** The body that is recreated from the receipt. *)
Definition receipt_body_of (r : Receipt) : ReceiptBody :=
  mkReceiptBody (rc_version r) (rc_pledge_nonce r) (rc_pledgor r) (rc_recipient r) (rc_charged_atomic r) (rc_issued_unix r) (rc_relay r).

Definition Receipt_issue (now : Z) (p : Pledge) (charged : N) (relay : Wallet) : result TokenError Receipt :=
  if charged =? 0 then Err (InvalidAmount "charged_atomic must be > 0")
  else if pl_amount_atomic p <? charged then
    Err (InvalidAmount ("charged_atomic (" +:+ show_N charged +:+ ") exceeds pledge.amount_atomic (" +:+ show_N (pl_amount_atomic p) +:+ ")"))
  else
    let addr := wp_address (wa_public relay) in
    let b := mkReceiptBody Receipt_version (pl_nonce p) (pl_pledgor p) addr charged now addr in
    Ok (mkReceipt (rb_version b) (rb_pledge_nonce b) (rb_pledgor b) (rb_recipient b) (rb_charged_atomic b) (rb_issued_unix b) (rb_relay b)
          (sign_personal relay (receipt_digest b))).

Definition Receipt_verify (r : Receipt) : result TokenError unit :=
  let? recovered := from_identity (recover_personal (receipt_digest (receipt_body_of r)) (rc_signature r)) in
  if decide (wp_address recovered = rc_relay r) then Ok () else Err RecoveredWrongSigner.

Definition verify_for_pledge (r : Receipt) (p : Pledge) : result TokenError unit :=
  let? _ := Receipt_verify r in
  if negb (rc_pledge_nonce r =? pl_nonce p)%string then
    Err (InvalidNonce ("receipt nonce " +:+ rc_pledge_nonce r +:+ " does not match pledge nonce " +:+ pl_nonce p))
  else if bool_decide (rc_pledgor r ≠ pl_pledgor p) then Err RecoveredWrongSigner
  else if bool_decide (rc_recipient r ≠ pl_recipient p) then Err RecoveredWrongSigner
  else if pl_amount_atomic p <? rc_charged_atomic r then Err (InvalidAmount "charged_atomic exceeds pledge.amount_atomic")
  else Ok ().

(** ** Claims *)

Definition Claim_version : N := 1.
Definition claim_digest (version : N) (claimer : Address) (issued : Z) (receipts : list Receipt) : list N :=
  blake3_hash (claim_json version (Address_to_checksum claimer) issued receipts).

(** The clock is read twice: for the signed body and for the claim. *)
Definition Claim_build (now_signed now_issued : Z) (w : Wallet) (receipts : list Receipt) : result TokenError Claim :=
  if Nat.eqb (length receipts) 0 then Err (InvalidAmount "claim must include at least one receipt")
  else if Nat.ltb MAX_RECEIPTS_PER_CLAIM (length receipts) then
    Err (InvalidAmount ("claim has " +:+ show_N (N.of_nat (length receipts)) +:+ " receipts, max is " +:+ show_N (N.of_nat MAX_RECEIPTS_PER_CLAIM)))
  else
    let claimer := wp_address (wa_public w) in
    Ok (mkClaim Claim_version claimer now_issued receipts (sign_personal w (claim_digest Claim_version claimer now_signed receipts))).

Definition Claim_verify (c : Claim) : result TokenError unit :=
  let? recovered := from_identity (recover_personal (claim_digest (cl_version c) (cl_claimer c) (cl_issued_unix c) (cl_receipts c)) (cl_signature c)) in
  if decide (wp_address recovered = cl_claimer c) then Ok () else Err RecoveredWrongSigner.

(** ** The ledger of a relay *)

(** Balances by nonce, and the receipts redeemed. *)
Record BillingState : Type := mkBillingState { bs_open : gmap string N; bs_issued : N }.
Definition BillingState_default : BillingState := mkBillingState ∅ 0.

Inductive BillingAnswer : Type :=
  | Accepted
  | Refused (status : N) (why : Refusal)
  | Status (open_amount_atomic issued_receipts : N)
with Refusal : Type :=
  | RefParse (e : TokenError) | RefVerify (e : TokenError) | RefChain (got : N) | RefRecipient | RefRelay
  | RefOrphan (nonce : string) | RefBalance (balance charged : N).

Definition add_open (open : gmap string N) (key : string) (amount : N) : gmap string N :=
  <[key := sat_add u128_max (default 0 (open !! key)) amount]> open.

Definition EXPECTED_CHAIN_ID : N := 1.

Definition handle_pledge (relay : Wallet) (now : Z) (st : BillingState) (body : string) : BillingState * BillingAnswer :=
  match from_url (str_trim body) with
  | Err e => (st, Refused 400 (RefParse e))
  | Ok p =>
      match verify_with_recovered p now with
      | Err e => (st, Refused 401 (RefVerify e))
      | Ok _ =>
          if negb (pl_chain_id p =? EXPECTED_CHAIN_ID) then (st, Refused 400 (RefChain (pl_chain_id p)))
          else if bool_decide (pl_recipient p ≠ wp_address (wa_public relay)) then (st, Refused 400 RefRecipient)
          else (mkBillingState (add_open (bs_open st) (pl_nonce p) (pl_amount_atomic p)) (bs_issued st), Accepted)
      end
  end.

Definition handle_redeem (relay : Wallet) (st : BillingState) (r : Receipt) : BillingState * BillingAnswer :=
  match Receipt_verify r with
  | Err e => (st, Refused 401 (RefVerify e))
  | Ok _ =>
      if bool_decide (rc_relay r ≠ wp_address (wa_public relay)) then (st, Refused 400 RefRelay)
      else match bs_open st !! rc_pledge_nonce r with
           | None => (st, Refused 400 (RefOrphan (rc_pledge_nonce r)))
           | Some balance =>
               if balance <? rc_charged_atomic r then (st, Refused 400 (RefBalance balance (rc_charged_atomic r)))
               else (mkBillingState (<[rc_pledge_nonce r := balance - rc_charged_atomic r]> (bs_open st)) ((bs_issued st + 1) mod 2 ^ 64), Accepted)
           end
  end.

(** The sum of the balances, at the width of [u128]. *)
Definition map_sum (m : gmap string N) : N := map_fold (λ _ v acc, v + acc) 0 m.

Definition handle_status (st : BillingState) : BillingState * BillingAnswer :=
  (st, Status (map_sum (bs_open st) mod 2 ^ 128) (bs_issued st)).

Inductive RelayRequest : Type := PledgeReq (now : Z) (body : string) | RedeemReq (r : Receipt) | StatusReq.

Definition relay_step (relay : Wallet) (st : BillingState) (req : RelayRequest) : BillingState * BillingAnswer :=
  match req with
  | PledgeReq now body => handle_pledge relay now st body
  | RedeemReq r => handle_redeem relay st r
  | StatusReq => handle_status st
  end.

Fixpoint relay_run (relay : Wallet) (st : BillingState) (reqs : list RelayRequest) : BillingState * list (RelayRequest * BillingAnswer) :=
  match reqs with
  | [] => (st, [])
  | req :: reqs => let '(st, a) := relay_step relay st req in let '(st, log) := relay_run relay st reqs in (st, (req, a) :: log)
  end.

(** ** The quota a mailbox grants *)

Definition BONUS_BYTES_PER_UNIT : N := 1.

Record BillingPolicy : Type := mkBillingPolicy {
  bp_server_address : string; bp_chain_id : N; bp_bonus_bytes_per_unit : N; bp_mandatory : bool
}.

Definition BillingPolicy_default : BillingPolicy :=
  mkBillingPolicy "0x0000000000000000000000000000000000000000" 1 BONUS_BYTES_PER_UNIT false.
Definition BillingPolicy_new (server_address : string) (chain_id : N) : BillingPolicy :=
  mkBillingPolicy server_address chain_id BONUS_BYTES_PER_UNIT false.

Inductive BillingError : Type :=
  | BlParse (e : TokenError) | BlVerification (e : TokenError) | WrongRecipient (expected got : string) | SignerMismatch (sender pledgor : string).

Definition BillingError_http_status (e : BillingError) : N :=
  match e with BlParse _ | BlVerification _ | WrongRecipient _ _ => 400 | SignerMismatch _ _ => 401 end.

(** The bonus at its widths: [saturating_mul] of [u128], cut to [u64]. *)
Definition bonus_bytes (amount per_unit : N) : N := N.min (N.min (amount * per_unit) u128_max) u64_max.

Definition verify_pledge (pol : BillingPolicy) (url sender : string) (now : Z) : result BillingError (option N) :=
  match from_url url with
  | Err e => Err (BlParse e)
  | Ok p =>
      match verify_with_recovered p now with
      | Err e => Err (BlVerification e)
      | Ok pledgor =>
          if negb (pl_chain_id p =? bp_chain_id pol) then Err (BlVerification (ChainIdMismatch (bp_chain_id pol) (pl_chain_id p)))
          else if negb (Address_to_checksum pledgor =? sender)%string then Err (SignerMismatch sender (Address_to_checksum pledgor))
          else if negb (Address_to_checksum (pl_recipient p) =? bp_server_address pol)%string
               then Err (WrongRecipient (bp_server_address pol) (Address_to_checksum (pl_recipient p)))
          else Ok (Some (bonus_bytes (pl_amount_atomic p) (bp_bonus_bytes_per_unit pol)))
      end
  end.

Definition try_grant_quota (pol : BillingPolicy) (url : option string) (sender : string) (now : Z) : N :=
  match url with
  | None => 0
  | Some url => match verify_pledge pol url sender now with Ok (Some bonus) => bonus | Ok None | Err _ => 0 end
  end.

(** Step 5b of the enqueue handler, with the header if there is one. *)
Definition billing_gate (billing : option BillingPolicy) (pledge_header : option string) : result MailboxError unit :=
  match billing with
  | Some pol =>
      if bp_mandatory pol then
        match pledge_header with None => Err (MbInternal "billing mandatory: missing X-A3Net-Pledge header") | Some _ => Ok () end
      else Ok ()
  | None => Ok ()
  end.
End Tokens.

(** ** URLs *)

Lemma checksum_hexdigits `{HL : HexLaws} `{KK : Keccak} a : bytes_ok (addr_bytes a) →
  ∃ s, Address_to_checksum a = "0x" +:+ s ∧ str_forallb is_hexdigit s = true.
Proof.
  intros Ha. eexists. split; [reflexivity|]. by apply checksum_chars_spec, hex_encode_lower.
Qed.

(** A part of the URL: no separator, no white space. *)
Definition url_part (s : string) : bool := str_lacks url_slash s && str_forallb (λ a, negb (is_ws a)) s.

Lemma url_part_of (p : ascii → bool) s :
  forallb (λ a, implb (p a) (negb (Ascii.eqb a url_slash) && negb (is_ws a))) all_ascii = true → str_forallb p s = true → url_part s = true.
Proof.
  intros Hc Hs. pose proof (ascii_check _ Hc) as Hp. cbn beta in Hp. apply andb_true_iff.
  split; (eapply str_forallb_impl; [|exact Hs]); intros a Ha; specialize (Hp a); rewrite Ha in Hp; cbn [implb] in Hp; by apply andb_true_iff in Hp as [? ?].
Qed.

Lemma url_part_hex s : str_forallb is_hexdigit s = true → url_part s = true.
Proof. by apply url_part_of. Qed.

Lemma url_part_lower_hex s : str_forallb is_lower_hex s = true → url_part s = true.
Proof. by apply url_part_of. Qed.

Lemma url_part_0x s : url_part s = true → url_part ("0x" +:+ s) = true.
Proof. done. Qed.

Lemma url_part_show n : url_part (show_N n) = true.
Proof. by apply (url_part_of is_digit), show_N_digits. Qed.

Lemma url_part_show_Z z : url_part (show_Z z) = true.
Proof. unfold show_Z. destruct (z <? 0)%Z; [|apply url_part_show]. exact (url_part_show (Z.to_N (- z))). Qed.

#[local] Hint Resolve url_part_hex url_part_lower_hex url_part_0x url_part_show url_part_show_Z : adnet.

Lemma url_parts_split l : l ≠ [] → Forall (λ s, url_part s = true) l → str_split url_slash (str_join url_slash l) = l.
Proof.
  intros Hne Hl. apply str_split_join; [done|]. eapply Forall_impl; [exact Hl|]. intros s Hs. by apply andb_true_iff in Hs as [? _].
Qed.

Lemma str_join_forallb (p : ascii → bool) c l : p c = true → Forall (λ s, str_forallb p s = true) l → str_forallb p (str_join c l) = true.
Proof.
  intros Hc Hl. induction Hl as [|s l Hs Hl IH]; [done|]. destruct l as [|s' l]; [done|].
  change (str_join c (s :: s' :: l)) with (String.append s (String c (str_join c (s' :: l)))). rewrite str_forallb_app, Hs. cbn [str_forallb andb]. by rewrite Hc.
Qed.

Lemma strip_prefix_app p s : str_strip_prefix p (p +:+ s) = Some s.
Proof. induction p as [|a p IH]; [done|]. 
  change (str_strip_prefix (String a p) (String a (p +:+ s)) = Some s). cbn [str_strip_prefix]. by rewrite Ascii.eqb_refl.
Qed.

Lemma differs_refl (a : Address) : bool_decide (a ≠ a) = false.
Proof. apply bool_decide_eq_false_2. by intros Ha. Qed.

(** What the documentation of the fields asks for: addresses in lower case, a nonce of 32
    bytes, and numbers within their widths. *)
Record pledge_wf `{Hex} (p : Pledge) : Prop := {
  wf_version : pl_version p = PLEDGE_VERSION;
  wf_chain : pl_chain_id p <= u64_max;
  wf_contract : ∃ a, address_ok a ∧ pl_contract p = Address_to_hex a;
  wf_token : ∃ a, address_ok a ∧ pl_token p = Address_to_hex a;
  wf_amount : pl_amount_atomic p <= u128_max;
  wf_recipient : address_ok (pl_recipient p);
  wf_nonce : ∃ bs, bytes_ok bs ∧ length bs = 32%nat ∧ pl_nonce p = hex_encode bs;
  wf_expiry : (0 <= pl_expiry_unix p < 2 ^ 63)%Z;
  wf_signature : bytes_ok (to_compact (pl_signature p)) ∧ from_compact (to_compact (pl_signature p)) = Ok (pl_signature p)
}.

Definition set_pledgor (p : Pledge) (a : Address) : Pledge :=
  mkPledge (pl_version p) (pl_chain_id p) (pl_contract p) (pl_token p) (pl_amount_atomic p) (pl_recipient p) (pl_nonce p) (pl_expiry_unix p) a (pl_signature p).

Section TokenLemmas.
Context `{HL : HexLaws} `{B3 : Blake3} `{KL : KeccakLaws} `{SL : Secp256k1Laws} `{TJ : TokenJson}.

Lemma address_hex_lower a : address_ok a → str_lower (Address_to_hex a) = Address_to_hex a ∧ url_part (Address_to_hex a) = true.
Proof.
  intros [_ Hb]. pose proof (hex_encode_lower _ Hb) as Hl. unfold Address_to_hex. split; [|by apply url_part_0x, url_part_lower_hex].
  change (String "0" (String "x" (str_lower (hex_encode (addr_bytes a)))) = "0x" +:+ hex_encode (addr_bytes a)). by rewrite str_lower_id.
Qed.

Lemma to_url_parts p : pledge_wf p →
  Forall (λ s, url_part s = true)
    [show_N (pl_chain_id p); pl_contract p; pl_token p; show_N (pl_amount_atomic p); Address_to_checksum (pl_recipient p); pl_nonce p;
     show_Z (pl_expiry_unix p); "0x" +:+ hex_encode (to_compact (pl_signature p))].
Proof.
  intros [_ _ (c & Hc & Ec) (t & Ht & Et) _ [_ Hr] (n & Hn & _ & En) _ [Hs _]]. destruct (checksum_hexdigits _ Hr) as (s & -> & Hhex).
  pose proof (hex_encode_lower n Hn). pose proof (hex_encode_lower _ Hs). rewrite Ec, Et, En.
  destruct (address_hex_lower c Hc) as [_ ?], (address_hex_lower t Ht) as [_ ?]. repeat constructor; auto with adnet.
Qed.

Lemma to_url_trim p : pledge_wf p → str_trim (to_url p) = to_url p.
Proof.
  intros Hp. apply str_trim_id. unfold to_url. rewrite str_forallb_app. apply andb_true_iff. split; [done|].
  apply str_join_forallb; [done|]. eapply Forall_impl; [by apply to_url_parts|]. intros s Hs. by apply andb_true_iff in Hs as [_ ?].
Qed.

Lemma from_to_url p : pledge_wf p → from_url (to_url p) = Ok (set_pledgor p zero_address).
Proof.
  intros Hp. unfold from_url, to_url. rewrite strip_prefix_app. cbn [ok_or]. rewrite url_parts_split by (done || by apply to_url_parts).
  destruct Hp as [Hv Hc (c & Hca & Ec) (t & Hta & Et) Ha Hr _ He [Hs Hsig]].
  rewrite !parse_show by done. cbn [ok_or]. rewrite (proj1 (address_text_roundtrip _ Hr)). cbn [from_identity]. rewrite parse_show_i64 by done. cbn [ok_or].
  rewrite strip_prefix_app. cbn [from_option]. unfold id. rewrite hex_decode_encode by done. cbn [ok_or]. rewrite Hsig. cbn [from_identity].
  rewrite Ec, Et, (proj1 (address_hex_lower c Hca)), (proj1 (address_hex_lower t Hta)), <-Ec, <-Et, <-Hv. done.
Qed.
(** ** From a signed pledge to a redeemed receipt *)

(** The arguments of a pledge as the fields are documented. *)
Lemma signed_pledge_wf w chain ca ta amount recipient nonce expiry b :
  Pledge_body chain (Address_to_hex ca) (Address_to_hex ta) amount recipient (hex_encode nonce) expiry = Ok b →
  chain <= u64_max → address_ok ca → address_ok ta → address_ok recipient → bytes_ok nonce → length nonce = 32%nat → (expiry < 2 ^ 63)%Z →
  signs w (pledge_digest b) →
  pledge_wf (Pledge_sign b w) ∧ pledge_body_of (Pledge_sign b w) = b ∧ 0 < amount <= MAX_AMOUNT_ATOMIC.
Proof.
  unfold Pledge_body. destruct (N.eqb_spec amount 0); [done|]. destruct (N.ltb_spec MAX_AMOUNT_ATOMIC amount); [done|].
  destruct (negb _); [done|]. destruct (Z.leb_spec expiry 0); [done|]. intros [= <-] Hchain Hca Hta Hrec Hn Hl He Hs.
  destruct (signs_spec _ _ Hs) as (_ & H2 & H3 & _). split; [|split; [done|lia]].
  split; cbn [pl_version pl_chain_id pl_contract pl_token pl_amount_atomic pl_recipient pl_nonce pl_expiry_unix pl_signature Pledge_sign
    pb_chain_id pb_contract pb_token pb_amount_atomic pb_recipient pb_nonce pb_expiry_unix]; [done..|by exists ca|by exists ta| |done|by exists nonce|lia|done].
  etrans; [eassumption|]. unfold MAX_AMOUNT_ATOMIC, u128_max. by vm_compute.
Qed.

Lemma verify_signed w b now : signs w (pledge_digest b) → pb_version b = PLEDGE_VERSION → (now < pb_expiry_unix b)%Z →
  verify_with_recovered (set_pledgor (Pledge_sign b w) zero_address) now = Ok (wp_address (wa_public w)) ∧ Pledge_verify (Pledge_sign b w) now = Ok ().
Proof.
  intros Hs Hv Hnow. destruct (signs_spec _ _ Hs) as (Hrec & _). unfold verify_with_recovered, Pledge_verify.
  assert (pledge_body_of (set_pledgor (Pledge_sign b w) zero_address) = b ∧ pledge_body_of (Pledge_sign b w) = b) as [-> ->] by (destruct b; cbn in Hv; by subst).
  cbn [set_pledgor Pledge_sign pl_signature pl_expiry_unix pl_pledgor]. rewrite Hrec. cbn [from_identity]. rewrite (proj2 (Z.leb_gt _ _) Hnow).
  by rewrite differs_refl, andb_false_r.
Qed.

Lemma Pledge_body_version chain c t amount r nonce expiry b : Pledge_body chain c t amount r nonce expiry = Ok b →
  pb_version b = PLEDGE_VERSION ∧ pb_chain_id b = chain ∧ pb_amount_atomic b = amount ∧ pb_recipient b = r ∧ pb_nonce b = nonce ∧ pb_expiry_unix b = expiry.
Proof. unfold Pledge_body. repeat case_match; try done. by intros [= <-]. Qed.

(** The URL of a pledge: it reads back to the pledge without the address of the pledgor,
    which the URL does not carry and the signature gives; the white space around it is
    ignored by the relay. *)
Theorem pledge_url_roundtrip p :
  pledge_wf p → from_url (to_url p) = Ok (set_pledgor p zero_address) ∧ str_trim (to_url p) = to_url p.
Proof. intros Hp. by split; [apply from_to_url|apply to_url_trim]. Qed.

Lemma pledge_accepted relay w ca ta amount nonce expiry b now st :
  Pledge_body EXPECTED_CHAIN_ID (Address_to_hex ca) (Address_to_hex ta) amount (wp_address (wa_public relay)) (hex_encode nonce) expiry = Ok b →
  address_ok ca → address_ok ta → address_ok (wp_address (wa_public relay)) → bytes_ok nonce → length nonce = 32%nat → (now < expiry < 2 ^ 63)%Z →
  signs w (pledge_digest b) →
  handle_pledge relay now st (to_url (Pledge_sign b w)) = (mkBillingState (add_open (bs_open st) (hex_encode nonce) amount) (bs_issued st), Accepted).
Proof.
  intros Hb Hca Hta Hr Hn Hl He Hs.
  destruct (signed_pledge_wf w _ _ _ _ _ _ _ _ Hb ltac:(by vm_compute) Hca Hta Hr Hn Hl ltac:(lia) Hs) as (Hwf & _ & _).
  destruct (Pledge_body_version _ _ _ _ _ _ _ _ Hb) as (Ev & Ec & Ea & Er & En & Ee).
  unfold handle_pledge. rewrite to_url_trim, from_to_url by done. destruct (verify_signed w b now Hs Ev) as [-> _]; [lia|].
  cbn [set_pledgor Pledge_sign pl_chain_id pl_recipient pl_nonce pl_amount_atomic]. rewrite Ec, Er, Ea, En.
  by rewrite differs_refl.
Qed.

Lemma issued_receipt relay p now charged r : Receipt_issue now p charged relay = Ok r → signs relay (receipt_digest (receipt_body_of r)) →
  Receipt_verify r = Ok () ∧ rc_relay r = wp_address (wa_public relay) ∧ rc_recipient r = wp_address (wa_public relay) ∧
  rc_pledgor r = pl_pledgor p ∧ rc_pledge_nonce r = pl_nonce p ∧ rc_charged_atomic r = charged ∧ 0 < charged <= pl_amount_atomic p.
Proof.
  unfold Receipt_issue. destruct (N.eqb_spec charged 0); [done|]. destruct (N.ltb_spec (pl_amount_atomic p) charged); [done|]. intros [= <-] Hs.
  destruct (signs_spec _ _ Hs) as (Hrec & _). unfold Receipt_verify.
  split; [|split_and!; try done; lia]. cbn [rc_signature rc_relay rb_relay]. cbn [rc_signature] in Hrec. unfold receipt_body_of in *.
  cbn [rc_version rc_pledge_nonce rc_pledgor rc_recipient rc_charged_atomic rc_issued_unix rc_relay rb_version rb_pledge_nonce rb_pledgor rb_recipient rb_charged_atomic rb_issued_unix rb_relay] in *.
  rewrite Hrec. cbn [from_identity]. by rewrite decide_True.
Qed.

End TokenLemmas.

(** ** The ledger *)

Lemma map_sum_delete m k : map_sum m = default 0 (m !! k) + map_sum (delete k m).
Proof.
  unfold map_sum. destruct (m !! k) as [v|] eqn:Hk; cbn [from_option]; unfold id; [|by rewrite delete_id].
  rewrite <-(insert_delete_id m k v Hk) at 1. rewrite map_fold_insert_L; [done|intros; lia|apply lookup_delete_eq].
Qed.

Lemma map_sum_insert m k v : map_sum (<[k := v]> m) + default 0 (m !! k) = map_sum m + v.
Proof.
  rewrite (map_sum_delete (<[k := v]> m) k), (map_sum_delete m k), lookup_insert_eq, delete_insert_eq. cbn [from_option]. unfold id. lia.
Qed.

Section Ledger.
Context `{HX : Hex} `{B3 : Blake3} `{KK : Keccak} `{SC : Secp256k1} `{TJ : TokenJson}.

Definition balance (st : BillingState) (nonce : string) : N := default 0 (bs_open st !! nonce).

(** What an accepted request books on a nonce: a credit or a debit. *)
Definition ledger_entry (e : RelayRequest * BillingAnswer) : option (string * (N * N)) :=
  match e with
  | (PledgeReq _ body, Accepted) => match from_url (str_trim body) with Ok p => Some (pl_nonce p, (pl_amount_atomic p, 0)) | Err _ => None end
  | (RedeemReq r, Accepted) => Some (rc_pledge_nonce r, (0, rc_charged_atomic r))
  | _ => None
  end.

Definition sum_entries (f : string * (N * N) → N) (log : list (RelayRequest * BillingAnswer)) : N :=
  foldr (λ e acc, from_option f 0 (ledger_entry e) + acc) 0 log.

Definition credits (nonce : string) := sum_entries (λ e, if (e.1 =? nonce)%string then e.2.1 else 0).
Definition debits (nonce : string) := sum_entries (λ e, if (e.1 =? nonce)%string then e.2.2 else 0).
Definition all_credits := sum_entries (λ e, e.2.1).
Definition all_debits := sum_entries (λ e, e.2.2).

(** Who is behind an accepted request: an unexpired pledge to this relay with a signature
    that recovers, or a receipt that this relay signed. *)
Definition authentic (relay : Wallet) (e : RelayRequest * BillingAnswer) : Prop :=
  match e with
  | (PledgeReq now body, Accepted) => ∃ p signer, from_url (str_trim body) = Ok p ∧
      recover_personal (pledge_digest (pledge_body_of p)) (pl_signature p) = Ok signer ∧
      pl_chain_id p = EXPECTED_CHAIN_ID ∧ pl_recipient p = wp_address (wa_public relay) ∧ (now < pl_expiry_unix p)%Z
  | (RedeemReq r, Accepted) => ∃ signer, recover_personal (receipt_digest (receipt_body_of r)) (rc_signature r) = Ok signer ∧
      wp_address signer = wp_address (wa_public relay)
  | _ => True
  end.

(** The change of the balances by one request. *)
Definition booked (st st' : BillingState) (entry : option (string * (N * N))) : Prop :=
  match entry with
  | None => bs_open st' = bs_open st
  | Some (k, (a, c)) => (c = 0 ∧ bs_open st' = add_open (bs_open st) k a) ∨ (a = 0 ∧ c <= balance st k ∧ bs_open st' = <[k := balance st k - c]> (bs_open st))
  end.

Lemma handle_pledge_spec relay now st body st' a : handle_pledge relay now st body = (st', a) →
  booked st st' (ledger_entry (PledgeReq now body, a)) ∧ authentic relay (PledgeReq now body, a).
Proof.
  unfold handle_pledge, ledger_entry, authentic. destruct (from_url (str_trim body)) as [p|e] eqn:Hp; [|by intros [= <- <-]].
  unfold verify_with_recovered. destruct (recover_personal _ _) as [signer|e] eqn:Hrec; cbn [from_identity]; [|by intros [= <- <-]].
  destruct (Z.leb_spec (pl_expiry_unix p) now); [by intros [= <- <-]|].
  destruct (N.eqb_spec (pl_chain_id p) EXPECTED_CHAIN_ID); cbn [negb]; [|by intros [= <- <-]].
  case_bool_decide as Hr; [by intros [= <- <-]|]. intros [= <- <-]. split; [by left|]. by exists p, signer.
Qed.

Lemma handle_redeem_spec relay st r st' a : handle_redeem relay st r = (st', a) →
  booked st st' (ledger_entry (RedeemReq r, a)) ∧ authentic relay (RedeemReq r, a).
Proof.
  unfold handle_redeem, ledger_entry, authentic, Receipt_verify. destruct (recover_personal _ _) as [signer|e]; cbn [from_identity]; [|by intros [= <- <-]].
  destruct (decide _) as [Hs|]; [|by intros [= <- <-]]. case_bool_decide as Hr; [by intros [= <- <-]|].
  destruct (bs_open st !! rc_pledge_nonce r) as [bal|] eqn:Hbal; [|by intros [= <- <-]].
  destruct (N.ltb_spec bal (rc_charged_atomic r)); [by intros [= <- <-]|]. intros [= <- <-]. split; [|exists signer; split; [done|congruence]].
  right. unfold balance. rewrite Hbal. by cbn [from_option].
Qed.

Lemma relay_step_spec relay st req st' a : relay_step relay st req = (st', a) → booked st st' (ledger_entry (req, a)) ∧ authentic relay (req, a).
Proof. destruct req; cbn [relay_step]; [apply handle_pledge_spec|apply handle_redeem_spec|]. by intros [= <- <-]. Qed.

Lemma booked_balance st st' e n : booked st st' e →
  balance st' n + from_option (λ e, if (e.1 =? n)%string then e.2.2 else 0) 0 e <= balance st n + from_option (λ e, if (e.1 =? n)%string then e.2.1 else 0) 0 e ∧
  (balance st n + from_option (λ e, if (e.1 =? n)%string then e.2.1 else 0) 0 e <= u128_max →
   balance st' n + from_option (λ e, if (e.1 =? n)%string then e.2.2 else 0) 0 e = balance st n + from_option (λ e, if (e.1 =? n)%string then e.2.1 else 0) 0 e).
Proof.
  destruct e as [[k [a c]]|]; cbn [booked from_option fst snd]; [|unfold balance; intros ->; lia].
  intros [[-> Ho]|(-> & Hc & Ho)]; unfold balance in *; rewrite Ho; unfold add_open, sat_add;
    (destruct (String.eqb_spec k n) as [->|Hne]; [rewrite lookup_insert_eq|rewrite lookup_insert_ne by done]); cbn [from_option]; unfold id in *; lia.
Qed.

Lemma booked_total st st' e : booked st st' e → map_sum (bs_open st) + from_option (λ e, e.2.1) 0 e <= u128_max →
  map_sum (bs_open st') + from_option (λ e, e.2.2) 0 e = map_sum (bs_open st) + from_option (λ e, e.2.1) 0 e.
Proof.
  destruct e as [[k [a c]]|]; cbn [booked from_option fst snd]; [|by intros ->].
  intros [[-> Ho]|(-> & Hc & Ho)] Hle; rewrite Ho; unfold add_open, balance in *;
    match goal with |- map_sum (<[k := ?v]> ?m) + _ = _ => pose proof (map_sum_insert m k v) end; pose proof (map_sum_delete (bs_open st) k); unfold sat_add in *; lia.
Qed.

Lemma relay_run_spec relay reqs st st' log : relay_run relay st reqs = (st', log) →
  (∀ n, balance st' n + debits n log <= balance st n + credits n log ∧
        (balance st n + credits n log <= u128_max → balance st' n + debits n log = balance st n + credits n log)) ∧
  (map_sum (bs_open st) + all_credits log <= u128_max → map_sum (bs_open st') + all_debits log = map_sum (bs_open st) + all_credits log) ∧
  Forall (authentic relay) log.
Proof.
  revert st st' log. induction reqs as [|req reqs IH]; intros st st' log; cbn [relay_run].
  - intros [= <- <-]. cbn. split_and!; [intros n; cbn; lia|done|done].
  - destruct (relay_step relay st req) as [st1 a] eqn:Hstep. destruct (relay_run relay st1 reqs) as [st2 log'] eqn:Hrun. intros [= <- <-].
    destruct (IH _ _ _ Hrun) as (H1 & H2 & H3). destruct (relay_step_spec _ _ _ _ _ Hstep) as [Hb Ha].
    unfold debits, credits, all_debits, all_credits in *. cbn [sum_entries foldr] in *. split_and!.
    + intros n. destruct (H1 n) as [G1 G2], (booked_balance _ _ _ n Hb) as [B1 B2]. unfold sum_entries in *. cbn [foldr]. lia.
    + intros Hle. pose proof (booked_total _ _ _ Hb). unfold sum_entries in *. cbn [foldr] in *. lia.
    + by constructor.
Qed.

(** The pledges that the relay accepted, in their order. *)
Definition accepted_pledge (e : RelayRequest * BillingAnswer) : option Pledge :=
  match e with
  | (PledgeReq _ body, Accepted) => match from_url (str_trim body) with Ok p => Some p | Err _ => None end
  | _ => None
  end.

Definition accepted_pledges (log : list (RelayRequest * BillingAnswer)) : list Pledge := omap accepted_pledge log.

Definition pledged_total (ps : list Pledge) : N := foldr (λ p acc, pl_amount_atomic p + acc) 0 ps.

Lemma from_url_amount s p : from_url s = Ok p → pl_amount_atomic p <= u128_max.
Proof.
  unfold from_url. destruct (str_strip_prefix TOKEN_SCHEME s) as [rest|]; cbn [ok_or]; [|done].
  repeat (case_match; try done). intros [= <-]. cbn [pl_amount_atomic].
  match goal with H : ok_or _ (parse_uint u128_max ?t) = Ok _ |- _ => destruct (parse_uint u128_max t) as [amount|] eqn:Ha; cbn [ok_or] in H; simplify_eq; by eapply parse_uint_bound end.
Qed.

Lemma credits_of_pledges n log : credits n log = foldr (λ p acc, (if (pl_nonce p =? n)%string then pl_amount_atomic p else 0) + acc) 0 (accepted_pledges log).
Proof.
  unfold credits, sum_entries, accepted_pledges. induction log as [|[[now body|r|] a] log IH]; [done|..]; cbn [foldr omap list_omap accepted_pledge ledger_entry];
    rewrite IH; destruct a; try done; [|by cbn; case_match].
  by destruct (from_url (str_trim body)).
Qed.

Lemma all_credits_of_pledges log : all_credits log = pledged_total (accepted_pledges log).
Proof.
  unfold all_credits, sum_entries, accepted_pledges, pledged_total. induction log as [|[[now body|r|] a] log IH]; [done|..]; cbn [foldr omap list_omap accepted_pledge ledger_entry];
    rewrite IH; destruct a; try done. by destruct (from_url (str_trim body)).
Qed.

(** With every nonce once, the credits of a nonce are the amount of its pledge. *)
Lemma credits_absent n log : n ∉ pl_nonce <$> accepted_pledges log → credits n log = 0.
Proof.
  rewrite credits_of_pledges. induction (accepted_pledges log) as [|p ps IH]; [done|]. rewrite fmap_cons, not_elem_of_cons. cbn [foldr].
  intros [Hn Hps]. rewrite IH by done. by destruct (String.eqb_spec (pl_nonce p) n) as [E|]; [destruct Hn|].
Qed.

Lemma credits_once p log : NoDup (pl_nonce <$> accepted_pledges log) → p ∈ accepted_pledges log → credits (pl_nonce p) log = pl_amount_atomic p.
Proof.
  rewrite credits_of_pledges. induction (accepted_pledges log) as [|q ps IH]; [by intros _ ?%elem_of_nil|]. rewrite fmap_cons, NoDup_cons, elem_of_cons. cbn [foldr].
  intros [Hq Hps] [->|Hp].
  - rewrite String.eqb_refl. enough (foldr (λ p acc, (if (pl_nonce p =? pl_nonce q)%string then pl_amount_atomic p else 0) + acc) 0 ps = 0) as -> by lia.
    clear -Hq. induction ps as [|r ps IH]; [done|]. rewrite fmap_cons, not_elem_of_cons in Hq. cbn [foldr]. rewrite IH by apply Hq.
    by destruct (String.eqb_spec (pl_nonce r) (pl_nonce q)) as [E|]; [destruct (proj1 Hq)|].
  - rewrite IH by done. destruct (String.eqb_spec (pl_nonce q) (pl_nonce p)) as [E|]; [|lia]. destruct Hq. rewrite E. by apply list_elem_of_fmap_2.
Qed.

Lemma accepted_pledge_parsed p log : p ∈ accepted_pledges log → pl_amount_atomic p <= u128_max.
Proof.
  unfold accepted_pledges. rewrite list_elem_of_omap. intros ([[now body|r|] a] & _ & Hp); destruct a; try done. cbn [accepted_pledge] in Hp.
  destruct (from_url (str_trim body)) as [q|] eqn:Hq; [|done]. injection Hp as <-. by eapply from_url_amount.
Qed.

(** C22. The ledger of a relay that is sent each pledge once, that is, when no two accepted
    pledges have the same nonce (the relay itself does not look, see
    [replayed_pledge_credited_again]). After any other requests, receipts sent again
    included, what it has redeemed on a pledge and the open balance of the pledge are
    together exactly the amount that was signed: it never redeems more. On a nonce
    without a pledge it redeems nothing. The status shows everything pledged minus
    everything redeemed, as long as the sum of the pledges fits in 128 bits. Every credit
    stands for an unexpired pledge to this relay on its chain whose signature recovers to
    some address, and every debit for a receipt that this relay signed. *)
Theorem relay_ledger_conserved relay reqs st log :
  relay_run relay BillingState_default reqs = (st, log) → NoDup (pl_nonce <$> accepted_pledges log) →
  (∀ p, p ∈ accepted_pledges log → balance st (pl_nonce p) + debits (pl_nonce p) log = pl_amount_atomic p) ∧
  (∀ n, n ∉ pl_nonce <$> accepted_pledges log → balance st n = 0 ∧ debits n log = 0) ∧
  (pledged_total (accepted_pledges log) <= u128_max →
   handle_status st = (st, Status (pledged_total (accepted_pledges log) - all_debits log) (bs_issued st))) ∧
  Forall (authentic relay) log.
Proof.
  intros Hrun Hnd. destruct (relay_run_spec _ _ _ _ _ Hrun) as (H1 & H2 & H3). rewrite all_credits_of_pledges in H2.
  change (map_sum (bs_open BillingState_default)) with 0 in H2. split_and!; [| | |done].
  - intros p Hp. destruct (H1 (pl_nonce p)) as [_ H]. rewrite (credits_once p) in H by done. apply accepted_pledge_parsed in Hp. by apply H.
  - intros n Hn. destruct (H1 n) as [H _]. rewrite credits_absent in H by done. change (balance BillingState_default n) with 0 in H. lia.
  - intros Hle. unfold handle_status. do 2 f_equal. rewrite N.mod_small; [lia|]. unfold u128_max in *. lia.
Qed.

(** A pledge is credited again each time its URL is sent: the nonce is the key of the
    balance and is not remembered as used. *)
Theorem replayed_pledge_credited_again relay now st body st1 :
  handle_pledge relay now st body = (st1, Accepted) →
  ∃ p, from_url (str_trim body) = Ok p ∧
    handle_pledge relay now st1 body = (mkBillingState (add_open (add_open (bs_open st) (pl_nonce p) (pl_amount_atomic p)) (pl_nonce p) (pl_amount_atomic p)) (bs_issued st), Accepted).
Proof.
  unfold handle_pledge. destruct (from_url (str_trim body)) as [p|]; [|done]. intros H. exists p. split; [done|]. revert H.
  repeat case_match; try done. by intros [= <-].
Qed.

(** A redeemed receipt is redeemed again while the balance lasts. *)
Theorem redeemed_receipt_accepted_again relay st r st1 :
  handle_redeem relay st r = (st1, Accepted) → rc_charged_atomic r <= balance st1 (rc_pledge_nonce r) →
  (handle_redeem relay st1 r).2 = Accepted.
Proof.
  unfold handle_redeem, balance. repeat case_match; try done; intros [= <-]; cbn [bs_open] in *; rewrite ?lookup_insert_eq in *; cbn [from_option] in *; unfold id in *;
    simplify_eq; intros Hle; nprop; try done; lia.
Qed.
End Ledger.

(** ** Quotas, receipts and claims *)

Section Grants.
Context `{HL : HexLaws} `{B3 : Blake3} `{KL : KeccakLaws} `{SL : Secp256k1Laws} `{TJ : TokenJson}.

(** The quota of a mailbox: a pledge to the server on its chain, signed by the sender and
    not expired, grants its amount times the rate, cut to 64 bits, to the sender and is
    refused for anybody else. *)
Theorem pledge_grants_quota pol w ca ta amount server nonce expiry b now sender :
  Pledge_body (bp_chain_id pol) (Address_to_hex ca) (Address_to_hex ta) amount server (hex_encode nonce) expiry = Ok b →
  bp_server_address pol = Address_to_checksum server → bp_chain_id pol <= u64_max →
  address_ok ca → address_ok ta → address_ok server → bytes_ok nonce → length nonce = 32%nat → (now < expiry < 2 ^ 63)%Z → signs w (pledge_digest b) →
  let signer := Address_to_checksum (wp_address (wa_public w)) in
  verify_pledge pol (to_url (Pledge_sign b w)) sender now =
    (if (signer =? sender)%string then Ok (Some (bonus_bytes amount (bp_bonus_bytes_per_unit pol))) else Err (SignerMismatch sender signer)) ∧
  try_grant_quota pol (Some (to_url (Pledge_sign b w))) sender now = (if (signer =? sender)%string then bonus_bytes amount (bp_bonus_bytes_per_unit pol) else 0).
Proof.
  intros Hb Hsrv Hc Hca Hta Hr Hn Hl He Hs signer.
  destruct (signed_pledge_wf w _ _ _ _ _ _ _ _ Hb Hc Hca Hta Hr Hn Hl ltac:(lia) Hs) as (Hwf & _ & _).
  destruct (Pledge_body_version _ _ _ _ _ _ _ _ Hb) as (Ev & Ec & Ea & Er & En & Ee).
  unfold try_grant_quota, verify_pledge. rewrite from_to_url by done. destruct (verify_signed w b now Hs Ev) as [-> _]; [lia|].
  cbn [set_pledgor Pledge_sign pl_chain_id pl_recipient pl_amount_atomic]. rewrite Ec, Er, Ea, Hsrv, N.eqb_refl, String.eqb_refl. fold signer. cbn [negb].
  by destruct (signer =? sender)%string.
Qed.

(** What a mailbox grants is signed: a bonus is the price of an unexpired pledge to this
    server on its chain whose signature recovers to the address of the sender. *)
Theorem granted_quota_signed pol url sender now bonus :
  verify_pledge pol url sender now = Ok (Some bonus) →
  ∃ p signer, from_url url = Ok p ∧ recover_personal (pledge_digest (pledge_body_of p)) (pl_signature p) = Ok signer ∧
    Address_to_checksum (wp_address signer) = sender ∧ Address_to_checksum (pl_recipient p) = bp_server_address pol ∧
    pl_chain_id p = bp_chain_id pol ∧ (now < pl_expiry_unix p)%Z ∧ bonus = bonus_bytes (pl_amount_atomic p) (bp_bonus_bytes_per_unit pol).
Proof.
  unfold verify_pledge. destruct (from_url url) as [p|]; [|done]. unfold verify_with_recovered.
  destruct (recover_personal _ _) as [signer|] eqn:Hrec; cbn [from_identity]; [|done]. destruct (Z.leb_spec (pl_expiry_unix p) now); [done|].
  destruct (N.eqb_spec (pl_chain_id p) (bp_chain_id pol)); cbn [negb]; [|done].
  destruct (String.eqb_spec (Address_to_checksum (wp_address signer)) sender); cbn [negb]; [|done].
  destruct (String.eqb_spec (Address_to_checksum (pl_recipient p)) (bp_server_address pol)); cbn [negb]; [|done].
  intros [= <-]. by exists p, signer.
Qed.

(** A receipt against a pledge: it matches exactly when the pledge names the relay that
    issued it and carries the pledgor the receipt was issued for. *)
Theorem receipt_matches_pledge relay p now charged r a :
  Receipt_issue now p charged relay = Ok r → signs relay (receipt_digest (receipt_body_of r)) →
  verify_for_pledge r (set_pledgor p a) =
    if decide (pl_pledgor p = a ∧ pl_recipient p = wp_address (wa_public relay)) then Ok () else Err RecoveredWrongSigner.
Proof.
  intros Hi Hs. destruct (issued_receipt _ _ _ _ _ Hi Hs) as (Hv & _ & Hrcp & Hpl & Hno & Hch & Hle). unfold verify_for_pledge.
  rewrite Hv, Hno, Hrcp, Hpl, Hch. cbn [set_pledgor pl_nonce pl_pledgor pl_recipient pl_amount_atomic]. rewrite String.eqb_refl. cbn [negb].
  rewrite (proj2 (N.ltb_ge _ _)) by lia. repeat case_bool_decide; destruct (decide _) as [[]|]; naive_solver.
Qed.

(** A claim: between 1 and 256 receipts are bundled, and the bundle verifies when the two
    readings of the clock agree. *)
Theorem claim_verifies now w receipts c :
  Claim_build now now w receipts = Ok c → signs w (claim_digest (cl_version c) (cl_claimer c) (cl_issued_unix c) (cl_receipts c)) →
  Claim_verify c = Ok () ∧ cl_receipts c = receipts ∧ (1 ≤ length receipts ≤ MAX_RECEIPTS_PER_CLAIM)%nat.
Proof.
  unfold Claim_build. destruct (Nat.eqb_spec (length receipts) 0); [done|]. destruct (Nat.ltb_spec MAX_RECEIPTS_PER_CLAIM (length receipts)); [done|].
  intros [= <-] Hs. destruct (signs_spec _ _ Hs) as (Hrec & _). split; [|split; [done|lia]].
  unfold Claim_verify. cbn [cl_version cl_claimer cl_issued_unix cl_receipts cl_signature] in *. rewrite Hrec. cbn [from_identity]. by rewrite decide_True.
Qed.

(** A mailbox that requires pledges looks only for the header: a text that is no pledge
    passes the gate. *)
Theorem mandatory_pledge_unverified pol sender now :
  bp_mandatory pol = true → billing_gate (Some pol) (Some "none") = Ok () ∧ verify_pledge pol "none" sender now = Err (BlParse (InvalidUrl "none")).
Proof. intros Hm. unfold billing_gate. by rewrite Hm. Qed.
End Grants.

(** ** Instances *)

(** A hash that keeps the last 32 bytes and a toy curve whose signatures carry what they sign. *)
#[local] Instance tail_keccak : Keccak := {| keccak256 bs := be_bytes 32 (be_value bs) |}.
#[local] Instance tail_keccak_laws : KeccakLaws tail_keccak.
Proof. split; intros bs; [apply length_be_bytes|apply be_bytes_ok]. Qed.

Definition padded (hash : list N) : list N := take 32 (hash ++ replicate 32 0).
Lemma length_padded hash : length (padded hash) = 32%nat.
Proof. unfold padded. rewrite length_take, length_app, length_replicate. lia. Qed.

#[local] Instance bound_secp : Secp256k1 := {|
  public_key sk := if Nat.eqb (length sk) 32 then Some (4 :: sk ++ sk) else None;
  sign_recoverable hash sk := (0, sk ++ padded hash);
  recover_ecdsa hash id compact := if decide (drop 32 compact = padded hash) then Some (4 :: take 32 compact ++ take 32 compact) else None
|}.
#[local] Instance bound_secp_laws : Secp256k1Laws bound_secp.
Proof.
  split; intros hash sk pk; cbn [public_key sign_recoverable recover_ecdsa bound_secp fst snd];
    (destruct (Nat.eqb_spec (length sk) 32) as [Hl|]; [intros [= <-]|done]).
  - by rewrite length_app, Hl, length_padded.
  - rewrite drop_app_length' by done. rewrite decide_True by done. by rewrite take_app_length'.
Qed.

#[local] Instance toy_token_json : TokenJson := {|
  pledge_json b := str_bytes (show_N (pb_amount_atomic b)) ++ str_bytes (pb_contract b);
  receipt_json b := str_bytes (show_N (rb_charged_atomic b));
  claim_json _ _ issued _ := str_bytes (show_Z issued)
|}.

Definition tx_wallet (n : N) : Wallet := mkWallet (replicate 32 n) (mkWalletPublic (4 :: replicate 64 n) (mkAddress (replicate 20 n))).
Definition tx_contract : Address := mkAddress (replicate 20 171).
Definition tx_nonce : list N := replicate 32 5.
Definition tx_body (contract : string) : PledgeBody :=
  mkPledgeBody 1 1 contract (Address_to_hex tx_contract) 1000 (mkAddress (replicate 20 2)) (hex_encode tx_nonce) 500.
Definition tx_pledge : Pledge := Pledge_sign (tx_body (Address_to_hex tx_contract)) (tx_wallet 1).
Definition tx_receipt (charged : N) : Receipt :=
  let b := mkReceiptBody 1 (hex_encode tx_nonce) (mkAddress (replicate 20 1)) (mkAddress (replicate 20 2)) charged 7 (mkAddress (replicate 20 2)) in
  mkReceipt 1 (hex_encode tx_nonce) (mkAddress (replicate 20 1)) (mkAddress (replicate 20 2)) charged 7 (mkAddress (replicate 20 2))
    (sign_personal (tx_wallet 2) (receipt_digest b)).

Lemma tx_bytes n k : n < 256 → bytes_ok (replicate k n).
Proof. intros Hn. by apply Forall_replicate. Qed.

Lemma tx_signs n digest : n ∈ [1; 2] → signs (tx_wallet n) digest.
Proof.
  intros Hn. assert (n < 256 ∧ Wallet_from_bytes (replicate 32 n) = Ok (tx_wallet n)) as [Hb Hw].
  { revert n Hn. apply Forall_forall. by repeat constructor. }
  split_and!; [done|cbn; lia|]. cbn [sign_recoverable bound_secp snd wa_secret tx_wallet]. apply Forall_app. split; [by apply tx_bytes|].
  apply Forall_take, Forall_app. split; [apply keccak_bytes|by apply tx_bytes].
Qed.

Lemma tx_address_ok n : n < 256 → address_ok (mkAddress (replicate 20 n)).
Proof. intros Hn. split; [apply length_replicate|by apply tx_bytes]. Qed.

Lemma tx_pledge_wf : pledge_wf tx_pledge.
Proof.
  apply (signed_pledge_wf (tx_wallet 1) 1 tx_contract tx_contract 1000 (mkAddress (replicate 20 2)) tx_nonce 500 (tx_body (Address_to_hex tx_contract)));
    [by vm_compute|by vm_compute|by apply tx_address_ok..|by apply tx_bytes|done|lia|apply tx_signs; set_solver].
Qed.

Lemma pledge_url_roundtrip_witness : from_url (to_url tx_pledge) = Ok (set_pledgor tx_pledge zero_address).
Proof. exact (proj1 (pledge_url_roundtrip tx_pledge tx_pledge_wf)). Defined.


(** A pledge of 1000, a receipt of 300 sent four times: three times it is redeemed, then
    the balance is too low. *)
Definition tx_requests : list RelayRequest :=
  [PledgeReq 3 (to_url tx_pledge); RedeemReq (tx_receipt 300); RedeemReq (tx_receipt 300); RedeemReq (tx_receipt 300); RedeemReq (tx_receipt 300); StatusReq].

Definition tx_run := relay_run (tx_wallet 2) BillingState_default tx_requests.

Lemma relay_ledger_conserved_witness :
  snd <$> tx_run.2 = [Accepted; Accepted; Accepted; Accepted; Refused 400 (RefBalance 100 300); Status 100 3] ∧
  debits (hex_encode tx_nonce) tx_run.2 = 900 ∧ balance tx_run.1 (hex_encode tx_nonce) + debits (hex_encode tx_nonce) tx_run.2 = 1000.
Proof.
  split; [vm_compute; reflexivity|]. split; [vm_compute; reflexivity|].
  assert (relay_run (tx_wallet 2) BillingState_default tx_requests = (tx_run.1, tx_run.2)) as Hrun by (unfold tx_run; apply surjective_pairing).
  assert (accepted_pledges tx_run.2 = [set_pledgor tx_pledge zero_address]) as Hps by (vm_compute; reflexivity).
  destruct (relay_ledger_conserved (tx_wallet 2) tx_requests tx_run.1 tx_run.2 Hrun) as [H _].
  - rewrite Hps. apply NoDup_singleton.
  - apply (H (set_pledgor tx_pledge zero_address)). rewrite Hps. left.
Defined.

Lemma replayed_pledge_credited_again_witness :
  balance (handle_pledge (tx_wallet 2) 3 (handle_pledge (tx_wallet 2) 3 BillingState_default (to_url tx_pledge)).1 (to_url tx_pledge)).1 (hex_encode tx_nonce) = 2000.
Proof.
  destruct (replayed_pledge_credited_again (tx_wallet 2) 3 BillingState_default (to_url tx_pledge) (handle_pledge (tx_wallet 2) 3 BillingState_default (to_url tx_pledge)).1)
    as (p & Hp & ->); [vm_compute; reflexivity|]. vm_compute in Hp. injection Hp as <-. vm_compute; reflexivity.
Defined.

Lemma redeemed_receipt_accepted_again_witness :
  let st := (handle_redeem (tx_wallet 2) (mkBillingState {[hex_encode tx_nonce := 1000]} 0) (tx_receipt 300)).1 in (handle_redeem (tx_wallet 2) st (tx_receipt 300)).2 = Accepted.
Proof.
  intros st. apply (redeemed_receipt_accepted_again (tx_wallet 2) (mkBillingState {[hex_encode tx_nonce := 1000]} 0) (tx_receipt 300) st); [vm_compute; reflexivity|].
  vm_compute; discriminate.
Defined.

Lemma pledge_grants_quota_witness :
  try_grant_quota (BillingPolicy_new (Address_to_checksum (mkAddress (replicate 20 2))) 1) (Some (to_url tx_pledge)) (Address_to_checksum (mkAddress (replicate 20 1))) 3 = 1000.
Proof.
  refine (proj2 (pledge_grants_quota (BillingPolicy_new (Address_to_checksum (mkAddress (replicate 20 2))) 1) (tx_wallet 1) tx_contract tx_contract 1000
    (mkAddress (replicate 20 2)) tx_nonce 500 (tx_body (Address_to_hex tx_contract)) 3 (Address_to_checksum (mkAddress (replicate 20 1))) _ _ _ _ _ _ _ _ _ _)).
  - vm_compute; reflexivity.
  - reflexivity.
  - vm_compute; discriminate.
  - apply tx_address_ok; reflexivity.
  - apply tx_address_ok; reflexivity.
  - apply tx_address_ok; reflexivity.
  - apply tx_bytes; reflexivity.
  - reflexivity.
  - lia.
  - apply tx_signs; set_solver.
Defined.

Lemma granted_quota_signed_witness : ∃ p, from_url (to_url tx_pledge) = Ok p ∧ pl_chain_id p = 1.
Proof.
  destruct (granted_quota_signed (BillingPolicy_new (Address_to_checksum (mkAddress (replicate 20 2))) 1) (to_url tx_pledge) (Address_to_checksum (mkAddress (replicate 20 1))) 3 1000)
    as (p & signer & H1 & _ & _ & _ & H2 & _); [vm_compute; reflexivity|]. exists p. split; [exact H1|exact H2].
Defined.

Lemma receipt_matches_pledge_witness : verify_for_pledge (tx_receipt 300) (set_pledgor tx_pledge zero_address) = Err RecoveredWrongSigner.
Proof.
  refine (eq_trans (receipt_matches_pledge (tx_wallet 2) tx_pledge 7 300 (tx_receipt 300) zero_address _ _) _);
    [vm_compute; reflexivity|apply tx_signs; set_solver|vm_compute; reflexivity].
Defined.

Definition tx_claim (t t' : Z) : result TokenError Claim := Claim_build t t' (tx_wallet 1) [tx_receipt 100; tx_receipt 200].

Lemma claim_verifies_witness : ∃ c, tx_claim 9 9 = Ok c ∧ Claim_verify c = Ok ().
Proof.
  eexists. split; [reflexivity|].
  refine (proj1 (claim_verifies 9 (tx_wallet 1) [tx_receipt 100; tx_receipt 200] _ _ _)); [reflexivity|apply tx_signs; set_solver].
Defined.

Lemma mandatory_pledge_unverified_witness : billing_gate (Some (mkBillingPolicy "0x" 1 1 true)) (Some "none") = Ok ().
Proof. exact (proj1 (mandatory_pledge_unverified (mkBillingPolicy "0x" 1 1 true) "0x" 3 eq_refl)). Defined.

(** A claim whose second passes between the two readings of the clock is signed over
    another time than the one it carries, and does not verify. *)
Example claim_clock_tick : (match tx_claim 9 10 with Ok c => is_ok (Claim_verify c) | Err _ => true end) = false.
Proof. vm_compute. reflexivity. Qed.

(** A pledge with an upper-case contract is built, signed and verified, and refused by the
    relay, whose parser lowers the text that was signed. *)
Example mixed_case_pledge_refused :
  let p := Pledge_sign (tx_body "0xABCDEFABCDEFABCDEFABCDEFABCDEFABCDEFABCD") (tx_wallet 1) in
  Pledge_verify p 3 = Ok () ∧ (handle_pledge (tx_wallet 2) 3 BillingState_default (to_url p)).2 = Refused 401 (RefVerify (TkIdentity (IdInvalidSignature "recover"))).
Proof. split; vm_compute; reflexivity. Qed.
