(* ===== verification/Coordinator.v ===== *)
(** * The mesh coordinator
      ([crates/a3net-mesh-coordinator/src/{store,request,error}.rs])

    The in-memory coordinator: networks with their rosters, invite codes and join
    requests. Each lock is held for one step of an operation; [redeem] is the
    composition of the steps it performs under separate locks. [None] is the panic
    of a node id that is not hexadecimal. The clock (nanoseconds), the secrets of
    invite codes and the ids of join requests are arguments. *)
From stdpp Require Import prelude strings gmap list.
From Stdlib Require Import NArith ZArith Lia.
From Stdlib Require String.
From S2P Require Import Prelude NodeId VirtualIp Mesh.

#[local] Open Scope N_scope.

Inductive CoordinatorError : Type :=
| UnknownInvite (code : string)
| InviteExpired (code : string)
| InviteAlreadyRedeemed (code : string)
| UnknownRequest (id : string)
| InvalidRequestState (actual expected : string)
| HostnameTaken (host network : string)
| AlreadyMember (node_id_short network : string)
| UnknownMember (node_id_short network : string)
| RosterFull (max : nat)
| NetworkIsOpen
| PeeringSelfLoop
| UnknownPeeringGrant (id : string)
| PeeringGrantIdReused (grant_id : string)
| PeeringSignatureInvalid (reason : string)
| PeeringUnknownCoordinator (network : string)
| PeeringExpired (grant_id : string) (valid_until : Z)
| RosterSignatureInvalid (reason : string).

(** ** Join requests *)

Inductive JoinRequestStatus : Type := JPending | JApproved | JDenied.

#[global] Instance JoinRequestStatus_eq_dec : EqDecision JoinRequestStatus.
Proof. solve_decision. Defined.

Definition JoinRequestStatus_fmt (s : JoinRequestStatus) : string :=
  match s with JPending => "pending" | JApproved => "approved" | JDenied => "denied" end.

Record JoinRequest : Type := mkJoinRequest {
  jr_id : string;
  jr_network : MeshNetworkId;
  jr_node_id : NodeId;
  jr_hostname : string;
  jr_requested_at : Z;
  jr_status : JoinRequestStatus;
  jr_note : string
}.

Definition set_status (r : JoinRequest) (s : JoinRequestStatus) : JoinRequest :=
  mkJoinRequest (jr_id r) (jr_network r) (jr_node_id r) (jr_hostname r) (jr_requested_at r) s (jr_note r).

(** ** The store *)

Definition secs (n : Z) : Z := (n * 1000000000)%Z.
Definition MAX_INVITE_TTL : Z := secs (7 * 24 * 3600).
Definition MAX_REQUESTS : nat := N.to_nat 1024.
Definition MAX_NOTE_LEN : nat := N.to_nat 256.

Record CoordinatorConfig : Type := mkCoordinatorConfig {
  cc_default_invite_ttl : Z; cc_max_requests : nat; cc_max_note_len : nat
}.

Definition CoordinatorConfig_default : CoordinatorConfig :=
  mkCoordinatorConfig (secs (7 * 24 * 3600)) MAX_REQUESTS MAX_NOTE_LEN.

Record NetworkState : Type := mkNetworkState {
  ns_display_name : string; ns_policy : MeshPolicy; ns_roster : MeshMembership
}.

Record Coordinator : Type := mkCoordinator {
  co_config : CoordinatorConfig;
  co_networks : gmap MeshNetworkId NetworkState;
  co_pending_invites : gmap (MeshNetworkId * string) InviteCode;
  co_pending_requests : gmap string JoinRequest;
  co_resolved_requests : gmap string JoinRequest
}.

Definition Coordinator_new (config : CoordinatorConfig) : Coordinator := mkCoordinator config ∅ ∅ ∅ ∅.

Definition set_networks (c : Coordinator) (n : gmap MeshNetworkId NetworkState) : Coordinator :=
  mkCoordinator (co_config c) n (co_pending_invites c) (co_pending_requests c) (co_resolved_requests c).
Definition set_invites (c : Coordinator) (i : gmap (MeshNetworkId * string) InviteCode) : Coordinator :=
  mkCoordinator (co_config c) (co_networks c) i (co_pending_requests c) (co_resolved_requests c).
Definition set_pending (c : Coordinator) (p : gmap string JoinRequest) : Coordinator :=
  mkCoordinator (co_config c) (co_networks c) (co_pending_invites c) p (co_resolved_requests c).
Definition set_resolved (c : Coordinator) (r : gmap string JoinRequest) : Coordinator :=
  mkCoordinator (co_config c) (co_networks c) (co_pending_invites c) (co_pending_requests c) r.

Definition missing_network : CoordinatorError := InvalidRequestState "missing" "exists".

Definition check_host_available (c : Coordinator) (network : MeshNetworkId) (hostname : string)
  : result CoordinatorError unit :=
  match co_networks c !! network with
  | None => Err missing_network
  | Some s =>
      if existsb (λ m, bool_decide (mm_hostname m = hostname)) (ms_members (ns_roster s))
      then Err (HostnameTaken hostname (ns_display_name s)) else Ok tt
  end.

Definition check_not_already_member (c : Coordinator) (network : MeshNetworkId) (member_id : NodeId)
  : result CoordinatorError unit :=
  match co_networks c !! network with
  | None => Err missing_network
  | Some s =>
      if existsb (λ m, bool_decide (mm_node_id m = member_id)) (ms_members (ns_roster s))
      then Err (AlreadyMember (NodeId_short member_id) (ns_display_name s)) else Ok tt
  end.

Definition set_members (r : MeshMembership) (l : list MeshMember) : MeshMembership :=
  mkMeshMembership (ms_network_id r) (ms_version r) l (ms_signature r) (ms_published_at r).
Definition set_roster (s : NetworkState) (r : MeshMembership) : NetworkState :=
  mkNetworkState (ns_display_name s) (ns_policy s) r.

(** [roster.members.push(..); roster.bumped()]. *)
Definition push_member (now : Z) (s : NetworkState) (m : MeshMember) : NetworkState :=
  set_roster s (MeshMembership_bumped now (set_members (ns_roster s) (ms_members (ns_roster s) ++ [m]))).

Section Coordinator.
Context `{HX : Hex}.

Definition Coordinator_create (now : Z) (c : Coordinator) (network : MeshNetworkId) (display_name : string)
  (policy : MeshPolicy) (creator : NodeId) : option (Coordinator * result CoordinatorError MeshMembership) :=
  match co_networks c !! network with
  | Some _ => Some (c, Err (InvalidRequestState "exists" "missing"))
  | None =>
      member ← MeshMember_new_coordinator now creator display_name;
      let roster := MeshMembership_bumped now (MeshMembership_new_unsigned now network [member]) in
      Some (set_networks c (<[network := mkNetworkState display_name policy roster]> (co_networks c)), Ok roster)
  end.

Definition Coordinator_roster (c : Coordinator) (network : MeshNetworkId) : option MeshMembership :=
  ns_roster <$> co_networks c !! network.

Definition Coordinator_mint_invite (now : Z) (secret : list N) (c : Coordinator) (network : MeshNetworkId)
  (ttl_override : option Z) : Coordinator * result CoordinatorError InviteCode :=
  match co_networks c !! network with
  | None => (c, Err missing_network)
  | Some s =>
      match ns_policy s with
      | Open => (c, Err NetworkIsOpen)
      | Closed =>
          let ttl := default (cc_default_invite_ttl (co_config c)) ttl_override in
          let ttl := Z.min ttl MAX_INVITE_TTL in
          let code := InviteCode_new now secret network ttl in
          (set_invites c (<[(network, ic_code code) := code]> (co_pending_invites c)), Ok code)
      end
  end.

(** The three steps of [redeem]: burning the code, the two checks, the addition. *)
Definition redeem_burn (now : Z) (c : Coordinator) (network : MeshNetworkId) (code : string)
  : result CoordinatorError Coordinator :=
  match co_pending_invites c !! (network, code) with
  | None => Err (UnknownInvite code)
  | Some invite =>
      if InviteCode_is_expired now invite then Err (InviteExpired code)
      else if ic_redeemed invite then Err (InviteAlreadyRedeemed code)
      else
        let invite := mkInviteCode (ic_network_id invite) (ic_code invite) (ic_expires_at invite) true in
        Ok (set_invites c (<[(network, code) := invite]> (co_pending_invites c)))
  end.

Definition redeem_check (c : Coordinator) (network : MeshNetworkId) (member_id : NodeId) (hostname : string)
  : result CoordinatorError unit :=
  let? _ := check_host_available c network hostname in
  check_not_already_member c network member_id.

(** Also the end of [accept_request]. *)
Definition admit_member (now : Z) (c : Coordinator) (network : MeshNetworkId) (member_id : NodeId) (hostname : string)
  : option (Coordinator * result CoordinatorError MeshMember) :=
  match co_networks c !! network with
  | None => Some (c, Err missing_network)
  | Some s =>
      new_member ← MeshMember_new_member now member_id hostname;
      Some (set_networks c (<[network := push_member now s new_member]> (co_networks c)), Ok new_member)
  end.

Definition Coordinator_redeem (now : Z) (c : Coordinator) (network : MeshNetworkId) (code : string)
  (member_id : NodeId) (hostname : string) : option (Coordinator * result CoordinatorError MeshMember) :=
  match redeem_burn now c network code with
  | Err e => Some (c, Err e)
  | Ok c =>
      match redeem_check c network member_id hostname with
      | Err e => Some (c, Err e)
      | Ok _ => admit_member now c network member_id hostname
      end
  end.

Definition Coordinator_kick (now : Z) (c : Coordinator) (network : MeshNetworkId) (member_id : NodeId)
  : Coordinator * result CoordinatorError unit :=
  match co_networks c !! network with
  | None => (c, Err missing_network)
  | Some s =>
      let members := filter (λ m, mm_node_id m ≠ member_id) (ms_members (ns_roster s)) in
      if Nat.eqb (length members) (length (ms_members (ns_roster s)))
      then (c, Err (UnknownMember (NodeId_short member_id) (ns_display_name s)))
      else (set_networks c (<[network := set_roster s (MeshMembership_bumped now (set_members (ns_roster s) members))]>
                              (co_networks c)), Ok tt)
  end.

(** The texts of the error with the length of the note are those of [format!]. *)
Definition Coordinator_request_join (now : Z) (id : string) (c : Coordinator) (network : MeshNetworkId)
  (member_id : NodeId) (hostname note : string) : Coordinator * result CoordinatorError string :=
  match co_networks c !! network with
  | None => (c, Err missing_network)
  | Some _ =>
      if Nat.ltb (cc_max_note_len (co_config c)) (String.length note)
      then (c, Err (InvalidRequestState ("len " ++ show_N (N.of_nat (String.length note)))
                     ("<= " ++ show_N (N.of_nat (cc_max_note_len (co_config c))))))
      else if Nat.leb (cc_max_requests (co_config c)) (size (co_pending_requests c))
      then (c, Err (RosterFull (cc_max_requests (co_config c))))
      else
        let req := mkJoinRequest id network member_id hostname now JPending note in
        (set_pending c (<[id := req]> (co_pending_requests c)), Ok id)
  end.

Definition Coordinator_pending_requests (c : Coordinator) (network : MeshNetworkId) : list JoinRequest :=
  filter (λ r, jr_network r = network) (map_to_list (co_pending_requests c)).*2.

Definition wrong_network (network : MeshNetworkId) : CoordinatorError :=
  InvalidRequestState "wrong-network" (net_hex network).

Definition Coordinator_accept_request (now : Z) (c : Coordinator) (network : MeshNetworkId) (request_id : string)
  : option (Coordinator * result CoordinatorError MeshMember) :=
  match co_pending_requests c !! request_id with
  | None => Some (c, Err (UnknownRequest request_id))
  | Some req =>
      let c1 := set_pending c (delete request_id (co_pending_requests c)) in
      if negb (bool_decide (jr_network req = network))
      then Some (set_pending c1 (<[request_id := req]> (co_pending_requests c1)), Err (wrong_network network))
      else if negb (bool_decide (jr_status req = JPending))
      then Some (c1, Err (InvalidRequestState (JoinRequestStatus_fmt (jr_status req)) (JoinRequestStatus_fmt JPending)))
      else
        match admit_member now c1 network (jr_node_id req) (jr_hostname req) with
        | Some (c2, Ok m) =>
            Some (set_resolved c2 (<[request_id := set_status req JApproved]> (co_resolved_requests c2)), Ok m)
        | Some (c2, Err e) => Some (c2, Err e)
        | None => None
        end
  end.

Definition Coordinator_deny_request (c : Coordinator) (network : MeshNetworkId) (request_id : string)
  : Coordinator * result CoordinatorError JoinRequest :=
  match co_pending_requests c !! request_id with
  | None => (c, Err (UnknownRequest request_id))
  | Some req =>
      let c1 := set_pending c (delete request_id (co_pending_requests c)) in
      if negb (bool_decide (jr_network req = network))
      then (set_pending c1 (<[request_id := req]> (co_pending_requests c1)), Err (wrong_network network))
      else
        let req := set_status req JDenied in
        (set_resolved c1 (<[request_id := req]> (co_resolved_requests c1)), Ok req)
  end.

Record CoordinatorSnapshot : Type := mkCoordinatorSnapshot {
  sn_networks : list (MeshNetworkId * MeshPolicy * MeshMembership);
  sn_pending_invites : list (MeshNetworkId * InviteCode);
  sn_pending_requests : list JoinRequest;
  sn_resolved_requests : list JoinRequest
}.

Definition network_for (nets : gmap MeshNetworkId NetworkState) (target : MeshNetworkId) : option MeshNetworkId :=
  match nets !! target with Some _ => Some target | None => None end.

Definition Coordinator_snapshot (c : Coordinator) : CoordinatorSnapshot :=
  mkCoordinatorSnapshot
    ((λ x, (x.1, ns_policy x.2, ns_roster x.2)) <$> map_to_list (co_networks c))
    ((λ i, (default (ic_network_id i) (network_for (co_networks c) (ic_network_id i)), i)) <$> (map_to_list (co_pending_invites c)).*2)
    (map_to_list (co_pending_requests c)).*2
    (map_to_list (co_resolved_requests c)).*2.

(** ** Runs *)

(** The operations that change the state, with their arguments. *)
Inductive CoordOp : Type :=
| OpCreate (now : Z) (network : MeshNetworkId) (display_name : string) (policy : MeshPolicy) (creator : NodeId)
| OpMint (now : Z) (secret : list N) (network : MeshNetworkId) (ttl : option Z)
| OpRedeem (now : Z) (network : MeshNetworkId) (code : string) (member_id : NodeId) (hostname : string)
| OpKick (now : Z) (network : MeshNetworkId) (member_id : NodeId)
| OpRequest (now : Z) (id : string) (network : MeshNetworkId) (member_id : NodeId) (hostname note : string)
| OpAccept (now : Z) (network : MeshNetworkId) (request_id : string)
| OpDeny (network : MeshNetworkId) (request_id : string).

Definition exec (c : Coordinator) (op : CoordOp) : option Coordinator :=
  match op with
  | OpCreate now network name policy creator => fst <$> Coordinator_create now c network name policy creator
  | OpMint now secret network ttl => Some (Coordinator_mint_invite now secret c network ttl).1
  | OpRedeem now network code id host => fst <$> Coordinator_redeem now c network code id host
  | OpKick now network id => Some (Coordinator_kick now c network id).1
  | OpRequest now rid network id host note => Some (Coordinator_request_join now rid c network id host note).1
  | OpAccept now network rid => fst <$> Coordinator_accept_request now c network rid
  | OpDeny network rid => Some (Coordinator_deny_request c network rid).1
  end.

(** Random secrets and request ids are new. *)
Definition op_fresh (c : Coordinator) (op : CoordOp) : Prop :=
  match op with
  | OpMint _ secret network _ => co_pending_invites c !! (network, hex_encode secret) = None
  | OpRequest _ rid _ _ _ _ => co_pending_requests c !! rid = None ∧ co_resolved_requests c !! rid = None
  | _ => True
  end.

Inductive run : Coordinator → list CoordOp → Coordinator → Prop :=
| run_nil c : run c [] c
| run_cons c op c1 ops c2 : op_fresh c op → exec c op = Some c1 → run c1 ops c2 → run c (op :: ops) c2.
End Coordinator.

Section CoordinatorTheorems.
Context `{HX : Hex}.
Implicit Types (c : Coordinator) (net : MeshNetworkId).

(** ** The effect of one operation *)

(** The invite a redemption may use. *)
Definition usable_invite (now : Z) c net (code : string) (i : InviteCode) : Prop :=
  co_pending_invites c !! (net, code) = Some i ∧ (now < ic_expires_at i)%Z ∧ ic_redeemed i = false.

(** Neither the host name nor the node is in the roster. *)
Definition admissible (s : NetworkState) (id : NodeId) (host : string) : Prop :=
  Forall (λ m, mm_hostname m ≠ host ∧ mm_node_id m ≠ id) (ms_members (ns_roster s)).

(** Why an operation may add a member to a network. *)
Definition admission c net (s : NetworkState) (m : MeshMember) (op : CoordOp) : Prop :=
  (∃ now code i, op = OpRedeem now net code (mm_node_id m) (mm_hostname m) ∧ usable_invite now c net code i ∧
     admissible s (mm_node_id m) (mm_hostname m)) ∨
  (∃ now rid req, op = OpAccept now net rid ∧ co_pending_requests c !! rid = Some req ∧ jr_network req = net ∧
     jr_status req = JPending ∧ jr_node_id req = mm_node_id m ∧ jr_hostname req = mm_hostname m).

(** How an operation changes the networks. *)
Inductive net_change c (op : CoordOp) : gmap MeshNetworkId NetworkState → Prop :=
| nc_same : net_change c op (co_networks c)
| nc_create now net name pol creator m :
    op = OpCreate now net name pol creator → co_networks c !! net = None →
    MeshMember_new_coordinator now creator name = Some m →
    net_change c op (<[net := mkNetworkState name pol
      (MeshMembership_bumped now (MeshMembership_new_unsigned now net [m]))]> (co_networks c))
| nc_admit now net s m :
    co_networks c !! net = Some s → MeshMember_new_member now (mm_node_id m) (mm_hostname m) = Some m →
    admission c net s m op →
    net_change c op (<[net := push_member now s m]> (co_networks c))
| nc_kick now net s id :
    op = OpKick now net id → co_networks c !! net = Some s →
    net_change c op (<[net := set_roster s (MeshMembership_bumped now (set_members (ns_roster s)
      (filter (λ m, mm_node_id m ≠ id) (ms_members (ns_roster s)))))]> (co_networks c)).

Lemma existsb_none {A} (f : A → bool) l : existsb f l = false → Forall (λ x, f x = false) l.
Proof. induction l as [|x l IH]; cbn; [constructor|]. intros [? ?]%orb_false_iff. constructor; auto. Qed.

Lemma redeem_check_ok c net id host :
  redeem_check c net id host = Ok tt → ∃ s, co_networks c !! net = Some s ∧ admissible s id host.
Proof.
  unfold redeem_check, check_host_available, check_not_already_member.
  destruct (co_networks c !! net) as [s|]; [|done].
  destruct (existsb (λ m, bool_decide (mm_hostname m = host)) _) eqn:H1; [done|].
  destruct (existsb (λ m, bool_decide (mm_node_id m = id)) _) eqn:H2; [done|]. intros _. exists s. split; [done|].
  apply existsb_none in H1, H2. unfold admissible. rewrite Forall_forall in *. intros m Hm.
  specialize (H1 m Hm). specialize (H2 m Hm). cbn in *. by apply bool_decide_eq_false in H1, H2.
Qed.

Lemma redeem_burn_ok now c net code c1 :
  redeem_burn now c net code = Ok c1 →
  ∃ i, usable_invite now c net code i ∧
    c1 = set_invites c (<[(net, code) := mkInviteCode (ic_network_id i) (ic_code i) (ic_expires_at i) true]> (co_pending_invites c)).
Proof.
  unfold redeem_burn. destruct (co_pending_invites c !! (net, code)) as [i|] eqn:Hi; [|done].
  unfold InviteCode_is_expired. destruct (Z.leb_spec (ic_expires_at i) now); [done|].
  destruct (ic_redeemed i) eqn:Hr; [done|]. intros [= <-]. exists i. by split_and!.
Qed.

Lemma new_member_fields now id host m :
  MeshMember_new_member now id host = Some m → mm_node_id m = id ∧ mm_hostname m = host.
Proof. unfold MeshMember_new_member. destruct (VirtualIp_from_node_id id); [|done]. by intros [= <-]. Qed.

Lemma admit_member_change now c net id host c' r :
  admit_member now c net id host = Some (c', r) →
  (∃ s m, co_networks c !! net = Some s ∧ MeshMember_new_member now id host = Some m ∧ r = Ok m ∧
     c' = set_networks c (<[net := push_member now s m]> (co_networks c))) ∨
  (co_networks c !! net = None ∧ r = Err missing_network ∧ c' = c).
Proof.
  unfold admit_member. destruct (co_networks c !! net) as [s|]; [|intros [= <- <-]; by right].
  destruct (MeshMember_new_member now id host) as [m|]; [|done]. intros [= <- <-]. left. by exists s, m.
Qed.

Lemma exec_networks c op c' : exec c op = Some c' → net_change c op (co_networks c').
Proof.
  destruct op as [now net name pol creator|now secret net ttl|now net code id host|now net id|now rid net id host note|now net rid|net rid]; cbn [exec].
  - unfold Coordinator_create. destruct (co_networks c !! net) eqn:Hn; [intros [= <-]; exact (nc_same c _)|].
    destruct (MeshMember_new_coordinator now creator name) as [m|] eqn:Hm; [|done]. intros [= <-].
    by eapply nc_create.
  - unfold Coordinator_mint_invite. intros [= <-]. destruct (co_networks c !! net) as [s|]; [|exact (nc_same c _)].
    destruct (ns_policy s); exact (nc_same c _).
  - unfold Coordinator_redeem. destruct (redeem_burn now c net code) as [c1|e] eqn:Hb; [|intros [= <-]; exact (nc_same c _)].
    apply redeem_burn_ok in Hb as (i & Hi & ->).
    destruct (redeem_check _ net id host) as [[]|e] eqn:Hc; [|intros [= <-]; exact (nc_same c _)].
    apply redeem_check_ok in Hc as (s & Hs & Ha). cbn [co_networks set_invites] in Hs.
    destruct (admit_member now _ net id host) as [[c2 r]|] eqn:Hm; [|done]. intros [= <-]. cbn [fst].
    apply admit_member_change in Hm as [(s' & m & Hs' & Hm & -> & ->)|(Hn & _)]; [|cbn in Hn; congruence].
    cbn [co_networks set_networks set_invites] in *. destruct (new_member_fields _ _ _ _ Hm) as [<- <-].
    eapply nc_admit; [done|done|]. left. exists now, code, i. split_and!; [done|done|]. congruence.
  - unfold Coordinator_kick. intros [= <-]. destruct (co_networks c !! net) as [s|] eqn:Hs; [|exact (nc_same c _)].
    destruct (Nat.eqb _ _); [exact (nc_same c _)|]. by eapply nc_kick.
  - unfold Coordinator_request_join. intros [= <-]. destruct (co_networks c !! net); [|exact (nc_same c _)].
    destruct (Nat.ltb _ _); [exact (nc_same c _)|]. destruct (Nat.leb _ _); exact (nc_same c _).
  - unfold Coordinator_accept_request. destruct (co_pending_requests c !! rid) as [req|] eqn:Hr; [|intros [= <-]; exact (nc_same c _)].
    case_bool_decide as Hn; cbn [negb]; [|intros [= <-]; exact (nc_same c _)].
    case_bool_decide as Hst; cbn [negb]; [|intros [= <-]; exact (nc_same c _)].
    destruct (admit_member now _ net _ _) as [[c2 r]|] eqn:Hm; [|done].
    apply admit_member_change in Hm as [(s & m & Hs & Hm & -> & ->)|(_ & -> & ->)]; [|intros [= <-]; exact (nc_same c _)].
    intros [= <-]. cbn [co_networks set_networks set_pending set_resolved fst] in *.
    destruct (new_member_fields _ _ _ _ Hm) as [H1 H2]. rewrite <- H1, <- H2 in Hm.
    eapply nc_admit; [done|done|]. right. by exists now, rid, req.
  - unfold Coordinator_deny_request. intros [= <-]. destruct (co_pending_requests c !! rid); [|exact (nc_same c _)].
    destruct (negb _); exact (nc_same c _).
Qed.

(** The same for one network. *)
Inductive net_change_at c (op : CoordOp) net : option NetworkState → Prop :=
| na_same : net_change_at c op net (co_networks c !! net)
| na_create now name pol creator m :
    op = OpCreate now net name pol creator → co_networks c !! net = None →
    MeshMember_new_coordinator now creator name = Some m →
    net_change_at c op net (Some (mkNetworkState name pol
      (MeshMembership_bumped now (MeshMembership_new_unsigned now net [m]))))
| na_admit now s m :
    co_networks c !! net = Some s → MeshMember_new_member now (mm_node_id m) (mm_hostname m) = Some m →
    admission c net s m op → net_change_at c op net (Some (push_member now s m))
| na_kick now s id :
    op = OpKick now net id → co_networks c !! net = Some s →
    net_change_at c op net (Some (set_roster s (MeshMembership_bumped now (set_members (ns_roster s)
      (filter (λ m, mm_node_id m ≠ id) (ms_members (ns_roster s))))))).

Lemma exec_at c op c' net : exec c op = Some c' → net_change_at c op net (co_networks c' !! net).
Proof.
  intros He%exec_networks. remember (co_networks c') as nets eqn:Hn. clear Hn.
  destruct He as [|now net0 name pol creator m Hop Hn Hm|now net0 s m Hs Hm Ha|now net0 s id Hop Hs];
    [apply na_same|..]; (destruct (decide (net0 = net)) as [->|Hne]; [rewrite lookup_insert_eq|rewrite lookup_insert_ne by done; apply na_same]).
  - by eapply na_create.
  - by eapply na_admit.
  - by eapply na_kick.
Qed.

(** ** Admission *)

Lemma sat_succ v : v ≤ u64_max → v ≤ sat_add u64_max v 1 ∧ (v < u64_max → v < sat_add u64_max v 1) ∧ sat_add u64_max v 1 ≤ u64_max.
Proof. unfold sat_add. lia. Qed.

(** C10. Nobody enters a network but by the rules: when an operation leaves a
    member in a roster who was not there before, either it created the network and
    the member is its coordinator, or it redeemed an unexpired, unredeemed invite
    of that network for a node and a host name not in the roster, or it accepted a
    pending request for that network; new members are not coordinators. Networks
    never disappear, roster versions never decrease, and every change of the
    members raises the version until it saturates. *)
Theorem admission_rules c op c' net :
  exec c op = Some c' →
  (∀ s' m, co_networks c' !! net = Some s' → m ∈ ms_members (ns_roster s') →
     (∃ s, co_networks c !! net = Some s ∧ m ∈ ms_members (ns_roster s)) ∨
     (∃ now name pol creator, op = OpCreate now net name pol creator ∧ co_networks c !! net = None ∧
        mm_node_id m = creator ∧ mm_is_coordinator m = true) ∨
     (∃ s, co_networks c !! net = Some s ∧ admission c net s m op ∧ mm_is_coordinator m = false)) ∧
  (∀ s, co_networks c !! net = Some s → ms_version (ns_roster s) ≤ u64_max →
     ∃ s', co_networks c' !! net = Some s' ∧ ms_version (ns_roster s) ≤ ms_version (ns_roster s') ∧
       (ms_members (ns_roster s') ≠ ms_members (ns_roster s) → ms_version (ns_roster s) < u64_max →
          ms_version (ns_roster s) < ms_version (ns_roster s'))).
Proof.
  intros He. apply (exec_at _ _ _ net) in He. remember (co_networks c' !! net) as x eqn:Hx. clear Hx.
  destruct He as [|now name pol creator m0 -> Hn Hm|now s m0 Hs Hm Ha|now s id -> Hs].
  - split; [intros s' m Hs' Hm; left; by exists s'|]. intros s Hs Hv. exists s. by split_and!.
  - split; [|congruence]. intros s' m [= <-] Hin. cbn in Hin. apply list_elem_of_singleton in Hin as ->.
    unfold MeshMember_new_coordinator in Hm. destruct (VirtualIp_from_node_id creator); [|done]. injection Hm as <-.
    right; left. by exists now, name, pol, creator.
  - split.
    + intros s' m [= <-] Hin. cbn in Hin. apply elem_of_app in Hin as [Hin| ->%list_elem_of_singleton]; [left; by exists s|].
      right; right. exists s. split_and!; [done|done|]. unfold MeshMember_new_member in Hm.
      destruct (VirtualIp_from_node_id _); [|done]. by injection Hm as <-.
    + intros s1 Hs1 Hv. rewrite Hs in Hs1. injection Hs1 as <-. eexists. split; [done|]. cbn.
      destruct (sat_succ _ Hv) as (? & ? & _). by split.
  - split.
    + intros s' m [= <-] Hin. cbn in Hin. apply list_elem_of_filter in Hin as [_ Hin]. left. by exists s.
    + intros s1 Hs1 Hv. rewrite Hs in Hs1. injection Hs1 as <-. eexists. split; [done|]. cbn.
      destruct (sat_succ _ Hv) as (? & ? & _). by split.
Qed.

(** ** Invites *)

(** A burnt code stays burnt. *)
Definition burnt c net (code : string) : Prop :=
  ∃ i, co_pending_invites c !! (net, code) = Some i ∧ ic_redeemed i = true.

Lemma exec_burnt c op c' net code :
  op_fresh c op → exec c op = Some c' → burnt c net code → burnt c' net code.
Proof.
  intros Hf He (i & Hi & Hr).
  destruct op as [now net0 name pol creator|now secret net0 ttl|now net0 code0 id host|now net0 id|now rid net0 id host note|now net0 rid|net0 rid]; cbn [exec] in He.
  - unfold Coordinator_create in He. destruct (co_networks c !! net0); [by injection He as <-; exists i|].
    destruct (MeshMember_new_coordinator _ _ _); [|done]. injection He as <-. by exists i.
  - injection He as <-. unfold Coordinator_mint_invite. destruct (co_networks c !! net0) as [s|]; [|by exists i].
    destruct (ns_policy s); [by exists i|]. cbn in Hf. exists i. cbn. rewrite lookup_insert_ne by congruence. done.
  - unfold Coordinator_redeem in He. destruct (redeem_burn now c net0 code0) as [c1|e] eqn:Hb; [|by injection He as <-; exists i].
    apply redeem_burn_ok in Hb as (j & (Hj & _ & Hjr) & ->).
    assert (burnt (set_invites c (<[(net0, code0) := mkInviteCode (ic_network_id j) (ic_code j) (ic_expires_at j) true]> (co_pending_invites c))) net code) as Hb.
    { exists i. cbn. rewrite lookup_insert_ne by congruence. done. }
    destruct (redeem_check _ _ _ _) as [[]|e]; [|by injection He as <-].
    destruct (admit_member _ _ _ _ _) as [[c2 r]|] eqn:Hm; [|done]. injection He as <-. cbn [fst].
    apply admit_member_change in Hm as [(s & m & _ & _ & _ & ->)|(_ & _ & ->)]; exact Hb.
  - injection He as <-. unfold Coordinator_kick. destruct (co_networks c !! net0); [|by exists i].
    destruct (Nat.eqb _ _); by exists i.
  - injection He as <-. unfold Coordinator_request_join. destruct (co_networks c !! net0); [|by exists i].
    destruct (Nat.ltb _ _); [by exists i|]. destruct (Nat.leb _ _); by exists i.
  - unfold Coordinator_accept_request in He. destruct (co_pending_requests c !! rid) as [req|]; [|by injection He as <-; exists i].
    destruct (negb _); [by injection He as <-; exists i|]. destruct (negb _); [by injection He as <-; exists i|].
    destruct (admit_member _ _ _ _ _) as [[c2 [m|e]]|] eqn:Hm; [..|done];
      (injection He as <-; apply admit_member_change in Hm as [(s & m' & _ & _ & _ & ->)|(_ & _ & ->)]; by exists i).
  - injection He as <-. unfold Coordinator_deny_request. destruct (co_pending_requests c !! rid) as [req|]; [|by exists i].
    destruct (negb _); by exists i.
Qed.

Lemma run_burnt c ops c' net code : run c ops c' → burnt c net code → burnt c' net code.
Proof. induction 1; [done|]. eauto using exec_burnt. Qed.

(** C23. An invite is redeemed at most once: once a redemption has got past the
    checks of the code, whether it then admitted the member or failed because the
    host name or the node was taken, every later redemption of the code is
    refused and changes nothing, whatever happens in between. *)
Theorem invite_single_use now c net code i id host c1 r ops c2 :
  usable_invite now c net code i → Coordinator_redeem now c net code id host = Some (c1, r) → run c1 ops c2 →
  ∀ now' id' host', ∃ e, Coordinator_redeem now' c2 net code id' host' = Some (c2, Err e) ∧
    (e = InviteExpired code ∨ e = InviteAlreadyRedeemed code).
Proof.
  intros (Hi & Ht & Hr) Hred Hrun now' id' host'.
  assert (burnt c2 net code) as (j & Hj & Hjr).
  { eapply run_burnt; [exact Hrun|]. unfold Coordinator_redeem, redeem_burn in Hred. rewrite Hi in Hred.
    unfold InviteCode_is_expired in Hred. rewrite (proj2 (Z.leb_gt _ _)), Hr in Hred by done.
    assert (∀ X, co_pending_invites X = <[(net, code) := mkInviteCode (ic_network_id i) (ic_code i) (ic_expires_at i) true]> (co_pending_invites c) →
      burnt X net code) as Hb by (intros X HX'; unfold burnt; rewrite HX'; eexists; split; [apply lookup_insert_eq|done]).
    destruct (redeem_check _ _ _ _) as [[]|e]; [|injection Hred as <- _; by apply Hb].
    apply admit_member_change in Hred as [(s & m & _ & _ & _ & ->)|(_ & _ & ->)]; by apply Hb. }
  unfold Coordinator_redeem, redeem_burn. rewrite Hj. unfold InviteCode_is_expired.
  destruct (Z.leb _ _); [eauto|]. rewrite Hjr. eauto.
Qed.

(** ** Invariants *)

Definition roster_inv net (r : MeshMembership) : Prop :=
  ms_network_id r = net ∧ 2 ≤ ms_version r ≤ u64_max ∧
  Forall (λ m, VirtualIp_from_node_id (mm_node_id m) = Some (mm_virtual_ip m)) (ms_members r).

Record coord_ok c : Prop := {
  ck_rosters net s : co_networks c !! net = Some s → roster_inv net (ns_roster s);
  ck_bound : (size (co_pending_requests c) ≤ cc_max_requests (co_config c))%nat;
  ck_pending rid r : co_pending_requests c !! rid = Some r →
    jr_id r = rid ∧ jr_status r = JPending ∧ (String.length (jr_note r) ≤ cc_max_note_len (co_config c))%nat ∧
    is_Some (co_networks c !! jr_network r) ∧ co_resolved_requests c !! rid = None;
  ck_resolved rid r : co_resolved_requests c !! rid = Some r → jr_id r = rid ∧ jr_status r ≠ JPending
}.

Lemma push_member_inv now net s m :
  roster_inv net (ns_roster s) → VirtualIp_from_node_id (mm_node_id m) = Some (mm_virtual_ip m) →
  roster_inv net (ns_roster (push_member now s m)).
Proof.
  intros (Hn & [H2 Hv] & HF) Hm. destruct (sat_succ _ Hv) as (? & _ & ?). split_and!; cbn; [done|lia|lia|].
  apply Forall_app. by split; [|constructor].
Qed.

Lemma rosters_step c op c' :
  (∀ net s, co_networks c !! net = Some s → roster_inv net (ns_roster s)) → exec c op = Some c' →
  ∀ net s, co_networks c' !! net = Some s → roster_inv net (ns_roster s).
Proof.
  intros Hok He net s' Hs'. apply (exec_at _ _ _ net) in He. rewrite Hs' in He. remember (Some s') as x eqn:Hx.
  destruct He as [|now name pol creator m0 _ Hn Hm|now s m0 Hs Hm _|now s id _ Hs]; [by apply Hok|injection Hx as <-..].
  - unfold MeshMember_new_coordinator in Hm. destruct (VirtualIp_from_node_id creator) eqn:Hv; [|done]. injection Hm as <-.
    split_and!; cbn; [done|by vm_compute|by vm_compute|]. by constructor.
  - apply push_member_inv; [by apply Hok|]. unfold MeshMember_new_member in Hm.
    destruct (VirtualIp_from_node_id (mm_node_id m0)); [|done]. by injection Hm as <-.
  - destruct (Hok _ _ Hs) as (Hn & [H2 Hv] & HF). destruct (sat_succ _ Hv) as (? & _ & ?).
    split_and!; cbn; [done|lia|lia|].
    rewrite Forall_forall in *. intros m [_ Hm]%list_elem_of_filter. by apply HF.
Qed.

Lemma networks_grow c op c' net : exec c op = Some c' → is_Some (co_networks c !! net) → is_Some (co_networks c' !! net).
Proof. intros He Hs. apply (exec_at _ _ _ net) in He. by destruct He; eauto. Qed.

(** How an operation changes the requests. *)
Inductive req_change c (op : CoordOp) : gmap string JoinRequest → gmap string JoinRequest → Prop :=
| rq_same : req_change c op (co_pending_requests c) (co_resolved_requests c)
| rq_add now rid net id host note :
    op = OpRequest now rid net id host note → is_Some (co_networks c !! net) →
    (String.length note ≤ cc_max_note_len (co_config c))%nat →
    (size (co_pending_requests c) < cc_max_requests (co_config c))%nat →
    req_change c op (<[rid := mkJoinRequest rid net id host now JPending note]> (co_pending_requests c)) (co_resolved_requests c)
| rq_drop rid : req_change c op (delete rid (co_pending_requests c)) (co_resolved_requests c)
| rq_resolve rid r st :
    co_pending_requests c !! rid = Some r → st ≠ JPending →
    req_change c op (delete rid (co_pending_requests c)) (<[rid := set_status r st]> (co_resolved_requests c)).

Lemma exec_requests c op c' :
  exec c op = Some c' → req_change c op (co_pending_requests c') (co_resolved_requests c') ∧ co_config c' = co_config c.
Proof.
  destruct op as [now net name pol creator|now secret net ttl|now net code id host|now net id|now rid net id host note|now net rid|net rid]; cbn [exec].
  - unfold Coordinator_create. destruct (co_networks c !! net); [intros [= <-]; split; [apply (rq_same c)|done]|].
    destruct (MeshMember_new_coordinator now creator name); [|done]. intros [= <-]. split; [apply (rq_same c)|done].
  - intros [= <-]. unfold Coordinator_mint_invite. destruct (co_networks c !! net) as [s|]; [|split; [apply (rq_same c)|done]].
    destruct (ns_policy s); (split; [apply (rq_same c)|done]).
  - unfold Coordinator_redeem. destruct (redeem_burn now c net code) as [c1|e] eqn:Hb; [|intros [= <-]; split; [apply (rq_same c)|done]].
    apply redeem_burn_ok in Hb as (i & _ & ->).
    destruct (redeem_check _ net id host) as [[]|e]; [|intros [= <-]; split; [apply (rq_same c)|done]].
    destruct (admit_member now _ net id host) as [[c2 r]|] eqn:Hm; [|done]. intros [= <-]. cbn [fst].
    apply admit_member_change in Hm as [(s & m & _ & _ & _ & ->)|(_ & _ & ->)]; (split; [apply (rq_same c)|done]).
  - intros [= <-]. unfold Coordinator_kick. destruct (co_networks c !! net); [|split; [apply (rq_same c)|done]].
    destruct (Nat.eqb _ _); (split; [apply (rq_same c)|done]).
  - intros [= <-]. unfold Coordinator_request_join. destruct (co_networks c !! net) eqn:Hn; [|split; [apply (rq_same c)|done]].
    destruct (Nat.ltb_spec (cc_max_note_len (co_config c)) (String.length note)); [split; [apply (rq_same c)|done]|].
    destruct (Nat.leb_spec (cc_max_requests (co_config c)) (size (co_pending_requests c))); [split; [apply (rq_same c)|done]|].
    split; [|done]. apply (rq_add c) with (net := net) (id := id) (host := host); [done|by eexists|done|done].
  - unfold Coordinator_accept_request. destruct (co_pending_requests c !! rid) as [req|] eqn:Hr; [|intros [= <-]; split; [apply (rq_same c)|done]].
    case_bool_decide; cbn [negb]; [|intros [= <-]; split; [|done]].
    2: { cbn. rewrite insert_delete_eq, insert_id by done. apply (rq_same c). }
    case_bool_decide; cbn [negb]; [|intros [= <-]; split; [apply (rq_drop c)|done]].
    destruct (admit_member now _ net _ _) as [[c2 [m|e]]|] eqn:Hm; [..|done];
      (intros [= <-]; apply admit_member_change in Hm as [(s & m' & _ & _ & [=] & ->)|(_ & [=] & ->)]); (split; [|done]).
    + by apply (rq_resolve c).
    + apply (rq_drop c).
  - intros [= <-]. unfold Coordinator_deny_request. destruct (co_pending_requests c !! rid) as [req|] eqn:Hr; [|split; [apply (rq_same c)|done]].
    case_bool_decide; cbn [negb]; (split; [|done]); cbn.
    + by apply (rq_resolve c).
    + rewrite insert_delete_eq, insert_id by done. apply (rq_same c).
Qed.

Lemma coord_ok_step c op c' : op_fresh c op → exec c op = Some c' → coord_ok c → coord_ok c'.
Proof.
  intros Hf He [H1 H2 H3 H4]. destruct (exec_requests c op c' He) as [Hq Hcfg]. split.
  - by apply (rosters_step c op).
  - rewrite Hcfg. remember (co_resolved_requests c') as y. destruct Hq as [|now rid net id host note Hop _ _ Hsz|rid|rid r st _ _].
    + done.
    + rewrite map_size_insert. destruct (co_pending_requests c !! rid); cbn; lia.
    + pose proof (map_size_delete rid (co_pending_requests c)) as Hz. rewrite Hz. destruct (_ !! rid); [|done].
      etrans; [apply Nat.le_pred_l|done].
    + pose proof (map_size_delete rid (co_pending_requests c)) as Hz. rewrite Hz. destruct (_ !! rid); [|done].
      etrans; [apply Nat.le_pred_l|done].
  - rewrite Hcfg. intros rid r Hr.
    assert (∀ r, is_Some (co_networks c !! jr_network r) → is_Some (co_networks c' !! jr_network r)) as Hg.
    { intros r0. by apply networks_grow with op. }
    destruct Hq as [|now rid0 net id host note -> Hn Hl _|rid0|rid0 r0 st Hr0 _].
    + destruct (H3 rid r Hr) as (? & ? & ? & ? & ?). split_and!; auto.
    + destruct (decide (rid0 = rid)) as [->|Hne].
      * rewrite lookup_insert_eq in Hr. injection Hr as <-. cbn in *. destruct Hf as [_ Hf].
        split_and!; [done|done|done| |done]. by apply (Hg (mkJoinRequest rid net id host now JPending note)).
      * rewrite lookup_insert_ne in Hr by done. destruct (H3 rid r Hr) as (? & ? & ? & ? & ?). split_and!; auto.
    + apply lookup_delete_Some in Hr as [_ Hr]. destruct (H3 rid r Hr) as (? & ? & ? & ? & ?). split_and!; auto.
    + apply lookup_delete_Some in Hr as [Hne Hr]. destruct (H3 rid r Hr) as (? & ? & ? & ? & ?).
      rewrite lookup_insert_ne by done. split_and!; auto.
  - intros rid r Hr. remember (co_pending_requests c') as y.
    destruct Hq as [|now rid0 net id host note _ _ _ _|rid0|rid0 r0 st Hr0 Hst]; [by apply H4..|].
    destruct (decide (rid0 = rid)) as [->|Hne].
    + rewrite lookup_insert_eq in Hr. injection Hr as <-. destruct (H3 _ _ Hr0) as (? & _). by split.
    + rewrite lookup_insert_ne in Hr by done. by apply H4.
Qed.

Lemma coord_ok_new cfg : coord_ok (Coordinator_new cfg).
Proof. split; [by intros ? ?|cbn; rewrite map_size_empty; lia|by intros ? ?|by intros ? ?]. Qed.

(** C24. In every state the operations reach, each roster carries its network's id,
    a version of at least 2 and, for every member, the virtual address derived
    from its node id; the queue of join requests is within its bound; every queued
    request is pending, within the bound on notes, for an existing network and not
    in the audit record; and every recorded request has been resolved. *)
Theorem coordinator_invariant cfg ops c : run (Coordinator_new cfg) ops c → coord_ok c.
Proof.
  remember (Coordinator_new cfg) as c0 eqn:H0. assert (coord_ok c0) as Hok by (subst; apply coord_ok_new).
  clear H0. induction 1; [done|]. eauto using coord_ok_step.
Qed.

(** ** Uniqueness *)

Definition rosters_nodup c : Prop :=
  ∀ net s, co_networks c !! net = Some s →
    NoDup (mm_hostname <$> ms_members (ns_roster s)) ∧ NoDup (mm_node_id <$> ms_members (ns_roster s)).

Definition is_accept (op : CoordOp) : bool := match op with OpAccept _ _ _ => true | _ => false end.

Lemma nodup_step c op c' : is_accept op = false → exec c op = Some c' → rosters_nodup c → rosters_nodup c'.
Proof.
  intros Ha He Hok net s' Hs'. apply (exec_at _ _ _ net) in He. rewrite Hs' in He. remember (Some s') as x eqn:Hx.
  destruct He as [|now name pol creator m0 _ Hn Hm|now s m0 Hs Hm Hadm|now s id _ Hs]; [by apply (Hok net)|injection Hx as <-..].
  - cbn. split; apply NoDup_singleton.
  - destruct Hadm as [(now' & code & i & _ & _ & HF)|(now' & rid & req & -> & _)]; [|done].
    destruct (Hok _ _ Hs) as [H1 H2]. cbn. rewrite !fmap_app. cbn [fmap list_fmap].
    unfold admissible in HF. rewrite Forall_forall in HF.
    split; apply NoDup_app; (split_and!; [done| |apply NoDup_singleton]);
      intros y Hy Hz%list_elem_of_singleton; subst y; apply list_elem_of_fmap in Hy as (m & He & Hm'); by destruct (HF m Hm').
  - destruct (Hok _ _ Hs) as [H1 H2]. cbn. split; by apply NoDup_fmap_filter.
Qed.

(** As long as no join request is accepted, host names and nodes are unique in
    every roster. Accepting a request skips the check: from a state with a member,
    a pending request for the same node and host name puts it in twice. *)
Theorem rosters_unique cfg ops c :
  run (Coordinator_new cfg) ops c → Forall (λ op, is_accept op = false) ops →
  rosters_nodup c ∧
  (∀ now net s m rid req, co_networks c !! net = Some s → m ∈ ms_members (ns_roster s) →
     co_pending_requests c !! rid = Some req → jr_network req = net → jr_status req = JPending →
     jr_node_id req = mm_node_id m → jr_hostname req = mm_hostname m →
     is_Some (VirtualIp_from_node_id (mm_node_id m)) →
     ∃ c', exec c (OpAccept now net rid) = Some c' ∧ ¬ rosters_nodup c').
Proof.
  intros Hrun HF. split.
  - remember (Coordinator_new cfg) as c0 eqn:H0. assert (rosters_nodup c0) as Hok by (subst; by intros ? ?).
    clear H0. induction Hrun as [|c0 op c1 ops c2 _ He _ IH]; [done|].
    apply Forall_cons in HF as [Hop HF]. apply IH; [done|]. by eapply nodup_step.
  - intros now net s m rid req Hs Hm Hr Hn Hst Hid Hh [ip Hip].
    cbn [exec]. unfold Coordinator_accept_request. rewrite Hr, !bool_decide_true by done. cbn [negb].
    unfold admit_member. cbn [co_networks set_pending]. rewrite Hs. unfold MeshMember_new_member.
    rewrite Hid, Hip. cbn [mbind option_bind fmap option_fmap option_map]. eexists. split; [done|].
    intros Hnd. destruct (Hnd net (push_member now s (mkMeshMember (mm_node_id m) (jr_hostname req) ip false now))) as [_ H2].
    { cbn. apply lookup_insert_eq. }
    cbn in H2. rewrite fmap_app in H2. apply NoDup_app in H2 as (_ & H2 & _).
    apply (H2 (mm_node_id m)); [by apply list_elem_of_fmap_2|by left].
Qed.
End CoordinatorTheorems.

(** ** Witnesses *)

Definition net0 : MeshNetworkId := mkMeshNetworkId "n".

Definition coord0 : Coordinator :=
  default (Coordinator_new CoordinatorConfig_default)
    (exec (HX := hex_ref) (Coordinator_new CoordinatorConfig_default) (OpCreate 0 net0 "home" Closed (sample_id 1))).
Definition coord1 : Coordinator :=
  default coord0 (exec (HX := hex_ref) coord0 (OpMint 0 [1] net0 None)).
Definition code1 : string := "01".
Definition coord2 : Coordinator :=
  default coord1 (exec (HX := hex_ref) coord1 (OpRedeem 5 net0 code1 (sample_id 2) "laptop")).

Lemma run_coord2 :
  run (HX := hex_ref) (Coordinator_new CoordinatorConfig_default)
    [OpCreate 0 net0 "home" Closed (sample_id 1); OpMint 0 [1] net0 None;
     OpRedeem 5 net0 code1 (sample_id 2) "laptop"] coord2.
Proof.
  apply (run_cons _ _ coord0); [exact I|vm_compute; reflexivity|].
  apply (run_cons _ _ coord1); [vm_compute; reflexivity|vm_compute; reflexivity|].
  apply (run_cons _ _ coord2); [exact I|vm_compute; reflexivity|]. apply run_nil.
Qed.

Lemma coordinator_invariant_witness : coord_ok (HX := hex_ref) coord2.
Proof. exact (coordinator_invariant (HX := hex_ref) CoordinatorConfig_default _ coord2 run_coord2). Defined.

Lemma rosters_unique_witness : rosters_nodup coord2.
Proof.
  refine (proj1 (rosters_unique (HX := hex_ref) CoordinatorConfig_default _ coord2 run_coord2 _)).
  repeat (constructor; [reflexivity|]). constructor.
Defined.

Lemma admission_rules_witness :
  ∃ s, co_networks coord2 !! net0 = Some s ∧ length (ms_members (ns_roster s)) = 2%nat ∧
    ∃ s1, co_networks coord1 !! net0 = Some s1 ∧ ms_version (ns_roster s1) ≤ ms_version (ns_roster s).
Proof.
  destruct (co_networks coord1 !! net0) as [s1|] eqn:Hs; [|vm_compute in Hs; discriminate].
  destruct (proj2 (admission_rules (HX := hex_ref) coord1 (OpRedeem 5 net0 code1 (sample_id 2) "laptop") coord2 net0
    ltac:(vm_compute; reflexivity)) s1 Hs) as (s & Hs' & Hv & _).
  - vm_compute in Hs. injection Hs as <-. vm_compute. discriminate.
  - exists s. split; [exact Hs'|]. split; [|exists s1; split; [reflexivity|exact Hv]].
    vm_compute in Hs'. injection Hs' as <-. reflexivity.
Defined.

Lemma invite_single_use_witness :
  ∃ e, Coordinator_redeem (HX := hex_ref) 6 coord2 net0 code1 (sample_id 3) "phone" = Some (coord2, Err e).
Proof.
  destruct (co_pending_invites coord1 !! (net0, code1)) as [i|] eqn:Hi; [|vm_compute in Hi; discriminate].
  destruct (Coordinator_redeem (HX := hex_ref) 5 coord1 net0 code1 (sample_id 2) "laptop") as [[c1 r]|] eqn:Hr;
    [|vm_compute in Hr; discriminate].
  destruct (invite_single_use (HX := hex_ref) 5 coord1 net0 code1 i (sample_id 2) "laptop" c1 r [] coord2) with
    (now' := 6%Z) (id' := sample_id 3) (host' := "phone"%string) as (e & He & _).
  - split; [exact Hi|]. vm_compute in Hi. injection Hi as <-. split; reflexivity.
  - exact Hr.
  - vm_compute in Hr. injection Hr as <- _. apply run_nil.
  - exists e. exact He.
Defined.

(** A redemption that fails on the host name has spent the invite. *)
Lemma failed_redeem_burns_invite :
  match Coordinator_redeem (HX := hex_ref) 5 coord1 net0 code1 (sample_id 2) "home" with
  | Some (c, Err (HostnameTaken _ _)) =>
      match Coordinator_redeem (HX := hex_ref) 6 c net0 code1 (sample_id 2) "laptop" with
      | Some (_, Err (InviteAlreadyRedeemed _)) => true
      | _ => false
      end
  | _ => false
  end = true.
Proof. vm_compute. reflexivity. Qed.

(** Two redemptions whose checks both run before either addition put two members
    with one host name in the roster. *)
Lemma interleaved_redeem_duplicates :
  redeem_check coord1 net0 (sample_id 2) "laptop" = Ok tt ∧ redeem_check coord1 net0 (sample_id 3) "laptop" = Ok tt ∧
  match admit_member (HX := hex_ref) 5 coord1 net0 (sample_id 2) "laptop" with
  | Some (c, _) =>
      match admit_member (HX := hex_ref) 6 c net0 (sample_id 3) "laptop" with
      | Some (c, Ok _) => (λ s, mm_hostname <$> ms_members (ns_roster s)) <$> co_networks c !! net0
      | _ => None
      end
  | None => None
  end = Some ["home"; "laptop"; "laptop"]%string.
Proof. vm_compute. done. Qed.
