(* ===== verification/Peering.v ===== *)
(** * Peering grants between meshes
    ([crates/a3net-mesh-coordinator/src/{peering,peering_sign}.rs])

    The grants a coordinator issues, signs and revokes, their in-memory store and
    the verifier. [issue] looks for the id under the read lock and inserts under
    the write lock, so it is two steps; every other operation of the store is
    one. Ed25519, the JSON of the signed fields and the texts of the errors that
    libraries produce are parameters. Times are nanoseconds since the epoch. *)
From stdpp Require Import prelude strings gmap list.
From Stdlib Require Import NArith ZArith Lia.
From Stdlib Require String.
From S2P Require Import Prelude NodeId ContentHash VirtualIp Mesh Coordinator.

#[local] Open Scope N_scope.

Definition MAX_PEERING_TTL : Z := secs (30 * 24 * 3600).

Definition PeeringGrantId : Type := string.

Inductive PeeringDirection : Type := Bidirectional | SourceToTarget.

#[global] Instance PeeringDirection_eq_dec : EqDecision PeeringDirection.
Proof. solve_decision. Defined.

Definition PeeringDirection_allows (d : PeeringDirection) (source_to_target : bool) : bool :=
  match d with Bidirectional => true | SourceToTarget => source_to_target end.

Record PeeringGrant : Type := mkPeeringGrant {
  pg_grant_id : PeeringGrantId;
  pg_source : MeshNetworkId;
  pg_target : MeshNetworkId;
  pg_grantor : NodeId;
  pg_direction : PeeringDirection;
  pg_cost : N;
  pg_valid_until : Z;
  pg_created_at : Z;
  pg_signature : string
}.

#[global] Instance PeeringGrant_eq_dec : EqDecision PeeringGrant.
Proof. solve_decision. Defined.

Definition default_cost : N := 1.

(** [new_unsigned]; [ttl] is a duration, [now] the clock, [id] the fresh id. *)
Definition PeeringGrant_new_unsigned (now : Z) (id : PeeringGrantId) (source target : MeshNetworkId)
    (grantor : NodeId) (ttl : Z) : result CoordinatorError PeeringGrant :=
  if bool_decide (source = target) then Err PeeringSelfLoop
  else
    let ttl := Z.min ttl MAX_PEERING_TTL in
    Ok (mkPeeringGrant id source target grantor Bidirectional default_cost (now + ttl) now EmptyString).

Definition PeeringGrant_is_expired (now : Z) (g : PeeringGrant) : bool := (pg_valid_until g <=? now)%Z.

Definition PeeringGrant_with_signature (g : PeeringGrant) (signature : string) : PeeringGrant :=
  mkPeeringGrant (pg_grant_id g) (pg_source g) (pg_target g) (pg_grantor g) (pg_direction g) (pg_cost g)
    (pg_valid_until g) (pg_created_at g) signature.

Definition PeeringGrant_permits_direction (g : PeeringGrant) (source_to_target : bool) : bool :=
  PeeringDirection_allows (pg_direction g) source_to_target.

(** ** What is signed *)

Record CanonicalPeeringGrant : Type := mkCanonical {
  cg_grant_id : PeeringGrantId;
  cg_source : MeshNetworkId;
  cg_target : MeshNetworkId;
  cg_grantor : NodeId;
  cg_direction : PeeringDirection;
  cg_cost : N;
  cg_valid_until : Z
}.

Definition canonical_grant (g : PeeringGrant) : CanonicalPeeringGrant :=
  mkCanonical (pg_grant_id g) (pg_source g) (pg_target g) (pg_grantor g) (pg_direction g) (pg_cost g)
    (pg_valid_until g).

(** The JSON of the canonical grant, and reading it. *)
Class GrantJson : Type := {
  grant_to_vec : CanonicalPeeringGrant → list N;
  grant_from_slice : list N → option CanonicalPeeringGrant
}.

(** Documented behaviour: what is written can be read back. *)
Class GrantJsonLaws (J : GrantJson) : Prop := {
  grant_json_roundtrip c : grant_from_slice (grant_to_vec c) = Some c
}.

(** Ed25519: the public key of a secret, signing, and verification, which fails
    with a text for a malformed key and for a wrong signature. *)
Class Ed25519 : Type := {
  ed_public : list N → list N;
  ed_sign : list N → list N → list N;
  ed_from_bytes : list N → result string unit;
  ed_verify : list N → list N → list N → result string unit
}.

(** Documented behaviour: a signature has 64 bytes and verifies under the key of
    its signer. *)
Class Ed25519Laws (E : Ed25519) : Prop := {
  ed_sign_length sk m : length (ed_sign sk m) = 64%nat;
  ed_sign_bytes sk m : bytes_ok (ed_sign sk m);
  ed_public_ok sk : ed_from_bytes (ed_public sk) = Ok tt;
  ed_sign_verify sk m : ed_verify (ed_public sk) m (ed_sign sk m) = Ok tt
}.

Section Peering.
Context `{HX : Hex, HB : Blake3, HJ : GrantJson, HE : Ed25519} (hex_error : string → string).

Definition PeeringGrant_signing_preimage (g : PeeringGrant) : list N := grant_to_vec (canonical_grant g) ++ [0].

Definition PeeringGrant_signing_digest (g : PeeringGrant) : list N :=
  blake3_hash (PeeringGrant_signing_preimage g).

Definition PeeringGrantSigner_sign (secret : list N) (g : PeeringGrant) : PeeringGrant :=
  PeeringGrant_with_signature g (hex_encode (ed_sign secret (PeeringGrant_signing_digest g))).

(** [StaticPubkeyRegistry]. *)
Definition PubkeyRegistry : Type := gmap MeshNetworkId (list N).
Definition registry_register (r : PubkeyRegistry) (network : MeshNetworkId) (pubkey : list N) : PubkeyRegistry :=
  <[network := pubkey]> r.
Definition pubkey_for (r : PubkeyRegistry) (network : MeshNetworkId) : option (list N) := r !! network.

(** [PeeringGrantVerifier::verify]; the registry is any lookup. *)
Definition PeeringGrantVerifier_verify (registry : MeshNetworkId → option (list N)) (now : Z) (g : PeeringGrant)
  : result CoordinatorError unit :=
  if bool_decide (pg_source g = pg_target g) then Err PeeringSelfLoop
  else if String.eqb (pg_signature g) EmptyString then Err (PeeringSignatureInvalid "empty signature")
  else if PeeringGrant_is_expired now g then Err (PeeringExpired (pg_grant_id g) (pg_valid_until g))
  else
    match hex_decode (pg_signature g) with
    | None => Err (PeeringSignatureInvalid ("hex decode: " +:+ hex_error (pg_signature g)))
    | Some sig_bytes =>
        if negb (Nat.eqb (length sig_bytes) 64) then
          Err (PeeringSignatureInvalid ("expected 64 bytes, got " +:+ show_N (N.of_nat (length sig_bytes))))
        else
          match registry (pg_source g) with
          | None => Err (PeeringUnknownCoordinator (net_hex (pg_source g)))
          | Some expected_pubkey =>
              match ed_from_bytes expected_pubkey with
              | Err e => Err (PeeringSignatureInvalid ("malformed pubkey: " +:+ e))
              | Ok _ =>
                  match ed_verify expected_pubkey (PeeringGrant_signing_digest g) sig_bytes with
                  | Err e => Err (PeeringSignatureInvalid ("ed25519 verify: " +:+ e))
                  | Ok _ => Ok tt
                  end
              end
          end
    end.
End Peering.

(** ** The store *)

Definition Peerings : Type := gmap PeeringGrantId PeeringGrant.

(** The first half of [issue], under the read lock: an answer, or the decision to
    insert. *)
Definition issue_check (grants : Peerings) (g : PeeringGrant) : option (result CoordinatorError PeeringGrant) :=
  if bool_decide (pg_source g = pg_target g) then Some (Err PeeringSelfLoop)
  else match grants !! pg_grant_id g with
       | Some existing =>
           if bool_decide (existing = g) then Some (Ok existing)
           else Some (Err (PeeringGrantIdReused (pg_grant_id g)))
       | None => None
       end.

(** The second half, under the write lock. *)
Definition issue_insert (grants : Peerings) (g : PeeringGrant) : Peerings := <[pg_grant_id g := g]> grants.

Definition issue (grants : Peerings) (g : PeeringGrant) : Peerings * result CoordinatorError PeeringGrant :=
  match issue_check grants g with
  | Some r => (grants, r)
  | None => (issue_insert grants g, Ok g)
  end.

Definition attach_signature (grants : Peerings) (id : PeeringGrantId) (signature : string)
  : Peerings * result CoordinatorError PeeringGrant :=
  match grants !! id with
  | None => (grants, Err (UnknownPeeringGrant id))
  | Some g => let g := PeeringGrant_with_signature g signature in (<[id := g]> grants, Ok g)
  end.

(** The order of [values] is that of the hash map; here it is the map's own. *)
Definition list_live (grants : Peerings) (now : Z) : list PeeringGrant :=
  filter (λ g, PeeringGrant_is_expired now g = false) (snd <$> map_to_list grants).

Definition peering_get (grants : Peerings) (id : PeeringGrantId) : option PeeringGrant := grants !! id.

Definition peering_revoke (grants : Peerings) (id : PeeringGrantId) : Peerings * result CoordinatorError unit :=
  (delete id grants, Ok tt).

Definition peering_snapshot (grants : Peerings) (now : Z) : list PeeringGrant := list_live grants now.

(** ** The store's steps

    Calls of [issue] that have looked and not yet inserted are part of the
    state. *)

Inductive peer_step : Peerings * list PeeringGrant → Peerings * list PeeringGrant → Prop :=
| ps_check s w g : issue_check s g = None → peer_step (s, w) (s, g :: w)
| ps_insert s w1 g w2 : peer_step (s, w1 ++ g :: w2) (issue_insert s g, w1 ++ w2)
| ps_attach s w id sig : peer_step (s, w) ((attach_signature s id sig).1, w)
| ps_revoke s w id : peer_step (s, w) ((peering_revoke s id).1, w).

Definition grant_ok (g : PeeringGrant) : Prop := pg_source g ≠ pg_target g.

Record peerings_ok (s : Peerings) : Prop := {
  po_key id g : s !! id = Some g → pg_grant_id g = id;
  po_grant id g : s !! id = Some g → grant_ok g
}.

Lemma issue_check_ok s g : issue_check s g = None → grant_ok g ∧ s !! pg_grant_id g = None.
Proof.
  unfold issue_check. case_bool_decide; [done|]. destruct (s !! _); [by case_bool_decide|done].
Qed.

Lemma peerings_ok_insert s id g :
  peerings_ok s → pg_grant_id g = id → grant_ok g → peerings_ok (<[id := g]> s).
Proof.
  intros [Hk Hg] Hid Hok. split; intros i g' [[<- <-]|[_ ?]]%lookup_insert_Some; eauto.
Qed.

Lemma peer_step_ok st st' :
  peer_step st st' → peerings_ok st.1 ∧ Forall grant_ok st.2 → peerings_ok st'.1 ∧ Forall grant_ok st'.2.
Proof.
  destruct 1 as [s w g Hc|s w1 g w2|s w id sig|s w id]; cbn; intros [Hs Hw].
  - split; [done|]. constructor; [|done]. by apply (issue_check_ok s).
  - apply Forall_app in Hw as [H1 [Hg H2]%Forall_cons]. split; [by apply peerings_ok_insert|by apply Forall_app].
  - split; [|done]. unfold attach_signature. destruct (s !! id) as [g|] eqn:E; [|done]. cbn.
    apply peerings_ok_insert; [done|exact (po_key _ Hs _ _ E)|exact (po_grant _ Hs _ _ E)].
  - split; [|done]. split; intros i g [_ ?]%lookup_delete_Some; [by eapply po_key|by eapply po_grant].
Qed.

Lemma peer_reachable_ok st : rtc peer_step (∅, []) st → peerings_ok st.1 ∧ Forall grant_ok st.2.
Proof.
  revert st. apply (rtc_ind_r (R := peer_step)).
  - cbn. split; [split; by intros ? ? ?%lookup_empty_Some|constructor].
  - intros y z _ Hst IH. by eapply peer_step_ok.
Qed.

(** In every state the store can reach, with calls of [issue] interleaved
    between their two locks: a grant is stored under its own id and never joins a
    mesh to itself; [list_live] lists exactly the stored grants that have not
    expired; a signature is attached to a stored grant only and changes nothing
    else of it; a revoked grant is gone. *)
Theorem peering_store_spec s w now :
  rtc peer_step (∅, []) (s, w) →
  (∀ id g, peering_get s id = Some g → pg_grant_id g = id ∧ pg_source g ≠ pg_target g) ∧
  (∀ g, g ∈ list_live s now ↔ peering_get s (pg_grant_id g) = Some g ∧ (now < pg_valid_until g)%Z) ∧
  (∀ id sig g, peering_get s id = Some g →
     let '(s', r) := attach_signature s id sig in
     r = Ok (PeeringGrant_with_signature g sig) ∧ peering_get s' id = Some (PeeringGrant_with_signature g sig) ∧
     ∀ id', id' ≠ id → peering_get s' id' = peering_get s id') ∧
  (∀ id, peering_get s id = None → ∀ sig, attach_signature s id sig = (s, Err (UnknownPeeringGrant id))) ∧
  (∀ id id', peering_get (peering_revoke s id).1 id' = if decide (id' = id) then None else peering_get s id').
Proof.
  intros Hr. destruct (peer_reachable_ok _ Hr) as [Hs _]. cbn in Hs. unfold peering_get. split_and!.
  - intros id g Hg. split; [by eapply po_key|by eapply po_grant].
  - intros g. unfold list_live. rewrite list_elem_of_filter, list_elem_of_fmap. unfold PeeringGrant_is_expired.
    rewrite Z.leb_gt. split.
    + intros [Hlt ([id g'] & -> & Hin%elem_of_map_to_list)]. cbn in *. by rewrite (po_key _ Hs _ _ Hin).
    + intros [Hg Hlt]. split; [done|]. exists (pg_grant_id g, g).
      split; [done|by apply elem_of_map_to_list].
  - intros id sig g Hg. unfold attach_signature. rewrite Hg. split_and!; [done|by apply lookup_insert_eq|].
    intros id' Hne. by apply lookup_insert_ne.
  - intros id Hn sig. unfold attach_signature. by rewrite Hn.
  - intros id id'. cbn. case_decide as Hd; [subst id'; by apply lookup_delete_eq|by apply lookup_delete_ne].
Qed.

(** [issue] without interference: a grant from a mesh to itself is refused, a
    new id is stored, the same grant again is answered without a change, and
    another grant under a known id is refused without a change. *)
Theorem issue_spec s g :
  match issue s g with
  | (s', Ok g') => g' = g ∧ pg_source g ≠ pg_target g ∧ s' = <[pg_grant_id g := g]> s ∧
                   (s !! pg_grant_id g = None ∨ s !! pg_grant_id g = Some g)
  | (s', Err e) => s' = s ∧
      ((e = PeeringSelfLoop ∧ pg_source g = pg_target g) ∨
       (e = PeeringGrantIdReused (pg_grant_id g) ∧ ∃ g0, s !! pg_grant_id g = Some g0 ∧ g0 ≠ g))
  end.
Proof.
  unfold issue, issue_check. case_bool_decide as Hl; [eauto|].
  destruct (s !! pg_grant_id g) as [g0|] eqn:E.
  - case_bool_decide as Hg; [|eauto 10]. subst g0. split_and!; [done|done| |by right]. symmetry. by apply insert_id.
  - split_and!; [done|done|done|by left].
Qed.

(** Two calls of [issue] with the same id and different grants can both be
    answered [Ok]; the later insertion wins. *)
Lemma issue_race s g g' :
  pg_grant_id g' = pg_grant_id g → issue_check s g = None → issue_check s g' = None →
  rtc peer_step (s, []) (<[pg_grant_id g := g']> s, []).
Proof.
  intros Hid Hg Hg'.
  eapply rtc_l; [by apply (ps_check s [] g)|].
  eapply rtc_l; [by apply (ps_check s [g] g')|].
  eapply rtc_l; [apply (ps_insert s [g'] g [])|]. cbn.
  eapply rtc_l; [apply (ps_insert _ [] g' [])|]. cbn. unfold issue_insert.
  assert (<[pg_grant_id g' := g']> (<[pg_grant_id g := g]> s) = <[pg_grant_id g := g']> s) as ->; [|done].
  rewrite Hid. by apply insert_insert_eq.
Qed.

(** ** Signatures *)

Section Signatures.
Context `{HX : Hex, HB : Blake3, HJ : GrantJson, HE : Ed25519}.
Context {HL : HexLaws HX} {HJL : GrantJsonLaws HJ} {HEL : Ed25519Laws HE} (hex_error : string → string).

Lemma canonical_signature g sig : canonical_grant (PeeringGrant_with_signature g sig) = canonical_grant g.
Proof. done. Qed.

Lemma grant_to_vec_inj c c' : grant_to_vec c = grant_to_vec c' → c = c'.
Proof. intros H. apply (inj Some). by rewrite <- !grant_json_roundtrip, H. Qed.

Lemma signed_decodes sk d :
  String.eqb (hex_encode (ed_sign sk d)) EmptyString = false ∧ hex_decode (hex_encode (ed_sign sk d)) = Some (ed_sign sk d).
Proof.
  split; [|apply hex_decode_encode, ed_sign_bytes].
  destruct (String.eqb_spec (hex_encode (ed_sign sk d)) EmptyString) as [E|]; [|done].
  pose proof (hex_encode_length (ed_sign sk d)) as H. by rewrite E, ed_sign_length in H.
Qed.

Lemma signed_grant_verifies registry now sk g :
  registry (pg_source g) = Some (ed_public sk) → pg_source g ≠ pg_target g → (now < pg_valid_until g)%Z →
  PeeringGrantVerifier_verify hex_error registry now (PeeringGrantSigner_sign sk g) = Ok tt.
Proof.
  intros Hreg Hne Hexp. destruct (signed_decodes sk (PeeringGrant_signing_digest g)) as [Hn Hd].
  unfold PeeringGrantVerifier_verify. cbn [PeeringGrantSigner_sign PeeringGrant_with_signature pg_source pg_target pg_signature].
  rewrite Hn, Hd, bool_decide_false by done.
  rewrite (proj2 (Z.leb_gt _ _) Hexp : PeeringGrant_is_expired now (PeeringGrantSigner_sign sk g) = false).
  rewrite ed_sign_length, Hreg, ed_public_ok. cbn [Nat.eqb negb].
  change (PeeringGrant_signing_digest (PeeringGrantSigner_sign sk g)) with (PeeringGrant_signing_digest g).
  by rewrite ed_sign_verify.
Qed.

(** Everything of a grant but its creation time and signature. *)
Definition same_terms (g g' : PeeringGrant) : Prop :=
  pg_grant_id g = pg_grant_id g' ∧ pg_source g = pg_source g' ∧ pg_target g = pg_target g' ∧
  pg_grantor g = pg_grantor g' ∧ pg_direction g = pg_direction g' ∧ pg_cost g = pg_cost g' ∧
  pg_valid_until g = pg_valid_until g'.

(** A grant signed with the key the registry has for its source verifies
    until it expires. A grant that verifies and carries this signature under the
    same source has the same signed fields (all but the creation time), unless the
    bytes of the two grants collide under BLAKE3 or the signature of the one digest is
    accepted for the other. *)
Theorem grant_signature_binds registry now sk g g' :
  registry (pg_source g) = Some (ed_public sk) → pg_source g ≠ pg_target g →
  (now < pg_valid_until g)%Z → pg_source g' = pg_source g →
  let signed := PeeringGrantSigner_sign sk g in
  PeeringGrantVerifier_verify hex_error registry now signed = Ok tt ∧
  (pg_signature g' = pg_signature signed → PeeringGrantVerifier_verify hex_error registry now g' = Ok tt →
     same_terms g' g ∨ collides (PeeringGrant_signing_preimage g') (PeeringGrant_signing_preimage g) ∨
     PeeringGrant_signing_digest g' ≠ PeeringGrant_signing_digest g ∧
     ed_verify (ed_public sk) (PeeringGrant_signing_digest g') (ed_sign sk (PeeringGrant_signing_digest g)) = Ok tt).
Proof.
  intros Hreg Hne Hexp Hsrc signed.
  destruct (signed_decodes sk (PeeringGrant_signing_digest g)) as [Hn Hd].
  assert (pg_signature signed = hex_encode (ed_sign sk (PeeringGrant_signing_digest g))) as Hsig by done.
  split.
  - by apply signed_grant_verifies.
  - intros Hs. unfold PeeringGrantVerifier_verify. rewrite Hs, Hsig, Hn, Hd, Hsrc, ed_sign_length, Hreg, ed_public_ok.
    case_bool_decide; [done|]. destruct (PeeringGrant_is_expired now g'); [done|]. cbn [Nat.eqb negb].
    destruct (ed_verify _ _ _) as [[]|] eqn:Ev; [|done]. intros _.
    destruct (decide (PeeringGrant_signing_digest g' = PeeringGrant_signing_digest g)) as [He|He];
      [|right; right; by split].
    destruct (decide (PeeringGrant_signing_preimage g' = PeeringGrant_signing_preimage g)) as [Hp|Hp].
    + left. apply app_inv_tail, grant_to_vec_inj in Hp. by injection Hp.
    + right; left. by split.
Qed.

(** What the verifier asks for, on every branch. *)
Theorem verify_grant_iff registry now g :
  PeeringGrantVerifier_verify hex_error registry now g = Ok tt ↔
  pg_source g ≠ pg_target g ∧ (now < pg_valid_until g)%Z ∧
  ∃ sig pk, hex_decode (pg_signature g) = Some sig ∧ pg_signature g ≠ EmptyString ∧ length sig = 64%nat ∧
    registry (pg_source g) = Some pk ∧ ed_from_bytes pk = Ok tt ∧
    ed_verify pk (PeeringGrant_signing_digest g) sig = Ok tt.
Proof.
  unfold PeeringGrantVerifier_verify. split.
  - case_bool_decide; [done|]. destruct (String.eqb_spec (pg_signature g) EmptyString); [done|].
    unfold PeeringGrant_is_expired. destruct (Z.leb_spec (pg_valid_until g) now); [done|].
    destruct (hex_decode _) as [sig|] eqn:Eh; [|done]. destruct (Nat.eqb_spec (length sig) 64); [|done]. cbn [negb].
    destruct (registry _) as [pk|] eqn:Er; [|done]. destruct (ed_from_bytes pk) as [[]|] eqn:Ef; [|done].
    destruct (ed_verify _ _ _) as [[]|] eqn:Ev; [|done]. intros _. split_and!; [done|lia|]. by exists sig, pk.
  - intros (Hne & Hexp & sig & pk & -> & Hs & Hl & -> & -> & ->). rewrite bool_decide_false by done.
    destruct (String.eqb_spec (pg_signature g) EmptyString); [done|].
    unfold PeeringGrant_is_expired. rewrite (proj2 (Z.leb_gt _ _)) by lia. by rewrite Hl.
Qed.

(** The target mesh has no say: the holder of the source's key can sign a grant to
    any other mesh, naming any grantor, and it verifies. *)
Lemma source_grants_itself registry now sk id source target grantor ttl :
  registry source = Some (ed_public sk) → source ≠ target → (0 < ttl)%Z →
  ∃ g, PeeringGrant_new_unsigned now id source target grantor ttl = Ok g ∧
       PeeringGrantVerifier_verify hex_error registry now (PeeringGrantSigner_sign sk g) = Ok tt.
Proof.
  intros Hreg Hne Httl. unfold PeeringGrant_new_unsigned. rewrite bool_decide_false by done. eexists. split; [done|].
  apply signed_grant_verifies; cbn; [done|done|].
  assert (0 < MAX_PEERING_TTL)%Z by (by vm_compute). lia.
Qed.
End Signatures.

(** ** Concrete instances *)

#[global] Instance PeeringDirection_countable : Countable PeeringDirection.
Proof.
  by apply (inj_countable' (λ d, match d with Bidirectional => true | SourceToTarget => false end)
    (λ b : bool, if b then Bidirectional else SourceToTarget)); intros [].
Defined.

#[global] Instance CanonicalPeeringGrant_eq_dec : EqDecision CanonicalPeeringGrant.
Proof. solve_decision. Defined.
#[global] Instance CanonicalPeeringGrant_countable : Countable CanonicalPeeringGrant.
Proof.
  by apply (inj_countable'
    (λ c, (cg_grant_id c, cg_source c, cg_target c, cg_grantor c, cg_direction c, cg_cost c, cg_valid_until c))
    (λ t, let '(a, b, c, d, e, f, g) := t in mkCanonical a b c d e f g)); intros [].
Defined.

#[global] Instance grant_json_ref : GrantJson :=
  {| grant_to_vec c := [Npos (encode c)];
     grant_from_slice bs := match bs with [Npos p] => decode p | _ => None end |}.
#[global] Instance grant_json_ref_laws : GrantJsonLaws grant_json_ref.
Proof. split. intros c. apply decode_encode. Qed.

#[global] Instance ed_ref : Ed25519 :=
  {| ed_public sk := sk;
     ed_sign sk m := (λ b, b mod 256) <$> take 64 (sk ++ m ++ replicate 64 0);
     ed_from_bytes _ := Ok tt;
     ed_verify pk m sig :=
       if bool_decide (sig = (λ b, b mod 256) <$> take 64 (pk ++ m ++ replicate 64 0)) then Ok tt
       else Err "signature error"%string |}.
#[global] Instance ed_ref_laws : Ed25519Laws ed_ref.
Proof.
  split; cbn [ed_sign ed_public ed_verify ed_from_bytes ed_ref]; intros; [| |done|by rewrite bool_decide_true].
  - rewrite length_fmap, length_take, !length_app, length_replicate. lia.
  - apply Forall_fmap, Forall_forall. intros b _. apply N.mod_lt. lia.
Qed.

Definition ex_grant : PeeringGrant :=
  mkPeeringGrant "g" (mkMeshNetworkId "a") (mkMeshNetworkId "b") (mkNodeId "n") SourceToTarget 1 50 0 "".

Lemma ex_grant_stored : rtc peer_step (∅, []) (<["g" := ex_grant]> (∅ : Peerings), []).
Proof.
  eapply rtc_l; [by apply (ps_check ∅ [] ex_grant)|].
  eapply rtc_l; [apply (ps_insert ∅ [] ex_grant [])|]. done.
Qed.

Lemma peering_store_spec_witness :
  ex_grant ∈ list_live (<["g" := ex_grant]> ∅) 49 ∧ ex_grant ∉ list_live (<["g" := ex_grant]> ∅) 50.
Proof.
  destruct (peering_store_spec _ _ 49 ex_grant_stored) as (_ & H49 & _).
  destruct (peering_store_spec _ _ 50 ex_grant_stored) as (_ & H50 & _). split.
  - apply H49. split; [done|by vm_compute].
  - intros [_ H]%H50. by vm_compute in H.
Defined.

Lemma grant_signature_binds_witness :
  let registry := pubkey_for (registry_register ∅ (mkMeshNetworkId "a") [7]) in
  PeeringGrantVerifier_verify (HX := hex_ref) (HB := blake3_ref) (λ s, s) registry 10
    (PeeringGrantSigner_sign (HX := hex_ref) (HB := blake3_ref) [7] ex_grant) = Ok tt.
Proof.
  intros registry.
  apply (grant_signature_binds (HX := hex_ref) (HB := blake3_ref) (λ s, s) registry 10 [7] ex_grant ex_grant);
    [reflexivity|done|by vm_compute|done].
Defined.
