(* ===== verification/Transit.v ===== *)
(** * Transit between meshes ([crates/a3net-exit-node/src/transit.rs, transit_gossip.rs])

    The decision a transit node takes for a packet, against the interface [TransitTopology];
    the static topology; and the topology fed by the peering grants of [Peering], with grants,
    revocations, pruning and reset as the events that change it. The order of a hash map is
    the one of the finite map. Clock readings and the text of an error of the coordinator
    are arguments.

    The theorems show what the decision is for every topology, that the grant-fed topology
    keeps exactly the grants it holds and forwards only along them, and that an accepted grant
    opens the route to its target. *)
From stdpp Require Import prelude strings gmap list sorting.
From Stdlib Require Import NArith ZArith Lia.
From S2P Require Import Prelude NodeId ContentHash Mesh Coordinator Peering.

#[local] Open Scope N_scope.

Record TransitHop : Type := mkTransitHop { th_via_network : MeshNetworkId; th_next_hop : NodeId; th_cost : N }.

#[global] Instance TransitHop_eq_dec : EqDecision TransitHop.
Proof. solve_decision. Defined.

(** What the router asks of a topology. *)
Class TransitTopology (T : Type) : Type := {
  hops_to : T → MeshNetworkId → list TransitHop;
  peered_networks : T → list MeshNetworkId
}.

Notation Paths := (gmap MeshNetworkId (list TransitHop)).

Record StaticTopology : Type := mkStaticTopology { st_paths : Paths; st_peered : list MeshNetworkId }.
Definition StaticTopology_new : StaticTopology := mkStaticTopology ∅ [].

Definition peered_of (paths : Paths) : list MeshNetworkId :=
  fst <$> filter (λ e : MeshNetworkId * list TransitHop, existsb (λ h, th_cost h =? 1) e.2 = true) (map_to_list paths).

Definition set_paths (paths : Paths) : StaticTopology := mkStaticTopology paths (peered_of paths).
Definition paths_table (t : StaticTopology) : Paths := st_paths t.

Definition static_hops_to (t : StaticTopology) (target : MeshNetworkId) : list TransitHop := default [] (st_paths t !! target).
#[global] Instance static_transit : TransitTopology StaticTopology := {| hops_to := static_hops_to; peered_networks := st_peered |}.

(** ** The decision *)

Inductive TransitCapability : Type := Permissive | Strict (allowlist : list NodeId).

Definition permits (c : TransitCapability) (source : NodeId) : bool :=
  match c with Permissive => true | Strict allowlist => existsb (λ n, bool_decide (n = source)) allowlist end.

Inductive TransitDecision : Type :=
  | TdLocal
  | TdForward (via_network : MeshNetworkId) (next_hop : NodeId) (cost : N)
  | TdDrop (reason : string).

Definition is_forward (d : TransitDecision) : bool := match d with TdForward _ _ _ => true | _ => false end.

Record TransitConfig : Type := mkTransitConfig { tc_local_network : MeshNetworkId; tc_capability : TransitCapability }.
Definition TransitConfig_permissive (local : MeshNetworkId) : TransitConfig := mkTransitConfig local Permissive.

Definition cost_leb (a b : TransitHop) : bool := th_cost a <=? th_cost b.

Record TransitSnapshot : Type := mkTransitSnapshot {
  ts_local_network : MeshNetworkId; ts_capability : TransitCapability; ts_peered_networks : list MeshNetworkId
}.

Section Router.
Context `{TT : TransitTopology T}.

(** [source_network] is not consulted. *)
Definition transit_decide (cfg : TransitConfig) (topology : T) (source : NodeId) (source_network target_network : MeshNetworkId) : TransitDecision :=
  if decide (target_network = tc_local_network cfg) then TdLocal
  else if negb (permits (tc_capability cfg) source) then TdDrop ("source " +:+ NodeId_short source +:+ " not in strict allowlist")
  else match sort_by cost_leb (hops_to topology target_network) with
       | [] => TdDrop ("no known path to target network " +:+ MeshNetworkId_short target_network)
       | best :: _ =>
           if th_cost best =? 0 then TdDrop "topology returned cost=0 (reserved)"
           else TdForward (th_via_network best) (th_next_hop best) (th_cost best)
       end.

Definition transit_snapshot (cfg : TransitConfig) (topology : T) : TransitSnapshot :=
  mkTransitSnapshot (tc_local_network cfg) (tc_capability cfg) (peered_networks topology).
End Router.

(** ** The topology fed by grants *)

Record AppliedGrant : Type := mkAppliedGrant {
  ag_grant_id : PeeringGrantId; ag_valid_until : Z; ag_hops : list (MeshNetworkId * TransitHop)
}.

Record GossipTopology : Type := mkGossipTopology {
  gt_inner : StaticTopology; gt_applied : list AppliedGrant; gt_local_node : NodeId; gt_local_network : MeshNetworkId
}.

Definition GossipTopology_new (node : NodeId) (network : MeshNetworkId) : GossipTopology :=
  mkGossipTopology StaticTopology_new [] node network.

Record PeeringRevocation : Type := mkPeeringRevocation { pr_grant_id : PeeringGrantId; pr_source : MeshNetworkId; pr_signature : string }.

Inductive GossipApplyError : Type :=
  | GaSelfLoop | GaUnsigned | GaExpired (grant_id : PeeringGrantId) (valid_until : Z) | GaSignatureInvalid (why : string) | GaUnknownCoordinator (network : string).

(** The test by which hops are recognised: the cost is left out. *)
Definition same_hop (a b : TransitHop) : bool :=
  bool_decide (th_next_hop a = th_next_hop b) && bool_decide (th_via_network a = th_via_network b).

Definition grant_hops (g : PeeringGrant) : list (MeshNetworkId * TransitHop) :=
  (pg_target g, mkTransitHop (pg_source g) (pg_grantor g) (pg_cost g)) ::
  (if PeeringDirection_allows (pg_direction g) false then [(pg_source g, mkTransitHop (pg_target g) (pg_grantor g) (pg_cost g))] else []).

Definition install_hop (paths : Paths) (e : MeshNetworkId * TransitHop) : Paths :=
  let entry := default [] (paths !! e.1) in
  <[e.1 := if existsb (λ h, same_hop h e.2) entry then entry else entry ++ [e.2]]> paths.

Definition remove_hop (paths : Paths) (e : MeshNetworkId * TransitHop) : Paths :=
  match paths !! e.1 with
  | Some list => <[e.1 := filter (λ h, same_hop h e.2 = false) list]> paths
  | None => paths
  end.

Definition drop_empty (paths : Paths) : Paths := filter (λ e : MeshNetworkId * list TransitHop, e.2 ≠ []) paths.

Definition with_paths (t : GossipTopology) (paths : Paths) (applied : list AppliedGrant) : GossipTopology :=
  mkGossipTopology (set_paths paths) applied (gt_local_node t) (gt_local_network t).

Definition observe_revocation (t : GossipTopology) (r : PeeringRevocation) : GossipTopology :=
  let gone := filter (λ a, ag_grant_id a = pr_grant_id r) (gt_applied t) in
  with_paths t (drop_empty (foldl (λ paths a, foldl remove_hop paths (ag_hops a)) (paths_table (gt_inner t)) gone))
    (filter (λ a, ag_grant_id a ≠ pr_grant_id r) (gt_applied t)).

Definition to_applied (g : PeeringGrant) : AppliedGrant := mkAppliedGrant (pg_grant_id g) (pg_valid_until g) (grant_hops g).

Definition apply_grant (t : GossipTopology) (g : PeeringGrant) : GossipTopology :=
  let t := if existsb (λ a, bool_decide (ag_grant_id a = pg_grant_id g)) (gt_applied t)
           then observe_revocation t (mkPeeringRevocation (pg_grant_id g) (pg_source g) EmptyString) else t in
  with_paths t (foldl install_hop (paths_table (gt_inner t)) (grant_hops g)) (gt_applied t ++ [to_applied g]).

Definition observe_grant_at (t : GossipTopology) (g : PeeringGrant) (now : Z) : GossipTopology * result GossipApplyError unit :=
  if decide (pg_source g = pg_target g) then (t, Err GaSelfLoop)
  else if String.eqb (pg_signature g) EmptyString then (t, Err GaUnsigned)
  else if PeeringGrant_is_expired now g then (t, Err (GaExpired (pg_grant_id g) (pg_valid_until g)))
  else (apply_grant t g, Ok ()).

Definition rebuild (applied : list AppliedGrant) : Paths :=
  foldl (λ paths a, foldl (λ paths (e : MeshNetworkId * TransitHop), <[e.1 := default [] (paths !! e.1) ++ [e.2]]> paths) paths (ag_hops a)) ∅ applied.

Definition expired_at (now : Z) (a : AppliedGrant) : bool := (ag_valid_until a <=? now)%Z.

Definition prune_expired_at (t : GossipTopology) (now : Z) : GossipTopology * nat :=
  let applied := filter (λ a, expired_at now a = false) (gt_applied t) in
  let pruned_paths := concat ((λ a, fst <$> ag_hops a) <$> filter (λ a, expired_at now a = true) (gt_applied t)) in
  let pruned := (length (gt_applied t) - length applied)%nat in
  if Nat.ltb 0 pruned
  then (with_paths t (filter (λ e : MeshNetworkId * list TransitHop, e.2 ≠ [] ∧ e.1 ∉ pruned_paths) (rebuild applied)) applied, pruned)
  else (t, pruned).

Definition topology_reset (t : GossipTopology) : GossipTopology := with_paths t ∅ [].
Definition applied_count (t : GossipTopology) : nat := length (gt_applied t).

Definition gossip_hops_to (t : GossipTopology) (target : MeshNetworkId) : list TransitHop := hops_to (gt_inner t) target.
#[global] Instance gossip_transit : TransitTopology GossipTopology := {| hops_to := gossip_hops_to; peered_networks t := peered_networks (gt_inner t) |}.

Section Verified.
Context `{HX : Hex, HB : Blake3, HJ : GrantJson, HE : Ed25519} (hex_error : string → string) (coordinator_text : CoordinatorError → string).

Definition apply_error (e : CoordinatorError) : GossipApplyError :=
  match e with
  | PeeringSelfLoop => GaSelfLoop
  | PeeringSignatureInvalid s => GaSignatureInvalid s
  | PeeringUnknownCoordinator s => GaUnknownCoordinator s
  | PeeringExpired id valid_until => GaExpired id valid_until
  | other => GaSignatureInvalid (coordinator_text other)
  end.

Definition observe_grant_verified (t : GossipTopology) (g : PeeringGrant) (registry : MeshNetworkId → option (list N)) (now : Z) :
  GossipTopology * result GossipApplyError unit :=
  match PeeringGrantVerifier_verify hex_error registry now g with
  | Err e => (t, Err (apply_error e))
  | Ok _ => (apply_grant t g, Ok ())
  end.

(** ** Events *)

Inductive TopoEvent : Type :=
  | GrantSeen (now : Z) (g : PeeringGrant)
  | GrantVerified (now : Z) (registry : MeshNetworkId → option (list N)) (g : PeeringGrant)
  | Revoked (r : PeeringRevocation)
  | Pruned (now : Z)
  | WasReset.

Definition topo_step (t : GossipTopology) (e : TopoEvent) : GossipTopology :=
  match e with
  | GrantSeen now g => (observe_grant_at t g now).1
  | GrantVerified now registry g => (observe_grant_verified t g registry now).1
  | Revoked r => observe_revocation t r
  | Pruned now => (prune_expired_at t now).1
  | WasReset => topology_reset t
  end.

Definition topo_run (t : GossipTopology) (es : list TopoEvent) : GossipTopology := foldl topo_step t es.

(** The grant of an event that passes the checks of its path. *)
Definition accepted_grant (e : TopoEvent) : option PeeringGrant :=
  match e with
  | GrantSeen now g =>
      if bool_decide (pg_source g ≠ pg_target g) && negb (String.eqb (pg_signature g) EmptyString) && negb (PeeringGrant_is_expired now g) then Some g else None
  | GrantVerified now registry g => if is_ok (PeeringGrantVerifier_verify hex_error registry now g) then Some g else None
  | _ => None
  end.

(** The specification: the grants that are held, in the order they were accepted: neither
    replaced nor revoked, pruned or reset. A revocation counts as it is handed in, as the
    code takes it; an expired grant is held until it is pruned. *)
Definition held_step (gs : list PeeringGrant) (e : TopoEvent) : list PeeringGrant :=
  match e with
  | Revoked r => filter (λ g, pg_grant_id g ≠ pr_grant_id r) gs
  | Pruned now => filter (λ g, (now < pg_valid_until g)%Z) gs
  | WasReset => []
  | _ => match accepted_grant e with Some g => filter (λ g', pg_grant_id g' ≠ pg_grant_id g) gs ++ [g] | None => gs end
  end.

Definition held_grants (es : list TopoEvent) : list PeeringGrant := foldl held_step [] es.
End Verified.

(** ** The decision, for every topology *)

Lemma head_sort_first_min l h rest : sort_by cost_leb l = h :: rest →
  ∃ l1 l2, l = l1 ++ h :: l2 ∧ Forall (λ x, th_cost h < th_cost x) l1 ∧ Forall (λ x, th_cost h <= th_cost x) l2.
Proof.
  revert h rest. induction l as [|x l IH]; intros h rest; [done|]. cbn [sort_by foldr]. fold (sort_by cost_leb l).
  destruct (sort_by cost_leb l) as [|y s] eqn:Hs; cbn [insert_sorted].
  - intros [= <- <-]. exists [], l. split_and!; [done|constructor|]. apply (f_equal length) in Hs. rewrite length_sort_by in Hs. by destruct l.
  - destruct (IH y s eq_refl) as (l1 & l2 & -> & H1 & H2). unfold cost_leb at 1. destruct (N.leb_spec (th_cost x) (th_cost y)) as [Hle|Hlt]; intros [= <- <-].
    + exists [], (l1 ++ y :: l2). split_and!; [done|constructor|]. apply Forall_app. split; [|constructor; [done|]]; (eapply Forall_impl; [eassumption|]); cbn; intros; lia.
    + exists (x :: l1), l2. split_and!; [done|by constructor|done].
Qed.

Section Decisions.
Context `{TT : TransitTopology T}.

(** A packet for the own network is local. Any other is forwarded exactly when the source
    is permitted and the first of the cheapest hops to the target has a positive cost, and
    then along that hop; otherwise it is dropped. *)
Theorem transit_decide_spec cfg (t : T) source source_network target :
  match transit_decide cfg t source source_network target with
  | TdLocal => target = tc_local_network cfg
  | TdForward via next cost => target ≠ tc_local_network cfg ∧ permits (tc_capability cfg) source = true ∧ 0 < cost ∧
      ∃ l1 l2, hops_to t target = l1 ++ mkTransitHop via next cost :: l2 ∧
        Forall (λ x, cost < th_cost x) l1 ∧ Forall (λ x, cost <= th_cost x) l2
  | TdDrop _ => target ≠ tc_local_network cfg ∧
      (permits (tc_capability cfg) source = false ∨ hops_to t target = [] ∨ ∃ h, h ∈ hops_to t target ∧ th_cost h = 0)
  end.
Proof.
  unfold transit_decide. destruct (decide _) as [|Hne]; [done|]. destruct (permits _ _); cbn [negb]; [|by auto].
  destruct (sort_by cost_leb (hops_to t target)) as [|[via next cost] rest] eqn:Hs.
  - split; [done|]. right; left. apply (f_equal length) in Hs. rewrite length_sort_by in Hs. by destruct (hops_to t target).
  - destruct (head_sort_first_min _ _ _ Hs) as (l1 & l2 & Hl & H1 & H2). cbn [th_cost th_via_network th_next_hop] in *.
    destruct (N.eqb_spec cost 0) as [->|Hc]; [|split_and!; [done|done|lia|by exists l1, l2]].
    split; [done|]. right; right. eexists (mkTransitHop via next 0). split; [|done]. rewrite Hl. set_solver.
Qed.

Lemma positive_hops_forward cfg (t : T) source source_network target h :
  h ∈ hops_to t target → (∀ h, h ∈ hops_to t target → 0 < th_cost h) → target ≠ tc_local_network cfg → permits (tc_capability cfg) source = true →
  is_forward (transit_decide cfg t source source_network target) = true.
Proof.
  intros Hin Hpos Hne Hp. pose proof (transit_decide_spec cfg t source source_network target) as Hd.
  destruct (transit_decide _ _ _ _ _); [done|done|]. destruct Hd as (_ & [Hn|[Hn|(h0 & H1 & H2)]]); [congruence|rewrite Hn in Hin; set_solver|].
  specialize (Hpos _ H1). lia.
Qed.
End Decisions.

(** ** Path tables *)

Definition path_hops (p : Paths) (t : MeshNetworkId) : list TransitHop := default [] (p !! t).

Lemma same_hop_refl h : same_hop h h = true.
Proof. unfold same_hop. by rewrite !bool_decide_eq_true_2. Qed.

Lemma path_hops_insert p k l t : path_hops (<[k := l]> p) t = if decide (t = k) then l else path_hops p t.
Proof. unfold path_hops. case_decide as Ht; [subst; by rewrite lookup_insert_eq|by rewrite lookup_insert_ne]. Qed.

Lemma elem_install p e t h : h ∈ path_hops (install_hop p e) t → h ∈ path_hops p t ∨ e = (t, h).
Proof.
  unfold install_hop. rewrite path_hops_insert. fold (path_hops p e.1). destruct e as [k x]. cbn [fst snd]. case_decide as Ht; [|by left]. subst k.
  destruct (existsb _ _); [by left|]. rewrite elem_of_app, list_elem_of_singleton. intros [?| ->]; [by left|by right].
Qed.

Lemma install_keeps p e t h : h ∈ path_hops p t → h ∈ path_hops (install_hop p e) t.
Proof.
  unfold install_hop. rewrite path_hops_insert. fold (path_hops p e.1). case_decide as Ht; [|done]. subst t. destruct (existsb _ _); [done|]. set_solver.
Qed.

Lemma install_adds p e : ∃ h, h ∈ path_hops (install_hop p e) e.1 ∧ same_hop h e.2 = true.
Proof.
  unfold install_hop. rewrite path_hops_insert, decide_True by done. fold (path_hops p e.1). destruct (existsb _ _) eqn:Hx.
  - apply existsb_exists in Hx as (h & Hh & Hs). exists h. split; [by apply list_elem_of_In|done].
  - exists e.2. split; [set_solver|apply same_hop_refl].
Qed.

Lemma elem_installs es p t h : h ∈ path_hops (foldl install_hop p es) t → h ∈ path_hops p t ∨ (t, h) ∈ es.
Proof.
  revert p. induction es as [|e es IH]; intros p; cbn [foldl]; [by left|]. intros [Hh|Hh]%IH; [|set_solver]. apply elem_install in Hh as [?| ->]; set_solver.
Qed.

Lemma installs_keep es p t h : h ∈ path_hops p t → h ∈ path_hops (foldl install_hop p es) t.
Proof. revert p. induction es as [|e es IH]; intros p Hh; cbn [foldl]; [done|]. by apply IH, install_keeps. Qed.

Lemma installs_add es p e : e ∈ es → ∃ h, h ∈ path_hops (foldl install_hop p es) e.1 ∧ same_hop h e.2 = true.
Proof.
  revert p. induction es as [|e' es IH]; intros p; [by intros ?%not_elem_of_nil|]. intros [->|He]%elem_of_cons; cbn [foldl]; [|by apply IH].
  destruct (install_adds p e') as (h & Hh & Hs). exists h. split; [by apply installs_keep|done].
Qed.

Lemma elem_remove p e t h : h ∈ path_hops (remove_hop p e) t ↔ h ∈ path_hops p t ∧ ¬ (t = e.1 ∧ same_hop h e.2 = true).
Proof.
  unfold remove_hop. destruct (p !! e.1) as [l|] eqn:Hl.
  - rewrite path_hops_insert. case_decide as Ht; [|naive_solver]. subst t. unfold path_hops. rewrite Hl. cbn [from_option]. unfold id.
    rewrite list_elem_of_filter. destruct (same_hop h e.2); naive_solver.
  - split; [|by intros [? _]]. intros Hh. split; [done|]. intros [-> _]. unfold path_hops in Hh. rewrite Hl in Hh. by apply not_elem_of_nil in Hh.
Qed.

Lemma elem_removes es p t h : h ∈ path_hops (foldl remove_hop p es) t ↔ h ∈ path_hops p t ∧ ∀ e, e ∈ es → ¬ (t = e.1 ∧ same_hop h e.2 = true).
Proof.
  revert p. induction es as [|e es IH]; intros p; cbn [foldl]; [set_solver|]. rewrite IH, elem_remove. setoid_rewrite elem_of_cons. naive_solver.
Qed.

Lemma elem_remove_all gone p t h : h ∈ path_hops (foldl (λ paths a, foldl remove_hop paths (ag_hops a)) p gone) t ↔
  h ∈ path_hops p t ∧ ∀ a e, a ∈ gone → e ∈ ag_hops a → ¬ (t = e.1 ∧ same_hop h e.2 = true).
Proof.
  revert p. induction gone as [|a gone IH]; intros p; cbn [foldl]; [set_solver|]. rewrite IH, elem_removes. setoid_rewrite elem_of_cons. naive_solver.
Qed.

Lemma path_hops_filter (P : MeshNetworkId * list TransitHop → Prop) `{∀ e, Decision (P e)} p t h : h ∈ path_hops (filter P p) t → h ∈ path_hops p t.
Proof.
  unfold path_hops. destruct (filter P p !! t) as [l|] eqn:Hl; cbn [from_option]; [|by intros ?%not_elem_of_nil].
  apply map_lookup_filter_Some in Hl as [-> _]. done.
Qed.

Lemma elem_rebuild_hops es p t h :
  h ∈ path_hops (foldl (λ paths (e : MeshNetworkId * TransitHop), <[e.1 := default [] (paths !! e.1) ++ [e.2]]> paths) p es) t ↔ h ∈ path_hops p t ∨ (t, h) ∈ es.
Proof.
  revert p. induction es as [|[k x] es IH]; intros p; cbn [foldl]; [set_solver|]. rewrite IH, path_hops_insert, elem_of_cons. cbn [fst snd]. fold (path_hops p k).
  case_decide as Ht; [subst k; rewrite elem_of_app, list_elem_of_singleton|]; naive_solver.
Qed.

Lemma elem_rebuild applied t h : h ∈ path_hops (rebuild applied) t ↔ ∃ a, a ∈ applied ∧ (t, h) ∈ ag_hops a.
Proof.
  unfold rebuild. assert (∀ p, h ∈ path_hops (foldl (λ paths a, foldl (λ paths (e : MeshNetworkId * TransitHop), <[e.1 := default [] (paths !! e.1) ++ [e.2]]> paths) paths (ag_hops a)) p applied) t
    ↔ h ∈ path_hops p t ∨ ∃ a, a ∈ applied ∧ (t, h) ∈ ag_hops a) as ->.
  { induction applied as [|a applied IH]; intros p; cbn [foldl]; [set_solver|]. rewrite IH, elem_rebuild_hops. setoid_rewrite elem_of_cons. naive_solver. }
  unfold path_hops at 1. rewrite lookup_empty. cbn [from_option]. set_solver.
Qed.

(** ** The topology and the grants it holds *)

Section Refinement.
Context `{HX : Hex, HB : Blake3, HJ : GrantJson, HE : Ed25519} (hex_error : string → string) (coordinator_text : CoordinatorError → string).
#[local] Notation step := (topo_step hex_error coordinator_text).
#[local] Notation run := (topo_run hex_error coordinator_text).
#[local] Notation held := (held_step hex_error).

Record refines (t : GossipTopology) (gs : list PeeringGrant) : Prop := {
  rf_applied : gt_applied t = to_applied <$> gs;
  rf_unique : NoDup (pg_grant_id <$> gs);
  rf_hops target h : h ∈ hops_to t target → ∃ g, g ∈ gs ∧ (target, h) ∈ grant_hops g
}.

Lemma filter_applied (P : AppliedGrant → Prop) (Q : PeeringGrant → Prop) `{∀ a, Decision (P a), ∀ g, Decision (Q g)} (gs : list PeeringGrant) :
  (∀ g, P (to_applied g) ↔ Q g) → filter P (to_applied <$> gs) = to_applied <$> filter Q gs.
Proof.
  intros HPQ. induction gs as [|g gs IH]; [done|]. cbn [fmap list_fmap]. rewrite !filter_cons. fold (to_applied <$> gs). rewrite IH.
  repeat case_decide; try done; exfalso; naive_solver.
Qed.

Lemma refines_revocation t gs r : refines t gs → refines (observe_revocation t r) (filter (λ g, pg_grant_id g ≠ pr_grant_id r) gs).
Proof.
  intros [Ha Hu Hh]. split; [|by apply NoDup_fmap_filter|].
  - cbn [observe_revocation with_paths gt_applied]. rewrite Ha. by apply filter_applied.
  - intros target h. change (hops_to (observe_revocation t r) target) with (path_hops (drop_empty (foldl (λ paths a, foldl remove_hop paths (ag_hops a))
      (paths_table (gt_inner t)) (filter (λ a, ag_grant_id a = pr_grant_id r) (gt_applied t)))) target).
    intros [Hin Hgone]%path_hops_filter%elem_remove_all. destruct (Hh target h Hin) as (g & Hg & Hgh). exists g. split; [|done].
    apply list_elem_of_filter. split; [|done]. intros Heq. apply (Hgone (to_applied g) (target, h)); [|done|split; [done|apply same_hop_refl]].
    apply list_elem_of_filter. split; [done|]. rewrite Ha. by apply list_elem_of_fmap_2.
Qed.

Lemma held_filter_absent (gs : list PeeringGrant) (id : PeeringGrantId) : (∀ g, g ∈ gs → pg_grant_id g ≠ id) → filter (λ g, pg_grant_id g ≠ id) gs = gs.
Proof. intros Hn. by apply filter_all. Qed.

Lemma refines_apply t gs g : refines t gs → refines (apply_grant t g) (filter (λ g', pg_grant_id g' ≠ pg_grant_id g) gs ++ [g]).
Proof.
  intros Hr. assert (∃ t', apply_grant t g = with_paths t' (foldl install_hop (paths_table (gt_inner t')) (grant_hops g)) (gt_applied t' ++ [to_applied g]) ∧
    refines t' (filter (λ g', pg_grant_id g' ≠ pg_grant_id g) gs)) as (t' & -> & [Ha Hu Hh]).
  { unfold apply_grant. destruct (existsb _ _) eqn:Hx; eexists; (split; [reflexivity|]); [by apply (refines_revocation t gs (mkPeeringRevocation (pg_grant_id g) (pg_source g) EmptyString))|].
    rewrite held_filter_absent; [done|]. intros g' Hg' Heq. apply not_true_iff_false in Hx. apply Hx, existsb_exists. exists (to_applied g').
    split; [rewrite (rf_applied _ _ Hr); by apply list_elem_of_In, list_elem_of_fmap_2|by apply bool_decide_eq_true]. }
  split; [by cbn [with_paths gt_applied]; rewrite Ha, fmap_app| |].
  - rewrite fmap_app. apply NoDup_app. split_and!; [done| |apply NoDup_singleton].
    intros id (g' & -> & [Hne _]%list_elem_of_filter)%list_elem_of_fmap. cbn. by rewrite list_elem_of_singleton.
  - intros target h. change (hops_to (with_paths t' ?p _) target) with (path_hops p target).
    intros [Hin|Hin]%elem_installs; [destruct (Hh target h Hin) as (g' & ? & ?); exists g'|exists g]; set_solver.
Qed.

Lemma refines_prune t gs now : refines t gs → refines (prune_expired_at t now).1 (filter (λ g, (now < pg_valid_until g)%Z) gs).
Proof.
  intros Hr. pose proof Hr as [Ha Hu Hh]. unfold prune_expired_at.
  assert (filter (λ a, expired_at now a = false) (gt_applied t) = to_applied <$> filter (λ g, (now < pg_valid_until g)%Z) gs) as ->.
  { rewrite Ha. apply filter_applied. intros g. unfold expired_at. cbn [to_applied ag_valid_until]. by rewrite Z.leb_gt. }
  destruct (Nat.ltb_spec 0 (length (gt_applied t) - length (to_applied <$> filter (λ g, (now < pg_valid_until g)%Z) gs))) as [Hlt|Hge]; cbn [fst].
  - split; [done|by apply NoDup_fmap_filter|]. intros target h. change (hops_to (with_paths t ?p _) target) with (path_hops p target).
    intros (a & (g & -> & Hg)%list_elem_of_fmap & Hin)%path_hops_filter%elem_rebuild. by exists g.
  - rewrite Ha, !length_fmap in Hge. rewrite filter_same_length; [done|]. pose proof (length_filter (λ g, (now < pg_valid_until g)%Z) gs). lia.
Qed.

Lemma refines_step t gs e : refines t gs → refines (step t e) (held gs e).
Proof.
  intros Hr. destruct e as [now g|now registry g|r|now|]; cbn [topo_step held_step accepted_grant].
  - unfold observe_grant_at. destruct (decide _) as [He|He]; [by rewrite bool_decide_eq_false_2 by (by intros Hx)|]. rewrite bool_decide_eq_true_2 by done.
    destruct (pg_signature g =? EmptyString)%string; [done|]. destruct (PeeringGrant_is_expired now g); [done|]. by apply refines_apply.
  - unfold observe_grant_verified. destruct (PeeringGrantVerifier_verify _ _ _ _); [by apply refines_apply|done].
  - by apply refines_revocation.
  - by apply refines_prune.
  - split; [done|constructor|]. intros target h. change (hops_to (topology_reset t) target) with (path_hops ∅ target). unfold path_hops. rewrite lookup_empty. by intros ?%not_elem_of_nil.
Qed.

Lemma refines_new node network : refines (GossipTopology_new node network) [].
Proof.
  split; [done|constructor|]. intros target h. change (hops_to (GossipTopology_new node network) target) with (path_hops ∅ target).
  unfold path_hops. rewrite lookup_empty. by intros ?%not_elem_of_nil.
Qed.

Lemma refines_run node network es : refines (run (GossipTopology_new node network) es) (held_grants hex_error es).
Proof.
  unfold topo_run, held_grants. pose proof (refines_new node network) as Hr. revert Hr. generalize (GossipTopology_new node network) as t, ([] : list PeeringGrant) as gs.
  induction es as [|e es IH]; intros t gs Hr; cbn [foldl]; [done|]. by apply IH, refines_step.
Qed.

Lemma held_step_sub gs e g : g ∈ held gs e → g ∈ gs ∨ accepted_grant hex_error e = Some g.
Proof.
  destruct e; cbn [held_step]; try destruct (accepted_grant _ _) as [g'|] eqn:Ha; rewrite ?elem_of_app, ?list_elem_of_filter, ?list_elem_of_singleton; set_solver.
Qed.

Lemma held_grants_accepted es g : g ∈ held_grants hex_error es → ∃ e, e ∈ es ∧ accepted_grant hex_error e = Some g.
Proof.
  unfold held_grants. induction es as [|e es IH] using rev_ind; [by intros ?%not_elem_of_nil|]. rewrite foldl_app. cbn [foldl].
  intros [Hg|Hg]%held_step_sub; [destruct (IH Hg) as (e' & ? & ?); exists e'|exists e]; set_solver.
Qed.

Lemma grant_hops_grantor g target h : (target, h) ∈ grant_hops g →
  th_next_hop h = pg_grantor g ∧ th_cost h = pg_cost g ∧
  (target = pg_target g ∧ th_via_network h = pg_source g ∨ target = pg_source g ∧ th_via_network h = pg_target g ∧ pg_direction g = Bidirectional).
Proof.
  unfold grant_hops. rewrite elem_of_cons. destruct (pg_direction g) eqn:Hd; cbn [PeeringDirection_allows]; rewrite ?list_elem_of_singleton;
    (intros [[= -> ->]|Hin]; [naive_solver|]); [|by apply not_elem_of_nil in Hin]. injection Hin as -> ->. naive_solver.
Qed.


(** An accepted grant opens the route: right after it, packets of permitted sources to its
    target are forwarded, if no held grant has the reserved cost 0. *)
Theorem accepted_grant_opens_route node network es e g cfg source source_network :
  accepted_grant hex_error e = Some g → (∀ g', g' ∈ held_grants hex_error (es ++ [e]) → 0 < pg_cost g') →
  pg_target g ≠ tc_local_network cfg → permits (tc_capability cfg) source = true →
  is_forward (transit_decide cfg (run (GossipTopology_new node network) (es ++ [e])) source source_network (pg_target g)) = true.
Proof.
  intros Hacc Hpos Hne Hp. pose proof (refines_run node network (es ++ [e])) as [_ _ Hh]. set (t := run _ (es ++ [e])) in *.
  assert (∃ h, h ∈ hops_to t (pg_target g)) as [h Hin].
  { unfold t, topo_run. rewrite foldl_app. cbn [foldl]. generalize (foldl step (GossipTopology_new node network) es) as t0. intros t0.
    assert (step t0 e = apply_grant t0 g) as ->.
    { destruct e as [now g'|now registry g'|r|now|]; cbn [accepted_grant] in Hacc; try done.
      - cbn [topo_step]. unfold observe_grant_at. case_bool_decide as Hb; [|done]. rewrite decide_False by done.
        destruct (pg_signature g' =? EmptyString)%string; [done|]. destruct (PeeringGrant_is_expired now g'); [done|]. by injection Hacc as ->.
      - cbn [topo_step]. unfold observe_grant_verified. destruct (PeeringGrantVerifier_verify _ _ _ _); [|done]. by injection Hacc as ->. }
    unfold apply_grant. cbv zeta. generalize (if existsb (λ a, bool_decide (ag_grant_id a = pg_grant_id g)) (gt_applied t0)
      then observe_revocation t0 (mkPeeringRevocation (pg_grant_id g) (pg_source g) EmptyString) else t0) as t1. intros t1.
    destruct (installs_add (grant_hops g) (paths_table (gt_inner t1)) (pg_target g, mkTransitHop (pg_source g) (pg_grantor g) (pg_cost g)) ltac:(by left)) as (h & Hh1 & _). by exists h. }
  apply (positive_hops_forward cfg t source source_network (pg_target g) h Hin); [|done|done].
  intros h' Hh'. destruct (Hh _ _ Hh') as (g' & Hg' & Hgh). destruct (grant_hops_grantor _ _ _ Hgh) as (_ & -> & _). by apply Hpos.
Qed.
End Refinement.

(** ** Instances *)

Definition tn (s : string) : MeshNetworkId := mkMeshNetworkId s.
Definition tg (id : string) (source target : string) (grantor : string) (cost : N) (valid_until : Z) : PeeringGrant :=
  mkPeeringGrant id (tn source) (tn target) (mkNodeId grantor) Bidirectional cost valid_until 0 "00".
Definition tr_run (es : list TopoEvent) : GossipTopology := topo_run id (λ _, EmptyString) (GossipTopology_new (mkNodeId "t") (tn "b")) es.
Definition tr_decide (es : list TopoEvent) (target : string) : TransitDecision :=
  transit_decide (TransitConfig_permissive (tn "b")) (tr_run es) (mkNodeId "s") (tn "a") (tn target).


Lemma accepted_grant_opens_route_witness : is_forward (tr_decide [GrantSeen 0 (tg "1" "b" "c" "k" 2 100)] "c") = true.
Proof.
  refine (accepted_grant_opens_route id (λ _, EmptyString) (mkNodeId "t") (tn "b") [] (GrantSeen 0 (tg "1" "b" "c" "k" 2 100)) (tg "1" "b" "c" "k" 2 100)
    (TransitConfig_permissive (tn "b")) (mkNodeId "s") (tn "a") _ _ _ _); [reflexivity| |vm_compute; discriminate|reflexivity].
  vm_compute. intros g Hg. apply list_elem_of_singleton in Hg. subst g. reflexivity.
Defined.

(** Two grants of one coordinator to one target share their hop: revoking one closes the
    route of the other, which stays in force. *)
Example revocation_closes_shared_route :
  let es := [GrantSeen 0 (tg "1" "b" "c" "k" 1 100); GrantSeen 0 (tg "2" "b" "c" "k" 1 100); Revoked (mkPeeringRevocation "1" (tn "b") EmptyString)] in
  held_grants id es = [tg "2" "b" "c" "k" 1 100] ∧ applied_count (tr_run es) = 1%nat ∧ is_forward (tr_decide es "c") = false.
Proof. vm_compute. auto. Qed.

(** Pruning one expired grant closes every route to its networks, those of grants in force
    included. *)
Example pruning_closes_live_route :
  let es := [GrantSeen 0 (tg "1" "b" "c" "k" 1 10); GrantSeen 0 (tg "2" "b" "c" "m" 1 100); Pruned 20] in
  held_grants id es = [tg "2" "b" "c" "m" 1 100] ∧ is_forward (tr_decide es "c") = false.
Proof. vm_compute. auto. Qed.

(** A hop that is known keeps its cost: a cheaper grant of the same coordinator has no effect. *)
Example cheaper_grant_ignored : tr_decide [GrantSeen 0 (tg "1" "b" "c" "k" 9 100); GrantSeen 0 (tg "2" "b" "c" "k" 1 100)] "c" = TdForward (tn "b") (mkNodeId "k") 9.
Proof. vm_compute. reflexivity. Qed.

(** A grant of cost 0 is accepted and stops the forwarding to its target. *)
Example zero_cost_blocks_target : is_forward (tr_decide [GrantSeen 0 (tg "1" "b" "c" "k" 1 100); GrantSeen 0 (tg "2" "b" "c" "m" 0 100)] "c") = false.
Proof. vm_compute. reflexivity. Qed.

(** A grant with a known id replaces it, whoever issued it and whatever it joins. *)
Example foreign_grant_replaces : is_forward (tr_decide [GrantSeen 0 (tg "1" "b" "c" "k" 1 100); GrantSeen 0 (tg "1" "x" "y" "m" 1 100)] "c") = false.
Proof. vm_compute. reflexivity. Qed.
