(* ===== verification/PairingText.v ===== *)
(** * Capabilities and texts of the pairing protocol
    ([crates/a3net-pairing/src/capability.rs, error.rs], the base64url of [wire.rs], the format of [code.rs])

    A set of capabilities is the sorted vector of the source, searched by the halving loop of
    [binary_search]. The reasons of a malformed input are left out of the errors. The text of
    an invitation code is ASCII.

    The theorems show that the sorted vector acts as a set, that base64url reads back what it
    writes, and that the code printed for a hash parses. *)
From stdpp Require Import prelude strings list sorting.
From Stdlib Require Import NArith ZArith Lia Ascii.
From S2P Require Import Prelude NodeId EvmWallet.

#[local] Open Scope N_scope.

Inductive PairingError : Type :=
  | PgMalformed (what : string) | InvitationExpired (expired_at now : Z) | RequestExpired (expired_at now : Z)
  | NonceReplay (nonce_prefix : list N) | NonceMismatch | ClockSkew (max_seconds peer now : Z) | UnsupportedScheme (tag : N)
  | SignatureLength (expected got : nat) | IssuerSignatureInvalid | TransportSignatureInvalid | NodeIdMismatch
  | CapabilityNotGranted (name : string) | DeviceRevoked (id : list N) | DeviceExpired (id : list N) (expired_at : Z) | DeviceNotFound (id : list N)
  | PgStorage.

Inductive ErrorClass : Type := EcRejected | EcExpired | EcFatal.
Definition PairingError_class (e : PairingError) : ErrorClass :=
  match e with
  | PgStorage => EcFatal
  | PgMalformed _ | UnsupportedScheme _ | SignatureLength _ _ | IssuerSignatureInvalid | TransportSignatureInvalid | NodeIdMismatch | CapabilityNotGranted _ => EcRejected
  | InvitationExpired _ _ | RequestExpired _ _ | NonceReplay _ | NonceMismatch | ClockSkew _ _ _ | DeviceRevoked _ | DeviceExpired _ _ | DeviceNotFound _ => EcExpired
  end.

(** ** Capabilities *)

Definition Capability : Type := N.
Definition CHAT : Capability := 1.
Definition FILES_READ : Capability := 16.
Definition FILES_WRITE : Capability := 17.
Definition SYNC : Capability := 32.
Definition PRESENCE : Capability := 48.
Definition GOSSIP_PUBLISH : Capability := 64.
Definition DOCS_READ : Capability := 80.
Definition DOCS_WRITE : Capability := 81.
Definition ALL_KNOWN : Capability := 255.

Definition capability_names : list (Capability * string) :=
  [(CHAT, "chat"); (FILES_READ, "files.read"); (FILES_WRITE, "files.write"); (SYNC, "sync"); (PRESENCE, "presence");
   (GOSSIP_PUBLISH, "gossip.publish"); (DOCS_READ, "docs.read"); (DOCS_WRITE, "docs.write")]%string.

Definition capability_name (c : Capability) : string :=
  match List.find (λ e, fst e =? c) capability_names with Some e => snd e | None => if c =? ALL_KNOWN then "all-known" else "unknown" end.
Definition capability_from_name (name : string) : option Capability := fst <$> List.find (λ e, (snd e =? name)%string) capability_names.
Definition capability_is_known (c : Capability) : bool := negb (capability_name c =? "unknown")%string.

Definition CapabilitySet : Type := list Capability.

(** The loop of [slice::binary_search]: the element found, or where it belongs. *)
Fixpoint bsearch_loop (fuel : nat) (l : list N) (x : N) (base size : nat) : nat :=
  match fuel with
  | O => base
  | S fuel =>
      if Nat.leb size 1 then base
      else
        let half := Nat.div2 size in
        let mid := (base + half)%nat in
        bsearch_loop fuel l x (if x <? nth mid l 0 then base else mid) (size - half)
  end.

Definition binary_search (l : list N) (x : N) : nat + nat :=
  match l with
  | [] => inr 0%nat
  | _ =>
      let base := bsearch_loop (length l) l x 0 (length l) in
      match nth base l 0 ?= x with Eq => inl base | Lt => inr (S base) | Gt => inr base end
  end.

Fixpoint dedup (l : list N) : list N :=
  match l with
  | [] => []
  | x :: l => match dedup l with [] => [x] | y :: r => if x =? y then y :: r else x :: y :: r end
  end.

Definition caps_from_iter (l : list Capability) : CapabilitySet := dedup (sort_by N.leb l).
Definition caps_from_names (l : list string) : CapabilitySet := caps_from_iter (omap capability_from_name l).
Definition caps_insert (c : Capability) (s : CapabilitySet) : CapabilitySet :=
  match binary_search s c with inl _ => s | inr i => take i s ++ c :: drop i s end.
Definition caps_remove (c : Capability) (s : CapabilitySet) : CapabilitySet * bool :=
  match binary_search s c with inl i => (delete i s, true) | inr _ => (s, false) end.
Definition caps_contains (s : CapabilitySet) (c : Capability) : bool := match binary_search s c with inl _ => true | inr _ => false end.
Definition caps_intersects (s t : CapabilitySet) : bool :=
  let '(a, b) := if Nat.leb (length s) (length t) then (s, t) else (t, s) in existsb (caps_contains b) a.

Definition caps_bitmask (s : CapabilitySet) : N :=
  foldl (λ mask c, if c <? 64 then N.lor mask (N.shiftl 1 c) else mask) 0 s.
(** [{:016x}]. *)
Definition caps_canonical (s : CapabilitySet) : string := "caps:" +:+ hex_encode_ref (be_bytes 8 (caps_bitmask s)).

(** ** base64url *)

Definition b64_char (n : N) : ascii :=
  ascii_of_N (if n <? 26 then 65 + n else if n <? 52 then 71 + n else if n <? 62 then n - 4 else if n =? 62 then 45 else 95).

Definition b64_digit (n : N) : ascii := b64_char (N.land n 63).

Fixpoint base64url_encode (bs : list N) : string :=
  match bs with
  | a :: b :: c :: bs =>
      let n := N.lor (N.lor (N.shiftl a 16) (N.shiftl b 8)) c in
      String (b64_digit (N.shiftr n 18)) (String (b64_digit (N.shiftr n 12)) (String (b64_digit (N.shiftr n 6)) (String (b64_digit n) (base64url_encode bs))))
  | [a; b] =>
      let n := N.lor (N.shiftl a 16) (N.shiftl b 8) in
      String (b64_digit (N.shiftr n 18)) (String (b64_digit (N.shiftr n 12)) (String (b64_digit (N.shiftr n 6)) EmptyString))
  | [a] => let n := N.shiftl a 16 in String (b64_digit (N.shiftr n 18)) (String (b64_digit (N.shiftr n 12)) EmptyString)
  | [] => EmptyString
  end.

Definition decode_char (c : ascii) : option N :=
  let n := N_of_ascii c in
  if (65 <=? n) && (n <=? 90) then Some (n - 65)
  else if (97 <=? n) && (n <=? 122) then Some (n - 97 + 26)
  else if (48 <=? n) && (n <=? 57) then Some (n - 48 + 52)
  else if n =? 45 then Some 62 else if n =? 95 then Some 63 else None.

Definition MAX_INPUT_LEN : nat := 2048.

(** The groups of four digits and the rest; [as u8] keeps the low eight bits. *)
Fixpoint base64url_groups (s : list ascii) : option (list N) :=
  match s with
  | [] => Some []
  | c0 :: c1 :: c2 :: c3 :: s =>
      a ← decode_char c0; b ← decode_char c1; c ← decode_char c2; d ← decode_char c3;
      rest ← base64url_groups s;
      Some (N.lor (N.shiftl a 2) (N.shiftr b 4) mod 256 :: N.lor (N.shiftl b 4) (N.shiftr c 2) mod 256 :: N.lor (N.shiftl c 6) d mod 256 :: rest)
  | [c0; c1] => a ← decode_char c0; b ← decode_char c1; Some [N.lor (N.shiftl a 2) (N.shiftr b 4) mod 256]
  | [c0; c1; c2] =>
      a ← decode_char c0; b ← decode_char c1; c ← decode_char c2;
      Some [N.lor (N.shiftl a 2) (N.shiftr b 4) mod 256; N.lor (N.shiftl b 4) (N.shiftr c 2) mod 256]
  | [_] => None
  end.

Definition base64url_decode (s : string) : result PairingError (list N) :=
  if Nat.ltb MAX_INPUT_LEN (String.length s) then Err (PgMalformed "base64url")
  else ok_or (PgMalformed "base64url") (base64url_groups (String.list_ascii_of_string s)).

(** ** Invitation codes *)

Definition CODE_PREFIX : string := "ADNET:".
Definition CODE_SEGMENTS : nat := 4.
Definition SEGMENT_LEN : nat := 4.
Definition CHARSET : list ascii := String.list_ascii_of_string "ABCDEFGHJKLMNPQRSTUVWXYZ23456789".
Definition charset (i : N) : ascii := nth (N.to_nat i) CHARSET "A"%char.

Record InvitationCode : Type := mkInvitationCode { icd_raw : string }.

Definition code_dash : ascii := "-".

(** The segments of sixteen characters. *)
Definition code_of_chars (chars : list ascii) : InvitationCode :=
  mkInvitationCode (str_join code_dash ((λ i : nat, String.string_of_list_ascii (take SEGMENT_LEN (drop (i * SEGMENT_LEN) chars))) <$> seq 0 CODE_SEGMENTS)).

Definition generate_random (indices : list N) : InvitationCode := code_of_chars (charset <$> indices).

Definition code_chars (hash : list N) : list ascii :=
  concat (imap (λ i byte, let i := N.of_nat i in
    [charset (N.lxor (N.shiftr byte 4 mod 32) (i mod 32)); charset (N.lxor (N.land byte 15 mod 32) ((i + 7) mod 32))]) hash).

Definition code_of_hash (hash : list N) : InvitationCode := code_of_chars (code_chars hash).

Definition in_charset (c : ascii) : bool := existsb (Ascii.eqb c) CHARSET.

Definition validate_format (raw : string) : result PairingError unit :=
  let parts := str_split code_dash raw in
  if negb (Nat.eqb (length parts) CODE_SEGMENTS) then Err (PgMalformed "invitation_code")
  else if forallb (λ p, Nat.eqb (String.length p) SEGMENT_LEN && str_forallb in_charset p) parts then Ok () else Err (PgMalformed "invitation_code").

Definition code_display (c : InvitationCode) : string := CODE_PREFIX +:+ icd_raw c.

Fixpoint str_upper (s : string) : string :=
  match s with EmptyString => EmptyString | String c s => String (to_ascii_uppercase c) (str_upper s) end.

Definition code_from_str (s : string) : result PairingError InvitationCode :=
  let s := str_trim s in
  let raw := match str_strip_prefix CODE_PREFIX s with Some r => r | None => default s (str_strip_prefix "a3net:" s) end in
  let upper := str_upper raw in
  let? _ := validate_format upper in
  Ok (mkInvitationCode upper).

(** ** The sorted vector as a set *)

Definition caps_sorted (s : CapabilitySet) : Prop := StronglySorted N.lt s.

Lemma sorted_nth (l : list N) i j : caps_sorted l → (i < j < length l)%nat → nth i l 0 < nth j l 0.
Proof.
  intros Hs. revert i j. induction Hs as [|x l Hs IH Hx]; intros i j Hij; cbn [length] in Hij; [lia|]. destruct j as [|j]; [lia|]. destruct i as [|i]; cbn [nth]; [|apply IH; lia].
  rewrite Forall_forall in Hx. apply Hx, list_elem_of_In, nth_In. lia.
Qed.

Lemma bsearch_loop_spec fuel (l : list N) x base size :
  caps_sorted l → (1 ≤ size ≤ fuel)%nat → (base + size ≤ length l)%nat → base = 0%nat ∨ nth base l 0 <= x →
  (∀ j, (base + size ≤ j < length l)%nat → x < nth j l 0) →
  let b := bsearch_loop fuel l x base size in
  (b < length l)%nat ∧ (b = 0%nat ∨ nth b l 0 <= x) ∧ ∀ j, (b < j < length l)%nat → x < nth j l 0.
Proof.
  intros Hs. revert base size. induction fuel as [|fuel IH]; intros base size Hsz Hb Hlo Hhi; [lia|]. cbn [bsearch_loop]. destruct (Nat.leb_spec size 1).
  { split_and!; [lia|done|]. intros j Hj. apply Hhi. lia. }
  assert (1 ≤ Nat.div2 size ∧ Nat.div2 size ≤ size - Nat.div2 size)%nat as Hh by (pose proof (Nat.div2_odd size) as Ho; destruct (Nat.odd size); unfold Nat.b2n in Ho; lia). destruct (x <? nth (base + Nat.div2 size) l 0) eqn:Hc; [apply N.ltb_lt in Hc as Hlt|apply N.ltb_ge in Hc as Hge]; apply IH; try lia; try done.
  - intros j Hj. destruct (decide (j = (base + Nat.div2 size)%nat)) as [->|Hne]; [done|]. etrans; [exact Hlt|]. apply sorted_nth; [done|]. lia.
  - intros j Hj. apply Hhi. lia.
Qed.

Lemma binary_search_spec (l : list N) x : caps_sorted l →
  match binary_search l x with
  | inl i => l !! i = Some x
  | inr i => (∀ y, y ∈ take i l → y < x) ∧ (∀ y, y ∈ drop i l → x < y)
  end.
Proof.
  intros Hs. unfold binary_search. destruct l as [|a l0] eqn:El; [split; set_solver|]. rewrite <-El in *. assert (1 ≤ length l)%nat as Hlen by (subst; cbn; lia).
  destruct (bsearch_loop_spec (length l) l x 0 (length l) Hs ltac:(lia) ltac:(lia) ltac:(by left) ltac:(intros; lia)) as (Hb & Hlo & Hhi).
  set (b := bsearch_loop _ _ _ _ _) in *. clearbody b.
  assert (∀ i y, l !! i = Some y → nth i l 0 = y) as Hn by (intros i y Hi; by apply nth_lookup_Some).
  destruct (N.compare_spec (nth b l 0) x) as [He|Hlt|Hgt].
  - destruct (lookup_lt_is_Some_2 l b Hb) as [y Hy]. rewrite Hy. by rewrite <-He, (Hn _ _ Hy).
  - split; intros y (i & Hi)%list_elem_of_lookup.
    + apply lookup_take_Some in Hi as [Hi Hib]. rewrite <-(Hn _ _ Hi). destruct (decide (i = b)) as [->|Hne]; [done|]. etrans; [|exact Hlt]. apply sorted_nth; [done|]. lia.
    + rewrite lookup_drop in Hi. rewrite <-(Hn _ _ Hi). apply lookup_lt_Some in Hi. apply Hhi. lia.
  - assert (b = 0%nat) as -> by (destruct Hlo; [done|lia]). split; intros y (i & Hi)%list_elem_of_lookup; [by rewrite take_0 in Hi|].
    rewrite lookup_drop in Hi. cbn [Nat.add] in Hi. rewrite <-(Hn _ _ Hi). apply lookup_lt_Some in Hi. destruct i as [|i]; [done|]. apply Hhi. lia.
Qed.

Lemma caps_contains_spec s c : caps_sorted s → caps_contains s c = true ↔ c ∈ s.
Proof.
  intros Hs. unfold caps_contains. pose proof (binary_search_spec s c Hs) as Hb. destruct (binary_search s c) as [i|i].
  - split; [intros _|done]. apply list_elem_of_lookup. by exists i.
  - split; [done|]. intros Hc. rewrite <-(take_drop i s) in Hc. apply elem_of_app in Hc as [Hc|Hc]; [apply Hb in Hc|apply Hb in Hc]; lia.
Qed.

Lemma sorted_app (l k : list N) (Hl : caps_sorted l) (Hk : caps_sorted k) : (∀ x y, x ∈ l → y ∈ k → x < y) → caps_sorted (l ++ k).
Proof.
  induction Hl as [|x l Hl IH Hx]; intros Hxy; [done|]. cbn [app]. constructor; [apply IH; set_solver|]. apply Forall_app. split; [done|]. apply Forall_forall. set_solver.
Qed.

Lemma sorted_take_drop s i : caps_sorted s → caps_sorted (take i s) ∧ caps_sorted (drop i s).
Proof.
  intros Hs. revert i. induction Hs as [|x s Hs IH Hx]; intros i; [rewrite take_nil, drop_nil; by split; constructor|]. destruct i as [|i]; cbn [take drop]; [by split; constructor|].
  destruct (IH i) as [H1 H2]. split; [|done]. constructor; [done|]. by apply Forall_take.
Qed.

Lemma caps_insert_spec s c : caps_sorted s → caps_sorted (caps_insert c s) ∧ ∀ x, x ∈ caps_insert c s ↔ x = c ∨ x ∈ s.
Proof.
  intros Hs. unfold caps_insert. pose proof (binary_search_spec s c Hs) as Hb. destruct (binary_search s c) as [i|i].
  - split; [done|]. intros x. apply list_elem_of_lookup_2 in Hb. set_solver.
  - destruct Hb as [H1 H2]. destruct (sorted_take_drop s i Hs) as [S1 S2]. split.
    + apply sorted_app; [done|constructor; [done|apply Forall_forall; set_solver]|]. intros x y Hx [->|Hy]%elem_of_cons; [by apply H1|]. specialize (H1 x Hx). specialize (H2 y Hy). lia.
    + intros x. rewrite <-(take_drop i s) at 3. set_solver.
Qed.

Lemma sorted_NoDup s : caps_sorted s → NoDup s.
Proof. intros Hs. induction Hs as [|x s Hs IH Hx]; constructor; [|done]. rewrite Forall_forall in Hx. intros Hin. specialize (Hx x Hin). lia. Qed.

Lemma caps_remove_spec s c : caps_sorted s → caps_sorted (caps_remove c s).1 ∧ (∀ x, x ∈ (caps_remove c s).1 ↔ x ≠ c ∧ x ∈ s) ∧ ((caps_remove c s).2 = true ↔ c ∈ s).
Proof.
  intros Hs. unfold caps_remove. pose proof (binary_search_spec s c Hs) as Hb. pose proof (sorted_NoDup s Hs) as Hnd. destruct (binary_search s c) as [i|i]; cbn [fst snd].
  - split; [by apply StronglySorted_delete|]. pose proof (list_elem_of_lookup_2 _ _ _ Hb) as Hc. split; [|done]. intros x. rewrite (delete_Permutation s i c Hb) in Hnd. apply NoDup_cons in Hnd as [Hni _].
    rewrite (delete_Permutation s i c Hb) at 2. set_solver.
  - assert (c ∉ s) as Hc. { intros Hc. rewrite <-(take_drop i s) in Hc. apply elem_of_app in Hc as [Hc|Hc]; apply Hb in Hc; lia. } split_and!; [done| |done]. intros x. split; [|by intros [_ ?]]. intros Hx. split; [|done]. by intros ->.
Qed.

Lemma dedup_spec l : StronglySorted (λ a b, N.leb a b = true) l → caps_sorted (dedup l) ∧ (∀ x, x ∈ dedup l ↔ x ∈ l) .
Proof.
  intros Hs. induction Hs as [|x l Hs [IH1 IH2] Hx]; [by split; [constructor|]|]. cbn [dedup]. rewrite Forall_forall in Hx. destruct (dedup l) as [|y r] eqn:Hd.
  - assert (l = []) as -> by (destruct l as [|z l]; [done|]; specialize (IH2 z); set_solver). split; [by repeat constructor|set_solver].
  - pose proof (proj1 (IH2 y) ltac:(by left)) as Hy. specialize (Hx y Hy). apply N.leb_le in Hx. destruct (N.eqb_spec x y) as [->|Hne]; [split; [done|]; intros z; rewrite IH2; set_solver|].
    split; [|intros z; rewrite elem_of_cons, IH2; set_solver]. constructor; [done|]. apply StronglySorted_inv in IH1 as [_ Hr]. constructor; [lia|]. eapply Forall_impl; [exact Hr|]. cbn. intros; lia.
Qed.

(** A set of capabilities: the sorted vector acts as the set of its elements. Building
    from a list, inserting and removing keep it sorted and change exactly what they should,
    and the searches answer membership and intersection. *)
Theorem capability_set_spec s t c l :
  caps_sorted s → caps_sorted t →
  (caps_sorted (caps_from_iter l) ∧ ∀ x, x ∈ caps_from_iter l ↔ x ∈ l) ∧
  (caps_sorted (caps_insert c s) ∧ ∀ x, x ∈ caps_insert c s ↔ x = c ∨ x ∈ s) ∧
  (caps_sorted (caps_remove c s).1 ∧ (∀ x, x ∈ (caps_remove c s).1 ↔ x ≠ c ∧ x ∈ s) ∧ ((caps_remove c s).2 = true ↔ c ∈ s)) ∧
  (caps_contains s c = true ↔ c ∈ s) ∧ (caps_intersects s t = true ↔ ∃ x, x ∈ s ∧ x ∈ t).
Proof.
  intros Hs Ht. split_and!; [| |by apply caps_insert_spec|by apply caps_insert_spec|by apply caps_remove_spec|by apply caps_remove_spec|by apply caps_remove_spec|by apply caps_contains_spec|split].
  - apply dedup_spec, sort_by_sorted; intros; rewrite ?N.leb_le in *; lia.
  - intros x. unfold caps_from_iter. rewrite (proj2 (dedup_spec (sort_by N.leb l) ltac:(apply sort_by_sorted; intros; rewrite ?N.leb_le in *; lia))). apply elem_of_sort_by.
  - unfold caps_intersects. destruct (Nat.leb _ _); intros (x & Hx%list_elem_of_In & Hc)%existsb_exists; apply caps_contains_spec in Hc; eauto.
  - intros (x & H1 & H2). unfold caps_intersects. destruct (Nat.leb _ _); apply existsb_exists; exists x; rewrite <-list_elem_of_In, caps_contains_spec; done.
Qed.

(** ** What the canonical form says *)

Lemma bitmask_bits s i : N.testbit (caps_bitmask s) i = true ↔ i < 64 ∧ i ∈ s.
Proof.
  unfold caps_bitmask. assert (∀ mask, N.testbit (foldl (λ mask c, if c <? 64 then N.lor mask (N.shiftl 1 c) else mask) mask s) i = true ↔
    N.testbit mask i = true ∨ i < 64 ∧ i ∈ s) as ->.
  { induction s as [|c s IH]; intros mask; cbn [foldl]; [set_solver|]. rewrite IH, elem_of_cons. destruct (N.ltb_spec c 64).
    - rewrite N.lor_spec, orb_true_iff, N.shiftl_1_l, N.pow2_bits_eqb, N.eqb_eq. naive_solver.
    - split; [naive_solver|]. intros [?|[? [->|?]]]; [by left|lia|by right]. }
  rewrite N.bits_0. naive_solver.
Qed.

Lemma bitmask_bound s : caps_bitmask s < 2 ^ 64.
Proof.
  destruct (N.eq_dec (caps_bitmask s) 0) as [->|Hn]; [done|]. apply N.log2_lt_pow2; [lia|]. destruct (N.lt_ge_cases (N.log2 (caps_bitmask s)) 64) as [|Hge]; [done|].
  pose proof (N.bit_log2 _ Hn) as Hb. apply bitmask_bits in Hb. lia.
Qed.

(** The canonical form of a set, which is what the signatures cover, says which of the
    capabilities below 64 are in it, and nothing about the others: [GOSSIP_PUBLISH],
    [DOCS_READ] and [DOCS_WRITE] are among those. *)
Theorem canonical_below_64 s t : caps_canonical s = caps_canonical t ↔ ∀ c, c < 64 → c ∈ s ↔ c ∈ t.
Proof.
  assert (caps_canonical s = caps_canonical t ↔ caps_bitmask s = caps_bitmask t) as ->.
  { split; [|by unfold caps_canonical; intros ->]. unfold caps_canonical. intros Heq%(inj (String.append "caps:")).
    pose proof (hex_decode_encode (be_bytes 8 (caps_bitmask s)) (be_bytes_ok _ _)) as Hd. change (hex_encode ?x) with (hex_encode_ref x) in Hd.
    rewrite Heq in Hd. change (hex_encode_ref (be_bytes 8 (caps_bitmask t))) with (hex_encode (be_bytes 8 (caps_bitmask t))) in Hd. rewrite hex_decode_encode in Hd by apply be_bytes_ok.
    apply (inj Some) in Hd. symmetry. apply (be_bytes_inj 8); [apply bitmask_bound|apply bitmask_bound|done]. }
  split.
  - intros Heq c Hc. pose proof (bitmask_bits s c) as H1. pose proof (bitmask_bits t c) as H2. rewrite Heq in H1. naive_solver.
  - intros Hc. apply N.bits_inj. intros i. apply eq_true_iff_eq. rewrite !bitmask_bits. naive_solver.
Qed.

(** ** base64url *)

Lemma decode_b64_digit n : decode_char (b64_digit n) = Some (n mod 64).
Proof.
  unfold b64_digit. change 63 with (N.ones 6). rewrite N.land_ones. change (2 ^ 6) with 64. pose proof (N.mod_lt n 64 ltac:(done)) as Hn. generalize dependent (n mod 64). intros d Hd.
  pose proof (N_check (λ d, bool_decide (decode_char (b64_char d) = Some d)) 64 eq_refl d Hd) as Hc. by apply bool_decide_eq_true in Hc.
Qed.

(** Three bytes as four digits and back. *)
Lemma b64_group a b c : a < 256 → b < 256 → c < 256 →
  let n := N.lor (N.lor (N.shiftl a 16) (N.shiftl b 8)) c in
  N.shiftr n 18 mod 64 = a / 4 ∧ N.shiftr n 12 mod 64 = a mod 4 * 16 + b / 16 ∧ N.shiftr n 6 mod 64 = b mod 16 * 4 + c / 64 ∧ n mod 64 = c mod 64.
Proof.
  intros Ha Hb Hc n. assert (n = a * 65536 + b * 256 + c) as ->.
  { unfold n. rewrite N.lor_comm. rewrite (N.lor_comm (N.shiftl a 16)). replace (N.shiftl a 16) with (N.shiftl (N.shiftl a 8) 8) by (by rewrite N.shiftl_shiftl).
    rewrite <-N.shiftl_lor. rewrite lor_shiftl_add by done. rewrite lor_shiftl_add by done. change (2 ^ 8) with 256. lia. }
  rewrite !N.shiftr_div_pow2. change (2 ^ 18) with 262144. change (2 ^ 12) with 4096. change (2 ^ 6) with 64.
  split_and!; zify; Z.to_euclidean_division_equations; lia.
Qed.

Lemma b64_bytes a b c : a < 256 → b < 256 → c < 256 →
  N.lor (N.shiftl (a / 4) 2) (N.shiftr (a mod 4 * 16 + b / 16) 4) mod 256 = a ∧
  N.lor (N.shiftl (a mod 4 * 16 + b / 16) 4) (N.shiftr (b mod 16 * 4 + c / 64) 2) mod 256 = b ∧
  N.lor (N.shiftl (b mod 16 * 4 + c / 64) 6) (c mod 64) mod 256 = c.
Proof.
  intros Ha Hb Hc. rewrite !N.shiftr_div_pow2. change (2 ^ 4) with 16. change (2 ^ 2) with 4.
  rewrite (N.lor_comm (N.shiftl (a / 4) 2)), (N.lor_comm (N.shiftl (a mod 4 * 16 + b / 16) 4)), (N.lor_comm (N.shiftl (b mod 16 * 4 + c / 64) 6)).
  rewrite !lor_shiftl_add.
  - change (2 ^ 2) with 4. change (2 ^ 4) with 16. change (2 ^ 6) with 64. split_and!; zify; Z.to_euclidean_division_equations; lia.
  - change (2 ^ 6) with 64. by apply N.mod_lt.
  - change (2 ^ 4) with 16. zify; Z.to_euclidean_division_equations; lia.
  - change (2 ^ 2) with 4. zify; Z.to_euclidean_division_equations; lia.
Qed.

Lemma base64url_groups_encode bs : bytes_ok bs → base64url_groups (String.list_ascii_of_string (base64url_encode bs)) = Some bs.
Proof.
  remember (length bs) as n eqn:Hn. revert bs Hn. induction n as [n IH] using lt_wf_ind. intros bs -> Hok.
  destruct bs as [|a [|b [|c bs]]]; [done| | |].
  - apply Forall_cons in Hok as [Ha _]. destruct (b64_group a 0 0 Ha ltac:(done) ltac:(done)) as (G1 & G2 & _). cbn zeta in G1, G2. change (N.shiftl 0 8) with 0 in G1, G2.
    rewrite !N.lor_0_r in G1, G2. cbn [base64url_encode String.list_ascii_of_string base64url_groups]. rewrite !decode_b64_digit. cbn [mbind option_bind]. rewrite G1, G2.
    by rewrite (proj1 (b64_bytes a 0 0 Ha ltac:(done) ltac:(done))).
  - apply Forall_cons in Hok as [Ha [Hb _]%Forall_cons]. destruct (b64_group a b 0 Ha Hb ltac:(done)) as (G1 & G2 & G3 & _). cbn zeta in G1, G2, G3. rewrite !N.lor_0_r in G1, G2, G3.
    cbn [base64url_encode String.list_ascii_of_string base64url_groups]. rewrite !decode_b64_digit. cbn [mbind option_bind]. rewrite G1, G2, G3.
    destruct (b64_bytes a b 0 Ha Hb ltac:(done)) as (B1 & B2 & _). by rewrite B1, B2.
  - apply Forall_cons in Hok as [Ha [Hb [Hc Hbs]%Forall_cons]%Forall_cons]. destruct (b64_group a b c Ha Hb Hc) as (G1 & G2 & G3 & G4). cbn zeta in G1, G2, G3, G4.
    cbn [base64url_encode String.list_ascii_of_string base64url_groups]. rewrite !decode_b64_digit. cbn [mbind option_bind]. rewrite (IH (length bs)) by (done || cbn; lia). cbn [mbind option_bind].
    rewrite G1, G2, G3, G4. destruct (b64_bytes a b c Ha Hb Hc) as (B1 & B2 & B3). by rewrite B1, B2, B3.
Qed.

(** base64url: what is encoded decodes to the same bytes, as long as the text is within
    the 2048 characters the decoder accepts. *)
Theorem base64url_roundtrip bs :
  bytes_ok bs → (String.length (base64url_encode bs) ≤ MAX_INPUT_LEN)%nat → base64url_decode (base64url_encode bs) = Ok bs.
Proof.
  intros Hok Hlen. unfold base64url_decode. rewrite (proj2 (Nat.ltb_ge _ _)) by done. by rewrite base64url_groups_encode.
Qed.

(** ** Codes *)

Lemma charset_in i : in_charset (charset i) = true.
Proof.
  unfold in_charset. apply existsb_exists. exists (charset i). split; [|by apply Ascii.eqb_eq]. unfold charset.
  destruct (Nat.lt_ge_cases (N.to_nat i) (length CHARSET)); [by apply nth_In|]. rewrite nth_overflow by done. by left.
Qed.

Lemma charset_facts c : in_charset c = true → Ascii.eqb c code_dash = false ∧ is_ws c = false ∧ to_ascii_uppercase c = c.
Proof.
  intros Hc. pose proof (ascii_check (λ c, implb (in_charset c) (negb (Ascii.eqb c code_dash) && negb (is_ws c) && Ascii.eqb (to_ascii_uppercase c) c)) eq_refl c) as Hall.
  cbn beta in Hall. rewrite Hc in Hall. apply andb_true_iff in Hall as [[H1 H2]%andb_true_iff H3%Ascii.eqb_eq]. by apply negb_true_iff in H1, H2.
Qed.

Lemma forallb_string_of_list (p : ascii → bool) l : Forall (λ c, p c = true) l → str_forallb p (String.string_of_list_ascii l) = true.
Proof. induction 1 as [|c l Hc Hl IH]; [done|]. cbn [String.string_of_list_ascii str_forallb]. by rewrite Hc. Qed.

Lemma str_upper_id s : str_forallb (λ c, Ascii.eqb (to_ascii_uppercase c) c) s = true → str_upper s = s.
Proof. induction s as [|c s IH]; [done|]. cbn [str_forallb str_upper]. intros [->%Ascii.eqb_eq Hs]%andb_true_iff. by rewrite IH. Qed.

(** The segments of sixteen characters of the set. *)
Lemma code_segments chars : (16 ≤ length chars)%nat → Forall (λ c, in_charset c = true) chars →
  Forall (λ p, String.length p = SEGMENT_LEN ∧ str_forallb in_charset p = true)
    ((λ i : nat, String.string_of_list_ascii (take SEGMENT_LEN (drop (i * SEGMENT_LEN) chars))) <$> seq 0 CODE_SEGMENTS).
Proof.
  intros Hlen Hc. apply Forall_fmap, Forall_forall. intros i Hi%elem_of_seq. cbn. unfold SEGMENT_LEN, CODE_SEGMENTS in *.
  split; [rewrite length_string_of_list, length_take, length_drop; lia|]. by apply forallb_string_of_list, Forall_take, Forall_drop.
Qed.

Lemma code_parse_display chars : (16 ≤ length chars)%nat → Forall (λ c, in_charset c = true) chars → code_from_str (code_display (code_of_chars chars)) = Ok (code_of_chars chars).
Proof.
  intros Hlen Hc. pose proof (code_segments chars Hlen Hc) as Hseg. unfold code_from_str, code_display, code_of_chars in *. cbn [icd_raw].
  set (parts := _ <$> seq 0 CODE_SEGMENTS) in *. assert (length parts = CODE_SEGMENTS) as Hpl by (unfold parts; by rewrite length_fmap, length_seq). clearbody parts.
  assert (parts ≠ []) as Hne by (by destruct parts).
  assert (∀ p : ascii → bool, p code_dash = true → (∀ c, in_charset c = true → p c = true) → str_forallb p (str_join code_dash parts) = true) as Hall.
  { intros p Hd Hp. clear -Hseg Hd Hp. induction Hseg as [|s l [_ Hs] Hl IH]; [done|]. assert (str_forallb p s = true) as Hs' by (eapply str_forallb_impl; eauto).
    destruct l as [|s' l]; [done|]. change (str_join code_dash (s :: s' :: l)) with (String.append s (String code_dash (str_join code_dash (s' :: l)))).
    rewrite str_forallb_app, Hs'. cbn [str_forallb andb]. by rewrite Hd. }
  rewrite str_trim_id.
  2: { rewrite str_forallb_app. apply andb_true_iff. split; [done|]. apply Hall; [done|]. intros c Hcc. by destruct (charset_facts c Hcc) as (_ & -> & _). }
  change (str_strip_prefix CODE_PREFIX (CODE_PREFIX +:+ str_join code_dash parts)) with (Some (str_join code_dash parts)). cbv iota.
  rewrite str_upper_id. 2: { apply Hall; [done|]. intros c Hcc. destruct (charset_facts c Hcc) as (_ & _ & ->). by apply Ascii.eqb_eq. }
  unfold validate_format. rewrite str_split_join; [|done|].
  2: { eapply Forall_impl; [exact Hseg|]. intros s [_ Hs]. eapply str_forallb_impl; [|exact Hs]. intros c Hcc. by destruct (charset_facts c Hcc) as (-> & _). }
  rewrite Hpl. cbn [Nat.eqb negb CODE_SEGMENTS].
  assert (forallb (λ p, Nat.eqb (String.length p) SEGMENT_LEN && str_forallb in_charset p) parts = true) as ->; [|done].
  apply forallb_forall. intros s Hs%list_elem_of_In. rewrite Forall_forall in Hseg. destruct (Hseg s Hs) as [-> ->]. done.
Qed.

Lemma sum_pairs (f : nat → N → list ascii) (l : list N) : (∀ i b, length (f i b) = 2%nat) → sum_list (length <$> imap f l) = (2 * length l)%nat.
Proof.
  revert f. induction l as [|b l IH]; intros f Hf; [done|]. cbn [imap fmap list_fmap sum_list length]. rewrite Hf. specialize (IH (f ∘ S) ltac:(intros; apply Hf)). etrans; [exact (f_equal (Nat.add 2) IH)|lia].
Qed.

(** The code of an invitation: the code made from a hash of at least eight bytes, and any
    random code, prints to a text that parses back to it. *)
Theorem invitation_code_roundtrip hash indices :
  (8 ≤ length hash)%nat → length indices = 16%nat →
  code_from_str (code_display (code_of_hash hash)) = Ok (code_of_hash hash) ∧ code_from_str (code_display (generate_random indices)) = Ok (generate_random indices).
Proof.
  intros Hh Hi. split.
  - apply code_parse_display.
    + unfold code_chars. rewrite length_concat, sum_pairs; [lia|done].
    + unfold code_chars. apply Forall_concat, Forall_forall. intros l (i & b & -> & _)%elem_of_lookup_imap_1. repeat constructor; apply charset_in.
  - apply code_parse_display; [by rewrite length_fmap, Hi|]. apply Forall_fmap, Forall_forall. intros i _. apply charset_in.
Qed.

(** ** Instances *)

Lemma capability_set_spec_witness : caps_contains [CHAT; SYNC] SYNC = true.
Proof.
  assert (caps_sorted [CHAT; SYNC]) as Hs by (repeat constructor; vm_compute; reflexivity).
  refine (proj2 (proj1 (proj2 (proj2 (proj2 (capability_set_spec [CHAT; SYNC] [CHAT; SYNC] SYNC [] Hs Hs))))) _). set_solver.
Defined.

Lemma base64url_roundtrip_witness : base64url_decode (base64url_encode [255; 0; 17; 128]) = Ok [255; 0; 17; 128].
Proof. refine (base64url_roundtrip [255; 0; 17; 128] _ _); [repeat constructor; vm_compute; reflexivity|vm_compute; lia]. Defined.

Lemma invitation_code_roundtrip_witness : code_from_str (code_display (code_of_hash (replicate 32 200))) = Ok (code_of_hash (replicate 32 200)).
Proof. refine (proj1 (invitation_code_roundtrip (replicate 32 200) (replicate 16 3) _ _)); [vm_compute; lia|reflexivity]. Defined.
