(* ===== verification/Pairing.v ===== *)
(** * Device pairing ([crates/a3net-pairing/src/invitation.rs, transport_identity.rs, trusted_device.rs, store.rs, wire.rs])

    The invitation of an issuer, the request of an invitee and the response, with the bytes
    their signatures cover; the record of a trusted device; the store of records with its
    guard against replayed nonces and its file. Ed25519 is the interface of [Peering], the
    wallet that of [EvmWallet]; the JSON of an invitation and of a record are interfaces of
    this file ([PairingJson]). Clock readings, random bytes and whether a write to the disk
    succeeds are arguments; the file is its lines. An identifier of a node is valid, so that
    its bytes exist. The counter of a record does not reach its width.

    The theorems show that the three messages of a ceremony verify, what a request proves and
    its signature binds, that a request is accepted once, that a store comes back from its
    file, and that a revoked device stays revoked. *)
From stdpp Require Import prelude strings gmap list.
From Stdlib Require Import NArith ZArith Lia Ascii.
From S2P Require Import Prelude NodeId ContentHash EvmWallet Mesh Coordinator Peering PairingText.

#[local] Open Scope N_scope.

Notation CredentialId := (list N).
Notation Nonce32 := (list N).

Definition TRANSPORT_SCHEME_ED25519 : N := 1.
Definition MAX_TIMESTAMP_SKEW_SECONDS : Z := 300.
Definition REQUEST_DOMAIN_TAG : list N := str_bytes "a3net-pairing-request/v1" ++ [0].
Definition RESPONSE_DOMAIN_TAG : list N := str_bytes "a3net-pairing-response/v1" ++ [0].
Definition INVITATION_DOMAIN_TAG : list N := str_bytes "a3net-pairing-invitation/v1" ++ [0].
Definition i64_max : Z := 2 ^ 63 - 1.

(** [i64::to_be_bytes]. *)
Definition i64_be_bytes (z : Z) : list N := be_bytes 8 (Z.to_N (z mod 2 ^ 64)).

Record InvitationPayload : Type := mkInvitationPayload {
  ip_version : N; ip_issuer_node_id : NodeId; ip_issuer_wallet : Address; ip_salt : list N; ip_capabilities : CapabilitySet;
  ip_expires_at_unix : Z; ip_note : option string
}.
Record SignedInvitation : Type := mkSignedInvitation { si_payload : InvitationPayload; si_signature : list N }.

Record PairingRequest : Type := mkPairingRequest {
  pq_version : N; pq_credential_id : CredentialId; pq_node_id : NodeId; pq_transport_pubkey : list N; pq_requested : CapabilitySet;
  pq_expires_at_unix : Z; pq_nonce : Nonce32; pq_signature : list N
}.

Record PairingResponse : Type := mkPairingResponse {
  pn_version : N; pn_credential_id : CredentialId; pn_nonce : Nonce32; pn_issuer_node_id : NodeId; pn_issuer_pubkey : list N; pn_granted : CapabilitySet;
  pn_expires_at_unix : Z; pn_signature : list N
}.

Definition split_scheme (sig : list N) : result PairingError (N * list N) :=
  match sig with [] => Err (SignatureLength 1 0) | tag :: sig => Ok (tag, sig) end.

Section Protocol.
Context `{HX : Hex} `{B3 : Blake3} `{KK : Keccak} `{SC : Secp256k1} `{HE : Ed25519}.

(** ** Digests *)

Definition invitation_preimage (p : InvitationPayload) : list N :=
  INVITATION_DOMAIN_TAG ++ [ip_version p] ++ node_bytes (ip_issuer_node_id p) ++ addr_bytes (ip_issuer_wallet p) ++ ip_salt p ++
  str_bytes (caps_canonical (ip_capabilities p)) ++ i64_be_bytes (ip_expires_at_unix p).
Definition pairing_invitation_digest (p : InvitationPayload) : list N := blake3_hash (invitation_preimage p).

Definition request_preimage (r : PairingRequest) : list N :=
  REQUEST_DOMAIN_TAG ++ [pq_version r] ++ pq_credential_id r ++ node_bytes (pq_node_id r) ++ pq_transport_pubkey r ++
  str_bytes (caps_canonical (pq_requested r)) ++ i64_be_bytes (pq_expires_at_unix r) ++ pq_nonce r.
Definition pairing_request_digest (r : PairingRequest) : list N := blake3_hash (request_preimage r).

Definition response_preimage (r : PairingResponse) : list N :=
  RESPONSE_DOMAIN_TAG ++ [pn_version r] ++ pn_credential_id r ++ pn_nonce r ++ node_bytes (pn_issuer_node_id r) ++ pn_issuer_pubkey r ++
  str_bytes (caps_canonical (pn_granted r)) ++ i64_be_bytes (pn_expires_at_unix r).
Definition pairing_response_digest (r : PairingResponse) : list N := blake3_hash (response_preimage r).

Definition derive_credential_id (issuer invitee : NodeId) (salt : list N) : CredentialId :=
  take 16 (blake3_hash (str_bytes "a3net-pairing/credential-id/v1" ++ [0] ++ node_bytes issuer ++ node_bytes invitee ++ salt)).

(** ** Invitations *)

(** The tag of the wallet scheme and the compact signature. *)
Definition wallet_signature (w : Wallet) (digest : list N) : list N := 0 :: to_compact (sign_personal w digest).

Definition invitation_create (now : Z) (salt : list N) (issuer : NodeId) (w : Wallet) (caps : CapabilitySet) (ttl : Z) (note : option string) : SignedInvitation :=
  let expires := if (ttl <=? 0)%Z then (now + 15 * 60)%Z else (now + ttl)%Z in
  let p := mkInvitationPayload 1 issuer (wp_address (wa_public w)) salt caps expires note in
  mkSignedInvitation p (wallet_signature w (pairing_invitation_digest p)).

(** The end of the verifiers of wallet signatures: the address that signed. *)
Definition wallet_signer (what : string) (digest sig : list N) : result PairingError Address :=
  if Nat.eqb (length sig) 0 then Err (SignatureLength 66 0)
  else
    let? ts := split_scheme sig in
    if negb (ts.1 =? 0) then Err (UnsupportedScheme ts.1)
    else if negb (Nat.eqb (length ts.2) 65) then Err (SignatureLength 65 (length ts.2))
    else match from_compact ts.2 with
         | Err _ => Err (PgMalformed what)
         | Ok ps => match recover_personal digest ps with Err _ => Err IssuerSignatureInvalid | Ok recovered => Ok (wp_address recovered) end
         end.

Definition invitation_verify (i : SignedInvitation) (now : Z) : result PairingError unit :=
  let p := si_payload i in
  if negb (ip_version p =? 1) then Err (PgMalformed "invitation.version")
  else if bool_decide (ip_expires_at_unix p ≠ i64_max) && (ip_expires_at_unix p <? now)%Z then Err (InvitationExpired (ip_expires_at_unix p) now)
  else
    let? recovered := wallet_signer "signed_invitation.signature" (pairing_invitation_digest p) (si_signature i) in
    if decide (recovered = ip_issuer_wallet p) then Ok () else Err IssuerSignatureInvalid.

Definition invitation_credential_id (i : SignedInvitation) (invitee : NodeId) : result PairingError CredentialId :=
  if negb (Nat.eqb (length (ip_salt (si_payload i))) 32) then Err (PgMalformed "invitation_payload.salt")
  else Ok (derive_credential_id (ip_issuer_node_id (si_payload i)) invitee (ip_salt (si_payload i))).

(** ** Requests and responses *)

Definition transport_sign (secret msg : list N) : list N := TRANSPORT_SCHEME_ED25519 :: ed_sign secret msg.

Definition request_build (now : Z) (nonce : Nonce32) (secret : list N) (cid : CredentialId) (node : NodeId) (pubkey : list N) (caps : CapabilitySet) (ttl : Z) : PairingRequest :=
  let ttl := if (ttl <=? 0)%Z then MAX_TIMESTAMP_SKEW_SECONDS else ttl in
  let r := mkPairingRequest 1 cid node pubkey caps (now + ttl) nonce [] in
  mkPairingRequest 1 cid node pubkey caps (now + ttl) nonce (transport_sign secret (pairing_request_digest r)).

Definition verify_pairing_request (r : PairingRequest) (now : Z) : result PairingError unit :=
  if negb (pq_version r =? 1) then Err (PgMalformed "pairing_request.version")
  else if (pq_expires_at_unix r <? now)%Z then Err (RequestExpired (pq_expires_at_unix r) now)
  else if (MAX_TIMESTAMP_SKEW_SECONDS <? pq_expires_at_unix r - now)%Z then Err (ClockSkew MAX_TIMESTAMP_SKEW_SECONDS (pq_expires_at_unix r) now)
  else
    let? ts := split_scheme (pq_signature r) in
    if negb (ts.1 =? TRANSPORT_SCHEME_ED25519) then Err (UnsupportedScheme ts.1)
    else if negb (Nat.eqb (length ts.2) 64) then Err (SignatureLength 64 (length ts.2))
    else if negb (Nat.eqb (length (pq_transport_pubkey r)) 32) then Err (PgMalformed "pairing_request.transport_pubkey")
    else match ed_from_bytes (pq_transport_pubkey r) with
         | Err _ => Err (PgMalformed "pairing_request.transport_pubkey")
         | Ok _ =>
             match ed_verify (pq_transport_pubkey r) (pairing_request_digest r) ts.2 with
             | Err _ => Err TransportSignatureInvalid
             | Ok _ => if decide (node_bytes (pq_node_id r) = pq_transport_pubkey r) then Ok () else Err NodeIdMismatch
             end
         end.

Definition response_build (now : Z) (r : PairingRequest) (issuer : NodeId) (issuer_pubkey : list N) (granted : CapabilitySet) (ttl : Z) (w : Wallet) : PairingResponse :=
  let ttl := if (ttl <=? 0)%Z then (90 * 24 * 3600)%Z else ttl in
  let p := mkPairingResponse 1 (pq_credential_id r) (pq_nonce r) issuer issuer_pubkey granted (now + ttl) [] in
  mkPairingResponse 1 (pq_credential_id r) (pq_nonce r) issuer issuer_pubkey granted (now + ttl) (wallet_signature w (pairing_response_digest p)).

Definition verify_pairing_response (p : PairingResponse) (r : PairingRequest) (now : Z) : result PairingError unit :=
  if negb (pn_version p =? 1) then Err (PgMalformed "pairing_response.version")
  else if bool_decide (pn_nonce p ≠ pq_nonce r) then Err NonceMismatch
  else if (pn_expires_at_unix p =? i64_max)%Z then Err (PgMalformed "pairing_response.expires_at_unix")
  else if (pn_expires_at_unix p <? now)%Z then Err (RequestExpired (pn_expires_at_unix p) now)
  else
    let? _ := wallet_signer "pairing_response.signature" (pairing_response_digest p) (pn_signature p) in
    Ok ().

(** [Ed25519Verifier]. *)
Definition transport_verify (public msg sig : list N) : result PairingError unit :=
  let? ts := split_scheme sig in
  if negb (ts.1 =? TRANSPORT_SCHEME_ED25519) then Err (UnsupportedScheme ts.1)
  else if negb (Nat.eqb (length ts.2) 64) then Err (SignatureLength 64 (length ts.2))
  else match ed_from_bytes public with
       | Err _ => Err (PgMalformed "verifier.public")
       | Ok _ => match ed_verify public msg ts.2 with Err _ => Err TransportSignatureInvalid | Ok _ => Ok () end
       end.
End Protocol.

(** ** Records *)

Inductive TrustedDeviceStatus : Type := TdActive | TdSuspended | TdRevoked.
#[global] Instance TrustedDeviceStatus_eq_dec : EqDecision TrustedDeviceStatus.
Proof. solve_decision. Defined.
Inductive TrustedDeviceRole : Type := RoleIssuer | RoleInvitee.

Record TrustedDeviceRecord : Type := mkTrustedDeviceRecord {
  td_credential_id : CredentialId; td_role : TrustedDeviceRole; td_device_name : string; td_paired_at_unix : Z; td_expires_at_unix : Z; td_last_seen_unix : Z;
  td_node_id : string; td_transport_pubkey : list N; td_wallet_address : option Address; td_capabilities : CapabilitySet; td_status : TrustedDeviceStatus;
  td_record_version : N; td_issuer_node_id : string; td_revoked_at_unix : Z
}.

Definition is_active_status (s : TrustedDeviceStatus) : bool := match s with TdActive => true | _ => false end.
Definition has_capability (r : TrustedDeviceRecord) (c : Capability) : bool := is_active_status (td_status r) && caps_contains (td_capabilities r) c.
Definition record_is_expired (r : TrustedDeviceRecord) (now : Z) : bool := bool_decide (td_expires_at_unix r ≠ i64_max) && (td_expires_at_unix r <? now)%Z.

Definition record_touch (now : Z) (r : TrustedDeviceRecord) : TrustedDeviceRecord :=
  mkTrustedDeviceRecord (td_credential_id r) (td_role r) (td_device_name r) (td_paired_at_unix r) (td_expires_at_unix r) now (td_node_id r) (td_transport_pubkey r)
    (td_wallet_address r) (td_capabilities r) (td_status r) (td_record_version r + 1) (td_issuer_node_id r) (td_revoked_at_unix r).

Definition record_revoke (now : Z) (r : TrustedDeviceRecord) : TrustedDeviceRecord :=
  mkTrustedDeviceRecord (td_credential_id r) (td_role r) (td_device_name r) (td_paired_at_unix r) (td_expires_at_unix r) (td_last_seen_unix r) (td_node_id r) (td_transport_pubkey r)
    (td_wallet_address r) (td_capabilities r) TdRevoked (td_record_version r + 1) (td_issuer_node_id r) now.

Definition record_update_capabilities (caps : CapabilitySet) (r : TrustedDeviceRecord) : result PairingError TrustedDeviceRecord :=
  if bool_decide (td_status r ≠ TdActive) then Err (DeviceRevoked (td_credential_id r))
  else Ok (mkTrustedDeviceRecord (td_credential_id r) (td_role r) (td_device_name r) (td_paired_at_unix r) (td_expires_at_unix r) (td_last_seen_unix r) (td_node_id r)
             (td_transport_pubkey r) (td_wallet_address r) caps (td_status r) (td_record_version r + 1) (td_issuer_node_id r) (td_revoked_at_unix r)).

Definition record_rename (name : string) (r : TrustedDeviceRecord) : TrustedDeviceRecord :=
  mkTrustedDeviceRecord (td_credential_id r) (td_role r) name (td_paired_at_unix r) (td_expires_at_unix r) (td_last_seen_unix r) (td_node_id r) (td_transport_pubkey r)
    (td_wallet_address r) (td_capabilities r) (td_status r) (td_record_version r + 1) (td_issuer_node_id r) (td_revoked_at_unix r).

Definition hex_id_ok (s : string) : bool := Nat.eqb (String.length s) 64 && str_forallb is_hexdigit s.

(** The checks in their order; each field has its own name in the error. *)
Definition record_validate (r : TrustedDeviceRecord) : result PairingError unit :=
  if forallb (N.eqb 0) (td_credential_id r) then Err (PgMalformed "trusted_device_record.credential_id")
  else if negb (hex_id_ok (td_node_id r)) then Err (PgMalformed "trusted_device_record.node_id")
  else if negb (hex_id_ok (td_issuer_node_id r)) then Err (PgMalformed "trusted_device_record.issuer_node_id")
  else if negb (Nat.eqb (length (td_transport_pubkey r)) 0) && negb (Nat.eqb (length (td_transport_pubkey r)) 32) then Err (PgMalformed "trusted_device_record.transport_pubkey")
  else if td_record_version r =? 0 then Err (PgMalformed "trusted_device_record.record_version")
  else if bool_decide (td_expires_at_unix r ≠ i64_max) && (td_expires_at_unix r <? td_paired_at_unix r)%Z then Err (PgMalformed "trusted_device_record.expires_at_unix")
  else if (td_last_seen_unix r <? td_paired_at_unix r)%Z then Err (PgMalformed "trusted_device_record.last_seen_unix")
  else if negb (td_revoked_at_unix r =? 0)%Z && (td_revoked_at_unix r <? td_paired_at_unix r)%Z then Err (PgMalformed "trusted_device_record.revoked_at_unix")
  else if bool_decide (td_status r = TdRevoked) && (td_revoked_at_unix r =? 0)%Z then Err (PgMalformed "trusted_device_record.revoked_at_unix")
  else Ok ().

(** ** The store *)

(** The JSON of a record is one line; that of an invitation is its text. *)
Class PairingJson : Type := {
  record_to_line : TrustedDeviceRecord → string;
  record_from_line : string → option TrustedDeviceRecord;
  invitation_to_json : SignedInvitation → string;
  invitation_from_json : string → option SignedInvitation
}.
Class PairingJsonLaws (J : PairingJson) : Prop := {
  record_line_roundtrip r : record_from_line (record_to_line r) = Some r;
  record_line_nonempty r : str_trim (record_to_line r) ≠ EmptyString;
  invitation_json_roundtrip i : invitation_from_json (invitation_to_json i) = Some i
}.

Notation Records := (gmap CredentialId TrustedDeviceRecord).

(** [ts_disk] is the file, when there is one. *)
Record TrustedDeviceStore : Type := mkTrustedDeviceStore { ts_records : Records; ts_seen_nonces : gmap Nonce32 Z; ts_disk : option (list string) }.

Section Store.
Context `{PJ : PairingJson}.

Fixpoint load_lines (lines : list string) (map : Records) : result PairingError Records :=
  match lines with
  | [] => Ok map
  | line :: lines =>
      if (str_trim line =? EmptyString)%string then load_lines lines map
      else match record_from_line line with
           | None => Err PgStorage
           | Some rec => match record_validate rec with Err _ => Err PgStorage | Ok _ => load_lines lines (<[td_credential_id rec := rec]> map) end
           end
  end.

Definition store_open (disk : option (list string)) : result PairingError TrustedDeviceStore :=
  let? records := match disk with Some lines => load_lines lines ∅ | None => Ok ∅ end in
  Ok (mkTrustedDeviceStore records ∅ disk).

(** [io] is whether the writes and the rename succeed; the file is replaced as a whole. *)
Definition store_flush (io : bool) (s : TrustedDeviceStore) : TrustedDeviceStore * result PairingError unit :=
  if io then (mkTrustedDeviceStore (ts_records s) (ts_seen_nonces s) (Some ((λ e, record_to_line e.2) <$> map_to_list (ts_records s))), Ok ())
  else (s, Err PgStorage).

Definition set_records (s : TrustedDeviceStore) (r : Records) : TrustedDeviceStore := mkTrustedDeviceStore r (ts_seen_nonces s) (ts_disk s).

Definition store_insert (io : bool) (s : TrustedDeviceStore) (r : TrustedDeviceRecord) : TrustedDeviceStore * result PairingError unit :=
  match ts_records s !! td_credential_id r with
  | Some _ => (s, Err (PgMalformed "trusted_device_store"))
  | None => store_flush io (set_records s (<[td_credential_id r := r]> (ts_records s)))
  end.

Definition store_get (s : TrustedDeviceStore) (id : CredentialId) : option TrustedDeviceRecord := ts_records s !! id.

Definition store_is_active (s : TrustedDeviceStore) (id : CredentialId) (now : Z) : bool :=
  match store_get s id with None => false | Some r => is_active_status (td_status r) && negb (record_is_expired r now) end.

Definition check_capability (s : TrustedDeviceStore) (id : CredentialId) (c : Capability) (now : Z) : result PairingError bool :=
  match store_get s id with
  | None => Err (DeviceNotFound id)
  | Some r =>
      if decide (td_status r = TdRevoked) then Err (DeviceRevoked id)
      else if record_is_expired r now then Err (DeviceExpired id (td_expires_at_unix r))
      else Ok (has_capability r c)
  end.

Definition store_revoke (io : bool) (now : Z) (s : TrustedDeviceStore) (id : CredentialId) : TrustedDeviceStore * result PairingError unit :=
  match ts_records s !! id with
  | None => (s, Err (DeviceNotFound id))
  | Some r => store_flush io (set_records s (<[id := record_revoke now r]> (ts_records s)))
  end.

Definition store_update_capabilities (io : bool) (s : TrustedDeviceStore) (id : CredentialId) (caps : CapabilitySet) : TrustedDeviceStore * result PairingError unit :=
  match ts_records s !! id with
  | None => (s, Err (DeviceNotFound id))
  | Some r => match record_update_capabilities caps r with Err e => (s, Err e) | Ok r => store_flush io (set_records s (<[id := r]> (ts_records s))) end
  end.

Definition store_touch (io : bool) (now : Z) (s : TrustedDeviceStore) (id : CredentialId) : TrustedDeviceStore * result PairingError unit :=
  match ts_records s !! id with
  | None => (s, Err (DeviceNotFound id))
  | Some r => store_flush io (set_records s (<[id := record_touch now r]> (ts_records s)))
  end.

Definition device_remove (io : bool) (s : TrustedDeviceStore) (id : CredentialId) : TrustedDeviceStore * result PairingError unit :=
  store_flush io (set_records s (delete id (ts_records s))).

Definition store_active (s : TrustedDeviceStore) (now : Z) : list TrustedDeviceRecord :=
  filter (λ r, is_active_status (td_status r) && negb (record_is_expired r now) = true) (snd <$> map_to_list (ts_records s)).

Definition prune_expired_nonces (s : TrustedDeviceStore) (cutoff : Z) : TrustedDeviceStore :=
  mkTrustedDeviceStore (ts_records s) (filter (λ e : Nonce32 * Z, (cutoff < e.2)%Z) (ts_seen_nonces s)) (ts_disk s).

Definition check_and_record_nonce (now : Z) (s : TrustedDeviceStore) (nonce : Nonce32) (ttl : Z) : TrustedDeviceStore * result PairingError unit :=
  let s := prune_expired_nonces s (now - ttl) in
  match ts_seen_nonces s !! nonce with
  | Some _ => (s, Err (NonceReplay (take 8 nonce)))
  | None => (mkTrustedDeviceStore (ts_records s) (<[nonce := now]> (ts_seen_nonces s)) (ts_disk s), Ok ())
  end.

Definition clear_nonce (s : TrustedDeviceStore) (nonce : Nonce32) : TrustedDeviceStore :=
  mkTrustedDeviceStore (ts_records s) (delete nonce (ts_seen_nonces s)) (ts_disk s).

(** ** URLs *)

Definition PAIRING_URL_PREFIX : string := "a3net-pairing://".
Definition MAX_URL_PAYLOAD : nat := 4096.

Inductive PairingInvitation : Type := PiUrl (encoded : string) | PiJson (i : SignedInvitation).

Definition pairing_parse_url (raw : string) : result PairingError PairingInvitation :=
  let? url := ok_or (PgMalformed "pairing_url") (str_strip_prefix PAIRING_URL_PREFIX raw) in
  if Nat.ltb 2048 (String.length url) then Err (PgMalformed "pairing_url")
  else let? _ := base64url_decode url in Ok (PiUrl url).

Definition pairing_to_url (i : SignedInvitation) : result PairingError string :=
  let encoded := base64url_encode (str_bytes (invitation_to_json i)) in
  if Nat.ltb MAX_URL_PAYLOAD (String.length encoded) then Err (PgMalformed "signed_invitation") else Ok (PAIRING_URL_PREFIX +:+ encoded).

Definition pairing_decode (p : PairingInvitation) : result PairingError SignedInvitation :=
  match p with
  | PiUrl encoded =>
      let? bytes := base64url_decode encoded in
      ok_or (PgMalformed "pairing_invitation.json") (invitation_from_json (string_of_bytes bytes))
  | PiJson i => Ok i
  end.

Definition pairing_verify `{Hex, Blake3, Keccak, Secp256k1} (p : PairingInvitation) (now : Z) : result PairingError unit :=
  let? i := pairing_decode p in invitation_verify i now.
End Store.

(** ** The ceremony *)

Section Ceremony.
Context `{HL : HexLaws} `{B3 : Blake3} `{KL : KeccakLaws} `{SL : Secp256k1Laws} `{EL : Ed25519Laws}.

Lemma wallet_signer_signed what w digest : signs w digest → wallet_signer what digest (wallet_signature w digest) = Ok (wp_address (wa_public w)).
Proof.
  intros Hs. destruct (signs_spec _ _ Hs) as (Hrec & Hc & _ & _). unfold wallet_signer, wallet_signature. cbn [length Nat.eqb split_scheme fst snd N.eqb negb].
  assert (length (to_compact (sign_personal w digest)) = 65%nat) as Hlen.
  { revert Hc. unfold from_compact. destruct (Nat.eqb_spec (length (to_compact (sign_personal w digest))) 65); [done|]. by cbn [negb]. }
  rewrite Hlen. cbn [Nat.eqb negb]. by rewrite Hc, Hrec.
Qed.

Lemma request_build_verifies now nonce sk cid node caps ttl t :
  node_ok node → node_bytes node = ed_public sk → (ttl <= MAX_TIMESTAMP_SKEW_SECONDS)%Z →
  let r := request_build now nonce sk cid node (ed_public sk) caps ttl in
  (now <= t <= pq_expires_at_unix r)%Z → verify_pairing_request r t = Ok ().
Proof.
  intros Hn Hpk Httl r Ht. unfold verify_pairing_request, r, request_build. cbn [pq_version pq_expires_at_unix pq_signature pq_transport_pubkey pq_node_id N.eqb negb Pos.eqb].
  unfold r, request_build in Ht. cbn [pq_expires_at_unix] in Ht. unfold MAX_TIMESTAMP_SKEW_SECONDS in *.
  rewrite (proj2 (Z.ltb_ge _ _)) by lia. rewrite (proj2 (Z.ltb_ge 300 _)) by (destruct (Z.leb_spec ttl 0); lia).
  unfold transport_sign. cbn [split_scheme fst snd]. rewrite N.eqb_refl. cbn [negb]. rewrite ed_sign_length. cbn [Nat.eqb negb].
  assert (length (ed_public sk) = 32%nat) as -> by (rewrite <-Hpk; apply (node_bytes_ok node Hn)). cbn [Nat.eqb negb]. rewrite ed_public_ok.
  match goal with |- context [ed_verify _ (pairing_request_digest ?x) (ed_sign _ (pairing_request_digest ?y))] => change (pairing_request_digest x) with (pairing_request_digest y) end.
  rewrite ed_sign_verify. by rewrite decide_True.
Qed.

(** A response of any wallet is accepted: the signature must recover to some address, and
    that address is compared with nothing. *)
Theorem response_signer_unchecked now r issuer pubkey granted ttl w t :
  let p := response_build now r issuer pubkey granted ttl w in
  signs w (pairing_response_digest p) → (t <= pn_expires_at_unix p)%Z → pn_expires_at_unix p ≠ i64_max → verify_pairing_response p r t = Ok ().
Proof.
  intros p Hs Ht Hne. unfold verify_pairing_response, p, response_build. cbn [pn_version pn_nonce pn_expires_at_unix pn_signature N.eqb negb Pos.eqb].
  unfold p, response_build in Ht, Hne. cbn [pn_expires_at_unix] in Ht, Hne.
  rewrite bool_decide_eq_false_2 by (intros Hx; by apply Hx). rewrite (proj2 (Z.eqb_neq _ _) Hne), (proj2 (Z.ltb_ge _ _) Ht).
  match goal with |- context [wallet_signer _ (pairing_response_digest ?x) (wallet_signature w (pairing_response_digest ?y))] => change (pairing_response_digest x) with (pairing_response_digest y) end.
  rewrite wallet_signer_signed; [done|]. exact Hs.
Qed.

(** The ceremony: an invitation verifies until it expires; the invitee derives the
    credential from it and the issuer derives the same; the request the invitee signs with
    the key of its node verifies from the moment it is made until it expires; the response
    the issuer signs verifies for that request until it expires. *)
Theorem pairing_ceremony now salt issuer w caps ttl note node sk now1 nonce rcaps rttl now2 pubkey granted gttl :
  let i := invitation_create now salt issuer w caps ttl note in
  signs w (pairing_invitation_digest (si_payload i)) → length salt = 32%nat → node_ok node → node_bytes node = ed_public sk → (rttl <= MAX_TIMESTAMP_SKEW_SECONDS)%Z →
  (∀ t, (t <= ip_expires_at_unix (si_payload i))%Z → invitation_verify i t = Ok ()) ∧
  ∃ cid, invitation_credential_id i node = Ok cid ∧ cid = derive_credential_id issuer node salt ∧
    let r := request_build now1 nonce sk cid node (ed_public sk) rcaps rttl in
    (∀ t, (now1 <= t <= pq_expires_at_unix r)%Z → verify_pairing_request r t = Ok ()) ∧
    let p := response_build now2 r issuer pubkey granted gttl w in
    pn_credential_id p = cid ∧ pn_nonce p = nonce ∧
    (signs w (pairing_response_digest p) → ∀ t, (t <= pn_expires_at_unix p)%Z → pn_expires_at_unix p ≠ i64_max → verify_pairing_response p r t = Ok ()).
Proof.
  intros i Hs Hsalt Hn Hpk Hr. split.
  - intros t Ht. unfold invitation_verify, i, invitation_create. cbn [si_payload si_signature ip_version ip_expires_at_unix ip_issuer_wallet N.eqb negb Pos.eqb].
    unfold i, invitation_create in Ht. cbn [si_payload ip_expires_at_unix] in Ht. rewrite (proj2 (Z.ltb_ge _ _) Ht), andb_false_r. rewrite wallet_signer_signed by exact Hs. by rewrite decide_True.
  - exists (derive_credential_id issuer node salt). split; [|split; [done|]].
    { unfold invitation_credential_id, i, invitation_create. cbn [si_payload ip_salt ip_issuer_node_id]. by rewrite Hsalt. }
    intros r. split; [intros t Ht; by apply request_build_verifies|]. intros p. split_and!; [done|done|]. intros Hsp t Ht Hne. by apply response_signer_unchecked.
Qed.
End Ceremony.

(** ** What the signatures cover *)

Lemma caps_canonical_length s : length (str_bytes (caps_canonical s)) = 21%nat.
Proof.
  rewrite length_str_bytes. unfold caps_canonical. rewrite str_length_app. change (hex_encode_ref ?x) with (hex_encode x). rewrite hex_encode_length, length_be_bytes. done.
Qed.

Lemma i64_be_bytes_inj a b : (- 2 ^ 63 <= a < 2 ^ 63)%Z → (- 2 ^ 63 <= b < 2 ^ 63)%Z → i64_be_bytes a = i64_be_bytes b → a = b.
Proof.
  intros Ha Hb Heq. unfold i64_be_bytes in Heq. pose proof (Z.mod_pos_bound a (2 ^ 64) ltac:(done)) as H1. pose proof (Z.mod_pos_bound b (2 ^ 64) ltac:(done)) as H2.
  apply be_bytes_inj in Heq; [|change (256 ^ N.of_nat 8) with (Z.to_N (2 ^ 64)); lia|change (256 ^ N.of_nat 8) with (Z.to_N (2 ^ 64)); lia].
  apply Z2N.inj in Heq; [|lia|lia]. revert Heq. change (2 ^ 64)%Z with (2 ^ 63 * 2)%Z in *. Z.to_euclidean_division_equations. lia.
Qed.

Section Binding.
Context `{HL : HexLaws} `{BL : Blake3Laws} `{KK : Keccak} `{SC : Secp256k1} `{HE : Ed25519}.

(** The sizes of a request that [verify_pairing_request] and the types guarantee. *)
Definition request_sized (r : PairingRequest) : Prop :=
  length (pq_credential_id r) = 16%nat ∧ node_ok (pq_node_id r) ∧ length (pq_transport_pubkey r) = 32%nat ∧ length (pq_nonce r) = 32%nat ∧
  (- 2 ^ 63 <= pq_expires_at_unix r < 2 ^ 63)%Z.

Lemma request_preimage_inj r r' : request_sized r → request_sized r' → request_preimage r = request_preimage r' →
  pq_version r = pq_version r' ∧ pq_credential_id r = pq_credential_id r' ∧ pq_node_id r = pq_node_id r' ∧ pq_transport_pubkey r = pq_transport_pubkey r' ∧
  caps_canonical (pq_requested r) = caps_canonical (pq_requested r') ∧ pq_expires_at_unix r = pq_expires_at_unix r' ∧ pq_nonce r = pq_nonce r'.
Proof.
  intros (L1 & L2 & L3 & L4 & L5) (M1 & M2 & M3 & M4 & M5) Heq. unfold request_preimage in Heq. apply app_inv_head in Heq.
  apply app_inj_1 in Heq as [[= Hv] Heq]; [|done]. apply app_inj_1 in Heq as [Hc Heq]; [|by rewrite L1, M1].
  apply app_inj_1 in Heq as [Hn Heq]; [|by rewrite (proj1 (node_bytes_ok _ L2)), (proj1 (node_bytes_ok _ M2))]. apply app_inj_1 in Heq as [Hp Heq]; [|by rewrite L3, M3].
  apply app_inj_1 in Heq as [Hs Heq]; [|by rewrite !caps_canonical_length]. apply app_inj_1 in Heq as [He Hnn]; [|unfold i64_be_bytes; by rewrite !length_be_bytes].
  split_and!; try done.
  - by apply node_bytes_inj.
  - by apply (inj str_bytes).
  - by apply i64_be_bytes_inj.
Qed.

Lemma verify_request_inv r now : verify_pairing_request r now = Ok () →
  pq_version r = 1 ∧ (now <= pq_expires_at_unix r <= now + MAX_TIMESTAMP_SKEW_SECONDS)%Z ∧ length (pq_transport_pubkey r) = 32%nat ∧
  node_bytes (pq_node_id r) = pq_transport_pubkey r ∧
  ∃ sig, pq_signature r = TRANSPORT_SCHEME_ED25519 :: sig ∧ ed_verify (pq_transport_pubkey r) (pairing_request_digest r) sig = Ok ().
Proof.
  unfold verify_pairing_request. destruct (N.eqb_spec (pq_version r) 1) as [Hv|]; [|done]. cbn [negb]. destruct (Z.ltb_spec (pq_expires_at_unix r) now); [done|].
  destruct (Z.ltb_spec MAX_TIMESTAMP_SKEW_SECONDS (pq_expires_at_unix r - now)); [done|]. destruct (pq_signature r) as [|tag sig] eqn:Hs; [done|]. cbn [split_scheme fst snd].
  destruct (N.eqb_spec tag TRANSPORT_SCHEME_ED25519) as [->|]; [|done]. cbn [negb]. destruct (Nat.eqb (length sig) 64); [|done]. cbn [negb].
  destruct (Nat.eqb_spec (length (pq_transport_pubkey r)) 32) as [Hl|]; [|done]. cbn [negb]. destruct (ed_from_bytes _) as [|]; [|done].
  destruct (ed_verify _ _ _) as [[]|] eqn:Hed; [|done]. destruct (decide _) as [Hn|]; [|done]. intros _. split_and!; [done|lia|lia|done|done|]. by exists sig.
Qed.

(** What a request proves: one that verifies names the node whose key it carries, was
    signed under that key over its digest, and expires within five minutes. A request with
    that digest has the same credential, node, expiry and nonce and the same capabilities
    below 64, unless the bytes of the two collide under BLAKE3. *)
Theorem request_proves r r' now :
  verify_pairing_request r now = Ok () → request_sized r → request_sized r' →
  node_bytes (pq_node_id r) = pq_transport_pubkey r ∧ (now <= pq_expires_at_unix r <= now + MAX_TIMESTAMP_SKEW_SECONDS)%Z ∧
  ∃ sig, pq_signature r = TRANSPORT_SCHEME_ED25519 :: sig ∧ ed_verify (pq_transport_pubkey r) (pairing_request_digest r) sig = Ok () ∧
    (pairing_request_digest r' = pairing_request_digest r →
     collides (request_preimage r') (request_preimage r) ∨ pq_credential_id r' = pq_credential_id r ∧ pq_node_id r' = pq_node_id r ∧ pq_expires_at_unix r' = pq_expires_at_unix r ∧ pq_nonce r' = pq_nonce r ∧
       ∀ c, c < 64 → c ∈ pq_requested r' ↔ c ∈ pq_requested r).
Proof.
  intros (_ & Hexp & _ & Hn & sig & Hs & Hed)%verify_request_inv Hr Hr'. split_and!; [done|lia|lia|]. exists sig. split_and!; [done|done|]. intros Hd.
  destruct (decide (request_preimage r' = request_preimage r)) as [Hp|Hp]; [right|by left].
  destruct (request_preimage_inj _ _ Hr' Hr Hp) as (_ & H2 & H3 & _ & H5 & H6 & H7). split_and!; [done..|]. by apply canonical_below_64.
Qed.

Definition with_caps (caps : CapabilitySet) (i : SignedInvitation) : SignedInvitation :=
  let p := si_payload i in
  mkSignedInvitation (mkInvitationPayload (ip_version p) (ip_issuer_node_id p) (ip_issuer_wallet p) (ip_salt p) caps (ip_expires_at_unix p) (ip_note p)) (si_signature i).

(** Whoever passes an invitation on can add the capabilities from 64 on, or remove them: the
    invitation verifies as before. *)
Theorem unsigned_capabilities i caps now :
  (∀ c, c < 64 → c ∈ caps ↔ c ∈ ip_capabilities (si_payload i)) → invitation_verify (with_caps caps i) now = invitation_verify i now.
Proof.
  intros Hc%canonical_below_64. unfold invitation_verify, with_caps, pairing_invitation_digest, invitation_preimage.
  cbn [si_payload si_signature ip_version ip_issuer_node_id ip_issuer_wallet ip_salt ip_capabilities ip_expires_at_unix]. by rewrite Hc.
Qed.
End Binding.

(** ** Runs of the store *)

Inductive DeviceOp : Type :=
  | SoInsert (io : bool) (r : TrustedDeviceRecord) | SoRevoke (io : bool) (now : Z) (id : CredentialId) | SoUpdate (io : bool) (id : CredentialId) (caps : CapabilitySet)
  | SoTouch (io : bool) (now : Z) (id : CredentialId) | SoRemove (io : bool) (id : CredentialId)
  | SoNonce (now : Z) (nonce : Nonce32) (ttl : Z) | SoPrune (cutoff : Z) | SoClear (nonce : Nonce32).

Section Runs.
Context `{JL : PairingJsonLaws}.

Definition device_step (s : TrustedDeviceStore) (op : DeviceOp) : TrustedDeviceStore :=
  match op with
  | SoInsert io r => (store_insert io s r).1
  | SoRevoke io now id => (store_revoke io now s id).1
  | SoUpdate io id caps => (store_update_capabilities io s id caps).1
  | SoTouch io now id => (store_touch io now s id).1
  | SoRemove io id => (device_remove io s id).1
  | SoNonce now nonce ttl => (check_and_record_nonce now s nonce ttl).1
  | SoPrune cutoff => prune_expired_nonces s cutoff
  | SoClear nonce => clear_nonce s nonce
  end.
Definition store_run (s : TrustedDeviceStore) (ops : list DeviceOp) : TrustedDeviceStore := foldl device_step s ops.

(** The operation keeps a nonce that was recorded at [t0]. *)
Definition keeps_nonce (t0 : Z) (nonce : Nonce32) (op : DeviceOp) : Prop :=
  match op with SoNonce now _ ttl => (now - ttl < t0)%Z | SoPrune cutoff => (cutoff < t0)%Z | SoClear n => n ≠ nonce | _ => True end.
Definition op_io (op : DeviceOp) : bool :=
  match op with SoInsert io _ | SoRevoke io _ _ | SoUpdate io _ _ | SoTouch io _ _ | SoRemove io _ => io | _ => true end.

Lemma flush_nonces io s : ts_seen_nonces (store_flush io s).1 = ts_seen_nonces s.
Proof. by destruct io. Qed.
Lemma flush_records io s : ts_records (store_flush io s).1 = ts_records s.
Proof. by destruct io. Qed.

Lemma pruned_lookup s cutoff nonce t : ts_seen_nonces s !! nonce = Some t → (cutoff < t)%Z → ts_seen_nonces (prune_expired_nonces s cutoff) !! nonce = Some t.
Proof. intros Hs Ht. unfold prune_expired_nonces. cbn [ts_seen_nonces]. by apply map_lookup_filter_Some. Qed.

Lemma step_keeps_nonce t0 nonce s op : keeps_nonce t0 nonce op → ts_seen_nonces s !! nonce = Some t0 → ts_seen_nonces (device_step s op) !! nonce = Some t0.
Proof.
  intros Hk Hs. destruct op as [io r|io now id|io id caps|io now id|io id|now n ttl|cutoff|n]; cbn [device_step keeps_nonce] in *.
  - unfold store_insert. destruct (ts_records s !! _); [done|]. by rewrite flush_nonces.
  - unfold store_revoke. destruct (ts_records s !! _); [|done]. by rewrite flush_nonces.
  - unfold store_update_capabilities. destruct (ts_records s !! _); [|done]. destruct (record_update_capabilities _ _); [|done]. by rewrite flush_nonces.
  - unfold store_touch. destruct (ts_records s !! _); [|done]. by rewrite flush_nonces.
  - unfold device_remove. by rewrite flush_nonces.
  - unfold check_and_record_nonce. destruct (ts_seen_nonces (prune_expired_nonces s (now - ttl)) !! n) eqn:Hn; cbn [fst ts_seen_nonces]; [by apply pruned_lookup|].
    pose proof (pruned_lookup s (now - ttl) nonce t0 Hs Hk) as Hp. rewrite lookup_insert_ne; [done|]. intros ->. congruence.
  - by apply pruned_lookup.
  - unfold clear_nonce. cbn [ts_seen_nonces]. by rewrite lookup_delete_ne.
Qed.

Lemma run_keeps_nonce t0 nonce ops s : Forall (keeps_nonce t0 nonce) ops → ts_seen_nonces s !! nonce = Some t0 → ts_seen_nonces (store_run s ops) !! nonce = Some t0.
Proof. intros Hk. revert s. induction Hk as [|op ops Hop Hops IH]; intros s Hs; [done|]. apply IH. by apply step_keeps_nonce. Qed.

(** C39. Until its nonce is cleared a request is accepted once: when it verifies and its nonce
    is recorded at [t0], then after any operations that neither clear that nonce nor prune
    past [t0] (a call of [clear_nonce] with it, a prune with a cutoff or a check with a
    retention that reaches [t0]) the request does not get through again at any later time at
    which it still verifies, if the nonces are kept longer than the five minutes a request
    may live. A cleared nonce is accepted again, see [cleared_nonce_reopens_replay]. *)
Theorem request_accepted_once `{HX : Hex, B3 : Blake3, HE : Ed25519} s r t0 ttl s1 ops t :
  verify_pairing_request r t0 = Ok () → check_and_record_nonce t0 s (pq_nonce r) ttl = (s1, Ok ()) →
  Forall (keeps_nonce t0 (pq_nonce r)) ops → (t0 <= t)%Z → (MAX_TIMESTAMP_SKEW_SECONDS < ttl)%Z →
  verify_pairing_request r t = Ok () → (check_and_record_nonce t (store_run s1 ops) (pq_nonce r) ttl).2 = Err (NonceReplay (take 8 (pq_nonce r))).
Proof.
  intros (_ & H0 & _)%verify_request_inv Hc Hops Ht Httl (_ & H1 & _)%verify_request_inv.
  assert (ts_seen_nonces s1 !! pq_nonce r = Some t0) as Hs1.
  { unfold check_and_record_nonce in Hc. destruct (ts_seen_nonces (prune_expired_nonces _ _) !! _); [done|]. simplify_eq. cbn [ts_seen_nonces]. by rewrite lookup_insert_eq. }
  pose proof (run_keeps_nonce t0 _ ops s1 Hops Hs1) as Hs2. unfold check_and_record_nonce. by rewrite (pruned_lookup _ _ _ t0 Hs2) by lia.
Qed.

(** Once its nonce is cleared, as a completed ceremony is told to do, the same request gets
    through again for as long as it verifies. *)
Theorem cleared_nonce_reopens_replay `{HX : Hex, B3 : Blake3, HE : Ed25519} s r t ttl :
  verify_pairing_request r t = Ok () →
  (check_and_record_nonce t (clear_nonce s (pq_nonce r)) (pq_nonce r) ttl).2 = Ok ().
Proof.
  intros _. unfold check_and_record_nonce, prune_expired_nonces, clear_nonce. cbn [ts_seen_nonces].
  destruct (filter _ _ !! _) eqn:Hn; [|done]. by rewrite map_lookup_filter_Some, lookup_delete_eq in Hn; destruct Hn.
Qed.

(** Records are found under their identifiers, and the file holds them. *)
Definition records_keyed (m : Records) : Prop := map_Forall (λ id r, td_credential_id r = id) m.
Definition records_file (m : Records) : list string := (λ e, record_to_line e.2) <$> map_to_list m.
Definition file_current (s : TrustedDeviceStore) : Prop := ts_disk s = None ∧ ts_records s = ∅ ∨ ts_disk s = Some (records_file (ts_records s)).

Lemma flush_current s : file_current (store_flush true s).1.
Proof. by right. Qed.

Lemma step_file s op : op_io op = true → records_keyed (ts_records s) ∧ file_current s → records_keyed (ts_records (device_step s op)) ∧ file_current (device_step s op).
Proof.
  intros Hio [Hk Hf]. destruct op as [io r|io now id|io id caps|io now id|io id|now n ttl|cutoff|n]; cbn [device_step op_io] in *; subst; try done.
  - unfold store_insert. destruct (ts_records s !! _); [done|]. split; [|apply flush_current]. rewrite flush_records. by apply map_Forall_insert_2.
  - unfold store_revoke. destruct (ts_records s !! id) as [r|] eqn:Hr; [|done]. split; [|apply flush_current]. rewrite flush_records. apply map_Forall_insert_2; [exact (Hk id r Hr)|done].
  - unfold store_update_capabilities. destruct (ts_records s !! id) as [r|] eqn:Hr; [|done]. destruct (record_update_capabilities caps r) as [r'|] eqn:Hu; [|done].
    split; [|apply flush_current]. rewrite flush_records. apply map_Forall_insert_2; [|done]. unfold record_update_capabilities in Hu. destruct (bool_decide _); [done|]. simplify_eq. exact (Hk id r Hr).
  - unfold store_touch. destruct (ts_records s !! id) as [r|] eqn:Hr; [|done]. split; [|apply flush_current]. rewrite flush_records. apply map_Forall_insert_2; [exact (Hk id r Hr)|done].
  - unfold device_remove. split; [|apply flush_current]. rewrite flush_records. by apply map_Forall_delete.
  - unfold check_and_record_nonce. by destruct (ts_seen_nonces _ !! n).
Qed.

Lemma run_file ops s : Forall (λ op, op_io op = true) ops → records_keyed (ts_records s) ∧ file_current s →
  records_keyed (ts_records (store_run s ops)) ∧ file_current (store_run s ops).
Proof. intros Hio. revert s. induction Hio as [|op ops Hop Hops IH]; intros s Hs; [done|]. apply IH. by apply step_file. Qed.

Definition record_valid (r : TrustedDeviceRecord) : bool := match record_validate r with Ok _ => true | Err _ => false end.

Lemma load_lines_file (l : list (CredentialId * TrustedDeviceRecord)) m :
  NoDup l.*1 → Forall (λ e, td_credential_id e.2 = e.1) l →
  load_lines ((λ e, record_to_line e.2) <$> l) m = if forallb (λ e, record_valid e.2) l then Ok (list_to_map l ∪ m) else Err PgStorage.
Proof.
  intros Hnd Hk. revert m. induction l as [|[id r] l IH]; intros m; cbn [fmap list_fmap load_lines forallb]; [by rewrite list_to_map_nil, (left_id_L ∅ (∪))|].
  apply NoDup_cons in Hnd as [Hni Hnd]. apply Forall_cons in Hk as [Hid Hk]. cbn [fst snd] in *.
  destruct (String.eqb_spec (str_trim (record_to_line r)) EmptyString) as [He|_]; [by destruct (record_line_nonempty r)|]. rewrite record_line_roundtrip. unfold record_valid at 1.
  destruct (record_validate r); [|done]. cbn [andb]. rewrite (IH Hnd Hk). destruct (forallb _ l); [|done]. f_equal. rewrite Hid, list_to_map_cons, <-insert_union_l, insert_union_r; [done|].
  by apply not_elem_of_list_to_map_1.
Qed.

(** A store and its file: when the writes succeed, every record is found under its own
    identifier and the file holds the records of the store; opening it gives them back, with
    no nonces, if each of them passes the checks, and fails if one does not. *)
Theorem devices_survive_restart ops :
  Forall (λ op, op_io op = true) ops →
  let s := store_run (mkTrustedDeviceStore ∅ ∅ None) ops in
  records_keyed (ts_records s) ∧
  store_open (ts_disk s) = if forallb (λ e, record_valid e.2) (map_to_list (ts_records s)) then Ok (mkTrustedDeviceStore (ts_records s) ∅ (ts_disk s)) else Err PgStorage.
Proof.
  intros Hio s. destruct (run_file ops (mkTrustedDeviceStore ∅ ∅ None) Hio) as [Hk Hf]; [split; [apply map_Forall_empty|by left]|]. fold s in Hk, Hf. clearbody s. split; [done|]. unfold store_open.
  destruct Hf as [[-> ->]|Hd]; [done|]. rewrite Hd. unfold records_file. rewrite load_lines_file.
  - rewrite list_to_map_to_list, (right_id_L ∅ (∪)). by destruct (forallb _ _).
  - apply NoDup_fst_map_to_list.
  - apply Forall_forall. intros [id r] Hin%elem_of_map_to_list. exact (Hk id r Hin).
Qed.

Definition revoked_at (id : CredentialId) (s : TrustedDeviceStore) : Prop := ∃ r, ts_records s !! id = Some r ∧ td_status r = TdRevoked.

Lemma step_keeps_revoked id s op : (∀ io, op ≠ SoRemove io id) → revoked_at id s → revoked_at id (device_step s op).
Proof.
  intros Hop (r & Hr & Hst). destruct op as [io r'|io now i|io i caps|io now i|io i|now n ttl|cutoff|n]; cbn [device_step].
  - unfold store_insert. destruct (ts_records s !! td_credential_id r') eqn:Hn; [by exists r|]. exists r. rewrite flush_records. split; [|done]. cbn [set_records ts_records]. rewrite lookup_insert_ne by congruence. done.
  - unfold store_revoke. destruct (ts_records s !! i) as [ri|] eqn:Hi; [|by exists r]. unfold revoked_at. rewrite flush_records. cbn [set_records ts_records].
    destruct (decide (i = id)) as [->|Hne]; [rewrite lookup_insert_eq; by eexists|]. rewrite lookup_insert_ne by done. by exists r.
  - unfold store_update_capabilities. destruct (ts_records s !! i) as [ri|] eqn:Hi; [|by exists r]. destruct (record_update_capabilities caps ri) as [r1|] eqn:Hu; [|by exists r].
    unfold revoked_at. rewrite flush_records. cbn [set_records ts_records]. rewrite lookup_insert_ne; [by exists r|]. intros ->. unfold record_update_capabilities in Hu.
    rewrite Hi in Hr. simplify_eq. rewrite bool_decide_eq_true_2 in Hu by congruence. done.
  - unfold store_touch. destruct (ts_records s !! i) as [ri|] eqn:Hi; [|by exists r]. unfold revoked_at. rewrite flush_records. cbn [set_records ts_records].
    destruct (decide (i = id)) as [->|Hne]; [rewrite lookup_insert_eq; eexists; split; [done|]; rewrite Hi in Hr; by simplify_eq|]. rewrite lookup_insert_ne by done. by exists r.
  - unfold device_remove, revoked_at. rewrite flush_records. cbn [set_records ts_records]. rewrite lookup_delete_ne; [by exists r|]. intros ->. by destruct (Hop io).
  - unfold check_and_record_nonce. destruct (ts_seen_nonces _ !! n); by exists r.
  - by exists r.
  - by exists r.
Qed.

(** C19. Revocation holds: once a stored device is revoked, whether or not the file could be
    written, and until its record is removed, nothing makes it active again in the open
    store. After any other operations (insertions of a record for the same device, updates
    of its capabilities and touches included, their writes succeeding or not) the device is
    not active and every check of a capability, at any time, answers that the device is
    revoked. *)
Theorem revoked_stays_revoked io t s id ops c now :
  is_Some (ts_records s !! id) → Forall (λ op, ∀ io, op ≠ SoRemove io id) ops →
  let s' := store_run (store_revoke io t s id).1 ops in
  check_capability s' id c now = Err (DeviceRevoked id) ∧ store_is_active s' id now = false.
Proof.
  intros [r Hr] Hops s'. assert (revoked_at id s') as (r' & Hr' & Hst).
  { subst s'. assert (revoked_at id (store_revoke io t s id).1) as Hrev. { unfold store_revoke, revoked_at. rewrite Hr, flush_records. cbn [set_records ts_records]. rewrite lookup_insert_eq. by eexists. }
    revert Hrev. generalize (store_revoke io t s id).1. induction Hops as [|op ops Hop Hops IH]; intros s0 H0; [done|]. apply IH. by apply step_keeps_revoked. }
  unfold check_capability, store_is_active, store_get. rewrite Hr', Hst. by rewrite decide_True.
Qed.

(** A record is stored without being checked: one that fails the checks makes the store
    unreadable. *)
Theorem unchecked_record_blocks_store r :
  record_valid r = false → let '(s, res) := store_insert true (mkTrustedDeviceStore ∅ ∅ None) r in res = Ok () ∧ store_open (ts_disk s) = Err PgStorage.
Proof.
  intros Hv. unfold store_insert. cbn [ts_records]. rewrite lookup_empty. cbn [set_records store_flush ts_records ts_disk]. split; [done|]. unfold store_open.
  rewrite insert_empty, map_to_list_singleton. cbn [fmap list_fmap load_lines snd].
  destruct (String.eqb_spec (str_trim (record_to_line r)) EmptyString) as [He|_]; [by destruct (record_line_nonempty r)|]. rewrite record_line_roundtrip. unfold record_valid in Hv.
  by destruct (record_validate r).
Qed.

(** An invitation as a URL: up to 2048 characters it reads back; between that and the 4096
    the writer allows, it is written and nobody can read it. *)
Theorem pairing_url_roundtrip i :
  let n := String.length (base64url_encode (str_bytes (invitation_to_json i))) in
  ((n ≤ MAX_INPUT_LEN)%nat → ∃ url p, pairing_to_url i = Ok url ∧ pairing_parse_url url = Ok p ∧ pairing_decode p = Ok i) ∧
  ((MAX_INPUT_LEN < n ≤ MAX_URL_PAYLOAD)%nat → ∃ url, pairing_to_url i = Ok url ∧ pairing_parse_url url = Err (PgMalformed "pairing_url")).
Proof.
  intros n. unfold pairing_to_url. fold n. split; intros Hn; rewrite (proj2 (Nat.ltb_ge _ _)) by (unfold MAX_INPUT_LEN, MAX_URL_PAYLOAD in *; lia).
  - assert (base64url_decode (base64url_encode (str_bytes (invitation_to_json i))) = Ok (str_bytes (invitation_to_json i))) as Hd
      by (unfold base64url_decode; rewrite (proj2 (Nat.ltb_ge _ _)) by done; by rewrite base64url_groups_encode by apply str_bytes_ok).
    eexists _, _. split_and!; [done| |].
    + unfold pairing_parse_url. change (str_strip_prefix PAIRING_URL_PREFIX (PAIRING_URL_PREFIX +:+ ?x)) with (Some x). cbn [ok_or].
      fold n. rewrite (proj2 (Nat.ltb_ge _ _)) by exact Hn. by rewrite Hd.
    + unfold pairing_decode. rewrite Hd. by rewrite string_of_str_bytes, invitation_json_roundtrip.
  - eexists. split; [done|]. unfold pairing_parse_url. change (str_strip_prefix PAIRING_URL_PREFIX (PAIRING_URL_PREFIX +:+ ?x)) with (Some x). cbn [ok_or].
    fold n. by rewrite (proj2 (Nat.ltb_lt _ _)) by (unfold MAX_INPUT_LEN in Hn; lia).
Qed.
End Runs.

(** ** Instances *)

#[local] Instance Address_countable : Countable Address.
Proof. by apply (inj_countable' addr_bytes mkAddress); intros []. Defined.
#[local] Instance TrustedDeviceRole_eq_dec : EqDecision TrustedDeviceRole.
Proof. solve_decision. Defined.
#[local] Instance TrustedDeviceStatus_countable : Countable TrustedDeviceStatus.
Proof.
  by apply (inj_countable' (λ s, match s with TdActive => 0%nat | TdSuspended => 1%nat | TdRevoked => 2%nat end)
    (λ n, match n with 0%nat => TdActive | 1%nat => TdSuspended | _ => TdRevoked end)); intros [].
Defined.
#[local] Instance TrustedDeviceRole_countable : Countable TrustedDeviceRole.
Proof. by apply (inj_countable' (λ s, match s with RoleIssuer => true | RoleInvitee => false end) (λ b : bool, if b then RoleIssuer else RoleInvitee)); intros []. Defined.
#[local] Instance TrustedDeviceRecord_eq_dec : EqDecision TrustedDeviceRecord.
Proof. unfold CapabilitySet, Capability. solve_decision. Defined.
#[local] Instance TrustedDeviceRecord_countable : Countable TrustedDeviceRecord.
Proof.
  unfold EqDecision in *. by apply (inj_countable'
    (λ r, (td_credential_id r, td_role r, td_device_name r, td_paired_at_unix r, td_expires_at_unix r, td_last_seen_unix r, td_node_id r,
           (td_transport_pubkey r, td_wallet_address r, td_capabilities r : list N, td_status r, td_record_version r, td_issuer_node_id r, td_revoked_at_unix r)))
    (λ t, let '(a, b, c, d, e, f, g, (h, i, j, k, l, m, n)) := t in mkTrustedDeviceRecord a b c d e f g h i j k l m n)); intros [].
Defined.
#[local] Instance SignedInvitation_eq_dec : EqDecision SignedInvitation.
Proof. unfold EqDecision, Decision. unfold CapabilitySet, Capability. repeat decide equality. Defined.
#[local] Instance SignedInvitation_countable : Countable SignedInvitation.
Proof.
  by apply (inj_countable'
    (λ i, let p := si_payload i in (ip_version p, ip_issuer_node_id p, ip_issuer_wallet p, ip_salt p, ip_capabilities p : list N, ip_expires_at_unix p, ip_note p, si_signature i))
    (λ t, let '(a, b, c, d, e, f, g, h) := t in mkSignedInvitation (mkInvitationPayload a b c d e f g) h)); intros [[] ?].
Defined.

(** The digits of a number as a text. *)
Fixpoint pos_text (p : positive) : string :=
  match p with xH => "1" | xO p => String "0" (pos_text p) | xI p => String "1" (pos_text p) end.
Fixpoint text_pos (s : string) : option positive :=
  match s with
  | EmptyString => None
  | String c s => match s with EmptyString => Some xH | _ => (if Ascii.eqb c "0" then xO else xI) <$> text_pos s end
  end.
Lemma text_pos_text p : text_pos (pos_text p) = Some p.
Proof. induction p as [p IH|p IH|]; cbn [pos_text text_pos]; [| |done]; rewrite IH; by destruct p. Qed.
Lemma pos_text_trim p : str_trim (pos_text p) ≠ EmptyString.
Proof. rewrite str_trim_id; [by destruct p|]. by induction p. Qed.

#[local] Instance pairing_json_ref : PairingJson :=
  {| record_to_line r := pos_text (encode r); record_from_line s := text_pos s ≫= decode; invitation_to_json i := pos_text (encode i); invitation_from_json s := text_pos s ≫= decode |}.
#[local] Instance pairing_json_ref_laws : PairingJsonLaws pairing_json_ref.
Proof.
  split; cbn [record_to_line record_from_line invitation_to_json invitation_from_json pairing_json_ref].
  - intros r. rewrite text_pos_text. apply decode_encode.
  - intros r. apply pos_text_trim.
  - intros i. rewrite text_pos_text. apply decode_encode.
Qed.

Definition px_request : PairingRequest := request_build 1000 (replicate 32 9) (replicate 32 7) (replicate 16 1) (id_of_byte 7) (ed_public (replicate 32 7)) [CHAT] 0.
Definition px_store : TrustedDeviceStore := mkTrustedDeviceStore ∅ ∅ None.

Lemma px_request_verifies t : (1000 <= t <= 1300)%Z → verify_pairing_request px_request t = Ok ().
Proof.
  intros Ht. refine (request_build_verifies 1000 (replicate 32 9) (replicate 32 7) (replicate 16 1) (id_of_byte 7) [CHAT] 0 t _ _ _ Ht);
    [by apply id_of_byte_ok|vm_compute; reflexivity|vm_compute; discriminate].
Qed.

Lemma request_accepted_once_witness :
  (check_and_record_nonce 1300 (store_run (check_and_record_nonce 1000 px_store (pq_nonce px_request) 3600).1 [SoNonce 1200 (replicate 32 2) 3600]) (pq_nonce px_request) 3600).2
    = Err (NonceReplay (replicate 8 9)).
Proof.
  refine (request_accepted_once px_store px_request 1000 3600 _ [SoNonce 1200 (replicate 32 2) 3600] 1300 _ _ _ _ _ _);
    [apply px_request_verifies; lia|reflexivity|repeat constructor; vm_compute; reflexivity|lia|vm_compute; reflexivity|apply px_request_verifies; lia].
Defined.

(** 64 hexadecimal digits. *)
Definition px_node : string := node_hex (id_of_byte 7).

Definition px_record : TrustedDeviceRecord :=
  mkTrustedDeviceRecord (replicate 16 1) RoleIssuer "phone" 1000 i64_max 1000 px_node (replicate 32 7) None [CHAT] TdActive 1 px_node 0.

(** A device that is revoked while the file cannot be written, then paired again, granted
    more and touched: it stays revoked. *)
Lemma revoked_stays_revoked_witness :
  let s := mkTrustedDeviceStore {[td_credential_id px_record := px_record]} ∅ None in
  let id := td_credential_id px_record in
  (check_capability s id CHAT 2000 = Ok true ∧ store_is_active s id 2000 = true) ∧
  check_capability (store_run (store_revoke false 1500 s id).1 [SoInsert true px_record; SoUpdate true id [CHAT; FILES_WRITE]; SoTouch true 1600 id]) id CHAT 2000 = Err (DeviceRevoked id).
Proof.
  intros s id. split; [vm_compute; split; reflexivity|].
  refine (proj1 (revoked_stays_revoked false 1500 s id [SoInsert true px_record; SoUpdate true id [CHAT; FILES_WRITE]; SoTouch true 1600 id] CHAT 2000 _ _)).
  - exists px_record. vm_compute; reflexivity.
  - repeat constructor; intros io H; discriminate H.
Defined.
