(* ===== verification/Stun.v ===== *)
(** * STUN messages ([crates/a3net-nat-traversal/src/stun_codec.rs])

    The codec of the TURN client: the 20-byte header, the attribute list and the
    XOR'd address attributes. Bytes are numbers below 256; lengths are written
    with 16 bits, which truncates. The random transaction id is an argument. *)
From stdpp Require Import prelude list.
From Stdlib Require Import NArith Lia.
From S2P Require Import Prelude.

#[local] Open Scope N_scope.

Definition MAGIC_COOKIE : N := 0x2112A442.

Record TransactionId : Type := mkTransactionId { tx_bytes : list N }.

Inductive MessageType : Type :=
| BindingRequest | BindingResponse | BindingError
| AllocateRequest | AllocateResponse | AllocateError
| RefreshRequest | RefreshResponse | RefreshError
| CreatePermissionRequest
| ChannelBindRequest | ChannelBindResponse | ChannelBindError
| SendIndication | DataIndication
| OtherType (v : N).

#[global] Instance MessageType_eq_dec : EqDecision MessageType.
Proof. solve_decision. Defined.

Definition known_types : list (N * MessageType) :=
  [(0x0001, BindingRequest); (0x0101, BindingResponse); (0x0111, BindingError);
   (0x0003, AllocateRequest); (0x0103, AllocateResponse); (0x0113, AllocateError);
   (0x0004, RefreshRequest); (0x0104, RefreshResponse); (0x0114, RefreshError);
   (0x0008, CreatePermissionRequest);
   (0x0009, ChannelBindRequest); (0x0109, ChannelBindResponse); (0x0119, ChannelBindError);
   (0x0016, SendIndication); (0x0017, DataIndication)].

(** [from_u16]: the first arm whose code matches. *)
Definition MessageType_from_u16 (v : N) : MessageType :=
  match list_find (λ x, x.1 = v) known_types with Some (_, (_, t)) => t | None => OtherType v end.

Definition MessageType_to_u16 (t : MessageType) : N :=
  match t with
  | BindingRequest => 0x0001
  | BindingResponse => 0x0101
  | BindingError => 0x0111
  | AllocateRequest => 0x0003
  | AllocateResponse => 0x0103
  | AllocateError => 0x0113
  | RefreshRequest => 0x0004
  | RefreshResponse => 0x0104
  | RefreshError => 0x0114
  | CreatePermissionRequest => 0x0008
  | ChannelBindRequest => 0x0009
  | ChannelBindResponse => 0x0109
  | ChannelBindError => 0x0119
  | SendIndication => 0x0016
  | DataIndication => 0x0017
  | OtherType v => v
  end.

Record Attribute : Type := mkAttribute { attr_type : N; attr_value : list N }.

Record Message : Type := mkMessage {
  msg_kind : MessageType; msg_transaction_id : TransactionId; msg_attributes : list Attribute
}.

Definition Message_new_request (tx : TransactionId) (kind : MessageType) : Message := mkMessage kind tx [].

(** The padding loop of [push_attr]. *)
Definition pad_value (value : list N) : list N := value ++ replicate ((4 - length value mod 4) mod 4) 0.

Definition Message_push_attr (m : Message) (t : N) (value : list N) : Message :=
  mkMessage (msg_kind m) (msg_transaction_id m) (msg_attributes m ++ [mkAttribute t (pad_value value)]).

(** ** Encoding *)

Definition encode_attr (a : Attribute) : list N :=
  be_bytes 2 (attr_type a) ++ be_bytes 2 (N.of_nat (length (attr_value a)) mod 2 ^ 16) ++ attr_value a.

Definition body_len (m : Message) : N :=
  foldr N.add 0 ((λ a, 4 + N.of_nat (length (attr_value a))) <$> msg_attributes m).

Definition Message_encode (m : Message) : list N :=
  be_bytes 2 (MessageType_to_u16 (msg_kind m)) ++ be_bytes 2 (body_len m mod 2 ^ 16) ++ be_bytes 4 MAGIC_COOKIE ++
  tx_bytes (msg_transaction_id m) ++ (msg_attributes m ≫= encode_attr).

(** ** Decoding *)

(** Rounding up to a multiple of four: [(n + 3) & !3]. *)
Definition align4 (n : nat) : nat := ((n + 3) / 4 * 4)%nat.

(** The loop over the body; [body] is what is left of it from [i] on. *)
Fixpoint decode_attrs (fuel : nat) (body : list N) : option (list Attribute) :=
  match fuel with
  | O => Some []
  | S fuel' =>
      match body with
      | t1 :: t0 :: l1 :: l0 :: rest =>
          let t := be_value [t1; t0] in
          let len := N.to_nat (be_value [l1; l0]) in
          if Nat.ltb (length rest) len then None
          else
            attrs ← decode_attrs fuel' (drop (align4 len) rest);
            Some (mkAttribute t (take len rest) :: attrs)
      | _ => Some []
      end
  end.

Definition Message_decode (buf : list N) : option Message :=
  if Nat.ltb (length buf) 20 then None
  else
    let msg_type := be_value (take 2 buf) in
    let msg_len := N.to_nat (be_value (take 2 (drop 2 buf))) in
    let cookie := be_value (take 4 (drop 4 buf)) in
    if negb (cookie =? MAGIC_COOKIE) then None
    else
      let tx := take 12 (drop 8 buf) in
      if Nat.ltb (length buf) (20 + msg_len) then None
      else
        let body := take msg_len (drop 20 buf) in
        attributes ← decode_attrs (length body) body;
        Some (mkMessage (MessageType_from_u16 msg_type) (mkTransactionId tx) attributes).

Definition Message_first_attr (m : Message) (t : N) : option (list N) :=
  (λ x, attr_value x.2) <$> list_find (λ a, attr_type a = t) (msg_attributes m).
Definition Message_first_attr_nonempty (m : Message) (t : N) : option (list N) :=
  (λ x, attr_value x.2) <$> list_find (λ a, attr_type a = t ∧ attr_value a ≠ []) (msg_attributes m).

(** ** Addresses *)

Definition xor_bytes (a b : list N) : list N := zip_with N.lxor a b.
Definition cookie_bytes : list N := be_bytes 4 MAGIC_COOKIE.
Definition port_mask : N := N.shiftr MAGIC_COOKIE 16.

Definition encode_xor_address (addr : SocketAddr) (tx : TransactionId) : list N :=
  let port := be_bytes 2 (N.lxor (sock_port addr) port_mask) in
  match sock_ip addr with
  | IpV4 a => [0; 1] ++ port ++ xor_bytes (be_bytes 4 a) cookie_bytes
  | IpV6 a =>
      let ip_bytes := be_bytes 16 a in
      [0; 2] ++ port ++ xor_bytes (take 4 ip_bytes) cookie_bytes ++ xor_bytes ip_bytes (cookie_bytes ++ tx_bytes tx)
  end.

Definition decode_xor_address (buf : list N) (tx : TransactionId) : option SocketAddr :=
  if Nat.ltb (length buf) 8 then None
  else
    let family := default 0 (buf !! 1%nat) in
    let port := N.lxor (be_value (take 2 (drop 2 buf))) port_mask in
    if family =? 1 then
      Some (mkSocketAddr (IpV4 (be_value (xor_bytes (take 4 (drop 4 buf)) cookie_bytes))) port)
    else if (family =? 2) && Nat.leb 20 (length buf) then
      Some (mkSocketAddr (IpV6 (be_value (xor_bytes (take 16 (drop 4 buf)) (cookie_bytes ++ tx_bytes tx)))) port)
    else None.

Definition parse_error_code (buf : list N) : option (N * N) :=
  match buf with
  | _ :: _ :: b2 :: b3 :: _ =>
      let class := N.land b2 7 in
      if negb ((3 <=? class) && (class <=? 6)) || (99 <? b3) then None else Some (class, b3)
  | _ => None
  end.

(** The address attribute as RFC 5389 lays it out. *)
Definition rfc5389_address (addr : SocketAddr) (tx : TransactionId) : list N :=
  let port := be_bytes 2 (N.lxor (sock_port addr) port_mask) in
  match sock_ip addr with
  | IpV4 a => [0; 1] ++ port ++ xor_bytes (be_bytes 4 a) cookie_bytes
  | IpV6 a => [0; 2] ++ port ++ xor_bytes (be_bytes 16 a) (cookie_bytes ++ tx_bytes tx)
  end.

(** ** Round trip of messages *)

Lemma be_bytes2 n : n < 2 ^ 16 → ∃ x y, be_bytes 2 n = [x; y] ∧ be_value [x; y] = n.
Proof.
  intros Hn. pose proof (length_be_bytes 2 n) as Hl. pose proof (be_value_be_bytes 2 n) as Hv.
  destruct (be_bytes 2 n) as [|x [|y [|? ?]]]; try discriminate Hl. exists x, y. split; [done|].
  rewrite Hv. by apply N.mod_small.
Qed.

Lemma align4_mult n : (n mod 4 = 0)%nat → align4 n = n.
Proof.
  intros H. unfold align4. pose proof (Nat.div_mod n 4 ltac:(lia)) as Hq. set (q := (n / 4)%nat) in *.
  replace (n + 3)%nat with (3 + q * 4)%nat by lia. rewrite Nat.div_add by lia. change (3 / 4)%nat with 0%nat. lia.
Qed.

Definition attr_ok (a : Attribute) : Prop :=
  attr_type a < 2 ^ 16 ∧ N.of_nat (length (attr_value a)) < 2 ^ 16 ∧ (length (attr_value a) mod 4 = 0)%nat.

Lemma encode_attr_shape a :
  attr_ok a → ∃ t1 t0 l1 l0, encode_attr a = t1 :: t0 :: l1 :: l0 :: attr_value a ∧
    be_value [t1; t0] = attr_type a ∧ N.to_nat (be_value [l1; l0]) = length (attr_value a).
Proof.
  intros (Ht & Hl & _). destruct (be_bytes2 _ Ht) as (t1 & t0 & Hb & Hv).
  destruct (be_bytes2 _ Hl) as (l1 & l0 & Hb' & Hv'). exists t1, t0, l1, l0. unfold encode_attr.
  rewrite N.mod_small, Hb, Hb', Hv' by done. split_and!; [done|done|lia].
Qed.

Lemma decode_attrs_encode attrs fuel :
  Forall attr_ok attrs → (length (attrs ≫= encode_attr) ≤ fuel)%nat →
  decode_attrs fuel (attrs ≫= encode_attr) = Some attrs.
Proof.
  intros HF. revert fuel. induction HF as [|a attrs Ha _ IH]; intros fuel Hf; [by destruct fuel|].
  cbn [mbind list_bind] in *. destruct (encode_attr_shape a Ha) as (t1 & t0 & l1 & l0 & He & Ht & Hl).
  rewrite He in *. rewrite length_app in Hf. cbn [length app] in *. destruct fuel as [|fuel]; [lia|].
  cbn [decode_attrs]. cbv zeta. rewrite Hl, Ht.
  destruct (Nat.ltb_spec (length (attr_value a ++ (attrs ≫= encode_attr))) (length (attr_value a))) as [Hx|_];
    [rewrite length_app in Hx; lia|].
  rewrite align4_mult, (drop_app_length' (attr_value a)), (take_app_length' (attr_value a)) by (done || apply Ha).
  rewrite IH by lia. by destruct a.
Qed.

Lemma body_len_length m : Forall attr_ok (msg_attributes m) → body_len m = N.of_nat (length (msg_attributes m ≫= encode_attr)).
Proof.
  unfold body_len. induction 1 as [|a l Ha _ IH]; [done|]. cbn [fmap list_fmap foldr mbind list_bind]. rewrite IH, length_app.
  destruct (encode_attr_shape a Ha) as (t1 & t0 & l1 & l0 & -> & _). cbn [length]. lia.
Qed.

Lemma pad_value_length v : (length (pad_value v) mod 4 = 0 ∧ length (pad_value v) ≤ length v + 3)%nat.
Proof.
  unfold pad_value. rewrite length_app, length_replicate.
  pose proof (Nat.div_mod (length v) 4 ltac:(lia)). pose proof (Nat.mod_upper_bound (length v) 4 ltac:(lia)).
  set (q := (length v / 4)%nat) in *. set (r := (length v mod 4)%nat) in *.
  assert ((4 - r) mod 4 = if Nat.eqb r 0 then 0 else 4 - r)%nat as -> by (destruct r as [|[|[|[|?]]]]; cbn; lia).
  destruct (Nat.eqb_spec r 0); split; try lia.
  - replace (length v + 0)%nat with (0 + q * 4)%nat by lia. by rewrite Nat.Div0.mod_add.
  - replace (length v + (4 - r))%nat with (0 + (q + 1) * 4)%nat by lia. by rewrite Nat.Div0.mod_add.
Qed.

(** A type code is read back as it was written when it is not an unknown name for
    a known code. *)
Definition kind_ok (t : MessageType) : Prop :=
  match t with OtherType v => v < 2 ^ 16 ∧ v ∉ known_types.*1 | _ => True end.

Lemma kind_roundtrip t : kind_ok t → MessageType_from_u16 (MessageType_to_u16 t) = t ∧ MessageType_to_u16 t < 2 ^ 16.
Proof.
  destruct t as [| | | | | | | | | | | | | | |v]; try done. intros [Hv Hk]. split; [|done]. cbn [MessageType_to_u16].
  unfold MessageType_from_u16. destruct (list_find _ known_types) as [[i x]|] eqn:Hx; [|done].
  apply list_find_Some in Hx as (Hi & He & _). destruct Hk. rewrite <- He. apply list_elem_of_fmap_2.
  by eapply list_elem_of_lookup_2.
Qed.

Record message_ok (m : Message) : Prop := {
  mo_kind : kind_ok (msg_kind m);
  mo_tx : length (tx_bytes (msg_transaction_id m)) = 12%nat;
  mo_attrs : Forall attr_ok (msg_attributes m);
  mo_len : body_len m < 2 ^ 16
}.

(** C37. Encoded messages are decoded: for every message with a 12-byte transaction
    id, attributes whose values fill whole words, and at most 65535 bytes of them,
    [decode] of the encoding, whatever follows it in the buffer, is the message.
    [push_attr] keeps a message of that form as long as it fits. *)
Theorem stun_roundtrip m rest :
  message_ok m → Message_decode (Message_encode m ++ rest) = Some m ∧
  (∀ t v, t < 2 ^ 16 → body_len m + 4 + N.of_nat (length v) + 3 < 2 ^ 16 → message_ok (Message_push_attr m t v)).
Proof.
  intros [Hk Htx Ha Hl]. destruct (kind_roundtrip _ Hk) as [Hkr Hkb]. split.
  - unfold Message_encode. rewrite N.mod_small by done. destruct (be_bytes2 _ Hkb) as (k1 & k0 & -> & Hkv).
    destruct (be_bytes2 _ Hl) as (l1 & l0 & -> & Hlv).
    change (be_bytes 4 MAGIC_COOKIE) with [0x21; 0x12; 0xA4; 0x42].
    set (body := msg_attributes m ≫= encode_attr). pose proof (body_len_length m Ha) as Hb. fold body in Hb.
    rewrite <- !app_assoc. cbn [app]. unfold Message_decode.
    set (tail := tx_bytes (msg_transaction_id m) ++ body ++ rest).
    assert (length (k1 :: k0 :: l1 :: l0 :: 0x21 :: 0x12 :: 0xA4 :: 0x42 :: tail) = (20 + length body + length rest)%nat) as Hlen.
    { unfold tail. cbn [length]. rewrite !length_app, Htx. lia. }
    rewrite Hlen. destruct (Nat.ltb_spec (20 + length body + length rest) 20); [lia|].
    cbn [take drop]. cbv zeta. change (be_value [33; 18; 164; 66] =? MAGIC_COOKIE) with true. cbn [negb].
    rewrite Hkv, Hlv, Hb. replace (N.to_nat (N.of_nat (length body))) with (length body) by lia.
    destruct (Nat.ltb_spec (20 + length body + length rest) (20 + length body)); [lia|].
    assert (take 12 (drop 0 tail) = tx_bytes (msg_transaction_id m)) as Ht.
    { unfold tail. by rewrite drop_0, take_app_length'. }
    assert (drop 12 tail = body ++ rest) as Hd by (unfold tail; by rewrite drop_app_length').
    rewrite Ht.
    rewrite Hd, take_app_length.
    pose proof (decode_attrs_encode (msg_attributes m) (length body) Ha (le_n _)) as Hda. fold body in Hda.
    rewrite Hda. cbn [mbind option_bind]. rewrite Hkr.
    by destruct m as [? [] ?].
  - intros t v Ht Hfit. destruct (pad_value_length v) as [Hp Hpl].
    split; cbn [msg_kind msg_transaction_id msg_attributes Message_push_attr]; [done|done| |].
    + apply Forall_app. split; [done|]. constructor; [|constructor]. split_and!; cbn; [done|lia|done].
    + unfold body_len in *. cbn [msg_attributes Message_push_attr]. rewrite fmap_app. cbn [fmap list_fmap].
      enough (∀ l, foldr N.add 0 (l ++ [4 + N.of_nat (length (pad_value v))]) = foldr N.add 0 l + (4 + N.of_nat (length (pad_value v)))) as Hsum.
      { rewrite Hsum. cbn [attr_value]. lia. }
      intros l. induction l as [|x l IH]; cbn [foldr app]; [lia|]. rewrite IH. lia.
Qed.

Lemma be_value2_bound x y : byte_ok x → byte_ok y → be_value [x; y] < 2 ^ 16.
Proof.
  intros Hx Hy. pose proof (be_value_bound [x; y]) as H. apply H. by constructor; [|constructor; [|constructor]].
Qed.

Lemma decode_attrs_typed fuel body attrs :
  bytes_ok body → decode_attrs fuel body = Some attrs →
  Forall (λ a, attr_type a < 2 ^ 16 ∧ bytes_ok (attr_value a)) attrs ∧
  (foldr plus 0 ((λ a, 4 + length (attr_value a)) <$> attrs) ≤ length body)%nat.
Proof.
  revert body attrs. induction fuel as [|fuel IH]; intros body attrs Hb; cbn [decode_attrs].
  { intros [= <-]. split; [constructor|cbn; lia]. }
  destruct body as [|t1 [|t0 [|l1 [|l0 rest]]]]; try (intros [= <-]; split; [constructor|cbn; lia]).
  cbv zeta. destruct (Nat.ltb_spec (length rest) (N.to_nat (be_value [l1; l0]))) as [|Hl]; [done|].
  set (len := N.to_nat _) in *. destruct (decode_attrs fuel _) as [attrs'|] eqn:Ha; [|done]. intros [= <-].
  unfold bytes_ok in Hb. rewrite !Forall_cons in Hb. destruct Hb as (Ht1 & Ht0 & Hl1 & Hl0 & Hr).
  apply IH in Ha as [HF Hs]; [|by apply Forall_drop]. split.
  - constructor; [|done]. split; [by apply be_value2_bound|by apply Forall_take].
  - cbn [fmap list_fmap foldr attr_value length]. rewrite length_take, length_drop in *.
    unfold align4 in Hs. pose proof (Nat.div_mod (len + 3) 4 ltac:(lia)). pose proof (Nat.mod_upper_bound (len + 3) 4 ltac:(lia)). lia.
Qed.

Lemma kind_ok_from v : v < 2 ^ 16 → kind_ok (MessageType_from_u16 v).
Proof.
  intros Hv. unfold MessageType_from_u16. destruct (list_find _ known_types) as [[i [c t]]|] eqn:Hx.
  - apply list_find_Some in Hx as (Hi & _). apply list_elem_of_lookup_2 in Hi.
    unfold known_types in Hi. repeat (apply elem_of_cons in Hi as [[= _ ->]|Hi]; [done|]). by apply elem_of_nil in Hi.
  - apply list_find_None in Hx. split; [done|]. intros (x & -> & Hin)%list_elem_of_fmap.
    rewrite Forall_forall in Hx. by apply (Hx x Hin).
Qed.

(** C40. What [decode] accepts is well-typed: from a buffer of bytes it yields a
    known type or an unknown code below [2^16], a transaction id of 12 bytes, and
    attributes with 16-bit types and byte values, which all fit in the body length
    of the header; so it fails on every buffer shorter than the header or than the
    length the header announces, and on every other magic cookie. *)
Theorem stun_decode_typed buf m :
  bytes_ok buf → Message_decode buf = Some m →
  kind_ok (msg_kind m) ∧ length (tx_bytes (msg_transaction_id m)) = 12%nat ∧
  Forall (λ a, attr_type a < 2 ^ 16 ∧ bytes_ok (attr_value a)) (msg_attributes m) ∧
  (20 + N.to_nat (be_value (take 2 (drop 2 buf))) ≤ length buf)%nat ∧
  be_value (take 4 (drop 4 buf)) = MAGIC_COOKIE ∧
  (foldr plus 0 ((λ a, 4 + length (attr_value a)) <$> msg_attributes m) ≤ N.to_nat (be_value (take 2 (drop 2 buf))))%nat.
Proof.
  intros Hb. unfold Message_decode. destruct (Nat.ltb_spec (length buf) 20) as [|Hl]; [done|]. cbv zeta.
  destruct (N.eqb_spec (be_value (take 4 (drop 4 buf))) MAGIC_COOKIE) as [Hc|]; [cbn [negb]|done].
  set (len := N.to_nat (be_value (take 2 (drop 2 buf)))).
  destruct (Nat.ltb_spec (length buf) (20 + len)) as [|Hlen]; [done|].
  set (body := take len (drop 20 buf)).
  assert (length body = len) as Hbl by (unfold body; rewrite length_take, length_drop; lia).
  assert (bytes_ok body) as Hbb by (unfold body; by apply Forall_take, Forall_drop).
  destruct (decode_attrs (length body) body) as [attrs|] eqn:Ha; [|done]. intros [= <-].
  cbn [msg_kind msg_transaction_id msg_attributes tx_bytes].
  apply decode_attrs_typed in Ha as [HF Hs]; [|done]. rewrite Hbl in Hs.
  split_and!; [|by rewrite length_take, length_drop; lia|done|lia|done|done].
  apply kind_ok_from. destruct buf as [|x [|y buf]]; [cbn in Hl; lia..|]. cbn [take].
  unfold bytes_ok in Hb. rewrite !Forall_cons in Hb. destruct Hb as (? & ? & _). rewrite ?take_0. by apply be_value2_bound.
Qed.

(** ** Addresses *)

Lemma xor_bytes_inv a b : (length a ≤ length b)%nat → xor_bytes (xor_bytes a b) b = a.
Proof.
  unfold xor_bytes. revert b. induction a as [|x a IH]; intros [|y b] Hl; cbn in *; [done|done|lia|].
  rewrite IH by lia. f_equal. by rewrite N.lxor_assoc, N.lxor_nilpotent, N.lxor_0_r.
Qed.

Lemma lxor_bound16 a b : a < 2 ^ 16 → b < 2 ^ 16 → N.lxor a b < 2 ^ 16.
Proof.
  intros Ha Hb. destruct (N.eq_dec (N.lxor a b) 0) as [->|Hn]; [done|].
  apply N.log2_lt_pow2; [lia|]. eapply N.le_lt_trans; [apply N.log2_lxor|].
  apply N.max_lub_lt; (destruct (N.eq_dec a 0), (N.eq_dec b 0); subst; try (apply N.log2_lt_pow2; lia); done).
Qed.

Lemma port_roundtrip p : p < 2 ^ 16 → N.lxor (be_value (be_bytes 2 (N.lxor p port_mask))) port_mask = p.
Proof.
  intros Hp. rewrite be_value_be_bytes, N.mod_small by (by apply lxor_bound16).
  by rewrite N.lxor_assoc, N.lxor_nilpotent, N.lxor_0_r.
Qed.

Lemma decode_shape f p1 p0 x tx :
  (4 ≤ length x)%nat →
  decode_xor_address ([0; f] ++ [p1; p0] ++ x) tx =
    if f =? 1 then Some (mkSocketAddr (IpV4 (be_value (xor_bytes (take 4 x) cookie_bytes))) (N.lxor (be_value [p1; p0]) port_mask))
    else if (f =? 2) && Nat.leb 20 (4 + length x)
    then Some (mkSocketAddr (IpV6 (be_value (xor_bytes (take 16 x) (cookie_bytes ++ tx_bytes tx)))) (N.lxor (be_value [p1; p0]) port_mask))
    else None.
Proof.
  intros Hl. unfold decode_xor_address.
  destruct (Nat.ltb_spec (length ([0; f] ++ [p1; p0] ++ x)) 8) as [Hx|_]; [cbn in Hx; lia|]. reflexivity.
Qed.

Definition addr_ok (a : SocketAddr) : Prop :=
  sock_port a < 2 ^ 16 ∧ match sock_ip a with IpV4 n => n < 2 ^ 32 | IpV6 n => n < 2 ^ 128 end.

(** Addresses: [decode_xor_address] reads every address in the layout of RFC
    5389, of both families, and so what [encode_xor_address] writes for IPv4. For
    IPv6 the encoder writes four bytes too many in front of the address: its
    output has 24 bytes instead of 20, and the decoder reads the first four octets
    of the address followed by the first twelve again, masked differently. *)
Theorem xor_address_roundtrip a tx :
  addr_ok a → length (tx_bytes tx) = 12%nat →
  decode_xor_address (rfc5389_address a tx) tx = Some a ∧
  match sock_ip a with
  | IpV4 _ => encode_xor_address a tx = rfc5389_address a tx
  | IpV6 n =>
      length (encode_xor_address a tx) = 24%nat ∧ length (rfc5389_address a tx) = 20%nat ∧
      ∃ n', decode_xor_address (encode_xor_address a tx) tx = Some (mkSocketAddr (IpV6 n') (sock_port a)) ∧
        n' = be_value (take 4 (be_bytes 16 n) ++
               xor_bytes (take 12 (xor_bytes (be_bytes 16 n) (cookie_bytes ++ tx_bytes tx))) (tx_bytes tx))
  end.
Proof.
  intros [Hp Hip] Htx. destruct a as [ip p]. cbn [sock_ip sock_port] in *.
  assert (length (be_bytes 2 (N.lxor p port_mask)) = 2%nat) as Hpl by apply length_be_bytes.
  pose proof (port_roundtrip p Hp) as Hpr.
  destruct (be_bytes 2 (N.lxor p port_mask)) as [|p1 [|p0 [|? ?]]] eqn:Hpb; try discriminate Hpl. clear Hpl.
  destruct ip as [n|n].
  - split; [|done]. unfold rfc5389_address. cbn [sock_ip sock_port]. rewrite Hpb.
    pose proof (length_be_bytes 4 n) as Hl. assert (length (xor_bytes (be_bytes 4 n) cookie_bytes) = 4%nat) as Hxl.
    { unfold xor_bytes. rewrite length_zip_with, Hl. done. }
    rewrite (decode_shape 1 p1 p0 (xor_bytes (be_bytes 4 n) cookie_bytes)) by (rewrite Hxl; lia).
    change (1 =? 1) with true. cbv iota. rewrite Hpr, take_ge by (by rewrite Hxl). unfold cookie_bytes in *.
    rewrite xor_bytes_inv by (by rewrite !length_be_bytes). rewrite be_value_be_bytes, N.mod_small by done. done.
  - assert (length (be_bytes 16 n) = 16%nat) as Hl by apply length_be_bytes.
    assert (length cookie_bytes = 4%nat) as Hcl by done.
    set (ip := be_bytes 16 n) in *. set (mask := cookie_bytes ++ tx_bytes tx).
    assert (length mask = 16%nat) as Hml by (unfold mask; by rewrite length_app, Hcl, Htx).
    assert (length (xor_bytes ip mask) = 16%nat) as Hxl by (unfold xor_bytes; by rewrite length_zip_with, Hl, Hml).
    assert (length (xor_bytes (take 4 ip) cookie_bytes) = 4%nat) as Hyl.
    { unfold xor_bytes. rewrite length_zip_with, length_take, Hl, Hcl. done. }
    unfold rfc5389_address, encode_xor_address. cbn [sock_ip sock_port]. rewrite Hpb. fold ip mask.
    split_and!.
    + rewrite (decode_shape 2 p1 p0 (xor_bytes ip mask)) by (rewrite Hxl; lia).
      change (2 =? 1) with false. change (2 =? 2) with true. cbn [andb]. rewrite Hxl. cbn [Nat.leb Nat.add].
      rewrite Hpr, take_ge by (by rewrite Hxl). fold mask. rewrite xor_bytes_inv by (by rewrite Hl, Hml).
      unfold ip. by rewrite be_value_be_bytes, N.mod_small.
    + rewrite !length_app. cbn [length]. by rewrite Hxl, Hyl.
    + rewrite !length_app. cbn [length]. by rewrite Hxl.
    + eexists. split; [|done].
      rewrite (decode_shape 2 p1 p0 (xor_bytes (take 4 ip) cookie_bytes ++ xor_bytes ip mask))
        by (rewrite length_app, Hxl; lia).
      change (2 =? 1) with false. change (2 =? 2) with true. cbn [andb]. rewrite length_app, Hxl, Hyl. cbn [Nat.leb Nat.add].
      rewrite Hpr. do 3 f_equal. rewrite take_app_ge by (rewrite Hyl; lia). rewrite Hyl. cbn [Nat.sub].
      unfold mask at 2. unfold xor_bytes at 1. rewrite zip_with_app by done.
      do 2 f_equal. apply xor_bytes_inv. rewrite length_take, Hcl. lia.
Qed.

(** A class and number are reported exactly when the reply carries a class from 3
    to 6 and a number below 100; the reserved bits and the rest are ignored. *)
Lemma parse_error_code_spec b0 b1 b2 b3 rest :
  parse_error_code (b0 :: b1 :: b2 :: b3 :: rest) =
    if bool_decide (3 ≤ b2 mod 8 ≤ 6 ∧ b3 ≤ 99) then Some (b2 mod 8, b3) else None.
Proof.
  cbn [parse_error_code]. cbv zeta. change 7 with (N.ones 3). rewrite N.land_ones. change (2 ^ 3) with 8.
  destruct (N.leb_spec 3 (b2 mod 8)), (N.leb_spec (b2 mod 8) 6), (N.ltb_spec 99 b3); cbn [andb negb orb];
    case_bool_decide; (done || lia).
Qed.

(** The length written for an attribute includes the padding: a value of three
    bytes is read back with a zero appended. *)
Lemma push_attr_padding :
  let m := Message_push_attr (Message_new_request (mkTransactionId (replicate 12 0)) AllocateRequest) 6 [97; 98; 99] in
  (λ m, Message_first_attr m 6) <$> Message_decode (Message_encode m) = Some (Some [97; 98; 99; 0]).
Proof. vm_compute. reflexivity. Qed.

(** ** Witnesses *)

Definition tx0 : TransactionId := mkTransactionId (replicate 12 7).
Definition msg0 : Message := mkMessage AllocateRequest tx0 [mkAttribute 25 [17; 0; 0; 0]].

Lemma msg0_ok : message_ok msg0.
Proof. split; [done|done| |done]. constructor; [|constructor]. by split_and!. Qed.

Lemma stun_roundtrip_witness : Message_decode (Message_encode msg0 ++ [1; 2]) = Some msg0.
Proof. exact (proj1 (stun_roundtrip msg0 [1; 2] msg0_ok)). Defined.

Lemma stun_decode_typed_witness : kind_ok AllocateRequest.
Proof.
  refine (proj1 (stun_decode_typed (Message_encode msg0) msg0 _ _)); [|vm_compute; reflexivity].
  vm_compute. repeat constructor.
Defined.

Lemma xor_address_roundtrip_witness :
  decode_xor_address (rfc5389_address (mkSocketAddr (IpV4 16909060) 3478) tx0) tx0 = Some (mkSocketAddr (IpV4 16909060) 3478).
Proof.
  refine (proj1 (xor_address_roundtrip (mkSocketAddr (IpV4 16909060) 3478) tx0 _ _)); [split; reflexivity|reflexivity].
Defined.

(** An IPv6 address that does not survive. *)
Lemma xor_address_ipv6_broken :
  decode_xor_address (encode_xor_address (mkSocketAddr (IpV6 1) 3478) tx0) tx0 ≠ Some (mkSocketAddr (IpV6 1) 3478).
Proof. vm_compute. discriminate. Qed.
