(* ===== verification/TunPacket.v ===== *)
(** * IP packets at the TUN device ([crates/a3net-tun/src/packet.rs])

    The header view the mesh takes of every packet: version, protocol, addresses
    and lengths. Slicing beyond the buffer would panic; the parser checks the
    lengths first, and the model's [take] and [drop] coincide with the slices
    there. The texts of the error are left out. *)
From stdpp Require Import prelude list.
From Stdlib Require Import NArith Lia.
From S2P Require Import Prelude.

#[local] Open Scope N_scope.

Definition IPV4_HEADER_MIN : nat := 20%nat.
Definition IPV6_HEADER_MIN : nat := 40%nat.

Inductive IpVersion : Type := V4 | V6.
Definition IpVersion_header_min (v : IpVersion) : nat := match v with V4 => IPV4_HEADER_MIN | V6 => IPV6_HEADER_MIN end.

Inductive IpProtocol : Type := PIcmp | PTcp | PUdp | PIcmpv6 | POther (n : N).

Definition IpProtocol_as_u8 (p : IpProtocol) : N :=
  match p with PIcmp => 1 | PTcp => 6 | PUdp => 17 | PIcmpv6 => 58 | POther n => n end.

Inductive TunError : Type := InvalidPacket.

Record ParsedPacket : Type := mkParsedPacket {
  pp_version : IpVersion;
  pp_protocol : IpProtocol;
  pp_src : list N;
  pp_dst : list N;
  pp_header_len : nat;
  pp_total_len : nat
}.

Definition ParsedPacket_src_v4 (p : ParsedPacket) : list N := take 4 (pp_src p).
Definition ParsedPacket_dst_v4 (p : ParsedPacket) : list N := take 4 (pp_dst p).

(** [&raw[header_len..total_len.min(raw.len())]]: [None] is the panic of a slice
    whose start is past its end. *)
Definition ParsedPacket_payload (p : ParsedPacket) (raw : list N) : option (list N) :=
  let stop := Nat.min (pp_total_len p) (length raw) in
  if Nat.ltb stop (pp_header_len p) then None
  else Some (take (stop - pp_header_len p) (drop (pp_header_len p) raw)).

Definition byte_at (raw : list N) (i : nat) : N := default 0 (raw !! i).
Definition be16_at (raw : list N) (i : nat) : nat := N.to_nat (be_value [byte_at raw i; byte_at raw (S i)]).

Definition v4_protocol (b : N) : IpProtocol :=
  if b =? 1 then PIcmp else if b =? 6 then PTcp else if b =? 17 then PUdp else POther b.
Definition v6_protocol (b : N) : IpProtocol :=
  if b =? 6 then PTcp else if b =? 17 then PUdp else if b =? 58 then PIcmpv6 else POther b.

Definition parse_v4 (raw : list N) : result TunError ParsedPacket :=
  if Nat.ltb (length raw) IPV4_HEADER_MIN then Err InvalidPacket
  else
    let ihl_words := N.to_nat (N.land (byte_at raw 0) 15) in
    let header_len := (ihl_words * 4)%nat in
    if Nat.ltb header_len IPV4_HEADER_MIN || Nat.ltb (length raw) header_len then Err InvalidPacket
    else
      let total_len := be16_at raw 2 in
      if Nat.ltb total_len header_len || Nat.ltb (length raw) total_len then Err InvalidPacket
      else
        Ok (mkParsedPacket V4 (v4_protocol (byte_at raw 9))
              (take 4 (drop 12 raw) ++ replicate 12 0) (take 4 (drop 16 raw) ++ replicate 12 0)
              header_len total_len).

Definition parse_v6 (raw : list N) : result TunError ParsedPacket :=
  if Nat.ltb (length raw) IPV6_HEADER_MIN then Err InvalidPacket
  else
    let payload_len := be16_at raw 4 in
    let total_len := (IPV6_HEADER_MIN + payload_len)%nat in
    if Nat.ltb (length raw) total_len then Err InvalidPacket
    else
      Ok (mkParsedPacket V6 (v6_protocol (byte_at raw 6)) (take 16 (drop 8 raw)) (take 16 (drop 24 raw))
            IPV6_HEADER_MIN total_len).

Definition parse_packet (raw : list N) : result TunError ParsedPacket :=
  match raw with
  | [] => Err InvalidPacket
  | b :: _ =>
      let version := N.shiftr b 4 in
      if version =? 4 then parse_v4 raw else if version =? 6 then parse_v6 raw else Err InvalidPacket
  end.

Definition packet_to_bytes (raw : list N) : result TunError (list N) :=
  let? parsed := parse_packet raw in
  if Nat.ltb (length raw) (pp_total_len parsed) then Err InvalidPacket else Ok (take (pp_total_len parsed) raw).

(** ** Bounds *)

(** The protocol byte can be read back, and the two families never report each
    other's control protocol. *)
Lemma protocol_roundtrip b :
  IpProtocol_as_u8 (v4_protocol b) = b ∧ IpProtocol_as_u8 (v6_protocol b) = b ∧
  v4_protocol b ≠ PIcmpv6 ∧ v6_protocol b ≠ PIcmp.
Proof.
  unfold v4_protocol, v6_protocol.
  destruct (N.eqb_spec b 1), (N.eqb_spec b 6), (N.eqb_spec b 17), (N.eqb_spec b 58); subst; by split_and!.
Qed.

(** The view of a header, and the conditions under which it is accepted. *)
Definition v4_header (raw : list N) : nat := (N.to_nat (N.land (byte_at raw 0) 15) * 4)%nat.
Definition v4_view (raw : list N) : ParsedPacket :=
  mkParsedPacket V4 (v4_protocol (byte_at raw 9))
    (take 4 (drop 12 raw) ++ replicate 12 0) (take 4 (drop 16 raw) ++ replicate 12 0) (v4_header raw) (be16_at raw 2).
Definition v6_view (raw : list N) : ParsedPacket :=
  mkParsedPacket V6 (v6_protocol (byte_at raw 6)) (take 16 (drop 8 raw)) (take 16 (drop 24 raw))
    40 (40 + be16_at raw 4).

Lemma parse_v4_iff raw p :
  parse_v4 raw = Ok p ↔ (20 ≤ v4_header raw ≤ be16_at raw 2)%nat ∧ (be16_at raw 2 ≤ length raw)%nat ∧ p = v4_view raw.
Proof.
  unfold parse_v4, IPV4_HEADER_MIN. cbv zeta. fold (v4_header raw). fold (v4_view raw).
  destruct (Nat.ltb_spec (length raw) 20), (Nat.ltb_spec (v4_header raw) 20), (Nat.ltb_spec (length raw) (v4_header raw)),
    (Nat.ltb_spec (be16_at raw 2) (v4_header raw)), (Nat.ltb_spec (length raw) (be16_at raw 2)); cbn [orb];
    (split; [intros Heq; try discriminate Heq; try (injection Heq as <-); split_and!; (lia || reflexivity)
            |intros (? & ? & ?); (subst p; reflexivity) || lia]).
Qed.

Lemma parse_v6_iff raw p :
  parse_v6 raw = Ok p ↔ (40 + be16_at raw 4 ≤ length raw)%nat ∧ p = v6_view raw.
Proof.
  unfold parse_v6, IPV6_HEADER_MIN. cbv zeta. fold (v6_view raw).
  destruct (Nat.ltb_spec (length raw) 40), (Nat.ltb_spec (length raw) (40 + be16_at raw 4));
    (split; [intros Heq; try discriminate Heq; try (injection Heq as <-); split_and!; (lia || reflexivity)
            |intros (? & ?); (subst p; reflexivity) || lia]).
Qed.

Lemma parse_packet_iff raw p :
  parse_packet raw = Ok p ↔
    raw ≠ [] ∧ ((N.shiftr (byte_at raw 0) 4 = 4 ∧ parse_v4 raw = Ok p) ∨ (N.shiftr (byte_at raw 0) 4 = 6 ∧ parse_v6 raw = Ok p)).
Proof.
  destruct raw as [|b raw]; [by split; [|intros [? _]]|].
  change (byte_at (b :: raw) 0) with b. unfold parse_packet. cbv zeta.
  destruct (N.eqb_spec (N.shiftr b 4) 4) as [Hv|Hv]; [|destruct (N.eqb_spec (N.shiftr b 4) 6) as [Hv'|Hv']];
    (split; [intros Heq; first [discriminate Heq | split; [done|tauto]]|intros [_ [[? ?]|[? ?]]]; (done || congruence)]).
Qed.

(** *** Trimming *)

Lemma byte_at_take raw n i : (i < n)%nat → byte_at (take n raw) i = byte_at raw i.
Proof. intros Hi. unfold byte_at. by rewrite lookup_take_lt. Qed.

Lemma take_drop_take {A} (l : list A) a b n : (a + b ≤ n)%nat → take b (drop a (take n l)) = take b (drop a l).
Proof. intros Hn. rewrite skipn_firstn_comm, take_take. f_equal. lia. Qed.

Lemma be16_at_take raw n i : (S i < n)%nat → be16_at (take n raw) i = be16_at raw i.
Proof. intros Hi. unfold be16_at. by rewrite !byte_at_take by lia. Qed.

(** The parser reads header bytes only: it gives the same view of the packet with
    whatever follows it cut off. *)
Lemma parse_packet_trim raw p : parse_packet raw = Ok p → parse_packet (take (pp_total_len p) raw) = Ok p.
Proof.
  rewrite !parse_packet_iff. intros [Hne [[Hv (Hh & Ht & ->)%parse_v4_iff]|[Hv (Ht & ->)%parse_v6_iff]]].
  - cbn [pp_total_len v4_view] in *. set (n := be16_at raw 2) in *. split; [destruct raw, n; done || lia|].
    left. rewrite byte_at_take by lia. split; [done|]. apply parse_v4_iff. unfold v4_header, v4_view.
    rewrite !byte_at_take, be16_at_take, !take_drop_take, length_take by lia. fold (v4_header raw) n. split_and!; [lia|lia|lia|by unfold v4_header; rewrite byte_at_take by lia].
  - cbn [pp_total_len v6_view] in *. set (n := be16_at raw 4) in *. split; [destruct raw; [done|]; by destruct n|].
    right. rewrite byte_at_take by lia. split; [done|]. apply parse_v6_iff. unfold v6_view.
    rewrite !byte_at_take, !be16_at_take, !take_drop_take, length_take by lia. fold n. split; [lia|done].
Qed.

(** The buffer holds a packet of version 4, with a header of at least 20 bytes inside the
    packet and the packet inside the buffer, or one of version 6 inside the buffer. *)
Definition holds_packet (raw : list N) : Prop :=
  (N.shiftr (byte_at raw 0) 4 = 4 ∧ (20 ≤ v4_header raw ≤ be16_at raw 2)%nat ∧ (be16_at raw 2 ≤ length raw)%nat) ∨
  (N.shiftr (byte_at raw 0) 4 = 6 ∧ (40 + be16_at raw 4 ≤ length raw)%nat).

Lemma parse_packet_accepts raw : (∃ p, parse_packet raw = Ok p) ↔ holds_packet raw.
Proof.
  unfold holds_packet. split.
  - intros [p [_ [[Hv (Hh & Ht & _)%parse_v4_iff]|[Hv (Ht & _)%parse_v6_iff]]]%parse_packet_iff]; [by left|by right].
  - intros [(Hv & Hh & Ht)|[Hv Ht]]; [exists (v4_view raw)|exists (v6_view raw)]; apply parse_packet_iff;
      (split; [by intros ->|]); [left|right]; (split; [done|]); [by apply parse_v4_iff|by apply parse_v6_iff].
Qed.

(** C30. The parser of the packets at the TUN device stays inside the buffer. It accepts a
    buffer exactly when it holds a packet: version 4 with a header of at least 20 bytes in
    the packet and the packet in the buffer, or version 6 with the fixed header and the
    payload in the buffer. For an accepted buffer the header has at least the minimal size
    of its version and lies in the packet, the packet lies in the buffer, both addresses
    have 16 octets, the payload slice does not panic and is the packet without its header,
    and cutting the buffer to the packet, which is what [packet_to_bytes] returns, gives
    the same view. *)
Theorem packet_bounds raw :
  ((∃ p, parse_packet raw = Ok p) ↔ holds_packet raw) ∧
  ∀ p, parse_packet raw = Ok p →
  (IpVersion_header_min (pp_version p) ≤ pp_header_len p ≤ pp_total_len p)%nat ∧ (pp_total_len p ≤ length raw)%nat ∧
  length (pp_src p) = 16%nat ∧ length (pp_dst p) = 16%nat ∧
  ParsedPacket_payload p raw = Some (drop (pp_header_len p) (take (pp_total_len p) raw)) ∧
  packet_to_bytes raw = Ok (take (pp_total_len p) raw) ∧ parse_packet (take (pp_total_len p) raw) = Ok p.
Proof.
  split; [apply parse_packet_accepts|]. intros p Hp. pose proof (parse_packet_trim raw p Hp) as Htrim.
  assert ((IpVersion_header_min (pp_version p) ≤ pp_header_len p ≤ pp_total_len p)%nat ∧ (pp_total_len p ≤ length raw)%nat ∧
    length (pp_src p) = 16%nat ∧ length (pp_dst p) = 16%nat) as (Hh & Ht & Hs & Hd).
  { apply parse_packet_iff in Hp as [_ [[_ (Hh & Ht & ->)%parse_v4_iff]|[_ (Ht & ->)%parse_v6_iff]]];
      cbn [v4_view v6_view pp_version pp_header_len pp_total_len pp_src pp_dst IpVersion_header_min];
      unfold IPV4_HEADER_MIN, IPV6_HEADER_MIN; rewrite ?length_app, ?length_take, ?length_drop, ?length_replicate; lia. }
  split_and!; [lia|lia|lia|done|done| |unfold packet_to_bytes; rewrite Hp; by destruct (Nat.ltb_spec (length raw) (pp_total_len p)); [lia|]|done].
  unfold ParsedPacket_payload. rewrite Nat.min_l by lia.
  destruct (Nat.ltb_spec (pp_total_len p) (pp_header_len p)); [lia|]. by rewrite skipn_firstn_comm.
Qed.

(** ** Witness *)

(** A packet of 24 bytes from 10.0.0.1 to 10.0.0.2, protocol 17, with padding. *)
Definition udp_packet : list N :=
  [69; 0; 0; 24; 0; 0; 0; 0; 64; 17; 0; 0; 10; 0; 0; 1; 10; 0; 0; 2; 1; 2; 3; 4; 0; 0].

Lemma packet_bounds_witness :
  ∃ p, parse_packet udp_packet = Ok p ∧ ParsedPacket_payload p udp_packet = Some [1; 2; 3; 4].
Proof.
  destruct (parse_packet udp_packet) as [p|e] eqn:Hp; [|vm_compute in Hp; discriminate].
  exists p. split; [reflexivity|].
  destruct (proj2 (packet_bounds udp_packet) p Hp) as (_ & _ & _ & _ & Hpl & _). rewrite Hpl.
  vm_compute in Hp. injection Hp as <-. reflexivity.
Defined.
