(* ===== verification/HolePunch.v ===== *)
(** * Hole punching ([crates/a3net-hole-punch/src/])

    The planner races the strategies that find the addresses of a peer:
    [config.rs] (what is raced), [strategy.rs] (strategies and what they
    return), [planner.rs] (the race) and [diagnostics.rs] (its counters). Each
    strategy runs in a task of its own; the race is a transition system whose
    events are the end of a task, with what it returned, and the deadline. The
    code outside the repository is what [futures::future::select_all] leaves to
    be raced again, in an order its documentation does not promise, and a custom
    resolver, which is a label with capabilities. Durations are nanoseconds;
    the text of a duration and of a node identifier are arguments. *)
From stdpp Require Import prelude strings gmap list.
From Stdlib Require Import NArith Lia.
From S2P Require Import Prelude Floats NodeId.

#[local] Open Scope N_scope.

(** ** Errors *)

Inductive HolePunchError : Type :=
| Cancelled
| StrategiesExhausted (elapsed : N) (attempted : nat)
| InvalidNodeId (why : string)
| ResolverIo (msg : string)
| InvalidWireFormat (msg : string)
| InvalidConfig (msg : string)
| HpInternal (msg : string).

Definition exhausted (elapsed : N) (attempted : nat) : HolePunchError := StrategiesExhausted elapsed attempted.

Definition is_cancelled (e : HolePunchError) : bool := match e with Cancelled => true | _ => false end.
Definition is_hard_failure (e : HolePunchError) : bool := negb (is_cancelled e).

Definition classify (e : HolePunchError) : string :=
  match e with
  | Cancelled => "cancelled"
  | StrategiesExhausted _ _ => "exhausted"
  | InvalidNodeId _ => "invalid_node_id"
  | ResolverIo _ => "resolver_io"
  | InvalidWireFormat _ => "invalid_wire_format"
  | InvalidConfig _ => "invalid_config"
  | HpInternal _ => "internal"
  end.

(** [Display]; [show_dur] is the [Debug] of a duration. *)
Definition hole_punch_error_to_string (show_dur : N → string) (e : HolePunchError) : string :=
  match e with
  | Cancelled => "hole-punch attempt cancelled"
  | StrategiesExhausted d _ => "all hole-punch strategies exhausted after " +:+ show_dur d
  | InvalidNodeId w => "invalid target node id: " +:+ w
  | ResolverIo m => "resolver I/O error: " +:+ m
  | InvalidWireFormat m => "resolver returned invalid wire-format data: " +:+ m
  | InvalidConfig m => "invalid configuration: " +:+ m
  | HpInternal m => "internal: " +:+ m
  end.

(** ** Strategies *)

Record DirectAddress : Type := mkDirectAddress { da_host : string; da_port : N }.

Definition DirectAddress_display (a : DirectAddress) : string := da_host a +:+ ":" +:+ show_N (da_port a).

Record ResolvedEndpoint : Type := mkResolved {
  re_node_id : NodeId;
  re_relay_urls : list string;
  re_direct_addresses : list DirectAddress;
  re_user_data : option string
}.

Definition ResolvedEndpoint_empty (node_id : NodeId) : ResolvedEndpoint := mkResolved node_id [] [] None.

Definition has_any_address (e : ResolvedEndpoint) : bool :=
  negb (match re_relay_urls e with [] => true | _ => false end) ||
  negb (match re_direct_addresses e with [] => true | _ => false end).

Definition address_count (e : ResolvedEndpoint) : nat :=
  (length (re_relay_urls e) + length (re_direct_addresses e))%nat.

Record ResolverCapabilities : Type := mkCaps {
  rc_lan : bool; rc_wan : bool; rc_zero_knowledge : bool; rc_out_of_band : bool
}.

Definition caps_all : ResolverCapabilities := mkCaps true true true true.
Definition caps_pkarr_dns : ResolverCapabilities := mkCaps false true true false.
Definition caps_mdns : ResolverCapabilities := mkCaps true false false false.
Definition caps_mainline_dht : ResolverCapabilities := mkCaps false true true false.
Definition caps_ticket : ResolverCapabilities := mkCaps false false false true.

(** What the planner asks of a resolver without running it. *)
Record Resolver : Type := mkResolver { rs_label : string; rs_capabilities : ResolverCapabilities }.

Inductive HolePunchStrategy : Type := Ticket | Mdns | MainlineDht | PkarrDns | Custom (r : Resolver).

Definition strategy_label (s : HolePunchStrategy) : string :=
  match s with
  | Ticket => "a3net-ticket"
  | Mdns => "a3net-mdns"
  | MainlineDht => "a3net-mainline-dht"
  | PkarrDns => "a3net-pkarr-dns"
  | Custom r => rs_label r
  end.

Definition strategy_capabilities (s : HolePunchStrategy) : ResolverCapabilities :=
  match s with
  | Ticket => caps_ticket
  | Mdns => caps_mdns
  | MainlineDht => caps_mainline_dht
  | PkarrDns => caps_pkarr_dns
  | Custom r => rs_capabilities r
  end.

Definition as_custom (s : HolePunchStrategy) : option Resolver := match s with Custom r => Some r | _ => None end.
Definition is_custom (s : HolePunchStrategy) : bool := match s with Custom _ => true | _ => false end.

Definition same_kind (a b : HolePunchStrategy) : bool :=
  match a, b with
  | Ticket, Ticket | Mdns, Mdns | MainlineDht, MainlineDht | PkarrDns, PkarrDns => true
  | _, _ => false
  end.

(** The resolver that stands in for a built-in strategy. *)
Definition HollowResolver_from_strategy (s : HolePunchStrategy) : Resolver :=
  match s with
  | Ticket => mkResolver "a3net-ticket" caps_ticket
  | Mdns => mkResolver "a3net-mdns" caps_mdns
  | MainlineDht => mkResolver "a3net-mainline-dht" caps_mainline_dht
  | PkarrDns => mkResolver "a3net-pkarr-dns" caps_pkarr_dns
  | Custom _ => mkResolver "a3net-custom" caps_all
  end.

Definition HollowResolver_resolve (target : NodeId) : result HolePunchError ResolvedEndpoint :=
  Ok (ResolvedEndpoint_empty target).

(** ** Configuration *)

(** Seconds in nanoseconds. *)
Definition hp_secs (n : N) : N := n * 1000000000.
Definition DEFAULT_BUDGET : N := hp_secs 8.
Definition DEFAULT_PER_STRATEGY_BUDGET : N := hp_secs 8.
Definition MIN_PER_STRATEGY_BUDGET : N := 100 * 1000000.
Definition MAX_STRATEGIES : nat := 16%nat.

Inductive PunchOrdering : Type := RaceAll | PreferFirst.
Inductive TimeoutPolicy : Type := FailOnTimeout | SilentEmpty.

Record RequiredCapabilities : Type := mkRequired {
  rq_lan : bool; rq_wan : bool; rq_zero_knowledge : bool; rq_out_of_band : bool
}.

Definition intersects (q : RequiredCapabilities) (c : ResolverCapabilities) : bool :=
  (rq_lan q && rc_lan c) || (rq_wan q && rc_wan c) || (rq_zero_knowledge q && rc_zero_knowledge c)
  || (rq_out_of_band q && rc_out_of_band c).

Definition wan_or_dht : RequiredCapabilities := mkRequired false true true false.
Definition tickets_only : RequiredCapabilities := mkRequired false false false true.

Record HolePunchConfig : Type := mkHpConfig {
  hc_strategies : list HolePunchStrategy;
  hc_budget : N;
  hc_per_strategy_budget : N;
  hc_ordering : PunchOrdering;
  hc_timeout_policy : TimeoutPolicy;
  hc_require_capabilities : option RequiredCapabilities;
  hc_max_concurrent : option nat
}.

Definition config_of (strategies : list HolePunchStrategy) : HolePunchConfig :=
  mkHpConfig strategies DEFAULT_BUDGET DEFAULT_PER_STRATEGY_BUDGET RaceAll FailOnTimeout None None.

Definition HolePunchConfig_default : HolePunchConfig := config_of [PkarrDns].
Definition dns_only : HolePunchConfig := config_of [PkarrDns].
Definition air_gapped : HolePunchConfig := config_of [Mdns; Ticket].
Definition all_channels : HolePunchConfig := config_of [Ticket; Mdns; MainlineDht; PkarrDns].

Definition set_strategies (c : HolePunchConfig) (l : list HolePunchStrategy) : HolePunchConfig :=
  mkHpConfig l (hc_budget c) (hc_per_strategy_budget c) (hc_ordering c) (hc_timeout_policy c)
    (hc_require_capabilities c) (hc_max_concurrent c).

Definition strategy_label_matches (existing incoming : HolePunchStrategy) : bool :=
  String.eqb (strategy_label existing) (strategy_label incoming).

Definition with_strategy (c : HolePunchConfig) (s : HolePunchStrategy) : HolePunchConfig :=
  if negb (existsb (λ e, strategy_label_matches e s) (hc_strategies c))
  then set_strategies c (hc_strategies c ++ [s]) else c.

Definition with_extra_resolver (c : HolePunchConfig) (r : Resolver) : HolePunchConfig := with_strategy c (Custom r).

Definition with_budget (c : HolePunchConfig) (d : N) : HolePunchConfig :=
  mkHpConfig (hc_strategies c) d (hc_per_strategy_budget c) (hc_ordering c) (hc_timeout_policy c)
    (hc_require_capabilities c) (hc_max_concurrent c).
Definition with_per_strategy_budget (c : HolePunchConfig) (d : N) : HolePunchConfig :=
  mkHpConfig (hc_strategies c) (hc_budget c) d (hc_ordering c) (hc_timeout_policy c)
    (hc_require_capabilities c) (hc_max_concurrent c).
Definition with_ordering (c : HolePunchConfig) (o : PunchOrdering) : HolePunchConfig :=
  mkHpConfig (hc_strategies c) (hc_budget c) (hc_per_strategy_budget c) o (hc_timeout_policy c)
    (hc_require_capabilities c) (hc_max_concurrent c).
Definition with_timeout_policy (c : HolePunchConfig) (p : TimeoutPolicy) : HolePunchConfig :=
  mkHpConfig (hc_strategies c) (hc_budget c) (hc_per_strategy_budget c) (hc_ordering c) p
    (hc_require_capabilities c) (hc_max_concurrent c).
Definition with_required_capabilities (c : HolePunchConfig) (q : RequiredCapabilities) : HolePunchConfig :=
  mkHpConfig (hc_strategies c) (hc_budget c) (hc_per_strategy_budget c) (hc_ordering c) (hc_timeout_policy c)
    (Some q) (hc_max_concurrent c).
Definition with_max_concurrent (c : HolePunchConfig) (n : nat) : HolePunchConfig :=
  mkHpConfig (hc_strategies c) (hc_budget c) (hc_per_strategy_budget c) (hc_ordering c) (hc_timeout_policy c)
    (hc_require_capabilities c) (Some n).

Definition without_strategy_by_label (c : HolePunchConfig) (label : string) : HolePunchConfig :=
  set_strategies c (List.filter (λ s, negb (String.eqb (strategy_label s) label)) (hc_strategies c)).

Definition eligible (c : HolePunchConfig) (s : HolePunchStrategy) : bool :=
  match hc_require_capabilities c with
  | None => true
  | Some q => intersects q (strategy_capabilities s)
  end.

Definition effective_strategies (c : HolePunchConfig) : list HolePunchStrategy :=
  let out := filter (λ s, eligible c s = true) (hc_strategies c) in
  match hc_max_concurrent c with Some max => take max out | None => out end.

Definition effective_strategy_count (c : HolePunchConfig) : nat := length (effective_strategies c).

Section Planner.
Context (show_dur : N → string).

Definition validate (c : HolePunchConfig) : result HolePunchError unit :=
  let n := length (hc_strategies c) in
  if Nat.eqb n 0 then Err (InvalidConfig "no strategies enabled")
  else if Nat.ltb MAX_STRATEGIES n
  then Err (InvalidConfig ("too many strategies: " +:+ show_N (N.of_nat n) +:+ " > max " +:+ show_N (N.of_nat MAX_STRATEGIES)))
  else if hc_budget c =? 0 then Err (InvalidConfig "budget must be > 0")
  else if hc_per_strategy_budget c <? MIN_PER_STRATEGY_BUDGET
  then Err (InvalidConfig ("per_strategy_budget " +:+ show_dur (hc_per_strategy_budget c) +:+ " below minimum "
                           +:+ show_dur MIN_PER_STRATEGY_BUDGET))
  else if hc_budget c <? hc_per_strategy_budget c
  then Err (InvalidConfig ("per_strategy_budget " +:+ show_dur (hc_per_strategy_budget c) +:+ " exceeds overall budget "
                           +:+ show_dur (hc_budget c)))
  else match hc_max_concurrent c with
       | Some max =>
           if Nat.eqb max 0 then Err (InvalidConfig "max_concurrent must be > 0")
           else if Nat.ltb n max
           then Err (InvalidConfig ("max_concurrent " +:+ show_N (N.of_nat max) +:+ " exceeds enabled strategies "
                                    +:+ show_N (N.of_nat n)))
           else Ok tt
       | None => Ok tt
       end.

(** The builder starts without strategies and keeps the share of a strategy
    within the budget it is given. *)
Definition HolePunchConfigBuilder_new : HolePunchConfig := set_strategies HolePunchConfig_default [].

Definition builder_budget (b : HolePunchConfig) (d : N) : HolePunchConfig :=
  let b := if d <? hc_per_strategy_budget b then with_per_strategy_budget b d else b in
  with_budget b d.

Definition builder_build (b : HolePunchConfig) : result HolePunchError HolePunchConfig :=
  let? _ := validate b in Ok b.

(** [None] is the panic of [as_bytes] on an identifier that is not hexadecimal. *)
Definition validate_node_id `{Hex} (node_id : NodeId) : option (result HolePunchError unit) :=
  bytes ← NodeId_as_bytes node_id;
  Some (if negb (Nat.eqb (length bytes) 32)
        then Err (InvalidNodeId ("expected 32 bytes, got " +:+ show_N (N.of_nat (length bytes))))
        else Ok tt).

(** ** Attempts and outcomes *)

Inductive AttemptOutcome : Type :=
| Hit (addresses : nat)
| Empty
| ErrorOutcome (error message : string)
| CancelledOutcome.

Definition outcome_tag (o : AttemptOutcome) : string :=
  match o with Hit _ => "hit" | Empty => "empty" | ErrorOutcome _ _ => "error" | CancelledOutcome => "cancelled" end.

Definition is_winner (o : AttemptOutcome) : bool := match o with Hit _ => true | _ => false end.

Record StrategyAttempt : Type := mkAttempt {
  sa_strategy : string;
  sa_capabilities : ResolverCapabilities;
  sa_outcome : AttemptOutcome;
  sa_elapsed : N
}.

Record HolePunchOutcome : Type := mkOutcome {
  ho_endpoint : option ResolvedEndpoint;
  ho_winning_strategy : option string;
  ho_attempts : list StrategyAttempt;
  ho_elapsed : N;
  ho_started_at : N;
  ho_error : option HolePunchError;
  ho_enabled_strategies : list string;
  ho_effective_strategy_count : nat
}.

Definition is_hit (o : HolePunchOutcome) : bool := bool_decide (is_Some (ho_endpoint o)).

Definition count_outcomes (p : AttemptOutcome → bool) (o : HolePunchOutcome) : nat :=
  length (List.filter (λ a, p (sa_outcome a)) (ho_attempts o)).
Definition hits : HolePunchOutcome → nat := count_outcomes is_winner.
Definition empties : HolePunchOutcome → nat := count_outcomes (λ o, match o with Empty => true | _ => false end).
Definition errors : HolePunchOutcome → nat := count_outcomes (λ o, match o with ErrorOutcome _ _ => true | _ => false end).
Definition cancelled : HolePunchOutcome → nat := count_outcomes (λ o, match o with CancelledOutcome => true | _ => false end).

(** ** The race *)

(** The resolver a strategy runs. *)
Definition resolver_of (s : HolePunchStrategy) : Resolver :=
  match s with Custom r => r | _ => HollowResolver_from_strategy s end.

(** A custom resolver answers what it likes, a built-in one is hollow. *)
Definition answer_of (target : NodeId) (s : HolePunchStrategy) (answer : result HolePunchError ResolvedEndpoint)
  : result HolePunchError ResolvedEndpoint :=
  match s with Custom _ => answer | _ => HollowResolver_resolve target end.

(** What the task of a strategy makes of the resolver's answer. *)
Definition run_task (r : Resolver) (outcome : result HolePunchError ResolvedEndpoint) (elapsed : N)
  : StrategyAttempt * option ResolvedEndpoint :=
  let '(attempt_outcome, real_endpoint) :=
    match outcome with
    | Ok endpoint =>
        if has_any_address endpoint then (Hit (address_count endpoint), Some endpoint) else (Empty, None)
    | Err Cancelled => (CancelledOutcome, None)
    | Err e => (ErrorOutcome (classify e) (hole_punch_error_to_string show_dur e), None)
    end in
  (mkAttempt (rs_label r) (rs_capabilities r) attempt_outcome elapsed, real_endpoint).

(** The strategies with their positions; [rc_still_pending] holds the positions
    of the tasks that [select_all] races, in its order, and
    [rc_pending_indices] what the planner believes them to be. *)
Record Race : Type := mkRace {
  rc_still_pending : list nat;
  rc_pending_indices : list nat;
  rc_attempts : list StrategyAttempt;
  rc_endpoint : option ResolvedEndpoint;
  rc_winning_strategy : option string
}.

Definition race_start (n : nat) : Race := mkRace (seq 0 n) (seq 0 n) [] None None.

(** What a finished task gives: [None] is a task that panicked or was aborted. *)
Inductive RaceEvent : Type :=
| EvDeadline
| EvTask (idx : nat) (output : option (result HolePunchError ResolvedEndpoint * N)) (rest : list nat).

Definition cancelled_attempt (meta : list (string * ResolverCapabilities)) (i : nat) : option StrategyAttempt :=
  '(label, caps) ← meta !! i; Some (mkAttempt label caps CancelledOutcome 0).

(** [None]: the race is over, or the event cannot happen. [rest] is the order in which
    [select_all] returns the tasks that are left. *)
Definition race_step (target : NodeId) (strategies : list HolePunchStrategy) (st : Race) (ev : RaceEvent) : option Race :=
  let meta := (λ s, (strategy_label s, strategy_capabilities s)) <$> strategies in
  match rc_pending_indices st with
  | [] => None
  | _ =>
      match ev with
      | EvDeadline =>
          Some (mkRace (rc_still_pending st) [] (rc_attempts st ++ omap (cancelled_attempt meta) (rc_pending_indices st))
                  (rc_endpoint st) (rc_winning_strategy st))
      | EvTask idx output rest =>
          task ← rc_still_pending st !! idx;
          s ← strategies !! task;
          original_idx ← rc_pending_indices st !! idx;
          '(label, caps) ← meta !! original_idx;
          if negb (bool_decide (rest ≡ₚ delete idx (rc_still_pending st))) then None
          else
            let left := delete idx (rc_pending_indices st) in
            match output with
            | None =>
                Some (mkRace rest left (rc_attempts st ++ [mkAttempt label caps CancelledOutcome 0])
                        (rc_endpoint st) (rc_winning_strategy st))
            | Some (outcome, elapsed) =>
                let '(att, real_endpoint) := run_task (resolver_of s) (answer_of target s outcome) elapsed in
                let attempts := rc_attempts st ++ [att] in
                match real_endpoint with
                | None => Some (mkRace rest left attempts (rc_endpoint st) (rc_winning_strategy st))
                | Some e =>
                    let '(endpoint, winner) :=
                      match rc_endpoint st with
                      | None => (Some e, Some label)
                      | Some _ => (rc_endpoint st, rc_winning_strategy st)
                      end in
                    match rest with
                    | [] => Some (mkRace rest left attempts endpoint winner)
                    | _ => Some (mkRace rest [] (attempts ++ omap (cancelled_attempt meta) left) endpoint winner)
                    end
                end
            end
      end
  end.

Fixpoint race_run (target : NodeId) (strategies : list HolePunchStrategy) (st : Race) (evs : list RaceEvent) : option Race :=
  match evs with
  | [] => Some st
  | ev :: evs => st' ← race_step target strategies st ev; race_run target strategies st' evs
  end.

(** [punch_impl]; the events of the race are an argument, [None] in the result is
    a panic or a list of events that is not a whole race. *)
Definition punch_impl `{Hex} (c : HolePunchConfig) (target : NodeId) (started_at elapsed : N) (evs : list RaceEvent)
  : option HolePunchOutcome :=
  let strategies := effective_strategies c in
  let labels := strategy_label <$> strategies in
  valid ← validate_node_id target;
  match valid with
  | Err e => Some (mkOutcome None None [] elapsed started_at (Some e) labels 0)
  | Ok _ =>
      match strategies with
      | [] => Some (mkOutcome None None [] elapsed started_at
                      (Some (InvalidConfig "all strategies filtered out")) labels 0)
      | _ =>
          race ← race_run target strategies (race_start (length strategies)) evs;
          match rc_pending_indices race with
          | _ :: _ => None
          | [] =>
              let error := match rc_endpoint race with
                           | Some _ => None
                           | None =>
                               match hc_timeout_policy c with
                               | FailOnTimeout => Some (exhausted elapsed (length (rc_attempts race)))
                               | SilentEmpty => Some (exhausted elapsed (length (rc_attempts race)))
                               end
                           end in
              Some (mkOutcome (rc_endpoint race) (rc_winning_strategy race) (rc_attempts race) elapsed started_at error
                      labels (length strategies))
          end
      end
  end.

(** [try_punch] on the outcome. *)
Definition try_punch (o : HolePunchOutcome) : result HolePunchError ResolvedEndpoint :=
  match ho_error o with
  | None => ok_or (HpInternal "outcome without error but no endpoint") (ho_endpoint o)
  | Some err => Err err
  end.
End Planner.

(** ** Diagnostics *)

(** [u64] counters under a lock; 2^64 attempts are out of reach. *)
Record StrategyCount : Type := mkCount {
  sc_strategy : string;
  sc_attempts : N;
  sc_hits : N;
  sc_empties : N;
  sc_errors : N;
  sc_cancelled : N
}.

Record HolePunchDiagnostics : Type := mkDiagnostics {
  hd_calls_total : N;
  hd_calls_hit : N;
  hd_calls_exhausted : N;
  hd_calls_cancelled : N;
  hd_by_strategy : list StrategyCount;
  hd_last_outcome : option HolePunchOutcome;
  hd_last_call_at : option N
}.

Definition HolePunchDiagnostics_new : HolePunchDiagnostics := mkDiagnostics 0 0 0 0 [] None None.

(** [fetch_add(1)] wraps. *)
Definition fetch_inc (n : N) : N := (n + 1) mod 2 ^ 64.

Definition bump_count (o : AttemptOutcome) (c : StrategyCount) : StrategyCount :=
  match o with
  | Hit _ => mkCount (sc_strategy c) (sc_attempts c) (sc_hits c + 1) (sc_empties c) (sc_errors c) (sc_cancelled c)
  | Empty => mkCount (sc_strategy c) (sc_attempts c) (sc_hits c) (sc_empties c + 1) (sc_errors c) (sc_cancelled c)
  | ErrorOutcome _ _ =>
      mkCount (sc_strategy c) (sc_attempts c) (sc_hits c) (sc_empties c) (sc_errors c + 1) (sc_cancelled c)
  | CancelledOutcome =>
      mkCount (sc_strategy c) (sc_attempts c) (sc_hits c) (sc_empties c) (sc_errors c) (sc_cancelled c + 1)
  end.

Definition count_attempt (c : StrategyCount) : StrategyCount :=
  mkCount (sc_strategy c) (sc_attempts c + 1) (sc_hits c) (sc_empties c) (sc_errors c) (sc_cancelled c).

(** [iter_mut().find(..)], or a new entry at the end. *)
Fixpoint record_attempt (a : StrategyAttempt) (l : list StrategyCount) : list StrategyCount :=
  match l with
  | [] => [bump_count (sa_outcome a) (mkCount (sa_strategy a) 1 0 0 0 0)]
  | c :: l =>
      if String.eqb (sc_strategy c) (sa_strategy a) then bump_count (sa_outcome a) (count_attempt c) :: l
      else c :: record_attempt a l
  end.

Definition record_outcome (now : N) (d : HolePunchDiagnostics) (o : HolePunchOutcome) : HolePunchDiagnostics :=
  mkDiagnostics
    (fetch_inc (hd_calls_total d))
    (if is_hit o then fetch_inc (hd_calls_hit d) else hd_calls_hit d)
    (match ho_error o with Some (StrategiesExhausted _ _) => fetch_inc (hd_calls_exhausted d) | _ => hd_calls_exhausted d end)
    (match ho_error o with Some Cancelled => fetch_inc (hd_calls_cancelled d) | _ => hd_calls_cancelled d end)
    (foldl (λ l a, record_attempt a l) (hd_by_strategy d) (ho_attempts o))
    (Some o) (Some now).

(** The snapshot is the counters themselves. *)
Definition hit_rate_pct (d : HolePunchDiagnostics) : f64 :=
  if hd_calls_total d =? 0 then f64_of 0
  else f64_mul (f64_div (f64_of (hd_calls_hit d)) (f64_of (hd_calls_total d))) (f64_of 100).

(** ** The race ends, with one attempt for each strategy *)

Section RaceTheorems.
Context (show_dur : N → string) (target : NodeId) (strategies : list HolePunchStrategy).
Implicit Types st : Race.

Notation step := (race_step show_dur target strategies).
Notation run := (race_run show_dur target strategies).

Definition hit_count (l : list StrategyAttempt) : nat := length (List.filter (λ a, is_winner (sa_outcome a)) l).

Lemma hit_count_app l l' : hit_count (l ++ l') = (hit_count l + hit_count l')%nat.
Proof. unfold hit_count. by rewrite List.filter_app, length_app. Qed.

Lemma cancelled_no_hit meta l : hit_count (omap (cancelled_attempt meta) l) = 0%nat.
Proof.
  induction l as [|i l IH]; [done|]. cbn. unfold cancelled_attempt at 1. destruct (meta !! i) as [[label caps]|]; done.
Qed.

#[local] Arguments hit_count : simpl never.

Lemma cancelled_all (meta : list (string * ResolverCapabilities)) l :
  Forall (λ i, i < length meta)%nat l → length (omap (cancelled_attempt meta) l) = length l.
Proof.
  induction 1 as [|i l Hi _ IH]; [done|]. cbn. unfold cancelled_attempt at 1.
  destruct (lookup_lt_is_Some_2 meta i Hi) as [[label caps] ->]. cbn. by rewrite IH.
Qed.

(** What holds between two events. *)
Record race_inv (st : Race) : Prop := {
  rv_length : rc_pending_indices st ≠ [] → length (rc_still_pending st) = length (rc_pending_indices st);
  rv_tasks : Forall (λ i, i < length strategies)%nat (rc_still_pending st);
  rv_indices : Forall (λ i, i < length strategies)%nat (rc_pending_indices st);
  rv_attempts : (length (rc_attempts st) + length (rc_pending_indices st))%nat = length strategies;
  rv_running : rc_pending_indices st ≠ [] → rc_endpoint st = None;
  rv_hits : hit_count (rc_attempts st) = (if rc_endpoint st then 1 else 0)%nat;
  rv_winner : is_Some (rc_winning_strategy st) ↔ is_Some (rc_endpoint st)
}.

Lemma race_inv_start : race_inv (race_start (length strategies)).
Proof.
  assert (Forall (λ i, i < length strategies)%nat (seq 0 (length strategies))) as Hs.
  { apply Forall_forall. intros i. rewrite elem_of_seq. lia. }
  split; cbn; try done. by rewrite length_seq.
Qed.

Lemma run_task_endpoint r outcome elapsed att e :
  run_task show_dur r outcome elapsed = (att, e) →
  hit_count [att] = (if e then 1 else 0)%nat ∧ sa_strategy att = rs_label r.
Proof.
  unfold run_task. destruct outcome as [x|[]]; [destruct (has_any_address x)|..]; intros [= <- <-]; done.
Qed.

Lemma race_step_inv st ev st' :
  step st ev = Some st' → race_inv st →
  race_inv st' ∧ (length (rc_pending_indices st') < length (rc_pending_indices st))%nat.
Proof.
  unfold race_step. set (meta := (λ s, (strategy_label s, strategy_capabilities s)) <$> strategies).
  assert (length meta = length strategies) as Hm by apply length_fmap.
  destruct (rc_pending_indices st) as [|i0 pend] eqn:Hp; [done|]. rewrite <- Hp.
  assert (rc_pending_indices st ≠ []) as Hne by by rewrite Hp.
  destruct ev as [|idx output rest]; intros Hs [Hl Ht Hi Ha Hr Hh Hw].
  - injection Hs as <-. split; [|cbn; rewrite Hp; cbn; lia]. split; cbn; try done.
    + rewrite length_app, cancelled_all by by rewrite Hm. lia.
    + by rewrite hit_count_app, cancelled_no_hit, Nat.add_0_r.
  - apply bind_Some in Hs as (task & Htask & Hs). apply bind_Some in Hs as (s & Hs0 & Hs).
    apply bind_Some in Hs as (oi & Hoi & Hs). apply bind_Some in Hs as ([label caps] & Hmeta & Hs).
    destruct (bool_decide (rest ≡ₚ delete idx (rc_still_pending st))) eqn:Hperm; [|done].
    apply bool_decide_eq_true in Hperm. cbn in Hs.
    pose proof (length_delete _ _ (mk_is_Some _ _ Htask)) as Hd1.
    pose proof (length_delete _ _ (mk_is_Some _ _ Hoi)) as Hd2.
    pose proof (lookup_lt_Some _ _ _ Hoi) as Hlt.
    assert (Forall (λ i, i < length strategies)%nat rest) as Hrest.
    { rewrite Hperm. by apply Forall_delete. }
    assert (Forall (λ i, i < length strategies)%nat (delete idx (rc_pending_indices st))) as Hleft by by apply Forall_delete.
    assert (length rest = length (delete idx (rc_pending_indices st))) as Hlen.
    { rewrite Hperm, Hd1, Hd2. by rewrite Hl. }
    specialize (Hr Hne). rewrite Hr in Hs, Hh, Hw.
    destruct output as [[outcome elapsed]|].
    + destruct (run_task show_dur (resolver_of s) (answer_of target s outcome) elapsed) as [att [e|]] eqn:Hrun;
        apply run_task_endpoint in Hrun as [Hhit _].
      * destruct rest as [|x rest'].
        -- injection Hs as <-. cbn. split; [|lia]. destruct (delete idx (rc_pending_indices st)) eqn:Hdel; [|done].
           split; cbn; try done; [rewrite length_app; cbn in *; lia|rewrite hit_count_app; lia].
        -- injection Hs as <-. cbn. split; [|lia]. split; cbn; try done.
           ++ rewrite !length_app, cancelled_all by by rewrite Hm. cbn in *. lia.
           ++ rewrite !hit_count_app, cancelled_no_hit. lia.
      * injection Hs as <-. cbn. split; [|lia]. split; cbn; try done;
          [rewrite length_app; cbn in *; lia|rewrite hit_count_app; lia].
    + injection Hs as <-. cbn. split; [|lia]. split; cbn; try done;
        [rewrite length_app; cbn in *; lia|by rewrite hit_count_app, Hh].
Qed.

Lemma race_run_inv st evs st' :
  run st evs = Some st' → race_inv st →
  race_inv st' ∧ (length (rc_pending_indices st') + length evs ≤ length (rc_pending_indices st))%nat.
Proof.
  revert st. induction evs as [|ev evs IH]; intros st; cbn.
  - intros [= <-] Hi. split; [done|lia].
  - intros (st1 & Hs & Hrun)%bind_Some Hi. destruct (race_step_inv _ _ _ Hs Hi) as [Hi1 Hlt].
    destruct (IH _ Hrun Hi1) as [Hi' Hle]. split; [done|lia].
Qed.

(** A race ends: no run of it has more events than there are strategies, and a race that is not over can go
    on, the deadline at the latest ending it. *)
Theorem race_terminates evs st :
  run (race_start (length strategies)) evs = Some st →
  (length evs ≤ length strategies)%nat ∧
  (rc_pending_indices st ≠ [] → ∃ st', step st EvDeadline = Some st' ∧ rc_pending_indices st' = []).
Proof.
  intros Hrun. destruct (race_run_inv _ _ _ Hrun race_inv_start) as [_ Hle]. cbn in Hle.
  rewrite length_seq in Hle. split; [lia|]. intros Hne. unfold race_step.
  destruct (rc_pending_indices st); [done|]. by eexists.
Qed.

(** [select_all] hands the remaining tasks back in the order they were given. *)
Fixpoint in_order st (evs : list RaceEvent) : Prop :=
  match evs with
  | [] => True
  | ev :: evs =>
      match ev with EvTask idx _ rest => rest = delete idx (rc_still_pending st) | EvDeadline => True end ∧
      match step st ev with Some st' => in_order st' evs | None => True end
  end.

Definition aligned st : Prop :=
  (rc_pending_indices st ≠ [] → rc_still_pending st = rc_pending_indices st ∧ rc_winning_strategy st = None) ∧
  ∀ w, rc_winning_strategy st = Some w →
    ∃ a, a ∈ rc_attempts st ∧ is_winner (sa_outcome a) = true ∧ sa_strategy a = w.

Lemma resolver_of_label s : rs_label (resolver_of s) = strategy_label s.
Proof. by destruct s. Qed.

Lemma race_step_aligned st ev st' :
  step st ev = Some st' → aligned st →
  match ev with EvTask idx _ rest => rest = delete idx (rc_still_pending st) | EvDeadline => True end → aligned st'.
Proof.
  unfold race_step. set (meta := (λ s, (strategy_label s, strategy_capabilities s)) <$> strategies).
  destruct (rc_pending_indices st) as [|i0 pend] eqn:Hp; [done|]. rewrite <- Hp.
  assert (rc_pending_indices st ≠ []) as Hne by by rewrite Hp.
  intros Hs [Hal Hw]. destruct (Hal Hne) as [Heq Hnone]. destruct ev as [|idx output rest].
  - injection Hs as <-. intros _. split; cbn; [done|]. by rewrite Hnone.
  - intros ->. apply bind_Some in Hs as (task & Htask & Hs). apply bind_Some in Hs as (s & Hs0 & Hs).
    apply bind_Some in Hs as (oi & Hoi & Hs). apply bind_Some in Hs as ([label caps] & Hmeta & Hs).
    rewrite Heq in Htask, Hs. assert (oi = task) as -> by congruence.
    unfold meta in Hmeta. rewrite list_lookup_fmap, Hs0 in Hmeta. injection Hmeta as <- <-.
    rewrite bool_decide_eq_true_2 in Hs by done. cbn in Hs.
    destruct output as [[outcome elapsed]|].
    + destruct (run_task show_dur (resolver_of s) (answer_of target s outcome) elapsed) as [att [e|]] eqn:Hrun;
        apply run_task_endpoint in Hrun as [Hhit Hlab]; rewrite resolver_of_label in Hlab.
      * assert (is_winner (sa_outcome att) = true) as Hwin.
        { unfold hit_count in Hhit. cbn in Hhit. by destruct (is_winner _). }
        destruct (rc_endpoint st) as [e'|].
        -- destruct (delete idx (rc_pending_indices st)); injection Hs as <-; split; cbn; [done| |done|];
             rewrite Hnone; done.
        -- destruct (delete idx (rc_pending_indices st)); injection Hs as <-; split; cbn; [done| |done|];
             intros w [= <-]; exists att; (split; [|done]); rewrite ?elem_of_app, list_elem_of_singleton; auto.
      * injection Hs as <-. split; cbn; [done|]. by rewrite Hnone.
    + injection Hs as <-. split; cbn; [done|]. by rewrite Hnone.
Qed.

Lemma race_run_aligned st evs st' :
  run st evs = Some st' → aligned st → in_order st evs → aligned st'.
Proof.
  revert st. induction evs as [|ev evs IH]; intros st; cbn; [by intros [= <-]|].
  intros (st1 & Hs & Hrun)%bind_Some Hal [Ho Hin]. rewrite Hs in Hin.
  eapply IH; [done| |done]. by eapply race_step_aligned.
Qed.

(** Built-in strategies are hollow: a race of them finds nothing. *)
Lemma builtin_step st ev st' :
  Forall (λ s, is_custom s = false) strategies →
  step st ev = Some st' → rc_endpoint st = None → rc_endpoint st' = None.
Proof.
  intros Hb. unfold race_step. destruct (rc_pending_indices st); [done|].
  destruct ev as [|idx output rest]; [by intros [= <-]|].
  intros Hs Hn. apply bind_Some in Hs as (task & Htask & Hs). apply bind_Some in Hs as (s & Hs0 & Hs).
  apply bind_Some in Hs as (oi & Hoi & Hs). apply bind_Some in Hs as ([label caps] & Hmeta & Hs).
  destruct (negb _); [done|]. pose proof (Forall_lookup_1 _ _ _ _ Hb Hs0) as Hc.
  destruct output as [[outcome elapsed]|]; [|by injection Hs as <-].
  destruct s; cbn in Hs, Hc; try done; by injection Hs as <-.
Qed.
End RaceTheorems.

Lemma effective_sublist c : sublist (effective_strategies c) (filter (λ s, eligible c s = true) (hc_strategies c)).
Proof. unfold effective_strategies. destruct (hc_max_concurrent c); [apply sublist_take|done]. Qed.

Lemma effective_elem c s : s ∈ effective_strategies c → s ∈ hc_strategies c ∧ eligible c s = true.
Proof.
  intros Hs. eapply elem_of_sublist in Hs; [|apply effective_sublist].
  apply list_elem_of_filter in Hs. naive_solver.
Qed.

Section PunchTheorems.
Context `{HX : Hex} {HL : HexLaws HX} (show_dur : N → string).

Lemma punch_impl_race c target started elapsed evs o :
  node_ok target → punch_impl show_dur c target started elapsed evs = Some o → effective_strategies c ≠ [] →
  ∃ st, race_run show_dur target (effective_strategies c) (race_start (effective_strategy_count c)) evs = Some st ∧
    rc_pending_indices st = [] ∧
    o = mkOutcome (rc_endpoint st) (rc_winning_strategy st) (rc_attempts st) elapsed started
          (match rc_endpoint st with Some _ => None | None => Some (exhausted elapsed (length (rc_attempts st))) end)
          (strategy_label <$> effective_strategies c) (effective_strategy_count c).
Proof.
  intros Ht Hp Hne. unfold punch_impl, validate_node_id in Hp. rewrite NodeId_as_bytes_ok in Hp by done. cbn in Hp.
  rewrite (proj1 (node_bytes_ok _ Ht)) in Hp. cbn in Hp. unfold effective_strategy_count.
  destruct (effective_strategies c) as [|s l] eqn:He; [done|]. rewrite <- He in *.
  apply bind_Some in Hp as (st & Hrun & Hp). exists st.
  destruct (rc_pending_indices st); [|done]. injection Hp as <-. split_and!; [done|done|].
  by destruct (rc_endpoint st), (hc_timeout_policy c).
Qed.

(** What a call of the planner means: it records one attempt for each strategy it raced; it has an endpoint
    exactly when one attempt, and only one, is a hit, and then a winner and no error; otherwise the error says that
    all strategies were exhausted, whatever the timeout policy. [try_punch] gives the endpoint or that error. *)
Theorem punch_outcome c target started elapsed evs o :
  node_ok target → effective_strategies c ≠ [] → punch_impl show_dur c target started elapsed evs = Some o →
  length (ho_attempts o) = effective_strategy_count c ∧ ho_effective_strategy_count o = effective_strategy_count c ∧
  hits o = (if ho_endpoint o then 1 else 0)%nat ∧
  (is_Some (ho_winning_strategy o) ↔ is_Some (ho_endpoint o)) ∧
  ho_error o = (if ho_endpoint o then None else Some (StrategiesExhausted elapsed (effective_strategy_count c))) ∧
  try_punch o = match ho_endpoint o with
                | Some e => Ok e
                | None => Err (StrategiesExhausted elapsed (effective_strategy_count c))
                end.
Proof.
  intros Ht Hne Hp. destruct (punch_impl_race _ _ _ _ _ _ Ht Hp Hne) as (st & Hrun & Hend & ->).
  destruct (race_run_inv _ _ _ _ _ _ Hrun (race_inv_start _)) as [[_ _ _ Ha _ Hh Hw] _].
  rewrite Hend in Ha. cbn in Ha. rewrite Nat.add_0_r in Ha. fold (effective_strategy_count c) in Ha.
  unfold try_punch. cbn. rewrite Ha. split_and!; try done. by destruct (rc_endpoint st).
Qed.

(** The strategy named as the winner is the one that hit, when [select_all] keeps the tasks that are left in
    order. *)
Theorem winner_is_the_hit c target started elapsed evs o w :
  node_ok target → effective_strategies c ≠ [] → punch_impl show_dur c target started elapsed evs = Some o →
  in_order show_dur target (effective_strategies c) (race_start (effective_strategy_count c)) evs →
  ho_winning_strategy o = Some w →
  ∃ a, a ∈ ho_attempts o ∧ is_winner (sa_outcome a) = true ∧ sa_strategy a = w.
Proof.
  intros Ht Hne Hp Hin Hw. destruct (punch_impl_race _ _ _ _ _ _ Ht Hp Hne) as (st & Hrun & Hend & ->).
  eapply (race_run_aligned _ _ _ _ _ _ Hrun); [|done|done]. split; done.
Qed.

(** A planner of built-in strategies alone never finds anybody: each is raced as a resolver that knows no
    address, so every call is exhausted. *)
Theorem builtin_never_hits c target started elapsed evs o :
  node_ok target → effective_strategies c ≠ [] → Forall (λ s, is_custom s = false) (hc_strategies c) →
  punch_impl show_dur c target started elapsed evs = Some o →
  ho_endpoint o = None ∧ ho_error o = Some (StrategiesExhausted elapsed (effective_strategy_count c)).
Proof.
  intros Ht Hne Hb Hp. destruct (punch_impl_race _ _ _ _ _ _ Ht Hp Hne) as (st & Hrun & Hend & ->).
  destruct (race_run_inv _ _ _ _ _ _ Hrun (race_inv_start _)) as [[_ _ _ Ha _ _ _] _].
  rewrite Hend in Ha. cbn in Ha. rewrite Nat.add_0_r in Ha. fold (effective_strategy_count c) in Ha.
  assert (Forall (λ s, is_custom s = false) (effective_strategies c)) as He.
  { apply Forall_forall. intros s Hs. rewrite Forall_forall in Hb. by apply Hb, (effective_elem c). }
  assert (∀ evs st0 st1, race_run show_dur target (effective_strategies c) st0 evs = Some st1 →
    rc_endpoint st0 = None → rc_endpoint st1 = None) as Hnone.
  { clear -He. induction evs as [|ev evs IH]; intros st0 st1; cbn; [by intros [= <-]|].
    intros (st2 & Hs & Hr)%bind_Some Hn. eapply IH; [done|]. by eapply builtin_step. }
  cbn. rewrite (Hnone _ _ _ Hrun eq_refl). cbn. by rewrite Ha.
Qed.

(** What validation accepts: one to sixteen strategies, a share of each strategy of at least 100 ms and at
    most the budget, and a cap between one and the number of strategies. What is raced then is a part of the
    enabled strategies, in their order, no more than the cap, and only such that meet the required capabilities. *)
Theorem validate_spec c :
  (validate show_dur c = Ok tt ↔
    (1 ≤ length (hc_strategies c) ≤ 16)%nat ∧ 100000000 ≤ hc_per_strategy_budget c ≤ hc_budget c ∧
    match hc_max_concurrent c with Some m => (1 ≤ m ≤ length (hc_strategies c))%nat | None => True end) ∧
  sublist (effective_strategies c) (hc_strategies c) ∧
  (∀ m, hc_max_concurrent c = Some m → (length (effective_strategies c) ≤ m)%nat) ∧
  (∀ q s, hc_require_capabilities c = Some q → s ∈ effective_strategies c →
     intersects q (strategy_capabilities s) = true).
Proof.
  split_and!.
  - unfold validate, MAX_STRATEGIES, MIN_PER_STRATEGY_BUDGET.
    destruct (Nat.eqb_spec (length (hc_strategies c)) 0); [split; [done|lia]|].
    destruct (Nat.ltb_spec 16 (length (hc_strategies c))); [split; [done|lia]|].
    destruct (N.eqb_spec (hc_budget c) 0); [split; [done|lia]|].
    destruct (N.ltb_spec (hc_per_strategy_budget c) (100 * 1000000)); [split; [done|lia]|].
    destruct (N.ltb_spec (hc_budget c) (hc_per_strategy_budget c)); [split; [done|lia]|].
    destruct (hc_max_concurrent c) as [m|]; [|split; [intros _; lia|done]].
    destruct (Nat.eqb_spec m 0); [split; [done|lia]|].
    destruct (Nat.ltb_spec (length (hc_strategies c)) m); [split; [done|lia]|]. split; [intros _; lia|done].
  - etrans; [apply effective_sublist|apply sublist_filter].
  - intros m Hm. unfold effective_strategies. rewrite Hm, length_take. lia.
  - intros q s Hq [_ Hs]%effective_elem. unfold eligible in Hs. by rewrite Hq in Hs.
Qed.
End PunchTheorems.

(** ** Building a configuration *)

Inductive BuilderOp : Type :=
| BStrategy (s : HolePunchStrategy) | BBudget (d : N) | BTimeoutPolicy (p : TimeoutPolicy) | BOrdering (o : PunchOrdering)
| BRequired (q : RequiredCapabilities) | BMaxConcurrent (n : nat) | BWithout (label : string).

Definition builder_op (b : HolePunchConfig) (op : BuilderOp) : HolePunchConfig :=
  match op with
  | BStrategy s => with_strategy b s
  | BBudget d => builder_budget b d
  | BTimeoutPolicy p => with_timeout_policy b p
  | BOrdering o => with_ordering b o
  | BRequired q => with_required_capabilities b q
  | BMaxConcurrent n => with_max_concurrent b n
  | BWithout l => without_strategy_by_label b l
  end.

(** However the builder is used (short of setting the share of a strategy by hand), no label is enabled twice
    and the share of a strategy stays within the budget. *)
Theorem builder_invariant ops :
  let c := foldl builder_op HolePunchConfigBuilder_new ops in
  NoDup (strategy_label <$> hc_strategies c) ∧ hc_per_strategy_budget c ≤ hc_budget c.
Proof.
  assert (∀ ops c, NoDup (strategy_label <$> hc_strategies c) ∧ hc_per_strategy_budget c ≤ hc_budget c →
    let c' := foldl builder_op c ops in
    NoDup (strategy_label <$> hc_strategies c') ∧ hc_per_strategy_budget c' ≤ hc_budget c') as H.
  { clear. induction ops as [|op ops IH]; intros c Hc; [done|]. apply IH. destruct Hc as [Hn Hb].
    destruct op; cbn; try done.
    - unfold with_strategy. destruct (existsb _ _) eqn:Hx; [done|]. cbn. split; [|done].
      rewrite fmap_app, NoDup_app. split_and!; [done| |apply NoDup_singleton].
      intros l (s' & -> & Hs')%list_elem_of_fmap Heq%list_elem_of_singleton.
      assert (strategy_label_matches s' s = false) as Hm.
      { destruct (strategy_label_matches s' s) eqn:Hm; [|done]. rewrite <- Hx. symmetry.
        apply existsb_exists. exists s'. split; [by apply list_elem_of_In|done]. }
      unfold strategy_label_matches in Hm. by rewrite Heq, String.eqb_refl in Hm.
    - unfold builder_budget. destruct (N.ltb_spec d (hc_per_strategy_budget c)); cbn; (split; [done|lia]).
    - split; [|done]. clear Hb. induction (hc_strategies c) as [|s l IHl]; [done|]. cbn in *.
      apply NoDup_cons in Hn as [Hs Hn]. destruct (negb _); [|by apply IHl]. cbn. apply NoDup_cons. split; [|by apply IHl].
      intros (s' & He & Hin)%list_elem_of_fmap. apply Hs. rewrite He. apply list_elem_of_fmap_2.
      apply list_elem_of_In in Hin. apply filter_In in Hin as [Hin _]. by apply list_elem_of_In. }
  apply H. split; [constructor|done].
Qed.

(** ** Diagnostics add up *)

Definition count_ok (c : StrategyCount) : Prop :=
  sc_attempts c = sc_hits c + sc_empties c + sc_errors c + sc_cancelled c ∧ 0 < sc_attempts c.

Fixpoint total_attempts (l : list StrategyCount) : N :=
  match l with [] => 0 | c :: l => sc_attempts c + total_attempts l end.
Fixpoint total_hits (l : list StrategyCount) : N :=
  match l with [] => 0 | c :: l => sc_hits c + total_hits l end.

Lemma record_attempt_spec a l :
  Forall count_ok l → NoDup (sc_strategy <$> l) →
  Forall count_ok (record_attempt a l) ∧ NoDup (sc_strategy <$> record_attempt a l) ∧
  (∀ s, s ∈ sc_strategy <$> record_attempt a l ↔ s ∈ sc_strategy <$> l ∨ s = sa_strategy a) ∧
  total_attempts (record_attempt a l) = total_attempts l + 1 ∧
  total_hits (record_attempt a l) = total_hits l + (if is_winner (sa_outcome a) then 1 else 0).
Proof.
  induction 1 as [|c l Hc Hl IH]; cbn [record_attempt]; intros Hn.
  - split_and!; try by destruct (sa_outcome a).
    + constructor; [|done]. unfold count_ok. destruct (sa_outcome a); cbn; lia.
    + destruct (sa_outcome a); apply NoDup_singleton.
    + intros s. destruct (sa_outcome a); cbn; set_solver.
  - cbn in Hn. apply NoDup_cons in Hn as [Hs Hn]. destruct (IH Hn) as (IHf & IHn & IHs & IHt & IHh).
    destruct (String.eqb_spec (sc_strategy c) (sa_strategy a)) as [He|He].
    + assert (sc_strategy (bump_count (sa_outcome a) (count_attempt c)) = sc_strategy c) as Hb by by destruct (sa_outcome a).
      cbn. rewrite Hb. split_and!.
      * constructor; [|done]. unfold count_ok in *. destruct (sa_outcome a); cbn; lia.
      * by apply NoDup_cons.
      * intros s. rewrite He. set_solver.
      * destruct (sa_outcome a); cbn; lia.
      * destruct (sa_outcome a); cbn; lia.
    + cbn. split_and!.
      * by constructor.
      * apply NoDup_cons. split; [|done]. rewrite IHs. naive_solver.
      * intros s. rewrite !elem_of_cons, IHs. naive_solver.
      * lia.
      * lia.
Qed.

(** The counters add up after any outcomes: every strategy that was attempted has one entry, whose attempts
    are its hits, empties, errors and cancellations; the attempts of all entries are those of all outcomes, and so
    the hits; and the calls are the outcomes recorded, as long as they fit. *)
Theorem diagnostics_add_up (os : list (N * HolePunchOutcome)) :
  let d := foldl (λ d o, record_outcome o.1 d o.2) HolePunchDiagnostics_new os in
  NoDup (sc_strategy <$> hd_by_strategy d) ∧ Forall count_ok (hd_by_strategy d) ∧
  (∀ s, s ∈ sc_strategy <$> hd_by_strategy d ↔ ∃ o a, o ∈ os ∧ a ∈ ho_attempts o.2 ∧ sa_strategy a = s) ∧
  total_attempts (hd_by_strategy d) = N.of_nat (length (os ≫= λ o, ho_attempts o.2)) ∧
  total_hits (hd_by_strategy d) = N.of_nat (hit_count (os ≫= λ o, ho_attempts o.2)) ∧
  hd_calls_total d = N.of_nat (length os) mod 2 ^ 64.
Proof.
  cbn zeta. induction os as [|[now o] os IH] using rev_ind.
  - cbn. split_and!; try done; [constructor|]. intros s. split; [by intros ?%elem_of_nil|].
    intros (o & a & ?%elem_of_nil & _). done.
  - rewrite foldl_app, bind_app. destruct IH as (Hn & Hf & Hs & Ht & Hh & Hc). cbn [foldl fst snd].
    set (d := foldl _ _ os) in *. cbn [record_outcome hd_by_strategy hd_calls_total].
    assert (∀ l cs, Forall count_ok cs → NoDup (sc_strategy <$> cs) →
      let cs' := foldl (λ l a, record_attempt a l) cs l in
      NoDup (sc_strategy <$> cs') ∧ Forall count_ok cs' ∧
      (∀ s, s ∈ sc_strategy <$> cs' ↔ s ∈ sc_strategy <$> cs ∨ ∃ a, a ∈ l ∧ sa_strategy a = s) ∧
      total_attempts cs' = total_attempts cs + N.of_nat (length l) ∧
      total_hits cs' = total_hits cs + N.of_nat (hit_count l)) as Hall.
    { clear. induction l as [|a l IH]; intros cs Hf Hn.
      - cbn. split_and!; try done; [|unfold hit_count; cbn; lia..]. intros s. split; [by left|].
        intros [?|(a & ?%elem_of_nil & _)]; done.
      - destruct (record_attempt_spec a cs Hf Hn) as (Hf1 & Hn1 & Hs1 & Ht1 & Hh1).
        destruct (IH _ Hf1 Hn1) as (Hn2 & Hf2 & Hs2 & Ht2 & Hh2). cbn [foldl]. split_and!; try done.
        + intros s. rewrite Hs2, Hs1. setoid_rewrite elem_of_cons. naive_solver.
        + rewrite Ht2, Ht1. cbn [length]. lia.
        + change (a :: l) with ([a] ++ l). rewrite Hh2, Hh1, hit_count_app. unfold hit_count at 2. cbn.
          destruct (is_winner (sa_outcome a)); cbn [length]; lia. }
    destruct (Hall (ho_attempts o) _ Hf Hn) as (Hn' & Hf' & Hs' & Ht' & Hh'). split_and!; try done.
    + intros s. rewrite Hs', Hs. setoid_rewrite elem_of_app. setoid_rewrite list_elem_of_singleton. split.
      * intros [(o' & a & Ho & Ha & He)|(a & Ha & He)]; [exists o', a; auto|exists (now, o), a; auto].
      * intros (o' & a & [Ho| ->] & Ha & He); [left; by exists o', a|right; by exists a].
    + rewrite Ht', Ht, length_app, bind_cons, app_nil_r. cbn [snd]. lia.
    + rewrite Hh', Hh, hit_count_app, bind_cons, app_nil_r. cbn [snd]. lia.
    + rewrite length_app. cbn. unfold fetch_inc. rewrite Hc, Nat2N.inj_add, N.Div0.add_mod_idemp_l. done.
Qed.

(** ** Where the planner departs from its documentation *)

Definition ex_target : NodeId := id_of_byte 0.
Definition ex_other : NodeId := id_of_byte 1.
Definition ex_resolver (label : string) : HolePunchStrategy := Custom (mkResolver label caps_all).
Definition ex_race : HolePunchConfig := config_of [ex_resolver "a"; ex_resolver "b"; ex_resolver "c"].
Definition ex_endpoint (id : NodeId) : ResolvedEndpoint := mkResolved id ["relay"] [] None.
Definition ex_dur (_ : N) : string := "1s".

(** The order in which [select_all] of [futures] 0.3 leaves the others: the last one takes the place of the one
    that finished. *)
Definition swap_remove (idx : nat) (l : list nat) : list nat :=
  match last l with
  | Some x => if Nat.eqb (S idx) (length l) then take idx l else <[idx := x]> (take (length l - 1) l)
  | None => []
  end.

Definition ex_events : list RaceEvent :=
  [EvTask 0 (Some (Ok (ResolvedEndpoint_empty ex_target), 1)) (swap_remove 0 [0; 1; 2]%nat);
   EvTask 0 (Some (Ok (ex_endpoint ex_target), 2)) (swap_remove 0 [2; 1]%nat)].

(** In an order that [select_all] may choose, the outcome names a strategy as the winner that never finished, and
    lists as cancelled the strategy that hit. *)
Lemma winner_mislabelled :
  ∃ o, punch_impl ex_dur ex_race ex_target 0 3 ex_events = Some o ∧
    ho_winning_strategy o = Some "b" ∧
    (λ a, (sa_strategy a, outcome_tag (sa_outcome a))) <$> ho_attempts o = [("a", "empty"); ("c", "hit"); ("c", "cancelled")].
Proof. eexists. split_and!; vm_compute; reflexivity. Qed.

(** An endpoint of another node than the one asked for wins the race. *)
Lemma other_node_accepted :
  ∃ o, punch_impl ex_dur (config_of [ex_resolver "a"]) ex_target 0 3 [EvTask 0 (Some (Ok (ex_endpoint ex_other), 1)) []] = Some o ∧
    try_punch o = Ok (ex_endpoint ex_other) ∧ ex_other ≠ ex_target.
Proof. eexists. split_and!; [vm_compute; reflexivity..|by intros [=]]. Qed.

(** The policy [SilentEmpty] changes nothing. *)
Lemma silent_empty_is_not_silent c target started elapsed evs :
  punch_impl ex_dur (with_timeout_policy c SilentEmpty) target started elapsed evs =
  punch_impl ex_dur (with_timeout_policy c FailOnTimeout) target started elapsed evs.
Proof. done. Qed.

(** ** Witnesses *)

Definition ex_ordered : list RaceEvent :=
  [EvTask 0 (Some (Ok (ResolvedEndpoint_empty ex_target), 1)) [1; 2]%nat;
   EvTask 1 (Some (Ok (ex_endpoint ex_target), 2)) [1%nat]].
Definition ex_outcome : option HolePunchOutcome := punch_impl ex_dur ex_race ex_target 0 3 ex_ordered.
Definition ex_fallback : HolePunchOutcome := mkOutcome None None [] 0 0 None [] 0.

Lemma ex_punch_target_ok : node_ok ex_target.
Proof. exists (replicate 32 0). split_and!; [reflexivity|by repeat constructor|vm_compute; reflexivity]. Qed.

Lemma race_terminates_witness :
  (length ex_ordered ≤ 3)%nat ∧ ∃ st, race_run ex_dur ex_target (hc_strategies ex_race) (race_start 3) ex_ordered = Some st.
Proof.
  split; [|eexists; vm_compute; reflexivity].
  destruct (race_run ex_dur ex_target (hc_strategies ex_race) (race_start 3) ex_ordered) as [st|] eqn:H;
    [|exfalso; vm_compute in H; discriminate].
  exact (proj1 (race_terminates ex_dur ex_target (hc_strategies ex_race) ex_ordered st H)).
Defined.

Lemma punch_outcome_witness :
  try_punch (default ex_fallback ex_outcome) = Ok (ex_endpoint ex_target) ∧
  length (ho_attempts (default ex_fallback ex_outcome)) = 3%nat.
Proof.
  split; [vm_compute; reflexivity|].
  refine (proj1 (punch_outcome ex_dur ex_race ex_target 0 3 ex_ordered (default ex_fallback ex_outcome) ex_punch_target_ok _ _));
    [discriminate|vm_compute; reflexivity].
Defined.

Lemma winner_is_the_hit_witness :
  ∃ a, a ∈ ho_attempts (default ex_fallback ex_outcome) ∧ is_winner (sa_outcome a) = true ∧ sa_strategy a = "c".
Proof.
  apply (winner_is_the_hit ex_dur ex_race ex_target 0 3 ex_ordered (default ex_fallback ex_outcome) "c" ex_punch_target_ok);
    [discriminate|vm_compute; reflexivity|vm_compute; auto|vm_compute; reflexivity].
Defined.

Lemma builtin_never_hits_witness :
  ∃ o, punch_impl ex_dur all_channels ex_target 0 3 [EvDeadline] = Some o ∧ ho_endpoint o = None ∧
    ho_error o = Some (StrategiesExhausted 3 4).
Proof.
  destruct (punch_impl ex_dur all_channels ex_target 0 3 [EvDeadline]) as [o|] eqn:H;
    [|exfalso; vm_compute in H; discriminate].
  exists o. split; [reflexivity|].
  apply (builtin_never_hits ex_dur all_channels ex_target 0 3 [EvDeadline] o ex_punch_target_ok);
    [discriminate|repeat constructor|exact H].
Defined.
