(* ===== verification/MagicDns.v ===== *)
(** * Names and resolver of the mesh name service ([crates/a3net-magicdns/src/])

    Mesh names ([query.rs]), the configuration ([config.rs]) and the resolver that
    maps names to virtual addresses ([resolver.rs]). A Rust string is its bytes.
    [debug_str] is the [Debug] form of a string, which occurs in texts of errors
    only. The two locks of the resolver are taken together, so an operation is
    one step. A [HashMap] that is listed is listed in some order: [resolver_snapshot]
    uses that of [map_to_list]. The theorems show which addresses a history of
    rosters gives and what a name that parses looks like. *)
From stdpp Require Import prelude strings gmap list.
From Stdlib Require Import NArith Lia Ascii.
From Stdlib Require String.
From S2P Require Import Prelude NodeId VirtualIp Mesh.

#[local] Open Scope N_scope.

(** ** Characters and strings *)

(** [u8::is_ascii]: a character of a string is one of its bytes. *)
Definition is_ascii_char (a : ascii) : bool := N_of_ascii a <? 128.

Definition is_ascii_alphanumeric (a : ascii) : bool :=
  let n := N_of_ascii a in
  ((48 <=? n) && (n <=? 57)) || ((65 <=? n) && (n <=? 90)) || ((97 <=? n) && (n <=? 122)).

Definition hyphen : ascii := "-"%char.

Fixpoint str_last (s : string) : option ascii :=
  match s with EmptyString => None | String a EmptyString => Some a | String _ s => str_last s end.

Definition str_head (s : string) : option ascii := match s with EmptyString => None | String a _ => Some a end.

(** ** Errors and configuration *)

Inductive MagicError : Type :=
| MalformedName (why : string)
| NameTooLong (actual : nat)
| EmptyName
| UnknownNetwork (network : string)
| UnknownHost (host network : string).

Definition DEFAULT_DNS_TTL_SECS : N := 300.
Definition DEFAULT_UPSTREAM_DNS : string := "1.1.1.1:53".

Record ResolverConfig : Type := mkResolverConfig {
  rcf_dns_ttl_secs : N;
  rcf_upstreams : list string;
  rcf_extra_tlds : list string;
  rcf_local_ipv4 : option N
}.

Definition ResolverConfig_default : ResolverConfig :=
  mkResolverConfig DEFAULT_DNS_TTL_SECS [DEFAULT_UPSTREAM_DNS] [] None.

Definition with_dns_ttl (c : ResolverConfig) (ttl : N) : ResolverConfig :=
  mkResolverConfig ttl (rcf_upstreams c) (rcf_extra_tlds c) (rcf_local_ipv4 c).
Definition with_upstreams (c : ResolverConfig) (u : list string) : ResolverConfig :=
  mkResolverConfig (rcf_dns_ttl_secs c) u (rcf_extra_tlds c) (rcf_local_ipv4 c).
Definition with_extra_tld (c : ResolverConfig) (tld : string) : ResolverConfig :=
  mkResolverConfig (rcf_dns_ttl_secs c) (rcf_upstreams c) (rcf_extra_tlds c ++ [tld]) (rcf_local_ipv4 c).
Definition with_local_ipv4 (c : ResolverConfig) (ip : N) : ResolverConfig :=
  mkResolverConfig (rcf_dns_ttl_secs c) (rcf_upstreams c) (rcf_extra_tlds c) (Some ip).

Definition is_mesh_tld (c : ResolverConfig) (tld : string) : bool :=
  let tld_lower := str_lower tld in
  if String.eqb tld_lower "ray" || String.eqb tld_lower "a3net" then true
  else existsb (λ t, String.eqb (str_lower t) tld_lower) (rcf_extra_tlds c).

(** ** Names *)

Definition MAX_NAME_LEN : nat := 253%nat.
Definition MAX_LABEL_LEN : nat := 63%nat.
Definition TLD_SUFFIX : string := "ray".

Record MagicName : Type := mkMagicName { mn_hostname : string; mn_network : option string; mn_has_tld : bool }.

Section Names.
Context (debug_str : string → string).

(** The checks of one label, in the order of the loop body. *)
Definition check_label (label : string) : result MagicError unit :=
  if negb (str_forallb is_ascii_char label) then Err (MalformedName ("non-ASCII label " ++ debug_str label))
  else if Nat.ltb MAX_LABEL_LEN (String.length label)
  then Err (MalformedName ("label " ++ debug_str label ++ " exceeds " ++ show_N (N.of_nat MAX_LABEL_LEN) ++ " bytes"))
  else if bool_decide (str_head label = Some hyphen) || bool_decide (str_last label = Some hyphen)
  then Err (MalformedName ("label " ++ debug_str label ++ " has leading/trailing hyphen"))
  else if negb (str_forallb (λ c, is_ascii_alphanumeric c || Ascii.eqb c hyphen) (str_lower label))
  then Err (MalformedName ("label " ++ debug_str label ++ " has invalid characters"))
  else Ok tt.

Fixpoint check_labels (labels : list string) : result MagicError unit :=
  match labels with
  | [] => Ok tt
  | l :: labels => let? _ := check_label l in check_labels labels
  end.

Definition MagicName_parse (raw : string) : result MagicError MagicName :=
  if String.eqb raw EmptyString then Err EmptyName
  else if Nat.ltb MAX_NAME_LEN (String.length raw) then Err (NameTooLong (String.length raw))
  else
    let parts := str_split dot raw in
    if bool_decide (last parts = Some EmptyString) then Err (MalformedName "trailing dot")
    else if existsb (String.eqb EmptyString) parts then Err (MalformedName "empty label")
    else
      let? _ := check_labels parts in
      let has_tld := bool_decide (last parts = Some TLD_SUFFIX) in
      let unexpected := Err (MalformedName ("expected <host>.<net>[.ray] or <host>.ray, got " ++ debug_str raw)) in
      match parts, has_tld with
      | [h; _], true => Ok (mkMagicName (str_lower h) None has_tld)
      | [h; n], false => Ok (mkMagicName (str_lower h) (Some (str_lower n)) has_tld)
      | [h; n; _], true => Ok (mkMagicName (str_lower h) (Some (str_lower n)) has_tld)
      | _, _ => unexpected
      end.

Definition full_name (m : MagicName) : string :=
  match mn_network m with
  | Some n => mn_hostname m ++ "." ++ n ++ "." ++ TLD_SUFFIX
  | None => mn_hostname m ++ "." ++ TLD_SUFFIX
  end.

Record MagicQuery : Type := mkMagicQuery { mq_name : MagicName; mq_network_hint : option string }.

(** ** The resolver *)

Record MagicResolver : Type := mkMagicResolver {
  mr_config : ResolverConfig;
  mr_networks : gmap string (gmap string MeshMember);
  mr_flat_index : gmap string (list (string * NodeId))
}.

Definition MagicResolver_new (config : ResolverConfig) : MagicResolver := mkMagicResolver config ∅ ∅.

(** One member of the loop over the roster. *)
Definition index_member (display_name : string)
    (acc : gmap string MeshMember * gmap string (list (string * NodeId))) (member : MeshMember)
  : gmap string MeshMember * gmap string (list (string * NodeId)) :=
  let host := mm_hostname member in
  (<[host := member]> acc.1, <[host := default [] (acc.2 !! host) ++ [(display_name, mm_node_id member)]]> acc.2).

Definition apply_roster (r : MagicResolver) (display_name : string) (roster : MeshMembership) : MagicResolver :=
  let networks := delete display_name (mr_networks r) in
  let flat := (filter (λ c, c.1 ≠ display_name)) <$> mr_flat_index r in
  let '(by_host, flat) := foldl (index_member display_name) (∅, flat) (ms_members roster) in
  let flat := filter (λ e, e.2 ≠ []) flat in
  mkMagicResolver (mr_config r) (<[display_name := by_host]> networks) flat.

(** The member of a host in a network that is named. *)
Definition lookup_member (r : MagicResolver) (net hostname : string) : result MagicError MeshMember :=
  match mr_networks r !! net with
  | None => Err (UnknownNetwork net)
  | Some by_host => ok_or (UnknownHost hostname net) (by_host !! hostname)
  end.

Definition resolve (r : MagicResolver) (query : MagicQuery) : result MagicError VirtualIp :=
  let hostname := mn_hostname (mq_name query) in
  match mn_network (mq_name query) with
  | Some net => let? member := lookup_member r net hostname in Ok (mm_virtual_ip member)
  | None =>
      match hint ← mq_network_hint query; by_host ← mr_networks r !! hint; by_host !! hostname with
      | Some member => Ok (mm_virtual_ip member)
      | None =>
          match candidates ← mr_flat_index r !! hostname; head candidates with
          | Some (net, _) => let? member := lookup_member r net hostname in Ok (mm_virtual_ip member)
          | None => Err (UnknownHost hostname (default "<flat>" (mq_network_hint query)))
          end
      end
  end.

Definition resolve_str (r : MagicResolver) (raw : string) (network_hint : option string) : result MagicError VirtualIp :=
  let? name := MagicName_parse raw in resolve r (mkMagicQuery name network_hint).

Definition network_count (r : MagicResolver) : nat := size (mr_networks r).

Record NetworkSnapshot : Type := mkNetworkSnapshot {
  sn_network : string; sn_entries : list (string * VirtualIpv4 * VirtualIpv6 * NodeId)
}.

Definition resolver_snapshot (r : MagicResolver) : list NetworkSnapshot * list (string * string * NodeId) :=
  ((λ p, mkNetworkSnapshot p.1
      ((λ e, (e.1, vi_ipv4 (mm_virtual_ip e.2), vi_ipv6 (mm_virtual_ip e.2), mm_node_id e.2)) <$> map_to_list p.2))
     <$> map_to_list (mr_networks r),
   p ← map_to_list (mr_flat_index r); (λ c, (p.1, c.1, c.2)) <$> p.2).
End Names.

(** ** The abstract specification

    The state of the resolver is determined by the rosters in force, one for each
    network, in the order in which they were applied last. *)

Section Spec.
Implicit Types (r : MagicResolver) (h : string) (ms : list MeshMember) (l : list (string * MeshMembership)).

Definition resolver_run (config : ResolverConfig) l : MagicResolver :=
  foldl (λ r p, apply_roster r p.1 p.2) (MagicResolver_new config) l.

(** The rosters in force after a history. *)
Definition put_roster l (p : string * MeshMembership) : list (string * MeshMembership) :=
  filter (λ q, q.1 ≠ p.1) l ++ [p].
Definition rosters_in_force (history : list (string * MeshMembership)) : list (string * MeshMembership) :=
  foldl put_roster [] history.

Definition members_named ms h : list MeshMember := filter (λ m, mm_hostname m = h) ms.

(** The member a host name stands for: the last one of the roster. *)
Definition host_member (roster : MeshMembership) h : option MeshMember := last (members_named (ms_members roster) h).

Definition roster_of l (net : string) : option MeshMembership := snd <$> head (filter (λ q, q.1 = net) l).

Definition flat_candidates l h : list (string * NodeId) :=
  p ← l; (λ m, (p.1, mm_node_id m)) <$> members_named (ms_members p.2) h.

(** The first roster in force that names the host. *)
Definition flat_member l h : option MeshMember := head (omap (λ p, host_member p.2 h) l).

Definition resolve_spec l (query : MagicQuery) : result MagicError VirtualIp :=
  let h := mn_hostname (mq_name query) in
  match mn_network (mq_name query) with
  | Some net =>
      match roster_of l net with
      | None => Err (UnknownNetwork net)
      | Some roster => let? m := ok_or (UnknownHost h net) (host_member roster h) in Ok (mm_virtual_ip m)
      end
  | None =>
      match hint ← mq_network_hint query; roster ← roster_of l hint; host_member roster h with
      | Some m => Ok (mm_virtual_ip m)
      | None => let? m := ok_or (UnknownHost h (default "<flat>" (mq_network_hint query))) (flat_member l h) in Ok (mm_virtual_ip m)
      end
  end.

(** *** The loop over the members *)

Lemma index_members net ms acc h :
  (foldl (index_member net) acc ms).1 !! h = last (members_named ms h) ∪ acc.1 !! h ∧
  (foldl (index_member net) acc ms).2 !! h =
    match members_named ms h with
    | [] => acc.2 !! h
    | named => Some (default [] (acc.2 !! h) ++ ((λ m, (net, mm_node_id m)) <$> named))
    end.
Proof.
  unfold members_named. revert acc. induction ms as [|m ms IH]; intros acc; cbn [foldl].
  { cbn. by rewrite (left_id_L None (∪)). }
  specialize (IH (index_member net acc m)) as [IH1 IH2]. rewrite IH1, IH2. unfold index_member. cbn [fst snd].
  rewrite filter_cons. destruct (decide (mm_hostname m = h)) as [<-|Hne].
  - rewrite !lookup_insert_eq. destruct (filter _ ms) as [|m' ms'] eqn:Hf; cbn; [by destruct (acc.1 !! _)|].
    rewrite <- (assoc_L (++)). destruct (proj2 (last_is_Some (m' :: ms'))) as [x Hx]; [done|]. rewrite Hx. cbn. by destruct (acc.1 !! _).
  - by rewrite !lookup_insert_ne by done.
Qed.

(** *** The state represents the rosters in force *)

Definition nonempty {A} (c : list A) : option (list A) := match c with [] => None | _ => Some c end.

Definition represents r l : Prop :=
  NoDup l.*1 ∧
  (∀ net h, (mr_networks r !! net) ≫= (.!! h) = roster_of l net ≫= λ ro, host_member ro h) ∧
  (∀ net, is_Some (mr_networks r !! net) ↔ is_Some (roster_of l net)) ∧
  (∀ h, mr_flat_index r !! h = nonempty (flat_candidates l h)).

Lemma roster_of_put l p net : roster_of (put_roster l p) net = if decide (net = p.1) then Some p.2 else roster_of l net.
Proof.
  unfold roster_of, put_roster. rewrite filter_app, list_filter_filter, filter_cons, filter_nil.
  destruct (decide (net = p.1)) as [->|Hne].
  - rewrite decide_True by done. rewrite (filter_none (λ q, _ ∧ _)); [done|]. naive_solver.
  - rewrite decide_False, app_nil_r by congruence. do 2 f_equal. apply list_filter_iff. naive_solver.
Qed.

Lemma flat_candidates_filter l net h :
  flat_candidates (filter (λ q, q.1 ≠ net) l) h = filter (λ c, c.1 ≠ net) (flat_candidates l h).
Proof.
  unfold flat_candidates. induction l as [|[n ro] l IH]; [done|]. cbn [mbind list_bind]. rewrite filter_cons, filter_app.
  rewrite <- IH. cbn [fst snd]. destruct (decide (n ≠ net)) as [Hn|Hn].
  - cbn [mbind list_bind]. f_equal. symmetry. apply filter_all. by intros ? (? & -> & _)%list_elem_of_fmap.
  - rewrite (filter_none _ (_ <$> members_named _ _)); [done|]. by intros ? (? & -> & _)%list_elem_of_fmap.
Qed.

Lemma flat_candidates_put l net ro h :
  flat_candidates (put_roster l (net, ro)) h =
  filter (λ c, c.1 ≠ net) (flat_candidates l h) ++ ((λ m, (net, mm_node_id m)) <$> members_named (ms_members ro) h).
Proof.
  rewrite <- flat_candidates_filter. unfold put_roster, flat_candidates. rewrite bind_app.
  cbn [mbind list_bind fst snd]. by rewrite app_nil_r.
Qed.

Lemma lookup_retain_nonempty {A} (m : gmap string (list A)) h : filter (λ e, e.2 ≠ []) m !! h = (m !! h) ≫= nonempty.
Proof. rewrite map_lookup_filter. destruct (m !! h) as [[|x c]|]; cbn; [| |done]; by case_guard. Qed.

Lemma represents_put r l p : represents r l → represents (apply_roster r p.1 p.2) (put_roster l p).
Proof.
  intros (Hnd & Hnet & Hsome & Hflat). unfold apply_roster.
  destruct (foldl _ _ _) as [by_host flat] eqn:Hf. destruct p as [net ro]. cbn [fst snd] in *.
  pose proof (λ h, index_members net (ms_members ro) (∅, (filter (λ c, c.1 ≠ net)) <$> mr_flat_index r) h) as Hix.
  rewrite Hf in Hix. cbn [fst snd] in Hix. split_and!; cbn [mr_networks mr_flat_index].
  - unfold put_roster. rewrite fmap_app. apply NoDup_app. split_and!; [by apply NoDup_fmap_filter| |by apply NoDup_singleton].
    intros n ([n' ?] & -> & [Hne _]%list_elem_of_filter)%list_elem_of_fmap Hn%list_elem_of_singleton. cbn in *; congruence.
  - intros n h. rewrite roster_of_put. cbn [fst snd]. case_decide as Hn; [subst n|].
    + rewrite lookup_insert_eq. cbn. rewrite (proj1 (Hix h)), lookup_empty. by rewrite (right_id_L None (∪)).
    + rewrite lookup_insert_ne, lookup_delete_ne by done. apply Hnet.
  - intros n. rewrite roster_of_put. cbn [fst snd]. case_decide as Hn; [subst n; by rewrite lookup_insert_eq|].
    rewrite lookup_insert_ne, lookup_delete_ne by done. apply Hsome.
  - intros h. rewrite lookup_retain_nonempty, (proj2 (Hix h)), lookup_fmap, Hflat, flat_candidates_put. unfold nonempty.
    destruct (flat_candidates l h), (members_named (ms_members ro) h); by rewrite ?app_nil_r.
Qed.

Lemma resolver_represents config history : represents (resolver_run config history) (rosters_in_force history).
Proof.
  induction history as [|p history IH] using rev_ind.
  - split_and!; cbn; [constructor|..]; intros; unfold roster_of; rewrite ?lookup_empty; cbn; done || by split; intros [? ?].
  - unfold resolver_run, rosters_in_force. rewrite !foldl_app. by apply represents_put.
Qed.

(** Under unique networks, the network of the first candidate gives the first member. *)
Lemma flat_head l h :
  NoDup l.*1 →
  match head (flat_candidates l h) with
  | None => flat_member l h = None
  | Some (net, _) => ∃ m, flat_member l h = Some m ∧ (roster_of l net ≫= λ ro, host_member ro h) = Some m
  end.
Proof.
  unfold flat_candidates, flat_member. induction l as [|[n ro] l IH]; [done|]. rewrite fmap_cons, NoDup_cons. intros [Hn Hnd].
  specialize (IH Hnd). assert (host_member ro h = last (members_named (ms_members ro) h)) as Hm by done.
  cbn [mbind list_bind omap list_omap fst snd]. destruct (members_named (ms_members ro) h) as [|m ms].
  - rewrite Hm. cbn. cbn in IH. destruct (head _) as [[net i]|]; [|done]. destruct IH as (m & Hf & Hr). exists m. split; [done|].
    rewrite <- Hr. unfold roster_of. rewrite filter_cons, decide_False; [done|]. cbn. intros ->.
    apply Hn. unfold roster_of in Hr. destruct (filter _ l) as [|q ?] eqn:Hq; [done|].
    assert (q ∈ filter (λ q : string * MeshMembership, q.1 = net) l) as [Hq1 Hq2]%list_elem_of_filter by (rewrite Hq; left).
    cbn [fst]. rewrite <- Hq1. apply list_elem_of_fmap. by exists q.
  - destruct (proj2 (last_is_Some (m :: ms))) as [m' Hl]; [done|]. rewrite Hl in Hm. rewrite Hm. cbn. exists m'. split; [done|].
    unfold roster_of. rewrite filter_cons, decide_True by done. cbn. by rewrite Hm.
Qed.

(** The resolver answers from the rosters in force: after any history of
    applied rosters, a name with a network gives the last member of that name in
    the roster applied last under the network, or says whether the network or the
    host is unknown; a flat name tries the hinted network and then the networks
    in the order in which they were last applied. *)
Theorem resolver_refines_rosters config history query :
  resolve (resolver_run config history) query = resolve_spec (rosters_in_force history) query.
Proof.
  destruct (resolver_represents config history) as (Hnd & Hnet & Hsome & Hflat).
  set (r := resolver_run config history) in *. set (l := rosters_in_force history) in *. set (h := mn_hostname (mq_name query)).
  assert (Hlook : ∀ net, lookup_member r net h =
    match roster_of l net with None => Err (UnknownNetwork net) | Some ro => ok_or (UnknownHost h net) (host_member ro h) end).
  { intros net. unfold lookup_member. specialize (Hnet net h). specialize (Hsome net).
    destruct (mr_networks r !! net) as [b|], (roster_of l net) as [ro|]; cbn in *.
    - by rewrite Hnet.
    - exfalso. destruct (proj1 Hsome (mk_is_Some _ _ eq_refl)). done.
    - exfalso. destruct (proj2 Hsome (mk_is_Some _ _ eq_refl)). done.
    - done. }
  unfold resolve, resolve_spec. fold h. destruct (mn_network (mq_name query)) as [net|].
  { rewrite Hlook. destruct (roster_of l net) as [ro|]; [|done]. by destruct (host_member ro h). }
  assert ((hint ← mq_network_hint query; by_host ← mr_networks r !! hint; by_host !! h) =
          (hint ← mq_network_hint query; roster ← roster_of l hint; host_member roster h)) as ->.
  { destruct (mq_network_hint query) as [hint|]; cbn; [|done]. apply Hnet. }
  destruct (hint ← mq_network_hint query; _) as [m|]; [done|]. pose proof (flat_head l h Hnd) as Hh. rewrite Hflat.
  destruct (flat_candidates l h) as [|[net i] cs]; cbn in Hh |- *; [by rewrite Hh|].
  destruct Hh as (m & -> & Hr). rewrite Hlook. destruct (roster_of l net) as [ro|]; cbn in *; [|done]. by rewrite Hr.
Qed.
End Spec.

(** ** Names that parse *)

Section NameLemmas.
Context (debug_str : string → string).
Notation MagicName_parse := (MagicName_parse debug_str).

Definition name_char (c : ascii) : bool := is_ascii_alphanumeric c || Ascii.eqb c hyphen.

Definition label_ok (l : string) : Prop :=
  l ≠ EmptyString ∧ (String.length l ≤ MAX_LABEL_LEN)%nat ∧ str_head l ≠ Some hyphen ∧ str_last l ≠ Some hyphen ∧
  str_forallb name_char l = true.

Lemma lower_name_char c : name_char (ascii_lower c) = name_char c.
Proof. apply eqb_prop. by apply (ascii_check (λ c, Bool.eqb (name_char (ascii_lower c)) (name_char c))). Qed.

Lemma name_char_ascii c : name_char c = true → is_ascii_char c = true.
Proof. pose proof (ascii_check (λ c, implb (name_char c) (is_ascii_char c)) eq_refl c) as H. cbn in H. intros Hc. by rewrite Hc in H. Qed.

Lemma name_char_not_dot c : name_char c = true → negb (Ascii.eqb c dot) = true.
Proof. pose proof (ascii_check (λ c, implb (name_char c) (negb (Ascii.eqb c dot))) eq_refl c) as H. cbn in H. intros Hc. by rewrite Hc in H. Qed.

Lemma lower_name_chars l : str_forallb name_char (str_lower l) = str_forallb name_char l.
Proof. induction l as [|c l IH]; cbn; [done|]. by rewrite lower_name_char, IH. Qed.

Lemma check_label_spec l : l ≠ EmptyString → check_label debug_str l = Ok tt ↔ label_ok l.
Proof.
  intros Hl. unfold check_label, label_ok. fold name_char. rewrite (lower_name_chars l).
  destruct (str_forallb name_char l) eqn:Hc.
  - rewrite (str_forallb_impl _ _ _ name_char_ascii Hc). cbn [negb].
    destruct (Nat.ltb_spec MAX_LABEL_LEN (String.length l)); [split; [done|lia]|].
    destruct (bool_decide_reflect (str_head l = Some hyphen)), (bool_decide_reflect (str_last l = Some hyphen)); cbn; naive_solver.
  - split; [|by intros (_ & _ & _ & _ & ?)]. cbn [negb]. by repeat case_match.
Qed.

Lemma check_labels_spec ls : Forall (λ l, l ≠ EmptyString) ls → check_labels debug_str ls = Ok tt ↔ Forall label_ok ls.
Proof.
  induction 1 as [|l ls Hl Hls IH]; cbn [check_labels]; [by split|]. rewrite Forall_cons, <- IH, <- (check_label_spec l Hl).
  destruct (check_label debug_str l) as [[]|]; cbn; naive_solver.
Qed.

(** The names the parser accepts, and what they stand for. *)
Definition name_view (ls : list string) : option MagicName :=
  match ls with
  | [h; n] => if String.eqb n TLD_SUFFIX then Some (mkMagicName (str_lower h) None true)
              else Some (mkMagicName (str_lower h) (Some (str_lower n)) false)
  | [h; n; t] => if String.eqb t TLD_SUFFIX then Some (mkMagicName (str_lower h) (Some (str_lower n)) true) else None
  | _ => None
  end.

Lemma label_lacks_dot l : label_ok l → str_lacks dot l = true.
Proof. intros (_ & _ & _ & _ & H). exact (str_forallb_impl _ _ _ name_char_not_dot H). Qed.

Ltac tld_cases t :=
  destruct (String.eqb_spec t TLD_SUFFIX) as [->|]; [rewrite bool_decide_true by done|rewrite bool_decide_false by congruence]; congruence.

(** The parser of mesh names accepts exactly the names of at most 253 bytes
    that are two or three labels joined with dots, each of 1 to 63 letters, digits
    and inner hyphens, where a third label is [ray]; the host is the first label
    in lower case and the network the second one, unless two labels end in [ray]. *)
Lemma name_parse_iff raw m :
  MagicName_parse raw = Ok m ↔
  (String.length raw ≤ MAX_NAME_LEN)%nat ∧ ∃ ls, raw = str_join dot ls ∧ Forall label_ok ls ∧ name_view ls = Some m.
Proof.
  unfold MagicDns.MagicName_parse. split.
  - destruct (String.eqb_spec raw EmptyString) as [|Hraw]; [done|]. destruct (Nat.ltb_spec MAX_NAME_LEN (String.length raw)); [done|].
    cbv zeta. case_bool_decide; [done|]. destruct (existsb _ _) eqn:He; [done|].
    assert (Forall (λ l, l ≠ EmptyString) (str_split dot raw)) as Hne.
    { apply Forall_forall. intros l Hl ->. rewrite <- not_true_iff_false, existsb_exists in He.
      apply He. exists EmptyString. by rewrite <- list_elem_of_In. }
    destruct (check_labels debug_str (str_split dot raw)) as [[]|] eqn:Hc; cbn; [|done].
    apply (check_labels_spec _ Hne) in Hc. intros Hm. split; [done|]. exists (str_split dot raw).
    rewrite str_join_split. split_and!; [done|done|]. revert Hm. unfold name_view.
    destruct (str_split dot raw) as [|h [|n [|t [|]]]]; cbn; try by repeat case_bool_decide.
    + tld_cases n.
    + tld_cases t.
  - intros (Hlen & ls & -> & Hls & Hv). assert (ls ≠ []) as Hnil by by intros ->.
    assert (str_split dot (str_join dot ls) = ls) as Hsp.
    { apply str_split_join; [done|]. eapply Forall_impl; [exact Hls|]. apply label_lacks_dot. }
    assert (Forall (λ l, l ≠ EmptyString) ls) as Hne by (eapply Forall_impl; [exact Hls|]; by intros l [? _]).
    destruct (String.eqb_spec (str_join dot ls) EmptyString) as [He|He]; [by rewrite He in Hsp; subst ls; inversion Hne|].
    destruct (Nat.ltb_spec MAX_NAME_LEN (String.length (str_join dot ls))); [lia|]. cbv zeta. rewrite Hsp.
    rewrite bool_decide_false.
    2: { intros Hl. apply last_Some in Hl as [ls' ->]. apply Forall_app in Hne as [_ Hne]. by inversion Hne. }
    assert (existsb (String.eqb EmptyString) ls = false) as ->.
    { apply not_true_iff_false. rewrite existsb_exists. intros (l & Hl%list_elem_of_In & <-%String.eqb_eq).
      by apply (proj1 (Forall_forall _ _) Hne) in Hl. }
    rewrite (proj2 (check_labels_spec ls Hne) Hls). cbn. revert Hv. unfold name_view.
    destruct ls as [|h [|n [|t [|]]]]; cbn; try done.
    + tld_cases n.
    + tld_cases t.
Qed.

Lemma lower_hyphen c : ascii_lower c = hyphen → c = hyphen.
Proof.
  pose proof (ascii_check (λ c, implb (Ascii.eqb (ascii_lower c) hyphen) (Ascii.eqb c hyphen)) eq_refl c) as H.
  cbn in H. intros Hc. rewrite Hc, Ascii.eqb_refl in H. by apply Ascii.eqb_eq.
Qed.

Lemma lower_label_ok l : label_ok l → label_ok (str_lower l).
Proof.
  intros (Hne & Hlen & Hh & Hl & Hc). split_and!; [by destruct l|by rewrite length_str_lower|..|by rewrite lower_name_chars].
  - destruct l as [|c l]; [done|]. cbn. intros [= ?%lower_hyphen]. by subst.
  - intros H. apply Hl. clear -H. induction l as [|c l IH]; [done|]. cbn in *. destruct l as [|d l].
    + cbn in H. injection H as ?%lower_hyphen. by subst.
    + by apply IH.
Qed.

Lemma label_ok_ray : label_ok TLD_SUFFIX.
Proof. unfold label_ok. split_and!; [done|unfold MAX_LABEL_LEN; cbn; lia|done|done|done]. Qed.

Lemma str_lower_idem l : str_lower (str_lower l) = str_lower l.
Proof.
  induction l as [|c l IH]; [done|]. cbn. rewrite IH. f_equal. apply Ascii.eqb_eq.
  by apply (ascii_check (λ c, Ascii.eqb (ascii_lower (ascii_lower c)) (ascii_lower c))).
Qed.

(** Writing a parsed name out in full and parsing it again gives the same host
    and network, with the suffix, as long as the suffix does not make the name too
    long. *)
Theorem magic_name_roundtrip raw m :
  MagicName_parse raw = Ok m → (String.length (full_name m) ≤ MAX_NAME_LEN)%nat →
  MagicName_parse (full_name m) = Ok (mkMagicName (mn_hostname m) (mn_network m) true).
Proof.
  intros (_ & ls & _ & Hls & Hv)%name_parse_iff Hlen. apply name_parse_iff. split; [done|].
  destruct ls as [|h [|n ls]]; [done|done|]. inversion Hls as [|?? Hh Hls']. inversion Hls' as [|?? Hn _]. subst.
  unfold name_view in Hv. pose proof label_ok_ray as Hray.
  assert (m = mkMagicName (str_lower h) None true ∨ ∃ b, m = mkMagicName (str_lower h) (Some (str_lower n)) b) as [->|[b ->]].
  { destruct ls as [|t [|]]; [destruct (String.eqb_spec n TLD_SUFFIX)|destruct (String.eqb_spec t TLD_SUFFIX)|]; naive_solver. }
  - exists [str_lower h; TLD_SUFFIX]. split_and!; [done|repeat apply Forall_cons_2; auto using lower_label_ok, Forall_nil_2|].
    cbn. by rewrite str_lower_idem.
  - exists [str_lower h; str_lower n; TLD_SUFFIX]. split_and!; [done|repeat apply Forall_cons_2; auto using lower_label_ok, Forall_nil_2|].
    cbn. by rewrite !str_lower_idem.
Qed.

(** A name that parses has letters, digits, hyphens and dots only. *)
Lemma parsed_chars raw m : MagicName_parse raw = Ok m → str_forallb (λ c, name_char c || Ascii.eqb c dot) raw = true.
Proof.
  intros (_ & ls & -> & Hls & _)%name_parse_iff. induction Hls as [|l ls (_ & _ & _ & _ & Hl) Hls IH]; [done|].
  assert (str_forallb (λ c, name_char c || Ascii.eqb c dot) l = true) as Hl' by (eapply str_forallb_impl; [|exact Hl]; by intros a ->).
  cbn [str_join]. destruct ls as [|l' ls]; [done|]. rewrite str_forallb_app, Hl'. cbn [andb str_forallb].
  by rewrite (Ascii.eqb_refl dot), orb_true_r.
Qed.

End NameLemmas.

(** ** Corners *)

(** The documentation says that a flat name gives the network applied first. A
    network whose roster is applied again moves behind the others. *)
Definition ex_member (k : N) (h : string) : MeshMember :=
  mkMeshMember (mkNodeId h) h (mkVirtualIp (mkVirtualIpv4 k) (mkVirtualIpv6 [])) false 0.
Definition ex_roster (k : N) (h : string) : MeshMembership :=
  MeshMembership_new_unsigned 0 (mkMeshNetworkId h) [ex_member k h].
Definition ex_query (h : string) : MagicQuery := mkMagicQuery (mkMagicName h None true) None.

Definition flat_ip (history : list (string * MeshMembership)) (h : string) : option N :=
  match resolve (resolver_run ResolverConfig_default history) (ex_query h) with
  | Ok vip => Some (vip4 (vi_ipv4 vip))
  | Err _ => None
  end.

Lemma flat_order_changes :
  let gaming := ("gaming", ex_roster 1 "alice") in
  let work := ("work", ex_roster 2 "alice") in
  flat_ip [gaming; work] "alice" = Some 1 ∧
  flat_ip [gaming; work; gaming] "alice" = Some 2.
Proof. by vm_compute. Qed.

(** Of two members with one host name the resolver knows the last one only. *)
Lemma duplicate_host_hidden :
  let roster := MeshMembership_new_unsigned 0 (mkMeshNetworkId "n") [ex_member 1 "alice"; ex_member 2 "alice"] in
  flat_ip [("gaming", roster)] "alice" = Some 2.
Proof. by vm_compute. Qed.

(** The suffix of a name is recognised in lower case and as [ray] only: in upper
    case it becomes a network of that name, and so does [a3net], although
    [is_mesh_tld] takes both for suffixes of the mesh. *)
Lemma suffix_becomes_network :
  MagicName_parse id "alice.RAY" = Ok (mkMagicName "alice" (Some "ray") false) ∧
  MagicName_parse id "alice.a3net" = Ok (mkMagicName "alice" (Some "a3net") false) ∧
  is_mesh_tld ResolverConfig_default "RAY" = true ∧ is_mesh_tld ResolverConfig_default "a3net" = true.
Proof. by vm_compute. Qed.

Lemma magic_name_roundtrip_witness :
  full_name (mkMagicName "alice-2" (Some "gaming") false) = "alice-2.gaming.ray" ∧
  MagicName_parse id "alice-2.gaming.ray" = Ok (mkMagicName "alice-2" (Some "gaming") true).
Proof.
  split; [reflexivity|].
  apply (magic_name_roundtrip id "Alice-2.GAMING" (mkMagicName "alice-2" (Some "gaming") false)).
  - vm_compute. reflexivity.
  - vm_compute. lia.
Defined.
