(* ===== verification/DnsForwarder.v ===== *)
(** * Forwarder and server of the mesh name service ([crates/a3net-magicdns/src/])

    The forwarder that answers DNS packets at the TUN device ([forwarder.rs]) and
    the message handling of the DNS server ([server.rs]). Bytes are [N] below 256.
    [unicode_lowercase] is [str::to_lowercase] on a string that is not ASCII;
    [ask_upstream] is the exchange with the upstream server, which gives no answer
    when the address does not parse, a socket fails or the time is up. A TCP
    stream is the bytes it delivers before it ends. Log output, the sockets of the
    server loops and the shutdown channel are not modelled. The theorems show what
    the server answers from the rosters in force, that the answers of the
    forwarder are well-formed IPv4 packets, and that the forwarder, which reads
    the question at the wrong offset, never answers a query with an address. *)
From stdpp Require Import prelude strings gmap list.
From Stdlib Require Import NArith Lia Ascii.
From Stdlib Require String.
From S2P Require Import Prelude NodeId VirtualIp Mesh TunPacket MagicDns.

#[local] Open Scope N_scope.

Definition DNS_PORT : N := 53.
Definition DEFAULT_DNS_PORT : N := 53.
Definition MAX_DNS_SIZE : N := 4096.

Inductive ForwarderError : Type := PacketTooLarge (total : nat) | InvalidIpPacket.

Record TunDnsForwarder : Type := mkTunDnsForwarder { td_resolver : MagicResolver; td_config : ResolverConfig }.

(** The two bytes of a 16-bit number at an offset that is in range. *)
Definition be16 (bs : list N) (i : nat) : N := be_value [byte_at bs i; byte_at bs (S i)].

Section Forwarder.
Context (debug_str unicode_lowercase : string → string).

(** [str::to_lowercase]. *)
Definition to_lowercase (s : string) : string :=
  if str_forallb is_ascii_char s then str_lower s else unicode_lowercase s.

(** The loop of [extract_qname]. A round consumes at least one byte, so a fuel
    above the number of bytes is enough. *)
Fixpoint take_labels (fuel : nat) (payload : list N) : option (list string) :=
  match fuel, payload with
  | O, _ | _, [] => None
  | S fuel, len :: rest =>
      let n := N.to_nat len in
      if len =? 0 then Some []
      else if Nat.ltb (length rest) n then None
      else if utf8_valid (take n rest)
      then labels ← take_labels fuel (drop n rest);
           Some (to_lowercase (string_of_bytes (take n rest)) :: labels)
      else None
  end.

Definition extract_qname (payload : list N) : option string :=
  labels ← take_labels (S (length payload)) payload;
  match labels with [] => None | _ => Some (str_join dot labels) end.

(** What follows the name, if its end is found. *)
Fixpoint skip_qname (fuel : nat) (payload : list N) : option (list N) :=
  match fuel, payload with
  | O, _ | _, [] => None
  | S fuel, len :: rest => if len =? 0 then Some rest else skip_qname fuel (drop (N.to_nat len) rest)
  end.

Definition extract_qtype (payload : list N) : option N :=
  rest ← skip_qname (S (length payload)) payload;
  if Nat.ltb (length rest) 4 then None else Some (be16 rest 0).

Definition read_udp_port (raw : list N) (offset : nat) : N :=
  if Nat.ltb (length raw) (offset + 2) then 0 else be16 raw offset.

Definition is_dns_packet (parsed : ParsedPacket) : bool :=
  match pp_version parsed, pp_protocol parsed with V4, PUdp => true | _, _ => false end.

Definition check_mesh_tld (f : TunDnsForwarder) (qname : string) : bool :=
  is_mesh_tld (td_config f) (default EmptyString (last (str_split dot qname))).

Definition resolve_mesh_query (f : TunDnsForwarder) (qname : string) : result MagicError VirtualIp :=
  resolve_str debug_str (td_resolver f) qname None.

(** *** Responses *)

Definition write_label (label : string) : list N :=
  if String.eqb label EmptyString then [] else N.of_nat (String.length label) mod 256 :: str_bytes label.

Definition write_qname (name : string) : list N := concat (write_label <$> str_split dot name) ++ [0].

Definition build_response_header (question : list N) (nxdomain : bool) : list N :=
  let id := if Nat.leb 2 (length question) then be16 question 0 else 0 in
  let flags := if nxdomain then 0x8183 else 0x8184 in
  be_bytes 2 id ++ be_bytes 2 flags ++ be_bytes 2 1 ++ be_bytes 2 0 ++ be_bytes 2 0 ++ be_bytes 2 0.

Definition set_ancount (response : list N) (ancount : N) : list N :=
  if Nat.leb 8 (length response) then take 6 response ++ be_bytes 2 ancount ++ drop 8 response else response.

Definition build_answer (f : TunDnsForwarder) (question : list N) (qname : string) (vip : VirtualIp) (qtype : N) : list N :=
  let response := build_response_header question false in
  let response := response ++ write_qname qname ++ be_bytes 2 qtype ++ be_bytes 2 1 in
  let response := response ++ write_qname qname ++ be_bytes 2 qtype ++ be_bytes 2 1
                    ++ be_bytes 4 (rcf_dns_ttl_secs (td_config f)) in
  if qtype =? 1 then set_ancount (response ++ be_bytes 2 4 ++ octets4 (vip4 (vi_ipv4 vip))) 1
  else if qtype =? 28 then set_ancount (response ++ be_bytes 2 16 ++ vip6 (vi_ipv6 vip)) 1
  else set_ancount response 0.

Definition build_nxdomain (question : list N) (qname : string) : list N :=
  build_response_header question true ++ write_qname qname ++ be_bytes 2 1 ++ be_bytes 2 1.

(** *** Packets *)

(** The words of a header, an odd last byte padded. *)
Fixpoint header_words (header : list N) : list N :=
  match header with
  | a :: b :: t => be_value [a; b] :: header_words t
  | [a] => [be_value [a; 0]]
  | [] => []
  end.

(** [while sum > 0xffff]. The sum is a [u32]; two rounds are enough. *)
Fixpoint fold_carry (fuel : nat) (sum : N) : N :=
  match fuel with
  | O => sum
  | S fuel => if 0xffff <? sum then fold_carry fuel (N.land sum 0xffff + N.shiftr sum 16) else sum
  end.

(** The sum does not overflow its 32 bits for the 20 bytes the code passes. *)
Definition ip_checksum (header : list N) : N :=
  let sum := fold_carry 2 (foldr N.add 0 (header_words header)) in
  N.lxor 0xffffffff sum mod 2 ^ 16.

Definition local_ipv4 (f : TunDnsForwarder) : N := default (ipv4_of 100 64 0 1) (rcf_local_ipv4 (td_config f)).

Definition ip_header (total : nat) (checksum : N) (src dst : list N) : list N :=
  [0x45; 0] ++ be_bytes 2 (N.of_nat total) ++ [0; 0; 0; 0; 64; 17] ++ be_bytes 2 checksum ++ src ++ dst.

Definition udp_header (src_port dst_port : N) (udp_len : nat) : list N :=
  be_bytes 2 src_port ++ be_bytes 2 dst_port ++ be_bytes 2 (N.of_nat udp_len) ++ [0; 0].

Definition wrap_in_ip (f : TunDnsForwarder) (dns_response : list N) (original : ParsedPacket) (original_src_port : N)
  : result ForwarderError (list N) :=
  let udp_len := (8 + length dns_response)%nat in
  let total := (20 + udp_len)%nat in
  if 65535 <? N.of_nat total then Err (PacketTooLarge total)
  else
    let src := octets4 (local_ipv4 f) in
    let dst := ParsedPacket_src_v4 original in
    let checksum := ip_checksum (ip_header total 0 src dst) in
    Ok (ip_header total checksum src dst ++ udp_header DNS_PORT original_src_port udp_len ++ dns_response).

Definition maybe_handle (f : TunDnsForwarder) (raw : list N) (parsed : ParsedPacket)
  : result ForwarderError (option (list N)) :=
  if negb (is_dns_packet parsed) then Ok None
  else if negb (read_udp_port raw (pp_header_len parsed + 2) =? DNS_PORT) then Ok None
  else
    let src_port := read_udp_port raw (pp_header_len parsed) in
    let dns_start := (pp_header_len parsed + 8)%nat in
    if Nat.leb (length raw) dns_start then Ok None
    else
      let dns_payload := drop dns_start raw in
      match extract_qname dns_payload with
      | None => Ok None
      | Some qname =>
          if negb (check_mesh_tld f qname) then Ok None
          else
            let vip := resolve_mesh_query f qname in
            let qtype := default 1 (extract_qtype dns_payload) in
            let answer := match vip with
                          | Ok vip => build_answer f dns_payload qname vip qtype
                          | Err _ => build_nxdomain dns_payload qname
                          end in
            let? out := wrap_in_ip f answer parsed src_port in
            Ok (Some out)
      end.

(** ** The server *)

Context (ask_upstream : string → list N → option (list N)).

Definition forward_to_upstream (query : list N) (config : ResolverConfig) : option (list N) :=
  upstream ← head (rcf_upstreams config); ask_upstream upstream query.

Definition handle_udp_query (query : list N) (f : TunDnsForwarder) : option (list N) :=
  if Nat.ltb (length query) 12 then None
  else
    qname ← extract_qname (drop 12 query);
    qtype ← extract_qtype (drop 12 query);
    if negb (check_mesh_tld f qname) then forward_to_upstream query (td_config f)
    else Some (match resolve_str debug_str (td_resolver f) qname None with
               | Ok vip => build_answer f query qname vip qtype
               | Err _ => build_nxdomain query qname
               end).

(** What is left of the question after the skip of [empty_nxdomain]. *)
Fixpoint echo_tail (fuel : nat) (rest : list N) : list N :=
  match fuel, rest with
  | O, _ | _, [] => []
  | S fuel, len :: rest => if len =? 0 then drop 1 rest else echo_tail fuel (drop (N.to_nat len) rest)
  end.

Definition empty_nxdomain (query : list N) : list N :=
  let question := drop 12 query in
  let tail := echo_tail (S (length question)) question in
  build_response_header query true ++ write_qname (default EmptyString (extract_qname question))
    ++ (if Nat.leb 4 (length tail) then take 4 tail else []).

Inductive ServeError : Type := Bind | Io | MessageTooLarge (n : N).

(** The bytes written to a connection. *)
Definition handle_tcp (stream : list N) (f : TunDnsForwarder) : result ServeError (list N) :=
  if Nat.ltb (length stream) 2 then Err Io
  else
    let msg_len := be16 stream 0 in
    if MAX_DNS_SIZE <? msg_len then Err (MessageTooLarge msg_len)
    else if Nat.ltb (length (drop 2 stream)) (N.to_nat msg_len) then Err Io
    else
      let msg := take (N.to_nat msg_len) (drop 2 stream) in
      let response := default (empty_nxdomain msg) (handle_udp_query msg f) in
      Ok (be_bytes 2 (N.of_nat (length response) mod 2 ^ 16) ++ response).
End Forwarder.

(** ** Names on the wire *)

Section Wire.
Context (unicode_lowercase : string → string).
Notation take_labels := (take_labels unicode_lowercase).
Notation extract_qname := (extract_qname unicode_lowercase).
Implicit Types (ls : list string) (l : string) (rest : list N).

(** A name as a message carries it: each label after its length, then a zero. *)
Definition wire_name ls : list N := concat ((λ l, N.of_nat (String.length l) :: str_bytes l) <$> ls) ++ [0].

Definition wire_label (l : string) : Prop :=
  l ≠ EmptyString ∧ (String.length l ≤ MAX_LABEL_LEN)%nat ∧ str_lacks dot l = true ∧ str_forallb is_ascii_char l = true.

Lemma ascii_utf8 l : str_forallb is_ascii_char l = true → utf8_valid (str_bytes l) = true.
Proof.
  induction l as [|a l IH]; [done|]. intros [Ha Hl]%andb_true_iff. change (str_bytes (String a l)) with (N_of_ascii a :: str_bytes l).
  cbn [utf8_valid]. unfold is_ascii_char in Ha. rewrite Ha. by apply IH.
Qed.

Lemma lower_ascii l : str_forallb is_ascii_char l = true → str_forallb is_ascii_char (str_lower l) = true.
Proof.
  induction l as [|a l IH]; [done|]. cbn. intros [Ha Hl]%andb_true_iff. rewrite IH, andb_true_r by done.
  pose proof (ascii_check (λ a, implb (is_ascii_char a) (is_ascii_char (ascii_lower a))) eq_refl a) as H. cbn in H. by rewrite Ha in H.
Qed.

Lemma to_lowercase_ascii l : str_forallb is_ascii_char l = true → to_lowercase unicode_lowercase l = str_lower l.
Proof. unfold to_lowercase. by intros ->. Qed.

Lemma wire_name_cons l ls : wire_name (l :: ls) = N.of_nat (String.length l) :: str_bytes l ++ wire_name ls.
Proof. unfold wire_name. rewrite fmap_cons, concat_cons. cbn. by rewrite <- app_assoc. Qed.

(** The loops of the readers, on a name that is well formed. *)
Lemma wire_round l ls rest :
  l ≠ EmptyString →
  ∃ t, wire_name (l :: ls) ++ rest = N.of_nat (String.length l) :: t ∧ (N.of_nat (String.length l) =? 0) = false ∧
    (length t = String.length l + length (wire_name ls ++ rest))%nat ∧
    take (N.to_nat (N.of_nat (String.length l))) t = str_bytes l ∧
    drop (N.to_nat (N.of_nat (String.length l))) t = wire_name ls ++ rest.
Proof.
  intros Hl. exists (str_bytes l ++ wire_name ls ++ rest). rewrite wire_name_cons, Nat2N.id, <- length_str_bytes.
  rewrite take_app_length, drop_app_length, !length_app. split_and!; [by cbn; rewrite <- app_assoc| |done|done|done].
  apply N.eqb_neq. rewrite length_str_bytes. destruct l; [done|]. cbn. lia.
Qed.

Lemma take_labels_wire ls rest fuel :
  Forall wire_label ls → (length (wire_name ls ++ rest) < fuel)%nat →
  take_labels fuel (wire_name ls ++ rest) = Some (str_lower <$> ls).
Proof.
  intros Hls. revert fuel. induction Hls as [|l ls (Hne & _ & _ & Ha) Hls IH]; intros fuel Hf.
  { destruct fuel; [lia|]. done. }
  destruct (wire_round l ls rest Hne) as (t & Ht & Hz & Hlen & Htake & Hdrop). rewrite Ht in Hf |- *. cbn [length] in Hf.
  destruct fuel as [|fuel]; [lia|]. cbn [DnsForwarder.take_labels]. rewrite Hz, Htake, Hdrop, ascii_utf8 by done.
  destruct (Nat.ltb_spec (length t) (N.to_nat (N.of_nat (String.length l)))); [lia|].
  rewrite IH by lia. cbn. by rewrite string_of_str_bytes, to_lowercase_ascii.
Qed.

Lemma skip_qname_wire ls rest fuel :
  Forall wire_label ls → (length (wire_name ls ++ rest) < fuel)%nat → skip_qname fuel (wire_name ls ++ rest) = Some rest.
Proof.
  intros Hls. revert fuel. induction Hls as [|l ls (Hne & _ & _ & Ha) Hls IH]; intros fuel Hf.
  { destruct fuel; [lia|]. done. }
  destruct (wire_round l ls rest Hne) as (t & Ht & Hz & Hlen & Htake & Hdrop). rewrite Ht in Hf |- *. cbn [length] in Hf.
  destruct fuel as [|fuel]; [lia|]. cbn [skip_qname]. rewrite Hz, Hdrop. apply IH. lia.
Qed.

(** Reading a question back. *)
Lemma extract_qname_wire ls rest :
  ls ≠ [] → Forall wire_label ls → extract_qname (wire_name ls ++ rest) = Some (str_join dot (str_lower <$> ls)).
Proof. intros Hne Hls. unfold DnsForwarder.extract_qname. rewrite take_labels_wire by (done || lia). by destruct ls. Qed.

Lemma extract_qtype_wire ls qtype rest :
  Forall wire_label ls → qtype < 2 ^ 16 → (2 ≤ length rest)%nat →
  extract_qtype (wire_name ls ++ be_bytes 2 qtype ++ rest) = Some qtype.
Proof.
  intros Hls Hq Hr. unfold extract_qtype. rewrite skip_qname_wire by (done || lia). cbn [mbind option_bind].
  rewrite length_app, length_be_bytes. destruct (Nat.ltb_spec (2 + length rest) 4); [lia|]. f_equal.
  transitivity (be_value (be_bytes 2 qtype)); [done|]. rewrite be_value_be_bytes. by apply N.mod_small.
Qed.

Lemma lower_lacks_dot l : str_lacks dot l = true → str_lacks dot (str_lower l) = true.
Proof.
  unfold str_lacks. induction l as [|a l IH]; [done|]. cbn. intros [Ha Hl]%andb_true_iff. rewrite IH, andb_true_r by done.
  pose proof (ascii_check (λ a, implb (negb (Ascii.eqb a dot)) (negb (Ascii.eqb (ascii_lower a) dot))) eq_refl a) as H.
  cbn in H. by rewrite Ha in H.
Qed.

Lemma lower_wire_label l : wire_label l → wire_label (str_lower l).
Proof.
  intros (? & ? & ? & ?). split_and!; [by destruct l|by rewrite length_str_lower|by apply lower_lacks_dot|by apply lower_ascii].
Qed.

(** Writing the text of a name gives the name on the wire. *)
Lemma write_qname_wire ls : ls ≠ [] → Forall wire_label ls → write_qname (str_join dot ls) = wire_name ls.
Proof.
  intros Hne Hls. unfold write_qname, wire_name. rewrite str_split_join; [|done|by eapply Forall_impl; [exact Hls|intros l (? & ? & ? & ?)]].
  do 2 f_equal. apply list_fmap_ext. intros i l Hl. apply (Forall_lookup_1 _ _ _ _ Hls) in Hl as (Hl & Hlen & _).
  unfold write_label. destruct (String.eqb_spec l EmptyString); [done|]. f_equal. apply N.mod_small. unfold MAX_LABEL_LEN in Hlen. lia.
Qed.

Lemma label_ok_wire l : label_ok l → wire_label l.
Proof.
  intros Hl. pose proof (label_lacks_dot l Hl) as Hd. destruct Hl as (? & ? & _ & _ & Hc).
  split_and!; [done|done|done|]. exact (str_forallb_impl _ _ _ name_char_ascii Hc).
Qed.

(** The server lowers the labels again: nothing changes. *)
Lemma lower_labels_idem ls : str_lower <$> (str_lower <$> ls) = str_lower <$> ls.
Proof. rewrite <- list_fmap_compose. apply list_fmap_ext. intros. apply str_lower_idem. Qed.
End Wire.

(** ** What the server answers *)

Section Server.
Context (debug_str unicode_lowercase : string → string) (ask_upstream : string → list N → option (list N)).
Notation handle_udp_query := (handle_udp_query debug_str unicode_lowercase ask_upstream).
Notation extract_qname := (extract_qname unicode_lowercase).

(** A question: a header of twelve bytes, one name with its type and class, and
    what may follow. *)
Definition dns_question (hd : list N) (ls : list string) (qtype : N) (rest : list N) : list N :=
  hd ++ wire_name ls ++ be_bytes 2 qtype ++ be_bytes 2 1 ++ rest.

(** The messages the server writes, with the two bytes of the flags. *)
Definition answer_message (id flags : list N) (ls : list string) (qtype ttl : N) (rdata : list N) : list N :=
  id ++ flags ++ [0; 1; 0; 1; 0; 0; 0; 0] ++ wire_name ls ++ be_bytes 2 qtype ++ [0; 1] ++
  wire_name ls ++ be_bytes 2 qtype ++ [0; 1] ++ be_bytes 4 ttl ++ be_bytes 2 (N.of_nat (length rdata)) ++ rdata.

Definition nxdomain_message (id flags : list N) (ls : list string) : list N :=
  id ++ flags ++ [0; 1; 0; 0; 0; 0; 0; 0] ++ wire_name ls ++ [0; 1; 0; 1].

(** The address of a record type. *)
Definition record_data (qtype : N) (vip : VirtualIp) : option (list N) :=
  if qtype =? 1 then Some (octets4 (vip4 (vi_ipv4 vip)))
  else if qtype =? 28 then Some (vip6 (vi_ipv6 vip)) else None.

Lemma be16_bytes a b : byte_ok a → byte_ok b → be_bytes 2 (be_value [a; b]) = [a; b].
Proof.
  intros Ha Hb. apply be_value_inj; [done|apply be_bytes_ok|by repeat constructor|].
  rewrite be_value_be_bytes. apply N.mod_small, (be_value_bound [a; b]). by repeat constructor.
Qed.

Lemma response_header_id hd t nx :
  length hd = 12%nat → bytes_ok hd →
  build_response_header (hd ++ t) nx = take 2 hd ++ [0x81; if nx then 0x83 else 0x84; 0; 1; 0; 0; 0; 0; 0; 0].
Proof.
  intros Hl Hok. destruct hd as [|a [|b hd]]; [done|done|]. inversion Hok as [|?? Ha Hok']. inversion Hok' as [|?? Hb _]. subst.
  unfold build_response_header. cbn [length app Nat.leb]. change (be16 _ 0) with (be_value [a; b]). rewrite be16_bytes by done.
  by destruct nx.
Qed.

Lemma build_answer_message f hd t ls vip qtype rdata :
  length hd = 12%nat → bytes_ok hd → ls ≠ [] → Forall wire_label ls → record_data qtype vip = Some rdata →
  length (vip6 (vi_ipv6 vip)) = 16%nat →
  build_answer f (hd ++ t) (str_join dot ls) vip qtype =
    answer_message (take 2 hd) [0x81; 0x84] ls qtype (rcf_dns_ttl_secs (td_config f)) rdata.
Proof.
  intros Hl Hok Hne Hls Hd Hv6. unfold build_answer, answer_message. rewrite response_header_id, write_qname_wire by done.
  destruct hd as [|a [|b hd]]; [done|done|]. unfold record_data in Hd. cbn [take app].
  destruct (N.eqb_spec qtype 1); [|destruct (N.eqb_spec qtype 28); [|done]]; injection Hd as <-;
    unfold set_ancount; cbn [app length Nat.leb take drop]; rewrite <- !app_assoc, ?Hv6; reflexivity.
Qed.

Lemma build_nxdomain_message hd t ls :
  length hd = 12%nat → bytes_ok hd → ls ≠ [] → Forall wire_label ls →
  build_nxdomain (hd ++ t) (str_join dot ls) = nxdomain_message (take 2 hd) [0x81; 0x83] ls.
Proof.
  intros Hl Hok Hne Hls. unfold build_nxdomain, nxdomain_message. rewrite response_header_id, write_qname_wire by done.
  by rewrite <- app_assoc.
Qed.

(** Any question with a name of proper labels. *)
Lemma query_response f hd ls qtype rest :
  length hd = 12%nat → bytes_ok hd → ls ≠ [] → Forall wire_label ls → qtype < 2 ^ 16 →
  handle_udp_query (dns_question hd ls qtype rest) f =
    let names := str_lower <$> ls in
    let name := str_join dot names in
    if is_mesh_tld (td_config f) (default EmptyString (last names)) then
      Some (match resolve_str debug_str (td_resolver f) name None with
            | Ok vip => build_answer f (dns_question hd ls qtype rest) name vip qtype
            | Err _ => nxdomain_message (take 2 hd) [0x81; 0x83] names
            end)
    else forward_to_upstream ask_upstream (dns_question hd ls qtype rest) (td_config f).
Proof.
  intros Hl Hok Hne Hls Hq. unfold DnsForwarder.handle_udp_query, dns_question.
  destruct (Nat.ltb_spec (length (hd ++ wire_name ls ++ be_bytes 2 qtype ++ be_bytes 2 1 ++ rest)) 12) as [Hlt|_].
  { rewrite length_app in Hlt. lia. }
  rewrite drop_app_length' by done. rewrite extract_qname_wire by done. cbn [mbind option_bind].
  rewrite extract_qtype_wire; [|done|done|rewrite length_app, length_be_bytes; lia]. cbn [mbind option_bind]. cbv zeta.
  assert (Forall wire_label (str_lower <$> ls)) as Hlow.
  { apply Forall_fmap. eapply Forall_impl; [exact Hls|]. apply lower_wire_label. }
  unfold check_mesh_tld. rewrite str_split_join; [|by destruct ls|by eapply Forall_impl; [exact Hlow|intros l (? & ? & ? & ?)]].
  destruct (is_mesh_tld _ _); cbn [negb]; [|done]. f_equal. destruct (resolve_str _ _ _ _); [done|].
  apply build_nxdomain_message; try done. by destruct ls.
Qed.

(** A response: the first bit of the flags is set. *)
Definition is_response (flags : list N) : Prop := length flags = 2%nat ∧ N.testbit (default 0 (head flags)) 7 = true.
Definition response_code (flags : list N) : N := N.land (default 0 (flags !! 1%nat)) 15.

(** C35. From rosters to answers: for a question about [h.net.ray] of type A or
    AAAA, whatever precedes and follows it, the server answers with the question's
    identifier, the name in lower case and one record, of the type that was asked, with
    the address of the member the rosters in force name, and the name is read back from
    the answer; if no member has the name, the answer has the response code NXDOMAIN and
    no record. The flags of an answer with a record are left open but for the bit that
    marks a response: they are not what their comment says, see [answer_flags]. *)
Theorem server_answers_from_rosters config history hd h net qtype rest :
  length hd = 12%nat → bytes_ok hd → label_ok h → label_ok net → qtype = 1 ∨ qtype = 28 →
  let names := [str_lower h; str_lower net; TLD_SUFFIX] in
  let member := roster_of (rosters_in_force history) (str_lower net) ≫= λ ro, host_member ro (str_lower h) in
  let reply := handle_udp_query (dns_question hd [h; net; TLD_SUFFIX] qtype rest)
                 (mkTunDnsForwarder (resolver_run config history) config) in
  (∀ m rdata, member = Some m → record_data qtype (mm_virtual_ip m) = Some rdata →
     length (vip6 (vi_ipv6 (mm_virtual_ip m))) = 16%nat →
     (∃ flags, is_response flags ∧ reply = Some (answer_message (take 2 hd) flags names qtype (rcf_dns_ttl_secs config) rdata)) ∧
     (reply ≫= λ r, extract_qname (drop 12 r)) = Some (str_join dot names)) ∧
  (member = None → ∃ flags, is_response flags ∧ response_code flags = 3 ∧ reply = Some (nxdomain_message (take 2 hd) flags names)).
Proof.
  intros Hl Hok Hh Hn Hq names member reply.
  assert (Forall label_ok [h; net; TLD_SUFFIX]) as Hls by (repeat apply Forall_cons_2; auto using label_ok_ray, Forall_nil_2).
  assert (Forall wire_label [h; net; TLD_SUFFIX]) as Hw by (eapply Forall_impl; [exact Hls|apply label_ok_wire]).
  assert (Forall wire_label names) as Hwn by (apply (proj2 (Forall_fmap str_lower wire_label [h; net; TLD_SUFFIX])); eapply Forall_impl; [exact Hw|apply lower_wire_label]).
  assert (reply = Some (match resolve_spec (rosters_in_force history) (mkMagicQuery (mkMagicName (str_lower h) (Some (str_lower net)) true) None) with
            | Ok vip => build_answer (mkTunDnsForwarder (resolver_run config history) config) (dns_question hd [h; net; TLD_SUFFIX] qtype rest) (str_join dot names) vip qtype
            | Err _ => nxdomain_message (take 2 hd) [0x81; 0x83] names end)) as Hreply.
  { unfold reply. rewrite query_response by (done || lia). cbv zeta.
    change (str_lower <$> [h; net; TLD_SUFFIX]) with names. change (default EmptyString (last names)) with TLD_SUFFIX.
    change (is_mesh_tld _ TLD_SUFFIX) with true. cbn [td_resolver]. unfold resolve_str.
    rewrite (proj2 (name_parse_iff debug_str (str_join dot names) (mkMagicName (str_lower h) (Some (str_lower net)) true))).
    - cbv beta iota. by rewrite resolver_refines_rosters.
    - split.
      + destruct Hh as (_ & Hh & _), Hn as (_ & Hn & _). unfold MAX_LABEL_LEN, MAX_NAME_LEN in *.
        unfold names. cbn [str_join]. rewrite !str_length_app. cbn [String.length]. rewrite !str_length_app, !length_str_lower. cbn. lia.
      + exists names. split_and!; [done| |].
        * repeat apply Forall_cons_2; auto using lower_label_ok, label_ok_ray, Forall_nil_2.
        * cbn. by rewrite !str_lower_idem. }
  unfold resolve_spec in Hreply. cbn [mq_name mn_hostname mn_network] in Hreply. split.
  - intros m rdata Hm Hd Hv6. assert (reply = Some (answer_message (take 2 hd) [0x81; 0x84] names qtype (rcf_dns_ttl_secs config) rdata)) as ->.
    { rewrite Hreply. unfold member in Hm. destruct (roster_of _ _) as [ro|]; [|done]. cbn in Hm. rewrite Hm. cbn [ok_or].
      f_equal. by apply build_answer_message. }
    split; [by exists [0x81; 0x84]|]. cbn [mbind option_bind]. unfold answer_message.
    rewrite (app_assoc (take 2 hd)), (app_assoc (take 2 hd ++ _)), drop_app_length' by (rewrite !length_app, length_take, Hl; reflexivity).
    rewrite extract_qname_wire by done. unfold names. cbn [fmap list_fmap]. by rewrite !str_lower_idem.
  - intros Hm. rewrite Hreply. unfold member in Hm. exists [0x81; 0x83]. split_and!; [done..|].
    destruct (roster_of _ _) as [ro|]; [|done]. cbn in Hm. by rewrite Hm.
Qed.
End Server.

(** ** Answers are well-formed packets *)

Section Packets.

Lemma fold_step s : ∃ q r, s = 65536 * q + r ∧ r < 65536 ∧ N.land s 0xffff + N.shiftr s 16 = r + q.
Proof.
  exists (s / 65536), (s mod 65536). split_and!; [by apply N.div_mod|by apply N.mod_lt|].
  change 0xffff with (N.ones 16). by rewrite N.land_ones, N.shiftr_div_pow2.
Qed.

Lemma fold_mod q r : (r + q) mod 0xffff = (65536 * q + r) mod 0xffff.
Proof. assert (65536 * q + r = (r + q) + q * 0xffff) as -> by lia. by rewrite N.Div0.mod_add. Qed.

(** Two rounds bring a sum of 32 bits below 2^16 and keep it modulo 65535. *)
Lemma fold_carry_spec s :
  s < 2 ^ 32 → fold_carry 2 s ≤ 0xffff ∧ fold_carry 2 s mod 0xffff = s mod 0xffff ∧ (0 < s → 0 < fold_carry 2 s).
Proof.
  intros Hs. change (2 ^ 32) with 4294967296 in Hs. cbn [fold_carry].
  destruct (fold_step s) as (q & r & -> & Hr & ->). destruct (fold_step (r + q)) as (q' & r' & Hrq & Hr' & ->).
  destruct (N.ltb_spec 65535 (65536 * q + r)); [|split_and!; (done || lia)].
  destruct (N.ltb_spec 65535 (r + q)); [|split_and!; [lia|apply fold_mod|lia]].
  split_and!; [lia| |lia]. by rewrite fold_mod, <- Hrq, fold_mod.
Qed.

Lemma complement16 s : s ≤ 0xffff → N.lxor 0xffffffff s mod 2 ^ 16 = 0xffff - s.
Proof.
  intros Hs. change 0xffffffff with (N.ones 32). rewrite N.lxor_comm. change (N.lxor s (N.ones 32)) with (N.lnot s 32).
  rewrite N.lnot_sub_low.
  - change (N.ones 32) with 4294967295. assert (4294967295 - s = (65535 - s) + 65535 * 2 ^ 16) as -> by lia.
    rewrite N.Div0.mod_add. apply N.mod_small. change (2 ^ 16) with 65536. lia.
  - destruct (N.eq_dec s 0) as [->|Hz]; [done|]. apply N.log2_lt_pow2; [lia|]. change (2 ^ 32) with 4294967296. lia.
Qed.

(** A checksum put into a word of the header that was zero makes the header sum up. *)
Lemma checksum_verifies (sum : N) :
  0 < sum → sum + 0xffff < 2 ^ 32 →
  fold_carry 2 (sum + N.lxor 0xffffffff (fold_carry 2 sum) mod 2 ^ 16) = 0xffff.
Proof.
  intros Hs Hb. destruct (fold_carry_spec sum ltac:(lia)) as (Hle & Hm & Hpos). specialize (Hpos Hs).
  rewrite complement16 by done. set (r := fold_carry 2 sum) in *.
  destruct (fold_carry_spec (sum + (65535 - r)) ltac:(lia)) as (Hle' & Hm' & Hpos'). specialize (Hpos' ltac:(lia)).
  set (r' := fold_carry 2 (sum + (65535 - r))) in *.
  assert (r' mod 65535 = 0) as Hz.
  { rewrite Hm', <- N.Div0.add_mod_idemp_l, <- Hm, N.Div0.add_mod_idemp_l.
    replace (r + (65535 - r)) with 65535 by lia. done. }
  apply N.Div0.mod_divides in Hz as [k Hk]. assert (k = 1) by nia. lia.
Qed.

Lemma be_value2 n : n < 2 ^ 16 → be_value (be_bytes 2 n) = n.
Proof. intros Hn. rewrite be_value_be_bytes. by apply N.mod_small. Qed.

Lemma ip_header_words total ck src dst :
  length src = 4%nat → N.of_nat total < 2 ^ 16 → ck < 2 ^ 16 →
  header_words (ip_header total ck src dst) =
    [0x4500; N.of_nat total; 0; 0; 0x4011; ck] ++ header_words src ++ header_words dst.
Proof.
  intros Hs Ht Hc. destruct src as [|a [|b [|c [|d [|]]]]]; try done. unfold ip_header.
  transitivity ([0x4500; be_value (be_bytes 2 (N.of_nat total)); 0; 0; 0x4011; be_value (be_bytes 2 ck)] ++
                header_words [a; b; c; d] ++ header_words dst); [reflexivity|]. by rewrite !be_value2.
Qed.

Lemma octets4_ok addr : addr < 2 ^ 32 → bytes_ok (octets4 addr).
Proof.
  intros Ha. unfold octets4. repeat constructor; unfold byte_ok; try (apply N.mod_lt; done).
  apply N.Div0.div_lt_upper_bound. exact Ha.
Qed.

Lemma words4_bound bs : length bs = 4%nat → bytes_ok bs → foldr N.add 0 (header_words bs) < 2 ^ 17.
Proof.
  intros Hl Hb. destruct bs as [|a [|b [|c [|d [|]]]]]; try done.
  inversion Hb as [|?? Ha Hb1]. inversion Hb1 as [|?? Hb' Hb2]. subst. inversion Hb2 as [|?? Hc Hb3]. inversion Hb3 as [|?? Hd _]. subst.
  cbn [header_words foldr]. pose proof (be_value_bound [a; b] ltac:(by repeat constructor)).
  pose proof (be_value_bound [c; d] ltac:(by repeat constructor)). change (256 ^ N.of_nat (length [a; b])) with 65536 in *.
  change (256 ^ N.of_nat (length [c; d])) with 65536 in *. change (2 ^ 17) with 131072. lia.
Qed.

(** The packet without its length guard. *)
Definition response_packet (f : TunDnsForwarder) (dns dst : list N) (src_port : N) : list N :=
  let udp_len := (8 + length dns)%nat in
  let src := octets4 (local_ipv4 f) in
  let header ck := ip_header (20 + udp_len) ck src dst in
  header (ip_checksum (header 0)) ++ udp_header DNS_PORT src_port udp_len ++ dns.

(** A response leaves as a well-formed packet: unless the DNS message has more
    than 65507 bytes, which is the only error, the packet parses as UDP over IPv4
    from the local address to the sender of the query, its length is its length
    field, its header checksum verifies, the ports are 53 and the port the query
    came from, and its payload is the DNS message. *)
Theorem response_packet_wellformed f dns original src_port :
  length (ParsedPacket_src_v4 original) = 4%nat → bytes_ok (ParsedPacket_src_v4 original) →
  local_ipv4 f < 2 ^ 32 → src_port < 2 ^ 16 →
  let pkt := response_packet f dns (ParsedPacket_src_v4 original) src_port in
  wrap_in_ip f dns original src_port =
    (if N.of_nat (length dns) <=? 65507 then Ok pkt else Err (PacketTooLarge (28 + length dns))) ∧
  (N.of_nat (length dns) ≤ 65507 →
   parse_packet pkt = Ok (mkParsedPacket V4 PUdp (octets4 (local_ipv4 f) ++ replicate 12 0)
                            (ParsedPacket_src_v4 original ++ replicate 12 0) 20 (length pkt)) ∧
   ip_checksum (take 20 pkt) = 0 ∧ read_udp_port pkt 20 = 53 ∧ read_udp_port pkt 22 = src_port ∧ drop 28 pkt = dns).
Proof.
  intros Hl Hd Hip Hport pkt. set (dst := ParsedPacket_src_v4 original) in *. split.
  { unfold wrap_in_ip. change (20 + (8 + length dns))%nat with (28 + length dns)%nat.
    destruct (N.ltb_spec 65535 (N.of_nat (28 + length dns))), (N.leb_spec (N.of_nat (length dns)) 65507); (done || lia). }
  intros Hlen. unfold pkt, response_packet. set (total := (20 + (8 + length dns))%nat). set (src := octets4 (local_ipv4 f)).
  assert (N.of_nat total < 2 ^ 16) as Htot by (change (2 ^ 16) with 65536; lia).
  set (ck := ip_checksum (ip_header total 0 src dst)).
  assert (ck < 2 ^ 16) as Hck by (apply N.mod_lt; done).
  assert (length src = 4%nat) as Hsrc by done. pose proof (words4_bound src Hsrc (octets4_ok _ Hip)) as Hws. pose proof (words4_bound dst Hl Hd) as Hwd.
  assert (fold_carry 2 (foldr N.add 0 (header_words (ip_header total ck src dst))) = 0xffff) as Hsum.
  { set (ws := foldr N.add 0 (header_words src)) in *. set (wd := foldr N.add 0 (header_words dst)) in *.
    assert (∀ c, c < 2 ^ 16 → foldr N.add 0 (header_words (ip_header total c src dst)) = (0x8511 + N.of_nat total + ws + wd) + c) as Hw.
    { intros c Hc. rewrite ip_header_words, !foldr_app by done. cbn [foldr].
      assert (∀ l k, foldr N.add k l = foldr N.add 0 l + k) as Hfold by (intros l k; induction l as [|x l IH]; cbn; [done|rewrite IH; lia]).
      rewrite (Hfold (header_words src)). fold ws wd. lia. }
    rewrite Hw by done. unfold ck, ip_checksum. rewrite (Hw 0), N.add_0_r by done. apply checksum_verifies; [lia|].
    change (2 ^ 17) with 131072 in *. change (2 ^ 16) with 65536 in *. change (2 ^ 32) with 4294967296. lia. }
  assert (length (ip_header total ck src dst) = 20%nat) as Hh.
  { unfold ip_header. rewrite !length_app, !length_be_bytes, Hsrc, Hl. done. }
  set (rest := udp_header DNS_PORT src_port (8 + length dns) ++ dns).
  assert (length (ip_header total ck src dst ++ rest) = total) as Hpl.
  { rewrite length_app, Hh. unfold rest, udp_header. rewrite !length_app, !length_be_bytes. cbn [length]. unfold total. lia. }
  split_and!.
  - apply parse_packet_iff. split; [done|]. left. split; [done|]. apply parse_v4_iff. rewrite Hpl. unfold v4_view.
    assert (be16_at (ip_header total ck src dst ++ rest) 2 = total) as ->.
    { unfold be16_at. transitivity (N.to_nat (be_value (be_bytes 2 (N.of_nat total)))); [done|]. rewrite be_value2 by done. lia. }
    change (v4_header (ip_header total ck src dst ++ rest)) with 20%nat. split_and!; [lia|lia|lia|].
    f_equal; clearbody ck; destruct dst as [|d0 [|d1 [|d2 [|d3 [|]]]]]; done.
  - rewrite take_app_length' by done. unfold ip_checksum. by rewrite Hsum.
  - unfold read_udp_port. rewrite Hpl. destruct (Nat.ltb_spec total (20 + 2)); [lia|].
    clearbody ck. by destruct dst as [|d0 [|d1 [|d2 [|d3 [|]]]]].
  - unfold read_udp_port. rewrite Hpl. destruct (Nat.ltb_spec total (22 + 2)); [lia|].
    clearbody ck. transitivity (be_value (be_bytes 2 src_port)); [|by apply be_value2]. by destruct dst as [|d0 [|d1 [|d2 [|d3 [|]]]]].
  - unfold rest. rewrite app_assoc. apply drop_app_length'. rewrite length_app, Hh. done.
Qed.
End Packets.

(** ** The forwarder reads the header as the question *)

Section Misread.
Context (debug_str unicode_lowercase : string → string).
(** Lower case of a text keeps its control characters. *)
Hypothesis lowercase_control : ∀ c s,
  N_of_ascii c < 32 → str_lacks c (unicode_lowercase s) = true → str_lacks c s = true.
Notation to_lowercase := (to_lowercase unicode_lowercase).
Notation maybe_handle := (maybe_handle debug_str unicode_lowercase).

(** A character that no name has. *)
Definition bad_char (c : ascii) : bool := negb (name_char c || Ascii.eqb c dot).

Lemma bad_char_no_name c raw m :
  bad_char c = true → str_lacks c raw = false → MagicName_parse debug_str raw = Ok m → False.
Proof.
  intros Hb Hl Hp%parsed_chars. apply not_true_iff_false in Hl. apply Hl.
  refine (str_forallb_impl _ _ _ _ Hp). intros a Ha. destruct (Ascii.eqb_spec a c) as [->|]; [|done]. unfold bad_char in Hb. by rewrite Ha in Hb.
Qed.

Lemma join_lacks c ls l : l ∈ ls → str_lacks c l = false → str_lacks c (str_join dot ls) = false.
Proof.
  intros Hl Hc. induction ls as [|l' ls IH]; [by apply elem_of_nil in Hl|]. cbn [str_join].
  destruct ls as [|l2 ls]; [by apply list_elem_of_singleton in Hl as ->|]. unfold str_lacks in *. rewrite str_forallb_app.
  apply elem_of_cons in Hl as [->|Hl]; [by rewrite Hc|]. rewrite andb_false_iff. right. cbn [str_forallb]. by rewrite IH, andb_false_r.
Qed.

Lemma bytes_contain b bs : b < 256 → b ∈ bs → str_lacks (ascii_of_N b) (string_of_bytes bs) = false.
Proof.
  intros Hb Hi. unfold string_of_bytes, str_lacks. induction bs as [|x bs IH]; [by apply elem_of_nil in Hi|]. cbn.
  apply elem_of_cons in Hi as [->|Hi]; [by rewrite Ascii.eqb_refl|]. by rewrite IH, andb_false_r.
Qed.

Lemma lower_lacks c l : ascii_lower c = c → str_lacks c (str_lower l) = true → str_lacks c l = true.
Proof.
  unfold str_lacks. intros Hc. induction l as [|a l IH]; [done|]. cbn. rewrite !andb_true_iff, !negb_true_iff, !Ascii.eqb_neq.
  intros [Ha Hl]. split; [congruence|by apply IH].
Qed.

(** A control character of a label stays in the text of the label. *)
Lemma label_control b bs : b < 32 → b ∈ bs → str_lacks (ascii_of_N b) (to_lowercase (string_of_bytes bs)) = false.
Proof.
  intros Hb Hi. pose proof (bytes_contain b bs ltac:(lia) Hi) as Hl. apply not_true_iff_false. intros Hlow.
  apply not_true_iff_false in Hl. apply Hl. unfold DnsForwarder.to_lowercase in Hlow.
  destruct (str_forallb is_ascii_char (string_of_bytes bs)).
  - apply lower_lacks; [|done]. apply Ascii.eqb_eq.
    apply (N_check (λ n, Ascii.eqb (ascii_lower (ascii_of_N n)) (ascii_of_N n)) 32); [done|exact Hb].
  - apply lowercase_control; [|done]. by rewrite N_ascii_embedding by lia.
Qed.

Lemma misread_labels fuel id0 id1 f1 rest ls :
  f1 = 0 ∨ f1 = 32 → take_labels unicode_lowercase fuel (id0 :: id1 :: 1 :: f1 :: rest) = Some ls →
  ls = [] ∨ ∃ l c, l ∈ ls ∧ bad_char c = true ∧ str_lacks c l = false.
Proof.
  intros Hf H. destruct fuel as [|fuel]; [done|]. cbn [take_labels] in H.
  destruct (N.eqb_spec id0 0) as [->|H0]; [left; congruence|]. right.
  destruct (N.eqb_spec id0 1) as [->|H1].
  - change (N.to_nat 1) with 1%nat in H. cbn [take drop length Nat.ltb Nat.leb] in H.
    destruct (utf8_valid [id1]); [|done]. destruct fuel as [|fuel]; [done|]. cbn [take_labels] in H.
    change (N.to_nat 1) with 1%nat in H. cbn [take drop length Nat.ltb Nat.leb N.eqb] in H.
    change (take 0 rest) with (@nil N) in H. destruct (utf8_valid [f1]); [|done]. apply bind_Some in H as (ls' & H & [= <-]). apply bind_Some in H as (ls'' & _ & [= <-]).
    exists (to_lowercase (string_of_bytes [f1])), (ascii_of_N f1). split; [right; left|]. destruct Hf as [-> | ->]; split; reflexivity.
  - destruct (Nat.ltb_spec (length (id1 :: 1 :: f1 :: rest)) (N.to_nat id0)); [done|]. destruct (utf8_valid _); [|done].
    apply bind_Some in H as (ls' & _ & [= <-]). eexists _, (ascii_of_N 1). split; [left|]. split; [done|].
    apply label_control; [done|]. destruct (N.to_nat id0) as [|[|n]] eqn:Hn; [lia|lia|]. right. left.
Qed.

(** The forwarder reads the query name from the start of the DNS message, where
    the header is. For a query of the usual form, whose flags ask for recursion, it
    never answers with an address, whatever the rosters are: it passes the packet
    on or says that the name does not exist. *)
Theorem forwarder_never_resolves f raw parsed id0 id1 f1 rest :
  drop (pp_header_len parsed + 8) raw = id0 :: id1 :: 1 :: f1 :: rest → f1 = 0 ∨ f1 = 32 →
  maybe_handle f raw parsed = Ok None ∨
  ∃ qname, maybe_handle f raw parsed =
    let? out := wrap_in_ip f (build_nxdomain (id0 :: id1 :: 1 :: f1 :: rest) qname) parsed (read_udp_port raw (pp_header_len parsed)) in
    Ok (Some out).
Proof.
  intros Hd Hf. unfold DnsForwarder.maybe_handle. cbv zeta. rewrite Hd.
  destruct (is_dns_packet parsed); [|by left]. cbn [negb].
  destruct (read_udp_port raw (pp_header_len parsed + 2) =? DNS_PORT); [|by left]. cbn [negb]. destruct (Nat.leb _ _); [by left|].
  unfold extract_qname. destruct (take_labels _ _ _) as [ls|] eqn:Hls; [|by left]. cbn [mbind option_bind].
  apply misread_labels in Hls as [->|(l & c & Hl & Hc & Hlc)]; [by left| |done].
  destruct ls as [|l0 ls]; [by apply elem_of_nil in Hl|]. pose proof (join_lacks c _ _ Hl Hlc) as Hj. set (qname := str_join dot (l0 :: ls)) in *.
  destruct (check_mesh_tld f qname); [|by left]. right. exists qname. cbn [negb]. unfold resolve_mesh_query, resolve_str.
  destruct (MagicName_parse debug_str qname) as [m|e] eqn:Hp; [|done]. by destruct (bad_char_no_name c qname m).
Qed.
End Misread.

(** ** Corners of the messages *)

(** The comment on the flags announces an authoritative answer without an error:
    the AA bit is not set, and an answer carries the code 4, not implemented. *)
Lemma answer_flags question :
  byte_at (build_response_header question false) 2 = 0x81 ∧ byte_at (build_response_header question false) 3 = 0x84 ∧
  N.land 0x81 0x04 = 0 ∧ N.land 0x84 0x0f = 4.
Proof. done. Qed.

(** To a question of another type about a known host the answer section is empty
    by its count, but half a record follows the question. *)
Lemma other_types_leave_bytes f question qname vip qtype :
  qtype ≠ 1 → qtype ≠ 28 →
  build_answer f question qname vip qtype =
    build_response_header question false ++ write_qname qname ++ be_bytes 2 qtype ++ [0; 1] ++
    write_qname qname ++ be_bytes 2 qtype ++ [0; 1] ++ be_bytes 4 (rcf_dns_ttl_secs (td_config f)).
Proof.
  intros H1 H28. unfold build_answer. destruct (N.eqb_spec qtype 1), (N.eqb_spec qtype 28); [done|done|done|].
  unfold set_ancount, build_response_header. cbn [app length be_bytes Nat.leb take drop]. by rewrite <- !app_assoc.
Qed.

(** The refusal over TCP skips one byte too many, so that the type and the class
    of a plain question are missing although the header counts a question. *)
Lemma echo_tail_wire ls rest fuel :
  Forall wire_label ls → (length (wire_name ls ++ rest) < fuel)%nat → echo_tail fuel (wire_name ls ++ rest) = drop 1 rest.
Proof.
  intros Hls. revert fuel. induction Hls as [|l ls (Hne & _ & _ & Ha) Hls IH]; intros fuel Hf.
  { destruct fuel; [lia|]. done. }
  destruct (wire_round l ls rest Hne) as (t & Ht & Hz & Hlen & Htake & Hdrop). rewrite Ht in Hf |- *. cbn [length] in Hf.
  destruct fuel as [|fuel]; [lia|]. cbn [echo_tail]. rewrite Hz, Hdrop. apply IH. lia.
Qed.

Lemma refusal_misses_type lowercase hd ls qtype :
  length hd = 12%nat → bytes_ok hd → ls ≠ [] → Forall wire_label ls →
  empty_nxdomain lowercase (dns_question hd ls qtype []) =
    take 2 hd ++ [0x81; 0x83; 0; 1; 0; 0; 0; 0; 0; 0] ++ wire_name (str_lower <$> ls).
Proof.
  intros Hl Hok Hne Hls. unfold empty_nxdomain, dns_question. rewrite response_header_id, drop_app_length' by done. cbv zeta.
  rewrite extract_qname_wire, echo_tail_wire by (done || lia). cbn [from_option id]. rewrite write_qname_wire.
  - cbn [be_bytes app drop length Nat.leb]. by rewrite app_nil_r, <- app_assoc.
  - by destruct ls.
  - apply Forall_fmap. eapply Forall_impl; [exact Hls|]. apply lower_wire_label.
Qed.

(** ** A mesh with one host *)

Definition ex_history : list (string * MeshMembership) :=
  [("gaming", MeshMembership_new_unsigned 0 (mkMeshNetworkId "n")
      [mkMeshMember (mkNodeId "a") "alice" (mkVirtualIp (mkVirtualIpv4 (ipv4_of 100 64 0 7)) (mkVirtualIpv6 (2 :: 0 :: replicate 14 7))) false 0])].
Definition ex_forwarder : TunDnsForwarder := mkTunDnsForwarder (resolver_run ResolverConfig_default ex_history) ResolverConfig_default.
Definition ex_dns_header (id0 : N) : list N := [id0; 52; 1; 0; 0; 1; 0; 0; 0; 0; 0; 0].
Definition ex_dns_query (id0 : N) : list N := dns_question (ex_dns_header id0) ["Alice"; "gaming"; TLD_SUFFIX] 1 [].
(** A packet from 100.64.0.10, port 54321. *)
Definition ex_packet (dns : list N) : list N :=
  ip_header (28 + length dns) 0 [100; 64; 0; 10] [100; 64; 0; 1] ++ udp_header 54321 DNS_PORT (8 + length dns) ++ dns.
Definition ex_handle (dns : list N) : option (result ForwarderError (option (list N))) :=
  match parse_packet (ex_packet dns) with
  | Ok parsed => Some (maybe_handle id id ex_forwarder (ex_packet dns) parsed)
  | Err _ => None
  end.

(** The same question: the server gives the address of the member; the forwarder
    passes the packet on, and for a query whose identifier starts with the byte 11
    it denies that the name exists. *)
Lemma forwarder_denies_known_host :
  (λ r, drop 60 r) <$> handle_udp_query id id (λ _ _, None) (ex_dns_query 18) ex_forwarder = Some [0; 4; 100; 64; 0; 7] ∧
  ex_handle (ex_dns_query 18) = Some (Ok None) ∧
  (∃ pkt, ex_handle (ex_dns_query 11) = Some (Ok (Some pkt)) ∧ N.land (byte_at pkt 31) 0x0f = 3).
Proof. split_and!; [by vm_compute|by vm_compute|]. eexists. split; vm_compute; reflexivity. Qed.

Lemma server_answers_from_rosters_witness :
  ∃ flags, handle_udp_query id id (λ _ _, None) (dns_question (ex_dns_header 18) ["Alice"; "gaming"; TLD_SUFFIX] 1 []) ex_forwarder =
    Some (answer_message [18; 52] flags ["alice"; "gaming"; TLD_SUFFIX] 1 300 [100; 64; 0; 7]).
Proof.
  destruct (server_answers_from_rosters id id (λ _ _, None) ResolverConfig_default ex_history (ex_dns_header 18) "Alice" "gaming" 1 []) as [H _].
  - reflexivity.
  - by repeat constructor.
  - unfold label_ok, MAX_LABEL_LEN. split_and!; [discriminate|cbn; lia|discriminate|discriminate|reflexivity].
  - unfold label_ok, MAX_LABEL_LEN. split_and!; [discriminate|cbn; lia|discriminate|discriminate|reflexivity].
  - by left.
  - destruct (H (mkMeshMember (mkNodeId "a") "alice" (mkVirtualIp (mkVirtualIpv4 (ipv4_of 100 64 0 7)) (mkVirtualIpv6 (2 :: 0 :: replicate 14 7))) false 0)
        [100; 64; 0; 7]) as [(flags & _ & Hr) _]; [vm_compute; reflexivity|vm_compute; reflexivity|reflexivity|]. exists flags. exact Hr.
Defined.

Lemma response_packet_wellformed_witness :
  ∃ p, parse_packet (ex_packet (ex_dns_query 18)) = Ok p ∧
    ip_checksum (take 20 (response_packet ex_forwarder [1; 2; 3] (ParsedPacket_src_v4 p) 54321)) = 0.
Proof.
  destruct (parse_packet (ex_packet (ex_dns_query 18))) as [p|e] eqn:Hp; [|vm_compute in Hp; discriminate].
  exists p. split; [reflexivity|].
  destruct (response_packet_wellformed ex_forwarder [1; 2; 3] p 54321) as [_ H].
  - vm_compute in Hp. injection Hp as <-. reflexivity.
  - vm_compute in Hp. injection Hp as <-. by repeat constructor.
  - vm_compute. reflexivity.
  - vm_compute. reflexivity.
  - apply H. vm_compute. discriminate.
Defined.

Lemma forwarder_never_resolves_witness :
  ∃ p, parse_packet (ex_packet (ex_dns_query 11)) = Ok p ∧
    ∃ qname, maybe_handle id id ex_forwarder (ex_packet (ex_dns_query 11)) p =
      let? out := wrap_in_ip ex_forwarder (build_nxdomain (ex_dns_query 11) qname) p (read_udp_port (ex_packet (ex_dns_query 11)) (pp_header_len p)) in
      Ok (Some out).
Proof.
  destruct (parse_packet (ex_packet (ex_dns_query 11))) as [p|e] eqn:Hp; [|vm_compute in Hp; discriminate].
  exists p. split; [reflexivity|].
  destruct (forwarder_never_resolves id id (λ _ _ _ H, H) ex_forwarder (ex_packet (ex_dns_query 11)) p 11 52 0 (drop 4 (ex_dns_query 11)))
    as [H|[qname H]].
  - vm_compute in Hp. injection Hp as <-. vm_compute. reflexivity.
  - by left.
  - vm_compute in Hp. injection Hp as <-. vm_compute in H. discriminate.
  - exists qname. exact H.
Defined.
